(* ===== verification/_CoqProject ===== *)
-Q . S2P
Prelude.v
Float64.v
FloatSigned.v
RustStr.v
Json.v
Errors.v
Names.v
Digest.v
Paths.v
HttpUtil.v
Policy.v
Auth.v
Routes.v
Quota.v
NetAddr.v
Config.v
AuthLoad.v
RateLimit.v
Metadata.v
MetaExport.v
MetaLog.v
MetaStore.v
Lmdb.v
LmdbFacts.v
LmdbRefines.v
LmdbQueries.v
MetaViews.v
SmallCache.v
Effect.v
Triple.v
Migrate.v
MigrateFacts.v
MigrateCrash.v
StorageApi.v
Routing.v
FileSys.v
FileSysFacts.v
UploadBody.v
LockMap.v
BufPool.v
Walk.v
Layout.v
Manifests.v
Handlers.v
HandlersFacts.v
Lifecycle.v
ObjectStore.v
S3Storage.v
S3Keys.v
S3Facts.v
S3Backend.v
S3Recover.v
S3Run.v
FsStorage.v
FsInvariant.v
Startup.v
FsSessions.v
FsBackend.v
FsRun.v
StartupFacts.v
FsSurvive.v
Scrub.v
ScrubFacts.v
ScrubRate.v
Telemetry.v
Registry.v
Server.v
S3Registry.v
FastRestart.v
FastRestartFacts.v
Backends.v
Reload.v
Connection.v
Cli.v
