(* ===== verification/Prelude.v ===== *)
(** * roci: a verification development

    roci is an OCI distribution registry written in Rust. A request passes
    through the HTTP layer (crates/roci-core): the path is parsed, the principal
    is authenticated and authorized, and a handler calls the [Storage] trait
    (crates/roci-storage, storage.rs). The routing store (routing.rs) picks a
    backend by repository prefix; the filesystem backend (fs_storage/) keeps
    blobs in an OCI image layout, the tags, referrers and back references in a
    metadata engine (metadata/), and derived state in memory: a presence filter,
    a byte-bounded cache, a deduplication index, quotas and the candidates of the
    garbage collector. The S3 backend (crates/roci-storage-s3) keeps blobs and
    index.json as objects of a bucket, and stages uploads and metadata locally.
    At start the derived state is rebuilt by a walk over the files or a listing
    of the bucket, or read from a fast-restart stamp; in the background index.json
    is rewritten, garbage is swept and blobs are scrubbed. The command line
    (crates/roci-cli) resolves and validates the configuration (crates/roci-config),
    builds the authentication engine, the limiters and the backends from it,
    accepts connections, with TLS and client certificates if configured, and
    reloads the access control when its file changes.

    ** How the code is modelled

    The definitions are executable and translate the Rust functions they name.
    Results are [result E A]; effects are programs of the state and error monad
    [M] of Effect.v over a record of the component's state; loops that are not
    structural take fuel, and the theorems about them say that the fuel used is
    enough. Machine integers are [Z] with their wrap-around or saturation written
    out (Prelude.v). Bytes are lists of [ascii], strings are Rocq strings of
    bytes, maps are [gmap]; where the order of a hash map's iteration reaches a
    result it is a parameter ([HashIter]).

    The file system is a tree of nodes with inode numbers (FileSys.v); every
    system call consults a [World], which may make it fail, so that the theorems
    hold for every pattern of failures. Theorems about what must succeed assume a
    world without failures. An operation runs atomically because the code holds
    the session, admission or collector lock around it; what happens between the
    hash and the fence of the scrubber is left arbitrary. The object store behind
    the S3 backend is a class of calls (ObjectStore.v): each may fail at any time,
    and a failed write may or may not have taken effect, but never in part.

    Code outside the repository is a parameter with the laws its documentation
    gives: hash functions and hexadecimal ([Crypto]), HMAC ([Hmac]), serde_json
    ([SerdeJson], [SerdeLaws], [StampSerde]), the LRU map ([Lru]), the cuckoo
    filter ([Cuckoo]), LMDB ([Heed], [HeedLaws]), JWT and password verification
    (Auth.v), URL decoding ([UrlEncoded]), the object_store client and its paths
    ([ObjectStore], [ObjPaths]), URLs ([UrlCrate]), TOML ([TomlCrate]), PEM and
    X.509 ([PkiCrates]), LDAP ([LdapCrate]), the LRU map of clients ([ClientMap]),
    TLS ([Rustls], [RustlsLaws]), request bodies ([HttpBody]), the printing of
    floats ([DisplayF64]). Toy instances show that the laws can hold and are used
    by the witnesses.

    Floating point is IEEE binary64 as the Standard Library defines it (SpecFloat),
    with bounds on its rounding (Float64.v). Concurrency appears where it is what
    the code is about: the writers of the log (MetaLog.v) and the threads that use
    a keyed lock (LockMap.v) are step relations over all interleavings.

    ** Files

    - Prelude.v, RustStr.v, Json.v, Effect.v: results, integers, Rust's string
      functions, JSON values, the monad and its small logic of relations.
    - Errors.v (error.rs of both crates), Names.v (names.rs), Digest.v
      (digest.rs), Paths.v (fs_storage/paths.rs), HttpUtil.v (http_util.rs).
    - Policy.v (auth/policy.rs), Auth.v (auth/mod.rs, bearer.rs, cache.rs,
      middleware.rs), Routes.v (routes.rs, classify_endpoint of lib.rs),
      Manifests.v and Handlers.v (manifests.rs, blobs.rs, uploads.rs, listing.rs,
      dispatch and the health checks), HandlersFacts.v and Registry.v (their
      theorems, over every backend that keeps the laws and over the filesystem
      backend).
    - AuthLoad.v (auth/mod.rs: from_config; bearer.rs: load; ldap.rs, identity.rs,
      htpasswd.rs: load), Float64.v and RateLimit.v (ratelimit.rs), Server.v
      (lib.rs: build_router; conn_close.rs).
    - LockMap.v (lock_map.rs), BufPool.v (bufpool.rs), Telemetry.v
      (roci-telemetry/src/metrics.rs, metrics_router of lib.rs).
    - Quota.v (quota.rs), Metadata.v and MetaExport.v (the in-memory index, its
      mutations, queries and export), MetaLog.v (metadata/log.rs, wal_hmac.rs),
      MetaStore.v (the trait [MetadataStore] as a class with laws, and the log
      engine as its instance), SmallCache.v (cache.rs, filter.rs).
    - Lmdb.v (metadata/lmdb.rs: keys, tables, mutations, queries), LmdbFacts.v
      (byte order, composite keys, tables and scans), LmdbRefines.v (the
      simulation between tables and index), LmdbQueries.v (the refinement).
    - Migrate.v (metadata/mod.rs: the marker file, the choice of the engine at
      start and the staged migration from one engine to the other, over a world
      in which every step may fail or be the last), MetaViews.v (when two indexes
      answer alike, and what an export carries over), MigrateFacts.v and
      MigrateCrash.v (what a start leaves behind, whatever happens in it).
    - StorageApi.v (storage.rs: the trait [Storage] as a class, its laws, blob
      streams), Routing.v (routing.rs: the routed store keeps the laws when the
      backends do).
    - FileSys.v, FileSysFacts.v (beneath.rs, publish.rs), UploadBody.v
      (upload_body.rs), Walk.v and Layout.v (layout.rs), Lifecycle.v (gc.rs,
      dedupe.rs, lifecycle.rs).
    - FsStorage.v (fs_storage/storage_impl.rs, lifecycle.rs, index.rs, gc.rs),
      FsInvariant.v, FsSessions.v, FsRun.v, FsSurvive.v (their theorems over all
      runs), FsBackend.v (the instance of [Storage] and its laws).
    - Triple.v (triples over an invariant, for the two backends), ObjectStore.v
      (the object store and its laws), S3Storage.v (roci-storage-s3/src: keys.rs,
      client.rs, uploads.rs and the trait of storage_impl.rs), S3Recover.v (its
      start, recovery, collector and readiness probe), S3Keys.v, S3Facts.v (the
      invariant and the triples of the operations), S3Backend.v (the instance of
      [Storage] and its laws), S3Run.v and S3Registry.v (theorems over all runs).
    - Config.v (roci-config/src/lib.rs: sections, defaults, validation) and
      NetAddr.v (is_internal_host, url_host and the address parser they use).
    - Startup.v, StartupFacts.v (with_config, seeding, recovery and the
      consistency check), Scrub.v, ScrubFacts.v (fs_storage/scrub.rs),
      FastRestart.v, FastRestartFacts.v (fs_storage/fast_restart.rs,
      maintenance.rs).
    - roci-cli/src/lib.rs: Backends.v ([AnyBackend], the table of backends with
      their shared quota, [build_storage]), Reload.v (the reload of the access
      control), Connection.v ([build_tls_acceptor], [PinnedClientVerifier],
      [handle_conn], [TowerToHyperService], [Activity]), Cli.v ([resolve_config],
      [serve] as a start and a step for every event).

    ** What the theorems show

    - Content: every reachable state of the backend serves only content that
      hashes to its digest (served_content_is_authentic); what was acknowledged
      is stored (landed_blob_is_stored) and stays until its own deletion or a
      justified sweep (blob_survives); uploads extend their staging file exactly
      or not at all (append_upload_extends, append_body_spec).
    - The same over a bucket: whatever calls fail, the S3 backend keeps the storage
      contract, so the registry answers as specified (s3_registry_answers); blobs
      stay until deleted or justly swept (s3_blob_survives); keys can be read back
      (s3_keys_roundtrip); no change of an index is lost (index_writer_honest);
      redirects stay on the configured, external hosts (s3_redirect_confined,
      internal_host_blocks); the creation of the bucket is bounded
      (create_bucket_bounded). Content up to the limit of a server-side copy
      (5 GiB, the default limit of an upload) is covered.
    - Metadata: acknowledged mutations survive crashes (wal_durable,
      wal_torn_tail, compaction_preserves); the secondary indexes agree with the
      primary data (metadata_invariant); deletion and paging are exact; the LMDB
      engine answers every query as the in-memory index does (lmdb_refines).
      A start that migrates between the engines keeps every answer, whether it
      completes, fails or is cut short at any step (migration_keeps_metadata,
      migration_recovers); what the log engine cannot export is lost
      (migration_loses). The directory calls of a migration take effect in order
      and wholly; the engines are opened with the LMDB feature compiled in.
    - Access: no request reaches storage without its grant (dispatch_authorized,
      mount_needs_pull, bearer_sound, user_authenticated, grants_user_spec), and
      the parsers decide their grammars (parse_path_spec, parse_grammar,
      glob_match_components, json_depth_exceeds_spec, paths_confined).
    - The process: from the command line on, through connection, layers, routing
      and either backend, every successful answer was admitted, is allowed and
      keeps its promise (served_answers); the layers guard the storage
      (storage_guarded, refusals_contained); users are who the configuration says
      (served_users, configured_user_sound, from_config_complete,
      cert_identity_spec, pinned_clients); the policy follows the file (reload_follows); a token bucket
      limits the rate and says when to come back (bucket_limit, retry_after_honest,
      per_client_independent); idle connections are closed and no others
      (idle_close); an unread body closes the connection (unread_body_closes).
    - Locks, pools and metrics: two threads are never inside for one key
      (locks_exclude), pools are bounded and hand out empty buffers (pool_bounded),
      a scrape can be read back (scrape_reads_back).
    - The registry: every request is answered as the specification requires
      (registry_answers), and the only panic is characterised (dispatch_panics);
      a validated configuration is well-formed (validated_storage).
    - Restart and background work: a restarted store serves its blobs
      (restart_serves, fast_restart_serves), a stamp is used once
      (stamp_used_once), the scrubber visits everything, harms nothing and
      removes what is corrupt (scrub_visits_all, scrub_spares_healthy,
      scrub_verdict), the collector's rebuild terminates and is complete
      (rebuild_backrefs_complete), quota and cache bounds hold.
    - Errors of the code, shown on concrete runs: hidden_repository,
      fast_restart_drift, quarantine_name_collision, migration_loses,
      duplicate_upload_leaves_staging_file, torn_tail_hides_later_records,
      export_media_type_lost, upload_index_collision, stale_after_race,
      metrics_path_taken, and the last part of reload_follows.

    Fuel: the worklist of the back-reference rebuild takes as many turns as there
    are manifests plus one (rebuild_backrefs_complete gives the bound); a scrub
    pass takes one turn per blob (scrub_visits_all); the loops over log records,
    names, streams and eviction take the length of what they consume; copies and
    uploads of objects take a turn per byte, since every part has at least one;
    the creation of the bucket ends within 16 attempts; the wait for idleness takes
    two turns more than there were reads and writes (idle_close); a reader of
    labels takes the length of the text.

    ** Not modelled

    - The building of the S3 client from credentials and certificates, which only
      hands them to the object_store crate; the interleaving of two operations of
      the S3 backend on one key within an operation.
    - The token bucket of the scrubber, which only delays it, and the detection of
      file systems with checksums of their own; the timers of background work.
    - The accept loop with its sockets, signals and shutdown, main.rs, and the
      set-up of tracing and of the exporters: calls of libraries.
    - The aggregation of metrics, which the SDK does; TLS, LDAP and bcrypt themselves.
    - Fault injection, the benchmarks and the crates without content. *)

From Stdlib Require Export ZArith Lia Ascii.
From stdpp Require Export sorting numbers gmap strings base tactics list.

(** ** Results

    Rust's [Result<A, E>]. The error type comes first, so that the monad below
    is a monad in the value. *)

Inductive result (E A : Type) : Type :=
  | Ok (a : A)
  | Err (e : E).
Arguments Ok {E A} a.
Arguments Err {E A} e.

Declare Scope roci_scope.
Delimit Scope roci_scope with roci.
#[global] Open Scope roci_scope.

Definition result_bind {E A B} (r : result E A) (k : A → result E B) : result E B :=
  match r with
  | Ok a => k a
  | Err e => Err e
  end.

(** [let? x := e in k] is Rust's [let x = e?; k]. *)
Notation "'let?' x := e 'in' k" := (result_bind e (λ x, k))
  (at level 10, x name, e at level 100, k at level 200) : roci_scope.
Notation "'let?' ' p := e 'in' k" := (result_bind e (λ x, match x with p => k end))
  (at level 10, p strict pattern, e at level 100, k at level 200) : roci_scope.

Definition map_err {E F A} (f : E → F) (r : result E A) : result F A :=
  match r with
  | Ok a => Ok a
  | Err e => Err (f e)
  end.

Definition is_ok {E A} (r : result E A) : bool :=
  match r with Ok _ => true | Err _ => false end.

Definition ok {E A} (r : result E A) : option A :=
  match r with Ok a => Some a | Err _ => None end.

Definition ok_or {E A} (o : option A) (e : E) : result E A :=
  match o with Some a => Ok a | None => Err e end.

#[export] Instance result_eq_dec {E A} `{!EqDecision E, !EqDecision A} :
  EqDecision (result E A).
Proof. solve_decision. Defined.

Lemma result_bind_ok {E A B} (r : result E A) (k : A → result E B) b :
  result_bind r k = Ok b ↔ ∃ a, r = Ok a ∧ k a = Ok b.
Proof. destruct r; simpl; naive_solver. Qed.

Lemma result_bind_err {E A B} (r : result E A) (k : A → result E B) e :
  result_bind r k = Err e ↔ r = Err e ∨ ∃ a, r = Ok a ∧ k a = Err e.
Proof. destruct r; simpl; naive_solver. Qed.

Lemma ok_or_ok {E A} (o : option A) (e : E) a : ok_or o e = Ok a ↔ o = Some a.
Proof. destruct o; simpl; naive_solver. Qed.

Lemma map_err_ok {E F A} (f : E → F) (r : result E A) a : map_err f r = Ok a ↔ r = Ok a.
Proof. destruct r; simpl; naive_solver. Qed.

Lemma is_ok_true {E A} (r : result E A) : is_ok r = true ↔ ∃ a, r = Ok a.
Proof. destruct r; simpl; naive_solver. Qed.

(** An early return: [if b { return Err(e) } k]. *)
Lemma guard_ok {E A} (b : bool) (e : E) (k : result E A) a :
  (if b then Err e else k) = Ok a → b = false ∧ k = Ok a.
Proof. by destruct b. Qed.

(** ** Machine integers

    A [u64] (and a 64-bit [usize]) is a [Z] in [0, 2^64). *)

Definition u64_max : Z := 2 ^ 64 - 1.
Definition is_u64 (n : Z) : Prop := (0 ≤ n ≤ u64_max)%Z.

Definition u64_wrap (n : Z) : Z := n `mod` 2 ^ 64.
Definition saturating_add (a b : Z) : Z := (a + b) `min` u64_max.
Definition saturating_sub (a b : Z) : Z := (a - b) `max` 0.

Lemma saturating_add_u64 a b : is_u64 a → is_u64 b → is_u64 (saturating_add a b).
Proof. unfold is_u64, saturating_add. lia. Qed.

Lemma saturating_sub_u64 a b : is_u64 a → is_u64 b → is_u64 (saturating_sub a b).
Proof. unfold is_u64, saturating_sub. lia. Qed.

Lemma saturating_add_exact a b : (a + b ≤ u64_max)%Z → saturating_add a b = (a + b)%Z.
Proof. unfold saturating_add. lia. Qed.

(** ** Bytes

    A [u8] is an [ascii] (eight bits), a [&str] a [string] (its UTF-8 bytes)
    and a [Vec<u8>] a [list ascii]. *)

Abbreviation bytes := (list ascii).

Definition u8 (b : ascii) : Z := Z.of_N (N_of_ascii b).

Definition as_bytes (s : string) : bytes := String.list_ascii_of_string s.
Definition of_bytes (l : bytes) : string := String.string_of_list_ascii l.

(** [s.len()]: the length in bytes. *)
Definition slen (s : string) : Z := Z.of_nat (String.length s).
Definition blen (l : bytes) : Z := Z.of_nat (length l).

Lemma of_as_bytes s : of_bytes (as_bytes s) = s.
Proof. apply String.string_of_list_ascii_of_string. Qed.

Lemma as_of_bytes l : as_bytes (of_bytes l) = l.
Proof. apply String.list_ascii_of_string_of_list_ascii. Qed.

#[export] Instance as_bytes_inj : Inj (=) (=) as_bytes.
Proof. intros s t H. by rewrite <-(of_as_bytes s), <-(of_as_bytes t), H. Qed.

Lemma as_bytes_length s : length (as_bytes s) = String.length s.
Proof. induction s; simpl; auto. Qed.

Lemma as_bytes_app s t : as_bytes (s +:+ t) = as_bytes s ++ as_bytes t.
Proof. induction s as [|c s IH]; [done|]. unfold String.append; simpl. f_equal. exact IH. Qed.

Lemma blen_nonneg l : (0 ≤ blen l)%Z.
Proof. unfold blen. lia. Qed.

Lemma blen_app l k : blen (l ++ k) = (blen l + blen k)%Z.
Proof. unfold blen. rewrite length_app. lia. Qed.

Lemma u8_range b : (0 ≤ u8 b < 256)%Z.
Proof.
  unfold u8. pose proof (N_ascii_bounded b) as H. lia.
Qed.

Lemma u8_inj a b : u8 a = u8 b → a = b.
Proof.
  unfold u8. intros H%N2Z.inj. rewrite <-(ascii_N_embedding a), <-(ascii_N_embedding b). by rewrite H.
Qed.

(** ** Automation

    [roci] is the hint database of the development. [case_res] splits every
    [let?] of the hypotheses; [bool_simp] turns boolean tests into
    propositions. *)

Create HintDb roci discriminated.
#[export] Hint Resolve saturating_add_u64 saturating_sub_u64 blen_nonneg : roci.

Ltac case_res :=
  repeat match goal with
  | H : result_bind _ _ = Ok _ |- _ => apply result_bind_ok in H as (? & ? & H)
  | H : (if _ then Err _ else _) = Ok _ |- _ => apply guard_ok in H as [? H]
  | H : ok_or _ _ = Ok _ |- _ => apply ok_or_ok in H
  | H : map_err _ _ = Ok _ |- _ => apply map_err_ok in H
  | H : Ok _ = Ok _ |- _ => injection H as H
  | H : Err _ = Err _ |- _ => injection H as H
  | H : Ok _ = Err _ |- _ => discriminate H
  | H : Err _ = Ok _ |- _ => discriminate H
  end; simplify_eq.

Ltac bool_simp :=
  repeat match goal with
  | H : (_ && _)%bool = true |- _ => apply andb_true_iff in H as [? ?]
  | H : (_ || _)%bool = false |- _ => apply orb_false_iff in H as [? ?]
  | H : negb _ = true |- _ => apply negb_true_iff in H
  | H : negb _ = false |- _ => apply negb_false_iff in H
  | H : bool_decide _ = true |- _ => apply bool_decide_eq_true_1 in H
  | H : bool_decide _ = false |- _ => apply bool_decide_eq_false_1 in H
  | H : (_ =? _)%Z = true |- _ => apply Z.eqb_eq in H
  | H : (_ =? _)%Z = false |- _ => apply Z.eqb_neq in H
  | H : (_ <? _)%Z = true |- _ => apply Z.ltb_lt in H
  | H : (_ <? _)%Z = false |- _ => apply Z.ltb_ge in H
  | H : (_ <=? _)%Z = true |- _ => apply Z.leb_le in H
  | H : (_ <=? _)%Z = false |- _ => apply Z.leb_gt in H
  end.

(** ** Generic lemmas *)

Lemma forallb_Forall_bool {A} (p : A → bool) (l : list A) :
  forallb p l = true ↔ Forall (λ x, p x = true) l.
Proof.
  induction l as [|x l IH]; simpl; [done|].
  by rewrite andb_true_iff, IH, Forall_cons.
Qed.

Lemma existsb_Exists_bool {A} (p : A → bool) (l : list A) :
  existsb p l = true ↔ ∃ x, x ∈ l ∧ p x = true.
Proof. rewrite existsb_exists. by setoid_rewrite list_elem_of_In. Qed.

(** The bitwise or of a list of bytes, as the constant-time comparisons of the
    code fold it, is zero only when every byte is. *)
Lemma fold_lor_zero (l : list Z) (acc : Z) :
  foldl Z.lor acc l = 0%Z ↔ acc = 0%Z ∧ Forall (λ z, z = 0%Z) l.
Proof.
  revert acc. induction l as [|x l IH]; intros acc; simpl.
  - split; [auto|intros [? _]; done].
  - rewrite IH, Z.lor_eq_0_iff, Forall_cons. tauto.
Qed.

(** Constant-time comparison of two byte strings of the same length. *)
Lemma xor_fold_eq (a b : bytes) :
  length a = length b →
  foldl Z.lor 0%Z (zip_with (λ x y, Z.lxor (u8 x) (u8 y)) a b) = 0%Z ↔ a = b.
Proof.
  intros Hlen. rewrite fold_lor_zero. split.
  - intros [_ H]. revert b Hlen H. induction a as [|x a IH]; intros [|y b] Hlen H; simpl in *; try lia; [done|].
    apply Forall_cons in H as [Hxy H]. apply Z.lxor_eq in Hxy. apply u8_inj in Hxy as ->.
    f_equal. apply IH; [lia|done].
  - intros <-. split; [done|]. clear Hlen. induction a as [|x a IH]; simpl; constructor; [apply Z.lxor_nilpotent|done].
Qed.
