(* ===== verification/Float64.v ===== *)
(** Binary64 numbers ([f64]) as far as the program uses them: the operations of
    the Standard Library's [SpecFloat] at the precision of binary64, the
    conversions to and from integers and durations, and what is known of the
    rounding of non-negative numbers.

    The lemmas measure a number by an integer: [V x] is the value of [x] times
    [2 ^ B], for a [B] beyond every exponent that occurs. *)

From Stdlib Require Import SpecFloat.
From S2P Require Import Prelude.

#[local] Open Scope Z_scope.

Abbreviation f64 := spec_float.
Definition f64_zero : f64 := S754_zero false.
Definition f64_one : f64 := S754_finite false 4503599627370496 (-52).

Definition f64_add : f64 → f64 → f64 := SFadd 53 1024.
Definition f64_sub : f64 → f64 → f64 := SFsub 53 1024.
Definition f64_mul : f64 → f64 → f64 := SFmul 53 1024.
Definition f64_div : f64 → f64 → f64 := SFdiv 53 1024.

(** [a >= b]; false when one of them is not a number. *)
Definition f64_ge (a b : f64) : bool := SFleb b a.

(** [f64::min]: the other one when one of them is not a number. *)
Definition f64_min (a b : f64) : f64 :=
  match a, b with
  | S754_nan, _ => b
  | _, S754_nan => a
  | _, _ => if SFleb a b then a else b
  end.

(** [f64::from] and [as f64] of an unsigned integer. *)
Definition f64_of_Z (n : Z) : f64 := binary_normalize 53 1024 n 0 false.

(** The least integer not below a number that is not negative. *)
Definition ceil_pos (m : positive) (e : Z) : Z :=
  if 0 <=? e then Zpos m * 2 ^ e else - (- Zpos m / 2 ^ (- e)).

(** [x.ceil() as u64]: the cast saturates, and takes what is not a number to
    zero. *)
Definition f64_ceil_u64 (x : f64) : Z :=
  match x with
  | S754_finite false m e => ceil_pos m e `min` u64_max
  | S754_infinity false => u64_max
  | _ => 0
  end.

(** [Duration::as_secs_f64] of a number of nanoseconds. *)
Definition NANOS_PER_SEC : Z := 10 ^ 9.
Definition as_secs_f64 (ns : Z) : f64 :=
  f64_add (f64_of_Z (ns / NANOS_PER_SEC)) (f64_div (f64_of_Z (ns `mod` NANOS_PER_SEC)) (f64_of_Z NANOS_PER_SEC)).

(** ** Scaled values *)

Definition B : Z := 3000.
Definition W (e : Z) : Z := 2 ^ (e + B).

(** A number that is not negative and in its normal form. *)
Definition valid (x : f64) : Prop :=
  match x with
  | S754_zero _ => True
  | S754_finite s m e => s = false ∧ bounded 53 1024 m e = true
  | _ => False
  end.

Definition V (x : f64) : Z := match x with S754_finite _ m e => Zpos m * W e | _ => 0 end.

Abbreviation fexp64 := (fexp 53 1024).
Abbreviation digits m := (Zdigits2 m).

Lemma fexp64_eq e : fexp64 e = (e - 53) `max` (-1074).
Proof. reflexivity. Qed.

Lemma bounded_spec m e :
  bounded 53 1024 m e = true ↔ fexp64 (digits (Zpos m) + e) = e ∧ e ≤ 971.
Proof. unfold bounded, canonical_mantissa. rewrite andb_true_iff, Z.eqb_eq, Z.leb_le. done. Qed.

Lemma W_pos e : - B ≤ e → 0 < W e.
Proof. intros He. apply Z.pow_pos_nonneg; lia. Qed.

Lemma W_add e k : - B ≤ e → 0 ≤ k → W (e + k) = W e * 2 ^ k.
Proof. intros He Hk. unfold W. rewrite <-Z.pow_add_r by lia. f_equal. lia. Qed.

Lemma W_scale a k b : - B ≤ a → 0 ≤ k → a + k = b → W a * 2 ^ k = W b.
Proof. intros Ha Hk <-. by rewrite W_add. Qed.

Lemma W_mul a b : - B ≤ a → - B ≤ b → - B ≤ a + b → W a * W b = W (a + b) * W 0.
Proof. intros Ha Hb Hab. unfold W, B in *. rewrite <-!Z.pow_add_r by lia. f_equal. lia. Qed.

Lemma W_mono a b : - B ≤ a → a ≤ b → W a ≤ W b.
Proof. intros Ha Hb. apply Z.pow_le_mono_r; lia. Qed.

Lemma digits_pos p : 0 < digits (Zpos p).
Proof. done. Qed.

Lemma digits_bounds p : 2 ^ (digits (Zpos p) - 1) ≤ Zpos p < 2 ^ digits (Zpos p).
Proof.
  simpl. induction p as [p IH|p IH|]; simpl digits2_pos; [| |done];
    rewrite Pos2Z.inj_succ; (replace (Z.succ (Zpos (digits2_pos p)) - 1) with (Z.succ (Zpos (digits2_pos p) - 1)) by lia);
    rewrite !Z.pow_succ_r by lia; lia.
Qed.

(** The number of digits is the position of the leading one. *)
Lemma digits_unique m d : 0 < m → 0 ≤ d → 2 ^ (d - 1) ≤ m < 2 ^ d → digits m = d.
Proof.
  intros Hm Hd [H1 H2]. destruct m as [|p|p]; try lia. pose proof (digits_bounds p) as [D1 D2].
  pose proof (digits_pos p).
  destruct (Z.lt_trichotomy (digits (Zpos p)) d) as [Hlt|[?|Hlt]]; [|done|].
  - assert (2 ^ digits (Zpos p) ≤ 2 ^ (d - 1)) by (apply Z.pow_le_mono_r; lia). lia.
  - assert (2 ^ d ≤ 2 ^ (digits (Zpos p) - 1)) by (apply Z.pow_le_mono_r; lia). lia.
Qed.

Lemma digits_le m d : 0 < m → 0 ≤ d → m < 2 ^ d → digits m ≤ d.
Proof.
  intros Hm Hd H. destruct m as [|p|p]; try lia. pose proof (digits_bounds p) as [D1 _].
  assert (digits (Zpos p) - 1 < d); [|lia]. apply (Z.pow_lt_mono_r_iff 2); lia.
Qed.

Lemma digits_ge m d : 0 < m → 0 ≤ d → 2 ^ d ≤ m → d < digits m.
Proof.
  intros Hm Hd H. destruct m as [|p|p]; try lia. pose proof (digits_bounds p) as [_ D2].
  apply (Z.pow_lt_mono_r_iff 2); [lia| |lia]. apply Z.lt_le_incl, digits_pos.
Qed.

(** ** Shifting and rounding *)

Definition inexact (mrs : shr_record) : bool := shr_r mrs || shr_s mrs.

Lemma shr_1_spec mrs :
  0 ≤ shr_m mrs → shr_m (shr_1 mrs) = shr_m mrs / 2 ∧
  inexact (shr_1 mrs) = negb (shr_m mrs `mod` 2 =? 0) || inexact mrs.
Proof.
  destruct mrs as [[|[p|p|]|p] r s]; simpl; intros Hm; try lia; unfold inexact; simpl.
  - done.
  - split; [apply (Z.div_unique_pos _ _ _ 1); lia|].
    by rewrite <-(Z.mod_unique_pos (Zpos p~1) 2 (Zpos p) 1) by lia.
  - split; [apply (Z.div_unique_pos _ _ _ 0); lia|].
    by rewrite <-(Z.mod_unique_pos (Zpos p~0) 2 (Zpos p) 0) by lia.
  - done.
Qed.

Lemma iter_pos_nat {A} (f : A → A) p x : SpecFloat.iter_pos f p x = Nat.iter (Pos.to_nat p) f x.
Proof.
  revert x. induction p as [p IH|p IH|]; intros x; cbn [SpecFloat.iter_pos]; [| |done].
  - rewrite !IH, Pos2Nat.inj_xI, <-Nat.iter_add, <-Nat.iter_succ_r. f_equal. lia.
  - rewrite !IH, Pos2Nat.inj_xO, <-Nat.iter_add. f_equal. lia.
Qed.

Lemma shr_iter_spec n mrs :
  0 ≤ shr_m mrs → let mrs' := Nat.iter n shr_1 mrs in
  shr_m mrs' = shr_m mrs / 2 ^ Z.of_nat n ∧
  inexact mrs' = negb (shr_m mrs `mod` 2 ^ Z.of_nat n =? 0) || inexact mrs.
Proof.
  intros Hm. induction n as [|n IH]; simpl.
  { change (2 ^ Z.of_nat 0) with 1. rewrite Z.div_1_r, Z.mod_1_r. done. }
  destruct IH as [I1 I2]. set (mrs' := Nat.iter n shr_1 mrs) in *.
  assert (Hp : 0 < 2 ^ Z.of_nat n) by (apply Z.pow_pos_nonneg; lia).
  destruct (shr_1_spec mrs') as [-> ->]; [rewrite I1; apply Z.div_pos; lia|].
  rewrite I1, I2, Nat2Z.inj_succ, Z.pow_succ_r, Z.mul_comm by lia. split; [by rewrite Z.div_div by lia|].
  rewrite orb_assoc. f_equal. rewrite Z.rem_mul_r by lia.
  pose proof (Z.mod_pos_bound (shr_m mrs) (2 ^ Z.of_nat n) Hp).
  pose proof (Z.mod_pos_bound (shr_m mrs / 2 ^ Z.of_nat n) 2 ltac:(lia)).
  destruct (Z.eqb_spec ((shr_m mrs / 2 ^ Z.of_nat n) `mod` 2) 0), (Z.eqb_spec (shr_m mrs `mod` 2 ^ Z.of_nat n) 0);
    simpl; symmetry; first [apply negb_false_iff, Z.eqb_eq; lia | apply negb_true_iff, Z.eqb_neq; nia].
Qed.

Lemma shr_spec mrs e k :
  0 ≤ shr_m mrs → 0 ≤ k → ∃ mrs', shr mrs e k = (mrs', e + k) ∧ shr_m mrs' = shr_m mrs / 2 ^ k ∧
    inexact mrs' = negb (shr_m mrs `mod` 2 ^ k =? 0) || inexact mrs.
Proof.
  intros Hm Hk. destruct k as [|p|p]; [| |lia].
  - exists mrs. change (2 ^ 0) with 1. rewrite Z.div_1_r, Z.mod_1_r, Z.add_0_r. by destruct mrs.
  - exists (SpecFloat.iter_pos shr_1 p mrs).
    destruct (shr_iter_spec (Pos.to_nat p) mrs Hm) as [I1 I2]. rewrite positive_nat_Z in I1, I2.
    rewrite <-iter_pos_nat in I1, I2. done.
Qed.

Definition loc_inexact (l : location) : bool := match l with loc_Exact => false | _ => true end.

Lemma record_of_loc m l : shr_m (shr_record_of_loc m l) = m ∧ inexact (shr_record_of_loc m l) = loc_inexact l.
Proof. by destruct l as [|[]]. Qed.

Lemma round_even_cases q mrs :
  round_nearest_even q (loc_of_shr_record mrs) = q ∨
  round_nearest_even q (loc_of_shr_record mrs) = q + 1 ∧ inexact mrs = true.
Proof.
  destruct mrs as [m [] []]; simpl; auto. destruct (Z.even q); auto.
Qed.

(** The second normalization: a carry out of the mantissa moves it one place. *)
Lemma renormalize q E :
  0 ≤ q ≤ 2 ^ 53 → -1074 ≤ E ≤ 900 → (E = -1074 ∨ 2 ^ 52 ≤ q) →
  let '(mrs, e) := shr_fexp 53 1024 q E loc_Exact in
  let r := match shr_m mrs with
           | Z0 => S754_zero false
           | Zpos m => if e <=? 1024 - 53 then S754_finite false m e else S754_infinity false
           | _ => S754_nan
           end in
  valid r ∧ V r = q * W E.
Proof.
  intros [Hq0 Hq] HE Hc. unfold shr_fexp.
  assert (HW : W (E + 1) = W E * 2) by by rewrite W_add by (unfold B; lia).
  destruct (decide (q = 0)) as [->|Hne].
  { replace (shr _ E _) with (shr_record_of_loc 0 loc_Exact, E); [by split|].
    unfold shr. destruct (_ - E) as [|p|p] eqn:Ek; try done. rewrite fexp64_eq in Ek. simpl in Ek. lia. }
  destruct (decide (q = 2 ^ 53)) as [->|Hlt].
  { assert (fexp64 (digits (2 ^ 53) + E) - E = 1) as -> by (rewrite fexp64_eq; change (digits (2 ^ 53)) with 54; lia).
    change (shr (shr_record_of_loc (2 ^ 53) loc_Exact) E 1) with
      ({| shr_m := 2 ^ 52; shr_r := false; shr_s := false |}, E + 1). cbn [shr_m].
    change (2 ^ 52) with (Zpos 4503599627370496). cbv zeta. cbn match. rewrite (proj2 (Z.leb_le _ _)) by lia.
    split; [|simpl; rewrite HW; lia]. split; [done|]. apply bounded_spec.
    rewrite fexp64_eq. change (digits (Zpos 4503599627370496)) with 53. lia. }
  destruct q as [|p|p]; [done| |lia]. pose proof (digits_bounds p) as Hd.
  assert (Hd53 : digits (Zpos p) ≤ 53) by (apply digits_le; lia).
  assert (Hd52 : E = -1074 ∨ digits (Zpos p) = 53) by (destruct Hc; [by left|right]; apply digits_unique; lia).
  assert (fexp64 (digits (Zpos p) + E) = E) as HfE by (rewrite fexp64_eq; lia).
  rewrite HfE, Z.sub_diag. cbn [shr shr_record_of_loc shr_m]. rewrite (proj2 (Z.leb_le _ _)) by lia.
  split; [|done]. split; [done|]. apply bounded_spec. split; [done|lia].
Qed.

Lemma round_aux m e l :
  let E := fexp64 (digits m + e) in
  0 < m → e ≤ E → E ≤ 900 →
  ∃ q, (q = m / 2 ^ (E - e) ∨ q = m / 2 ^ (E - e) + 1 ∧ (l ≠ loc_Exact ∨ m `mod` 2 ^ (E - e) ≠ 0)) ∧
    valid (binary_round_aux 53 1024 false m e l) ∧ V (binary_round_aux 53 1024 false m e l) = q * W E.
Proof.
  intros E Hm He HE. destruct (record_of_loc m l) as [R1 R2].
  destruct (shr_spec (shr_record_of_loc m l) e (E - e)) as (mrs & Es & I1 & I2); [lia..|].
  assert (Er : shr_fexp 53 1024 m e l = (mrs, E)) by (unfold shr_fexp; fold E; rewrite Es; f_equal; lia).
  unfold binary_round_aux. rewrite Er. rewrite R1 in I1, I2. rewrite R2 in I2. clear Er Es R1 R2.
  set (q := round_nearest_even (shr_m mrs) (loc_of_shr_record mrs)).
  assert (Hq : q = m / 2 ^ (E - e) ∨ q = m / 2 ^ (E - e) + 1 ∧ (l ≠ loc_Exact ∨ m `mod` 2 ^ (E - e) ≠ 0)).
  { unfold q. rewrite I1. destruct (round_even_cases (m / 2 ^ (E - e)) mrs) as [->|[-> Hi]]; [by left|right].
    split; [done|]. rewrite Hi in I2. destruct (m `mod` 2 ^ (E - e) =? 0) eqn:Em; [|right; by apply Z.eqb_neq].
    left. by destruct l. }
  exists q. split; [done|]. destruct m as [|p|p]; try lia. pose proof (digits_bounds p) as [D1 D2].
  assert (Hk : 0 < 2 ^ (E - e)) by (apply Z.pow_pos_nonneg; lia).
  assert (HEe : E = (digits (Zpos p) + e - 53) `max` -1074) by apply fexp64_eq.
  assert (Hup : Zpos p / 2 ^ (E - e) < 2 ^ 53).
  { apply Z.div_lt_upper_bound; [done|]. rewrite <-Z.pow_add_r by lia.
    eapply Z.lt_le_trans; [exact D2|]. apply Z.pow_le_mono_r; lia. }
  assert (Hlow : E = -1074 ∨ 2 ^ 52 ≤ Zpos p / 2 ^ (E - e)).
  { destruct (decide (E = -1074)); [by left|right]. apply Z.div_le_lower_bound; [done|].
    rewrite <-Z.pow_add_r by lia. replace (E - e + 52) with (digits (Zpos p) - 1) by lia. done. }
  assert (0 ≤ Zpos p / 2 ^ (E - e)) by (apply Z.div_pos; lia).
  pose proof (renormalize q E ltac:(lia) ltac:(lia) ltac:(lia)) as Hr.
  destruct (shr_fexp 53 1024 q E loc_Exact) as [mrs' e']. done.
Qed.

(** Rounding, for a number [N / D] that lies in the place [m] and [l] say:
    the result is within one unit [W E] of the last place, and not above a
    multiple of it that the number is not above. *)
Lemma round_aux_spec m e l N D :
  let E := fexp64 (digits m + e) in
  let r := binary_round_aux 53 1024 false m e l in
  0 < m → 0 < D → - B ≤ e → e ≤ E → E ≤ 900 →
  m * W e * D ≤ N → N < (m + 1) * W e * D →
  (l = loc_Exact → N = m * W e * D) → (l ≠ loc_Exact → m * W e * D < N) →
  valid r ∧ V r * D < N + W E * D ∧
  (∀ n, N ≤ n * W E * D → V r ≤ n * W E) ∧ (∀ n, n * W E * D ≤ N → n * W E ≤ V r).
Proof.
  intros E r Hm HD HB He HE HN1 HN2 Hex Hin.
  destruct (round_aux m e l Hm He HE) as (q & Hq & Hv & HV). fold r in Hv, HV. fold E in Hq, HV. rewrite HV.
  assert (HW : W E = W e * 2 ^ (E - e)) by (rewrite <-W_add by lia; f_equal; lia).
  assert (Hp : 0 < 2 ^ (E - e)) by (apply Z.pow_pos_nonneg; lia). pose proof (W_pos e HB) as HWe.
  set (k := 2 ^ (E - e)) in *. pose proof (Z.div_mod m k ltac:(lia)) as Hdm.
  pose proof (Z.mod_pos_bound m k Hp) as Hr0. set (q0 := m / k) in *. set (r0 := m `mod` k) in *.
  (* the number is between the two neighbours *)
  assert (HWD : 0 < W e * D) by nia.
  assert (L0 : q0 * k * (W e * D) ≤ N) by (eapply Z.le_trans; [|exact HN1]; nia).
  assert (U0 : N < (q0 + 1) * k * (W e * D)).
  { eapply Z.lt_le_trans; [exact HN2|]. replace ((m + 1) * W e * D) with ((m + 1) * (W e * D)) by ring.
    apply Z.mul_le_mono_nonneg_r; nia. }
  assert (L1 : l ≠ loc_Exact ∨ r0 ≠ 0 → q0 * k * (W e * D) < N).
  { intros [Hl|Hr]; [specialize (Hin Hl); nia|]. eapply Z.lt_le_trans; [|exact HN1].
    replace (m * W e * D) with (m * (W e * D)) by ring. apply Z.mul_lt_mono_pos_r; lia. }
  rewrite HW. replace (W e * k * D) with (k * (W e * D)) by ring. split; [done|].
  destruct Hq as [->|[-> Hq]]; [clear L1|specialize (L1 Hq)].
  - split_and!; [nia| |]; intros n Hn.
    + assert (q0 ≤ n) by (apply (Z.mul_le_mono_pos_r _ _ (k * (W e * D))); nia). nia.
    + assert (n < q0 + 1) by (apply (Z.mul_lt_mono_pos_r (k * (W e * D))); nia). nia.
  - split_and!; [nia| |]; intros n Hn.
    + assert (q0 < n) by (apply (Z.mul_lt_mono_pos_r (k * (W e * D))); nia). nia.
    + assert (n < q0 + 1) by (apply (Z.mul_lt_mono_pos_r (k * (W e * D))); nia). nia.
Qed.

(** [r] is the number [N / D] rounded: it is on the same side of every number
    as [N / D] is, and above it by no more than one part in [2 ^ 52]. *)
Definition rounds (N D : Z) (r : f64) : Prop :=
  valid r ∧ (∀ y, valid y → N ≤ V y * D → V r ≤ V y) ∧ (∀ y, valid y → V y * D ≤ N → V y ≤ V r) ∧
  2 ^ 52 * (V r * D) ≤ (2 ^ 52 + 1) * N + 2 ^ 52 * W (-1074) * D.

Lemma valid_finite s m e :
  valid (S754_finite s m e) → s = false ∧ -1074 ≤ e ≤ 971 ∧ Zpos m < 2 ^ 53 ∧ (e = -1074 ∨ 2 ^ 52 ≤ Zpos m).
Proof.
  intros [-> [Hf He]%bounded_spec]. rewrite fexp64_eq in Hf. pose proof (digits_bounds m) as [D1 D2].
  split_and!; [done|lia|lia| |].
  - eapply Z.lt_le_trans; [exact D2|]. apply Z.pow_le_mono_r; lia.
  - destruct (decide (e = -1074)); [by left|right]. etrans; [|exact D1]. apply Z.pow_le_mono_r; lia.
Qed.

Lemma V_nonneg x : valid x → 0 ≤ V x.
Proof.
  destruct x as [| | |s m e]; simpl; try lia. intros (_ & He & _)%(valid_finite s m e).
  pose proof (W_pos e ltac:(unfold B; lia)). nia.
Qed.

Lemma rounds_refl N D x : valid x → 0 < D → N = V x * D → rounds N D x.
Proof.
  intros Hx HD ->. pose proof (V_nonneg x Hx). pose proof (W_pos (-1074) ltac:(done)).
  split_and!; [done|intros y _ Hy..|]; [nia..|]. nia.
Qed.

(** A number on the grid of the last place, or one that is out of reach. *)
Lemma grid y E N D :
  valid y → 0 < D → -1074 ≤ E → (E = -1074 ∨ W E * 2 ^ 52 * D ≤ N) →
  (∃ n, V y = n * W E) ∨ E ≠ -1074 ∧ V y < 2 ^ 52 * W E ∧ V y * D < N.
Proof.
  intros Hy HD HE Hn. pose proof (W_pos E ltac:(unfold B; lia)) as HW.
  destruct y as [s| | |s m e]; [left; by exists 0|done|done|].
  apply valid_finite in Hy as (_ & He & Hm & _). simpl.
  destruct (decide (E ≤ e)) as [Hle|Hlt].
  - left. exists (Zpos m * 2 ^ (e - E)). replace e with (E + (e - E)) at 1 by lia. rewrite W_add by (unfold B; lia). ring.
  - right. destruct Hn as [->|Hn]; [lia|].
    assert (Hw : W e * 2 ≤ W E) by (change 2 with (2 ^ 1); rewrite <-W_add by (unfold B; lia); apply W_mono; unfold B; lia).
    pose proof (W_pos e ltac:(unfold B; lia)). split; [lia|].
    assert (Zpos m * W e < 2 ^ 52 * W E) by nia. split; [done|]. nia.
Qed.

Lemma round_aux_rounds m e l N D :
  0 < m → 0 < D → - B ≤ e → e ≤ fexp64 (digits m + e) → fexp64 (digits m + e) ≤ 900 →
  m * W e * D ≤ N → N < (m + 1) * W e * D →
  (l = loc_Exact → N = m * W e * D) → (l ≠ loc_Exact → m * W e * D < N) →
  rounds N D (binary_round_aux 53 1024 false m e l).
Proof.
  intros Hm HD HB He HE HN1 HN2 Hex Hin.
  destruct (round_aux_spec m e l N D Hm HD HB He HE HN1 HN2 Hex Hin) as (Hv & Hup & Hmu & Hml).
  set (E := fexp64 (digits m + e)) in *. set (r := binary_round_aux _ _ _ _ _ _) in *.
  assert (HEe : E = (digits m + e - 53) `max` -1074) by apply fexp64_eq.
  pose proof (W_pos E ltac:(unfold B; lia)) as HW. pose proof (W_pos (-1074) ltac:(done)).
  assert (HN : E = -1074 ∨ W E * 2 ^ 52 * D ≤ N).
  { destruct (decide (E = -1074)); [by left|right]. destruct m as [|p|p]; try lia.
    pose proof (digits_bounds p) as [D1 _]. rewrite <-W_add by (unfold B; lia).
    etrans; [|exact HN1]. apply Z.mul_le_mono_nonneg_r; [lia|].
    replace (E + 52) with (e + (digits (Zpos p) - 1)) by lia. rewrite W_add by lia. pose proof (W_pos e HB). nia. }
  split_and!; [done| | |].
  - intros y Hy HNy. destruct (grid y E N D) as [[n Hn]|(_ & _ & ?)]; [done|done|lia|done| |lia].
    rewrite Hn in *. by apply Hmu.
  - intros y Hy HNy. destruct (grid y E N D) as [[n Hn]|(Hne & Hlt & ?)]; [done|done|lia|done|rewrite Hn in *; by apply Hml|].
    destruct HN as [|HN]; [done|]. pose proof (Hml (2 ^ 52) ltac:(lia)). lia.
  - assert (0 ≤ N) by (pose proof (W_pos e HB); nia). destruct HN as [HEm|HN]; [rewrite HEm in *; nia|]. nia.
Qed.

(** ** The operations round *)

Lemma fexp_small m e : 0 < m → - B ≤ e → m * W e ≤ W 900 → fexp64 (digits m + e) ≤ 900.
Proof.
  intros Hm He Hx. rewrite fexp64_eq. destruct m as [|p|p]; try lia. pose proof (digits_bounds p) as [D1 _].
  pose proof (digits_pos p). assert (digits (Zpos p) - 1 + e ≤ 900); [|lia].
  destruct (decide (digits (Zpos p) - 1 + e ≤ 900)); [done|exfalso].
  assert (W 901 ≤ W (e + (digits (Zpos p) - 1))) by (apply W_mono; unfold B in *; lia).
  rewrite W_add in H0 by (unfold B in *; lia). change 901 with (900 + 1) in H0. rewrite W_add in H0 by done.
  pose proof (W_pos e He). pose proof (W_pos 900 ltac:(done)). nia.
Qed.

Lemma shl_align_spec m e e' :
  - B ≤ e → - B ≤ e' → let '(m', f) := shl_align m e e' in
  f = e `min` e' ∧ Zpos m' * W f = Zpos m * W e ∧ digits (Zpos m') + f = digits (Zpos m) + e.
Proof.
  intros He He'. unfold shl_align.
  assert (Hit : ∀ d, Zpos (Pos.iter xO m d) = Zpos m * 2 ^ Zpos d ∧ digits (Zpos (Pos.iter xO m d)) = digits (Zpos m) + Zpos d).
  { intros d. induction d as [|d [I1 I2]] using Pos.peano_ind; [split; [simpl; lia|simpl; lia]|].
    rewrite Pos.iter_succ, Pos2Z.inj_succ, Z.pow_succ_r by lia. simpl digits in *. lia. }
  destruct (e' - e) as [|d|d] eqn:Ed; [split_and!; lia..|]. destruct (Hit d) as [-> ->].
  split_and!; [lia| |lia]. replace e with (e' + Zpos d) by lia. rewrite W_add by lia. ring.
Qed.

Lemma binary_round_rounds m e :
  - B ≤ e → Zpos m * W e ≤ W 900 → rounds (Zpos m * W e) 1 (binary_round 53 1024 false m e).
Proof.
  intros He Hx. unfold binary_round. pose proof (fexp_small (Zpos m) e ltac:(done) He Hx) as HE.
  pose proof (shl_align_spec m e (fexp64 (digits (Zpos m) + e)) He) as Hs.
  change (Zpos (digits2_pos m)) with (digits (Zpos m)). destruct (shl_align _ _ _) as [mz ez].
  destruct Hs as (Hez & HW & Hd); [rewrite fexp64_eq; unfold B; lia|]. rewrite <-HW.
  assert (- B ≤ ez) by (rewrite Hez, fexp64_eq; unfold B in *; lia). pose proof (W_pos ez ltac:(done)).
  apply round_aux_rounds; try (rewrite ?Hd; lia). done.
Qed.

Lemma normalize_rounds n e :
  0 ≤ n → - B ≤ e → n * W e ≤ W 900 → rounds (n * W e) 1 (binary_normalize 53 1024 n e false).
Proof.
  intros Hn He Hx. destruct n as [|m|m]; [|by apply binary_round_rounds|lia]. by apply rounds_refl.
Qed.

(** A number of two finite ones at their smaller exponent. *)
Lemma aligned s1 m1 e1 s2 m2 e2 :
  valid (S754_finite s1 m1 e1) → valid (S754_finite s2 m2 e2) → let ez := e1 `min` e2 in
  - B ≤ ez ∧ Zpos (shl_align m1 e1 ez).1 * W ez = Zpos m1 * W e1 ∧ Zpos (shl_align m2 e2 ez).1 * W ez = Zpos m2 * W e2.
Proof.
  intros (_ & H1 & _)%valid_finite (_ & H2 & _)%valid_finite ez.
  assert (- B ≤ ez) by (unfold ez, B; lia). split; [done|].
  pose proof (shl_align_spec m1 e1 ez ltac:(unfold B; lia) ltac:(done)) as A1.
  pose proof (shl_align_spec m2 e2 ez ltac:(unfold B; lia) ltac:(done)) as A2.
  destruct (shl_align m1 e1 ez) as [n1 f1], (shl_align m2 e2 ez) as [n2 f2].
  destruct A1 as (F1 & A1 & _), A2 as (F2 & A2 & _). simpl.
  replace f1 with ez in A1 by (unfold ez in *; lia). by replace f2 with ez in A2 by (unfold ez in *; lia).
Qed.

Lemma add_rounds x y : valid x → valid y → V x + V y ≤ W 900 → rounds (V x + V y) 1 (f64_add x y).
Proof.
  intros Hx Hy Hb. unfold f64_add, SFadd.
  destruct x as [s1| | |s1 m1 e1], y as [s2| | |s2 m2 e2]; try done.
  - apply rounds_refl; [by destruct s1, s2|done|by destruct s1, s2].
  - apply rounds_refl; [done|done|simpl; lia].
  - apply rounds_refl; [done|done|simpl; lia].
  - destruct (aligned s1 m1 e1 s2 m2 e2 Hx Hy) as (HB & A1 & A2). apply valid_finite in Hx as (-> & _), Hy as (-> & _).
    simpl V in *. rewrite <-A1, <-A2, <-Z.mul_add_distr_r in *. apply normalize_rounds; done || (simpl; lia).
Qed.

Lemma sub_rounds x y : valid x → valid y → V x ≤ W 900 → V y ≤ V x → rounds (V x - V y) 1 (f64_sub x y).
Proof.
  intros Hx Hy Hb Hyx. unfold f64_sub, SFsub.
  destruct x as [s1| | |s1 m1 e1], y as [s2| | |s2 m2 e2]; try done.
  - apply rounds_refl; [by destruct s1, s2|done|by destruct s1, s2].
  - apply valid_finite in Hy as (_ & ? & _). simpl in Hyx. pose proof (W_pos e2 ltac:(unfold B; lia)). lia.
  - apply rounds_refl; [done|done|simpl; lia].
  - pose proof (V_nonneg _ Hy).
    destruct (aligned s1 m1 e1 s2 m2 e2 Hx Hy) as (HB & A1 & A2). apply valid_finite in Hx as (-> & _), Hy as (-> & _).
    simpl V in *. rewrite <-A1, <-A2, <-Z.mul_sub_distr_r in *. pose proof (W_pos (e1 `min` e2) HB).
    apply normalize_rounds; [simpl; nia|done|simpl; nia].
Qed.

Lemma of_Z_rounds n : 0 ≤ n → n ≤ 2 ^ 900 → rounds (n * W 0) 1 (f64_of_Z n).
Proof.
  intros Hn Hb. apply normalize_rounds; [done|done|].
  change 900 with (0 + 900). rewrite W_add by done. pose proof (W_pos 0 ltac:(done)). nia.
Qed.

Lemma mul_rounds x y : valid x → valid y → V x * V y ≤ W 900 * W 0 → rounds (V x * V y) (W 0) (f64_mul x y).
Proof.
  intros Hx Hy Hb. unfold f64_mul, SFmul. pose proof (W_pos 0 ltac:(done)) as HW0.
  destruct x as [s1| | |s1 m1 e1], y as [s2| | |s2 m2 e2]; try (by destruct Hx || by destruct Hy); try (apply rounds_refl; [done|done|simpl; lia]).
  apply valid_finite in Hx as (-> & E1 & M1 & N1), Hy as (-> & E2 & M2 & N2). simpl V in *.
  assert (HB : - B ≤ e1 + e2) by (unfold B; lia).
  assert (HV : Zpos m1 * W e1 * (Zpos m2 * W e2) = Zpos (m1 * m2) * W (e1 + e2) * W 0).
  { rewrite Pos2Z.inj_mul. replace (Zpos m1 * W e1 * (Zpos m2 * W e2)) with (Zpos m1 * Zpos m2 * (W e1 * W e2)) by ring.
    rewrite W_mul by (unfold B in *; lia). ring. }
  rewrite HV in *. clear HV. pose proof (W_pos _ HB).
  apply round_aux_rounds; try nia; [..|done].
  - rewrite fexp64_eq. destruct N1 as [->|N1], N2 as [->|N2]; [lia|..];
      pose proof (digits_ge (Zpos (m1 * m2)) 52 ltac:(done) ltac:(done) ltac:(nia)); lia.
  - apply fexp_small; [done|done|]. by apply (Z.mul_le_mono_pos_r _ _ (W 0)).
Qed.

Lemma new_location_exact n k : new_location n k = loc_Exact ↔ k = 0.
Proof.
  unfold new_location, new_location_even, new_location_odd.
  destruct (Z.even n), (Z.eqb_spec k 0); naive_solver.
Qed.

Lemma div_core_spec m1 e1 m2 e2 :
  -1074 ≤ e1 ≤ 971 → -1074 ≤ e2 ≤ 971 → -1073 ≤ digits (Zpos m1) + e1 - (digits (Zpos m2) + e2) →
  let '(q, e, l) := SFdiv_core_binary 53 1024 (Zpos m1) e1 (Zpos m2) e2 in
  ∃ r, 0 < q ∧ - B ≤ e ∧ - B ≤ e + e2 ∧ e ≤ fexp64 (digits q + e) ∧
    Zpos m1 * W e1 = (q * Zpos m2 + r) * W (e + e2) ∧ 0 ≤ r < Zpos m2 ∧ (l = loc_Exact ↔ r = 0).
Proof.
  intros E1 E2 Hδ. unfold SFdiv_core_binary. set (δ := digits (Zpos m1) + e1 - (digits (Zpos m2) + e2)) in *.
  set (e := fexp64 δ `min` (e1 - e2)). set (s := e1 - e2 - e).
  assert (Hs : 0 ≤ s) by (unfold s, e; lia).
  assert (Hfe : e ≤ fexp64 δ ∧ -1074 ≤ fexp64 δ ∧ (fexp64 δ = δ - 53 ∨ fexp64 δ = -1074)) by (unfold e; rewrite fexp64_eq; lia).
  assert (Hds : digits (Zpos m2) + 1 ≤ digits (Zpos m1) + s) by (unfold s, e, δ in *; lia).
  assert (Hm' : match s with Zpos _ => Z.shiftl (Zpos m1) s | Z0 => Zpos m1 | Zneg _ => 0 end = Zpos m1 * 2 ^ s).
  { destruct s as [|p|p] eqn:Es; [lia|by rewrite Z.shiftl_mul_pow2|lia]. }
  rewrite Hm'. clear Hm'. pose proof (Z.div_eucl_eq (Zpos m1 * 2 ^ s) (Zpos m2) ltac:(done)) as Heq.
  pose proof (Z.mod_pos_bound (Zpos m1 * 2 ^ s) (Zpos m2) ltac:(done)) as Hr. unfold Z.modulo in Hr.
  destruct (Z.div_eucl (Zpos m1 * 2 ^ s) (Zpos m2)) as [q r]. exists r.
  pose proof (digits_bounds m1) as [A1 A2]. pose proof (digits_bounds m2) as [B1 B2]. pose proof (digits_pos m2) as P2.
  pose proof (digits_pos m1) as P1. assert (Hp : 0 < 2 ^ s) by (apply Z.pow_pos_nonneg; lia).
  set (g := digits (Zpos m1) + s - digits (Zpos m2) - 1). assert (Hg : 0 ≤ g) by (unfold g; lia).
  assert (Hq : 2 ^ g ≤ q).
  { assert (2 ^ g * 2 ^ digits (Zpos m2) ≤ Zpos m1 * 2 ^ s).
    { rewrite <-Z.pow_add_r by lia. replace (g + digits (Zpos m2)) with (digits (Zpos m1) - 1 + s) by (unfold g; lia).
      rewrite Z.pow_add_r by lia. nia. }
    assert (0 < 2 ^ g) by (apply Z.pow_pos_nonneg; lia). assert (2 ^ g < q + 1); [|lia].
    apply (Z.mul_lt_mono_pos_r (Zpos m2)); nia. }
  assert (0 < 2 ^ g) by (apply Z.pow_pos_nonneg; lia). assert (Hq0 : 0 < q) by lia.
  pose proof (digits_ge q g Hq0 Hg Hq) as Hdq.
  assert (Hde : δ ≤ digits q + e) by (unfold g, s, δ in *; lia).
  split_and!; [done|unfold e, B in *; lia|unfold e, B in *; lia| | |lia|lia|apply new_location_exact].
  - destruct Hfe as [Hfe _]. etrans; [exact Hfe|]. rewrite !fexp64_eq. lia.
  - replace e1 with ((e + e2) + s) at 1 by (unfold s; lia). rewrite W_add by (unfold e, B in *; lia). nia.
Qed.

(** The quotient of two finite numbers whose leading digits are not too far
    apart for a normal number. *)
Lemma div_rounds_finite m1 e1 m2 e2 (x := S754_finite false m1 e1) (y := S754_finite false m2 e2) :
  valid x → valid y → -1073 ≤ digits (Zpos m1) + e1 - (digits (Zpos m2) + e2) → V x * W 0 ≤ W 900 * V y →
  rounds (V x * W 0) (V y) (f64_div x y).
Proof.
  intros (_ & E1 & M1 & N1)%valid_finite (_ & E2 & M2 & N2)%valid_finite Hδ Hhi. subst x y. unfold f64_div, SFdiv. simpl V in *.
  pose proof (W_pos 0 ltac:(done)) as HW0.
  pose proof (W_pos e1 ltac:(unfold B; lia)) as HW1. pose proof (W_pos e2 ltac:(unfold B; lia)) as HW2.
  pose proof (div_core_spec m1 e1 m2 e2 E1 E2 Hδ) as Hc. destruct (SFdiv_core_binary _ _ _ _ _ _) as [[q e] l].
  destruct Hc as (r & Hq & He & Hee & Hfe & Heq & Hr & Hl). rewrite Heq in *.
  pose proof (W_pos _ Hee) as HWe. pose proof (W_pos _ He) as HWe'.
  assert (HN : (q * Zpos m2 + r) * W (e + e2) * W 0 = q * W e * (Zpos m2 * W e2) + r * (W e * W e2)).
  { rewrite <-Z.mul_assoc, <-W_mul by (unfold B in *; lia). ring. }
  rewrite HN in *. clear HN Heq Hδ. set (D := Zpos m2 * W e2) in *. assert (0 < D) by (unfold D; nia).
  assert (HD : W e * D = Zpos m2 * (W e * W e2)) by (unfold D; ring). assert (HWW : 0 < W e * W e2) by nia.
  set (w := W e * W e2) in *. assert (Hrw : r * w < W e * D) by (rewrite HD; nia). assert (0 ≤ r * w) by nia.
  assert (HqD : q * W e * D = q * (W e * D)) by ring.
  apply round_aux_rounds; [done|done|done|done| |lia|lia| |].
  - apply fexp_small; [done|done|]. apply (Z.mul_le_mono_pos_r _ _ D); [done|]. lia.
  - intros ->%Hl. lia.
  - intros Hne. assert (r ≠ 0) by tauto. nia.
Qed.

(** A number is between two powers of two. *)
Lemma V_digits s m e : - B ≤ e → W (digits (Zpos m) + e - 1) ≤ V (S754_finite s m e) < W (digits (Zpos m) + e).
Proof.
  intros He. pose proof (digits_bounds m) as [D1 D2]. pose proof (digits_pos m). pose proof (W_pos e He). simpl V.
  replace (digits (Zpos m) + e - 1) with (e + (digits (Zpos m) - 1)) by lia.
  rewrite (Z.add_comm _ e), !W_add by lia. nia.
Qed.

Lemma div_rounds x y :
  valid x → valid y → 0 < V y → V x = 0 ∨ W (-1000) * V y ≤ V x * W 0 → V x * W 0 ≤ W 900 * V y →
  rounds (V x * W 0) (V y) (f64_div x y).
Proof.
  intros Hx Hy Hy0 Hlo Hhi. pose proof (W_pos 0 ltac:(done)) as HW0.
  destruct x as [s1| | |s1 m1 e1], y as [s2| | |s2 m2 e2]; try (by destruct Hx || by destruct Hy); try (apply rounds_refl; [done|done|simpl; lia]).
  pose proof Hx as (-> & E1 & _)%valid_finite. pose proof Hy as (-> & E2 & _)%valid_finite.
  apply div_rounds_finite; try done. destruct (V_digits false m1 e1 ltac:(unfold B; lia)) as [L1 U1].
  destruct (V_digits false m2 e2 ltac:(unfold B; lia)) as [L2 U2]. pose proof (W_pos (-1000) ltac:(done)).
  pose proof (digits_pos m1). pose proof (digits_pos m2).
  assert (0 < W (digits (Zpos m1) + e1 - 1)) by (apply W_pos; unfold B; lia).
  destruct Hlo as [?|Hlo]; [lia|]. apply Z.nlt_ge. intros Hn.
  assert (W (digits (Zpos m1) + e1) * W 0 ≤ W (-1000) * W (digits (Zpos m2) + e2 - 1)).
  { rewrite (W_mul (-1000)) by (unfold B; lia). apply Z.mul_le_mono_nonneg_r; [lia|]. apply W_mono; unfold B; lia. }
  nia.
Qed.

(** Integers within the precision are exact. *)
Lemma of_Z_exact n : 0 ≤ n < 2 ^ 53 → valid (f64_of_Z n) ∧ V (f64_of_Z n) = n * W 0.
Proof.
  intros [Hn0 Hn]. split; [apply of_Z_rounds; [done|]; etrans; [apply Z.lt_le_incl, Hn|apply Z.pow_le_mono_r; lia]|].
  destruct n as [|m|m]; [done| |done]. unfold f64_of_Z, binary_normalize, binary_round.
  assert (Hd : digits (Zpos m) ≤ 53) by by apply digits_le. pose proof (digits_pos m).
  assert (HE : fexp64 (digits (Zpos m) + 0) = digits (Zpos m) - 53) by (rewrite fexp64_eq; lia).
  pose proof (shl_align_spec m 0 (fexp64 (digits (Zpos m) + 0)) ltac:(done) ltac:(rewrite HE; unfold B; lia)) as Hs.
  change (Zpos (digits2_pos m)) with (digits (Zpos m)). destruct (shl_align _ _ _) as [mz ez].
  destruct Hs as (Hez & HW & Hdz). rewrite HE in Hez. rewrite <-HW.
  destruct (round_aux (Zpos mz) ez loc_Exact) as (q & Hq & _ & HV); [done|rewrite Hdz, HE; lia|rewrite Hdz, HE; lia|].
  rewrite HV, Hdz, HE in *. replace (digits (Zpos m) - 53 - ez) with 0 in Hq by lia.
  change (2 ^ 0) with 1 in Hq. rewrite Z.div_1_r, Z.mod_1_r in Hq.
  replace (digits (Zpos m) - 53) with ez by lia. destruct Hq as [->|[_ [?|?]]]; done.
Qed.

(** The order of numbers is that of their values. *)
Lemma SFleb_spec x y : valid x → valid y → SFleb x y = true ↔ V x ≤ V y.
Proof.
  intros Hx Hy. unfold SFleb.
  destruct x as [s1| | |s1 m1 e1], y as [s2| | |s2 m2 e2]; try done; simpl.
  - apply valid_finite in Hy as (-> & ? & _). pose proof (W_pos e2 ltac:(unfold B; lia)). split; [nia|done].
  - apply valid_finite in Hx as (-> & ? & _). pose proof (W_pos e1 ltac:(unfold B; lia)). split; [done|nia].
  - apply valid_finite in Hx as (-> & E1 & M1 & N1), Hy as (-> & E2 & M2 & N2).
    pose proof (W_pos e1 ltac:(unfold B; lia)) as HW1. pose proof (W_pos e2 ltac:(unfold B; lia)) as HW2.
    destruct (Z.compare_spec e1 e2) as [->|Hlt|Hlt].
    + change (Pos.compare_cont Eq m1 m2) with (Pos.compare m1 m2).
      destruct (Pos.compare_spec m1 m2) as [->|Hm|Hm]; split; try done; intros; nia.
    + split; [intros _|done]. assert (W e1 * 2 ≤ W e2).
      { change 2 with (2 ^ 1). rewrite <-W_add by (unfold B; lia). apply W_mono; unfold B; lia. }
      destruct N2 as [?|?]; [lia|]. nia.
    + split; [done|intros Hle]. assert (W e2 * 2 ≤ W e1).
      { change 2 with (2 ^ 1). rewrite <-W_add by (unfold B; lia). apply W_mono; unfold B; lia. }
      destruct N1 as [?|?]; [lia|]. nia.
Qed.

Lemma min_spec x y : valid x → valid y → valid (f64_min x y) ∧ V (f64_min x y) = V x `min` V y.
Proof.
  intros Hx Hy. assert (f64_min x y = if SFleb x y then x else y) as -> by by destruct x, y.
  pose proof (SFleb_spec x y Hx Hy) as Hs. destruct (SFleb x y); [split; [done|lia]|]. split; [done|].
  destruct (decide (V x ≤ V y)); [|lia]. by discriminate (proj2 Hs).
Qed.

Lemma f64_one_value : valid f64_one ∧ V f64_one = W 0.
Proof. split; [done|]. unfold f64_one, V. change (W 0) with (W (-52 + 52)). rewrite W_add by done. change (2 ^ 52) with 4503599627370496. lia. Qed.

(** ** Durations in seconds *)

(** A time in seconds is above the exact one by no more than one part in
    [2 ^ 50], and not below one second when a second has passed. *)
Lemma as_secs_spec ns :
  0 ≤ ns ≤ 2 ^ 80 →
  valid (as_secs_f64 ns) ∧ (NANOS_PER_SEC ≤ ns → W 0 ≤ V (as_secs_f64 ns)) ∧
  2 ^ 50 * (V (as_secs_f64 ns) * NANOS_PER_SEC) ≤ (2 ^ 50 + 1) * (ns * W 0) + 2 ^ 90 * W (-1074).
Proof.
  intros Hns. unfold as_secs_f64, NANOS_PER_SEC in *. change (10 ^ 9) with 1000000000 in *.
  pose proof (Z.div_mod ns 1000000000 ltac:(done)) as Hdm. pose proof (Z.mod_pos_bound ns 1000000000 ltac:(done)) as Hr.
  assert (0 ≤ ns / 1000000000) by (apply Z.div_pos; lia).
  set (secs := ns / 1000000000) in *. set (nanos := ns `mod` 1000000000) in *.
  destruct (of_Z_exact secs) as [Sv SV]; [lia|]. destruct (of_Z_exact nanos) as [Nv NV]; [lia|].
  destruct (of_Z_exact 1000000000) as [Gv GV]; [lia|]. destruct f64_one_value as [Ov OV].
  pose proof (W_pos 0 ltac:(done)) as HW0. pose proof (W_pos (-1074) ltac:(done)) as HWm.
  assert (HWlo : W (-1000) * 2 ^ 1000 = W 0) by by apply W_scale.
  assert (HWhi : W 0 * 2 ^ 900 = W 900) by by apply W_scale.
  assert (Hbig : 2 ^ 100 ≤ 2 ^ 900 ∧ 2 ^ 100 ≤ 2 ^ 1000) by (split; apply Z.pow_le_mono_r; lia).
  pose proof (W_pos (-1000) ltac:(done)) as HWl.
  revert HWlo HWhi Hbig. generalize (2 ^ 900) (2 ^ 1000). intros P Q HWlo HWhi [HP HQ].
  destruct (div_rounds (f64_of_Z nanos) (f64_of_Z 1000000000)) as (Dv & Dmu & _ & Dup); [done|done|lia| | |].
  { rewrite NV, GV. destruct (decide (nanos = 0)) as [->|]; [by left|right].
    replace (W (-1000) * (1000000000 * W 0)) with (W (-1000) * 1000000000 * W 0) by ring.
    apply Z.mul_le_mono_nonneg_r; [lia|]. nia. }
  { rewrite NV, GV. replace (W 900 * (1000000000 * W 0)) with (W 900 * 1000000000 * W 0) by ring.
    apply Z.mul_le_mono_nonneg_r; [lia|]. nia. }
  specialize (Dmu f64_one Ov). rewrite OV, NV, GV in Dmu. rewrite NV, GV in Dup.
  set (f := f64_div _ _) in *. pose proof (V_nonneg f Dv).
  assert (Hf : V f ≤ W 0) by (apply Dmu; nia).
  assert (HfU : 2 ^ 52 * (V f * 1000000000) ≤ (2 ^ 52 + 1) * (nanos * W 0) + 2 ^ 52 * W (-1074) * 1000000000).
  { apply (Z.mul_le_mono_pos_r _ _ (W 0)); [done|]. lia. }
  clear Dup Dmu. destruct (add_rounds (f64_of_Z secs) f) as (Av & _ & Aml & Aup); [done|done|rewrite SV; nia|].
  rewrite SV in Aml, Aup. set (t := f64_add _ _) in *. split_and!; [done| |].
  - intros Hge. rewrite <-OV. apply Aml; [done|]. rewrite OV. assert (1 ≤ secs) by lia. nia.
  - rewrite Hdm. replace ((1000000000 * secs + nanos) * W 0) with (1000000000 * (secs * W 0) + nanos * W 0) by ring.
    assert (0 ≤ secs * W 0) by nia. assert (0 ≤ nanos * W 0) by nia. lia.
Qed.

Lemma W_tiny : 0 < W (-1074) ∧ W (-1074) * 2 ^ 200 ≤ W 0.
Proof. split; [by apply W_pos|]. rewrite <-W_add by done. by apply W_mono. Qed.

(** What flows in during [dt] nanoseconds at a rate per second. *)
Lemma inflow_spec rate dt :
  1 ≤ rate < 2 ^ 50 → 0 ≤ dt ≤ 2 ^ 80 → let p := f64_mul (f64_of_Z rate) (as_secs_f64 dt) in
  valid p ∧ V p ≤ W 890 ∧ (NANOS_PER_SEC ≤ dt → W 0 ≤ V p) ∧
  2 ^ 49 * (V p * NANOS_PER_SEC) ≤ (2 ^ 49 + 1) * (rate * (dt * W 0)) + W 0.
Proof.
  intros [Hr1 Hr2] Hdt p. destruct (of_Z_exact rate) as [Rv RV]; [lia|].
  destruct (as_secs_spec dt Hdt) as (Sv & Slow & Sup). set (s := as_secs_f64 dt) in *. pose proof (V_nonneg s Sv).
  destruct W_tiny as [Hm0 Hm]. pose proof (W_pos 0 ltac:(done)) as HW0. unfold NANOS_PER_SEC in *. change (10 ^ 9) with 1000000000 in *.
  assert (Hs90 : V s ≤ 2 ^ 81 * W 0) by nia.
  assert (HW890 : W 0 * 2 ^ 890 = W 890) by by apply W_scale.
  assert (HW900 : W 890 * 2 ^ 10 = W 900) by by apply W_scale.
  assert (HP : 2 ^ 120 ≤ 2 ^ 890) by (apply Z.pow_le_mono_r; lia). revert HW890 HP. generalize (2 ^ 890). intros P HW890 HP.
  assert (HsP : rate * V s ≤ W 890) by (rewrite <-HW890; nia).
  destruct (mul_rounds (f64_of_Z rate) s) as (Pv & Pmu & Pml & Pup); [done|done|rewrite RV; nia|]. fold p in Pv, Pmu, Pml, Pup.
  rewrite RV in Pmu, Pml, Pup. destruct f64_one_value as [Ov OV]. pose proof (V_nonneg p Pv).
  assert (HpU : 2 ^ 52 * V p ≤ (2 ^ 52 + 1) * (rate * V s) + 2 ^ 52 * W (-1074)).
  { apply (Z.mul_le_mono_pos_r _ _ (W 0)); [done|]. lia. }
  clear Pup Pmu. split_and!; [done|nia| |].
  - intros Hsec%Slow. rewrite <-OV. apply Pml; [done|]. rewrite OV.
    assert (1 * W 0 ≤ rate * W 0) by (apply Z.mul_le_mono_nonneg_r; lia). apply Z.mul_le_mono_nonneg; lia.
  - assert (Hrs : 2 ^ 50 * (rate * V s * 1000000000) ≤ (2 ^ 50 + 1) * (rate * (dt * W 0)) + 2 ^ 90 * 2 ^ 50 * W (-1074)).
    { pose proof (Z.mul_le_mono_nonneg_l _ _ rate ltac:(lia) Sup).
      assert (rate * W (-1074) ≤ 2 ^ 50 * W (-1074)) by (apply Z.mul_le_mono_nonneg_r; lia). lia. }
    assert (0 ≤ rate * (dt * W 0)) by nia. lia.
Qed.

Lemma f64_mul_comm x y : f64_mul x y = f64_mul y x.
Proof.
  unfold f64_mul, SFmul. destruct x as [s1|s1| |s1 m1 e1], y as [s2|s2| |s2 m2 e2];
    rewrite ?(xorb_comm s1), ?(Pos.mul_comm m1), ?(Z.add_comm e1); reflexivity.
Qed.
