(* ===== verification/FloatSigned.v ===== *)
(** Binary64 numbers of either sign: the value of a number, that sums,
    differences, comparison and minimum respect it, a bound from below on
    what rounding takes away, and [Duration::from_secs_f64]. *)

From Stdlib Require Import SpecFloat.
From S2P Require Import Prelude Float64.

#[local] Open Scope Z_scope.

(** The quotient rounded to the nearest integer, to the even one of two. *)
Definition div_half_even (n d : Z) : Z :=
  let q := n / d in
  let r := n `mod` d in
  if (2 * r <? d) || ((2 * r =? d) && Z.even q) then q else q + 1.

(** [Duration::from_secs_f64], in nanoseconds. A number that is negative, not
    finite or past the seconds of a [u64] is a panic ([None]). *)
Definition from_secs_f64 (x : f64) : option Z :=
  match x with
  | S754_zero _ => Some 0
  | S754_finite false m e =>
      if 0 <=? e then
        if Zpos m * 2 ^ e <? 2 ^ 64 then Some (Zpos m * 2 ^ e * NANOS_PER_SEC) else None
      else Some (div_half_even (Zpos m * NANOS_PER_SEC) (2 ^ (- e)))
  | _ => None
  end.

(** ** Values *)

Definition num (x : f64) : Prop :=
  match x with
  | S754_zero _ => True
  | S754_finite _ m e => bounded 53 1024 m e = true
  | _ => False
  end.

Definition Vs (x : f64) : Z := match x with S754_finite s m e => cond_Zopp s (Zpos m) * W e | _ => 0 end.

Lemma valid_num x : valid x → num x ∧ Vs x = V x.
Proof. destruct x as [s| | |s m e]; try done. by intros [-> ?]. Qed.

Lemma num_opp x : num x → num (SFopp x).
Proof. by destruct x. Qed.
Lemma Vs_opp x : Vs (SFopp x) = - Vs x.
Proof. destruct x as [s| | |[] m e]; simpl; lia. Qed.
Lemma opp_opp x : SFopp (SFopp x) = x.
Proof. destruct x as [[]|[]| |[]]; done. Qed.

Lemma num_cases x : num x → valid x ∨ valid (SFopp x).
Proof. destruct x as [s| | |[] m e]; try done; [by left|by right|by left]. Qed.

Lemma num_valid x : num x → 0 ≤ Vs x → valid x.
Proof.
  destruct x as [s| | |[] m e]; try done. intros Hb. destruct (valid_finite false m e) as (_ & He & _); [done|]. simpl.
  pose proof (W_pos e ltac:(unfold B; lia)). lia.
Qed.

(** ** Rounding *)

(** [r] is on the same side of every number as [N] is. *)
Definition srounds (N : Z) (r : f64) : Prop :=
  num r ∧ ∀ y, num y → (N ≤ Vs y → Vs r ≤ Vs y) ∧ (Vs y ≤ N → Vs y ≤ Vs r).

Lemma srounds_pos N r : 0 ≤ N → rounds N 1 r → srounds N r.
Proof.
  intros HN (Hv & Hu & Hl & _). destruct (valid_num r Hv) as [Hn HV]. pose proof (V_nonneg r Hv). split; [done|].
  intros y Hy. rewrite HV. destruct (num_cases y Hy) as [Yv|Yv].
  - destruct (valid_num y Yv) as [_ ->]. specialize (Hu y Yv). specialize (Hl y Yv). lia.
  - destruct (valid_num _ Yv) as [_ E]. rewrite Vs_opp in E. pose proof (V_nonneg _ Yv).
    specialize (Hu (SFopp y) Yv). split; [|lia]. intros. assert (V (SFopp y) = 0) by lia. lia.
Qed.

Lemma srounds_opp N r : srounds N r → srounds (- N) (SFopp r).
Proof.
  intros [Hn Hr]. split; [by apply num_opp|]. intros y Hy. specialize (Hr _ (num_opp y Hy)).
  rewrite Vs_opp in *. lia.
Qed.

Lemma srounds_exact N r : num r → Vs r = N → srounds N r.
Proof. intros Hr <-. split; [done|]. lia. Qed.

(** An integer in the place of a number that is not above it, or not below. *)
Lemma srounds_mono N r y : srounds N r → num y → (N ≤ Vs y → Vs r ≤ Vs y) ∧ (Vs y ≤ N → Vs y ≤ Vs r).
Proof. intros [_ Hr]. apply Hr. Qed.

Lemma binary_round_opp m e : binary_round 53 1024 true m e = SFopp (binary_round 53 1024 false m e).
Proof.
  unfold binary_round. destruct (shl_align _ _ _) as [mz ez]. unfold binary_round_aux.
  destruct (shr_fexp _ _ _ _ _) as [mrs e']. destruct (shr_fexp _ _ _ e' _) as [mrs' e''].
  destruct (shr_m mrs'); try done. by destruct (_ <=? _).
Qed.

Lemma normalize_srounds n e :
  - B ≤ e → Z.abs n * W e ≤ W 900 → srounds (n * W e) (binary_normalize 53 1024 n e false).
Proof.
  intros He Hn. pose proof (W_pos e He). destruct n as [|m|m]; simpl in Hn |- *.
  - by apply srounds_exact.
  - apply srounds_pos; [lia|]. by apply binary_round_rounds.
  - rewrite binary_round_opp. change (Zneg m) with (- Zpos m). rewrite Z.mul_opp_l.
    apply srounds_opp, srounds_pos; [lia|]. by apply binary_round_rounds.
Qed.

Lemma abs_Vs s m e : - B ≤ e → Z.abs (cond_Zopp s (Zpos m) * W e) = Zpos m * W e.
Proof. intros He. pose proof (W_pos e He). destruct s; simpl; lia. Qed.

Lemma add_srounds x y : num x → num y → Z.abs (Vs x) + Z.abs (Vs y) ≤ W 900 → srounds (Vs x + Vs y) (f64_add x y).
Proof.
  intros Hx Hy Hb. unfold f64_add, SFadd.
  destruct x as [s1| | |s1 m1 e1], y as [s2| | |s2 m2 e2]; try done;
    [apply srounds_exact; by destruct s1, s2|by apply srounds_exact..| |].
  { apply srounds_exact; simpl in *; [done|lia]. }
  destruct (aligned false m1 e1 false m2 e2 ltac:(done) ltac:(done)) as (HB & A1 & A2).
  set (ez := e1 `min` e2) in *. set (n1 := (shl_align m1 e1 ez).1) in *. set (n2 := (shl_align m2 e2 ez).1) in *.
  assert (E : Vs (S754_finite s1 m1 e1) + Vs (S754_finite s2 m2 e2) = (cond_Zopp s1 (Zpos n1) + cond_Zopp s2 (Zpos n2)) * W ez).
  { destruct s1, s2; simpl in *; lia. }
  rewrite E. apply normalize_srounds; [done|]. pose proof (W_pos ez HB). rewrite <-(Z.abs_eq (W ez)) by lia.
  rewrite <-Z.abs_mul, <-E. lia.
Qed.

Lemma sub_add x y : num x → num y → f64_sub x y = f64_add x (SFopp y).
Proof.
  intros Hx Hy. unfold f64_sub, f64_add, SFsub, SFadd.
  destruct x as [[]| | |s1 m1 e1], y as [[]| | |[] m2 e2]; try done.
Qed.

Lemma sub_srounds x y : num x → num y → Z.abs (Vs x) + Z.abs (Vs y) ≤ W 900 → srounds (Vs x - Vs y) (f64_sub x y).
Proof.
  intros Hx Hy Hb. rewrite sub_add by done. unfold Z.sub. rewrite <-Vs_opp.
  apply add_srounds; [done|by apply num_opp|]. rewrite Vs_opp. lia.
Qed.

(** ** Order *)

Lemma bounded_W e m : bounded 53 1024 m e = true → 0 < W e.
Proof. intros H. destruct (valid_finite false m e) as (_ & He & _); [done|]. apply W_pos. unfold B. lia. Qed.

Lemma SFleb_num x y : num x → num y → SFleb x y = true ↔ Vs x ≤ Vs y.
Proof.
  intros Hx Hy.
  assert (Ho : SFleb x y = SFleb (SFopp y) (SFopp x)).
  { unfold SFleb, SFcompare. destruct x as [[]| | |[] m1 e1], y as [[]| | |[] m2 e2]; try done; simpl;
      rewrite (Z.compare_antisym e1 e2); destruct (e1 ?= e2); simpl; try done;
      change (Pos.compare_cont Eq m1 m2) with (Pos.compare m1 m2); change (Pos.compare_cont Eq m2 m1) with (Pos.compare m2 m1);
      rewrite (Pos.compare_antisym m1 m2); by destruct (m1 ?= m2)%positive. }
  destruct (num_cases x Hx) as [Xv|Xv], (num_cases y Hy) as [Yv|Yv].
  - rewrite SFleb_spec by done. by rewrite (proj2 (valid_num _ Xv)), (proj2 (valid_num _ Yv)).
  - destruct x as [[]| | |[] m1 e1], y as [[]| | |[] m2 e2]; try done; try (by destruct Xv); try (by destruct Yv);
      simpl in *; try (pose proof (bounded_W e1 m1 Hx)); try (pose proof (bounded_W e2 m2 Hy)); unfold SFleb; simpl; split; nia || done.
  - destruct x as [[]| | |[] m1 e1], y as [[]| | |[] m2 e2]; try done; try (by destruct Xv); try (by destruct Yv);
      simpl in *; try (pose proof (bounded_W e1 m1 Hx)); try (pose proof (bounded_W e2 m2 Hy)); unfold SFleb; simpl; split; nia || done.
  - rewrite Ho, SFleb_spec by done. rewrite <-(proj2 (valid_num _ Xv)), <-(proj2 (valid_num _ Yv)), !Vs_opp. lia.
Qed.

Lemma min_num x y : num x → num y → num (f64_min x y) ∧ Vs (f64_min x y) = Vs x `min` Vs y.
Proof.
  intros Hx Hy. assert (f64_min x y = if SFleb x y then x else y) as -> by by destruct x, y.
  pose proof (SFleb_num x y Hx Hy) as Hs. destruct (SFleb x y); [split; [done|lia]|]. split; [done|].
  destruct (decide (Vs x ≤ Vs y)); [|lia]. by discriminate (proj2 Hs).
Qed.

(** Integers within the precision, as numbers. *)
Definition of_int (n : Z) : f64 := if n <? 0 then SFopp (f64_of_Z (- n)) else f64_of_Z n.
Lemma of_int_num n : Z.abs n < 2 ^ 53 → num (of_int n) ∧ Vs (of_int n) = n * W 0.
Proof.
  intros Hn. unfold of_int. destruct (Z.ltb_spec n 0).
  - destruct (of_Z_exact (- n) ltac:(lia)) as [Hv HV]. destruct (valid_num _ Hv) as [Hm E].
    rewrite Vs_opp, E, HV. split; [by apply num_opp|lia].
  - destruct (of_Z_exact n ltac:(lia)) as [Hv HV]. destruct (valid_num _ Hv) as [Hm ->]. done.
Qed.

(** A rounded sum does not cross an integer. *)
Lemma srounds_le N r n : srounds N r → Z.abs n < 2 ^ 53 → N ≤ n * W 0 → Vs r ≤ n * W 0.
Proof. intros Hr Hn. destruct (of_int_num n Hn) as [Hm HV]. rewrite <-HV. by apply (srounds_mono _ _ _ Hr). Qed.
Lemma srounds_ge N r n : srounds N r → Z.abs n < 2 ^ 53 → n * W 0 ≤ N → n * W 0 ≤ Vs r.
Proof. intros Hr Hn. destruct (of_int_num n Hn) as [Hm HV]. rewrite <-HV. by apply (srounds_mono _ _ _ Hr). Qed.

(** ** What rounding takes away *)

(** There is a number at most one part in [2 ^ 52] below [N / D]. *)
Lemma number_below N D :
  0 < D → W (-1000) * D ≤ N → N ≤ W 900 * D → ∃ y, valid y ∧ V y * D ≤ N ∧ 2 ^ 52 * N ≤ (2 ^ 52 + 1) * (V y * D).
Proof.
  intros HD Hlo Hhi. pose proof (Z.div_mod N D ltac:(lia)) as Hdm. pose proof (Z.mod_pos_bound N D HD) as Hr.
  set (q := N / D) in *. assert (Hq : W (-1000) ≤ q < W 901).
  { assert (W 900 < W 901) by (change 901 with (900 + 1); rewrite W_add by done; pose proof (W_pos 900 ltac:(done)); lia).
    split; [apply Z.div_le_lower_bound; lia|]. apply Z.div_lt_upper_bound; nia. }
  pose proof (W_pos (-1000) ltac:(done)) as HW. clear Hlo Hhi. destruct q as [|p|p]; [lia| |lia].
  assert (Hd : 2000 < digits (Zpos p) ≤ 3901).
  { split; [apply digits_ge; [lia..|exact (proj1 Hq)]|apply digits_le; [lia..|exact (proj2 Hq)]]. }
  clear Hq HW.
  pose proof (digits_bounds p) as [D1 D2]. set (k := digits (Zpos p) - 53) in *.
  assert (Hk : 0 < 2 ^ k) by (apply Z.pow_pos_nonneg; lia).
  pose proof (Z.div_mod (Zpos p) (2 ^ k) ltac:(lia)) as Em. pose proof (Z.mod_pos_bound (Zpos p) (2 ^ k) Hk) as Rm.
  set (m := Zpos p / 2 ^ k) in *.
  assert (Hm : 2 ^ 52 ≤ m < 2 ^ 53).
  { replace (digits (Zpos p) - 1) with (k + 52) in D1 by (unfold k; lia). replace (digits (Zpos p)) with (k + 53) in D2 by (unfold k; lia).
    rewrite Z.pow_add_r in D1, D2 by lia. nia. }
  clearbody m. destruct m as [|m'|m']; [lia| |lia]. exists (S754_finite false m' (k - B)).
  assert (HWk : W (k - B) = 2 ^ k) by (unfold W; f_equal; lia). split_and!.
  - split; [done|]. apply bounded_spec. rewrite fexp64_eq.
    assert (digits (Zpos m') = 53) as -> by (apply digits_unique; lia). unfold B, k in *. lia.
  - simpl V. rewrite HWk. clear -Hdm Hr Em Rm HD. set (K := 2 ^ k) in *. clearbody K.
    assert (Zpos m' * K * D ≤ Zpos p * D) by (apply Z.mul_le_mono_nonneg_r; lia). lia.
  - simpl V. rewrite HWk. clear -Hdm Hr Em Rm HD Hm Hk. set (K := 2 ^ k) in *. clearbody K.
    assert (HN : N ≤ (Zpos m' + 1) * (K * D)).
    { assert ((Zpos p + 1) * D ≤ (Zpos m' + 1) * K * D) by (apply Z.mul_le_mono_nonneg_r; lia). lia. }
    assert (0 < K * D) by nia. replace (Zpos m' * K * D) with (Zpos m' * (K * D)) by ring.
    set (KD := K * D) in *. clearbody KD. nia.
Qed.

Lemma rounds_lower N D r :
  0 < D → W (-1000) * D ≤ N → N ≤ W 900 * D → rounds N D r → 2 ^ 52 * N ≤ (2 ^ 52 + 1) * (V r * D).
Proof.
  intros HD Hlo Hhi (_ & _ & Hl & _). destruct (number_below N D HD Hlo Hhi) as (y & Hy & HyN & Hb).
  specialize (Hl y Hy HyN). nia.
Qed.

(** ** Quotients that vanish *)

Lemma round_aux_tiny m e l :
  0 ≤ m → - B ≤ e → e ≤ -1074 → m * W e ≤ W (-1073) →
  let r := binary_round_aux 53 1024 false m e l in valid r ∧ V r ≤ W (-1000).
Proof.
  intros Hm He He' Hx r. pose proof (W_pos (-1074) ltac:(done)) as HWm. pose proof (W_pos e He) as HWe.
  assert (HW1 : W (-1073) = W (-1074) * 2) by by rewrite <-(W_scale (-1074) 1).
  assert (HW2 : W (-1074) * 2 ^ 74 = W (-1000)) by by apply W_scale.
  destruct (decide (m = 0)) as [->|Hne].
  - destruct (record_of_loc 0 l) as [R1 _].
    destruct (shr_spec (shr_record_of_loc 0 l) e (-1074 - e)) as (mrs & Es & I1 & _); [lia|lia|].
    rewrite R1, Z.div_0_l in I1 by (apply Z.pow_nonzero; lia).
    assert (Er : shr_fexp 53 1024 0 e l = (mrs, -1074)).
    { unfold shr_fexp. replace (fexp64 (digits 0 + e) - e) with (-1074 - e) by (rewrite fexp64_eq; simpl; lia).
      rewrite Es. f_equal. lia. }
    subst r. unfold binary_round_aux. rewrite Er, I1.
    assert (Hq : 0 ≤ round_nearest_even 0 (loc_of_shr_record mrs) ≤ 1) by (destruct (round_even_cases 0 mrs); lia).
    pose proof (renormalize (round_nearest_even 0 (loc_of_shr_record mrs)) (-1074) ltac:(lia) ltac:(lia) ltac:(lia)) as Hr.
    destruct (shr_fexp 53 1024 (round_nearest_even _ _) (-1074) loc_Exact) as [mrs' e']. destruct Hr as [Hv HV].
    split; [exact Hv|]. rewrite HV. nia.
  - pose proof (fexp64_eq (digits m + e)) as HE. assert (Hsm : digits m + e - 1 ≤ -1073).
    { destruct m as [|p|p]; try lia. destruct (V_digits false p e He) as [L _]. simpl V in L. apply Z.nlt_ge. intros Hlt.
      pose proof (digits_pos p). assert (W (-1072) ≤ W (digits (Zpos p) + e - 1)) by (apply W_mono; unfold B; lia).
      assert (W (-1072) = W (-1074) * 4) by by rewrite <-(W_scale (-1074) 2). lia. }
    destruct (round_aux m e l ltac:(lia) ltac:(lia) ltac:(lia)) as (q & Hq & Hv & HV). fold r in Hv, HV. split; [done|]. rewrite HV.
    replace (fexp64 (digits m + e)) with (-1074) in * by lia.
    assert (HW : W (-1074) = W e * 2 ^ (-1074 - e)) by (rewrite <-W_add by lia; f_equal; lia).
    assert (Hp : 0 < 2 ^ (-1074 - e)) by (apply Z.pow_pos_nonneg; lia). set (k := 2 ^ (-1074 - e)) in *.
    assert (m / k * k ≤ m) by (rewrite Z.mul_comm; apply Z.mul_div_le; lia). assert (q ≤ m / k + 1) by lia.
    assert (m / k * k * W e ≤ m * W e) by (apply Z.mul_le_mono_nonneg_r; lia). nia.
Qed.

(** A quotient whose leading digit is below the least number. *)
Lemma div_tiny m1 e1 m2 e2 (x := S754_finite false m1 e1) (y := S754_finite false m2 e2) :
  valid x → valid y → digits (Zpos m1) + e1 - (digits (Zpos m2) + e2) < -1073 →
  valid (f64_div x y) ∧ V (f64_div x y) ≤ W (-1000).
Proof.
  intros (_ & E1 & M1 & N1)%valid_finite (_ & E2 & M2 & N2)%valid_finite Hδ. subst x y. unfold f64_div, SFdiv.
  unfold SFdiv_core_binary. set (δ := digits (Zpos m1) + e1 - (digits (Zpos m2) + e2)) in *.
  set (e := fexp64 δ `min` (e1 - e2)). set (s := e1 - e2 - e). assert (Hs : 0 ≤ s) by (unfold s, e; lia).
  assert (Hfe : fexp64 δ = -1074) by (rewrite fexp64_eq; lia).
  assert (Hm' : match s with Zpos _ => Z.shiftl (Zpos m1) s | Z0 => Zpos m1 | Zneg _ => 0 end = Zpos m1 * 2 ^ s).
  { destruct s as [|p|p] eqn:Es; [lia|by rewrite Z.shiftl_mul_pow2|lia]. }
  rewrite Hm'. clear Hm'. pose proof (Z.div_eucl_eq (Zpos m1 * 2 ^ s) (Zpos m2) ltac:(done)) as Heq.
  pose proof (Z.mod_pos_bound (Zpos m1 * 2 ^ s) (Zpos m2) ltac:(done)) as Hr. unfold Z.modulo in Hr.
  assert (Hq : 0 ≤ Zpos m1 * 2 ^ s / Zpos m2) by (apply Z.div_pos; lia). unfold Z.div in Hq.
  destruct (Z.div_eucl (Zpos m1 * 2 ^ s) (Zpos m2)) as [q r].
  assert (He : - B ≤ e ≤ -1074) by (unfold e, B; lia). pose proof (W_pos e ltac:(lia)) as HWe.
  apply round_aux_tiny; [done|lia|lia|].
  destruct (V_digits false m1 e1 ltac:(unfold B; lia)) as [_ U1]. destruct (V_digits false m2 e2 ltac:(unfold B; lia)) as [L2 _].
  pose proof (W_pos e2 ltac:(unfold B; lia)) as HW2. simpl V in *. pose proof (digits_pos m1). pose proof (digits_pos m2).
  apply (Z.mul_le_mono_pos_r _ _ (Zpos m2 * W e2)); [nia|].
  assert (Hqm : q * W e * (Zpos m2 * W e2) ≤ Zpos m1 * W e1 * W 0).
  { assert (W e1 * W 0 = 2 ^ s * (W e * W e2)) as Hw.
    { rewrite (W_mul e e2) by (unfold e, B; lia). replace e1 with ((e + e2) + s) at 1 by (unfold s; lia).
      rewrite W_add by (unfold e, B; lia). ring. }
    replace (Zpos m1 * W e1 * W 0) with (Zpos m1 * 2 ^ s * (W e * W e2)) by (rewrite <-(Z.mul_assoc (Zpos m1) (W e1)), Hw; ring).
    replace (q * W e * (Zpos m2 * W e2)) with (q * Zpos m2 * (W e * W e2)) by ring. apply Z.mul_le_mono_nonneg_r; nia. }
  etrans; [exact Hqm|]. pose proof (W_pos 0 ltac:(done)). pose proof (W_pos (-1073) ltac:(done)).
  assert (W (digits (Zpos m1) + e1) * W 0 ≤ W (-1073) * W (digits (Zpos m2) + e2 - 1)).
  { rewrite (W_mul (-1073)) by (unfold B; lia). apply Z.mul_le_mono_nonneg_r; [lia|]. apply W_mono; unfold B; lia. }
  nia.
Qed.

(** The quotient by a number that is at least one: not above an integer the
    dividend is not above, and short of the exact one by at most one part in
    [2 ^ 52], when the dividend is at least one. *)
Lemma div_by_rate x y n :
  valid x → valid y → W 0 ≤ V y → V y ≤ 2 ^ 64 * W 0 → V x ≤ n * W 0 → n < 2 ^ 53 →
  let r := f64_div x y in
  valid r ∧ V r ≤ (n `max` 1) * W 0 ∧ (W 0 ≤ V x → 2 ^ 52 * (V x * W 0) ≤ (2 ^ 52 + 1) * (V r * V y)).
Proof.
  intros Hx Hy Hy1 Hy2 Hn Hn53 r. pose proof (W_pos 0 ltac:(done)) as HW0. pose proof (V_nonneg x Hx) as Hx0.
  assert (HWlo : W (-1000) * 2 ^ 1000 = W 0) by by apply W_scale.
  assert (HWhi : W 0 * 2 ^ 900 = W 900) by by apply W_scale. pose proof (W_pos (-1000) ltac:(done)) as HWl.
  assert (Hbig : 2 ^ 100 ≤ 2 ^ 900 ∧ 2 ^ 100 ≤ 2 ^ 1000) by (split; apply Z.pow_le_mono_r; lia).
  revert HWlo HWhi Hbig. generalize (2 ^ 900) (2 ^ 1000). intros P Q HWlo HWhi [HP HQ].
  assert (Hhi : V x * W 0 ≤ W 900 * V y).
  { assert (V x ≤ W 900) by nia. apply Z.mul_le_mono_nonneg; lia. }
  assert (Hmain : rounds (V x * W 0) (V y) r → valid r ∧ V r ≤ (n `max` 1) * W 0).
  { intros (Rv & Ru & _ & _). split; [done|]. destruct (of_Z_exact (n `max` 1) ltac:(lia)) as [Nv NV]. rewrite <-NV.
    apply Ru; [done|]. rewrite NV. apply Z.mul_le_mono_nonneg; lia || nia. }
  assert (Hlow : W 0 ≤ V x → rounds (V x * W 0) (V y) r ∧ 2 ^ 52 * (V x * W 0) ≤ (2 ^ 52 + 1) * (V r * V y)).
  { intros Hx1. assert (W (-1000) * V y ≤ V x * W 0).
    { assert (W (-1000) * V y ≤ W 0 * W 0); [|nia]. assert (W (-1000) * 2 ^ 64 ≤ W 0) by nia. nia. }
    assert (Hr : rounds (V x * W 0) (V y) r) by (apply div_rounds; [done|done|lia|by right|done]).
    split; [done|]. apply rounds_lower; lia || done. }
  assert (H : valid r ∧ V r ≤ (n `max` 1) * W 0); [|naive_solver].
  destruct x as [sx| | |sx m1 e1]; [| done | done |].
  { apply Hmain, div_rounds; [done|done|lia|by left|done]. }
  destruct y as [sy| | |sy m2 e2]; [simpl in Hy1; lia|done|done|].
  pose proof Hx as (-> & _)%valid_finite. pose proof Hy as (-> & _)%valid_finite.
  destruct (decide (-1073 ≤ digits (Zpos m1) + e1 - (digits (Zpos m2) + e2))).
  - apply Hmain. by apply div_rounds_finite.
  - destruct (div_tiny m1 e1 m2 e2 Hx Hy ltac:(lia)) as [Rv RV]. split; [done|]. fold r in RV. nia.
Qed.

(** ** Durations from seconds *)

Lemma div_half_even_spec n d : 0 ≤ n → 0 < d → let q := div_half_even n d in 0 ≤ q ∧ 2 * n - d ≤ 2 * (q * d) ≤ 2 * n + d.
Proof.
  intros Hn Hd q. pose proof (Z.div_mod n d ltac:(lia)) as Hdm. pose proof (Z.mod_pos_bound n d Hd).
  assert (0 ≤ n / d) by (apply Z.div_pos; lia). unfold q, div_half_even.
  destruct (Z.ltb_spec (2 * (n `mod` d)) d); simpl; [nia|].
  destruct (Z.eqb_spec (2 * (n `mod` d)) d); simpl; [|nia]. destruct (Z.even (n / d)); nia.
Qed.

(** Within half a nanosecond. *)
Lemma from_secs_spec x n :
  valid x → V x ≤ n * W 0 → n < 2 ^ 64 → ∃ ns, from_secs_f64 x = Some ns ∧ 0 ≤ ns ∧
    2 * (V x * NANOS_PER_SEC) - W 0 ≤ 2 * (ns * W 0) ≤ 2 * (V x * NANOS_PER_SEC) + W 0.
Proof.
  intros Hx Hn Hn64. pose proof (W_pos 0 ltac:(done)) as HW0. unfold NANOS_PER_SEC. change (10 ^ 9) with 1000000000.
  destruct x as [s| | |s m e]; [by exists 0; simpl V; split_and!; lia || done|done|done|].
  pose proof Hx as (-> & He & _)%valid_finite. simpl. simpl V in Hn. unfold NANOS_PER_SEC. change (10 ^ 9) with 1000000000.
  destruct (Z.leb_spec 0 e).
  - assert (HW : W e = W 0 * 2 ^ e) by (symmetry; apply W_scale; [done|lia|lia]).
    assert (0 < 2 ^ e) by (apply Z.pow_pos_nonneg; lia). rewrite HW in *. set (k := 2 ^ e) in *.
    assert (Zpos m * k ≤ n) by (apply (Z.mul_le_mono_pos_r _ _ (W 0)); lia).
    destruct (Z.ltb_spec (Zpos m * k) (2 ^ 64)); [|lia]. eexists. split; [done|]. split_and!; lia.
  - assert (HW : W e * 2 ^ (- e) = W 0) by (apply W_scale; [unfold B|..]; lia).
    assert (Hk : 0 < 2 ^ (- e)) by (apply Z.pow_pos_nonneg; lia). pose proof (W_pos e ltac:(unfold B; lia)).
    eexists. split; [done|]. rewrite <-HW. set (k := 2 ^ (- e)) in *.
    destruct (div_half_even_spec (Zpos m * 1000000000) k ltac:(lia) Hk) as [Q1 Q2]. set (q := div_half_even _ _) in *.
    split; [done|]. clearbody q. set (w := W e) in *. clearbody w k. nia.
Qed.
