(* ===== verification/RustStr.v ===== *)
(** * The parts of Rust's string library the registry uses

    [split], [split_once], [join], [trim], [strip_prefix], integer parsing and
    printing, ASCII case folding: on the UTF-8 bytes of a [string]. *)

From S2P Require Import Prelude.
From stdpp Require Import pretty.

Definition is_ascii_digit (b : ascii) : bool := ((48 <=? u8 b) && (u8 b <=? 57))%Z.
Definition is_ascii_lowercase (b : ascii) : bool := ((97 <=? u8 b) && (u8 b <=? 122))%Z.
Definition is_ascii_uppercase (b : ascii) : bool := ((65 <=? u8 b) && (u8 b <=? 90))%Z.

Definition is_ascii_hexdigit (b : ascii) : bool :=
  (is_ascii_digit b || ((65 <=? u8 b) && (u8 b <=? 70)) || ((97 <=? u8 b) && (u8 b <=? 102)))%Z.

Definition lower_byte (b : ascii) : ascii :=
  if is_ascii_uppercase b then ascii_of_N (N_of_ascii b + 32) else b.

Fixpoint to_ascii_lowercase (s : string) : string :=
  match s with
  | EmptyString => EmptyString
  | String c s => String (lower_byte c) (to_ascii_lowercase s)
  end.

Definition eq_ignore_ascii_case (s t : string) : bool :=
  bool_decide (to_ascii_lowercase s = to_ascii_lowercase t).

Fixpoint string_forallb (p : ascii → bool) (s : string) : bool :=
  match s with
  | EmptyString => true
  | String c s => p c && string_forallb p s
  end.

(** [s.contains(c)] *)
Definition contains_char (c : ascii) (s : string) : bool :=
  negb (string_forallb (λ x, negb (bool_decide (x = c))) s).

(** [s.split(c)]: one more piece than there are separators. *)
Fixpoint split (c : ascii) (s : string) : list string :=
  match s with
  | EmptyString => [""]
  | String x s =>
      if decide (x = c) then "" :: split c s
      else match split c s with
           | [] => [String x ""]
           | p :: ps => String x p :: ps
           end
  end.

(** [s.split_once(c)] *)
Fixpoint split_once (c : ascii) (s : string) : option (string * string) :=
  match s with
  | EmptyString => None
  | String x s =>
      if decide (x = c) then Some ("", s)
      else match split_once c s with
           | Some (a, b) => Some (String x a, b)
           | None => None
           end
  end.

(** [l.join(sep)] *)
Fixpoint join (sep : string) (l : list string) : string :=
  match l with
  | [] => ""
  | [x] => x
  | x :: l => x +:+ sep +:+ join sep l
  end.

Fixpoint strip_prefix (p s : string) : option string :=
  match p, s with
  | EmptyString, _ => Some s
  | String a p, String b s => if decide (a = b) then strip_prefix p s else None
  | _, _ => None
  end.

Definition starts_with (s p : string) : bool :=
  match strip_prefix p s with Some _ => true | None => false end.

(** *** [trim]

    The characters with the Unicode property White_Space, as UTF-8. *)
Definition white_space : list bytes :=
  [ ["009"]; ["010"]; ["011"]; ["012"]; ["013"]; [" "];
    ["194"; "133"]; ["194"; "160"]; ["225"; "154"; "128"];
    ["226"; "128"; "128"]; ["226"; "128"; "129"]; ["226"; "128"; "130"];
    ["226"; "128"; "131"]; ["226"; "128"; "132"]; ["226"; "128"; "133"];
    ["226"; "128"; "134"]; ["226"; "128"; "135"]; ["226"; "128"; "136"];
    ["226"; "128"; "137"]; ["226"; "128"; "138"]; ["226"; "128"; "168"];
    ["226"; "128"; "169"]; ["226"; "128"; "175"]; ["226"; "129"; "159"];
    ["227"; "128"; "128"] ]%char.

Fixpoint strip_list (p l : bytes) : option bytes :=
  match p, l with
  | [], _ => Some l
  | a :: p, b :: l => if decide (a = b) then strip_list p l else None
  | _, _ => None
  end.

(** Drop the leading occurrences of the sequences of [ws]; each round drops at
    least one byte, so the length of [l] is enough fuel. *)
Fixpoint drop_leading (fuel : nat) (ws : list bytes) (l : bytes) : bytes :=
  match fuel with
  | O => l
  | S fuel =>
      match head (omap (λ w, strip_list w l) ws) with
      | Some l' => drop_leading fuel ws l'
      | None => l
      end
  end.

Definition trim_bytes (l : bytes) : bytes :=
  let l := drop_leading (length l) white_space l in
  rev (drop_leading (length l) (map (@rev ascii) white_space) (rev l)).

Definition trim (s : string) : string := of_bytes (trim_bytes (as_bytes s)).

(** [s.trim_matches(c)] *)
Fixpoint drop_while (p : ascii → bool) (l : bytes) : bytes :=
  match l with
  | [] => []
  | x :: l' => if p x then drop_while p l' else l
  end.

Definition trim_matches (c : ascii) (s : string) : string :=
  let l := drop_while (λ x, bool_decide (x = c)) (as_bytes s) in
  of_bytes (rev (drop_while (λ x, bool_decide (x = c)) (rev l))).

(** *** Integers *)

Definition digit_val (b : ascii) : option Z :=
  if is_ascii_digit b then Some (u8 b - 48)%Z else None.

Fixpoint parse_digits (acc : Z) (s : string) : option Z :=
  match s with
  | EmptyString => Some acc
  | String c s =>
      match digit_val c with
      | Some d =>
          let acc := (10 * acc + d)%Z in
          if (acc <=? u64_max)%Z then parse_digits acc s else None
      | None => None
      end
  end.

(** [s.parse::<u64>()]: an optional [+], then at least one digit; overflow is
    an error. *)
Definition parse_u64 (s : string) : option Z :=
  match s with
  | EmptyString => None
  | String "+" EmptyString => None
  | String "+" s => parse_digits 0 s
  | _ => parse_digits 0 s
  end%char.

(** [n.to_string()] of an unsigned integer. *)
Definition u64_to_string (n : Z) : string := pretty (Z.to_N n).

(** *** UTF-8 *)

Definition in_range (lo hi : Z) (b : ascii) : bool := ((lo <=? u8 b) && (u8 b <=? hi))%Z.
Definition cont (b : ascii) : bool := in_range 128 191 b.

(** Lead bytes of three and four byte sequences, with the second bytes the
    Unicode standard allows after them. *)
Definition lead3 (b c : ascii) : bool :=
  ((u8 b =? 224)%Z && in_range 160 191 c) || (in_range 225 236 b && cont c)
  || ((u8 b =? 237)%Z && in_range 128 159 c) || (in_range 238 239 b && cont c).
Definition lead4 (b c : ascii) : bool :=
  ((u8 b =? 240)%Z && in_range 144 191 c) || (in_range 241 243 b && cont c)
  || ((u8 b =? 244)%Z && in_range 128 143 c).

(** U+FFFD, the replacement character. *)
Definition replacement : bytes := ["239"; "191"; "189"]%char.

(** [String::from_utf8_lossy]: a maximal prefix of a sequence that cannot be
    completed becomes one replacement character. *)
Fixpoint from_utf8_lossy (l : bytes) : bytes :=
  match l with
  | [] => []
  | b :: l1 =>
      if in_range 0 127 b then b :: from_utf8_lossy l1
      else match l1 with
      | [] => replacement
      | c :: l2 =>
          if in_range 194 223 b && cont c then b :: c :: from_utf8_lossy l2
          else if lead3 b c then
            match l2 with
            | [] => replacement
            | d :: l3 =>
                if cont d then b :: c :: d :: from_utf8_lossy l3
                else replacement ++ from_utf8_lossy l2
            end
          else if lead4 b c then
            match l2 with
            | [] => replacement
            | d :: l3 =>
                if cont d then
                  match l3 with
                  | [] => replacement
                  | e :: l4 =>
                      if cont e then b :: c :: d :: e :: from_utf8_lossy l4
                      else replacement ++ from_utf8_lossy l3
                  end
                else replacement ++ from_utf8_lossy l2
            end
          else replacement ++ from_utf8_lossy l1
      end
  end.

(** The well-formed byte sequences. *)
Fixpoint utf8_valid (l : bytes) : bool :=
  match l with
  | [] => true
  | b :: l1 =>
      if in_range 0 127 b then utf8_valid l1
      else match l1 with
      | [] => false
      | c :: l2 =>
          if in_range 194 223 b && cont c then utf8_valid l2
          else if lead3 b c then
            match l2 with
            | [] => false
            | d :: l3 => cont d && utf8_valid l3
            end
          else if lead4 b c then
            match l2 with
            | d :: e :: l4 => cont d && cont e && utf8_valid l4
            | _ => false
            end
          else false
      end
  end.

(** [String::from_utf8] *)
Definition from_utf8 (l : bytes) : option string :=
  if utf8_valid l then Some (of_bytes l) else None.

(** ** Lemmas *)

Lemma split_nonempty c s : split c s ≠ [].
Proof.
  destruct s as [|x s]; simpl; [done|]. case_decide; [done|]. by destruct (split c s).
Qed.

Lemma split_cons_sep c s : split c (String c s) = "" :: split c s.
Proof. simpl. by rewrite decide_True. Qed.

Lemma string_app_cons x s t : String x s +:+ t = String x (s +:+ t).
Proof. done. Qed.

Lemma string_app_nil_r s : s +:+ "" = s.
Proof. induction s as [|x s IH]; [done|]. rewrite string_app_cons. by rewrite IH. Qed.

Lemma string_app_assoc s t u : (s +:+ t) +:+ u = s +:+ t +:+ u.
Proof. induction s as [|x s IH]; [done|]. rewrite !string_app_cons. by rewrite IH. Qed.

Lemma string_app_length s t : String.length (s +:+ t) = String.length s + String.length t.
Proof. induction s as [|x s IH]; [done|]. rewrite string_app_cons. simpl. by rewrite IH. Qed.

Lemma contains_char_true c s : contains_char c s = true ↔ c ∈ as_bytes s.
Proof.
  unfold contains_char. induction s as [|x s IH]; simpl.
  - split; [done|]. by intros ?%elem_of_nil.
  - rewrite elem_of_cons, <-IH. rewrite negb_true_iff, andb_false_iff, negb_false_iff, bool_decide_eq_true.
    rewrite negb_true_iff. naive_solver.
Qed.

Lemma contains_char_false c s : contains_char c s = false ↔ c ∉ as_bytes s.
Proof. rewrite <-contains_char_true. by destruct (contains_char c s). Qed.

Lemma split_no_sep c s : contains_char c s = false → split c s = [s].
Proof.
  rewrite contains_char_false. induction s as [|x s IH]; simpl; [done|].
  intros [Hx Hs]%not_elem_of_cons. rewrite decide_False by done. by rewrite (IH Hs).
Qed.

(** Splitting after [a ++ c ++ b] when [a] has no separator. *)
Lemma split_app c a b :
  contains_char c a = false → split c (a +:+ String c b) = a :: split c b.
Proof.
  rewrite contains_char_false. induction a as [|x a IH]; intros Ha.
  - apply split_cons_sep.
  - simpl in Ha. apply not_elem_of_cons in Ha as [Hx Ha].
    rewrite string_app_cons. simpl. rewrite decide_False by done. by rewrite IH.
Qed.

(** No piece contains the separator, and joining the pieces gives the string
    back. *)
Lemma split_pieces c s : Forall (λ p, contains_char c p = false) (split c s).
Proof.
  induction s as [|x s IH]; simpl; [by repeat constructor|].
  case_decide as Hx; [constructor; done|].
  destruct (split c s) as [|p ps] eqn:E; [by destruct (split_nonempty c s)|].
  apply Forall_cons in IH as [Hp Hps]. constructor; [|done].
  apply contains_char_false. simpl. apply contains_char_false in Hp. by apply not_elem_of_cons.
Qed.

Lemma join_cons_ne sep x l : l ≠ [] → join sep (x :: l) = x +:+ sep +:+ join sep l.
Proof. by destruct l. Qed.

Lemma join_split c s : join (String c "") (split c s) = s.
Proof.
  induction s as [|x s IH]; simpl; [done|]. case_decide as Hx.
  - subst. rewrite join_cons_ne by apply split_nonempty. by rewrite IH.
  - destruct (split c s) as [|p ps] eqn:E; [by destruct (split_nonempty c s)|].
    destruct ps as [|q ps]; simpl in IH |- *; [by subst|].
    rewrite string_app_cons. by rewrite IH.
Qed.

Lemma split_join c l :
  l ≠ [] → Forall (λ p, contains_char c p = false) l → split c (join (String c "") l) = l.
Proof.
  induction l as [|x l IH]; intros Hne Hl; [done|]. apply Forall_cons in Hl as [Hx Hl].
  destruct l as [|y l]; [by apply split_no_sep|].
  rewrite join_cons_ne by done. change (String c "" +:+ ?r) with (String c r).
  rewrite split_app by done. by rewrite IH.
Qed.

Lemma split_once_Some c s a b :
  split_once c s = Some (a, b) ↔ s = a +:+ String c b ∧ contains_char c a = false.
Proof.
  revert a b. induction s as [|x s IH]; intros a b; simpl.
  { split; [done|]. intros [H _]. by destruct a. }
  case_decide as Hx.
  - subst x. split.
    + intros [= <- <-]. done.
    + intros [H Ha]. destruct a as [|y a].
      * change ("" +:+ String c b) with (String c b) in H. by simplify_eq.
      * rewrite string_app_cons in H. injection H as <- _.
        apply contains_char_false in Ha. simpl in Ha. set_solver.
  - destruct (split_once c s) as [[a' b']|] eqn:E.
    + split.
      * intros [= <- <-]. destruct (proj1 (IH a' b')) as [-> Ha]; [done|].
        split; [by rewrite string_app_cons|].
        apply contains_char_false. simpl. apply contains_char_false in Ha. by apply not_elem_of_cons.
      * intros [H Ha]. destruct a as [|y a]; [by injection H|].
        rewrite string_app_cons in H. injection H as <- ->.
        apply contains_char_false in Ha. simpl in Ha. apply not_elem_of_cons in Ha as [_ Ha].
        assert (Some (a', b') = Some (a, b)) as [= -> ->]; [|done].
        apply IH. split; [done|]. by apply contains_char_false.
    + split; [done|]. intros [H Ha]. destruct a as [|y a]; [by injection H|].
      rewrite string_app_cons in H. injection H as <- ->.
      apply contains_char_false in Ha. simpl in Ha. apply not_elem_of_cons in Ha as [_ Ha].
      assert (None = Some (a, b)); [|done]. apply IH. split; [done|]. by apply contains_char_false.
Qed.

Lemma split_once_None c s : split_once c s = None ↔ contains_char c s = false.
Proof.
  rewrite contains_char_false. induction s as [|x s IH]; simpl.
  - split; [|done]. intros _ ?%elem_of_nil. done.
  - case_decide as Hx; [subst; set_solver|].
    destruct (split_once c s) as [[a b]|]; rewrite not_elem_of_cons; naive_solver.
Qed.

Lemma to_ascii_lowercase_length s : String.length (to_ascii_lowercase s) = String.length s.
Proof. induction s; simpl; auto. Qed.

Lemma strip_prefix_Some p s t : strip_prefix p s = Some t ↔ s = p +:+ t.
Proof.
  revert s. induction p as [|a p IH]; intros s; simpl.
  - change ("" +:+ t) with t. split; [by intros [= ->]|by intros ->].
  - destruct s as [|b s]; [split; [done|by rewrite string_app_cons]|].
    rewrite string_app_cons. case_decide as Hab.
    + subst. rewrite IH. split; [by intros ->|by intros [= ->]].
    + split; [done|]. by intros [= -> ].
Qed.

Lemma starts_with_true s p : starts_with s p = true ↔ ∃ t, s = p +:+ t.
Proof.
  unfold starts_with. destruct (strip_prefix p s) as [t|] eqn:E.
  - apply strip_prefix_Some in E. naive_solver.
  - split; [done|]. intros [t Ht%strip_prefix_Some]. congruence.
Qed.

Lemma string_forallb_bytes p s : string_forallb p s = forallb p (as_bytes s).
Proof. induction s as [|c s IH]; simpl; [done|]. by rewrite IH. Qed.

Lemma split_app_gen c a b : split c (a +:+ String c b) = split c a ++ split c b.
Proof.
  induction a as [|x a IH]; [apply split_cons_sep|].
  rewrite string_app_cons. simpl. rewrite IH. case_decide; [done|].
  destruct (split c a) eqn:E; [by destruct (split_nonempty c a)|done].
Qed.

Lemma join_app sep l k :
  l ≠ [] → k ≠ [] → join sep (l ++ k) = join sep l +:+ sep +:+ join sep k.
Proof.
  intros Hl Hk. induction l as [|x l IH]; [done|]. destruct l as [|y l].
  - cbn [app]. by rewrite join_cons_ne.
  - change ((x :: y :: l) ++ k) with (x :: ((y :: l) ++ k)).
    rewrite !join_cons_ne by done. rewrite IH by done. by rewrite !string_app_assoc.
Qed.

(** The pieces of a split are what it splits back into, also in part. *)
Lemma split_join_suffix c s pre ns :
  split c s = pre ++ ns → ns ≠ [] → split c (join (String c "") ns) = ns.
Proof.
  intros Heq Hne. apply split_join; [done|].
  pose proof (split_pieces c s) as H. rewrite Heq in H. by apply Forall_app in H as [_ ?].
Qed.

Lemma from_utf8_lossy_valid l : utf8_valid l = true → from_utf8_lossy l = l.
Proof.
  induction l as [l IH] using (induction_ltof1 _ (@length ascii)). unfold ltof in IH.
  destruct l as [|b l1]; [done|]. cbn [utf8_valid from_utf8_lossy].
  destruct (in_range 0 127 b); [intros; by rewrite IH by (simpl; lia || done)|].
  destruct l1 as [|c l2]; [done|].
  destruct (in_range 194 223 b && cont c); [intros; rewrite IH by (simpl; lia || done); done|].
  destruct (lead3 b c).
  { destruct l2 as [|d l3]; [done|]. destruct (cont d); [|done]. simpl. intros. by rewrite IH by (simpl; lia || done). }
  destruct (lead4 b c); [|done].
  destruct l2 as [|d [|e l4]]; [done..|]. destruct (cont d), (cont e); try done. simpl.
  intros. by rewrite IH by (simpl; lia || done).
Qed.

(** Printing an integer and parsing it back. *)
Lemma digit_val_char n : (n < 10)%N → digit_val (pretty_N_char n) = Some (Z.of_N n).
Proof.
  intros Hn. destruct n as [|p]; [reflexivity|].
  do 4 (destruct p as [p|p|]; try reflexivity; try lia).
Qed.

Lemma parse_digits_go x s :
  (Z.of_N x ≤ u64_max)%Z → parse_digits 0 (pretty_N_go x s) = parse_digits (Z.of_N x) s.
Proof.
  revert s. induction (N.lt_wf_0 x) as [x _ IH]. intros s Hx.
  destruct (decide (x = 0)%N) as [->|Hne]; [by rewrite pretty_N_go_0|].
  rewrite pretty_N_go_step by lia.
  rewrite IH; [|apply N.div_lt; lia|rewrite N2Z.inj_div; pose proof (Z.div_le_upper_bound (Z.of_N x) 10 u64_max); unfold u64_max in *; lia].
  cbn [parse_digits]. rewrite digit_val_char by (apply N.mod_lt; lia).
  assert ((10 * Z.of_N (x `div` 10) + Z.of_N (x `mod` 10)) = Z.of_N x)%Z as ->.
  { rewrite N2Z.inj_div, N2Z.inj_mod. pose proof (Z.div_mod (Z.of_N x) 10). lia. }
  by rewrite (proj2 (Z.leb_le _ _)).
Qed.

Lemma pretty_go_head x s : (0 < x)%N → ∃ c t, pretty_N_go x s = String c t ∧ is_Some (digit_val c).
Proof.
  revert s. induction (N.lt_wf_0 x) as [x _ IH]. intros s Hx. rewrite pretty_N_go_step by lia.
  destruct (decide (x `div` 10 = 0)%N) as [->|Hne].
  - rewrite pretty_N_go_0. do 2 eexists. split; [done|]. rewrite digit_val_char by (apply N.mod_lt; lia). eauto.
  - apply IH; [apply N.div_lt; lia|by apply N.neq_0_lt_0].
Qed.

Lemma parse_u64_to_string n : is_u64 n → parse_u64 (u64_to_string n) = Some n.
Proof.
  intros [H0 Hmax]. unfold u64_to_string, pretty, pretty_N.
  destruct (decide (Z.to_N n = 0)%N) as [Hz|Hne].
  { assert (n = 0)%Z as -> by lia. reflexivity. }
  destruct (pretty_go_head (Z.to_N n) "") as (c&t&Heq&[d Hd]); [lia|].
  pose proof (parse_digits_go (Z.to_N n) "" ltac:(lia)) as Hp. rewrite Heq in Hp |- *.
  rewrite Z2N.id in Hp by lia. change (parse_digits n "") with (Some n) in Hp.
  unfold parse_u64. destruct (decide (c = "+"%char)) as [->|Hc]; [done|].
  assert (match String c t with EmptyString => None | String "+" EmptyString => None
          | String "+" s => parse_digits 0 s | _ => parse_digits 0 (String c t) end%char = parse_digits 0 (String c t)) as Hm.
  { repeat case_match; simplify_eq; done. }
  exact (eq_trans Hm Hp).
Qed.

Lemma pretty_go_digit x s b :
  b ∈ as_bytes (pretty_N_go x s) → is_ascii_digit b = true ∨ b ∈ as_bytes s.
Proof.
  revert s. induction (N.lt_wf_0 x) as [x _ IH]. intros s.
  destruct (decide (x = 0)%N) as [->|Hne]; [rewrite pretty_N_go_0; auto|]. rewrite pretty_N_go_step by lia.
  intros [H|H]%IH; [by left| |apply N.div_lt; lia]. simpl in H. apply elem_of_cons in H as [->|H]; [left|by right].
  pose proof (digit_val_char (x `mod` 10) ltac:(apply N.mod_lt; lia)) as E. unfold digit_val in E.
  by destruct (is_ascii_digit _).
Qed.

Lemma u64_to_string_digit n b : b ∈ as_bytes (u64_to_string n) → is_ascii_digit b = true.
Proof.
  unfold u64_to_string, pretty, pretty_N. case_decide; [simpl; intros [->|Hb]%elem_of_cons; [done|set_solver]|].
  intros [?|Hb]%pretty_go_digit; [done|]. simpl in Hb. set_solver.
Qed.
