(* ===== verification/Json.v ===== *)
(** * JSON values

    [serde_json::Value] as the registry uses it. An object is a
    [BTreeMap<String, Value>] (the crate is built without [preserve_order]): an
    association list in ascending key order without duplicates. Parsing and
    printing are the crate's own; the components that need them take them as
    parameters of the class [SerdeJson] below. *)

From S2P Require Import Prelude RustStr.

(** [serde_json::Number] *)
Inductive number :=
  | PosInt (n : Z)
  | NegInt (n : Z)
  | Float (repr : string).

Inductive json :=
  | JNull
  | JBool (b : bool)
  | JNumber (n : number)
  | JString (s : string)
  | JArray (l : list json)
  | JObject (m : list (string * json)).

Abbreviation jmap := (list (string * json)).

(** ** Maps *)

Fixpoint map_get {A} (k : string) (m : list (string * A)) : option A :=
  match m with
  | [] => None
  | (k', v) :: m => if decide (k = k') then Some v else map_get k m
  end.

Definition map_contains {A} (k : string) (m : list (string * A)) : bool :=
  bool_decide (is_Some (map_get k m)).

(** [BTreeMap::insert]: replace, or insert at the key's place. *)
Fixpoint map_insert {A} (k : string) (v : A) (m : list (string * A)) : list (string * A) :=
  match m with
  | [] => [(k, v)]
  | (k', v') :: m' =>
      if decide (k = k') then (k, v) :: m'
      else if decide (String.le k k') then (k, v) :: m
      else (k', v') :: map_insert k v m'
  end.

Definition map_remove {A} (k : string) (m : list (string * A)) : list (string * A) :=
  filter (λ kv, kv.1 ≠ k) m.

(** [entry(k).or_insert(v)] *)
Definition map_or_insert {A} (k : string) (v : A) (m : list (string * A)) : list (string * A) :=
  if map_contains k m then m else map_insert k v m.

(** ** Accessors *)

Definition as_object (v : json) : option jmap :=
  match v with JObject m => Some m | _ => None end.

Definition as_array (v : json) : option (list json) :=
  match v with JArray l => Some l | _ => None end.

Definition as_str (v : json) : option string :=
  match v with JString s => Some s | _ => None end.

(** [as_u64]: the number is a non-negative integer. *)
Definition as_u64 (v : json) : option Z :=
  match v with JNumber (PosInt n) => Some n | _ => None end.

(** [v.get(k)]: only an object has members. *)
Definition jget (k : string) (v : json) : option json :=
  match v with JObject m => map_get k m | _ => None end.

(** Build an object from its members, as [json!] and repeated [insert] do. *)
Definition jobject (l : list (string * json)) : json :=
  JObject (foldl (λ m '(k, v), map_insert k v m) [] l).

(** ** The crate

    [from_slice] and [to_vec]; printing a value and parsing it back gives it
    again for values built by the program (object keys ascending, integers in
    range), which is what [SerdeJsonLaws] states for the values of a predicate
    the parser's documentation covers. *)

Class SerdeJson := {
  from_slice : bytes → option json;
  to_vec : json → bytes;
}.

Fixpoint keys_ascending (m : jmap) : Prop :=
  match m with
  | [] => True
  | (k, _) :: m => Forall (λ kv, String.le k kv.1 ∧ k ≠ kv.1) m ∧ keys_ascending m
  end.

(** ** Lemmas *)

Lemma map_get_insert {A} k (v : A) m : map_get k (map_insert k v m) = Some v.
Proof.
  induction m as [|[k' v'] m IH]; simpl; [by rewrite decide_True|].
  case_decide; simpl; [by rewrite decide_True|].
  case_decide; simpl; [by rewrite decide_True|]. by rewrite decide_False.
Qed.

Lemma map_get_insert_ne {A} k k' (v : A) m :
  k ≠ k' → map_get k (map_insert k' v m) = map_get k m.
Proof.
  intros Hne. induction m as [|[k2 v2] m IH]; simpl; [by rewrite decide_False|].
  case_decide as H; simpl; [subst; by rewrite !(decide_False (P:=k=k2))|].
  case_decide; simpl; [by rewrite (decide_False (P:=k=k'))|]. by rewrite IH.
Qed.

Lemma map_contains_true {A} k (m : list (string * A)) :
  map_contains k m = true ↔ is_Some (map_get k m).
Proof. apply bool_decide_eq_true. Qed.

Lemma map_get_elem_of {A} k (v : A) m : map_get k m = Some v → (k, v) ∈ m.
Proof.
  induction m as [|[k' v'] m IH]; simpl; [done|].
  case_decide; intros ?; simplify_eq; set_solver.
Qed.

Lemma map_insert_keys {A} k (v : A) m k' :
  k' ∈ (map_insert k v m).*1 ↔ k' = k ∨ k' ∈ m.*1.
Proof.
  induction m as [|[k2 v2] m IH]; simpl; [set_solver|].
  case_decide; [subst; set_solver|]. case_decide; [set_solver|].
  rewrite fmap_cons, !elem_of_cons, IH. simpl. tauto.
Qed.

Lemma map_get_remove {A} k (m : list (string * A)) : map_get k (map_remove k m) = None.
Proof.
  unfold map_remove. induction m as [|[k' v'] m IH]; simpl; [done|].
  rewrite filter_cons. case_decide as Hk; simpl in *; [|done]. by rewrite decide_False.
Qed.

Lemma map_get_remove_ne {A} k k' (m : list (string * A)) :
  k ≠ k' → map_get k (map_remove k' m) = map_get k m.
Proof.
  intros Hne. unfold map_remove. induction m as [|[k2 v2] m IH]; simpl; [done|].
  rewrite filter_cons. case_decide as Hk; simpl in *; [by rewrite IH|].
  subst. by rewrite decide_False.
Qed.

Lemma map_get_or_insert_ne {A} k k' (v : A) m :
  k ≠ k' → map_get k (map_or_insert k' v m) = map_get k m.
Proof. intros Hne. unfold map_or_insert. case_match; [done|]. by apply map_get_insert_ne. Qed.

Lemma map_get_or_insert {A} k (v : A) m :
  map_get k (map_or_insert k v m) = Some (default v (map_get k m)).
Proof.
  unfold map_or_insert, map_contains. case_bool_decide as E.
  - destruct E as [x ->]. done.
  - rewrite map_get_insert. destruct (map_get k m); [destruct E; eauto|done].
Qed.
