(* ===== verification/Errors.v ===== *)
(** * Errors and HTTP responses

    The storage errors ([roci-storage/src/error.rs]), the dist-spec error codes
    and the API error envelope with their mapping
    ([roci-core/src/error.rs]), and the responses the handlers build. *)

From S2P Require Import Prelude RustStr Json.

(** ** [std::io::Error] *)

Inductive IoKind :=
  | KNotFound | KAlreadyExists | KInvalidData | KInvalidInput
  | KUnexpectedEof | KUnsupported | KOther.
#[export] Instance IoKind_eq_dec : EqDecision IoKind.
Proof. solve_decision. Defined.

Record io_error := IoError { io_kind : IoKind; io_msg : string }.
#[export] Instance io_error_eq_dec : EqDecision io_error.
Proof. solve_decision. Defined.

(** ** Storage errors *)

Inductive QuotaScope := Repository | Total.
#[export] Instance QuotaScope_eq_dec : EqDecision QuotaScope.
Proof. solve_decision. Defined.

Inductive StorageError :=
  | NotFound
  | BadDigest (d : string)
  | DigestMismatch (expected actual : string)
  | Io (e : io_error)
  | BadPath (p : string)
  | RangeNotSatisfiable (expected got : Z)
  | TooLarge (limit actual : Z)
  | QuotaExceeded (scope : QuotaScope) (limit requested : Z)
  | MissingReference (d : string)
  | TooManySessions (limit : Z)
  | Unavailable (detail : string).
#[export] Instance StorageError_eq_dec : EqDecision StorageError.
Proof. solve_decision. Defined.

Definition QuotaScope_fmt (s : QuotaScope) : string :=
  match s with Repository => "repository" | Total => "registry" end.

(** The [Display] of [StorageError] ([thiserror]'s format strings). *)
Definition StorageError_fmt (e : StorageError) : string :=
  match e with
  | NotFound => "not found"
  | BadDigest d => "malformed digest: " +:+ d
  | DigestMismatch x a => "digest mismatch: expected " +:+ x +:+ ", got " +:+ a
  | Io e => "io error: " +:+ io_msg e
  | BadPath p => "unsafe path component: " +:+ p
  | RangeNotSatisfiable x g =>
      "content range start " +:+ u64_to_string g +:+
      " does not match current offset " +:+ u64_to_string x
  | TooLarge l a =>
      "upload size " +:+ u64_to_string a +:+ " exceeds maximum " +:+ u64_to_string l
  | QuotaExceeded s l r =>
      QuotaScope_fmt s +:+ " quota of " +:+ u64_to_string l +:+ " bytes exceeded (" +:+
      u64_to_string r +:+ " bytes requested)"
  | MissingReference d => "referenced blob " +:+ d +:+ " is not present"
  | TooManySessions l =>
      "too many concurrent upload sessions (limit " +:+ u64_to_string l +:+ ")"
  | Unavailable d => "storage unavailable: " +:+ d
  end.

Definition map_not_found (e : io_error) : StorageError :=
  if decide (io_kind e = KNotFound) then NotFound else Io e.

(** ** Dist-spec error codes *)

Inductive ErrorCode :=
  | BlobUnknown | BlobUploadInvalid | BlobUploadUnknown | DigestInvalid
  | ManifestBlobUnknown | ManifestInvalid | ManifestUnknown | NameInvalid
  | NameUnknown | SizeInvalid | Unauthorized | Denied | Unsupported
  | TooManyRequests.
#[export] Instance ErrorCode_eq_dec : EqDecision ErrorCode.
Proof. solve_decision. Defined.

Definition parts (c : ErrorCode) : string * Z :=
  match c with
  | BlobUnknown => ("BLOB_UNKNOWN", 404)
  | BlobUploadInvalid => ("BLOB_UPLOAD_INVALID", 400)
  | BlobUploadUnknown => ("BLOB_UPLOAD_UNKNOWN", 404)
  | DigestInvalid => ("DIGEST_INVALID", 400)
  | ManifestBlobUnknown => ("MANIFEST_BLOB_UNKNOWN", 400)
  | ManifestInvalid => ("MANIFEST_INVALID", 400)
  | ManifestUnknown => ("MANIFEST_UNKNOWN", 404)
  | NameInvalid => ("NAME_INVALID", 400)
  | NameUnknown => ("NAME_UNKNOWN", 404)
  | SizeInvalid => ("SIZE_INVALID", 400)
  | Unauthorized => ("UNAUTHORIZED", 401)
  | Denied => ("DENIED", 403)
  | Unsupported => ("UNSUPPORTED", 405)
  | TooManyRequests => ("TOOMANYREQUESTS", 429)
  end%Z.

Definition wire (c : ErrorCode) : string := (parts c).1.
Definition code_status (c : ErrorCode) : Z := (parts c).2.

(** ** The API error *)

Inductive ApiError :=
  | Spec (code : ErrorCode) (message : string)
  | Internal (message : string)
  | PayloadTooLarge (message : string)
  | InsufficientStorage (message : string)
  | Unauthenticated (message : string) (challenge : option string)
  | TooEarly
  | ApiUnavailable (message : string).
#[export] Instance ApiError_eq_dec : EqDecision ApiError.
Proof. solve_decision. Defined.

Definition name_invalid (m : string) : ApiError := Spec NameInvalid m.
Definition digest_invalid (m : string) : ApiError := Spec DigestInvalid m.
Definition manifest_invalid (m : string) : ApiError := Spec ManifestInvalid m.
Definition manifest_blob_unknown (m : string) : ApiError := Spec ManifestBlobUnknown m.
Definition payload_too_large (m : string) : ApiError := PayloadTooLarge m.

Definition status (e : ApiError) : Z :=
  match e with
  | Spec c _ => code_status c
  | Internal _ => 500
  | PayloadTooLarge _ => 413
  | InsufficientStorage _ => 507
  | Unauthenticated _ _ => 401
  | TooEarly => 425
  | ApiUnavailable _ => 503
  end%Z.

Definition code (e : ApiError) : string :=
  match e with
  | Spec c _ => wire c
  | Internal _ | ApiUnavailable _ => "UNKNOWN"
  | PayloadTooLarge _ => wire SizeInvalid
  | InsufficientStorage _ | TooEarly => wire Denied
  | Unauthenticated _ _ => wire Unauthorized
  end.

Definition message (e : ApiError) : string :=
  match e with
  | Spec _ m | Internal m | ApiUnavailable m | PayloadTooLarge m
  | InsufficientStorage m | Unauthenticated m _ => m
  | TooEarly => "request sent in TLS early data; retry after the handshake completes"
  end.

(** [impl From<StorageError> for ApiError] *)
Definition api_of_storage (e : StorageError) : ApiError :=
  match e with
  | NotFound => Spec NameUnknown "repository name not known to registry"
  | BadDigest d => digest_invalid ("invalid digest: " +:+ d)
  | DigestMismatch x a =>
      digest_invalid ("digest mismatch: expected " +:+ x +:+ ", got " +:+ a)
  | BadPath p => name_invalid ("unsafe path component: " +:+ p)
  | RangeNotSatisfiable _ _ =>
      Spec BlobUploadInvalid "content range does not match offset"
  | TooLarge l a =>
      payload_too_large ("upload size " +:+ u64_to_string a +:+
                         " exceeds maximum blob size " +:+ u64_to_string l)
  | QuotaExceeded Repository _ _ => payload_too_large (StorageError_fmt e)
  | QuotaExceeded Total _ _ => InsufficientStorage (StorageError_fmt e)
  | TooManySessions _ => Spec TooManyRequests (StorageError_fmt e)
  | MissingReference d =>
      manifest_blob_unknown ("referenced blob " +:+ d +:+ " is not present")
  | Io _ => Internal "internal error"
  | Unavailable _ => ApiUnavailable "storage temporarily unavailable"
  end.

Definition not_found_as (unknown : ApiError) (e : StorageError) : ApiError :=
  match e with
  | NotFound => unknown
  | other => api_of_storage other
  end.

(** ** Responses

    A header map keeps one value per lower-case name ([insert] replaces). A
    JSON body stands for its serialization, and a stream for what polling it
    yields. *)

Inductive Body :=
  | BEmpty
  | BText (s : string)
  | BBytes (b : bytes)
  | BJson (v : json)
  | BStream (s : list (result io_error bytes)).

Record Response := mkResponse {
  resp_status : Z;
  resp_headers : gmap string string;
  resp_body : Body;
}.

Definition resp_header (k : string) (r : Response) : option string := resp_headers r !! k.

(** [impl IntoResponse for ApiError] *)
Definition error_response (e : ApiError) : Response :=
  let headers := {["content-type" := "application/json"]} in
  {| resp_status := status e;
     resp_headers :=
       match e with
       | Unauthenticated _ (Some c) => <["www-authenticate" := c]> headers
       | _ => headers
       end;
     resp_body :=
       BJson (jobject [("errors",
         JArray [jobject [("code", JString (code e)); ("message", JString (message e))]])]) |}.

(** A header value the parser of the HTTP crate accepted: visible text, or
    bytes on which [to_str] fails. *)
Inductive HeaderValue :=
  | HvText (s : string)
  | HvOpaque (b : bytes).

Definition to_str (v : HeaderValue) : option string :=
  match v with HvText s => Some s | HvOpaque _ => None end.

Abbreviation HeaderMap := (gmap string HeaderValue).

(** [headers.get(k).and_then(|v| v.to_str().ok())] *)
Definition header_text (k : string) (h : HeaderMap) : option string := h !! k ≫= to_str.

(** [HeaderValue::from_str]: every byte is a tab or at least 0x20 and not
    DEL. The code [unwrap]s it where the bytes are known to be fine. *)
Definition header_byte_ok (b : ascii) : bool :=
  (((32 <=? u8 b) && negb (u8 b =? 127)) || (u8 b =? 9))%Z.
Definition header_ok (s : string) : bool := string_forallb header_byte_ok s.

(** ** Properties *)

(** The wire strings of the error codes are pairwise distinct, so a client
    can tell the codes apart. *)
Lemma wire_injective c c' : wire c = wire c' → c = c'.
Proof. by destruct c, c'. Qed.

(** An error response is a client or a server error, and never a redirect or
    a success. *)
Lemma status_range e : (400 ≤ status e < 600)%Z.
Proof. destruct e as [[]| | | | | |]; unfold status, code_status; simpl; lia. Qed.

(** Only an absent object is reported with the endpoint's own code. *)
Lemma not_found_as_other u e : e ≠ NotFound → not_found_as u e = api_of_storage e.
Proof. by destruct e. Qed.
