(* ===== verification/Names.v ===== *)
(** * Repository names ([roci-core/src/names.rs])

    [RepositoryName::parse] is a hand-written scanner; [component] is the
    grammar of the distribution specification, and the two agree. *)

From S2P Require Import Prelude RustStr Json Errors.

Definition MAX_NAME : Z := 255.

Definition is_lower_alnum (b : ascii) : bool := is_ascii_lowercase b || is_ascii_digit b.

Definition is_separator (b : ascii) : bool :=
  bool_decide (b = ".")%char || bool_decide (b = "_")%char || bool_decide (b = "-")%char.

Definition valid_separator_run (run : bytes) : bool :=
  match run with
  | ["."] => true
  | ["_"] => true
  | ["_"; "_"] => true
  | _ => forallb (λ b, bool_decide (b = "-")) run
  end%char.

(** The longest prefix of separators, and what follows it. *)
Fixpoint span_separators (l : bytes) : bytes * bytes :=
  match l with
  | [] => ([], [])
  | b :: l' =>
      if is_separator b then let '(run, rest) := span_separators l' in (b :: run, rest)
      else ([], l)
  end.

(** The [while] loop over [bytes[i..]]. Every turn consumes a byte, so the
    number of bytes is enough fuel. *)
Fixpoint component_loop (fuel : nat) (l : bytes) : result ApiError unit :=
  match fuel, l with
  | _, [] => Ok tt
  | O, _ => Ok tt
  | S fuel, b :: l' =>
      if is_lower_alnum b then component_loop fuel l'
      else
        let '(run, rest) := span_separators l in
        if negb (valid_separator_run run) then
          Err (name_invalid "invalid repository name separator")
        else match rest with
             | [] => Err (name_invalid "separator not followed by [a-z0-9]")
             | b' :: _ =>
                 if negb (is_lower_alnum b') then
                   Err (name_invalid "separator not followed by [a-z0-9]")
                 else component_loop fuel rest
             end
  end.

Definition validate_name_component (c : string) : result ApiError unit :=
  if bool_decide (c = "") || bool_decide (c = ".") || bool_decide (c = "..") then
    Err (name_invalid "empty or dot repository component")
  else
    let bs := as_bytes c in
    match head bs, last bs with
    | Some b0, Some bn =>
        if negb (is_lower_alnum b0) || negb (is_lower_alnum bn) then
          Err (name_invalid "repository component must start and end with [a-z0-9]")
        else component_loop (length bs) bs
    | _, _ => Err (name_invalid "empty or dot repository component")
    end.

(** [for component in s.split('/') { validate(component)?; }] *)
Fixpoint validate_components (l : list string) : result ApiError unit :=
  match l with
  | [] => Ok tt
  | c :: l => let? _ := validate_name_component c in validate_components l
  end.

Definition RepositoryName_parse (s : string) : result ApiError string :=
  if bool_decide (s = "") || (MAX_NAME <? slen s)%Z then
    Err (name_invalid "repository name length out of range")
  else
    let? _ := validate_components (split "/" s) in
    Ok s.

(** ** The grammar of the distribution specification

    [[a-z0-9]+((\.|_|__|-+)[a-z0-9]+)*], components separated by [/]. *)

Definition alnum_run (l : bytes) : Prop := l ≠ [] ∧ Forall (λ b, is_lower_alnum b = true) l.

Definition separator (l : bytes) : Prop :=
  l = ["."]%char ∨ l = ["_"]%char ∨ l = ["_"; "_"]%char ∨
  (l ≠ [] ∧ Forall (λ b, b = "-"%char) l).

Inductive component : bytes → Prop :=
  | component_run l : alnum_run l → component l
  | component_sep l s r :
      alnum_run l → separator s → component r → component (l ++ s ++ r).

Definition repository_name (s : string) : Prop :=
  (1 ≤ slen s ≤ 255)%Z ∧ Forall (λ c, component (as_bytes c)) (split "/" s).

(** ** Lemmas *)

Lemma separator_byte s b : separator s → b ∈ s → is_separator b = true.
Proof.
  intros Hs Hb. unfold is_separator.
  destruct Hs as [->|[->|[->|[_ Hs]]]]; try set_solver.
  rewrite Forall_forall in Hs. rewrite (Hs b Hb). done.
Qed.

Lemma alnum_not_separator b : is_lower_alnum b = true → is_separator b = false.
Proof. destruct b as [[] [] [] [] [] [] [] []]; by vm_compute. Qed.

Lemma separator_not_alnum b : is_separator b = true → is_lower_alnum b = false.
Proof. destruct b as [[] [] [] [] [] [] [] []]; by vm_compute. Qed.

Lemma valid_run_separator run :
  valid_separator_run run = true ↔ run = [] ∨ separator run.
Proof.
  unfold separator.
  assert (Hdash : ∀ l, forallb (λ b, bool_decide (b = "-"%char)) l = true ↔ Forall (λ b, b = "-"%char) l).
  { intros l. rewrite forallb_Forall_bool. by setoid_rewrite bool_decide_eq_true. }
  destruct (decide (run = ["."]%char)) as [->|H1]; [naive_solver|].
  destruct (decide (run = ["_"]%char)) as [->|H2]; [naive_solver|].
  destruct (decide (run = ["_"; "_"]%char)) as [->|H3]; [naive_solver|].
  assert (valid_separator_run run = forallb (λ b, bool_decide (b = "-"%char)) run) as ->.
  { unfold valid_separator_run. repeat case_match; naive_solver. }
  rewrite Hdash. destruct run; naive_solver.
Qed.

Lemma span_separators_app l : let '(run, rest) := span_separators l in l = run ++ rest.
Proof.
  induction l as [|b l IH]; simpl; [done|].
  destruct (is_separator b); [|done]. destruct (span_separators l). by subst.
Qed.

Lemma span_separators_run s b r :
  Forall (λ x, is_separator x = true) s → is_separator b = false →
  span_separators (s ++ b :: r) = (s, b :: r).
Proof.
  intros Hs Hb. induction Hs as [|x s Hx Hs IH]; simpl; [by rewrite Hb|].
  by rewrite Hx, IH.
Qed.

(** What the loop accepts: runs of [a-z0-9] in which each separator is
    followed by one of [a-z0-9]. *)
Inductive accepted : bytes → Prop :=
  | accepted_nil : accepted []
  | accepted_alnum b l : is_lower_alnum b = true → accepted l → accepted (b :: l)
  | accepted_sep s b l :
      separator s → is_lower_alnum b = true → accepted (b :: l) → accepted (s ++ b :: l).

Lemma component_loop_accepted fuel l :
  length l ≤ fuel → component_loop fuel l = Ok tt → accepted l.
Proof.
  revert l. induction fuel as [|fuel IH]; intros l Hlen H.
  { destruct l; [constructor|simpl in Hlen; lia]. }
  destruct l as [|b l]; [constructor|]. cbn [component_loop] in H. simpl in Hlen.
  destruct (is_lower_alnum b) eqn:Hb; [constructor; [done|]; apply IH; [lia|done]|].
  pose proof (span_separators_app (b :: l)) as Happ.
  destruct (span_separators (b :: l)) as [run rest].
  destruct (valid_separator_run run) eqn:Hrun; simpl in H; [|done].
  destruct rest as [|b' rest]; [done|].
  destruct (is_lower_alnum b') eqn:Hb'; simpl in H; [|done].
  apply valid_run_separator in Hrun as [->|Hsep].
  { simpl in Happ. injection Happ as -> _. congruence. }
  rewrite Happ. constructor; [done..|]. apply IH; [|done].
  apply (f_equal length) in Happ. rewrite length_app in Happ. simpl in Happ |- *.
  destruct run; [|simpl in Happ; lia]. destruct Hsep as [?|[?|[?|[? _]]]]; done.
Qed.

Lemma accepted_component_loop l : accepted l → ∀ fuel, length l ≤ fuel → component_loop fuel l = Ok tt.
Proof.
  induction 1 as [|b l Hb Hl IH|s b l Hs Hb Hl IH]; intros fuel Hlen.
  - by destruct fuel.
  - destruct fuel as [|fuel]; simpl in Hlen; [lia|].
    cbn [component_loop]. rewrite Hb. apply IH. lia.
  - assert (Hsep : Forall (λ x, is_separator x = true) s).
    { apply Forall_forall. intros x Hx. by eapply separator_byte. }
    destruct s as [|x s]; [by destruct Hs as [?|[?|[?|[? _]]]]|].
    rewrite length_app in Hlen. simpl in Hlen.
    destruct fuel as [|fuel]; [lia|]. cbn [component_loop app].
    rewrite (separator_not_alnum x) by (by apply Forall_cons in Hsep as [? _]).
    change (x :: s ++ b :: l) with ((x :: s) ++ b :: l).
    rewrite (span_separators_run (x :: s) b l) by eauto using alnum_not_separator.
    rewrite (proj2 (valid_run_separator _)) by auto.
    simpl. rewrite Hb. simpl. apply IH. simpl. lia.
Qed.

Lemma component_cons b l : is_lower_alnum b = true → component l → component (b :: l).
Proof.
  intros Hb Hl. destruct Hl as [l [Hne Hall]|l s r [Hne Hall] Hs Hr].
  - apply component_run. split; [done|]. by constructor.
  - apply (component_sep (b :: l) s r); [split; [done|by constructor]|done..].
Qed.

Lemma accepted_shape l :
  accepted l →
  l = [] ∨ component l ∨ ∃ s r, l = s ++ r ∧ separator s ∧ component r.
Proof.
  induction 1 as [|b l Hb Hl [->|[IH|(s&r&->&Hs&Hr)]]|s b l Hs Hb Hl [?|[IH|(s'&r&Heq&Hs'&Hr)]]].
  - auto.
  - right; left. apply component_run. split; [done|]. by repeat constructor.
  - right; left. by apply component_cons.
  - right; left. apply (component_sep [b] s r); [|done..]. split; [done|by repeat constructor].
  - done.
  - right; right. by exists s, (b :: l).
  - destruct s' as [|x s']; [by destruct Hs' as [?|[?|[?|[? _]]]]|].
    simpl in Heq. injection Heq as -> _.
    apply alnum_not_separator in Hb. rewrite (separator_byte (x :: s') x) in Hb; set_solver.
Qed.

Lemma accepted_alnum_app l r :
  Forall (λ b, is_lower_alnum b = true) l → accepted r → accepted (l ++ r).
Proof. induction 1; simpl; [done|]. constructor; auto. Qed.

Lemma component_head l : component l → ∃ b l', l = b :: l' ∧ is_lower_alnum b = true.
Proof.
  intros [l' [Hne Hall]|l' s r [Hne Hall] _ _]; destruct l' as [|b l']; try done;
    apply Forall_cons in Hall as [? _]; simpl; eauto.
Qed.

Lemma component_accepted l : component l → accepted l.
Proof.
  induction 1 as [l [_ Hall]|l s r [_ Hall] Hs Hr IH].
  - rewrite <-(app_nil_r l). apply accepted_alnum_app; [done|constructor].
  - apply accepted_alnum_app; [done|].
    destruct (component_head r Hr) as (b&r'&->&Hb). by constructor.
Qed.

Lemma component_last l : component l → ∃ b, last l = Some b ∧ is_lower_alnum b = true.
Proof.
  induction 1 as [l [Hne Hall]|l s r _ _ Hr (b&Hb&Hal)].
  - destruct (last l) as [b|] eqn:E; [|by apply last_None in E].
    exists b. split; [done|]. rewrite Forall_forall in Hall. apply Hall.
    apply last_Some in E as [l' ->]. set_solver.
  - exists b. split; [|done]. rewrite app_assoc, last_app, Hb. done.
Qed.

(** A component of the grammar is what [validate_name_component] accepts. *)
Lemma validate_name_component_ok c :
  validate_name_component c = Ok tt ↔ component (as_bytes c).
Proof.
  unfold validate_name_component. split.
  - destruct (bool_decide (c = "") || _ || _) eqn:E; [done|].
    destruct (head (as_bytes c)) as [b0|] eqn:E0; [|done].
    destruct (last (as_bytes c)) as [bn|]; [|done].
    destruct (is_lower_alnum b0) eqn:H0; simpl; [|done].
    destruct (is_lower_alnum bn); simpl; [|done].
    intros Hloop%component_loop_accepted; [|done].
    destruct (accepted_shape _ Hloop) as [Hn|[?|(s&r&Heq&Hs&Hr)]]; [by rewrite Hn in E0|done|].
    destruct s as [|x s]; [by destruct Hs as [?|[?|[?|[? _]]]]|].
    rewrite Heq in E0. simpl in E0. injection E0 as ->.
    apply alnum_not_separator in H0. rewrite (separator_byte (b0 :: s) b0) in H0; set_solver.
  - intros Hc. destruct (component_head _ Hc) as (b&l&Heq&Hb).
    destruct (component_last _ Hc) as (bn&Hl&Hbn).
    assert (bool_decide (c = "") || bool_decide (c = ".") || bool_decide (c = "..") = false) as ->.
    { rewrite !bool_decide_eq_false_2; [done|..]; intros ->; simpl in Heq;
        simplify_eq; by vm_compute in Hb. }
    assert (head (as_bytes c) = Some b) as -> by (by rewrite Heq).
    rewrite Hl, Hb, Hbn. simpl.
    apply accepted_component_loop; [by apply component_accepted|done].
Qed.

Lemma validate_components_ok l :
  validate_components l = Ok tt ↔ Forall (λ c, component (as_bytes c)) l.
Proof.
  induction l as [|c l IH]; simpl; [done|].
  rewrite result_bind_ok, Forall_cons, <-validate_name_component_ok, <-IH.
  split; [by intros ([]&?&?)|]. intros [? ?]. by exists tt.
Qed.

Lemma component_byte l b :
  component l → b ∈ l → is_lower_alnum b = true ∨ is_separator b = true.
Proof.
  induction 1 as [l [_ Hall]|l s r [_ Hall] Hs Hr IH]; intros Hb.
  - left. rewrite Forall_forall in Hall. auto.
  - rewrite !elem_of_app in Hb. destruct Hb as [Hb|[Hb|Hb]]; [|right; by eapply separator_byte|auto].
    left. rewrite Forall_forall in Hall. auto.
Qed.

Lemma slen_zero s : slen s = 0%Z ↔ s = "".
Proof. unfold slen. destruct s; simpl; split; (done || lia). Qed.

(** [RepositoryName::parse] accepts exactly the names of the grammar. *)
Lemma RepositoryName_parse_ok s n :
  RepositoryName_parse s = Ok n ↔ n = s ∧ repository_name s.
Proof.
  unfold RepositoryName_parse, repository_name, MAX_NAME.
  pose proof (slen_zero s). assert (0 ≤ slen s)%Z by (unfold slen; lia).
  destruct (decide (s = "")) as [->|Hne]; simpl.
  { split; [done|]. intros (_&[? _]&_). unfold slen in *. simpl in *. lia. }
  rewrite bool_decide_eq_false_2 by done. simpl.
  assert (slen s ≠ 0)%Z by tauto.
  destruct (Z.ltb_spec 255 (slen s)); [split; [done|]; intros (_&?&_); lia|].
  rewrite result_bind_ok. split.
  - intros ([]&Hv%validate_components_ok&[= <-]). split_and!; [done|lia|lia|done].
  - intros (->&_&Hc). exists tt. split; [|done]. by apply validate_components_ok.
Qed.

(** ** Properties *)

(** [RepositoryName::parse] accepts exactly the names of the distribution
    specification's grammar of at most 255 bytes, and keeps the name as it
    is. *)
Theorem parse_grammar s n :
  RepositoryName_parse s = Ok n ↔ n = s ∧ repository_name s.
Proof. apply RepositoryName_parse_ok. Qed.
