(* ===== verification/Digest.v ===== *)
(** * Content digests ([roci-storage/src/digest.rs])

    Parsing, printing and constant-time comparison of [algorithm:hex] digests,
    and the two routines that hash a file while it is read. The hash functions,
    the checksum and the hexadecimal encoder are other crates' code: the class
    [Crypto] takes them as parameters and [CryptoLaws] states what their
    documentation promises. *)

From S2P Require Import Prelude RustStr Json Errors.

Class Crypto := {
  sha256 : bytes → bytes;
  sha512 : bytes → bytes;
  crc32c_append : Z → bytes → Z;
  hex_encode : bytes → string;
}.

Definition is_lower_hexdigit (b : ascii) : bool :=
  is_ascii_hexdigit b && negb (is_ascii_uppercase b).

Class CryptoLaws `{Crypto} : Prop := {
  sha256_length x : length (sha256 x) = 32;
  sha512_length x : length (sha512 x) = 64;
  crc32c_append_app c x y : crc32c_append (crc32c_append c x) y = crc32c_append c (x ++ y);
  crc32c_append_nil c : (0 ≤ c < 2 ^ 32)%Z → crc32c_append c [] = c;
  crc32c_append_range c x : (0 ≤ c < 2 ^ 32)%Z → (0 ≤ crc32c_append c x < 2 ^ 32)%Z;
  hex_encode_length x : String.length (hex_encode x) = 2 * length x;
  hex_encode_lower x : string_forallb is_lower_hexdigit (hex_encode x) = true;
  hex_encode_inj x y : hex_encode x = hex_encode y → x = y;
}.

Record Digest := mkDigest { algorithm : string; hex : string }.
#[export] Instance Digest_eq_dec : EqDecision Digest.
Proof. solve_decision. Defined.
#[export] Instance Digest_countable : Countable Digest.
Proof.
  refine (inj_countable' (λ d, (algorithm d, hex d)) (λ '(a, h), mkDigest a h) _).
  by intros [].
Defined.

Definition algorithm_len (a : string) : option Z :=
  if decide (a = "sha256") then Some 64%Z
  else if decide (a = "sha512") then Some 128%Z
  else None.

Definition Digest_parse (s : string) : result StorageError Digest :=
  let? ' (alg, hx) := ok_or (split_once ":" s) (BadDigest s) in
  let? ok_len := ok_or (algorithm_len alg) (BadDigest s) in
  if negb (slen hx =? ok_len)%Z || negb (string_forallb is_ascii_hexdigit hx) then
    Err (BadDigest s)
  else Ok {| algorithm := alg; hex := to_ascii_lowercase hx |}.

Definition Digest_fmt (d : Digest) : string := algorithm d +:+ ":" +:+ hex d.

(** [for (a, b) in … { diff |= a ^ b }] on a [u8]. *)
Definition ct_eq (d d' : Digest) : bool :=
  if negb (bool_decide (algorithm d = algorithm d')) || negb (slen (hex d) =? slen (hex d'))%Z
  then false
  else
    (foldl Z.lor 0 (zip_with (λ a b, Z.lxor (u8 a) (u8 b)) (as_bytes (hex d)) (as_bytes (hex d')))
     =? 0)%Z.

(** ** Hashing *)

Section Hashing.
Context `{Crypto}.

Definition sha256_of (data : bytes) : Digest :=
  {| algorithm := "sha256"; hex := hex_encode (sha256 data) |}.

Definition digest_of (data : bytes) (alg : string) : Digest :=
  if decide (alg = "sha512") then {| algorithm := "sha512"; hex := hex_encode (sha512 data) |}
  else sha256_of data.

(** A hasher is the bytes it was fed: [update] appends, [finalize] hashes. *)
Definition finalize (alg : string) (fed : bytes) : Digest :=
  if decide (alg = "sha512") then {| algorithm := "sha512"; hex := hex_encode (sha512 fed) |}
  else {| algorithm := "sha256"; hex := hex_encode (sha256 fed) |}.

Definition finish_sha256 (fed : bytes) : Digest := finalize "sha256" fed.

(** The read loop of [hash_std] and of [hash_file]: each [read] returns an
    error, no bytes at the end of the file, or some bytes. After the end of
    the file [reads] has nothing left. *)
Fixpoint hash_loop (alg : string) (fed : bytes) (crc : Z) (reads : list (result io_error bytes))
    : result io_error (Digest * Z) :=
  match reads with
  | [] => Ok (finalize alg fed, crc)
  | r :: reads =>
      let? chunk := r in
      if bool_decide (chunk = []) then Ok (finalize alg fed, crc)
      else hash_loop alg (fed ++ chunk) (crc32c_append crc chunk) reads
  end.

Definition hash_std (reads : list (result io_error bytes)) (alg : string)
    : result io_error (Digest * Z) :=
  hash_loop (if decide (alg = "sha512") then "sha512" else "sha256") [] 0 reads.

Definition hash_reader (reads : list (result io_error bytes)) (alg : string)
    : result io_error (Digest * Z) :=
  hash_loop (if decide (alg = "sha512") then "sha512" else "sha256") [] 0 reads.

Definition crc32c (data : bytes) : Z := crc32c_append 0 data.
End Hashing.

(** ** Well-formed digests

    The fields are private: every digest of the program comes from [parse] or
    from a hash. *)

Definition digest_wf (d : Digest) : Prop :=
  algorithm_len (algorithm d) = Some (slen (hex d)) ∧
  string_forallb is_lower_hexdigit (hex d) = true.

#[export] Instance digest_wf_dec d : Decision (digest_wf d).
Proof. apply and_dec; solve_decision. Defined.

(** ** Lemmas *)

Lemma algorithm_len_Some a n :
  algorithm_len a = Some n → (a = "sha256" ∧ n = 64%Z) ∨ (a = "sha512" ∧ n = 128%Z).
Proof. unfold algorithm_len. repeat case_decide; naive_solver. Qed.

Lemma lower_hexdigit_hexdigit b : is_lower_hexdigit b = true → is_ascii_hexdigit b = true.
Proof. unfold is_lower_hexdigit. by intros [? _]%andb_true_iff. Qed.

Lemma lower_byte_hexdigit b :
  is_ascii_hexdigit b = true → is_lower_hexdigit (lower_byte b) = true.
Proof. destruct b as [[] [] [] [] [] [] [] []]; by vm_compute. Qed.

Lemma lower_byte_id b : is_lower_hexdigit b = true → lower_byte b = b.
Proof. destruct b as [[] [] [] [] [] [] [] []]; by vm_compute. Qed.

Lemma string_forallb_impl (p q : ascii → bool) s :
  (∀ b, p b = true → q b = true) → string_forallb p s = true → string_forallb q s = true.
Proof. intros Hpq. induction s; simpl; [done|]. rewrite !andb_true_iff. naive_solver. Qed.

Lemma to_lower_hex s :
  string_forallb is_ascii_hexdigit s = true →
  string_forallb is_lower_hexdigit (to_ascii_lowercase s) = true.
Proof.
  induction s; simpl; [done|]. rewrite !andb_true_iff. intros [? ?].
  split; [by apply lower_byte_hexdigit|auto].
Qed.

Lemma to_lower_id s :
  string_forallb is_lower_hexdigit s = true → to_ascii_lowercase s = s.
Proof.
  induction s; simpl; [done|]. rewrite andb_true_iff. intros [? ?].
  f_equal; [by apply lower_byte_id|auto].
Qed.

Lemma lower_hex_no_byte s c :
  string_forallb is_lower_hexdigit s = true → is_lower_hexdigit c = false →
  c ∉ as_bytes s.
Proof.
  intros Hs Hc Hin. rewrite string_forallb_bytes, forallb_Forall_bool, Forall_forall in Hs.
  rewrite (Hs _ Hin) in Hc. done.
Qed.

Lemma Digest_parse_wf s d : Digest_parse s = Ok d → digest_wf d.
Proof.
  unfold Digest_parse. intros H. case_res. destruct x as [alg hx]. case_res.
  bool_simp.
  split; simpl; [|by apply to_lower_hex].
  unfold slen in *. rewrite to_ascii_lowercase_length. congruence.
Qed.

Lemma Digest_parse_fmt d : digest_wf d → Digest_parse (Digest_fmt d) = Ok d.
Proof.
  destruct d as [a h]. intros [Hlen Hhex]. simpl in *. unfold Digest_parse, Digest_fmt. simpl.
  assert (split_once ":" (a +:+ ":" +:+ h) = Some (a, h)) as ->.
  { apply split_once_Some. split; [done|].
    apply algorithm_len_Some in Hlen as [[-> _]|[-> _]]; reflexivity. }
  simpl. rewrite Hlen. simpl. rewrite Z.eqb_refl. simpl.
  rewrite (string_forallb_impl _ _ _ lower_hexdigit_hexdigit Hhex). simpl.
  by rewrite to_lower_id.
Qed.

Lemma Digest_fmt_inj d d' : digest_wf d → digest_wf d' → Digest_fmt d = Digest_fmt d' → d = d'.
Proof.
  intros Hd%Digest_parse_fmt Hd'%Digest_parse_fmt Heq. rewrite Heq in Hd. congruence.
Qed.

Lemma ct_eq_true d d' : ct_eq d d' = true ↔ d = d'.
Proof.
  unfold ct_eq. destruct d as [a h], d' as [a' h']; simpl.
  destruct (bool_decide_reflect (a = a')) as [->|Hne]; simpl; [|naive_solver].
  destruct (Z.eqb_spec (slen h) (slen h')) as [Hl|Hne]; simpl; [|naive_solver].
  rewrite Z.eqb_eq, xor_fold_eq.
  - split; [by intros ->%(inj as_bytes)|by intros [= ->]].
  - unfold slen in Hl. rewrite !as_bytes_length. lia.
Qed.

Section HashingLaws.
Context `{CryptoLaws}.

Lemma digest_of_wf data alg : digest_wf (digest_of data alg).
Proof.
  unfold digest_of, sha256_of, digest_wf. case_decide; simpl; (split; [|apply hex_encode_lower]);
    unfold slen; rewrite hex_encode_length, ?sha256_length, ?sha512_length; reflexivity.
Qed.

Lemma digest_of_algorithm data d :
  digest_wf d → algorithm (digest_of data (algorithm d)) = algorithm d.
Proof.
  intros [Hl _]. unfold digest_of. apply algorithm_len_Some in Hl as [[-> _]|[-> _]]; done.
Qed.

Lemma finalize_digest_of alg data : finalize alg data = digest_of data alg.
Proof. unfold finalize, digest_of, sha256_of. by case_decide. Qed.

(** The read loop hashes what it read, however the file system cut it. *)
Lemma hash_loop_spec alg fed crc chunks rest :
  Forall (λ c, c ≠ []) chunks →
  rest = [] ∨ (∃ rest', rest = Ok [] :: rest') →
  hash_loop alg fed crc ((Ok <$> chunks) ++ rest) =
    Ok (digest_of (fed ++ concat chunks) alg, foldl crc32c_append crc chunks).
Proof.
  intros Hne Hrest. revert fed crc. induction Hne as [|c cs Hc Hcs IH]; intros fed crc; simpl.
  - rewrite app_nil_r. rewrite <-finalize_digest_of.
    destruct Hrest as [->|[? ->]]; [done|]. simpl. by rewrite ?bool_decide_eq_true_2.
  - rewrite bool_decide_eq_false_2 by done. rewrite IH. by rewrite <-app_assoc.
Qed.

Lemma foldl_crc crc chunks :
  (0 ≤ crc < 2 ^ 32)%Z → foldl crc32c_append crc chunks = crc32c_append crc (concat chunks).
Proof.
  revert crc. induction chunks as [|c cs IH]; intros crc Hc; simpl.
  - by rewrite crc32c_append_nil.
  - rewrite IH by (by apply crc32c_append_range). apply crc32c_append_app.
Qed.
End HashingLaws.

(** A concrete instance, on which the laws hold: the first bytes of the
    content, padded; the sum of the bytes; two hexadecimal digits per byte. *)
Module Toy.
Definition pad (n : nat) (x : bytes) : bytes := take n (x ++ replicate n "000"%char).
Definition hex_digit (n : N) : ascii :=
  ascii_of_N (if (n <? 10)%N then 48 + n else 87 + n).
Definition hex_byte (b : ascii) : string :=
  String (hex_digit (N_of_ascii b / 16)) (String (hex_digit (N_of_ascii b mod 16)) "").
Definition encode (x : bytes) : string := foldr (λ b s, hex_byte b +:+ s) "" x.
Definition sum (c : Z) (x : bytes) : Z := foldl (λ c b, (c + u8 b) `mod` 2 ^ 32)%Z c x.

#[export] Instance toy_crypto : Crypto := {|
  Digest.sha256 := pad 32;
  Digest.sha512 := pad 64;
  Digest.crc32c_append := sum;
  Digest.hex_encode := encode;
|}.

Lemma hex_byte_facts b :
  is_lower_hexdigit (hex_digit (N_of_ascii b / 16)) = true ∧
  is_lower_hexdigit (hex_digit (N_of_ascii b mod 16)) = true.
Proof. destruct b as [[] [] [] [] [] [] [] []]; by vm_compute. Qed.

Definition hex_val (c : ascii) : N :=
  let n := N_of_ascii c in if (n <? 58)%N then n - 48 else n - 87.
Fixpoint decode (s : string) : bytes :=
  match s with
  | String a (String b s) => ascii_of_N (16 * hex_val a + hex_val b) :: decode s
  | _ => []
  end.

Lemma decode_encode x : decode (encode x) = x.
Proof.
  induction x as [|b x IH]; [done|]. simpl. f_equal; [|exact IH].
  destruct b as [[] [] [] [] [] [] [] []]; by vm_compute.
Qed.

#[export] Instance toy_laws : CryptoLaws.
Proof.
  split; simpl.
  - intros x. unfold pad. rewrite length_take, length_app, length_replicate. lia.
  - intros x. unfold pad. rewrite length_take, length_app, length_replicate. lia.
  - intros c x y. unfold sum. by rewrite foldl_app.
  - done.
  - intros c x Hc. unfold sum. revert c Hc. induction x as [|b x IH]; intros c Hc; simpl; [done|].
    apply IH. apply Z.mod_pos_bound. lia.
  - intros x. induction x as [|b x IH]; [done|].
    change (encode (b :: x)) with (hex_byte b +:+ encode x).
    rewrite string_app_length, IH. simpl. lia.
  - intros x. induction x as [|b x IH]; [done|].
    change (encode (b :: x)) with (hex_byte b +:+ encode x).
    rewrite string_forallb_bytes, as_bytes_app, forallb_app, <-!string_forallb_bytes, IH.
    unfold hex_byte. cbn [string_forallb].
    destruct (hex_byte_facts b) as [-> ->]. done.
  - intros x y Hxy. rewrite <-(decode_encode x), <-(decode_encode y). by rewrite Hxy.
Qed.
End Toy.

(** ** Properties *)

(** Parsing is the inverse of printing: a digest that [parse] accepted is
    well formed and [parse] of what it prints is the same digest, so the
    canonical string identifies the digest. *)
Theorem digest_roundtrip s d :
  Digest_parse s = Ok d →
  digest_wf d ∧ Digest_parse (Digest_fmt d) = Ok d ∧
  (∀ d', digest_wf d' → Digest_fmt d' = Digest_fmt d → d' = d).
Proof.
  intros Hp%Digest_parse_wf. split_and!; [done|by apply Digest_parse_fmt|].
  intros d' Hd' Heq. by apply Digest_fmt_inj.
Qed.

(** [ct_eq], which never stops at the first difference, decides equality
    of digests. *)
Theorem ct_eq_correct d d' : ct_eq d d' = true ↔ d = d'.
Proof. apply ct_eq_true. Qed.

(** Hashing a file while it is read gives the digest of its content in the
    requested algorithm and its CRC32C, however the reads cut the content. *)
Theorem hash_std_content `{CryptoLaws} chunks alg :
  Forall (λ c, c ≠ []) chunks →
  hash_std ((Ok <$> chunks) ++ [Ok []]) alg =
    Ok (digest_of (concat chunks) alg, crc32c (concat chunks)).
Proof.
  intros Hne. unfold hash_std. rewrite hash_loop_spec by eauto. simpl.
  rewrite foldl_crc by lia. unfold crc32c, digest_of. by repeat case_decide.
Qed.

#[local] Existing Instances Toy.toy_crypto Toy.toy_laws.

Definition digest_a : string :=
  "sha256:AAAAAAAAAAAAAAAAAAAAAAAAAAAAAAAAAAAAAAAAAAAAAAAAAAAAAAAAAAAAAAAA".

Lemma digest_roundtrip_witness :
  digest_wf (mkDigest "sha256" "aaaaaaaaaaaaaaaaaaaaaaaaaaaaaaaaaaaaaaaaaaaaaaaaaaaaaaaaaaaaaaaa").
Proof. apply (digest_roundtrip digest_a). reflexivity. Defined.

Lemma hash_std_content_witness :
  hash_std [Ok ["a"]; Ok ["b"; "c"]; Ok []]%char "sha512" =
    Ok (digest_of ["a"; "b"; "c"]%char "sha512", 294%Z).
Proof.
  exact (hash_std_content [["a"]; ["b"; "c"]]%char "sha512"
           ltac:(repeat constructor; done)).
Defined.
