(* ===== verification/Paths.v ===== *)
(** * Paths beneath the store root ([roci-storage/src/fs_storage/paths.rs])

    A relative path is the list of its components. Repository names, digests
    and upload ids become paths only through [SafeComponent]. *)

From S2P Require Import Prelude RustStr Json Errors Digest.

Abbreviation path := (list string).

(** [SafeComponent::new] *)
Definition SafeComponent (s : string) : result StorageError string :=
  if bool_decide (s = "") || bool_decide (s = ".") || bool_decide (s = "..")
     || existsb (λ b, bool_decide (b = "/") || bool_decide (b = "\") || bool_decide (b = "000"))%char
          (as_bytes s)
  then Err (BadPath s)
  else Ok s.

(** [iter.map(SafeComponent::new).collect::<Result<PathBuf, _>>()] *)
Fixpoint collect_components (l : list string) : result StorageError path :=
  match l with
  | [] => Ok []
  | c :: l =>
      let? c := SafeComponent c in
      let? p := collect_components l in
      Ok (c :: p)
  end.

Definition repo_rel (repo : string) : result StorageError path :=
  collect_components (split "/" repo).

Definition blob_dir_rel (repo : string) (d : Digest) : result StorageError (path * string) :=
  let? r := repo_rel repo in
  let? leaf := SafeComponent (hex d) in
  Ok (r ++ ["blobs"; algorithm d], leaf).

Definition blob_rel (repo : string) (d : Digest) : result StorageError path :=
  let? ' (dir, leaf) := blob_dir_rel repo d in
  Ok (dir ++ [leaf]).

Definition upload_dir_rel (repo id : string) : result StorageError (path * string) :=
  let? r := repo_rel repo in
  let? leaf := SafeComponent id in
  Ok (r ++ ["uploads"], leaf).

Definition upload_rel (repo id : string) : result StorageError path :=
  let? ' (dir, leaf) := upload_dir_rel repo id in
  Ok (dir ++ [leaf]).

(** [index_path], beneath the root. *)
Definition index_path (repo : string) : result StorageError path :=
  let? r := repo_rel repo in Ok (r ++ ["index.json"]).

(** ** What a safe path is

    No component is empty, the directory itself or its parent, and none has a
    separator: joined to the root it names something beneath the root. *)

Definition safe_component (s : string) : Prop :=
  s ≠ "" ∧ s ≠ "." ∧ s ≠ ".." ∧
  Forall (λ b, b ≠ "/"%char ∧ b ≠ "\"%char ∧ b ≠ "000"%char) (as_bytes s).

Lemma SafeComponent_ok s c : SafeComponent s = Ok c ↔ c = s ∧ safe_component s.
Proof.
  unfold SafeComponent, safe_component. destruct (_ || _) eqn:E.
  - split; [done|]. intros (-> & H1 & H2 & H3 & H4). rewrite !bool_decide_eq_false_2 in E by done.
    simpl in E. apply existsb_Exists_bool in E as (b & Hb & E).
    rewrite Forall_forall in H4. destruct (H4 b Hb) as (?&?&?).
    by rewrite !bool_decide_eq_false_2 in E by done.
  - apply orb_false_iff in E as [E H4]. apply orb_false_iff in E as [E H3].
    apply orb_false_iff in E as [H1 H2]. bool_simp. split.
    + intros [= ->]. split_and!; [done..|]. apply Forall_forall. intros b Hb.
      assert (Hf : ¬ existsb (λ b, bool_decide (b = "/") || bool_decide (b = "\") || bool_decide (b = "000"))%char
          (as_bytes c) = true) by (by rewrite H4).
      rewrite existsb_Exists_bool in Hf. split_and!; intros ->; apply Hf; eexists; (split; [done|reflexivity]).
    + by intros [-> _].
Qed.

Lemma collect_components_ok l p :
  collect_components l = Ok p ↔ p = l ∧ Forall safe_component l.
Proof.
  revert p. induction l as [|c l IH]; intros p; simpl; [naive_solver|].
  rewrite Forall_cons. split.
  - intros H. case_res. apply SafeComponent_ok in H0 as [-> ?]. apply IH in H1 as [-> ?]. done.
  - intros (-> & Hc & Hl). rewrite (proj2 (SafeComponent_ok c c)) by done. simpl.
    by rewrite (proj2 (IH l)).
Qed.

Lemma repo_rel_ok repo p :
  repo_rel repo = Ok p ↔ p = split "/" repo ∧ Forall safe_component (split "/" repo).
Proof. apply collect_components_ok. Qed.

Lemma repo_rel_inj r r' p : repo_rel r = Ok p → repo_rel r' = Ok p → r = r'.
Proof.
  intros [-> _]%repo_rel_ok [Heq _]%repo_rel_ok.
  by rewrite <-(join_split "/" r), <-(join_split "/" r'), Heq.
Qed.

Lemma blob_rel_ok repo d p :
  blob_rel repo d = Ok p ↔
  ∃ r, repo_rel repo = Ok r ∧ safe_component (hex d) ∧ p = r ++ ["blobs"; algorithm d; hex d].
Proof.
  unfold blob_rel, blob_dir_rel. split.
  - intros H. case_res.
    select (SafeComponent _ = _) (fun H => apply SafeComponent_ok in H as [-> ?]). eexists. split_and!; [done..|]. by rewrite <-app_assoc.
  - intros (r & -> & Hs & ->). simpl. rewrite (proj2 (SafeComponent_ok _ _)) by done. simpl.
    by rewrite <-app_assoc.
Qed.

Lemma upload_rel_ok repo id p :
  upload_rel repo id = Ok p ↔
  ∃ r, repo_rel repo = Ok r ∧ safe_component id ∧ p = r ++ ["uploads"; id].
Proof.
  unfold upload_rel, upload_dir_rel. split.
  - intros H. case_res.
    select (SafeComponent _ = _) (fun H => apply SafeComponent_ok in H as [-> ?]). eexists. split_and!; [done..|]. by rewrite <-app_assoc.
  - intros (r & -> & Hs & ->). simpl. rewrite (proj2 (SafeComponent_ok _ _)) by done. simpl.
    by rewrite <-app_assoc.
Qed.

Lemma blob_rel_inj r d r' d' p : blob_rel r d = Ok p → blob_rel r' d' = Ok p → r = r' ∧ d = d'.
Proof.
  destruct d as [a h], d' as [a' h']. intros (q & Hq & _ & ->)%blob_rel_ok (q' & Hq' & _ & Heq)%blob_rel_ok.
  simpl in Heq. change (q ++ [?x; ?y; ?z]) with (q ++ ([x; y] ++ [z])) in Heq.
  change (q' ++ [?x; ?y; ?z]) with (q' ++ ([x; y] ++ [z])) in Heq.
  rewrite !app_assoc in Heq. apply app_inj_tail in Heq as [Heq ->].
  change (q ++ [?x; ?y]) with (q ++ ([x] ++ [y])) in Heq.
  change (q' ++ [?x; ?y]) with (q' ++ ([x] ++ [y])) in Heq.
  rewrite !app_assoc in Heq. apply app_inj_tail in Heq as [Heq ->].
  apply app_inj_tail in Heq as [-> _]. split; [by eapply repo_rel_inj|done].
Qed.

Lemma upload_rel_inj r i r' i' p : upload_rel r i = Ok p → upload_rel r' i' = Ok p → r = r' ∧ i = i'.
Proof.
  intros (q & Hq & _ & ->)%upload_rel_ok (q' & Hq' & _ & Heq)%upload_rel_ok.
  change (q ++ [?x; ?y]) with (q ++ ([x] ++ [y])) in Heq.
  change (q' ++ [?x; ?y]) with (q' ++ ([x] ++ [y])) in Heq.
  rewrite !app_assoc in Heq. apply app_inj_tail in Heq as [Heq ->].
  apply app_inj_tail in Heq as [-> _]. split; [by eapply repo_rel_inj|done].
Qed.

Lemma hex_safe d : digest_wf d → safe_component (hex d) ∧ safe_component (algorithm d).
Proof.
  intros [Hlen Hhex].
  assert (hex d ≠ "" ∧ hex d ≠ "." ∧ hex d ≠ "..") as (?&?&?).
  { split_and!; intros E; rewrite E in Hlen; apply algorithm_len_Some in Hlen as [[_ ?]|[_ ?]]; done. }
  split.
  - split_and!; [done..|]. apply Forall_forall. intros b Hb.
    split_and!; intros ->; (eapply lower_hex_no_byte; [exact Hhex| |exact Hb]; reflexivity).
  - apply algorithm_len_Some in Hlen as [[-> _]|[-> _]];
      (split_and!; [done..|repeat constructor; done]).
Qed.

(** ** Properties *)

(** A repository, a digest and an upload id reach the file system only as
    paths all of whose components are safe, so never outside the root. *)
Theorem paths_confined repo d id :
  digest_wf d →
  (∀ p, blob_rel repo d = Ok p → Forall safe_component p) ∧
  (∀ p, upload_rel repo id = Ok p → Forall safe_component p) ∧
  (∀ p, index_path repo = Ok p → Forall safe_component p).
Proof.
  intros Hd. destruct (hex_safe d Hd) as [Hh Ha].
  assert (Hlit : Forall safe_component ["blobs"; "uploads"; "index.json"]).
  { repeat constructor; done. }
  apply Forall_cons in Hlit as [Hb [Hu [Hi _]%Forall_cons]%Forall_cons].
  split_and!; intros p.
  - intros (r & [-> Hr]%repo_rel_ok & _ & ->)%blob_rel_ok. apply Forall_app. auto 6 using Forall_cons_2, Forall_nil_2.
  - intros (r & [-> Hr]%repo_rel_ok & Hid & ->)%upload_rel_ok. apply Forall_app. auto 6 using Forall_cons_2, Forall_nil_2.
  - unfold index_path. intros H. case_res. apply repo_rel_ok in H0 as [-> Hr].
    apply Forall_app. auto 6 using Forall_cons_2, Forall_nil_2.
Qed.

(** Different blobs and different upload sessions have different files: a
    blob's path determines its repository and its digest, an upload's path its
    repository and its id. *)
Theorem paths_injective :
  (∀ r d r' d' p, blob_rel r d = Ok p → blob_rel r' d' = Ok p → r = r' ∧ d = d') ∧
  (∀ r i r' i' p, upload_rel r i = Ok p → upload_rel r' i' = Ok p → r = r' ∧ i = i').
Proof.
  split.
  - apply blob_rel_inj.
  - apply upload_rel_inj.
Qed.

(** An upload session of one repository can name the index of another: the
    repository name [a/uploads] is valid, and an upload id is only required to
    be a safe component. *)
Theorem upload_index_collision :
  ∃ r id r' p, r ≠ r' ∧ upload_rel r id = Ok p ∧ index_path r' = Ok p.
Proof. exists "a", "index.json", "a/uploads", ["a"; "uploads"; "index.json"]. done. Qed.

Lemma paths_confined_witness :
  ∃ p, blob_rel "a/b" (mkDigest "sha256" (String.concat "" (replicate 16 "00ff"))) = Ok p ∧
       Forall safe_component p.
Proof.
  eexists. split; [reflexivity|].
  refine (proj1 (paths_confined "a/b" (mkDigest "sha256" (String.concat "" (replicate 16 "00ff"))) "u" _) _ eq_refl).
  split; reflexivity.
Defined.
