(* ===== verification/HttpUtil.v ===== *)
(** * HTTP helpers ([roci-core/src/http_util.rs])

    [Range] and [If-None-Match] parsing, the header values and the responses
    the handlers share. *)

From S2P Require Import Prelude RustStr Json Errors Digest.

Inductive RangeOutcome :=
  | Full
  | Partial (start end_ : Z)
  | Unsatisfiable.
#[export] Instance RangeOutcome_eq_dec : EqDecision RangeOutcome.
Proof. solve_decision. Defined.

(** The part of [parse_byte_range] after the pair [(start, end)] is known. *)
Definition range_within (size start end_ : Z) : RangeOutcome :=
  if (size =? 0)%Z || (size <=? start)%Z then Unsatisfiable else Partial start end_.

(** [parse_byte_range]. [size - 1] of the suffix form is a [u64] subtraction:
    it wraps (and panics with overflow checks) for an empty content. *)
Definition parse_byte_range (headers : HeaderMap) (size : Z) : RangeOutcome :=
  match header_text "range" headers with
  | None => Full
  | Some raw =>
  match strip_prefix "bytes=" raw with
  | None => Full
  | Some spec =>
  if contains_char "," spec then Full else
  match split_once "-" spec with
  | None => Full
  | Some (start_s, end_s) =>
      let start_t := trim start_s in
      let end_t := trim end_s in
      if bool_decide (start_t = "") then
        match parse_u64 end_t with
        | None => Full
        | Some n =>
            if (n =? 0)%Z then Unsatisfiable
            else range_within size (saturating_sub size n) (u64_wrap (size - 1))
        end
      else if bool_decide (end_t = "") then
        match parse_u64 start_t with
        | None => Full
        | Some start => range_within size start (saturating_sub size 1)
        end
      else
        match parse_u64 start_t, parse_u64 end_t with
        | Some start, Some end_ =>
            if (end_ <? start)%Z then Full
            else range_within size start (end_ `min` saturating_sub size 1)
        | _, _ => Full
        end
  end end end.

Definition tag_matches (digest tag : string) : bool :=
  let tag := trim tag in
  if bool_decide (tag = "*") then true
  else
    let tag := default tag (strip_prefix "W/" tag) in
    bool_decide (trim_matches "034" tag = digest).

Definition if_none_match_hit (headers : HeaderMap) (digest : string) : bool :=
  match header_text "if-none-match" headers with
  | None => false
  | Some inm => existsb (tag_matches digest) (split "," inm)
  end.

Definition DOCKER_CONTENT_DIGEST : string := "docker-content-digest".
Definition CACHE_IMMUTABLE : string := "max-age=31536000, immutable".

(** A double quote, and a string between two of them. *)
Definition quote : string := String "034" "".
Definition etag_value (digest : string) : string := quote +:+ digest +:+ quote.

Definition not_modified (digest cache_control : string) : Response :=
  {| resp_status := 304;
     resp_headers := <["etag" := etag_value digest]> {["cache-control" := cache_control]};
     resp_body := BEmpty |}.

Definition created (location : string) (d : Digest) : Response :=
  {| resp_status := 201;
     resp_headers := <[DOCKER_CONTENT_DIGEST := Digest_fmt d]> {["location" := location]};
     resp_body := BEmpty |}.

Definition blob_location (repo : string) (d : Digest) : string :=
  "/v2/" +:+ repo +:+ "/blobs/" +:+ Digest_fmt d.

(** [read_body_limited]: the body, or the error of the HTTP crate when it is
    longer than the limit (or cannot be read). *)
Definition read_body_limited (body : result unit bytes) (limit : Z) : result ApiError bytes :=
  match body with
  | Ok b => if (blen b <=? limit)%Z then Ok b else Err (payload_too_large "request body too large")
  | Err _ => Err (payload_too_large "request body too large")
  end.

(** ** Lemmas *)

Lemma parse_digits_range acc s n :
  is_u64 acc → parse_digits acc s = Some n → is_u64 n.
Proof.
  revert acc. induction s as [|c s IH]; intros acc Hacc; simpl; [by intros [= ->]|].
  unfold digit_val. destruct (is_ascii_digit c) eqn:E; [|done].
  destruct (Z.leb_spec (10 * acc + (u8 c - 48)) u64_max); [|done]. apply IH.
  unfold is_ascii_digit in E. bool_simp. unfold is_u64 in *. lia.
Qed.

Lemma parse_u64_range s n : parse_u64 s = Some n → is_u64 n.
Proof.
  assert (is_u64 0) by (unfold is_u64, u64_max; lia).
  unfold parse_u64. repeat case_match; intros; simplify_eq; eauto using parse_digits_range.
Qed.

Lemma range_within_ok size start end_ s e :
  range_within size start end_ = Partial s e → s = start ∧ e = end_ ∧ (start < size)%Z ∧ size ≠ 0%Z.
Proof. unfold range_within. case_match eqn:E; [done|]. intros [= <- <-]. bool_simp. lia. Qed.

Lemma drop_while_id p l : (∀ b, b ∈ l → p b = false) → drop_while p l = l.
Proof. destruct l as [|x l]; [done|]. intros H. simpl. rewrite H; [done|set_solver]. Qed.

Lemma trim_matches_quoted s :
  "034"%char ∉ as_bytes s → trim_matches "034" (quote +:+ s +:+ quote) = s.
Proof.
  intros Hs. unfold trim_matches. rewrite !as_bytes_app. simpl.
  assert (Hno : ∀ b, b ∈ as_bytes s → bool_decide (b = "034"%char) = false).
  { intros b Hb. apply bool_decide_eq_false_2. naive_solver. }
  destruct (as_bytes s) as [|b l] eqn:E.
  { simpl. rewrite <-(of_as_bytes s), E. done. }
  simpl. rewrite (Hno b) by set_solver.
  change (b :: l ++ ["034"%char]) with ((b :: l) ++ ["034"%char]).
  rewrite <-E, rev_app_distr. simpl. rewrite drop_while_id.
  - by rewrite rev_involutive, of_as_bytes.
  - intros x Hx. apply Hno. rewrite <-E.
    by apply list_elem_of_In, in_rev, list_elem_of_In in Hx.
Qed.

(** Nothing to trim off an entity tag. *)
Lemma trim_etag a l :
  a = "034"%char ∨ a = "W"%char →
  trim (of_bytes (a :: l ++ ["034"%char])) = of_bytes (a :: l ++ ["034"%char]).
Proof.
  intros Ha. unfold trim. rewrite as_of_bytes. f_equal. unfold trim_bytes.
  assert (∀ n, drop_leading (S n) white_space (a :: l ++ ["034"%char]) = a :: l ++ ["034"%char]) as Hl.
  { intros n. by destruct Ha as [->| ->]. }
  cbn [length]. rewrite Hl.
  change (a :: l ++ ["034"%char]) with ((a :: l) ++ ["034"%char]).
  rewrite rev_app_distr. rewrite <-(rev_involutive (a :: l)) at 3.
  rewrite length_app, Nat.add_comm. reflexivity.
Qed.

Lemma trim_etag_value s : trim (etag_value s) = etag_value s.
Proof.
  assert (etag_value s = of_bytes ("034"%char :: as_bytes s ++ ["034"%char])) as ->.
  { apply (inj as_bytes). rewrite as_of_bytes. unfold etag_value. by rewrite !as_bytes_app. }
  apply trim_etag. auto.
Qed.

Lemma trim_weak_etag_value s : trim ("W/" +:+ etag_value s) = "W/" +:+ etag_value s.
Proof.
  assert ("W/" +:+ etag_value s = of_bytes ("W"%char :: ("/"%char :: "034"%char :: as_bytes s) ++ ["034"%char])) as ->.
  { apply (inj as_bytes). rewrite as_of_bytes. unfold etag_value. by rewrite !as_bytes_app. }
  apply trim_etag. auto.
Qed.

Lemma Digest_fmt_bytes d b :
  digest_wf d → b ∈ as_bytes (Digest_fmt d) → b ≠ "034"%char ∧ b ≠ ","%char.
Proof.
  intros [Hlen Hhex]. unfold Digest_fmt. rewrite !as_bytes_app, !elem_of_app.
  intros [Hb|[Hb|Hb]].
  - apply algorithm_len_Some in Hlen as [[E _]|[E _]]; rewrite E in Hb; simpl in Hb; set_solver.
  - simpl in Hb. set_solver.
  - split; intros ->; (eapply lower_hex_no_byte; [exact Hhex| |exact Hb]; reflexivity).
Qed.

(** A satisfiable range lies inside the content. *)
Lemma parse_byte_range_within headers size s e :
  is_u64 size → parse_byte_range headers size = Partial s e → (0 ≤ s ≤ e ∧ e < size)%Z.
Proof.
  unfold parse_byte_range. intros Hsize H.
  repeat case_match; try done;
    apply range_within_ok in H as (-> & -> & Hlt & Hne); bool_simp;
    repeat match goal with H : parse_u64 _ = Some _ |- _ => apply parse_u64_range in H end;
    unfold is_u64, saturating_sub, u64_wrap, u64_max in *;
    rewrite ?Z.mod_small by lia; lia.
Qed.

(** ** Properties *)

(** A satisfiable range lies inside the content: its first byte is not
    after its last and its last is a byte of the content. *)
Theorem partial_within headers size s e :
  is_u64 size → parse_byte_range headers size = Partial s e → (0 ≤ s ≤ e ∧ e < size)%Z.
Proof. apply parse_byte_range_within. Qed.

(** An [If-None-Match] header that holds the entity tag the registry sent
    for a digest matches that digest, also with the weak prefix, and any tag
    matches a star. *)
Theorem if_none_match_own_etag headers d :
  digest_wf d →
  (headers !! "if-none-match" = Some (HvText (etag_value (Digest_fmt d))) ∨
   headers !! "if-none-match" = Some (HvText ("W/" +:+ etag_value (Digest_fmt d))) ∨
   headers !! "if-none-match" = Some (HvText "*")) →
  if_none_match_hit headers (Digest_fmt d) = true.
Proof.
  intros Hd H. unfold if_none_match_hit, header_text.
  set (t := Digest_fmt d) in *.
  assert (Ht : ∀ b, b ∈ as_bytes t → b ≠ "034"%char ∧ b ≠ ","%char) by (intros b; by apply Digest_fmt_bytes).
  assert (Hq : trim_matches "034" (etag_value t) = t).
  { apply trim_matches_quoted. intros Hin. by apply Ht in Hin as [? _]. }
  assert (Hc : contains_char "," (etag_value t) = false ∧ contains_char "," ("W/" +:+ etag_value t) = false).
  { unfold etag_value. split; apply contains_char_false; rewrite !as_bytes_app, !elem_of_app;
      simpl; set_solver. }
  destruct Hc as [Hc1 Hc2].
  assert (Hm1 : tag_matches t (etag_value t) = true).
  { unfold tag_matches. rewrite trim_etag_value. case_match; [done|].
    assert (strip_prefix "W/" (etag_value t) = None) as -> by reflexivity.
    cbn [default]. by rewrite Hq, bool_decide_eq_true_2. }
  assert (Hm2 : tag_matches t ("W/" +:+ etag_value t) = true).
  { unfold tag_matches. rewrite trim_weak_etag_value. case_match; [done|].
    assert (strip_prefix "W/" ("W/" +:+ etag_value t) = Some (etag_value t)) as ->
      by (by apply strip_prefix_Some).
    change (default ?x (Some ?y)) with y. by rewrite Hq, bool_decide_eq_true_2. }
  destruct H as [-> |[-> | ->]]; cbn [mbind option_bind to_str]; [| |reflexivity];
    rewrite split_no_sep by done; cbn [existsb]; by rewrite ?Hm1, ?Hm2.
Qed.

Lemma partial_within_witness :
  parse_byte_range {["range" := HvText "bytes=-4"]} 10 = Partial 6 9 ∧ (9 < 10)%Z.
Proof.
  split; [reflexivity|].
  apply (partial_within {["range" := HvText "bytes=-4"]} 10 6 9); [unfold is_u64, u64_max; lia|reflexivity].
Defined.

Lemma if_none_match_own_etag_witness :
  let d := mkDigest "sha256" (String.concat "" (replicate 16 "00ff")) in
  if_none_match_hit {["if-none-match" := HvText (etag_value (Digest_fmt d))]} (Digest_fmt d) = true.
Proof. apply if_none_match_own_etag; [split; reflexivity|left; reflexivity]. Defined.
