(* ===== verification/Policy.v ===== *)
(** * Access-control policy ([roci-core/src/auth/policy.rs], the action sets of
    [auth/mod.rs], the policy records of [roci-config])

    Globs are tokenized and matched by a two-row dynamic program; the rule
    with the most literal bytes wins; its grants are the union of what the
    rule gives to everybody, to authenticated users and to the user's own
    policies. [component_match] is the meaning of a pattern on the [/]
    components of a name. *)

From S2P Require Import Prelude RustStr Json Errors.

(** ** Actions *)

Inductive Action := Pull | Push | Delete.
#[export] Instance Action_eq_dec : EqDecision Action.
Proof. solve_decision. Defined.

(** [ActionSet(u8)] *)
Module ActionSet.
Definition NONE : Z := 0.
Definition ALL : Z := 7.
Definition of_action (a : Action) : Z := match a with Pull => 1 | Push => 2 | Delete => 4 end.
Definition union (s t : Z) : Z := Z.lor s t.
Definition from_actions (l : list Action) : Z := foldl (λ s a, union s (of_action a)) NONE l.
Definition contains (s : Z) (a : Action) : bool := negb (Z.land s (of_action a) =? 0)%Z.
End ActionSet.

(** ** Globs *)

Inductive Tok := Lit (b : ascii) | Star | AnyTail | AnyDirs.
#[export] Instance Tok_eq_dec : EqDecision Tok.
Proof. solve_decision. Defined.

Definition byte_tok (b : ascii) : Tok := if decide (b = "*"%char) then Star else Lit b.

(** The loop over [comps]: [first] is [i == 0], [after_dirs] the flag. *)
Fixpoint tokenize_loop (first after_dirs : bool) (comps : list string) : list Tok :=
  match comps with
  | [] => []
  | comp :: comps =>
      (if negb first && negb after_dirs then [Lit "/"%char] else []) ++
      (if decide (comp = "**") then
         match comps with
         | [] => AnyTail :: tokenize_loop false false comps
         | _ => AnyDirs :: tokenize_loop false true comps
         end
       else map byte_tok (as_bytes comp) ++ tokenize_loop false false comps)
  end.

Definition tokenize (pattern : string) : list Tok :=
  tokenize_loop true false (split "/" pattern).

Definition is_wild (t : Tok) : bool := match t with Lit _ => false | _ => true end.

Definition head_bit (l : list bool) : bool := match l with b :: _ => b | [] => false end.

(** One row of the dynamic program: [cur[j]] for [j] from [n] down to [0], and
    the flag [dirs]; [next] is the row below, of [n + 1] entries. *)
Fixpoint glob_row (t : Tok) (name : bytes) (next : list bool) : list bool * bool :=
  match name with
  | [] => ([is_wild t && head_bit next], false)
  | b :: name' =>
      let '(cur, dirs) := glob_row t name' (tail next) in
      let next_j := head_bit next in
      let next_j1 := head_bit (tail next) in
      let cur_j1 := head_bit cur in
      match t with
      | Lit c => (bool_decide (b = c) && next_j1 :: cur, dirs)
      | Star => (next_j || (negb (bool_decide (b = "/"%char)) && cur_j1) :: cur, dirs)
      | AnyTail => (next_j || cur_j1 :: cur, dirs)
      | AnyDirs =>
          let dirs := dirs || (bool_decide (b = "/"%char) && next_j1) in
          (next_j || dirs :: cur, dirs)
      end
  end.

Fixpoint last_row (name : bytes) : list bool :=
  match name with [] => [true] | _ :: name => false :: last_row name end.

(** [for tok in toks.iter().rev()] *)
Definition glob_match (toks : list Tok) (name : bytes) : bool :=
  head_bit (foldr (λ t next, (glob_row t name next).1) (last_row name) toks).

(** ** Rules *)

Record IdentityPolicy := { ip_users : list string; ip_groups : list string; ip_actions : list Action }.

Record RepositoryPolicy := {
  pattern : string;
  rp_anonymous : list Action;
  rp_authenticated : list Action;
  rp_policies : list IdentityPolicy;
}.

Record AccessControlConfig := {
  ac_admins : list string;
  ac_groups : list (string * list string);
  repositories : list RepositoryPolicy;
}.

Record Rule := {
  toks : list Tok;
  literal_len : nat;
  stars : nat;
  anonymous : Z;
  authenticated : Z;
  policies : list (gset string * gset string * Z);
}.

Record AccessPolicy := {
  admins : gset string;
  user_groups : gmap string (list string);
  rules : list Rule;
}.

Definition compile_policy (p : IdentityPolicy) : gset string * gset string * Z :=
  (list_to_set (ip_users p), list_to_set (ip_groups p), ActionSet.from_actions (ip_actions p)).

Definition compile_rule (r : RepositoryPolicy) : Rule :=
  let ts := tokenize (pattern r) in
  {| toks := ts;
     literal_len := length (filter (λ t, is_wild t = false) ts);
     stars := length (filter (λ t, is_wild t = true) ts);
     anonymous := ActionSet.from_actions (rp_anonymous r);
     authenticated := ActionSet.from_actions (rp_authenticated r);
     policies := compile_policy <$> rp_policies r |}.

(** [user_groups.entry(u).or_default().push(group)] *)
Definition push_group (group : string) (m : gmap string (list string)) (u : string)
    : gmap string (list string) :=
  <[u := default [] (m !! u) ++ [group]]> m.

Definition compile (ac : AccessControlConfig) : AccessPolicy :=
  {| admins := list_to_set (ac_admins ac);
     user_groups :=
       foldl (λ m '(group, users), foldl (push_group group) m users) ∅ (ac_groups ac);
     rules := compile_rule <$> repositories ac |}.

(** [(r.literal_len, Reverse(r.stars)) > (b.literal_len, Reverse(b.stars))] *)
Definition better (r b : Rule) : bool :=
  (literal_len b <? literal_len r) ||
  ((literal_len r =? literal_len b) && (stars r <? stars b)).

Definition winning_rule (p : AccessPolicy) (repo : string) : option Rule :=
  foldl (λ best r,
    if negb (glob_match (toks r) (as_bytes repo)) then best
    else if match best with None => true | Some b => better r b end then Some r
    else best) None (rules p).

(** The closure of [filter]: the user is listed, or one of the groups is. *)
Definition policy_applies (name : string) (member_of : list string)
    (p : gset string * gset string * Z) : bool :=
  let '(users, groups, _) := p in
  bool_decide (name ∈ users) || existsb (λ g, bool_decide (g ∈ groups)) member_of.

Definition grants (p : AccessPolicy) (name : option string) (ldap_groups : list string)
    (repo : string) : Z :=
  if match name with Some n => bool_decide (n ∈ admins p) | None => false end then ActionSet.ALL
  else match winning_rule p repo with
  | None => ActionSet.NONE
  | Some rule =>
      match name with
      | None => anonymous rule
      | Some name =>
          let config_groups := default [] (user_groups p !! name) in
          foldl (λ s p, ActionSet.union s p.2)
            (ActionSet.union (anonymous rule) (authenticated rule))
            (filter (λ p, policy_applies name (config_groups ++ ldap_groups) p = true)
               (policies rule))
      end
  end.

(** ** What the tokens match *)

Inductive matches : list Tok → bytes → Prop :=
  | matches_nil : matches [] []
  | matches_lit c ts l : matches ts l → matches (Lit c :: ts) (c :: l)
  | matches_star p ts l :
      Forall (λ b, b ≠ "/"%char) p → matches ts l → matches (Star :: ts) (p ++ l)
  | matches_tail p ts l : matches ts l → matches (AnyTail :: ts) (p ++ l)
  | matches_dirs p ts l :
      p = [] ∨ (∃ q, p = q ++ ["/"%char]) → matches ts l → matches (AnyDirs :: ts) (p ++ l).

(** What a pattern means: [*] is any run of bytes within a component, a last
    [**] any non-empty rest, any other [**] zero or more components. *)
Definition star_match (comp name : string) : Prop :=
  matches (map byte_tok (as_bytes comp)) (as_bytes name).

Inductive component_match : list string → list string → Prop :=
  | cm_last c n : c ≠ "**" → star_match c n → component_match [c] [n]
  | cm_cons c cs n ns :
      c ≠ "**" → cs ≠ [] → star_match c n → component_match cs ns →
      component_match (c :: cs) (n :: ns)
  | cm_tail ns : ns ≠ [] → component_match ["**"] ns
  | cm_dirs cs pre ns :
      cs ≠ [] → component_match cs ns → component_match ("**" :: cs) (pre ++ ns).

(** ** Lemmas: the dynamic program *)

Lemma matches_lit_cons c ts b l : matches (Lit c :: ts) (b :: l) ↔ b = c ∧ matches ts l.
Proof. split; [by inversion 1|]. intros [-> ?]. by constructor. Qed.

Lemma matches_lit_nil c ts : ¬ matches (Lit c :: ts) [].
Proof. by inversion 1. Qed.

Lemma matches_wild_nil t ts : is_wild t = true → matches (t :: ts) [] ↔ matches ts [].
Proof.
  intros Ht. split.
  - inversion 1 as [|c ts' l' H1 H2 H3|p ts' l' Hp H1 H2 H3|p ts' l' H1 H2 H3|p ts' l' Hp H1 H2 H3];
      subst; destruct p; simplify_eq/=; done.
  - intros H. change (@nil ascii) with (@nil ascii ++ []).
    destruct t; [done|constructor; auto..].
Qed.

Lemma matches_star_cons ts b l :
  matches (Star :: ts) (b :: l) ↔ matches ts (b :: l) ∨ (b ≠ "/"%char ∧ matches (Star :: ts) l).
Proof.
  split.
  - inversion 1 as [| |p ts' l' Hp H1 H2 H3| |]; subst. destruct p as [|x p]; simplify_eq/=; [auto|].
    apply Forall_cons in Hp as [? ?]. right. split; [done|]. by constructor.
  - intros [H|[Hb H]].
    + change (b :: l) with ([] ++ b :: l). by constructor.
    + inversion H as [| |p ts' l' Hp H1 H2 H3| |]; subst.
      change (b :: p ++ l') with ((b :: p) ++ l'). constructor; [by constructor|done].
Qed.

Lemma matches_tail_cons ts b l :
  matches (AnyTail :: ts) (b :: l) ↔ matches ts (b :: l) ∨ matches (AnyTail :: ts) l.
Proof.
  split.
  - inversion 1 as [| | |p ts' l' H1 H2 H3|]; subst. destruct p as [|x p]; simplify_eq/=; [auto|].
    right. by constructor.
  - intros [H|H].
    + change (b :: l) with ([] ++ b :: l). by constructor.
    + inversion H as [| | |p ts' l' H1 H2 H3|]; subst.
      change (b :: p ++ l') with ((b :: p) ++ l'). by constructor.
Qed.

Definition dir_split (ts : list Tok) (l : bytes) : Prop :=
  ∃ q r, l = q ++ "/"%char :: r ∧ matches ts r.

Lemma matches_dirs_iff ts l : matches (AnyDirs :: ts) l ↔ matches ts l ∨ dir_split ts l.
Proof.
  split.
  - inversion 1 as [| | | |p ts' l' [->|[q ->]] H1 H2 H3]; subst; simpl in *; [auto|].
    right. exists q, l'. by rewrite <-app_assoc.
  - intros [H|(q&r&->&H)].
    + change l with ([] ++ l). constructor; auto.
    + change (q ++ "/"%char :: r) with (q ++ ["/"%char] ++ r). rewrite app_assoc.
      constructor; eauto.
Qed.

Lemma dir_split_cons ts b l :
  dir_split ts (b :: l) ↔ dir_split ts l ∨ (b = "/"%char ∧ matches ts l).
Proof.
  split.
  - intros ([|x q]&r&Heq&H); simplify_eq/=; [auto|]. left. by exists q, r.
  - intros [(q&r&->&H)|[-> H]]; [by exists (b :: q), r|by exists [], l].
Qed.

(** Entry [j] of a row says whether the tokens match [name[j..]]. *)
Fixpoint reflects (P : bytes → Prop) (name : bytes) (row : list bool) : Prop :=
  match name, row with
  | [], [b] => b = true ↔ P []
  | _ :: name', b :: row' => (b = true ↔ P name) ∧ reflects P name' row'
  | _, _ => False
  end.

Lemma reflects_head P name row : reflects P name row → head_bit row = true ↔ P name.
Proof. destruct name, row as [|? []]; simpl; tauto. Qed.

Lemma last_row_reflects name : reflects (matches []) name (last_row name).
Proof.
  induction name as [|b name IH]; simpl; [split; [constructor|done]|].
  split; [|done]. split; [done|]. by inversion 1.
Qed.

Lemma glob_row_reflects t ts name next :
  reflects (matches ts) name next →
  reflects (matches (t :: ts)) name (glob_row t name next).1 ∧
  (t = AnyDirs → (glob_row t name next).2 = true ↔ dir_split ts name).
Proof.
  revert next. induction name as [|b name IH]; intros next Hnext.
  - simpl. destruct next as [|x []]; try done. simpl in *. split.
    + destruct (is_wild t) eqn:Ht; simpl.
      * rewrite Hnext. symmetry. by apply matches_wild_nil.
      * destruct t; try done. split; [done|]. intros ?%matches_lit_nil. done.
    + intros _. split; [done|]. intros ([|]&?&?&_); done.
  - pose proof (reflects_head _ _ _ Hnext) as Hj.
    destruct next as [|x next]; [done|]. destruct Hnext as [Hx Hnext].
    pose proof (reflects_head _ _ _ Hnext) as Hj1.
    destruct (IH next Hnext) as [Hcur Hdirs]. clear IH. simpl. cbn [head_bit tail] in *.
    destruct (glob_row t name next) as [cur dirs]. simpl in Hcur, Hdirs.
    pose proof (reflects_head _ _ _ Hcur) as Hc.
    destruct t; simpl; (split; [split; [|exact Hcur]|intros Ht; try discriminate Ht]).
    + rewrite andb_true_iff, bool_decide_eq_true, Hj1. symmetry. apply matches_lit_cons.
    + rewrite orb_true_iff, andb_true_iff, negb_true_iff, bool_decide_eq_false, Hj, Hc.
      symmetry. apply matches_star_cons.
    + rewrite orb_true_iff, Hj, Hc. symmetry. apply matches_tail_cons.
    + rewrite !orb_true_iff, andb_true_iff, bool_decide_eq_true, Hj, Hj1, Hdirs by done.
      by rewrite matches_dirs_iff, dir_split_cons.
    + rewrite !orb_true_iff, andb_true_iff, bool_decide_eq_true, Hj1, Hdirs by done.
      by rewrite dir_split_cons.
Qed.

Lemma glob_match_matches ts name : glob_match ts name = true ↔ matches ts name.
Proof.
  unfold glob_match. apply reflects_head.
  induction ts as [|t ts IH]; simpl; [apply last_row_reflects|].
  by apply (glob_row_reflects t ts).
Qed.

(** ** Lemmas: the tokens of a pattern *)

Lemma matches_app ts1 ts2 l :
  matches (ts1 ++ ts2) l ↔ ∃ l1 l2, l = l1 ++ l2 ∧ matches ts1 l1 ∧ matches ts2 l2.
Proof.
  split.
  - revert l. induction ts1 as [|t ts1 IH]; intros l H.
    { exists [], l. split_and!; [done|constructor|done]. }
    simpl in H. inversion H; subst;
      match goal with H : matches (_ ++ _) _ |- _ => apply IH in H as (k1&k2&->&?&?) end.
    + eexists (_ :: k1), k2. split_and!; [done|by constructor|done].
    + exists (p ++ k1), k2. split_and!; [by rewrite app_assoc|by constructor|done].
    + exists (p ++ k1), k2. split_and!; [by rewrite app_assoc|by constructor|done].
    + exists (p ++ k1), k2. split_and!; [by rewrite app_assoc|by constructor|done].
  - intros (l1&l2&->&H1&H2). induction H1; simpl; rewrite <-?app_assoc; [done|by constructor..].
Qed.

Lemma star_match_no_slash c l :
  contains_char "/" c = false → matches (map byte_tok (as_bytes c)) l → "/"%char ∉ l.
Proof.
  rewrite contains_char_false. generalize (as_bytes c). intros bs.
  revert l. induction bs as [|b bs IH]; intros l Hbs H; simpl in H.
  - inversion H. apply not_elem_of_nil.
  - apply not_elem_of_cons in Hbs as [Hb Hbs]. unfold byte_tok in H at 1. case_decide.
    + inversion H as [| |p ts' l' Hp H1 H2 H3| |]; subst. rewrite elem_of_app.
      rewrite Forall_forall in Hp. intros [Hin|Hin]; [by apply Hp in Hin|by eapply IH].
    + inversion H; subst. apply not_elem_of_cons. split; [done|by apply IH].
Qed.

Lemma tokenize_loop_rest first after c cs :
  tokenize_loop first after (c :: cs) =
    (if negb first && negb after then [Lit "/"%char] else []) ++ tokenize_loop true false (c :: cs).
Proof. done. Qed.

Lemma component_match_nonempty cs ns : component_match cs ns → ns ≠ [].
Proof. induction 1 as [| |?|cs pre ns Hne H IH]; [done..|]. destruct pre; done. Qed.

Lemma tokenize_cons c c' cs :
  c ≠ "**" →
  tokenize_loop true false (c :: c' :: cs) =
    map byte_tok (as_bytes c) ++ Lit "/"%char :: tokenize_loop true false (c' :: cs).
Proof. intros Hc. simpl. by rewrite (decide_False (P := c = "**")). Qed.

Lemma component_match_one c ns :
  c ≠ "**" → component_match [c] ns ↔ ∃ n, ns = [n] ∧ star_match c n.
Proof. intros Hc. split; [inversion 1; naive_solver|]. intros (n&->&?). by constructor. Qed.

Lemma component_match_cons c c' cs ns :
  c ≠ "**" →
  component_match (c :: c' :: cs) ns ↔
  ∃ n ns', ns = n :: ns' ∧ star_match c n ∧ component_match (c' :: cs) ns'.
Proof.
  intros Hc. split; [inversion 1; naive_solver|].
  intros (n&ns'&->&?&?). by constructor.
Qed.

Lemma component_match_dirs c cs ns :
  component_match ("**" :: c :: cs) ns ↔
  ∃ pre ns', ns = pre ++ ns' ∧ component_match (c :: cs) ns'.
Proof. split; [inversion 1; naive_solver|]. intros (pre&ns'&->&?). by constructor. Qed.

Lemma tokenize_component_match comps name :
  comps ≠ [] → Forall (λ c, contains_char "/" c = false) comps →
  matches (tokenize_loop true false comps) (as_bytes name) ↔
  component_match comps (split "/" name).
Proof.
  intros Hne Hcs. revert name. induction comps as [|c cs IH]; intros name; [done|].
  apply Forall_cons in Hcs as [Hc Hcs].
  destruct cs as [|c' cs]; destruct (decide (c = "**")) as [->|Hss].
  - simpl. split; [intros _; constructor; apply split_nonempty|intros _].
    rewrite <-(app_nil_r (as_bytes name)). constructor. constructor.
  - simpl. rewrite decide_False, app_nil_r by done. rewrite component_match_one by done. split.
    + intros H. exists name. split; [|done]. apply split_no_sep, contains_char_false.
      by eapply star_match_no_slash.
    + intros (n&Hn&Hm). rewrite <-(join_split "/" name), Hn. done.
  - change (tokenize_loop true false ("**" :: c' :: cs))
      with (AnyDirs :: tokenize_loop true false (c' :: cs)).
    rewrite matches_dirs_iff, component_match_dirs. specialize (IH ltac:(done) Hcs). split.
    + intros [H|(q&r&Heq&H)].
      * exists [], (split "/" name). split; [done|]. by apply IH.
      * exists (split "/" (of_bytes q)), (split "/" (of_bytes r)).
        rewrite <-split_app_gen, <-IH, as_of_bytes. split; [|done]. f_equal.
        apply (inj as_bytes). rewrite as_bytes_app. simpl. by rewrite !as_of_bytes.
    + intros (pre&ns&Heq&H). pose proof (component_match_nonempty _ _ H) as Hns.
      destruct pre as [|p pre].
      { left. apply IH. by rewrite Heq. }
      right. exists (as_bytes (join "/" (p :: pre))), (as_bytes (join "/" ns)).
      rewrite IH, (split_join_suffix _ _ _ _ Heq) by done. split; [|done].
      rewrite <-(join_split "/" name), Heq, join_app by done. by rewrite !as_bytes_app.
  - rewrite tokenize_cons, component_match_cons, matches_app by done.
    specialize (IH ltac:(done) Hcs). split.
    + intros (l1&l2&Heq&H1&H2). destruct l2 as [|b l2]; [by apply matches_lit_nil in H2|].
      apply matches_lit_cons in H2 as [-> H2].
      exists (of_bytes l1), (split "/" (of_bytes l2)). unfold star_match.
      rewrite <-IH, !as_of_bytes. split_and!; [|done..].
      rewrite <-split_app by (apply contains_char_false; rewrite as_of_bytes; by eapply star_match_no_slash).
      f_equal. apply (inj as_bytes). rewrite as_bytes_app. simpl. by rewrite !as_of_bytes.
    + intros (n&ns&Heq&Hn&H). pose proof (component_match_nonempty _ _ H) as Hns.
      exists (as_bytes n), ("/"%char :: as_bytes (join "/" ns)). split_and!; [|done|].
      * rewrite <-(join_split "/" name), Heq, join_cons_ne by done. by rewrite !as_bytes_app.
      * apply matches_lit_cons. split; [done|]. apply IH.
        by rewrite (split_join_suffix "/" name [n] ns).
Qed.

(** ** Lemmas: rules and grants *)

Lemma better_irrefl r : better r r = false.
Proof. unfold better. rewrite Nat.ltb_irrefl, Nat.eqb_refl. simpl. apply Nat.ltb_irrefl. Qed.

Lemma better_true r b :
  better r b = true ↔
  literal_len b < literal_len r ∨ (literal_len r = literal_len b ∧ stars r < stars b).
Proof. unfold better. rewrite orb_true_iff, andb_true_iff, !Nat.ltb_lt, Nat.eqb_eq. done. Qed.

Lemma better_false r b :
  better r b = false ↔
  literal_len r ≤ literal_len b ∧ (literal_len r = literal_len b → stars b ≤ stars r).
Proof. pose proof (better_true r b). destruct (better r b); split; try done; intros; naive_solver lia. Qed.

(** Rule [i] is the most specific of those that match, the first one among
    equally specific ones. *)
Definition selected (repo : string) (rs : list Rule) (i : nat) (r : Rule) : Prop :=
  rs !! i = Some r ∧ glob_match (toks r) (as_bytes repo) = true ∧
  ∀ j r', rs !! j = Some r' → glob_match (toks r') (as_bytes repo) = true →
    (j < i → better r r' = true) ∧ (i < j → better r' r = false).

Lemma winning_rule_spec p repo :
  match winning_rule p repo with
  | Some r => ∃ i, selected repo (rules p) i r
  | None => ∀ r, r ∈ rules p → glob_match (toks r) (as_bytes repo) = false
  end.
Proof.
  unfold winning_rule. induction (rules p) as [|r rs IH] using rev_ind; [simpl; set_solver|].
  rewrite foldl_app. simpl.
  destruct (foldl _ None rs) as [b|]; destruct (glob_match (toks r) (as_bytes repo)) eqn:Hr; simpl.
  - destruct IH as (i&Hi&Hb&Hbest). pose proof (lookup_lt_Some _ _ _ Hi).
    destruct (better r b) eqn:Hbet; [exists (length rs)|exists i].
    + split_and!; [by apply list_lookup_middle|done|]. intros j r' Hj Hr'.
      apply lookup_snoc_Some in Hj as [[Hlt Hj]|[-> <-]]; (split; [|lia]); [intros _|lia].
      destruct (Hbest j r' Hj Hr') as [H1 H2]. apply better_true in Hbet.
      destruct (decide (i = j)) as [->|Hij]; [rewrite better_true; simplify_eq; lia|].
      destruct (decide (j < i)); [pose proof (proj1 (better_true b r') (H1 ltac:(lia)))
        |pose proof (proj1 (better_false r' b) (H2 ltac:(lia)))]; apply better_true; lia.
    + split_and!; [by apply lookup_app_l_Some|done|]. intros j r' Hj Hr'.
      apply lookup_snoc_Some in Hj as [[Hlt Hj]|[-> <-]]; [by apply Hbest|].
      split; [lia|done].
  - destruct IH as (i&Hi&Hb&Hbest). exists i. split_and!; [by apply lookup_app_l_Some|done|].
    intros j r' Hj Hr'. apply lookup_snoc_Some in Hj as [[Hlt Hj]|[-> <-]]; [by apply Hbest|congruence].
  - exists (length rs). split_and!; [by apply list_lookup_middle|done|].
    intros j r' Hj Hr'. apply lookup_snoc_Some in Hj as [[Hlt Hj]|[-> <-]]; [|lia].
    apply list_elem_of_lookup_2 in Hj. rewrite (IH r' Hj) in Hr'. done.
  - intros r' [?|Hr'%list_elem_of_singleton]%elem_of_app; [auto|by subst].
Qed.

Lemma selected_unique repo rs i r i' r' : selected repo rs i r → selected repo rs i' r' → i = i' ∧ r = r'.
Proof.
  intros (Hi&Hm&H1) (Hi'&Hm'&H2).
  destruct (H1 i' r' Hi' Hm') as [Ha Hb], (H2 i r Hi Hm) as [Hc Hd].
  destruct (decide (i = i')) as [->|]; [naive_solver|].
  destruct (decide (i < i')); [specialize (Hb ltac:(lia)); specialize (Hc ltac:(lia)); congruence|].
  specialize (Ha ltac:(lia)). specialize (Hd ltac:(lia)). congruence.
Qed.

Lemma contains_union s t a :
  ActionSet.contains (ActionSet.union s t) a = ActionSet.contains s a || ActionSet.contains t a.
Proof.
  unfold ActionSet.contains, ActionSet.union. rewrite Z.land_lor_distr_l.
  apply eq_true_iff_eq. rewrite orb_true_iff, !negb_true_iff, !Z.eqb_neq, Z.lor_eq_0_iff.
  destruct (decide (Z.land s (ActionSet.of_action a) = 0%Z)); naive_solver.
Qed.

Lemma contains_foldl {A} (f : A → Z) l s a :
  ActionSet.contains (foldl (λ s x, ActionSet.union s (f x)) s l) a = true ↔
  ActionSet.contains s a = true ∨ ∃ x, x ∈ l ∧ ActionSet.contains (f x) a = true.
Proof.
  revert s. induction l as [|x l IH]; intros s; simpl; [set_solver|].
  rewrite IH, contains_union, orb_true_iff. set_solver.
Qed.

Lemma contains_of a b : ActionSet.contains (ActionSet.of_action b) a = true ↔ a = b.
Proof. by destruct a, b. Qed.

Lemma contains_from_actions l a : ActionSet.contains (ActionSet.from_actions l) a = true ↔ a ∈ l.
Proof.
  unfold ActionSet.from_actions. rewrite contains_foldl. setoid_rewrite contains_of.
  assert (ActionSet.contains ActionSet.NONE a = true ↔ False) as -> by (by destruct a). naive_solver.
Qed.

Lemma contains_ALL a : ActionSet.contains ActionSet.ALL a = true.
Proof. by destruct a. Qed.

Lemma contains_NONE a : ActionSet.contains ActionSet.NONE a = false.
Proof. by destruct a. Qed.

Lemma push_group_lookup group m users u g :
  g ∈ default [] (foldl (push_group group) m users !! u) ↔
  g ∈ default [] (m !! u) ∨ (g = group ∧ u ∈ users).
Proof.
  revert m. induction users as [|x users IH]; intros m; simpl; [set_solver|].
  rewrite IH. unfold push_group. destruct (decide (x = u)) as [->|Hne].
  - rewrite lookup_insert_eq. simpl. set_solver.
  - rewrite lookup_insert_ne by done. set_solver.
Qed.

Lemma user_groups_spec ac u g :
  g ∈ default [] (user_groups (compile ac) !! u) ↔
  ∃ users, (g, users) ∈ ac_groups ac ∧ u ∈ users.
Proof.
  simpl. induction (ac_groups ac) as [|[group users] gs IH] using rev_ind;
    [simpl; rewrite lookup_empty; set_solver|].
  rewrite foldl_app. simpl. rewrite push_group_lookup, IH. set_solver.
Qed.

Lemma glob_match_component_match pat name :
  glob_match (tokenize pat) (as_bytes name) = true ↔
  component_match (split "/" pat) (split "/" name).
Proof.
  rewrite glob_match_matches. apply tokenize_component_match; [apply split_nonempty|].
  apply split_pieces.
Qed.

(** ** Properties *)

(** C30: the dynamic program decides the meaning of the pattern: it accepts a
    name exactly when the pattern's components match the name's. *)
Theorem glob_match_components pat name :
  glob_match (tokenize pat) (as_bytes name) = true ↔
  component_match (split "/" pat) (split "/" name).
Proof. apply glob_match_component_match. Qed.

(** What the configuration grants, without the compiled tables: the pattern
    that covers the name with the most literal bytes, then the fewest
    wildcards, then the earliest. *)
Definition covers (r : RepositoryPolicy) (repo : string) : Prop :=
  component_match (split "/" (pattern r)) (split "/" repo).

Definition governs (ac : AccessControlConfig) (repo : string) (r : RepositoryPolicy) : Prop :=
  ∃ i, repositories ac !! i = Some r ∧ covers r repo ∧
    ∀ j r', repositories ac !! j = Some r' → covers r' repo →
      (j < i → better (compile_rule r) (compile_rule r') = true) ∧
      (i < j → better (compile_rule r') (compile_rule r) = false).

Definition policy_names (ac : AccessControlConfig) (ip : IdentityPolicy) (u : string)
    (ldap_groups : list string) : Prop :=
  u ∈ ip_users ip ∨
  ∃ g, g ∈ ip_groups ip ∧ (g ∈ ldap_groups ∨ ∃ users, (g, users) ∈ ac_groups ac ∧ u ∈ users).

Lemma rules_lookup ac i : rules (compile ac) !! i = compile_rule <$> repositories ac !! i.
Proof. apply list_lookup_fmap. Qed.

Lemma governs_selected ac repo r :
  governs ac repo r →
  ∃ i, repositories ac !! i = Some r ∧ selected repo (rules (compile ac)) i (compile_rule r).
Proof.
  intros (i&Hi&Hc&Hbest). exists i. split; [done|]. unfold selected. split_and!.
  - by rewrite rules_lookup, Hi.
  - by apply glob_match_component_match.
  - intros j r' Hj Hm. rewrite rules_lookup in Hj.
    destruct (repositories ac !! j) as [q|] eqn:Eq; simplify_eq/=.
    apply Hbest; [done|]. by apply glob_match_component_match.
Qed.

Lemma governs_unique ac repo r r' : governs ac repo r → governs ac repo r' → r = r'.
Proof.
  intros (i&Hi&H1)%governs_selected (j&Hj&H2)%governs_selected.
  destruct (selected_unique _ _ _ _ _ _ H1 H2) as [-> _]. congruence.
Qed.

Lemma winning_rule_governs ac repo rule :
  winning_rule (compile ac) repo = Some rule ↔
  ∃ r, rule = compile_rule r ∧ governs ac repo r.
Proof.
  pose proof (winning_rule_spec (compile ac) repo) as Hspec. split.
  - intros Hw. rewrite Hw in Hspec. destruct Hspec as (i&Hi&Hm&Hbest).
    rewrite rules_lookup in Hi.
    destruct (repositories ac !! i) as [r|] eqn:Er; [injection Hi as <-|done].
    exists r. split; [done|]. exists i. split_and!; [done|by apply glob_match_component_match|].
    intros j r' Hj Hc. apply (Hbest j (compile_rule r')); [by rewrite rules_lookup, Hj|].
    by apply glob_match_component_match.
  - intros (r&->&(i&_&Hsel)%governs_selected).
    destruct (winning_rule (compile ac) repo) as [rule'|].
    + destruct Hspec as [i' Hsel']. f_equal. by eapply selected_unique.
    + destruct Hsel as (Hi&Hm&_). apply list_elem_of_lookup_2, Hspec in Hi. congruence.
Qed.

Lemma policy_applies_spec ac u lg ip :
  policy_applies u (default [] (user_groups (compile ac) !! u) ++ lg) (compile_policy ip) = true ↔
  policy_names ac ip u lg.
Proof.
  unfold policy_applies, compile_policy, policy_names.
  rewrite orb_true_iff, bool_decide_eq_true, elem_of_list_to_set, existsb_Exists_bool.
  setoid_rewrite bool_decide_eq_true. setoid_rewrite elem_of_list_to_set.
  setoid_rewrite elem_of_app. setoid_rewrite user_groups_spec. naive_solver.
Qed.

(** C29: a named user may do exactly what the configuration says: everything as
    an admin, else what the governing rule gives to everybody, to
    authenticated users, or to a policy that names the user or one of the
    user's groups. *)
Theorem grants_user_spec ac u lg repo a :
  ActionSet.contains (grants (compile ac) (Some u) lg repo) a = true ↔
  u ∈ ac_admins ac ∨
  ∃ r, governs ac repo r ∧
    (a ∈ rp_anonymous r ∨ a ∈ rp_authenticated r ∨
     ∃ ip, ip ∈ rp_policies r ∧ policy_names ac ip u lg ∧ a ∈ ip_actions ip).
Proof.
  unfold grants. destruct (bool_decide (u ∈ admins (compile ac))) eqn:Hadm; simpl in Hadm; bool_simp;
    rewrite elem_of_list_to_set in Hadm.
  { rewrite contains_ALL. tauto. }
  pose proof (winning_rule_governs ac repo) as Hwin.
  destruct (winning_rule (compile ac) repo) as [rule|] eqn:Hw.
  - destruct (proj1 (Hwin rule) eq_refl) as (r&->&Hgov).
    transitivity (a ∈ rp_anonymous r ∨ a ∈ rp_authenticated r ∨
      ∃ ip, ip ∈ rp_policies r ∧ policy_names ac ip u lg ∧ a ∈ ip_actions ip).
    + simpl. rewrite contains_foldl, contains_union, orb_true_iff, !contains_from_actions.
      setoid_rewrite list_elem_of_filter. setoid_rewrite list_elem_of_fmap.
      assert (Hor : ∀ A B C D : Prop, (C ↔ D) → ((A ∨ B) ∨ C ↔ A ∨ B ∨ D)) by tauto.
      apply Hor. split.
      * intros (x & [Happ (ip&->&Hip)] & Ha). apply policy_applies_spec in Happ.
        apply contains_from_actions in Ha. eauto.
      * intros (ip&Hip&Hn%policy_applies_spec&Ha%contains_from_actions).
        exists (compile_policy ip). eauto.
    + split; [eauto|]. intros [?|(r'&Hgov'&H)]; [done|].
      by rewrite (governs_unique _ _ _ _ Hgov Hgov').
  - rewrite contains_NONE. split; [done|]. intros [?|(r&Hgov&_)]; [done|].
    assert (None = Some (compile_rule r)); [|done]. apply Hwin. eauto.
Qed.

(** Without credentials a request may do exactly what the governing rule
    gives to everybody. *)
Theorem grants_anonymous_spec ac lg repo a :
  ActionSet.contains (grants (compile ac) None lg repo) a = true ↔
  ∃ r, governs ac repo r ∧ a ∈ rp_anonymous r.
Proof.
  unfold grants. pose proof (winning_rule_governs ac repo) as Hwin.
  destruct (winning_rule (compile ac) repo) as [rule|] eqn:Hw.
  - destruct (proj1 (Hwin rule) eq_refl) as (r&->&Hgov). simpl. rewrite contains_from_actions.
    split; [eauto|]. intros (r'&Hgov'&?). by rewrite (governs_unique _ _ _ _ Hgov Hgov').
  - rewrite contains_NONE. split; [done|]. intros (r&Hgov&_).
    assert (None = Some (compile_rule r)); [|done]. apply Hwin. eauto.
Qed.
