(* ===== verification/Auth.v ===== *)
(** * Authentication and authorization ([roci-core/src/auth])

    Bearer tokens ([bearer.rs]), the credential cache ([cache.rs]), the
    htpasswd file ([htpasswd.rs]), and the engine that resolves a request to a
    principal and decides what it may do ([mod.rs], [middleware.rs]). Base64,
    the signature and password checks, and the derived JSON deserializers are
    other code: fields of the class [AuthEnv]. *)

From S2P Require Import Prelude RustStr Json Errors Digest Policy.

(** ** Bearer tokens *)

Record Header := { alg : string; has_jwk : bool; has_jku : bool; has_x5u : bool }.

Inductive Audience := One (a : string) | Many (l : list string).

Record AccessEntry := { kind : string; entry_name : string; actions : list string }.

Record Claims := {
  iss : string;
  aud : Audience;
  exp : Z;
  nbf : option Z;
  sub : option string;
  access : list AccessEntry;
}.

Class AuthEnv := {
  base64_decode : string → option bytes;
  base64url_decode : string → option bytes;
  header_from_slice : bytes → option Header;
  claims_from_slice : bytes → option Claims;
  es256_verify : bytes → bytes → bytes → bool;
  rs256_verify : bytes → bytes → bytes → bool;
  bcrypt_verify : string → string → option bool;
  bcrypt_hash : string → Z → result string string;
}.

Definition MAX_TOKEN_LEN : Z := 8192.
Definition MAX_ACCESS_ENTRIES : nat := 64.
Definition LEEWAY_SECS : Z := 30.

Inductive VerifyKey := Es256 (pk : bytes) | Rs256 (pk : bytes).

Record BearerVerifier := { issuer : string; service : string; keys : list VerifyKey }.

Record Verified := { subject : option string; v_grants : list (string * Z) }.

Section Bearer.
Context `{AuthEnv}.

Definition decode_json {T} (from : bytes → option T) (segment : string) : result string T :=
  let? b := ok_or (base64url_decode segment) "bad base64url segment" in
  ok_or (from b) "bad JSON segment".

Definition key_verifies (es256 : bool) (signed sig : bytes) (k : VerifyKey) : bool :=
  match k, es256 with
  | Es256 pk, true => es256_verify pk signed sig
  | Rs256 pk, false => rs256_verify pk signed sig
  | _, _ => false
  end.

Definition action_of_scope (a : string) : Z :=
  if decide (a = "pull") then ActionSet.of_action Pull
  else if decide (a = "push") then ActionSet.of_action Push
  else if decide (a = "delete") then ActionSet.of_action Delete
  else if decide (a = "*") then ActionSet.ALL
  else ActionSet.NONE.

Definition entry_grant (e : AccessEntry) : string * Z :=
  (entry_name e, foldl (λ s a, ActionSet.union s (action_of_scope a)) ActionSet.NONE (actions e)).

Definition claims_grants (c : Claims) : list (string * Z) :=
  entry_grant <$> filter (λ e, kind e = "repository") (access c).

Definition verify (v : BearerVerifier) (token : string) (now : Z) : result string Verified :=
  if (MAX_TOKEN_LEN <? slen token)%Z then Err "token too long" else
  match split "." token with
  | [h; p; s] =>
      let? hd := decode_json header_from_slice h in
      if has_jwk hd || has_jku hd || has_x5u hd then Err "key-carrying header" else
      let? es256 :=
        (if decide (alg hd = "ES256") then Ok true
         else if decide (alg hd = "RS256") then Ok false
         else Err "unsupported alg") in
      let? sig := ok_or (base64url_decode s) "bad signature encoding" in
      let signed := take (String.length h + 1 + String.length p) (as_bytes token) in
      if negb (existsb (key_verifies es256 signed sig) (keys v)) then Err "signature mismatch" else
      let? claims := decode_json claims_from_slice p in
      if negb (bool_decide (iss claims = issuer v)) then Err "issuer mismatch" else
      if negb (match aud claims with
               | One a => bool_decide (a = service v)
               | Many l => bool_decide (service v ∈ l)
               end) then Err "audience mismatch" else
      if (saturating_add (exp claims) LEEWAY_SECS <? now)%Z then Err "expired" else
      if match nbf claims with
         | Some n => (saturating_add now LEEWAY_SECS <? n)%Z
         | None => false
         end then Err "not yet valid" else
      if MAX_ACCESS_ENTRIES <? length (access claims) then Err "too many access entries" else
      Ok {| subject := sub claims; v_grants := claims_grants claims |}
  | _ => Err "not a three-segment JWS"
  end.
End Bearer.

Definition bytes_ct_eq (a b : bytes) : bool :=
  (blen a =? blen b)%Z &&
  (foldl Z.lor 0 (zip_with (λ x y, Z.lxor (u8 x) (u8 y)) a b) =? 0)%Z.

Definition grants_allow (gs : list (string * Z)) (repo : string) (a : Action) : bool :=
  existsb (λ '(name, set), bytes_ct_eq (as_bytes name) (as_bytes repo) && ActionSet.contains set a) gs.

(** ** Principals *)

Inductive AuthMethod := MHtpasswd | MLdap | MMtls.
#[export] Instance AuthMethod_eq_dec : EqDecision AuthMethod.
Proof. solve_decision. Defined.

Inductive Principal :=
  | Anonymous
  | User (name : string) (ldap_groups : list string) (method : AuthMethod)
  | Token (subject : option string) (gs : list (string * Z)).

(** ** The credential cache

    Times are nanoseconds of the monotonic clock; the map is keyed by the
    SHA-256 of the credentials. *)

Record CachedUser := {
  cu_name : string;
  cu_groups : list string;
  cu_method : AuthMethod;
  expires : Z;
}.

Record CredentialCache := { ttl : Z; cmap : gmap bytes CachedUser }.

Definition CAPACITY : Z := 4096.

Section Cache.
Context `{Crypto}.

Definition credential_bytes (user password : string) : bytes :=
  as_bytes user ++ ["000"%char] ++ as_bytes password.

Definition key (user password : string) : bytes := sha256 (credential_bytes user password).

Definition cache_get (c : CredentialCache) (user password : string) (now : Z)
    : CredentialCache * option Principal :=
  if (ttl c =? 0)%Z then (c, None) else
  let k := key user password in
  match cmap c !! k with
  | None => (c, None)
  | Some hit =>
      if (expires hit <=? now)%Z then ({| ttl := ttl c; cmap := delete k (cmap c) |}, None)
      else (c, Some (User (cu_name hit) (cu_groups hit) (cu_method hit)))
  end.

Definition cache_insert (c : CredentialCache) (user password : string) (groups : list string)
    (method : AuthMethod) (now : Z) : CredentialCache * Principal :=
  (if negb (ttl c =? 0)%Z then
     let m := if (CAPACITY <=? Z.of_nat (size (cmap c)))%Z then ∅ else cmap c in
     {| ttl := ttl c;
        cmap := <[key user password :=
          {| cu_name := user; cu_groups := groups; cu_method := method; expires := (now + ttl c)%Z |}]> m |}
   else c,
   User user groups method).
End Cache.

(** ** The htpasswd file *)

Record Htpasswd := { users : gmap string string; dummy : string }.

Inductive HtpasswdResult := HtOk | BadPassword | UnknownUser.
#[export] Instance HtpasswdResult_eq_dec : EqDecision HtpasswdResult.
Proof. solve_decision. Defined.

Definition BCRYPT_PREFIXES : list string := ["$2a$"; "$2b$"; "$2y$"].

(** [hash.get(4..6)?.parse::<u32>().ok()] *)
Definition hash_cost (hash : string) : option Z :=
  if existsb (starts_with hash) BCRYPT_PREFIXES then
    if (slen hash <? 6)%Z then None else parse_u64 (String.substring 4 2 hash)
  else None.

(** [text.lines()]: the pieces between line feeds, without a last empty one
    and without the carriage return before a line feed. *)
Definition strip_cr (s : string) : string :=
  match last (as_bytes s) with
  | Some "013"%char => of_bytes (removelast (as_bytes s))
  | _ => s
  end.

Fixpoint lines_of (pieces : list string) : list string :=
  match pieces with
  | [] => []
  | [p] => if decide (p = "") then [] else [p]
  | p :: ps => strip_cr p :: lines_of ps
  end.

Definition lines (text : string) : list string := lines_of (split "010" text).

Definition line_n (n : nat) (s : string) : string :=
  "line " +:+ u64_to_string (Z.of_nat n) +:+ s.

(** The loop over the numbered lines: the users so far and the highest
    cost. *)
Fixpoint parse_lines (n : nat) (us : gmap string string) (max_cost : Z) (ls : list string)
    : result string (gmap string string * Z) :=
  match ls with
  | [] => Ok (us, max_cost)
  | line :: ls =>
      let line := trim line in
      if bool_decide (line = "") || starts_with line "#" then parse_lines (S n) us max_cost ls else
      let? ' (user, hash) :=
        ok_or (match split_once ":" line with
               | Some (u, h) => if decide (u = "") then None else Some (u, h)
               | None => None
               end) (line_n n ": expected `user:bcrypt-hash`") in
      let? cost := ok_or (hash_cost hash)
        (line_n n ": only bcrypt ($2a$/$2b$/$2y$) hashes are supported") in
      match us !! user with
      | Some _ => Err (line_n n (": duplicate user `" +:+ user +:+ "`"))
      | None => parse_lines (S n) (<[user := hash]> us) (max_cost `max` cost) ls
      end
  end.

Section Engine.
Context `{AuthEnv, Crypto}.

Definition htpasswd_parse (text : string) : result string Htpasswd :=
  let? ' (us, max_cost) := parse_lines 1 ∅ 0 (lines text) in
  let cost := if decide (us = ∅) then 10%Z else max_cost in
  let? d := map_err (λ e, "bcrypt cost " +:+ u64_to_string cost +:+ ": " +:+ e)
              (bcrypt_hash "roci-htpasswd-dummy" cost) in
  Ok {| users := us; dummy := d |}.

Definition htpasswd_verify (h : Htpasswd) (user password : string) : HtpasswdResult :=
  let '(hash, known) :=
    match users h !! user with
    | Some x => (x, true)
    | None => (dummy h, false)
    end in
  let ok := default false (bcrypt_verify password hash) in
  match known, ok with
  | false, _ => UnknownUser
  | true, true => HtOk
  | true, false => BadPassword
  end.

(** ** The engine

    [ldap] is [None] in a build without the feature; otherwise it is what the
    directory answers to the search and the bind. The cache is the state. *)

Record Bearer := { b_verifier : BearerVerifier; b_realm : string; b_service : string }.

Record Auth := mkAuth {
  realm : string;
  htpasswd : option Htpasswd;
  ldap : option (string → string → option (list string));
  bearer : option Bearer;
  mtls : bool;
  policy : option AccessPolicy;
}.

Definition reload_access_control (a : Auth) (ac : option AccessControlConfig) : Auth :=
  mkAuth (realm a) (htpasswd a) (ldap a) (bearer a) (mtls a) (compile <$> ac).

Definition has_header_mechanism (a : Auth) : bool :=
  bool_decide (is_Some (htpasswd a)) || bool_decide (is_Some (ldap a))
  || bool_decide (is_Some (bearer a)).

Definition challenge_actions (a : Action) : string :=
  match a with Pull => "pull" | Push => "pull,push" | Delete => "delete" end.

Definition q : string := String "034" "".

Definition challenge (a : Auth) (scope : option (string * Action)) (insufficient : bool)
    : option string :=
  let value :=
    match bearer a with
    | Some b =>
        Some ("Bearer realm=" +:+ q +:+ b_realm b +:+ q +:+ ",service=" +:+ q +:+ b_service b +:+ q
          +:+ match scope with
              | Some (repo, act) =>
                  ",scope=" +:+ q +:+ "repository:" +:+ repo +:+ ":" +:+ challenge_actions act +:+ q
              | None => ""
              end
          +:+ (if insufficient then ",error=" +:+ q +:+ "insufficient_scope" +:+ q else ""))
    | None =>
        if has_header_mechanism a then Some ("Basic realm=" +:+ q +:+ realm a +:+ q) else None
    end in
  match value with
  | Some v => if header_ok v then Some v else None
  | None => None
  end.

(** [LdapAuthenticator::authenticate]: an empty password would be an
    unauthenticated bind. *)
Definition ldap_authenticate (l : string → string → option (list string)) (user password : string)
    : option (list string) :=
  if decide (password = "") then None else l user password.

Definition authenticate_basic (a : Auth) (c : CredentialCache) (cred : string) (now : Z)
    : CredentialCache * result string Principal :=
  let label :=
    if bool_decide (is_Some (htpasswd a)) || negb (bool_decide (is_Some (ldap a)))
    then "htpasswd" else "ldap" in
  match (let? d := ok_or (base64_decode cred) label in
         let? s := ok_or (from_utf8 d) label in
         ok_or (split_once ":" s) label) with
  | Err e => (c, Err e)
  | Ok (user, password) =>
      if decide (user = "") then (c, Err label) else
      match cache_get c user password now with
      | (c, Some p) => (c, Ok p)
      | (c, None) =>
          match (match htpasswd a with
                 | Some h => htpasswd_verify h user password
                 | None => UnknownUser
                 end) with
          | HtOk =>
              let '(c, p) := cache_insert c user password [] MHtpasswd now in (c, Ok p)
          | BadPassword => (c, Err "htpasswd")
          | UnknownUser =>
              match ldap a with
              | Some l =>
                  match ldap_authenticate l user password with
                  | Some groups =>
                      let '(c, p) := cache_insert c user password groups MLdap now in (c, Ok p)
                  | None => (c, Err "ldap")
                  end
              | None => (c, Err label)
              end
          end
      end
  end.

(** [now_unix] is the wall clock in seconds, [now] the monotonic one. *)
Definition authenticate_header (a : Auth) (c : CredentialCache) (value : HeaderValue)
    (now now_unix : Z) : CredentialCache * result string Principal :=
  match (let? v := ok_or (to_str value) "anonymous" in ok_or (split_once " " v) "anonymous") with
  | Err e => (c, Err e)
  | Ok (scheme, cred) =>
      let cred := trim cred in
      if eq_ignore_ascii_case scheme "basic" then authenticate_basic a c cred now
      else if eq_ignore_ascii_case scheme "bearer" then
        (c, let? b := ok_or (bearer a) "bearer" in
            let? v := map_err (λ _, "bearer") (verify (b_verifier b) cred now_unix) in
            Ok (Token (subject v) (v_grants v)))
      else (c, Err "anonymous")
  end.

Definition is_empty_basic (value : HeaderValue) : bool :=
  match to_str value ≫= split_once " " with
  | Some (scheme, cred) =>
      eq_ignore_ascii_case scheme "basic"
      && bool_decide (base64_decode (trim cred) = Some [":"%char])
  | None => false
  end.

Definition authenticate (a : Auth) (c : CredentialCache) (headers : HeaderMap)
    (cert : option string) (now now_unix : Z) : CredentialCache * result ApiError Principal :=
  match (match headers !! "authorization" with
         | Some v => if is_empty_basic v then None else Some v
         | None => None
         end) with
  | Some value =>
      let '(c, r) := authenticate_header a c value now now_unix in
      (c, map_err (λ _, Unauthenticated "invalid credentials" (challenge a None false)) r)
  | None =>
      (c, Ok (match cert with
              | Some id => User id [] MMtls
              | None => Anonymous
              end))
  end.

Definition allows (a : Auth) (p : Principal) (repo : string) (act : Action) : bool :=
  match p with
  | Token _ gs => grants_allow gs repo act
  | User name lg _ =>
      match policy a with
      | None => true
      | Some pol => ActionSet.contains (grants pol (Some name) lg repo) act
      end
  | Anonymous =>
      match policy a with
      | None => false
      | Some pol => ActionSet.contains (grants pol None [] repo) act
      end
  end.

Definition authorize (a : Auth) (p : Principal) (repo : string) (act : Action)
    : result ApiError unit :=
  if allows a p repo act then Ok tt
  else match p with
  | Token _ _ => Err (Unauthenticated "insufficient scope" (challenge a (Some (repo, act)) true))
  | User _ _ _ => Err (Spec Denied "access denied")
  | Anonymous =>
      if has_header_mechanism a then
        Err (Unauthenticated "authentication required" (challenge a (Some (repo, act)) false))
      else
        Err (Spec Denied
          (if mtls a then "authentication required: present a trusted client certificate"
           else "anonymous access denied by policy"))
  end.

Definition base_challenge (a : Auth) : ApiError :=
  Unauthenticated "authentication required" (challenge a None false).

(** [authn_middleware]: the response that ends the request, or the principal
    that goes on. *)
Definition authn_middleware (a : Auth) (c : CredentialCache) (headers : HeaderMap)
    (cert : option string) (uri_path : string) (now now_unix : Z)
    : CredentialCache * result Response Principal :=
  let '(c, r) := authenticate a c headers cert now now_unix in
  (c, match r with
      | Err e => Err (error_response e)
      | Ok p =>
          if bool_decide (uri_path = "/v2/")
             && match p with Anonymous => true | _ => false end
             && has_header_mechanism a
          then Err (error_response (base_challenge a))
          else Ok p
      end).
End Engine.

(** [early_data_middleware]: [None] lets the request through. *)
Definition early_data_middleware (headers : HeaderMap) (method : string) : option Response :=
  let replayable :=
    match headers !! "early-data" with
    | Some (HvText s) => bool_decide (s = "1")
    | _ => false
    end in
  let safe := bool_decide (method = "GET") || bool_decide (method = "HEAD")
              || bool_decide (method = "OPTIONS") in
  if replayable && negb safe then Some (error_response TooEarly) else None.

(** ** Lemmas *)

Lemma bytes_ct_eq_true a b : bytes_ct_eq a b = true ↔ a = b.
Proof.
  unfold bytes_ct_eq. rewrite andb_true_iff, !Z.eqb_eq. split.
  - intros [Hl Hx]. apply xor_fold_eq in Hx; [done|]. unfold blen in Hl. lia.
  - intros <-. split; [done|]. by apply xor_fold_eq.
Qed.

Lemma grants_allow_true gs repo a :
  grants_allow gs repo a = true ↔ ∃ set, (repo, set) ∈ gs ∧ ActionSet.contains set a = true.
Proof.
  unfold grants_allow. rewrite existsb_Exists_bool. split.
  - intros ([name set]&Hin&[Hn Hc]%andb_true_iff). apply bytes_ct_eq_true, (inj as_bytes) in Hn.
    subst. eauto.
  - intros (set&Hin&Hc). exists (repo, set). split; [done|].
    rewrite Hc, andb_true_r. by apply bytes_ct_eq_true.
Qed.

Lemma take_prefix h p s :
  take (String.length h + 1 + String.length p) (as_bytes (h +:+ "." +:+ p +:+ "." +:+ s)) =
  as_bytes h ++ ["."%char] ++ as_bytes p.
Proof.
  assert (as_bytes (h +:+ "." +:+ p +:+ "." +:+ s) =
          (as_bytes h ++ ["."%char] ++ as_bytes p) ++ ["."%char] ++ as_bytes s) as ->.
  { rewrite !as_bytes_app, <-!app_assoc. done. }
  apply take_app_length'. rewrite !length_app, !as_bytes_length. simpl. lia.
Qed.

(** What a verified token is. *)
Definition token_valid `{AuthEnv} (v : BearerVerifier) (token : string) (now : Z) (c : Claims) : Prop :=
  ∃ h p s hb pb hd sig,
    token = h +:+ "." +:+ p +:+ "." +:+ s ∧
    base64url_decode h = Some hb ∧ header_from_slice hb = Some hd ∧
    base64url_decode p = Some pb ∧ claims_from_slice pb = Some c ∧
    base64url_decode s = Some sig ∧
    has_jwk hd = false ∧ has_jku hd = false ∧ has_x5u hd = false ∧
    (∃ pk, (alg hd = "ES256" ∧ Es256 pk ∈ keys v ∧
              es256_verify pk (as_bytes h ++ ["."%char] ++ as_bytes p) sig = true) ∨
           (alg hd = "RS256" ∧ Rs256 pk ∈ keys v ∧
              rs256_verify pk (as_bytes h ++ ["."%char] ++ as_bytes p) sig = true)) ∧
    iss c = issuer v ∧
    match aud c with One a => a = service v | Many l => service v ∈ l end ∧
    (now ≤ saturating_add (exp c) 30)%Z ∧
    match nbf c with Some n => (n ≤ saturating_add now 30)%Z | None => True end ∧
    length (access c) ≤ 64.

Lemma split3 token h p s : split "." token = [h; p; s] → token = h +:+ "." +:+ p +:+ "." +:+ s.
Proof. intros E. by rewrite <-(join_split "." token), E. Qed.

Lemma key_verifies_true `{AuthEnv} es signed sig k :
  key_verifies es signed sig k = true →
  ∃ pk, (es = true ∧ k = Es256 pk ∧ es256_verify pk signed sig = true) ∨
        (es = false ∧ k = Rs256 pk ∧ rs256_verify pk signed sig = true).
Proof. destruct k as [pk|pk], es; simpl; naive_solver. Qed.

Lemma verify_ok `{AuthEnv} v token now r :
  verify v token now = Ok r →
  ∃ c, token_valid v token now c ∧ r = {| subject := sub c; v_grants := claims_grants c |}.
Proof.
  unfold verify. intros Hv. case_match; [done|].
  destruct (split "." token) as [|h [|p [|s []]]] eqn:Esp; try done.
  apply split3 in Esp. unfold decode_json in Hv. case_res. bool_simp.
  match goal with c : Claims |- _ => exists c end. split; [|done].
  exists h, p, s. do 4 eexists. split_and!; try done.
  - select (existsb _ _ = true) (fun Hk => apply existsb_Exists_bool in Hk as (k&Hin&Hk);
      rewrite take_prefix in Hk; apply key_verifies_true in Hk as (pk&Hk)).
    exists pk. repeat case_decide; naive_solver.
  - match goal with |- match ?a with _ => _ end => destruct a end; bool_simp; done.
  - match goal with |- match ?a with _ => _ end => destruct a end; bool_simp; done.
  - select ((_ <? length _) = false) (fun Hl => apply Nat.ltb_ge in Hl; exact Hl).
Qed.

Lemma claims_grants_spec c repo set :
  (repo, set) ∈ claims_grants c →
  ∃ e, e ∈ access c ∧ kind e = "repository" ∧ entry_name e = repo ∧
    ∀ a, ActionSet.contains set a = true ↔
      ∃ x, x ∈ actions e ∧ (x = "*" ∨ x = match a with Pull => "pull" | Push => "push" | Delete => "delete" end).
Proof.
  unfold claims_grants. intros (e&Heq&[Hk He]%list_elem_of_filter)%list_elem_of_fmap.
  injection Heq as -> ->. exists e. split_and!; [done..|]. intros a.
  rewrite contains_foldl, contains_NONE. split.
  - intros [?|(x&Hx&Hc)]; [done|]. exists x. split; [done|].
    unfold action_of_scope in Hc. repeat case_decide; subst; destruct a; naive_solver.
  - intros (x&Hx&Hc). right. exists x. split; [done|]. by destruct Hc as [->| ->], a.
Qed.

(** The cache holds only credentials a backend accepted. *)
Section CacheSound.
Context `{AuthEnv, Crypto}.

Definition accepted_by (a : Auth) (user password : string) (groups : list string) (m : AuthMethod) : Prop :=
  (m = MHtpasswd ∧ groups = [] ∧
     ∃ h hash, htpasswd a = Some h ∧ users h !! user = Some hash ∧
       bcrypt_verify password hash = Some true) ∨
  (m = MLdap ∧ ∃ l, ldap a = Some l ∧ password ≠ "" ∧ l user password = Some groups).

Definition cache_ok (a : Auth) (c : CredentialCache) : Prop :=
  (Z.of_nat (size (cmap c)) ≤ CAPACITY)%Z ∧
  ∀ k e, cmap c !! k = Some e →
    ∃ user password, k = key user password ∧ cu_name e = user ∧
      accepted_by a user password (cu_groups e) (cu_method e).

(** The name and the password of a Basic Authorization header. *)
Definition basic_credentials (headers : HeaderMap) (user password : string) : Prop :=
  ∃ v value scheme cred b, headers !! "authorization" = Some v ∧ to_str v = Some value ∧
    split_once " " value = Some (scheme, cred) ∧ eq_ignore_ascii_case scheme "basic" = true ∧
    base64_decode (trim cred) = Some b ∧ split_once ":" (of_bytes b) = Some (user, password).

(** The credentials of the header are these, or have the same key of the cache. *)
Definition sent_credentials (headers : HeaderMap) (user password : string) : Prop :=
  ∃ user' password', basic_credentials headers user' password' ∧ key user' password' = key user password.

Lemma htpasswd_verify_ok h user password :
  htpasswd_verify h user password = HtOk →
  ∃ hash, users h !! user = Some hash ∧ bcrypt_verify password hash = Some true.
Proof.
  unfold htpasswd_verify. destruct (users h !! user) as [hash|] eqn:E; [|done].
  destruct (bcrypt_verify password hash) as [[]|] eqn:Eb; try done. eauto.
Qed.

Lemma cache_get_ok a c user password now c' r :
  cache_ok a c → cache_get c user password now = (c', r) →
  cache_ok a c' ∧
  ∀ p, r = Some p → ∃ u pw groups m,
    p = User u groups m ∧ accepted_by a u pw groups m ∧ key u pw = key user password.
Proof.
  intros Hok. pose proof Hok as [Hsz Hc]. unfold cache_get. case_match; [by intros [= <- <-]|].
  destruct (cmap c !! key user password) as [hit|] eqn:Ek; [|by intros [= <- <-]].
  case_match; intros [= <- <-].
  - split; [|done]. split; simpl.
    + rewrite map_size_delete, Ek. lia.
    + intros k e [_ He]%lookup_delete_Some. eauto.
  - split; [done|]. intros p [= <-]. destruct (Hc _ _ Ek) as (u&pw&Hkey&<-&Hacc).
    do 4 eexists. split_and!; [done|exact Hacc|done].
Qed.

Lemma cache_insert_ok a c user password groups m now c' p :
  cache_ok a c → accepted_by a user password groups m →
  cache_insert c user password groups m now = (c', p) →
  cache_ok a c' ∧ p = User user groups m.
Proof.
  intros [Hsz Hc] Hacc. unfold cache_insert. intros [= <- <-]. split; [|done].
  case_match; [|done]. split; cbn [cmap].
  - rewrite map_size_insert. destruct (CAPACITY <=? Z.of_nat (size (cmap c)))%Z eqn:Esz.
    + rewrite lookup_empty, map_size_empty. unfold CAPACITY. lia.
    + apply Z.leb_gt in Esz. destruct (cmap c !! key user password); unfold id; lia.
  - intros k e [[<- <-]|[Hne He]]%lookup_insert_Some; [eauto 6|].
    case_match; [by rewrite lookup_empty in He|eauto].
Qed.

Lemma authenticate_basic_ok a c cred now c' r :
  cache_ok a c → authenticate_basic a c cred now = (c', r) →
  cache_ok a c' ∧
  ∀ p, r = Ok p → ∃ b user password u pw groups m,
    base64_decode cred = Some b ∧ split_once ":" (of_bytes b) = Some (user, password) ∧ user ≠ "" ∧
    p = User u groups m ∧ accepted_by a u pw groups m ∧ key u pw = key user password.
Proof.
  intros Hc. unfold authenticate_basic. case_match eqn:Edec; [|by intros [= <- <-]].
  destruct a0 as [user password]. case_res.
  unfold from_utf8 in *. case_match; [|done]. simplify_eq.
  case_decide as Hu; [by intros [= <- <-]|].
  destruct (cache_get c user password now) as [c1 [p|]] eqn:Eg;
    destruct (cache_get_ok _ _ _ _ _ _ _ Hc Eg) as [Hc1 Hp].
  { intros [= <- <-]. split; [done|]. intros p' [= <-].
    destruct (Hp p eq_refl) as (u&pw&gs&m&?&?&?). by exists x, user, password, u, pw, gs, m. }
  clear Hp.
  destruct (match htpasswd a with
            | Some h => htpasswd_verify h user password
            | None => UnknownUser
            end) eqn:Eh; [|by intros [= <- <-]|].
  - destruct (cache_insert c1 user password [] MHtpasswd now) as [c2 p] eqn:Ei. intros [= <- <-].
    destruct (htpasswd a) as [ht|] eqn:Eht; [|done].
    apply htpasswd_verify_ok in Eh as (hash&?&?).
    assert (Hacc : accepted_by a user password [] MHtpasswd) by (left; naive_solver).
    destruct (cache_insert_ok _ _ _ _ _ _ _ _ _ Hc1 Hacc Ei) as [? ->]. split; [done|].
    intros p' [= <-]. by exists x, user, password, user, password, [], MHtpasswd.
  - destruct (ldap a) as [l|] eqn:El; [|by intros [= <- <-]].
    destruct (ldap_authenticate l user password) as [gs|] eqn:Egs; [|by intros [= <- <-]].
    unfold ldap_authenticate in Egs. case_decide; [done|].
    destruct (cache_insert c1 user password gs MLdap now) as [c2 p] eqn:Ei. intros [= <- <-].
    assert (Hacc : accepted_by a user password gs MLdap) by (right; naive_solver).
    destruct (cache_insert_ok _ _ _ _ _ _ _ _ _ Hc1 Hacc Ei) as [? ->]. split; [done|].
    intros p' [= <-]. by exists x, user, password, user, password, gs, MLdap.
Qed.
End CacheSound.

(** Basic credentials resolve to a user, never to a token. *)
Lemma authenticate_basic_user `{AuthEnv, Crypto} a c cred now c' p :
  authenticate_basic a c cred now = (c', Ok p) → ∃ u gs m, p = User u gs m.
Proof.
  unfold authenticate_basic, cache_get, cache_insert. intros Hb.
  repeat case_match; simplify_eq; eauto.
Qed.

Lemma authenticate_header_token `{AuthEnv, Crypto} a c value now now_unix c' sub gs :
  authenticate_header a c value now now_unix = (c', Ok (Token sub gs)) →
  ∃ b token v, bearer a = Some b ∧ verify (b_verifier b) token now_unix = Ok v ∧ gs = v_grants v.
Proof.
  unfold authenticate_header. case_match; [|by intros]. destruct a0 as [scheme cred].
  case_match; [intros Hb; apply authenticate_basic_user in Hb as (?&?&?&?); done|].
  case_match; [|by intros]. intros Hh. injection Hh as _ Hr. case_res. do 3 eexists; eauto.
Qed.

Lemma authenticate_header_user `{AuthEnv, Crypto} a c (headers : HeaderMap) value now now_unix c' r :
  headers !! "authorization" = Some value →
  cache_ok a c → authenticate_header a c value now now_unix = (c', r) →
  cache_ok a c' ∧
  ∀ u gs m, r = Ok (User u gs m) → ∃ pw, accepted_by a u pw gs m ∧ sent_credentials headers u pw.
Proof.
  intros Hh Hc. unfold authenticate_header. case_match eqn:Ev; [|by intros [= <- <-]].
  destruct a0 as [scheme cred]. case_match.
  - intros Hb. destruct (authenticate_basic_ok _ _ _ _ _ _ Hc Hb) as [? Hp]. split; [done|].
    intros u gs m ->. destruct (Hp _ eq_refl) as (b&us&ps&?&pw&?&?&?&?&?&Heq&?&?). simplify_eq.
    exists pw. split; [done|]. exists us, ps. split; [|done]. case_res. exists value; eexists; by exists scheme, cred, b.
  - case_match; [|by intros [= <- <-]]. intros [= <- <-]. split; [done|].
    intros u gs m Hr. case_res.
Qed.

Lemma authenticate_user `{AuthEnv, Crypto} a c headers cert now now_unix c' r :
  cache_ok a c → authenticate a c headers cert now now_unix = (c', r) →
  cache_ok a c' ∧
  ∀ u gs m, r = Ok (User u gs m) →
    (m = MMtls ∧ cert = Some u ∧ gs = []) ∨ ∃ pw, accepted_by a u pw gs m ∧ sent_credentials headers u pw.
Proof.
  intros Hc. unfold authenticate. destruct (headers !! "authorization") as [v|] eqn:Eh; [destruct (is_empty_basic v)|].
  2:{ destruct (authenticate_header a c v now now_unix) as [c1 r1] eqn:Ea.
      destruct (authenticate_header_user _ _ _ _ _ _ _ _ Eh Hc Ea) as [? Hu].
      intros [= <- <-]. split; [done|]. intros u gs m Hr. case_res. eauto. }
  all: intros [= <- <-]; split; [done|]; intros u gs m Hr; case_res; case_match; simplify_eq; auto.
Qed.

(** The separator of the cache key is unambiguous for user names without a NUL
    byte. *)
Lemma credential_bytes_inj u p u' p' :
  "000"%char ∉ as_bytes u → "000"%char ∉ as_bytes u' →
  credential_bytes u p = credential_bytes u' p' → u = u' ∧ p = p'.
Proof.
  unfold credential_bytes. intros Hu Hu' Heq.
  enough (as_bytes u = as_bytes u' ∧ as_bytes p = as_bytes p') as [->%(inj as_bytes) ->%(inj as_bytes)]
    by done.
  revert Hu Hu' Heq. generalize (as_bytes u) (as_bytes u'). clear u u'.
  induction l as [|x l IH]; intros [|y k] Hl Hk Heq; simplify_eq/=; try set_solver.
  destruct (IH k) as [-> ->]; set_solver.
Qed.

(** A concrete environment: base 64 is the identity, one header, one set of
    claims, a signature is the key. *)
Module ToyAuth.
Definition claims : Claims :=
  {| iss := "iss"; aud := Many ["x"; "svc"]; exp := 100; nbf := None; sub := Some "bob";
     access := [{| kind := "repository"; entry_name := "team/app"; actions := ["pull"; "push"] |}] |}.
#[export] Instance toy_auth : AuthEnv := {|
  base64_decode s := Some (as_bytes s);
  base64url_decode s := Some (as_bytes s);
  header_from_slice _ := Some {| alg := "ES256"; has_jwk := false; has_jku := false; has_x5u := false |};
  claims_from_slice _ := Some claims;
  es256_verify pk _ sig := bool_decide (pk = sig);
  rs256_verify _ _ _ := false;
  bcrypt_verify p h := Some (bool_decide (h = "$2a$10" +:+ p));
  bcrypt_hash p _ := Ok p;
|}.
Definition auth : Auth :=
  {| realm := "roci";
     htpasswd := Some {| users := {["alice" := "$2a$10secret"]}; dummy := "" |};
     ldap := None;
     bearer := Some {| b_verifier := {| issuer := "iss"; service := "svc"; keys := [Es256 (as_bytes "k")] |};
                       b_realm := "r"; b_service := "svc" |};
     mtls := false; policy := None |}.
Definition cache : CredentialCache := {| ttl := 1000; cmap := ∅ |}.
End ToyAuth.

(** ** Properties *)

(** C31: whatever a bearer token is allowed was granted by a token that a
    configured key of the header's algorithm signed, from the configured
    issuer, for the configured service, within its validity period (with the
    leeway), by an access entry for that very repository and action. *)
Theorem bearer_sound `{AuthEnv, Crypto} a c headers cert now now_unix c' sub gs repo act :
  authenticate a c headers cert now now_unix = (c', Ok (Token sub gs)) →
  allows a (Token sub gs) repo act = true →
  ∃ b token claims e,
    bearer a = Some b ∧ token_valid (b_verifier b) token now_unix claims ∧
    e ∈ access claims ∧ kind e = "repository" ∧ entry_name e = repo ∧
    ∃ x, x ∈ actions e ∧ (x = "*" ∨ x = match act with Pull => "pull" | Push => "push" | Delete => "delete" end).
Proof.
  unfold authenticate. intros Hauth Hallow. simpl in Hallow.
  apply grants_allow_true in Hallow as (set&Hin&Hset).
  destruct (match headers !! "authorization" with
            | Some v => if is_empty_basic v then None else Some v
            | None => None
            end) as [value|]; [|by destruct cert].
  destruct (authenticate_header a c value now now_unix) as [c1 r] eqn:Eh.
  injection Hauth as -> Hr. case_res.
  apply authenticate_header_token in Eh as (b&token&v&Hb&Hv&->).
  apply verify_ok in Hv as (claims&Hvalid&->).
  apply claims_grants_spec in Hin as (e&?&?&?&He). apply He in Hset.
  by exists b, token, claims, e.
Qed.

(** [authorize] lets a request through exactly when [allows] says so;
    otherwise the client is told to authenticate (401) when a token or
    credentials could help, and is denied (403) else. *)
Theorem authorize_spec a p repo act :
  (authorize a p repo act = Ok tt ↔ allows a p repo act = true) ∧
  ∀ e, authorize a p repo act = Err e →
    (status e = 401%Z ↔
       match p with Token _ _ => True | User _ _ _ => False | Anonymous => has_header_mechanism a = true end) ∧
    (status e = 401%Z ∨ status e = 403%Z).
Proof.
  unfold authorize. destruct (allows a p repo act); [naive_solver|].
  split; [destruct p; [case_match|..]; naive_solver|].
  intros e He. destruct p; [destruct (has_header_mechanism a)|..]; injection He as <-; naive_solver.
Qed.

(** State-changing requests that arrive as TLS early data are refused with
    425; safe ones, and requests outside early data, pass. *)
Theorem early_data_spec headers method :
  (∃ r, early_data_middleware headers method = Some r ∧ resp_status r = 425%Z) ↔
  headers !! "early-data" = Some (HvText "1") ∧ method ∉ ["GET"; "HEAD"; "OPTIONS"].
Proof.
  unfold early_data_middleware. split.
  - intros (r&Hr&_). destruct (headers !! "early-data") as [[s|]|]; [|done..].
    destruct (bool_decide (s = "1")) eqn:E1; [|done]. simpl in Hr. bool_simp. subst.
    case_match eqn:E; [|done]. bool_simp. set_solver.
  - intros [-> Hm]. rewrite !elem_of_cons in Hm. rewrite (bool_decide_eq_false_2 (method = "GET")), (bool_decide_eq_false_2 (method = "HEAD")),
      (bool_decide_eq_false_2 (method = "OPTIONS")) by tauto.
    eexists. split; [reflexivity|done].
Qed.

#[local] Existing Instances Digest.Toy.toy_crypto ToyAuth.toy_auth.

Lemma bearer_sound_witness :
  let h : HeaderMap := {["authorization" := HvText "Bearer h.p.k"]} in
  allows ToyAuth.auth (Token (Some "bob") [("team/app", 3%Z)]) "team/app" Push = true ∧
  ∃ b token claims, bearer ToyAuth.auth = Some b ∧ token_valid (b_verifier b) token 90 claims.
Proof.
  intros h. split; [reflexivity|].
  destruct (bearer_sound ToyAuth.auth ToyAuth.cache h None 0 90 ToyAuth.cache (Some "bob")
              [("team/app", 3%Z)] "team/app" Push) as (b&t&cl&_&Hb&Ht&_); [reflexivity..|].
  by exists b, t, cl.
Defined.

