(* ===== verification/Routes.v ===== *)
(** Path parsing and the action a request needs ([roci-core/src/routes.rs]),
    and the endpoint label of a path ([classify_endpoint] of lib.rs). *)

From S2P Require Import Prelude RustStr Json Errors Names Digest HttpUtil Policy.

(** The methods the router sends to [dispatch]. *)
Inductive Method := GET | HEAD | POST | PUT | PATCH | DELETE.
#[export] Instance Method_eq_dec : EqDecision Method.
Proof. solve_decision. Defined.

Inductive Parsed :=
  | PBlob (repo : string) (digest : Digest)
  | PManifestRef (repo reference : string)
  | PUploadStart (repo : string)
  | PUploadSession (repo id : string)
  | PTagsList (repo : string)
  | PReferrers (repo : string) (digest : Digest)
  | PUnknown.
#[export] Instance Parsed_eq_dec : EqDecision Parsed.
Proof. solve_decision. Defined.

(** The name as it was given, once it is valid. *)
Definition checked_repo (repo : string) : result ApiError string :=
  let? _ := RepositoryName_parse repo in Ok repo.

(** [segments[n - k]] and [segments[..n - k].join("/")] *)
Definition seg (segments : list string) (k : nat) : string :=
  default "" (segments !! (length segments - k)).
Definition front (segments : list string) (k : nat) : string :=
  join "/" (take (length segments - k) segments).

Definition parse_path (rest : string) : result ApiError Parsed :=
  let segments := split "/" rest in
  let n := length segments in
  if bool_decide (n < 2) then Ok PUnknown
  else if bool_decide (3 ≤ n) && bool_decide (seg segments 3 = "blobs")
          && bool_decide (seg segments 2 = "uploads") then
    let? repo := checked_repo (front segments 3) in
    let id := seg segments 1 in
    Ok (if bool_decide (id = "") then PUploadStart repo else PUploadSession repo id)
  else if bool_decide (2 ≤ n) && bool_decide (seg segments 2 = "blobs")
          && bool_decide (seg segments 1 = "uploads") then
    let? repo := checked_repo (front segments 2) in
    Ok (PUploadStart repo)
  else if bool_decide (seg segments 2 = "blobs") then
    let? repo := checked_repo (front segments 2) in
    let? digest := map_err api_of_storage (Digest_parse (seg segments 1)) in
    Ok (PBlob repo digest)
  else if bool_decide (seg segments 2 = "manifests") then
    let? repo := checked_repo (front segments 2) in
    Ok (PManifestRef repo (seg segments 1))
  else if bool_decide (seg segments 2 = "tags") && bool_decide (seg segments 1 = "list") then
    let? repo := checked_repo (front segments 2) in
    Ok (PTagsList repo)
  else if bool_decide (seg segments 2 = "referrers") then
    let? repo := checked_repo (front segments 2) in
    let? digest := map_err api_of_storage (Digest_parse (seg segments 1)) in
    Ok (PReferrers repo digest)
  else Ok PUnknown.

Definition required_action (method : Method) (parsed : Parsed) : option (string * Action) :=
  match method, parsed with
  | (GET | HEAD), (PBlob repo _ | PManifestRef repo _)
  | GET, (PTagsList repo | PReferrers repo _) => Some (repo, Pull)
  | POST, PUploadStart repo
  | (GET | PATCH | PUT), PUploadSession repo _
  | PUT, PManifestRef repo _ => Some (repo, Push)
  | DELETE, (PBlob repo _ | PManifestRef repo _) => Some (repo, Delete)
  | _, _ => None
  end.

Definition get_base : Response :=
  {| resp_status := 200; resp_headers := {["content-type" := "application/json"]}; resp_body := BText "{}" |}.

(** [classify_endpoint]: the label of a path in spans and metrics. *)
Definition classify_endpoint (p : string) : string :=
  if bool_decide (p = "/livez") || bool_decide (p = "/readyz") then "health"
  else if bool_decide (p = "/v2/") || bool_decide (p = "/v2") then "base"
  else match strip_prefix "/v2/" p with
  | None => "other"
  | Some rest =>
      let segs := split "/" rest in
      let n := length segs in
      if bool_decide (3 ≤ n) && bool_decide (seg segs 3 = "blobs") && bool_decide (seg segs 2 = "uploads")
      then "uploads"
      else if bool_decide (2 ≤ n) && bool_decide (seg segs 2 = "blobs") && bool_decide (seg segs 1 = "uploads")
      then "uploads"
      else if bool_decide (2 ≤ n) then
        if bool_decide (seg segs 2 = "blobs") then "blobs"
        else if bool_decide (seg segs 2 = "manifests") then "manifests"
        else if bool_decide (seg segs 2 = "tags") then "tags"
        else if bool_decide (seg segs 2 = "referrers") then "referrers"
        else "other"
      else "other"
  end.

(** ** The paths of the distribution specification *)

(** The end-points with their parameters as the specification names them. *)
Definition path_of (p : Parsed) : string :=
  match p with
  | PBlob repo d => repo +:+ "/blobs/" +:+ Digest_fmt d
  | PManifestRef repo reference => repo +:+ "/manifests/" +:+ reference
  | PUploadStart repo => repo +:+ "/blobs/uploads/"
  | PUploadSession repo id => repo +:+ "/blobs/uploads/" +:+ id
  | PTagsList repo => repo +:+ "/tags/list"
  | PReferrers repo d => repo +:+ "/referrers/" +:+ Digest_fmt d
  | PUnknown => ""
  end.

Definition parsed_ok (p : Parsed) : Prop :=
  match p with
  | PBlob repo d | PReferrers repo d => repository_name repo ∧ digest_wf d
  | PManifestRef repo reference => repository_name repo ∧ contains_char "/" reference = false
  | PUploadSession repo id => repository_name repo ∧ id ≠ "" ∧ contains_char "/" id = false
  | PUploadStart repo | PTagsList repo => repository_name repo
  | PUnknown => True
  end.

(** The repository a path names. *)
Definition path_repo (p : Parsed) : option string :=
  match p with
  | PBlob repo _ | PManifestRef repo _ | PUploadStart repo | PUploadSession repo _
  | PTagsList repo | PReferrers repo _ => Some repo
  | PUnknown => None
  end.

Definition label_of (p : Parsed) : string :=
  match p with
  | PBlob _ _ => "blobs"
  | PManifestRef _ _ => "manifests"
  | PUploadStart _ | PUploadSession _ _ => "uploads"
  | PTagsList _ => "tags"
  | PReferrers _ _ => "referrers"
  | PUnknown => "other"
  end.

(** ** Lemmas *)

Lemma checked_repo_ok repo r : checked_repo repo = Ok r ↔ r = repo ∧ repository_name repo.
Proof.
  unfold checked_repo. rewrite result_bind_ok. split.
  - intros (n & [-> ?]%RepositoryName_parse_ok & [= <-]). done.
  - intros [-> ?]. exists repo. split; [by apply RepositoryName_parse_ok|done].
Qed.

(** Segments are counted from the end. *)
Lemma seg_app l k i : i ≤ length k → seg (l ++ k) i = seg k i.
Proof.
  intros Hi. unfold seg. rewrite length_app.
  destruct i as [|i]; [rewrite !lookup_ge_None_2; [done|lia|rewrite length_app; lia]|].
  rewrite lookup_app_r by lia. do 2 f_equal. lia.
Qed.

Lemma front_app l k n : length k = n → front (l ++ k) n = join "/" l.
Proof. intros <-. unfold front. rewrite length_app. by rewrite Nat.add_sub, take_app_length. Qed.

(** A path that ends in segments without a slash. *)
Lemma split_path repo k :
  k ≠ [] → Forall (λ p, contains_char "/" p = false) k →
  split "/" (repo +:+ "/" +:+ join "/" k) = split "/" repo ++ k.
Proof.
  intros Hne Hk. change ("/" +:+ ?x) with (String "/" x). rewrite split_app_gen. f_equal. by apply split_join.
Qed.

Lemma Digest_fmt_no_slash d : digest_wf d → contains_char "/" (Digest_fmt d) = false.
Proof.
  intros [Ha Hh]. apply contains_char_false. unfold Digest_fmt. rewrite !as_bytes_app, !elem_of_app.
  intros [Hb|[Hb|Hb]].
  - apply algorithm_len_Some in Ha as [[E _]|[E _]]; rewrite E in Hb; simpl in Hb; set_solver.
  - simpl in Hb. set_solver.
  - eapply lower_hex_no_byte; [exact Hh| |exact Hb]. reflexivity.
Qed.

Lemma Digest_fmt_not d s : digest_wf d → contains_char ":" s = false → Digest_fmt d ≠ s.
Proof.
  intros _ Hs <-. apply contains_char_false in Hs. apply Hs. unfold Digest_fmt.
  rewrite !as_bytes_app, !elem_of_app. right. left. simpl. set_solver.
Qed.

(** [parse_path] on a repository and two more segments. *)
Lemma parse_path_two repo verb last rest :
  split "/" rest = split "/" repo ++ [verb; last] →
  repository_name repo → verb ≠ "uploads" →
  parse_path rest =
    if bool_decide (verb = "blobs") && bool_decide (last = "uploads") then Ok (PUploadStart repo)
    else if bool_decide (verb = "blobs") then
      let? digest := map_err api_of_storage (Digest_parse last) in Ok (PBlob repo digest)
    else if bool_decide (verb = "manifests") then Ok (PManifestRef repo last)
    else if bool_decide (verb = "tags") && bool_decide (last = "list") then Ok (PTagsList repo)
    else if bool_decide (verb = "referrers") then
      let? digest := map_err api_of_storage (Digest_parse last) in Ok (PReferrers repo digest)
    else Ok PUnknown.
Proof.
  intros Hs Hr Hv. unfold parse_path. rewrite Hs.
  pose proof (split_nonempty "/" repo) as Hne. set (l := split "/" repo) in *.
  assert (E2 : seg (l ++ [verb; last]) 2 = verb) by (rewrite seg_app; [done|simpl; lia]).
  assert (E1 : seg (l ++ [verb; last]) 1 = last) by (rewrite seg_app; [done|simpl; lia]).
  assert (Ef : checked_repo (front (l ++ [verb; last]) 2) = Ok repo).
  { apply checked_repo_ok. rewrite front_app by done. unfold l. rewrite join_split. done. }
  assert (Hn : length (l ++ [verb; last]) = S (S (length l))) by (rewrite length_app; simpl; lia).
  rewrite Hn, E1, E2, Ef. cbn [result_bind].
  rewrite (bool_decide_eq_false_2 (S (S (length l)) < 2)) by lia.
  rewrite (bool_decide_eq_false_2 (verb = "uploads")) by done. rewrite andb_false_r.
  rewrite (bool_decide_eq_true_2 (2 ≤ S (S (length l)))) by lia. done.
Qed.

(** [parse_path] on a repository and an upload path. *)
Lemma parse_path_upload repo id rest :
  split "/" rest = split "/" repo ++ ["blobs"; "uploads"; id] → repository_name repo →
  parse_path rest = Ok (if bool_decide (id = "") then PUploadStart repo else PUploadSession repo id).
Proof.
  intros Hs Hr. unfold parse_path. rewrite Hs. set (l := split "/" repo) in *.
  rewrite !(seg_app l ["blobs"; "uploads"; id]) by (simpl; lia). rewrite front_app by done.
  unfold l. rewrite join_split.
  assert (Ef : checked_repo repo = Ok repo) by by apply checked_repo_ok.
  rewrite Ef. rewrite length_app. cbn [length].
  rewrite bool_decide_eq_false_2 by lia. rewrite (bool_decide_eq_true_2 (3 ≤ _)) by lia. done.
Qed.

(** What [parse_path] accepts: its segments, and that its parts are valid. *)
Lemma seg_last2 segments :
  2 ≤ length segments → ∃ l, segments = l ++ [seg segments 2; seg segments 1].
Proof.
  intros Hn. destruct segments as [|x1 s1] using rev_ind; [simpl in Hn; lia|].
  destruct s1 as [|x2 s2] using rev_ind; [simpl in Hn; lia|]. clear.
  exists s2. rewrite <-app_assoc. cbn [app]. rewrite !seg_app by (simpl; lia). done.
Qed.

Lemma seg_last3 segments :
  3 ≤ length segments → ∃ l, segments = l ++ [seg segments 3; seg segments 2; seg segments 1].
Proof.
  intros Hn. destruct segments as [|x1 s1] using rev_ind; [simpl in Hn; lia|].
  destruct s1 as [|x2 s2] using rev_ind; [simpl in Hn; lia|].
  destruct s2 as [|x3 s3] using rev_ind; [simpl in Hn; lia|]. clear.
  exists s3. rewrite <-!app_assoc. cbn [app]. rewrite !seg_app by (simpl; lia). done.
Qed.

Lemma seg_no_slash rest k : contains_char "/" (seg (split "/" rest) k) = false.
Proof.
  unfold seg. destruct (split "/" rest !! _) as [p|] eqn:E; [|done]. simpl.
  pose proof (split_pieces "/" rest) as H. rewrite Forall_lookup in H. eauto.
Qed.

Lemma parse_path_ok rest p : parse_path rest = Ok p → parsed_ok p.
Proof.
  unfold parse_path. set (segments := split "/" rest).
  assert (Hseg : ∀ k, contains_char "/" (seg segments k) = false) by (intros k; apply seg_no_slash).
  repeat case_match; intros; case_res;
    repeat match goal with H : checked_repo _ = Ok _ |- _ => apply checked_repo_ok in H as [-> ?] end;
    try by (case_bool_decide; simpl; auto).
  all: simpl; split; [done|eauto using Digest_parse_wf].
Qed.

Lemma join_pieces l k :
  k ≠ [] → join "/" l ≠ "" → join "/" (l ++ k) = join "/" l +:+ "/" +:+ join "/" k.
Proof. intros Hk Hl. apply join_app; [|done]. by intros ->. Qed.

Lemma repository_name_nonempty repo : repository_name repo → repo ≠ "".
Proof. intros [[H _] _] ->. unfold slen in H. simpl in H. lia. Qed.

Lemma rest_two rest :
  2 ≤ length (split "/" rest) → repository_name (front (split "/" rest) 2) →
  rest = front (split "/" rest) 2 +:+ "/" +:+ seg (split "/" rest) 2 +:+ "/" +:+ seg (split "/" rest) 1.
Proof.
  intros Hn Hr. destruct (seg_last2 _ Hn) as [l Hl]. rewrite <-(join_split "/" rest) at 1.
  revert Hr. rewrite Hl at 1 2 3. set (a := seg _ 2). set (b := seg _ 1). rewrite front_app by done. intros Hr.
  rewrite join_pieces; [|done|by apply repository_name_nonempty]. done.
Qed.

Lemma rest_three rest :
  3 ≤ length (split "/" rest) → repository_name (front (split "/" rest) 3) →
  rest = front (split "/" rest) 3 +:+ "/" +:+ seg (split "/" rest) 3 +:+ "/" +:+ seg (split "/" rest) 2
         +:+ "/" +:+ seg (split "/" rest) 1.
Proof.
  intros Hn Hr. destruct (seg_last3 _ Hn) as [l Hl]. rewrite <-(join_split "/" rest) at 1.
  revert Hr. rewrite Hl at 1 2 3. set (a := seg _ 3). set (b := seg _ 2). set (c := seg _ 1).
  rewrite front_app by done. intros Hr.
  rewrite join_pieces; [|done|by apply repository_name_nonempty]. done.
Qed.

(** ** The grammar of the end-points

    A digest is written in either letter case, and an upload starts at a path
    with or without the final slash. *)
Definition names (rest : string) (p : Parsed) : Prop :=
  match p with
  | PBlob repo d => ∃ t, Digest_parse t = Ok d ∧ rest = repo +:+ "/blobs/" +:+ t
  | PReferrers repo d => ∃ t, Digest_parse t = Ok d ∧ rest = repo +:+ "/referrers/" +:+ t
  | PUploadStart repo => rest = repo +:+ "/blobs/uploads/" ∨ rest = repo +:+ "/blobs/uploads"
  | PUnknown => False
  | p => rest = path_of p
  end.

Lemma Digest_parse_text t d :
  Digest_parse t = Ok d → contains_char "/" t = false ∧ contains_char ":" t = true.
Proof.
  unfold Digest_parse. intros H. case_res. destruct x as [a h]. case_res. bool_simp.
  match goal with H : split_once _ _ = _ |- _ => apply split_once_Some in H as [-> _] end. split.
  - apply contains_char_false. rewrite as_bytes_app, elem_of_app. intros [Hb|Hb].
    + match goal with H : algorithm_len _ = _ |- _ => apply algorithm_len_Some in H as [[-> _]|[-> _]] end;
        simpl in Hb; set_solver.
    + simpl in Hb. apply elem_of_cons in Hb as [?|Hb]; [done|].
      match goal with H : string_forallb _ _ = true |- _ => rewrite string_forallb_bytes in H;
        apply forallb_Forall_bool, Forall_forall with (x := "/"%char) in H; [done|exact Hb] end.
  - apply contains_char_true. rewrite as_bytes_app. simpl. set_solver.
Qed.

Lemma path_join repo a b : repo +:+ "/" +:+ a +:+ "/" +:+ b = repo +:+ "/" +:+ join "/" [a; b].
Proof. done. Qed.

Lemma names_parse rest p : parsed_ok p → names rest p → parse_path rest = Ok p.
Proof.
  assert (two : ∀ repo a b, contains_char "/" a = false → contains_char "/" b = false →
    split "/" (repo +:+ "/" +:+ join "/" [a; b]) = split "/" repo ++ [a; b]).
  { intros. apply split_path; [done|]. by repeat constructor. }
  destruct p as [repo d|repo r|repo|repo id|repo|repo d|]; simpl; [| | | | | |done].
  - intros [Hr Hd] (t & Ht & ->). pose proof (Digest_parse_text _ _ Ht) as [? Hc].
    rewrite (parse_path_two repo "blobs" t); [|by apply (two repo "blobs" t)|done|done].
    rewrite (bool_decide_eq_false_2 (t = "uploads")) by (by intros ->). simpl. by rewrite Ht.
  - intros [Hr Hs] ->. by rewrite (parse_path_two repo "manifests" r); [|apply (two repo "manifests" r)|..].
  - intros Hr [-> | ->].
    + rewrite (parse_path_upload repo ""); [done| |done].
      apply (split_path repo ["blobs"; "uploads"; ""]); [done|by repeat constructor].
    + by rewrite (parse_path_two repo "blobs" "uploads"); [|apply (two repo "blobs" "uploads")|..].
  - intros (Hr & Hne & Hs) ->. rewrite (parse_path_upload repo id); [by rewrite bool_decide_eq_false_2| |done].
    apply (split_path repo ["blobs"; "uploads"; id]); [done|by repeat constructor].
  - intros Hr ->. by rewrite (parse_path_two repo "tags" "list"); [|apply (two repo "tags" "list")|..].
  - intros [Hr Hd] (t & Ht & ->). pose proof (Digest_parse_text _ _ Ht) as [? Hc].
    rewrite (parse_path_two repo "referrers" t); [|by apply (two repo "referrers" t)|done|done]. simpl. by rewrite Ht.
Qed.

Lemma parse_names rest p : parse_path rest = Ok p → p ≠ PUnknown → names rest p.
Proof.
  unfold parse_path. intros H Hp.
  assert (two := rest_two rest). assert (three := rest_three rest).
  set (segments := split "/" rest) in *.
  repeat case_match; case_res; try done; bool_simp;
    repeat match goal with H : checked_repo _ = Ok _ |- _ => apply checked_repo_ok in H as [-> ?] end.
  all: clearbody segments; cbn [names path_of].
  all: (rewrite three by done) || (rewrite two by (done || lia)).
  all: repeat match goal with H : seg _ _ = _ |- _ => rewrite H; clear H end; eauto.
Qed.

Lemma label_parse rest p : parse_path rest = Ok p → p ≠ PUnknown → classify_endpoint ("/v2/" +:+ rest) = label_of p.
Proof.
  intros H Hp. unfold classify_endpoint.
  destruct rest as [|c rest']; [by compute in H; simplify_eq|]. set (rest := String c rest') in *.
  assert (strip_prefix "/v2/" ("/v2/" +:+ rest) = Some rest) as -> by by apply strip_prefix_Some.
  rewrite !(bool_decide_eq_false_2 (_ = _)) by done. cbn [orb].
  unfold parse_path in H. set (segments := split "/" rest) in *. clearbody segments.
  repeat case_match; case_res; try done; bool_simp; (congruence || lia).
Qed.

(** ** Properties *)

(** C36: the path parser accepts exactly the paths of the specification's
    end-points: a path is read as a blob, a manifest, an upload, a tag list or
    a referrers list of a repository if and only if the repository's name and
    the digest are valid and the path is that end-point's. In particular the
    locations the registry hands out lead back to what they name. *)
Theorem parse_path_spec rest p :
  p ≠ PUnknown → (parse_path rest = Ok p ↔ parsed_ok p ∧ names rest p).
Proof.
  intros Hp. split.
  - intros H. split; [by eapply parse_path_ok|by apply parse_names].
  - intros [Hok Hn]. by apply names_parse.
Qed.

Lemma parse_path_spec_witness :
  parse_path "library/app/blobs/uploads/5b" = Ok (PUploadSession "library/app" "5b") ∧
  repository_name "library/app".
Proof.
  assert (H : parse_path "library/app/blobs/uploads/5b" = Ok (PUploadSession "library/app" "5b")) by (vm_compute; reflexivity).
  split; [exact H|].
  apply (proj1 (parse_path_spec "library/app/blobs/uploads/5b" (PUploadSession "library/app" "5b") ltac:(discriminate))) in H as [[Hr _] _].
  exact Hr.
Defined.

(** The label of a request in spans and metrics is the end-point it is
    dispatched to. *)
Theorem classify_endpoint_agrees rest p :
  parse_path rest = Ok p → p ≠ PUnknown → classify_endpoint ("/v2/" +:+ rest) = label_of p.
Proof. apply label_parse. Qed.
