(* ===== verification/Quota.v ===== *)
(** * Quotas ([roci-storage/src/quota.rs])

    Per-repository and registry-wide byte accounting with caps, and the cap on
    concurrent upload sessions. The tracker is behind a mutex and an atomic:
    every operation is one step on its state. *)

From S2P Require Import Prelude RustStr Json Errors.

(** A cap of [0] means unlimited. *)
Record QuotaLimits := {
  max_repo_bytes : Z;
  max_total_bytes : Z;
  max_upload_sessions : Z;
}.

Record Quota := mkQuota {
  limits : QuotaLimits;
  per_repo : gmap string Z;
  total : Z;
  sessions : Z;
}.

Definition quota_new (l : QuotaLimits) : Quota := mkQuota l ∅ 0 0.

Definition tracks_bytes (q : Quota) : bool :=
  (0 <? max_repo_bytes (limits q))%Z || (0 <? max_total_bytes (limits q))%Z.

Definition repo_bytes (q : Quota) (repo : string) : Z := default 0%Z (per_repo q !! repo).

Definition charge (q : Quota) (repo : string) (sz : Z) : Quota :=
  mkQuota (limits q) (<[repo := saturating_add (repo_bytes q repo) sz]> (per_repo q))
    (saturating_add (total q) sz) (sessions q).

(** The loop over [checks]: the first cap that would be exceeded. *)
Fixpoint quota_checks (sz : Z) (checks : list (QuotaScope * Z * Z)) : result StorageError unit :=
  match checks with
  | [] => Ok tt
  | (scope, limit, used) :: checks =>
      if (0 <? limit)%Z && (limit <? saturating_add used sz)%Z
      then Err (QuotaExceeded scope limit sz)
      else quota_checks sz checks
  end.

Definition quota_admit (q : Quota) (repo : string) (sz : Z) : Quota * result StorageError unit :=
  if negb (tracks_bytes q) then (q, Ok tt) else
  match quota_checks sz
          [(Repository, max_repo_bytes (limits q), repo_bytes q repo);
           (Total, max_total_bytes (limits q), total q)] with
  | Err e => (q, Err e)
  | Ok _ => (charge q repo sz, Ok tt)
  end.

Definition seed (q : Quota) (repo : string) (sz : Z) : Quota :=
  if tracks_bytes q then charge q repo sz else q.

Definition release (q : Quota) (repo : string) (sz : Z) : Quota :=
  if negb (tracks_bytes q) then q else
  match per_repo q !! repo with
  | None => q
  | Some used =>
      let actual := Z.min sz used in
      let used' := saturating_sub used actual in
      mkQuota (limits q)
        (if (used' =? 0)%Z then delete repo (per_repo q) else <[repo := used']> (per_repo q))
        (saturating_sub (total q) actual) (sessions q)
  end.

Definition begin_session (q : Quota) : Quota * result StorageError unit :=
  let limit := max_upload_sessions (limits q) in
  if (limit =? 0)%Z || (sessions q <? limit)%Z
  then (mkQuota (limits q) (per_repo q) (total q) (sessions q + 1), Ok tt)
  else (q, Err (TooManySessions limit)).

(** [fetch_add] wraps. *)
Definition seed_sessions (q : Quota) (n : Z) : Quota :=
  mkQuota (limits q) (per_repo q) (total q) (u64_wrap (sessions q + n)).

Definition end_session (q : Quota) : Quota :=
  if (1 <=? sessions q)%Z then mkQuota (limits q) (per_repo q) (total q) (sessions q - 1) else q.

Definition per_repo_bytes (q : Quota) : list (string * Z) := map_to_list (per_repo q).

(** ** Invariants *)

Definition sum_bytes (m : gmap string Z) : Z := map_fold (λ _ v acc, v + acc)%Z 0%Z m.

(** The total is the sum of the repositories, and nothing is negative or out
    of range. *)
Definition accounted (q : Quota) : Prop :=
  total q = sum_bytes (per_repo q) ∧ (total q ≤ u64_max)%Z ∧
  map_Forall (λ _ v, 0 ≤ v)%Z (per_repo q).

(** No cap is exceeded. *)
Definition within_caps (q : Quota) : Prop :=
  ((0 < max_total_bytes (limits q)) → total q ≤ max_total_bytes (limits q))%Z ∧
  ((0 < max_repo_bytes (limits q)) → ∀ r, repo_bytes q r ≤ max_repo_bytes (limits q))%Z.

(** One operation on the tracker, by any of the threads that share it. *)
Inductive quota_op :=
  | OpAdmit (repo : string) (sz : Z)
  | OpSeed (repo : string) (sz : Z)
  | OpRelease (repo : string) (sz : Z)
  | OpBegin
  | OpEnd.

Definition quota_apply (q : Quota) (o : quota_op) : Quota :=
  match o with
  | OpAdmit r n => (quota_admit q r n).1
  | OpSeed r n => seed q r n
  | OpRelease r n => release q r n
  | OpBegin => (begin_session q).1
  | OpEnd => end_session q
  end.

(** ** Lemmas *)

Lemma sum_bytes_insert m r v :
  sum_bytes (<[r := v]> m) = (v + sum_bytes (delete r m))%Z.
Proof.
  rewrite <-(insert_delete_eq m r v). unfold sum_bytes.
  apply map_fold_insert_L; [lia|apply lookup_delete_eq].
Qed.

Lemma sum_bytes_lookup m r : sum_bytes m = (default 0 (m !! r) + sum_bytes (delete r m))%Z.
Proof.
  destruct (m !! r) as [v|] eqn:E; simpl.
  - rewrite <-(insert_id m r v) at 1 by done. apply sum_bytes_insert.
  - by rewrite delete_id.
Qed.

Lemma sum_bytes_nonneg m : map_Forall (λ _ v, 0 ≤ v)%Z m → (0 ≤ sum_bytes m)%Z.
Proof.
  unfold sum_bytes. induction m as [|r v m Hr Hfold IH] using map_first_key_ind.
  - intros _. by rewrite map_fold_empty.
  - intros Hm. apply map_Forall_insert in Hm as [Hv Hm]; [|done].
    rewrite map_fold_insert_L by (done || lia). specialize (IH Hm). lia.
Qed.

Lemma sum_bytes_delete_nonneg m r : map_Forall (λ _ v, 0 ≤ v)%Z m → (0 ≤ sum_bytes (delete r m))%Z.
Proof. intros H. apply sum_bytes_nonneg. by apply map_Forall_delete. Qed.

Lemma quota_checks_ok sz checks :
  quota_checks sz checks = Ok tt ↔
  Forall (λ '(_, limit, used), (0 < limit)%Z → (saturating_add used sz ≤ limit)%Z) checks.
Proof.
  induction checks as [|[[scope limit] used] checks IH]; [done|].
  cbn [quota_checks]. rewrite Forall_cons, <-IH.
  destruct (Z.ltb_spec 0 limit), (Z.ltb_spec limit (saturating_add used sz)); simpl; split; try naive_solver lia.
Qed.

Lemma repo_bytes_nonneg q r : accounted q → (0 ≤ repo_bytes q r)%Z.
Proof.
  intros (_&_&Hnn). unfold repo_bytes. destruct (per_repo q !! r) as [v|] eqn:E; simpl; [|lia].
  exact (Hnn _ _ E).
Qed.

Lemma repo_bytes_le_total q r : accounted q → (repo_bytes q r ≤ total q)%Z.
Proof.
  intros (Ht&_&Hnn). rewrite Ht, (sum_bytes_lookup _ r). unfold repo_bytes.
  pose proof (sum_bytes_delete_nonneg _ r Hnn). lia.
Qed.

Lemma charge_accounted q r sz :
  accounted q → (0 ≤ sz)%Z → (total q + sz ≤ u64_max)%Z → accounted (charge q r sz).
Proof.
  intros Hq Hsz Hfit. pose proof (repo_bytes_nonneg q r Hq). pose proof (repo_bytes_le_total q r Hq).
  destruct Hq as (Ht&Hmax&Hnn). unfold charge, accounted; simpl.
  rewrite !saturating_add_exact by lia. split_and!; [|lia|].
  - rewrite sum_bytes_insert. rewrite Ht, (sum_bytes_lookup _ r). unfold repo_bytes. lia.
  - apply map_Forall_insert_2; [simpl; lia|done].
Qed.

Lemma release_accounted q r sz : accounted q → (0 ≤ sz)%Z → accounted (release q r sz).
Proof.
  intros Hq Hsz. unfold release. case_match; [done|].
  destruct (per_repo q !! r) as [used|] eqn:Er; [|done].
  pose proof (repo_bytes_nonneg q r Hq) as H1. pose proof (repo_bytes_le_total q r Hq) as H2.
  unfold repo_bytes in H1, H2. rewrite Er in H1, H2. simpl in H1, H2.
  destruct Hq as (Ht&Hmax&Hnn). unfold accounted; simpl. unfold saturating_sub.
  pose proof (sum_bytes_lookup (per_repo q) r) as Hs. rewrite Er in Hs. simpl in Hs.
  split_and!; [|lia|].
  - case_match eqn:Ez; bool_simp; [lia|]. rewrite sum_bytes_insert. lia.
  - case_match; [by apply map_Forall_delete|]. apply map_Forall_insert_2; [simpl; lia|done].
Qed.

Lemma charge_repo_bytes q r sz r' :
  repo_bytes (charge q r sz) r' =
    if decide (r = r') then saturating_add (repo_bytes q r) sz else repo_bytes q r'.
Proof.
  unfold repo_bytes at 1, charge; simpl. case_decide; subst.
  - by rewrite lookup_insert_eq.
  - by rewrite lookup_insert_ne.
Qed.

Lemma admit_within_caps q r sz : within_caps q → within_caps (quota_admit q r sz).1.
Proof.
  intros Hq. unfold quota_admit. case_match; [done|].
  destruct (quota_checks _ _) as [[]|e] eqn:E; [|done]. simpl.
  apply quota_checks_ok in E. rewrite !Forall_cons in E. destruct E as (Hr&Ht&_).
  destruct Hq as [H1 H2]. split; simpl; [done|]. intros Hl r'. rewrite charge_repo_bytes.
  case_decide; [auto|by apply H2].
Qed.

Lemma release_le q r sz r' :
  (0 ≤ sz)%Z → (0 ≤ repo_bytes q r')%Z → (0 ≤ total q)%Z → (0 ≤ repo_bytes q r)%Z →
  (repo_bytes (release q r sz) r' ≤ repo_bytes q r' ∧ total (release q r sz) ≤ total q)%Z.
Proof.
  intros Hsz Hr' Ht Hr. unfold release. case_match; [lia|].
  unfold repo_bytes in Hr. destruct (per_repo q !! r) as [used|] eqn:Er; [|lia]. simpl in Hr.
  split; [|simpl; unfold saturating_sub; lia].
  unfold repo_bytes at 1; simpl. unfold saturating_sub.
  destruct (decide (r = r')) as [->|Hne].
  - unfold repo_bytes. rewrite Er. simpl.
    case_match; [rewrite lookup_delete_eq|rewrite lookup_insert_eq]; simpl; lia.
  - unfold repo_bytes.
    case_match; [rewrite lookup_delete_ne|rewrite lookup_insert_ne]; done || lia.
Qed.

Lemma limits_apply q o : limits (quota_apply q o) = limits q.
Proof.
  destruct o; simpl; unfold quota_admit, seed, release, begin_session, end_session, charge; by repeat case_match.
Qed.

Definition quota_inv (q : Quota) : Prop :=
  accounted q ∧ within_caps q ∧
  (0 ≤ sessions q)%Z ∧
  ((0 < max_upload_sessions (limits q)) → sessions q ≤ max_upload_sessions (limits q))%Z.

(** Operations of a running registry: sizes are not negative, nothing is
    seeded. *)
Definition serving_op (o : quota_op) : Prop :=
  match o with
  | OpAdmit _ n | OpRelease _ n => (0 ≤ n)%Z
  | OpSeed _ _ => False
  | OpBegin | OpEnd => True
  end.

Lemma sessions_bytes_op q o :
  match o with OpAdmit _ _ | OpRelease _ _ | OpSeed _ _ => True | _ => False end →
  sessions (quota_apply q o) = sessions q.
Proof. destruct o; simpl; unfold quota_admit, seed, release, charge; by repeat case_match. Qed.

Lemma admit_accounted q r sz :
  accounted q → (0 ≤ sz)%Z → (0 < max_total_bytes (limits q) < u64_max)%Z →
  accounted (quota_admit q r sz).1.
Proof.
  intros Hq Hsz Hlim. unfold quota_admit. case_match; [done|].
  destruct (quota_checks _ _) as [[]|e] eqn:E; [|done]. simpl.
  apply quota_checks_ok in E. rewrite !Forall_cons in E. destruct E as (_&Ht&_).
  specialize (Ht ltac:(lia)). unfold saturating_add in Ht. apply charge_accounted; [done..|lia].
Qed.

Lemma quota_inv_step q o :
  (0 < max_total_bytes (limits q) < u64_max)%Z → (0 ≤ max_upload_sessions (limits q))%Z →
  serving_op o → quota_inv q → quota_inv (quota_apply q o).
Proof.
  intros Hlim Hses Hop (Hacc&Hcaps&Hs0&Hs). unfold quota_inv. rewrite limits_apply.
  destruct o as [r n|r n|r n| |]; simpl in Hop; [|done|..].
  - rewrite sessions_bytes_op by done. simpl. auto using admit_accounted, admit_within_caps.
  - rewrite sessions_bytes_op by done. simpl. split_and!; [by apply release_accounted| |done..].
    unfold within_caps. pose proof (limits_apply q (OpRelease r n)) as Hl. simpl in Hl. rewrite Hl.
    destruct Hcaps as [H1 H2].
    pose proof (repo_bytes_nonneg q r Hacc). pose proof (repo_bytes_le_total q r Hacc).
    split; [intros Hm; specialize (H1 Hm)|intros Hm r'; specialize (H2 Hm r')].
    + destruct (release_le q r n r); lia.
    + pose proof (repo_bytes_nonneg q r' Hacc). destruct (release_le q r n r'); lia.
  - simpl. unfold begin_session. case_match eqn:E; simpl; [|done]. split_and!; [done..|lia|]. intros Hm.
    apply orb_true_iff in E as [E|E]; bool_simp; lia.
  - simpl. unfold end_session. case_match eqn:E; simpl; [|done]. bool_simp.
    split_and!; [done..|lia|]. intros Hm. specialize (Hs Hm). lia.
Qed.

(** ** Properties *)


(** Admission is all or nothing: when the tracker is on, the bytes are
    reserved exactly when both caps allow them, otherwise nothing changes and
    the error names the first cap exceeded, the repository's before the
    registry's. *)
Theorem admit_spec q repo sz :
  tracks_bytes q = true →
  let fits limit used := limit = 0%Z ∨ (saturating_add used sz ≤ limit)%Z in
  (0 ≤ max_repo_bytes (limits q))%Z → (0 ≤ max_total_bytes (limits q))%Z →
  match (quota_admit q repo sz).2 with
  | Ok _ =>
      fits (max_repo_bytes (limits q)) (repo_bytes q repo) ∧
      fits (max_total_bytes (limits q)) (total q) ∧
      (quota_admit q repo sz).1 = charge q repo sz
  | Err e =>
      (quota_admit q repo sz).1 = q ∧
      (¬ fits (max_repo_bytes (limits q)) (repo_bytes q repo) ∧
         e = QuotaExceeded Repository (max_repo_bytes (limits q)) sz ∨
       fits (max_repo_bytes (limits q)) (repo_bytes q repo) ∧
         ¬ fits (max_total_bytes (limits q)) (total q) ∧
         e = QuotaExceeded Total (max_total_bytes (limits q)) sz)
  end.
Proof.
  intros Ht fits Hr Htot. subst fits. unfold quota_admit. rewrite Ht. cbn [negb quota_checks].
  destruct (Z.ltb_spec 0 (max_repo_bytes (limits q))),
    (Z.ltb_spec (max_repo_bytes (limits q)) (saturating_add (repo_bytes q repo) sz)),
    (Z.ltb_spec 0 (max_total_bytes (limits q))),
    (Z.ltb_spec (max_total_bytes (limits q)) (saturating_add (total q) sz)); simpl;
    repeat split; try lia; (left; split; [lia|done]) || (right; split_and!; [lia..|done]).
Qed.

(** returning the bytes of an admitted blob restores the accounting. *)
Theorem admit_release q repo sz :
  accounted q → tracks_bytes q = true → (0 ≤ sz)%Z → (total q + sz ≤ u64_max)%Z →
  (quota_admit q repo sz).2 = Ok tt →
  let q' := release (quota_admit q repo sz).1 repo sz in
  total q' = total q ∧ ∀ r, repo_bytes q' r = repo_bytes q r.
Proof.
  intros Hq Htr Hsz Hfit Hok. pose proof (repo_bytes_nonneg q repo Hq) as H0.
  pose proof (repo_bytes_le_total q repo Hq) as H1.
  unfold quota_admit in *. rewrite Htr in *. cbn [negb] in *.
  destruct (quota_checks _ _) as [[]|e]; [|done]. cbn [fst].
  unfold release. change (tracks_bytes (charge q repo sz)) with (tracks_bytes q). rewrite Htr.
  cbn [negb per_repo charge]. rewrite lookup_insert_eq. simpl.
  rewrite !saturating_add_exact by lia. unfold saturating_sub. split; [lia|].
  intros r. unfold repo_bytes at 1; simpl.
  replace (Z.max (repo_bytes q repo + sz - Z.min sz (repo_bytes q repo + sz)) 0)
    with (repo_bytes q repo) by lia.
  destruct (decide (repo = r)) as [->|Hne].
  - case_match eqn:E; bool_simp; [rewrite lookup_delete_eq; simpl; lia|].
    by rewrite lookup_insert_eq.
  - case_match; rewrite ?lookup_delete_ne, ?lookup_insert_ne by done; done.
Qed.

Definition limits_ex : QuotaLimits :=
  {| max_repo_bytes := 10; max_total_bytes := 15; max_upload_sessions := 2 |}.


Lemma admit_spec_witness :
  (quota_admit (quota_new limits_ex) "a" 11).1 = quota_new limits_ex ∧
  (quota_admit (quota_new limits_ex) "a" 11).2 = Err (QuotaExceeded Repository 10 11).
Proof.
  pose proof (admit_spec (quota_new limits_ex) "a" 11 eq_refl ltac:(simpl; lia) ltac:(simpl; lia)) as H.
  split; [exact (proj1 H)|reflexivity].
Defined.

Lemma admit_release_witness :
  let q := (quota_admit (quota_new limits_ex) "a" 4).1 in
  total (release (quota_admit q "b" 5).1 "b" 5) = 4%Z.
Proof.
  intros q. refine (proj1 (admit_release q "b" 5 _ eq_refl _ _ eq_refl)).
  - split_and!; [reflexivity|vm_compute; done|].
    apply map_Forall_insert_2; [by vm_compute|apply map_Forall_empty].
  - lia.
  - vm_compute. done.
Defined.
