(* ===== verification/NetAddr.v ===== *)
(** Addresses in text: the parser of [std::net::IpAddr], which addresses are
    internal ([is_internal_host]) and the host of a URL ([url_host]), both of
    roci-config/src/lib.rs. The redirect guard of the S3 backend and the
    validation of its endpoint rest on them. *)

From stdpp Require Import pretty.
From S2P Require Import Prelude RustStr.

(** ** String functions *)

(** [s.ends_with(p)] *)
Definition ends_with (s p : string) : bool :=
  bool_decide (rev (as_bytes p) `prefix_of` rev (as_bytes s)).

(** [s.trim_start_matches(c)], [s.trim_end_matches(c)] *)
Definition trim_start_matches (c : ascii) (s : string) : string :=
  of_bytes (drop_while (λ x, bool_decide (x = c)) (as_bytes s)).
Definition trim_end_matches (c : ascii) (s : string) : string :=
  of_bytes (rev (drop_while (λ x, bool_decide (x = c)) (rev (as_bytes s)))).

(** [s.split_once(sep)] for a string [sep]. *)
Fixpoint split_once_str (sep s : string) : option (string * string) :=
  match strip_prefix sep s with
  | Some rest => Some ("", rest)
  | None =>
      match s with
      | EmptyString => None
      | String x s => '(a, b) ← split_once_str sep s; Some (String x a, b)
      end
  end.

(** [s.rsplit_once(c)]: at the last occurrence. *)
Fixpoint rsplit_once (c : ascii) (s : string) : option (string * string) :=
  match s with
  | EmptyString => None
  | String x s =>
      match rsplit_once c s with
      | Some (a, b) => Some (String x a, b)
      | None => if decide (x = c) then Some ("", s) else None
      end
  end.

(** The text before the first byte of [cs], or all of it: [split(cs).next()]. *)
Fixpoint until (cs : list ascii) (s : string) : string :=
  match s with
  | EmptyString => ""
  | String x s => if decide (x ∈ cs) then "" else String x (until cs s)
  end.

(** ** The parser of [IpAddr] *)

Inductive IpAddr := V4 (octets : list Z) | V6 (segments : list Z).
#[export] Instance IpAddr_eq_dec : EqDecision IpAddr.
Proof. solve_decision. Defined.

(** A reader consumes a prefix of the bytes, or nothing when it fails
    ([read_atomically]). *)
Definition reader (A : Type) : Type := bytes → option (A * bytes).

Definition read_given_char (c : ascii) : reader () := λ l,
  match l with x :: l => if decide (x = c) then Some (tt, l) else None | [] => None end.

Definition read_separator {A} (sep : ascii) (index : nat) (inner : reader A) : reader A := λ l,
  match index with
  | O => inner l
  | S _ => '(_, l) ← read_given_char sep l; inner l
  end.

(** [char::to_digit(radix)] for the radixes 10 and 16. *)
Definition to_digit (radix : Z) (c : ascii) : option Z :=
  let v := if is_ascii_digit c then (u8 c - 48)%Z
           else if is_ascii_lowercase c then (u8 c - 87)%Z
           else if is_ascii_uppercase c then (u8 c - 55)%Z else radix in
  if (v <? radix)%Z then Some v else None.

(** The digits of a number: how many there were and their value, [None] as
    soon as there are more than [max_digits]. *)
Fixpoint read_digits (radix : Z) (max_digits : nat) (count : nat) (acc : Z) (l : bytes) : option (nat * Z * bytes) :=
  match l with
  | [] => Some (count, acc, [])
  | c :: l' =>
      match to_digit radix c with
      | None => Some (count, acc, l)
      | Some d => if decide (max_digits ≤ count) then None else read_digits radix max_digits (S count) (acc * radix + d)%Z l'
      end
  end.

(** [read_number]; [bound] is the first value the type cannot hold. *)
Definition read_number (radix : Z) (max_digits : nat) (allow_zero_prefix : bool) (bound : Z) : reader Z := λ l,
  let has_leading_zero := bool_decide (head l = Some "0"%char) in
  '(count, n, l) ← read_digits radix max_digits 0 0 l;
  if decide (count = 0) then None
  else if negb allow_zero_prefix && has_leading_zero && bool_decide (1 < count) then None
  else if (n <? bound)%Z then Some (n, l) else None.

Definition read_octet (i : nat) : reader Z := read_separator "." i (read_number 10 3 false 256).

Definition read_ipv4_addr : reader (list Z) := λ l,
  '(a, l) ← read_octet 0 l;
  '(b, l) ← read_octet 1 l;
  '(c, l) ← read_octet 2 l;
  '(d, l) ← read_octet 3 l;
  Some ([a; b; c; d], l).

(** [u16::from_be_bytes] *)
Definition be16 (hi lo : Z) : Z := (hi * 256 + lo)%Z.

(** [read_groups] from group [i] on, with [n] groups left of [limit]: the
    groups read, and whether the last two are an embedded IPv4 address. *)
Fixpoint read_groups (limit : nat) (i n : nat) (l : bytes) : list Z * bool * bytes :=
  match n with
  | O => ([], false, l)
  | S n =>
      match (if decide (i + 1 < limit) then read_separator ":" i read_ipv4_addr l else None) with
      | Some ([a; b; c; d], l) => ([be16 a b; be16 c d], true, l)
      | _ =>
          match read_separator ":" i (read_number 16 4 true 65536) l with
          | Some (g, l) => let '(gs, v4, l) := read_groups limit (S i) n l in (g :: gs, v4, l)
          | None => ([], false, l)
          end
      end
  end.

Definition read_ipv6_addr : reader (list Z) := λ l,
  let '(head, head_ipv4, l) := read_groups 8 0 8 l in
  if decide (length head = 8) then Some (head, l)
  else if head_ipv4 : bool then None
  else
    '(_, l) ← read_given_char ":" l;
    '(_, l) ← read_given_char ":" l;
    let limit := 8 - (length head + 1) in
    let '(tail, _, l) := read_groups limit 0 limit l in
    Some (head ++ replicate (8 - length head - length tail) 0%Z ++ tail, l).

Definition read_ip_addr : reader IpAddr := λ l,
  match read_ipv4_addr l with
  | Some (o, l) => Some (V4 o, l)
  | None => '(s, l) ← read_ipv6_addr l; Some (V6 s, l)
  end.

(** [s.parse::<IpAddr>()]: all of the text is read. *)
Definition parse_ip (s : string) : option IpAddr :=
  '(ip, l) ← read_ip_addr (as_bytes s);
  match l with [] => Some ip | _ => None end.

(** ** Internal addresses *)

Definition octet (o : list Z) (i : nat) : Z := nth i o 0%Z.

(** The tests of [Ipv4Addr]. *)
Definition v4_is_loopback (o : list Z) : bool := (octet o 0 =? 127)%Z.
Definition v4_is_private (o : list Z) : bool :=
  (octet o 0 =? 10)%Z
  || ((octet o 0 =? 172) && (16 <=? octet o 1) && (octet o 1 <=? 31))%Z
  || ((octet o 0 =? 192) && (octet o 1 =? 168))%Z.
Definition v4_is_link_local (o : list Z) : bool := ((octet o 0 =? 169) && (octet o 1 =? 254))%Z.
Definition v4_is_unspecified (o : list Z) : bool := bool_decide (o = [0; 0; 0; 0]%Z).
Definition v4_is_broadcast (o : list Z) : bool := bool_decide (o = [255; 255; 255; 255]%Z).

(** [v4] of [is_internal_host] *)
Definition internal_v4 (o : list Z) : bool :=
  v4_is_loopback o
  || v4_is_private o
  || v4_is_link_local o
  || v4_is_unspecified o
  || v4_is_broadcast o
  || (octet o 0 =? 0)%Z
  || ((octet o 0 =? 100) && (Z.land (octet o 1) 192 =? 64))%Z.

(** [Ipv6Addr::to_ipv4_mapped] *)
Definition to_ipv4_mapped (s : list Z) : option (list Z) :=
  match s with
  | [0; 0; 0; 0; 0; 65535; ab; cd]%Z =>
      Some [Z.shiftr ab 8; Z.land ab 255; Z.shiftr cd 8; Z.land cd 255]%Z
  | _ => None
  end.

Definition internal_v6 (s : list Z) : bool :=
  let seg0 := octet s 0 in
  bool_decide (s = [0; 0; 0; 0; 0; 0; 0; 1]%Z)
  || bool_decide (s = [0; 0; 0; 0; 0; 0; 0; 0]%Z)
  || (Z.land seg0 65024 =? 64512)%Z
  || (Z.land seg0 65472 =? 65152)%Z
  || match to_ipv4_mapped s with Some o => internal_v4 o | None => false end.

Definition is_internal_host (host : string) : bool :=
  let h := to_ascii_lowercase (trim_end_matches "]" (trim_start_matches "[" host)) in
  if bool_decide (h = "localhost") || ends_with h ".localhost" then true else
  match parse_ip h with
  | Some (V4 o) => internal_v4 o
  | Some (V6 s) => internal_v6 s
  | None => false
  end.

Definition url_host (url : string) : option string :=
  let rest := match split_once_str "://" url with Some (_, r) => r | None => url end in
  let authority := until ["/"; "?"; "#"]%char rest in
  let authority := match rsplit_once "@" authority with Some (_, a) => a | None => authority end in
  host ←
    (if starts_with authority "[" then
       (a ← split_once "]" authority; Some (a.1 +:+ "]"))
     else Some (until [":"]%char authority));
  if decide (host = "") then None else Some host.

(** ** The dotted form *)

Definition octets (o : list Z) : Prop := length o = 4 ∧ Forall (λ n, (0 ≤ n < 256)%Z) o.

Definition dotted (o : list Z) : string := join "." (u64_to_string <$> o).

Definition no_digit (radix : Z) (l : bytes) : Prop := head l ≫= to_digit radix = None.

Definition digits_value (radix acc : Z) (ds : bytes) : Z :=
  foldl (λ acc c, acc * radix + default 0 (to_digit radix c))%Z acc ds.

Lemma read_digits_sound radix max count acc l k n r :
  read_digits radix max count acc l = Some (k, n, r) →
  ∃ ds, l = ds ++ r ∧ k = count + length ds ∧ (count ≤ max → k ≤ max) ∧
    Forall (λ c, is_Some (to_digit radix c)) ds ∧ n = digits_value radix acc ds ∧ no_digit radix r.
Proof.
  revert count acc. induction l as [|c l IH]; intros count acc; simpl.
  { intros [= <- <- <-]. exists []. split_and!; [done|simpl; lia|done|constructor|done|done]. }
  destruct (to_digit radix c) as [d|] eqn:Ed.
  - case_decide as Hm; [done|]. intros (ds & -> & -> & Hk & Hds & -> & Hr)%IH. exists (c :: ds).
    split_and!; [done|simpl; lia|intros; apply Hk; lia|by constructor|by simpl; rewrite Ed|done].
  - intros [= <- <- <-]. exists []. split_and!; [done|simpl; lia|done|constructor|done|done].
Qed.

Lemma read_digits_complete radix max count acc ds r :
  Forall (λ c, is_Some (to_digit radix c)) ds → no_digit radix r → count + length ds ≤ max →
  read_digits radix max count acc (ds ++ r) = Some (count + length ds, digits_value radix acc ds, r).
Proof.
  intros Hds Hr. revert count acc. induction Hds as [|c ds [d Hd] Hds IH]; intros count acc Hm; simpl in *.
  { rewrite Nat.add_0_r. destruct r as [|c r]; simpl; [done|]. unfold no_digit in Hr. simpl in Hr. by rewrite Hr. }
  rewrite Hd. rewrite decide_False by lia. rewrite IH by lia. simpl. by rewrite Nat.add_succ_r.
Qed.

(** *** One octet, by enumeration *)

Definition ten : list ascii := ["0"; "1"; "2"; "3"; "4"; "5"; "6"; "7"; "8"; "9"]%char.

Lemma to_digit_ten c d : to_digit 10 c = Some d → c ∈ ten.
Proof. destruct c as [[] [] [] [] [] [] [] []]; vm_compute; intros [=]; set_solver. Qed.

Definition octet_text (ds : bytes) : bool :=
  let n := digits_value 10 0 ds in
  bool_decide (0 ≤ n)%Z &&
  (negb (n <? 256)%Z || (bool_decide (head ds = Some "0"%char) && bool_decide (1 < length ds))
   || bool_decide (ds = as_bytes (u64_to_string n))).

Definition short_digits : list bytes :=
  (a ← ten; [[a]]) ++ (a ← ten; b ← ten; [[a; b]]) ++ (a ← ten; b ← ten; c ← ten; [[a; b; c]]).

Lemma octet_text_short : forallb octet_text short_digits = true.
Proof. by vm_compute. Qed.

Lemma short_digits_elem ds :
  Forall (λ c, is_Some (to_digit 10 c)) ds → 0 < length ds ≤ 3 → ds ∈ short_digits.
Proof.
  intros Hds Hl. assert (Ht : Forall (λ c, c ∈ ten) ds).
  { eapply Forall_impl; [exact Hds|]. intros c [d Hd]. by eapply to_digit_ten. }
  unfold short_digits. rewrite !elem_of_app.
  destruct ds as [|a [|b [|c [|? ?]]]]; simpl in Hl; try lia; repeat (rewrite Forall_cons in Ht; destruct Ht as [? Ht]).
  - left. apply list_elem_of_bind. exists a. by split; [apply list_elem_of_singleton|].
  - right; left. apply list_elem_of_bind. exists a. split; [|done]. apply list_elem_of_bind. exists b.
    by split; [apply list_elem_of_singleton|].
  - right; right. apply list_elem_of_bind. exists a. split; [|done]. apply list_elem_of_bind. exists b. split; [|done].
    apply list_elem_of_bind. exists c. by split; [apply list_elem_of_singleton|].
Qed.

Definition octet_digits (n : nat) : bool :=
  let ds := as_bytes (u64_to_string (Z.of_nat n)) in
  forallb (λ c, bool_decide (c ∈ ten)) ds && bool_decide (0 < length ds ≤ 3)
  && (digits_value 10 0 ds =? Z.of_nat n)%Z && (bool_decide (head ds ≠ Some "0"%char) || bool_decide (length ds = 1)).

Lemma octet_digits_all : forallb octet_digits (seq 0 256) = true.
Proof. by vm_compute. Qed.

Lemma ten_to_digit c : c ∈ ten → is_Some (to_digit 10 c).
Proof.
  intros Hc. assert (Ht : forallb (λ c, bool_decide (is_Some (to_digit 10 c))) ten = true) by done.
  rewrite forallb_Forall_bool, Forall_forall in Ht. by apply Ht, bool_decide_eq_true in Hc.
Qed.

Lemma octet_digits_spec n :
  (0 ≤ n < 256)%Z →
  let ds := as_bytes (u64_to_string n) in
  Forall (λ c, is_Some (to_digit 10 c)) ds ∧ 0 < length ds ≤ 3 ∧ digits_value 10 0 ds = n ∧
  (head ds ≠ Some "0"%char ∨ length ds = 1).
Proof.
  intros Hn ds. pose proof octet_digits_all as H. rewrite forallb_Forall_bool, Forall_forall in H.
  specialize (H (Z.to_nat n)). rewrite elem_of_seq in H. specialize (H ltac:(lia)). unfold octet_digits in H.
  rewrite Z2Nat.id in H by lia. fold ds in H. rewrite !andb_true_iff, orb_true_iff, !bool_decide_eq_true, Z.eqb_eq in H.
  destruct H as [[[H1 H2] H3] H4]. rewrite forallb_Forall_bool in H1. split_and!; [|lia|lia|done|done].
  eapply Forall_impl; [exact H1|]. intros c Hc%bool_decide_eq_true. by apply ten_to_digit.
Qed.

Lemma read_octet_number l n r :
  read_number 10 3 false 256 l = Some (n, r) ↔
  l = as_bytes (u64_to_string n) ++ r ∧ (0 ≤ n < 256)%Z ∧ no_digit 10 r.
Proof.
  unfold read_number. split.
  - destruct (read_digits 10 3 0 0 l) as [[[k v] r']|] eqn:E; simpl; [|done].
    apply read_digits_sound in E as (ds & -> & -> & Hk & Hds & -> & Hr). specialize (Hk ltac:(lia)).
    rewrite !Nat.add_0_l in *. case_decide as H0; [done|].
    destruct (_ && _) eqn:Ez; [done|]. destruct (_ <? _)%Z eqn:Eb; [|done]. intros [= <- <-].
    pose proof octet_text_short as Ht. rewrite forallb_Forall_bool, Forall_forall in Ht.
    specialize (Ht ds (short_digits_elem ds Hds ltac:(lia))). unfold octet_text in Ht.
    rewrite Eb in Ht. replace (head (ds ++ r')) with (head ds) in Ez by (by destruct ds). rewrite Ez in Ht. simpl in Ht.
    rewrite andb_true_iff, !bool_decide_eq_true in Ht. destruct Ht as [Ht1 Ht2]. split_and!; [by rewrite <-Ht2|lia|lia|done].
  - intros (-> & Hn & Hr). destruct (octet_digits_spec n Hn) as (Hds & Hl & Hv & Hz).
    rewrite read_digits_complete by (simpl; done || lia). simpl.
    rewrite decide_False by lia. rewrite Hv.
    replace (head (as_bytes (u64_to_string n) ++ r)) with (head (as_bytes (u64_to_string n)))
      by (by destruct (as_bytes (u64_to_string n)) eqn:?; simpl in *; [lia|]).
    rewrite (proj2 (Z.ltb_lt n 256)) by lia.
    destruct Hz as [Hz|Hz]; [by rewrite (bool_decide_eq_false_2 _ Hz)|rewrite Hz]. by rewrite andb_false_r.
Qed.

(** *** The address *)

Lemma no_digit_dot r : no_digit 10 ("."%char :: r).
Proof. done. Qed.

Lemma read_octet_first l n r :
  read_octet 0 l = Some (n, r) ↔ l = as_bytes (u64_to_string n) ++ r ∧ (0 ≤ n < 256)%Z ∧ no_digit 10 r.
Proof. apply read_octet_number. Qed.

Lemma read_octet_next i l n r :
  read_octet (S i) l = Some (n, r) ↔
  l = "."%char :: as_bytes (u64_to_string n) ++ r ∧ (0 ≤ n < 256)%Z ∧ no_digit 10 r.
Proof.
  unfold read_octet, read_separator, read_given_char. destruct l as [|c l]; simpl; [naive_solver|].
  case_decide as Hc; simpl; [subst c; rewrite read_octet_number|]; naive_solver.
Qed.

Lemma dotted_bytes a b c d :
  as_bytes (dotted [a; b; c; d]) =
  as_bytes (u64_to_string a) ++ "."%char :: as_bytes (u64_to_string b) ++ "."%char ::
  as_bytes (u64_to_string c) ++ "."%char :: as_bytes (u64_to_string d).
Proof. unfold dotted. simpl. by rewrite !as_bytes_app. Qed.

Lemma octets_four o :
  octets o ↔ ∃ a b c d, o = [a; b; c; d] ∧ (0 ≤ a < 256)%Z ∧ (0 ≤ b < 256)%Z ∧ (0 ≤ c < 256)%Z ∧ (0 ≤ d < 256)%Z.
Proof.
  unfold octets. split.
  - intros [Hl Ho]. destruct o as [|a [|b [|c [|d [|? ?]]]]]; simplify_eq/=.
    rewrite !Forall_cons in Ho. destruct Ho as (?&?&?&?&_). by eexists _, _, _, _.
  - intros (a & b & c & d & -> & ?). rewrite !Forall_cons. naive_solver.
Qed.

Lemma read_ipv4_spec l o r :
  read_ipv4_addr l = Some (o, r) ↔ octets o ∧ l = as_bytes (dotted o) ++ r ∧ no_digit 10 r.
Proof.
  rewrite octets_four. unfold read_ipv4_addr. split.
  - intros H. repeat (apply bind_Some in H as ([? ?] & ? & H)). simplify_eq.
    repeat select (read_octet 0 _ = _) (fun H => apply read_octet_first in H as (-> & ? & ?)).
    repeat select (read_octet (S _) _ = _) (fun H => apply read_octet_next in H as (-> & ? & ?)).
    split_and!; [naive_solver| |done]. by rewrite dotted_bytes, <-!app_assoc, <-!app_comm_cons, <-!app_assoc, <-!app_comm_cons, <-!app_assoc.
  - intros ((a & b & c & d & -> & Ha & Hb & Hc & Hd) & -> & Hr).
    rewrite dotted_bytes, <-!app_assoc, <-!app_comm_cons, <-!app_assoc, <-!app_comm_cons, <-!app_assoc.
    rewrite (proj2 (read_octet_first _ a _)) by (split_and!; [reflexivity|lia|lia|done]). cbn [mbind option_bind].
    rewrite (proj2 (read_octet_next 0 _ b _)) by (split_and!; [reflexivity|lia|lia|done]). cbn [mbind option_bind].
    rewrite (proj2 (read_octet_next 1 _ c _)) by (split_and!; [reflexivity|lia|lia|done]). cbn [mbind option_bind].
    by rewrite (proj2 (read_octet_next 2 _ d _)) by (split_and!; [reflexivity|lia|lia|done]).
Qed.

(** The parser inverts the dotted form and gives no other text an IPv4 meaning
    (no leading zeros, no short or numeric forms). *)
Lemma v4_text s o : parse_ip s = Some (V4 o) ↔ octets o ∧ s = dotted o.
Proof.
  unfold parse_ip, read_ip_addr. split.
  - intros H. apply bind_Some in H as ([ip r] & H & Hr). destruct r; [|done]. simplify_eq.
    destruct (read_ipv4_addr (as_bytes s)) as [[o' r]|] eqn:E.
    + simplify_eq. apply read_ipv4_spec in E as (Ho & Hs & _). split; [done|].
      by rewrite <-(of_as_bytes s), Hs, app_nil_r, of_as_bytes.
    + apply bind_Some in H as ([sg r] & _ & H). simplify_eq.
  - intros [Ho ->]. by rewrite (proj2 (read_ipv4_spec _ o [])) by (rewrite app_nil_r; split_and!; done).
Qed.

(** *** The internal blocks *)

Definition addr32 (o : list Z) : Z := foldl (λ n b, n * 256 + b)%Z 0%Z o.

(** A block: an address and the length of its prefix. *)
Definition in_block (addr : Z) (block : list Z * Z) : bool :=
  (Z.shiftr addr (32 - block.2) =? Z.shiftr (addr32 block.1) (32 - block.2))%Z.

Definition internal_blocks : list (list Z * Z) :=
  [([0; 0; 0; 0], 8); ([10; 0; 0; 0], 8); ([127; 0; 0; 0], 8); ([100; 64; 0; 0], 10);
   ([169; 254; 0; 0], 16); ([172; 16; 0; 0], 12); ([192; 168; 0; 0], 16); ([255; 255; 255; 255], 32)]%Z.

Lemma land_192 b : (0 ≤ b < 256)%Z → (Z.land b 192 =? 64)%Z = (64 <=? b)%Z && (b <=? 127)%Z.
Proof.
  intros Hb. assert (H : forallb (λ n, Bool.eqb (Z.land (Z.of_nat n) 192 =? 64)%Z
    ((64 <=? Z.of_nat n) && (Z.of_nat n <=? 127))%Z) (seq 0 256) = true) by by vm_compute.
  rewrite forallb_Forall_bool, Forall_forall in H. specialize (H (Z.to_nat b)). rewrite elem_of_seq in H.
  specialize (H ltac:(lia)). rewrite Z2Nat.id in H by lia. by apply eqb_prop in H.
Qed.

Lemma addr32_shift a b c d :
  (0 ≤ b < 256)%Z → (0 ≤ c < 256)%Z → (0 ≤ d < 256)%Z →
  let n := addr32 [a; b; c; d] in
  Z.shiftr n 24 = a ∧ Z.shiftr n 16 = (a * 256 + b)%Z ∧ Z.shiftr n 20 = (a * 16 + b / 16)%Z ∧
  Z.shiftr n 22 = (a * 4 + b / 64)%Z ∧ Z.shiftr n 0 = n ∧ n = (((a * 256 + b) * 256 + c) * 256 + d)%Z.
Proof.
  intros Hb Hc Hd n. assert (Hn : n = (((a * 256 + b) * 256 + c) * 256 + d)%Z) by done. clearbody n.
  rewrite !Z.shiftr_div_pow2 by lia. split_and!; [..|done].
  all: match goal with |- context [(2 ^ ?k)%Z] => let v := eval vm_compute in (2 ^ k)%Z in change (2 ^ k)%Z with v end;
    Z.to_euclidean_division_equations; lia.
Qed.

(** The prefixes as conditions on the octets. *)
Lemma prefix_values a b c d :
  (0 ≤ a < 256 → 0 ≤ b < 256 → 0 ≤ c < 256 → 0 ≤ d < 256 →
   (a * 4 + b / 64 = 401 ↔ a = 100 ∧ 64 ≤ b ∧ b ≤ 127) ∧
   (a * 16 + b / 16 = 2753 ↔ a = 172 ∧ 16 ≤ b ∧ b ≤ 31) ∧
   (a * 256 + b = 43518 ↔ a = 169 ∧ b = 254) ∧ (a * 256 + b = 49320 ↔ a = 192 ∧ b = 168) ∧
   (((a * 256 + b) * 256 + c) * 256 + d = 4294967295 ↔ a = 255 ∧ b = 255 ∧ c = 255 ∧ d = 255))%Z.
Proof.
  intros Ha Hb Hc Hd. split_and!; [Z.to_euclidean_division_equations; lia..| | |].
  - split; lia.
  - split; lia.
  - split; [|intros (-> & -> & -> & ->); done]. intros H. assert (a = 255)%Z by lia. assert (b = 255)%Z by lia.
    split_and!; lia.
Qed.

Lemma internal_v4_blocks o : octets o → internal_v4 o = existsb (in_block (addr32 o)) internal_blocks.
Proof.
  intros (a & b & c & d & -> & Ha & Hb & Hc & Hd)%octets_four.
  unfold internal_v4, v4_is_loopback, v4_is_private, v4_is_link_local, v4_is_unspecified, v4_is_broadcast.
  unfold octet. cbn [nth]. rewrite land_192 by done. apply eq_iff_eq_true.
  destruct (addr32_shift a b c d) as (S24 & S16 & S20 & S22 & S0 & Hn); [done..|].
  cbn [existsb internal_blocks]. unfold in_block. cbn [fst snd].
  change (32 - 8)%Z with 24%Z. change (32 - 10)%Z with 22%Z. change (32 - 16)%Z with 16%Z.
  change (32 - 12)%Z with 20%Z. change (32 - 32)%Z with 0%Z. rewrite S24, S22, S16, S20, S0, Hn.
  assert (Hl : ∀ x, [a; b; c; d] = [x; x; x; x] ↔ a = x ∧ b = x ∧ c = x ∧ d = x) by naive_solver.
  rewrite !orb_true_iff, !andb_true_iff, !bool_decide_eq_true, !Z.eqb_eq, !Z.leb_le, !Hl.
  repeat match goal with |- context [Z.shiftr (addr32 ?l) ?k] =>
    let v := eval vm_compute in (Z.shiftr (addr32 l) k) in change (Z.shiftr (addr32 l) k) with v end.
  clear S24 S16 S20 S22 S0 Hn Hl.
  destruct (prefix_values a b c d) as (-> & -> & -> & -> & ->); [done..|].
  assert (Hf : false = true ↔ False) by done. rewrite Hf. tauto.
Qed.

(** *** Text forms of an address *)

Lemma u64_to_string_no n c : is_ascii_digit c = false → c ∉ as_bytes (u64_to_string n).
Proof. intros Hc Hin. apply u64_to_string_digit in Hin. congruence. Qed.

Lemma dotted_byte o c : octets o → c ∈ as_bytes (dotted o) → is_ascii_digit c = true ∨ c = "."%char.
Proof.
  intros (a & b & c' & d & -> & _)%octets_four. rewrite dotted_bytes.
  rewrite !elem_of_app, !elem_of_cons, !elem_of_app, !elem_of_cons, !elem_of_app, !elem_of_cons.
  intros H. destruct_or! H; eauto using u64_to_string_digit.
Qed.

Lemma dotted_head o : octets o → ∃ c l, as_bytes (dotted o) = c :: l ∧ is_ascii_digit c = true.
Proof.
  intros (a & b & c & d & -> & Ha & _)%octets_four. rewrite dotted_bytes.
  destruct (octet_digits_spec a Ha) as (_ & Hl & _). destruct (as_bytes (u64_to_string a)) as [|x l] eqn:E; simpl in Hl; [lia|].
  eexists x, _. split; [done|]. eapply (u64_to_string_digit a). rewrite E. by left.
Qed.

Lemma drop_while_head p l : (∀ x, head l = Some x → p x = false) → drop_while p l = l.
Proof. destruct l as [|x l]; simpl; [done|]. intros H. by rewrite (H x). Qed.

Lemma head_not (P : ascii → bool) (l : bytes) c : (∀ x, P x = true → x = c) → c ∉ l → drop_while P l = l.
Proof.
  intros HP Hc. apply drop_while_head. intros x Hx. destruct (P x) eqn:E; [|done]. apply HP in E as ->.
  destruct Hc. destruct l; simplify_eq/=. by left.
Qed.

Lemma eq_char (c x : ascii) : bool_decide (x = c) = true → x = c.
Proof. by intros ?%bool_decide_eq_true. Qed.

(** Trimming the brackets of a text that has none inside. *)
Lemma trim_brackets s :
  "["%char ∉ as_bytes s → "]"%char ∉ as_bytes s →
  trim_end_matches "]" (trim_start_matches "[" s) = s ∧
  trim_end_matches "]" (trim_start_matches "[" ("[" +:+ s +:+ "]")) = s.
Proof.
  intros H1 H2. unfold trim_end_matches, trim_start_matches.
  assert (Hr : drop_while (λ x, bool_decide (x = "]"%char)) (rev (as_bytes s)) = rev (as_bytes s)).
  { apply (head_not _ _ "]"%char); [apply eq_char|]. by rewrite list_elem_of_In, <-in_rev, <-list_elem_of_In. }
  split.
  - rewrite (head_not _ (as_bytes s) "["%char); [|apply eq_char|done]. by rewrite as_of_bytes, Hr, rev_involutive, of_as_bytes.
  - rewrite !as_bytes_app. simpl. rewrite (head_not _ (as_bytes s ++ _) "["%char); [|apply eq_char|set_solver].
    by rewrite as_of_bytes, rev_app_distr; simpl; rewrite Hr, rev_involutive, of_as_bytes.
Qed.

Lemma lowercase_id s : (∀ c, c ∈ as_bytes s → is_ascii_uppercase c = false) → to_ascii_lowercase s = s.
Proof.
  unfold as_bytes. induction s as [|c s IH]; simpl; [done|]. intros H. unfold lower_byte.
  rewrite (H c) by by left. f_equal. apply IH. intros x Hx. apply H. by right.
Qed.

(** A text that ends in a digit is no local name. *)
Lemma not_localhost s c :
  last (as_bytes s) = Some c → c ≠ "t"%char → bool_decide (s = "localhost") || ends_with s ".localhost" = false.
Proof.
  intros Hl Hc. apply orb_false_iff. split.
  - apply bool_decide_eq_false_2. intros ->. simplify_eq/=.
  - unfold ends_with. apply bool_decide_eq_false_2. intros [k Hk]. apply (f_equal (λ l, head l)) in Hk. simpl in Hk.
    rewrite rev_alt in Hk. fold (reverse (as_bytes s)) in Hk. rewrite head_reverse in Hk. congruence.
Qed.

Lemma dotted_last o : octets o → ∃ c, last (as_bytes (dotted o)) = Some c ∧ is_ascii_digit c = true.
Proof.
  intros (a & b & c & d & -> & _ & _ & _ & Hd)%octets_four. rewrite dotted_bytes.
  destruct (octet_digits_spec d Hd) as (_ & Hl & _).
  destruct (last (as_bytes (u64_to_string d))) as [x|] eqn:E; [|apply last_None in E; rewrite E in Hl; simpl in Hl; lia].
  exists x. split.
  - rewrite !last_app, !last_cons, !last_app, !last_cons, !last_app, !last_cons, E. done.
  - eapply (u64_to_string_digit d). by apply last_Some_elem_of.
Qed.

(** The host of a plain text without capitals or brackets that ends in a digit. *)
Lemma internal_parsed s :
  (∀ c, c ∈ as_bytes s → is_ascii_digit c = true ∨ c ∈ ["."; ":"; "f"]%char) →
  (∃ c, last (as_bytes s) = Some c ∧ is_ascii_digit c = true) →
  let verdict := match parse_ip s with
                 | Some (V4 o) => internal_v4 o | Some (V6 g) => internal_v6 g | None => false
                 end in
  is_internal_host s = verdict ∧ is_internal_host ("[" +:+ s +:+ "]") = verdict.
Proof.
  intros Hs (c & Hl & Hc) verdict.
  assert (Hb : ∀ x, x ∈ as_bytes s → is_ascii_uppercase x = false ∧ x ≠ "["%char ∧ x ≠ "]"%char).
  { intros x Hx. destruct (Hs x Hx) as [Hd|Hd].
    - destruct x as [[] [] [] [] [] [] [] []]; by vm_compute in Hd.
    - apply elem_of_cons in Hd as [->|[->|[->|Hd%elem_of_nil]%elem_of_cons]%elem_of_cons]; done. }
  destruct (trim_brackets s) as [T1 T2]; [naive_solver..|]. unfold is_internal_host. rewrite T1, T2.
  rewrite lowercase_id by naive_solver.
  rewrite (not_localhost s c); [done|done|]. intros ->. by vm_compute in Hc.
Qed.

(** The last two groups as an embedded IPv4 address. *)
Lemma read_groups_embedded limit i n l a b c d r :
  i + 1 < limit → read_separator ":" i read_ipv4_addr l = Some ([a; b; c; d], r) →
  read_groups limit i (S n) l = ([be16 a b; be16 c d], true, r).
Proof. intros Hi E. cbn [read_groups]. rewrite decide_True by done. by rewrite E. Qed.

Lemma parse_mapped o :
  octets o → ∃ a b c d, o = [a; b; c; d] ∧
  parse_ip ("::ffff:" +:+ dotted o) = Some (V6 [0; 0; 0; 0; 0; 65535; be16 a b; be16 c d])%Z.
Proof.
  intros Ho. pose proof Ho as (a & b & c & d & -> & _)%octets_four. eexists a, b, c, d. split; [done|].
  unfold parse_ip, read_ip_addr. rewrite as_bytes_app. set (l := as_bytes (dotted _)).
  assert (E : read_ipv4_addr l = Some ([a; b; c; d], [])) by (apply read_ipv4_spec; rewrite app_nil_r; done).
  change (as_bytes "::ffff:") with [":"; ":"; "f"; "f"; "f"; "f"; ":"]%char. cbn [app].
  set (k := "f"%char :: "f"%char :: "f"%char :: "f"%char :: ":"%char :: l).
  assert (E1 : read_ipv4_addr (":"%char :: ":"%char :: k) = None) by done.
  assert (E2 : read_groups 8 0 8 (":"%char :: ":"%char :: k) = ([], false, ":"%char :: ":"%char :: k)) by done.
  assert (E3 : read_groups 7 0 7 k = ([65535; be16 a b; be16 c d]%Z, true, [])).
  { transitivity (let '(gs, v4, r) := read_groups 7 1 6 (":"%char :: l) in (65535%Z :: gs, v4, r)); [done|].
    rewrite (read_groups_embedded 7 1 5 _ a b c d []); [done|lia|].
    unfold read_separator, read_given_char. rewrite decide_True by done. exact E. }
  rewrite E1. unfold read_ipv6_addr. rewrite E2. cbn [length]. rewrite decide_False by lia.
  unfold read_given_char. rewrite !decide_True by done. cbn [mbind option_bind length]. rewrite !decide_True by done.
  cbn [mbind option_bind length Nat.sub Nat.add]. rewrite E3. done.
Qed.

Lemma be16_split a b :
  (0 ≤ a < 256 → 0 ≤ b < 256 → Z.shiftr (be16 a b) 8 = a ∧ Z.land (be16 a b) 255 = b)%Z.
Proof.
  intros Ha Hb. unfold be16. rewrite Z.shiftr_div_pow2 by lia. change (2 ^ 8)%Z with 256%Z.
  change 255%Z with (Z.ones 8). rewrite Z.land_ones by lia. change (2 ^ 8)%Z with 256%Z.
  split; [Z.to_euclidean_division_equations; lia|]. rewrite Z.add_comm, Z.mod_add, Z.mod_small; lia.
Qed.

(** C25: a host given as an IPv4 address in dotted form, or as the bracketed or
    bare IPv6 address that maps it, is internal exactly when the address lies in
    one of the loopback, private, link-local, shared, unspecified and broadcast
    blocks: the tests of octets and bits decide membership in the blocks. *)
Theorem internal_host_blocks o :
  octets o →
  let internal := existsb (in_block (addr32 o)) internal_blocks in
  is_internal_host (dotted o) = internal ∧
  is_internal_host ("::ffff:" +:+ dotted o) = internal ∧
  is_internal_host ("[::ffff:" +:+ dotted o +:+ "]") = internal.
Proof.
  intros Ho internal. assert (Hb : ∀ c, c ∈ as_bytes (dotted o) → is_ascii_digit c = true ∨ c ∈ ["."; ":"; "f"]%char).
  { intros c [Hc| ->]%dotted_byte; [by left|right; by left|done]. }
  destruct (internal_parsed (dotted o)) as [-> _]; [done|by apply dotted_last|].
  rewrite (proj2 (v4_text (dotted o) o)) by done.
  destruct (internal_parsed ("::ffff:" +:+ dotted o)) as [-> E2].
  { rewrite as_bytes_app. intros c [Hc|Hc]%elem_of_app; [|by auto]. right. revert c Hc.
    assert (Hf : Forall (λ c, c ∈ ["."; ":"; "f"]%char) (as_bytes "::ffff:")) by (repeat constructor; set_solver).
    by apply Forall_forall. }
  { destruct (dotted_last o Ho) as (c & Hl & Hc). exists c. by rewrite as_bytes_app, last_app, Hl. }
  change ("[::ffff:" +:+ dotted o +:+ "]") with ("[" +:+ ("::ffff:" +:+ dotted o) +:+ "]"). rewrite E2. clear E2 Hb.
  destruct (parse_mapped o Ho) as (a & b & c & d & -> & ->).
  pose proof Ho as (?&?&?&?&[= <- <- <- <-]&?&?&?&?)%octets_four.
  unfold internal_v6. cbn [to_ipv4_mapped]. destruct (be16_split a b) as [-> ->]; [done..|].
  destruct (be16_split c d) as [-> ->]; [done..|]. by rewrite internal_v4_blocks.
Qed.

Lemma internal_host_blocks_witness :
  is_internal_host "10.0.0.1" = true ∧ is_internal_host "[::ffff:10.0.0.1]" = true ∧ is_internal_host "11.0.0.1" = false.
Proof.
  destruct (internal_host_blocks [10; 0; 0; 1]%Z) as (H1 & _ & H2); [by split; [|repeat constructor]|].
  destruct (internal_host_blocks [11; 0; 0; 1]%Z) as (H3 & _ & _); [by split; [|repeat constructor]|].
  split_and!; [exact H1|exact H2|exact H3].
Defined.
