(* ===== verification/Config.v ===== *)
(** The configuration (roci-config/src/lib.rs): its sections with their defaults
    and the validation that runs on every load.

    The file is read by the toml crate ([TomlCrate]); a [BTreeMap] is the list of
    its entries in key order; an [f64] is a binary64 number of the Standard
    Library's [SpecFloat]; what the validation asks the file system is the
    function [is_file]. *)

From Stdlib Require Import SpecFloat.
From S2P Require Import Prelude Float64 RustStr Json Errors Names Policy Quota NetAddr.

(** ** The sections *)

Inductive ClientAuth := NoClientAuth | Optional | Required.
#[export] Instance ClientAuth_eq_dec : EqDecision ClientAuth.
Proof. solve_decision. Defined.

Record TlsConfig := {
  tls_cert : string;
  tls_key : string;
  client_auth : ClientAuth;
  client_ca : option string;
  client_cert_sha256 : list string;
}.

Record TimeoutsConfig := { read_header_secs : Z; idle_secs : Z }.
Definition default_timeouts : TimeoutsConfig := {| read_header_secs := 10; idle_secs := 120 |}.

Record Bucket := { rate : Z; burst : Z }.

Record PerClientConfig := { pc_rate : Z; pc_burst : Z; max_clients : Z }.
Definition default_max_clients : Z := 10000.

Record RateLimitConfig := {
  rl_enabled : bool;
  rl_default : option Bucket;
  per_method : list (string * Bucket);
  per_client : option PerClientConfig;
}.
Definition default_rate_limit : RateLimitConfig :=
  {| rl_enabled := false; rl_default := None; per_method := []; per_client := None |}.

Record HttpConfig := {
  listen : string;
  tls : option TlsConfig;
  timeouts : TimeoutsConfig;
  rate_limit : RateLimitConfig;
}.
Definition default_http : HttpConfig :=
  {| listen := "127.0.0.1:5000"; tls := None; timeouts := default_timeouts; rate_limit := default_rate_limit |}.

Record S3Config := {
  s3_bucket : string;
  s3_region : string;
  s3_endpoint : option string;
  s3_prefix : string;
  access_key_id : option string;
  secret_access_key_file : option string;
  allow_http : bool;
  redirect_min_size : Z;
  redirect_ttl_secs : Z;
  multipart_part_size : Z;
  multipart_concurrency : Z;
  create_bucket : bool;
  s3_ca_file : option string;
}.
Definition default_s3_region : string := "us-east-1".
Definition default_redirect_min_size : Z := 1024 * 1024.
Definition default_redirect_ttl_secs : Z := 60.
Definition default_multipart_part_size : Z := 16 * 1024 * 1024.
Definition default_multipart_concurrency : Z := 8.
Definition S3_MIN_PART_SIZE : Z := 5 * 1024 * 1024.

Record SubpathConfig := { sub_root : string; sub_s3 : option S3Config }.

Record GcConfig := { gcc_enabled : bool; delay_secs : Z; gc_interval_secs : Z }.
Definition default_gc : GcConfig := {| gcc_enabled := true; delay_secs := 3600; gc_interval_secs := 3600 |}.

Inductive ScrubMode := Auto | App.
Record ScrubConfig := {
  scrub_enabled : bool; scrub_interval_secs : Z; max_bytes_per_sec : Z; scrub_mode : ScrubMode;
}.
Definition default_scrub : ScrubConfig :=
  {| scrub_enabled := false; scrub_interval_secs := 24 * 3600; max_bytes_per_sec := 64 * 1024 * 1024; scrub_mode := Auto |}.

Definition default_quota : QuotaLimits :=
  {| max_repo_bytes := 0; max_total_bytes := 0; max_upload_sessions := 1024 |}.

Inductive MetadataEngine := Log | Lmdb | Redb.
#[export] Instance MetadataEngine_eq_dec : EqDecision MetadataEngine.
Proof. solve_decision. Defined.

Record MetadataConfig := {
  engine : MetadataEngine;
  snapshot : bool;
  compact_threshold_bytes : Z;
  hmac_key_file : option string;
  map_size_bytes : Z;
}.
Definition default_metadata : MetadataConfig :=
  {| engine := Log; snapshot := false; compact_threshold_bytes := 64 * 1024 * 1024; hmac_key_file := None;
     map_size_bytes := 68719476736 |}.

Record StorageConfig := {
  root : string;
  cache_max_bytes : Z;
  small_blob_threshold : Z;
  dedupe : bool;
  commit : bool;
  fast_restart : bool;
  s3 : option S3Config;
  subpaths : list (string * SubpathConfig);
  gc : GcConfig;
  scrub : ScrubConfig;
  quota : QuotaLimits;
  metadata : MetadataConfig;
}.
Definition default_storage : StorageConfig :=
  {| root := "./roci-data"; cache_max_bytes := 256 * 1024 * 1024; small_blob_threshold := 100 * 1024; dedupe := true;
     commit := false; fast_restart := false; s3 := None; subpaths := []; gc := default_gc; scrub := default_scrub;
     quota := default_quota; metadata := default_metadata |}.

Record LimitsConfig := { max_body : Z; max_upload : Z; max_manifest : Z; max_page : Z }.
Definition default_limits : LimitsConfig :=
  {| max_body := 256 * 1024 * 1024; max_upload := 5 * 1024 * 1024 * 1024; max_manifest := 4 * 1024 * 1024; max_page := 1000 |}.

Record DeleteConfig := { delete_enabled : bool }.
Definition default_delete : DeleteConfig := {| delete_enabled := true |}.

Inductive LogFormat := Text | JsonLines.
Record LogConfig := { level : string; format : LogFormat }.
Definition default_log : LogConfig := {| level := "info"; format := Text |}.

(** [0.0..=1.0] contains a number. *)
Definition unit_interval_contains (x : f64) : bool := SFleb f64_zero x && SFleb x f64_one.

Inductive OtlpProtocol := Grpc | HttpProto.
Record OtlpConfig := { otlp_endpoint : string; protocol : OtlpProtocol }.
Record MetricsConfig := { metrics_enabled : bool; metrics_path : string }.
Definition default_metrics : MetricsConfig := {| metrics_enabled := false; metrics_path := "/metrics" |}.
Record TelemetryConfig := { otlp : option OtlpConfig; sample_ratio : f64; metrics : MetricsConfig }.
(** [0.01] rounded to the nearest binary64 number. *)
Definition default_telemetry : TelemetryConfig :=
  {| otlp := None; sample_ratio := S754_finite false 5764607523034235 (-59); metrics := default_metrics |}.

Record HtpasswdConfig := { htpasswd_path : string }.
Record LdapConfig := {
  ldap_url : string;
  start_tls : bool;
  bind_dn : string;
  bind_password_file : string;
  base_dn : string;
  user_attribute : string;
  user_filter : option string;
  group_attribute : option string;
  ldap_ca_file : option string;
  timeout_secs : Z;
}.
Record BearerConfig := { bearer_realm : string; bearer_service : string; bearer_issuer : string; verify_key_file : string }.
Record AuthConfig := {
  auth_realm : string;
  htpasswd : option HtpasswdConfig;
  ldap : option LdapConfig;
  bearer : option BearerConfig;
  cache_ttl_secs : Z;
}.
Definition default_auth : AuthConfig :=
  {| auth_realm := "roci"; htpasswd := None; ldap := None; bearer := None; cache_ttl_secs := 60 |}.

Record Config := {
  http : HttpConfig;
  storage : StorageConfig;
  limits : LimitsConfig;
  delete_ : DeleteConfig;
  log : LogConfig;
  telemetry : TelemetryConfig;
  auth : AuthConfig;
  access_control : option AccessControlConfig;
}.
Definition default_config : Config :=
  {| http := default_http; storage := default_storage; limits := default_limits; delete_ := default_delete;
     log := default_log; telemetry := default_telemetry; auth := default_auth; access_control := None |}.

(** ** Errors *)

Inductive ConfigError :=
  | ConfigIo (path : string) (source : io_error)
  | ConfigParse (path source : string)
  | Invalid (field reason : string).

Definition invalid {A} (field reason : string) : result ConfigError A := Err (Invalid field reason).

(** [if c { return Err(invalid(…)) }] *)
Definition refuse (c : bool) (field reason : string) : result ConfigError () :=
  if c then invalid field reason else Ok tt.

(** [for x in l { f(x)?; }] and [if let Some(x) = o { f(x)?; }] *)
Fixpoint each {A} (f : A → result ConfigError ()) (l : list A) : result ConfigError () :=
  match l with
  | [] => Ok tt
  | x :: l => let? _ := f x in each f l
  end.
Definition when_some {A} (o : option A) (f : A → result ConfigError ()) : result ConfigError () :=
  match o with Some x => f x | None => Ok tt end.
(** [for (i, x) in l.iter().enumerate()] *)
Fixpoint each_index {A} (i : nat) (f : nat → A → result ConfigError ()) (l : list A) : result ConfigError () :=
  match l with
  | [] => Ok tt
  | x :: l => let? _ := f i x in each_index (S i) f l
  end.

Definition require_nonzero (fields : list (string * Z)) : result ConfigError () :=
  each (λ p, refuse (p.2 =? 0)%Z p.1 "must be > 0") fields.
Definition require_nonempty (fields : list (string * string)) : result ConfigError () :=
  each (λ p, refuse (bool_decide (trim p.2 = "")) p.1 "must not be empty") fields.

(** ** Checks on texts *)

Definition METHODS : list string := ["GET"; "HEAD"; "POST"; "PUT"; "PATCH"; "DELETE"].

(** The [Debug] form of a list of strings without special characters. *)
Definition quoted (s : string) : string := String "034" (s +:+ String "034" "").
Definition debug_list (l : list string) : string := "[" +:+ join ", " (quoted <$> l) +:+ "]".

(** [s.chars().any(|c| c.is_control())]: the characters U+0000 to U+001F and
    U+007F to U+009F, the latter from U+0080 on as two bytes. *)
Fixpoint any_control (l : bytes) : bool :=
  match l with
  | [] => false
  | b :: l' =>
      (u8 b <? 32)%Z || (u8 b =? 127)%Z
      || (bool_decide (b = "194"%char) && match l' with c :: _ => in_range 128 159 c | [] => false end)
      || any_control l'
  end.

Definition is_quotable (s : string) : bool :=
  negb (bool_decide (s = "")) &&
  negb (existsb (λ b, bool_decide (b = "034"%char) || bool_decide (b = "\"%char)) (as_bytes s) || any_control (as_bytes s)).

Definition quotable_reason : string :=
  "must be non-empty without '" +:+ String "034" "', '\' or control characters".

Definition is_repo_pattern (s : string) : bool :=
  negb (bool_decide (s = "")) && (slen s <=? 255)%Z &&
  forallb (λ c,
    bool_decide (c = "**")
    || (negb (bool_decide (c = ""))
        && match split_once_str "**" c with Some _ => false | None => true end
        && string_forallb (λ b, is_ascii_lowercase b || is_ascii_digit b || bool_decide (b ∈ ["."; "_"; "-"; "*"]%char)) c))
    (split "/" s).

(** [component] of [is_repo_prefix]: the outer loop, one turn per byte or per
    run of separators, with the number of bytes as fuel. *)
Fixpoint span_other (l : bytes) : bytes * bytes :=
  match l with
  | [] => ([], [])
  | b :: l' => if is_lower_alnum b then ([], l) else let '(run, rest) := span_other l' in (b :: run, rest)
  end.

Definition is_sep_run (sep : bytes) : bool :=
  bool_decide (sep = ["."]%char) || bool_decide (sep = ["_"]%char) || bool_decide (sep = ["_"; "_"]%char)
  || forallb (λ x, bool_decide (x = "-"%char)) sep.

Fixpoint prefix_loop (fuel : nat) (l : bytes) : bool :=
  match fuel, l with
  | _, [] => true
  | O, _ => true
  | S fuel, b :: l' =>
      if is_lower_alnum b then prefix_loop fuel l'
      else let '(sep, rest) := span_other l in
           if negb (is_sep_run sep) then false else prefix_loop fuel rest
  end.

Definition prefix_component (c : string) : bool :=
  let b := as_bytes c in
  match head b, last b with
  | Some x, Some y => if negb (is_lower_alnum x) || negb (is_lower_alnum y) then false else prefix_loop (length b) b
  | _, _ => false
  end.

Definition is_repo_prefix (s : string) : bool :=
  (slen s <=? 255)%Z && forallb prefix_component (split "/" s).

(** *** [Path::starts_with] on Unix *)

Inductive Component := RootDir | CurDir | ParentDir | Normal (name : string).
#[export] Instance Component_eq_dec : EqDecision Component.
Proof. solve_decision. Defined.

Definition component_of (c : string) : option Component :=
  if decide (c = "") then None
  else if decide (c = ".") then None
  else if decide (c = "..") then Some ParentDir
  else Some (Normal c).

(** [Path::components]: a leading [.] is a component, other [.] and repeated
    slashes are not. *)
Definition components (p : string) : list Component :=
  let parts := split "/" p in
  match parts with
  | "" :: rest => (if starts_with p "/" then [RootDir] else []) ++ omap component_of rest
  | "." :: rest => CurDir :: omap component_of rest
  | _ => omap component_of parts
  end.

Definition path_starts_with (a b : string) : bool := bool_decide (components b `prefix_of` components a).

(** ** Validation *)

Definition TlsConfig_validate (t : TlsConfig) : result ConfigError () :=
  let? _ := refuse (bool_decide (client_auth t ≠ NoClientAuth) && bool_decide (client_ca t = None))
              "http.tls.client_ca" "required when client_auth is optional or required" in
  let? _ := refuse (bool_decide (client_auth t = NoClientAuth)
                    && (bool_decide (is_Some (client_ca t)) || negb (bool_decide (client_cert_sha256 t = []))))
              "http.tls.client_auth" "must be optional or required when client_ca/client_cert_sha256 is set" in
  each_index 0 (λ i pin,
    refuse (negb (slen pin =? 64)%Z || negb (string_forallb is_ascii_hexdigit pin))
      ("http.tls.client_cert_sha256[" +:+ u64_to_string (Z.of_nat i) +:+ "]")
      "must be 64 hex characters (a SHA-256 fingerprint)") (client_cert_sha256 t).

Definition is_ascii_alphabetic (b : ascii) : bool := is_ascii_lowercase b || is_ascii_uppercase b.
Definition is_ascii_alphanumeric (b : ascii) : bool := is_ascii_alphabetic b || is_ascii_digit b.

Definition LdapConfig_validate (l : LdapConfig) : result ConfigError () :=
  let? _ := refuse (negb (starts_with (ldap_url l) "ldaps://" || starts_with (ldap_url l) "ldap://"))
              "auth.ldap.url" "must be an ldap:// or ldaps:// URL" in
  let? _ := refuse (starts_with (ldap_url l) "ldap://" && negb (start_tls l))
              "auth.ldap.url" "plaintext ldap:// requires start_tls = true" in
  let? _ := require_nonempty [("auth.ldap.bind_dn", bind_dn l); ("auth.ldap.base_dn", base_dn l)] in
  let a := as_bytes (user_attribute l) in
  let? _ := refuse (match a with
                    | [] => true
                    | b :: _ => negb (is_ascii_alphabetic b)
                                || negb (forallb (λ b, is_ascii_alphanumeric b || bool_decide (b = "-"%char)) a)
                    end)
              "auth.ldap.user_attribute" "must match [A-Za-z][A-Za-z0-9-]*" in
  let? _ := when_some (user_filter l) (λ f,
              refuse (negb (starts_with f "(" && ends_with f ")"))
                "auth.ldap.user_filter" "must be a parenthesized LDAP filter") in
  require_nonzero [("auth.ldap.timeout_secs", timeout_secs l)].

Definition AuthConfig_validate (a : AuthConfig) : result ConfigError () :=
  let? _ := refuse (negb (is_quotable (auth_realm a))) "auth.realm" quotable_reason in
  let? _ := refuse (3600 <? cache_ttl_secs a)%Z "auth.cache_ttl_secs" "must be <= 3600" in
  let? _ := when_some (htpasswd a) (λ h,
              refuse (bool_decide (htpasswd_path h = "")) "auth.htpasswd.path" "must not be empty") in
  let? _ := when_some (ldap a) LdapConfig_validate in
  when_some (bearer a) (λ b,
    let? _ := refuse (negb (starts_with (bearer_realm b) "https://" || starts_with (bearer_realm b) "http://"))
                "auth.bearer.realm" "must be an http(s) URL" in
    each (λ p, refuse (negb (is_quotable p.2)) p.1 quotable_reason)
      [("auth.bearer.realm", bearer_realm b); ("auth.bearer.service", bearer_service b);
       ("auth.bearer.issuer", bearer_issuer b)]).

(** The loop over the repositories; [seen] are the patterns before. *)
Fixpoint policies_validate (i : nat) (seen : list string) (rs : list RepositoryPolicy) : result ConfigError () :=
  match rs with
  | [] => Ok tt
  | r :: rs =>
      let field := "access_control.repositories[" +:+ u64_to_string (Z.of_nat i) +:+ "]" in
      let? _ := refuse (negb (is_repo_pattern (pattern r))) (field +:+ ".pattern")
                  "must be `/`-separated components of [a-z0-9._-*], or `**`" in
      let? _ := refuse (bool_decide (pattern r ∈ seen)) (field +:+ ".pattern") "duplicate pattern" in
      let? _ := each_index 0 (λ j p,
                  refuse (bool_decide (ip_actions p = [])
                          || (bool_decide (ip_users p = []) && bool_decide (ip_groups p = [])))
                    (field +:+ ".policies[" +:+ u64_to_string (Z.of_nat j) +:+ "]")
                    "needs non-empty actions and at least one user or group") (rp_policies r) in
      policies_validate (S i) (pattern r :: seen) rs
  end.
Definition AccessControlConfig_validate (ac : AccessControlConfig) : result ConfigError () :=
  policies_validate 0 [] (repositories ac).

Section Validate.
(** [Path::is_file] *)
Variable is_file : string → bool.

Definition endpoint_validate (c : S3Config) (field ep : string) : result ConfigError () :=
  let plaintext := starts_with ep "http://" in
  let? _ := refuse (negb (plaintext || starts_with ep "https://")) (field +:+ ".endpoint") "must be an http(s) URL" in
  let? _ := refuse (plaintext && negb (allow_http c)) (field +:+ ".endpoint")
              "plaintext http:// requires allow_http = true" in
  refuse ((0 <? redirect_min_size c)%Z && match url_host ep with Some h => is_internal_host h | None => false end)
    (field +:+ ".endpoint")
    "redirect target is a loopback/private/link-local host; set redirect_min_size = 0 to proxy blobs".

Definition S3Config_validate (c : S3Config) (field : string) : result ConfigError () :=
  let? _ := require_nonempty [(field +:+ ".bucket", s3_bucket c)] in
  let? _ := refuse (starts_with (s3_prefix c) "/" || ends_with (s3_prefix c) "/") (field +:+ ".prefix")
              "must not start or end with '/'" in
  let? _ := refuse (negb ((1 <=? redirect_ttl_secs c) && (redirect_ttl_secs c <=? 60))%Z)
              (field +:+ ".redirect_ttl_secs") "must be within [1, 60]" in
  let? _ := refuse (multipart_part_size c <? S3_MIN_PART_SIZE)%Z (field +:+ ".multipart_part_size")
              ("must be >= " +:+ u64_to_string S3_MIN_PART_SIZE +:+ " (the S3 minimum part size)") in
  let? _ := require_nonzero [(field +:+ ".multipart_concurrency", multipart_concurrency c)] in
  let? _ := when_some (s3_endpoint c) (endpoint_validate c field) in
  when_some (s3_ca_file c) (λ ca,
    refuse (negb (is_file ca)) (field +:+ ".ca_file") ("file does not exist: " +:+ ca)).

(** The pairs of roots: every one against those after it. *)
Definition disjoint_from (fa a : string) (rest : list (string * string)) : result ConfigError () :=
  each (λ p, refuse (path_starts_with a p.2 || path_starts_with p.2 a) p.1
               ("must not equal or nest with " +:+ fa)) rest.
Fixpoint disjoint_roots (roots : list (string * string)) : result ConfigError () :=
  match roots with
  | [] => Ok tt
  | (fa, a) :: rest => let? _ := disjoint_from fa a rest in disjoint_roots rest
  end.

Definition subpath_field (prefix : string) : string := "storage.subpaths." +:+ prefix.

Definition subpath_validate (p : string * SubpathConfig) : result ConfigError () :=
  let field := subpath_field p.1 in
  let? _ := refuse (negb (is_repo_prefix p.1)) field
    "must be a repository-name prefix (`/`-separated `[a-z0-9]+([._-][a-z0-9]+)*` components)" in
  when_some (sub_s3 p.2) (λ c, S3Config_validate c (field +:+ ".s3")).

Definition storage_roots (s : StorageConfig) : list (string * string) :=
  ("storage.root", root s) :: ((λ p, (subpath_field p.1 +:+ ".root", sub_root p.2)) <$> subpaths s).

Definition MAX_THRESHOLD : Z := 8 * 1024 * 1024.

Definition StorageConfig_validate (s : StorageConfig) : result ConfigError () :=
  let? _ := (if gcc_enabled (gc s) then
               each (λ p, refuse (p.2 =? 0)%Z p.1 "must be > 0 when gc is enabled")
                 [("storage.gc.delay_secs", delay_secs (gc s)); ("storage.gc.interval_secs", gc_interval_secs (gc s))]
             else Ok tt) in
  let? _ := require_nonzero [("storage.small_blob_threshold", small_blob_threshold s)] in
  let? _ := refuse (MAX_THRESHOLD <? small_blob_threshold s)%Z "storage.small_blob_threshold"
              ("must be <= " +:+ u64_to_string MAX_THRESHOLD +:+ " (8 MiB)") in
  let? _ := refuse ((0 <? cache_max_bytes s) && (cache_max_bytes s <? small_blob_threshold s))%Z
              "storage.small_blob_threshold" "must be <= cache_max_bytes when the cache is enabled" in
  let? _ := (if scrub_enabled (scrub s) then
               each (λ p, refuse (p.2 =? 0)%Z p.1 "must be > 0 when scrub is enabled")
                 [("storage.scrub.interval_secs", scrub_interval_secs (scrub s));
                  ("storage.scrub.max_bytes_per_sec", max_bytes_per_sec (scrub s))]
             else Ok tt) in
  let m := metadata s in
  let? _ := refuse (bool_decide (engine m = Redb)) "storage.metadata.engine"
    ("the redb engine has been removed; use " +:+ quoted "lmdb" +:+ " instead — metadata is rebuilt from the layout") in
  let? _ := require_nonzero [("storage.metadata.compact_threshold_bytes", compact_threshold_bytes m)] in
  let? _ := refuse (snapshot m) "storage.metadata.snapshot"
    ("the snapshot option has been removed; use engine = " +:+ quoted "lmdb" +:+ " for out-of-RAM metadata and fast restart") in
  let? _ := require_nonzero [("storage.metadata.map_size_bytes", map_size_bytes m)] in
  let? _ := when_some (s3 s) (λ c, S3Config_validate c "storage.s3") in
  let? _ := each subpath_validate (subpaths s) in
  disjoint_roots (storage_roots s).

Definition buckets (rl : RateLimitConfig) : list (string * Bucket) :=
  match rl_default rl with Some b => [("http.rate_limit.default", b)] | None => [] end
  ++ ((λ p, ("http.rate_limit.per_method." +:+ p.1, p.2)) <$> per_method rl).

Definition rate_limit_validate (rl : RateLimitConfig) : result ConfigError () :=
  let? _ := each (λ p, refuse ((rate p.2 =? 0) || (burst p.2 =? 0))%Z p.1 "rate and burst must be > 0") (buckets rl) in
  let? _ := when_some (List.find (λ m, negb (bool_decide (m ∈ METHODS))) (per_method rl).*1) (λ m,
              invalid ("http.rate_limit.per_method." +:+ m) ("unknown method; expected one of " +:+ debug_list METHODS)) in
  when_some (per_client rl) (λ pc,
    let? _ := refuse ((pc_rate pc =? 0) || (pc_burst pc =? 0))%Z "http.rate_limit.per_client"
                "rate and burst must be > 0" in
    require_nonzero [("http.rate_limit.per_client.max_clients", max_clients pc)]).

Definition telemetry_validate (t : TelemetryConfig) : result ConfigError () :=
  let? _ := refuse (negb (unit_interval_contains (sample_ratio t))) "telemetry.sample_ratio" "must be within [0, 1]" in
  let path := metrics_path (metrics t) in
  let? _ := refuse (negb (starts_with path "/") || starts_with path "/v2") "telemetry.metrics.path"
              "must start with '/' and not collide with /v2" in
  when_some (otlp t) (λ o, refuse (bool_decide (otlp_endpoint o = "")) "telemetry.otlp.endpoint" "must not be empty").

Definition Config_validate (c : Config) : result ConfigError () :=
  let l := limits c in
  let? _ := require_nonzero
              [("limits.max_body", max_body l); ("limits.max_upload", max_upload l);
               ("limits.max_manifest", max_manifest l); ("limits.max_page", max_page l);
               ("http.timeouts.read_header_secs", read_header_secs (timeouts (http c)))] in
  let? _ := refuse (max_body l <? max_manifest l)%Z "limits.max_manifest" "must be <= limits.max_body" in
  let? _ := rate_limit_validate (rate_limit (http c)) in
  let? _ := telemetry_validate (telemetry c) in
  let? _ := require_nonempty [("log.level", level (log c))] in
  let? _ := when_some (tls (http c)) TlsConfig_validate in
  let? _ := AuthConfig_validate (auth c) in
  let? _ := when_some (access_control c) AccessControlConfig_validate in
  StorageConfig_validate (storage c).

(** [toml::from_str] and [std::fs::read_to_string] *)
Class TomlCrate := { toml_from_str : string → result string Config }.

Definition Config_load `{TomlCrate} (read_to_string : string → result io_error string) (path : string)
    : result ConfigError Config :=
  let? text := map_err (ConfigIo path) (read_to_string path) in
  let? config := map_err (ConfigParse path) (toml_from_str text) in
  let? _ := Config_validate config in
  Ok config.
End Validate.

(** ** Subpath prefixes are repository names *)

Lemma span_other_spec l :
  let '(run, rest) := span_other l in
  l = run ++ rest ∧ (∀ b, head rest = Some b → is_lower_alnum b = true) ∧
  (∀ b l', l = b :: l' → is_lower_alnum b = false → run ≠ []).
Proof.
  induction l as [|b l IH]; simpl; [done|]. destruct (is_lower_alnum b) eqn:Hb.
  { split_and!; [done|by intros ? [= <-]|intros ?? [= <- <-]; congruence]. }
  destruct (span_other l) as [run rest]. destruct IH as (-> & Hr & _). by split_and!.
Qed.

Lemma span_other_run s b r :
  Forall (λ x, is_lower_alnum x = false) s → is_lower_alnum b = true → span_other (s ++ b :: r) = (s, b :: r).
Proof. intros Hs Hb. induction Hs as [|x s Hx Hs IH]; simpl; [by rewrite Hb|]. by rewrite Hx, IH. Qed.

Lemma is_sep_run_spec run : is_sep_run run = true ↔ run = [] ∨ separator run.
Proof.
  unfold is_sep_run, separator. rewrite !orb_true_iff, !bool_decide_eq_true, forallb_Forall_bool.
  setoid_rewrite bool_decide_eq_true. destruct run; naive_solver.
Qed.

Lemma prefix_loop_accepted fuel l b :
  length l ≤ fuel → last l = Some b → is_lower_alnum b = true → prefix_loop fuel l = true → accepted l.
Proof.
  revert l. induction fuel as [|fuel IH]; intros l Hlen Hlast Hb H.
  { destruct l; [constructor|simpl in Hlen; lia]. }
  destruct l as [|x l]; [done|]. cbn [prefix_loop] in H. simpl in Hlen.
  destruct (is_lower_alnum x) eqn:Hx.
  { constructor; [done|]. destruct l as [|y l]; [constructor|]. apply IH; [lia|by rewrite last_cons_cons in Hlast|done..]. }
  pose proof (span_other_spec (x :: l)) as Hs. destruct (span_other (x :: l)) as [run rest].
  destruct Hs as (Happ & Hr & Hne). specialize (Hne x l eq_refl Hx).
  destruct (is_sep_run run) eqn:Hrun; [|done]. apply is_sep_run_spec in Hrun as [?|Hsep]; [done|]. simpl in H.
  destruct rest as [|y rest].
  - rewrite app_nil_r in Happ. subst run. apply last_Some_elem_of in Hlast.
    apply (separator_byte _ _ Hsep) in Hlast. apply alnum_not_separator in Hb. congruence.
  - rewrite Happ in Hlast |- *. rewrite last_app_cons in Hlast. constructor; [done|by apply Hr|].
    apply IH; [|done..]. apply (f_equal length) in Happ. rewrite length_app in Happ. destruct run; [done|].
    simpl in *. lia.
Qed.

Lemma accepted_prefix_loop l : accepted l → ∀ fuel, length l ≤ fuel → prefix_loop fuel l = true.
Proof.
  induction 1 as [|b l Hb Hl IH|s b l Hs Hb Hl IH]; intros fuel Hlen.
  - by destruct fuel.
  - destruct fuel as [|fuel]; simpl in Hlen; [lia|]. cbn [prefix_loop]. rewrite Hb. apply IH. lia.
  - assert (Hsep : Forall (λ x, is_lower_alnum x = false) s).
    { apply Forall_forall. intros x Hx. by eapply separator_not_alnum, separator_byte. }
    destruct s as [|x s]; [by destruct Hs as [?|[?|[?|[? _]]]]|].
    rewrite length_app in Hlen. simpl in Hlen. destruct fuel as [|fuel]; [lia|]. cbn [prefix_loop app].
    rewrite (proj1 (proj1 (Forall_cons _ _ _) Hsep)). change (x :: s ++ b :: l) with ((x :: s) ++ b :: l).
    rewrite span_other_run by done. rewrite (proj2 (is_sep_run_spec _)) by auto. apply IH. simpl. lia.
Qed.

Lemma prefix_component_spec c : prefix_component c = true ↔ component (as_bytes c).
Proof.
  rewrite <-validate_name_component_ok. unfold prefix_component. split.
  - intros H. apply validate_name_component_ok. destruct (head (as_bytes c)) as [x|] eqn:Hx; [|done].
    destruct (last (as_bytes c)) as [y|] eqn:Hy; [|done].
    destruct (is_lower_alnum x) eqn:Hax; [|done]. destruct (is_lower_alnum y) eqn:Hay; [|done]. simpl in H.
    pose proof (prefix_loop_accepted _ _ _ (le_n _) Hy Hay H) as Ha.
    destruct (accepted_shape _ Ha) as [Hn|[?|(s & r & Heq & Hs & Hr)]]; [by rewrite Hn in Hx|done|].
    destruct s as [|z s]; [by destruct Hs as [?|[?|[?|[? _]]]]|]. rewrite Heq in Hx. simplify_eq/=.
    apply alnum_not_separator in Hax. rewrite (separator_byte (x :: s) x) in Hax; set_solver.
  - rewrite validate_name_component_ok. intros Hc. destruct (component_head _ Hc) as (b & l & Heq & Hb).
    destruct (component_last _ Hc) as (y & Hy & Hay). rewrite Hy. rewrite Heq at 1. simpl. rewrite Hb, Hay. simpl.
    apply accepted_prefix_loop; [by apply component_accepted|done].
Qed.

Lemma is_repo_prefix_spec s : is_repo_prefix s = true ↔ repository_name s.
Proof.
  unfold is_repo_prefix, repository_name. rewrite andb_true_iff, forallb_Forall_bool, Z.leb_le.
  setoid_rewrite prefix_component_spec. split; [|naive_solver]. intros [Hl Hc]. split; [|done]. split; [|done].
  destruct s as [|c s]; [|unfold slen; simpl; lia]. simpl in Hc.
  apply Forall_cons in Hc as [Hc _]. by destruct (component_head _ Hc) as (? & ? & ? & _).
Qed.

(** ** What validation establishes *)

Lemma refuse_ok c field reason : refuse c field reason = Ok tt ↔ c = false.
Proof. unfold refuse, invalid. by destruct c. Qed.

Lemma then_ok {E B} (r : result E ()) (k : result E B) b : (let? _ := r in k) = Ok b ↔ r = Ok tt ∧ k = Ok b.
Proof. rewrite result_bind_ok. split; [intros ([] & ? & ?)|intros [? ?]; exists tt]; done. Qed.

Lemma each_ok {A} (f : A → result ConfigError ()) l : each f l = Ok tt ↔ Forall (λ x, f x = Ok tt) l.
Proof. induction l as [|x l IH]; simpl; [done|]. by rewrite then_ok, Forall_cons, IH. Qed.

Lemma when_some_ok {A} o (f : A → result ConfigError ()) : when_some o f = Ok tt ↔ ∀ x, o = Some x → f x = Ok tt.
Proof. destruct o; simpl; naive_solver. Qed.

Lemma disjoint_roots_ok roots :
  disjoint_roots roots = Ok tt ↔
  ∀ i j a b, i < j → roots !! i = Some a → roots !! j = Some b →
    path_starts_with a.2 b.2 = false ∧ path_starts_with b.2 a.2 = false.
Proof.
  induction roots as [|[fa a] roots IH]; simpl; [by split; [|done]|].
  unfold disjoint_from. rewrite then_ok, each_ok, IH, Forall_forall. setoid_rewrite refuse_ok.
  setoid_rewrite orb_false_iff. split.
  - intros [H1 H2] [|i] [|j] x y Hij Hx Hy; simpl in *; simplify_eq; [lia| |lia|].
    + apply (H1 y). by eapply list_elem_of_lookup_2.
    + apply (H2 i j); [lia|done..].
  - intros H. split.
    + intros y [j Hy]%list_elem_of_lookup. apply (H 0 (S j) (fa, a) y); [lia|done..].
    + intros i j x y Hij. apply (H (S i) (S j)). lia.
Qed.

(** No path lies beneath both of two roots. *)
Definition separate (a b : string) : Prop :=
  ∀ p, ¬ (components a `prefix_of` components p ∧ components b `prefix_of` components p).

Lemma not_nested_separate a b :
  path_starts_with a b = false → path_starts_with b a = false → separate a b.
Proof.
  unfold path_starts_with. intros H1%bool_decide_eq_false H2%bool_decide_eq_false p [Ha Hb].
  by destruct (prefix_weak_total _ _ _ Ha Hb).
Qed.

(** The S3 sections of a storage section. *)
Definition s3_sections (s : StorageConfig) : list S3Config :=
  option_list (s3 s) ++ omap (λ p, sub_s3 p.2) (subpaths s).

(** What the S3 backend relies on: parts S3 takes, a signature that ends soon,
    and redirects that never point into the internal network. *)
Definition s3_valid (c : S3Config) : Prop :=
  (1 ≤ redirect_ttl_secs c ≤ 60)%Z ∧ (S3_MIN_PART_SIZE ≤ multipart_part_size c)%Z ∧ multipart_concurrency c ≠ 0%Z ∧
  starts_with (s3_prefix c) "/" = false ∧ ends_with (s3_prefix c) "/" = false ∧
  ∀ ep, s3_endpoint c = Some ep →
    (starts_with ep "https://" = true ∨ (starts_with ep "http://" = true ∧ allow_http c = true)) ∧
    ((0 < redirect_min_size c)%Z → ∀ h, url_host ep = Some h → is_internal_host h = false).

Section Validated.
Variable is_file : string → bool.

Lemma S3Config_validate_ok c field : S3Config_validate is_file c field = Ok tt → s3_valid c.
Proof.
  unfold S3Config_validate, require_nonempty, require_nonzero, s3_valid. rewrite !then_ok. simpl. rewrite !then_ok, !refuse_ok.
  intros (_ & Hp & Httl & Hpart & [Hc _] & Hep & _). rewrite when_some_ok in Hep.
  apply orb_false_iff in Hp as [Hp1 Hp2]. rewrite negb_false_iff, andb_true_iff, !Z.leb_le in Httl. rewrite Z.ltb_ge in Hpart.
  rewrite Z.eqb_neq in Hc. split_and!; [lia..|done|done|]. intros ep He. specialize (Hep ep He). unfold endpoint_validate in Hep.
  rewrite !then_ok, !refuse_ok in Hep. destruct Hep as (H1 & H2 & H3). split.
  - destruct (starts_with ep "http://"), (starts_with ep "https://"), (allow_http c); naive_solver.
  - intros Hm h Hh. rewrite Hh in H3. rewrite (proj2 (Z.ltb_lt _ _)) in H3 by done. done.
Qed.

Lemma validated_facts c :
  Config_validate is_file c = Ok tt →
  (∀ prefix sub, (prefix, sub) ∈ subpaths (storage c) → repository_name prefix) ∧
  (∀ i j a b, i ≠ j → storage_roots (storage c) !! i = Some a → storage_roots (storage c) !! j = Some b → separate a.2 b.2) ∧
  Forall s3_valid (s3_sections (storage c)).
Proof.
  unfold Config_validate. rewrite !then_ok. intros (_ & _ & _ & _ & _ & _ & _ & _ & H).
  unfold StorageConfig_validate in H. rewrite !then_ok in H. destruct H as (_&_&_&_&_&_&_&_&_& Hs3 & Hsub & Hroots).
  rewrite when_some_ok in Hs3. rewrite each_ok, Forall_forall in Hsub. rewrite disjoint_roots_ok in Hroots.
  assert (Hs : ∀ prefix sub, (prefix, sub) ∈ subpaths (storage c) →
    is_repo_prefix prefix = true ∧ ∀ x, sub_s3 sub = Some x → s3_valid x).
  { intros prefix sub Hin. specialize (Hsub _ Hin). unfold subpath_validate in Hsub. simpl in Hsub.
    rewrite then_ok, refuse_ok, when_some_ok, negb_false_iff in Hsub. destruct Hsub as [? Hx]. split; [done|].
    intros x Hxs. by eapply S3Config_validate_ok, Hx. }
  split_and!.
  - intros prefix sub Hin. by apply is_repo_prefix_spec, (Hs prefix sub Hin).
  - intros i j a b Hij Ha Hb. destruct (decide (i < j)) as [Hlt|Hge].
    + destruct (Hroots i j a b); [done..|]. by apply not_nested_separate.
    + destruct (Hroots j i b a); [lia|done..|]. by apply not_nested_separate.
  - apply Forall_forall. intros x. unfold s3_sections. rewrite elem_of_app, list_elem_of_omap.
    intros [Hx|([prefix sub] & Hin & Hx)]; [|by eapply Hs].
    destruct (s3 (storage c)) as [y|]; simpl in Hx; [|by apply not_elem_of_nil in Hx].
    apply list_elem_of_singleton in Hx as ->. by eapply S3Config_validate_ok, Hs3.
Qed.

End Validated.

(** A configuration with an S3 backend for one prefix. *)
Definition example_s3 : S3Config :=
  {| s3_bucket := "images"; s3_region := default_s3_region; s3_endpoint := Some "https://s3.example.org";
     s3_prefix := "roci"; access_key_id := None; secret_access_key_file := None; allow_http := false;
     redirect_min_size := default_redirect_min_size; redirect_ttl_secs := default_redirect_ttl_secs;
     multipart_part_size := default_multipart_part_size; multipart_concurrency := default_multipart_concurrency;
     create_bucket := false; s3_ca_file := None |}.

Definition with_storage (s : StorageConfig) (c : Config) : Config :=
  {| http := http c; storage := s; limits := limits c; delete_ := delete_ c; log := log c; telemetry := telemetry c;
     auth := auth c; access_control := access_control c |}.
Definition with_subpaths (l : list (string * SubpathConfig)) (s : StorageConfig) : StorageConfig :=
  {| root := root s; cache_max_bytes := cache_max_bytes s; small_blob_threshold := small_blob_threshold s;
     dedupe := dedupe s; commit := commit s; fast_restart := fast_restart s; s3 := s3 s; subpaths := l; gc := gc s;
     scrub := scrub s; quota := quota s; metadata := metadata s |}.
Definition config_of (l : list (string * SubpathConfig)) : Config :=
  with_storage (with_subpaths l default_storage) default_config.

Definition example_config : Config := config_of [("team", {| sub_root := "/var/team"; sub_s3 := Some example_s3 |})].


(** The separation is one of texts: a subpath whose root is the default root
    without its leading [./] is accepted. *)
Example nested_roots_accepted :
  Config_validate (λ _, true) (config_of [("team", {| sub_root := "roci-data"; sub_s3 := None |})]) = Ok tt ∧
  Config_validate (λ _, true) (config_of [("team", {| sub_root := "./roci-data/team"; sub_s3 := None |})]) ≠ Ok tt.
Proof. by vm_compute. Qed.
