(* ===== verification/AuthLoad.v ===== *)
(** How the authentication engine is built and what it asks of others: the
    verification keys ([BearerVerifier::load] of auth/bearer.rs), the LDAP
    directory (auth/ldap.rs), the identity of a client certificate
    (auth/identity.rs), and [Auth::from_config] (auth/mod.rs).

    The crates for PEM, X.509 and LDAP, and the directory behind the last, are
    the classes [PkiCrates] and [LdapCrate]; the files are the functions [read]
    and [read_to_string]. *)

From S2P Require Import Prelude RustStr Json Errors Digest Names Policy Auth Config.

(** ** Keys and certificates *)

(** A public key: the algorithm, the named curve if there is one, the bits. *)
Record Spki := { spki_alg : string; spki_curve : option string; spki_data : bytes }.

Inductive GeneralName := DNSName (d : string) | OtherName.

(** The common names of the subject that are text, in order, and the alternative
    names if there is a well-formed extension. *)
Record Certificate := { common_names : list string; alternative_names : option (list GeneralName) }.

Record PemBlock := { label : string; contents : bytes }.

Class PkiCrates := {
  pem_iter : bytes → list (result string PemBlock);
  parse_x509 : bytes → result string Spki;
  spki_from_der : bytes → result string Spki;
  parse_certificate : bytes → option Certificate;
  pem_file_certs : string → result string nat;
}.

Definition OID_KEY_TYPE_EC_PUBLIC_KEY : string := "1.2.840.10045.2.1".
Definition OID_EC_P256 : string := "1.2.840.10045.3.1.7".
Definition OID_PKCS1_RSAENCRYPTION : string := "1.2.840.113549.1.1.1".

Definition key_from_spki (spki : Spki) : result string VerifyKey :=
  if decide (spki_alg spki = OID_KEY_TYPE_EC_PUBLIC_KEY) then
    if decide (spki_curve spki = Some OID_EC_P256) then Ok (Es256 (spki_data spki))
    else Err "unsupported key algorithm (EC keys must be P-256)"
  else if decide (spki_alg spki = OID_PKCS1_RSAENCRYPTION) then Ok (Rs256 (spki_data spki))
  else Err "unsupported key algorithm".

Section Loading.
Context `{!PkiCrates}.
Variable read : string → result io_error bytes.
Variable read_to_string : string → result io_error string.

Definition key_of_block (block : result string PemBlock) : result string VerifyKey :=
  let? block := map_err (λ e, "invalid PEM: " +:+ e) block in
  if decide (label block = "CERTIFICATE") then
    let? spki := map_err (λ e, "invalid certificate: " +:+ e) (parse_x509 (contents block)) in key_from_spki spki
  else if decide (label block = "PUBLIC KEY") then
    let? spki := map_err (λ e, "invalid public key: " +:+ e) (spki_from_der (contents block)) in key_from_spki spki
  else Err ("unexpected PEM block `" +:+ label block +:+ "`").

Fixpoint keys_of_blocks (blocks : list (result string PemBlock)) : result string (list VerifyKey) :=
  match blocks with
  | [] => Ok []
  | b :: blocks => let? k := key_of_block b in let? ks := keys_of_blocks blocks in Ok (k :: ks)
  end.

Definition BearerVerifier_load (cfg : BearerConfig) : result string BearerVerifier :=
  let? pem := map_err (λ e, "reading " +:+ verify_key_file cfg +:+ ": " +:+ io_msg e) (read (verify_key_file cfg)) in
  let? keys := keys_of_blocks (pem_iter pem) in
  if decide (keys = []) then Err "no public keys found"
  else Ok {| issuer := bearer_issuer cfg; Auth.service := bearer_service cfg; keys := keys |}.

(** ** Client certificates *)

Definition MAX_IDENTITY_LEN : Z := 255.

(** A control character: below 0x20, DEL, or one of U+0080 to U+009F, which are
    the byte 0xC2 and one below 0xA0. *)
Fixpoint has_control (l : bytes) : bool :=
  match l with
  | [] => false
  | b :: l' =>
      (u8 b <? 32)%Z || (u8 b =? 127)%Z
      || ((u8 b =? 194)%Z && match l' with c :: _ => (u8 c <? 160)%Z | [] => false end)
      || has_control l'
  end.

Definition usable (id : string) : bool :=
  negb (bool_decide (id = "")) && (slen id <=? MAX_IDENTITY_LEN)%Z && negb (has_control (as_bytes id)).

Definition usable_dns (g : GeneralName) : option string :=
  match g with DNSName d => if usable d then Some d else None | OtherName => None end.

Definition client_cert_identity (leaf_der : bytes) : option string :=
  cert ← parse_certificate leaf_der;
  match List.find usable (common_names cert) with
  | Some cn => Some cn
  | None => names ← alternative_names cert; head (omap usable_dns names)
  end.

(** ** The directory *)

Record SearchEntry := { dn : string; attrs : list (string * list string) }.

(** The [ldap3] crate: a connection, a bind that gives the result code, and a
    search that succeeded. [in_time] says whether the whole exchange ends before
    the time-out. *)
Class LdapCrate := {
  conn : Type;
  ldap_connect : string → bool → result string conn;
  simple_bind : conn → string → string → conn * result string Z;
  search : conn → string → string → list string → conn * result string (list SearchEntry);
  ldap_escape : string → string;
  in_time : string → string → bool;
}.

Record LdapAuthenticator := { lcfg : LdapConfig; bind_password : string }.

Definition load_err (field reason : string) : string := field +:+ ": " +:+ reason.

(** [LdapAuthenticator::new]: the roots are those of the file, or the ones of
    the system. *)
Definition LdapAuthenticator_new (cfg : LdapConfig) : result string LdapAuthenticator :=
  let? pw := map_err (λ e, load_err "auth.ldap.bind_password_file" ("reading " +:+ bind_password_file cfg +:+ ": " +:+ io_msg e))
    (read_to_string (bind_password_file cfg)) in
  let? _ :=
    match ldap_ca_file cfg with
    | Some path =>
        let? added := map_err (λ e, load_err "auth.ldap.ca_file" (path +:+ ": " +:+ e)) (pem_file_certs path) in
        if decide (added = 0) then Err (load_err "auth.ldap.ca_file" (path +:+ " contains no usable CA certificates")) else Ok tt
    | None => Ok tt
    end in
  Ok {| lcfg := cfg; bind_password := trim pw |}.

Definition user_search_filter `{LdapCrate} (cfg : LdapConfig) (user : string) : string :=
  "(&(" +:+ user_attribute cfg +:+ "=" +:+ ldap_escape user +:+ ")" +:+ default "" (user_filter cfg) +:+ ")".

Definition entry_groups (cfg : LdapConfig) (entry : SearchEntry) : list string :=
  default [] (a ← group_attribute cfg; snd <$> List.find (λ kv, eq_ignore_ascii_case kv.1 a) (attrs entry)).

Definition search_and_bind `{LdapCrate} (l : LdapAuthenticator) (user password : string) : result string (option (list string)) :=
  let cfg := lcfg l in
  let? c := ldap_connect (ldap_url cfg) (start_tls cfg) in
  let '(c, r) := simple_bind c (bind_dn cfg) (bind_password l) in
  let? rc := r in
  if negb (rc =? 0)%Z then Err "bind refused" else
  let wanted := match group_attribute cfg with Some a => [a] | None => ["1.1"] end in
  let '(c, r) := search c (base_dn cfg) (user_search_filter cfg user) wanted in
  let? entries := r in
  match entries with
  | [entry] =>
      let '(_, r) := simple_bind c (dn entry) password in
      let? rc := r in
      if negb (rc =? 0)%Z then Ok None else Ok (Some (entry_groups cfg entry))
  | _ => Ok None
  end.

(** [authenticate] after its check of the password, which is
    [Auth.ldap_authenticate]: an error of the directory and a time-out refuse. *)
Definition ldap_lookup `{LdapCrate} (l : LdapAuthenticator) (user password : string) : option (list string) :=
  if in_time user password then match search_and_bind l user password with Ok g => g | Err _ => None end else None.

(** ** The engine *)

Definition Htpasswd_load `{AuthEnv} (path : string) : result string Htpasswd :=
  let? text := map_err (λ e, "reading " +:+ path +:+ ": " +:+ io_msg e) (read_to_string path) in
  htpasswd_parse text.

(** [Option::transpose] after [map]. *)
Definition load_opt {A B} (o : option A) (f : A → result string B) : result string (option B) :=
  match o with Some a => let? b := f a in Ok (Some b) | None => Ok None end.

Definition mtls_enabled (config : Config) : bool :=
  match tls (http config) with
  | Some t => match client_auth t with NoClientAuth => false | _ => true end
  | None => false
  end.

(** [ldap_feature] is the build feature. *)
Definition Auth_from_config `{AuthEnv, LdapCrate} (ldap_feature : bool) (config : Config)
    : result string (option (Auth.Auth * CredentialCache)) :=
  let a := auth config in
  let mtls := mtls_enabled config in
  if bool_decide (htpasswd a = None) && bool_decide (ldap a = None) && bool_decide (bearer a = None)
     && bool_decide (access_control config = None) && negb mtls
  then Ok None else
  let? h := load_opt (htpasswd a) (λ h, map_err (load_err "auth.htpasswd.path") (Htpasswd_load (htpasswd_path h))) in
  let? _ := (if negb ldap_feature && bool_decide (is_Some (ldap a))
             then Err (load_err "auth.ldap" "requires a roci build with the `ldap` feature") else Ok tt) in
  let? l := load_opt (ldap a) LdapAuthenticator_new in
  let? b := load_opt (bearer a) (λ b,
    let? v := map_err (load_err "auth.bearer.verify_key_file") (BearerVerifier_load b) in
    Ok {| b_verifier := v; b_realm := bearer_realm b; b_service := bearer_service b |}) in
  Ok (Some (mkAuth (auth_realm a) h (ldap_lookup <$> l) b mtls (compile <$> access_control config),
            {| ttl := cache_ttl_secs a * 10 ^ 9; cmap := ∅ |})).
End Loading.

(** ** Lemmas *)

Lemma load_opt_ok {A B : Type} (o : option A) (f : A → result string B) ob :
  load_opt o f = Ok ob → match o, ob with
                         | Some a, Some b => f a = Ok b
                         | None, None => True
                         | _, _ => False
                         end.
Proof. destruct o as [a|]; simpl; intros Ho; [|by simplify_eq]. by case_res. Qed.

(** The exchange with the directory that accepts a password: the service
    account is bound, the search for the user gives one entry, and the entry is
    bound with the password. *)
Definition ldap_bound `{LdapCrate} (l : LdapAuthenticator) (user password : string) (groups : list string) : Prop :=
  ∃ c0 c1 c2 c3 wanted entry,
    ldap_connect (ldap_url (lcfg l)) (start_tls (lcfg l)) = Ok c0 ∧
    simple_bind c0 (bind_dn (lcfg l)) (bind_password l) = (c1, Ok 0%Z) ∧
    search c1 (base_dn (lcfg l)) (user_search_filter (lcfg l) user) wanted = (c2, Ok [entry]) ∧
    simple_bind c2 (dn entry) password = (c3, Ok 0%Z) ∧ groups = entry_groups (lcfg l) entry.

Lemma ldap_lookup_bound `{LdapCrate} l user password groups :
  ldap_lookup l user password = Some groups → ldap_bound l user password groups.
Proof.
  unfold ldap_lookup, search_and_bind. intros Hl. destruct (in_time user password); [|done].
  destruct (ldap_connect _ _) as [c0|] eqn:E0; [|done]. simpl in Hl.
  destruct (simple_bind c0 _ _) as [c1 [rc|]] eqn:E1; [|done]. simpl in Hl.
  destruct (Z.eqb_spec rc 0) as [->|]; [|done]. simpl in Hl.
  destruct (search c1 _ _ _) as [c2 [[|entry [|]]|]] eqn:E2; try done. simpl in Hl.
  destruct (simple_bind c2 _ _) as [c3 [rc|]] eqn:E3; [|done]. simpl in Hl.
  destruct (Z.eqb_spec rc 0) as [->|]; [|done]. simplify_eq/=.
  exists c0, c1, c2, c3. eexists. by exists entry.
Qed.

(** The engine of a configuration. *)
Lemma from_config_spec `{!PkiCrates, AuthEnv, LdapCrate} read read_to_string feature config a c :
  Auth_from_config read read_to_string feature config = Ok (Some (a, c)) →
  cmap c = ∅ ∧ policy a = compile <$> access_control config ∧ Auth.mtls a = mtls_enabled config ∧
  match htpasswd (auth config), Auth.htpasswd a with
  | Some h, Some ht => ∃ text, read_to_string (htpasswd_path h) = Ok text ∧ htpasswd_parse text = Ok ht
  | None, None => True
  | _, _ => False
  end ∧
  match ldap (auth config), Auth.ldap a with
  | Some lc, Some f => ∃ l, LdapAuthenticator_new read_to_string lc = Ok l ∧ f = ldap_lookup l
  | None, None => True
  | _, _ => False
  end ∧
  match bearer (auth config), Auth.bearer a with
  | Some b, Some v => BearerVerifier_load read b = Ok (b_verifier v)
  | None, None => True
  | _, _ => False
  end.
Proof.
  unfold Auth_from_config. intros Hc. case_match; [done|]. case_res.
  repeat match goal with H : load_opt _ _ = Ok _ |- _ => apply load_opt_ok in H end.
  split_and!; [done..| | |]; simpl.
  - destruct (htpasswd (auth config)) as [h|], x as [ht|]; try done. unfold Htpasswd_load in *. case_res. eauto.
  - destruct (ldap (auth config)) as [lc|], x1 as [l|]; try done. by exists l.
  - destruct (bearer (auth config)) as [b|], x2 as [v|]; try done. by case_res.
Qed.

Lemma keys_of_blocks_length `{!PkiCrates} blocks ks : keys_of_blocks blocks = Ok ks → length ks = length blocks.
Proof. revert ks. induction blocks as [|b blocks IH]; intros ks; simpl; intros Hk; case_res; [done|]. simpl. f_equal. by apply IH. Qed.

(** ** Properties *)

(** The registry is open only when nothing was configured, and no mechanism
    is dropped: an engine has exactly the mechanisms of the configuration, with
    at least one verification key for bearer tokens, and the compiled policy;
    what cannot be loaded, and a directory in a build without LDAP, is an error. *)
Theorem from_config_complete `{!PkiCrates, !AuthEnv, !LdapCrate} read read_to_string feature config :
  let a := auth config in
  match Auth_from_config read read_to_string feature config with
  | Ok None => htpasswd a = None ∧ ldap a = None ∧ bearer a = None ∧ access_control config = None ∧ mtls_enabled config = false
  | Ok (Some (e, c)) =>
      (is_Some (Auth.htpasswd e) ↔ is_Some (htpasswd a)) ∧ (is_Some (Auth.ldap e) ↔ is_Some (ldap a)) ∧
      (is_Some (Auth.bearer e) ↔ is_Some (bearer a)) ∧ (is_Some (ldap a) → feature = true) ∧
      (∀ v, Auth.bearer e = Some v → keys (b_verifier v) ≠ []) ∧
      Auth.mtls e = mtls_enabled config ∧ policy e = compile <$> access_control config ∧ cmap c = ∅
  | Err _ => is_Some (htpasswd a) ∨ is_Some (ldap a) ∨ is_Some (bearer a)
  end.
Proof.
  intros a. destruct (Auth_from_config read read_to_string feature config) as [[[e c]|]|err] eqn:E.
  - assert (Hf : is_Some (ldap a) → feature = true).
    { unfold Auth_from_config in E. case_match; [done|]. case_res. intros [lc Hl]. unfold a in Hl.
      select (_ && _ = false) (fun H => rewrite Hl in H; by destruct feature). }
    apply from_config_spec in E as (Hc & Hp & Hm & Hh & Hl & Hb). unfold a in *.
    split_and!; try done.
    + destruct (htpasswd (auth config)), (Auth.htpasswd e); naive_solver.
    + destruct (ldap (auth config)), (Auth.ldap e); naive_solver.
    + destruct (bearer (auth config)), (Auth.bearer e); naive_solver.
    + intros v Hv. rewrite Hv in Hb. destruct (bearer (auth config)) as [b|]; [|done].
      unfold BearerVerifier_load in Hb. case_res. case_decide; [done|]. case_res. by rewrite <-Hb.
  - unfold Auth_from_config in E. case_match eqn:El; [by bool_simp|]. by case_res.
  - unfold Auth_from_config in E. case_match; [done|]. fold a in E. unfold load_opt in E.
    destruct (htpasswd a); [by left|]. destruct (ldap a); [by right; left|]. destruct (bearer a); [by right; right|].
    destruct feature; simpl in E; done.
Qed.

(** The identity of a client certificate is a name of at most 255 bytes
    without control characters: such a common name of the subject, or, when there
    is none, such a DNS name. *)
Theorem cert_identity_spec `{!PkiCrates} der id :
  client_cert_identity der = Some id →
  id ≠ "" ∧ (slen id ≤ 255)%Z ∧ has_control (as_bytes id) = false ∧
  ∃ cert, parse_certificate der = Some cert ∧
    (id ∈ common_names cert ∨
     (∀ cn, cn ∈ common_names cert → usable cn = false) ∧
     ∃ names, alternative_names cert = Some names ∧ DNSName id ∈ names).
Proof.
  unfold client_cert_identity. destruct (parse_certificate der) as [cert|] eqn:Ec; [|done]. simpl.
  assert (Hu : usable id = true → id ≠ "" ∧ (slen id ≤ 255)%Z ∧ has_control (as_bytes id) = false).
  { unfold usable, MAX_IDENTITY_LEN. intros Hu. by bool_simp. }
  destruct (List.find usable (common_names cert)) as [cn|] eqn:Ef.
  - intros [= ->]. apply List.find_some in Ef as [Hin Hcn]. destruct (Hu Hcn) as (? & ? & ?).
    split_and!; [done..|]. exists cert. split; [done|]. left. by apply list_elem_of_In.
  - destruct (alternative_names cert) as [names|] eqn:En; [|done]. simpl. intros Hh.
    assert (Hin : id ∈ omap usable_dns names) by (destruct (omap usable_dns names); simplify_eq/=; set_solver).
    apply list_elem_of_omap in Hin as ([d|] & Hd & Hx); [|done]. simpl in Hx. case_match eqn:Eu; [|done]. injection Hx as ->.
    destruct (Hu Eu) as (? & ? & ?). split_and!; [done..|]. exists cert. split; [done|]. right.
    split; [|by exists names]. intros cn Hcn%list_elem_of_In. by apply (List.find_none _ _ Ef).
Qed.

(** ** Witnesses *)

Module ToyDirectory.
#[export] Existing Instances Digest.Toy.toy_crypto ToyAuth.toy_auth.

(** A directory of one user; the key file is one P-256 key. *)
#[export] Instance toy_ldap : LdapCrate := {|
  conn := ();
  ldap_connect _ _ := Ok tt;
  simple_bind _ who pw := (tt, Ok (if decide (who = "cn=svc") then 0%Z else if decide (pw = "hunter2") then 0%Z else 49%Z));
  search _ base filter _ := (tt, Ok (if decide (filter = "(&(uid=bob))")
                                     then [{| dn := "uid=bob," +:+ base; attrs := [("memberOf", ["dev"])] |}] else []));
  ldap_escape s := s;
  in_time _ _ := true;
|}.

#[export] Instance toy_pki : PkiCrates := {|
  pem_iter _ := [Ok {| label := "PUBLIC KEY"; contents := [] |}];
  parse_x509 _ := Err "";
  spki_from_der _ := Ok {| spki_alg := OID_KEY_TYPE_EC_PUBLIC_KEY; spki_curve := Some OID_EC_P256; spki_data := as_bytes "k" |};
  parse_certificate _ := Some {| common_names := [""]; alternative_names := Some [OtherName; DNSName "svc.example"] |};
  pem_file_certs _ := Ok 1;
|}.

Definition read (p : string) : result io_error bytes := Ok [].
Definition read_to_string (p : string) : result io_error string :=
  Ok (if decide (p = "users") then "alice:$2a$10secret" else " pw ").

Definition directory : LdapConfig :=
  {| ldap_url := "ldaps://d"; start_tls := false; bind_dn := "cn=svc"; bind_password_file := "pw"; base_dn := "dc=x";
     user_attribute := "uid"; user_filter := None; group_attribute := Some "memberof"; ldap_ca_file := None; timeout_secs := 5 |}.
Definition config : Config :=
  {| http := default_http; storage := default_storage; limits := default_limits; delete_ := default_delete;
     log := default_log; telemetry := default_telemetry;
     auth := {| auth_realm := "roci"; htpasswd := Some {| htpasswd_path := "users" |}; ldap := Some directory;
                bearer := None; cache_ttl_secs := 60 |};
     access_control := None |}.
Definition engine : result string (option (Auth.Auth * CredentialCache)) := Auth_from_config read read_to_string true config.
Definition login : HeaderMap := {["authorization" := HvText "Basic bob:hunter2"]}.
End ToyDirectory.

Import ToyDirectory.

Lemma cert_identity_spec_witness :
  client_cert_identity [] = Some "svc.example" ∧ (slen "svc.example" ≤ 255)%Z.
Proof.
  assert (H : client_cert_identity [] = Some "svc.example") by (vm_compute; reflexivity).
  split; [exact H|]. apply (cert_identity_spec [] "svc.example" H).
Defined.
