(* ===== verification/RateLimit.v ===== *)
(** Rate limiting (roci-core/src/ratelimit.rs): the token buckets, the limiter
    per method and the limiter per client.

    Times are nanoseconds of the monotonic clock. The bounded LRU map of the
    [lru] crate is the parameter [ClientMap]; a method is its name, and which
    names are methods is for the [http] crate to say ([is_method]). *)

From Stdlib Require Import SpecFloat.
From S2P Require Import Prelude Float64 RustStr Json Errors NetAddr Policy Auth Config.

#[local] Open Scope Z_scope.

(** ** Token buckets *)

Record TokenBucket := mkBucket { tb_tokens : f64; tb_last : Z; tb_rate : f64; tb_burst : f64 }.

Definition bucket_with (rate burst now : Z) : TokenBucket :=
  mkBucket (f64_of_Z burst) now (f64_of_Z rate) (f64_of_Z burst).
Definition bucket_new (b : Bucket) (now : Z) : TokenBucket := bucket_with (rate b) (burst b) now.
Definition from_per_client (cfg : PerClientConfig) (now : Z) : TokenBucket := bucket_with (pc_rate cfg) (pc_burst cfg) now.

(** [duration_since] is zero when the clock went back. *)
Definition refilled (b : TokenBucket) (now : Z) : f64 :=
  let elapsed := as_secs_f64 ((now - tb_last b) `max` 0) in
  f64_min (f64_add (tb_tokens b) (f64_mul (tb_rate b) elapsed)) (tb_burst b).

Definition try_acquire (b : TokenBucket) (now : Z) : TokenBucket * result Z () :=
  let t := refilled b now in
  if f64_ge t f64_one then (mkBucket (f64_sub t f64_one) now (tb_rate b) (tb_burst b), Ok tt)
  else
    let deficit := f64_sub f64_one t in
    let wait := f64_div deficit (tb_rate b) in
    (mkBucket t now (tb_rate b) (tb_burst b), Err (f64_ceil_u64 wait)).

(** ** The limiter per method *)

Record RateLimiter := mkLimiter { rl_per_method : gmap string TokenBucket; rl_fallback : option TokenBucket }.

Section Limiters.
Variable is_method : string → bool.

Definition limiter_from_config (cfg : RateLimitConfig) (now : Z) : option RateLimiter :=
  if negb (rl_enabled cfg) then None else
  Some (mkLimiter
    (foldl (λ m p, if is_method p.1 then <[p.1 := bucket_new p.2 now]> m else m) ∅ (per_method cfg))
    ((λ b, bucket_new b now) <$> rl_default cfg)).
End Limiters.

Definition limiter_check (l : RateLimiter) (method : string) (now : Z) : RateLimiter * result Z () :=
  match rl_per_method l !! method with
  | Some b =>
      let '(b, r) := try_acquire b now in (mkLimiter (<[method := b]> (rl_per_method l)) (rl_fallback l), r)
  | None =>
      match rl_fallback l with
      | Some b => let '(b, r) := try_acquire b now in (mkLimiter (rl_per_method l) (Some b), r)
      | None => (l, Ok tt)
      end
  end.

(** ** The limiter per client *)

Inductive ClientKey := KPrincipal (name : string) | KIp (ip : IpAddr).
#[export] Instance ClientKey_eq_dec : EqDecision ClientKey.
Proof. solve_decision. Defined.

(** [LruCache<ClientKey, TokenBucket>]. [get_or_insert_mut] gives a reference
    to the bucket of a key, which the caller then changes: here it takes the
    change as a function. [cm_entries] is [iter()], the most recently used
    first. *)
Class ClientMap := {
  client_map : Type;
  cm_new : Z → client_map;
  cm_entries : client_map → list (ClientKey * TokenBucket);
  cm_get_or_insert_mut : ∀ {A}, client_map → ClientKey → TokenBucket → (TokenBucket → TokenBucket * A) → client_map * A;
}.

Section PerClient.
Context `{ClientMap}.

Record PerClientLimiter := mkPerClient { pcl_map : client_map; pcl_cfg : PerClientConfig }.

(** [NonZeroUsize::new(…).expect(…)]: a capacity of zero is a panic, which the
    validation of the configuration excludes. *)
Definition per_client_from_config (cfg : RateLimitConfig) : option PerClientLimiter :=
  (λ pc, mkPerClient (cm_new (max_clients pc)) pc) <$> per_client cfg.

Definition per_client_check (l : PerClientLimiter) (key : ClientKey) (now : Z) : PerClientLimiter * result Z () :=
  let '(m, r) := cm_get_or_insert_mut (pcl_map l) key (from_per_client (pcl_cfg l) now) (λ b, try_acquire b now) in
  (mkPerClient m (pcl_cfg l), r).
End PerClient.
Arguments PerClientLimiter {_}.

(** [Principal::subject] *)
Definition principal_subject (p : Principal) : option string :=
  match p with
  | Anonymous => None
  | User name _ _ => Some name
  | Token subject _ => subject
  end.

(** [peer] is the address the connection came from, when it is known. *)
Definition client_key_from (p : Principal) (peer : option IpAddr) : ClientKey :=
  match principal_subject p with
  | Some subject => KPrincipal subject
  | None =>
      match peer with
      | Some ip => KIp ip
      | None => KIp (V4 [0; 0; 0; 0])
      end
  end.

Definition too_many_requests (retry_after : Z) : Response :=
  let resp := error_response (Spec TooManyRequests "rate limit exceeded") in
  {| resp_status := resp_status resp;
     resp_headers := <["retry-after" := u64_to_string retry_after]> (resp_headers resp);
     resp_body := resp_body resp |}.

(** ** Lemmas on buckets *)

Definition u32_pos (n : Z) : Prop := 1 ≤ n < 2 ^ 32.

(** A bucket holds between no and [burst] tokens. *)
Definition bucket_ok (rate burst : Z) (b : TokenBucket) : Prop :=
  valid (tb_tokens b) ∧ V (tb_tokens b) ≤ burst * W 0 ∧ tb_rate b = f64_of_Z rate ∧ tb_burst b = f64_of_Z burst.

Lemma bucket_with_ok rate burst now : u32_pos burst → bucket_ok rate burst (bucket_with rate burst now).
Proof. intros [Hb1 Hb2]. destruct (of_Z_exact burst) as [Hv HV]; [lia|]. split_and!; [done|simpl; lia|done..]. Qed.

Lemma refilled_spec rate burst b now :
  u32_pos rate → u32_pos burst → bucket_ok rate burst b → let dt := (now - tb_last b) `max` 0 in dt ≤ 2 ^ 80 →
  valid (refilled b now) ∧ V (refilled b now) ≤ burst * W 0 ∧ (NANOS_PER_SEC ≤ dt → W 0 ≤ V (refilled b now)) ∧
  2 ^ 49 * (V (refilled b now) * NANOS_PER_SEC) ≤
    2 ^ 49 * (V (tb_tokens b) * NANOS_PER_SEC) + (2 ^ 49 + 1) * (rate * (dt * W 0)) + 2 ^ 60 * W 0.
Proof.
  intros Hr Hb (Tv & TV & Er & Eb) dt Hdt. unfold refilled. fold dt. rewrite Er, Eb.
  destruct (inflow_spec rate dt ltac:(destruct Hr; lia) ltac:(lia)) as (Pv & PV & Plow & Pup).
  set (p := f64_mul _ _) in *. set (t := tb_tokens b) in *. pose proof (V_nonneg p Pv). pose proof (V_nonneg t Tv).
  destruct Hb as [Hb1 Hb2]. destruct (of_Z_exact burst) as [Bv BV]; [lia|]. destruct f64_one_value as [Ov OV].
  destruct W_tiny as [Hm0 Hm]. pose proof (W_pos 0 ltac:(done)) as HW0.
  assert (HW900 : W 890 * 2 ^ 10 = W 900) by by apply W_scale.
  assert (HW0' : W 0 * 2 ^ 40 ≤ W 890) by (rewrite <-W_add by done; by apply W_mono).
  destruct (add_rounds t p) as (Uv & Umu & Uml & Uup); [done|done|nia|].
  destruct (min_spec (f64_add t p) (f64_of_Z burst) Uv Bv) as [Mv MV]. set (u := f64_add t p) in *. rewrite MV, BV.
  specialize (Uml f64_one Ov). rewrite OV in Uml. unfold NANOS_PER_SEC in *. change (10 ^ 9) with 1000000000 in *.
  split_and!; [done|lia| |].
  - intros Hsec%Plow. assert (W 0 ≤ V u) by (apply Uml; lia). nia.
  - assert (Hmin : 2 ^ 52 * (V u `min` (burst * W 0)) ≤ 2 ^ 52 * (V t + V p) + 2 ^ 33 * W 0).
    { destruct (decide (V t + V p ≤ burst * W 0)); nia. }
    assert (0 ≤ rate * (dt * W 0)) by (destruct Hr; nia). lia.
Qed.

(** No time, no refill. *)
Lemma refilled_at rate burst b :
  u32_pos rate → u32_pos burst → bucket_ok rate burst b → V (refilled b (tb_last b)) ≤ V (tb_tokens b).
Proof.
  intros [Hr1 Hr2] [Hb1 Hb2] (Tv & TV & Er & Eb). unfold refilled. rewrite Z.sub_diag, Er, Eb.
  change (as_secs_f64 (0 `max` 0)) with (S754_zero false).
  destruct (of_Z_exact rate) as [Rv _]; [lia|]. destruct (of_Z_exact burst) as [Bv BV]; [lia|].
  assert (∃ s, f64_mul (f64_of_Z rate) (S754_zero false) = S754_zero s) as [s ->].
  { destruct (f64_of_Z rate); try done; by eexists. }
  assert (Ha : valid (f64_add (tb_tokens b) (S754_zero s)) ∧ V (f64_add (tb_tokens b) (S754_zero s)) = V (tb_tokens b)).
  { destruct (tb_tokens b) as [[]| | |]; try done; by destruct s. }
  destruct Ha as [Av AV]. destruct (min_spec _ _ Av Bv) as [_ ->]. lia.
Qed.

Definition granted (r : result Z ()) : Z := if is_ok r then 1 else 0.

(** One request: the bucket keeps its bounds; a grant takes one token; what is
    held and granted is at most what was held and flowed in, up to the
    rounding; after a second without requests it is a grant. *)
Lemma acquire_spec rate burst b now :
  u32_pos rate → u32_pos burst → bucket_ok rate burst b → (now - tb_last b) `max` 0 ≤ 2 ^ 80 →
  let '(b', r) := try_acquire b now in
  bucket_ok rate burst b' ∧ tb_last b' = now ∧ (tb_last b + NANOS_PER_SEC ≤ now → r = Ok tt) ∧
  (∀ n, n < 2 ^ 32 → V (refilled b now) ≤ n * W 0 → V (tb_tokens b') ≤ (n - granted r) * W 0) ∧
  2 ^ 49 * ((V (tb_tokens b') + granted r * W 0) * NANOS_PER_SEC) ≤
    2 ^ 49 * (V (tb_tokens b) * NANOS_PER_SEC) + (2 ^ 49 + 1) * (rate * (((now - tb_last b) `max` 0) * W 0)) + 2 ^ 62 * W 0.
Proof.
  intros Hr Hb Hok Hdt. destruct (refilled_spec rate burst b now Hr Hb Hok Hdt) as (Tv & TV & Tlow & Tup).
  destruct Hok as (_ & _ & Er & Eb). unfold try_acquire. set (t := refilled b now) in *.
  destruct f64_one_value as [Ov OV]. pose proof (SFleb_spec f64_one t Ov Tv) as Hge. unfold f64_ge.
  pose proof (W_pos 0 ltac:(done)) as HW0. destruct W_tiny as [Hm0 Hm]. rewrite OV in Hge.
  unfold NANOS_PER_SEC in *. change (10 ^ 9) with 1000000000 in *. destruct Hb as [Hb1 Hb2].
  assert (HW900 : W 0 * 2 ^ 40 ≤ W 900) by (rewrite <-W_add by done; apply W_mono; done).
  destruct (SFleb f64_one t) eqn:El; simpl.
  - assert (HtW : W 0 ≤ V t) by by apply Hge. destruct (sub_rounds t f64_one) as (Sv & Smu & _ & Sup); [done|done|nia|lia|].
    rewrite OV in Smu, Sup. set (s := f64_sub t f64_one) in *.
    assert (Hstep : ∀ n, n < 2 ^ 32 → V t ≤ n * W 0 → V s ≤ (n - 1) * W 0).
    { intros n Hn Ht. destruct (of_Z_exact (n - 1)) as [Nv NV]; [nia|]. rewrite <-NV. apply Smu; [done|]. rewrite NV. lia. }
    split_and!; [|done|done|done|].
    + split_and!; [done| |done|done]. simpl. specialize (Hstep burst Hb2 TV). nia.
    + assert (V t ≤ 2 ^ 32 * W 0) by nia. unfold granted. simpl is_ok. cbv iota. clear - Sup Tup Hm Hm0 HW0 H HtW. lia.
  - assert (HtW : ¬ W 0 ≤ V t) by (rewrite <-Hge; done).
    split_and!; [|done| |intros n _ Ht; unfold granted; simpl; lia|].
    + by split_and!.
    + intros Hs. exfalso. apply HtW, Tlow. lia.
    + unfold granted. simpl is_ok. cbv iota. clear - Tup HW0. lia.
Qed.

(** The requests of a run at the times [ts], and how many are granted. *)
Fixpoint acquire_all (b : TokenBucket) (ts : list Z) : TokenBucket * Z :=
  match ts with
  | [] => (b, 0)
  | now :: ts =>
      let '(b, r) := try_acquire b now in
      let '(b, n) := acquire_all b ts in (b, granted r + n)
  end.

(** A clock that starts at [t], does not go back, and ends before [t']. *)
Fixpoint clock (t : Z) (ts : list Z) (t' : Z) : Prop :=
  match ts with
  | [] => t ≤ t'
  | u :: ts => t ≤ u ∧ clock u ts t'
  end.

Lemma clock_le t ts t' : clock t ts t' → t ≤ t'.
Proof. revert t. induction ts as [|u ts IH]; simpl; [done|]. intros t [? ?%IH]. lia. Qed.

Lemma acquire_all_spec rate burst ts t' : ∀ b,
  u32_pos rate → u32_pos burst → bucket_ok rate burst b → clock (tb_last b) ts t' → t' - tb_last b ≤ 2 ^ 80 →
  2 ^ 49 * ((acquire_all b ts).2 * W 0 * NANOS_PER_SEC) ≤
    2 ^ 49 * (V (tb_tokens b) * NANOS_PER_SEC) + (2 ^ 49 + 1) * (rate * ((t' - tb_last b) * W 0))
    + Z.of_nat (length ts) * (2 ^ 62 * W 0).
Proof.
  pose proof (W_pos 0 ltac:(done)) as HW0.
  induction ts as [|now ts IH]; intros b Hr Hb Hok Hc Ht; simpl in Hc |- *.
  { destruct Hok as (Tv & _). pose proof (V_nonneg _ Tv).
    assert (0 ≤ rate * ((t' - tb_last b) * W 0)) by (destruct Hr; apply Z.mul_nonneg_nonneg; [lia|nia]).
    unfold NANOS_PER_SEC. change (10 ^ 9) with 1000000000. lia. }
  destruct Hc as [Hnow Hc]. pose proof (clock_le _ _ _ Hc).
  pose proof (acquire_spec rate burst b now Hr Hb Hok ltac:(lia)) as Ha. destruct (try_acquire b now) as [b' r].
  destruct Ha as (Hok' & Hlast & _ & _ & Hup). specialize (IH b' Hr Hb Hok'). rewrite Hlast in IH.
  specialize (IH Hc ltac:(lia)). destruct (acquire_all b' ts) as [b'' n]. simpl in IH |- *.
  rewrite Z.max_l in Hup by lia.
  replace (rate * ((t' - tb_last b) * W 0)) with (rate * ((now - tb_last b) * W 0) + rate * ((t' - now) * W 0)) by ring.
  unfold NANOS_PER_SEC in *. change (10 ^ 9) with 1000000000 in *. lia.
Qed.

Lemma acquire_all_instant rate burst now ts : ∀ b n,
  u32_pos rate → u32_pos burst → bucket_ok rate burst b → tb_last b = now → Forall (.= now) ts →
  0 ≤ n < 2 ^ 32 → V (tb_tokens b) ≤ n * W 0 → (acquire_all b ts).2 ≤ n.
Proof.
  pose proof (W_pos 0 ltac:(done)) as HW0.
  induction ts as [|t ts IH]; intros b n Hr Hb Hok Hl Hts Hn HV; simpl; [lia|].
  apply Forall_cons in Hts as [-> Hts].
  pose proof (acquire_spec rate burst b now Hr Hb Hok ltac:(lia)) as Ha.
  pose proof (refilled_at rate burst b Hr Hb Hok) as Hat. rewrite Hl in Hat.
  destruct (try_acquire b now) as [b' r]. destruct Ha as (Hok' & Hlast & _ & Hstep & _).
  specialize (Hstep n ltac:(lia) ltac:(lia)). pose proof (V_nonneg _ (proj1 Hok')) as H0.
  assert (granted r ≤ n) by nia. assert (0 ≤ granted r) by (unfold granted; by case_match).
  specialize (IH b' (n - granted r) Hr Hb Hok' Hlast Hts ltac:(lia) ltac:(lia)).
  destruct (acquire_all b' ts) as [b'' k]. simpl in *. lia.
Qed.

Lemma try_acquire_last b now : tb_last (try_acquire b now).1 = now.
Proof. unfold try_acquire. by case_match. Qed.

Lemma acquire_all_ok rate burst ts t' : ∀ b,
  u32_pos rate → u32_pos burst → bucket_ok rate burst b → clock (tb_last b) ts t' → t' - tb_last b ≤ 2 ^ 80 →
  bucket_ok rate burst (acquire_all b ts).1 ∧ tb_last b ≤ tb_last (acquire_all b ts).1 ≤ t'.
Proof.
  induction ts as [|now ts IH]; intros b Hr Hb Hok Hc Ht; simpl in *; [by split_and!|].
  destruct Hc as [Hnow Hc]. pose proof (clock_le _ _ _ Hc).
  pose proof (acquire_spec rate burst b now Hr Hb Hok ltac:(lia)) as Ha. destruct (try_acquire b now) as [b' r].
  destruct Ha as (Hok' & Hlast & _). specialize (IH b' Hr Hb Hok'). rewrite Hlast in IH.
  specialize (IH Hc ltac:(lia)). destruct (acquire_all b' ts) as [b'' n]. simpl in *. split; [apply IH|lia].
Qed.

Lemma clock_instant t ts : clock t ts t → Forall (.= t) ts.
Proof.
  induction ts as [|u ts IH]; [constructor|]. intros [Hu Hc]. pose proof (clock_le _ _ _ Hc).
  assert (u = t) as -> by lia. constructor; [done|]. by apply IH.
Qed.

(** What is missing to one token is not vanishingly small. *)
Lemma below_one t : valid t → V t < W 0 → W (-53) ≤ W 0 - V t.
Proof.
  intros Hv Ht. pose proof (W_pos (-53) ltac:(done)) as H53.
  assert (H0 : W (-53) * 2 ^ 53 = W 0) by by apply W_scale.
  destruct t as [s| | |s m e]; [simpl in *; lia|done|done|]. apply valid_finite in Hv as (_ & He & Hm & _). simpl in *.
  destruct (decide (-53 ≤ e)) as [Hge|Hlt].
  - assert (W (-53) ≤ W e) by (apply W_mono; done). assert (He0 : e < 0).
    { destruct (decide (e < 0)); [done|]. assert (W 0 ≤ W e) by (apply W_mono; [done|lia]). nia. }
    assert (Hs : W e * 2 ^ (- e) = W 0) by (apply W_scale; unfold B; lia).
    assert (Zpos m < 2 ^ (- e)) by (apply (Z.mul_lt_mono_pos_r (W e)); lia). nia.
  - assert (Hle : W e * 2 ≤ W (-53)) by (change 2 with (2 ^ 1); rewrite <-W_add by (unfold B; lia); apply W_mono; unfold B; lia).
    nia.
Qed.

Lemma ceil_pos_ge m e : 1 ≤ ceil_pos m e.
Proof.
  unfold ceil_pos. case_match; bool_simp.
  - assert (0 < 2 ^ e) by (apply Z.pow_pos_nonneg; lia). nia.
  - assert (0 < 2 ^ (- e)) by (apply Z.pow_pos_nonneg; lia).
    assert (- Zpos m / 2 ^ (- e) < 0); [apply Z.div_lt_upper_bound; lia|lia].
Qed.

Lemma retry_after_pos rate t :
  u32_pos rate → valid t → V t < W 0 → 1 ≤ f64_ceil_u64 (f64_div (f64_sub f64_one t) (f64_of_Z rate)).
Proof.
  intros [Hr1 Hr2] Tv Ht. destruct f64_one_value as [Ov OV]. destruct (of_Z_exact rate) as [Rv RV]; [lia|].
  pose proof (below_one t Tv Ht) as Hlow. pose proof (W_pos 0 ltac:(done)) as HW0. pose proof (V_nonneg t Tv).
  assert (HW900 : W 0 * 2 ^ 40 ≤ W 900) by (rewrite <-W_add by done; apply W_mono; done).
  destruct (sub_rounds f64_one t) as (Dv & Dmu & Dml & _); [done|done|lia|lia|]. rewrite OV in Dmu, Dml.
  set (d := f64_sub f64_one t) in *.
  assert (Hd1 : V d ≤ W 0) by (rewrite <-OV; apply Dmu; [done|lia]).
  assert (Hd0 : W (-53) ≤ V d).
  { assert (HV : V (S754_finite false 4503599627370496 (-105)) = W (-53)).
    { unfold V. rewrite Z.mul_comm. change 4503599627370496 with (2 ^ 52). by apply W_scale. }
    rewrite <-HV. apply Dml; [done|]. rewrite HV. lia. }
  pose proof (W_pos (-1000) ltac:(done)). pose proof (W_pos (-1074) ltac:(done)).
  assert (Hl : W (-1000) * 2 ^ 32 ≤ W (-53)) by (rewrite <-W_add by done; apply W_mono; done).
  destruct (div_rounds d (f64_of_Z rate)) as (Wv & _ & Wml & _); [done|done|rewrite RV; nia| | |].
  { right. rewrite RV. replace (W (-1000) * (rate * W 0)) with (W (-1000) * rate * W 0) by ring.
    apply Z.mul_le_mono_nonneg_r; [lia|]. nia. }
  { rewrite RV. replace (W 900 * (rate * W 0)) with (W 900 * rate * W 0) by ring.
    apply Z.mul_le_mono_nonneg_r; [lia|]. nia. }
  set (w := f64_div _ _) in *. assert (Hw : W (-1074) ≤ V w).
  { assert (HV : V (S754_finite false 1 (-1074)) = W (-1074)) by (unfold V; lia).
    rewrite <-HV. apply Wml; [done|]. rewrite HV, RV.
    assert (Hl2 : W (-1074) * 2 ^ 32 ≤ W (-53)) by (rewrite <-W_add by done; apply W_mono; done).
    replace (W (-1074) * (rate * W 0)) with (W (-1074) * rate * W 0) by ring. apply Z.mul_le_mono_nonneg_r; [lia|]. nia. }
  destruct w as [s| | |s m e]; [simpl in Hw; lia|done|done|]. apply valid_finite in Wv as (-> & _).
  unfold f64_ceil_u64. pose proof (ceil_pos_ge m e). unfold u64_max. lia.
Qed.

(** ** Clients *)

Definition entry_of (k : ClientKey) (l : list (ClientKey * TokenBucket)) : option TokenBucket :=
  snd <$> List.find (λ p, bool_decide (p.1 = k)) l.

(** What the crate documents: the bucket of the key, or a new one; the entry
    becomes the most recently used; a new entry in a full map replaces the
    least recently used. *)
Class ClientMapLaws `{ClientMap} := {
  cm_cap : client_map → Z;
  cm_new_spec cap : 0 < cap → cm_entries (cm_new cap) = [] ∧ cm_cap (cm_new cap) = cap;
  cm_get_or_insert_mut_spec {A} m k init (f : TokenBucket → TokenBucket * A) :
    let old := entry_of k (cm_entries m) in
    let '(m', a) := cm_get_or_insert_mut m k init f in
    a = (f (default init old)).2 ∧ cm_cap m' = cm_cap m ∧
    cm_entries m' = (k, (f (default init old)).1) ::
      (if old then filter (λ p, p.1 ≠ k) (cm_entries m)
       else if Z.of_nat (length (cm_entries m)) <? cm_cap m then cm_entries m else removelast (cm_entries m));
}.

Definition bucket_of `{ClientMap} (l : PerClientLimiter) (k : ClientKey) : option TokenBucket :=
  entry_of k (cm_entries (pcl_map l)).

Lemma entry_of_cons k b k' l : entry_of k' ((k, b) :: l) = if bool_decide (k = k') then Some b else entry_of k' l.
Proof. unfold entry_of. simpl. by case_bool_decide. Qed.

Lemma entry_of_without k k' l : k' ≠ k → entry_of k' (filter (λ p, p.1 ≠ k) l) = entry_of k' l.
Proof.
  intros Hne. induction l as [|[x b] l IH]; [done|]. rewrite entry_of_cons. destruct (decide (x = k)) as [->|Hx].
  - rewrite filter_cons_False by (simpl; tauto). by rewrite bool_decide_eq_false_2, IH by done.
  - rewrite filter_cons_True by done. rewrite entry_of_cons. by case_bool_decide.
Qed.

(** Dropping the last entry loses at most its key. *)
Lemma entry_of_removelast k l : entry_of k (removelast l) = entry_of k l ∨ entry_of k (removelast l) = None.
Proof.
  induction l as [|[x b] l IH]; [by left|]. destruct l as [|y l]; [by right|].
  change (removelast ((x, b) :: y :: l)) with ((x, b) :: removelast (y :: l)). rewrite !entry_of_cons.
  case_bool_decide; [by left|done].
Qed.

(** ** Properties *)


(** C33: [Retry-After] is honest: a refused request is told to wait at least a
    second, and the next request is admitted when it comes after that time. *)
Theorem retry_after_honest rate burst b now b' r later :
  u32_pos rate → u32_pos burst → bucket_ok rate burst b → tb_last b ≤ now → now - tb_last b ≤ 2 ^ 80 →
  try_acquire b now = (b', Err r) → now + r * NANOS_PER_SEC ≤ later → later - now ≤ 2 ^ 80 →
  1 ≤ r ∧ (try_acquire b' later).2 = Ok tt.
Proof.
  intros Hr Hb Hok Hnow Hdt Ha Hl Hdt'. pose proof (acquire_spec rate burst b now Hr Hb Hok ltac:(lia)) as Hs.
  pose proof (refilled_spec rate burst b now Hr Hb Hok ltac:(lia)) as (Tv & _).
  rewrite Ha in Hs. destruct Hs as (Hok' & Hlast & _).
  assert (H1 : 1 ≤ r).
  { unfold try_acquire in Ha. case_match eqn:El; [done|]. injection Ha as <- <-. destruct Hok as (_ & _ & Er & _).
    rewrite Er. apply retry_after_pos; [done|done|]. destruct f64_one_value as [Ov OV]. rewrite <-OV.
    destruct (decide (V (refilled b now) < V f64_one)); [done|exfalso].
    assert (SFleb f64_one (refilled b now) = true); [apply SFleb_spec; [done|done|lia]|]. unfold f64_ge in El. congruence. }
  assert (NANOS_PER_SEC ≤ r * NANOS_PER_SEC) by (unfold NANOS_PER_SEC; lia).
  split; [done|]. pose proof (acquire_spec rate burst b' later Hr Hb Hok' ltac:(rewrite Hlast; unfold NANOS_PER_SEC in *; lia)) as Hs.
  destruct (try_acquire b' later) as [b'' r']. destruct Hs as (_ & _ & Hg & _). apply Hg. lia.
Qed.

(** Clients are limited apart from each other. The answer to a client
    depends on the client's own bucket, a full one when the client is not in the
    map; the bucket of another client is not changed, except that the least
    recently used entry makes room for a new one in a full map; and there are
    never more entries than the configuration allows. *)
Theorem per_client_independent `{ClientMap, !ClientMapLaws} l k now :
  0 < cm_cap (pcl_map l) → Z.of_nat (length (cm_entries (pcl_map l))) ≤ cm_cap (pcl_map l) →
  let '(l', r) := per_client_check l k now in
  let '(b', r') := try_acquire (default (from_per_client (pcl_cfg l) now) (bucket_of l k)) now in
  r = r' ∧ bucket_of l' k = Some b' ∧
  (∀ k', k' ≠ k → bucket_of l' k' = bucket_of l k' ∨
     bucket_of l' k' = None ∧ bucket_of l k = None ∧ Z.of_nat (length (cm_entries (pcl_map l))) = cm_cap (pcl_map l)) ∧
  Z.of_nat (length (cm_entries (pcl_map l'))) ≤ cm_cap (pcl_map l').
Proof.
  intros Hcap Hlen. unfold per_client_check, bucket_of.
  pose proof (cm_get_or_insert_mut_spec (pcl_map l) k (from_per_client (pcl_cfg l) now) (λ b, try_acquire b now)) as Hs.
  destruct (cm_get_or_insert_mut _ _ _ _) as [m' a]. destruct Hs as (-> & Hc & He). cbn [pcl_map] in *.
  destruct (try_acquire _ now) as [b' r']. simpl in He. rewrite He, Hc, entry_of_cons, bool_decide_eq_true_2 by done.
  set (es := cm_entries (pcl_map l)) in *. split_and!; [done|done| |].
  - intros k' Hk. rewrite entry_of_cons, bool_decide_eq_false_2 by done.
    destruct (entry_of k es) eqn:Ek; [left; by apply entry_of_without|]. case_match eqn:El; [by left|]. bool_simp.
    destruct (entry_of_removelast k' es) as [->| ->]; [by left|right]. split_and!; [done|done|lia].
  - simpl length. destruct (entry_of k es) eqn:Ek.
    + assert (length (filter (λ p, p.1 ≠ k) es) < length es)%nat; [|lia].
      unfold entry_of in Ek. destruct (List.find _ es) as [x|] eqn:Ef; [|done].
      apply List.find_some in Ef as [Hin Hx]. bool_simp. apply (length_filter_lt _ _ x); [by apply list_elem_of_In|tauto].
    + case_match; bool_simp; [lia|]. destruct (decide (es = [])) as [->|Hne]; [simpl in *; lia|].
      destruct (exists_last Hne) as (es' & x & ->). rewrite removelast_last, !length_app in *. simpl in *. lia.
Qed.

(** ** Witnesses *)

Module ToyLimiter.
(** The map as the list of its entries. *)
#[export] Instance toy_clients : ClientMap := {|
  client_map := Z * list (ClientKey * TokenBucket);
  cm_new cap := (cap, []);
  cm_entries := snd;
  cm_get_or_insert_mut A m k init f :=
    let old := entry_of k m.2 in
    let '(b, a) := f (default init old) in
    ((m.1, (k, b) :: (if old then filter (λ p, p.1 ≠ k) m.2
                      else if Z.of_nat (length m.2) <? m.1 then m.2 else removelast m.2)), a);
|}.

#[export] Instance toy_clients_laws : ClientMapLaws.
Proof.
  refine {| cm_cap := fst : client_map → Z |}; [done|]. intros A m k init f. simpl.
  by destruct (f (default init (entry_of k m.2))).
Defined.

Definition bucket : TokenBucket := (acquire_all (bucket_with 10 3 0) [0]).1.
Definition times : list Z := [0; 0; 0; 10 ^ 9].
Definition config : PerClientConfig := {| pc_rate := 1; pc_burst := 1; max_clients := 1 |}.
Definition alice : ClientKey := KPrincipal "alice".
Definition limiter : PerClientLimiter := (per_client_check (mkPerClient (cm_new 1) config) (KIp (V4 [127; 0; 0; 1])) 0).1.
End ToyLimiter.

Import ToyLimiter.


Lemma retry_after_honest_witness :
  let '(b, r) := try_acquire (bucket_with 1 1 0) 0 in
  r = Ok tt ∧ (try_acquire b 0).2 = Err 1 ∧ (try_acquire (try_acquire b 0).1 (10 ^ 9)).2 = Ok tt.
Proof.
  destruct (try_acquire (bucket_with 1 1 0) 0) as [b r] eqn:E.
  assert (H1 : u32_pos 1) by (unfold u32_pos; lia).
  pose proof (acquire_spec 1 1 (bucket_with 1 1 0) 0 H1 H1 (bucket_with_ok 1 1 0 H1) ltac:(simpl; lia)) as Hs.
  rewrite E in Hs. destruct Hs as (Hok & Hl & _).
  vm_compute in E. injection E as <- <-. split; [reflexivity|]. split; [vm_compute; reflexivity|].
  match goal with |- context [try_acquire ?b 0] => set (b0 := b) in * end.
  destruct (try_acquire b0 0) as [b' r] eqn:E. assert (Er : (try_acquire b0 0).2 = Err 1) by (vm_compute; reflexivity).
  rewrite E in Er. simpl in Er. subst r.
  refine (proj2 (retry_after_honest 1 1 b0 0 b' 1 (10 ^ 9) H1 H1 Hok _ _ E _ _)); rewrite ?Hl; unfold NANOS_PER_SEC; lia.
Defined.

(** A map for one client: another one takes the place of the first. *)
Lemma per_client_independent_witness :
  let '(l', r) := per_client_check limiter alice 5 in
  r = Ok tt ∧ bucket_of l' alice = Some (try_acquire (bucket_with 1 1 5) 5).1 ∧ Z.of_nat (length (cm_entries (pcl_map l'))) ≤ 1.
Proof.
  assert (H0 : 0 < cm_cap (pcl_map limiter)) by (vm_compute; reflexivity).
  assert (H1 : Z.of_nat (length (cm_entries (pcl_map limiter))) ≤ cm_cap (pcl_map limiter)) by (vm_compute; discriminate).
  pose proof (per_client_independent limiter alice 5 H0 H1) as Hi.
  assert (Hb : default (from_per_client (pcl_cfg limiter) 5) (bucket_of limiter alice) = bucket_with 1 1 5) by (vm_compute; reflexivity).
  rewrite Hb in Hi. destruct (per_client_check limiter alice 5) as [l' r] eqn:E.
  destruct (try_acquire (bucket_with 1 1 5) 5) as [b' r'] eqn:Et. destruct Hi as (-> & Hk & _ & Hlen).
  assert (Hc : cm_cap (pcl_map (per_client_check limiter alice 5).1) = 1) by (vm_compute; reflexivity).
  rewrite E in Hc. change (pcl_map (l', r').1) with (pcl_map l') in Hc. rewrite Hc in Hlen.
  assert (Hr : (try_acquire (bucket_with 1 1 5) 5).2 = Ok tt) by (vm_compute; reflexivity). rewrite Et in Hr.
  split; [exact Hr|]. split; [exact Hk|exact Hlen].
Defined.
