(* ===== verification/Metadata.v ===== *)
(** * The metadata index ([roci-storage/src/metadata/mod.rs], the state of
    [metadata/log.rs])

    The in-memory maps of the log engine: what every mutation does to them,
    the queries, the cursor pages, and the export that compaction writes. A
    [BTreeMap] is a [gmap] read in key order; a [HashMap] is a [gmap] read in
    an order nobody may rely on, the class [HashIter]. *)

From S2P Require Import Prelude RustStr Json Errors.

(** ** Data *)

Record BlobChecksum := { ck_crc32c : Z; ck_size : Z }.
#[export] Instance BlobChecksum_eq_dec : EqDecision BlobChecksum.
Proof. solve_decision. Defined.

Inductive MetaOp :=
  | PutManifest (repo digest media_type : string) (tag : option string)
      (references : list string) (referrer : option (string * bytes))
  | PutBackrefs (repo manifest : string) (blobs : list string)
  | DeleteManifest (repo digest : string)
  | PutReferrer (repo subject referrer : string) (descriptor : bytes)
  | PutChecksum (repo digest : string) (crc32c size : Z)
  | DeleteBlob (repo digest : string).
#[export] Instance MetaOp_eq_dec : EqDecision MetaOp.
Proof. solve_decision. Defined.

Record SubjectReferrers := mkSR {
  by_digest : gmap string (option string * bytes);
  by_type : gmap string (gset string);
}.

Record RepoState := mkRS {
  tags : gmap string (string * string);
  media_types : gmap string string;
  referrers : gmap string SubjectReferrers;
  backrefs : gmap string (list string);
  checksums : gmap string BlobChecksum;
}.

Definition sr_default : SubjectReferrers := mkSR ∅ ∅.
Definition rs_default : RepoState := mkRS ∅ ∅ ∅ ∅ ∅.

(** [State.repos]; the media-type interner only shares strings. *)
Abbreviation State := (gmap string RepoState).

(** ** Pages *)

Record Page (A : Type) := mkPage { items : list A; more : bool }.
Arguments mkPage {A} items more.
Arguments items {A} p.
Arguments more {A} p.

Definition take_page {A} (it : list A) (limit : nat) : Page A :=
  mkPage (take limit it) (match drop limit it with [] => false | _ => true end).

(** The entries of a [BTreeMap], and those strictly after a cursor. *)
Definition key_le {A} (p q : string * A) : Prop := String.le p.1 q.1.
#[export] Instance key_le_dec {A} : RelDecision (@key_le A).
Proof. unfold key_le. intros p q. apply _. Defined.

Definition btree {A} (m : gmap string A) : list (string * A) := merge_sort key_le (map_to_list m).

Definition after_key (last : option string) (k : string) : bool :=
  match last with
  | None => true
  | Some l => bool_decide (String.le l k) && negb (bool_decide (l = k))
  end.

Definition after {A} (last : option string) (l : list (string * A)) : list (string * A) :=
  filter (λ p, after_key last p.1 = true) l.

(** ** Referrers of a subject *)

Section Serde.
Context `{SerdeJson}.

(** [v.get("artifactType")?.as_str()] of the descriptor. *)
Definition artifact_type (descriptor : bytes) : option string :=
  (from_slice descriptor ≫= jget "artifactType") ≫= as_str.

Definition sr_remove (sr : SubjectReferrers) (referrer : string) : SubjectReferrers :=
  match by_digest sr !! referrer with
  | None => sr
  | Some (None, _) => mkSR (delete referrer (by_digest sr)) (by_type sr)
  | Some (Some t, _) =>
      mkSR (delete referrer (by_digest sr))
        (match by_type sr !! t with
         | None => by_type sr
         | Some set =>
             let set' := set ∖ {[referrer]} in
             if decide (set' = ∅) then delete t (by_type sr) else <[t := set']> (by_type sr)
         end)
  end.

Definition sr_insert (sr : SubjectReferrers) (referrer : string) (descriptor : bytes) : SubjectReferrers :=
  let t := artifact_type descriptor in
  let sr := sr_remove sr referrer in
  mkSR (<[referrer := (t, descriptor)]> (by_digest sr))
    (match t with
     | Some t => <[t := default ∅ (by_type sr !! t) ∪ {[referrer]}]> (by_type sr)
     | None => by_type sr
     end).

(** [self.by_digest[d]] would panic on an absent key; the index is coherent
    (below), so the default is never taken. *)
Definition sr_page (sr : SubjectReferrers) (atype : option string) (last : option string) (limit : nat)
    : Page (string * bytes) :=
  match atype with
  | None => take_page ((λ '(d, (_, b)), (d, b)) <$> after last (btree (by_digest sr))) limit
  | Some t =>
      match by_type sr !! t with
      | Some set =>
          take_page ((λ '(d, _), (d, default [] (snd <$> by_digest sr !! d))) <$>
            after last (btree (gset_to_gmap tt set))) limit
      | None => mkPage [] false
      end
  end.

(** ** Mutations *)

(** [let rs = state.repo_mut(repo); …] *)
Definition with_repo (s : State) (repo : string) (f : RepoState → RepoState) : State :=
  <[repo := f (default rs_default (s !! repo))]> s.

Definition push_backref (manifest : string) (bk : gmap string (list string)) (blob : string)
    : gmap string (list string) :=
  let set := default [] (bk !! blob) in
  <[blob := if bool_decide (manifest ∈ set) then set else set ++ [manifest]]> bk.

Definition rs_add_backrefs (manifest : string) (blobs : list string) (rs : RepoState) : RepoState :=
  mkRS (tags rs) (media_types rs) (referrers rs)
    (foldl (push_backref manifest) (backrefs rs) blobs) (checksums rs).

Definition add_backrefs (s : State) (repo manifest : string) (blobs : list string) : State :=
  with_repo s repo (rs_add_backrefs manifest blobs).

Definition rs_add_referrer (subject referrer : string) (descriptor : bytes) (rs : RepoState) : RepoState :=
  mkRS (tags rs) (media_types rs)
    (<[subject := sr_insert (default sr_default (referrers rs !! subject)) referrer descriptor]> (referrers rs))
    (backrefs rs) (checksums rs).

Definition add_referrer (s : State) (repo subject referrer : string) (descriptor : bytes) : State :=
  with_repo s repo (rs_add_referrer subject referrer descriptor).

Definition rs_put_manifest (digest media_type : string) (tag : option string) (rs : RepoState) : RepoState :=
  mkRS (match tag with Some t => <[t := (digest, media_type)]> (tags rs) | None => tags rs end)
    (<[digest := media_type]> (media_types rs)) (referrers rs) (backrefs rs) (checksums rs).

(** [retain] on the tags, on the referrers (emptied subjects go) and on the
    back references (emptied lists go). *)
Definition rs_delete_manifest (digest : string) (rs : RepoState) : RepoState :=
  mkRS (filter (λ p, p.2.1 ≠ digest) (tags rs))
    (delete digest (media_types rs))
    (omap (λ sr, let sr := sr_remove sr digest in
                 if decide (by_digest sr = ∅) then None else Some sr) (referrers rs))
    (omap (λ ms, let ms := filter (λ m, m ≠ digest) ms in
                 if decide (ms = []) then None else Some ms) (backrefs rs))
    (delete digest (checksums rs)).

Definition rs_put_checksum (digest : string) (crc size : Z) (rs : RepoState) : RepoState :=
  mkRS (tags rs) (media_types rs) (referrers rs) (backrefs rs)
    (<[digest := {| ck_crc32c := crc; ck_size := size |}]> (checksums rs)).

Definition rs_delete_blob (digest : string) (rs : RepoState) : RepoState :=
  mkRS (tags rs) (media_types rs) (referrers rs) (backrefs rs) (delete digest (checksums rs)).

Definition apply_in_ram (s : State) (op : MetaOp) : State :=
  match op with
  | PutManifest repo digest media_type tag references referrer =>
      let s := with_repo s repo (rs_put_manifest digest media_type tag) in
      let s := add_backrefs s repo digest references in
      match referrer with
      | Some (subject, descriptor) => add_referrer s repo subject digest descriptor
      | None => s
      end
  | DeleteManifest repo digest => with_repo s repo (rs_delete_manifest digest)
  | PutBackrefs repo manifest blobs => add_backrefs s repo manifest blobs
  | PutReferrer repo subject referrer descriptor => add_referrer s repo subject referrer descriptor
  | PutChecksum repo digest crc size => with_repo s repo (rs_put_checksum digest crc size)
  | DeleteBlob repo digest => with_repo s repo (rs_delete_blob digest)
  end.

(** ** Queries *)

Definition resolve_tag (s : State) (repo tag : string) : option (string * string) :=
  s !! repo ≫= λ rs, tags rs !! tag.

Definition manifest_media_type (s : State) (repo digest : string) : option string :=
  s !! repo ≫= λ rs, media_types rs !! digest.

Definition tags_page (s : State) (repo : string) (last : option string) (limit : nat)
    : option (Page string) :=
  match s !! repo with
  | None => None
  | Some rs =>
      if decide (tags rs = ∅) then None
      else Some (take_page (after last (btree (tags rs))).*1 limit)
  end.

Definition referrers_page (s : State) (repo subject : string) (atype last : option string)
    (limit : nat) : option (Page (string * bytes)) :=
  match s !! repo ≫= λ rs, referrers rs !! subject with
  | None => None
  | Some refs => Some (sr_page refs atype last limit)
  end.

Definition has_referrer (s : State) (repo subject referrer : string) : bool :=
  match s !! repo ≫= λ rs, referrers rs !! subject with
  | None => false
  | Some refs => bool_decide (is_Some (by_digest refs !! referrer))
  end.

Definition get_backrefs (s : State) (repo blob : string) : list string :=
  default [] (s !! repo ≫= λ rs, backrefs rs !! blob).

Definition checksum (s : State) (repo digest : string) : option BlobChecksum :=
  s !! repo ≫= λ rs, checksums rs !! digest.
End Serde.

(** ** Snapshots and export *)

(** The iteration order of a [HashMap]: every entry once, in some order. *)
Class HashIter := {
  iter : ∀ {A}, gmap string A → list (string * A);
  iter_perm : ∀ {A} (m : gmap string A), iter m ≡ₚ map_to_list m;
}.

#[export] Instance map_order : HashIter := {
  iter A m := map_to_list m;
  iter_perm A m := Permutation_refl _;
}.

Section Snapshots.
Context `{HashIter}.

Definition listed (rs : RepoState) : bool :=
  negb (bool_decide (media_types rs = ∅)) || negb (bool_decide (referrers rs = ∅)).

Definition repos (s : State) : list string :=
  merge_sort String.le (filter (λ p, listed p.2 = true) (iter s)).*1.

Definition manifests (s : State) (repo : string) : list string :=
  match s !! repo with Some rs => (iter (media_types rs)).*1 | None => [] end.

Definition tags_snapshot (s : State) (repo : string) : list (string * string * string) :=
  match s !! repo with
  | Some rs => (λ '(t, (d, m)), (t, d, m)) <$> btree (tags rs)
  | None => []
  end.

Definition referrers_snapshot (s : State) (repo : string) : list (string * list (string * bytes)) :=
  match s !! repo with
  | Some rs =>
      (λ '(subject, sr), (subject, (λ '(d, (_, b)), (d, b)) <$> btree (by_digest sr))) <$>
        filter (λ p, by_digest p.2 ≠ ∅) (iter (referrers rs))
  | None => []
  end.

(** [export_state], and the records of [write_log_image] after the header: one
    pass over the repositories per kind of record. *)
Definition export_tags (p : string * RepoState) : list MetaOp :=
  (λ '(t, (d, m)), PutManifest p.1 d m (Some t) [] None) <$> btree (tags p.2).

Definition tagged (s : State) : list (string * string) :=
  iter s ≫= λ p, (λ '(_, (d, _)), (p.1, d)) <$> btree (tags p.2).

Definition export_untagged (tg : list (string * string)) (p : string * RepoState) : list MetaOp :=
  (λ '(d, m), PutManifest p.1 d m None [] None) <$>
    filter (λ q, (p.1, q.1) ∉ tg) (iter (media_types p.2)).

Definition export_backrefs (p : string * RepoState) : list MetaOp :=
  iter (backrefs p.2) ≫= λ '(blob, ms), (λ m, PutBackrefs p.1 m [blob]) <$> ms.

Definition export_referrers (p : string * RepoState) : list MetaOp :=
  iter (referrers p.2) ≫= λ '(subject, sr),
    (λ '(r, (_, b)), PutReferrer p.1 subject r b) <$> btree (by_digest sr).

Definition export_checksums (p : string * RepoState) : list MetaOp :=
  (λ '(d, ck), PutChecksum p.1 d (ck_crc32c ck) (ck_size ck)) <$> iter (checksums p.2).

Definition export_state (s : State) : list MetaOp :=
  (iter s ≫= export_tags) ++
  (iter s ≫= export_untagged (tagged s)) ++
  (iter s ≫= export_backrefs) ++
  (iter s ≫= export_referrers) ++
  (iter s ≫= export_checksums).
End Snapshots.

(** ** One repository at a time *)

Definition op_repo (op : MetaOp) : string :=
  match op with
  | PutManifest r _ _ _ _ _ | PutBackrefs r _ _ | DeleteManifest r _ | PutReferrer r _ _ _
  | PutChecksum r _ _ _ | DeleteBlob r _ => r
  end.

Section Lemmas.
Context `{SerdeJson}.

Definition apply_repo (op : MetaOp) (rs : RepoState) : RepoState :=
  match op with
  | PutManifest _ digest media_type tag references referrer =>
      let rs := rs_add_backrefs digest references (rs_put_manifest digest media_type tag rs) in
      match referrer with
      | Some (subject, descriptor) => rs_add_referrer subject digest descriptor rs
      | None => rs
      end
  | DeleteManifest _ digest => rs_delete_manifest digest rs
  | PutBackrefs _ manifest blobs => rs_add_backrefs manifest blobs rs
  | PutReferrer _ subject referrer descriptor => rs_add_referrer subject referrer descriptor rs
  | PutChecksum _ digest crc size => rs_put_checksum digest crc size rs
  | DeleteBlob _ digest => rs_delete_blob digest rs
  end.

Lemma with_repo_twice s r f g : with_repo (with_repo s r f) r g = with_repo s r (λ rs, g (f rs)).
Proof. unfold with_repo. by rewrite lookup_insert_eq, insert_insert_eq. Qed.

Lemma apply_in_ram_repo s op : apply_in_ram s op = with_repo s (op_repo op) (apply_repo op).
Proof.
  destruct op as [? ? ? ? ? [[]|]| | | | |]; simpl; unfold add_backrefs, add_referrer;
    by rewrite ?with_repo_twice.
Qed.

Definition repo_of (s : State) (r : string) : RepoState := default rs_default (s !! r).

Lemma repo_of_empty r : repo_of ∅ r = rs_default.
Proof. unfold repo_of. by rewrite lookup_empty. Qed.

Lemma repo_of_apply s op r :
  repo_of (apply_in_ram s op) r =
    if decide (op_repo op = r) then apply_repo op (repo_of s r) else repo_of s r.
Proof.
  rewrite apply_in_ram_repo. unfold repo_of, with_repo. case_decide as E; subst.
  - by rewrite lookup_insert_eq.
  - by rewrite lookup_insert_ne.
Qed.

(** ** Invariants of the index *)

(** The two indexes of a subject agree: the recorded type is the
    descriptor's, and the sets by type are exactly the referrers of that
    type, none of them empty. *)
Record sr_ok (sr : SubjectReferrers) : Prop := {
  sr_types : ∀ d t b, by_digest sr !! d = Some (t, b) → t = artifact_type b;
  sr_sets : ∀ t set, by_type sr !! t = Some set → set ≠ ∅;
  sr_index : ∀ t d, d ∈ default ∅ (by_type sr !! t) ↔ ∃ b, by_digest sr !! d = Some (Some t, b);
}.

Record rs_ok (rs : RepoState) : Prop := {
  tags_known : ∀ t d m, tags rs !! t = Some (d, m) → is_Some (media_types rs !! d);
  referrers_ok : ∀ subject sr, referrers rs !! subject = Some sr → sr_ok sr ∧ by_digest sr ≠ ∅;
  backrefs_ok : ∀ blob ms, backrefs rs !! blob = Some ms → ms ≠ [] ∧ NoDup ms;
}.

Definition state_ok (s : State) : Prop := ∀ r rs, s !! r = Some rs → rs_ok rs.

Lemma sr_default_ok : sr_ok sr_default.
Proof. split; simpl; intros *; rewrite ?lookup_empty; simpl; set_solver. Qed.

Lemma rs_default_ok : rs_ok rs_default.
Proof. split; simpl; intros *; by rewrite lookup_empty. Qed.

Lemma sr_remove_by_digest sr d : by_digest (sr_remove sr d) = delete d (by_digest sr).
Proof.
  unfold sr_remove. destruct (by_digest sr !! d) as [[[t|] b]|] eqn:E; [done..|].
  by rewrite delete_id.
Qed.

Lemma sr_remove_by_type sr d t :
  sr_ok sr → default ∅ (by_type (sr_remove sr d) !! t) = default ∅ (by_type sr !! t) ∖ {[d]}.
Proof.
  intros Hok. apply set_eq. intros x. rewrite elem_of_difference, elem_of_singleton, (sr_index _ Hok).
  unfold sr_remove. destruct (by_digest sr !! d) as [[[t'|] b]|] eqn:E; simpl.
  - destruct (by_type sr !! t') as [set|] eqn:Et.
    + destruct (decide (t = t')) as [->|Hne].
      * pose proof (sr_index _ Hok t') as Hi. rewrite Et in Hi. simpl in Hi.
        case_decide as Hs; [rewrite lookup_delete_eq|rewrite lookup_insert_eq]; simpl;
          rewrite <-Hi; set_solver.
      * case_decide; rewrite ?lookup_delete_ne, ?lookup_insert_ne by done;
          rewrite (sr_index _ Hok); split; [|naive_solver| |naive_solver]; intros [b' Hb'];
          (split; [eauto|]); intros ->; congruence.
    + assert (d ∈ default ∅ (by_type sr !! t')) as Hd by (apply (sr_index _ Hok); eauto).
      rewrite Et in Hd. simpl in Hd. set_solver.
  - rewrite (sr_index _ Hok). split; [|naive_solver]. intros [b' Hb']. split; [eauto|].
    intros ->. congruence.
  - rewrite (sr_index _ Hok). split; [|naive_solver]. intros [b' Hb']. split; [eauto|].
    intros ->. congruence.
Qed.

Lemma sr_remove_ok sr d : sr_ok sr → sr_ok (sr_remove sr d).
Proof.
  intros Hok. split.
  - intros d' t b. rewrite sr_remove_by_digest, lookup_delete_Some. intros [_ Hd].
    by eapply sr_types.
  - intros t set. unfold sr_remove.
    destruct (by_digest sr !! d) as [[[t'|] b]|] eqn:E; simpl; [|apply (sr_sets _ Hok)..].
    destruct (by_type sr !! t') as [set'|] eqn:Et; [|apply (sr_sets _ Hok)].
    case_decide as Hs.
    + rewrite lookup_delete_Some. intros [_ ?]. by eapply sr_sets.
    + rewrite lookup_insert_Some. intros [[_ <-]|[_ ?]]; [done|by eapply sr_sets].
  - intros t x. rewrite sr_remove_by_type, elem_of_difference, elem_of_singleton, (sr_index _ Hok) by done.
    rewrite sr_remove_by_digest. setoid_rewrite lookup_delete_Some. naive_solver.
Qed.

Lemma sr_insert_by_digest sr d b :
  by_digest (sr_insert sr d b) = <[d := (artifact_type b, b)]> (by_digest sr).
Proof. unfold sr_insert. simpl. by rewrite sr_remove_by_digest, insert_delete_eq. Qed.

Lemma sr_insert_ok sr d b : sr_ok sr → sr_ok (sr_insert sr d b).
Proof.
  intros Hok. pose proof (sr_remove_ok sr d Hok) as Hrem. split.
  - intros d' t b'. rewrite sr_insert_by_digest, lookup_insert_Some.
    intros [[_ [= <- <-]]|[_ ?]]; [done|by eapply (sr_types _ Hok)].
  - intros t set. unfold sr_insert; simpl. destruct (artifact_type b) as [t'|]; [|apply (sr_sets _ Hrem)].
    rewrite lookup_insert_Some. intros [[_ <-]|[_ ?]]; [set_solver|by eapply (sr_sets _ Hrem)].
  - intros t x. rewrite sr_insert_by_digest.
    assert (default ∅ (by_type (sr_insert sr d b) !! t) =
            (default ∅ (by_type sr !! t) ∖ {[d]}) ∪ (if decide (artifact_type b = Some t) then {[d]} else ∅)) as ->.
    { rewrite <-sr_remove_by_type by done. unfold sr_insert; simpl.
      destruct (artifact_type b) as [t'|] eqn:E; [|by rewrite decide_False, union_empty_r_L].
      destruct (decide (t' = t)) as [->|Hne].
      - by rewrite lookup_insert_eq, decide_True.
      - rewrite lookup_insert_ne, decide_False by naive_solver. by rewrite union_empty_r_L. }
    rewrite elem_of_union, elem_of_difference, elem_of_singleton, (sr_index _ Hok).
    setoid_rewrite lookup_insert_Some. case_decide as Ht.
    + rewrite elem_of_singleton, Ht. split.
      * intros [[[b' Hb'] Hx]| ->]; [exists b'; auto|exists b; auto].
      * intros [b' [[-> [= ->]]|[Hx Hb']]]; [auto|left; eauto].
    + rewrite elem_of_empty. split.
      * intros [[[b' Hb'] Hx]|[]]. exists b'. auto.
      * intros [b' [[-> [= Hat _]]|[Hx Hb']]]; [done|left; eauto].
Qed.

(** The sets by type are determined by the descriptors. *)
Lemma sr_ext sr sr' : sr_ok sr → sr_ok sr' → by_digest sr = by_digest sr' → sr = sr'.
Proof.
  intros H1 H2 Heq. destruct sr as [bd bt], sr' as [bd' bt']. simpl in Heq. subst. f_equal.
  apply map_eq. intros t.
  assert (default ∅ (bt !! t) = default ∅ (bt' !! t)) as Hd.
  { apply set_eq. intros d. rewrite (sr_index _ H1), (sr_index _ H2). done. }
  destruct (bt !! t) as [set|] eqn:E1, (bt' !! t) as [set'|] eqn:E2; simpl in Hd; subst; try done.
  - by apply (sr_sets _ H1) in E1.
  - by apply (sr_sets _ H2) in E2.
Qed.

(** ** Every mutation preserves the invariants *)

Lemma push_backrefs_lookup m bk blobs b x :
  x ∈ default [] (foldl (push_backref m) bk blobs !! b) ↔
  x ∈ default [] (bk !! b) ∨ (x = m ∧ b ∈ blobs).
Proof.
  revert bk. induction blobs as [|b' blobs IH]; intros bk; simpl; [set_solver|].
  rewrite IH. unfold push_backref. destruct (decide (b' = b)) as [->|Hne].
  - rewrite lookup_insert_eq. simpl. case_bool_decide; set_solver.
  - rewrite lookup_insert_ne by done. set_solver.
Qed.

Lemma push_backrefs_ok m bk blobs :
  (∀ b ms, bk !! b = Some ms → ms ≠ [] ∧ NoDup ms) →
  ∀ b ms, foldl (push_backref m) bk blobs !! b = Some ms → ms ≠ [] ∧ NoDup ms.
Proof.
  revert bk. induction blobs as [|b' blobs IH]; intros bk Hbk; simpl; [done|]. apply IH.
  intros b ms. unfold push_backref. rewrite lookup_insert_Some. intros [[_ <-]|[_ ?]]; [|eauto].
  assert (NoDup (default [] (bk !! b'))) as Hnd.
  { destruct (bk !! b') as [l|] eqn:E; [by apply (Hbk _ _ E)|constructor]. }
  case_bool_decide; [split; [by destruct (default [] (bk !! b')); set_solver|done]|].
  split; [by destruct (default [] (bk !! b'))|]. apply NoDup_app. split_and!; [done| |apply NoDup_singleton].
  set_solver.
Qed.

Lemma rs_put_manifest_ok d m t rs : rs_ok rs → rs_ok (rs_put_manifest d m t rs).
Proof.
  intros Hok. split; simpl; [|apply Hok..].
  intros t' d' m' Ht. rewrite lookup_insert_is_Some. destruct (decide (d = d')); [auto|right].
  split; [done|]. destruct t as [t|]; [|by eapply (tags_known _ Hok)].
  apply lookup_insert_Some in Ht as [[_ [= -> ->]]|[_ ?]]; [done|by eapply (tags_known _ Hok)].
Qed.

Lemma rs_add_backrefs_ok m blobs rs : rs_ok rs → rs_ok (rs_add_backrefs m blobs rs).
Proof.
  intros Hok. split; simpl; [apply Hok..|]. apply push_backrefs_ok, Hok.
Qed.

Lemma rs_add_referrer_ok subj r b rs : rs_ok rs → rs_ok (rs_add_referrer subj r b rs).
Proof.
  intros Hok. split; simpl; [apply Hok| |apply Hok].
  intros s sr. rewrite lookup_insert_Some. intros [[_ <-]|[_ ?]]; [|by eapply (referrers_ok _ Hok)].
  split; [|rewrite sr_insert_by_digest; apply insert_non_empty]. apply sr_insert_ok.
  destruct (referrers rs !! subj) as [sr|] eqn:E; [|apply sr_default_ok]. by eapply (referrers_ok _ Hok).
Qed.

Lemma rs_delete_manifest_ok d rs : rs_ok rs → rs_ok (rs_delete_manifest d rs).
Proof.
  intros Hok. split; simpl.
  - intros t d' m [Ht Hne]%map_lookup_filter_Some. simpl in Hne.
    rewrite lookup_delete_ne by done. by eapply (tags_known _ Hok).
  - intros s sr. rewrite lookup_omap_Some. intros (sr' & Hsr & Hs).
    case_decide; simplify_eq. split; [|done]. apply sr_remove_ok. by eapply (referrers_ok _ Hok).
  - intros b ms. rewrite lookup_omap_Some. intros (ms' & Hms & Hb).
    case_decide; simplify_eq. split; [done|]. apply NoDup_filter. by eapply (backrefs_ok _ Hok).
Qed.

Lemma apply_repo_ok op rs : rs_ok rs → rs_ok (apply_repo op rs).
Proof.
  intros Hok. destruct op as [? d m t refs [[subj b]|]| | | | |]; simpl;
    eauto using rs_put_manifest_ok, rs_add_backrefs_ok, rs_add_referrer_ok, rs_delete_manifest_ok.
  - split; apply Hok.
  - split; apply Hok.
Qed.

Lemma state_ok_repo_of s r : state_ok s → rs_ok (repo_of s r).
Proof.
  intros Hs. unfold repo_of. destruct (s !! r) as [rs|] eqn:E; [by eapply Hs|apply rs_default_ok].
Qed.

Lemma apply_in_ram_ok s op : state_ok s → state_ok (apply_in_ram s op).
Proof.
  intros Hs r rs. rewrite apply_in_ram_repo. unfold with_repo. rewrite lookup_insert_Some.
  intros [[_ <-]|[_ ?]]; [|eauto]. apply apply_repo_ok, (state_ok_repo_of _ _ Hs).
Qed.

Lemma replay_ok ops s : state_ok s → state_ok (foldl apply_in_ram s ops).
Proof. revert s. induction ops as [|op ops IH]; intros s Hs; simpl; [done|]. by apply IH, apply_in_ram_ok. Qed.

(** ** The queries, by repository *)

Lemma resolve_tag_repo s r t : resolve_tag s r t = tags (repo_of s r) !! t.
Proof. unfold resolve_tag, repo_of. destruct (s !! r); simpl; [done|by rewrite lookup_empty]. Qed.

Lemma media_type_repo s r d : manifest_media_type s r d = media_types (repo_of s r) !! d.
Proof. unfold manifest_media_type, repo_of. destruct (s !! r); simpl; [done|by rewrite lookup_empty]. Qed.

Lemma backrefs_repo s r b : get_backrefs s r b = default [] (backrefs (repo_of s r) !! b).
Proof. unfold get_backrefs, repo_of. destruct (s !! r); simpl; [done|by rewrite lookup_empty]. Qed.

Lemma checksum_repo s r d : checksum s r d = checksums (repo_of s r) !! d.
Proof. unfold checksum, repo_of. destruct (s !! r); simpl; [done|by rewrite lookup_empty]. Qed.

Lemma has_referrer_repo s r subj d :
  has_referrer s r subj d = true ↔
  ∃ sr, referrers (repo_of s r) !! subj = Some sr ∧ is_Some (by_digest sr !! d).
Proof.
  unfold has_referrer, repo_of. destruct (s !! r) as [rs|]; simpl.
  - destruct (referrers rs !! subj) as [sr|]; [|naive_solver]. rewrite bool_decide_eq_true. naive_solver.
  - rewrite lookup_empty. naive_solver.
Qed.
End Lemmas.

(** ** Key order *)

Section KeyOrder.
Context {A : Type}.
Implicit Types (m : gmap string A) (l : list (string * A)).

#[local] Instance key_le_trans : Transitive (@key_le A).
Proof. intros x y z. unfold key_le. apply transitivity. Qed.
#[local] Instance key_le_total : base.Total (@key_le A).
Proof. intros x y. unfold key_le. apply (total String.le). Qed.

Lemma btree_perm m : btree m ≡ₚ map_to_list m.
Proof. apply merge_sort_Permutation. Qed.

Lemma btree_elem m k v : (k, v) ∈ btree m ↔ m !! k = Some v.
Proof. by rewrite btree_perm, elem_of_map_to_list. Qed.

Lemma btree_sorted m : StronglySorted key_le (btree m).
Proof. apply StronglySorted_merge_sort; apply _. Qed.

Lemma btree_keys_NoDup m : NoDup (btree m).*1.
Proof. rewrite (btree_perm m). apply NoDup_fst_map_to_list. Qed.

Lemma btree_keys_sorted m : StronglySorted String.le (btree m).*1.
Proof. eapply StronglySorted_fmap; [|apply btree_sorted]. done. Qed.

Lemma btree_keys_elem m k : k ∈ (btree m).*1 ↔ is_Some (m !! k).
Proof.
  rewrite list_elem_of_fmap. split.
  - intros ([k' v]&->&Hin%btree_elem). by exists v.
  - intros [v Hv]. exists (k, v). split; [done|]. by apply btree_elem.
Qed.

Lemma StronglySorted_filter {B} (R : relation B) (P : B → Prop) `{∀ x, Decision (P x)} (l : list B) :
  StronglySorted R l → StronglySorted R (filter P l).
Proof.
  induction 1 as [|x l Hl IH Hx]; [constructor|]. rewrite filter_cons. case_decide; [|done].
  constructor; [done|]. rewrite Forall_forall in Hx |- *. intros y [_ ?]%list_elem_of_filter. auto.
Qed.

Lemma after_keys last l : (after last l).*1 = filter (λ k, after_key last k = true) l.*1.
Proof.
  unfold after. induction l as [|[k v] l IH]; [done|].
  rewrite fmap_cons, !filter_cons. cbn [fst]. case_decide; [|done]. by rewrite fmap_cons, IH.
Qed.

Lemma after_None l : after None l = l.
Proof.
  unfold after. induction l as [|x l IH]; [done|]. rewrite filter_cons, decide_True by done. by rewrite IH.
Qed.
End KeyOrder.

Lemma filter_after_split (l1 l2 : list string) k :
  StronglySorted String.le (l1 ++ k :: l2) → NoDup (l1 ++ k :: l2) →
  filter (λ x, after_key (Some k) x = true) (l1 ++ k :: l2) = l2.
Proof.
  intros Hs Hn. induction l1 as [|x l1 IH]; cbn [app] in *.
  - rewrite filter_cons. rewrite decide_False.
    2: { simpl. rewrite (bool_decide_eq_true_2 (k = k)) by done. by rewrite andb_false_r. }
    apply StronglySorted_inv in Hs as [_ Hs]. apply NoDup_cons in Hn as [Hk _].
    rewrite Forall_forall in Hs.
    induction l2 as [|y l2 IH]; [done|]. rewrite filter_cons, decide_True; [f_equal; apply IH; set_solver|].
    simpl. rewrite bool_decide_eq_true_2, bool_decide_eq_false_2; [done|set_solver|apply Hs; set_solver].
  - apply StronglySorted_inv in Hs as [Hs Hx]. apply NoDup_cons in Hn as [Hxk Hn].
    rewrite filter_cons, decide_False; [by apply IH|].
    simpl. intros [H1%bool_decide_eq_true_1 H2%negb_true_iff]%andb_true_iff.
    apply bool_decide_eq_false_1 in H2. apply H2.
    rewrite Forall_forall in Hx. apply (anti_symm String.le); [done|apply Hx; set_solver].
Qed.

(** ** A client that follows the cursor

    [page last] is the page after [last]; the next cursor is the last item of
    the page. *)
Fixpoint follow_pages (fuel : nat) (page : option string → Page string) (cursor : option string)
    : option (list string) :=
  match fuel with
  | O => None
  | S fuel =>
      let p := page cursor in
      if more p then
        match last (items p) with
        | Some k => (λ rest, items p ++ rest) <$> follow_pages fuel page (Some k)
        | None => None
        end
      else Some (items p)
  end.

Lemma follow_pages_sorted keys limit fuel pre rest cursor :
  StronglySorted String.le keys → NoDup keys → 0 < limit →
  keys = pre ++ rest →
  filter (λ k, after_key cursor k = true) keys = rest →
  length rest < fuel →
  follow_pages fuel (λ c, take_page (filter (λ k, after_key c k = true) keys) limit) cursor = Some rest.
Proof.
  intros Hs Hn Hlim. revert pre rest cursor. induction fuel as [|fuel IH]; intros pre rest cursor Hk Hf Hlen; [lia|].
  cbn [follow_pages]. rewrite Hf. unfold take_page. cbn [more items].
  destruct (drop limit rest) as [|y tl] eqn:Ed.
  - rewrite <-(take_drop limit rest) at 2. by rewrite Ed, app_nil_r.
  - assert (Hlt : limit < length rest).
    { apply (f_equal length) in Ed. rewrite length_drop in Ed. simpl in Ed. lia. }
    destruct (last (take limit rest)) as [k|] eqn:El.
    2: { apply last_None in El. apply (f_equal length) in El. rewrite length_take in El. simpl in El. lia. }
    apply last_Some in El as [hd Hhd].
    assert (Hrest : rest = hd ++ k :: y :: tl).
    { rewrite <-(take_drop limit rest), Ed, Hhd, <-app_assoc. done. }
    rewrite (IH (pre ++ hd ++ [k]) (y :: tl)).
    + simpl. rewrite <-Ed. by rewrite take_drop.
    + rewrite Hk, Hrest, <-!app_assoc. done.
    + rewrite Hk, Hrest, (app_assoc pre hd).
      apply filter_after_split; by rewrite <-app_assoc, <-Hrest, <-Hk.
    + rewrite <-Ed, length_drop. lia.
Qed.

(** ** The index by type *)

Section TypeIndex.
Context `{SerdeJson}.

(** The referrers of a type, read off the descriptors: the reference
    definition of the index by type. *)
Definition typed_entries (sr : SubjectReferrers) (t : string) (last : option string)
    : list (string * bytes) :=
  (λ '(d, (_, b)), (d, b)) <$>
    filter (λ p, p.2.1 = Some t) (after last (btree (by_digest sr))).

Lemma elem_of_after {A} last (l : list (string * A)) k v :
  (k, v) ∈ after last l ↔ after_key last k = true ∧ (k, v) ∈ l.
Proof. unfold after. by rewrite list_elem_of_filter. Qed.

Lemma set_tree_elem (set : gset string) d u : (d, u) ∈ btree (gset_to_gmap tt set) ↔ d ∈ set.
Proof. rewrite btree_elem, lookup_gset_to_gmap_Some. destruct u. naive_solver. Qed.

Lemma sorted_keys_eq (l1 l2 : list string) :
  StronglySorted String.le l1 → StronglySorted String.le l2 → NoDup l1 → NoDup l2 →
  (∀ k, k ∈ l1 ↔ k ∈ l2) → l1 = l2.
Proof.
  intros H1 H2 N1 N2 Heq. apply (Sorted_unique String.le); [by apply StronglySorted_Sorted..|].
  by apply NoDup_Permutation.
Qed.

Lemma NoDup_filter_keys {A} (P : string * A → Prop) `{∀ x, Decision (P x)} (l : list (string * A)) :
  NoDup l.*1 → NoDup (filter P l).*1.
Proof.
  induction l as [|[k v] l IH]; [done|]. rewrite filter_cons, fmap_cons. intros [Hk Hn]%NoDup_cons.
  case_decide; [|auto]. rewrite fmap_cons. apply NoDup_cons. split; [|auto]. cbn [fst] in *.
  intros ([k' v']&->&[_ Hin]%list_elem_of_filter)%list_elem_of_fmap. apply Hk. by apply (list_elem_of_fmap_2 fst).
Qed.

(** A list of entries whose values are a function of their keys. *)
Lemma entries_of_keys {A B} (f : string * A → string * B) (g : string → B) (l : list (string * A)) :
  (∀ k v, (k, v) ∈ l → f (k, v) = (k, g k)) → f <$> l = (λ k, (k, g k)) <$> l.*1.
Proof.
  induction l as [|[k v] l IH]; intros Hf; [done|]. rewrite !fmap_cons. f_equal.
  - apply Hf. set_solver.
  - apply IH. set_solver.
Qed.

Lemma sr_page_typed sr t last limit :
  sr_ok sr → sr_page sr (Some t) last limit = take_page (typed_entries sr t last) limit.
Proof.
  intros Hok. simpl.
  assert (Hset : (λ '(d, _), (d, default [] (snd <$> by_digest sr !! d))) <$>
            after last (btree (gset_to_gmap tt (default ∅ (by_type sr !! t)))) =
          typed_entries sr t last).
  { unfold typed_entries.
    rewrite (entries_of_keys _ (λ d, default [] (snd <$> by_digest sr !! d))) by done.
    rewrite (entries_of_keys (λ '(d, (_, b)), (d, b)) (λ d, default [] (snd <$> by_digest sr !! d))).
    2: { intros k [t' b] [_ [_ Hk%btree_elem]%elem_of_after]%list_elem_of_filter. by rewrite Hk. }
    f_equal. apply sorted_keys_eq.
    - rewrite after_keys. apply StronglySorted_filter, btree_keys_sorted.
    - eapply StronglySorted_fmap; [|apply StronglySorted_filter, StronglySorted_filter, btree_sorted]. done.
    - apply NoDup_filter_keys, btree_keys_NoDup.
    - apply NoDup_filter_keys, NoDup_filter_keys, btree_keys_NoDup.
    - intros k. rewrite !list_elem_of_fmap. split.
      + intros ([k' u]&->&[Ha Hin]%elem_of_after). apply set_tree_elem, (sr_index _ Hok) in Hin as [b Hb].
        exists (k', (Some t, b)). split; [done|]. apply list_elem_of_filter. split; [done|].
        apply elem_of_after. by rewrite btree_elem.
      + intros ([k' [t' b]]&->&[Ht [Ha Hb%btree_elem]%elem_of_after]%list_elem_of_filter).
        simpl in Ht. subst. exists (k', tt). split; [done|]. apply elem_of_after. split; [done|].
        apply set_tree_elem, (sr_index _ Hok). eauto. }
  destruct (by_type sr !! t) as [set|] eqn:Et; simpl in Hset; [by rewrite Hset|].
  rewrite <-Hset. unfold after, btree. rewrite gset_to_gmap_empty, map_to_list_empty.
  unfold take_page. cbn. by rewrite take_nil, drop_nil.
Qed.
End TypeIndex.

(** ** Properties *)

(** C27: the index invariants hold in every state that replaying any sequence
    of mutations reaches: tags point to known manifests, the referrer indexes
    by digest and by type agree, and back references are non-empty sets. *)
Theorem metadata_invariant `{SerdeJson} ops : state_ok (foldl apply_in_ram ∅ ops).
Proof. apply replay_ok. intros r rs. by rewrite lookup_empty. Qed.

(** Deleting a manifest removes every trace of it from its repository (no
    tag, media type, checksum, referrer or back reference names it any more)
    and nothing else. *)
Theorem delete_manifest_spec `{SerdeJson} s repo digest :
  let s' := apply_in_ram s (DeleteManifest repo digest) in
  (∀ t, resolve_tag s' repo t =
     match resolve_tag s repo t with
     | Some (d, m) => if decide (d = digest) then None else Some (d, m)
     | None => None
     end) ∧
  (∀ d, manifest_media_type s' repo d = if decide (d = digest) then None else manifest_media_type s repo d) ∧
  (∀ d, checksum s' repo d = if decide (d = digest) then None else checksum s repo d) ∧
  (∀ subj d, has_referrer s' repo subj d = true ↔ has_referrer s repo subj d = true ∧ d ≠ digest) ∧
  (∀ b, get_backrefs s' repo b = filter (λ m, m ≠ digest) (get_backrefs s repo b)) ∧
  (∀ r, r ≠ repo → s' !! r = s !! r).
Proof.
  intros s'. assert (Hr : repo_of s' repo = rs_delete_manifest digest (repo_of s repo)).
  { subst s'. rewrite repo_of_apply. by rewrite decide_True. }
  split_and!.
  - intros t. rewrite !resolve_tag_repo, Hr. simpl. rewrite map_lookup_filter.
    destruct (tags (repo_of s repo) !! t) as [[d m]|]; [|done]. simpl.
    case_decide; case_guard; simpl in *; naive_solver.
  - intros d. rewrite !media_type_repo, Hr. simpl. case_decide; subst;
      [apply lookup_delete_eq|by apply lookup_delete_ne].
  - intros d. rewrite !checksum_repo, Hr. simpl. case_decide; subst;
      [apply lookup_delete_eq|by apply lookup_delete_ne].
  - intros subj d. rewrite !has_referrer_repo, Hr. simpl. setoid_rewrite lookup_omap_Some. split.
    + intros (sr&(sr0&Hsr&Hs)&Hd). case_decide; simplify_eq.
      rewrite sr_remove_by_digest, lookup_delete_is_Some in Hd. naive_solver.
    + intros [(sr&Hs&Hd) Hne]. exists (sr_remove sr digest).
      assert (Hd' : is_Some (by_digest (sr_remove sr digest) !! d)).
      { rewrite sr_remove_by_digest, lookup_delete_is_Some. naive_solver. }
      split; [|done]. exists sr. split; [|done]. rewrite decide_False; [done|].
      intros E. rewrite E, lookup_empty in Hd'. by destruct Hd'.
  - intros b. rewrite !backrefs_repo, Hr. simpl. rewrite lookup_omap.
    destruct (backrefs (repo_of s repo) !! b) as [ms|]; [|done]. simpl.
    case_decide as E; simpl; [by rewrite E|done].
  - intros r Hne. subst s'. rewrite apply_in_ram_repo. unfold with_repo. simpl. by rewrite lookup_insert_ne.
Qed.

(** Storing a manifest makes its tag resolve to it, records its media
    type, adds it to the back references of exactly the objects it names, and
    lists it as a referrer of its subject; other tags, and other repositories,
    are as before. *)
Theorem put_manifest_spec `{SerdeJson} s repo digest mt tag refs referrer :
  let s' := apply_in_ram s (PutManifest repo digest mt tag refs referrer) in
  (∀ t, resolve_tag s' repo t = if decide (tag = Some t) then Some (digest, mt) else resolve_tag s repo t) ∧
  (∀ d, manifest_media_type s' repo d = if decide (d = digest) then Some mt else manifest_media_type s repo d) ∧
  (∀ b m, m ∈ get_backrefs s' repo b ↔ m ∈ get_backrefs s repo b ∨ (m = digest ∧ b ∈ refs)) ∧
  (∀ subj d, has_referrer s' repo subj d = true ↔
     has_referrer s repo subj d = true ∨ (d = digest ∧ fst <$> referrer = Some subj)) ∧
  (∀ r, r ≠ repo → s' !! r = s !! r).
Proof.
  intros s'. assert (Hr : repo_of s' repo = apply_repo (PutManifest repo digest mt tag refs referrer) (repo_of s repo)).
  { subst s'. rewrite repo_of_apply. by rewrite decide_True. }
  split_and!.
  - intros t. rewrite !resolve_tag_repo, Hr. destruct referrer as [[]|], tag as [t'|]; simpl; try done;
      (case_decide; simplify_eq; [apply lookup_insert_eq|apply lookup_insert_ne; congruence]).
  - intros d. rewrite !media_type_repo, Hr. destruct referrer as [[]|]; simpl;
      (case_decide; subst; [apply lookup_insert_eq|by apply lookup_insert_ne]).
  - intros b m. rewrite !backrefs_repo, Hr. destruct referrer as [[]|]; simpl; apply push_backrefs_lookup.
  - intros subj d. rewrite !has_referrer_repo, Hr. destruct referrer as [[subj' b]|]; simpl; [|naive_solver].
    destruct (decide (subj' = subj)) as [->|Hne].
    + setoid_rewrite lookup_insert_eq. split.
      * intros (sr&[= <-]&Hd). rewrite sr_insert_by_digest, lookup_insert_is_Some in Hd.
        destruct Hd as [->|[Hne Hd]]; [auto|left]. unfold sr_default in Hd.
        destruct (referrers (repo_of s repo) !! subj) as [sr|]; simpl in Hd; [eauto|].
        rewrite lookup_empty in Hd. by destruct Hd.
      * intros Hd. eexists. split; [done|]. rewrite sr_insert_by_digest, lookup_insert_is_Some.
        destruct (decide (digest = d)); [auto|right]. split; [done|].
        destruct Hd as [(sr&->&?)|[? _]]; [done|congruence].
    + setoid_rewrite lookup_insert_ne; [|done]. naive_solver.
  - intros r Hne. subst s'. rewrite apply_in_ram_repo. unfold with_repo. simpl. by rewrite lookup_insert_ne.
Qed.

(** A listing of referrers filtered by artifact type is the listing of
    all of them, restricted to the descriptors that carry that type: the
    index by type neither hides nor invents a referrer. *)
Theorem referrers_by_type `{SerdeJson} ops repo subj t last limit :
  let s := foldl apply_in_ram ∅ ops in
  referrers_page s repo subj (Some t) last limit =
  match s !! repo ≫= λ rs, referrers rs !! subj with
  | Some sr => Some (take_page (typed_entries sr t last) limit)
  | None => None
  end.
Proof.
  intros s. assert (Hok : state_ok s). { apply replay_ok. intros r rs. by rewrite lookup_empty. }
  unfold referrers_page. destruct (s !! repo) as [rs|] eqn:Er; simpl; [|done].
  destruct (referrers rs !! subj) as [sr|] eqn:Es; [|done]. f_equal. apply sr_page_typed.
  by apply (referrers_ok _ (Hok _ _ Er) subj).
Qed.

(** A client that follows the cursor of the tag listing sees every tag of
    the repository exactly once, in lexical order, whatever the page size. *)
Theorem tags_pagination_complete s repo rs limit :
  s !! repo = Some rs → tags rs ≠ ∅ → 0 < limit →
  ∃ all, follow_pages (S (size (tags rs))) (λ last, default (mkPage [] false) (tags_page s repo last limit)) None = Some all ∧
    StronglySorted String.le all ∧ NoDup all ∧ ∀ t, t ∈ all ↔ is_Some (resolve_tag s repo t).
Proof.
  intros Hrs Hne Hlim. exists (btree (tags rs)).*1.
  split_and!; [|apply btree_keys_sorted|apply btree_keys_NoDup|].
  - assert (Hext : ∀ fuel c,
      follow_pages fuel (λ last, default (mkPage [] false) (tags_page s repo last limit)) c =
      follow_pages fuel (λ c, take_page (filter (λ k, after_key c k = true) (btree (tags rs)).*1) limit) c).
    { intros fuel. induction fuel as [|fuel IH]; intros c; [done|]. cbn [follow_pages].
      assert (default (mkPage [] false) (tags_page s repo c limit) =
              take_page (filter (λ k, after_key c k = true) (btree (tags rs)).*1) limit) as ->.
      { unfold tags_page. rewrite Hrs, decide_False by done. simpl. by rewrite after_keys. }
      case_match; [|done]. case_match; [|done]. by rewrite IH. }
    rewrite Hext. apply (follow_pages_sorted _ _ _ []);
      [apply btree_keys_sorted|apply btree_keys_NoDup|done|done| |].
    + by rewrite <-after_keys, after_None.
    + rewrite length_fmap, (Permutation_length (btree_perm _)), length_map_to_list. lia.
  - intros t. rewrite btree_keys_elem. unfold resolve_tag. by rewrite Hrs.
Qed.

Definition no_json : SerdeJson := {| from_slice _ := None; to_vec _ := [] |}.

Definition state_ex : State :=
  foldl (@apply_in_ram no_json) ∅
    [PutManifest "a" "d1" "mt" (Some "v2") ["b1"] None; PutManifest "a" "d2" "mt" (Some "v1") [] None;
     PutManifest "a" "d2" "mt" (Some "latest") [] None].

Lemma tags_pagination_complete_witness :
  ∃ all, follow_pages 4 (λ last, default (mkPage [] false) (tags_page state_ex "a" last 2)) None = Some all ∧
    all = ["latest"; "v1"; "v2"].
Proof.
  destruct (tags_pagination_complete state_ex "a" (default rs_default (state_ex !! "a")) 2)
    as (all&Hall&_); [reflexivity|vm_compute; done|lia|].
  exists all. split; [exact Hall|]. vm_compute in Hall. by injection Hall.
Defined.
