(* ===== verification/MetaExport.v ===== *)
(** * Compaction and export reproduce the state
      ([metadata/log.rs]: [export_state], [write_log_image])

    Replaying the exported records into an empty index gives back the same
    repositories, for every iteration order of the hash maps, provided each
    tag carries the media type its manifest is recorded with. Two states are
    equivalent when every repository looks the same; an entry for an empty
    repository does not count. *)

From S2P Require Import Prelude RustStr Json Errors Metadata.
From Stdlib Require Import Morphisms.

Definition state_equiv (s s' : State) : Prop := ∀ r, repo_of s r = repo_of s' r.

#[export] Instance state_equiv_equivalence : Equivalence state_equiv.
Proof. split; unfold state_equiv; repeat intro; congruence. Qed.

#[export] Instance apply_in_ram_proper `{SerdeJson} :
  Proper (state_equiv ==> eq ==> state_equiv) apply_in_ram.
Proof. intros s s' Hs op ? <- r. rewrite !repo_of_apply. by rewrite (Hs r). Qed.

#[export] Instance resolve_tag_proper : Proper (state_equiv ==> eq ==> eq ==> eq) resolve_tag.
Proof. intros s s' Hs r ? <- t ? <-. by rewrite !resolve_tag_repo, (Hs r). Qed.

#[export] Instance media_type_proper : Proper (state_equiv ==> eq ==> eq ==> eq) manifest_media_type.
Proof. intros s s' Hs r ? <- t ? <-. by rewrite !media_type_repo, (Hs r). Qed.

#[export] Instance get_backrefs_proper : Proper (state_equiv ==> eq ==> eq ==> eq) get_backrefs.
Proof. intros s s' Hs r ? <- t ? <-. by rewrite !backrefs_repo, (Hs r). Qed.

#[export] Instance checksum_proper : Proper (state_equiv ==> eq ==> eq ==> eq) checksum.
Proof. intros s s' Hs r ? <- t ? <-. by rewrite !checksum_repo, (Hs r). Qed.

(** A tag's media type is the one recorded for its manifest. *)
Definition media_coherent (s : State) : Prop :=
  ∀ r t d m, resolve_tag s r t = Some (d, m) → manifest_media_type s r d = Some m.

(** ** Folds of insertions *)

(** Inserting entries that agree with a map [M] gives [M] on their keys. *)
Lemma foldl_insert_agree {A X} (M m0 : gmap string A) (k : X → string) (v : X → A) (l : list X) i :
  (∀ x, x ∈ l → M !! k x = Some (v x)) →
  foldl (λ acc x, <[k x := v x]> acc) m0 l !! i = if decide (i ∈ k <$> l) then M !! i else m0 !! i.
Proof.
  revert m0. induction l as [|x l IH]; intros m0 Hl; cbn [foldl]; [done|].
  rewrite IH by set_solver. rewrite fmap_cons.
  destruct (decide (i ∈ k <$> l)) as [Hin|Hin]; [rewrite decide_True by set_solver; done|].
  destruct (decide (i = k x)) as [->|Hne].
  - rewrite decide_True by set_solver. rewrite lookup_insert_eq. symmetry. apply Hl. set_solver.
  - rewrite decide_False by set_solver. by rewrite lookup_insert_ne.
Qed.

Lemma foldl_insert_all {A X} (M : gmap string A) (k : X → string) (v : X → A) (l : list X) :
  (∀ x, x ∈ l → M !! k x = Some (v x)) →
  (∀ i, is_Some (M !! i) → i ∈ k <$> l) →
  foldl (λ acc x, <[k x := v x]> acc) ∅ l = M.
Proof.
  intros Hl Hall. apply map_eq. intros i. rewrite (foldl_insert_agree M) by done.
  case_decide as Hi; [done|]. rewrite lookup_empty. symmetry. apply eq_None_not_Some. auto.
Qed.

(** The records of one repository, out of those of all of them. *)
Lemma filter_bind_repo (f : string * RepoState → list MetaOp) (l : list (string * RepoState)) r :
  (∀ p op, op ∈ f p → op_repo op = p.1) → NoDup l.*1 →
  filter (λ op, op_repo op = r) (l ≫= f) =
    match list_find (λ p, p.1 = r) l with Some (_, p) => f p | None => [] end.
Proof.
  intros Hf. induction l as [|p l IH]; intros Hn; [done|]. rewrite fmap_cons in Hn.
  apply NoDup_cons in Hn as [Hp Hn]. cbn [mbind list_bind]. rewrite filter_app.
  change (list_bind _ _ f l) with (l ≫= f). rewrite (IH Hn). cbn [list_find].
  case_decide as Hr.
  - assert (filter (λ op, op_repo op = r) (f p) = f p) as ->.
    { specialize (Hf p). induction (f p) as [|op ops IHo]; [done|].
      rewrite filter_cons, decide_True by (rewrite Hf; set_solver). f_equal. apply IHo. set_solver. }
    destruct (list_find (λ p, p.1 = r) l) as [[i p']|] eqn:Ef; [|by rewrite app_nil_r].
    apply list_find_Some in Ef as (Hi&Hp'&_). apply list_elem_of_lookup_2 in Hi.
    destruct Hp. rewrite Hr, <-Hp'. by apply (list_elem_of_fmap_2 fst).
  - assert (filter (λ op, op_repo op = r) (f p) = []) as ->.
    { specialize (Hf p). induction (f p) as [|op ops IHo]; [done|].
      rewrite filter_cons, decide_False by (rewrite Hf; set_solver). apply IHo. set_solver. }
    simpl. by destruct (list_find _ l) as [[]|].
Qed.

Lemma repo_of_foldl `{SerdeJson} ops s r :
  repo_of (foldl apply_in_ram s ops) r =
  foldl (λ rs op, apply_repo op rs) (repo_of s r) (filter (λ op, op_repo op = r) ops).
Proof.
  revert s. induction ops as [|op ops IH]; intros s; [done|]. cbn [foldl]. rewrite IH, repo_of_apply, filter_cons.
  by case_decide.
Qed.

Section Phases.
Context `{SerdeJson, HashIter}.

Lemma iter_elem {A} (m : gmap string A) k v : (k, v) ∈ iter m ↔ m !! k = Some v.
Proof. by rewrite iter_perm, elem_of_map_to_list. Qed.

Lemma iter_keys_NoDup {A} (m : gmap string A) : NoDup (iter m).*1.
Proof. rewrite iter_perm. apply NoDup_fst_map_to_list. Qed.

Lemma iter_find (s : State) r :
  match list_find (λ p, p.1 = r) (iter s) with Some (_, p) => Some p | None => None end =
  (λ rs, (r, rs)) <$> s !! r.
Proof.
  destruct (list_find _ _) as [[i [r' rs]]|] eqn:E.
  - apply list_find_Some in E as (Hi&Hr&_). simpl in Hr. subst.
    apply list_elem_of_lookup_2, iter_elem in Hi. by rewrite Hi.
  - apply list_find_None in E. destruct (s !! r) as [rs|] eqn:Er; [|done].
    rewrite Forall_forall in E. by destruct (E (r, rs)); [apply iter_elem|].
Qed.

(** Tags: [tags] and the media types of the tagged manifests. *)
Lemma phase_tags r rs0 (l : list (string * (string * string))) :
  foldl (λ rs op, apply_repo op rs) rs0 ((λ '(t, (d, m)), PutManifest r d m (Some t) [] None) <$> l) =
  mkRS (foldl (λ acc x, <[x.1 := x.2]> acc) (tags rs0) l)
    (foldl (λ acc x, <[x.2.1 := x.2.2]> acc) (media_types rs0) l)
    (referrers rs0) (backrefs rs0) (checksums rs0).
Proof.
  revert rs0. induction l as [|[t [d m]] l IH]; intros rs0; [by destruct rs0|].
  rewrite fmap_cons. cbn [foldl]. by rewrite IH.
Qed.

Lemma phase_untagged r rs0 (l : list (string * string)) :
  foldl (λ rs op, apply_repo op rs) rs0 ((λ '(d, m), PutManifest r d m None [] None) <$> l) =
  mkRS (tags rs0) (foldl (λ acc x, <[x.1 := x.2]> acc) (media_types rs0) l)
    (referrers rs0) (backrefs rs0) (checksums rs0).
Proof.
  revert rs0. induction l as [|[d m] l IH]; intros rs0; [by destruct rs0|].
  rewrite fmap_cons. cbn [foldl]. by rewrite IH.
Qed.

Lemma phase_checksums r rs0 (l : list (string * BlobChecksum)) :
  foldl (λ rs op, apply_repo op rs) rs0 ((λ '(d, ck), PutChecksum r d (ck_crc32c ck) (ck_size ck)) <$> l) =
  mkRS (tags rs0) (media_types rs0) (referrers rs0) (backrefs rs0)
    (foldl (λ acc x, <[x.1 := x.2]> acc) (checksums rs0) l).
Proof.
  revert rs0. induction l as [|[d [c n]] l IH]; intros rs0; [by destruct rs0|].
  rewrite fmap_cons. cbn [foldl]. by rewrite IH.
Qed.

(** Back references of one blob: the recorded order comes back. *)
Lemma push_backref_list blob bk ms :
  bk !! blob = None → ms ≠ [] → NoDup ms →
  foldl (λ bk m, push_backref m bk blob) bk ms = <[blob := ms]> bk.
Proof.
  intros Hbk Hne Hnd. induction ms as [|m ms IH] using rev_ind; [done|].
  apply NoDup_app in Hnd as (Hnd&Hdis&_). rewrite foldl_app. cbn [foldl].
  destruct (decide (ms = [])) as [->|Hms].
  - simpl. unfold push_backref. rewrite Hbk. simpl. done.
  - rewrite IH by done. unfold push_backref. rewrite lookup_insert_eq. simpl.
    rewrite bool_decide_eq_false_2 by set_solver. by rewrite insert_insert_eq.
Qed.

Lemma phase_backrefs r rs0 (l : list (string * list string)) :
  NoDup l.*1 → (∀ b ms, (b, ms) ∈ l → backrefs rs0 !! b = None ∧ ms ≠ [] ∧ NoDup ms) →
  foldl (λ rs op, apply_repo op rs) rs0 (l ≫= λ '(blob, ms), (λ m, PutBackrefs r m [blob]) <$> ms) =
  mkRS (tags rs0) (media_types rs0) (referrers rs0)
    (foldl (λ acc x, <[x.1 := x.2]> acc) (backrefs rs0) l) (checksums rs0).
Proof.
  revert rs0. induction l as [|[b ms] l IH]; intros rs0 Hn Hl; [by destruct rs0|].
  rewrite fmap_cons in Hn. apply NoDup_cons in Hn as [Hb Hn].
  destruct (Hl b ms) as (Hnone&Hne&Hnd); [set_solver|].
  cbn [mbind list_bind]. rewrite foldl_app. change (list_bind _ _ ?f l) with (l ≫= f).
  assert (Hone : ∀ rs1 k, foldl (λ rs op, apply_repo op rs) rs1 ((λ m, PutBackrefs r m [b]) <$> k) =
    mkRS (tags rs1) (media_types rs1) (referrers rs1)
      (foldl (λ bk m, push_backref m bk b) (backrefs rs1) k) (checksums rs1)).
  { intros rs1 k. revert rs1. induction k as [|m k IHk]; intros rs1; [by destruct rs1|].
    rewrite fmap_cons. cbn [foldl]. by rewrite IHk. }
  rewrite Hone, push_backref_list by done. rewrite IH; [done|done|].
  intros b' ms' Hin. simpl. destruct (Hl b' ms') as (?&?&?); [set_solver|].
  rewrite lookup_insert_ne; [done|]. intros ->. apply Hb. by apply (list_elem_of_fmap_2 fst) in Hin.
Qed.

(** Referrers of one subject. *)
Lemma foldl_sr_insert_ok sr l : sr_ok sr → sr_ok (foldl (λ sr x, sr_insert sr x.1 x.2) sr l).
Proof. revert sr. induction l as [|x l IH]; intros sr Hsr; [done|]. cbn [foldl]. by apply IH, sr_insert_ok. Qed.

Lemma foldl_sr_insert_digests sr l :
  by_digest (foldl (λ sr x, sr_insert sr x.1 x.2) sr l) =
  foldl (λ acc x, <[x.1 := (artifact_type x.2, x.2)]> acc) (by_digest sr) l.
Proof.
  revert sr. induction l as [|x l IH]; intros sr; [done|]. cbn [foldl]. by rewrite IH, sr_insert_by_digest.
Qed.

Definition descriptors (sr : SubjectReferrers) : list (string * bytes) :=
  (λ '(d, (_, b)), (d, b)) <$> btree (by_digest sr).

Lemma descriptors_elem sr d b : (d, b) ∈ descriptors sr ↔ ∃ t, by_digest sr !! d = Some (t, b).
Proof.
  unfold descriptors. rewrite list_elem_of_fmap. setoid_rewrite <-btree_elem. split.
  - intros ([d' [t b']]&[= -> ->]&Hin). eauto.
  - intros [t Hin]. by exists (d, (t, b)).
Qed.

Lemma rebuild_subject sr :
  sr_ok sr → foldl (λ sr x, sr_insert sr x.1 x.2) sr_default (descriptors sr) = sr.
Proof.
  intros Hok. apply sr_ext; [apply foldl_sr_insert_ok, sr_default_ok|done|].
  rewrite foldl_sr_insert_digests. apply foldl_insert_all.
  - intros [d b] [t Hd]%descriptors_elem. simpl. rewrite Hd. by rewrite (sr_types _ Hok _ _ _ Hd).
  - intros d [[t b] Hd]. apply (list_elem_of_fmap_2' fst _ (d, b)); [|done]. apply descriptors_elem. eauto.
Qed.

Lemma phase_subject r subj rs0 l :
  l ≠ [] →
  foldl (λ rs op, apply_repo op rs) rs0 ((λ x, PutReferrer r subj x.1 x.2) <$> l) =
  mkRS (tags rs0) (media_types rs0)
    (<[subj := foldl (λ sr x, sr_insert sr x.1 x.2) (default sr_default (referrers rs0 !! subj)) l]> (referrers rs0))
    (backrefs rs0) (checksums rs0).
Proof.
  revert rs0. induction l as [|x l IH]; intros rs0 Hne; [done|]. rewrite fmap_cons. cbn [foldl].
  destruct (decide (l = [])) as [->|Hl]; [done|]. rewrite IH by done. simpl.
  by rewrite lookup_insert_eq, insert_insert_eq.
Qed.

Lemma phase_referrers r rs0 (l : list (string * SubjectReferrers)) :
  NoDup l.*1 →
  (∀ s sr, (s, sr) ∈ l → referrers rs0 !! s = None ∧ sr_ok sr ∧ by_digest sr ≠ ∅) →
  foldl (λ rs op, apply_repo op rs) rs0
    (l ≫= λ '(s, sr), (λ '(d, (_, b)), PutReferrer r s d b) <$> btree (by_digest sr)) =
  mkRS (tags rs0) (media_types rs0) (foldl (λ acc x, <[x.1 := x.2]> acc) (referrers rs0) l)
    (backrefs rs0) (checksums rs0).
Proof.
  revert rs0. induction l as [|[s sr] l IH]; intros rs0 Hn Hl; [by destruct rs0|].
  rewrite fmap_cons in Hn. apply NoDup_cons in Hn as [Hs Hn].
  destruct (Hl s sr) as (Hnone&Hok&Hne); [set_solver|].
  cbn [mbind list_bind]. rewrite foldl_app. change (list_bind _ _ ?f l) with (l ≫= f).
  assert ((λ '(d, (_, b)), PutReferrer r s d b) <$> btree (by_digest sr) =
          (λ x, PutReferrer r s x.1 x.2) <$> descriptors sr) as ->.
  { unfold descriptors. rewrite <-list_fmap_compose. apply list_fmap_ext. by intros ? [? []]. }
  rewrite phase_subject.
  2: { intros Hd. apply Hne. apply map_empty. intros d.
       destruct (by_digest sr !! d) as [[t b]|] eqn:E; [|done].
       assert ((d, b) ∈ descriptors sr) as Hin by (apply descriptors_elem; eauto).
       rewrite Hd in Hin. by apply elem_of_nil in Hin. }
  rewrite Hnone. cbn [default]. rewrite rebuild_subject by done. rewrite IH; [done|done|].
  intros s' sr' Hin. simpl. destruct (Hl s' sr') as (?&?&?); [set_solver|].
  rewrite lookup_insert_ne; [done|]. intros ->. apply Hs. by apply (list_elem_of_fmap_2 fst) in Hin.
Qed.
End Phases.

Section ExportImage.
Context `{SerdeJson, HashIter}.

Lemma tagged_elem s r d :
  (r, d) ∈ tagged s ↔ ∃ t m, resolve_tag s r t = Some (d, m).
Proof.
  unfold tagged, resolve_tag. rewrite list_elem_of_bind. split.
  - intros ([r' rs]&Hin&Hr%iter_elem). apply list_elem_of_fmap in Hin as ([t [d' m]]&[= -> ->]&Ht%btree_elem).
    exists t, m. simpl in *. by rewrite Hr.
  - intros (t&m&Ht). destruct (s !! r) as [rs|] eqn:Er; [|done]. simpl in Ht.
    exists (r, rs). split; [|by apply iter_elem]. apply list_elem_of_fmap.
    exists (t, (d, m)). split; [done|]. by apply btree_elem.
Qed.

(** The records of repository [r]. *)
Lemma export_repo s r :
  filter (λ op, op_repo op = r) (export_state s) =
  match s !! r with
  | Some rs =>
      export_tags (r, rs) ++ export_untagged (tagged s) (r, rs) ++ export_backrefs (r, rs) ++
      export_referrers (r, rs) ++ export_checksums (r, rs)
  | None => []
  end.
Proof.
  unfold export_state. rewrite !filter_app. pose proof (iter_find s r) as Hf.
  rewrite !filter_bind_repo;
    [destruct (list_find _ (iter s)) as [[i p]|], (s !! r); simpl in Hf; by simplify_eq|..];
    try apply iter_keys_NoDup; intros [r' rs'] op; simpl.
  - unfold export_checksums. by intros ([? ?]&->&_)%list_elem_of_fmap.
  - unfold export_referrers. intros ([subj sr]&Hop&_)%list_elem_of_bind.
    by apply list_elem_of_fmap in Hop as ([? []]&->&_).
  - unfold export_backrefs. intros ([b ms]&Hop&_)%list_elem_of_bind.
    by apply list_elem_of_fmap in Hop as (?&->&_).
  - unfold export_untagged. by intros ([? ?]&->&_)%list_elem_of_fmap.
  - unfold export_tags. by intros ([? []]&->&_)%list_elem_of_fmap.
Qed.

Lemma foldl_iter {A} (m : gmap string A) : foldl (λ acc x, <[x.1 := x.2]> acc) ∅ (iter m) = m.
Proof.
  apply foldl_insert_all.
  - intros [k v] Hk. by apply iter_elem.
  - intros k [v Hv]. apply (list_elem_of_fmap_2' fst _ (k, v)); [by apply iter_elem|done].
Qed.

Lemma foldl_btree {A} (m : gmap string A) : foldl (λ acc x, <[x.1 := x.2]> acc) ∅ (btree m) = m.
Proof.
  apply foldl_insert_all.
  - intros [k v] Hk. by apply btree_elem.
  - intros k Hk. by apply btree_keys_elem.
Qed.

Lemma rebuild_media_types s r rs :
  media_coherent s → s !! r = Some rs → rs_ok rs →
  foldl (λ acc x, <[x.1 := x.2]> acc)
    (foldl (λ acc x, <[x.2.1 := x.2.2]> acc) ∅ (btree (tags rs)))
    (filter (λ q, (r, q.1) ∉ tagged s) (iter (media_types rs))) = media_types rs.
Proof.
  intros Hcoh Hr Hok. apply map_eq. intros d.
  assert (Hcoh' : ∀ t d m, tags rs !! t = Some (d, m) → media_types rs !! d = Some m).
  { intros t d' m Ht. specialize (Hcoh r t d' m). unfold resolve_tag, manifest_media_type in Hcoh.
    rewrite Hr in Hcoh. auto. }
  rewrite (foldl_insert_agree (media_types rs)).
  2: { intros [d' m] [_ Hin%iter_elem]%list_elem_of_filter. done. }
  case_decide as Hd; [done|].
  rewrite (foldl_insert_agree (media_types rs)).
  2: { intros [t [d' m]] Ht%btree_elem. simpl. eauto. }
  case_decide as Hd2; [done|]. rewrite lookup_empty. symmetry.
  destruct (media_types rs !! d) as [m|] eqn:Em; [|done]. destruct Hd.
  apply (list_elem_of_fmap_2' fst _ (d, m)); [|done]. apply list_elem_of_filter.
  split; [|by apply iter_elem]. simpl. intros (t&m'&Ht)%tagged_elem. apply Hd2.
  unfold resolve_tag in Ht. rewrite Hr in Ht. simpl in Ht.
  apply (list_elem_of_fmap_2' (λ x, x.2.1) _ (t, (d, m'))); [by apply btree_elem|done].
Qed.

Lemma export_rebuilds s r rs :
  media_coherent s → s !! r = Some rs → rs_ok rs →
  foldl (λ rs op, apply_repo op rs) rs_default (filter (λ op, op_repo op = r) (export_state s)) = rs.
Proof.
  intros Hcoh Hr Hok. rewrite export_repo, Hr, !foldl_app.
  unfold export_tags, export_untagged, export_backrefs, export_referrers, export_checksums. cbn [fst snd].
  rewrite phase_tags, phase_untagged, phase_backrefs, phase_referrers, phase_checksums;
    [|apply iter_keys_NoDup| |apply iter_keys_NoDup|].
  - cbn [tags media_types referrers backrefs checksums rs_default].
    rewrite rebuild_media_types, foldl_btree, !foldl_iter by done. by destruct rs.
  - intros subj sr Hin%iter_elem. cbn [referrers rs_default]. rewrite lookup_empty.
    split; [done|]. by apply (referrers_ok _ Hok subj).
  - intros b ms Hin%iter_elem. cbn [backrefs rs_default]. rewrite lookup_empty.
    split; [done|]. by apply (backrefs_ok _ Hok b).
Qed.

Lemma export_replay_equiv s :
  state_ok s → media_coherent s → state_equiv (foldl apply_in_ram ∅ (export_state s)) s.
Proof.
  intros Hok Hcoh r. rewrite repo_of_foldl. unfold repo_of. rewrite lookup_empty. cbn [default].
  destruct (s !! r) as [rs|] eqn:Er; cbn.
  - apply (export_rebuilds s r rs); [done|done|by eapply Hok].
  - by rewrite export_repo, Er.
Qed.
End ExportImage.

(** ** Properties *)

(** The record image that compaction writes, and that export hands to a
    migration, rebuilds every repository of the index, in whatever order the
    hash maps are iterated, when tags carry their manifest's media type. *)
Theorem export_replay `{SerdeJson, HashIter} ops :
  let s := foldl apply_in_ram ∅ ops in
  media_coherent s → state_equiv (foldl apply_in_ram ∅ (export_state s)) s.
Proof.
  intros s Hcoh. apply export_replay_equiv; [|done]. apply replay_ok. intros r rs. by rewrite lookup_empty.
Qed.

(** Without that condition the image can lose a media type: after the same
    manifest is pushed under two tags with two media types, compaction turns
    the recorded media type into the one of the lexically last tag. *)
Theorem export_media_type_lost :
  ∃ ops, let s := foldl (@apply_in_ram no_json) ∅ ops in
    manifest_media_type s "a" "d" = Some "new" ∧
    manifest_media_type (foldl (@apply_in_ram no_json) ∅ (@export_state map_order s)) "a" "d" = Some "old".
Proof.
  exists [PutManifest "a" "d" "old" (Some "t2") [] None; PutManifest "a" "d" "new" (Some "t1") [] None].
  by vm_compute.
Qed.

Lemma export_replay_witness :
  let s := state_ex in
  media_coherent s ∧ state_equiv (foldl (@apply_in_ram no_json) ∅ (@export_state map_order s)) s.
Proof.
  assert (Hc : media_coherent state_ex).
  { intros r t d m Ht. unfold resolve_tag, manifest_media_type in *.
    destruct (state_ex !! r) as [rs|] eqn:Er; [|done].
    assert (r = "a" ∧ rs = default rs_default (state_ex !! "a")) as [-> ->].
    { unfold state_ex in Er |- *. cbn [foldl] in Er |- *. rewrite !apply_in_ram_repo in Er |- *.
      unfold with_repo in *. cbn [op_repo] in *. rewrite !insert_insert_eq in Er |- *.
      apply lookup_insert_Some in Er as [[<- <-]|[_ Er]]; [|by rewrite lookup_empty in Er].
      by rewrite lookup_insert_eq. }
    simpl in Ht |- *.
    assert (Hf : map_Forall (λ _ dm, media_types (default rs_default (state_ex !! "a")) !! dm.1 = Some dm.2)
                   (tags (default rs_default (state_ex !! "a")))).
    { apply map_Forall_to_list. by vm_compute; repeat constructor. }
    exact (Hf _ _ Ht). }
  split; [exact Hc|]. apply (@export_replay no_json map_order _ Hc).
Defined.
