(* ===== verification/MetaLog.v ===== *)
(** * The write-ahead log ([metadata/log.rs], [metadata/wal_hmac.rs])

    Records are framed by length and CRC32C and, with a key, followed by an
    HMAC tag. Opening a log checks the header record and replays the rest;
    appending writes one record before the in-memory state changes; a group
    commit makes every appended record durable with one [fsync]; maintenance
    replaces the log by its image. *)

From S2P Require Import Prelude RustStr Json Errors Digest Metadata MetaExport.

(** ** Parameters: the HMAC and JSON crates *)

Class Hmac := {
  hmac_tag : bytes → bytes → bytes;
  hmac_verify : bytes → bytes → bytes → bool;
}.

Class HmacLaws `{Hmac} : Prop := {
  hmac_tag_length k x : length (hmac_tag k x) = 32;
  hmac_verify_tag k x t : hmac_verify k x t = true ↔ t = hmac_tag k x;
}.

(** Objects of strings, nulls, integers and lists of strings: what the log
    writes. Rust strings are valid UTF-8. *)
Definition utf8 (s : string) : Prop := utf8_valid (as_bytes s) = true.

Definition flat_value (v : json) : Prop :=
  match v with
  | JNull => True
  | JString s => utf8 s
  | JNumber (PosInt n) => is_u64 n
  | JArray l => Forall (λ x, match x with JString s => utf8 s | _ => False end) l
  | _ => False
  end.

Definition flat_object (m : jmap) : Prop :=
  keys_ascending m ∧ Forall (λ kv, utf8 kv.1 ∧ flat_value kv.2) m.

(** ** Records *)

Definition dq : string := String "034" "".

(** [format!("{{\"op\":\"gen\",\"gen\":{gen}}}")] *)
Definition gen_marker (gen : Z) : bytes :=
  as_bytes ("{" +:+ dq +:+ "op" +:+ dq +:+ ":" +:+ dq +:+ "gen" +:+ dq +:+ "," +:+ dq +:+ "gen" +:+ dq
            +:+ ":" +:+ u64_to_string gen +:+ "}").

Class SerdeLaws `{SerdeJson} : Prop := {
  from_to_vec m : flat_object m → from_slice (to_vec (JObject m)) = Some (JObject m);
  from_gen_marker g : is_u64 g →
    from_slice (gen_marker g) = Some (JObject [("gen", JNumber (PosInt g)); ("op", JString "gen")]);
  to_vec_utf8 m : flat_object m → utf8_valid (to_vec (JObject m)) = true;
}.

Inductive FramingMode := Plain | HmacSha256.
#[export] Instance FramingMode_eq_dec : EqDecision FramingMode.
Proof. solve_decision. Defined.

Definition HEADER_MAGIC : bytes := as_bytes "roci-wal" ++ ["000"%char].

Definition encode_header (mode : FramingMode) : bytes :=
  HEADER_MAGIC ++ [match mode with Plain => "000"%char | HmacSha256 => "001"%char end].

Definition decode_header (payload : bytes) : option FramingMode :=
  if length payload <? length HEADER_MAGIC + 1 then None
  else if negb (bool_decide (take (length HEADER_MAGIC) payload = HEADER_MAGIC)) then None
  else match payload !! length HEADER_MAGIC with
       | Some "000"%char => Some Plain
       | Some "001"%char => Some HmacSha256
       | _ => None
       end.

(** [u32::to_le_bytes] and [u32::from_le_bytes]; [as u32] wraps. *)
Fixpoint to_le_bytes (n : nat) (z : Z) : bytes :=
  match n with
  | O => []
  | S n => ascii_of_N (Z.to_N (z `mod` 256)) :: to_le_bytes n (z / 256)
  end.

Fixpoint from_le_bytes (l : bytes) : Z :=
  match l with
  | [] => 0
  | b :: l => u8 b + 256 * from_le_bytes l
  end%Z.

Definition framing_mode (key : option bytes) : FramingMode :=
  match key with Some _ => HmacSha256 | None => Plain end.

(** ** Operations as JSON *)

Definition set_member (k : string) (x v : json) : json :=
  match v with JObject m => JObject (map_insert k x m) | v => v end.

Definition jstrings (l : list string) : json := JArray (JString <$> l).

(** [String::from_utf8_lossy(descriptor)] *)
Definition lossy (b : bytes) : string := of_bytes (from_utf8_lossy b).

Definition op_json (op : MetaOp) : json :=
  match op with
  | PutManifest repo digest media_type tag references referrer =>
      let v := jobject [("op", JString "put_manifest"); ("repo", JString repo);
                        ("digest", JString digest); ("media_type", JString media_type);
                        ("tag", match tag with Some t => JString t | None => JNull end)] in
      let v := match references with [] => v | _ => set_member "references" (jstrings references) v end in
      match referrer with
      | Some (subject, descriptor) =>
          set_member "descriptor" (JString (lossy descriptor)) (set_member "subject" (JString subject) v)
      | None => v
      end
  | DeleteManifest repo digest =>
      jobject [("op", JString "delete_manifest"); ("repo", JString repo); ("digest", JString digest)]
  | PutReferrer repo subject referrer descriptor =>
      jobject [("op", JString "put_referrer"); ("repo", JString repo); ("subject", JString subject);
               ("referrer", JString referrer); ("descriptor", JString (lossy descriptor))]
  | PutBackrefs repo manifest blobs =>
      jobject [("op", JString "put_backrefs"); ("repo", JString repo); ("manifest", JString manifest);
               ("blobs", jstrings blobs)]
  | PutChecksum repo digest crc32c size =>
      jobject [("op", JString "put_checksum"); ("repo", JString repo); ("digest", JString digest);
               ("crc32c", JNumber (PosInt crc32c)); ("size", JNumber (PosInt size))]
  | DeleteBlob repo digest =>
      jobject [("op", JString "delete_blob"); ("repo", JString repo); ("digest", JString digest)]
  end.

(** [v.get(k).and_then(f)] *)
Definition member {A} (f : json → option A) (k : string) (v : json) : option A :=
  match jget k v with Some x => f x | None => None end.

Definition op_of_json (v : json) : option MetaOp :=
  let s k := member as_str k v in
  let strings k := match member as_array k v with Some a => omap as_str a | None => [] end in
  match s "op" with
  | None => None
  | Some name =>
      if decide (name = "put_manifest") then
        match s "repo", s "digest", s "media_type" with
        | Some r, Some d, Some m =>
            Some (PutManifest r d m (s "tag") (strings "references")
              (match s "subject", s "descriptor" with
               | Some subj, Some desc => Some (subj, as_bytes desc)
               | _, _ => None
               end))
        | _, _, _ => None
        end
      else if decide (name = "delete_manifest") then
        match s "repo", s "digest" with Some r, Some d => Some (DeleteManifest r d) | _, _ => None end
      else if decide (name = "put_referrer") then
        match s "repo", s "subject", s "referrer", s "descriptor" with
        | Some r, Some subj, Some ref, Some desc => Some (PutReferrer r subj ref (as_bytes desc))
        | _, _, _, _ => None
        end
      else if decide (name = "put_backrefs") then
        match s "repo", s "manifest" with
        | Some r, Some m => Some (PutBackrefs r m (strings "blobs"))
        | _, _ => None
        end
      else if decide (name = "put_checksum") then
        match s "repo", s "digest", member as_u64 "crc32c" v, member as_u64 "size" v with
        | Some r, Some d, Some c, Some n =>
            if (c <=? 2 ^ 32 - 1)%Z then Some (PutChecksum r d c n) else None
        | _, _, _, _ => None
        end
      else if decide (name = "delete_blob") then
        match s "repo", s "digest" with Some r, Some d => Some (DeleteBlob r d) | _, _ => None end
      else None
  end.

Section Log.
Context `{Crypto, Hmac, SerdeJson}.

Definition serialize_op (op : MetaOp) : bytes := to_vec (op_json op).

Definition deserialize_op (payload : bytes) : option MetaOp := from_slice payload ≫= op_of_json.

(** ** Framing *)

Definition encode_record_raw (payload : bytes) (key : option bytes) : bytes :=
  to_le_bytes 4 (blen payload `mod` 2 ^ 32) ++ to_le_bytes 4 (crc32c payload) ++ payload ++
  match key with Some k => hmac_tag k payload | None => [] end.

Definition encode_record (op : MetaOp) (key : option bytes) : bytes :=
  encode_record_raw (serialize_op op) key.

(** One turn of the replay loop: the payload at the front of [bytes[pos..]]
    and what follows the record; [None] where the loop breaks. *)
Definition next_record (key : option bytes) (l : bytes) : option (bytes * bytes) :=
  if length l <? 8 then None else
  let len := Z.to_nat (from_le_bytes (take 4 l)) in
  let crc := from_le_bytes (take 4 (drop 4 l)) in
  let hmac_extra := match key with Some _ => 32 | None => 0 end in
  if length l <? 8 + len + hmac_extra then None else
  let payload := take len (drop 8 l) in
  if negb (crc32c payload =? crc)%Z then None else
  if match key with
     | Some k => negb (hmac_verify k payload (take 32 (drop (8 + len) l)))
     | None => false
     end then None
  else Some (payload, drop (8 + len + hmac_extra) l).

Inductive LogFramingCheck := Compatible | Incompatible | NoHeader.

Definition check_log_framing (l : bytes) (expected : FramingMode) (key : option bytes) : LogFramingCheck :=
  if length l <? 8 then NoHeader else
  let len := Z.to_nat (from_le_bytes (take 4 l)) in
  let crc := from_le_bytes (take 4 (drop 4 l)) in
  if length l <? 8 + len then NoHeader else
  let payload := take len (drop 8 l) in
  if negb (crc32c payload =? crc)%Z then NoHeader else
  match decode_header payload with
  | Some mode =>
      if decide (mode = expected) then
        match key with
        | Some k =>
            if length l <? 8 + len + 32 then Incompatible
            else if negb (hmac_verify k payload (take 32 (drop (8 + len) l))) then Incompatible
            else Compatible
        | None => Compatible
        end
      else Incompatible
  | None => NoHeader
  end.

Definition generation_marker (payload : bytes) : option Z :=
  match from_slice payload with
  | None => None
  | Some v =>
      match member as_str "op" v with
      | Some "gen" => member as_u64 "gen" v
      | _ => None
      end
  end.

(** The loop of [replay_log]: [index] records were read; every record takes
    eight bytes or more, so the length of the log is enough fuel. *)
Fixpoint replay_loop (fuel : nat) (key : option bytes) (index : nat) (l : bytes) (s : State) (gen : Z)
    : State * Z :=
  match fuel with
  | O => (s, gen)
  | S fuel =>
      match next_record key l with
      | None => (s, gen)
      | Some (payload, rest) =>
          let index := S index in
          if (index =? 1) && bool_decide (is_Some (decode_header payload)) then
            replay_loop fuel key index rest s gen
          else
            match (if index <=? 2 then generation_marker payload else None) with
            | Some g => replay_loop fuel key index rest s g
            | None =>
                let s := match deserialize_op payload with Some op => apply_in_ram s op | None => s end in
                replay_loop fuel key index rest s gen
            end
      end
  end.

Definition replay_log (l : bytes) (key : option bytes) (s : State) (gen : Z) : State * Z :=
  replay_loop (S (length l)) key 0 l s gen.

Fixpoint replay_legacy_loop (fuel : nat) (l : bytes) (s : State) : State :=
  match fuel with
  | O => s
  | S fuel =>
      match next_record None l with
      | None => s
      | Some (payload, rest) =>
          replay_legacy_loop fuel rest
            (match deserialize_op payload with Some op => apply_in_ram s op | None => s end)
      end
  end.

Definition replay_legacy (l : bytes) (s : State) : State := replay_legacy_loop (S (length l)) l s.

(** ** The store

    [log_file] is the content of [roci-meta.log] ([None]: no such file),
    [durable] how much of it an [fsync] covered, [opened] whether the store
    holds its handle. *)

Record LogStore := mkLog {
  ram : State;
  log_file : option bytes;
  durable : nat;
  opened : bool;
  appended : Z;
  synced : Z;
  log_key : option bytes;
  compact_threshold : Z;
  gen : Z;
  image_len : Z;
}.

Definition open_inner (file : option bytes) (threshold : Z) (key : option bytes) : LogStore :=
  let '(s, g, file') :=
    match file with
    | Some (b :: l) =>
        match check_log_framing (b :: l) (framing_mode key) key with
        | Compatible => (replay_log (b :: l) key ∅ 0, file)
        | Incompatible => ((∅, 0%Z), None)
        | NoHeader =>
            match key with
            | Some _ => ((∅, 0%Z), None)
            | None => ((replay_legacy (b :: l) ∅, 0%Z), file)
            end
        end
    | _ => ((∅, 0%Z), file)
    end in
  mkLog s file' (length (default [] file')) false 0 0 key threshold g (blen (default [] file')).

(** [write_all] writes everything, or fails after some prefix. *)
Inductive write_outcome := WOk | WErr (n : nat) (e : io_error).

Definition append_bytes (ls : LogStore) (op : MetaOp) : bytes :=
  let record := encode_record op (log_key ls) in
  if negb (opened ls) && (length (default [] (log_file ls)) =? 0) then
    encode_record_raw (encode_header (framing_mode (log_key ls))) (log_key ls) ++ record
  else record.

Definition append_record (ls : LogStore) (op : MetaOp) (w : write_outcome)
    : LogStore * result io_error Z :=
  let file := default [] (log_file ls) in
  match w with
  | WErr n e =>
      (mkLog (ram ls) (Some (file ++ take n (append_bytes ls op))) (durable ls) (opened ls) (appended ls)
         (synced ls) (log_key ls) (compact_threshold ls) (gen ls) (image_len ls), Err e)
  | WOk =>
      (mkLog (apply_in_ram (ram ls) op) (Some (file ++ append_bytes ls op)) (durable ls) true
         (appended ls + 1) (synced ls) (log_key ls) (compact_threshold ls) (gen ls) (image_len ls),
       Ok (appended ls + 1)%Z)
  end.

(** [group_commit_through], under the lock of [sync], in three parts between which
    others append: the load of the counter, unless the record is synced; the
    [sync_data], which fails with an error or makes what is in the file durable;
    and the store of what the load saw. *)
Definition commit_load (ls : LogStore) (my_seq : Z) : option Z :=
  if (my_seq <=? synced ls)%Z then None else Some (appended ls).

Definition commit_sync (ls : LogStore) : LogStore :=
  mkLog (ram ls) (log_file ls) (length (default [] (log_file ls))) (opened ls) (appended ls) (synced ls)
    (log_key ls) (compact_threshold ls) (gen ls) (image_len ls).

Definition commit_store (ls : LogStore) (covered : Z) : LogStore :=
  mkLog (ram ls) (log_file ls) (durable ls) (opened ls) (appended ls) (synced ls `max` covered)
    (log_key ls) (compact_threshold ls) (gen ls) (image_len ls).

Definition group_commit (ls : LogStore) (my_seq : Z) (fsync : result io_error unit)
    : LogStore * result io_error unit :=
  match commit_load ls my_seq with
  | None => (ls, Ok tt)
  | Some covered =>
      match fsync with
      | Err e => (ls, Err e)
      | Ok _ => (commit_store (commit_sync ls) covered, Ok tt)
      end
  end.

(** [apply] and [apply_relaxed] *)
Definition apply (ls : LogStore) (op : MetaOp) (w : write_outcome) (fsync : result io_error unit)
    : LogStore * result io_error unit :=
  match append_record ls op w with
  | (ls, Err e) => (ls, Err e)
  | (ls, Ok seq) => group_commit ls seq fsync
  end.

Definition apply_relaxed (ls : LogStore) (op : MetaOp) (w : write_outcome)
    : LogStore * result io_error unit :=
  match append_record ls op w with
  | (ls, Err e) => (ls, Err e)
  | (ls, Ok _) => (ls, Ok tt)
  end.

(** ** Compaction *)

Definition header_record (key : option bytes) : bytes :=
  encode_record_raw (encode_header (framing_mode key)) key.

Definition encode_ops (key : option bytes) (ops : list MetaOp) : bytes :=
  ops ≫= λ op, encode_record op key.

Definition write_log_image `{HashIter} (s : State) (key : option bytes) (g : option Z) : bytes :=
  header_record key ++
  match g with Some g => encode_record_raw (gen_marker g) key | None => [] end ++
  encode_ops key (export_state s).

(** [do_maintain], with calls that succeed: the image is written, synced and
    renamed into place; then, with the lock of [sync] ([install_log]), the store
    appends to the new file, and everything appended so far counts as synced. *)
Definition maintain_rename `{HashIter} (ls : LogStore) : option LogStore :=
  let log_size := blen (default [] (log_file ls)) in
  let grown := saturating_sub log_size (image_len ls) in
  if (compact_threshold ls =? 0)%Z || (grown <=? compact_threshold ls)%Z then None else
  let image := write_log_image (ram ls) (log_key ls) (Some (gen ls + 1)%Z) in
  Some (mkLog (ram ls) (Some image) (length image) true (appended ls) (synced ls) (log_key ls)
          (compact_threshold ls) (gen ls) (image_len ls)).

Definition maintain_install (ls : LogStore) : LogStore :=
  mkLog (ram ls) (log_file ls) (durable ls) (opened ls) (appended ls) (appended ls) (log_key ls)
    (compact_threshold ls) (gen ls + 1) (blen (default [] (log_file ls))).

Definition do_maintain `{HashIter} (ls : LogStore) : LogStore :=
  match maintain_rename ls with Some ls => maintain_install ls | None => ls end.
End Log.

(** ** Lemmas: bytes *)

Lemma ascii_of_byte z : (0 ≤ z < 256)%Z → u8 (ascii_of_N (Z.to_N z)) = z.
Proof.
  intros Hz. unfold u8. rewrite N_ascii_embedding; [lia|]. lia.
Qed.

Lemma to_le_bytes_length n z : length (to_le_bytes n z) = n.
Proof. revert z. induction n as [|n IH]; intros z; simpl; [done|]. by rewrite IH. Qed.

Lemma from_to_le_bytes n z : (0 ≤ z < 256 ^ Z.of_nat n)%Z → from_le_bytes (to_le_bytes n z) = z.
Proof.
  revert z. induction n as [|n IH]; intros z Hz.
  - simpl in *. lia.
  - rewrite Nat2Z.inj_succ, Z.pow_succ_r in Hz by lia. cbn [to_le_bytes from_le_bytes].
    rewrite ascii_of_byte by (apply Z.mod_pos_bound; lia).
    rewrite IH; [|split; [apply Z.div_pos; lia|apply Z.div_lt_upper_bound; lia]].
    pose proof (Z.div_mod z 256). lia.
Qed.

(** ** Lemmas: operations as JSON *)

(** Rust strings are UTF-8, integers have their width, and a descriptor is the
    JSON text of a manifest descriptor. *)
Definition op_wf (op : MetaOp) : Prop :=
  match op with
  | PutManifest repo digest media_type tag references referrer =>
      utf8 repo ∧ utf8 digest ∧ utf8 media_type ∧ (∀ t, tag = Some t → utf8 t) ∧ Forall utf8 references ∧
      (∀ s d, referrer = Some (s, d) → utf8 s ∧ utf8_valid d = true)
  | DeleteManifest repo digest | DeleteBlob repo digest => utf8 repo ∧ utf8 digest
  | PutBackrefs repo manifest blobs => utf8 repo ∧ utf8 manifest ∧ Forall utf8 blobs
  | PutReferrer repo subject referrer descriptor =>
      utf8 repo ∧ utf8 subject ∧ utf8 referrer ∧ utf8_valid descriptor = true
  | PutChecksum repo digest crc size =>
      utf8 repo ∧ utf8 digest ∧ (0 ≤ crc < 2 ^ 32)%Z ∧ is_u64 size
  end.

Lemma as_bytes_lossy d : utf8_valid d = true → as_bytes (lossy d) = d.
Proof. intros Hd. unfold lossy. by rewrite as_of_bytes, from_utf8_lossy_valid. Qed.

Lemma utf8_lossy d : utf8_valid d = true → utf8 (lossy d).
Proof. intros Hd. unfold utf8. by rewrite as_bytes_lossy. Qed.

Lemma omap_jstrings (l : list string) : omap as_str (JString <$> l) = l.
Proof. induction l as [|s l IH]; [done|]. rewrite fmap_cons.
  change (s :: omap as_str (JString <$> l) = s :: l). by rewrite IH.
Qed.

Lemma jstrings_flat l : Forall utf8 l → flat_value (jstrings l).
Proof. intros Hl. unfold jstrings. cbn. rewrite Forall_fmap. done. Qed.

Ltac keys_order := repeat split; repeat (apply Forall_cons_2 || apply Forall_nil_2); try (vm_compute; naive_solver).

Lemma op_json_flat op : op_wf op → ∃ m, op_json op = JObject m ∧ flat_object m.
Proof.
  destruct op as [r d m tag refs referrer|r mf blobs|r d|r s ref desc|r d c n|r d]; simpl op_wf; intros Hwf.
  - destruct Hwf as (Hr&Hd&Hm&Ht&Hrefs&Href).
    assert (Htag : flat_value (match tag with Some t => JString t | None => JNull end)).
    { destruct tag as [t|]; simpl; auto. }
    pose proof (jstrings_flat refs Hrefs) as Hj.
    destruct refs as [|x refs], referrer as [[s desc]|];
      try (destruct (Href s desc eq_refl) as [Hs Hdesc]; pose proof (utf8_lossy desc Hdesc));
      eexists; (split; [reflexivity|]); split; [keys_order| |keys_order| |keys_order| |keys_order|];
      repeat (apply Forall_cons_2; [split; [reflexivity|done]|]); apply Forall_nil_2.
  - destruct Hwf as (?&?&Hb). pose proof (jstrings_flat blobs Hb).
    eexists; (split; [reflexivity|]); split; [keys_order|].
    repeat (apply Forall_cons_2; [split; [reflexivity|done]|]); apply Forall_nil_2.
  - destruct Hwf as (?&?). eexists; (split; [reflexivity|]); split; [keys_order|].
    repeat (apply Forall_cons_2; [split; [reflexivity|done]|]); apply Forall_nil_2.
  - destruct Hwf as (?&?&?&Hdesc). pose proof (utf8_lossy desc Hdesc).
    eexists; (split; [reflexivity|]); split; [keys_order|].
    repeat (apply Forall_cons_2; [split; [reflexivity|done]|]); apply Forall_nil_2.
  - destruct Hwf as (?&?&?&?). assert (is_u64 c) by (unfold is_u64, u64_max; lia).
    eexists; (split; [reflexivity|]); split; [keys_order|].
    repeat (apply Forall_cons_2; [split; [reflexivity|done]|]); apply Forall_nil_2.
  - destruct Hwf as (?&?). eexists; (split; [reflexivity|]); split; [keys_order|].
    repeat (apply Forall_cons_2; [split; [reflexivity|done]|]); apply Forall_nil_2.
Qed.

Lemma op_of_json_json op : op_wf op → op_of_json (op_json op) = Some op.
Proof.
  destruct op as [r d m tag refs referrer|r mf blobs|r d|r s ref desc|r d c n|r d]; simpl op_wf; intros Hwf.
  - destruct Hwf as (_&_&_&_&_&Href).
    transitivity (Some (PutManifest r d m tag (omap as_str (JString <$> refs))
      ((λ p, (p.1, as_bytes (lossy p.2))) <$> referrer))).
    { by destruct tag as [t|], refs as [|x refs], referrer as [[s desc]|]. }
    rewrite omap_jstrings. destruct referrer as [[s desc]|]; [|done]. simpl.
    rewrite as_bytes_lossy; [done|]. by eapply Href.
  - transitivity (Some (PutBackrefs r mf (omap as_str (JString <$> blobs)))); [done|].
    by rewrite omap_jstrings.
  - reflexivity.
  - destruct Hwf as (_&_&_&Hdesc).
    transitivity (Some (PutReferrer r s ref (as_bytes (lossy desc)))); [done|]. by rewrite as_bytes_lossy.
  - destruct Hwf as (_&_&Hc&_).
    transitivity (if (c <=? 2 ^ 32 - 1)%Z then Some (PutChecksum r d c n) else None); [done|].
    by rewrite (proj2 (Z.leb_le c (2 ^ 32 - 1))) by lia.
  - reflexivity.
Qed.

(** ** Lemmas: framing *)

Section Framing.
Context `{!Crypto, !CryptoLaws, !Hmac, !HmacLaws, !SerdeJson, !SerdeLaws}.

Definition payload_ok (p : bytes) : Prop := (blen p < 2 ^ 32)%Z.

Definition tag_bytes (key : option bytes) (p : bytes) : bytes :=
  match key with Some k => hmac_tag k p | None => [] end.

Definition tag_len (key : option bytes) : nat := match key with Some _ => 32 | None => 0 end.

Lemma tag_bytes_length key p : length (tag_bytes key p) = tag_len key.
Proof. destruct key; simpl; [apply hmac_tag_length|done]. Qed.

Lemma encode_record_raw_length p key :
  length (encode_record_raw p key) = 8 + length p + tag_len key.
Proof.
  unfold encode_record_raw. rewrite !length_app, !to_le_bytes_length.
  change (match key with Some k => _ | None => _ end) with (tag_bytes key p).
  rewrite tag_bytes_length. lia.
Qed.

(** The fields of a record, and the length field of a record that is cut
    anywhere after its first four bytes. *)
Lemma record_len_field p key rest n :
  payload_ok p → 4 ≤ n →
  Z.to_nat (from_le_bytes (take 4 (take n (encode_record_raw p key ++ rest)))) = length p.
Proof.
  intros Hp Hn. unfold encode_record_raw. rewrite take_take, Nat.min_l by lia. rewrite <-!app_assoc.
  rewrite take_app_length' by (by rewrite to_le_bytes_length).
  unfold payload_ok in Hp. pose proof (blen_nonneg p).
  rewrite Z.mod_small by lia. rewrite from_to_le_bytes by (simpl; lia). unfold blen. lia.
Qed.

Lemma crc32c_range p : (0 ≤ crc32c p < 2 ^ 32)%Z.
Proof. apply crc32c_append_range. lia. Qed.

Lemma record_fields p key rest :
  payload_ok p →
  let l := encode_record_raw p key ++ rest in
  Z.to_nat (from_le_bytes (take 4 l)) = length p ∧
  from_le_bytes (take 4 (drop 4 l)) = crc32c p ∧
  take (length p) (drop 8 l) = p ∧
  take (tag_len key) (drop (8 + length p) l) = tag_bytes key p ∧
  drop (8 + length p + tag_len key) l = rest.
Proof.
  intros Hp l. pose proof (to_le_bytes_length 4) as Hl4. split_and!.
  - rewrite <-(record_len_field p key rest (length l)) by (done || (unfold l; rewrite length_app, encode_record_raw_length; lia)).
    by rewrite firstn_all.
  - unfold l, encode_record_raw. rewrite <-!app_assoc. rewrite drop_app_length' by (by rewrite Hl4).
    rewrite take_app_length' by (by rewrite Hl4). apply from_to_le_bytes. pose proof (crc32c_range p). simpl. lia.
  - unfold l, encode_record_raw. rewrite <-!app_assoc. rewrite app_assoc.
    rewrite drop_app_length' by (rewrite length_app, !Hl4; done). by apply take_app_length'.
  - unfold l, encode_record_raw. change (match key with Some k => _ | None => _ end) with (tag_bytes key p).
    rewrite <-!app_assoc. do 2 rewrite app_assoc.
    rewrite drop_app_length' by (rewrite !length_app, !Hl4; lia).
    apply take_app_length'. by rewrite tag_bytes_length.
  - apply drop_app_length'. by rewrite encode_record_raw_length.
Qed.

(** Reading back a record. *)
Lemma next_record_encode p key rest :
  payload_ok p → next_record key (encode_record_raw p key ++ rest) = Some (p, rest).
Proof.
  intros Hp. destruct (record_fields p key rest Hp) as (E1&E2&E3&E4&E5).
  set (l := encode_record_raw p key ++ rest) in *.
  assert (Hlen : 8 + length p + tag_len key ≤ length l).
  { unfold l. rewrite length_app, encode_record_raw_length. lia. }
  unfold next_record. rewrite E1, E2, E3.
  rewrite (proj2 (Nat.ltb_ge (length l) 8)) by lia.
  change (match key with Some _ => 32 | None => 0 end) with (tag_len key).
  rewrite (proj2 (Nat.ltb_ge (length l) (8 + length p + tag_len key))) by lia.
  rewrite Z.eqb_refl. cbn [negb]. rewrite E5. destruct key as [k|]; [|done].
  cbn [tag_len tag_bytes] in E4. rewrite E4.
  by rewrite (proj2 (hmac_verify_tag k p (hmac_tag k p))).
Qed.

(** A record that is cut short stops the replay. *)
Lemma next_record_torn p key rest n :
  payload_ok p → n < length (encode_record_raw p key) →
  next_record key (take n (encode_record_raw p key ++ rest)) = None.
Proof.
  intros Hp Hn. rewrite encode_record_raw_length in Hn. unfold next_record.
  set (l := take n (encode_record_raw p key ++ rest)).
  assert (Hlen : length l ≤ n) by (unfold l; rewrite length_take; lia).
  destruct (Nat.ltb_spec (length l) 8); [done|].
  assert (Z.to_nat (from_le_bytes (take 4 l)) = length p) as -> by (apply record_len_field; [done|lia]).
  change (match key with Some _ => 32 | None => 0 end) with (tag_len key).
  rewrite (proj2 (Nat.ltb_lt (length l) _)) by lia. done.
Qed.

Lemma next_record_nil key : next_record key [] = None.
Proof. done. Qed.

(** A payload authenticated with another key, or altered, stops it too. *)
Lemma next_record_authentic key k l p rest :
  key = Some k → next_record key l = Some (p, rest) →
  ∃ pre, l = pre ++ rest ∧ take 32 (drop (8 + length p) l) = hmac_tag k p.
Proof.
  intros ->. unfold next_record. repeat case_match; try done. intros [= <- <-].
  eexists. split; [symmetry; apply take_drop|].
  select (negb (hmac_verify _ _ _) = false) (fun Hv => apply negb_false_iff, hmac_verify_tag in Hv; rename Hv into Hv').
  rewrite <-Hv'. do 2 f_equal. rewrite length_take, length_drop.
  select ((length l <? _) = false) (fun Hl => apply Nat.ltb_ge in Hl). simpl in *. lia.
Qed.
End Framing.

(** ** Lemmas: replay *)

Section Replay.
Context `{!Crypto, !CryptoLaws, !Hmac, !HmacLaws, !SerdeJson, !SerdeLaws}.
Implicit Types (key : option bytes) (ops : list MetaOp).

Definition op_ok (op : MetaOp) : Prop := op_wf op ∧ payload_ok (serialize_op op).

Lemma deserialize_serialize op : op_wf op → deserialize_op (serialize_op op) = Some op.
Proof.
  intros Hwf. unfold deserialize_op, serialize_op. destruct (op_json_flat op Hwf) as (m&Hm&Hflat).
  rewrite Hm, from_to_vec by done. simpl. rewrite <-Hm. by apply op_of_json_json.
Qed.

Lemma generation_marker_op op : op_wf op → generation_marker (serialize_op op) = None.
Proof.
  intros Hwf. unfold generation_marker, serialize_op. destruct (op_json_flat op Hwf) as (m&Hm&Hflat).
  rewrite Hm, from_to_vec by done. rewrite <-Hm.
  by destruct op as [? ? ? [] [] [[]|]| | | | |].
Qed.

Lemma decode_encode_header mode : decode_header (encode_header mode) = Some mode.
Proof. by destruct mode. Qed.

Lemma header_payload_ok mode : payload_ok (encode_header mode).
Proof. by destruct mode. Qed.

Lemma encode_ops_app key ops ops' : encode_ops key (ops ++ ops') = encode_ops key ops ++ encode_ops key ops'.
Proof. unfold encode_ops. by rewrite bind_app. Qed.

Lemma encode_ops_cons key op ops : encode_ops key (op :: ops) = encode_record op key ++ encode_ops key ops.
Proof. done. Qed.

Lemma encode_record_length key op : 8 ≤ length (encode_record op key).
Proof. unfold encode_record. rewrite encode_record_raw_length. lia. Qed.

Lemma encode_ops_length key ops : length ops ≤ length (encode_ops key ops).
Proof.
  induction ops as [|op ops IH]; [done|]. rewrite encode_ops_cons, length_app. simpl.
  pose proof (encode_record_length key op). lia.
Qed.

Lemma replay_ops key ops fuel index tl s g :
  Forall op_ok ops → 1 ≤ index → next_record key tl = None → length ops < fuel →
  replay_loop fuel key index (encode_ops key ops ++ tl) s g = (foldl apply_in_ram s ops, g).
Proof.
  intros Hops Hi Htl. revert fuel index s Hi. induction Hops as [|op ops [Hwf Hp] Hops IH];
    intros fuel index s Hi Hf; (destruct fuel as [|fuel]; simpl in Hf; [lia|]).
  - cbn [replay_loop]. change (encode_ops key [] ++ tl) with tl. by rewrite Htl.
  - rewrite encode_ops_cons, <-app_assoc. cbn [replay_loop]. unfold encode_record at 1.
    rewrite next_record_encode by done.
    destruct (Nat.eqb_spec (S index) 1); [lia|]. cbn [andb].
    assert ((if S index <=? 2 then generation_marker (serialize_op op) else None) = None) as ->.
    { case_match; [by apply generation_marker_op|done]. }
    rewrite deserialize_serialize by done. cbn [foldl]. apply IH; lia.
Qed.

Lemma replay_header key fuel l s g :
  replay_loop (S fuel) key 0 (header_record key ++ l) s g = replay_loop fuel key 1 l s g.
Proof.
  cbn [replay_loop]. unfold header_record. rewrite next_record_encode by apply header_payload_ok.
  rewrite decode_encode_header. done.
Qed.

Lemma replay_image key ops tl :
  Forall op_ok ops → next_record key tl = None →
  replay_log (header_record key ++ encode_ops key ops ++ tl) key ∅ 0 = (foldl apply_in_ram ∅ ops, 0%Z).
Proof.
  intros Hops Htl. unfold replay_log. rewrite replay_header. apply replay_ops; [done|lia|done|].
  rewrite !length_app. unfold header_record. rewrite encode_record_raw_length.
  pose proof (encode_ops_length key ops). lia.
Qed.

Lemma header_compatible key l :
  check_log_framing (header_record key ++ l) (framing_mode key) key = Compatible.
Proof.
  unfold header_record. set (p := encode_header (framing_mode key)).
  destruct (record_fields p key l (header_payload_ok _)) as (E1&E2&E3&E4&E5).
  set (b := encode_record_raw p key ++ l) in *.
  assert (Hlen : 8 + length p + tag_len key ≤ length b).
  { unfold b. rewrite length_app, encode_record_raw_length. lia. }
  unfold check_log_framing. rewrite E1, E2, E3, Z.eqb_refl. cbn [negb].
  rewrite (proj2 (Nat.ltb_ge (length b) 8)), (proj2 (Nat.ltb_ge (length b) (8 + length p))) by lia.
  unfold p at 1. rewrite decode_encode_header, decide_True by done. destruct key as [k|]; [|done].
  cbn [tag_len tag_bytes] in *. rewrite (proj2 (Nat.ltb_ge (length b) _)) by lia.
  rewrite E4. by rewrite (proj2 (hmac_verify_tag k p _)).
Qed.

(** Cutting a log anywhere leaves whole records and a tail that stops the
    replay. *)
Lemma torn_split key ops n :
  Forall op_ok ops →
  ∃ k tl, k ≤ length ops ∧ take n (encode_ops key ops) = encode_ops key (take k ops) ++ tl ∧
    next_record key tl = None ∧
    ∀ j, j ≤ length ops → length (encode_ops key (take j ops)) ≤ n → j ≤ k.
Proof.
  intros Hops. revert n. induction Hops as [|op ops [Hwf Hp] Hops IH]; intros n.
  - exists 0, []. change (encode_ops key []) with (@nil ascii). rewrite take_nil.
    split_and!; [lia|done|done|]. intros j Hj _. simpl in Hj. lia.
  - rewrite encode_ops_cons. destruct (Nat.lt_ge_cases n (length (encode_record op key))) as [Hn|Hn].
    + exists 0, (take n (encode_record op key ++ encode_ops key ops)).
      split_and!; [simpl; lia|done|by apply next_record_torn|].
      intros [|j] _ Hj; [lia|]. cbn [take] in Hj. rewrite encode_ops_cons, length_app in Hj. lia.
    + destruct (IH (n - length (encode_record op key))) as (k&tl&Hk&Heq&Htl&Hmax).
      exists (S k), tl. split_and!; [simpl; lia| |done|].
      * rewrite take_app, take_ge by lia. rewrite Heq. cbn [take].
        by rewrite encode_ops_cons, <-app_assoc.
      * intros [|j] Hj Hlen; [lia|]. cbn [take] in Hlen. rewrite encode_ops_cons, length_app in Hlen.
        simpl in Hj. enough (j ≤ k) by lia. apply Hmax; lia.
Qed.

(** Opening what is left of a log after a crash. *)
Lemma open_torn key ops n th :
  Forall op_ok ops →
  ∃ k, k ≤ length ops ∧
    ram (open_inner (Some (take n (header_record key ++ encode_ops key ops))) th key) =
      foldl apply_in_ram ∅ (take k ops) ∧
    ∀ j, 0 < j → j ≤ length ops →
      length (header_record key ++ encode_ops key (take j ops)) ≤ n → j ≤ k.
Proof.
  intros Hops. destruct (Nat.lt_ge_cases n (length (header_record key))) as [Hn|Hn].
  - exists 0. split_and!; [lia| |intros j Hj _ Hlen; rewrite length_app in Hlen; lia].
    cbn [take foldl]. unfold open_inner.
    destruct (take n (header_record key ++ encode_ops key ops)) as [|b l] eqn:El; [done|].
    assert (Htorn : next_record key (b :: l) = None).
    { rewrite <-El. apply next_record_torn; [apply header_payload_ok|done]. }
    destruct (check_log_framing (b :: l) (framing_mode key) key); [|done|].
    + unfold replay_log. cbn [replay_loop]. by rewrite Htorn.
    + destruct key as [k|]; [done|]. unfold replay_legacy. cbn [replay_legacy_loop]. by rewrite Htorn.
  - destruct (torn_split key ops (n - length (header_record key)) Hops) as (k&tl&Hk&Heq&Htl&Hmax).
    exists k. split_and!; [done| |].
    + rewrite take_app, take_ge by lia. rewrite Heq. unfold open_inner.
      pose proof (header_compatible key (encode_ops key (take k ops) ++ tl)) as Hcomp.
      destruct (header_record key ++ encode_ops key (take k ops) ++ tl) as [|b l] eqn:El.
      { unfold header_record in El. apply (f_equal length) in El.
        rewrite length_app, encode_record_raw_length in El. simpl in El. lia. }
      rewrite Hcomp, <-El, replay_image by (by try apply Forall_take). done.
    + intros j _ Hj Hlen. apply Hmax; [done|]. rewrite length_app in Hlen. lia.
Qed.
End Replay.

(** ** The log as a state machine

    Writers append under the lock of the state, and commit their own sequence
    number under the lock of [sync], each at its own pace; a commit can fail; and
    the log is compacted, under the first lock and then both. A step that has to
    wait for a lock does nothing. *)

(** Where the thread with the lock of [sync] is in [group_commit_through]. *)
Inductive commit_phase :=
  | CIdle
  | CLoaded (seq covered : Z)
  | CSynced (seq covered : Z).

(** [w_renamed]: a compaction is between the rename and the installation of the
    new handle; [w_acked]: the highest number whose commit has returned success. *)
Record Wal := mkWal { w_log : LogStore; w_commit : commit_phase; w_renamed : bool; w_acked : Z }.

Inductive wal_step :=
  | WAppend (op : MetaOp)
  | WLoad (seq : Z)
  | WSync (fsync : result io_error unit)
  | WStore
  | WRename
  | WInstall.

Section Durability.
Context `{!Crypto, !CryptoLaws, !Hmac, !HmacLaws, !SerdeJson, !SerdeLaws, !HashIter}.

(** A [sync_data] while a compaction is being installed is one of the replaced
    file. *)
Definition wal_run (w : Wal) (st : wal_step) : Wal :=
  let ls := w_log w in
  match st, w_commit w, w_renamed w with
  | WAppend op, c, false => mkWal (append_record ls op WOk).1 c false (w_acked w)
  | WLoad seq, CIdle, b =>
      match commit_load ls seq with
      | None => mkWal ls CIdle b (w_acked w `max` seq)
      | Some covered => mkWal ls (CLoaded seq covered) b (w_acked w)
      end
  | WSync (Err _), CLoaded _ _, b => mkWal ls CIdle b (w_acked w)
  | WSync (Ok _), CLoaded seq covered, b => mkWal (if b then ls else commit_sync ls) (CSynced seq covered) b (w_acked w)
  | WStore, CSynced seq covered, b => mkWal (commit_store ls covered) CIdle b (w_acked w `max` seq)
  | WRename, c, false =>
      match maintain_rename ls with Some ls => mkWal ls c true (w_acked w) | None => w end
  | WInstall, CIdle, true => mkWal (maintain_install ls) CIdle false (w_acked w)
  | _, _, _ => w
  end.

(** The mutations of a run, in the order of their sequence numbers. *)
Fixpoint appends (w : Wal) (steps : list wal_step) : list MetaOp :=
  match steps with
  | [] => []
  | st :: steps =>
      match st with WAppend op => if w_renamed w then [] else [op] | _ => [] end ++ appends (wal_run w st) steps
  end.

(** A state whose image replays to it. *)
Definition compactable (ls : LogStore) : Prop :=
  state_ok (ram ls) ∧ media_coherent (ram ls) ∧ Forall op_ok (export_state (ram ls)) ∧ is_u64 (gen ls + 1) ∧
  payload_ok (gen_marker (gen ls + 1)).

(** Mutations can be encoded, commits are for numbers that were handed out, and
    compaction is of states that have an image. *)
Fixpoint steps_ok (w : Wal) (steps : list wal_step) : Prop :=
  match steps with
  | [] => True
  | st :: steps =>
      match st with
      | WAppend op => op_ok op
      | WLoad seq => (seq ≤ appended (w_log w))%Z
      | WRename => compactable (w_log w)
      | _ => True
      end ∧ steps_ok (wal_run w st) steps
  end.

(** Bytes that open to [s], whatever whole records come after them. *)
Definition whole (key : option bytes) (b : bytes) (s : State) (g : Z) : Prop :=
  b ≠ [] ∧ (∀ l, check_log_framing (b ++ l) (framing_mode key) key = Compatible) ∧
  ∀ ops tl, Forall op_ok ops → next_record key tl = None →
    replay_log (b ++ encode_ops key ops ++ tl) key ∅ 0 = (foldl apply_in_ram s ops, g).

Lemma header_record_ne key : header_record key ≠ [].
Proof.
  intros E. apply (f_equal length) in E. unfold header_record in E. rewrite encode_record_raw_length in E. simpl in E. lia.
Qed.

Lemma whole_header key : whole key (header_record key) ∅ 0.
Proof.
  split_and!; [apply header_record_ne|intros l; apply header_compatible|]. intros ops tl Hops Htl. by apply replay_image.
Qed.

Lemma whole_app key b s g ops : whole key b s g → Forall op_ok ops → whole key (b ++ encode_ops key ops) (foldl apply_in_ram s ops) g.
Proof.
  intros (Hb & Hc & Hr) Hops. split_and!; [by intros [? _]%app_eq_nil|intros l; rewrite <-app_assoc; apply Hc|].
  intros ops' tl Hops' Htl. rewrite <-foldl_app, <-(Hr (ops ++ ops') tl); [|by apply Forall_app|done].
  by rewrite encode_ops_app, <-!app_assoc.
Qed.

Lemma whole_image ls : compactable ls →
  whole (log_key ls) (write_log_image (ram ls) (log_key ls) (Some (gen ls + 1)%Z)) (foldl apply_in_ram ∅ (export_state (ram ls)))
    (gen ls + 1).
Proof.
  intros (_ & _ & Hops & Hg & Hmk). unfold write_log_image. rewrite app_assoc. apply whole_app; [|done].
  set (key := log_key ls). set (g := (gen ls + 1)%Z) in *.
  split_and!; [intros [? _]%app_eq_nil; by eapply header_record_ne|intros l; rewrite <-app_assoc; apply header_compatible|].
  intros ops tl Hops' Htl. unfold replay_log. rewrite <-app_assoc, replay_header. destruct (length _) as [|fuel] eqn:El.
  { rewrite !length_app, encode_record_raw_length in El. lia. }
  cbn [replay_loop]. rewrite next_record_encode by done. cbn [Nat.eqb andb Nat.leb].
  assert (generation_marker (gen_marker g) = Some g) as -> by (unfold generation_marker; by rewrite from_gen_marker).
  apply replay_ops; [done|lia|done|]. rewrite !length_app, encode_record_raw_length in El.
  pose proof (encode_ops_length key ops). lia.
Qed.

(** Opening what is left of a log after a crash that keeps at least [b]. *)
Lemma open_whole key b s g ops n th :
  whole key b s g → Forall op_ok ops → length b ≤ n →
  ∃ k, k ≤ length ops ∧
    ram (open_inner (Some (take n (b ++ encode_ops key ops))) th key) = foldl apply_in_ram s (take k ops) ∧
    gen (open_inner (Some (take n (b ++ encode_ops key ops))) th key) = g ∧
    ∀ j, j ≤ length ops → length (b ++ encode_ops key (take j ops)) ≤ n → j ≤ k.
Proof.
  intros (Hb & Hc & Hr) Hops Hn. destruct (torn_split key ops (n - length b) Hops) as (k&tl&Hk&Heq&Htl&Hmax).
  exists k. rewrite take_app, take_ge, Heq by lia. unfold open_inner.
  specialize (Hc (encode_ops key (take k ops) ++ tl)). specialize (Hr (take k ops) tl (Forall_take _ _ _ Hops) Htl).
  destruct (b ++ encode_ops key (take k ops) ++ tl) as [|x l] eqn:El; [by apply app_eq_nil in El as [? _]|].
  rewrite Hc, Hr. split_and!; [done..|]. intros j Hj Hlen. apply Hmax; [done|]. rewrite length_app in Hlen. lia.
Qed.

Lemma replay_equiv ops : ∀ s s', state_equiv s s' → state_equiv (foldl apply_in_ram s ops) (foldl apply_in_ram s' ops).
Proof. induction ops as [|op ops IH]; intros s s' Hs; [done|]. simpl. apply IH. by rewrite Hs. Qed.

(** The numbers whose records are durable. *)
Definition safe_upto (w : Wal) : Z := match w_commit w with CSynced _ c => synced (w_log w) `max` c | _ => synced (w_log w) end.

(** The file of a log: nothing yet; or bytes that open to the state after [m] of
    the mutations, and the records of the others, of which the safe ones are
    durable. *)
Definition file_ok (key : option bytes) (s0 : State) (ops : list MetaOp) (w : Wal) : Prop :=
  let ls := w_log w in
  (log_file ls = None ∧ opened ls = false ∧ ops = [] ∧ s0 = ∅ ∧ w_renamed w = false) ∨
  ∃ b s g m, whole key b s g ∧ m ≤ length ops ∧ state_equiv s (foldl apply_in_ram s0 (take m ops)) ∧
    log_file ls = Some (b ++ encode_ops key (drop m ops)) ∧
    (w_renamed w = true → m = length ops) ∧
    (length b ≤ durable ls ∨ b = header_record key ∧ m = 0 ∧ s0 = ∅) ∧
    ∀ j, 0 < j → (Z.of_nat (m + j) ≤ safe_upto w)%Z → length (b ++ encode_ops key (take j (drop m ops))) ≤ durable ls.

Record wal_inv (key : option bytes) (s0 : State) (ops : list MetaOp) (w : Wal) : Prop := {
  wi_ops : Forall op_ok ops;
  wi_ram : ram (w_log w) = foldl apply_in_ram s0 ops;
  wi_key : log_key (w_log w) = key;
  wi_file : file_ok key s0 ops w;
  wi_appended : appended (w_log w) = Z.of_nat (length ops);
  wi_synced : (synced (w_log w) ≤ appended (w_log w))%Z;
  wi_acked : (w_acked w ≤ synced (w_log w))%Z;
  wi_commit : match w_commit w with CIdle => True | CLoaded seq c | CSynced seq c => (seq ≤ c ≤ appended (w_log w))%Z end;
}.

Lemma wal_inv_append key s0 ops w op :
  op_ok op → w_renamed w = false → wal_inv key s0 ops w →
  wal_inv key s0 (ops ++ [op]) (mkWal (append_record (w_log w) op WOk).1 (w_commit w) false (w_acked w)).
Proof.
  intros Hop Hren [Hops Hram Hkey Hfile Happ Hsyn Hack Hcom].
  assert (Hc : match w_commit w with CIdle => True | CLoaded _ c | CSynced _ c => (c ≤ Z.of_nat (length ops))%Z end)
    by (destruct (w_commit w); lia).
  assert (Hsafe : (safe_upto w ≤ Z.of_nat (length ops))%Z) by (unfold safe_upto; destruct (w_commit w); lia).
  split; cbn [append_record fst w_log w_commit w_acked ram log_key appended synced].
  - by apply Forall_app, conj, Forall_singleton.
  - rewrite foldl_app. cbn [foldl]. by rewrite Hram.
  - done.
  - right. unfold file_ok, append_bytes. cbn [append_record fst w_log w_renamed log_file durable]. rewrite Hkey.
    assert (Henc : encode_ops key [op] = encode_record op key) by (unfold encode_ops; simpl; by rewrite app_nil_r).
    destruct Hfile as [(Hf & Ho & -> & -> & _)|(b & s & g & m & Hw & Hm & He & Hf & _ & Hb & Hd)].
    + exists (header_record key), ∅, 0%Z, 0. rewrite Hf, Ho. cbn [negb andb default from_option id length Nat.eqb app drop take foldl].
      rewrite Henc. split_and!; try done; [apply whole_header|simpl; lia|by right|].
      intros j Hj Hs. simpl in Hsafe. unfold safe_upto in *. simpl in Hs. lia.
    + exists b, s, g, m. rewrite Hf, drop_app_le, take_app_le by done. cbn [default from_option id].
      assert (length (b ++ encode_ops key (drop m ops)) ≠ 0) as Hne.
      { destruct Hw as [Hw _]. rewrite length_app. destruct b; simpl; [done|lia]. }
      rewrite (proj2 (Nat.eqb_neq _ _) Hne), andb_false_r, encode_ops_app, Henc, <-!app_assoc.
      split_and!; try done; [rewrite length_app; simpl; lia|].
      intros j Hj Hs. change (safe_upto _) with (safe_upto w) in Hs.
      rewrite take_app_le by (rewrite length_drop; lia). by apply Hd.
  - rewrite Happ, length_app. simpl. lia.
  - lia.
  - done.
  - destruct (w_commit w); lia.
Qed.

(** What the other steps change of the file. *)
Lemma file_ok_sync key s0 ops w c b :
  wal_inv key s0 ops w → w_renamed w = b → (∀ s c', c = CSynced s c' → (c' ≤ appended (w_log w))%Z) →
  file_ok key s0 ops (mkWal (if b then w_log w else commit_sync (w_log w)) c b (w_acked w)).
Proof.
  intros Hinv Hren Hcov. destruct Hinv as [_ _ _ Hfile Happ Hsyn _ _].
  destruct Hfile as [(Hf & Ho & -> & -> & Hr)|(x & s & g & m & Hw & Hm & He & Hf & Hre & Hb & Hd)].
  { left. rewrite Hr in Hren. subst b. by split_and!. }
  right. exists x, s, g, m. unfold safe_upto. destruct b; simpl.
  - split_and!; try done; [tauto|]. specialize (Hre Hren). intros j Hj Hs. rewrite drop_ge by lia. rewrite take_nil.
    destruct Hb as [Hb|(_ & -> & _)]; [by rewrite app_nil_r|].
    exfalso. assert (length ops = 0) by lia. assert (appended (w_log w) = 0)%Z by lia.
    destruct c as [| |s' c']; [lia..|]. specialize (Hcov s' c' eq_refl). lia.
  - rewrite Hf. simpl. split_and!; try done; [left; rewrite length_app; lia|].
    intros j Hj _. rewrite <-(take_drop j (drop m ops)) at 2. rewrite encode_ops_app, !length_app. lia.
Qed.

Lemma renamed ls ls' : maintain_rename ls = Some ls' →
  let image := write_log_image (ram ls) (log_key ls) (Some (gen ls + 1)%Z) in
  ram ls' = ram ls ∧ log_file ls' = Some image ∧ durable ls' = length image ∧ appended ls' = appended ls ∧
  synced ls' = synced ls ∧ log_key ls' = log_key ls.
Proof.
  unfold maintain_rename. generalize (write_log_image (ram ls) (log_key ls) (Some (gen ls + 1)%Z)). intros image.
  destruct (_ || _); [done|]. by intros [= <-].
Qed.

Lemma wal_inv_step key s0 ops w st :
  match st with
  | WAppend op => op_ok op
  | WLoad seq => (seq ≤ appended (w_log w))%Z
  | WRename => compactable (w_log w)
  | _ => True
  end → wal_inv key s0 ops w →
  wal_inv key s0 (ops ++ match st with WAppend op => if w_renamed w then [] else [op] | _ => [] end) (wal_run w st).
Proof.
  intros Hst Hinv. pose proof Hinv as [Hops Hram Hkey Hfile Happ Hsyn Hack Hcom].
  destruct st as [op|seq|fsync| | |]; cbn [wal_run]; rewrite ?app_nil_r.
  - destruct (w_renamed w) eqn:Er; [by destruct w_commit; rewrite app_nil_r|].
    destruct (w_commit w) eqn:Ec; rewrite <-Ec; by apply wal_inv_append.
  - destruct (w_commit w) eqn:Ec; [|done..]. unfold commit_load. destruct (seq <=? synced (w_log w))%Z eqn:El; bool_simp.
    all: split; simpl; try done; try lia; unfold file_ok, safe_upto in *; rewrite Ec in Hfile; exact Hfile.
  - destruct fsync as [[]|e], (w_commit w) as [|seq c|seq c] eqn:Ec; try done.
    + split; try (by destruct (w_renamed w)). apply file_ok_sync; [done|done|]. intros s' c' [= <- <-]. lia.
    + split; simpl; try done; unfold file_ok, safe_upto in *; rewrite Ec in Hfile; exact Hfile.
  - destruct (w_commit w) as [|seq c|seq c] eqn:Ec; try done.
    split; simpl; try done; try lia; unfold file_ok, safe_upto in *; rewrite Ec in Hfile; exact Hfile.
  - destruct (w_renamed w) eqn:Er; [by destruct (w_commit w)|].
    destruct (maintain_rename (w_log w)) as [ls|] eqn:Em; [|by destruct (w_commit w)].
    destruct (renamed _ _ Em) as (Rr & Rf & Rd & Ra & Rs & Rk). pose proof (whole_image _ Hst) as Hwh. destruct Hst as (Hok & Hcoh & _).
    assert (Hw : wal_inv key s0 ops (mkWal ls (w_commit w) true (w_acked w))); [|by destruct (w_commit w)].
    split; cbn [w_log w_commit w_acked]; rewrite ?Rr, ?Rk, ?Ra, ?Rs; try done. right. do 3 eexists. exists (length ops).
    rewrite drop_all, firstn_all. cbn [w_log w_renamed]. rewrite Rf, Rd. change (encode_ops key []) with (@nil ascii). rewrite Hkey, app_nil_r in *.
    split_and!; [exact Hwh|done| |done|done|by left|].
    + rewrite <-Hram. by apply export_replay_equiv.
    + intros j Hj Hs. by rewrite take_nil, app_nil_r.
  - destruct (w_commit w) eqn:Ec; try done. destruct (w_renamed w) eqn:Er; [|done]. split; simpl; try done; [|lia..].
    destruct Hfile as [(_ & _ & _ & _ & Hr)|(x & s & g & m & Hw & Hm & He & Hf & Hre & Hb & Hd)]; [congruence|].
    right. exists x, s, g, m. specialize (Hre Er). simpl. split_and!; try done.
    intros j Hj Hs. unfold safe_upto in Hs. simpl in Hs. lia.
Qed.

Lemma wal_inv_run key s0 steps : ∀ ops w,
  wal_inv key s0 ops w → steps_ok w steps → wal_inv key s0 (ops ++ appends w steps) (foldl wal_run w steps).
Proof.
  induction steps as [|st steps IH]; intros ops w Hinv Hok; cbn [foldl appends]; [by rewrite app_nil_r|].
  destruct Hok as [Hst Hok]. rewrite app_assoc. apply IH; [|done]. by apply wal_inv_step.
Qed.

(** A store that was opened: on no file, or on an intact log that is durable. *)
Definition opened_on (key : option bytes) (file : option bytes) (s0 : State) : Prop :=
  match file with None => s0 = ∅ | Some b => ∃ g, whole key b s0 g end.

Definition wal_open (file : option bytes) (th : Z) (key : option bytes) : Wal := mkWal (open_inner file th key) CIdle false 0.

Lemma wal_inv_open key th file s0 : opened_on key file s0 → wal_inv key s0 [] (wal_open file th key).
Proof.
  destruct file as [b|]; simpl.
  - intros [g Hw]. destruct (open_whole key b s0 g [] (length b) th Hw) as (k & Hk & Hr & _ & _); [constructor|done|].
    rewrite take_nil in Hr. change (encode_ops key []) with (@nil ascii) in Hr. rewrite app_nil_r, firstn_all in Hr.
    pose proof Hw as (Hb & Hc & _). specialize (Hc []). rewrite app_nil_r in Hc.
    split; try done; unfold wal_open, open_inner in *; destruct b as [|x b]; try done; rewrite Hc in *; destruct (replay_log _ _ _ _); try done.
    right. exists (x :: b), s0, g, 0. simpl. rewrite app_nil_r. split_and!; try done; [by left|].
    intros j Hj Hs. unfold safe_upto in Hs. simpl in Hs. lia.
  - intros ->. split; try done. by left.
Qed.
End Durability.

(** A store, and a crate of JSON, for the witnesses: an object is encoded as
    the bits of a number. *)
Module ToyLog.
Abbreviation flat := (unit + string + N + list string)%type.

Definition flat_of (v : json) : option flat :=
  match v with
  | JNull => Some (inl (inl (inl tt)))
  | JString s => Some (inl (inl (inr s)))
  | JNumber (PosInt n) => Some (inl (inr (Z.to_N n)))
  | JArray l => Some (inr (omap as_str l))
  | _ => None
  end.

Definition of_flat (f : flat) : json :=
  match f with
  | inl (inl (inl _)) => JNull
  | inl (inl (inr s)) => JString s
  | inl (inr n) => JNumber (PosInt (Z.of_N n))
  | inr l => JArray (JString <$> l)
  end.

Fixpoint bits (p : positive) : bytes :=
  match p with
  | xH => []
  | xO p => "0"%char :: bits p
  | xI p => "1"%char :: bits p
  end.

Fixpoint of_bits (l : bytes) : positive :=
  match l with
  | [] => xH
  | c :: l => if decide (c = "1"%char) then xI (of_bits l) else xO (of_bits l)
  end.

Lemma of_bits_bits p : of_bits (bits p) = p.
Proof. induction p as [p IH|p IH|]; simpl; [by rewrite IH..|done]. Qed.

Definition members (m : jmap) : list (string * flat) :=
  omap (λ kv, (λ f, (kv.1, f)) <$> flat_of kv.2) m.

Definition parse (b : bytes) : option json :=
  match b with
  | "{"%char :: l =>
      match parse_u64 (of_bytes (removelast (drop 17 l))) with
      | Some g => Some (JObject [("gen", JNumber (PosInt g)); ("op", JString "gen")])
      | None => None
      end
  | _ => (λ l : list (string * flat), JObject ((λ kf, (kf.1, of_flat kf.2)) <$> l)) <$> decode (of_bits b)
  end.

#[export] Instance toy_json : SerdeJson := {|
  from_slice := parse;
  to_vec v := match v with JObject m => bits (encode (members m)) | _ => [] end;
|}.

#[export] Instance toy_hmac : Hmac := {|
  hmac_tag k x := Toy.pad 32 (k ++ x);
  hmac_verify k x t := bool_decide (t = Toy.pad 32 (k ++ x));
|}.

#[export] Instance toy_hmac_laws : HmacLaws.
Proof.
  split; simpl.
  - intros k x. unfold Toy.pad. rewrite length_take, length_app, length_replicate. lia.
  - intros k x t. by rewrite bool_decide_eq_true.
Qed.

Lemma members_flat m :
  Forall (λ kv, utf8 kv.1 ∧ flat_value kv.2) m →
  (λ kf, (kf.1, of_flat kf.2)) <$> members m = m.
Proof.
  intros Hm. induction Hm as [|[k v] m [_ Hv] Hm IH]; [done|].
  assert (Hf : ∃ f, flat_of v = Some f ∧ of_flat f = v).
  { destruct v as [| |[n|n|s]|s|l|o]; simpl in Hv; try done; eexists; (split; [reflexivity|]); simpl; try done.
    - unfold is_u64 in Hv. do 2 f_equal. lia.
    - f_equal. induction Hv as [|x l Hx Hl IHl]; [done|]. destruct x; try done.
      change (JString s :: (JString <$> omap as_str l) = JString s :: l). by rewrite IHl. }
  destruct Hf as (f&Hf&Hof). unfold members. cbn [omap list_omap fst snd]. rewrite Hf. cbn.
  rewrite Hof. f_equal. exact IH.
Qed.

Lemma bits_no_brace p l : bits p ≠ "{"%char :: l.
Proof. by destruct p. Qed.

Lemma bits_utf8 p : utf8_valid (bits p) = true.
Proof. by induction p. Qed.

Lemma drop_marker g :
  removelast (drop 17 (tail (gen_marker g))) = as_bytes (u64_to_string g).
Proof.
  unfold gen_marker. rewrite !as_bytes_app. simpl. apply removelast_last.
Qed.

#[export] Instance toy_json_laws : SerdeLaws.
Proof.
  split.
  - intros m [_ Hm]. simpl. unfold parse.
    pose proof (bits_no_brace (encode (members m))) as Hb.
    destruct (bits (encode (members m))) as [|c l] eqn:E.
    + rewrite <-E, of_bits_bits, decode_encode. cbn. by rewrite members_flat.
    + destruct (decide (c = "{"%char)) as [->|Hc]; [by destruct (Hb l)|].
      assert (∀ A (x y : A), match c with "{"%char => x | _ => y end = y) as Hmatch.
      { intros A x y. repeat case_match; simplify_eq; done. }
      rewrite Hmatch, <-E, of_bits_bits, decode_encode. cbn. by rewrite members_flat.
  - intros g Hg. change (from_slice (gen_marker g)) with (parse ("{"%char :: tail (gen_marker g))).
    cbn [parse]. rewrite drop_marker, of_as_bytes, parse_u64_to_string by done. done.
  - intros m _. apply bits_utf8.
Qed.
End ToyLog.

(** ** Properties *)

(** The JSON encoding of a mutation is lossless: what the log reads back is
    the mutation that was written (descriptors are UTF-8 text). *)
Theorem op_roundtrip `{SerdeJson, !SerdeLaws} op :
  op_wf op → deserialize_op (serialize_op op) = Some op.
Proof. apply deserialize_serialize. Qed.

(** C19: a log cut anywhere (a crash in the middle of a write) opens to a
    prefix of the mutations that were appended, and that prefix has every
    record that was written in full; nothing partial is ever applied. *)
Theorem wal_torn_tail `{!Crypto, !CryptoLaws, !Hmac, !HmacLaws, !SerdeJson, !SerdeLaws} key ops n th :
  Forall op_ok ops →
  ∃ k, k ≤ length ops ∧
    ram (open_inner (Some (take n (header_record key ++ encode_ops key ops))) th key) =
      foldl apply_in_ram ∅ (take k ops) ∧
    ∀ j, 0 < j → j ≤ length ops →
      length (header_record key ++ encode_ops key (take j ops)) ≤ n → j ≤ k.
Proof. apply open_torn. Qed.


(** With a key, only authenticated records are replayed: a record whose tag
    is not the key's over its payload ends the replay, and a log whose header
    is not authenticated is never used. *)
Theorem wal_authenticated `{!Crypto, !Hmac, !HmacLaws, !SerdeJson} k l :
  (∀ p rest, next_record (Some k) l = Some (p, rest) →
     take 32 (drop (8 + length p) l) = hmac_tag k p) ∧
  (∀ th, check_log_framing l HmacSha256 (Some k) ≠ Compatible →
     ram (open_inner (Some l) th (Some k)) = ∅ ∧ (l ≠ [] → log_file (open_inner (Some l) th (Some k)) = None)).
Proof.
  split.
  - intros p rest Hn. by destruct (next_record_authentic (Some k) k l p rest eq_refl Hn) as (_&_&?).
  - intros th Hc. unfold open_inner. destruct l as [|b l]; [done|]. cbn [framing_mode].
    destruct (check_log_framing (b :: l) HmacSha256 (Some k)); done.
Qed.


Section LogWitnesses.
#[local] Existing Instances Toy.toy_crypto Toy.toy_laws ToyLog.toy_hmac ToyLog.toy_hmac_laws
  ToyLog.toy_json ToyLog.toy_json_laws.

Definition op1 : MetaOp := PutManifest "a" "d1" "mt" (Some "v1") ["b1"] (Some ("s", as_bytes "{}")).
Definition op2 : MetaOp := PutChecksum "a" "b1" 7 9.
Definition op3 : MetaOp := PutManifest "a" "d2" "mt" (Some "v2") [] None.

(** A torn tail is not cut off when the log is opened, so a record that is
    appended after it, although written in full, synced and acknowledged, is
    not found by the next replay. *)
Theorem torn_tail_hides_later_records :
  ∃ torn, let ls := open_inner (Some torn) 0 None in
  let '(ls', r) := apply ls op3 WOk (Ok tt) in
  r = Ok tt ∧ resolve_tag (ram ls') "a" "v2" = Some ("d2", "mt") ∧
  durable ls' = length (default [] (log_file ls')) ∧
  resolve_tag (ram (open_inner (log_file ls') 0 None)) "a" "v2" = None.
Proof.
  exists (header_record None ++ take 20 (encode_record op1 None)).
  vm_compute. done.
Qed.

Lemma op_wf_examples : op_ok op1 ∧ op_ok op2 ∧ op_ok op3.
Proof.
  split_and!; (split; [|by vm_compute]); simpl.
  - split_and!; try by vm_compute.
    + intros t [= <-]. by vm_compute.
    + repeat constructor.
    + intros s d [= <- <-]. by vm_compute.
  - unfold is_u64, u64_max. split_and!; (by vm_compute) || lia.
  - split_and!; try by vm_compute.
    intros t [= <-]. by vm_compute.
Qed.

Lemma op_roundtrip_witness : deserialize_op (serialize_op op1) = Some op1.
Proof. apply op_roundtrip. apply op_wf_examples. Defined.

Lemma wal_torn_tail_witness :
  ∃ k, ram (open_inner (Some (take 100 (header_record None ++ encode_ops None [op2; op3]))) 0 None) =
       foldl apply_in_ram ∅ (take k [op2; op3]).
Proof.
  destruct (wal_torn_tail None [op2; op3] 100 0) as (k&_&Hk&_);
    [repeat (apply Forall_cons_2; [apply op_wf_examples|]); apply Forall_nil_2|].
  by exists k.
Defined.

Lemma op3_compactable th : compactable (append_record (open_inner None th None) op3 WOk).1.
Proof.
  set (ls := (append_record _ _ _).1). split_and!.
  - apply (replay_ok [op3]). intros r rs Hr. by apply (lookup_empty_Some (M := gmap string) r rs) in Hr.
  - intros r t d m. unfold ls. cbn [append_record fst ram]. rewrite resolve_tag_repo, media_type_repo, repo_of_apply.
    change (ram (open_inner None th None)) with (∅ : State). rewrite repo_of_empty.
    case_decide; cbn [apply_repo op3 rs_add_backrefs rs_put_manifest foldl tags media_types rs_default].
    + intros [[_ [= <- <-]]|[_ Ht]]%lookup_insert_Some; [by rewrite lookup_insert_eq|].
      by apply (lookup_empty_Some (M := gmap string)) in Ht.
    + intros Ht. by apply (lookup_empty_Some (M := gmap string)) in Ht.
  - assert (export_state (ram ls) = [op3]) as -> by (by vm_compute).
    apply Forall_cons_2; [apply op_wf_examples|apply Forall_nil_2].
  - vm_compute. done.
  - by vm_compute.
Qed.

(** A mutation, a compaction, a second mutation, and a third one that is appended
    between the sync and the store of the commit of the second. *)
Definition run_steps : list wal_step :=
  [WAppend op3; WRename; WInstall; WAppend op2; WLoad 2; WSync (Ok tt); WAppend op1; WStore].


Lemma wal_authenticated_witness :
  ram (open_inner (Some (header_record None)) 0 (Some (as_bytes "k"))) = ∅.
Proof. apply (wal_authenticated (as_bytes "k")). by vm_compute. Defined.

End LogWitnesses.
