(* ===== verification/MetaStore.v ===== *)
(** The interface between the storage backend and its metadata engine (the
    trait [MetadataStore] of roci-storage/src/metadata/mod.rs): the queries are
    functions of a [State], and a mutation is recorded or refused as a whole.
    The append-only log engine implements it. *)

From S2P Require Import Prelude RustStr Json Errors Digest Metadata MetaLog.

Class MetadataStore := {
  mstore : Type;
  (** What the queries answer from. *)
  mview : mstore → State;
  (** Durable and relaxed application. *)
  mapply : mstore → MetaOp → mstore * result io_error ();
  mapply_relaxed : mstore → MetaOp → mstore * result io_error ();
}.

Class MetadataStoreLaws `{SerdeJson, MetadataStore} : Prop := {
  mapply_view m op :
    mview (mapply m op).1 = mview m ∨ mview (mapply m op).1 = apply_in_ram (mview m) op;
  mapply_ok m op : (mapply m op).2 = Ok tt → mview (mapply m op).1 = apply_in_ram (mview m) op;
  mapply_relaxed_view m op :
    mview (mapply_relaxed m op).1 = mview m ∨ mview (mapply_relaxed m op).1 = apply_in_ram (mview m) op;
  mapply_relaxed_ok m op :
    (mapply_relaxed m op).2 = Ok tt → mview (mapply_relaxed m op).1 = apply_in_ram (mview m) op;
}.

(** The log engine with the outcomes of its coming writes and syncs; when they
    run out everything succeeds. *)
Section LogEngine.
Context `{Crypto, Hmac, SerdeJson}.

Definition outcome : Type := write_outcome * result io_error ().

Definition next_outcome (l : list outcome) : outcome * list outcome :=
  match l with [] => ((WOk, Ok tt), []) | o :: l => (o, l) end.

Definition log_apply (st : LogStore * list outcome) (op : MetaOp) : (LogStore * list outcome) * result io_error () :=
  let '((w, fsync), rest) := next_outcome st.2 in
  let '(ls, r) := apply st.1 op w fsync in
  ((ls, rest), r).

Definition log_apply_relaxed (st : LogStore * list outcome) (op : MetaOp)
    : (LogStore * list outcome) * result io_error () :=
  let '((w, _), rest) := next_outcome st.2 in
  let '(ls, r) := apply_relaxed st.1 op w in
  ((ls, rest), r).

#[export] Instance log_metadata_store : MetadataStore := {|
  mstore := LogStore * list outcome;
  mview st := ram st.1;
  mapply := log_apply;
  mapply_relaxed := log_apply_relaxed;
|}.

#[export] Instance log_metadata_store_laws : MetadataStoreLaws.
Proof.
  split; intros [ls l] op; simpl; unfold log_apply, log_apply_relaxed, apply, apply_relaxed, append_record, group_commit;
    destruct (next_outcome _) as [[[|n e] [[]|e']] rest]; simpl; repeat case_match; simplify_eq/=; auto; done.
Qed.
End LogEngine.

(** A store that never fails: the in-memory state itself. *)
Module ToyStore.
Section ToyStore.
Context `{SerdeJson}.

#[export] Instance state_store : MetadataStore := {|
  mstore := State;
  mview s := s;
  mapply s op := (apply_in_ram s op, Ok tt);
  mapply_relaxed s op := (apply_in_ram s op, Ok tt);
|}.

#[export] Instance state_store_laws : MetadataStoreLaws.
Proof. split; auto. Qed.
End ToyStore.
End ToyStore.
