(* ===== verification/Lmdb.v ===== *)
(** The LMDB metadata engine (roci-storage/src/metadata/lmdb.rs): composite
    keys, the ten tables, the mutations in one transaction, and the queries as
    range scans. LMDB itself (the crate heed) is the class [Heed]: ordered
    tables of byte strings, two of them with several sorted values per key. *)

From S2P Require Import Prelude RustStr Json Errors Digest Metadata MetaLog.

(** ** Byte order *)

Definition str_lt (a b : string) : Prop := String.le a b ∧ a ≠ b.

Class Heed := {
  db : Type;
  db_new : db;
  db_get : string → db → option bytes;
  db_put : string → bytes → db → db;
  db_delete : string → db → db;
  (** The pairs with [start <= key < end], in key order. *)
  db_range : string → string → db → list (string * bytes);
  db_iter : db → list (string * bytes);
  dupdb : Type;
  dup_new : dupdb;
  dup_put : string → string → dupdb → dupdb;
  dup_delete_one : string → string → dupdb → dupdb;
  dup_delete : string → dupdb → dupdb;
  dup_values : string → dupdb → list string;
  dup_iter : dupdb → list (string * string);
}.

Class HeedLaws `{Heed} : Prop := {
  db_get_new k : db_get k db_new = None;
  db_get_put k v d k' : db_get k' (db_put k v d) = if decide (k' = k) then Some v else db_get k' d;
  db_get_delete k d k' : db_get k' (db_delete k d) = if decide (k' = k) then None else db_get k' d;
  db_range_elem a b d k v : (k, v) ∈ db_range a b d ↔ db_get k d = Some v ∧ String.le a k ∧ str_lt k b;
  db_range_sorted a b d : StronglySorted (λ x y, str_lt x.1 y.1) (db_range a b d);
  db_iter_elem d k v : (k, v) ∈ db_iter d ↔ db_get k d = Some v;
  dup_values_new k : dup_values k dup_new = [];
  dup_values_put k v d k' v' : v' ∈ dup_values k' (dup_put k v d) ↔ (k' = k ∧ v' = v) ∨ v' ∈ dup_values k' d;
  dup_values_delete_one k v d k' v' :
    v' ∈ dup_values k' (dup_delete_one k v d) ↔ v' ∈ dup_values k' d ∧ ¬ (k' = k ∧ v' = v);
  dup_values_delete k d k' v' : v' ∈ dup_values k' (dup_delete k d) ↔ v' ∈ dup_values k' d ∧ k' ≠ k;
  dup_values_NoDup k d : NoDup (dup_values k d);
  dup_iter_elem d k v : (k, v) ∈ dup_iter d ↔ v ∈ dup_values k d;
}.

(** ** Composite keys *)

Definition NUL : ascii := "000".

(** Each part is followed by a zero byte. *)
Fixpoint make_key (parts : list string) : string :=
  match parts with
  | [] => ""
  | p :: ps => p +:+ String NUL (make_key ps)
  end.

Definition make_prefix (parts : list string) : string := make_key parts.

(** On the reversed bytes: increment the last one that is not 255. *)
Fixpoint bump (l : bytes) : option bytes :=
  match l with
  | [] => None
  | b :: l => if (u8 b <? 255)%Z then Some (ascii_of_N (Z.to_N (u8 b + 1)) :: l) else bump l
  end.
Definition prefix_successor (prefix : string) : option string :=
  (λ l, of_bytes (reverse l)) <$> bump (reverse (as_bytes prefix)).

Fixpoint split_loop (part : string) (key : string) : list string :=
  match key with
  | "" => []
  | String b key => if decide (b = NUL) then part :: split_loop "" key else split_loop (part +:+ String b "") key
  end.
Definition split_key (key : string) : list string := split_loop "" key.

Definition encode_checksum (crc size : Z) : bytes := to_le_bytes 4 crc ++ to_le_bytes 8 size.
Definition decode_checksum (b : bytes) : BlobChecksum :=
  {| ck_crc32c := from_le_bytes (take 4 b); ck_size := from_le_bytes (take 8 (drop 4 b)) |}.

(** [v.iter().position(|&b| b == 0)], and the two sides of it. *)
Fixpoint split_nul (v : bytes) : option (bytes * bytes) :=
  match v with
  | [] => None
  | b :: v => if decide (b = NUL) then Some ([], v) else '(l, r) ← split_nul v; Some (b :: l, r)
  end.

(** [std::str::from_utf8(v).ok()] *)
Definition utf8_str (v : bytes) : option string := if utf8_valid v then Some (of_bytes v) else None.

Section Lmdb.
Context `{!Heed, !SerdeJson}.

Record Dbs := mkDbs {
  I_TAGS : db;
  I_TAGS_BY_DIGEST : db;
  I_MEDIA_TYPES : db;
  I_REFERRERS : db;
  I_REFERRER_TYPES : db;
  I_REFERRERS_BY_TYPE : db;
  I_REFERRERS_REVERSE : db;
  I_BACKREFS : dupdb;
  I_BACKREFS_REVERSE : dupdb;
  I_CHECKSUMS : db;
}.

Definition open_env : Dbs :=
  mkDbs db_new db_new db_new db_new db_new db_new db_new dup_new dup_new db_new.

Definition on_tags (f : db → db) (x : Dbs) : Dbs :=
  mkDbs (f (I_TAGS x)) (I_TAGS_BY_DIGEST x) (I_MEDIA_TYPES x) (I_REFERRERS x) (I_REFERRER_TYPES x)
    (I_REFERRERS_BY_TYPE x) (I_REFERRERS_REVERSE x) (I_BACKREFS x) (I_BACKREFS_REVERSE x) (I_CHECKSUMS x).
Definition on_tags_by_digest (f : db → db) (x : Dbs) : Dbs :=
  mkDbs (I_TAGS x) (f (I_TAGS_BY_DIGEST x)) (I_MEDIA_TYPES x) (I_REFERRERS x) (I_REFERRER_TYPES x)
    (I_REFERRERS_BY_TYPE x) (I_REFERRERS_REVERSE x) (I_BACKREFS x) (I_BACKREFS_REVERSE x) (I_CHECKSUMS x).
Definition on_media_types (f : db → db) (x : Dbs) : Dbs :=
  mkDbs (I_TAGS x) (I_TAGS_BY_DIGEST x) (f (I_MEDIA_TYPES x)) (I_REFERRERS x) (I_REFERRER_TYPES x)
    (I_REFERRERS_BY_TYPE x) (I_REFERRERS_REVERSE x) (I_BACKREFS x) (I_BACKREFS_REVERSE x) (I_CHECKSUMS x).
Definition on_referrers (f g h k : db → db) (x : Dbs) : Dbs :=
  mkDbs (I_TAGS x) (I_TAGS_BY_DIGEST x) (I_MEDIA_TYPES x) (f (I_REFERRERS x)) (g (I_REFERRER_TYPES x))
    (h (I_REFERRERS_BY_TYPE x)) (k (I_REFERRERS_REVERSE x)) (I_BACKREFS x) (I_BACKREFS_REVERSE x) (I_CHECKSUMS x).
Definition on_backrefs (f g : dupdb → dupdb) (x : Dbs) : Dbs :=
  mkDbs (I_TAGS x) (I_TAGS_BY_DIGEST x) (I_MEDIA_TYPES x) (I_REFERRERS x) (I_REFERRER_TYPES x)
    (I_REFERRERS_BY_TYPE x) (I_REFERRERS_REVERSE x) (f (I_BACKREFS x)) (g (I_BACKREFS_REVERSE x)) (I_CHECKSUMS x).
Definition on_checksums (f : db → db) (x : Dbs) : Dbs :=
  mkDbs (I_TAGS x) (I_TAGS_BY_DIGEST x) (I_MEDIA_TYPES x) (I_REFERRERS x) (I_REFERRER_TYPES x)
    (I_REFERRERS_BY_TYPE x) (I_REFERRERS_REVERSE x) (I_BACKREFS x) (I_BACKREFS_REVERSE x) (f (I_CHECKSUMS x)).

Definition keys_with_prefix (d : db) (prefix : string) : list string :=
  match prefix_successor prefix with
  | None => []
  | Some e => (db_range prefix e d).*1
  end.

Definition has_any_with_prefix (d : db) (prefix : string) : bool :=
  match prefix_successor prefix with
  | None => false
  | Some e => negb (bool_decide (db_range prefix e d = []))
  end.

(** ** Mutations *)

Definition add_backref_in_txn (repo manifest : string) (x : Dbs) (blob : string) : Dbs :=
  on_backrefs (dup_put (make_key [repo; blob]) manifest) (dup_put (make_key [repo; manifest]) blob) x.

Definition add_backrefs_in_txn (x : Dbs) (repo manifest : string) (blobs : list string) : Dbs :=
  foldl (add_backref_in_txn repo manifest) x blobs.

Definition remove_referrer_in_txn (x : Dbs) (repo subject referrer : string) : Dbs :=
  let rt_key := make_key [repo; subject; referrer] in
  let had_type := db_get rt_key (I_REFERRER_TYPES x) in
  on_referrers (db_delete rt_key) (db_delete rt_key)
    (match had_type with
     | Some a => db_delete (make_key [repo; subject; of_bytes a; referrer])
     | None => id
     end)
    (db_delete (make_key [repo; referrer; subject])) x.

Definition add_referrer_in_txn (x : Dbs) (repo subject referrer : string) (descriptor : bytes) : Dbs :=
  let x := remove_referrer_in_txn x repo subject referrer in
  let t := artifact_type descriptor in
  on_referrers (db_put (make_key [repo; subject; referrer]) descriptor)
    (match t with Some a => db_put (make_key [repo; subject; referrer]) (as_bytes a) | None => id end)
    (match t with Some a => db_put (make_key [repo; subject; a; referrer]) [] | None => id end)
    (db_put (make_key [repo; referrer; subject]) []) x.

Definition put_tag_in_txn (x : Dbs) (repo digest media_type tag : string) : Dbs :=
  let tag_key := make_key [repo; tag] in
  let x := match db_get tag_key (I_TAGS x) ≫= split_nul with
           | Some (old_digest, _) => on_tags_by_digest (db_delete (make_key [repo; of_bytes old_digest; tag])) x
           | None => x
           end in
  on_tags_by_digest (db_put (make_key [repo; digest; tag]) [])
    (on_tags (db_put tag_key (as_bytes digest ++ NUL :: as_bytes media_type)) x).

(** One entry of [tags_by_digest] of a deleted manifest. *)
Definition drop_tag_in_txn (repo : string) (x : Dbs) (rev_key : string) : Dbs :=
  let x := match split_key rev_key with
           | _ :: _ :: tag :: _ => on_tags (db_delete (make_key [repo; tag])) x
           | _ => x
           end in
  on_tags_by_digest (db_delete rev_key) x.

Definition drop_referrer_in_txn (repo digest : string) (x : Dbs) (rev_key : string) : Dbs :=
  match split_key rev_key with
  | _ :: _ :: subject :: _ =>
      remove_referrer_in_txn x repo (default "" (utf8_str (as_bytes subject))) digest
  | _ => x
  end.

Definition drop_backrefs_in_txn (x : Dbs) (repo digest : string) : Dbs :=
  let dup_key := make_key [repo; digest] in
  let blobs := dup_values dup_key (I_BACKREFS_REVERSE x) in
  on_backrefs (λ d, foldl (λ d blob, dup_delete_one (make_key [repo; blob]) digest d) d blobs) (dup_delete dup_key) x.

Definition apply_op (x : Dbs) (op : MetaOp) : Dbs :=
  match op with
  | PutManifest repo digest media_type tag references referrer =>
      let x := on_media_types (db_put (make_key [repo; digest]) (as_bytes media_type)) x in
      let x := match tag with Some tag => put_tag_in_txn x repo digest media_type tag | None => x end in
      let x := add_backrefs_in_txn x repo digest references in
      match referrer with
      | Some (subject, descriptor) => add_referrer_in_txn x repo subject digest descriptor
      | None => x
      end
  | DeleteManifest repo digest =>
      let key := make_key [repo; digest] in
      let x := on_media_types (db_delete key) (on_checksums (db_delete key) x) in
      let prefix := make_prefix [repo; digest] in
      let x := foldl (drop_tag_in_txn repo) x (keys_with_prefix (I_TAGS_BY_DIGEST x) prefix) in
      let x := foldl (drop_referrer_in_txn repo digest) x (keys_with_prefix (I_REFERRERS_REVERSE x) prefix) in
      drop_backrefs_in_txn x repo digest
  | PutBackrefs repo manifest blobs => add_backrefs_in_txn x repo manifest blobs
  | PutReferrer repo subject referrer descriptor => add_referrer_in_txn x repo subject referrer descriptor
  | PutChecksum repo digest crc size =>
      on_checksums (db_put (make_key [repo; digest]) (encode_checksum crc size)) x
  | DeleteBlob repo digest => on_checksums (db_delete (make_key [repo; digest])) x
  end.

(** [apply_inner]: the transaction may fail and is then dropped as a whole; the
    sync after a durable commit may fail. *)
Definition apply_inner (x : Dbs) (op : MetaOp) (durable : bool) (txn sync : result io_error ()) : Dbs * result io_error () :=
  match txn with
  | Err e => (x, Err e)
  | Ok _ => (apply_op x op, if durable then sync else Ok tt)
  end.

Definition bulk_apply (x : Dbs) (ops : list MetaOp) (txn : result io_error ()) : Dbs * result io_error () :=
  match txn with
  | Err e => (x, Err e)
  | Ok _ => (foldl apply_op x ops, Ok tt)
  end.

(** A sequence of calls of [apply] ([ev_durable]) and [apply_relaxed], each with
    the fate of its transaction and of its sync. *)
Record Event := { ev_op : MetaOp; ev_durable : bool; ev_txn : result io_error (); ev_sync : result io_error () }.

Definition lmdb_run (x : Dbs) (evs : list Event) : Dbs :=
  foldl (λ x e, (apply_inner x (ev_op e) (ev_durable e) (ev_txn e) (ev_sync e)).1) x evs.

(** ** Queries *)

Definition lmdb_resolve_tag (x : Dbs) (repo tag : string) : option (string * string) :=
  val ← db_get (make_key [repo; tag]) (I_TAGS x);
  '(d, m) ← split_nul val;
  digest ← utf8_str d;
  media_type ← utf8_str m;
  Some (digest, media_type).

Definition lmdb_manifest_media_type (x : Dbs) (repo digest : string) : option string :=
  db_get (make_key [repo; digest]) (I_MEDIA_TYPES x) ≫= utf8_str.

(** The loop over a range: [visit] is one turn, [None] where it breaks. *)
Fixpoint page_loop {A} (visit : string * bytes → option (list A)) (limit : nat) (acc : list A)
    (pairs : list (string * bytes)) : Page A :=
  match pairs with
  | [] => mkPage acc false
  | p :: pairs =>
      match visit p with
      | None => mkPage acc false
      | Some found =>
          if decide (length acc = limit) then mkPage acc true
          else page_loop visit limit (acc ++ found) pairs
      end
  end.

Definition page_start (prefix : list string) (last : option string) : string :=
  match last with
  | Some cursor => make_key (prefix ++ [cursor]) +:+ String NUL ""
  | None => make_prefix prefix
  end.

Definition tag_visit (repo : string) (p : string * bytes) : option (list string) :=
  match split_key p.1 with
  | r :: rest =>
      if decide (r = repo) then
        Some (match rest with tag :: _ => [of_bytes (from_utf8_lossy (as_bytes tag))] | [] => [] end)
      else None
  | [] => None
  end.

Definition lmdb_tags_page (x : Dbs) (repo : string) (last : option string) (limit : nat) : option (Page string) :=
  let repo_prefix := make_prefix [repo] in
  if negb (has_any_with_prefix (I_TAGS x) repo_prefix) then None else
  e ← prefix_successor repo_prefix;
  Some (page_loop (tag_visit repo) limit [] (db_range (page_start [repo] last) e (I_TAGS x))).

Definition referrer_visit (repo subject : string) (p : string * bytes) : option (list (string * bytes)) :=
  match split_key p.1 with
  | r :: s :: referrer :: _ =>
      if decide (r = repo ∧ s = subject) then Some [(of_bytes (from_utf8_lossy (as_bytes referrer)), p.2)] else None
  | _ => None
  end.

Definition typed_visit (x : Dbs) (repo subject atype : string) (p : string * bytes) : option (list (string * bytes)) :=
  match split_key p.1 with
  | r :: s :: t :: referrer :: _ =>
      if decide (r = repo ∧ s = subject ∧ t = atype) then
        let referrer := default "" (utf8_str (as_bytes referrer)) in
        Some (match db_get (make_key [repo; subject; referrer]) (I_REFERRERS x) with
              | Some desc => [(referrer, desc)]
              | None => []
              end)
      else None
  | _ => None
  end.

Definition lmdb_referrers_page (x : Dbs) (repo subject : string) (atype last : option string) (limit : nat)
    : option (Page (string * bytes)) :=
  let subj_prefix := make_prefix [repo; subject] in
  match atype with
  | None =>
      if negb (has_any_with_prefix (I_REFERRERS x) subj_prefix) then None else
      e ← prefix_successor subj_prefix;
      Some (page_loop (referrer_visit repo subject) limit []
              (db_range (page_start [repo; subject] last) e (I_REFERRERS x)))
  | Some t =>
      let type_prefix := make_prefix [repo; subject; t] in
      if negb (has_any_with_prefix (I_REFERRERS_BY_TYPE x) type_prefix) then
        if negb (has_any_with_prefix (I_REFERRERS x) subj_prefix) then None else Some (mkPage [] false)
      else
        e ← prefix_successor type_prefix;
        Some (page_loop (typed_visit x repo subject t) limit []
                (db_range (page_start [repo; subject; t] last) e (I_REFERRERS_BY_TYPE x)))
  end.

Definition lmdb_has_referrer (x : Dbs) (repo subject referrer : string) : bool :=
  bool_decide (is_Some (db_get (make_key [repo; subject; referrer]) (I_REFERRERS x))).

Definition lmdb_backrefs (x : Dbs) (repo blob : string) : list string :=
  omap (λ v, utf8_str (as_bytes v)) (dup_values (make_key [repo; blob]) (I_BACKREFS x)).

Definition lmdb_checksum (x : Dbs) (repo digest : string) : option BlobChecksum :=
  decode_checksum <$> db_get (make_key [repo; digest]) (I_CHECKSUMS x).

Definition lmdb_manifests (x : Dbs) (repo : string) : list string :=
  match prefix_successor (make_prefix [repo]) with
  | None => []
  | Some e => omap (λ p, match split_key p.1 with _ :: d :: _ => utf8_str (as_bytes d) | _ => None end)
                (db_range (make_prefix [repo]) e (I_MEDIA_TYPES x))
  end.

Definition lmdb_tags_snapshot (x : Dbs) (repo : string) : list (string * string * string) :=
  match prefix_successor (make_prefix [repo]) with
  | None => []
  | Some e => omap (λ p,
      match split_key p.1 with
      | r :: t :: _ =>
          if decide (r = repo) then
            tag ← utf8_str (as_bytes t);
            '(d, m) ← split_nul p.2;
            digest ← utf8_str d;
            media_type ← utf8_str m;
            Some (tag, digest, media_type)
          else None
      | _ => None
      end) (db_range (make_prefix [repo]) e (I_TAGS x))
  end.

(** [result.entry(subject).or_default().push(…)], until a key that is not of the
    repository. *)
Definition push_referrer (acc : gmap string (list (string * bytes))) (subject : string) (r : string * bytes)
    : gmap string (list (string * bytes)) :=
  <[subject := default [] (acc !! subject) ++ [r]]> acc.

Fixpoint snapshot_loop (repo : string) (acc : gmap string (list (string * bytes))) (pairs : list (string * bytes))
    : gmap string (list (string * bytes)) :=
  match pairs with
  | [] => acc
  | (k, v) :: pairs =>
      match split_key k with
      | r :: subject :: referrer :: _ =>
          if decide (r = repo) then
            snapshot_loop repo
              (push_referrer acc (of_bytes (from_utf8_lossy (as_bytes subject)))
                 (of_bytes (from_utf8_lossy (as_bytes referrer)), v)) pairs
          else acc
      | _ => acc
      end
  end.

Definition lmdb_referrers_snapshot (x : Dbs) (repo : string) : list (string * list (string * bytes)) :=
  match prefix_successor (make_prefix [repo]) with
  | None => []
  | Some e => btree (snapshot_loop repo ∅ (db_range (make_prefix [repo]) e (I_REFERRERS x)))
  end.

(** [maintain]: only a sync. There is no log: [generation] and [log_len] are 0. *)
Definition lmdb_maintain (x : Dbs) (sync : result io_error ()) : Dbs * result io_error () := (x, sync).
Definition lmdb_generation : Z := 0.
Definition lmdb_log_len : Z := 0.

(** [repos]: the first parts of the keys of two tables, each once. *)
Definition lmdb_repos (x : Dbs) : list string :=
  let firsts d := omap (λ p, match split_key p.1 with r :: _ => utf8_str (as_bytes r) | [] => None end) (db_iter d) in
  merge_sort String.le (remove_dups (firsts (I_MEDIA_TYPES x) ++ firsts (I_REFERRERS x))).

(** ** Export *)

Definition lossless (s : string) : string := default "" (utf8_str (as_bytes s)).

Definition export_tag (p : string * bytes) : option ((string * string) * MetaOp) :=
  match split_key p.1 with
  | repo :: tag :: _ =>
      '(d, m) ← split_nul p.2;
      let digest := default "" (utf8_str d) in
      Some ((lossless repo, digest),
            PutManifest (lossless repo) digest (default "" (utf8_str m)) (Some (lossless tag)) [] None)
  | _ => None
  end.

Definition export_media (tagged : list (string * string)) (p : string * bytes) : option MetaOp :=
  match split_key p.1 with
  | repo :: digest :: _ =>
      if decide ((lossless repo, lossless digest) ∈ tagged) then None
      else Some (PutManifest (lossless repo) (lossless digest) (default "" (utf8_str p.2)) None [] None)
  | _ => None
  end.

Definition export_impl (x : Dbs) : list MetaOp :=
  let tags := omap export_tag (db_iter (I_TAGS x)) in
  tags.*2 ++
  omap (export_media tags.*1) (db_iter (I_MEDIA_TYPES x)) ++
  omap (λ p, match split_key p.1 with
             | repo :: blob :: _ => Some (PutBackrefs (lossless repo) (lossless p.2) [lossless blob])
             | _ => None
             end) (dup_iter (I_BACKREFS x)) ++
  omap (λ p, match split_key p.1 with
             | repo :: subject :: referrer :: _ =>
                 Some (PutReferrer (lossless repo) (lossless subject) (lossless referrer) p.2)
             | _ => None
             end) (db_iter (I_REFERRERS x)) ++
  omap (λ p, match split_key p.1 with
             | repo :: digest :: _ =>
                 let ck := decode_checksum p.2 in
                 Some (PutChecksum (lossless repo) (lossless digest) (ck_crc32c ck) (ck_size ck))
             | _ => None
             end) (db_iter (I_CHECKSUMS x)).
End Lmdb.
