(* ===== verification/LmdbFacts.v ===== *)
(** The LMDB engine implements the in-memory index: after the same mutations
    every query gives the same answer. *)

From S2P Require Import Prelude RustStr Json Errors Digest Metadata MetaLog Lmdb.

(** ** Byte order of composite keys *)

Fixpoint nul_free (s : string) : bool :=
  match s with
  | "" => true
  | String a s => negb (bool_decide (a = NUL)) && nul_free s
  end.

Lemma le_nil s : String.le "" s.
Proof. by destruct s. Qed.

Lemma le_cons_nil a s : ¬ String.le (String a s) "".
Proof. intros H. by vm_compute in H. Qed.

Lemma le_cons a s b t :
  String.le (String a s) (String b t) ↔ (N_of_ascii a < N_of_ascii b)%N ∨ (a = b ∧ String.le s t).
Proof.
  unfold String.le, String.leb. cbn [String.compare]. unfold Ascii.compare.
  destruct (N.compare_spec (N_of_ascii a) (N_of_ascii b)) as [E|E|E].
  - assert (a = b) as -> by by rewrite <-(ascii_N_embedding a), E, ascii_N_embedding. split; [by auto|]. intros [?|[_ ?]]; [lia|done].
  - split; [by auto|done].
  - split; [done|]. intros [?|[-> _]]; lia.
Qed.

Lemma le_app p s t : String.le (p +:+ s) (p +:+ t) ↔ String.le s t.
Proof.
  induction p as [|a p IH]; [done|]. change (String a p +:+ ?x) with (String a (p +:+ x)).
  rewrite le_cons, IH. split; [intros [?|[_ ?]]; [lia|done]|by auto].
Qed.

Lemma str_app_inj (p s t : string) : p +:+ s = p +:+ t → s = t.
Proof. induction p as [|a p IH]; [done|]. intros [=]. auto. Qed.

Lemma lt_app p s t : str_lt (p +:+ s) (p +:+ t) ↔ str_lt s t.
Proof.
  unfold str_lt. rewrite le_app. split; intros [? Hne]; (split; [done|]); [by intros ->|]. by intros ?%str_app_inj.
Qed.

Lemma not_le_lt s t : ¬ String.le s t → str_lt t s.
Proof.
  intros Hn. destruct (total String.le s t) as [?|Ht]; [done|]. split; [done|]. intros ->. by apply Hn.
Qed.

(** What lies between a prefix that ends in a zero byte and its successor. *)
Lemma between_prefix q k :
  String.le (q +:+ String NUL "") k ∧ str_lt k (q +:+ String "001" "") ↔ ∃ r, k = q +:+ String NUL r.
Proof.
  revert k. induction q as [|a q IH]; intros k.
  - change (?x +:+ ?y) with y. split.
    + intros [H1 [H2 Hne]]. destruct k as [|c k]; [by apply le_cons_nil in H1|].
      apply le_cons in H2 as [H2|[-> H2]].
      * exists k. change (N_of_ascii "001") with 1%N in H2. f_equal.
        rewrite <-(ascii_N_embedding c). by replace (N_of_ascii c) with 0%N by lia.
      * destruct k; [done|]. by apply le_cons_nil in H2.
    + intros [r ->]. change ("" +:+ ?y) with y. split; [apply le_cons; right; split; [done|apply le_nil]|].
      split; [apply le_cons; left; by vm_compute|done].
  - change (String a q +:+ ?x) with (String a (q +:+ x)). split.
    + intros [H1 [H2 Hne]]. destruct k as [|c k]; [by apply le_cons_nil in H1|].
      apply le_cons in H1. apply le_cons in H2.
      assert (c = a) as -> by (destruct H1 as [?|[-> _]], H2 as [?|[? _]]; (lia || done)).
      destruct (proj1 (IH k)) as [r ->]; [|by exists r].
      destruct H1 as [?|[_ H1]]; [lia|]. destruct H2 as [?|[_ H2]]; [lia|]. split; [done|]. split; [done|]. by intros ->.
    + intros [r ->]. change (String a q +:+ ?x) with (String a (q +:+ x)).
      destruct (proj2 (IH (q +:+ String NUL r))) as [H1 [H2 Hne]]; [by eexists|].
      split; [apply le_cons; by right|]. split; [apply le_cons; by right|]. by intros [=].
Qed.

(** Terminated parts compare as the parts do. *)
Lemma lt_terminated x y r r' : nul_free y = true → str_lt x y → str_lt (x +:+ String NUL r) (y +:+ String NUL r').
Proof.
  revert y. induction x as [|a x IH]; intros [|b y] Hy [Hle Hne]; simpl in Hy.
  - done.
  - change ("" +:+ ?z) with z. apply andb_prop in Hy as [Hb _]. apply negb_true_iff, bool_decide_eq_false in Hb.
    change (String b y +:+ ?z) with (String b (y +:+ z)). split; [|intros [=]; done]. apply le_cons. left.
    change (N_of_ascii NUL) with 0%N. destruct (N.eq_0_gt_0_cases (N_of_ascii b)) as [E|]; [|done].
    destruct Hb. by rewrite <-(ascii_N_embedding b), E.
  - by apply le_cons_nil in Hle.
  - change (String a x +:+ ?z) with (String a (x +:+ z)). change (String b y +:+ ?z) with (String b (y +:+ z)).
    apply andb_prop in Hy as [_ Hy]. apply le_cons in Hle as [Hlt|[-> Hle]].
    + split; [apply le_cons; by left|]. intros [= -> _]. lia.
    + destruct (IH y Hy) as [H1 H2]; [split; [done|]; by intros ->|].
      split; [apply le_cons; by right|]. by intros [=].
Qed.

(** A cursor with two zero bytes after it comes before exactly the larger
    parts, whatever bytes the cursor holds. *)
Lemma nonempty_app cu r : cu +:+ String NUL r ≠ "".
Proof. by destruct cu. Qed.

Lemma not_nul_pos b : b ≠ NUL → (N_of_ascii NUL < N_of_ascii b)%N.
Proof.
  intros Hb. change (N_of_ascii NUL) with 0%N. destruct (N.eq_0_gt_0_cases (N_of_ascii b)) as [E|]; [|done].
  destruct Hb. by rewrite <-(ascii_N_embedding b), E.
Qed.

Lemma cursor_le cursor t :
  nul_free t = true → String.le (cursor +:+ String NUL (String NUL "")) (t +:+ String NUL "") ↔ str_lt cursor t.
Proof.
  revert t. induction cursor as [|a cu IH]; intros [|b t] Ht; simpl in Ht.
  - change ("" +:+ ?z) with z. rewrite le_cons. split; [|by intros [_ ?]].
    intros [?|[_ ?%le_cons_nil]]; [lia|done].
  - change ("" +:+ ?z) with z. change (String b t +:+ ?z) with (String b (t +:+ z)).
    split; [intros _; split; [apply le_nil|done]|]. intros _.
    apply andb_prop in Ht as [Hb _]. apply negb_true_iff, bool_decide_eq_false in Hb. apply le_cons. left. by apply not_nul_pos.
  - change (String a cu +:+ ?z) with (String a (cu +:+ z)). change ("" +:+ ?z) with z. rewrite le_cons. split.
    + intros [Hl|[-> Hl]]; [change (N_of_ascii NUL) with 0%N in Hl; lia|]. exfalso.
      destruct (cu +:+ String NUL (String NUL "")) eqn:E; [by apply nonempty_app in E|by apply le_cons_nil in Hl].
    + intros [?%le_cons_nil _]. done.
  - change (String a cu +:+ ?z) with (String a (cu +:+ z)). change (String b t +:+ ?z) with (String b (t +:+ z)).
    apply andb_prop in Ht as [_ Ht]. rewrite le_cons, IH by done. unfold str_lt at 2. rewrite le_cons. unfold str_lt. split.
    + intros [Hl|[-> [Hl Hne]]]; (split; [by auto|]); [intros [= -> _]; lia|by intros [=]].
    + intros [[Hl|[-> Hl]] Hne]; [by left|]. right. split; [done|]. split; [done|]. by intros ->.
Qed.

(** ** Composite keys *)

Definition clean (s : string) : Prop := nul_free s = true ∧ utf8 s.

Lemma split_loop_part part p rest :
  nul_free p = true → split_loop part (p +:+ String NUL rest) = (part +:+ p) :: split_loop "" rest.
Proof.
  revert part. induction p as [|a p IH]; intros part Hp.
  - change ("" +:+ ?z) with z. cbn [split_loop]. rewrite decide_True by done. f_equal. by rewrite string_app_nil_r.
  - simpl in Hp. apply andb_prop in Hp as [Ha Hp]. apply negb_true_iff, bool_decide_eq_false in Ha.
    change (String a p +:+ ?z) with (String a (p +:+ z)). cbn [split_loop]. rewrite decide_False, IH by done.
    by rewrite string_app_assoc.
Qed.

Lemma make_key_app ps qs : make_key (ps ++ qs) = make_key ps +:+ make_key qs.
Proof.
  induction ps as [|p ps IH]; [done|]. cbn [make_key app]. rewrite IH, string_app_assoc. done.
Qed.

Lemma split_make_app ps r : Forall clean ps → split_key (make_key ps +:+ r) = ps ++ split_key r.
Proof.
  unfold split_key. induction 1 as [|p ps [Hp _] Hps IH]; [done|]. cbn [make_key app].
  rewrite string_app_assoc. change (String NUL ?a +:+ ?b) with (String NUL (a +:+ b)).
  rewrite split_loop_part by done. by rewrite IH.
Qed.

Lemma split_make ps : Forall clean ps → split_key (make_key ps) = ps.
Proof.
  intros Hps. rewrite <-(string_app_nil_r (make_key ps)), split_make_app by done. apply app_nil_r.
Qed.

Lemma make_key_inj ps qs : Forall clean ps → Forall clean qs → make_key ps = make_key qs → ps = qs.
Proof. intros Hp Hq E. by rewrite <-(split_make ps Hp), <-(split_make qs Hq), E. Qed.

Lemma make_key_snoc ps x : make_key (ps ++ [x]) = make_key ps +:+ x +:+ String NUL "".
Proof. by rewrite make_key_app. Qed.

Lemma of_bytes_app l k : of_bytes (l ++ k) = of_bytes l +:+ of_bytes k.
Proof. apply as_bytes_inj. by rewrite as_bytes_app, !as_of_bytes. Qed.

Lemma prefix_successor_snoc q : prefix_successor (q +:+ String NUL "") = Some (q +:+ String "001" "").
Proof.
  unfold prefix_successor. rewrite as_bytes_app, reverse_app. simpl. rewrite reverse_cons, reverse_involutive.
  f_equal. rewrite of_bytes_app, of_as_bytes. done.
Qed.

(** The keys of a scan below a prefix. *)
Lemma scan_bounds pre last :
  pre ≠ [] → ∃ e, prefix_successor (make_key pre) = Some e ∧
  ∀ k, String.le (page_start pre last) k ∧ str_lt k e → ∃ r, k = make_key pre +:+ r.
Proof.
  intros Hpre. destruct (exists_last Hpre) as (ps & x & ->). rewrite make_key_snoc.
  rewrite <-string_app_assoc, prefix_successor_snoc. eexists. split; [done|]. intros k [Hk1 Hk2].
  destruct (proj1 (between_prefix (make_key ps +:+ x) k)) as [r ->].
  - split; [|exact Hk2]. etrans; [|exact Hk1]. unfold page_start, make_prefix. destruct last as [c|].
    + rewrite make_key_app, make_key_snoc, !string_app_assoc, !le_app. apply le_cons. right. split; [done|apply le_nil].
    + by rewrite make_key_snoc, string_app_assoc.
  - exists r. by rewrite !string_app_assoc.
Qed.

Lemma start_le pre last x : nul_free x = true →
  String.le (page_start pre last) (make_key (pre ++ [x])) ↔ after_key last x = true.
Proof.
  intros Hx. unfold page_start, make_prefix, after_key. rewrite make_key_snoc. destruct last as [c|].
  - rewrite make_key_snoc, !string_app_assoc, le_app. change (String NUL "" +:+ String NUL "") with (String NUL (String NUL "")).
    rewrite cursor_le by done. unfold str_lt. rewrite andb_true_iff, negb_true_iff, bool_decide_eq_true, bool_decide_eq_false. done.
  - split; [done|]. intros _. rewrite <-(string_app_nil_r (make_key pre)) at 1. rewrite le_app. apply le_nil.
Qed.

Lemma key_lt_successor pre x e : pre ≠ [] → prefix_successor (make_key pre) = Some e → str_lt (make_key (pre ++ [x])) e.
Proof.
  intros Hpre. destruct (exists_last Hpre) as (ps & y & ->). rewrite make_key_snoc, <-string_app_assoc, prefix_successor_snoc.
  intros [= <-]. apply between_prefix. exists (x +:+ String NUL ""). by rewrite !make_key_snoc, !string_app_assoc.
Qed.

Lemma key_order pre x y : nul_free x = true → str_lt (make_key (pre ++ [x])) (make_key (pre ++ [y])) → String.le x y ∧ x ≠ y.
Proof.
  intros Hx Hlt. destruct (decide (x = y)) as [->|Hne]; [by destruct Hlt as [_ []]|]. split; [|done].
  destruct (decide (String.le x y)) as [|Hn]; [done|]. exfalso. apply not_le_lt in Hn.
  apply (lt_terminated _ _ "" "" Hx) in Hn. rewrite !make_key_snoc, lt_app in Hlt.
  destruct Hlt as [H1 H2], Hn as [H3 H4]. apply H2. by apply (anti_symm String.le).
Qed.

Lemma utf8_str_clean s : utf8 s → utf8_str (as_bytes s) = Some s.
Proof. intros Hs. unfold utf8_str. by rewrite Hs, of_as_bytes. Qed.

Lemma lossy_clean s : utf8 s → of_bytes (from_utf8_lossy (as_bytes s)) = s.
Proof. intros Hs. by rewrite from_utf8_lossy_valid, of_as_bytes. Qed.

Lemma split_nul_clean d m : nul_free d = true → split_nul (as_bytes d ++ NUL :: m) = Some (as_bytes d, m).
Proof.
  induction d as [|a d IH]; intros Hd; [done|]. cbn [nul_free] in Hd.
  change (as_bytes (String a d)) with (a :: as_bytes d). cbn [app split_nul].
  apply andb_prop in Hd as [Ha Hd]. apply negb_true_iff, bool_decide_eq_false in Ha.
  by rewrite decide_False, IH.
Qed.

(** ** Tables *)

Section Tables.
Context `{!Heed, !HeedLaws}.
Implicit Types (d : db) (ps qs pre : list string) (f g : list string → option bytes).

(** A table holds the entries of [f], under keys of clean parts. *)
Record rep (d : db) (f : list string → option bytes) : Prop := {
  rep_clean : ∀ ps, is_Some (f ps) → Forall clean ps;
  rep_get : ∀ k v, db_get k d = Some v ↔ ∃ ps, k = make_key ps ∧ f ps = Some v;
}.

Lemma rep_proper d f g : (∀ ps, f ps = g ps) → rep d f → rep d g.
Proof. intros Hfg [Hc Hg]. split; intros *; setoid_rewrite <-Hfg; eauto. Qed.

Lemma rep_new f : (∀ ps, f ps = None) → rep db_new f.
Proof.
  intros Hf. split; [intros ps [? Hps]; by rewrite Hf in Hps|]. intros k v. rewrite db_get_new.
  split; [done|]. intros (ps & _ & Hps). by rewrite Hf in Hps.
Qed.

Lemma rep_lookup d f ps : rep d f → Forall clean ps → db_get (make_key ps) d = f ps.
Proof.
  intros [Hc Hg] Hps. apply option_eq. intros v. rewrite Hg. split; [|by eauto].
  intros (qs & E & Hqs). apply make_key_inj in E as ->; eauto.
Qed.

Definition upd (ps : list string) (v : option bytes) (f : list string → option bytes) qs : option bytes :=
  if decide (qs = ps) then v else f qs.

Lemma rep_upd d d' f ps v :
  rep d f → Forall clean ps → (∀ k, db_get k d' = if decide (k = make_key ps) then v else db_get k d) → rep d' (upd ps v f).
Proof.
  intros [Hc Hg] Hps Hd'. split.
  - intros qs. unfold upd. case_decide; [by subst|auto].
  - intros k w. rewrite Hd'. unfold upd. case_decide as Hk.
    + subst k. split; [intros ->; exists ps; by rewrite decide_True|]. intros (qs & E & Hqs).
      case_decide as Hne; [done|]. apply make_key_inj in E; [by subst|done|by eauto].
    + rewrite Hg. split; intros (qs & -> & Hqs); exists qs; (split; [done|]).
      * by rewrite decide_False by congruence.
      * by rewrite decide_False in Hqs by congruence.
Qed.

Lemma rep_put d f ps v : rep d f → Forall clean ps → rep (db_put (make_key ps) v d) (upd ps (Some v) f).
Proof. intros Hd Hps. apply (rep_upd d); [done..|]. intros k. apply db_get_put. Qed.

Lemma rep_delete d f ps : rep d f → Forall clean ps → rep (db_delete (make_key ps) d) (upd ps None f).
Proof. intros Hd Hps. apply (rep_upd d); [done..|]. intros k. apply db_get_delete. Qed.

(** *** Scans *)

Lemma fmap_cover {A B} (P : A → Prop) (g : A → B) (l : list B) :
  (∀ b, b ∈ l → ∃ a, b = g a ∧ P a) → ∃ k, l = g <$> k ∧ Forall P k.
Proof.
  induction l as [|b l IH]; intros Hl; [by exists []|]. destruct IH as (k & -> & Hk); [intros; apply Hl; by right|].
  destruct (Hl b) as (a & -> & Ha); [by left|]. exists (a :: k). auto.
Qed.

Definition entry pre f (y : string) : string * bytes := (make_key (pre ++ [y]), default [] (f (pre ++ [y]))).

Lemma StronglySorted_fmap_inv {A B} (R : relation A) (S : relation B) (g : A → B) (l : list A) :
  (∀ x y, x ∈ l → y ∈ l → S (g x) (g y) → R x y) → StronglySorted S (g <$> l) → StronglySorted R l.
Proof.
  induction l as [|x l IH]; intros HR Hs; [constructor|]. rewrite fmap_cons in Hs.
  apply StronglySorted_inv in Hs as [Hs Hx]. constructor; [apply IH; [set_solver|done]|].
  rewrite Forall_forall in Hx. apply Forall_forall. intros y Hy. apply HR; [set_solver..|]. apply Hx. set_solver.
Qed.

Lemma StronglySorted_strict {A} (R : relation A) (l : list A) :
  StronglySorted (λ x y, R x y ∧ x ≠ y) l → StronglySorted R l ∧ NoDup l.
Proof.
  induction 1 as [|x l Hl [IH1 IH2] Hx]; [split; constructor|]. rewrite Forall_forall in Hx.
  split; constructor; [done| |intros Hin; by destruct (Hx x Hin)|done]. apply Forall_forall. intros y Hy. by apply Hx.
Qed.

(** The scan below a prefix after a cursor gives the last parts, in order. *)
Lemma scan d f pre last :
  rep d f → pre ≠ [] → Forall clean pre → (∀ ps, is_Some (f ps) → length ps = S (length pre)) →
  ∃ e ys, prefix_successor (make_prefix pre) = Some e ∧ db_range (page_start pre last) e d = entry pre f <$> ys ∧
    StronglySorted String.le ys ∧ NoDup ys ∧ Forall clean ys ∧
    ∀ y, y ∈ ys ↔ is_Some (f (pre ++ [y])) ∧ after_key last y = true.
Proof.
  intros Hd Hpre Hcl Hlen. destruct (scan_bounds pre last Hpre) as (e & He & Hb).
  destruct (fmap_cover (λ y, is_Some (f (pre ++ [y]))) (entry pre f) (db_range (page_start pre last) e d)) as (ys & Hys & Hin).
  { intros [k v] [Hget Hk]%db_range_elem. apply Hb in Hk as [r ->]. apply (rep_get _ _ Hd) in Hget as (ps & E & Hps).
    pose proof (rep_clean _ _ Hd ps (mk_is_Some _ _ Hps)) as Hc. pose proof (Hlen ps (mk_is_Some _ _ Hps)) as Hl.
    assert (ps = pre ++ split_key r) as Eps by by rewrite <-(split_make ps Hc), <-E, split_make_app.
    rewrite Eps, length_app in Hl. destruct (split_key r) as [|y [|]]; simpl in Hl; [lia| |lia].
    exists y. unfold entry. rewrite <-Eps, Hps, E. by eauto. }
  rewrite Forall_forall in Hin.
  assert (∀ y, is_Some (f (pre ++ [y])) → clean y) as Hy.
  { intros y Hy%(rep_clean _ _ Hd). apply Forall_app in Hy as [_ Hy]. inv Hy. done. }
  assert (StronglySorted (λ x y, String.le x y ∧ x ≠ y) ys) as [Hs Hn]%StronglySorted_strict.
  { pose proof (db_range_sorted (page_start pre last) e d) as Hs. rewrite Hys in Hs.
    eapply StronglySorted_fmap_inv; [|exact Hs]. intros x y Hx _. apply key_order, Hy, Hin, Hx. }
  exists e, ys. split_and!; [done..|apply Forall_forall; by auto|]. intros y. split.
  - intros Hyi. split; [by apply Hin|]. apply (start_le pre); [by apply Hy, Hin|].
    assert (entry pre f y ∈ db_range (page_start pre last) e d) as Hr by (rewrite Hys; set_solver).
    apply db_range_elem in Hr as (_ & ? & _). done.
  - intros [[v Hv] Hl]. assert ((make_key (pre ++ [y]), v) ∈ db_range (page_start pre last) e d) as Hr.
    { apply db_range_elem. split; [apply (rep_get _ _ Hd); eauto|]. pose proof (Hy y (mk_is_Some _ _ Hv)) as [? _].
      split; [by apply start_le|by eapply key_lt_successor]. }
    rewrite Hys in Hr. apply list_elem_of_fmap in Hr as (z & Ez & Hz). injection Ez as Ez _.
    apply make_key_inj in Ez; [by simplify_list_eq|by eapply (rep_clean _ _ Hd)|eapply (rep_clean _ _ Hd), Hin, Hz].
Qed.

Lemma has_any d f pre :
  rep d f → pre ≠ [] → Forall clean pre → (∀ ps, is_Some (f ps) → length ps = S (length pre)) →
  has_any_with_prefix d (make_prefix pre) = true ↔ ∃ y, is_Some (f (pre ++ [y])).
Proof.
  intros Hd Hpre Hcl Hlen. destruct (scan d f pre None Hd Hpre Hcl Hlen) as (e & ys & He & Hys & _ & _ & _ & Hin).
  simpl in Hys. unfold has_any_with_prefix. rewrite He, Hys, negb_true_iff, bool_decide_eq_false. split.
  - destruct ys as [|y ys]; [done|]. intros _. exists y. apply Hin. by left.
  - intros [y Hy]. assert (y ∈ ys) by by apply Hin. by destruct ys; [set_solver|].
Qed.

Lemma keys_below d f pre :
  rep d f → pre ≠ [] → Forall clean pre → (∀ ps, is_Some (f ps) → length ps = S (length pre)) →
  ∃ ys, keys_with_prefix d (make_prefix pre) = (λ y, make_key (pre ++ [y])) <$> ys ∧ Forall clean ys ∧
    ∀ y, y ∈ ys ↔ is_Some (f (pre ++ [y])).
Proof.
  intros Hd Hpre Hcl Hlen. destruct (scan d f pre None Hd Hpre Hcl Hlen) as (e & ys & He & Hys & _ & _ & Hc & Hin).
  simpl in Hys. exists ys. unfold keys_with_prefix. rewrite He, Hys, <-list_fmap_compose. split_and!; [done..|].
  intros y. rewrite Hin. naive_solver.
Qed.

Lemma page_loop_take {A B} (visit : string * bytes → option (list A)) limit (g : B → string * bytes) h acc ys :
  (∀ y, y ∈ ys → visit (g y) = Some [h y]) → length acc ≤ limit →
  page_loop visit limit acc (g <$> ys) = mkPage (acc ++ (take (limit - length acc) (h <$> ys))) (more (take_page (h <$> ys) (limit - length acc))).
Proof.
  revert acc. induction ys as [|y ys IH]; intros acc Hv Hl.
  - simpl. by rewrite take_nil, drop_nil, app_nil_r.
  - rewrite fmap_cons. cbn [page_loop]. rewrite (Hv y) by set_solver. case_decide as Hlim.
    + rewrite Hlim, Nat.sub_diag. simpl. by rewrite app_nil_r.
    + rewrite IH by (set_solver || (rewrite length_app; simpl; lia)). rewrite length_app. simpl length.
      replace (limit - length acc) with (S (limit - (length acc + 1))) by lia.
      rewrite fmap_cons. cbn [take take_page more drop]. by rewrite <-app_assoc.
Qed.

Lemma page_loop_page {A B} (visit : string * bytes → option (list A)) limit (g : B → string * bytes) h ys :
  (∀ y, y ∈ ys → visit (g y) = Some [h y]) → page_loop visit limit [] (g <$> ys) = take_page (h <$> ys) limit.
Proof. intros Hv. rewrite (page_loop_take _ _ _ h) by (done || simpl; lia). simpl. by rewrite Nat.sub_0_r. Qed.
End Tables.
