(* ===== verification/LmdbRefines.v ===== *)
(** The refinement between the LMDB engine and the in-memory index: each group
    of tables holds one part of the index, and every mutation keeps them so. *)

From S2P Require Import Prelude RustStr Json Errors Digest Metadata MetaLog Lmdb LmdbFacts.

#[local] Arguments make_key : simpl never.

Section Sim.
Context {heed : Heed} {heed_laws : HeedLaws} {serde : SerdeJson}.
Implicit Types (x : Dbs) (s : State).

(** ** Tags *)

Definition tag_view (T : string → string → option (string * string)) (ps : list string) : option bytes :=
  match ps with
  | [r; t] => (λ p, as_bytes p.1 ++ NUL :: as_bytes p.2) <$> T r t
  | _ => None
  end.

Definition digest_view (T : string → string → option (string * string)) (ps : list string) : option bytes :=
  match ps with
  | [r; d; t] => if decide (fst <$> T r t = Some d) then Some [] else None
  | _ => None
  end.

Record tags_sim (T : string → string → option (string * string)) (x : Dbs) : Prop := {
  ts_tags : rep (I_TAGS x) (tag_view T);
  ts_digests : rep (I_TAGS_BY_DIGEST x) (digest_view T);
  ts_utf8 : ∀ r t d m, T r t = Some (d, m) → utf8 m;
}.

Lemma tags_sim_proper T T' x : (∀ r t, T r t = T' r t) → tags_sim T x → tags_sim T' x.
Proof.
  intros HT [H1 H2 H3]. split.
  - eapply rep_proper; [|exact H1]. intros [|r [|t []]]; simpl; by rewrite ?HT.
  - eapply rep_proper; [|exact H2]. intros [|r [|d [|t []]]]; simpl; by rewrite ?HT.
  - intros *. rewrite <-HT. apply H3.
Qed.

Lemma tag_clean T x r t d m : tags_sim T x → T r t = Some (d, m) → clean r ∧ clean d ∧ clean t.
Proof.
  intros [_ H2 _] HT. assert (Forall clean [r; d; t]) as Hc; [|by inv Hc; repeat (match goal with H : Forall _ (_ :: _) |- _ => inv H end)].
  apply (rep_clean _ _ H2). simpl. rewrite HT, decide_True by done. eauto.
Qed.

Definition set2 {A} (r t : string) (v : option A) (T : string → string → option A) (r' t' : string) : option A :=
  if decide (r' = r ∧ t' = t) then v else T r' t'.

Lemma set2_eq {A} r t (v : option A) T : set2 r t v T r t = v.
Proof. unfold set2. by rewrite decide_True. Qed.
Lemma set2_ne {A} r t (v : option A) T r' t' : ¬ (r' = r ∧ t' = t) → set2 r t v T r' t' = T r' t'.
Proof. intros ?. unfold set2. by rewrite decide_False. Qed.

(** The two tables of the tags when one tag changes. *)
Lemma tag_view_upd T r t v ps :
  upd [r; t] ((λ p, as_bytes p.1 ++ NUL :: as_bytes p.2) <$> v) (tag_view T) ps = tag_view (set2 r t v T) ps.
Proof.
  unfold upd. case_decide as E; [subst; simpl; by rewrite set2_eq|].
  destruct ps as [|r' [|t' []]]; try done. simpl. by rewrite set2_ne by naive_solver.
Qed.

Lemma digest_view_del T r t d ps :
  (∀ d' m', T r t = Some (d', m') → d' = d) → upd [r; d; t] None (digest_view T) ps = digest_view (set2 r t None T) ps.
Proof.
  intros HT. unfold upd. case_decide as E; [subst; simpl; by rewrite set2_eq|].
  destruct ps as [|r' [|e [|t' []]]]; try done. simpl. destruct (decide (r' = r ∧ t' = t)) as [[-> ->]|]; [|by rewrite set2_ne].
  rewrite set2_eq. destruct (T r t) as [[d' m']|]; [|done]. simpl. rewrite (HT d' m' eq_refl), !decide_False by congruence. done.
Qed.

Lemma digest_view_put T r t d m ps :
  upd [r; d; t] (Some []) (digest_view (set2 r t None T)) ps = digest_view (set2 r t (Some (d, m)) T) ps.
Proof.
  unfold upd. case_decide as E; [subst; simpl; by rewrite set2_eq, decide_True|].
  destruct ps as [|r' [|e [|t' []]]]; try done. simpl. destruct (decide (r' = r ∧ t' = t)) as [[-> ->]|]; [|by rewrite !set2_ne].
  rewrite !set2_eq. simpl. by rewrite !decide_False by congruence.
Qed.

Lemma put_tag_sim T x r d m t :
  tags_sim T x → clean r → clean d → clean t → utf8 m → tags_sim (set2 r t (Some (d, m)) T) (put_tag_in_txn x r d m t).
Proof.
  intros Hs Hr Hd Ht Hm. pose proof Hs as [H1 H2 H3]. unfold put_tag_in_txn. rewrite (rep_lookup _ _ _ H1) by auto. simpl tag_view.
  set (x' := match _ ≫= split_nul with Some (old, _) => _ | None => x end).
  assert (I_TAGS x' = I_TAGS x ∧ rep (I_TAGS_BY_DIGEST x') (digest_view (set2 r t None T))) as [Ex' Hdel].
  { unfold x'. destruct (T r t) as [[d' m']|] eqn:E; simpl.
    - destruct (tag_clean _ _ _ _ _ _ Hs E) as (_ & [Hd' Hu] & _). rewrite split_nul_clean by done. simpl. rewrite of_as_bytes.
      split; [done|]. eapply rep_proper; [|apply (rep_delete _ _ _ H2); repeat constructor; (apply Hr || done || apply Ht)].
      intros ps. apply digest_view_del. congruence.
    - split; [done|]. eapply rep_proper; [|exact H2]. intros [|r' [|e [|t' []]]]; try done. simpl.
      destruct (decide (r' = r ∧ t' = t)) as [[-> ->]|]; [by rewrite set2_eq, E|by rewrite set2_ne]. }
  split; simpl.
  - rewrite Ex'. eapply rep_proper; [apply (tag_view_upd T r t (Some (d, m)))|]. apply (rep_put _ _ _ _ H1). by auto.
  - eapply rep_proper; [apply digest_view_put|]. apply rep_put; [exact Hdel|by auto].
  - intros r' t' d' m'. unfold set2. case_decide; [by intros [= _ ->]|apply H3].
Qed.

(** The tags of a deleted manifest. *)
Lemma drop_tag_sim T x r d t :
  tags_sim T x → clean r → clean d → clean t → (∀ d' m', T r t = Some (d', m') → d' = d) →
  tags_sim (set2 r t None T) (drop_tag_in_txn r x (make_key [r; d; t])).
Proof.
  intros [H1 H2 H3] Hr Hd Ht HT. unfold drop_tag_in_txn. rewrite split_make by auto. split; simpl.
  - eapply rep_proper; [apply (tag_view_upd T r t None)|]. apply (rep_delete _ _ _ H1). by auto.
  - eapply rep_proper; [intros ps; by apply digest_view_del|]. apply (rep_delete _ _ _ H2). by auto.
  - intros r' t' d' m'. unfold set2. case_decide; [done|apply H3].
Qed.

Lemma drop_tags_sim T x r d ts :
  tags_sim T x → clean r → clean d → Forall clean ts → (∀ t d' m', t ∈ ts → T r t = Some (d', m') → d' = d) →
  tags_sim (λ r' t', if decide (r' = r ∧ t' ∈ ts) then None else T r' t')
    (foldl (drop_tag_in_txn r) x ((λ t, make_key [r; d; t]) <$> ts)).
Proof.
  intros Hs Hr Hd Hts. revert T x Hs. induction Hts as [|t ts Ht Hts IH]; intros T x Hs HT; simpl.
  - eapply tags_sim_proper; [|exact Hs]. intros r' t'. simpl. rewrite decide_False by set_solver. done.
  - eapply tags_sim_proper; [|apply IH; [apply drop_tag_sim; [exact Hs|done..|]|]].
    + intros r' t'. simpl. unfold set2. repeat case_decide; set_solver.
    + intros d' m'. apply HT. set_solver.
    + intros t' d' m' Hin. unfold set2. case_decide; [done|]. apply HT. set_solver.
Qed.
(** ** Referrers *)

Implicit Types R : string → string → string → option bytes.

Definition ref_view R (ps : list string) : option bytes :=
  match ps with [r; j; d] => R r j d | _ => None end.
Definition type_view R (ps : list string) : option bytes :=
  match ps with [r; j; d] => as_bytes <$> (R r j d ≫= artifact_type) | _ => None end.
Definition by_type_view R (ps : list string) : option bytes :=
  match ps with
  | [r; j; t; d] => if decide (R r j d ≫= artifact_type = Some t) then Some [] else None
  | _ => None
  end.
Definition reverse_view R (ps : list string) : option bytes :=
  match ps with [r; d; j] => (λ _, []) <$> R r j d | _ => None end.

Record refs_sim R (x : Dbs) : Prop := {
  rs_refs : rep (I_REFERRERS x) (ref_view R);
  rs_types : rep (I_REFERRER_TYPES x) (type_view R);
  rs_by_type : rep (I_REFERRERS_BY_TYPE x) (by_type_view R);
  rs_reverse : rep (I_REFERRERS_REVERSE x) (reverse_view R);
}.

Lemma refs_sim_proper R R' x : (∀ r j d, R r j d = R' r j d) → refs_sim R x → refs_sim R' x.
Proof.
  intros HR [H1 H2 H3 H4]. split; (eapply rep_proper; [|eassumption]);
    intros [|? [|? [|? [|? []]]]]; simpl; by rewrite ?HR.
Qed.

Definition set3 (r j d : string) (v : option bytes) R (r' j' d' : string) : option bytes :=
  if decide (r' = r ∧ j' = j ∧ d' = d) then v else R r' j' d'.

Lemma set3_eq r j d v R : set3 r j d v R r j d = v.
Proof. unfold set3. by rewrite decide_True. Qed.
Lemma set3_ne r j d v R r' j' d' : ¬ (r' = r ∧ j' = j ∧ d' = d) → set3 r j d v R r' j' d' = R r' j' d'.
Proof. intros ?. unfold set3. by rewrite decide_False. Qed.

Lemma ref_view_upd R r j d v ps : upd [r; j; d] v (ref_view R) ps = ref_view (set3 r j d v R) ps.
Proof.
  unfold upd. case_decide as E; [subst; simpl; by rewrite set3_eq|].
  destruct ps as [|r' [|j' [|d' []]]]; try done. simpl. by rewrite set3_ne by naive_solver.
Qed.
Lemma type_view_upd R r j d v ps :
  upd [r; j; d] (as_bytes <$> (v ≫= artifact_type)) (type_view R) ps = type_view (set3 r j d v R) ps.
Proof.
  unfold upd. case_decide as E; [subst; simpl; by rewrite set3_eq|].
  destruct ps as [|r' [|j' [|d' []]]]; try done. simpl. by rewrite set3_ne by naive_solver.
Qed.
Lemma reverse_view_upd R r j d v ps :
  upd [r; d; j] ((λ _, []) <$> v) (reverse_view R) ps = reverse_view (set3 r j d v R) ps.
Proof.
  unfold upd. case_decide as E; [subst; simpl; by rewrite set3_eq|].
  destruct ps as [|r' [|d' [|j' []]]]; try done. simpl. by rewrite set3_ne by naive_solver.
Qed.
Lemma by_type_view_del R r j d t ps :
  R r j d ≫= artifact_type = Some t →
  upd [r; j; t; d] None (by_type_view R) ps = by_type_view (set3 r j d None R) ps.
Proof.
  intros HR. unfold upd. case_decide as E; [subst; simpl; by rewrite set3_eq|].
  destruct ps as [|r' [|j' [|t' [|d' []]]]]; try done. simpl.
  destruct (decide (r' = r ∧ j' = j ∧ d' = d)) as [(-> & -> & ->)|]; [|by rewrite set3_ne].
  rewrite set3_eq, HR, !decide_False by (simpl; congruence). done.
Qed.
Lemma by_type_view_same R r j d v ps :
  R r j d ≫= artifact_type = None → v ≫= artifact_type = None →
  by_type_view R ps = by_type_view (set3 r j d v R) ps.
Proof.
  intros H1 H2. destruct ps as [|r' [|j' [|t' [|d' []]]]]; try done. simpl.
  destruct (decide (r' = r ∧ j' = j ∧ d' = d)) as [(-> & -> & ->)|]; [|by rewrite set3_ne]. by rewrite set3_eq, H1, H2.
Qed.
Lemma by_type_view_put R r j d b t ps :
  artifact_type b = Some t → R r j d = None →
  upd [r; j; t; d] (Some []) (by_type_view R) ps = by_type_view (set3 r j d (Some b) R) ps.
Proof.
  intros Hb HR. unfold upd. case_decide as E; [subst; simpl; by rewrite set3_eq, decide_True|].
  destruct ps as [|r' [|j' [|t' [|d' []]]]]; try done. simpl.
  destruct (decide (r' = r ∧ j' = j ∧ d' = d)) as [(-> & -> & ->)|]; [|by rewrite set3_ne].
  rewrite set3_eq, HR. simpl. rewrite Hb, !decide_False by congruence. done.
Qed.

Lemma type_clean R x r j d b t : refs_sim R x → R r j d = Some b → artifact_type b = Some t → Forall clean [r; j; t; d].
Proof.
  intros [_ _ H3 _] HR Hb. apply (rep_clean _ _ H3). simpl. rewrite HR. simpl. rewrite Hb, decide_True by done. eauto.
Qed.

Lemma remove_referrer_sim R x r j d :
  refs_sim R x → clean r → clean j → clean d → refs_sim (set3 r j d None R) (remove_referrer_in_txn x r j d).
Proof.
  intros Hs Hr Hj Hd. pose proof Hs as [H1 H2 H3 H4]. unfold remove_referrer_in_txn. split; simpl.
  - eapply rep_proper; [apply ref_view_upd|]. apply rep_delete; auto.
  - eapply rep_proper; [apply (type_view_upd R r j d None)|]. apply rep_delete; auto.
  - rewrite (rep_lookup _ _ _ H2) by auto. simpl. destruct (R r j d ≫= artifact_type) as [t|] eqn:E; simpl.
    + rewrite of_as_bytes. eapply rep_proper; [intros ps; by apply by_type_view_del|]. apply rep_delete; [done|].
      apply bind_Some in E as (b & HR & Hb). by eapply type_clean.
    + eapply rep_proper; [intros ps; by apply (by_type_view_same R r j d None)|done].
  - eapply rep_proper; [apply (reverse_view_upd R r j d None)|]. apply rep_delete; auto.
Qed.

Lemma set3_twice r j d v w R r' j' d' : set3 r j d v (set3 r j d w R) r' j' d' = set3 r j d v R r' j' d'.
Proof. unfold set3. by case_decide. Qed.

Lemma add_referrer_sim R x r j d b :
  refs_sim R x → clean r → clean j → clean d → (∀ t, artifact_type b = Some t → clean t) →
  refs_sim (set3 r j d (Some b) R) (add_referrer_in_txn x r j d b).
Proof.
  intros Hs Hr Hj Hd Ht. apply (remove_referrer_sim _ _ r j d) in Hs as [H1 H2 H3 H4]; [|done..].
  unfold add_referrer_in_txn. eapply refs_sim_proper; [apply (set3_twice r j d (Some b) None)|].
  assert (set3 r j d None R r j d = None) as Hn by apply set3_eq. split; simpl.
  - eapply rep_proper; [apply ref_view_upd|]. apply rep_put; auto.
  - eapply rep_proper; [apply (type_view_upd _ r j d (Some b))|]. simpl.
    destruct (artifact_type b) as [t|]; simpl; [apply rep_put; auto|].
    eapply rep_proper; [|exact H2]. intros ps. unfold upd. case_decide; [|done]. subst. simpl. by rewrite Hn.
  - destruct (artifact_type b) as [t|] eqn:E.
    + eapply rep_proper; [intros ps; by apply by_type_view_put|]. apply rep_put; [done|]. pose proof (Ht t eq_refl). auto.
    + eapply rep_proper; [intros ps; apply (by_type_view_same _ r j d (Some b)); [by rewrite Hn|done]|done].
  - eapply rep_proper; [apply (reverse_view_upd _ r j d (Some b))|]. apply rep_put; auto.
Qed.

Lemma drop_referrers_sim R x r d js :
  refs_sim R x → clean r → clean d → Forall clean js →
  refs_sim (λ r' j' d', if decide (r' = r ∧ d' = d ∧ j' ∈ js) then None else R r' j' d')
    (foldl (drop_referrer_in_txn r d) x ((λ j, make_key [r; d; j]) <$> js)).
Proof.
  intros Hs Hr Hd Hjs. revert R x Hs. induction Hjs as [|j js Hj Hjs IH]; intros R x Hs; simpl.
  - eapply refs_sim_proper; [|exact Hs]. intros r' j' d'. simpl. rewrite decide_False by set_solver. done.
  - eapply refs_sim_proper; [|apply IH].
    2:{ unfold drop_referrer_in_txn. rewrite split_make by auto. rewrite utf8_str_clean by apply Hj. simpl.
        apply remove_referrer_sim; [exact Hs|done..]. }
    intros r' j' d'. simpl. unfold set3. repeat case_decide; set_solver.
Qed.
(** ** Back references *)

Implicit Types B : string → string → string → Prop.

Record back_sim B (x : Dbs) : Prop := {
  bs_clean : ∀ r b m, B r b m → clean r ∧ clean b ∧ clean m;
  bs_forward : ∀ k m, m ∈ dup_values k (I_BACKREFS x) ↔ ∃ r b, k = make_key [r; b] ∧ B r b m;
  bs_reverse : ∀ k b, b ∈ dup_values k (I_BACKREFS_REVERSE x) ↔ ∃ r m, k = make_key [r; m] ∧ B r b m;
}.

Lemma back_sim_proper B B' x : (∀ r b m, B r b m ↔ B' r b m) → back_sim B x → back_sim B' x.
Proof. intros HB [H1 H2 H3]. split; intros *; setoid_rewrite <-HB; auto. Qed.

Lemma key2_inj a b c d : clean a → clean b → clean c → clean d → make_key [a; b] = make_key [c; d] → a = c ∧ b = d.
Proof. intros ? ? ? ? E. apply make_key_inj in E; [by simplify_eq|by auto..]. Qed.

Lemma add_backref_sim B x r m b :
  back_sim B x → clean r → clean m → clean b →
  back_sim (λ r' b' m', B r' b' m' ∨ (r' = r ∧ m' = m ∧ b' = b)) (add_backref_in_txn r m x b).
Proof.
  intros [H1 H2 H3] Hr Hm Hb. split; simpl.
  - intros r' b' m' [?|(-> & -> & ->)]; [by apply H1|done].
  - intros k m'. rewrite dup_values_put, H2. naive_solver.
  - intros k b'. rewrite dup_values_put, H3. naive_solver.
Qed.

Lemma add_backrefs_sim B x r m bs :
  back_sim B x → clean r → clean m → Forall clean bs →
  back_sim (λ r' b' m', B r' b' m' ∨ (r' = r ∧ m' = m ∧ b' ∈ bs)) (add_backrefs_in_txn x r m bs).
Proof.
  intros Hs Hr Hm Hbs. unfold add_backrefs_in_txn. revert B x Hs. induction Hbs as [|b bs Hb Hbs IH]; intros B x Hs; simpl.
  - eapply back_sim_proper; [|exact Hs]. intros r' b' m'. simpl. set_solver.
  - eapply back_sim_proper; [|apply IH; by apply add_backref_sim]. intros r' b' m'. simpl. set_solver.
Qed.

Lemma dup_delete_each r d (bs : list string) (t : dupdb) k m :
  m ∈ dup_values k (foldl (λ t b, dup_delete_one (make_key [r; b]) d t) t bs) ↔
  m ∈ dup_values k t ∧ ¬ (m = d ∧ ∃ b, b ∈ bs ∧ k = make_key [r; b]).
Proof.
  revert t. induction bs as [|b bs IH]; intros t; simpl; [set_solver|].
  rewrite IH, dup_values_delete_one. setoid_rewrite elem_of_cons. naive_solver.
Qed.

Lemma drop_backrefs_sim B x r d :
  back_sim B x → clean r → clean d → back_sim (λ r' b' m', B r' b' m' ∧ ¬ (r' = r ∧ m' = d)) (drop_backrefs_in_txn x r d).
Proof.
  intros [H1 H2 H3] Hr Hd. unfold drop_backrefs_in_txn. split; simpl.
  - intros r' b' m' [? _]. by apply H1.
  - intros k m. rewrite dup_delete_each, H2. split.
    + intros [(r' & b' & -> & HB) Hn]. exists r', b'. split_and!; [done..|]. intros [-> ->]. apply Hn. split; [done|].
      exists b'. split; [|done]. apply H3. eauto.
    + intros (r' & b' & -> & HB & Hn). split; [by eauto|]. intros [-> (b & Hb & E)]. apply Hn. split; [|done].
      apply H3 in Hb as (r'' & m'' & E' & HB'). pose proof (H1 _ _ _ HB) as (?&?&?). pose proof (H1 _ _ _ HB') as (?&?&?).
      by apply key2_inj in E as [-> _].
  - intros k b. rewrite dup_values_delete, H3. split.
    + intros [(r' & m' & -> & HB) Hn]. exists r', m'. split_and!; [done..|]. by intros [-> ->].
    + intros (r' & m' & -> & HB & Hn). split; [by eauto|]. intros E. apply Hn. pose proof (H1 _ _ _ HB) as (?&?&?).
      by apply key2_inj in E.
Qed.

(** ** Media types and checksums *)

Definition pair_view {A} (enc : A → bytes) (M : string → string → option A) (ps : list string) : option bytes :=
  match ps with [r; d] => enc <$> M r d | _ => None end.

Lemma pair_view_upd {A} (enc : A → bytes) M r d v ps :
  upd [r; d] (enc <$> v) (pair_view enc M) ps = pair_view enc (set2 r d v M) ps.
Proof.
  unfold upd. case_decide as E; [subst; simpl; by rewrite set2_eq|].
  destruct ps as [|r' [|d' []]]; try done. simpl. by rewrite set2_ne by naive_solver.
Qed.

Record pair_sim {A} (enc : A → bytes) (P : A → Prop) (M : string → string → option A) (t : db) : Prop := {
  ps_rep : rep t (pair_view enc M);
  ps_vals : ∀ r d v, M r d = Some v → P v;
}.

Lemma pair_sim_proper {A} (enc : A → bytes) P M M' t : (∀ r d, M r d = M' r d) → pair_sim enc P M t → pair_sim enc P M' t.
Proof.
  intros HM [H1 H2]. split; [|intros *; rewrite <-HM; apply H2].
  eapply rep_proper; [|exact H1]. intros [|? [|? []]]; simpl; by rewrite ?HM.
Qed.

Lemma pair_put_sim {A} (enc : A → bytes) P M t r d v :
  pair_sim enc P M t → clean r → clean d → P v →
  pair_sim enc P (set2 r d (Some v) M) (db_put (make_key [r; d]) (enc v) t).
Proof.
  intros [H1 H2] Hr Hd Hv. split.
  - eapply rep_proper; [apply (pair_view_upd enc M r d (Some v))|]. apply rep_put; auto.
  - intros r' d' w. unfold set2. case_decide; [by intros [= <-]|apply H2].
Qed.

Lemma pair_delete_sim {A} (enc : A → bytes) P M t r d :
  pair_sim enc P M t → clean r → clean d → pair_sim enc P (set2 r d None M) (db_delete (make_key [r; d]) t).
Proof.
  intros [H1 H2] Hr Hd. split.
  - eapply rep_proper; [apply (pair_view_upd enc M r d None)|]. apply rep_delete; auto.
  - intros r' d' w. unfold set2. case_decide; [done|apply H2].
Qed.

Definition enc_ck (c : BlobChecksum) : bytes := encode_checksum (ck_crc32c c) (ck_size c).
Definition ck_ok (c : BlobChecksum) : Prop := (0 ≤ ck_crc32c c < 2 ^ 32)%Z ∧ is_u64 (ck_size c).

Lemma decode_enc_ck c : ck_ok c → decode_checksum (enc_ck c) = c.
Proof.
  intros [H1 H2]. unfold decode_checksum, enc_ck, encode_checksum. destruct c as [crc size]. cbn [ck_crc32c ck_size] in *.
  rewrite take_app_length', drop_app_length' by (symmetry; apply to_le_bytes_length). rewrite take_ge by (by rewrite to_le_bytes_length).
  unfold is_u64, u64_max in H2. rewrite !from_to_le_bytes by (simpl; lia). done.
Qed.
(** ** The whole index *)

Definition tag_of s r t := tags (repo_of s r) !! t.
Definition media_of s r d := media_types (repo_of s r) !! d.
Definition checksum_of s r d := checksums (repo_of s r) !! d.
Definition referrer_of s r j d : option bytes :=
  snd <$> (referrers (repo_of s r) !! j ≫= λ sr, by_digest sr !! d).
Definition refers s r b m : Prop := m ∈ default [] (backrefs (repo_of s r) !! b).

Record sim s (x : Dbs) : Prop := {
  sim_tags : tags_sim (tag_of s) x;
  sim_media : pair_sim as_bytes utf8 (media_of s) (I_MEDIA_TYPES x);
  sim_refs : refs_sim (referrer_of s) x;
  sim_back : back_sim (refers s) x;
  sim_checksums : pair_sim enc_ck ck_ok (checksum_of s) (I_CHECKSUMS x);
}.

Lemma sim_empty : sim ∅ open_env.
Proof.
  assert (∀ r, repo_of ∅ r = rs_default) as Hr by apply repo_of_empty.
  split; split; simpl;
    first [apply rep_new; intros [|? [|? [|? [|? []]]]]; simpl; try done|intros *];
    unfold tag_of, media_of, checksum_of, referrer_of, refers; rewrite ?Hr, ?dup_values_new; simpl; rewrite ?lookup_empty; try done.
  - simpl. set_solver.
  - split; [set_solver|]. intros (? & ? & _ & Hin). rewrite Hr in Hin. simpl in Hin. rewrite lookup_empty in Hin. set_solver.
  - split; [set_solver|]. intros (? & ? & _ & Hin). rewrite Hr in Hin. simpl in Hin. rewrite lookup_empty in Hin. set_solver.
Qed.

Lemma repo_of_with s r f r' : repo_of (with_repo s r f) r' = if decide (r' = r) then f (repo_of s r) else repo_of s r'.
Proof.
  unfold repo_of, with_repo. case_decide as E; [subst; by rewrite lookup_insert_eq|by rewrite lookup_insert_ne].
Qed.

(** A change that leaves a part of the index alone. *)
Lemma part_same {A} (g : RepoState → A) s r f r' :
  (∀ rs, g (f rs) = g rs) → g (repo_of (with_repo s r f) r') = g (repo_of s r').
Proof. intros Hg. rewrite repo_of_with. case_decide; [by subst|done]. Qed.

Lemma foldl_keep {A K : Type} (P : A → Prop) (f : A → K → A) (ks : list K) (x : A) : (∀ y k, P y → P (f y k)) → P x → P (foldl f x ks).
Proof. intros Hf. revert x. induction ks; simpl; auto. Qed.

(** The group of tables of [Hs] is not touched. *)
Ltac keep Hs := solve [exact Hs|destruct Hs; split; assumption].

Lemma drop_tag_keeps r k x :
  (∀ R, refs_sim R x → refs_sim R (drop_tag_in_txn r x k)) ∧ (∀ B, back_sim B x → back_sim B (drop_tag_in_txn r x k)) ∧
  I_MEDIA_TYPES (drop_tag_in_txn r x k) = I_MEDIA_TYPES x ∧ I_CHECKSUMS (drop_tag_in_txn r x k) = I_CHECKSUMS x ∧
  I_REFERRERS_REVERSE (drop_tag_in_txn r x k) = I_REFERRERS_REVERSE x.
Proof.
  unfold drop_tag_in_txn. destruct (split_key k) as [|? [|? []]]; simpl; split_and!; try done; intros ? Hs; keep Hs.
Qed.

Lemma drop_referrer_keeps r d k x :
  (∀ T, tags_sim T x → tags_sim T (drop_referrer_in_txn r d x k)) ∧ (∀ B, back_sim B x → back_sim B (drop_referrer_in_txn r d x k)) ∧
  I_MEDIA_TYPES (drop_referrer_in_txn r d x k) = I_MEDIA_TYPES x ∧ I_CHECKSUMS (drop_referrer_in_txn r d x k) = I_CHECKSUMS x.
Proof.
  unfold drop_referrer_in_txn. destruct (split_key k) as [|? [|? []]]; simpl; split_and!; try done; intros ? Hs; keep Hs.
Qed.

Lemma add_backref_keeps r m x b :
  (∀ T, tags_sim T x → tags_sim T (add_backref_in_txn r m x b)) ∧ (∀ R, refs_sim R x → refs_sim R (add_backref_in_txn r m x b)) ∧
  I_MEDIA_TYPES (add_backref_in_txn r m x b) = I_MEDIA_TYPES x ∧ I_CHECKSUMS (add_backref_in_txn r m x b) = I_CHECKSUMS x.
Proof. simpl. split_and!; try done; intros ? Hs; keep Hs. Qed.

(** *** What the mutations of the index do to each part *)

Lemma referrer_of_same s r f :
  (∀ rs, referrers (f rs) = referrers rs) → ∀ r' j d, referrer_of s r' j d = referrer_of (with_repo s r f) r' j d.
Proof. intros Hf r' j d. unfold referrer_of. by rewrite (part_same referrers). Qed.

Lemma tag_of_put s r d m tag r' t :
  match tag with Some t => set2 r t (Some (d, m)) (tag_of s) | None => tag_of s end r' t =
  tag_of (with_repo s r (rs_put_manifest d m tag)) r' t.
Proof.
  unfold tag_of. rewrite repo_of_with. destruct tag as [t0|]; simpl.
  - unfold set2. destruct (decide (r' = r)) as [->|]; simpl; [|by rewrite decide_False by naive_solver].
    destruct (decide (t = t0)) as [->|]; [by rewrite decide_True, lookup_insert_eq|].
    by rewrite decide_False, lookup_insert_ne by naive_solver.
  - case_decide; by subst.
Qed.

Lemma media_of_put s r d m tag r' d' :
  set2 r d (Some m) (media_of s) r' d' = media_of (with_repo s r (rs_put_manifest d m tag)) r' d'.
Proof.
  unfold media_of, set2. rewrite repo_of_with. destruct (decide (r' = r)) as [->|]; simpl; [|by rewrite decide_False by naive_solver].
  destruct (decide (d' = d)) as [->|]; [by rewrite decide_True, lookup_insert_eq|].
  by rewrite decide_False, lookup_insert_ne by naive_solver.
Qed.

Lemma referrer_of_add s r j d b r' j' d' :
  set3 r j d (Some b) (referrer_of s) r' j' d' = referrer_of (with_repo s r (rs_add_referrer j d b)) r' j' d'.
Proof.
  unfold referrer_of, set3. rewrite repo_of_with. destruct (decide (r' = r)) as [->|]; [|by rewrite decide_False by naive_solver].
  unfold rs_add_referrer. cbn [referrers]. destruct (decide (j' = j)) as [->|]; [|by rewrite decide_False, lookup_insert_ne by naive_solver].
  rewrite lookup_insert_eq. cbn [mbind option_bind]. rewrite sr_insert_by_digest.
  destruct (decide (d' = d)) as [->|]; [by rewrite decide_True, lookup_insert_eq|].
  rewrite decide_False, lookup_insert_ne by naive_solver.
  destruct (referrers (repo_of s r) !! j) as [sr|]; [done|]. simpl. by rewrite lookup_empty.
Qed.

Lemma refers_add s r m bs r' b' m' :
  refers s r' b' m' ∨ (r' = r ∧ m' = m ∧ b' ∈ bs) ↔ refers (add_backrefs s r m bs) r' b' m'.
Proof.
  unfold refers, add_backrefs. rewrite repo_of_with. case_decide; [|naive_solver]. subst. simpl.
  rewrite push_backrefs_lookup. naive_solver.
Qed.

Lemma tag_of_delete s r d r' t :
  tag_of (with_repo s r (rs_delete_manifest d)) r' t =
  if decide (r' = r ∧ fst <$> tag_of s r' t = Some d) then None else tag_of s r' t.
Proof.
  unfold tag_of. rewrite repo_of_with. destruct (decide (r' = r)) as [->|]; [|by rewrite decide_False by naive_solver]. simpl.
  destruct (tags (repo_of s r) !! t) as [[d' m]|] eqn:E; simpl; case_decide as Hd; try done.
  - apply map_lookup_filter_None. right. intros p. rewrite E. intros [= <-]. simpl. intros Hn. apply Hn. destruct Hd as [_ Hd]. by inv Hd.
  - apply map_lookup_filter_Some. split; [done|]. simpl. naive_solver.
  - by destruct Hd.
  - by apply map_lookup_filter_None; left.
Qed.

Lemma media_of_delete s r d r' d' :
  set2 r d None (media_of s) r' d' = media_of (with_repo s r (rs_delete_manifest d)) r' d'.
Proof.
  unfold media_of, set2. rewrite repo_of_with. destruct (decide (r' = r)) as [->|]; simpl; [|by rewrite decide_False by naive_solver].
  destruct (decide (d' = d)) as [->|]; [by rewrite decide_True, lookup_delete_eq|].
  by rewrite decide_False, lookup_delete_ne by naive_solver.
Qed.

(** A change that removes one checksum. *)
Lemma checksum_of_delete s r d f r' d' :
  (∀ rs, checksums (f rs) = delete d (checksums rs)) →
  set2 r d None (checksum_of s) r' d' = checksum_of (with_repo s r f) r' d'.
Proof.
  intros Hf. unfold checksum_of, set2. rewrite repo_of_with. destruct (decide (r' = r)) as [->|]; [|by rewrite decide_False by naive_solver].
  rewrite Hf. destruct (decide (d' = d)) as [->|]; [by rewrite decide_True, lookup_delete_eq|].
  by rewrite decide_False, lookup_delete_ne by naive_solver.
Qed.

Lemma checksum_of_put s r d crc size r' d' :
  set2 r d (Some {| ck_crc32c := crc; ck_size := size |}) (checksum_of s) r' d' =
  checksum_of (with_repo s r (rs_put_checksum d crc size)) r' d'.
Proof.
  unfold checksum_of, set2. rewrite repo_of_with. destruct (decide (r' = r)) as [->|]; simpl; [|by rewrite decide_False by naive_solver].
  destruct (decide (d' = d)) as [->|]; [by rewrite decide_True, lookup_insert_eq|].
  by rewrite decide_False, lookup_insert_ne by naive_solver.
Qed.

Lemma referrer_of_delete s r d r' j d' :
  referrer_of (with_repo s r (rs_delete_manifest d)) r' j d' =
  if decide (r' = r ∧ d' = d) then None else referrer_of s r' j d'.
Proof.
  unfold referrer_of. rewrite repo_of_with. destruct (decide (r' = r)) as [->|]; [|by rewrite decide_False by naive_solver].
  unfold rs_delete_manifest. cbn [referrers]. rewrite lookup_omap. destruct (referrers (repo_of s r) !! j) as [sr|]; simpl; [|by case_decide].
  rewrite sr_remove_by_digest. case_decide as He; simpl.
  - case_decide as Hd; [done|]. assert (delete d (by_digest sr) !! d' = None) as Hn by by rewrite He.
    apply lookup_delete_None in Hn as [->|Hn]; [naive_solver|by rewrite Hn].
  - rewrite sr_remove_by_digest. case_decide as Hd; [destruct Hd as [_ ->]; by rewrite lookup_delete_eq|].
    by rewrite lookup_delete_ne by naive_solver.
Qed.

Lemma refers_delete s r d r' b m :
  refers s r' b m ∧ ¬ (r' = r ∧ m = d) ↔ refers (with_repo s r (rs_delete_manifest d)) r' b m.
Proof.
  unfold refers. rewrite repo_of_with. case_decide; [|naive_solver]. subst. simpl.
  rewrite lookup_omap. destruct (backrefs (repo_of s r) !! b) as [ms|]; simpl; [|set_solver].
  assert (m ∈ default [] (if decide (filter (λ m, m ≠ d) ms = []) then None else Some (filter (λ m, m ≠ d) ms)) ↔
          m ∈ filter (λ m, m ≠ d) ms) as ->; [|rewrite list_elem_of_filter; naive_solver].
  case_decide as E; simpl; [by rewrite E|done].
Qed.

(** *** Each mutation keeps the simulation *)

(** The strings that become key parts have no zero byte; every string is
    UTF-8, as a Rust string is. *)
Definition clean_descriptor (b : bytes) : Prop := ∀ t, artifact_type b = Some t → clean t.

Definition op_clean (op : MetaOp) : Prop :=
  match op with
  | PutManifest repo digest media_type tag references referrer =>
      clean repo ∧ clean digest ∧ utf8 media_type ∧ (∀ t, tag = Some t → clean t) ∧ Forall clean references ∧
      (∀ j b, referrer = Some (j, b) → clean j ∧ clean_descriptor b)
  | PutBackrefs repo manifest blobs => clean repo ∧ clean manifest ∧ Forall clean blobs
  | DeleteManifest repo digest | DeleteBlob repo digest => clean repo ∧ clean digest
  | PutReferrer repo subject referrer b => clean repo ∧ clean subject ∧ clean referrer ∧ clean_descriptor b
  | PutChecksum repo digest crc size => clean repo ∧ clean digest ∧ ck_ok {| ck_crc32c := crc; ck_size := size |}
  end.

Lemma sim_put_manifest s x r d m tag :
  sim s x → clean r → clean d → utf8 m → (∀ t, tag = Some t → clean t) →
  let x := on_media_types (db_put (make_key [r; d]) (as_bytes m)) x in
  sim (with_repo s r (rs_put_manifest d m tag))
    (match tag with Some tag => put_tag_in_txn x r d m tag | None => x end).
Proof.
  intros [H1 H2 H3 H4 H5] Hr Hd Hm Ht x'.
  assert (tags_sim (tag_of s) x') as H1' by keep H1. assert (refs_sim (referrer_of s) x') as H3' by keep H3.
  assert (back_sim (refers s) x') as H4' by keep H4.
  assert (∀ y, I_MEDIA_TYPES y = I_MEDIA_TYPES x' → I_CHECKSUMS y = I_CHECKSUMS x →
    tags_sim (match tag with Some t => set2 r t (Some (d, m)) (tag_of s) | None => tag_of s end) y →
    refs_sim (referrer_of s) y → back_sim (refers s) y → sim (with_repo s r (rs_put_manifest d m tag)) y) as Hmk.
  { intros y E1 E2 Hy1 Hy3 Hy4. split.
    - eapply tags_sim_proper; [apply tag_of_put|exact Hy1].
    - rewrite E1. eapply pair_sim_proper; [apply media_of_put|]. by apply pair_put_sim.
    - eapply refs_sim_proper; [by apply referrer_of_same|exact Hy3].
    - eapply back_sim_proper; [|exact Hy4]. intros *. unfold refers. by rewrite (part_same backrefs).
    - rewrite E2. eapply pair_sim_proper; [|exact H5]. intros *. unfold checksum_of. by rewrite (part_same checksums). }
  destruct tag as [t|]; [|by apply Hmk].
  pose proof (put_tag_sim _ _ r d m t H1' Hr Hd (Ht t eq_refl) Hm) as Hy. revert Hy. unfold put_tag_in_txn.
  destruct (db_get (make_key [r; t]) (I_TAGS x') ≫= split_nul) as [[old rest]|]; intros Hy; apply Hmk; try done; [keep H3'|keep H4'|keep H3'|keep H4'].
Qed.

Lemma sim_add_backrefs s x r m bs :
  sim s x → clean r → clean m → Forall clean bs → sim (add_backrefs s r m bs) (add_backrefs_in_txn x r m bs).
Proof.
  intros [H1 H2 H3 H4 H5] Hr Hm Hbs. split.
  - apply (tags_sim_proper (tag_of s)); [intros *; unfold tag_of, add_backrefs; by rewrite (part_same tags)|].
    apply (foldl_keep (tags_sim _)); [|done]. intros y k. apply add_backref_keeps.
  - apply (pair_sim_proper _ _ (media_of s)); [intros *; unfold media_of, add_backrefs; by rewrite (part_same media_types)|].
    apply (foldl_keep (λ y, pair_sim _ _ _ (I_MEDIA_TYPES y))); [|done]. intros y k Hy. done.
  - apply (refs_sim_proper (referrer_of s)); [by apply referrer_of_same|].
    apply (foldl_keep (refs_sim _)); [|done]. intros y k. apply add_backref_keeps.
  - eapply back_sim_proper; [apply refers_add|]. by apply add_backrefs_sim.
  - apply (pair_sim_proper _ _ (checksum_of s)); [intros *; unfold checksum_of, add_backrefs; by rewrite (part_same checksums)|].
    apply (foldl_keep (λ y, pair_sim _ _ _ (I_CHECKSUMS y))); [|done]. intros y k Hy. done.
Qed.

Lemma sim_add_referrer s x r j d b :
  sim s x → clean r → clean j → clean d → clean_descriptor b → sim (add_referrer s r j d b) (add_referrer_in_txn x r j d b).
Proof.
  intros [H1 H2 H3 H4 H5] Hr Hj Hd Hb. split.
  - apply (tags_sim_proper (tag_of s)); [intros *; unfold tag_of, add_referrer; by rewrite (part_same tags)|keep H1].
  - apply (pair_sim_proper _ _ (media_of s)); [intros *; unfold media_of, add_referrer; by rewrite (part_same media_types)|done].
  - eapply refs_sim_proper; [apply referrer_of_add|]. by apply add_referrer_sim.
  - apply (back_sim_proper (refers s)); [intros *; unfold refers, add_referrer; by rewrite (part_same backrefs)|keep H4].
  - apply (pair_sim_proper _ _ (checksum_of s)); [intros *; unfold checksum_of, add_referrer; by rewrite (part_same checksums)|done].
Qed.

(** A change of one checksum. *)
Lemma sim_checksum s x r f g :
  sim s x → (∀ rs, tags (f rs) = tags rs) → (∀ rs, media_types (f rs) = media_types rs) →
  (∀ rs, referrers (f rs) = referrers rs) → (∀ rs, backrefs (f rs) = backrefs rs) →
  pair_sim enc_ck ck_ok (checksum_of (with_repo s r f)) (g (I_CHECKSUMS x)) → sim (with_repo s r f) (on_checksums g x).
Proof.
  intros [H1 H2 H3 H4 H5] E1 E2 E3 E4 Hck. split; [| | | |exact Hck].
  - apply (tags_sim_proper (tag_of s)); [intros *; unfold tag_of; by rewrite (part_same tags)|keep H1].
  - apply (pair_sim_proper _ _ (media_of s)); [intros *; unfold media_of; by rewrite (part_same media_types)|done].
  - apply (refs_sim_proper (referrer_of s)); [by apply referrer_of_same|keep H3].
  - apply (back_sim_proper (refers s)); [intros *; unfold refers; by rewrite (part_same backrefs)|keep H4].
Qed.

Lemma sim_delete_manifest s x r d :
  sim s x → clean r → clean d → sim (with_repo s r (rs_delete_manifest d)) (apply_op x (DeleteManifest r d)).
Proof.
  intros [H1 H2 H3 H4 H5] Hr Hd. cbn [apply_op]. set (x1 := on_media_types _ (on_checksums _ x)).
  assert (tags_sim (tag_of s) x1) as T1 by keep H1. assert (refs_sim (referrer_of s) x1) as R1 by keep H3.
  assert (back_sim (refers s) x1) as B1 by keep H4.
  assert (length [r; d] = 2) as Hl by done.
  destruct (keys_below _ _ [r; d] (ts_digests _ _ T1)) as (ts & Ets & Hts & Hin);
    [done|by auto|by intros [|? [|? [|? []]]] [? ?]|]. rewrite Ets. clear Ets. simpl in Hin.
  set (x2 := foldl (drop_tag_in_txn r) x1 _).
  assert (∀ P, P x1 → (∀ y k, P y → P (drop_tag_in_txn r y k)) → P x2) as K2 by (intros P HP Hk; by apply (foldl_keep P)).
  assert (I_REFERRERS_REVERSE x2 = I_REFERRERS_REVERSE x1) as E2.
  { apply (K2 (λ y, I_REFERRERS_REVERSE y = _)); [done|]. intros y k <-. apply drop_tag_keeps. }
  destruct (keys_below _ _ [r; d] (rs_reverse _ _ R1)) as (js & Ejs & Hjs & Hjin);
    [done|by auto|by intros [|? [|? [|? []]]] [? ?]|]. rewrite E2, Ejs. clear Ejs. simpl in Hjin.
  set (x3 := foldl (drop_referrer_in_txn r d) x2 _).
  assert (∀ P, P x2 → (∀ y k, P y → P (drop_referrer_in_txn r d y k)) → P x3) as K3 by (intros P HP Hk; by apply (foldl_keep P)).
  split.
  - assert (tags_sim (tag_of (with_repo s r (rs_delete_manifest d))) x3) as T3; [|keep T3].
    apply K3; [|intros y k; apply drop_referrer_keeps].
    eapply tags_sim_proper; [|apply drop_tags_sim; [exact T1|done..|]]; simpl.
    + intros r' t. rewrite tag_of_delete. apply decide_ext. split; intros [-> Hi]; (split; [done|]).
      * apply Hin in Hi. case_decide as Hd'; [done|by destruct Hi].
      * apply Hin. rewrite decide_True by done. eauto.
    + intros t d' m' Hi E. apply Hin in Hi. rewrite E in Hi. simpl in Hi. case_decide as Hd'; [by inv Hd'|by destruct Hi].
  - assert (I_MEDIA_TYPES x3 = I_MEDIA_TYPES x1) as E3.
    { apply (K3 (λ y, I_MEDIA_TYPES y = _)); [|intros y k <-; apply drop_referrer_keeps].
      apply (K2 (λ y, I_MEDIA_TYPES y = _)); [done|intros y k <-; apply drop_tag_keeps]. }
    simpl. rewrite E3. eapply pair_sim_proper; [apply media_of_delete|]. by apply pair_delete_sim.
  - assert (refs_sim (referrer_of (with_repo s r (rs_delete_manifest d))) x3) as R3; [|keep R3].
    eapply refs_sim_proper; [|apply drop_referrers_sim; [|done..]].
    2:{ apply K2; [exact R1|]. intros y k. apply drop_tag_keeps. }
    intros r' j d'. rewrite referrer_of_delete. simpl.
    destruct (decide (r' = r ∧ d' = d)) as [[-> ->]|Hne]; [|by rewrite decide_False by naive_solver].
    case_decide as Hj; [done|]. destruct (referrer_of s r j d) eqn:E; [|done]. destruct Hj. split_and!; [done..|].
    apply Hjin. by rewrite E.
  - eapply back_sim_proper; [apply refers_delete|]. apply drop_backrefs_sim; [|done..].
    apply K3; [|intros y k; apply drop_referrer_keeps]. apply K2; [exact B1|intros y k; apply drop_tag_keeps].
  - assert (I_CHECKSUMS x3 = I_CHECKSUMS x1) as E3.
    { apply (K3 (λ y, I_CHECKSUMS y = _)); [|intros y k <-; apply drop_referrer_keeps].
      apply (K2 (λ y, I_CHECKSUMS y = _)); [done|intros y k <-; apply drop_tag_keeps]. }
    simpl. rewrite E3. eapply pair_sim_proper; [intros *; by apply (checksum_of_delete _ _ d)|]. by apply pair_delete_sim.
Qed.

Lemma sim_step s x op : sim s x → op_clean op → sim (apply_in_ram s op) (apply_op x op).
Proof.
  intros Hs Hop. destruct op as [r d m tag refs referrer|r m bs|r d|r j d b|r d crc size|r d]; simpl in Hop.
  - destruct Hop as (Hr & Hd & Hm & Ht & Hrefs & Href). simpl.
    assert (sim (add_backrefs (with_repo s r (rs_put_manifest d m tag)) r d refs)
      (add_backrefs_in_txn (match tag with
         | Some tag => put_tag_in_txn (on_media_types (db_put (make_key [r; d]) (as_bytes m)) x) r d m tag
         | None => on_media_types (db_put (make_key [r; d]) (as_bytes m)) x end) r d refs)) as H2.
    { apply sim_add_backrefs; [|done..]. by apply sim_put_manifest. }
    destruct referrer as [[j b]|]; [|done]. destruct (Href j b eq_refl). by apply sim_add_referrer.
  - destruct Hop as (?&?&?). by apply sim_add_backrefs.
  - destruct Hop. by apply sim_delete_manifest.
  - destruct Hop as (?&?&?&?). by apply sim_add_referrer.
  - destruct Hop as (?&?&?). apply sim_checksum; try done. eapply pair_sim_proper; [apply checksum_of_put|].
    apply (pair_put_sim enc_ck ck_ok _ _ r d {| ck_crc32c := crc; ck_size := size |}); [apply Hs|done..].
  - destruct Hop as (?&?). apply sim_checksum; try done. eapply pair_sim_proper; [intros *; by apply (checksum_of_delete _ _ d)|].
    apply pair_delete_sim; [apply Hs|done..].
Qed.

Lemma sim_run ops s x : sim s x → Forall op_clean ops → sim (foldl apply_in_ram s ops) (foldl apply_op x ops).
Proof. intros Hs Hops. revert s x Hs. induction Hops as [|op ops Hop Hops IH]; intros s x Hs; simpl; [done|]. by apply IH, sim_step. Qed.
End Sim.
