(* ===== verification/LmdbQueries.v ===== *)
(** The queries of the LMDB engine answer as the in-memory index does. *)

From S2P Require Import Prelude RustStr Json Errors Digest Metadata MetaLog Lmdb LmdbFacts LmdbRefines.

#[local] Arguments make_key : simpl never.

Section Queries.
Context {heed : Heed} {heed_laws : HeedLaws} {serde : SerdeJson}.
Implicit Types (x : Dbs) (s : State).

(** ** Point queries *)

Lemma resolve_tag_sim s x r t :
  sim s x → clean r → clean t → lmdb_resolve_tag x r t = resolve_tag s r t.
Proof.
  intros Hs Hr Ht. pose proof (sim_tags _ _ Hs) as Hts. unfold lmdb_resolve_tag. rewrite resolve_tag_repo.
  rewrite (rep_lookup _ _ _ (ts_tags _ _ Hts)) by auto. simpl. fold (tag_of s r t).
  destruct (tag_of s r t) as [[d m]|] eqn:E; [|done]. simpl. destruct (tag_clean _ _ _ _ _ _ Hts E) as (_ & [Hd Hu] & _).
  rewrite split_nul_clean by done. simpl. rewrite (utf8_str_clean d Hu). simpl. by rewrite utf8_str_clean by (by eapply ts_utf8).
Qed.

Lemma media_type_sim s x r d :
  sim s x → clean r → clean d → lmdb_manifest_media_type x r d = manifest_media_type s r d.
Proof.
  intros Hs Hr Hd. destruct (sim_media _ _ Hs) as [H1 H2]. unfold lmdb_manifest_media_type. rewrite media_type_repo.
  rewrite (rep_lookup _ _ _ H1) by auto. simpl. fold (media_of s r d).
  destruct (media_of s r d) as [m|] eqn:E; [|done]. simpl. apply utf8_str_clean. by eapply H2.
Qed.

Lemma checksum_sim s x r d : sim s x → clean r → clean d → lmdb_checksum x r d = checksum s r d.
Proof.
  intros Hs Hr Hd. destruct (sim_checksums _ _ Hs) as [H1 H2]. unfold lmdb_checksum. rewrite checksum_repo.
  rewrite (rep_lookup _ _ _ H1) by auto. simpl. fold (checksum_of s r d).
  destruct (checksum_of s r d) as [c|] eqn:E; [|done]. simpl. f_equal. apply decode_enc_ck. by eapply H2.
Qed.

Lemma has_referrer_sim s x r j d :
  sim s x → clean r → clean j → clean d → lmdb_has_referrer x r j d = has_referrer s r j d.
Proof.
  intros Hs Hr Hj Hd. apply eq_iff_eq_true. unfold lmdb_has_referrer. rewrite bool_decide_eq_true, has_referrer_repo.
  rewrite (rep_lookup _ _ _ (rs_refs _ _ (sim_refs _ _ Hs))) by auto. simpl. unfold referrer_of.
  rewrite fmap_is_Some. unfold is_Some. setoid_rewrite bind_Some. naive_solver.
Qed.

Lemma omap_same {A} (f : A → option A) (l : list A) : (∀ y, y ∈ l → f y = Some y) → omap f l = l.
Proof.
  induction l as [|y l IH]; intros Hl; [done|]. simpl. rewrite Hl by set_solver. f_equal. apply IH. set_solver.
Qed.

Lemma backrefs_sim s x r b :
  sim s x → state_ok s → clean r → clean b → lmdb_backrefs x r b ≡ₚ get_backrefs s r b.
Proof.
  intros Hs Hok Hr Hb. destruct (sim_back _ _ Hs) as [H1 H2 H3]. unfold lmdb_backrefs. rewrite backrefs_repo.
  assert (∀ m, m ∈ dup_values (make_key [r; b]) (I_BACKREFS x) ↔ refers s r b m) as Hin.
  { intros m. rewrite H2. split; [|by eauto]. intros (r' & b' & E & HB). pose proof (H1 _ _ _ HB) as (?&?&?).
    by apply key2_inj in E as [-> ->]. }
  rewrite omap_same.
  - apply NoDup_Permutation; [apply dup_values_NoDup| |done].
    destruct (backrefs (repo_of s r) !! b) as [ms|] eqn:E; simpl; [|constructor].
    by apply (backrefs_ok _ (state_ok_repo_of _ r Hok) _ _ E).
  - intros m Hm%Hin%H1. apply utf8_str_clean, Hm.
Qed.

(** ** Pages *)

Lemma after_btree_keys {A} (M : gmap string A) last (ys : list string) :
  StronglySorted String.le ys → NoDup ys → (∀ y, y ∈ ys ↔ is_Some (M !! y) ∧ after_key last y = true) →
  (after last (btree M)).*1 = ys.
Proof.
  intros Hs Hn Hy. rewrite after_keys. apply sorted_keys_eq.
  - apply StronglySorted_filter, btree_keys_sorted.
  - done.
  - apply NoDup_filter, btree_keys_NoDup.
  - done.
  - intros k. rewrite list_elem_of_filter, btree_keys_elem, Hy. naive_solver.
Qed.

Lemma map_nonempty {A} (M : gmap string A) : M ≠ ∅ ↔ ∃ k, is_Some (M !! k).
Proof.
  rewrite map_empty. split.
  - intros Hn. destruct (map_choose M) as (k & v & Hk); [by rewrite map_empty|]. by eauto.
  - intros (k & v & Hk) Hn. by rewrite Hn in Hk.
Qed.

(** A table whose entries below a prefix are those of a map. *)
Lemma page_query {A B} d f pre (M : gmap string A) (visit : string * bytes → option (list B)) h last limit :
  rep d f → pre ≠ [] → Forall clean pre → (∀ ps, is_Some (f ps) → length ps = S (length pre)) →
  (∀ y, is_Some (f (pre ++ [y])) ↔ is_Some (M !! y)) →
  (∀ y, clean y → is_Some (M !! y) → visit (entry pre f y) = Some [h y]) →
  has_any_with_prefix d (make_prefix pre) = negb (bool_decide (M = ∅)) ∧
  ∃ e, prefix_successor (make_prefix pre) = Some e ∧
    page_loop visit limit [] (db_range (page_start pre last) e d) = take_page (h <$> (after last (btree M)).*1) limit.
Proof.
  intros Hd Hpre Hcl Hlen HM Hv. split.
  - apply eq_iff_eq_true. rewrite (has_any _ f) by done. rewrite negb_true_iff, bool_decide_eq_false, map_nonempty. by setoid_rewrite HM.
  - destruct (scan _ _ pre last Hd) as (e & ys & He & Hys & Hso & Hnd & Hcy & Hin); [done..|]. exists e. split; [done|].
    rewrite Hys, (after_btree_keys M last ys); [|done..|intros y; by rewrite Hin, HM].
    apply page_loop_page. intros y Hy. rewrite Forall_forall in Hcy. apply Hv; [by apply Hcy|]. by apply HM, Hin.
Qed.

Lemma tags_page_sim s x r last limit : sim s x → clean r → lmdb_tags_page x r last limit = tags_page s r last limit.
Proof.
  intros Hs Hr. pose proof (ts_tags _ _ (sim_tags _ _ Hs)) as Hrep.
  destruct (page_query _ _ [r] (tags (repo_of s r)) (tag_visit r) id last limit Hrep) as (Hany & e & He & Hloop); [done|by auto|..].
  - by intros [|? [|? []]] [? ?].
  - intros y. simpl. by rewrite fmap_is_Some.
  - intros y Hy _. unfold tag_visit, entry. cbn [fst app]. rewrite split_make by auto.
    rewrite decide_True by done. by rewrite lossy_clean by apply Hy.
  - unfold lmdb_tags_page. rewrite Hany, He. cbn [mbind option_bind]. rewrite Hloop, list_fmap_id, negb_involutive.
    unfold tags_page, repo_of. destruct (s !! r) as [rs|]; simpl; [|by rewrite bool_decide_true].
    destruct (decide (tags rs = ∅)); [by rewrite bool_decide_true|by rewrite bool_decide_false].
Qed.

(** The referrers of a subject, as the index has them. *)
Definition subject_refs s r j : SubjectReferrers := default sr_default (referrers (repo_of s r) !! j).

Lemma subject_refs_ok s r j : state_ok s → sr_ok (subject_refs s r j).
Proof.
  intros Hok. unfold subject_refs. destruct (referrers (repo_of s r) !! j) as [sr|] eqn:E; [|apply sr_default_ok].
  by apply (referrers_ok _ (state_ok_repo_of _ r Hok) _ _ E).
Qed.

Lemma referrer_of_subject s r j d : referrer_of s r j d = snd <$> by_digest (subject_refs s r j) !! d.
Proof. unfold referrer_of, subject_refs. destruct (referrers (repo_of s r) !! j); simpl; by rewrite ?lookup_empty. Qed.

Lemma referrers_page_repo s r j atype last limit :
  state_ok s → referrers_page s r j atype last limit =
  if decide (by_digest (subject_refs s r j) = ∅) then None else Some (sr_page (subject_refs s r j) atype last limit).
Proof.
  intros Hok. unfold referrers_page, subject_refs.
  assert (s !! r ≫= (λ rs, referrers rs !! j) = referrers (repo_of s r) !! j) as ->.
  { unfold repo_of. destruct (s !! r); simpl; by rewrite ?lookup_empty. }
  destruct (referrers (repo_of s r) !! j) as [sr|] eqn:E; simpl; [|by rewrite decide_True].
  rewrite decide_False; [done|]. by apply (referrers_ok _ (state_ok_repo_of _ r Hok) _ _ E).
Qed.

Lemma all_referrers_query s x r j last limit :
  sim s x → clean r → clean j →
  has_any_with_prefix (I_REFERRERS x) (make_prefix [r; j]) = negb (bool_decide (by_digest (subject_refs s r j) = ∅)) ∧
  ∃ e, prefix_successor (make_prefix [r; j]) = Some e ∧
    page_loop (referrer_visit r j) limit [] (db_range (page_start [r; j] last) e (I_REFERRERS x)) =
    sr_page (subject_refs s r j) None last limit.
Proof.
  intros Hs Hr Hj. pose proof (rs_refs _ _ (sim_refs _ _ Hs)) as Hrep. set (sr := subject_refs s r j).
  destruct (page_query _ _ [r; j] (by_digest sr) (referrer_visit r j)
    (λ y, (y, default [] (snd <$> by_digest sr !! y))) last limit Hrep) as (Hany & e & He & Hloop); [done|by auto|..].
  - by intros [|? [|? [|? []]]] [? ?].
  - intros y. simpl. rewrite referrer_of_subject. apply fmap_is_Some.
  - intros y Hy _. unfold referrer_visit, entry. cbn [fst snd app]. rewrite split_make by auto.
    rewrite decide_True, lossy_clean by (done || apply Hy). simpl. by rewrite referrer_of_subject.
  - split; [rewrite Hany; f_equal; by apply bool_decide_ext|]. exists e. split; [done|]. rewrite Hloop. simpl. f_equal.
    rewrite (entries_of_keys (λ '(d, (_, b)), (d, b)) (λ y, default [] (snd <$> by_digest sr !! y))); [done|].
    intros k [t b] [_ Hk%btree_elem]%elem_of_after. by rewrite Hk.
Qed.

Lemma type_index s r j t y :
  state_ok s → referrer_of s r j y ≫= artifact_type = Some t ↔ y ∈ default ∅ (by_type (subject_refs s r j) !! t).
Proof.
  intros Hok. pose proof (subject_refs_ok s r j Hok) as Hsr. rewrite (sr_index _ Hsr), referrer_of_subject. split.
  - intros (b & Hb & Ht)%bind_Some. apply fmap_Some in Hb as ([t' b'] & Hy & ->). exists b'.
    simpl in Ht. by rewrite Hy, (sr_types _ Hsr _ _ _ Hy), Ht.
  - intros [b Hy]. rewrite Hy. simpl. symmetry. by apply (sr_types _ Hsr _ _ _ Hy).
Qed.

Lemma typed_referrers_query s x r j t last limit :
  sim s x → state_ok s → clean r → clean j → clean t →
  let set := default ∅ (by_type (subject_refs s r j) !! t) in
  has_any_with_prefix (I_REFERRERS_BY_TYPE x) (make_prefix [r; j; t]) = negb (bool_decide (set = ∅)) ∧
  ∃ e, prefix_successor (make_prefix [r; j; t]) = Some e ∧
    page_loop (typed_visit x r j t) limit [] (db_range (page_start [r; j; t] last) e (I_REFERRERS_BY_TYPE x)) =
    take_page ((λ y, (y, default [] (snd <$> by_digest (subject_refs s r j) !! y))) <$>
      (after last (btree (gset_to_gmap tt set))).*1) limit.
Proof.
  intros Hs Hok Hr Hj Ht set. pose proof (rs_by_type _ _ (sim_refs _ _ Hs)) as Hrep.
  assert (∀ y, is_Some (gset_to_gmap tt set !! y) ↔ y ∈ set) as Hset.
  { intros y. unfold is_Some. setoid_rewrite lookup_gset_to_gmap_Some. naive_solver. }
  destruct (page_query _ _ [r; j; t] (gset_to_gmap tt set) (typed_visit x r j t)
    (λ y, (y, default [] (snd <$> by_digest (subject_refs s r j) !! y))) last limit Hrep) as (Hany & Hloop); [done|by auto|..].
  - by intros [|? [|? [|? [|? []]]]] [? ?].
  - intros y. simpl. rewrite Hset. unfold set. rewrite <-type_index by done. case_decide; [naive_solver|]. split; [by intros []|done].
  - intros y Hy Hin%Hset. unfold typed_visit, entry. cbn [fst snd app]. rewrite split_make by auto.
    rewrite decide_True, utf8_str_clean by (done || apply Hy). cbn [default id].
    rewrite (rep_lookup _ _ _ (rs_refs _ _ (sim_refs _ _ Hs))) by auto. simpl.
    unfold set in Hin. rewrite <-type_index in Hin by done. apply bind_Some in Hin as (b & Hb & _).
    rewrite Hb. rewrite referrer_of_subject in Hb. by rewrite Hb.
  - split; [|done]. rewrite Hany. f_equal. apply bool_decide_ext. rewrite <-(dom_empty_iff_L (D := gset string)), dom_gset_to_gmap. done.
Qed.

Lemma referrers_page_sim s x r j atype last limit :
  sim s x → state_ok s → clean r → clean j → (∀ t, atype = Some t → clean t) →
  lmdb_referrers_page x r j atype last limit = referrers_page s r j atype last limit.
Proof.
  intros Hs Hok Hr Hj Ht. rewrite referrers_page_repo by done. unfold lmdb_referrers_page.
  destruct (all_referrers_query s x r j last limit Hs Hr Hj) as (Hany & e & He & Hloop).
  pose proof (subject_refs_ok s r j Hok) as Hsr.
  destruct atype as [t|]; rewrite Hany, negb_involutive.
  - destruct (typed_referrers_query s x r j t last limit Hs Hok Hr Hj (Ht t eq_refl)) as (Hany' & e' & He' & Hloop').
    rewrite Hany', negb_involutive, He'. cbn [mbind option_bind]. rewrite Hloop'. clear Hloop' He' Hany'.
    destruct (by_type (subject_refs s r j) !! t) as [set|] eqn:Et; cbn [default id sr_page].
    + pose proof (sr_sets _ Hsr _ _ Et) as Hne. rewrite bool_decide_false by done.
      rewrite decide_False; [cbn [sr_page]; rewrite Et; f_equal; f_equal|].
      * symmetry. by apply (entries_of_keys _ (λ y, default [] (snd <$> by_digest (subject_refs s r j) !! y))).
      * destruct (set_choose_L _ Hne) as [y Hy]. pose proof (sr_index _ Hsr t y) as Hi. rewrite Et in Hi.
        apply Hi in Hy as [b Hb]. intros E. by rewrite E in Hb.
    + rewrite bool_decide_true by done. rewrite Et. case_bool_decide; [by rewrite decide_True|by rewrite decide_False].
  - rewrite He. cbn [mbind option_bind]. rewrite Hloop. case_bool_decide; [by rewrite decide_True|by rewrite decide_False].
Qed.

(** ** Snapshots *)

Lemma omap_fmap {A B C} (f : B → option C) (g : A → B) (h : A → C) (l : list A) :
  (∀ y, y ∈ l → f (g y) = Some (h y)) → omap f (g <$> l) = h <$> l.
Proof.
  induction l as [|y l IH]; intros Hl; [done|]. simpl. rewrite Hl by set_solver. f_equal. apply IH. set_solver.
Qed.

Context {hash : HashIter}.

Lemma manifests_sim s x r : sim s x → clean r → lmdb_manifests x r ≡ₚ manifests s r.
Proof.
  intros Hs Hr. destruct (sim_media _ _ Hs) as [Hrep _]. unfold lmdb_manifests.
  destruct (scan _ _ [r] None Hrep) as (e & ys & He & Hys & _ & Hnd & Hcl & Hin); [done|by auto|by intros [|? [|? []]] [? ?]|].
  simpl in Hys. rewrite He, Hys. rewrite (omap_fmap _ _ id), list_fmap_id.
  - apply NoDup_Permutation; [done|..].
    + unfold manifests. destruct (s !! r); [|constructor]. rewrite iter_perm. apply NoDup_fst_map_to_list.
    + intros y. rewrite Hin. simpl. rewrite fmap_is_Some. unfold media_of, repo_of, manifests.
      destruct (s !! r) as [rs|]; simpl; [|rewrite lookup_empty; unfold is_Some; set_solver].
      rewrite iter_perm, list_elem_of_fmap. split.
      * intros [[m Hm] _]. exists (y, m). by rewrite elem_of_map_to_list.
      * intros ([? m] & -> & Hm%elem_of_map_to_list). by eauto.
  - intros y Hy. rewrite Forall_forall in Hcl. unfold entry. cbn [fst app]. rewrite split_make by auto. apply utf8_str_clean, Hcl, Hy.
Qed.

Lemma tags_snapshot_sim s x r : sim s x → clean r → lmdb_tags_snapshot x r = tags_snapshot s r.
Proof.
  intros Hs Hr. pose proof (sim_tags _ _ Hs) as Hts. unfold lmdb_tags_snapshot.
  destruct (scan _ _ [r] None (ts_tags _ _ Hts)) as (e & ys & He & Hys & Hso & Hnd & Hcl & Hin); [done|by auto|by intros [|? [|? []]] [? ?]|].
  simpl in Hys. rewrite He, Hys. set (M := tags (repo_of s r)).
  assert ((btree M).*1 = ys) as Hk.
  { rewrite <-(after_None (btree M)). apply after_btree_keys; [done..|]. intros y. rewrite Hin. simpl. by rewrite fmap_is_Some. }
  rewrite (omap_fmap _ _ (λ y, (y, (default ("", "") (M !! y)).1, (default ("", "") (M !! y)).2))).
  - assert (tags_snapshot s r = (λ '(t, (d, m)), (t, d, m)) <$> btree M) as ->.
    { unfold tags_snapshot, M, repo_of. destruct (s !! r); [done|]. unfold btree. simpl. by rewrite map_to_list_empty. }
    rewrite <-Hk, <-list_fmap_compose. apply list_fmap_ext. intros i [t [d m]] Ht%list_elem_of_lookup_2%btree_elem.
    simpl. by rewrite Ht.
  - intros y Hy. assert (is_Some (M !! y)) as [[d m] E].
    { apply Hin in Hy as [Hy _]. simpl in Hy. by rewrite fmap_is_Some in Hy. }
    rewrite Forall_forall in Hcl. unfold entry. cbn [fst snd app]. rewrite split_make by auto. rewrite decide_True by done.
    rewrite utf8_str_clean by apply Hcl, Hy. simpl. change (tag_of s r y) with (M !! y). rewrite E. simpl.
    destruct (tag_clean _ _ _ _ _ _ Hts E) as (_ & [Hd Hu] & _). rewrite split_nul_clean by done. simpl.
    rewrite (utf8_str_clean d Hu). simpl. by rewrite utf8_str_clean by (by eapply (ts_utf8 _ _ Hts)).
Qed.

Lemma firsts_elem d f r :
  rep d f → (∀ ps, is_Some (f ps) → ps ≠ []) →
  r ∈ omap (λ p, match split_key p.1 with r :: _ => utf8_str (as_bytes r) | [] => None end) (db_iter d) ↔
  ∃ ps, is_Some (f (r :: ps)).
Proof.
  intros Hd Hne. rewrite list_elem_of_omap. split.
  - intros ([k v] & Hin%db_iter_elem & Hr). apply (rep_get _ _ Hd) in Hin as (ps & -> & Hps).
    pose proof (rep_clean _ _ Hd ps (mk_is_Some _ _ Hps)) as Hc. cbn [fst] in Hr. rewrite split_make in Hr by done.
    destruct ps as [|r' ps]; [done|]. apply Forall_cons in Hc as [[_ Hu] _]. rewrite utf8_str_clean in Hr by done. simplify_eq. eauto.
  - intros (ps & v & Hv). pose proof (rep_clean _ _ Hd _ (mk_is_Some _ _ Hv)) as Hc. exists (make_key (r :: ps), v).
    rewrite db_iter_elem, (rep_get _ _ Hd). split; [by eauto|]. cbn [fst]. rewrite split_make by done.
    apply Forall_cons in Hc as [[_ Hu] _]. by apply utf8_str_clean.
Qed.

Lemma listed_iff rs : rs_ok rs →
  listed rs = true ↔ (∃ d, is_Some (media_types rs !! d)) ∨ ∃ j d, is_Some (referrers rs !! j ≫= λ sr, by_digest sr !! d).
Proof.
  intros Hok. unfold listed. rewrite orb_true_iff, !negb_true_iff, !bool_decide_eq_false, !map_nonempty.
  apply or_iff_compat_l. split.
  - intros (j & sr & Hj). exists j. rewrite Hj. simpl. apply map_nonempty, (referrers_ok _ Hok _ _ Hj).
  - intros (j & d & v & (sr & Hj & _)%bind_Some). by eauto.
Qed.

Lemma repos_sim s x : sim s x → state_ok s → lmdb_repos x = repos s.
Proof.
  intros Hs Hok. unfold lmdb_repos, repos. apply sorted_keys_eq.
  1,2: apply StronglySorted_merge_sort; apply _.
  1,2: rewrite merge_sort_Permutation.
  { apply NoDup_remove_dups. }
  { apply NoDup_filter_keys. rewrite iter_perm. apply NoDup_fst_map_to_list. }
  intros r. rewrite !merge_sort_Permutation, elem_of_remove_dups, elem_of_app.
  rewrite (firsts_elem _ _ r (ps_rep _ _ _ _ (sim_media _ _ Hs))) by (by intros [|? ?] [? ?]).
  rewrite (firsts_elem _ _ r (rs_refs _ _ (sim_refs _ _ Hs))) by (by intros [|? ?] [? ?]).
  trans (listed (repo_of s r) = true).
  - rewrite listed_iff by by apply state_ok_repo_of. split; (intros [Hd|Hd]; [left|right]).
    + destruct Hd as ([|d []] & [v Hv]); try done. exists d. simpl in Hv. apply fmap_Some in Hv as (m & Hm & _). by eexists.
    + destruct Hd as ([|j [|d []]] & [v Hv]); try done. exists j, d. simpl in Hv. apply fmap_Some in Hv as (m & Hm & _). by eexists.
    + destruct Hd as (d & Hd). exists [d]. simpl. by apply fmap_is_Some.
    + destruct Hd as (j & d & Hd). exists [j; d]. simpl. by apply fmap_is_Some.
  - rewrite list_elem_of_fmap. unfold repo_of. split.
    + destruct (s !! r) as [rs|] eqn:E; simpl; [|done]. intros Hl. exists (r, rs). split; [done|].
      rewrite list_elem_of_filter, iter_perm, elem_of_map_to_list. done.
    + intros ([? rs] & -> & Hin). rewrite list_elem_of_filter, iter_perm, elem_of_map_to_list in Hin.
      destruct Hin as [Hl E]. simpl in *. by rewrite E.
Qed.

(** *** The referrers of every subject *)

(** The scan of a table with two parts below the prefix. *)
Lemma scan2 d f r :
  rep d f → clean r → (∀ ps, is_Some (f ps) → length ps = 3) →
  ∃ e qs, prefix_successor (make_prefix [r]) = Some e ∧
    db_range (make_prefix [r]) e d = (λ q, (make_key [r; q.1; q.2], default [] (f [r; q.1; q.2]))) <$> qs ∧
    StronglySorted (λ p q, str_lt (make_key [r; p.1; p.2]) (make_key [r; q.1; q.2])) qs ∧
    (∀ q, q ∈ qs → clean q.1 ∧ clean q.2) ∧ (∀ q, q ∈ qs ↔ is_Some (f [r; q.1; q.2])).
Proof.
  intros Hd Hr Hlen. destruct (scan_bounds [r] None ltac:(done)) as (e & He & Hb). cbn [page_start] in Hb.
  set (key q := make_key [r; q.1; q.2]). set (g q := (key q, default [] (f [r; q.1; q.2]))).
  destruct (fmap_cover (λ q, is_Some (f [r; q.1; q.2])) g (db_range (make_prefix [r]) e d)) as (qs & Hqs & Hin).
  { intros [k v] [Hget Hk]%db_range_elem. apply Hb in Hk as [t ->]. apply (rep_get _ _ Hd) in Hget as (ps & E & Hps).
    pose proof (rep_clean _ _ Hd ps (mk_is_Some _ _ Hps)) as Hc. pose proof (Hlen ps (mk_is_Some _ _ Hps)) as Hl.
    assert (ps = [r] ++ split_key t) as Eps by (rewrite <-(split_make ps Hc), <-E, split_make_app; by auto).
    rewrite Eps in Hl. destruct (split_key t) as [|j [|y []]]; simpl in Hl; try lia.
    exists (j, y). unfold g, key. simpl. rewrite Eps in E, Hps. simpl in E, Hps. rewrite E, Hps. by eauto. }
  rewrite Forall_forall in Hin. exists e, qs. split_and!; [done|done|..].
  - pose proof (db_range_sorted (make_prefix [r]) e d) as Hs. rewrite Hqs in Hs.
    eapply StronglySorted_fmap_inv; [|exact Hs]. done.
  - intros q Hq%Hin%(rep_clean _ _ Hd). by inv Hq; repeat (match goal with H : Forall _ (_ :: _) |- _ => inv H end).
  - intros q. split; [by apply Hin|]. intros [v Hv].
    assert ((key q, v) ∈ db_range (make_prefix [r]) e d) as Hr'.
    { apply db_range_elem. split; [apply (rep_get _ _ Hd); by eauto|]. unfold key.
      destruct (proj2 (between_prefix r (make_key [r; q.1; q.2]))) as [H1 H2]; [by eexists|].
      unfold make_prefix in He |- *. change (make_key [r]) with (r +:+ String NUL "") in *.
      rewrite prefix_successor_snoc in He. by simplify_eq. }
    rewrite Hqs in Hr'. apply list_elem_of_fmap in Hr' as (q' & E & Hq'). injection E as E _.
    apply make_key_inj in E; [destruct q, q'; by simplify_eq/=|by eapply (rep_clean _ _ Hd)|eapply (rep_clean _ _ Hd), Hin, Hq'].
Qed.

Lemma snapshot_loop_lookup r f acc qs j :
  clean r → (∀ q, q ∈ qs → clean q.1 ∧ clean q.2) →
  let mine := (λ q : string * string, (q.2, default [] (f [r; q.1; q.2]))) <$> filter (λ q, q.1 = j) qs in
  snapshot_loop r acc ((λ q, (make_key [r; q.1; q.2], default [] (f [r; q.1; q.2]))) <$> qs) !! j =
  if decide (mine = []) then acc !! j else Some (default [] (acc !! j) ++ mine).
Proof.
  intros Hr Hc. revert acc. induction qs as [|[i d] qs IH]; intros acc; simpl; [done|].
  destruct (Hc (i, d)) as [[Hi1 Hi2] [Hd1 Hd2]]; [by left|]. cbn [fst snd] in *.
  rewrite split_make by (repeat constructor; done || apply Hr). rewrite decide_True by done.
  rewrite !lossy_clean by done. rewrite IH by (intros q Hq; apply Hc; by right). unfold push_referrer. rewrite filter_cons. cbn [fst snd].
  destruct (decide (i = j)) as [->|Hne].
  - rewrite lookup_insert_eq, fmap_cons. cbn [fst snd default id]. rewrite (decide_False (P := _ :: _ = [])) by done.
    case_decide as E; [by rewrite E|]. by rewrite <-app_assoc.
  - by rewrite lookup_insert_ne.
Qed.

Definition sr_entries (sr : SubjectReferrers) : list (string * bytes) := (λ '(d, (_, b)), (d, b)) <$> btree (by_digest sr).

Lemma sr_entries_keys sr : sr_entries sr = (λ y, (y, default [] (snd <$> by_digest sr !! y))) <$> (btree (by_digest sr)).*1.
Proof.
  apply (entries_of_keys _ (λ y, default [] (snd <$> by_digest sr !! y))). intros k [t b] Hk%btree_elem. by rewrite Hk.
Qed.

Lemma subject_entries s r j qs :
  StronglySorted (λ p q, str_lt (make_key [r; p.1; p.2]) (make_key [r; q.1; q.2])) qs →
  (∀ q, q ∈ qs → clean q.1 ∧ clean q.2) → (∀ q, q ∈ qs ↔ is_Some (referrer_of s r q.1 q.2)) →
  (λ q : string * string, (q.2, default [] (ref_view (referrer_of s) [r; q.1; q.2]))) <$> filter (λ q, q.1 = j) qs =
  sr_entries (subject_refs s r j).
Proof.
  intros Hs Hc Hin. rewrite sr_entries_keys.
  destruct (fmap_cover (λ y, (j, y) ∈ qs) (pair j) (filter (λ q, q.1 = j) qs)) as (ys & Hys & Hall).
  { intros [i y] [Hi Hq]%list_elem_of_filter. simpl in Hi. subst. by exists y. }
  rewrite Forall_forall in Hall.
  assert (StronglySorted (λ a b : string, String.le a b ∧ a ≠ b) ys) as [Hso Hnd]%StronglySorted_strict.
  { apply (StronglySorted_filter _ (λ q, q.1 = j)) in Hs. rewrite Hys in Hs.
    eapply StronglySorted_fmap_inv; [|exact Hs]. intros a b Ha _. apply (key_order [r; j]), (Hc (j, a) (Hall a Ha)). }
  rewrite Hys, <-list_fmap_compose.
  assert ((btree (by_digest (subject_refs s r j))).*1 = ys) as ->.
  { rewrite <-(after_None (btree _)). apply after_btree_keys; [done..|]. intros y.
    assert (y ∈ ys ↔ (j, y) ∈ qs) as ->.
    { split; [by apply Hall|]. intros Hq. assert ((j, y) ∈ pair j <$> ys) as (z & [= ->] & ?)%list_elem_of_fmap; [|done].
      rewrite <-Hys. by apply list_elem_of_filter. }
    rewrite Hin. simpl. rewrite referrer_of_subject, fmap_is_Some. naive_solver. }
  apply list_fmap_ext. intros _ y _. simpl. by rewrite referrer_of_subject.
Qed.

Lemma sr_entries_nil sr : sr_entries sr = [] ↔ by_digest sr = ∅.
Proof.
  split.
  - intros E. destruct (decide (by_digest sr = ∅)) as [|Hn]; [done|]. apply map_nonempty in Hn as [k [[t b] Hk]].
    assert ((k, b) ∈ sr_entries sr) as Hin; [|rewrite E in Hin; by apply not_elem_of_nil in Hin].
    apply list_elem_of_fmap. exists (k, (t, b)). by rewrite btree_elem.
  - intros E. unfold sr_entries, btree. by rewrite E, map_to_list_empty.
Qed.

Lemma referrers_snapshot_elem s r j l :
  (j, l) ∈ referrers_snapshot s r ↔
  ∃ sr, referrers (repo_of s r) !! j = Some sr ∧ by_digest sr ≠ ∅ ∧ l = sr_entries sr.
Proof.
  unfold referrers_snapshot, repo_of. destruct (s !! r) as [rs|]; simpl.
  - rewrite list_elem_of_fmap. split.
    + intros ([k sr] & [= -> ->] & [Hne Hin]%list_elem_of_filter). rewrite iter_perm, elem_of_map_to_list in Hin. by eauto.
    + intros (sr & Hj & Hne & ->). exists (j, sr). split; [done|]. by rewrite list_elem_of_filter, iter_perm, elem_of_map_to_list.
  - split; [by intros ?%not_elem_of_nil|]. intros (sr & Hj & _). by rewrite lookup_empty in Hj.
Qed.

Lemma referrers_snapshot_keys s r : NoDup (referrers_snapshot s r).*1.
Proof.
  unfold referrers_snapshot. destruct (s !! r) as [rs|]; [|constructor]. rewrite <-list_fmap_compose.
  rewrite (list_fmap_ext _ fst) by (by intros _ [] _). apply NoDup_filter_keys. rewrite iter_perm. apply NoDup_fst_map_to_list.
Qed.

Lemma referrers_snapshot_NoDup s r : NoDup (referrers_snapshot s r).
Proof. eapply NoDup_fmap_1, referrers_snapshot_keys. Qed.

Lemma referrers_snapshot_sim s x r :
  sim s x → state_ok s → clean r → lmdb_referrers_snapshot x r ≡ₚ referrers_snapshot s r.
Proof.
  intros Hs Hok Hr. pose proof (rs_refs _ _ (sim_refs _ _ Hs)) as Hrep. unfold lmdb_referrers_snapshot.
  destruct (scan2 _ _ r Hrep Hr) as (e & qs & He & Hqs & Hso & Hc & Hin); [by intros [|? [|? [|? []]]] [? ?]|]. rewrite He, Hqs.
  set (G := snapshot_loop r ∅ _).
  assert (∀ j, G !! j = if decide (sr_entries (subject_refs s r j) = []) then None else Some (sr_entries (subject_refs s r j))) as HG.
  { intros j. unfold G. rewrite snapshot_loop_lookup by done. rewrite (subject_entries s r j qs) by done. by rewrite lookup_empty. }
  apply NoDup_Permutation; [eapply NoDup_fmap_1, btree_keys_NoDup|apply referrers_snapshot_NoDup|].
  intros [j l]. rewrite btree_elem, HG, referrers_snapshot_elem. unfold subject_refs.
  destruct (referrers (repo_of s r) !! j) as [sr|] eqn:E; cbn [default id].
  - case_decide as He0; [apply sr_entries_nil in He0|rewrite sr_entries_nil in He0]; naive_solver.
  - rewrite decide_True by (by apply sr_entries_nil). naive_solver.
Qed.

(** ** Agreement *)

(** Every query of the trait gives the same answer; where the index reads a
    [HashMap] or a list, up to order. *)
Record agrees s x : Prop := {
  ag_resolve_tag : ∀ r t, clean r → clean t → lmdb_resolve_tag x r t = resolve_tag s r t;
  ag_media_type : ∀ r d, clean r → clean d → lmdb_manifest_media_type x r d = manifest_media_type s r d;
  ag_tags_page : ∀ r last limit, clean r → lmdb_tags_page x r last limit = tags_page s r last limit;
  ag_referrers_page : ∀ r j atype last limit, clean r → clean j → (∀ t, atype = Some t → clean t) →
    lmdb_referrers_page x r j atype last limit = referrers_page s r j atype last limit;
  ag_has_referrer : ∀ r j d, clean r → clean j → clean d → lmdb_has_referrer x r j d = has_referrer s r j d;
  ag_backrefs : ∀ r b, clean r → clean b → lmdb_backrefs x r b ≡ₚ get_backrefs s r b;
  ag_checksum : ∀ r d, clean r → clean d → lmdb_checksum x r d = checksum s r d;
  ag_repos : lmdb_repos x = repos s;
  ag_manifests : ∀ r, clean r → lmdb_manifests x r ≡ₚ manifests s r;
  ag_tags_snapshot : ∀ r, clean r → lmdb_tags_snapshot x r = tags_snapshot s r;
  ag_referrers_snapshot : ∀ r, clean r → lmdb_referrers_snapshot x r ≡ₚ referrers_snapshot s r;
}.

Lemma sim_agrees s x : sim s x → state_ok s → agrees s x.
Proof.
  intros Hs Hok. split; auto using resolve_tag_sim, media_type_sim, tags_page_sim, referrers_page_sim, has_referrer_sim,
    backrefs_sim, checksum_sim, repos_sim, manifests_sim, tags_snapshot_sim, referrers_snapshot_sim.
Qed.

(** The mutations whose transaction committed. *)
Definition committed (evs : list Event) : list MetaOp :=
  omap (λ e, match ev_txn e with Ok _ => Some (ev_op e) | Err _ => None end) evs.

Lemma lmdb_run_committed evs x : lmdb_run x evs = foldl apply_op x (committed evs).
Proof.
  revert x. induction evs as [|e evs IH]; intros x; [done|]. unfold lmdb_run in *. simpl. rewrite IH. unfold apply_inner.
  by destruct (ev_txn e).
Qed.

End Queries.

(** ** LMDB as a map of byte strings *)

Module ToyHeed.

#[local] Instance str_lt_dec : RelDecision str_lt.
Proof. intros a b. unfold str_lt. apply _. Defined.

#[export] Instance toy : Heed := {|
  db := gmap string bytes;
  db_new := ∅;
  db_get k d := d !! k;
  db_put k v d := <[k := v]> d;
  db_delete k d := delete k d;
  db_range a b d := filter (λ p, String.le a p.1 ∧ str_lt p.1 b) (btree d);
  db_iter d := btree d;
  dupdb := gmap string (gset string);
  dup_new := ∅;
  dup_put k v d := <[k := default ∅ (d !! k) ∪ {[v]}]> d;
  dup_delete_one k v d := <[k := default ∅ (d !! k) ∖ {[v]}]> d;
  dup_delete k d := delete k d;
  dup_values k d := elements (default ∅ (d !! k));
  dup_iter d := map_to_list d ≫= λ '(k, vs), (λ v, (k, v)) <$> elements vs;
|}.

Lemma strict_keys {A} (l : list (string * A)) :
  StronglySorted key_le l → NoDup l.*1 → StronglySorted (λ x y, str_lt x.1 y.1) l.
Proof.
  induction 1 as [|[k v] l Hl IH Hk]; intros Hn; [constructor|]. rewrite fmap_cons in Hn. apply NoDup_cons in Hn as [Hnk Hn].
  constructor; [by apply IH|]. rewrite Forall_forall in Hk |- *. intros [k' v'] Hin. split; [by apply Hk|].
  intros E. simpl in E. subst. apply Hnk, list_elem_of_fmap. by exists (k', v').
Qed.

#[export] Instance toy_laws : HeedLaws.
Proof.
  split; simpl.
  - intros k. apply lookup_empty.
  - intros k v d k'. case_decide; [subst; by rewrite lookup_insert_eq|by rewrite lookup_insert_ne].
  - intros k d k'. case_decide; [subst; by rewrite lookup_delete_eq|by rewrite lookup_delete_ne].
  - intros a b d k v. rewrite list_elem_of_filter, btree_elem. simpl. naive_solver.
  - intros a b d. apply StronglySorted_filter, strict_keys; [apply btree_sorted|apply btree_keys_NoDup].
  - intros d k v. apply btree_elem.
  - intros k. rewrite lookup_empty. apply elements_empty.
  - intros k v d k' v'. rewrite !elem_of_elements. destruct (decide (k' = k)) as [->|].
    + rewrite lookup_insert_eq. simpl. set_solver.
    + rewrite lookup_insert_ne by done. naive_solver.
  - intros k v d k' v'. rewrite !elem_of_elements. destruct (decide (k' = k)) as [->|].
    + rewrite lookup_insert_eq. simpl. set_solver.
    + rewrite lookup_insert_ne by done. naive_solver.
  - intros k d k' v'. rewrite !elem_of_elements. destruct (decide (k' = k)) as [->|].
    + rewrite lookup_delete_eq. simpl. set_solver.
    + rewrite lookup_delete_ne by done. naive_solver.
  - intros k d. apply NoDup_elements.
  - intros d k v. rewrite list_elem_of_bind, elem_of_elements. split.
    + intros ([k' vs] & (v' & [= -> ->] & Hv)%list_elem_of_fmap & Hin%elem_of_map_to_list). rewrite Hin. by apply elem_of_elements.
    + intros Hv. destruct (d !! k) as [vs|] eqn:E; [|set_solver]. exists (k, vs). simpl in Hv.
      rewrite elem_of_map_to_list. split; [|done]. apply list_elem_of_fmap. exists v. by rewrite elem_of_elements.
Qed.
End ToyHeed.

(** Two tags of one manifest, moved and deleted, with one lost transaction. *)
Definition lmdb_evs : list Event :=
  [{| ev_op := PutManifest "a" "d1" "mt" (Some "v1") ["b1"] None; ev_durable := true; ev_txn := Ok tt; ev_sync := Ok tt |};
   {| ev_op := PutManifest "a" "d2" "mt" (Some "v2") ["b1"] None; ev_durable := true; ev_txn := Ok tt; ev_sync := Ok tt |};
   {| ev_op := DeleteManifest "a" "d2"; ev_durable := true; ev_txn := Err (IoError KOther "lmdb"); ev_sync := Ok tt |};
   {| ev_op := DeleteManifest "a" "d1"; ev_durable := false; ev_txn := Ok tt; ev_sync := Ok tt |}].

Lemma lmdb_evs_clean : Forall (@op_clean no_json) (committed lmdb_evs).
Proof.
  assert (∀ t0, ∀ t, Some t0 = Some t → clean t0 → clean t) as Ht by (by intros ? ? [= ->]).
  unfold committed, lmdb_evs. cbn [omap list_omap ev_txn ev_op]. repeat apply Forall_cons_2; simpl; split_and?; try done;
    try (intros t E; by apply (Ht _ _ E)); repeat constructor.
Qed.


(** ** Zero bytes in key parts *)

Definition nul_type : string := String "a" (String NUL "b").
Definition nul_json : SerdeJson :=
  {| from_slice _ := Some (JObject [("artifactType", JString nul_type)]); to_vec _ := [] |}.
Definition nul_ops : list MetaOp := [PutReferrer "r" "s" "d" []].

(** An artifact type with a zero byte (JSON can spell one) is split in the
    middle when its key is read back: the filtered listing loses the referrer
    that the in-memory index lists. *)
Theorem nul_type_hidden :
  @referrers_page (foldl (@apply_in_ram nul_json) ∅ nul_ops) "r" "s" (Some nul_type) None 5 = Some (mkPage [("d", [])] false) ∧
  @lmdb_referrers_page ToyHeed.toy (foldl (@apply_op ToyHeed.toy nul_json) open_env nul_ops) "r" "s" (Some nul_type) None 5 =
    Some (mkPage [] false).
Proof. split; by vm_compute. Qed.
