(* ===== verification/MetaViews.v ===== *)
(** What a state of the index says, as facts, and that replaying a list of
    records that assert exactly the facts of a state rebuilds it, in whatever
    order. Both engines export such lists. *)

From S2P Require Import Prelude RustStr Json Errors Digest Metadata MetaExport MetaLog Lmdb LmdbFacts LmdbRefines.

#[local] Arguments make_key : simpl never.

Section Views.
Context {serde : SerdeJson}.
Implicit Types (s : State) (op : MetaOp).

(** Every fact of [s] is one of [s']. *)
Record le_view s s' : Prop := {
  le_tag : ∀ r t v, tag_of s r t = Some v → tag_of s' r t = Some v;
  le_media : ∀ r d v, media_of s r d = Some v → media_of s' r d = Some v;
  le_checksum : ∀ r d v, checksum_of s r d = Some v → checksum_of s' r d = Some v;
  le_referrer : ∀ r j d v, referrer_of s r j d = Some v → referrer_of s' r j d = Some v;
  le_refers : ∀ r b m, refers s r b m → refers s' r b m;
}.

#[export] Instance le_view_preorder : PreOrder le_view.
Proof. split; [by split|]. intros s1 s2 s3 [? ? ? ? ?] [? ? ? ? ?]. split; eauto. Qed.

Definition view_equiv s s' : Prop := le_view s s' ∧ le_view s' s.

#[export] Instance view_equiv_equivalence : Equivalence view_equiv.
Proof.
  split; [by split|by intros s s' [? ?]|]. intros s1 s2 s3 [H1 H2] [H3 H4]. split; by etrans.
Qed.

Lemma empty_le s : le_view ∅ s.
Proof.
  split; intros *; unfold tag_of, media_of, checksum_of, referrer_of, refers; rewrite repo_of_empty; simpl; rewrite lookup_empty; try done.
  simpl. set_solver.
Qed.

(** A record that states facts of [s]. *)
Definition asserts s op : Prop :=
  match op with
  | PutManifest r d m tag refs referrer =>
      refs = [] ∧ referrer = None ∧ media_of s r d = Some m ∧ ∀ t, tag = Some t → tag_of s r t = Some (d, m)
  | PutBackrefs r m bs => ∀ b, b ∈ bs → refers s r b m
  | PutReferrer r j d b => referrer_of s r j d = Some b
  | PutChecksum r d crc size => checksum_of s r d = Some {| ck_crc32c := crc; ck_size := size |}
  | DeleteManifest _ _ | DeleteBlob _ _ => False
  end.

Lemma asserts_mono s s' op : le_view s s' → asserts s op → asserts s' op.
Proof.
  intros [H1 H2 H3 H4 H5]. destruct op; simpl; eauto. intros (-> & -> & Hm & Ht). split_and!; eauto.
Qed.

Lemma set2_le {A} r t (v : A) (T T' : string → string → option A) :
  (∀ r t v, T r t = Some v → T' r t = Some v) → T' r t = Some v →
  (∀ r' t' w, T r' t' = Some w → set2 r t (Some v) T r' t' = Some w) ∧
  (∀ r' t' w, set2 r t (Some v) T r' t' = Some w → T' r' t' = Some w).
Proof.
  intros HT Hv. unfold set2. split; intros r' t' w; (case_decide as E; [destruct E as [-> ->]|by eauto]).
  - intros Hw%HT. congruence.
  - by intros [= <-].
Qed.

Lemma set3_le r j d v (R R' : string → string → string → option bytes) :
  (∀ r j d v, R r j d = Some v → R' r j d = Some v) → R' r j d = Some v →
  (∀ r' j' d' w, R r' j' d' = Some w → set3 r j d (Some v) R r' j' d' = Some w) ∧
  (∀ r' j' d' w, set3 r j d (Some v) R r' j' d' = Some w → R' r' j' d' = Some w).
Proof.
  intros HR Hv. unfold set3. split; intros r' j' d' w; (case_decide as E; [destruct E as (-> & -> & ->)|by eauto]).
  - intros Hw%HR. congruence.
  - by intros [= <-].
Qed.

(** *** One record *)

Lemma tag_of_same s r f : (∀ rs, tags (f rs) = tags rs) → ∀ r' t, tag_of (with_repo s r f) r' t = tag_of s r' t.
Proof. intros Hf *. unfold tag_of. by rewrite (part_same tags). Qed.
Lemma media_of_same s r f : (∀ rs, media_types (f rs) = media_types rs) → ∀ r' d, media_of (with_repo s r f) r' d = media_of s r' d.
Proof. intros Hf *. unfold media_of. by rewrite (part_same media_types). Qed.
Lemma checksum_of_same s r f : (∀ rs, checksums (f rs) = checksums rs) → ∀ r' d, checksum_of (with_repo s r f) r' d = checksum_of s r' d.
Proof. intros Hf *. unfold checksum_of. by rewrite (part_same checksums). Qed.
Lemma refers_same s r f : (∀ rs, backrefs (f rs) = backrefs rs) → ∀ r' b m, refers (with_repo s r f) r' b m ↔ refers s r' b m.
Proof. intros Hf *. unfold refers. by rewrite (part_same backrefs). Qed.

Lemma same2 {A} (T T' U : string → string → option A) :
  (∀ r t, T' r t = T r t) → (∀ r t v, T r t = Some v → U r t = Some v) →
  (∀ r t v, T r t = Some v → T' r t = Some v) ∧ (∀ r t v, T' r t = Some v → U r t = Some v).
Proof. intros E HT. split; intros *; rewrite E; auto. Qed.
Lemma same3 (T T' U : string → string → string → option bytes) :
  (∀ r j d, T r j d = T' r j d) → (∀ r j d v, T r j d = Some v → U r j d = Some v) →
  (∀ r j d v, T r j d = Some v → T' r j d = Some v) ∧ (∀ r j d v, T' r j d = Some v → U r j d = Some v).
Proof. intros E HT. split; intros *; rewrite <-E; auto. Qed.
Lemma same_prop (T T' U : string → string → string → Prop) :
  (∀ r b m, T' r b m ↔ T r b m) → (∀ r b m, T r b m → U r b m) →
  (∀ r b m, T r b m → T' r b m) ∧ (∀ r b m, T' r b m → U r b m).
Proof. intros E HT. split; intros *; rewrite E; auto. Qed.

(** A state whose parts are those of [acc] or between those of [acc] and [s]. *)
Lemma between acc a' s :
  (∀ r t v, tag_of acc r t = Some v → tag_of a' r t = Some v) ∧ (∀ r t v, tag_of a' r t = Some v → tag_of s r t = Some v) →
  (∀ r d v, media_of acc r d = Some v → media_of a' r d = Some v) ∧ (∀ r d v, media_of a' r d = Some v → media_of s r d = Some v) →
  (∀ r d v, checksum_of acc r d = Some v → checksum_of a' r d = Some v) ∧ (∀ r d v, checksum_of a' r d = Some v → checksum_of s r d = Some v) →
  (∀ r j d v, referrer_of acc r j d = Some v → referrer_of a' r j d = Some v) ∧ (∀ r j d v, referrer_of a' r j d = Some v → referrer_of s r j d = Some v) →
  (∀ r b m, refers acc r b m → refers a' r b m) ∧ (∀ r b m, refers a' r b m → refers s r b m) →
  le_view acc a' ∧ le_view a' s.
Proof. intros [] [] [] [] []. split; by split. Qed.

Lemma manifest_step acc s r d m tag :
  le_view acc s → asserts s (PutManifest r d m tag [] None) →
  let a' := with_repo acc r (rs_put_manifest d m tag) in
  (le_view acc a' ∧ le_view a' s) ∧ asserts a' (PutManifest r d m tag [] None).
Proof.
  intros [H1 H2 H3 H4 H5] (_ & _ & Hm & Ht) a'.
  assert (∀ r' t', tag_of a' r' t' = match tag with Some t => set2 r t (Some (d, m)) (tag_of acc) | None => tag_of acc end r' t') as Et.
  { intros *. symmetry. apply tag_of_put. }
  assert (∀ r' d', media_of a' r' d' = set2 r d (Some m) (media_of acc) r' d') as Em.
  { intros *. symmetry. apply media_of_put. }
  split.
  - apply between.
    + destruct tag as [t|]; [|by apply same2]. destruct (set2_le r t (d, m) (tag_of acc) (tag_of s)) as [L1 L2]; [done|by apply Ht|].
      split; intros *; rewrite Et; by auto.
    + destruct (set2_le r d m (media_of acc) (media_of s)) as [L1 L2]; [done..|]. split; intros *; rewrite Em; by auto.
    + apply same2; [by apply checksum_of_same|done].
    + apply same3; [by apply referrer_of_same|done].
    + apply same_prop; [by apply refers_same|done].
  - split_and!; [done..|by rewrite Em, set2_eq|]. intros t ->. by rewrite Et, set2_eq.
Qed.

Lemma assert_step acc s op :
  le_view acc s → asserts s op →
  (le_view acc (apply_in_ram acc op) ∧ le_view (apply_in_ram acc op) s) ∧ asserts (apply_in_ram acc op) op.
Proof.
  intros Hle. pose proof Hle as [H1 H2 H3 H4 H5].
  destruct op as [r d m tag refs referrer|r m bs|r d|r j d b|r d crc size|r d]; [|intros Ha|done|intros Ha|intros Ha|done].
  - intros Ha. pose proof Ha as (-> & -> & _ & _). simpl apply_in_ram.
    assert (add_backrefs (with_repo acc r (rs_put_manifest d m tag)) r d [] = with_repo acc r (rs_put_manifest d m tag)) as ->.
    { unfold add_backrefs. rewrite with_repo_twice. done. }
    by apply manifest_step.
  - simpl apply_in_ram. split.
    + apply between; unfold add_backrefs.
      * apply same2; [by apply tag_of_same|done].
      * apply same2; [by apply media_of_same|done].
      * apply same2; [by apply checksum_of_same|done].
      * apply same3; [by apply referrer_of_same|done].
      * fold (add_backrefs acc r m bs). split; intros r' b m'; rewrite <-refers_add; [by auto|].
        intros [?|(-> & -> & Hb)]; [by auto|by apply Ha].
    + intros b Hb. apply refers_add. by auto.
  - simpl apply_in_ram. unfold add_referrer. split.
    + apply between.
      * apply same2; [by apply tag_of_same|done].
      * apply same2; [by apply media_of_same|done].
      * apply same2; [by apply checksum_of_same|done].
      * destruct (set3_le r j d b (referrer_of acc) (referrer_of s)) as [L1 L2]; [done..|]. split; intros *; rewrite <-referrer_of_add; by auto.
      * apply same_prop; [by apply refers_same|done].
    + simpl. by rewrite <-referrer_of_add, set3_eq.
  - simpl apply_in_ram. split.
    + apply between.
      * apply same2; [by apply tag_of_same|done].
      * apply same2; [by apply media_of_same|done].
      * destruct (set2_le r d {| ck_crc32c := crc; ck_size := size |} (checksum_of acc) (checksum_of s)) as [L1 L2]; [done..|].
        split; intros *; rewrite <-checksum_of_put; by auto.
      * apply same3; [by apply referrer_of_same|done].
      * apply same_prop; [by apply refers_same|done].
    + simpl. by rewrite <-checksum_of_put, set2_eq.
Qed.

(** *** A list of records *)

Lemma replay_below acc s ops :
  le_view acc s → Forall (asserts s) ops →
  let res := foldl apply_in_ram acc ops in le_view acc res ∧ le_view res s ∧ Forall (asserts res) ops.
Proof.
  intros Hle Hops. revert acc Hle. induction Hops as [|op ops Hop Hops IH]; intros acc Hle; simpl; [by auto|].
  destruct (assert_step acc s op Hle Hop) as [[H1 H2] H3]. destruct (IH _ H2) as (H4 & H5 & H6).
  split_and!; [by etrans|done|]. constructor; [|done]. by eapply asserts_mono.
Qed.

(** The records state every fact of [s]. *)
Record covers s (ops : list MetaOp) : Prop := {
  cov_tag : ∀ r t d m, tag_of s r t = Some (d, m) → PutManifest r d m (Some t) [] None ∈ ops;
  cov_media : ∀ r d m, media_of s r d = Some m → ∃ tag, PutManifest r d m tag [] None ∈ ops;
  cov_checksum : ∀ r d c, checksum_of s r d = Some c → PutChecksum r d (ck_crc32c c) (ck_size c) ∈ ops;
  cov_referrer : ∀ r j d b, referrer_of s r j d = Some b → PutReferrer r j d b ∈ ops;
  cov_refers : ∀ r b m, refers s r b m → PutBackrefs r m [b] ∈ ops;
}.

Lemma replay_exact s0 s ops :
  le_view s0 s → Forall (asserts s) ops → covers s ops → view_equiv (foldl apply_in_ram s0 ops) s.
Proof.
  intros H0 Hops [C1 C2 C3 C4 C5]. destruct (replay_below s0 s ops H0 Hops) as (_ & Hle & Hall).
  rewrite Forall_forall in Hall. split; [done|]. split.
  - intros r t [d m] Ht%C1%Hall. apply Ht. done.
  - intros r d m Hm. destruct (C2 r d m Hm) as [tag Hin]. apply Hall in Hin as (_ & _ & ? & _). done.
  - intros r d [crc size] Hc%C3%Hall. done.
  - intros r j d b Hb%C4%Hall. done.
  - intros r b m Hr%C5%Hall. simpl in Hr. apply Hr. set_solver.
Qed.

Definition coherent s : Prop := ∀ r t d m, tag_of s r t = Some (d, m) → media_of s r d = Some m.

(** ** The export of the index *)

Lemma repo_of_Some s r rs : s !! r = Some rs → repo_of s r = rs.
Proof. unfold repo_of. by intros ->. Qed.

Lemma views_None s r : s !! r = None → repo_of s r = rs_default.
Proof. unfold repo_of. by intros ->. Qed.

Context {hash : HashIter}.

Lemma in_repo s (f : string * RepoState → list MetaOp) op :
  op ∈ (iter s ≫= f) ↔ ∃ r rs, s !! r = Some rs ∧ op ∈ f (r, rs).
Proof.
  rewrite list_elem_of_bind. split.
  - intros ([r rs] & Hin & Hr%iter_elem). by exists r, rs.
  - intros (r & rs & Hr%iter_elem & Hin). by exists (r, rs).
Qed.

Lemma view_repo {A} s r (f : RepoState → option A) v : f (repo_of s r) = Some v → f rs_default = None → ∃ rs, s !! r = Some rs ∧ f rs = Some v.
Proof. unfold repo_of. destruct (s !! r) as [rs|]; simpl; [by eauto|congruence]. Qed.

(** The records an export of [s] consists of. *)
Definition export_fact s op : Prop :=
  (∃ r t d m, tag_of s r t = Some (d, m) ∧ op = PutManifest r d m (Some t) [] None) ∨
  (∃ r d m, media_of s r d = Some m ∧ (∀ t m', tag_of s r t ≠ Some (d, m')) ∧ op = PutManifest r d m None [] None) ∨
  (∃ r b m, refers s r b m ∧ op = PutBackrefs r m [b]) ∨
  (∃ r j d b, referrer_of s r j d = Some b ∧ op = PutReferrer r j d b) ∨
  (∃ r d c, checksum_of s r d = Some c ∧ op = PutChecksum r d (ck_crc32c c) (ck_size c)).

Lemma export_fact_le s s' op : view_equiv s s' → export_fact s op → export_fact s' op.
Proof.
  intros [[H1 H2 H3 H4 H5] [G1 _ _ _ _]] [(r & t & d & m & Ht & ->)|[(r & d & m & Hm & Hn & ->)|[(r & b & m & Hr & ->)|[(r & j & d & b & Hb & ->)|(r & d & c & Hc & ->)]]]].
  - left. exists r, t, d, m. auto.
  - right. left. exists r, d, m. split_and!; auto. intros t m' Ht%G1. by eapply Hn.
  - do 2 right. left. exists r, b, m. auto.
  - do 3 right. left. exists r, j, d, b. auto.
  - do 4 right. exists r, d, c. auto.
Qed.

Lemma export_fact_asserts s op : coherent s → export_fact s op → asserts s op.
Proof.
  intros Hco [(r & t & d & m & Ht & ->)|[(r & d & m & Hm & _ & ->)|[(r & b & m & Hr & ->)|[(r & j & d & b & Hb & ->)|(r & d & [crc size] & Hc & ->)]]]].
  - split_and!; [done..|by eapply Hco|by intros ? [= <-]].
  - split_and!; [done..|by intros ? [=]].
  - intros b' Hb'. by assert (b' = b) as -> by set_solver.
  - done.
  - done.
Qed.

(** Whether a manifest has a tag can be decided. *)
Lemma tag_dec s r d : (∃ t m, tag_of s r t = Some (d, m)) ∨ (∀ t m, tag_of s r t ≠ Some (d, m)).
Proof.
  destruct (decide (Exists (λ p, p.2.1 = d) (btree (tags (repo_of s r))))) as [He|Hn].
  - left. apply Exists_exists in He as ([t [d' m]] & Hin%btree_elem & <-). by exists t, m.
  - right. intros t m Ht. apply Hn, Exists_exists. exists (t, (d, m)). by rewrite btree_elem.
Qed.

Lemma export_fact_covers s ops : coherent s → (∀ op, op ∈ ops ↔ export_fact s op) → covers s ops.
Proof.
  intros Hco Hops. split; intros *; rewrite ?Hops; unfold export_fact.
  - intros Ht. left. by eauto 10.
  - intros Hm. destruct (tag_dec s r d) as [(t & m' & Ht)|Hn].
    + pose proof (Hco _ _ _ _ Ht). assert (m' = m) as -> by congruence. exists (Some t). apply Hops. left. by eauto 10.
    + exists None. apply Hops. right. left. by eauto 10.
  - intros Hc. do 4 right. by eauto 10.
  - intros Hb. do 3 right. left. by eauto 10.
  - intros Hr. do 2 right. left. by eauto 10.
Qed.

(** Replaying the records of an export rebuilds the state, also over a part of
    it. *)
Lemma replay_export s0 s ops :
  le_view s0 s → coherent s → (∀ op, op ∈ ops ↔ export_fact s op) → view_equiv (foldl apply_in_ram s0 ops) s.
Proof.
  intros H0 Hco Hops. apply replay_exact; [done| |by apply export_fact_covers].
  apply Forall_forall. intros op Hop%Hops. by apply export_fact_asserts.
Qed.

Lemma or_iff_cong (A B C D : Prop) : (A ↔ B) → (C ↔ D) → (A ∨ C) ↔ (B ∨ D).
Proof. tauto. Qed.

Lemma export_state_elem s op : op ∈ export_state s ↔ export_fact s op.
Proof.
  unfold export_state. rewrite !elem_of_app, !in_repo. unfold export_fact. repeat apply or_iff_cong.
  - split.
    + intros (r & rs & Hr & Hin). apply list_elem_of_fmap in Hin as ([t [d m]] & -> & Ht%btree_elem). simpl in *. exists r, t, d, m.
      split; [|done]. unfold tag_of. by rewrite (repo_of_Some s r rs Hr).
    + intros (r & t & d & m & (rs & Hr & Ht)%(view_repo s r (λ rs, tags rs !! t)) & ->); [|done]. exists r, rs. split; [done|].
      apply list_elem_of_fmap. exists (t, (d, m)). by rewrite btree_elem.
  - assert (∀ r d, (r, d) ∉ tagged s ↔ ∀ t m', tag_of s r t ≠ Some (d, m')) as Htg.
    { intros r d. rewrite tagged_elem. setoid_rewrite resolve_tag_repo. unfold tag_of. naive_solver. }
    split.
    + intros (r & rs & Hr & Hin). apply list_elem_of_fmap in Hin as ([d m] & -> & [Hn Hm%iter_elem]%list_elem_of_filter). simpl in *.
      exists r, d, m. split_and!; [|by apply Htg|done]. unfold media_of. by rewrite (repo_of_Some s r rs Hr).
    + intros (r & d & m & (rs & Hr & Hm)%(view_repo s r (λ rs, media_types rs !! d)) & Hn & ->); [|done]. exists r, rs. split; [done|].
      apply list_elem_of_fmap. exists (d, m). split; [done|]. apply list_elem_of_filter. rewrite iter_elem. split; [by apply Htg|done].
  - split.
    + intros (r & rs & Hr & Hin). apply list_elem_of_bind in Hin as ([b ms] & Hin & Hb%iter_elem). simpl in *.
      apply list_elem_of_fmap in Hin as (m & -> & Hm). exists r, b, m. split; [|done]. unfold refers. by rewrite (repo_of_Some s r rs Hr), Hb.
    + intros (r & b & m & HB & ->). unfold refers, repo_of in HB. destruct (s !! r) as [rs|] eqn:Er; simpl in HB; [|by apply not_elem_of_nil in HB].
      destruct (backrefs rs !! b) as [ms|] eqn:Eb; simpl in HB; [|by apply not_elem_of_nil in HB].
      exists r, rs. split; [done|]. apply list_elem_of_bind. exists (b, ms). rewrite iter_elem. split; [|done]. apply list_elem_of_fmap. by exists m.
  - split.
    + intros (r & rs & Hr & Hin). apply list_elem_of_bind in Hin as ([j sr] & Hin & Hj%iter_elem). simpl in *.
      apply list_elem_of_fmap in Hin as ([d [t b]] & -> & Hd%btree_elem). exists r, j, d, b. split; [|done].
      unfold referrer_of. rewrite (repo_of_Some s r rs Hr), Hj. simpl. by rewrite Hd.
    + intros (r & j & d & b & (rs & Hr & Hb)%(view_repo s r (λ rs, snd <$> (referrers rs !! j ≫= λ sr, by_digest sr !! d))) & ->); [|done].
      apply fmap_Some in Hb as ([t b'] & (sr & Hj & Hd)%bind_Some & ->). exists r, rs. split; [done|].
      apply list_elem_of_bind. exists (j, sr). rewrite iter_elem. split; [|done].
      apply list_elem_of_fmap. exists (d, (t, b')). by rewrite btree_elem.
  - split.
    + intros (r & rs & Hr & Hin). apply list_elem_of_fmap in Hin as ([d c] & -> & Hd%iter_elem). simpl in *.
      exists r, d, c. split; [|done]. unfold checksum_of. by rewrite (repo_of_Some s r rs Hr).
    + intros (r & d & c & (rs & Hr & Hc)%(view_repo s r (λ rs, checksums rs !! d)) & ->); [|done].
      exists r, rs. split; [done|]. apply list_elem_of_fmap. exists (d, c). by rewrite iter_elem.
Qed.
End Views.

(** ** The export of the LMDB engine *)

Section LmdbExport.
Context {heed : Heed} {heed_laws : HeedLaws} {serde : SerdeJson}.
Implicit Types (s : State) (x : Dbs).

Lemma lossless_clean p : clean p → lossless p = p.
Proof. intros [_ Hu]. unfold lossless. by rewrite utf8_str_clean. Qed.

(** What a pass over a table collects. *)
Lemma omap_table {B} d f (g : string * bytes → option B) b :
  rep d f → b ∈ omap g (db_iter d) ↔ ∃ ps v, f ps = Some v ∧ Forall clean ps ∧ g (make_key ps, v) = Some b.
Proof.
  intros Hd. rewrite list_elem_of_omap. split.
  - intros ([k v] & Hin%db_iter_elem & Hg). apply (rep_get _ _ Hd) in Hin as (ps & -> & Hps). exists ps, v.
    split_and!; [done|by eapply (rep_clean _ _ Hd)|done].
  - intros (ps & v & Hps & _ & Hg). exists (make_key ps, v). rewrite db_iter_elem, (rep_get _ _ Hd). by eauto.
Qed.

Lemma export_tags_elem s x p op :
  sim s x → (p, op) ∈ omap export_tag (db_iter (I_TAGS x)) ↔
  ∃ r t d m, tag_of s r t = Some (d, m) ∧ p = (r, d) ∧ op = PutManifest r d m (Some t) [] None.
Proof.
  intros Hs. pose proof (sim_tags _ _ Hs) as Hts. rewrite (omap_table _ _ _ _ (ts_tags _ _ Hts)).
  assert (∀ r t d m, tag_of s r t = Some (d, m) →
    export_tag (make_key [r; t], as_bytes d ++ NUL :: as_bytes m) = Some ((r, d), PutManifest r d m (Some t) [] None)) as He.
  { intros r t d m Ht. destruct (tag_clean _ _ _ _ _ _ Hts Ht) as (Hr & [Hd Hu] & Hct). unfold export_tag. cbn [fst snd].
    rewrite split_make by auto. rewrite split_nul_clean by done. simpl. rewrite !lossless_clean by done.
    rewrite (utf8_str_clean d Hu), utf8_str_clean by (by eapply (ts_utf8 _ _ Hts)). done. }
  split.
  - intros (ps & v & Hps & _ & Hg). destruct ps as [|r [|t []]]; try done. simpl in Hps.
    apply fmap_Some in Hps as ([d m] & Ht & ->). simpl in Hg. rewrite (He r t d m Ht) in Hg. exists r, t, d, m. by simplify_eq.
  - intros (r & t & d & m & Ht & -> & ->). exists [r; t], (as_bytes d ++ NUL :: as_bytes m). simpl. rewrite Ht.
    destruct (tag_clean _ _ _ _ _ _ Hts Ht) as (? & ? & ?). split_and!; [done|by auto|by apply He].
Qed.

Lemma export_media_elem s x op (tg : list (string * string)) :
  sim s x → op ∈ omap (export_media tg) (db_iter (I_MEDIA_TYPES x)) ↔
  ∃ r d m, media_of s r d = Some m ∧ (r, d) ∉ tg ∧ op = PutManifest r d m None [] None.
Proof.
  intros Hs. destruct (sim_media _ _ Hs) as [Hrep Hu]. rewrite (omap_table _ _ _ _ Hrep).
  assert (∀ r d m, Forall clean [r; d] → media_of s r d = Some m →
    export_media tg (make_key [r; d], as_bytes m) = if decide ((r, d) ∈ tg) then None else Some (PutManifest r d m None [] None)) as He.
  { intros r d m Hc Hm. pose proof Hc as [Hr Hd]%Forall_cons. apply Forall_cons in Hd as [Hd _]. unfold export_media. cbn [fst snd].
    rewrite split_make by done. rewrite !lossless_clean by done. by rewrite utf8_str_clean by (by eapply Hu). }
  split.
  - intros (ps & v & Hps & Hc & Hg). destruct ps as [|r [|d []]]; try done. simpl in Hps. apply fmap_Some in Hps as (m & Hm & ->).
    rewrite (He r d m Hc Hm) in Hg. case_decide; [done|]. exists r, d, m. by simplify_eq.
  - intros (r & d & m & Hm & Hn & ->). exists [r; d], (as_bytes m).
    assert (Forall clean [r; d]) as Hc by (apply (rep_clean _ _ Hrep); simpl; by rewrite Hm).
    simpl. rewrite Hm. split_and!; [done|done|]. by rewrite He, decide_False.
Qed.

Lemma export_backrefs_elem s x op :
  sim s x →
  op ∈ omap (λ p, match split_key p.1 with
             | repo :: blob :: _ => Some (PutBackrefs (lossless repo) (lossless p.2) [lossless blob])
             | _ => None
             end) (dup_iter (I_BACKREFS x)) ↔ ∃ r b m, refers s r b m ∧ op = PutBackrefs r m [b].
Proof.
  intros Hs. destruct (sim_back _ _ Hs) as [H1 H2 _]. rewrite list_elem_of_omap. split.
  - intros ([k m] & Hin%dup_iter_elem & Hg). apply H2 in Hin as (r & b & -> & HB). destruct (H1 _ _ _ HB) as (? & ? & ?).
    cbn [fst snd] in Hg. rewrite split_make, !lossless_clean in Hg by auto. exists r, b, m. by simplify_eq.
  - intros (r & b & m & HB & ->). destruct (H1 _ _ _ HB) as (? & ? & ?). exists (make_key [r; b], m).
    rewrite dup_iter_elem, H2. split; [by eauto|]. cbn [fst snd]. by rewrite split_make, !lossless_clean by auto.
Qed.

Lemma export_referrers_elem s x op :
  sim s x →
  op ∈ omap (λ p, match split_key p.1 with
             | repo :: subject :: referrer :: _ =>
                 Some (PutReferrer (lossless repo) (lossless subject) (lossless referrer) p.2)
             | _ => None
             end) (db_iter (I_REFERRERS x)) ↔ ∃ r j d b, referrer_of s r j d = Some b ∧ op = PutReferrer r j d b.
Proof.
  intros Hs. pose proof (rs_refs _ _ (sim_refs _ _ Hs)) as Hrep. rewrite (omap_table _ _ _ _ Hrep). split.
  - intros (ps & v & Hps & Hc & Hg). destruct ps as [|r [|j [|d []]]]; try done. cbn [fst snd] in Hg. rewrite split_make in Hg by done.
    rewrite !Forall_cons in Hc. rewrite !lossless_clean in Hg by naive_solver. exists r, j, d, v. by simplify_eq.
  - intros (r & j & d & b & Hb & ->). exists [r; j; d], b. assert (Forall clean [r; j; d]) as Hc by (apply (rep_clean _ _ Hrep); simpl; by rewrite Hb).
    split_and!; [done..|]. cbn [fst snd]. rewrite split_make by done. rewrite !Forall_cons in Hc. by rewrite !lossless_clean by naive_solver.
Qed.

Lemma export_checksums_elem s x op :
  sim s x →
  op ∈ omap (λ p, match split_key p.1 with
             | repo :: digest :: _ =>
                 let ck := decode_checksum p.2 in
                 Some (PutChecksum (lossless repo) (lossless digest) (ck_crc32c ck) (ck_size ck))
             | _ => None
             end) (db_iter (I_CHECKSUMS x)) ↔ ∃ r d c, checksum_of s r d = Some c ∧ op = PutChecksum r d (ck_crc32c c) (ck_size c).
Proof.
  intros Hs. destruct (sim_checksums _ _ Hs) as [Hrep Hu]. rewrite (omap_table _ _ _ _ Hrep). split.
  - intros (ps & v & Hps & Hc & Hg). destruct ps as [|r [|d []]]; try done. cbn [fst snd pair_view] in *.
    apply fmap_Some in Hps as (c & Hck & ->). rewrite split_make in Hg by done. cbv zeta in Hg.
    rewrite decode_enc_ck in Hg by (by eapply Hu). rewrite !Forall_cons in Hc. rewrite !lossless_clean in Hg by naive_solver.
    exists r, d, c. by simplify_eq.
  - intros (r & d & c & Hck & ->). exists [r; d], (enc_ck c).
    assert (Forall clean [r; d]) as Hc by (apply (rep_clean _ _ Hrep); simpl; by rewrite Hck).
    cbn [pair_view]. rewrite Hck. split_and!; [done..|]. cbn [fst snd]. rewrite split_make by done. cbv zeta.
    rewrite decode_enc_ck by (by eapply Hu). rewrite !Forall_cons in Hc. by rewrite !lossless_clean by naive_solver.
Qed.

Lemma export_impl_elem s x op : sim s x → op ∈ export_impl x ↔ export_fact s op.
Proof.
  intros Hs. unfold export_impl, export_fact. set (tg := omap export_tag (db_iter (I_TAGS x))). rewrite !elem_of_app.
  rewrite (export_backrefs_elem s), (export_referrers_elem s), (export_checksums_elem s), (export_media_elem s) by done.
  assert (op ∈ tg.*2 ↔ ∃ r t d m, tag_of s r t = Some (d, m) ∧ op = PutManifest r d m (Some t) [] None) as ->.
  { rewrite list_elem_of_fmap. split.
    - intros ([p op'] & -> & (r & t & d & m & Ht & _ & ->)%(export_tags_elem s)); [|done]. by eauto 10.
    - intros (r & t & d & m & Ht & ->). exists ((r, d), PutManifest r d m (Some t) [] None). split; [done|].
      apply (export_tags_elem s); [done|]. by eauto 10. }
  assert (∀ r d, (r, d) ∉ tg.*1 ↔ ∀ t m', tag_of s r t ≠ Some (d, m')) as Htg; [|by setoid_rewrite Htg].
  intros r d. rewrite list_elem_of_fmap. split.
  - intros Hn t m' Ht. apply Hn. exists ((r, d), PutManifest r d m' (Some t) [] None). split; [done|].
    apply (export_tags_elem s); [done|]. by eauto 10.
  - intros Hn ([p op'] & E & (r' & t & d' & m & Ht & -> & ->)%(export_tags_elem s)); [|done]. simpl in E. simplify_eq. by eapply Hn.
Qed.

End LmdbExport.
