(* ===== verification/SmallCache.v ===== *)
(** The in-memory caches of the storage crate: the byte-bounded cache of small
    blobs (roci-storage/src/cache.rs) and the blob presence filter
    (roci-storage/src/filter.rs).

    The LRU map of the [lru] crate and the cuckoo filter of the [cuckoofilter]
    crate are parameters ([Lru], [Cuckoo]) with their documented behaviour as
    laws. A [usize] operation that would overflow panics, which is [None]. *)

From S2P Require Import Prelude RustStr Errors Digest.

(** ** Third-party containers *)

(** [LruCache<String, Arc<[u8]>>] without a capacity; [lru_entries] is its
    [iter()], from the most to the least recently used entry. *)
Class Lru := {
  lru : Type;
  lru_unbounded : lru;
  lru_get : lru → string → lru * option bytes;
  lru_pop : lru → string → lru * option bytes;
  lru_put : lru → string → bytes → lru;
  lru_pop_lru : lru → lru * option (string * bytes);
  lru_entries : lru → list (string * bytes);
}.

Definition assoc (k : string) (l : list (string * bytes)) : option bytes :=
  snd <$> List.find (λ p, bool_decide (p.1 = k)) l.

Definition without (k : string) (l : list (string * bytes)) : list (string * bytes) :=
  filter (λ p, p.1 ≠ k) l.

Class LruLaws `{Lru} : Prop := {
  lru_entries_unbounded : lru_entries lru_unbounded = [];
  lru_get_spec m k :
    (lru_get m k).2 = assoc k (lru_entries m) ∧
    lru_entries (lru_get m k).1 =
      match assoc k (lru_entries m) with
      | Some v => (k, v) :: without k (lru_entries m)
      | None => lru_entries m
      end;
  lru_pop_spec m k :
    (lru_pop m k).2 = assoc k (lru_entries m) ∧
    lru_entries (lru_pop m k).1 = without k (lru_entries m);
  lru_put_spec m k v : lru_entries (lru_put m k v) = (k, v) :: without k (lru_entries m);
  lru_pop_lru_spec m :
    (lru_pop_lru m).2 = last (lru_entries m) ∧
    lru_entries (lru_pop_lru m).1 = removelast (lru_entries m);
}.

(** [CuckooFilter]: adding can fail when the filter is full. The filter is an
    approximate multiset: [cuckoo_holds c l] says that the additions that
    succeeded and were not deleted again are [l], and as long as only such
    members are deleted every member is found. *)
Class Cuckoo := {
  cuckoo : Type;
  cuckoo_new : cuckoo;
  cuckoo_add : cuckoo → string → cuckoo * bool;
  cuckoo_delete : cuckoo → string → cuckoo;
  cuckoo_contains : cuckoo → string → bool;
}.

Class CuckooLaws `{Cuckoo} := {
  cuckoo_holds : cuckoo → list string → Prop;
  cuckoo_holds_new : cuckoo_holds cuckoo_new [];
  cuckoo_holds_add c l k c' :
    cuckoo_holds c l → cuckoo_add c k = (c', true) → cuckoo_holds c' (k :: l);
  cuckoo_holds_delete c l k :
    cuckoo_holds c (k :: l) → cuckoo_holds (cuckoo_delete c k) l;
  cuckoo_holds_perm c l l' : l ≡ₚ l' → cuckoo_holds c l → cuckoo_holds c l';
  cuckoo_holds_contains c l k : cuckoo_holds c l → k ∈ l → cuckoo_contains c k = true;
}.

(** ** The small blob cache (cache.rs) *)

Definition ENTRY_OVERHEAD : Z := 128.
Definition DEFAULT_SMALL_BLOB_THRESHOLD : Z := 100 * 1024.
Definition DEFAULT_CACHE_CAPACITY : Z := 256 * 1024 * 1024.

Definition entry_cost (key : string) (data : bytes) : Z :=
  (slen key + blen data + ENTRY_OVERHEAD)%Z.

(** [format!("{repo}\0{digest}")] *)
Definition cache_key (repo digest : string) : string := repo +:+ String "000" digest.

Definition checked_add (a b : Z) : option Z := if (a + b <=? u64_max)%Z then Some (a + b)%Z else None.
Definition checked_sub (a b : Z) : option Z := if (b <=? a)%Z then Some (a - b)%Z else None.

Section Cache.
Context `{Lru}.

Record SmallBlobCache := mkCache {
  cmap_lru : lru;
  total_bytes : Z;
  threshold : Z;
  capacity : Z;
}.

Definition with_limits (threshold capacity : Z) : SmallBlobCache :=
  mkCache lru_unbounded 0 threshold capacity.

Definition small_new : SmallBlobCache :=
  with_limits DEFAULT_SMALL_BLOB_THRESHOLD DEFAULT_CACHE_CAPACITY.

Definition small_get (c : SmallBlobCache) (repo digest : string) : SmallBlobCache * option bytes :=
  let '(m, v) := lru_get (cmap_lru c) (cache_key repo digest) in
  (mkCache m (total_bytes c) (threshold c) (capacity c), v).

(** [while inner.total_bytes > self.capacity { pop_lru().expect(...) ... }] *)
Fixpoint evict (fuel : nat) (cap : Z) (m : lru) (total : Z) : option (lru * Z) :=
  if (total <=? cap)%Z then Some (m, total) else
  match fuel with
  | O => None
  | S fuel =>
      match lru_pop_lru m with
      | (m', Some (k, v)) =>
          match checked_sub total (entry_cost k v) with
          | Some total' => evict fuel cap m' total'
          | None => None
          end
      | (_, None) => None
      end
  end.

(** Both removals: [if let Some(old) = map.pop(&k) { total -= cost }]. *)
Definition pop_entry (m : lru) (total : Z) (k : string) : option (lru * Z) :=
  match lru_pop m k with
  | (m', Some old) => total' ← checked_sub total (entry_cost k old); Some (m', total')
  | (m', None) => Some (m', total)
  end.

Definition small_put (c : SmallBlobCache) (repo digest : string) (data : bytes)
    : option SmallBlobCache :=
  let k := cache_key repo digest in
  let cost := entry_cost k data in
  if ((threshold c <? blen data) || (capacity c <? cost))%Z then Some c else
  '(m1, t1) ← pop_entry (cmap_lru c) (total_bytes c) k;
  t2 ← checked_add t1 cost;
  let m2 := lru_put m1 k data in
  '(m3, t3) ← evict (length (lru_entries m2)) (capacity c) m2 t2;
  Some (mkCache m3 t3 (threshold c) (capacity c)).

Definition small_invalidate (c : SmallBlobCache) (repo digest : string) : option SmallBlobCache :=
  '(m, t) ← pop_entry (cmap_lru c) (total_bytes c) (cache_key repo digest);
  Some (mkCache m t (threshold c) (capacity c)).

End Cache.

(** ** The presence filter (filter.rs): [None] once an overflow disabled it. *)

Section Filter.
Context `{Cuckoo}.

Abbreviation BlobPresenceFilter := (option cuckoo).

Definition filter_new : BlobPresenceFilter := Some cuckoo_new.

Definition filter_insert (f : BlobPresenceFilter) (repo digest : string) : BlobPresenceFilter :=
  match f with
  | Some c => match cuckoo_add c (cache_key repo digest) with
              | (c', true) => Some c'
              | (_, false) => None
              end
  | None => None
  end.

Definition filter_remove (f : BlobPresenceFilter) (repo digest : string) : BlobPresenceFilter :=
  match f with
  | Some c => Some (cuckoo_delete c (cache_key repo digest))
  | None => None
  end.

Definition maybe_present (f : BlobPresenceFilter) (repo digest : string) : bool :=
  match f with
  | Some c => cuckoo_contains c (cache_key repo digest)
  | None => true
  end.

End Filter.

(** ** Lemmas *)

Lemma cache_key_inj r d r' d' :
  Forall (λ b, b ≠ "000"%char) (as_bytes d) → Forall (λ b, b ≠ "000"%char) (as_bytes d') →
  cache_key r d = cache_key r' d' → r = r' ∧ d = d'.
Proof.
  unfold cache_key. intros Hd Hd' He. apply (f_equal as_bytes) in He.
  rewrite !as_bytes_app in He. simpl in He.
  assert (Hl : ∀ (a b : list ascii) (x y : list ascii), Forall (λ b, b ≠ "000"%char) x → Forall (λ b, b ≠ "000"%char) y →
      a ++ "000"%char :: x = b ++ "000"%char :: y → a = b ∧ x = y).
  { induction a as [|c a IH]; intros [|c' b] x y Hx Hy E; simpl in *; simplify_eq.
    - done.
    - rewrite Forall_app, Forall_cons in Hx. by destruct Hx as (_&?&_).
    - rewrite Forall_app, Forall_cons in Hy. by destruct Hy as (_&?&_).
    - match goal with E : _ = _ |- _ => destruct (IH _ _ _ Hx Hy E) as [-> ->] end. done. }
  destruct (Hl _ _ _ _ Hd Hd' He) as [?%(inj _) ?%(inj _)]. done.
Qed.

Lemma assoc_elem k l v : assoc k l = Some v → (k, v) ∈ l.
Proof.
  unfold assoc. intros ([k' v'] & Hf & ->)%fmap_Some. apply find_some in Hf as [Hf Hk].
  bool_simp. simpl in *. subst. by apply list_elem_of_In.
Qed.

Lemma filter_id {A} (P : A → Prop) `{!∀ x, Decision (P x)} (l : list A) :
  (∀ x, x ∈ l → P x) → filter P l = l.
Proof.
  induction l as [|x l IH]; intros Hl; [done|].
  rewrite filter_cons_True by (apply Hl; set_solver). f_equal. apply IH. intros y Hy. apply Hl. set_solver.
Qed.

Lemma assoc_without k l :
  NoDup l.*1 → l ≡ₚ match assoc k l with Some v => (k, v) :: without k l | None => without k l end.
Proof.
  unfold assoc, without. induction l as [|[k' v'] l IH]; simpl; [done|].
  intros [Hn Hd]%NoDup_cons. case_bool_decide; subst; simpl.
  - rewrite filter_cons_False by auto. f_equiv.
    rewrite filter_id; [done|]. intros [k2 v2] Hin Hk2. simpl in *. subst.
    apply Hn. apply list_elem_of_fmap. by exists (k, v2).
  - rewrite filter_cons_True by done. specialize (IH Hd).
    destruct (snd <$> List.find _ _); [|by constructor]. rewrite IH at 1. by constructor.
Qed.

Section CacheLemmas.
Context `{LruLaws}.

Definition costs (l : list (string * bytes)) : Z :=
  foldr (λ p t, entry_cost p.1 p.2 + t)%Z 0%Z l.

(** The accounting is exact and within the budget, no key is cached twice and
    no entry is larger than the threshold. *)
Record small_ok (c : SmallBlobCache) : Prop := {
  small_total : total_bytes c = costs (lru_entries (cmap_lru c));
  small_budget : (0 ≤ total_bytes c ≤ capacity c)%Z;
  small_nodup : NoDup (lru_entries (cmap_lru c)).*1;
  small_sizes : Forall (λ p, (blen p.2 ≤ threshold c)%Z) (lru_entries (cmap_lru c));
}.

Lemma entry_cost_pos k v : (0 < entry_cost k v)%Z.
Proof. unfold entry_cost, ENTRY_OVERHEAD, slen, blen. lia. Qed.

Lemma costs_nonneg l : (0 ≤ costs l)%Z.
Proof. induction l as [|p l IH]; simpl; [lia|]. pose proof (entry_cost_pos p.1 p.2). lia. Qed.

Lemma costs_perm l l' : l ≡ₚ l' → costs l = costs l'.
Proof. induction 1; simpl; lia. Qed.

Lemma costs_app l l' : costs (l ++ l') = (costs l + costs l')%Z.
Proof. induction l; simpl; lia. Qed.

Lemma without_elem k l p : p ∈ without k l → p ∈ l ∧ p.1 ≠ k.
Proof. unfold without. rewrite list_elem_of_filter. tauto. Qed.

Lemma without_twice k l : without k (without k l) = without k l.
Proof. by apply list_filter_filter_l. Qed.

Lemma without_NoDup k l : NoDup l.*1 → NoDup (without k l).*1.
Proof.
  unfold without. induction l as [|[k' v'] l IH]; simpl; [done|]. intros [Hn Hd]%NoDup_cons.
  rewrite filter_cons. case_decide; [|auto]. simpl. apply NoDup_cons. split; [|auto].
  intros (q & Hq & Hin)%list_elem_of_fmap. apply Hn. apply list_elem_of_fmap. exists q.
  split; [done|]. by apply list_elem_of_filter in Hin as [_ ?].
Qed.

Lemma pop_entry_spec m t k :
  NoDup (lru_entries m).*1 → t = costs (lru_entries m) →
  ∃ m' t', pop_entry m t k = Some (m', t') ∧
    lru_entries m' = without k (lru_entries m) ∧ t' = costs (lru_entries m') ∧ (t' ≤ t)%Z.
Proof.
  intros Hd ->. unfold pop_entry. destruct (lru_pop_spec m k) as [Hv He].
  destruct (lru_pop m k) as [m' v]; simpl in *.
  pose proof (costs_perm _ _ (assoc_without k _ Hd)) as Hc. rewrite <-Hv in Hc.
  destruct v as [v|]; simpl in Hc.
  - unfold checked_sub. rewrite (proj2 (Z.leb_le _ _)) by (pose proof (costs_nonneg (without k (lru_entries m))); lia).
    simpl. do 2 eexists. split; [done|]. rewrite He. pose proof (entry_cost_pos k v). split_and!; [done|lia..].
  - do 2 eexists. split; [done|]. rewrite He. split_and!; [done|lia..].
Qed.

Lemma last_removelast {A} (l : list A) x : last l = Some x → l = removelast l ++ [x].
Proof.
  intros Hl. destruct (exists_last (l:=l)) as (l' & y & ->); [by intros ->|].
  rewrite last_snoc in Hl. simplify_eq. by rewrite removelast_last.
Qed.

Lemma evict_spec fuel cap m t :
  length (lru_entries m) ≤ fuel → t = costs (lru_entries m) → (0 ≤ cap)%Z →
  ∃ m' t', evict fuel cap m t = Some (m', t') ∧ t' = costs (lru_entries m') ∧ (t' ≤ cap)%Z ∧
    lru_entries m' `prefix_of` lru_entries m.
Proof.
  revert m t. induction fuel as [|fuel IH]; intros m t Hf Ht Hc; simpl.
  - destruct (lru_entries m) eqn:E; simpl in *; [|lia].
    rewrite (proj2 (Z.leb_le _ _)) by lia. exists m, t. rewrite E. split_and!; [done|done|lia|done].
  - case_match eqn:Eb; bool_simp; [by exists m, t|].
    destruct (lru_pop_lru_spec m) as [Hv He]. destruct (lru_pop_lru m) as [m1 v]; simpl in *.
    destruct v as [[k v]|]; [|apply eq_sym, last_None in Hv; rewrite Hv in Ht; simpl in Ht; lia].
    symmetry in Hv. apply last_removelast in Hv. rewrite <-He in Hv.
    assert (Hs : costs (lru_entries m) = (costs (lru_entries m1) + entry_cost k v)%Z).
    { rewrite Hv at 1. rewrite costs_app. simpl. lia. }
    unfold checked_sub. pose proof (costs_nonneg (lru_entries m1)).
    rewrite (proj2 (Z.leb_le _ _)) by lia.
    destruct (IH m1 (t - entry_cost k v)%Z) as (m' & t' & -> & Ht' & Hcap & Hpre); [|lia|done|].
    { rewrite Hv, length_app in Hf. simpl in Hf. lia. }
    exists m', t'. split_and!; [done..|]. rewrite Hv. by apply prefix_app_r.
Qed.

(** [put] never panics, keeps the cache well formed, and holds nothing it did
    not hold before but the new entry. *)
Lemma small_put_ok c repo digest data :
  small_ok c → (capacity c < 2 ^ 63)%Z →
  ∃ c', small_put c repo digest data = Some c' ∧ small_ok c' ∧
    capacity c' = capacity c ∧ threshold c' = threshold c ∧
    ∀ p, p ∈ lru_entries (cmap_lru c') → p ∈ lru_entries (cmap_lru c) ∨ p = (cache_key repo digest, data).
Proof.
  intros [Ht Hb Hd Hs] Hcap. unfold small_put. case_match eqn:E; [exists c; split_and!; auto; done|].
  bool_simp.
  destruct (pop_entry_spec (cmap_lru c) (total_bytes c) (cache_key repo digest) Hd Ht)
    as (m1 & t1 & -> & He1 & Ht1 & Hle). simpl.
  assert (0 ≤ t1)%Z by (rewrite Ht1; apply costs_nonneg).
  unfold checked_add, u64_max. rewrite (proj2 (Z.leb_le _ _)) by lia. simpl.
  pose proof (lru_put_spec m1 (cache_key repo digest) data) as Hp.
  rewrite He1, without_twice in Hp.
  destruct (evict_spec (length (lru_entries (lru_put m1 (cache_key repo digest) data))) (capacity c)
    (lru_put m1 (cache_key repo digest) data) (t1 + entry_cost (cache_key repo digest) data)%Z)
    as (m3 & t3 & Hev & Ht3 & Hc3 & Hpre); [done|rewrite Hp; simpl; rewrite <-He1; lia|lia|].
  unfold mbind, option_bind. rewrite Hev. simpl. eexists. split; [done|]. rewrite Hp in Hpre.
  assert (Hsub : ∀ p, p ∈ lru_entries m3 → p = (cache_key repo digest, data) ∨ p ∈ without (cache_key repo digest) (lru_entries (cmap_lru c))).
  { intros p Hin. destruct Hpre as [k Hk]. apply elem_of_cons. rewrite Hk. set_solver. }
  split_and!; [split; simpl|done|done|].
  - done.
  - pose proof (costs_nonneg (lru_entries m3)). lia.
  - destruct Hpre as [k Hk]. apply (f_equal (fmap fst)) in Hk. rewrite fmap_app, fmap_cons in Hk. simpl in Hk.
    assert (Hn : NoDup (cache_key repo digest :: (without (cache_key repo digest) (lru_entries (cmap_lru c))).*1)).
    { apply NoDup_cons. split; [|by apply without_NoDup].
      intros (q & Hq & Hin)%list_elem_of_fmap. by apply without_elem in Hin as [_ ?]. }
    rewrite Hk in Hn. by apply NoDup_app in Hn as [? _].
  - apply Forall_forall. intros p [->|[Hin _]%without_elem]%Hsub; [simpl; lia|].
    rewrite Forall_forall in Hs. auto.
  - intros p [->|[Hin _]%without_elem]%Hsub; auto.
Qed.

Lemma small_invalidate_ok c repo digest :
  small_ok c →
  ∃ c', small_invalidate c repo digest = Some c' ∧ small_ok c' ∧
    capacity c' = capacity c ∧ threshold c' = threshold c ∧
    lru_entries (cmap_lru c') = without (cache_key repo digest) (lru_entries (cmap_lru c)).
Proof.
  intros [Ht Hb Hd Hs]. unfold small_invalidate.
  destruct (pop_entry_spec (cmap_lru c) (total_bytes c) (cache_key repo digest) Hd Ht)
    as (m1 & t1 & -> & He1 & Ht1 & Hle). simpl.
  eexists. split; [done|]. split_and!; [split; simpl|done|done|done].
  - done.
  - split; [rewrite Ht1; apply costs_nonneg|lia].
  - rewrite He1. by apply without_NoDup.
  - rewrite He1. apply Forall_forall. intros p [Hin _]%without_elem.
    rewrite Forall_forall in Hs. auto.
Qed.

Lemma small_get_ok c repo digest :
  small_ok c →
  small_ok (small_get c repo digest).1 ∧
  (small_get c repo digest).2 = assoc (cache_key repo digest) (lru_entries (cmap_lru c)) ∧
  capacity (small_get c repo digest).1 = capacity c ∧ threshold (small_get c repo digest).1 = threshold c ∧
  lru_entries (cmap_lru (small_get c repo digest).1) ≡ₚ lru_entries (cmap_lru c).
Proof.
  intros [Ht Hb Hd Hs]. unfold small_get.
  destruct (lru_get_spec (cmap_lru c) (cache_key repo digest)) as [Hv He].
  destruct (lru_get (cmap_lru c) (cache_key repo digest)) as [m v]; simpl in *.
  assert (Hp : lru_entries m ≡ₚ lru_entries (cmap_lru c)).
  { rewrite He. pose proof (assoc_without (cache_key repo digest) _ Hd) as Ha.
    destruct (assoc (cache_key repo digest) (lru_entries (cmap_lru c))); [by symmetry|done]. }
  split_and!; [split; simpl|done..].
  - by rewrite (costs_perm _ _ Hp).
  - done.
  - by rewrite Hp.
  - by rewrite Hp.
Qed.
End CacheLemmas.

Section FilterLemmas.
Context `{CuckooLaws}.

(** [l] is what the filter accounts for; a disabled filter accounts for
    everything. *)
Definition filter_ok (f : option cuckoo) (l : list string) : Prop :=
  match f with Some c => cuckoo_holds c l | None => True end.

Lemma filter_ok_insert f l r d :
  filter_ok f l → filter_ok (filter_insert f r d) (cache_key r d :: l).
Proof.
  destruct f as [c|]; simpl; [|done]. intros Hc.
  destruct (cuckoo_add c (cache_key r d)) as [c' []] eqn:E; simpl; [|done].
  eapply cuckoo_holds_add; eauto.
Qed.

Lemma filter_ok_remove f l r d :
  filter_ok f l → cache_key r d ∈ l →
  ∃ l', l ≡ₚ cache_key r d :: l' ∧ filter_ok (filter_remove f r d) l'.
Proof.
  intros Hf [l' Hl]%elem_of_Permutation. exists l'. split; [done|].
  destruct f as [c|]; simpl in *; [|done]. apply cuckoo_holds_delete. by eapply cuckoo_holds_perm.
Qed.

Lemma filter_ok_present f l r d :
  filter_ok f l → cache_key r d ∈ l → maybe_present f r d = true.
Proof. destruct f; simpl; [|done]. intros. by eapply cuckoo_holds_contains. Qed.
End FilterLemmas.

(** ** The cache over a run *)

Inductive cache_op :=
  | CGet (repo digest : string)
  | CPut (repo digest : string) (data : bytes)
  | CInvalidate (repo digest : string).

Definition op_digest (o : cache_op) : string :=
  match o with CGet _ d | CPut _ d _ | CInvalidate _ d => d end.

Section CacheRun.
Context `{LruLaws}.

Definition cache_step (c : SmallBlobCache) (o : cache_op) : option SmallBlobCache :=
  match o with
  | CGet r d => Some (small_get c r d).1
  | CPut r d b => small_put c r d b
  | CInvalidate r d => small_invalidate c r d
  end.

Definition cache_run (c : SmallBlobCache) (ops : list cache_op) : option SmallBlobCache :=
  foldl (λ o op, o ≫= λ c, cache_step c op) (Some c) ops.

Lemma cache_step_ok c o :
  small_ok c → (capacity c < 2 ^ 63)%Z →
  ∃ c', cache_step c o = Some c' ∧ small_ok c' ∧ capacity c' = capacity c ∧
    ∀ p, p ∈ lru_entries (cmap_lru c') → p ∈ lru_entries (cmap_lru c) ∨
      ∃ r d b, o = CPut r d b ∧ p = (cache_key r d, b).
Proof.
  intros Hc Hcap. destruct o as [r d|r d b|r d]; simpl.
  - destruct (small_get_ok c r d Hc) as (?&_&?&_&Hp). eexists. split_and!; [done..|].
    intros p Hin. left. by rewrite <-Hp.
  - destruct (small_put_ok c r d b Hc Hcap) as (c'&?&?&?&_&Hp). exists c'. split_and!; [done..|].
    intros p [?| ->]%Hp; eauto 10.
  - destruct (small_invalidate_ok c r d Hc) as (c'&?&?&?&_&Hp). exists c'. split_and!; [done..|].
    intros p Hin. rewrite Hp in Hin. apply without_elem in Hin as [? _]. auto.
Qed.

Lemma cache_run_ok ops c :
  small_ok c → (capacity c < 2 ^ 63)%Z →
  ∃ c', cache_run c ops = Some c' ∧ small_ok c' ∧ capacity c' = capacity c ∧
    ∀ p, p ∈ lru_entries (cmap_lru c') → p ∈ lru_entries (cmap_lru c) ∨
      ∃ r d b, CPut r d b ∈ ops ∧ p = (cache_key r d, b).
Proof.
  unfold cache_run. revert c. induction ops as [|o ops IH]; intros c Hc Hcap; simpl.
  - exists c. split_and!; auto.
  - destruct (cache_step_ok c o Hc Hcap) as (c1 & -> & Hc1 & Hcap1 & Hp1).
    destruct (IH c1) as (c' & -> & Hc' & Hcap' & Hp'); [done|by rewrite Hcap1|].
    exists c'. split_and!; [done|done|congruence|]. intros p [[?|(?&?&?&->&->)]%Hp1|(?&?&?&?&->)]%Hp'; [by left|right..].
    + do 3 eexists. split; [apply list_elem_of_here|done].
    + do 3 eexists. split; [by apply list_elem_of_further|done].
Qed.

Lemma with_limits_ok th cap : (0 ≤ cap)%Z → small_ok (with_limits th cap).
Proof.
  intros Hcap. split; simpl; rewrite ?lru_entries_unbounded; simpl; [done|lia|constructor|constructor].
Qed.
End CacheRun.

(** A list of entries in order of use is an LRU map; a list of keys is a
    filter without false positives. *)
Module ToyCache.
#[export] Instance toy_lru : Lru := {|
  lru := list (string * bytes);
  lru_unbounded := [];
  lru_get m k := match assoc k m with Some v => ((k, v) :: without k m, Some v) | None => (m, None) end;
  lru_pop m k := (without k m, assoc k m);
  lru_put m k v := (k, v) :: without k m;
  lru_pop_lru m := (removelast m, last m);
  lru_entries m := m;
|}.

#[export] Instance toy_lru_laws : LruLaws.
Proof. split; intros; simpl; repeat case_match; simplify_eq; done. Qed.

#[export] Instance toy_cuckoo : Cuckoo := {|
  cuckoo := list string;
  cuckoo_new := [];
  cuckoo_add c k := if decide (length c < 1000) then (k :: c, true) else (c, false);
  cuckoo_delete c k := match list_find (k =.) c with Some (i, _) => delete i c | None => c end;
  cuckoo_contains c k := bool_decide (k ∈ c);
|}.

#[export] Instance toy_cuckoo_laws : CuckooLaws.
Proof.
  refine {| cuckoo_holds (c : @cuckoo toy_cuckoo) l := c ≡ₚ l |}; simpl.
  - done.
  - intros c l k c' Hc He. case_decide; simplify_eq. by rewrite Hc.
  - intros c l k Hc. destruct (list_find (k =.) c) as [[i k']|] eqn:E.
    + apply list_find_Some in E as (Hi & <- & _). apply (Permutation_cons_inv (a:=k)).
      rewrite <-Hc. symmetry. by apply delete_Permutation.
    + apply list_find_None in E. rewrite Forall_forall in E. destruct (E k); [|done].
      rewrite Hc. set_solver.
  - intros c l l' Hl Hc. by rewrite Hc.
  - intros c l k Hc Hk. apply bool_decide_eq_true. by rewrite Hc.
Defined.
End ToyCache.

(** C28: whatever is read, cached and dropped, the cache of small blobs never
    panics, its byte counter is exactly the cost of its entries and never
    exceeds the budget, and what it returns for a blob was cached for that
    very repository and digest. *)
Theorem small_cache_bounded `{LruLaws} th cap ops :
  (0 ≤ cap < 2 ^ 63)%Z →
  Forall (λ o, Forall (λ b, b ≠ "000"%char) (as_bytes (op_digest o))) ops →
  ∃ c, cache_run (with_limits th cap) ops = Some c ∧
    total_bytes c = costs (lru_entries (cmap_lru c)) ∧ (total_bytes c ≤ cap)%Z ∧
    ∀ r d b, Forall (λ b, b ≠ "000"%char) (as_bytes d) →
      (small_get c r d).2 = Some b → CPut r d b ∈ ops.
Proof.
  intros Hcap Hops.
  destruct (cache_run_ok ops (with_limits th cap)) as (c & Hr & Hc & Hcc & Hp);
    [apply with_limits_ok; lia|simpl; lia|].
  exists c. destruct (Hc) as [Ht Hb _ _]. simpl in Hcc. split_and!; [done|done|lia|].
  - intros r d b Hd Hg. destruct (small_get_ok c r d Hc) as (_ & Ha & _). rewrite Ha in Hg.
    apply assoc_elem in Hg. apply Hp in Hg as [Hg|(r' & d' & b' & Hin & Heq)].
    + simpl in Hg. rewrite lru_entries_unbounded in Hg. set_solver.
    + simplify_eq. rewrite Forall_forall in Hops. pose proof (Hops _ Hin) as Hd'. simpl in Hd'.
      by destruct (cache_key_inj r d r' d' Hd Hd') as [-> ->].
Qed.

#[local] Existing Instances ToyCache.toy_lru ToyCache.toy_lru_laws.

Lemma small_cache_bounded_witness :
  ∃ c, cache_run (with_limits 10 300) [CPut "a" "sha256:x" (as_bytes "1"); CPut "b" "sha256:x" (as_bytes "2"); CPut "b" "sha256:y" (as_bytes "3")] = Some c ∧ (total_bytes c ≤ 300)%Z.
Proof.
  destruct (small_cache_bounded 10 300
    [CPut "a" "sha256:x" (as_bytes "1"); CPut "b" "sha256:x" (as_bytes "2"); CPut "b" "sha256:y" (as_bytes "3")])
    as (c & H1 & _ & H2 & _); [lia| |by exists c].
  repeat (apply Forall_cons; split; [simpl; repeat constructor; done|]); constructor.
Defined.
