(* ===== verification/Effect.v ===== *)
(** The state and error monad of the stateful components, and the small logic
    of relations between the states before and after a program with which
    their frame and invariant lemmas are proved compositionally. *)

From S2P Require Import Prelude.

(** A program over the state [S] that returns an [A] or fails with an [E]; the
    state changes made before a failure stay. *)
Definition M (S E A : Type) : Type := S → S * result E A.

Section Monad.
Context {S E : Type}.

#[export] Instance M_ret : MRet (M S E) := λ A a s, (s, Ok a).
#[export] Instance M_bind : MBind (M S E) := λ A B k m s,
  match m s with
  | (s', Ok a) => k a s'
  | (s', Err e) => (s', Err e)
  end.

Definition throw {A} (e : E) : M S E A := λ s, (s, Err e).
Definition gets {A} (f : S → A) : M S E A := λ s, (s, Ok (f s)).
Definition modify (f : S → S) : M S E () := λ s, (f s, Ok tt).
Definition of_result {A} (r : result E A) : M S E A := λ s, (s, r).

(** A state transformer that also returns a value. *)
Definition state {A} (f : S → S * A) : M S E A := λ s, let '(s', a) := f s in (s', Ok a).
End Monad.

(** The result of [m] as a value, as a [match] on it sees it. *)
Definition attempt {S E E' A} (m : M S E A) : M S E' (result E A) := λ s,
  let '(s', r) := m s in (s', Ok r).

(** [.map_err(f)] *)
Definition mapping_err {S E E' A} (f : E → E') (m : M S E A) : M S E' A := λ s,
  let '(s', r) := m s in (s', map_err f r).

(** Run [m] on a part of the state. *)
Definition focus {S T E A} (get : S → T) (set : T → S → S) (m : M T E A) : M S E A := λ s,
  let '(t, r) := m (get s) in (set t s, r).

(** [m] takes every state to one that [R] relates to it. *)
Definition runs {S E A} (R : S → S → Prop) (m : M S E A) : Prop := ∀ s, R s (m s).1.

Create HintDb runs discriminated.

Section Runs.
Context {S : Type} {R : S → S → Prop} `{!PreOrder R}.

Lemma runs_ret {E A} (a : A) : runs R (mret a : M S E A).
Proof. intros s. simpl. reflexivity. Qed.

Lemma runs_bind {E A B} (m : M S E A) (k : A → M S E B) :
  runs R m → (∀ a, runs R (k a)) → runs R (m ≫= k).
Proof.
  intros Hm Hk s. unfold mbind, M_bind. specialize (Hm s).
  destruct (m s) as [s' [a|e]]; simpl in *; [|done]. etrans; [done|]. apply Hk.
Qed.

Lemma runs_let {E A B} (r : result E A) (k : A → M S E B) :
  (∀ a, r = Ok a → runs R (k a)) → runs R (of_result r ≫= k).
Proof. intros Hk s. unfold mbind, M_bind, of_result. destruct r; [by apply Hk|]. simpl. reflexivity. Qed.

Lemma runs_throw {E A} (e : E) : runs R (throw e : M S E A).
Proof. intros s. simpl. reflexivity. Qed.

Lemma runs_gets {E A} (f : S → A) : runs R (gets f : M S E A).
Proof. intros s. simpl. reflexivity. Qed.

Lemma runs_of_result {E A} (r : result E A) : runs R (of_result r : M S E A).
Proof. intros s. simpl. reflexivity. Qed.

Lemma runs_modify {E} (f : S → S) : (∀ s, R s (f s)) → runs R (modify f : M S E ()).
Proof. intros Hf s. apply Hf. Qed.

Lemma runs_state {E A} (f : S → S * A) : (∀ s, R s (f s).1) → runs R (state f : M S E A).
Proof. intros Hf s. specialize (Hf s). unfold state. by destruct (f s). Qed.

Lemma runs_attempt {E E' A} (m : M S E A) : runs R m → runs R (attempt m : M S E' _).
Proof. intros Hm s. specialize (Hm s). unfold attempt. by destruct (m s). Qed.

Lemma runs_mapping_err {E E' A} (f : E → E') (m : M S E A) : runs R m → runs R (mapping_err f m).
Proof. intros Hm s. specialize (Hm s). unfold mapping_err. by destruct (m s). Qed.
End Runs.

#[export] Hint Resolve runs_ret runs_throw runs_gets runs_of_result runs_attempt runs_mapping_err : runs.

(** Split a program at its binds and branches. *)
Ltac runs_step :=
  lazymatch goal with
  | |- runs _ (mbind _ _) => apply runs_bind; [|intros ?]
  | |- runs _ (match ?x with _ => _ end) => destruct x
  | |- runs _ (let '_ := ?x in _) => destruct x
  | |- runs _ (throw _) => apply runs_throw
  | |- runs _ (mret _) => apply runs_ret
  | |- runs _ (gets _) => apply runs_gets
  | |- runs _ (of_result _) => apply runs_of_result
  | |- runs _ (attempt _) => apply runs_attempt
  | |- runs _ (mapping_err _ _) => apply runs_mapping_err
  | |- _ => solve [eauto with runs]
  end.
Ltac runs_auto := repeat runs_step.

(** What a successful run of a bind says about its parts. *)
Lemma bind_Ok {S E A B} (m : M S E A) (k : A → M S E B) s s' b :
  (m ≫= k) s = (s', Ok b) → ∃ s1 a, m s = (s1, Ok a) ∧ k a s1 = (s', Ok b).
Proof. unfold mbind, M_bind. destruct (m s) as [s1 [a|e]]; [eauto|done]. Qed.

Lemma attempt_eq {S E E' A} (m : M S E A) s :
  attempt (E' := E') m s = ((m s).1, Ok (m s).2).
Proof. unfold attempt. by destruct (m s). Qed.

Lemma mapping_err_Ok {S E E' A} (f : E → E') (m : M S E A) s s' a :
  mapping_err f m s = (s', Ok a) → m s = (s', Ok a).
Proof. unfold mapping_err. destruct (m s) as [s1 [a1|e]]; simpl; congruence. Qed.

Lemma bind_Err {S E A B} (m : M S E A) (k : A → M S E B) s s' e :
  (m ≫= k) s = (s', Err e) → m s = (s', Err e) ∨ ∃ s1 a, m s = (s1, Ok a) ∧ k a s1 = (s', Err e).
Proof. unfold mbind, M_bind. destruct (m s) as [s1 [a|e1]]; [eauto|]. intros [= -> ->]. by left. Qed.

(** Every error of [m] satisfies [φ]. *)
Definition fails {S E A} (φ : E → Prop) (m : M S E A) : Prop := ∀ s e, (m s).2 = Err e → φ e.

Create HintDb fails discriminated.

Section Fails.
Context {S E : Type} {φ : E → Prop}.

Lemma fails_ret {A} (a : A) : fails φ (mret a : M S E A).
Proof. by intros s e [=]. Qed.
Lemma fails_gets {A} (f : S → A) : fails φ (gets f : M S E A).
Proof. by intros s e [=]. Qed.
Lemma fails_modify (f : S → S) : fails φ (modify f : M S E ()).
Proof. by intros s e [=]. Qed.
Lemma fails_state {A} (f : S → S * A) : fails φ (state f : M S E A).
Proof. intros s e. unfold state. by destruct (f s). Qed.
Lemma fails_attempt {E' A} (m : M S E' A) : fails φ (attempt m : M S E _).
Proof. intros s e. by rewrite attempt_eq. Qed.
Lemma fails_throw {A} (e : E) : φ e → fails φ (throw e : M S E A).
Proof. by intros He s e' [= <-]. Qed.
Lemma fails_of_result {A} (r : result E A) : (∀ e, r = Err e → φ e) → fails φ (of_result r : M S E A).
Proof. by intros Hr s e He; apply Hr. Qed.
Lemma fails_bind {A B} (m : M S E A) (k : A → M S E B) :
  fails φ m → (∀ a, fails φ (k a)) → fails φ (m ≫= k).
Proof.
  intros Hm Hk s e. specialize (Hm s). unfold mbind, M_bind.
  destruct (m s) as [s1 [a|e1]]; simpl in *; [apply Hk|]. intros [= <-]. by apply Hm.
Qed.
Lemma fails_mapping_err {E' A} (f : E' → E) (m : M S E' A) : (∀ e, φ (f e)) → fails φ (mapping_err f m).
Proof. intros Hf s e. unfold mapping_err. destruct (m s) as [s1 [a|e1]]; simpl; [done|]. by intros [= <-]. Qed.
Lemma fails_focus {T A} (get : S → T) set (m : M T E A) : fails φ m → fails φ (focus get set m).
Proof. intros Hm s e. unfold focus. specialize (Hm (get s)). destruct (m (get s)). simpl. apply Hm. Qed.
End Fails.

#[export] Hint Resolve fails_ret fails_gets fails_modify fails_state fails_attempt : fails.

Ltac fails_step :=
  lazymatch goal with
  | |- fails _ (mbind _ _) => apply fails_bind; [|intros ?]
  | |- fails _ (match ?x with _ => _ end) => destruct x
  | |- fails _ (let '_ := ?x in _) => destruct x
  | |- fails _ (throw _) => apply fails_throw
  | |- fails _ (of_result _) => apply fails_of_result; intros ? ?
  | |- fails _ (mapping_err _ _) => apply fails_mapping_err; intros ?
  | |- fails _ (focus _ _ _) => apply fails_focus
  | |- _ => solve [eauto with fails]
  end.
Ltac fails_auto := repeat fails_step.
