(* ===== verification/Triple.v ===== *)
(** Triples of the state and error monad over an invariant: from a state with the
    invariant and a precondition a program ends in one with the invariant, and
    the postcondition holds of the result of a program that succeeds. *)

From S2P Require Import Prelude Effect.

Definition any {S : Type} : S → Prop := λ _, True.

(** From a state with the invariant [I] and [P], [m] ends in one with the
    invariant, and [Q] holds of its result. *)
Definition sp {S E A : Type} (I P : S → Prop) (m : M S E A) (Q : A → S → Prop) : Prop :=
  ∀ s, I s → P s → I (m s).1 ∧ ∀ a, (m s).2 = Ok a → Q a (m s).1.

Section Triple.
Context {S : Type} {I : S → Prop}.

Lemma sp_bind {E A B : Type} P (m : M S E A) (k : A → M S E B) Q1 Q :
  sp I P m Q1 → (∀ a, sp I (Q1 a) (k a) Q) → sp I P (m ≫= k) Q.
Proof.
  intros Hm Hk s Hs HP. destruct (Hm s Hs HP) as [I1 I2]. unfold mbind, M_bind.
  destruct (m s) as [s1 [a|e]]; simpl in *; [|done]. by apply Hk; [|apply I2].
Qed.

Lemma sp_ret {E A : Type} (P : S → Prop) (a : A) (Q : A → S → Prop) :
  (∀ s, I s → P s → Q a s) → sp (E := E) I P (mret a) Q.
Proof. intros HQ s Hs HP. split; [done|]. intros a' [= <-]. by apply HQ. Qed.

Lemma sp_throw {E A : Type} (P : S → Prop) (e : E) (Q : A → S → Prop) : sp I P (throw e) Q.
Proof. intros s Hs _. split; [done|]. by intros a [=]. Qed.

Lemma sp_weaken {E A : Type} (P P' : S → Prop) (m : M S E A) (Q Q' : A → S → Prop) :
  sp I P' m Q' → (∀ s, I s → P s → P' s) → (∀ a s, I s → Q' a s → Q a s) → sp I P m Q.
Proof.
  intros Hm HP HQ s Hs Hp. destruct (Hm s Hs (HP s Hs Hp)) as [I1 I2]. split; [done|]. eauto.
Qed.

Lemma sp_pre {E A : Type} (P P' : S → Prop) (m : M S E A) Q : sp I P' m Q → (∀ s, I s → P s → P' s) → sp I P m Q.
Proof. intros Hm HP. by eapply sp_weaken. Qed.

Lemma sp_gets {E A : Type} (P : S → Prop) (f : S → A) : sp (E := E) I P (gets f) (λ a s, P s ∧ a = f s).
Proof. intros s Hs HP. split; [done|]. by intros a [= <-]. Qed.

Lemma sp_of_result {E A : Type} (P : S → Prop) (r : result E A) : sp I P (of_result r) (λ a s, P s ∧ r = Ok a).
Proof. intros s Hs HP. split; [done|]. by intros a Hr. Qed.

Lemma sp_modify {E : Type} (P : S → Prop) (f : S → S) (Q : () → S → Prop) :
  (∀ s, I s → P s → I (f s) ∧ Q tt (f s)) → sp (E := E) I P (modify f) Q.
Proof. intros Hf s Hs HP. destruct (Hf s Hs HP). split; [done|]. by intros [] _. Qed.

Lemma sp_attempt {E E' A : Type} (P : S → Prop) (m : M S E A) (Q : A → S → Prop) :
  sp I P m Q → sp (E := E') I P (attempt m) (λ r s, ∀ a, r = Ok a → Q a s).
Proof.
  intros Hm s Hs HP. destruct (Hm s Hs HP) as [I1 I2]. rewrite attempt_eq. simpl. split; [done|].
  intros r [= <-]. auto.
Qed.

Lemma sp_mapping_err {E E' A : Type} (P : S → Prop) (f : E → E') (m : M S E A) (Q : A → S → Prop) :
  sp I P m Q → sp I P (mapping_err f m) Q.
Proof.
  intros Hm s Hs HP. destruct (Hm s Hs HP) as [I1 I2]. unfold mapping_err.
  destruct (m s) as [s' [a|e]]; simpl in *; (split; [done|]); [|done]. intros a' [= <-]. auto.
Qed.

Lemma sp_state {E A : Type} (P : S → Prop) (f : S → S * A) (Q : A → S → Prop) :
  (∀ s, I s → P s → I (f s).1 ∧ Q (f s).2 (f s).1) → sp (E := E) I P (state f) Q.
Proof.
  intros Hf s Hs HP. destruct (Hf s Hs HP) as [I1 I2]. unfold state.
  destruct (f s) as [s' a]. split; [done|]. by intros a' [= <-].
Qed.

(** A computed value, and a fact about a result that holds of no state. *)
Lemma sp_let {E A B : Type} (P : S → Prop) (r : result E A) (k : A → M S E B) Q :
  (∀ a, r = Ok a → sp I P (k a) Q) → sp I P (of_result r ≫= k) Q.
Proof.
  intros Hk s Hs HP. unfold mbind, M_bind, of_result.
  destruct r as [a|e]; [by apply Hk|]. simpl. by split.
Qed.

Lemma sp_known {E A B : Type} (P : S → Prop) (φ : A → Prop) (m : M S E A) (k : A → M S E B) Q :
  sp I P m (λ a s, φ a) → (∀ a, φ a → sp I any (k a) Q) → sp I P (m ≫= k) Q.
Proof.
  intros Hm Hk. eapply sp_bind; [exact Hm|]. intros a s Hs Ha. by apply (Hk a Ha).
Qed.

Lemma sp_any {E A : Type} (P : S → Prop) (m : M S E A) Q : sp I any m Q → sp I P m Q.
Proof. intros Hm. by eapply sp_weaken. Qed.

(** What a precondition says of values. *)
Lemma sp_ex {E A X : Type} (P : X → S → Prop) (m : M S E A) Q :
  (∀ x, sp I (P x) m Q) → sp I (λ s, ∃ x, P x s) m Q.
Proof. intros Hm s Hs [x Hx]. by apply (Hm x). Qed.

Lemma sp_pure {E A : Type} (φ : Prop) (P : S → Prop) (m : M S E A) Q :
  (φ → sp I P m Q) → sp I (λ s, P s ∧ φ) m Q.
Proof. intros Hm s Hs [HP Hφ]. by apply Hm. Qed.

Lemma sp_only {E A : Type} (P : S → Prop) (m : M S E A) Q : sp I P m Q → sp I P m (λ _ _, True).
Proof. intros Hm. by eapply sp_weaken. Qed.

(** What a program of the relation [R] cannot change. *)
Lemma sp_frame {E A : Type} (R : S → S → Prop) (F P : S → Prop) (m : M S E A) Q :
  runs R m → (∀ s s', R s s' → F s → F s') → sp I P m Q → sp I (λ s, P s ∧ F s) m (λ a s, Q a s ∧ F s).
Proof.
  intros Hr HF Hm s Hs [HP Hf]. destruct (Hm s Hs HP) as [I1 I2]. split; [done|]. intros a Ha. split; [auto|].
  eapply HF; [apply Hr|done].
Qed.
End Triple.
