(* ===== verification/Migrate.v ===== *)
(** Selection and switch of the metadata engine
    (roci-storage/src/metadata/mod.rs): the marker file, the detection of the
    active engine, and the migration between the log and the LMDB engine. The
    directory is a record of the files the code names; every call that changes
    it may fail or be the last one before a crash. *)

From S2P Require Import Config.
From S2P Require Import Prelude RustStr Json Errors Digest Metadata MetaLog Lmdb Effect.

(** The section as the engines see it; [hmac_key_file] is what loading the key
    file gives. *)
Record MetadataConfig := {
  engine : MetadataEngine;
  hmac_key_file : option (result io_error bytes);
  compact_threshold_bytes : Z;
}.

(** ** The directory *)

Section Migrate.
Context `{!Heed, !SerdeJson, !Crypto, !Hmac, !HashIter}.

Inductive Artifact := ALog (file : bytes) | ALmdb (x : Dbs).

(** The files [roci-meta.engine], [roci-meta.log], [roci-meta.lmdb/], the two
    [*.migrating] and the copies moved aside; [log_readable] is the permission
    to read the log. *)
Record Root := mkRoot {
  marker : option bytes;
  meta_log : option bytes;
  log_readable : bool;
  meta_lmdb : option Dbs;
  log_migrating : option bytes;
  lmdb_migrating : option Dbs;
  aside : gmap string Artifact;
}.

Definition set_marker (m : option bytes) (r : Root) : Root :=
  mkRoot m (meta_log r) (log_readable r) (meta_lmdb r) (log_migrating r) (lmdb_migrating r) (aside r).
Definition set_log (f : option bytes) (r : Root) : Root :=
  mkRoot (marker r) f (log_readable r) (meta_lmdb r) (log_migrating r) (lmdb_migrating r) (aside r).
Definition set_lmdb (x : option Dbs) (r : Root) : Root :=
  mkRoot (marker r) (meta_log r) (log_readable r) x (log_migrating r) (lmdb_migrating r) (aside r).
Definition set_log_migrating (f : option bytes) (r : Root) : Root :=
  mkRoot (marker r) (meta_log r) (log_readable r) (meta_lmdb r) f (lmdb_migrating r) (aside r).
Definition set_lmdb_migrating (x : option Dbs) (r : Root) : Root :=
  mkRoot (marker r) (meta_log r) (log_readable r) (meta_lmdb r) (log_migrating r) x (aside r).
Definition set_aside (n : string) (a : Artifact) (r : Root) : Root :=
  mkRoot (marker r) (meta_log r) (log_readable r) (meta_lmdb r) (log_migrating r) (lmdb_migrating r) (<[n := a]> (aside r)).

(** What becomes of a call: [n] is how much of a write reached the disk. *)
Inductive fate := FOk | FErr (n : nat) (e : io_error) | FCrash (n : nat).

(** How a program stops: with an error of its own, or by a crash, which no code
    handles. *)
Inductive halt := Failed (e : io_error) | Crashed.

Record MS := { root : Root; fates : list fate }.
Definition Mig (A : Type) : Type := M MS halt A.

(** A call that changes the directory by [f], or by [g n] when it is cut off. *)
Definition sys_cut (f : Root → Root) (g : nat → Root → Root) : Mig () := λ st,
  match fates st with
  | [] => ({| root := f (root st); fates := [] |}, Ok tt)
  | FOk :: l => ({| root := f (root st); fates := l |}, Ok tt)
  | FErr n e :: l => ({| root := g n (root st); fates := l |}, Err (Failed e))
  | FCrash n :: l => ({| root := g n (root st); fates := l |}, Err Crashed)
  end.
Definition sys (f : Root → Root) : Mig () := sys_cut f (λ _ r, r).
Definition fail {A} (e : io_error) : Mig A := throw (Failed e).
Definition look {A} (f : Root → A) : Mig A := gets (λ st, f (root st)).
Definition of_io {A} (r : result io_error A) : Mig A := of_result (map_err Failed r).

(** The error of [m] as a value, unless it is a crash. *)
Definition catch {A} (m : Mig A) : Mig (result io_error A) := λ st,
  match m st with
  | (st', Ok a) => (st', Ok (Ok a))
  | (st', Err (Failed e)) => (st', Ok (Err e))
  | (st', Err Crashed) => (st', Err Crashed)
  end.
(** [let _ = …] *)
Definition ignore (m : Mig ()) : Mig () := _ ← catch m; mret tt.

(** ** The marker *)

Definition MARKER_FILE : string := "roci-meta.engine".

Record EngineMarker := { em_engine : string; em_format : string }.

Definition format_label (config : MetadataConfig) : string :=
  if bool_decide (is_Some (hmac_key_file config)) && bool_decide (engine config = Log) then "hmac" else "plain".

(** The derived [Deserialize]: both members are strings. *)
Definition marker_of_json (v : json) : option EngineMarker :=
  e ← jget "engine" v ≫= as_str;
  f ← jget "format" v ≫= as_str;
  Some {| em_engine := e; em_format := f |}.

Definition marker_json (m : EngineMarker) : json :=
  JObject [("engine", JString (em_engine m)); ("format", JString (em_format m))].

(** [read_to_string] fails on text that is not UTF-8, like on a missing file. *)
Definition read_marker (r : Root) : result io_error (option EngineMarker) :=
  match marker r with
  | None => Ok None
  | Some b =>
      if negb (utf8_valid b) then Ok None else
      match from_slice b ≫= marker_of_json with
      | Some m => Ok (Some m)
      | None => Err (IoError KInvalidData ("bad " +:+ MARKER_FILE))
      end
  end.

Definition engine_name (e : MetadataEngine) : string :=
  match e with Log => "log" | Lmdb => "lmdb" | Redb => "redb" end.

(** The temporary file is written and synced, then renamed over the marker;
    the sync of the directory may fail silently. *)
Definition write_marker (config : MetadataConfig) : Mig () :=
  let json := to_vec (marker_json {| em_engine := engine_name (engine config); em_format := format_label config |}) in
  sys id;;
  sys id;;
  sys id;;
  sys (set_marker (Some json));;
  ignore (sys id).

Definition write_marker_if_missing (config : MetadataConfig) : Mig () :=
  m ← look marker;
  match m with
  | None => ignore (write_marker config)
  | Some _ => mret tt
  end.

(** ** Detection *)

Definition marker_to_engine (name : string) : option MetadataEngine :=
  if decide (name = "log") then Some Log
  else if decide (name = "lmdb") then Some Lmdb
  else None.

Definition detect_active_engine (config : MetadataConfig) (r : Root) : result io_error MetadataEngine :=
  match read_marker r with
  | Err e => Err e
  | Ok m =>
      match m ≫= λ m, marker_to_engine (em_engine m) with
      | Some e => Ok e
      | None =>
          match meta_log r, meta_lmdb r with
          | Some _, None => Ok Log
          | None, Some _ => Ok Lmdb
          | Some _, Some _ => Ok (engine config)
          | None, None => Ok (engine config)
          end
      end
  end.

(** ** Opening an engine *)

Inductive Store := SLog (ls : LogStore) | SLmdb (x : Dbs).

Definition UNSUPPORTED : io_error := IoError KUnsupported "the redb engine has been removed".

Definition load_key (config : MetadataConfig) : result io_error (option bytes) :=
  match hmac_key_file config with
  | None => Ok None
  | Some (Ok k) => Ok (Some k)
  | Some (Err e) => Err e
  end.

(** [LogMetadataStore::open_with]: a log that cannot be read counts as absent,
    one with the wrong framing is moved away. *)
Definition open_log (config : MetadataConfig) : Mig Store :=
  key ← of_io (load_key config);
  readable ← look log_readable;
  if (readable : bool) then
    file ← look meta_log;
    let ls := open_inner file (compact_threshold_bytes config) key in
    modify (λ st, {| root := set_log (log_file ls) (root st); fates := fates st |});;
    mret (SLog ls)
  else mret (SLog (open_inner None (compact_threshold_bytes config) key)).

(** [LmdbMetadataStore::open]: the environment is created when it is missing. *)
Definition open_lmdb (opens : result io_error ()) : Mig Store :=
  match opens with
  | Err e => fail e
  | Ok _ =>
      x ← look (λ r, default open_env (meta_lmdb r));
      modify (λ st, {| root := set_lmdb (Some x) (root st); fates := fates st |});;
      mret (SLmdb x)
  end.

Definition open_engine (e : MetadataEngine) (config : MetadataConfig) (opens : result io_error ()) : Mig Store :=
  match e with
  | Log => open_log config
  | Lmdb => open_lmdb opens
  | Redb => fail UNSUPPORTED
  end.

(** ** The queries of the trait *)

Definition store_resolve_tag (s : Store) (repo tag : string) : option (string * string) :=
  match s with SLog ls => resolve_tag (ram ls) repo tag | SLmdb x => lmdb_resolve_tag x repo tag end.
Definition store_media_type (s : Store) (repo digest : string) : option string :=
  match s with SLog ls => manifest_media_type (ram ls) repo digest | SLmdb x => lmdb_manifest_media_type x repo digest end.
Definition store_tags_page (s : Store) (repo : string) (last : option string) (limit : nat) : option (Page string) :=
  match s with SLog ls => tags_page (ram ls) repo last limit | SLmdb x => lmdb_tags_page x repo last limit end.
Definition store_referrers_page (s : Store) (repo subject : string) (atype last : option string) (limit : nat)
    : option (Page (string * bytes)) :=
  match s with
  | SLog ls => referrers_page (ram ls) repo subject atype last limit
  | SLmdb x => lmdb_referrers_page x repo subject atype last limit
  end.
Definition store_backrefs (s : Store) (repo blob : string) : list string :=
  match s with SLog ls => get_backrefs (ram ls) repo blob | SLmdb x => lmdb_backrefs x repo blob end.
Definition store_checksum (s : Store) (repo digest : string) : option BlobChecksum :=
  match s with SLog ls => checksum (ram ls) repo digest | SLmdb x => lmdb_checksum x repo digest end.
Definition store_repos (s : Store) : list string :=
  match s with SLog ls => repos (ram ls) | SLmdb x => lmdb_repos x end.
Definition store_manifests (s : Store) (repo : string) : list string :=
  match s with SLog ls => manifests (ram ls) repo | SLmdb x => lmdb_manifests x repo end.
Definition store_tags_snapshot (s : Store) (repo : string) : list (string * string * string) :=
  match s with SLog ls => tags_snapshot (ram ls) repo | SLmdb x => lmdb_tags_snapshot x repo end.
Definition store_referrers_snapshot (s : Store) (repo : string) : list (string * list (string * bytes)) :=
  match s with SLog ls => referrers_snapshot (ram ls) repo | SLmdb x => lmdb_referrers_snapshot x repo end.
Definition store_export (s : Store) : list MetaOp :=
  match s with SLog ls => export_state (ram ls) | SLmdb x => export_impl x end.

Definition sorted_refs (l : list (string * list (string * bytes))) : list (string * list (string * bytes)) :=
  (λ p, (p.1, merge_sort key_le p.2)) <$> merge_sort key_le l.

Definition VERIFY : io_error := IoError KInvalidData "migration verify failed".

Definition repo_verified (source dest : Store) (repo : string) : bool :=
  bool_decide (merge_sort String.le (store_manifests source repo) = merge_sort String.le (store_manifests dest repo)) &&
  bool_decide (store_tags_snapshot source repo = store_tags_snapshot dest repo) &&
  bool_decide (sorted_refs (store_referrers_snapshot source repo) = sorted_refs (store_referrers_snapshot dest repo)).

Definition verify_migration (source dest : Store) : result io_error () :=
  if negb (bool_decide (store_repos source = store_repos dest)) then Err VERIFY
  else if forallb (repo_verified source dest) (store_repos source) then Ok tt
  else Err VERIFY.

(** ** Migration *)

Definition clean_migrating_leftovers : Mig () :=
  lm ← look lmdb_migrating;
  (match lm with Some _ => ignore (sys (set_lmdb_migrating None)) | None => mret tt end);;
  lo ← look log_migrating;
  match lo with Some _ => ignore (sys (set_log_migrating None)) | None => mret tt end.

Definition aside_name (e : MetadataEngine) (ts : Z) : string :=
  "roci-meta." +:+ engine_name e +:+ ".migrated-" +:+ u64_to_string ts.

Definition NOT_EMPTY : io_error := IoError KOther "directory not empty".

(** [rename] of the log replaces a file of that name, that of the environment
    fails on a directory that is not empty. *)
Definition move_aside (e : MetadataEngine) (ts : Z) : Mig () :=
  r ← look id;
  match e with
  | Log =>
      match meta_log r with
      | Some f => sys (λ r, set_log None (set_aside (aside_name Log ts) (ALog f) r))
      | None => mret tt
      end
  | Lmdb =>
      match meta_lmdb r with
      | Some x =>
          if bool_decide (is_Some (aside r !! aside_name Lmdb ts)) then fail NOT_EMPTY
          else sys (λ r, set_lmdb None (set_aside (aside_name Lmdb ts) (ALmdb x) r))
      | None => mret tt
      end
  | Redb => mret tt
  end.

Definition move_stale_destination_aside (dest : MetadataEngine) (ts : Z) : Mig () := move_aside dest ts.
Definition move_old_source (source : MetadataEngine) (ts : Z) : Mig () := move_aside source ts.

Definition BATCH : nat := 10000.

Definition bulk (batch : list MetaOp) : Mig () :=
  sys (λ r, set_lmdb_migrating (Some (foldl apply_op (default open_env (lmdb_migrating r)) batch)) r).

(** The sink of the export: full batches are applied as they come. *)
Fixpoint feed (batch ops : list MetaOp) : Mig () :=
  match ops with
  | [] => match batch with [] => mret tt | _ => bulk batch end
  | op :: ops =>
      let batch := batch ++ [op] in
      if decide (BATCH ≤ length batch) then bulk batch;; feed [] ops else feed batch ops
  end.

Definition build_lmdb_destination (source : Store) : Mig () :=
  sys (λ r, set_lmdb_migrating (Some (default open_env (lmdb_migrating r))) r);;
  feed [] (store_export source);;
  sys id.

Definition build_log_destination (config : MetadataConfig) (source : Store) : Mig () :=
  key ← of_io (load_key config);
  sys (set_log_migrating (Some []));;
  let image := header_record key ++ encode_ops key (store_export source) in
  sys_cut (set_log_migrating (Some image)) (λ n, set_log_migrating (Some (take n image)));;
  sys id.

Definition build_destination (dest : MetadataEngine) (config : MetadataConfig) (source : Store) : Mig () :=
  match dest with
  | Lmdb => build_lmdb_destination source
  | Log => build_log_destination config source
  | Redb => mret tt
  end.

(** The temporary log is copied to a directory of its own and opened there. *)
Definition open_engine_at (dest : MetadataEngine) (config : MetadataConfig) : Mig Store :=
  match dest with
  | Lmdb =>
      sys id;;
      x ← look (λ r, default open_env (lmdb_migrating r));
      mret (SLmdb x)
  | _ =>
      sys id;;
      sys id;;
      key ← of_io (load_key config);
      file ← look log_migrating;
      mret (SLog (open_inner file (compact_threshold_bytes config) key))
  end.

(** The rename of the temporary artifact to its final name. *)
Definition install (dest : MetadataEngine) : Mig () :=
  match dest with
  | Lmdb => sys (λ r, set_lmdb_migrating None (set_lmdb (lmdb_migrating r) r))
  | _ => sys (λ r, set_log_migrating None (set_log (log_migrating r) r))
  end.

(** The times read and the outcome of opening each environment are inputs. *)
Record Env := { ts_stale : Z; ts_old : Z; source_opens : result io_error (); dest_opens : result io_error () }.

Definition migrate (source_engine : MetadataEngine) (config : MetadataConfig) (env : Env) : Mig Store :=
  let dest := engine config in
  clean_migrating_leftovers;;
  move_stale_destination_aside dest (ts_stale env);;
  src ← catch (open_engine source_engine config (source_opens env));
  match src with
  | Err _ =>
      store ← open_engine dest config (dest_opens env);
      write_marker config;;
      mret store
  | Ok source =>
      build_destination dest config source;;
      dest_store ← open_engine_at dest config;
      of_io (verify_migration source dest_store);;
      install dest;;
      sys id;;
      write_marker config;;
      move_old_source source_engine (ts_old env);;
      open_engine dest config (dest_opens env)
  end.

Definition open_metadata (config : MetadataConfig) (env : Env) : Mig Store :=
  if decide (engine config = Redb) then fail UNSUPPORTED else
  r ← look id;
  active ← of_io (detect_active_engine config r);
  if decide (active = engine config) then
    store ← open_engine active config (dest_opens env);
    write_marker_if_missing config;;
    mret store
  else migrate active config env.

(** A start of the server and the directory it leaves. *)
Record Start := { st_config : MetadataConfig; st_env : Env; st_fates : list fate }.

Definition start (r : Root) (x : Start) : MS * result halt Store :=
  open_metadata (st_config x) (st_env x) {| root := r; fates := st_fates x |}.
Definition after_start (r : Root) (x : Start) : Root := root (start r x).1.
End Migrate.
