(* ===== verification/MigrateFacts.v ===== *)
(** The switch of the metadata engine keeps the metadata: whatever calls fail
    and wherever the process stops, the directory is left so that every later
    start serves the same metadata, and a start without failures succeeds. *)

From S2P Require Import Config.
From S2P Require Import Prelude RustStr Json Errors Digest Metadata MetaExport MetaLog.
From S2P Require Import Lmdb LmdbFacts LmdbRefines LmdbQueries MetaViews Effect Migrate.

(** ** Equivalent states answer alike *)

Section Answers.
Context {serde : SerdeJson} {hash : HashIter}.
Implicit Types s : State.

Lemma option_le {A} (a b : option A) : (∀ v, a = Some v → b = Some v) → (∀ v, b = Some v → a = Some v) → a = b.
Proof. intros H1 H2. apply option_eq. naive_solver. Qed.

Lemma view_tags s s' r : view_equiv s s' → tags (repo_of s r) = tags (repo_of s' r).
Proof. intros [H1 H2]. apply map_eq. intros t. apply option_le; [apply (le_tag _ _ H1)|apply (le_tag _ _ H2)]. Qed.

Lemma view_media s s' r : view_equiv s s' → media_types (repo_of s r) = media_types (repo_of s' r).
Proof. intros [H1 H2]. apply map_eq. intros t. apply option_le; [apply (le_media _ _ H1)|apply (le_media _ _ H2)]. Qed.

Lemma view_subject s s' r j :
  view_equiv s s' → state_ok s → state_ok s' → by_digest (subject_refs s r j) = by_digest (subject_refs s' r j).
Proof.
  intros [H1 H2] Hok Hok'. apply map_eq. intros d.
  assert (referrer_of s r j d = referrer_of s' r j d) as E by (apply option_le; [apply (le_referrer _ _ H1)|apply (le_referrer _ _ H2)]).
  rewrite !referrer_of_subject in E. pose proof (subject_refs_ok s r j Hok) as H3. pose proof (subject_refs_ok s' r j Hok') as H4.
  destruct (by_digest (subject_refs s r j) !! d) as [[t b]|] eqn:E1, (by_digest (subject_refs s' r j) !! d) as [[t' b']|] eqn:E2;
    simpl in E; try done. simplify_eq. by rewrite (sr_types _ H3 _ _ _ E1), (sr_types _ H4 _ _ _ E2).
Qed.

Lemma view_referrers s s' r :
  view_equiv s s' → state_ok s → state_ok s' → referrers (repo_of s r) = referrers (repo_of s' r).
Proof.
  intros Hv Hok Hok'. apply map_eq. intros j. pose proof (view_subject s s' r j Hv Hok Hok') as E.
  unfold subject_refs in E.
  destruct (referrers (repo_of s r) !! j) as [sr|] eqn:E1, (referrers (repo_of s' r) !! j) as [sr'|] eqn:E2; simpl in E; try done.
  - f_equal. apply sr_ext; [apply (referrers_ok _ (state_ok_repo_of _ r Hok) _ _ E1)|apply (referrers_ok _ (state_ok_repo_of _ r Hok') _ _ E2)|done].
  - destruct (referrers_ok _ (state_ok_repo_of _ r Hok) _ _ E1) as [_ []]. done.
  - destruct (referrers_ok _ (state_ok_repo_of _ r Hok') _ _ E2) as [_ []]. done.
Qed.

(** The snapshots by repository. *)
Lemma repos_elem s r : r ∈ repos s ↔ listed (repo_of s r) = true.
Proof.
  unfold repos, repo_of. rewrite merge_sort_Permutation, list_elem_of_fmap. split.
  - intros ([? rs] & -> & Hin). rewrite list_elem_of_filter, iter_perm, elem_of_map_to_list in Hin.
    destruct Hin as [Hl E]. simpl in *. by rewrite E.
  - destruct (s !! r) as [rs|] eqn:E; simpl; [|done]. intros Hl. exists (r, rs). split; [done|].
    by rewrite list_elem_of_filter, iter_perm, elem_of_map_to_list.
Qed.

Lemma repos_sorted s : StronglySorted String.le (repos s) ∧ NoDup (repos s).
Proof.
  unfold repos. split; [apply StronglySorted_merge_sort; apply _|].
  rewrite merge_sort_Permutation. apply NoDup_filter_keys. rewrite iter_perm. apply NoDup_fst_map_to_list.
Qed.

Lemma view_repos s s' : view_equiv s s' → state_ok s → state_ok s' → repos s = repos s'.
Proof.
  intros Hv Hok Hok'. destruct (repos_sorted s), (repos_sorted s'). apply sorted_keys_eq; [done..|].
  intros r. rewrite !repos_elem. unfold listed. by rewrite (view_media s s'), (view_referrers s s').
Qed.

Lemma manifests_repo s r : manifests s r ≡ₚ (map_to_list (media_types (repo_of s r))).*1.
Proof. unfold manifests, repo_of. destruct (s !! r); simpl; [by rewrite iter_perm|by rewrite map_to_list_empty]. Qed.

Lemma tags_snapshot_repo s r : tags_snapshot s r = (λ '(t, (d, m)), (t, d, m)) <$> btree (tags (repo_of s r)).
Proof. unfold tags_snapshot, repo_of. destruct (s !! r); simpl; [done|]. unfold btree. by rewrite map_to_list_empty. Qed.

Lemma referrers_snapshot_repo s s' r :
  referrers (repo_of s r) = referrers (repo_of s' r) → referrers_snapshot s r ≡ₚ referrers_snapshot s' r.
Proof.
  intros E. apply NoDup_Permutation; [apply referrers_snapshot_NoDup..|]. intros [j l]. by rewrite !referrers_snapshot_elem, E.
Qed.
End Answers.

(** ** What a store serves *)

Section Serves.
Context {heed : Heed} {heed_laws : HeedLaws} {serde : SerdeJson} {hash : HashIter}.
Implicit Types (s : State) (st : Store) (x : Dbs).

Definition serves s st : Prop :=
  match st with
  | SLog ls => view_equiv (ram ls) s ∧ state_ok (ram ls)
  | SLmdb x => sim s x
  end.

Lemma sim_view s s' x : view_equiv s s' → sim s x → sim s' x.
Proof.
  intros [H1 H2] [S1 S2 S3 S4 S5]. split.
  - eapply tags_sim_proper; [|exact S1]. intros *. apply option_le; [apply (le_tag _ _ H1)|apply (le_tag _ _ H2)].
  - eapply pair_sim_proper; [|exact S2]. intros *. apply option_le; [apply (le_media _ _ H1)|apply (le_media _ _ H2)].
  - eapply refs_sim_proper; [|exact S3]. intros *. apply option_le; [apply (le_referrer _ _ H1)|apply (le_referrer _ _ H2)].
  - eapply back_sim_proper; [|exact S4]. intros *. split; [apply (le_refers _ _ H1)|apply (le_refers _ _ H2)].
  - eapply pair_sim_proper; [|exact S5]. intros *. apply option_le; [apply (le_checksum _ _ H1)|apply (le_checksum _ _ H2)].
Qed.

(** The repositories of a simulated state have clean names. *)
Lemma repos_clean s x r : sim s x → state_ok s → r ∈ repos s → clean r.
Proof.
  intros Hs Hok Hr. rewrite repos_elem, listed_iff in Hr by by apply state_ok_repo_of.
  destruct Hr as [[d Hd]|(j & d & Hd)].
  - assert (Forall clean [r; d]) as Hc; [|by inv Hc]. apply (rep_clean _ _ (ps_rep _ _ _ _ (sim_media _ _ Hs))). simpl. by apply fmap_is_Some.
  - assert (Forall clean [r; j; d]) as Hc; [|by inv Hc]. apply (rep_clean _ _ (rs_refs _ _ (sim_refs _ _ Hs))). simpl. by apply fmap_is_Some.
Qed.

Lemma serves_answers s st :
  serves s st → state_ok s →
  store_repos st = repos s ∧
  ∀ r, r ∈ repos s → store_manifests st r ≡ₚ manifests s r ∧ store_tags_snapshot st r = tags_snapshot s r ∧
    store_referrers_snapshot st r ≡ₚ referrers_snapshot s r.
Proof.
  destruct st as [ls|x]; simpl.
  - intros [Hv Hok'] Hok. split; [by apply view_repos|]. intros r _. split_and!.
    + by rewrite !manifests_repo, (view_media _ _ r Hv).
    + by rewrite !tags_snapshot_repo, (view_tags _ _ r Hv).
    + by apply referrers_snapshot_repo, view_referrers.
  - intros Hs Hok. split; [by apply repos_sim|]. intros r Hr. pose proof (repos_clean s x r Hs Hok Hr) as Hc.
    split_and!; [by apply manifests_sim|by apply tags_snapshot_sim|by apply referrers_snapshot_sim].
Qed.

Lemma sort_perm (l l' : list string) : l ≡ₚ l' → merge_sort String.le l = merge_sort String.le l'.
Proof.
  intros Hp. apply (StronglySorted_unique String.le); [apply StronglySorted_merge_sort; apply _..|]. by rewrite !merge_sort_Permutation.
Qed.

Lemma StronglySorted_key_sort {A} (l : list (string * A)) : StronglySorted key_le (merge_sort key_le l).
Proof.
  assert (Transitive (@key_le A)) by (intros p q t; unfold key_le; apply transitivity).
  assert (base.Total (@key_le A)) by (intros p q; apply (total String.le)). apply StronglySorted_merge_sort; apply _.
Qed.

Lemma NoDup_fst_inj {A} (l : list (string * A)) k v v' : NoDup l.*1 → (k, v) ∈ l → (k, v') ∈ l → v = v'.
Proof.
  induction l as [|[k0 v0] l IH]; intros Hn H1 H2; [by apply not_elem_of_nil in H1|].
  rewrite fmap_cons in Hn. apply NoDup_cons in Hn as [Hk Hn]. simpl in Hk.
  assert (∀ w, (k0, w) ∈ l → False) as Hnot by (intros w Hw; apply Hk, list_elem_of_fmap; by exists (k0, w)).
  apply elem_of_cons in H1, H2. destruct H1 as [H1|H1], H2 as [H2|H2]; simplify_eq; [done|by apply Hnot in H2|by apply Hnot in H1|by apply IH].
Qed.

Lemma sort_keys_perm {A} (l l' : list (string * A)) : l ≡ₚ l' → NoDup l.*1 → merge_sort key_le l = merge_sort key_le l'.
Proof.
  intros Hp Hn. apply (StronglySorted_unique_strong key_le); [|apply StronglySorted_key_sort..|by rewrite !merge_sort_Permutation].
  intros [k v] [k' v'] Hin Hin' Hle Hle'. rewrite merge_sort_Permutation in Hin, Hin'. rewrite <-Hp in Hin'.
  assert (k = k') as <- by (by apply (anti_symm String.le)). f_equal. by eapply NoDup_fst_inj.
Qed.

(** Two stores that serve the same metadata pass the verification. *)
Lemma serves_verified s st st' : serves s st → serves s st' → state_ok s → verify_migration st st' = Ok tt.
Proof.
  intros H1 H2 Hok. destruct (serves_answers s st H1 Hok) as [R1 A1], (serves_answers s st' H2 Hok) as [R2 A2].
  unfold verify_migration. rewrite R1, R2, bool_decide_true by done. cbn [negb].
  assert (forallb (repo_verified st st') (repos s) = true) as ->; [|done].
  apply forallb_forall. intros r Hr%list_elem_of_In. destruct (A1 r Hr) as (M1 & T1 & F1), (A2 r Hr) as (M2 & T2 & F2).
  unfold repo_verified. rewrite !andb_true_iff, !bool_decide_eq_true. split_and!.
  - apply sort_perm. by rewrite M1, M2.
  - by rewrite T1, T2.
  - unfold sorted_refs. f_equal. apply sort_keys_perm; [by rewrite F1, F2|]. rewrite F1. apply referrers_snapshot_keys.
Qed.
End Serves.
