(* ===== verification/MigrateCrash.v ===== *)
(** The switch of the metadata engine under failures and crashes: a small logic
    of triples over the directory, the invariant that every later start serves
    the same metadata, and the properties of [open_metadata]. *)

From S2P Require Import Config.
From S2P Require Import Prelude RustStr Json Errors Digest Metadata MetaExport MetaLog.
From S2P Require Import Lmdb LmdbFacts LmdbRefines LmdbQueries MetaViews Effect Migrate MigrateFacts.

(** ** Triples *)

Section Triples.
Context {heed : Heed}.
Implicit Types (P E : Root → Prop).

(** From a directory in [P], a program that returns leaves one in [Q], and one
    that fails or crashes leaves one in [E]; when [live], a program without
    failing calls returns. *)
Definition triple {A} (live : Prop) P (m : Mig A) (Q : A → Root → Prop) E : Prop := ∀ st,
  P (root st) →
  match m st with
  | (st', Ok a) => Q a (root st') ∧ (live → fates st = [] → fates st' = [])
  | (st', Err _) => E (root st') ∧ (live → fates st = [] → False)
  end.

Context {live : Prop}.

Lemma triple_conseq {A} P P' (m : Mig A) Q Q' E E' :
  triple live P m Q E → (∀ r, P' r → P r) → (∀ a r, Q a r → Q' a r) → (∀ r, E r → E' r) → triple live P' m Q' E'.
Proof. intros Hm HP HQ HE st Hst. specialize (Hm st (HP _ Hst)). destruct (m st) as [st' [a|e]]; naive_solver. Qed.

Lemma triple_exists {A X} (P : X → Root → Prop) (m : Mig A) Q E :
  (∀ x, triple live (P x) m Q E) → triple live (λ r, ∃ x, P x r) m Q E.
Proof. intros Hm st [x Hst]. by apply (Hm x). Qed.

Lemma triple_pure {A} (φ : Prop) P (m : Mig A) Q E : (φ → triple live P m Q E) → triple live (λ r, φ ∧ P r) m Q E.
Proof. intros Hm st [Hφ Hst]. by apply Hm. Qed.

Lemma triple_ret {A} (a : A) P Q E : (∀ r, P r → Q a r) → triple live P (mret a) Q E.
Proof. intros HQ st Hst. simpl. auto. Qed.

Lemma triple_bind {A B} P (m : Mig A) (k : A → Mig B) R Q E :
  triple live P m R E → (∀ a, triple live (R a) (k a) Q E) → triple live P (m ≫= k) Q E.
Proof.
  intros Hm Hk st Hst. specialize (Hm st Hst). unfold mbind, M_bind.
  destruct (m st) as [st1 [a|e]]; [|done]. destruct Hm as [HR Hl]. specialize (Hk a st1 HR).
  destruct (k a st1) as [st2 [b|e]]; naive_solver.
Qed.

Lemma triple_sys_cut f g P Q E :
  (∀ r, P r → Q tt (f r)) → (∀ n r, P r → E (g n r)) → triple live P (sys_cut f g) Q E.
Proof.
  intros Hf Hg [r l] Hst. unfold sys_cut. simpl in *. destruct l as [|[|n e|n] l]; simpl; split; eauto; try done.
Qed.

Lemma triple_sys f P Q E : (∀ r, P r → Q tt (f r)) → (∀ r, P r → E r) → triple live P (sys f) Q E.
Proof. intros Hf HE. by apply triple_sys_cut. Qed.

Lemma triple_look {A B} (f : Root → A) (k : A → Mig B) P Q E :
  (∀ a, triple live (λ r, P r ∧ f r = a) (k a) Q E) → triple live P (look f ≫= k) Q E.
Proof. intros Hk st Hst. apply (Hk (f (root st)) st). done. Qed.

Lemma triple_modify f P Q E :
  (∀ r, P r → Q tt (f r)) → triple live P (modify (λ st, {| root := f (root st); fates := fates st |})) Q E.
Proof. intros Hf st Hst. simpl. auto. Qed.

Lemma triple_fail {A} e P (Q : A → Root → Prop) E : (∀ r, P r → E r) → (∀ r, P r → ¬ live) → triple live P (fail e) Q E.
Proof. intros HE Hl st Hst. simpl. split; [by apply HE|]. intros Hlive _. by apply (Hl _ Hst). Qed.

Lemma triple_of_io {A} (v : A) r P Q E : r = Ok v → (∀ r, P r → Q v r) → triple live P (of_io r) Q E.
Proof. intros -> HQ st Hst. simpl. auto. Qed.

Lemma triple_ignore P (m : Mig ()) (Q : Root → Prop) E :
  triple live P m (λ _, Q) (λ r, Q r ∧ E r) → triple live P (ignore m) (λ _, Q) E.
Proof.
  intros Hm st Hst. specialize (Hm st Hst). unfold ignore, catch, mbind, M_bind.
  destruct (m st) as [st' [a|[e|]]]; simpl; naive_solver.
Qed.

(** The error of a program that cannot fail is never seen. *)
Lemma triple_catch {A} P (m : Mig A) Q E :
  triple live P m Q (λ _, False) → triple live P (catch m) (λ res r, ∃ a, res = Ok a ∧ Q a r) E.
Proof.
  intros Hm st Hst. specialize (Hm st Hst). unfold catch. destruct (m st) as [st' [a|[e|]]]; naive_solver.
Qed.
End Triples.

(** ** The invariant of the directory *)

Section Crash.
Context {heed : Heed} {heed_laws : HeedLaws} {serde : SerdeJson} {serde_laws : SerdeLaws}.
Context {crypto : Crypto} {crypto_laws : CryptoLaws} {hmac : Hmac} {hmac_laws : HmacLaws} {hash : HashIter}.

(** The metadata both engines can hold: tags carry the media type of their
    manifest, and every record can be a key of LMDB and a record of the log. *)
Record portable (s : State) : Prop := {
  po_ok : state_ok s;
  po_coherent : coherent s;
  po_ops : Forall (λ op, op_clean op ∧ op_ok op) (export_state s);
}.

Context (key : option bytes) (s : State) (Hs : portable s).
Implicit Types r : Root.

Definition present (e : MetadataEngine) r : Prop :=
  match e with Log => is_Some (meta_log r) | Lmdb => is_Some (meta_lmdb r) | Redb => False end.

(** The files of an engine hold the metadata [s]. *)
Definition holds (e : MetadataEngine) r : Prop :=
  match e with
  | Log =>
      let ls := open_inner (meta_log r) 0 key in
      log_file ls = meta_log r ∧ view_equiv (ram ls) s ∧ state_ok (ram ls)
  | Lmdb => sim s (default open_env (meta_lmdb r))
  | Redb => False
  end.

(** The engine the marker names. *)
Definition mark r : result io_error (option MetadataEngine) :=
  match read_marker r with
  | Err e => Err e
  | Ok m => Ok (m ≫= λ m, marker_to_engine (em_engine m))
  end.

(** A left-over environment holds a part of the metadata. *)
Definition leftover r : Prop := ∀ x, lmdb_migrating r = Some x → ∃ s0, le_view s0 s ∧ sim s0 x.

Definition inv r : Prop :=
  log_readable r = true ∧ leftover r ∧
  match mark r with
  | Err _ => False
  | Ok (Some e) => holds e r
  | Ok None => (∀ e, present e r → holds e r) ∧ ((∀ e, ¬ present e r) → view_equiv ∅ s)
  end.

Definition other (e : MetadataEngine) : MetadataEngine :=
  match e with Log => Lmdb | Lmdb => Log | Redb => Redb end.

(** Before the commit of a switch away from [a], and after one to [d]. *)
Definition pre (a : MetadataEngine) r : Prop :=
  holds a r ∧ log_readable r = true ∧ leftover r ∧
  (mark r = Ok (Some a) ∨ (mark r = Ok None ∧ present a r ∧ (present (other a) r → holds (other a) r))).
Definition post (d : MetadataEngine) r : Prop := holds d r ∧ log_readable r = true ∧ leftover r ∧ mark r = Ok (Some d).

Lemma pre_inv a r : pre a r → inv r.
Proof.
  intros (Hh & Hr & Hl & [Hm|(Hm & Hp & Ho)]); unfold inv; rewrite Hm; split_and!; try done.
  - intros e He. destruct (decide (e = a)) as [->|Hne]; [done|].
    assert (e = other a) as -> by (by destruct a, e). by apply Ho.
  - intros Hn. by destruct (Hn a).
Qed.

Lemma post_inv d r : post d r → inv r.
Proof. intros (Hh & Hr & Hl & Hm). unfold inv. by rewrite Hm. Qed.

(** ** Opening *)

Definition config_ok (config : MetadataConfig) : Prop := load_key config = Ok key ∧ engine config ≠ Redb.

Lemma open_inner_th file th :
  ram (open_inner file th key) = ram (open_inner file 0 key) ∧ log_file (open_inner file th key) = log_file (open_inner file 0 key).
Proof. unfold open_inner. destruct file as [[|b l]|]; [done| |done]. repeat case_match; done. Qed.

Lemma holds_empty e r : e ≠ Redb → (∀ e, ¬ present e r) → view_equiv ∅ s → holds e r.
Proof.
  intros He Hn Hv. assert (meta_log r = None) as E1 by (apply eq_None_not_Some, (Hn Log)).
  assert (meta_lmdb r = None) as E2 by (apply eq_None_not_Some, (Hn Lmdb)). destruct e; simpl; [| |done].
  - rewrite E1. split_and!; [done|done|]. intros r' rs. change (ram (open_inner None 0 key)) with (∅ : State). by rewrite lookup_empty.
  - rewrite E2. simpl. apply (sim_view ∅); [done|apply sim_empty].
Qed.

(** The engine that is detected holds the metadata. *)
Lemma detect_inv config r :
  inv r → engine config ≠ Redb →
  ∃ a, detect_active_engine config r = Ok a ∧ a ≠ Redb ∧ holds a r ∧ (a ≠ engine config → pre a r).
Proof.
  intros (Hrd & Hlo & Hinv) Hc. unfold inv, mark in Hinv. unfold detect_active_engine. unfold pre, mark.
  destruct (read_marker r) as [m|e]; [|done].
  destruct (m ≫= λ m, marker_to_engine (em_engine m)) as [a|] eqn:Em.
  - exists a. assert (a ≠ Redb) by (destruct m; [|done]; simpl in Em; unfold marker_to_engine in Em; repeat case_decide; naive_solver).
    split_and!; [done|done|done|]. intros _. split_and!; [done..|by left].
  - destruct Hinv as [Hp Hn].
    assert (meta_log r ≠ None → holds Log r) as HL by (intros ?; apply (Hp Log); by apply not_eq_None_Some).
    assert (meta_lmdb r ≠ None → holds Lmdb r) as HM by (intros ?; apply (Hp Lmdb); by apply not_eq_None_Some).
    destruct (meta_log r) as [f|] eqn:E1, (meta_lmdb r) as [x|] eqn:E2.
    + exists (engine config). split_and!; [done|done| |done]. destruct (engine config); [by apply HL|by apply HM|done].
    + exists Log. assert (holds Log r) by by apply HL. split_and!; [done..|]. intros _. split_and!; [done..|]. right. split_and!; [done|simpl; by rewrite E1|].
      simpl. rewrite E2. by intros [].
    + exists Lmdb. assert (holds Lmdb r) by by apply HM. split_and!; [done..|]. intros _. split_and!; [done..|]. right. split_and!; [done|simpl; by rewrite E2|].
      simpl. rewrite E1. by intros [].
    + exists (engine config). split_and!; [done|done| |done]. assert (∀ e, ¬ present e r) as Hnone.
      { intros []; simpl; rewrite ?E1, ?E2; [by intros [] ..|by intros []]. }
      apply holds_empty; [done|done|by apply Hn].
Qed.

Definition touch r : Root := set_lmdb (Some (default open_env (meta_lmdb r))) r.

Lemma holds_touch e r : holds e r → holds e (touch r).
Proof. by destruct e. Qed.

Lemma set_log_same r : set_log (meta_log r) r = r.
Proof. by destruct r. Qed.

(** Opening an engine that holds the metadata serves it. *)
Lemma open_engine_ok {live} e config P E :
  config_ok config → (∀ r, P r → holds e r ∧ log_readable r = true) → (e = Lmdb → ∀ r, P r → P (touch r)) →
  triple live P (open_engine e config (Ok tt)) (λ st r, serves s st ∧ P r) E.
Proof.
  intros [Hk _] HP Ht. destruct e; simpl; [| |intros st Hst; by destruct (HP _ Hst)].
  - unfold open_log. eapply triple_bind; [apply (triple_of_io key _ P (λ a r, a = key ∧ P r)); [done|by auto]|]. intros k.
    apply triple_look. intros b. destruct b; [|intros st [[_ Hst] Hb]; destruct (HP _ Hst); congruence].
    apply triple_look. intros f. eapply triple_bind; [apply (triple_modify _ _ (λ _ r, P r ∧ k = key ∧ meta_log r = f))|].
    + intros r [[[Ek Hr] _] Ef]. rewrite Ek, <-Ef. destruct (HP r Hr) as [(Hf & _ & _) _]. simpl. rewrite (proj2 (open_inner_th _ _)), Hf, set_log_same. done.
    + intros []. apply triple_ret. intros r (Hr & Ek & Ef). rewrite Ek, <-Ef. split; [|done]. destruct (HP r Hr) as [(_ & Hv & Hok) _]. simpl.
      by rewrite (proj1 (open_inner_th _ _)).
  - apply triple_look. intros x. eapply triple_bind; [apply (triple_modify _ _ (λ _ r, P r ∧ sim s x))|].
    + intros r [Hr <-]. split; [by apply (Ht eq_refl)|]. by apply HP.
    + intros []. apply triple_ret. intros r [Hr Hx]. done.
Qed.

Lemma open_engine_any {live} e config opens P E :
  config_ok config → (live → opens = Ok tt) → (∀ r, P r → holds e r ∧ log_readable r = true) →
  (e = Lmdb → ∀ r, P r → P (touch r)) → (∀ r, P r → E r) →
  triple live P (open_engine e config opens) (λ st r, serves s st ∧ P r) E.
Proof.
  intros Hc Hl HP Ht HE. destruct opens as [[]|err]; [by apply open_engine_ok|].
  destruct e; [by apply (open_engine_ok Log config)| |by apply (open_engine_ok Redb config)].
  apply triple_fail; [done|]. intros _ _ Hlive. by specialize (Hl Hlive).
Qed.

(** ** The steps of a switch *)

Context (env : Env) (Hsrc : source_opens env = Ok tt).

(** Nothing but the failure of a call can stop the switch: the destination
    opens and no copy of this second is in the way. *)
Definition fresh (copies : gmap string Artifact) : Prop :=
  copies !! aside_name Lmdb (ts_stale env) = None ∧ copies !! aside_name Lmdb (ts_old env) = None.
Definition old_fresh (a : MetadataEngine) (copies : gmap string Artifact) : Prop :=
  a = Lmdb → copies !! aside_name Lmdb (ts_old env) = None.

Context (live : Prop) (Hopens : live → dest_opens env = Ok tt).

Definition good (F : gmap string Artifact → Prop) (a : MetadataEngine) r : Prop := pre a r ∧ (live → F (aside r)).

Lemma good_inv F a r : good F a r → inv r.
Proof. intros [H _]. by eapply pre_inv. Qed.

Lemma good_leftover F a r y :
  (∀ x, y = Some x → ∃ s0, le_view s0 s ∧ sim s0 x) → good F a r → good F a (set_lmdb_migrating y r).
Proof. intros Hy [(H1 & H2 & H3 & H4) Hf]. split; [|done]. by split_and!. Qed.

Lemma good_touch F r : good F Lmdb r → good F Lmdb (touch r).
Proof.
  intros [(H1 & H2 & H3 & H4) Hf]. split; [|done]. split_and!; [done..|]. destruct H4 as [H4|(H4 & _ & H5)]; [by left|right].
  split_and!; [done|simpl; by eauto|done].
Qed.

Lemma clean_triple F a : triple live (good F a) clean_migrating_leftovers (λ _, good F a) inv.
Proof.
  apply triple_look. intros lm. eapply (triple_bind _ _ _ (λ _, good F a)).
  - destruct lm as [x|]; [|apply triple_ret; by intros r [? _]]. apply triple_ignore, triple_sys.
    + intros r [Hr _]. by apply good_leftover.
    + intros r [Hr _]. split; [done|by eapply good_inv].
  - intros _. apply triple_look. intros lo. destruct lo as [f|]; [|apply triple_ret; by intros r [? _]].
    apply triple_ignore, triple_sys; intros r [Hr _]; [done|]. split; [done|by eapply good_inv].
Qed.

Lemma aside_names_differ ts ts' : aside_name Log ts ≠ aside_name Lmdb ts'.
Proof. unfold aside_name. by intros [=]. Qed.

Lemma move_aside_triple e ts (P Q E : Root → Prop) :
  (∀ r, P r → E r) → (e = Lmdb → live → ∀ r, P r → aside r !! aside_name Lmdb ts = None) →
  (∀ r, P r → ¬ present e r → Q r) →
  (e = Log → ∀ r f, P r → Q (set_log None (set_aside (aside_name Log ts) (ALog f) r))) →
  (e = Lmdb → ∀ r x, P r → Q (set_lmdb None (set_aside (aside_name Lmdb ts) (ALmdb x) r))) →
  triple live P (move_aside e ts) (λ _, Q) E.
Proof.
  intros HE Hf Hn HL HM. unfold move_aside. apply triple_look. intros r0. destruct e.
  - destruct (meta_log r0) as [f|] eqn:Ef.
    + apply triple_sys; intros r [Hr _]; auto.
    + apply triple_ret. intros r [Hr E0]. apply Hn; [done|]. unfold id in E0. subst. simpl. rewrite Ef. by intros [].
  - destruct (meta_lmdb r0) as [x|] eqn:Ex.
    + case_bool_decide as Ha.
      * apply triple_fail; intros r [Hr E0]; [by auto|]. intros Hlive. unfold id in E0. subst.
        rewrite (Hf eq_refl Hlive _ Hr) in Ha. by destruct Ha.
      * apply triple_sys; intros r [Hr _]; auto.
    + apply triple_ret. intros r [Hr E0]. apply Hn; [done|]. unfold id in E0. subst. simpl. rewrite Ex. by intros [].
  - apply triple_ret. intros r [Hr _]. apply Hn; [done|by intros []].
Qed.

Lemma stale_triple a :
  a ≠ Redb →
  triple live (good fresh a) (move_stale_destination_aside (other a) (ts_stale env)) (λ _, good (old_fresh a) a) inv.
Proof.
  intros Ha. apply move_aside_triple.
  - intros r Hr. by eapply good_inv.
  - intros _ Hl r [_ Hf]. by apply Hf.
  - intros r [Hr Hf] _. split; [done|]. intros Hl _. by apply Hf.
  - intros E r f [(H1 & H2 & H3 & H4) Hf]. destruct a; try done. split.
    + split_and!; [done..|]. destruct H4 as [H4|(H4 & H5 & _)]; [by left|right]. split_and!; [done|done|]. simpl. by intros [].
    + intros Hl _. simpl. rewrite lookup_insert_ne by apply aside_names_differ. by apply Hf.
  - intros E r x [(H1 & H2 & H3 & H4) Hf]. destruct a; try done. split; [|by intros _ ?].
    split_and!; [done..|]. destruct H4 as [H4|(H4 & H5 & _)]; [by left|right]. split_and!; [done|done|]. simpl. by intros [].
Qed.

(** *** Building the destination *)

(** The temporary artifact holds the metadata. *)
Definition ready (d : MetadataEngine) r : Prop :=
  match d with
  | Lmdb => ∃ x, lmdb_migrating r = Some x ∧ sim s x
  | Log => ∃ f, log_migrating r = Some f ∧ log_file (open_inner (Some f) 0 key) = Some f ∧
             view_equiv (ram (open_inner (Some f) 0 key)) s ∧ state_ok (ram (open_inner (Some f) 0 key))
  | Redb => False
  end.

Lemma export_served st op : serves s st → op ∈ store_export st ↔ export_fact s op.
Proof.
  destruct st as [ls|x]; simpl.
  - intros [Hv _]. rewrite export_state_elem. split; apply export_fact_le; [done|by symmetry].
  - intros Hx. by apply export_impl_elem.
Qed.

Lemma export_ops st : serves s st → Forall (asserts s) (store_export st) ∧ Forall op_clean (store_export st) ∧ Forall op_ok (store_export st).
Proof.
  intros Hst. pose proof (po_ops _ Hs) as Ho. rewrite Forall_forall in Ho.
  assert (∀ op, op ∈ store_export st → op_clean op ∧ op_ok op) as H.
  { intros op Hop. apply Ho, export_state_elem. by apply (export_served st). }
  split_and!; apply Forall_forall; intros op Hop; [|by apply H..].
  apply export_fact_asserts; [apply Hs|]. by apply (export_served st).
Qed.

Lemma feed_triple F a batch ops s0 :
  le_view s0 s → Forall (asserts s) (batch ++ ops) → Forall op_clean (batch ++ ops) →
  triple live (λ r, good F a r ∧ ∃ x, lmdb_migrating r = Some x ∧ sim s0 x) (feed batch ops)
    (λ _ r, good F a r ∧ ∃ x, lmdb_migrating r = Some x ∧ sim (foldl apply_in_ram s0 (batch ++ ops)) x) inv.
Proof.
  assert (∀ batch s0, le_view s0 s → Forall (asserts s) batch → Forall op_clean batch →
    triple live (λ r, good F a r ∧ ∃ x, lmdb_migrating r = Some x ∧ sim s0 x) (bulk batch)
      (λ _ r, good F a r ∧ ∃ x, lmdb_migrating r = Some x ∧ sim (foldl apply_in_ram s0 batch) x) inv) as Hbulk.
  { intros b s1 Hle Has Hcl. apply triple_sys; [|intros r [Hr _]; by eapply good_inv]. intros r (Hr & x & Ex & Hx). rewrite Ex. simpl.
    assert (sim (foldl apply_in_ram s1 b) (foldl apply_op x b)) as Hx' by by apply sim_run.
    split; [|by eauto]. apply good_leftover; [|done]. intros y [= <-]. exists (foldl apply_in_ram s1 b). split; [|done].
    by apply (replay_below s1 s b). }
  revert batch s0. induction ops as [|op ops IH]; intros batch s0 Hle Has Hcl; cbn [feed].
  - rewrite app_nil_r in *. destruct batch as [|op batch]; [by apply triple_ret|by apply Hbulk].
  - replace (batch ++ op :: ops) with ((batch ++ [op]) ++ ops) in * by (by rewrite <-app_assoc).
    case_decide; [|by apply IH]. pose proof Has as [Ha1 Ha2]%Forall_app. pose proof Hcl as [Hc1 Hc2]%Forall_app.
    eapply triple_bind; [by apply Hbulk|]. intros [].
    eapply triple_conseq; [apply (IH [] (foldl apply_in_ram s0 (batch ++ [op]))); [|done..]|done| |done].
    + by apply (replay_below s0 s (batch ++ [op])).
    + intros [] r. simpl. by rewrite <-foldl_app.
Qed.

Lemma build_lmdb_triple F a st :
  serves s st → triple live (good F a) (build_lmdb_destination st) (λ _ r, good F a r ∧ ready Lmdb r) inv.
Proof.
  intros Hst. destruct (export_ops st Hst) as (Has & Hcl & _). unfold build_lmdb_destination.
  eapply (triple_bind _ _ _ (λ _ r, ∃ s0, le_view s0 s ∧ good F a r ∧ ∃ x, lmdb_migrating r = Some x ∧ sim s0 x)).
  { apply triple_sys; [|intros r Hr; by eapply good_inv]. intros r Hr. pose proof Hr as [(_ & _ & Hl & _) _].
    assert (∃ s0, le_view s0 s ∧ sim s0 (default open_env (lmdb_migrating r))) as (s0 & Hle & Hx).
    { destruct (lmdb_migrating r) as [x|] eqn:Ex; [by apply Hl|]. exists ∅. split; [apply empty_le|apply sim_empty]. }
    exists s0. split_and!; [done| |by eauto]. apply good_leftover; [|done]. intros y [= <-]. by exists s0. }
  intros []. eapply (triple_bind _ _ _ (λ _ r, good F a r ∧ ready Lmdb r)).
  - apply triple_exists. intros s0. apply triple_pure. intros Hle.
    eapply triple_conseq; [by apply (feed_triple F a [] (store_export st) s0)|done| |done].
    intros [] r (Hr & y & Ey & Hy). split; [done|]. exists y. split; [done|]. eapply sim_view; [|exact Hy].
    apply replay_export; [done|apply Hs|]. intros op. by apply export_served.
  - intros []. apply triple_sys; [done|]. intros r [Hr _]. by eapply good_inv.
Qed.

Lemma log_image_opens ops :
  Forall op_ok ops → let f := header_record key ++ encode_ops key ops in
  log_file (open_inner (Some f) 0 key) = Some f ∧ ram (open_inner (Some f) 0 key) = foldl apply_in_ram ∅ ops.
Proof.
  intros Hops f. unfold f. pose proof (header_compatible key (encode_ops key ops)) as Hc.
  pose proof (replay_image key ops [] Hops (next_record_nil key)) as Hr. rewrite app_nil_r in Hr.
  destruct (header_record key ++ encode_ops key ops) as [|b l] eqn:El.
  { exfalso. unfold header_record in El. apply (f_equal length) in El. rewrite length_app, encode_record_raw_length in El. simpl in El. lia. }
  unfold open_inner. rewrite Hc, Hr. done.
Qed.

Lemma build_log_triple F a config st :
  serves s st → config_ok config →
  triple live (good F a) (build_log_destination config st) (λ _ r, good F a r ∧ ready Log r) inv.
Proof.
  intros Hst [Hk _]. destruct (export_ops st Hst) as (Has & _ & Hok). unfold build_log_destination.
  eapply triple_bind; [apply (triple_of_io key _ _ (λ k r, k = key ∧ good F a r)); [done|by auto]|]. intros k.
  apply triple_pure. intros ->. eapply (triple_bind _ _ _ (λ _, good F a)).
  { apply triple_sys; [done|]. intros r Hr. by eapply good_inv. }
  intros []. eapply (triple_bind _ _ _ (λ _ r, good F a r ∧ ready Log r)).
  - apply triple_sys_cut; [|intros n r Hr; by eapply (good_inv F a)]. intros r Hr. split; [done|].
    destruct (log_image_opens (store_export st) Hok) as [E1 E2]. exists (header_record key ++ encode_ops key (store_export st)).
    split_and!; [done|done| |].
    + rewrite E2. apply replay_export; [apply empty_le|apply Hs|]. intros op. by apply export_served.
    + rewrite E2. apply replay_ok. intros r' rs. by rewrite lookup_empty.
  - intros []. apply triple_sys; [done|]. intros r [Hr _]. by eapply good_inv.
Qed.

Lemma build_triple F a d config st :
  serves s st → config_ok config → d ≠ Redb →
  triple live (good F a) (build_destination d config st) (λ _ r, good F a r ∧ ready d r) inv.
Proof. intros Hst Hc Hd. destruct d; [by apply build_log_triple|by apply build_lmdb_triple|done]. Qed.

(** *** Verification, installation and commit *)

Lemma open_at_triple F a d config :
  config_ok config → d ≠ Redb →
  triple live (λ r, good F a r ∧ ready d r) (open_engine_at d config) (λ st r, serves s st ∧ good F a r ∧ ready d r) inv.
Proof.
  intros [Hk _] Hd. assert (triple live (λ r, good F a r ∧ ready d r) (sys id) (λ _ r, good F a r ∧ ready d r) inv) as Hsys.
  { apply triple_sys; [done|]. intros r [Hr _]. by eapply good_inv. }
  destruct d; [| |done]; simpl.
  - eapply triple_bind; [exact Hsys|]. intros []. eapply triple_bind; [exact Hsys|]. intros [].
    eapply triple_bind; [apply (triple_of_io key _ _ (λ k r, k = key ∧ good F a r ∧ ready Log r)); [done|by auto]|]. intros k.
    apply triple_pure. intros ->. apply triple_look. intros f. apply triple_ret. intros r [[Hr Hrd] <-]. split; [|done].
    destruct Hrd as (f & -> & Hf & Hv & Ho). simpl. by rewrite (proj1 (open_inner_th _ _)).
  - eapply triple_bind; [exact Hsys|]. intros []. apply triple_look. intros x. apply triple_ret. intros r [[Hr Hrd] <-].
    split; [|done]. destruct Hrd as (x & -> & Hx). done.
Qed.

Lemma install_triple F a d :
  a ≠ Redb → d = other a →
  triple live (λ r, good F a r ∧ ready d r) (install d) (λ _ r, good F a r ∧ holds d r) inv.
Proof.
  intros Ha ->. destruct a; [| |done]; simpl.
  - apply triple_sys; [|intros r [Hr _]; by eapply good_inv]. intros r [[(H1 & H2 & H3 & H4) Hf] (x & Ex & Hx)].
    assert (holds Lmdb (set_lmdb_migrating None (set_lmdb (lmdb_migrating r) r))) as Hh by (simpl; by rewrite Ex).
    split; [|done]. split; [|done]. split_and!; [done|done|done|].
    destruct H4 as [H4|(H4 & H5 & _)]; [by left|right]. by split_and!.
  - apply triple_sys; [|intros r [Hr _]; by eapply good_inv]. intros r [[(H1 & H2 & H3 & H4) Hf] (f & Ef & Hx)].
    assert (holds Log (set_log_migrating None (set_log (log_migrating r) r))) as Hh by (simpl; by rewrite Ef).
    split; [|done]. split; [|done]. split_and!; [done|done|done|].
    destruct H4 as [H4|(H4 & H5 & _)]; [by left|right]. by split_and!.
Qed.

Lemma mark_written config r :
  engine config ≠ Redb →
  mark (set_marker (Some (to_vec (marker_json {| em_engine := engine_name (engine config); em_format := format_label config |}))) r) =
    Ok (Some (engine config)).
Proof.
  intros Hc. unfold mark, read_marker. cbn [marker set_marker]. unfold marker_json. cbn [em_engine em_format].
  assert (flat_object [("engine", JString (engine_name (engine config))); ("format", JString (format_label config))]) as Hflat.
  { split; [by repeat constructor|]. repeat constructor; simpl; try done; [by destruct (engine config)|]. unfold format_label. by case_match. }
  rewrite to_vec_utf8, from_to_vec by done. cbn. by destruct (engine config).
Qed.

(** The marker commits: before it is replaced [P] holds, afterwards the engine
    it names does. *)
Lemma write_marker_triple config P (Q : Root → Prop) E :
  (∀ r, P r → E r) → (∀ r, Q r → E r) →
  (∀ r b, P r → mark (set_marker (Some b) r) = Ok (Some (engine config)) → Q (set_marker (Some b) r)) → engine config ≠ Redb →
  triple live P (write_marker config) (λ _, Q) E.
Proof.
  intros HE HQE HQ Hc. assert (triple live P (sys id) (λ _, P) E) as Hsys by by apply triple_sys.
  unfold write_marker. do 3 (eapply triple_bind; [exact Hsys|]; intros []).
  eapply (triple_bind _ _ _ (λ _, Q)).
  - apply triple_sys; [|done]. intros r Hr. apply HQ; [done|]. by apply mark_written.
  - intros []. apply triple_ignore, triple_sys; [done|]. intros r Hr. split; [done|by apply HQE].
Qed.

Definition finished (d : MetadataEngine) r : Prop := post d r ∧ (live → old_fresh (other d) (aside r)).

Lemma finished_inv d r : finished d r → inv r.
Proof. intros [H _]. by eapply post_inv. Qed.

Lemma move_old_triple d :
  d ≠ Redb → triple live (finished d) (move_old_source (other d) (ts_old env)) (λ _, post d) inv.
Proof.
  intros Hd. apply move_aside_triple.
  - apply finished_inv.
  - intros E Hl r [_ Hf]. by apply (Hf Hl).
  - by intros r [? _].
  - intros E r f [(H1 & H2 & H3 & H4) _]. by destruct d.
  - intros E r x [(H1 & H2 & H3 & H4) _]. by destruct d.
Qed.

Lemma other_other a : other (other a) = a.
Proof. by destruct a. Qed.

(** The whole switch. *)
Lemma migrate_triple a config :
  a ≠ Redb → engine config = other a → config_ok config →
  triple live (good fresh a) (migrate a config env) (λ st r, serves s st ∧ inv r) inv.
Proof.
  intros Ha Ed Hc. assert (other a ≠ Redb) as Hd by by destruct a. unfold migrate. rewrite Ed. cbv zeta.
  eapply triple_bind; [apply clean_triple|]. intros []. eapply triple_bind; [by apply stale_triple|]. intros [].
  set (G := good (old_fresh a) a). assert (∀ r, G r → inv r) as HG by apply good_inv.
  eapply triple_bind.
  { apply triple_catch. rewrite Hsrc. apply (open_engine_ok a config G); [done| |].
    - intros r [(H1 & H2 & _) _]. done.
    - intros -> r. apply good_touch. }
  intros res. apply triple_exists. intros src. apply triple_pure. intros ->. apply triple_pure. intros Hsrv.
  eapply triple_bind; [by apply build_triple|]. intros []. eapply triple_bind; [by apply open_at_triple|]. intros dst.
  apply triple_pure. intros Hdst.
  eapply (triple_bind _ _ _ (λ _ r, G r ∧ ready (other a) r)).
  { apply (triple_of_io tt); [|done]. apply (serves_verified s); [done..|apply Hs]. }
  intros []. eapply triple_bind; [by apply install_triple|]. intros [].
  eapply (triple_bind _ _ _ (λ _ r, G r ∧ holds (other a) r)); [apply triple_sys; [done|by intros r [? _]; auto]|]. intros [].
  eapply (triple_bind _ _ _ (λ _, finished (other a))).
  { apply write_marker_triple; [by intros r [? _]; auto|apply finished_inv| |congruence].
    intros r b [[(H1 & H2 & H3 & _) Hf] Hh] Hm. split; [|by rewrite other_other]. rewrite Ed in Hm. by split_and!. }
  pose proof (move_old_triple (other a) Hd) as Hmv. rewrite other_other in Hmv.
  intros []. eapply triple_bind; [exact Hmv|]. intros [].
  eapply triple_conseq; [apply (open_engine_any (other a) config _ (post (other a)) inv); [done|done| | |apply post_inv]|done| |done].
  - intros r (H1 & H2 & _). done.
  - intros E r (H1 & H2 & H3 & H4). split_and!; [by apply holds_touch|done..].
  - intros st r [Hst Hp]. split; [done|by eapply post_inv].
Qed.

Lemma inv_touch e r : e = Lmdb → holds e r → inv r → inv (touch r).
Proof.
  intros -> H4 (H1 & H2 & H3). split_and!; [done|done|]. unfold mark in *.
  change (read_marker (touch r)) with (read_marker r). destruct (read_marker r); [|done]. case_match; [by apply holds_touch|].
  destruct H3 as [H3 _]. split; [|intros Hn; destruct (Hn Lmdb); simpl; by eauto]. intros e He.
  destruct (decide (e = Lmdb)) as [->|]; [by apply holds_touch|apply holds_touch, H3]. by destruct e.
Qed.

(** A start with the engine that is in use. *)
Lemma same_engine_triple config :
  config_ok config →
  triple live (λ r, inv r ∧ holds (engine config) r)
    (store ← open_engine (engine config) config (dest_opens env); write_marker_if_missing config;; mret store)
    (λ st r, serves s st ∧ inv r) inv.
Proof.
  intros Hc. pose proof Hc as [_ Hne].
  eapply triple_bind; [apply (open_engine_any (engine config) config _ (λ r, inv r ∧ holds (engine config) r)); [done|done| | |by intros r [? _]]|].
  - by intros r [(? & _) ?].
  - intros E r [H1 H2]. split; [by apply (inv_touch (engine config))|by apply holds_touch].
  - intros store. apply triple_pure. intros Hst. eapply (triple_bind _ _ _ (λ _, inv)); [|intros []; by apply triple_ret].
    unfold write_marker_if_missing. apply triple_look. intros mk. destruct mk as [b|]; [apply triple_ret; by intros r [[? _] _]|].
    apply triple_ignore. apply write_marker_triple; [by intros r [[? _] _]|done| |done].
    intros r b [[(H1 & H2 & _) H4] _] Hm. apply (post_inv (engine config)). by split_and!.
Qed.

(** A start of the server. *)
Lemma open_triple config :
  config_ok config →
  triple live (λ r, inv r ∧ (live → fresh (aside r))) (open_metadata config env) (λ st r, serves s st ∧ inv r) inv.
Proof.
  intros Hc. pose proof Hc as [_ Hne]. unfold open_metadata. rewrite decide_False by done.
  apply triple_look. intros r0.
  apply (triple_conseq (λ r, (inv r0 ∧ (live → fresh (aside r0))) ∧ r = r0) _ _ (λ st r, serves s st ∧ inv r) _ inv); [|by intros r [? <-]|done..].
  apply triple_pure. intros [Hinv Hf]. destruct (detect_inv config r0 Hinv Hne) as (a & Ed & Ha & Hh & Hp).
  eapply triple_bind; [apply (triple_of_io a _ _ (λ a' r, a' = a ∧ r = r0)); [done|by auto]|]. intros a'. apply triple_pure. intros ->.
  destruct (decide (a = engine config)) as [->|Hne'].
  - eapply triple_conseq; [by apply same_engine_triple|by intros r ->|done..].
  - eapply triple_conseq; [apply (migrate_triple a config); [done| |done]| |done..].
    + destruct a, (engine config); done.
    + intros r ->. split; [by apply Hp|done].
Qed.
End Crash.

(** ** Starts *)

Section Starts.
Context {heed : Heed} {heed_laws : HeedLaws} {serde : SerdeJson} {serde_laws : SerdeLaws}.
Context {crypto : Crypto} {crypto_laws : CryptoLaws} {hmac : Hmac} {hmac_laws : HmacLaws} {hash : HashIter}.
Implicit Types s : State.

(** The store answers from the metadata [s], up to the order of back references. *)
Record same_metadata s (st : Store) : Prop := {
  sm_tag : ∀ r t, clean r → clean t → store_resolve_tag st r t = resolve_tag s r t;
  sm_media : ∀ r d, clean r → clean d → store_media_type st r d = manifest_media_type s r d;
  sm_tags : ∀ r last limit, clean r → store_tags_page st r last limit = tags_page s r last limit;
  sm_referrers : ∀ r j atype last limit, clean r → clean j → (∀ t, atype = Some t → clean t) →
    store_referrers_page st r j atype last limit = referrers_page s r j atype last limit;
  sm_backrefs : ∀ r b, clean r → clean b → store_backrefs st r b ≡ₚ get_backrefs s r b;
  sm_checksum : ∀ r d, clean r → clean d → store_checksum st r d = checksum s r d;
  sm_repos : store_repos st = repos s;
}.

Lemma tags_page_repo s r last limit :
  tags_page s r last limit = if decide (tags (repo_of s r) = ∅) then None else Some (take_page (after last (btree (tags (repo_of s r)))).*1 limit).
Proof. unfold tags_page, repo_of. by destruct (s !! r). Qed.

Lemma backrefs_NoDup s r b : state_ok s → NoDup (get_backrefs s r b).
Proof.
  intros Hok. rewrite backrefs_repo. destruct (backrefs (repo_of s r) !! b) as [ms|] eqn:E; simpl; [|constructor].
  by apply (backrefs_ok _ (state_ok_repo_of _ r Hok) _ _ E).
Qed.

Lemma serves_same s st : serves s st → state_ok s → same_metadata s st.
Proof.
  intros Hst Hok. destruct (serves_answers s st Hst Hok) as [Hrepos _]. destruct st as [ls|x]; simpl in Hst.
  - destruct Hst as [Hv Hok']. pose proof Hv as [H1 H2]. split; simpl; try done.
    + intros r t _ _. rewrite !resolve_tag_repo. by rewrite (view_tags _ _ r Hv).
    + intros r d _ _. rewrite !media_type_repo. by rewrite (view_media _ _ r Hv).
    + intros r last limit _. rewrite !tags_page_repo. by rewrite (view_tags _ _ r Hv).
    + intros r j atype last limit _ _ _. rewrite !referrers_page_repo by done. unfold subject_refs. by rewrite (view_referrers _ _ r Hv).
    + intros r b _ _. apply NoDup_Permutation; [by apply backrefs_NoDup..|]. intros m. rewrite !backrefs_repo.
      split; [apply (le_refers _ _ H1)|apply (le_refers _ _ H2)].
    + intros r d _ _. rewrite !checksum_repo. apply option_le; [apply (le_checksum _ _ H1)|apply (le_checksum _ _ H2)].
  - destruct (sim_agrees s x Hst Hok). by split.
Qed.

Definition start_ok (key : option bytes) (x : Start) : Prop :=
  config_ok key (st_config x) ∧ source_opens (st_env x) = Ok tt.

(** Nothing fails at this start. *)
Definition calm_start (r : Root) (x : Start) : Prop :=
  st_fates x = [] ∧ dest_opens (st_env x) = Ok tt ∧ fresh (st_env x) (aside r).

Lemma start_inv key s r x :
  portable s → inv key s r → start_ok key x →
  inv key s (after_start r x) ∧ (∀ st, (start r x).2 = Ok st → serves s st) ∧
  (calm_start r x → ∃ st, (start r x).2 = Ok st).
Proof.
  intros Hs Hr [Hc Hsrc].
  pose proof (open_triple key s Hs (st_env x) Hsrc (calm_start r x) ltac:(by intros (_ & ? & _)) (st_config x) Hc
    {| root := r; fates := st_fates x |} (conj Hr (λ H : calm_start r x, proj2 (proj2 H)))) as Ht.
  unfold after_start, start. destruct (open_metadata (st_config x) (st_env x) _) as [m [st|h]]; simpl in *.
  - destruct Ht as [[Hst Hi] _]. split_and!; [done|by intros ? [= <-]|by eauto].
  - destruct Ht as [Hi Hl]. split_and!; [done|done|]. intros Hcalm. destruct Hl; [done|apply Hcalm].
Qed.

Lemma starts_inv key s r xs :
  portable s → inv key s r → Forall (start_ok key) xs → inv key s (foldl after_start r xs).
Proof.
  intros Hs Hr Hxs. revert r Hr. induction Hxs as [|x xs Hx Hxs IH]; intros r Hr; simpl; [done|]. apply IH. by apply start_inv.
Qed.


End Starts.

(** ** Examples *)

(** Whether every tag carries the media type of its manifest. *)
Definition coherentb (s : State) : bool :=
  forallb (λ p, forallb (λ q, bool_decide (media_types p.2 !! q.2.1 = Some q.2.2)) (map_to_list (tags p.2))) (map_to_list s).

Lemma coherentb_sound s : coherentb s = true → coherent s.
Proof.
  intros Hb r t d m Ht. unfold tag_of, media_of, repo_of in *. destruct (s !! r) as [rs|] eqn:Er; simpl in *; [|by rewrite lookup_empty in Ht].
  unfold coherentb in Hb. rewrite forallb_forall in Hb. specialize (Hb (r, rs)). rewrite <-list_elem_of_In, elem_of_map_to_list in Hb.
  specialize (Hb Er). simpl in Hb. rewrite forallb_forall in Hb. specialize (Hb (t, (d, m))).
  rewrite <-list_elem_of_In, elem_of_map_to_list, bool_decide_eq_true in Hb. by apply Hb.
Qed.

Section MigrateWitnesses.
#[local] Existing Instances Toy.toy_crypto Toy.toy_laws ToyLog.toy_hmac ToyLog.toy_hmac_laws
  ToyLog.toy_json ToyLog.toy_json_laws ToyHeed.toy ToyHeed.toy_laws map_order.

Definition wit_ops : list MetaOp := [op3; op2].
Definition wit_state : State := foldl apply_in_ram ∅ wit_ops.
Definition wit_root : Root := mkRoot None (Some (header_record None ++ encode_ops None wit_ops)) true None None None ∅.
Definition wit_env : Env := {| ts_stale := 1; ts_old := 2; source_opens := Ok tt; dest_opens := Ok tt |}.
Definition to_engine (e : MetadataEngine) (l : list fate) : Start :=
  {| st_config := {| engine := e; hmac_key_file := None; compact_threshold_bytes := 0 |}; st_env := wit_env; st_fates := l |}.

Lemma wit_start e l : e ≠ Redb → start_ok None (to_engine e l).
Proof. intros He. split; [split; [reflexivity|exact He]|reflexivity]. Qed.

Lemma wit_portable : portable wit_state.
Proof.
  split.
  - apply replay_ok. intros r rs. by rewrite lookup_empty.
  - apply coherentb_sound. by vm_compute.
  - destruct op_wf_examples as (_ & Hop2 & Hop3).
    assert (export_state wit_state = wit_ops) as -> by by vm_compute. apply Forall_cons_2; [|apply Forall_cons_2; [|apply Forall_nil_2]].
    + split; [|exact Hop3]. split_and!; try done. by intros t [= <-].
    + split; [|exact Hop2]. split_and!; try done; simpl; by vm_compute.
Qed.

Lemma wit_ops_ok : Forall op_ok wit_ops.
Proof. destruct op_wf_examples as (_ & ? & ?). by repeat apply Forall_cons_2. Qed.

Lemma wit_inv : inv None wit_state wit_root.
Proof.
  split; [reflexivity|]. split; [intros x; unfold wit_root; cbn [lmdb_migrating]; discriminate|].
  change (mark wit_root) with (Ok (E := io_error) (None : option MetadataEngine)). split.
  - intros e He. destruct e; [|by destruct He..]. destruct (log_image_opens None wit_ops wit_ops_ok) as [E1 E2]. unfold holds.
    change (meta_log wit_root) with (Some (header_record None ++ encode_ops None wit_ops)). rewrite E2.
    split; [exact E1|]. split; [reflexivity|apply wit_portable].
  - intros Hn. destruct (Hn Log). exact (ex_intro _ _ eq_refl).
Qed.

Definition is_ok {E A} (r : result E A) : bool := match r with Ok _ => true | Err _ => false end.

Lemma is_ok_sound {E A} (r : result E A) : is_ok r = true → ∃ a, r = Ok a.
Proof. destruct r; [by eauto|done]. Qed.

Lemma not_is_Some {A} (o : option A) : bool_decide (is_Some o) = false → o = None.
Proof. intros Ho%bool_decide_eq_false. by apply eq_None_not_Some. Qed.

(** What a query of an opened environment answers. *)
Definition lmdb_answer {A} (f : Dbs → A) (r : result halt Store) : option A :=
  match r with Ok (SLmdb x) => Some (f x) | _ => None end.



End MigrateWitnesses.
