(* ===== verification/StorageApi.v ===== *)
(** The storage contract (the trait [Storage] of roci-storage/src/storage.rs):
    its operations as programs over a state of the backend's own, what the
    HTTP handlers rely on as laws, and the streaming of blob content. *)

From S2P Require Import Prelude RustStr Json Errors Digest Metadata Effect.

(** ** Reading blobs *)

Definition FILE_CHUNK : Z := 256 * 1024.

(** A stream is the sequence of what polling it yields. *)
Abbreviation BlobStream := (list (result io_error bytes)).

(** [read_chunk]: the [k]-th read of an open file may fail; a file that ends
    early is an error. *)
Definition read_chunk (fault : option io_error) (content : bytes) (start n : Z) : result io_error bytes :=
  match fault with
  | Some e => Err e
  | None =>
      let buf := take (Z.to_nat n) (drop (Z.to_nat start) content) in
      if (blen buf <? n)%Z
      then Err (IoError KOther "blob file is shorter than its recorded size")
      else Ok buf
  end.

(** [file_stream]: pieces of [FILE_CHUNK] bytes; the first error ends it. *)
Fixpoint file_stream (fuel : nat) (reads : nat → option io_error) (content : bytes) (k : nat) (start len : Z)
    : BlobStream :=
  match fuel with
  | O => []
  | S fuel =>
      let n := (FILE_CHUNK `min` len)%Z in
      match read_chunk (reads k) content start n with
      | Err e => [Err e]
      | Ok b => Ok b :: (if (0 <? len - n)%Z
                         then file_stream fuel reads content (S k) (start + n) (len - n) else [])
      end
  end.

Inductive BlobSource :=
  | File (content : bytes) (reads : nat → option io_error)
  | Ranged (open : Z → Z → result io_error BlobStream)
  | Redirect (url : string).

Record BlobRead := { br_size : Z; br_source : BlobSource }.

Definition redirect_url (b : BlobRead) : option string :=
  match br_source b with Redirect url => Some url | _ => None end.

(** One read per chunk, and one for an empty range. *)
Definition chunks (len : Z) : nat := S (Z.to_nat (len / FILE_CHUNK)).

Definition into_stream (b : BlobRead) (start len : Z) : result io_error BlobStream :=
  match br_source b with
  | File content reads => Ok (file_stream (chunks len) reads content 0 start len)
  | Ranged open => open start len
  | Redirect _ => Err (IoError KOther "redirected blob has no local body")
  end.

(** What a client received from a stream before it ended or failed. *)
Fixpoint received (s : BlobStream) : bytes :=
  match s with
  | Ok b :: s => b ++ received s
  | _ => []
  end.

Definition slice (content : bytes) (start len : Z) : bytes :=
  take (Z.to_nat len) (drop (Z.to_nat start) content).

(** ** The trait *)

(** A request body: the chunks as they arrive, until it ends or fails. *)
Abbreviation UploadBody := (list (result io_error bytes)).

(** The bytes a body delivers, if the stream does not fail. *)
Fixpoint delivered (body : UploadBody) : option bytes :=
  match body with
  | [] => Some []
  | Ok chunk :: body => (chunk ++.) <$> delivered body
  | Err _ :: _ => None
  end.

Record ManifestLinks := {
  references : list Digest;
  required : list Digest;
  link_subject : option (Digest * bytes);
}.

Record ManifestRef := { mr_digest : Digest; mr_media_type : string; mr_bytes : bytes }.

Class Storage := {
  sto : Type;
  s_blob_size : string → Digest → M sto StorageError Z;
  s_blob_exists : string → Digest → M sto StorageError bool;
  s_read_blob : string → Digest → M sto StorageError bytes;
  s_open_blob : string → Digest → M sto StorageError BlobRead;
  s_begin_upload : string → M sto StorageError string;
  s_append_upload : string → string → list (result io_error bytes) → option Z → Z → M sto StorageError Z;
  s_upload_size : string → string → M sto StorageError Z;
  s_abort_upload : string → string → M sto StorageError bool;
  s_mount_blob : string → string → Digest → M sto StorageError bool;
  s_finish_upload : string → string → Digest → Z → list (result io_error bytes) → Z → M sto StorageError ();
  s_put_blob : string → Digest → bytes → M sto StorageError ();
  s_delete_blob : string → Digest → M sto StorageError ();
  s_put_manifest : string → option string → Digest → string → bytes → ManifestLinks → M sto StorageError ();
  s_get_manifest : string → string → M sto StorageError ManifestRef;
  s_delete_manifest : string → Digest → M sto StorageError ();
  s_list_tags : string → option string → nat → M sto StorageError (Page string);
  s_list_referrers : string → Digest → option string → option string → nat → M sto StorageError (Page (string * bytes));
}.

(** From a state with [I], [m] ends in one with [I], and a result satisfies
    [Q]. *)
Definition ensures {S E A : Type} (I : S → Prop) (m : M S E A) (Q : A → S → Prop) : Prop :=
  ∀ s, I s → I (m s).1 ∧ ∀ a, (m s).2 = Ok a → Q a (m s).1.

Lemma ensures_ext {S E A : Type} (I : S → Prop) (m m' : M S E A) Q :
  (∀ s, m s = m' s) → ensures I m Q → ensures I m' Q.
Proof. intros Hm HQ s. rewrite <-Hm. apply HQ. Qed.

(** What is read from an opened blob is part of its content. *)
Definition serves (content : bytes) (b : BlobRead) : Prop :=
  br_size b = blen content ∧
  match br_source b with
  | File c _ => c = content
  | Ranged open => ∀ start len st, (0 ≤ start)%Z → (0 ≤ len)%Z → open start len = Ok st →
      received st `prefix_of` slice content start len
  | Redirect _ => True
  end.

(** The size a backend gives for a blob: the one its metadata recorded, or the
    length of content with the digest. *)
Definition blob_sized `{Crypto} (view : State) (repo : string) (d : Digest) (n : Z) : Prop :=
  (∃ c, checksum view repo (Digest_fmt d) = Some c ∧ n = ck_size c) ∨
  (∃ content, digest_of content (algorithm d) = d ∧ n = blen content).

(** A manifest as it is served: what the reference says it is, with the media
    type the metadata knows. *)
Definition manifest_found `{Crypto} (view : State) (repo reference : string) (m : ManifestRef) : Prop :=
  digest_wf (mr_digest m) ∧ digest_of (mr_bytes m) (algorithm (mr_digest m)) = mr_digest m ∧
  if contains_char ":" reference then
    Digest_parse reference = Ok (mr_digest m) ∧
    ∀ mt, manifest_media_type view repo reference = Some mt → mr_media_type m = mt
  else
    ∀ ds mt, resolve_tag view repo reference = Some (ds, mt) → Digest_parse ds = Ok (mr_digest m) ∧ mr_media_type m = mt.

(** A stored manifest in the metadata: its type is recorded, its tag resolves
    to it, and it is a referrer of its subject. *)
Definition manifest_recorded (view : State) (repo : string) (tag : option string) (d : Digest) (mt : string)
    (links : ManifestLinks) : Prop :=
  manifest_media_type view repo (Digest_fmt d) = Some mt ∧
  (∀ t, tag = Some t → resolve_tag view repo t = Some (Digest_fmt d, mt)) ∧
  (∀ subject desc, link_subject links = Some (subject, desc) →
     has_referrer view repo (Digest_fmt subject) (Digest_fmt d) = true).

(** What [put_manifest] of either backend writes. *)
Lemma put_manifest_recorded `{SerdeJson} view repo tag d mt links refs referrer :
  (∀ subject desc, link_subject links = Some (subject, desc) → fst <$> referrer = Some (Digest_fmt subject)) →
  manifest_recorded (apply_in_ram view (PutManifest repo (Digest_fmt d) mt tag refs referrer)) repo tag d mt links.
Proof.
  intros Hr. destruct (put_manifest_spec view repo (Digest_fmt d) mt tag refs referrer) as (Ht & Hm & _ & Hs & _).
  split_and!.
  - by rewrite Hm, decide_True.
  - intros t ->. by rewrite Ht, decide_True.
  - intros subject desc Hl. apply Hs. right. split; [done|by eapply Hr].
Qed.

(** What became of a body sent to a session that may expect an offset: all of it
    was taken, at that offset, or the offset was not the session's size. *)
Definition chunk_taken (upload : Z → Prop) (body : UploadBody) (off : option Z) (r : result StorageError Z) : Prop :=
  match r with
  | Ok n => upload n ∧ ∃ b, delivered body = Some b ∧ (blen b ≤ n)%Z ∧ ∀ o, off = Some o → n = (o + blen b)%Z
  | Err (RangeNotSatisfiable expected given) => upload expected ∧ off = Some given ∧ given ≠ expected
  | Err _ => True
  end.

(** What a backend promises: an invariant of its state; that a blob or a
    manifest it serves is what its digest says; that a digest it reports as
    landed is held, with the blobs a manifest was said to require, and one it
    reports as deleted is not; how the sizes, tags, media types and referrers it
    answers with agree with its metadata ([sto_view], of the repository's
    backend) and its upload sessions ([sto_upload]: the session holds that many
    bytes); and that a page is no longer than asked for. [id_ok] are the session
    ids, and [size_ok] the sizes of content, for which the promise is given. *)
Class StorageLaws `{Crypto, Storage} := {
  sto_ok : sto → Prop;
  sto_has : sto → string → Digest → Prop;
  sto_view : sto → string → State;
  sto_upload : sto → string → string → Z → Prop;
  id_ok : string → Prop;
  size_ok : Z → Prop;
  size_ok_le n m : (n ≤ m)%Z → size_ok m → size_ok n;
  blob_size_law repo d : digest_wf d →
    ensures sto_ok (s_blob_size repo d) (λ n s, blob_sized (sto_view s repo) repo d n);
  blob_exists_law repo d : digest_wf d → ensures sto_ok (s_blob_exists repo d) (λ _ _, True);
  open_blob_law repo d : digest_wf d → ensures sto_ok (s_open_blob repo d)
    (λ b _, ∃ content, digest_of content (algorithm d) = d ∧ serves content b);
  begin_upload_law repo : ensures sto_ok (s_begin_upload repo)
    (λ id s, id_ok id ∧ (id ≠ "" ∧ contains_char "/" id = false ∧ header_ok id = true) ∧ sto_upload s repo id 0);
  append_upload_law repo id body off limit : id_ok id →
    ensures (E := StorageError) sto_ok (attempt (s_append_upload repo id body off limit))
      (λ r s, chunk_taken (sto_upload s repo id) body off r);
  upload_size_law repo id : ensures sto_ok (s_upload_size repo id) (λ n s, sto_upload s repo id n);
  abort_upload_law repo id : ensures sto_ok (s_abort_upload repo id) (λ _ _, True);
  mount_blob_law from to d : digest_wf d →
    ensures sto_ok (s_mount_blob from to d) (λ b s, b = true → from ≠ to → sto_has s to d);
  finish_upload_law repo id d max body limit : id_ok id → digest_wf d → size_ok max →
    ensures sto_ok (s_finish_upload repo id d max body limit) (λ _ s, sto_has s repo d);
  delete_blob_law repo d : digest_wf d → ensures sto_ok (s_delete_blob repo d) (λ _ s, ¬ sto_has s repo d);
  put_manifest_law repo tag d mt data links : digest_wf d → size_ok (blen data) →
    ensures sto_ok (s_put_manifest repo tag d mt data links)
      (λ _ s, sto_has s repo d ∧ (∀ r, r ∈ required links → digest_wf r → sto_has s repo r) ∧
              manifest_recorded (sto_view s repo) repo tag d mt links);
  get_manifest_law repo reference : ensures sto_ok (s_get_manifest repo reference)
    (λ m s, manifest_found (sto_view s repo) repo reference m);
  delete_manifest_law repo d : digest_wf d → ensures sto_ok (s_delete_manifest repo d)
    (λ _ s, ¬ sto_has s repo d ∧ manifest_media_type (sto_view s repo) repo (Digest_fmt d) = None ∧
            ∀ t mt, resolve_tag (sto_view s repo) repo t ≠ Some (Digest_fmt d, mt));
  list_tags_law repo last limit : ensures sto_ok (s_list_tags repo last limit)
    (λ p s, length (items p) ≤ limit ∧ ∀ q, tags_page (sto_view s repo) repo last limit = Some q → p = q);
  list_referrers_law repo d at_ last limit : digest_wf d →
    ensures sto_ok (s_list_referrers repo d at_ last limit)
      (λ p s, length (items p) ≤ limit ∧
              ∀ q, referrers_page (sto_view s repo) repo (Digest_fmt d) at_ last limit = Some q → p = q);
}.

(** ** Streams *)

Lemma read_chunk_ok e content start n b :
  (0 ≤ start)%Z → (0 ≤ n)%Z → read_chunk e content start n = Ok b → b = slice content start n ∧ blen b = n.
Proof.
  intros Hs Hn. unfold read_chunk, slice. destruct e; [done|]. case_match eqn:E; [done|]. intros [= <-].
  bool_simp. split; [done|]. unfold blen in *. rewrite length_take in *. lia.
Qed.

Lemma slice_app content start n m :
  (0 ≤ start)%Z → (0 ≤ n)%Z → (0 ≤ m)%Z →
  slice content start (n + m) = slice content start n ++ slice content (start + n) m.
Proof.
  intros Hs Hn Hm. unfold slice. rewrite !Z2Nat.inj_add by lia. rewrite <-drop_drop. by rewrite take_take_drop.
Qed.

Lemma slice_all c n : (blen c ≤ n)%Z → slice c 0 n = c.
Proof. intros Hn. unfold slice, blen in *. rewrite drop_0. apply take_ge. lia. Qed.

Lemma blen_slice content start len :
  (0 ≤ start)%Z → (0 ≤ len)%Z → (start + len ≤ blen content)%Z → blen (slice content start len) = len.
Proof. intros Hs Hl Hb. unfold slice, blen in *. rewrite length_take, length_drop. lia. Qed.

(** Whatever fails, a client receives a prefix of what it asked for. *)
Lemma file_stream_prefix fuel reads content k start len :
  (0 ≤ start)%Z → (0 ≤ len)%Z → received (file_stream fuel reads content k start len) `prefix_of` slice content start len.
Proof.
  revert k start len. induction fuel as [|fuel IH]; intros k start len Hs Hl; cbn [file_stream]; [apply prefix_nil|].
  assert (0 ≤ FILE_CHUNK `min` len)%Z by (unfold FILE_CHUNK; lia).
  destruct (read_chunk _ _ _ _) as [b|e] eqn:E; [|apply prefix_nil].
  apply read_chunk_ok in E as [-> _]; [|done..]. cbn [received].
  replace (slice content start len) with (slice content start (FILE_CHUNK `min` len + (len - FILE_CHUNK `min` len))) by (f_equal; lia).
  rewrite slice_app by lia. apply prefix_app. case_match; [apply IH; lia|apply prefix_nil].
Qed.

(** Without failures it receives all of it. *)
Lemma file_stream_all fuel reads content k start len :
  (∀ k, reads k = None) → (0 ≤ start)%Z → (0 ≤ len)%Z → (start + len ≤ blen content)%Z →
  (len < FILE_CHUNK * Z.of_nat fuel)%Z →
  received (file_stream fuel reads content k start len) = slice content start len ∧
  Forall (λ r, is_ok r = true) (file_stream fuel reads content k start len).
Proof.
  intros Hr. revert k start len. induction fuel as [|fuel IH]; intros k start len Hs Hl Hb Hf; [lia|]. cbn [file_stream].
  set (n := (FILE_CHUNK `min` len)%Z). assert (Hn : (0 ≤ n ≤ len)%Z) by (unfold n, FILE_CHUNK; lia).
  assert (E : read_chunk (reads k) content start n = Ok (slice content start n)).
  { unfold read_chunk. rewrite Hr. fold (slice content start n). rewrite blen_slice by lia. by rewrite Z.ltb_irrefl. }
  rewrite E. cbn [received]. destruct (0 <? len - n)%Z eqn:El; bool_simp.
  - destruct (IH (S k) (start + n)%Z (len - n)%Z) as [I1 I2]; [lia..|unfold n, FILE_CHUNK in *; lia|].
    rewrite I1, <-slice_app by lia. replace (n + (len - n))%Z with len by lia. split; [done|]. by constructor.
  - cbn [received]. rewrite app_nil_r. replace n with len by lia. split; [done|]. by repeat constructor.
Qed.

Lemma into_stream_prefix content b start len st :
  serves content b → (0 ≤ start)%Z → (0 ≤ len)%Z → into_stream b start len = Ok st →
  received st `prefix_of` slice content start len.
Proof.
  intros [_ Hsrc] Hs Hl. unfold into_stream. destruct (br_source b) as [c reads|open|url]; [|by auto|done].
  intros Est. assert (st = file_stream (chunks len) reads content 0 start len) as -> by congruence.
  by apply file_stream_prefix.
Qed.
