(* ===== verification/Routing.v ===== *)
(** Multi-backend routing (roci-storage/src/routing.rs): a table of repository
    prefixes over backends, itself a backend. *)

From S2P Require Import Prelude RustStr Json Errors Digest Metadata Effect StorageApi.

(** [Routed<B>]: the state of a backend with each entry of the table. *)
Record Routed (B : Type) := mkRouted { rt_default : B; rt_routes : list (string * B) }.
Arguments mkRouted {B} rt_default rt_routes.
Arguments rt_default {B} r.
Arguments rt_routes {B} r.

(** [sort_by_key(|r| Reverse(r.0.len()))], which is stable. *)
Fixpoint insert_route {B} (x : string * B) (l : list (string * B)) : list (string * B) :=
  match l with
  | [] => [x]
  | y :: l' => if bool_decide (String.length y.1 ≤ String.length x.1) then x :: l else y :: insert_route x l'
  end.
Definition sort_routes {B} (l : list (string * B)) : list (string * B) := foldr insert_route [] l.

Definition Routed_new {B} (default : B) (routes : list (string * B)) : Routed B :=
  mkRouted default (sort_routes routes).

Definition matches_prefix (repo prefix : string) : bool :=
  bool_decide (repo = prefix)
  || bool_decide (String.length prefix < String.length repo)
     && bool_decide (as_bytes repo !! String.length prefix = Some "/"%char)
     && starts_with repo prefix.

(** The loops of [backend_for] and [route_index]. *)
Fixpoint find_backend {B} (repo : string) (routes : list (string * B)) : option B :=
  match routes with
  | [] => None
  | (prefix, backend) :: routes => if matches_prefix repo prefix then Some backend else find_backend repo routes
  end.
Definition backend_for {B} (r : Routed B) (repo : string) : B := default (rt_default r) (find_backend repo (rt_routes r)).

Fixpoint find_route {B} (repo : string) (i : nat) (routes : list (string * B)) : option nat :=
  match routes with
  | [] => None
  | (prefix, _) :: routes => if matches_prefix repo prefix then Some i else find_route repo (S i) routes
  end.
Definition route_index {B} (r : Routed B) (repo : string) : option nat := find_route repo 0 (rt_routes r).

Definition same_backend {B} (r : Routed B) (from_repo to_repo : string) : bool :=
  bool_decide (route_index r from_repo = route_index r to_repo).

(** The table after an operation changed the backend of [repo]. *)
Definition set_backend {B} (repo : string) (b : B) (r : Routed B) : Routed B :=
  match route_index r repo with
  | None => mkRouted b (rt_routes r)
  | Some i => mkRouted (rt_default r) (alter (λ p, (p.1, b)) i (rt_routes r))
  end.

(** The backend at a place of the table. *)
Definition backend_at {B} (r : Routed B) (i : option nat) : option B :=
  match i with None => Some (rt_default r) | Some i => snd <$> rt_routes r !! i end.

Section Routed.
Context `{Crypto, Storage}.

(** [self.backend_for(repo).method(…)] *)
Definition via {A} (repo : string) (m : M sto StorageError A) : M (Routed sto) StorageError A := λ r,
  let '(b, a) := m (backend_for r repo) in (set_backend repo b r, a).

Definition routed_mount_blob (from_repo to_repo : string) (digest : Digest) : M (Routed sto) StorageError bool := λ r,
  if negb (same_backend r from_repo to_repo) then (r, Ok false)
  else via to_repo (s_mount_blob from_repo to_repo digest) r.

(** A definition rather than an instance: a table of tables is a [Storage]
    too, and resolution would build them without end. *)
Definition routed_storage : Storage := {|
  sto := Routed sto;
  s_blob_size repo d := via repo (s_blob_size repo d);
  s_blob_exists repo d := via repo (s_blob_exists repo d);
  s_read_blob repo d := via repo (s_read_blob repo d);
  s_open_blob repo d := via repo (s_open_blob repo d);
  s_begin_upload repo := via repo (s_begin_upload repo);
  s_append_upload repo id body off limit := via repo (s_append_upload repo id body off limit);
  s_upload_size repo id := via repo (s_upload_size repo id);
  s_abort_upload repo id := via repo (s_abort_upload repo id);
  s_mount_blob := routed_mount_blob;
  s_finish_upload repo id d max body limit := via repo (s_finish_upload repo id d max body limit);
  s_put_blob repo d data := via repo (s_put_blob repo d data);
  s_delete_blob repo d := via repo (s_delete_blob repo d);
  s_put_manifest repo tag d mt data links := via repo (s_put_manifest repo tag d mt data links);
  s_get_manifest repo reference := via repo (s_get_manifest repo reference);
  s_delete_manifest repo d := via repo (s_delete_manifest repo d);
  s_list_tags repo last limit := via repo (s_list_tags repo last limit);
  s_list_referrers repo d at_ last limit := via repo (s_list_referrers repo d at_ last limit);
|}.
End Routed.

(** [ready]: every backend must be, the default first. *)
Fixpoint all_ready {B} (ready : B → result StorageError ()) (l : list (string * B)) : result StorageError () :=
  match l with
  | [] => Ok tt
  | (_, b) :: l => let? _ := ready b in all_ready ready l
  end.
Definition routed_ready {B} (ready : B → result StorageError ()) (r : Routed B) : result StorageError () :=
  let? _ := ready (rt_default r) in all_ready ready (rt_routes r).

(** [recover], [on_shutdown]: each backend's own, the default first. *)
Definition routed_each {B} (f : B → B) (r : Routed B) : Routed B :=
  mkRouted (f (rt_default r)) (prod_map id f <$> rt_routes r).

(** ** Lemmas *)

(** A prefix is whole components. *)
Lemma matches_prefix_spec repo prefix :
  matches_prefix repo prefix = true ↔ split "/" prefix `prefix_of` split "/" repo.
Proof.
  assert (Hm : matches_prefix repo prefix = true ↔ repo = prefix ∨ ∃ t, repo = prefix +:+ "/" +:+ t).
  { unfold matches_prefix. rewrite orb_true_iff, !andb_true_iff, !bool_decide_eq_true, starts_with_true. split.
    - intros [->|[[_ Hb] [t ->]]]; [by left|right].
      rewrite as_bytes_app, lookup_app_r in Hb by (rewrite as_bytes_length; lia).
      rewrite as_bytes_length, Nat.sub_diag in Hb. destruct t as [|c t]; simplify_eq/=. by exists t.
    - intros [->|[t ->]]; [by left|right]. split_and!; [| |by eexists].
      + rewrite !string_app_length. simpl. lia.
      + rewrite as_bytes_app, lookup_app_r by (rewrite as_bytes_length; lia).
        by rewrite as_bytes_length, Nat.sub_diag. }
  rewrite Hm. split.
  - intros [->|[t ->]]; [done|]. change ("/" +:+ t) with (String "/" t). rewrite split_app_gen. by eexists.
  - intros [k Hk]. destruct k as [|x k].
    + left. rewrite app_nil_r in Hk. by rewrite <-(join_split "/" repo), Hk, join_split.
    + right. exists (join "/" (x :: k)). rewrite <-(join_split "/" repo), Hk.
      rewrite join_app; [|apply split_nonempty|done]. by rewrite join_split.
Qed.

Lemma insert_route_perm {B} (x : string * B) l : insert_route x l ≡ₚ x :: l.
Proof. induction l as [|y l IH]; simpl; [done|]. case_bool_decide; [done|]. rewrite IH. apply Permutation_swap. Qed.

Lemma sort_routes_perm {B} (l : list (string * B)) : sort_routes l ≡ₚ l.
Proof. induction l as [|x l IH]; simpl; [done|]. unfold sort_routes in *. simpl. by rewrite insert_route_perm, IH. Qed.

Definition longest_first {B} : list (string * B) → Prop := StronglySorted (λ x y, String.length y.1 ≤ String.length x.1).

Lemma sort_routes_sorted {B} (l : list (string * B)) : longest_first (sort_routes l).
Proof.
  induction l as [|x l IH]; [constructor|]. unfold sort_routes in *. simpl.
  induction IH as [|y k Hk IH Hy]; simpl; [by repeat constructor|]. case_bool_decide as Hle.
  - constructor; [by constructor|]. constructor; [done|]. eapply Forall_impl; [exact Hy|]. simpl. lia.
  - constructor; [done|]. rewrite insert_route_perm. constructor; [lia|done].
Qed.

Lemma longest_first_lookup {B} (l : list (string * B)) i j x y :
  longest_first l → i < j → l !! i = Some x → l !! j = Some y → String.length y.1 ≤ String.length x.1.
Proof.
  intros Hl. revert i j. induction Hl as [|z l Hl IH Hz]; intros i j Hij Hi Hj; [done|].
  destruct j as [|j]; [lia|]. destruct i as [|i]; simpl in *; [|by apply (IH i j); [lia|..]].
  simplify_eq. rewrite Forall_forall in Hz. apply Hz. by eapply list_elem_of_lookup_2.
Qed.

Lemma find_route_spec {B} repo i (l : list (string * B)) :
  match find_route repo i l with
  | Some j => ∃ k p b, j = i + k ∧ l !! k = Some (p, b) ∧ matches_prefix repo p = true ∧ find_backend repo l = Some b ∧
                (∀ k' p' b', k' < k → l !! k' = Some (p', b') → matches_prefix repo p' = false)
  | None => find_backend repo l = None ∧ ∀ p b, (p, b) ∈ l → matches_prefix repo p = false
  end.
Proof.
  revert i. induction l as [|[p b] l IH]; intros i; simpl; [split; [done|]; intros p b; set_solver|].
  destruct (matches_prefix repo p) eqn:E.
  { exists 0, p, b. split_and!; [lia|done|done|done|]. intros; lia. }
  specialize (IH (S i)). destruct (find_route repo (S i) l) as [j|].
  - destruct IH as (k & p' & b' & -> & Hk & Hm & Hf & Hbefore). exists (S k), p', b'.
    split_and!; [lia|done..|]. intros [|k'] p1 b1 Hlt Hl; simpl in Hl; [by simplify_eq|]. eapply Hbefore; [|done]. lia.
  - destruct IH as [Hf Hn]. split; [done|]. intros p1 b1 [?|?]%elem_of_cons; [by simplify_eq|by eapply Hn].
Qed.

Lemma backend_for_at {B} (r : Routed B) repo : backend_at r (route_index r repo) = Some (backend_for r repo).
Proof.
  unfold backend_at, route_index, backend_for. pose proof (find_route_spec repo 0 (rt_routes r)) as H.
  destruct (find_route repo 0 (rt_routes r)) as [j|]; [|by destruct H as [-> _]].
  destruct H as (k & p & b & -> & Hk & _ & -> & _). simpl. by rewrite Hk.
Qed.

Lemma find_route_alter {B} repo i j (b : B) l : find_route repo j (alter (λ p, (p.1, b)) i l) = find_route repo j l.
Proof.
  revert i j. induction l as [|[p c] l IH]; intros i j; [done|]. destruct i as [|i]; [done|].
  change (alter ?f (S i) ((p, c) :: l)) with ((p, c) :: alter f i l). simpl. by rewrite IH.
Qed.

(** An operation changes no prefix, so every repository keeps its backend. *)
Lemma route_index_set {B} (r : Routed B) repo b repo' : route_index (set_backend repo b r) repo' = route_index r repo'.
Proof. unfold set_backend, route_index. case_match; simpl; [|done]. apply find_route_alter. Qed.

Lemma backend_at_set {B} (r : Routed B) repo b i :
  backend_at (set_backend repo b r) i = if decide (i = route_index r repo) then Some b else backend_at r i.
Proof.
  pose proof (backend_for_at r repo) as Hb. unfold set_backend. case_decide as E.
  - subst i. destruct (route_index r repo) as [k|]; [|done]. simpl in *. rewrite list_lookup_alter_eq.
    destruct (rt_routes r !! k); [done|discriminate].
  - destruct (route_index r repo) as [k|], i as [i|]; simpl; try done.
    rewrite list_lookup_alter_ne by congruence. done.
Qed.

Lemma backend_for_set {B} (r : Routed B) repo b repo' :
  backend_for (set_backend repo b r) repo' =
    if decide (route_index r repo' = route_index r repo) then b else backend_for r repo'.
Proof.
  apply (inj Some). rewrite <-!backend_for_at, route_index_set, backend_at_set. by case_decide; rewrite ?backend_for_at.
Qed.

(** ** The table keeps the contract of its backends *)

Section Laws.
Context `{!Crypto, !Storage, !StorageLaws}.

Definition routed_ok (r : Routed sto) : Prop := ∀ i b, backend_at r i = Some b → sto_ok b.

Lemma via_ensures {A : Type} repo (m : M sto StorageError A) (Q : A → sto → Prop) (Q' : A → Routed sto → Prop) :
  ensures sto_ok m Q → (∀ a r, routed_ok r → Q a (backend_for r repo) → Q' a r) → ensures routed_ok (via repo m) Q'.
Proof.
  intros Hm HQ r Hr. unfold via. destruct (Hm (backend_for r repo)) as [I1 I2].
  { apply (Hr (route_index r repo)), backend_for_at. }
  destruct (m (backend_for r repo)) as [b a]. simpl in *.
  assert (routed_ok (set_backend repo b r)) as Hr'.
  { intros i b'. rewrite backend_at_set. case_decide; [by intros [= <-]|apply Hr]. }
  split; [done|]. intros a' ->. apply HQ; [done|]. rewrite backend_for_set, decide_True by done. auto.
Qed.

Lemma via_keeps {A : Type} repo (m : M sto StorageError A) (φ : A → Prop) :
  ensures sto_ok m (λ a _, φ a) → ensures routed_ok (via repo m) (λ a _, φ a).
Proof. intros Hm. by eapply via_ensures. Qed.

Lemma via_attempt {A : Type} repo (m : M sto StorageError A) r : via repo (attempt m) r = attempt (via repo m) r.
Proof. unfold via, attempt. by destruct (m (backend_for r repo)). Qed.

Program Definition routed_laws : StorageLaws (H0 := routed_storage) := {|
  sto_ok := routed_ok;
  sto_has (r : @sto routed_storage) repo d := sto_has (backend_for r repo) repo d;
  sto_view (r : @sto routed_storage) repo := sto_view (backend_for r repo) repo;
  sto_upload (r : @sto routed_storage) repo id n := sto_upload (backend_for r repo) repo id n;
  id_ok := id_ok;
  size_ok := size_ok;
|}.
Next Obligation. apply size_ok_le. Qed.
Next Obligation. intros. eapply via_ensures; [by apply blob_size_law|done]. Qed.
Next Obligation. intros. by apply via_keeps, blob_exists_law. Qed.
Next Obligation. intros. by apply via_keeps, open_blob_law. Qed.
Next Obligation. intros. eapply via_ensures; [by apply begin_upload_law|done]. Qed.
Next Obligation.
  intros. eapply ensures_ext; [apply via_attempt|]. eapply via_ensures; [by apply append_upload_law|done].
Qed.
Next Obligation. intros. eapply via_ensures; [by apply upload_size_law|done]. Qed.
Next Obligation. intros. by apply via_keeps, abort_upload_law. Qed.
Next Obligation.
  intros from to d Hd r Hr. simpl. unfold routed_mount_blob.
  destruct (negb (same_backend r from to)); [split; [done|]; intros b Hb; simpl in Hb; by simplify_eq|].
  eapply (via_ensures to _ _ (λ b r, b = true → from ≠ to → sto_has (backend_for r to) to d));
    [by apply mount_blob_law|done|done].
Qed.
Next Obligation. intros. eapply via_ensures; [by apply finish_upload_law|done]. Qed.
Next Obligation. intros. eapply via_ensures; [by apply delete_blob_law|done]. Qed.
Next Obligation. intros. eapply via_ensures; [by apply put_manifest_law|done]. Qed.
Next Obligation. intros. eapply via_ensures; [by apply get_manifest_law|done]. Qed.
Next Obligation. intros. eapply via_ensures; [by apply delete_manifest_law|done]. Qed.
Next Obligation. intros. eapply via_ensures; [by apply list_tags_law|done]. Qed.
Next Obligation. intros. eapply via_ensures; [by apply list_referrers_law|done]. Qed.
End Laws.

(** ** Properties *)

(** A repository is served by the backend of the longest configured prefix
    that is made of its leading path components, and by the default when
    there is none. *)
Theorem backend_for_longest {B} (dflt : B) routes repo :
  match route_index (Routed_new dflt routes) repo with
  | None => backend_for (Routed_new dflt routes) repo = dflt ∧
      ∀ p b, (p, b) ∈ routes → ¬ split "/" p `prefix_of` split "/" repo
  | Some _ => ∃ p, (p, backend_for (Routed_new dflt routes) repo) ∈ routes ∧
      split "/" p `prefix_of` split "/" repo ∧
      ∀ p' b', (p', b') ∈ routes → split "/" p' `prefix_of` split "/" repo → String.length p' ≤ String.length p
  end.
Proof.
  unfold route_index, backend_for, Routed_new. simpl.
  pose proof (find_route_spec repo 0 (sort_routes routes)) as H.
  destruct (find_route repo 0 (sort_routes routes)) as [j|].
  - destruct H as (k & p & b & _ & Hk & Hm & -> & Hbefore). simpl. exists p. split_and!.
    + rewrite <-(sort_routes_perm routes). by eapply list_elem_of_lookup_2.
    + by apply matches_prefix_spec.
    + intros p' b' Hin Hp'%matches_prefix_spec. rewrite <-(sort_routes_perm routes) in Hin.
      apply list_elem_of_lookup in Hin as [k' Hk'].
      destruct (decide (k' < k)) as [Hlt|Hge]; [by rewrite (Hbefore _ _ _ Hlt Hk') in Hp'|].
      destruct (decide (k' = k)) as [->|Hne]; [by simplify_eq|].
      pose proof (sort_routes_sorted routes) as Hs.
      apply (longest_first_lookup _ k k' _ _ Hs ltac:(lia) Hk Hk').
  - destruct H as [-> Hn]. split; [done|]. intros p b Hin Hp%matches_prefix_spec.
    rewrite <-(sort_routes_perm routes) in Hin. by rewrite (Hn _ _ Hin) in Hp.
Qed.

(** Backends are isolated: an operation on a repository changes the backend
    that serves the repository and no other, and changes no route; a mount
    between repositories of different backends changes nothing and reports
    that nothing was mounted. *)
Theorem routed_isolated `{Crypto, Storage} {A} repo (m : M sto StorageError A) from d r i :
  (i ≠ route_index r repo → backend_at (via repo m r).1 i = backend_at r i) ∧
  (∀ repo', route_index (via repo m r).1 repo' = route_index r repo') ∧
  (route_index r from ≠ route_index r repo → routed_mount_blob from repo d r = (r, Ok false)).
Proof.
  unfold via. destruct (m (backend_for r repo)) as [b a]. simpl. split_and!.
  - intros Hi. by rewrite backend_at_set, decide_False.
  - intros repo'. apply route_index_set.
  - intros Hne. unfold routed_mount_blob, same_backend. by rewrite bool_decide_eq_false_2.
Qed.
