(* ===== verification/FileSys.v ===== *)
(** The file system primitives beneath the store root
    (roci-storage/src/beneath.rs) and the publication of blobs
    (roci-storage/src/publish.rs).

    The tree is a map from relative paths to nodes; a component that is
    neither a directory nor a regular file (a symlink, a FIFO, a device) is
    [Special]. The class [World] is the environment: the [n]-th system call
    fails with the error [fault n], a failing write has written [partial n]
    bytes, a kernel feature is available or not ([supported n]), and
    [getrandom n] is what the random generator returns. Every theorem is about
    all worlds, hence about every pattern of input and output failures. File
    contents are seen as the process sees them: [fsync] is a call that can
    fail and has no other effect on what is read back. *)

From S2P Require Import Prelude RustStr Json Errors Digest Paths Effect.

Inductive node := Dir | Reg (ino : Z) (content : bytes) | Special.
#[export] Instance node_eq_dec : EqDecision node.
Proof. solve_decision. Defined.

(** The error numbers the code tells apart. *)
Inductive errno := ENOENT | ENOTDIR | EEXIST | EISDIR | EOTHER (e : io_error).

Definition io_of_errno (e : errno) : io_error :=
  match e with
  | ENOENT => IoError KNotFound "No such file or directory"
  | ENOTDIR => IoError KOther "Not a directory"
  | EEXIST => IoError KAlreadyExists "File exists"
  | EISDIR => IoError KOther "Is a directory"
  | EOTHER e => e
  end.

Definition not_found : io_error := IoError KNotFound "entity not found".

Class World := {
  fault : nat → option errno;
  partial : nat → nat;
  supported : nat → bool;
  getrandom : nat → result io_error bytes;
  clock : nat → Z;
}.

Record Fs := mkFs { files : gmap path node; next_ino : Z; ticks : nat }.

Definition on_files (g : gmap path node → gmap path node) (f : Fs) : Fs :=
  mkFs (g (files f)) (next_ino f) (ticks f).

(** The root itself is always a directory. *)
Definition node_at (f : Fs) (p : path) : option node :=
  match p with [] => Some Dir | _ => files f !! p end.

(** ** System calls *)

Section Syscalls.
Context `{World}.

Abbreviation sys := (M Fs errno).
Abbreviation io := (M Fs io_error).

Definition tick : M Fs errno nat := λ f, (mkFs (files f) (next_ino f) (S (ticks f)), Ok (ticks f)).

(** Fail as the environment says, or do [k]. *)
Definition syscall {A} (k : sys A) : sys A :=
  n ← tick;
  match fault n with Some e => throw e | None => k end.

Definition openat_dir (p : path) : sys () := syscall $
  n ← gets (λ f, node_at f p);
  match n with
  | Some Dir => mret tt
  | Some _ => throw ENOTDIR
  | None => throw ENOENT
  end.

Definition mkdirat (p : path) : sys () := syscall $
  n ← gets (λ f, node_at f p);
  match n with
  | Some _ => throw EEXIST
  | None => modify (on_files <[p := Dir]>)
  end.

Definition statat (p : path) : sys node := syscall $
  n ← gets (λ f, node_at f p);
  match n with Some n => mret n | None => throw ENOENT end.

Definition unlinkat (p : path) : sys () := syscall $
  n ← gets (λ f, node_at f p);
  match n with
  | None => throw ENOENT
  | Some Dir => throw EISDIR
  | Some _ => modify (on_files (delete p))
  end.

(** [openat(O_CREAT | O_EXCL)]: a new empty regular file; its inode number. *)
Definition create_excl (p : path) : sys Z := syscall $
  n ← gets (λ f, node_at f p);
  match n with
  | Some _ => throw EEXIST
  | None => state (λ f, (mkFs (<[p := Reg (next_ino f) []]> (files f)) (next_ino f + 1)%Z (ticks f), next_ino f))
  end.

Definition append_at (p : path) (data : bytes) (f : Fs) : Fs :=
  match files f !! p with
  | Some (Reg i c) => on_files <[p := Reg i (c ++ data)]> f
  | _ => f
  end.

(** [write_all] on a file open for appending: a failure may leave a prefix. *)
Definition write_all (p : path) (data : bytes) : sys () :=
  n ← tick;
  match fault n with
  | Some e => modify (append_at p (take (partial n) data));; throw e
  | None => modify (append_at p data)
  end.

Definition set_len_at (p : path) (len : Z) (f : Fs) : Fs :=
  match files f !! p with
  | Some (Reg i c) =>
      on_files <[p := Reg i (take (Z.to_nat len) c ++ replicate (Z.to_nat len - length c) "000"%char)]> f
  | _ => f
  end.

Definition set_len (p : path) (len : Z) : sys () := syscall (modify (set_len_at p len)).

Definition fsync : sys () := syscall (mret tt).

(** [linkat] of an existing file, refusing to replace. *)
Definition linkat (p q : path) : sys () := syscall $
  src ← gets (λ f, node_at f p);
  dst ← gets (λ f, node_at f q);
  match src, dst with
  | None, _ => throw ENOENT
  | Some _, Some _ => throw EEXIST
  | Some Dir, None => throw (EOTHER (IoError KOther "Operation not permitted"))
  | Some n, None => modify (on_files <[q := n]>)
  end.

(** [linkat] of an anonymous inode ([O_TMPFILE]) that holds [data]. *)
Definition link_anonymous (data : bytes) (q : path) : sys () := syscall $
  dst ← gets (λ f, node_at f q);
  match dst with
  | Some _ => throw EEXIST
  | None => modify (λ f, mkFs (<[q := Reg (next_ino f) data]> (files f)) (next_ino f + 1)%Z (ticks f))
  end.

(** [renameat2(RENAME_NOREPLACE)] of something that is not a directory. *)
Definition rename_noreplace (p q : path) : sys () := syscall $
  src ← gets (λ f, node_at f p);
  dst ← gets (λ f, node_at f q);
  match src, dst with
  | None, _ => throw ENOENT
  | Some _, Some _ => throw EEXIST
  | Some Dir, None => throw EISDIR
  | Some n, None => modify (on_files (λ fs, <[q := n]> (delete p fs)))
  end.

Definition same_file (n : node) (m : option node) : bool :=
  match n, m with Reg i _, Some (Reg j _) => (i =? j)%Z | _, _ => false end.

(** [renameat], replacing a file; between two links of one file it does
    nothing. *)
Definition rename_replace (p q : path) : sys () := syscall $
  src ← gets (λ f, node_at f p);
  dst ← gets (λ f, node_at f q);
  match src, dst with
  | None, _ => throw ENOENT
  | _, Some Dir => throw EISDIR
  | Some Dir, _ => throw ENOTDIR
  | Some n, dst =>
      if same_file n dst then mret tt else modify (on_files (λ fs, <[q := n]> (delete p fs)))
  end.

Definition is_file (n : node) : bool := match n with Reg _ _ => true | _ => false end.

Definition node_size (n : node) : Z := match n with Reg _ c => blen c | _ => 0%Z end.

(** ** beneath.rs *)

Definition io_err {A} (m : sys A) : io A := mapping_err io_of_errno m.

(** [getrandom::fill]; the bytes come from the environment. *)
Definition random_bytes : io bytes :=
  n ← io_err tick;
  of_result (getrandom n).

(** [openat2(RESOLVE_BENEATH | NO_SYMLINKS | NO_MAGICLINKS)]: [None] when the
    kernel lacks it or the path is empty. *)
Definition all_dirs (f : Fs) (p : path) : bool :=
  forallb (λ k, bool_decide (node_at f (take k p) = Some Dir)) (seq 0 (length p)).

Definition openat2_beneath (rel : path) : io (option (result io_error node)) :=
  n ← io_err tick;
  if negb (supported n) || bool_decide (rel = []) then mret None else
  r ← attempt (syscall (
    dirs ← gets (λ f, all_dirs f rel);
    t ← gets (λ f, node_at f rel);
    if negb dirs then throw ENOENT
    else match t with
         | Some Special => throw ENOTDIR
         | Some n => mret n
         | None => throw ENOENT
         end));
  match r with
  | Ok t => mret (Some (Ok t))
  | Err ENOTDIR => mret (Some (Err not_found))
  | Err e => mret (Some (Err (io_of_errno e)))
  end.

(** The component walk of [dir_beneath]. *)
Fixpoint walk_dirs (walked rel : path) (create : bool) : io () :=
  match rel with
  | [] => mret tt
  | c :: rel =>
      let p := walked ++ [c] in
      r ← attempt (openat_dir p);
      match r with
      | Ok _ => walk_dirs p rel create
      | Err ENOENT =>
          if create then
            m ← attempt (mkdirat p);
            match m with
            | Ok _ | Err EEXIST =>
                r ← attempt (openat_dir p);
                match r with
                | Ok _ => walk_dirs p rel create
                | Err (ENOTDIR | ENOENT) => throw not_found
                | Err e => throw (io_of_errno e)
                end
            | Err e => throw (io_of_errno e)
            end
          else throw not_found
      | Err ENOTDIR => throw not_found
      | Err e => throw (io_of_errno e)
      end
  end.

Definition dir_beneath (rel : path) (create : bool) : io () :=
  io_err (syscall (mret tt));;
  fast ← openat2_beneath rel;
  match fast with
  | Some (Ok Dir) => mret tt
  | Some (Ok _) => if create then walk_dirs [] rel create else throw not_found
  | Some (Err e) =>
      if create && bool_decide (io_kind e = KNotFound) then walk_dirs [] rel create else throw e
  | None => walk_dirs [] rel create
  end.

(** Opening the last component; [write] is [O_WRONLY | O_APPEND]. *)
Definition regular_file (n : node) : io (Z * bytes) :=
  io_err (syscall (mret tt));;
  match n with Reg i c => mret (i, c) | _ => throw not_found end.

Definition openat_leaf (p : path) (write : bool) : io node :=
  r ← attempt (syscall (
    n ← gets (λ f, node_at f p);
    match n with
    | Some Special => throw ENOTDIR
    | Some Dir => if write then throw EISDIR else mret Dir
    | Some n => mret n
    | None => throw ENOENT
    end));
  match r with
  | Ok n => mret n
  | Err ENOTDIR => throw not_found
  | Err e => throw (io_of_errno e)
  end.

Fixpoint walk_parents (walked rel : path) : io () :=
  match rel with
  | [] => mret tt
  | c :: rel =>
      r ← attempt (openat_dir (walked ++ [c]));
      match r with
      | Ok _ => walk_parents (walked ++ [c]) rel
      | Err ENOTDIR => throw not_found
      | Err e => throw (io_of_errno e)
      end
  end.

(** The open file is its inode number and its content at that time. *)
Definition resolve_beneath (rel : path) (write : bool) : io (Z * bytes) :=
  io_err (syscall (mret tt));;
  fast ← openat2_beneath rel;
  match fast with
  | Some (Ok Dir) => if write then throw (io_of_errno EISDIR) else regular_file Dir
  | Some (Ok n) => regular_file n
  | Some (Err e) => throw e
  | None =>
      walk_parents [] (removelast rel);;
      n ← openat_leaf rel write;
      regular_file n
  end.

Definition open_beneath (rel : path) : io (Z * bytes) := resolve_beneath rel false.

(** [read_to_end] of an open file. *)
Definition read_to_end (file : Z * bytes) : io bytes := io_err (syscall (mret (snd file))).

Fixpoint stat_parents (walked rel : path) : io bool :=
  match rel with
  | [] => mret true
  | c :: rel =>
      r ← attempt (openat_dir (walked ++ [c]));
      match r with
      | Ok _ => stat_parents (walked ++ [c]) rel
      | Err (ENOENT | ENOTDIR) => mret false
      | Err e => throw (io_of_errno e)
      end
  end.

(** [Some (is_regular_file, size)], or [None] when absent. *)
Definition stat_beneath (rel : path) : io (option (bool * Z)) :=
  match rel with
  | [] => mret None
  | _ =>
      io_err (syscall (mret tt));;
      found ← stat_parents [] (removelast rel);
      if negb found then mret None else
      st ← attempt (statat rel);
      match st with
      | Ok n => mret (Some (is_file n, node_size n))
      | Err ENOENT => mret None
      | Err e => throw (io_of_errno e)
      end
  end.

Definition unlink_beneath (dir_rel : path) (leaf : string) : io () :=
  dir_beneath dir_rel false;;
  io_err (unlinkat (dir_rel ++ [leaf])).

Definition not_regular (what : string) : io_error := IoError KAlreadyExists what.

(** After [EEXIST]: accepted only when the existing entry is a regular file. *)
Definition accept_existing (p : path) (what : string) : io () :=
  n ← io_err (statat p);
  if is_file n then mret tt else throw (not_regular what).

Definition sync_if (sync : bool) : io () := if sync then io_err fsync else mret tt.

Definition cas_exists : string := "CAS destination exists and is not a regular file".

Definition ino_of (n : node) : option Z := match n with Reg i _ => Some i | _ => None end.

Definition rename_beneath (from_dir : path) (from_leaf : string) (to_dir : path) (to_leaf : string)
    (expected_ino : Z) (sync : bool) : io () :=
  dir_beneath from_dir false;;
  dir_beneath to_dir true;;
  n ← io_err (statat (from_dir ++ [from_leaf]));
  if bool_decide (ino_of n ≠ Some expected_ino) then throw not_found else
  r ← attempt (rename_noreplace (from_dir ++ [from_leaf]) (to_dir ++ [to_leaf]));
  match r with
  | Ok _ => sync_if sync
  | Err EEXIST => accept_existing (to_dir ++ [to_leaf]) cas_exists
  | Err e => throw (io_of_errno e)
  end.

(** ** publish.rs *)

Inductive Promotion := Existing | Reflink | Hardlink | Copy.

Definition promote_temp_noreplace (to_dir : path) (tmp leaf : string) (sync : bool) : io () :=
  r ← attempt (rename_noreplace (to_dir ++ [tmp]) (to_dir ++ [leaf]));
  match r with
  | Ok _ => sync_if sync
  | Err EEXIST =>
      st ← attempt (statat (to_dir ++ [leaf]));
      _ ← attempt (E' := io_error) (unlinkat (to_dir ++ [tmp]));
      match st with
      | Ok n => if is_file n then mret tt else throw (not_regular cas_exists)
      | Err e => throw (io_of_errno e)
      end
  | Err e =>
      _ ← attempt (E' := io_error) (unlinkat (to_dir ++ [tmp]));
      throw (io_of_errno e)
  end.

Context `{Crypto}.

Definition tmp_name (leaf : string) (rnd : bytes) : string :=
  "." +:+ leaf +:+ "." +:+ hex_encode rnd +:+ ".tmp".

(** [ioctl(FICLONE)] of the open source into the temporary file. *)
Definition try_reflink (tmp : path) (content : bytes) : io bool :=
  n ← io_err tick;
  if supported n then
    r ← attempt (E' := io_error) (syscall (modify (append_at tmp content)));
    mret (is_ok r)
  else mret false.

(** [stream_copy]: rewind, truncate and copy. *)
Definition stream_copy (content : bytes) (out : path) : io () :=
  io_err (set_len out 0);;
  io_err (write_all out content).

Definition mount_exists : string := "mount destination exists and is not a regular file".

Definition mount_promote_beneath (from_dir to_dir : path) (leaf : string) (allow_copy sync : bool)
    : io Promotion :=
  dir_beneath from_dir false;;
  dir_beneath to_dir true;;
  src ← mapping_err io_of_errno (syscall (
    n ← gets (λ f, node_at f (from_dir ++ [leaf]));
    match n with Some Special => throw ENOTDIR | Some n => mret n | None => throw ENOENT end));
  io_err (syscall (mret tt));;
  match src with
  | Reg _ content =>
      dst ← attempt (statat (to_dir ++ [leaf]));
      match dst with
      | Ok n => if is_file n then mret Existing else throw (not_regular mount_exists)
      | Err ENOENT =>
          rnd ← random_bytes;
          let tmp := tmp_name leaf rnd in
          io_err (create_excl (to_dir ++ [tmp]));;
          cloned ← try_reflink (to_dir ++ [tmp]) content;
          if cloned : bool then
            sync_if sync;;
            promote_temp_noreplace to_dir tmp leaf sync;;
            mret Reflink
          else
            _ ← attempt (E' := io_error) (unlinkat (to_dir ++ [tmp]));
            r ← attempt (linkat (from_dir ++ [leaf]) (to_dir ++ [leaf]));
            match r with
            | Ok _ => sync_if sync;; mret Hardlink
            | Err EEXIST =>
                n ← io_err (statat (to_dir ++ [leaf]));
                if is_file n then sync_if sync;; mret Existing
                else throw (not_regular mount_exists)
            | Err e =>
                if allow_copy then
                  io_err (create_excl (to_dir ++ [tmp]));;
                  stream_copy content (to_dir ++ [tmp]);;
                  sync_if sync;;
                  promote_temp_noreplace to_dir tmp leaf sync;;
                  mret Copy
                else throw (io_of_errno e)
            end
      | Err e => throw (io_of_errno e)
      end
  | _ => throw (IoError KInvalidInput "mount source is not a regular file")
  end.

Definition publish_bytes_rename (alg_rel : path) (leaf : string) (data : bytes) (sync : bool) : io () :=
  dir_beneath alg_rel true;;
  rnd ← random_bytes;
  let tmp := tmp_name leaf rnd in
  io_err (create_excl (alg_rel ++ [tmp]));;
  io_err (write_all (alg_rel ++ [tmp]) data);;
  sync_if sync;;
  promote_temp_noreplace alg_rel tmp leaf sync.

(** [O_TMPFILE] and [linkat], or the portable fallback. *)
Definition publish_bytes (alg_rel : path) (leaf : string) (data : bytes) (sync : bool) : io () :=
  dir_beneath alg_rel true;;
  n ← io_err tick;
  if negb (supported n) then publish_bytes_rename alg_rel leaf data sync else
  io_err (syscall (mret tt));;
  sync_if sync;;
  r ← attempt (link_anonymous data (alg_rel ++ [leaf]));
  match r with
  | Ok _ => sync_if sync
  | Err EEXIST => accept_existing (alg_rel ++ [leaf]) cas_exists;; sync_if sync
  | Err e => throw (io_of_errno e)
  end.

Definition OCI_LAYOUT_MARKER : string :=
  "{" +:+ String "034" "imageLayoutVersion" +:+ String "034" ":" +:+
  String "034" "1.0.0" +:+ String "034" "}".

(** Whether the marker was newly written. *)
Definition ensure_layout_beneath (repo_rel : path) (marker : string) : io bool :=
  dir_beneath repo_rel true;;
  st ← attempt (statat (repo_rel ++ ["oci-layout"]));
  match st with
  | Ok n =>
      if is_file n then mret false
      else throw (not_regular "oci-layout exists and is not a regular file")
  | Err ENOENT =>
      rnd ← random_bytes;
      let tmp := tmp_name "oci-layout" rnd in
      io_err (create_excl (repo_rel ++ [tmp]));;
      io_err (write_all (repo_rel ++ [tmp]) (as_bytes marker));;
      io_err fsync;;
      promote_temp_noreplace repo_rel tmp "oci-layout" true;;
      mret true
  | Err e => throw (io_of_errno e)
  end.

End Syscalls.
