(* ===== verification/FileSysFacts.v ===== *)
(** What the file system primitives preserve: the content addressing of the
    blob files and the staging files of upload sessions, whatever fails. *)

From S2P Require Import Prelude RustStr Json Errors Digest Paths Effect FileSys.

(** ** Content addressing *)

(** The names of the files the store itself puts into the directory of a
    repository: the index, the layout marker and temporary files. *)
Definition layout_name (name : string) : bool :=
  bool_decide (head (as_bytes name) = Some "."%char) || bool_decide (name = "index.json") || bool_decide (name = "oci-layout").

(** An upload session named like such a file would share it with the repository
    [<repo>/uploads]; every other id is that of a session. *)
Definition upload_id (id : string) : Prop := layout_name id = false.

(** The ids [begin_upload] hands out are lower-case hexadecimal. *)
Definition session_id (id : string) : Prop := string_forallb is_lower_hexdigit id = true ∧ id ≠ "".

Lemma hex_not_layout name : string_forallb is_lower_hexdigit name = true → layout_name name = false.
Proof.
  intros Hh. unfold layout_name. repeat (apply orb_false_iff; split); apply bool_decide_eq_false.
  - destruct name as [|b name]; [done|]. intros [= ->]. done.
  - by intros ->.
  - by intros ->.
Qed.

Lemma session_id_text id : session_id id → id ≠ "" ∧ contains_char "/" id = false ∧ header_ok id = true.
Proof.
  intros [Hid Hne]. split_and!; [done| |].
  - apply contains_char_false. by eapply lower_hex_no_byte.
  - unfold header_ok. eapply string_forallb_impl; [|exact Hid].
    intros b. by destruct b as [[] [] [] [] [] [] [] []].
Qed.

Lemma session_upload_id id : session_id id → upload_id id.
Proof. intros [Hid _]. by apply hex_not_layout. Qed.

Definition blob_at (p : path) (d : Digest) : Prop := digest_wf d ∧ ∃ repo, blob_rel repo d = Ok p.
Definition staging (p : path) : Prop := ∃ repo id, upload_id id ∧ upload_rel repo id = Ok p.

(** Neither a blob nor a staging file: markers, indexes, temporary files. *)
Definition harmless (p : path) : Prop := (∀ d, ¬ blob_at p d) ∧ ¬ staging p.

(** The files of the store. *)
Abbreviation tree := (gmap path node).

Section Facts.
Context `{Crypto}.

Definition blob_ok (p : path) (b : bytes) : Prop := ∀ d, blob_at p d → digest_of b (algorithm d) = d.

(** Every blob file holds the content its name promises. *)
Definition cas_ok (fs : gmap path node) : Prop := ∀ p i b, fs !! p = Some (Reg i b) → blob_ok p b.

(** Content addressing is preserved and staging files are left alone (at most
    a directory appears where nothing was). *)
Definition keeps (f f' : Fs) : Prop :=
  (cas_ok (files f) → cas_ok (files f')) ∧
  ∀ p, staging p → files f' !! p = files f !! p ∨ (files f !! p = None ∧ files f' !! p = Some Dir).

Definition same_files (f f' : Fs) : Prop := files f' = files f.

#[export] Instance keeps_preorder : PreOrder keeps.
Proof.
  split.
  - intros f. split; auto.
  - intros f1 f2 f3 [H1 H2] [H3 H4]. split; [auto|]. intros p Hp.
    destruct (H2 p Hp) as [E|[E1 E2]], (H4 p Hp) as [E'|[E1' E2']]; [left|right|right|]; try congruence.
    + split; congruence.
    + split; congruence.
Qed.

#[export] Instance same_files_preorder : PreOrder same_files.
Proof. split; [done|]. intros f1 f2 f3 E1 E2. unfold same_files in *. congruence. Qed.

Lemma same_keeps f f' : same_files f f' → keeps f f'.
Proof. unfold same_files. intros E. split; rewrite E; auto. Qed.

Lemma runs_same_keeps {E A} (m : M Fs E A) : runs same_files m → runs keeps m.
Proof. intros Hm f. apply same_keeps, Hm. Qed.

(** *** Paths *)

Lemma last_snoc_inj {A} (l l' : list A) x y : l ++ [x] = l' ++ [y] → l = l' ∧ x = y.
Proof. intros E%app_inj_2; [|done]. naive_solver. Qed.

Lemma blob_at_snoc p d : blob_at p d → ∃ r, p = r ++ ["blobs"; algorithm d] ++ [hex d].
Proof. intros [_ [repo (r & _ & _ & ->)%blob_rel_ok]]. by exists r. Qed.

Lemma staging_snoc p : staging p → ∃ r id, upload_id id ∧ p = r ++ ["uploads"] ++ [id].
Proof. intros (repo & id & Hid & (r & _ & _ & ->)%upload_rel_ok). by exists r, id. Qed.

Lemma blob_not_staging p d : blob_at p d → ¬ staging p.
Proof.
  intros Hb. pose proof Hb as [[Ha _] _]. apply blob_at_snoc in Hb as [r ->].
  intros (r' & id & _ & E)%staging_snoc. rewrite !app_assoc in E. apply last_snoc_inj in E as [E _].
  change (r ++ ["blobs"; algorithm d]) with (r ++ ["blobs"] ++ [algorithm d]) in E. rewrite app_assoc in E.
  apply last_snoc_inj in E as [_ E].
  apply algorithm_len_Some in Ha as [[Ha _]|[Ha _]]; congruence.
Qed.

Lemma layout_harmless dir leaf : layout_name leaf = true → harmless (dir ++ [leaf]).
Proof.
  intros Hl. split.
  - intros d Hd. pose proof Hd as [[_ Hh] _]. apply blob_at_snoc in Hd as [r E].
    rewrite app_assoc in E. apply last_snoc_inj in E as [_ ->].
    rewrite hex_not_layout in Hl; [done|]. exact Hh.
  - intros (r & id & Hid & E)%staging_snoc. rewrite app_assoc in E.
    apply last_snoc_inj in E as [_ ->]. unfold upload_id in Hid. congruence.
Qed.

Lemma tmp_harmless dir leaf rnd : harmless (dir ++ [tmp_name leaf rnd]).
Proof. by apply layout_harmless. Qed.

(** The file of a blob in the directory of a digest. *)
Lemma blob_dir_rel_at repo d dir leaf :
  digest_wf d → blob_dir_rel repo d = Ok (dir, leaf) → blob_at (dir ++ [leaf]) d.
Proof. intros Hd E. split; [done|]. exists repo. unfold blob_rel. by rewrite E. Qed.

Lemma blob_at_inj p d d' : blob_at p d → blob_at p d' → d = d'.
Proof.
  intros Hd Hd'. apply blob_at_snoc in Hd as [r ->]. apply blob_at_snoc in Hd' as [r' E].
  rewrite !app_assoc in E. apply last_snoc_inj in E as [E E2].
  change (r ++ ["blobs"; algorithm d]) with (r ++ ["blobs"] ++ [algorithm d]) in E.
  change (r' ++ ["blobs"; algorithm d']) with (r' ++ ["blobs"] ++ [algorithm d']) in E.
  rewrite !app_assoc in E. apply last_snoc_inj in E as [_ E].
  destruct d, d'. simpl in *. congruence.
Qed.

Lemma blob_ok_at p d b : blob_at p d → digest_of b (algorithm d) = d → blob_ok p b.
Proof. intros Hd Hb d' Hd'. by rewrite (blob_at_inj p d' d). Qed.

(** *** Changes of the tree *)

Lemma keeps_insert f f' p n :
  files f' = <[p := n]> (files f) →
  (∀ i b, n = Reg i b → blob_ok p b) →
  (¬ staging p ∨ (files f !! p = None ∧ n = Dir)) →
  keeps f f'.
Proof.
  intros E Hb Hs. split; rewrite E.
  - intros Hc q i b [[-> ->]|[Hne Hq]]%lookup_insert_Some; eauto.
  - intros q Hq. destruct (decide (p = q)) as [->|Hne].
    + destruct Hs as [Hs|[Hs ->]]; [done|]. right. by rewrite lookup_insert_eq.
    + left. by rewrite lookup_insert_ne.
Qed.

Lemma keeps_delete f f' p : files f' = delete p (files f) → ¬ staging p → keeps f f'.
Proof.
  intros E Hs. split; rewrite E.
  - intros Hc q i b [_ Hq]%lookup_delete_Some. eauto.
  - intros q Hq. left. rewrite lookup_delete_ne; [done|]. by intros ->.
Qed.

Lemma harmless_ok p b : harmless p → blob_ok p b.
Proof. intros [Hp _] d Hd. by destruct (Hp d). Qed.
End Facts.

Section Primitives.
Context `{Crypto, World}.

(** Splits the definition of a system call into its branches. *)
Ltac sys_cases :=
  intros f; unfold syscall, tick, mbind, M_bind, gets, throw, mret, M_ret, modify, state; simpl;
  repeat case_match; simplify_eq/=.

Lemma syscall_same {A} (k : M Fs errno A) : runs same_files k → runs same_files (syscall k).
Proof.
  intros Hk f. unfold syscall, tick, mbind, M_bind. simpl. case_match; [done|].
  apply (Hk (mkFs (files f) (next_ino f) (S (ticks f)))).
Qed.

Lemma tick_same : runs same_files tick.
Proof. done. Qed.
Hint Resolve tick_same syscall_same : runs.

Lemma openat_dir_same p : runs same_files (openat_dir p).
Proof. apply syscall_same. runs_auto. Qed.
Lemma statat_same p : runs same_files (statat p).
Proof. apply syscall_same. runs_auto. Qed.
Lemma fsync_same : runs same_files fsync.
Proof. apply syscall_same. runs_auto. Qed.
Hint Resolve openat_dir_same statat_same fsync_same : runs.

Lemma io_err_same {A} (m : M Fs errno A) : runs same_files m → runs same_files (io_err m).
Proof. apply runs_mapping_err. Qed.
Hint Resolve io_err_same : runs.

Lemma random_bytes_same : runs same_files random_bytes.
Proof. unfold random_bytes. runs_auto. Qed.
Lemma openat2_beneath_same rel : runs same_files (openat2_beneath rel).
Proof. unfold openat2_beneath. runs_auto. apply syscall_same. runs_auto. Qed.
Lemma regular_file_same n : runs same_files (regular_file n).
Proof. unfold regular_file. runs_auto. Qed.
Lemma openat_leaf_same p w : runs same_files (openat_leaf p w).
Proof. unfold openat_leaf. runs_auto. apply syscall_same. runs_auto. Qed.
Hint Resolve random_bytes_same openat2_beneath_same regular_file_same openat_leaf_same : runs.

Lemma walk_parents_same walked rel : runs same_files (walk_parents walked rel).
Proof. revert walked. induction rel; intros walked; simpl; runs_auto. Qed.
Lemma stat_parents_same walked rel : runs same_files (stat_parents walked rel).
Proof. revert walked. induction rel; intros walked; simpl; runs_auto. Qed.
Hint Resolve walk_parents_same stat_parents_same : runs.

Lemma resolve_beneath_same rel w : runs same_files (resolve_beneath rel w).
Proof. unfold resolve_beneath. runs_auto. Qed.
Lemma stat_beneath_same rel : runs same_files (stat_beneath rel).
Proof. unfold stat_beneath. runs_auto. Qed.

Lemma read_to_end_same h : runs same_files (read_to_end h).
Proof. unfold read_to_end. runs_auto. Qed.
Lemma sync_if_same b : runs same_files (sync_if b).
Proof. unfold sync_if. runs_auto. Qed.
Hint Resolve resolve_beneath_same stat_beneath_same read_to_end_same sync_if_same : runs.
Lemma accept_existing_same p w : runs same_files (accept_existing p w).
Proof. unfold accept_existing. runs_auto. Qed.
Lemma open_beneath_same rel : runs same_files (open_beneath rel).
Proof. apply resolve_beneath_same. Qed.
Hint Resolve accept_existing_same open_beneath_same runs_same_keeps : runs.

Lemma node_at_None f p : node_at f p = None → files f !! p = None.
Proof. by destruct p. Qed.

Lemma mkdirat_keeps p : runs keeps (mkdirat p).
Proof.
  unfold mkdirat. sys_cases; try (by apply same_keeps). apply (keeps_insert _ _ p Dir); [done..|].
  right. split; [|done]. select (node_at _ _ = None) (fun E => by apply node_at_None in E).
Qed.
Hint Resolve mkdirat_keeps : runs.

Lemma walk_dirs_keeps walked rel create : runs keeps (walk_dirs walked rel create).
Proof. revert walked. induction rel; intros walked; simpl; runs_auto. Qed.
Hint Resolve walk_dirs_keeps : runs.
Lemma dir_beneath_keeps rel create : runs keeps (dir_beneath rel create).
Proof. unfold dir_beneath. runs_auto. Qed.
Hint Resolve dir_beneath_keeps : runs.

Lemma unlinkat_keeps p : ¬ staging p → runs keeps (unlinkat p).
Proof.
  intros Hp. unfold unlinkat. sys_cases; try (by apply same_keeps); by apply (keeps_delete _ _ p).
Qed.
Lemma create_excl_keeps p : harmless p → runs keeps (create_excl p).
Proof.
  intros Hp. unfold create_excl. sys_cases; try (by apply same_keeps).
  eapply (keeps_insert _ _ p); [done| |left; apply Hp]. intros. by apply harmless_ok.
Qed.
Lemma append_at_keeps p data f : harmless p → keeps f (append_at p data f).
Proof.
  intros Hp. unfold append_at. repeat case_match; try (by apply same_keeps).
  eapply (keeps_insert _ _ p); [done| |left; apply Hp]. intros. by apply harmless_ok.
Qed.
Lemma write_all_keeps p data : harmless p → runs keeps (write_all p data).
Proof.
  intros Hp. unfold write_all. runs_auto; apply runs_modify; intros f; by apply append_at_keeps.
Qed.
Lemma set_len_keeps p n : harmless p → runs keeps (set_len p n).
Proof.
  intros Hp. unfold set_len, syscall. runs_auto. apply runs_modify. intros f. unfold set_len_at.
  repeat case_match; try (by apply same_keeps).
  eapply (keeps_insert _ _ p); [done| |left; apply Hp]. intros. by apply harmless_ok.
Qed.
(** *** What the system calls do *)

Lemma same_files_node f f' p : same_files f f' → node_at f' p = node_at f p.
Proof. unfold same_files. intros E. destruct p; simpl; [done|]. by rewrite E. Qed.

Lemma node_at_tick fs i t f p : files f = fs → node_at (mkFs fs i t) p = node_at f p.
Proof. intros <-. by destruct p. Qed.

Lemma statat_spec p f f' n :
  statat p f = (f', Ok n) → same_files f f' ∧ node_at f p = Some n.
Proof.
  revert f f'. unfold statat. sys_cases; intros; simplify_eq/=. by rewrite (node_at_tick _ _ _ f _ eq_refl) in *.
Qed.

Lemma rename_noreplace_spec p q f :
  let '(f', r) := rename_noreplace p q f in
  (r = Ok tt ∧ ∃ n, node_at f p = Some n ∧ n ≠ Dir ∧ node_at f q = None ∧
     files f' = <[q := n]> (delete p (files f))) ∨
  (same_files f f' ∧ ∃ e, r = Err e).
Proof.
  revert f. unfold rename_noreplace.
  sys_cases; try (by right; split; [done|eexists]); rewrite ?(node_at_tick _ _ _ f _ eq_refl) in *; left; eauto 10.
Qed.

Lemma create_excl_spec p f :
  let '(f', r) := create_excl p f in
  match r with
  | Ok i => files f !! p = None ∧ files f' = <[p := Reg i []]> (files f)
  | Err _ => same_files f f'
  end.
Proof.
  revert f. unfold create_excl. sys_cases; try done. split; [|done]. by destruct p.
Qed.

Lemma linkat_spec p q f :
  let '(f', r) := linkat p q f in
  match r with
  | Ok _ => ∃ n, node_at f p = Some n ∧ n ≠ Dir ∧ files f' = <[q := n]> (files f)
  | Err _ => same_files f f'
  end.
Proof.
  revert f. unfold linkat. sys_cases; try done; rewrite ?(node_at_tick _ _ _ f _ eq_refl) in *; eauto.
Qed.

Lemma link_anonymous_spec data q f :
  let '(f', r) := link_anonymous data q f in
  match r with
  | Ok _ => ∃ i, files f' = <[q := Reg i data]> (files f)
  | Err _ => same_files f f'
  end.
Proof. revert f. unfold link_anonymous. sys_cases; try done; by eexists. Qed.

Lemma write_all_spec p data f :
  let '(f', r) := write_all p data f in
  match r with
  | Ok _ => ∀ i c, files f !! p = Some (Reg i c) → files f' = <[p := Reg i (c ++ data)]> (files f)
  | Err _ => ∀ i c, files f !! p = Some (Reg i c) →
      ∃ k, files f' = <[p := Reg i (c ++ take k data)]> (files f)
  end.
Proof.
  unfold write_all, tick, modify, throw, mbind, M_bind. simpl. destruct (fault _); simpl; unfold append_at.
  - intros i c E. simpl. rewrite E. by eexists.
  - intros i c E. simpl. by rewrite E.
Qed.

(** *** Specifications: from files with [G], [m] keeps content addressing and
    the staging files, and its result and the files satisfy [Q]. *)

Definition spec {E A : Type} (G : tree → Prop) (m : M Fs E A) (Q : result E A → tree → Prop) : Prop :=
  ∀ f, G (files f) → keeps f (m f).1 ∧ Q (m f).2 (files (m f).1).

Definition on_ok {E A : Type} (Q : A → tree → Prop) (r : result E A) (t : tree) : Prop :=
  match r with Ok a => Q a t | Err _ => True end.

Lemma spec_bind {E A B : Type} (G : tree → Prop) (m : M Fs E A) (k : A → M Fs E B) Q1 Q :
  spec G m (on_ok Q1) → (∀ a, spec (Q1 a) (k a) (on_ok Q)) → spec G (m ≫= k) (on_ok Q).
Proof.
  intros Hm Hk f Hf. destruct (Hm f Hf) as [H1 H2]. unfold mbind, M_bind.
  destruct (m f) as [f1 [a|e]]; simpl in *; [|done].
  destruct (Hk a f1 H2) as [H3 H4]. split; [by etrans|done].
Qed.

Lemma spec_same {E A : Type} (G : tree → Prop) (m : M Fs E A) : runs same_files m → spec G m (λ _, G).
Proof. intros Hm f Hf. specialize (Hm f). split; [by apply same_keeps|]. unfold same_files in Hm. by rewrite Hm. Qed.

Lemma spec_keeps {E A : Type} (G : tree → Prop) (m : M Fs E A) : runs keeps m → spec G m (λ _ _, True).
Proof. intros Hm f _. split; [apply Hm|done]. Qed.

Lemma spec_attempt {E E' A : Type} (G : tree → Prop) (m : M Fs E A) Q :
  spec G m Q → spec G (attempt m : M Fs E' _) (on_ok Q).
Proof. intros Hm f Hf. rewrite attempt_eq. simpl. by apply Hm. Qed.

Lemma spec_io_err {A : Type} (G : tree → Prop) (m : M Fs errno A) Q : spec G m (on_ok Q) → spec G (io_err m) (on_ok Q).
Proof.
  intros Hm f Hf. destruct (Hm f Hf) as [H1 H2]. unfold io_err, mapping_err.
  destruct (m f) as [f1 [a|e]]; done.
Qed.

Lemma spec_ret {E A : Type} (G : tree → Prop) (a : A) (Q : A → tree → Prop) :
  (∀ t, G t → Q a t) → spec G (mret a : M Fs E A) (on_ok Q).
Proof. intros HQ f Hf. split; [done|]. by apply HQ. Qed.

Lemma spec_throw {E A : Type} (G : tree → Prop) (e : E) (Q : A → tree → Prop) : spec G (throw e) (on_ok Q).
Proof. intros f _. done. Qed.

Lemma spec_weaken {E A : Type} (G G' : tree → Prop) (m : M Fs E A) (Q Q' : result E A → tree → Prop) :
  spec G' m Q' → (∀ t, G t → G' t) → (∀ r t, Q' r t → Q r t) → spec G m Q.
Proof. intros Hm HG HQ f Hf. destruct (Hm f (HG _ Hf)). split; eauto. Qed.

Lemma spec_then {E A B : Type} (G : tree → Prop) (m : M Fs E A) (k : A → M Fs E B) Q :
  runs same_files m → (∀ a, spec G (k a) (on_ok Q)) → spec G (m ≫= k) (on_ok Q).
Proof.
  intros Hm Hk. apply (spec_bind _ _ _ (λ _, G)); [|done].
  eapply spec_weaken; [by apply spec_same|done|]. intros [a|e] t; simpl; auto.
Qed.

(** Forget the state and go on from any files. *)
Lemma spec_keeps_then {E A B : Type} (G : tree → Prop) (m : M Fs E A) (k : A → M Fs E B) Q :
  runs keeps m → (∀ a, spec (λ _, True) (k a) (on_ok Q)) → spec G (m ≫= k) (on_ok Q).
Proof.
  intros Hm Hk. apply (spec_bind _ _ _ (λ _ _, True)); [|done].
  eapply spec_weaken; [by apply spec_keeps|done|]. by intros [a|e] t.
Qed.

Lemma unlinkat_other p q f : p ≠ q → files (unlinkat p f).1 !! q = files f !! q.
Proof.
  intros Hne. revert f. unfold unlinkat. sys_cases; try done; by rewrite lookup_delete_ne.
Qed.

Lemma unlinkat_gone p f :
  files (unlinkat p f).1 !! p = None ∨ files (unlinkat p f).1 !! p = files f !! p.
Proof.
  revert f. unfold unlinkat. sys_cases; try (by right); left; by rewrite lookup_delete_eq.
Qed.

Definition has_file (p : path) (t : tree) : Prop := ∃ i b, t !! p = Some (Reg i b).

(** What is reported as a regular file is one. *)
Lemma statat_node p f n : (statat p f).2 = Ok n → node_at (statat p f).1 p = Some n.
Proof.
  unfold statat, syscall, tick, mbind, M_bind, gets, throw, mret, M_ret, modify, state. simpl.
  repeat case_match; intros; simplify_eq/=; done.
Qed.

Lemma stat_beneath_size rel f n :
  (stat_beneath rel f).2 = Ok (Some (true, n)) → ∃ i b, files (stat_beneath rel f).1 !! rel = Some (Reg i b) ∧ n = blen b.
Proof.
  destruct (stat_beneath rel f) as [f' r] eqn:E. simpl. intros ->. unfold stat_beneath in E.
  destruct rel as [|x rel]; [done|]. apply bind_Ok in E as (f1 & ? & _ & E).
  apply bind_Ok in E as (f2 & found & _ & E). destruct found; [|done]. cbn [negb] in E.
  apply bind_Ok in E as (f3 & st & E3 & E). rewrite attempt_eq in E3. injection E3 as <- <-.
  destruct (statat (x :: rel) f2).2 as [nd|[]] eqn:En; try done. injection E as <- Ef <-.
  apply statat_node in En. destruct nd as [| i b |]; try done. by exists i, b.
Qed.

Lemma stat_beneath_file rel f n :
  (stat_beneath rel f).2 = Ok (Some (true, n)) → has_file rel (files (stat_beneath rel f).1).
Proof. intros (i & b & H' & _)%stat_beneath_size. by exists i, b. Qed.

(** A temporary file that may become [q]. *)
Definition good_temp (p q : path) (t : tree) : Prop := ∃ i b, t !! p = Some (Reg i b) ∧ blob_ok q b.

Lemma node_at_snoc f dir leaf : node_at f (dir ++ [leaf]) = files f !! (dir ++ [leaf]).
Proof. by destruct dir. Qed.

Lemma is_file_has f p n : node_at f p = Some n → is_file n = true → has_file p (files f).
Proof. destruct p, n as [| |]; simpl; try done. intros. by do 2 eexists. Qed.

Lemma promote_temp_spec dir tmp leaf sync :
  harmless (dir ++ [tmp]) → ¬ staging (dir ++ [leaf]) → tmp ≠ leaf →
  spec (good_temp (dir ++ [tmp]) (dir ++ [leaf])) (promote_temp_noreplace dir tmp leaf sync)
    (on_ok (λ _, has_file (dir ++ [leaf]))).
Proof.
  intros Htmp Hleaf Hne. unfold promote_temp_noreplace.
  apply (spec_bind _ _ _ (λ r t, match r with Ok _ => has_file (dir ++ [leaf]) t | Err _ => True end)).
  - apply spec_attempt. intros f (i & b & Hf & Hb).
    pose proof (rename_noreplace_spec (dir ++ [tmp]) (dir ++ [leaf]) f) as Hr.
    destruct (rename_noreplace _ _ f) as [f' r].
    destruct Hr as [(-> & n & Hn & _ & Hnone & Hf')|(Hsame & e & ->)]; simpl.
    + rewrite node_at_snoc in Hn, Hnone. simplify_eq. split; [|by rewrite Hf'; exists i, b; rewrite lookup_insert_eq].
      transitivity (on_files (delete (dir ++ [tmp])) f).
      * apply (keeps_delete _ _ (dir ++ [tmp])); [done|]. apply Htmp.
      * apply (keeps_insert _ _ (dir ++ [leaf]) (Reg i b)); [done| |by left]. naive_solver.
    + split; [by apply same_keeps|done].
  - intros [[]|e].
    + eapply spec_weaken; [apply spec_same, sync_if_same|done|]. by intros [|] t.
    + destruct e; try (apply spec_keeps_then; [apply runs_attempt, unlinkat_keeps, Htmp|intros; apply spec_throw]).
      apply (spec_bind _ _ _ (λ r t, match r with Ok n => is_file n = true → has_file (dir ++ [leaf]) t | Err _ => True end)).
      * apply spec_attempt. intros f _. destruct (statat _ f) as [f' r] eqn:E. simpl.
        pose proof (statat_same (dir ++ [leaf]) f) as Hs. rewrite E in Hs. simpl in Hs. split; [by apply same_keeps|].
        destruct r as [n|]; [|done]. apply statat_spec in E as [_ Hn]. intros Hfile.
        rewrite Hs. by eapply is_file_has.
      * intros st. apply (spec_bind _ _ _ (λ _ t, match st with Ok n => is_file n = true → has_file (dir ++ [leaf]) t | Err _ => True end)).
        -- apply spec_attempt. intros f Hf. split; [by apply unlinkat_keeps, Htmp|].
           destruct st as [n|]; [|done]. intros Hn. apply Hf in Hn as (i & b & Hi). exists i, b.
           rewrite unlinkat_other; [done|]. by intros [_ ?]%last_snoc_inj.
        -- intros _. destruct st as [n|e]; [|apply spec_throw].
           destruct (is_file n); [|apply spec_throw]. apply spec_ret. eauto.
Qed.


Lemma string_length_app s t : String.length (s +:+ t) = String.length s + String.length t.
Proof. rewrite <-!as_bytes_length, as_bytes_app. apply length_app. Qed.

Lemma tmp_name_ne leaf rnd : tmp_name leaf rnd ≠ leaf.
Proof.
  intros E. apply (f_equal String.length) in E. unfold tmp_name in E. rewrite !string_length_app in E.
  simpl in E. lia.
Qed.

(** A fresh temporary file, filled with [data]. *)
Lemma create_temp_spec (G : tree → Prop) p :
  harmless p → spec G (io_err (create_excl p)) (on_ok (λ _ t, ∃ i, t !! p = Some (Reg i []))).
Proof.
  intros Hp. apply spec_io_err. intros f _. split; [by apply create_excl_keeps|].
  pose proof (create_excl_spec p f) as Hs. destruct (create_excl p f) as [f' [i|e]]; simpl; [|done].
  destruct Hs as [_ ->]. exists i. by rewrite lookup_insert_eq.
Qed.

Lemma fill_temp_spec p data :
  harmless p →
  spec (λ t, ∃ i, t !! p = Some (Reg i [])) (io_err (write_all p data))
    (on_ok (λ _ t, ∃ i, t !! p = Some (Reg i data))).
Proof.
  intros Hp. apply spec_io_err. intros f (i & Hi). split; [by apply write_all_keeps|].
  pose proof (write_all_spec p data f) as Hs. destruct (write_all p data f) as [f' [[]|e]]; simpl; [|done].
  rewrite (Hs _ _ Hi). exists i. by rewrite lookup_insert_eq.
Qed.

Lemma accept_existing_spec (G : tree → Prop) p what :
  spec G (accept_existing p what) (on_ok (λ _, has_file p)).
Proof.
  unfold accept_existing.
  apply (spec_bind _ _ _ (λ n t, is_file n = true → has_file p t)).
  - apply spec_io_err. intros f _. destruct (statat p f) as [f' r] eqn:E. simpl.
    pose proof (statat_same p f) as Hs. rewrite E in Hs. simpl in Hs. split; [by apply same_keeps|].
    destruct r as [n|]; [|done]. apply statat_spec in E as [_ Hn]. intros Hfile. rewrite Hs.
    by eapply is_file_has.
  - intros n. destruct (is_file n); [|apply spec_throw]. apply spec_ret. auto.
Qed.

Lemma spec_sync sync p : spec (has_file p) (sync_if sync) (on_ok (λ _, has_file p)).
Proof. eapply spec_weaken; [apply spec_same, sync_if_same|done|]. by intros [|] t. Qed.

(** Publishing content that hashes to the name of the file. *)
Lemma publish_bytes_rename_spec (G : tree → Prop) dir leaf data sync :
  blob_ok (dir ++ [leaf]) data → ¬ staging (dir ++ [leaf]) →
  spec G (publish_bytes_rename dir leaf data sync) (on_ok (λ _, has_file (dir ++ [leaf]))).
Proof.
  intros Hb Hs. unfold publish_bytes_rename.
  apply spec_keeps_then; [apply dir_beneath_keeps|intros ?].
  apply spec_then; [apply random_bytes_same|intros rnd].
  eapply spec_bind; [apply create_temp_spec, tmp_harmless|intros ?].
  eapply spec_bind; [apply fill_temp_spec, tmp_harmless|intros ?].
  apply spec_then; [apply sync_if_same|intros ?].
  eapply spec_weaken; [apply promote_temp_spec; [apply tmp_harmless|done|apply tmp_name_ne]| |done].
  intros t (i & Hi). exists i, data. done.
Qed.

Lemma publish_bytes_spec (G : tree → Prop) dir leaf data sync :
  blob_ok (dir ++ [leaf]) data → ¬ staging (dir ++ [leaf]) →
  spec G (publish_bytes dir leaf data sync) (on_ok (λ _, has_file (dir ++ [leaf]))).
Proof.
  intros Hb Hs. unfold publish_bytes.
  apply spec_keeps_then; [apply dir_beneath_keeps|intros ?].
  apply spec_then; [apply io_err_same, tick_same|intros n].
  case_match; [by apply publish_bytes_rename_spec|].
  apply spec_then; [apply io_err_same, syscall_same; runs_auto|intros ?].
  apply spec_then; [apply sync_if_same|intros ?].
  apply (spec_bind _ _ _ (λ r t, match r with Ok _ => has_file (dir ++ [leaf]) t | Err _ => True end)).
  - apply spec_attempt. intros f _. pose proof (link_anonymous_spec data (dir ++ [leaf]) f) as Hl.
    destruct (link_anonymous _ _ f) as [f' [[]|e]]; simpl.
    + destruct Hl as (i & Hf). split; [|rewrite Hf; exists i, data; by rewrite lookup_insert_eq].
      apply (keeps_insert _ _ _ _ Hf); [|by left]. naive_solver.
    + split; [by apply same_keeps|done].
  - intros [[]|[]]; try apply spec_throw; [apply spec_sync|].
    eapply spec_bind; [apply accept_existing_spec|]. intros ?. apply spec_sync.
Qed.

(** *** Programs that touch one path *)

Definition only (p : path) (f f' : Fs) : Prop := ∀ q, q ≠ p → files f' !! q = files f !! q.

#[export] Instance only_preorder p : PreOrder (only p).
Proof. split; [done|]. intros f1 f2 f3 H1 H2 q Hq. by rewrite H2, H1. Qed.

Lemma append_at_only p data f : only p f (append_at p data f).
Proof. intros q Hq. unfold append_at. repeat case_match; simpl; try done. by rewrite lookup_insert_ne. Qed.

Lemma same_only {E A : Type} p (m : M Fs E A) : runs same_files m → runs (only p) m.
Proof. intros Hm f q _. by rewrite (Hm f). Qed.

Hint Resolve same_only : runs.

Lemma unlinkat_only p : runs (only p) (unlinkat p).
Proof. intros f q Hq. by rewrite unlinkat_other. Qed.
Lemma create_excl_only p : runs (only p) (create_excl p).
Proof.
  intros f q Hq. pose proof (create_excl_spec p f) as Hs. destruct (create_excl p f) as [f' [i|e]]; simpl.
  - destruct Hs as [_ ->]. by rewrite lookup_insert_ne.
  - by rewrite Hs.
Qed.
Lemma try_reflink_only p c : runs (only p) (try_reflink p c).
Proof.
  unfold try_reflink, syscall. runs_auto. apply runs_modify. intros f. apply append_at_only.
Qed.
Hint Resolve unlinkat_only create_excl_only try_reflink_only : runs.

(** Along a run that keeps content addressing and touches only [p], the source
    file stays the blob it is. *)
Definition source (p : path) (i : Z) (c : bytes) (t : tree) : Prop := cas_ok t ∧ t !! p = Some (Reg i c).

Lemma spec_source {E A : Type} (G : tree → Prop) (m : M Fs E A) Q p q i c :
  spec G m Q → runs (only q) m → p ≠ q →
  spec (λ t, source p i c t ∧ G t) m (λ r t, source p i c t ∧ Q r t).
Proof.
  intros Hm Ho Hne f [[Hc Hp] HG]. destruct (Hm f HG) as [[Hk Hs] HQ].
  split_and!; [by split|split|done]; [by apply Hk|by rewrite Ho].
Qed.

Lemma spec_source_step {E A B : Type} (G : tree → Prop) (m : M Fs E A) (k : A → M Fs E B) Q1 Q p q i c :
  spec G m (on_ok Q1) → runs (only q) m → p ≠ q →
  (∀ a, spec (λ t, source p i c t ∧ Q1 a t) (k a) (on_ok Q)) →
  spec (λ t, source p i c t ∧ G t) (m ≫= k) (on_ok Q).
Proof.
  intros Hm Ho Hne Hk. eapply spec_bind; [|exact Hk].
  eapply spec_weaken; [by apply (spec_source _ _ _ p q i c Hm Ho)|done|]. by intros [|] t [? ?].
Qed.

Lemma try_reflink_spec p c :
  harmless p →
  spec (λ t, ∃ i, t !! p = Some (Reg i [])) (try_reflink p c)
    (on_ok (λ b t, b = true → ∃ i, t !! p = Some (Reg i c))).
Proof.
  intros Hp f (i & Hi). unfold try_reflink, io_err, mapping_err, tick, mbind, M_bind. simpl.
  destruct (supported _); simpl; [|by split; [apply same_keeps|]].
  rewrite attempt_eq. simpl. unfold syscall, tick, mbind, M_bind. simpl.
  destruct (fault _); simpl; [by split; [apply same_keeps|]|].
  split; [|intros _; unfold append_at; simpl; rewrite Hi; simpl; exists i; by rewrite lookup_insert_eq].
  etrans; [|by apply append_at_keeps]. by apply same_keeps.
Qed.

Lemma statat_is_file_spec (G : tree → Prop) p :
  spec G (statat p) (on_ok (λ n t, is_file n = true → has_file p t)).
Proof.
  intros f _. destruct (statat p f) as [f' r] eqn:E. simpl.
  pose proof (statat_same p f) as Hs. rewrite E in Hs. simpl in Hs. split; [by apply same_keeps|].
  destruct r as [n|]; [|done]. apply statat_spec in E as [_ Hn]. intros Hfile.
  rewrite Hs. by eapply is_file_has.
Qed.

Lemma statat_file_spec (G : tree → Prop) p :
  spec G (attempt (E' := io_error) (statat p))
    (on_ok (λ r t, G t ∧ match r with Ok n => is_file n = true → has_file p t | Err _ => True end)).
Proof.
  apply spec_attempt. intros f Hf. destruct (statat p f) as [f' r] eqn:E. simpl.
  pose proof (statat_same p f) as Hs. rewrite E in Hs. simpl in Hs. split; [by apply same_keeps|].
  rewrite Hs. split; [done|]. destruct r as [n|]; [|done]. apply statat_spec in E as [_ Hn].
  intros Hfile. by eapply is_file_has.
Qed.

Lemma spec_cas {E A : Type} (G : tree → Prop) (m : M Fs E A) Q :
  spec G m Q → spec (λ t, cas_ok t ∧ G t) m (λ r t, cas_ok t ∧ Q r t).
Proof. intros Hm f [Hc HG]. destruct (Hm f HG) as [Hk HQ]. split_and!; [done| |done]. by apply Hk. Qed.

Lemma spec_cas_then {E A B : Type} (m : M Fs E A) (k : A → M Fs E B) Q :
  runs keeps m → (∀ a, spec cas_ok (k a) (on_ok Q)) → spec cas_ok (m ≫= k) (on_ok Q).
Proof.
  intros Hm Hk. eapply spec_bind; [|exact Hk]. intros f Hf. split; [apply Hm|].
  pose proof (proj1 (Hm f) Hf) as Hc. by destruct (m f) as [f' [|]].
Qed.

Lemma runs_spec {E A : Type} (m : M Fs E A) Q : spec (λ _, True) m Q → runs keeps m.
Proof. intros Hm f. by apply Hm. Qed.

Lemma spec_pure {E A : Type} (φ : Prop) (G : tree → Prop) (m : M Fs E A) Q :
  (∀ t, G t → φ) → (φ → spec G m Q) → spec G m Q.
Proof. intros Hφ Hm f Hf. apply Hm; eauto. Qed.

(** The final step of a promotion: link the source under its new name. *)
Lemma linkat_promote_spec p q i c :
  (∀ b, blob_ok p b → blob_ok q b) → ¬ staging q → p ≠ [] →
  spec (source p i c) (attempt (E' := io_error) (linkat p q))
    (on_ok (λ r t, cas_ok t ∧ match r with Ok _ => has_file q t | Err _ => True end)).
Proof.
  intros Hb Hs Hp. apply spec_attempt. intros f [Hc Hi].
  pose proof (linkat_spec p q f) as Hl. destruct (linkat p q f) as [f' [[]|e]]; simpl.
  - destruct Hl as (n & Hn & _ & Hf). assert (n = Reg i c) as ->.
    { destruct p; [done|]. simpl in Hn. congruence. }
    assert (Hk : keeps f f').
    { apply (keeps_insert _ _ _ _ Hf); [|by left]. intros i' b [= -> ->]. eauto. }
    split_and!; [done|by apply Hk|]. rewrite Hf. exists i, c. by rewrite lookup_insert_eq.
  - split; [by apply same_keeps|]. by rewrite Hl.
Qed.

Lemma snoc_nonempty {A} (l : list A) x : l ++ [x] ≠ [].
Proof. by destruct l. Qed.

(** The temporary file of a promotion, filled by a clone or by a copy. *)
Lemma finish_promotion {A : Type} (a : A) (to : path) (tmp leaf : string) (sync : bool) (content : bytes) (G : tree → Prop) :
  harmless (to ++ [tmp]) → ¬ staging (to ++ [leaf]) → tmp ≠ leaf → blob_ok (to ++ [leaf]) content →
  (∀ t, G t → ∃ i, t !! (to ++ [tmp]) = Some (Reg i content)) →
  spec G (sync_if sync;; promote_temp_noreplace to tmp leaf sync;; mret a)
    (on_ok (λ _, has_file (to ++ [leaf]))).
Proof.
  intros Ht Hs Hne Hb HG. apply spec_then; [apply sync_if_same|intros ?].
  apply (spec_bind _ _ _ (λ _, has_file (to ++ [leaf]))); [|intros ?; by apply spec_ret].
  eapply spec_weaken; [by apply promote_temp_spec| |done].
  intros t (i & Hi)%HG. by exists i, content.
Qed.

Lemma stream_copy_spec p content :
  harmless p →
  spec (λ t, ∃ i, t !! p = Some (Reg i [])) (stream_copy content p)
    (on_ok (λ _ t, ∃ i, t !! p = Some (Reg i content))).
Proof.
  intros Hp. unfold stream_copy.
  apply (spec_bind _ _ _ (λ _ t, ∃ i, t !! p = Some (Reg i []))); [|intros ?; by apply fill_temp_spec].
  apply spec_io_err. intros f (i & Hi). split; [by apply set_len_keeps|].
  unfold set_len, syscall, tick, modify, mbind, M_bind. simpl. destruct (fault _); simpl; [done|].
  unfold set_len_at. simpl. rewrite Hi. simpl. exists i. by rewrite lookup_insert_eq.
Qed.

Lemma mount_promote_spec from to leaf copy sync :
  (∀ b, blob_ok (from ++ [leaf]) b → blob_ok (to ++ [leaf]) b) → ¬ staging (to ++ [leaf]) →
  spec cas_ok (mount_promote_beneath from to leaf copy sync) (on_ok (λ _, has_file (to ++ [leaf]))).
Proof.
  intros Hb Hs. unfold mount_promote_beneath.
  apply spec_cas_then; [apply dir_beneath_keeps|intros ?].
  apply spec_cas_then; [apply dir_beneath_keeps|intros ?].
  apply (spec_bind _ _ _ (λ n t, cas_ok t ∧ t !! (from ++ [leaf]) = Some n)).
  { apply spec_io_err. intros f Hc. unfold syscall, tick, gets, mbind, M_bind. simpl.
    destruct (fault _); simpl; [by split; [apply same_keeps|]|].
    rewrite node_at_snoc. simpl.
    destruct (files f !! _) as [[]|] eqn:E; simpl; (split; [by apply same_keeps|]); done. }
  intros n. apply spec_then; [apply io_err_same, syscall_same; runs_auto|intros ?].
  destruct n as [|i content|]; try apply spec_throw.
  apply (spec_pure (blob_ok (to ++ [leaf]) content)); [intros t [Hc Ht]; eauto|intros Hcont].
  eapply spec_bind; [apply statat_file_spec|]. intros [n|e].
  { destruct (is_file n); [|apply spec_throw]. apply spec_ret. intros t [_ Ht]. auto. }
  destruct e; try apply spec_throw.
  apply spec_then; [apply random_bytes_same|intros rnd].
  pose proof (tmp_harmless to leaf rnd) as Ht. pose proof (tmp_name_ne leaf rnd) as Hne.
  set (tmp := tmp_name leaf rnd) in *.
  assert (Hdiff : from ++ [leaf] ≠ to ++ [tmp]) by (by intros [_ ?]%last_snoc_inj).
  apply (spec_source_step (λ _, True) _ _ (λ _ t, ∃ i, t !! (to ++ [tmp]) = Some (Reg i [])) _ _ (to ++ [tmp]));
    [by apply create_temp_spec|apply runs_mapping_err; eauto with runs|done|intros ?].
  eapply (spec_source_step _ _ _ _ _ _ (to ++ [tmp])); [by apply try_reflink_spec|eauto with runs|done|].
  intros [].
  { eapply finish_promotion; try done. intros t [_ Hi]. auto. }
  eapply spec_bind.
  { eapply spec_weaken; [apply (spec_source (λ _, True) _ (λ _ _, True) (from ++ [leaf]) (to ++ [tmp]) i content)| |];
      [apply spec_keeps, runs_attempt, unlinkat_keeps, Ht|eauto with runs|done|naive_solver|].
    intros [r|] t [Hsrc _]; [exact Hsrc|done]. }
  intros ?. eapply spec_bind; [apply linkat_promote_spec; [done|done|apply snoc_nonempty]|].
  intros [[]|e].
  { apply (spec_bind _ _ _ (λ _, has_file (to ++ [leaf]))).
    - eapply spec_weaken; [apply spec_sync|naive_solver|done].
    - intros ?. by apply spec_ret. }
  assert (Hstat : spec (λ _, True) (n ← io_err (statat (to ++ [leaf]));
      if is_file n then sync_if sync;; mret Existing else throw (not_regular mount_exists))
      (on_ok (λ _, has_file (to ++ [leaf])))).
  { apply (spec_bind _ _ _ (λ n t, is_file n = true → has_file (to ++ [leaf]) t)).
    - apply spec_io_err. apply statat_is_file_spec.
    - intros n. destruct (is_file n); [|apply spec_throw].
      apply (spec_bind _ _ _ (λ _, has_file (to ++ [leaf]))); [|intros ?; by apply spec_ret].
      eapply spec_weaken; [apply spec_sync|auto|done]. }
  destruct e; [..|]; try (by eapply spec_weaken); (destruct copy; [|apply spec_throw]);
    (eapply spec_bind; [by apply create_temp_spec|intros ?]);
    (eapply spec_bind; [by apply stream_copy_spec|intros ?]); by eapply finish_promotion.
Qed.

Lemma ensure_layout_keeps rel marker : runs keeps (ensure_layout_beneath rel marker).
Proof.
  apply (runs_spec _ (on_ok (λ _ _, True))). unfold ensure_layout_beneath.
  pose proof (layout_harmless rel "oci-layout" eq_refl) as Hl.
  apply spec_keeps_then; [apply dir_beneath_keeps|intros ?].
  apply spec_then; [eauto with runs|]. intros [n|e].
  { destruct (is_file n); [by apply spec_ret|apply spec_throw]. }
  destruct e; try apply spec_throw.
  apply spec_then; [apply random_bytes_same|intros rnd].
  eapply spec_bind; [apply create_temp_spec, tmp_harmless|intros ?].
  eapply spec_bind; [apply fill_temp_spec, tmp_harmless|intros ?].
  apply spec_then; [eauto with runs|intros ?].
  eapply spec_bind; [|intros ?; by apply spec_ret].
  eapply spec_weaken; [apply promote_temp_spec; [apply tmp_harmless|apply Hl|apply tmp_name_ne]| |done].
  intros t (i & Hi). exists i. eexists. split; [done|]. by apply harmless_ok.
Qed.

(** Promoting a staged upload: the staging file is what was hashed. *)
Definition keeps_but (q : path) (f f' : Fs) : Prop :=
  (cas_ok (files f) → cas_ok (files f')) ∧
  ∀ p, staging p → p ≠ q → files f' !! p = files f !! p ∨ (files f !! p = None ∧ files f' !! p = Some Dir).

#[export] Instance keeps_but_preorder q : PreOrder (keeps_but q).
Proof.
  split.
  - intros f. split; auto.
  - intros f1 f2 f3 [H1 H2] [H3 H4]. split; [auto|]. intros p Hp Hq.
    destruct (H2 p Hp Hq) as [E|[E1 E2]], (H4 p Hp Hq) as [E'|[E1' E2']]; [left|right|right|]; try congruence.
    + split; congruence.
    + split; congruence.
Qed.

Lemma keeps_keeps_but q f f' : keeps f f' → keeps_but q f f'.
Proof. intros [H1 H2]. split; auto. Qed.

Lemma runs_keeps_but {E A : Type} q (m : M Fs E A) : runs keeps m → runs (keeps_but q) m.
Proof. intros Hm f. apply keeps_keeps_but, Hm. Qed.

Lemma staging_not_blob q b : staging q → blob_ok q b.
Proof. intros Hq d Hd. by destruct (blob_not_staging _ _ Hd). Qed.

Lemma keeps_but_insert q n f f' :
  staging q → files f' = <[q := n]> (files f) → keeps_but q f f'.
Proof.
  intros Hq E. split; rewrite E.
  - intros Hc p i b [[<- _]|[_ Hp]]%lookup_insert_Some; [by apply staging_not_blob|eauto].
  - intros p Hp Hne. left. by rewrite lookup_insert_ne.
Qed.

(** A staging file that a program which keeps staging files did not create. *)
Lemma keeps_staging f f' q i b :
  staging q → keeps f f' → files f' !! q = Some (Reg i b) → files f !! q = Some (Reg i b).
Proof. intros Hq [_ Hk] Hf'. destruct (Hk q Hq) as [E|[_ E]]; congruence. Qed.

Lemma rename_noreplace_but q p f :
  staging q → ¬ staging p → p ≠ [] → q ≠ [] →
  (∀ i b, files f !! q = Some (Reg i b) → blob_ok p b) →
  keeps_but q f (rename_noreplace q p f).1.
Proof.
  intros Hq Hp Hp0 Hq0 Hb. pose proof (rename_noreplace_spec q p f) as Hr.
  destruct (rename_noreplace q p f) as [f' r]. simpl.
  destruct Hr as [(-> & n & Hn & _ & _ & E)|(Hs & _)]; [|by apply keeps_keeps_but, same_keeps].
  split; rewrite E.
  - intros Hc p' i b [[<- ->]|[_ [_ Hp']%lookup_delete_Some]]%lookup_insert_Some; [|eauto].
    apply (Hb i). by destruct q.
  - intros p' Hp' Hne. left. rewrite lookup_insert_ne by (by intros ->). by rewrite lookup_delete_ne.
Qed.

(** The rename itself, from a state [f0] reached from [f]. *)
Lemma rename_finish from from_leaf to to_leaf ino sync f f0 n :
  staging (from ++ [from_leaf]) → ¬ staging (to ++ [to_leaf]) →
  (∀ i b, files f !! (from ++ [from_leaf]) = Some (Reg i b) → blob_ok (to ++ [to_leaf]) b) →
  keeps f f0 → node_at f0 (from ++ [from_leaf]) = Some n → ino_of n = Some ino →
  let '(f', r) := (r ← attempt (rename_noreplace (from ++ [from_leaf]) (to ++ [to_leaf]));
    match r with
    | Ok _ => sync_if sync
    | Err EEXIST => accept_existing (to ++ [to_leaf]) cas_exists
    | Err e => throw (io_of_errno e)
    end) f0 in
  keeps_but (from ++ [from_leaf]) f f' ∧ (r = Ok tt → has_file (to ++ [to_leaf]) (files f')).
Proof.
  intros Hq Hp Hb Hk Hn Hi. unfold mbind, M_bind. rewrite attempt_eq. simpl.
  pose proof (rename_noreplace_but (from ++ [from_leaf]) (to ++ [to_leaf]) f0 Hq Hp
    (snoc_nonempty _ _) (snoc_nonempty _ _)) as Hk0.
  ospecialize (Hk0 _); [intros i b Hib; by eapply Hb, keeps_staging|].
  pose proof (rename_noreplace_spec (from ++ [from_leaf]) (to ++ [to_leaf]) f0) as Hr.
  destruct (rename_noreplace _ _ f0) as [f1 r]. simpl in Hk0 |- *.
  assert (Hk1 : keeps_but (from ++ [from_leaf]) f f1) by (etrans; [by apply keeps_keeps_but|done]).
  destruct Hr as [(-> & n' & Hn' & _ & _ & E)|(Hs & e & ->)]; simpl.
  - pose proof (sync_if_same sync f1) as Hs. destruct (sync_if sync f1) as [f2 r2]. simpl in *.
    split; [etrans; [done|]; by apply keeps_keeps_but, same_keeps|]. intros _. rewrite Hs, E.
    simplify_eq. destruct n; simplify_eq/=. do 2 eexists. by rewrite lookup_insert_eq.
  - destruct e; simpl; try done. destruct (accept_existing_spec (λ _, True) (to ++ [to_leaf]) cas_exists f1 I) as [Hk2 Hok].
    destruct (accept_existing _ _ f1) as [f2 r2]. simpl in *.
    split; [etrans; [done|]; by apply keeps_keeps_but|]. intros ->. done.
Qed.

Lemma rename_beneath_spec from from_leaf to to_leaf ino sync f :
  staging (from ++ [from_leaf]) → ¬ staging (to ++ [to_leaf]) →
  (∀ i b, files f !! (from ++ [from_leaf]) = Some (Reg i b) → blob_ok (to ++ [to_leaf]) b) →
  let '(f', r) := rename_beneath from from_leaf to to_leaf ino sync f in
  keeps_but (from ++ [from_leaf]) f f' ∧ (r = Ok tt → has_file (to ++ [to_leaf]) (files f')).
Proof.
  intros Hq Hp Hb. unfold rename_beneath.
  unfold mbind, M_bind at 1.
  pose proof (dir_beneath_keeps from false f) as H1. destruct (dir_beneath from false f) as [f1 [[]|e]];
    simpl in H1; [|by split; [apply keeps_keeps_but|]].
  unfold M_bind at 1. pose proof (dir_beneath_keeps to true f1) as H2.
  destruct (dir_beneath to true f1) as [f2 [[]|e]]; simpl in H2;
    [|by split; [apply keeps_keeps_but; etrans|]].
  assert (H02 : keeps f f2) by (by etrans). unfold M_bind at 1, io_err, mapping_err.
  destruct (statat (from ++ [from_leaf]) f2) as [f3 r3] eqn:Est.
  pose proof (statat_same (from ++ [from_leaf]) f2) as H3. rewrite Est in H3. simpl in H3.
  assert (H03 : keeps f f3) by (etrans; [done|by apply same_keeps]).
  destruct r3 as [n|e]; simpl; [|by split; [apply keeps_keeps_but|]].
  apply statat_spec in Est as [_ Hn]. case_bool_decide as Hino; simpl; [by split; [apply keeps_keeps_but|]|].
  eapply (rename_finish from from_leaf to to_leaf ino sync f f3 n); try done. by rewrite (same_files_node f2).
Qed.

(** *** Opening files *)

Lemma walk_dirs_same walked rel : runs same_files (walk_dirs walked rel false).
Proof. revert walked. induction rel; intros walked; simpl; runs_auto. Qed.
Hint Resolve walk_dirs_same : runs.

Lemma dir_beneath_same rel : runs same_files (dir_beneath rel false).
Proof. unfold dir_beneath. runs_auto. Qed.

Lemma unlink_beneath_only dir leaf : runs (only (dir ++ [leaf])) (unlink_beneath dir leaf).
Proof.
  unfold unlink_beneath. apply runs_bind; [apply same_only, dir_beneath_same|intros ?].
  apply runs_mapping_err, unlinkat_only.
Qed.

Lemma unlink_beneath_keeps dir leaf : ¬ staging (dir ++ [leaf]) → runs keeps (unlink_beneath dir leaf).
Proof.
  intros Hs. unfold unlink_beneath. apply runs_bind; [apply dir_beneath_keeps|intros ?].
  by apply runs_mapping_err, unlinkat_keeps.
Qed.

Lemma unlinkat_but q : staging q → runs (keeps_but q) (unlinkat q).
Proof.
  intros Hq. unfold unlinkat. sys_cases; try (by apply keeps_keeps_but, same_keeps).
  all: split; simpl; [intros Hc p i b [_ Hp]%lookup_delete_Some; eauto|];
    intros p Hp Hne; left; by rewrite lookup_delete_ne.
Qed.

Lemma unlink_beneath_but dir leaf :
  staging (dir ++ [leaf]) → runs (keeps_but (dir ++ [leaf])) (unlink_beneath dir leaf).
Proof.
  intros Hs. unfold unlink_beneath.
  apply runs_bind; [apply runs_keeps_but, dir_beneath_keeps|intros ?].
  by apply runs_mapping_err, unlinkat_but.
Qed.

(** A file that was opened is the regular file at that path. *)
Definition opens (p : path) (t : tree) (h : Z * bytes) : Prop := t !! p = Some (Reg h.1 h.2).

Lemma regular_file_ok n f f' h : regular_file n f = (f', Ok h) → n = Reg h.1 h.2.
Proof.
  unfold regular_file, io_err, mapping_err, syscall, tick, mbind, M_bind, mret, M_ret, throw. simpl.
  destruct (fault _); simpl; [done|]. destruct n; simpl; intros; simplify_eq/=. done.
Qed.

Lemma openat2_ok rel f f' n :
  openat2_beneath rel f = (f', Ok (Some (Ok n))) → node_at f rel = Some n.
Proof.
  unfold openat2_beneath, io_err, mapping_err, syscall, tick, mbind, M_bind, mret, M_ret, throw. simpl.
  case_match; [done|]. rewrite attempt_eq. simpl. destruct (fault _) as [[]|]; simpl; try done.
  unfold gets. simpl. rewrite !(node_at_tick _ _ _ f _ eq_refl).
  destruct (all_dirs _ _); simpl; [|done]. destruct (node_at f rel) as [[]|]; simpl; congruence.
Qed.

Lemma openat_leaf_ok p w f f' n : openat_leaf p w f = (f', Ok n) → node_at f p = Some n.
Proof.
  unfold openat_leaf, syscall, tick, mbind, M_bind, mret, M_ret, throw. simpl. rewrite attempt_eq. simpl.
  destruct (fault _) as [[]|]; simpl; try done. unfold gets. simpl. rewrite !(node_at_tick _ _ _ f _ eq_refl).
  destruct (node_at f p) as [[]|]; try destruct w; simpl; congruence.
Qed.

Lemma resolve_beneath_spec (G : tree → Prop) rel w :
  rel ≠ [] → spec G (resolve_beneath rel w) (on_ok (λ h t, G t ∧ opens rel t h)).
Proof.
  intros Hrel f Hf. pose proof (resolve_beneath_same rel w f) as Hs. split; [by apply same_keeps|].
  destruct (resolve_beneath rel w f) as [f' [h|e]] eqn:E; simpl in *; [|done]. rewrite Hs. split; [done|].
  unfold opens. assert (Hn : ∀ n, node_at f rel = Some n → n = Reg h.1 h.2 → files f !! rel = Some (Reg h.1 h.2)).
  { intros n Hn ->. by destruct rel. }
  unfold resolve_beneath in E. apply bind_Ok in E as (f1 & [] & E1 & E).
  pose proof (io_err_same _ (syscall_same _ (runs_ret (R := same_files) tt)) f) as H1. rewrite E1 in H1. simpl in H1.
  apply bind_Ok in E as (f2 & fast & E2 & E).
  destruct fast as [[n|e]|].
  - pose proof (openat2_ok _ _ _ _ E2) as Hnode. rewrite (same_files_node f f1) in Hnode by done.
    destruct n; [destruct w; [done|]| |]; apply regular_file_ok in E; eauto.
  - done.
  - apply bind_Ok in E as (f3 & [] & E3 & E). apply bind_Ok in E as (f4 & n & E4 & E).
    apply openat_leaf_ok in E4. apply regular_file_ok in E.
    pose proof (openat2_beneath_same rel f1) as H2. rewrite E2 in H2. simpl in H2.
    pose proof (walk_parents_same [] (removelast rel) f2) as H3. rewrite E3 in H3. simpl in H3.
    rewrite (same_files_node f2 f3), (same_files_node f1 f2), (same_files_node f f1) in E4 by done. eauto.
Qed.

Lemma read_to_end_ok h f f' b : read_to_end h f = (f', Ok b) → b = h.2.
Proof.
  unfold read_to_end, io_err, mapping_err, syscall, tick, mbind, M_bind, mret, M_ret, throw. simpl.
  destruct (fault _); simpl; [done|]. by intros [= _ <-].
Qed.

Lemma rename_replace_keeps p q : ¬ staging p → harmless q → runs keeps (rename_replace p q).
Proof.
  intros Hp Hq. unfold rename_replace.
  assert (Hmove : ∀ f n, keeps f (on_files (λ t, <[q := n]> (delete p t)) f)).
  { intros f n. transitivity (on_files (delete p) f).
    - by apply (keeps_delete _ _ p).
    - apply (keeps_insert _ _ q n); [done| |left; apply Hq]. intros. by apply harmless_ok. }
  sys_cases; try (by apply same_keeps);
    (etrans; [|apply (Hmove (mkFs (files f) (next_ino f) (S (ticks f))))]; by apply same_keeps).
Qed.

Lemma link_anonymous_keeps data q : harmless q → runs keeps (link_anonymous data q).
Proof.
  intros Hq f. pose proof (link_anonymous_spec data q f) as Hl.
  destruct (link_anonymous data q f) as [f' [[]|e]]; simpl; [|by apply same_keeps].
  destruct Hl as [i Hf]. apply (keeps_insert _ _ _ _ Hf); [|left; apply Hq]. intros. by apply harmless_ok.
Qed.
End Primitives.

#[export] Hint Resolve tick_same syscall_same openat_dir_same statat_same fsync_same io_err_same
  random_bytes_same openat2_beneath_same regular_file_same resolve_beneath_same stat_beneath_same
  read_to_end_same sync_if_same accept_existing_same open_beneath_same runs_same_keeps
  dir_beneath_keeps ensure_layout_keeps : runs.
