(* ===== verification/UploadBody.v ===== *)
(** Streamed upload bodies (roci-storage/src/upload_body.rs): chunks are
    gathered into large batches, written to the staging file and, when the
    bytes staged before are covered, hashed on write. *)

From S2P Require Import Prelude RustStr Json Errors Digest Paths Effect StorageApi FileSys FileSysFacts.

Definition WRITE_BATCH : Z := 2 ^ 20.

(** [sha] is a hasher: the bytes it was fed. *)
Record StagedHash := mkHash { sha : bytes; crc : Z; hlen : Z }.

Record Deferred := mkDeferred { d_len : Z; d_hash : option StagedHash; d_tail : bytes; d_tail_at : Z }.

Section UploadBody.
Context `{Crypto, World}.

Definition StagedHash_new : StagedHash := mkHash [] 0 0.

Definition update (buf : bytes) (h : StagedHash) : StagedHash :=
  mkHash (sha h ++ buf) (crc32c_append (crc h) buf) (hlen h + blen buf)%Z.

Definition finish (h : StagedHash) : Digest * Z := (finish_sha256 (sha h), crc h).

(** [write_batch], with the emptied buffer left implicit. *)
Definition write_batch (p : path) (batch : bytes) (hash : option StagedHash)
    : M Fs StorageError (option StagedHash) :=
  mapping_err Io (io_err (write_all p batch));;
  mret (update batch <$> hash).

(** [while !rest.is_empty()]: fill the batch, writing it whenever it is full. *)
Fixpoint fill (fuel : nat) (p : path) (rest batch : bytes) (hash : option StagedHash) (written : Z)
    : M Fs StorageError (bytes * option StagedHash * Z) :=
  match fuel with
  | O => mret (batch, hash, written)
  | S fuel =>
      if bool_decide (rest = []) then mret (batch, hash, written) else
      let n := Z.to_nat (Z.min (blen rest) (WRITE_BATCH - blen batch)) in
      let batch := batch ++ take n rest in
      let rest := drop n rest in
      if (blen batch =? WRITE_BATCH)%Z then
        hash ← write_batch p batch hash;
        fill fuel p rest [] hash (written + WRITE_BATCH)%Z
      else fill fuel p rest batch hash written
  end.

Fixpoint body_loop (p : path) (body : UploadBody) (limit : Z) (defer_tail : bool)
    (batch : bytes) (hash : option StagedHash) (written : Z)
    : M Fs StorageError (bytes * option StagedHash * Z) :=
  match body with
  | [] =>
      if negb defer_tail && bool_decide (batch ≠ []) then
        hash ← write_batch p batch hash;
        mret ([], hash, (written + blen batch)%Z)
      else mret (batch, hash, written)
  | Err e :: _ => throw (Io e)
  | Ok chunk :: body =>
      let received := (written + blen batch + blen chunk)%Z in
      if (limit <? received)%Z then throw (TooLarge limit received) else
      '(batch, hash, written) ← fill (S (length chunk)) p chunk batch hash written;
      body_loop p body limit defer_tail batch hash written
  end.

Definition append_inner (p : path) (start : Z) (body : UploadBody) (limit : Z)
    (hash : option StagedHash) (defer_tail : bool) : M Fs StorageError Deferred :=
  let hash := hash ≫= λ h, if (hlen h =? start)%Z then Some h else None in
  r ← attempt (body_loop p body limit defer_tail [] hash 0);
  match r with
  | Ok (batch, hash, written) =>
      let tail_at := (start + written)%Z in
      mret (mkDeferred (tail_at + blen batch) hash batch tail_at)
  | Err e =>
      mapping_err Io (io_err (set_len p start));;
      throw e
  end.

Definition append_body (p : path) (start : Z) (body : UploadBody) (limit : Z)
    (hash : option StagedHash) : M Fs StorageError (Z * option StagedHash) :=
  d ← append_inner p start body limit hash false;
  mret (d_len d, d_hash d).

Definition append_body_deferring_tail (p : path) (start : Z) (body : UploadBody) (limit : Z)
    (hash : option StagedHash) : M Fs StorageError Deferred :=
  append_inner p start body limit hash true.

(** Write the tail; truncate on failure. *)
Definition write_tail (p : path) (d : Deferred) : M Fs io_error (option StagedHash) :=
  if bool_decide (d_tail d = []) then mret (d_hash d) else
  r ← attempt (io_err (write_all p (d_tail d)));
  match r with
  | Ok _ => mret (update (d_tail d) <$> d_hash d)
  | Err e =>
      _ ← attempt (E' := io_error) (set_len p (d_tail_at d));
      throw e
  end.

(** ** Lemmas *)

(** The hash has been fed exactly [c]. *)
Definition hashed (c : bytes) (h : StagedHash) : Prop :=
  sha h = c ∧ crc h = crc32c c ∧ hlen h = blen c.

Definition covers (c : bytes) (hash : option StagedHash) : Prop :=
  ∀ h, hash = Some h → hashed c h.

Definition holds (p : path) (i : Z) (c : bytes) (f : Fs) : Prop := files f !! p = Some (Reg i c).

Lemma hashed_new `{!CryptoLaws} : hashed [] StagedHash_new.
Proof. split_and!; [done| |done]. unfold crc32c. by rewrite crc32c_append_nil. Qed.

Lemma hashed_update `{!CryptoLaws} c buf h : hashed c h → hashed (c ++ buf) (update buf h).
Proof.
  intros (E1 & E2 & E3). unfold update. split_and!; simpl; [congruence| |rewrite blen_app; lia].
  rewrite E2. unfold crc32c. apply crc32c_append_app.
Qed.

Lemma covers_update `{!CryptoLaws} c buf hash : covers c hash → covers (c ++ buf) (update buf <$> hash).
Proof. intros Hc h (h' & -> & ->)%fmap_Some. by apply hashed_update, Hc. Qed.

Lemma finish_hashed c h : hashed c h → finish h = (digest_of c "sha256", crc32c c).
Proof. intros (E1 & E2 & _). unfold finish, finish_sha256. by rewrite E1, E2, finalize_digest_of. Qed.

(** The result of a program that appends to [p], which held [c]: on success
    [Q] holds of the result and the bytes appended; on failure some bytes may
    have been appended. *)
Definition appends {A : Type} (p : path) (i : Z) (c : bytes) (m : M Fs StorageError A)
    (Q : A → bytes → Prop) : Prop :=
  ∀ f, holds p i c f →
  match (m f).2 with
  | Ok a => ∃ w, holds p i (c ++ w) (m f).1 ∧ Q a w
  | Err _ => ∃ w, holds p i (c ++ w) (m f).1
  end.

Lemma appends_bind {A B : Type} p i c (m : M Fs StorageError A) (k : A → M Fs StorageError B) Q1 Q :
  appends p i c m Q1 →
  (∀ a w, Q1 a w → appends p i (c ++ w) (k a) (λ b w', Q b (w ++ w'))) →
  appends p i c (m ≫= k) Q.
Proof.
  intros Hm Hk f Hf. specialize (Hm f Hf). unfold mbind, M_bind.
  destruct (m f) as [f1 [a|e]]; simpl in *; [|done].
  destruct Hm as (w & Hw & HQ). specialize (Hk a w HQ f1 Hw). destruct (k a f1) as [f2 [b|e]]; simpl in *.
  - destruct Hk as (w' & Hw' & HQ'). exists (w ++ w'). by rewrite app_assoc.
  - destruct Hk as (w' & Hw'). exists (w ++ w'). by rewrite app_assoc.
Qed.

Lemma appends_ret {A : Type} p i c (a : A) (Q : A → bytes → Prop) : Q a [] → appends p i c (mret a) Q.
Proof. intros HQ f Hf. simpl. exists []. by rewrite app_nil_r. Qed.

Lemma appends_throw {A : Type} p i c e (Q : A → bytes → Prop) : appends p i c (throw e) Q.
Proof. intros f Hf. simpl. exists []. by rewrite app_nil_r. Qed.

Lemma write_batch_appends `{!CryptoLaws} p i c batch hash :
  covers c hash →
  appends p i c (write_batch p batch hash) (λ h w, w = batch ∧ covers (c ++ batch) h).
Proof.
  intros Hc f Hf. unfold write_batch, mapping_err, io_err, mbind, M_bind, mapping_err.
  pose proof (write_all_spec p batch f) as Hw.
  destruct (write_all p batch f) as [f' [[]|e]]; simpl.
  - exists batch. split; [|split; [done|by apply covers_update]]. unfold holds.
    rewrite (Hw _ _ Hf). by rewrite lookup_insert_eq.
  - destruct (Hw _ _ Hf) as [k E]. exists (take k batch). unfold holds. rewrite E. by rewrite lookup_insert_eq.
Qed.

Definition filled (c rest batch : bytes) (written : Z) (r : bytes * option StagedHash * Z) (w : bytes) : Prop :=
  w ++ r.1.1 = batch ++ rest ∧ r.2 = (written + blen w)%Z ∧ (blen r.1.1 < WRITE_BATCH)%Z ∧ covers (c ++ w) r.1.2.

Lemma fill_appends `{!CryptoLaws} fuel p i c rest batch hash written :
  length rest < fuel → (blen batch < WRITE_BATCH)%Z → covers c hash →
  appends p i c (fill fuel p rest batch hash written) (filled c rest batch written).
Proof.
  revert c rest batch hash written.
  induction fuel as [|fuel IH]; intros c rest batch hash written Hfuel Hb Hc; [lia|]. cbn [fill].
  case_bool_decide as Hr.
  { subst rest. apply appends_ret. unfold filled. cbn [fst snd]. rewrite !app_nil_r, Z.add_0_r. done. }
  set (n := Z.to_nat (Z.min (blen rest) (WRITE_BATCH - blen batch))).
  assert (Hn : 0 < n ≤ length rest).
  { subst n. assert (0 < blen rest)%Z by (destruct rest; [done|unfold blen; simpl; lia]). unfold blen in *. lia. }
  assert (Hlen : blen (batch ++ take n rest) = (blen batch + Z.of_nat n)%Z).
  { unfold blen. rewrite length_app, length_take. lia. }
  assert (Hdrop : length (drop n rest) < fuel) by (rewrite length_drop; lia).
  case_match eqn:Efull; bool_simp.
  - eapply appends_bind; [by apply write_batch_appends|]. intros h w [-> Hh].
    intros f Hf. specialize (IH (c ++ batch ++ take n rest) (drop n rest) [] h (written + WRITE_BATCH)%Z
      Hdrop ltac:(done) Hh f Hf). case_match; [|done].
    destruct IH as (w & Hw & E1 & E2 & E3 & E4). exists w. split; [done|]. split_and!; [| |done|].
    + rewrite <-!app_assoc. rewrite E1. cbn [app]. by rewrite take_drop.
    + rewrite E2, blen_app. lia.
    + by rewrite app_assoc.
  - intros f Hf. specialize (IH c (drop n rest) (batch ++ take n rest) hash written Hdrop).
    ospecialize (IH _ Hc f Hf); [subst n; lia|]. case_match; [|done].
    destruct IH as (w & Hw & E1 & E2 & E3 & E4). exists w. split; [done|]. split_and!; try done.
    by rewrite E1, <-app_assoc, take_drop.
Qed.

Definition looped (c batch : bytes) (written : Z) (body : UploadBody) (limit : Z) (defer_tail : bool)
    (r : bytes * option StagedHash * Z) (w : bytes) : Prop :=
  ∃ all, delivered body = Some all ∧ w ++ r.1.1 = batch ++ all ∧ r.2 = (written + blen w)%Z ∧
    covers (c ++ w) r.1.2 ∧ (defer_tail = false → r.1.1 = []) ∧
    (body ≠ [] → (written + blen batch + blen all ≤ limit)%Z).

Lemma body_loop_appends `{!CryptoLaws} p i c body limit defer batch hash written :
  (blen batch < WRITE_BATCH)%Z → covers c hash →
  appends p i c (body_loop p body limit defer batch hash written) (looped c batch written body limit defer).
Proof.
  revert c batch hash written. induction body as [|[chunk|e] body IH]; intros c batch hash written Hb Hc; cbn [body_loop].
  - case_match eqn:E.
    + eapply appends_bind; [by apply write_batch_appends|]. intros h w [-> Hh]. apply appends_ret.
      exists []. simpl. rewrite !app_nil_r. split_and!; done.
    + apply appends_ret. exists []. simpl. rewrite !app_nil_r, Z.add_0_r. split_and!; try done.
      intros ->. destruct batch; [done|]. by rewrite bool_decide_eq_true_2 in E.
  - case_match eqn:E; [apply appends_throw|]. bool_simp.
    eapply appends_bind; [apply fill_appends; [lia|done..]|].
    intros [[batch' h'] written'] w (E1 & E2 & E3 & E4). simpl in *. intros f Hf.
    specialize (IH (c ++ w) batch' h' written' E3 E4 f Hf). case_match; [|done].
    destruct IH as (w' & Hw' & all & D & F1 & F2 & F3 & F4 & F5). exists w'. split; [done|].
    exists (chunk ++ all). assert (Hl : (blen batch + blen chunk = blen w + blen batch')%Z) by (rewrite <-!blen_app; congruence).
    split_and!; [by simpl; rewrite D| | | |done|].
    + rewrite <-app_assoc, F1, !app_assoc. by rewrite E1.
    + rewrite F2, E2, blen_app. lia.
    + by rewrite app_assoc.
    + intros _. rewrite blen_app. destruct body as [|x body]; [|specialize (F5 ltac:(done)); lia].
      simpl in D. simplify_eq. unfold blen at 3. simpl. lia.
  - apply appends_throw.
Qed.

(** What the deferred tail says about the staging file. *)
Definition deferred_ok (c : bytes) (d : Deferred) (w : bytes) (all : bytes) : Prop :=
  w ++ d_tail d = all ∧ d_tail_at d = (blen c + blen w)%Z ∧ d_len d = (blen c + blen all)%Z ∧
  covers (c ++ w) (d_hash d).

Lemma append_inner_ok `{!CryptoLaws} p i c body limit hash defer f f' d :
  holds p i c f → (∀ h, hash = Some h → hlen h = blen c → hashed c h) →
  append_inner p (blen c) body limit hash defer f = (f', Ok d) →
  ∃ w all, delivered body = Some all ∧ holds p i (c ++ w) f' ∧ deferred_ok c d w all ∧
    (defer = false → d_tail d = []) ∧ (body ≠ [] → (blen all ≤ limit)%Z).
Proof.
  intros Hf Hh. unfold append_inner. cbn zeta.
  set (h0 := hash ≫= λ h, if (hlen h =? blen c)%Z then Some h else None).
  assert (Hc : covers c h0).
  { intros h (h1 & E1 & E2)%bind_Some. case_match eqn:El; simplify_eq. bool_simp. by apply Hh. }
  pose proof (body_loop_appends p i c body limit defer [] h0 0 ltac:(done) Hc f Hf) as Hl.
  unfold mbind, M_bind. rewrite attempt_eq. simpl.
  destruct (body_loop _ _ _ _ _ _ _ f) as [f1 [[[b h] wr]|e]]; simpl in *.
  - intros [= <- <-]. destruct Hl as (w & Hw & all & D & E1 & E2 & E3 & E4 & E5). simpl in *. subst wr.
    exists w, all. split_and!; [done|done| |done|]; [|intros Hb; specialize (E5 Hb); change (blen []) with 0%Z in E5; lia].
    split_and!; simpl; [done|lia| |done]. rewrite <-E1, blen_app. lia.
  - unfold mapping_err, io_err, throw. repeat case_match; intros; simplify_eq/=.
Qed.

(** Some system call fails in this world. *)
Definition faulty : Prop := ∃ n, is_Some (fault n).

Lemma write_batch_err p batch hash f f' e : write_batch p batch hash f = (f', Err e) → faulty.
Proof.
  unfold write_batch, mapping_err, io_err, write_all, tick, modify, throw, mbind, M_bind, mapping_err. simpl.
  destruct (fault (ticks f)) eqn:E; simpl; [|done]. intros _. exists (ticks f). by rewrite E.
Qed.

Lemma fill_err fuel p rest batch hash written f f' e :
  fill fuel p rest batch hash written f = (f', Err e) → faulty.
Proof.
  revert rest batch hash written f. induction fuel as [|fuel IH]; intros rest batch hash written f; [done|].
  cbn [fill]. case_bool_decide; [done|]. case_match; [|apply IH].
  unfold mbind, M_bind. destruct (write_batch _ _ _ f) as [f1 [h|e1]] eqn:E; [apply IH|].
  intros _. by eapply write_batch_err.
Qed.

Lemma body_loop_err `{!CryptoLaws} p i c body limit defer batch hash written f f' e :
  holds p i c f → (blen batch < WRITE_BATCH)%Z → covers c hash →
  body_loop p body limit defer batch hash written f = (f', Err e) →
  faulty ∨ ∀ all, delivered body = Some all → (limit < written + blen batch + blen all)%Z.
Proof.
  revert c batch hash written f. induction body as [|[chunk|e1] body IH]; intros c batch hash written f Hf Hb Hc;
    cbn [body_loop]; [| |by right].
  - case_match; [|done]. unfold mbind, M_bind. destruct (write_batch _ _ _ f) as [f1 [h|e1]] eqn:E; [done|].
    intros _. left. by eapply write_batch_err.
  - case_match eqn:El; bool_simp.
    { intros _. right. intros all (all' & D & ->)%fmap_Some. rewrite blen_app. pose proof (blen_nonneg all'). lia. }
    unfold mbind, M_bind.
    pose proof (fill_appends (S (length chunk)) p i c chunk batch hash written ltac:(lia) Hb Hc f Hf) as Hfill.
    destruct (fill _ _ _ _ _ _ f) as [f1 [[[b h] w]|e1]] eqn:E; [|intros _; left; by eapply fill_err].
    simpl in Hfill. destruct Hfill as (wr & Hw & E1 & E2 & E3 & E4). simpl in *.
    intros [?|Hall]%(IH _ _ _ _ _ Hw E3 E4); [by left|right].
    intros all (all' & D & ->)%fmap_Some. specialize (Hall _ D). rewrite blen_app.
    assert ((blen batch + blen chunk = blen wr + blen b)%Z) by (rewrite <-!blen_app; congruence). lia.
Qed.

Lemma set_len_prefix p i c x f f' :
  holds p i (c ++ x) f → set_len p (blen c) f = (f', Ok tt) → holds p i c f'.
Proof.
  unfold holds, set_len, syscall, tick, modify, throw, mbind, M_bind. simpl. intros Hf.
  destruct (fault (ticks f)); [done|]. intros [= <-]. unfold set_len_at. simpl. rewrite Hf. simpl.
  rewrite lookup_insert_eq. unfold blen. rewrite Nat2Z.id, take_app_length, length_app.
  replace (length c - (length c + length x)) with 0 by lia. simpl. by rewrite app_nil_r.
Qed.

Lemma set_len_err p n f f' e : set_len p n f = (f', Err e) → faulty.
Proof.
  unfold set_len, syscall, tick, modify, throw, mbind, M_bind. simpl.
  destruct (fault (ticks f)) eqn:E; [|done]. intros _. exists (ticks f). by rewrite E.
Qed.

Lemma append_inner_err `{!CryptoLaws} p i c body limit hash defer f f' e :
  holds p i c f → (∀ h, hash = Some h → hlen h = blen c → hashed c h) →
  append_inner p (blen c) body limit hash defer f = (f', Err e) →
  (∃ x, holds p i (c ++ x) f') ∧
  (faulty ∨ holds p i c f' ∧ ∀ all, delivered body = Some all → (limit < blen all)%Z).
Proof.
  intros Hf Hh. unfold append_inner. cbn zeta.
  set (h0 := hash ≫= λ h, if (hlen h =? blen c)%Z then Some h else None).
  assert (Hc : covers c h0).
  { intros h (h1 & E1 & E2)%bind_Some. case_match eqn:El; simplify_eq. bool_simp. by apply Hh. }
  pose proof (body_loop_appends p i c body limit defer [] h0 0 ltac:(done) Hc f Hf) as Hl.
  unfold mbind, M_bind. rewrite attempt_eq. simpl.
  destruct (body_loop _ _ _ _ _ _ _ f) as [f1 [[[b h] wr]|e1]] eqn:E; simpl in *; [done|].
  destruct Hl as [x Hx]. apply (body_loop_err p i c) in E; [|done..].
  unfold mapping_err, io_err, mapping_err. pose proof (set_len_prefix p i c x f1) as Hset.
  pose proof (set_len_err p (blen c) f1) as Herr.
  destruct (set_len p (blen c) f1) as [f2 [[]|e2]] eqn:Es; simpl; intros [= <- <-].
  - specialize (Hset _ Hx eq_refl). split; [exists []; by rewrite app_nil_r|].
    destruct E as [?|E]; [by left|right]. split; [done|]. intros all D. specialize (E all D).
    change (blen []) with 0%Z in E. lia.
  - split; [|left; by eapply Herr]. exists x. unfold holds, set_len, syscall, tick, modify, throw, mbind, M_bind in *.
    simpl in Es. destruct (fault (ticks f1)); simplify_eq/=. done.
Qed.

(** An error that is not about the offset of a chunk. *)
Definition not_range (e : StorageError) : Prop := match e with RangeNotSatisfiable _ _ => False | _ => True end.

Lemma write_batch_range p batch hash : fails not_range (write_batch p batch hash).
Proof. unfold write_batch. fails_auto; done. Qed.
Hint Resolve write_batch_range : fails.
Lemma fill_range fuel p rest batch hash written : fails not_range (fill fuel p rest batch hash written).
Proof. revert rest batch hash written. induction fuel; intros; cbn [fill]; fails_auto. Qed.
Hint Resolve fill_range : fails.
Lemma body_loop_range p body limit defer batch hash written :
  fails not_range (body_loop p body limit defer batch hash written).
Proof. revert batch hash written. induction body as [|[] body IH]; intros; cbn [body_loop]; fails_auto; done. Qed.
Lemma append_body_range p start body limit hash : fails not_range (append_body p start body limit hash).
Proof.
  unfold append_body, append_inner. apply fails_bind; [|intros; apply fails_ret]. intros f e. unfold mbind, M_bind. rewrite attempt_eq. simpl.
  pose proof (body_loop_range p body limit false [] (hash ≫= λ h, if (hlen h =? start)%Z then Some h else None) 0 f) as Hl.
  destruct (body_loop _ _ _ _ _ _ _ f) as [f1 [[[b h] w]|e1]]; simpl in *; [done|].
  unfold mapping_err. destruct (io_err _ f1) as [f2 [[]|e2]]; simpl; [|by intros [= <-]].
  intros [= <-]. by apply Hl.
Qed.

Lemma append_body_ok `{!CryptoLaws} p i c body limit hash f f' n h :
  holds p i c f → (∀ h, hash = Some h → hlen h = blen c → hashed c h) →
  append_body p (blen c) body limit hash f = (f', Ok (n, h)) →
  ∃ all, delivered body = Some all ∧ holds p i (c ++ all) f' ∧ n = blen (c ++ all) ∧ covers (c ++ all) h ∧
    (body ≠ [] → (blen all ≤ limit)%Z).
Proof.
  intros Hf Hh E. unfold append_body in E. apply bind_Ok in E as (f1 & d & E & [= <- <- <-]).
  apply (append_inner_ok p i c) in E as (w & all & D & Hw & (E1 & _ & E3 & E4) & Ht & Hl); [|done..].
  specialize (Ht eq_refl). rewrite Ht, app_nil_r in E1. subst w. exists all. rewrite blen_app.
  split_and!; [done|done|lia|done|done].
Qed.

(** [write_tail] completes what [append_inner] deferred. *)
Lemma write_tail_spec `{!CryptoLaws} p i c d w all f :
  holds p i (c ++ w) f → deferred_ok c d w all →
  let '(f', r) := write_tail p d f in
  match r with
  | Ok h => holds p i (c ++ all) f' ∧ covers (c ++ all) h ∧ (is_Some h ↔ is_Some (d_hash d))
  | Err _ => ∃ x, holds p i (c ++ x) f'
  end.
Proof.
  intros Hf (E1 & E2 & E3 & E4). unfold write_tail. case_bool_decide as Ht.
  { simpl. rewrite Ht, app_nil_r in E1. by subst. }
  unfold mbind, M_bind. rewrite attempt_eq. simpl. unfold io_err, mapping_err.
  pose proof (write_all_spec p (d_tail d) f) as Hw.
  destruct (write_all p (d_tail d) f) as [f1 [[]|e]]; simpl.
  - split_and!.
    + unfold holds. rewrite (Hw _ _ Hf), lookup_insert_eq. by rewrite <-app_assoc, E1.
    + rewrite <-E1, app_assoc. by apply covers_update.
    + by rewrite fmap_is_Some.
  - destruct (Hw _ _ Hf) as [k E]. rewrite attempt_eq. simpl.
    unfold set_len, syscall, tick, modify, throw, mbind, M_bind. simpl.
    destruct (fault _); simpl; [exists (w ++ take k (d_tail d)); unfold holds; simpl; by rewrite E, lookup_insert_eq, app_assoc|].
    unfold set_len_at. simpl. rewrite E, lookup_insert_eq. exists w. unfold holds. simpl.
    rewrite lookup_insert_eq, E2. f_equal. f_equal.
    assert (Hn : Z.to_nat (blen c + blen w) = length (c ++ w)) by (rewrite length_app; unfold blen; lia).
    rewrite Hn, take_app_length, (length_app (c ++ w)). replace (_ - _) with 0 by lia. by rewrite app_nil_r.
Qed.

(** *** Frame: only the staging file is written *)

Lemma append_at_but q data f : staging q → keeps_but q f (append_at q data f).
Proof.
  intros Hq. unfold append_at. repeat case_match; try (by apply keeps_keeps_but, same_keeps).
  by eapply keeps_but_insert.
Qed.

Lemma write_all_but q data : staging q → runs (keeps_but q) (write_all q data).
Proof.
  intros Hq. unfold write_all. runs_auto.
  - apply runs_keeps_but, runs_same_keeps, tick_same.
  - apply runs_modify. intros f. by apply append_at_but.
  - apply runs_modify. intros f. by apply append_at_but.
Qed.

Lemma set_len_but q n : staging q → runs (keeps_but q) (set_len q n).
Proof.
  intros Hq. unfold set_len, syscall. runs_auto; [apply runs_keeps_but, runs_same_keeps, tick_same|].
  apply runs_modify. intros f. unfold set_len_at.
  repeat case_match; try (by apply keeps_keeps_but, same_keeps). by eapply keeps_but_insert.
Qed.

Lemma io_err_runs {A : Type} (R : Fs → Fs → Prop) (m : M Fs errno A) : runs R m → runs R (io_err m).
Proof. apply runs_mapping_err. Qed.

Hint Resolve write_all_but set_len_but io_err_runs : runs.

Lemma write_batch_but q batch hash : staging q → runs (keeps_but q) (write_batch q batch hash).
Proof. intros Hq. unfold write_batch. runs_auto. Qed.
Hint Resolve write_batch_but : runs.

Lemma fill_but fuel q rest batch hash written :
  staging q → runs (keeps_but q) (fill fuel q rest batch hash written).
Proof.
  intros Hq. revert rest batch hash written. induction fuel; intros; cbn [fill]; runs_auto.
Qed.
Hint Resolve fill_but : runs.

Lemma body_loop_but q body limit defer batch hash written :
  staging q → runs (keeps_but q) (body_loop q body limit defer batch hash written).
Proof.
  intros Hq. revert batch hash written. induction body as [|[] body IH]; intros; cbn [body_loop]; runs_auto.
Qed.
Hint Resolve body_loop_but : runs.

Lemma append_inner_but q start body limit hash defer :
  staging q → runs (keeps_but q) (append_inner q start body limit hash defer).
Proof. intros Hq. unfold append_inner. runs_auto. Qed.

Lemma write_tail_but q d : staging q → runs (keeps_but q) (write_tail q d).
Proof. intros Hq. unfold write_tail. runs_auto. Qed.
End UploadBody.

(** Appending a body to a staging file is all or nothing: on success the
    file is extended by exactly the bytes the client sent, at most [limit] of
    them, and the running hash covers the whole file; when the stream breaks
    or is longer than [limit], and no system call fails, the file is as it
    was. *)
Theorem append_body_spec `{Crypto, !CryptoLaws, World} p i c body limit hash f :
  files f !! p = Some (Reg i c) →
  (∀ h, hash = Some h → hlen h = blen c → hashed c h) →
  match append_body p (blen c) body limit hash f with
  | (f', Ok (n, h)) =>
      ∃ all, delivered body = Some all ∧ files f' !! p = Some (Reg i (c ++ all)) ∧
        n = blen (c ++ all) ∧ covers (c ++ all) h ∧ (body ≠ [] → (blen all ≤ limit)%Z)
  | (f', Err _) =>
      faulty ∨ (files f' !! p = Some (Reg i c) ∧ ∀ all, delivered body = Some all → (limit < blen all)%Z)
  end.
Proof.
  intros Hf Hh. destruct (append_body p (blen c) body limit hash f) as [f' [[n h]|e]] eqn:E;
    [by apply (append_body_ok p i c) in E|].
  unfold append_body in E. apply bind_Err in E as [E|(f1 & d & _ & [=])].
  by apply (append_inner_err p i c) in E as [_ ?].
Qed.

Module ToyDisk.
#[export] Instance reliable : World := {|
  fault _ := None; partial _ := 0; supported _ := true; getrandom _ := Ok []; clock _ := 0%Z |}.
End ToyDisk.

#[local] Existing Instances Toy.toy_crypto Toy.toy_laws ToyDisk.reliable.

(** A body that is longer than the limit leaves the file as it was. *)
Lemma append_body_spec_witness :
  let f := mkFs {[ ["u"] := Reg 7 (as_bytes "ab") ]} 8 0 in
  files (append_body ["u"] 2 [Ok (as_bytes "cd"); Ok (as_bytes "ef")] 3 None f).1 !! ["u"] = Some (Reg 7 (as_bytes "ab")).
Proof.
  cbv zeta. set (f := mkFs _ _ _).
  pose proof (append_body_spec ["u"] 7 (as_bytes "ab") [Ok (as_bytes "cd"); Ok (as_bytes "ef")] 3 None f
    ltac:(vm_compute; reflexivity) ltac:(by intros ?)) as Ha.
  change (blen (as_bytes "ab")) with 2%Z in Ha.
  assert (Hr : is_ok (append_body ["u"] 2 [Ok (as_bytes "cd"); Ok (as_bytes "ef")] 3 None f).2 = false)
    by (vm_compute; reflexivity).
  destruct (append_body _ _ _ _ _ f) as [f' [[n h]|e]]; [discriminate Hr|].
  destruct Ha as [[n [e' He]]|[Hf _]]; [discriminate He|exact Hf].
Defined.
