(* ===== verification/LockMap.v ===== *)
(** Keyed locks (roci-storage/src/lock_map.rs) and the threads that use them: a
    blob is admitted and an upload is written under the lock of its key.

    A lock is a number; the map holds one reference to the lock of a key, and a
    thread that got the lock holds another until it drops it, which is what
    [Arc::strong_count] counts. A thread releases the key after it dropped the
    guard (finish_upload and put_blob of the filesystem backend) or while it holds
    it (mount_blob there, and the operations of the S3 backend), or returns
    without a release (a `?` after the lock was taken, a request that is
    cancelled). *)

From S2P Require Import Prelude RustStr.

Abbreviation lock_key := (string * string)%type.

(** ** The map and its users *)

(** Where a thread is with the lock [l] it got for [k]: waiting for it; at work
    under its guard; with the guard but after the release of the key; without the
    guard but before the release; and after both. *)
Inductive Thread :=
  | Waiting (k : lock_key) (l : nat)
  | Working (k : lock_key) (l : nat)
  | Held (k : lock_key) (l : nat)
  | Leaving (k : lock_key) (l : nat)
  | Finished (k : lock_key) (l : nat).

Definition arc (t : Thread) : nat := match t with Waiting _ l | Working _ l | Held _ l | Leaving _ l | Finished _ l => l end.

(** A thread that has the guard of a lock. *)
Definition guards (l : nat) (t : Thread) : bool := match t with Working _ l' | Held _ l' => bool_decide (l' = l) | _ => false end.

(** A thread that is not in [threads] has no lock. *)
Record Locks := mkLocks { lock_map : gmap lock_key nat; next_lock : nat; threads : gmap nat Thread }.

Definition put_map (m : gmap lock_key nat) (s : Locks) : Locks := mkLocks m (next_lock s) (threads s).
Definition put_threads (ts : gmap nat Thread) (s : Locks) : Locks := mkLocks (lock_map s) (next_lock s) ts.

Definition strong_count (l : nat) (s : Locks) : nat :=
  size (filter (λ p, p.2 = l) (lock_map s)) + size (filter (λ p, arc p.2 = l) (threads s)).

(** [LockMap::get] *)
Definition lock_get (k : lock_key) (s : Locks) : Locks * nat :=
  match lock_map s !! k with
  | Some l => (s, l)
  | None => (mkLocks (<[k := next_lock s]> (lock_map s)) (S (next_lock s)) (threads s), next_lock s)
  end.

(** [LockMap::remove] *)
Definition lock_remove (k : lock_key) (s : Locks) : Locks := put_map (delete k (lock_map s)) s.

(** [LockMap::release] *)
Definition lock_release (k : lock_key) (s : Locks) : Locks :=
  match lock_map s !! k with
  | Some l => if decide (strong_count l s <= 2) then lock_remove k s else s
  | None => s
  end.

(** A step of some thread: it gets a lock, enters when nobody has the guard,
    releases the key before or after it drops the guard, and drops its reference;
    it may give up waiting, and leave without a release. *)
Inductive lock_step (forget : lock_key → Locks → Locks) (s : Locks) : Locks → Prop :=
  | step_get t k s' l :
      threads s !! t = None → lock_get k s = (s', l) → lock_step forget s (put_threads (<[t := Waiting k l]> (threads s')) s')
  | step_enter t k l :
      threads s !! t = Some (Waiting k l) → (∀ t' th, threads s !! t' = Some th → guards l th = false) →
      lock_step forget s (put_threads (<[t := Working k l]> (threads s)) s)
  | step_release t k l :
      threads s !! t = Some (Working k l) →
      lock_step forget s (put_threads (<[t := Held k l]> (threads s)) (forget k s))
  | step_unlock t k l :
      threads s !! t = Some (Held k l) → lock_step forget s (put_threads (<[t := Finished k l]> (threads s)) s)
  | step_leave t k l :
      threads s !! t = Some (Working k l) → lock_step forget s (put_threads (<[t := Leaving k l]> (threads s)) s)
  | step_forget t k l :
      threads s !! t = Some (Leaving k l) →
      lock_step forget s (put_threads (<[t := Finished k l]> (threads s)) (forget k s))
  | step_drop t k l :
      (threads s !! t = Some (Finished k l) ∨ threads s !! t = Some (Leaving k l) ∨ threads s !! t = Some (Waiting k l)) →
      lock_step forget s (put_threads (delete t (threads s)) s).

Definition no_locks : Locks := mkLocks ∅ 0 ∅.
Definition lock_run (forget : lock_key → Locks → Locks) : Locks → Prop := rtc (lock_step forget) no_locks.

(** ** The invariant *)

(** A thread that has yet to release the key. *)
Definition uses (k : lock_key) (l : nat) (t : Thread) : Prop := t = Waiting k l ∨ t = Working k l ∨ t = Leaving k l.

(** The lock a thread uses is the one in the map, and one thread has the guard of
    a lock. *)
Definition locks_ok (s : Locks) : Prop :=
  (∀ t k l th, threads s !! t = Some th → uses k l th → lock_map s !! k = Some l) ∧
  (∀ t t' th th' l, threads s !! t = Some th → threads s !! t' = Some th' → guards l th = true → guards l th' = true → t = t').

Lemma two_in_filter {A : Type} (P : nat * A → Prop) `{!∀ x, Decision (P x)} (m : gmap nat A) t t' x x' :
  t ≠ t' → m !! t = Some x → m !! t' = Some x' → P (t, x) → P (t', x') → 2 ≤ size (filter P m).
Proof.
  intros Hne Ht Ht' HP HP'. rewrite <-size_dom. transitivity (size ({[t; t']} : gset nat)).
  - rewrite size_union by set_solver. by rewrite !size_singleton.
  - apply subseteq_size. intros i [->%elem_of_singleton| ->%elem_of_singleton]%elem_of_union; apply elem_of_dom;
      eexists; by apply map_lookup_filter_Some.
Qed.

Lemma uses_arc k l th : uses k l th → arc th = l.
Proof. by intros [->|[->| ->]]. Qed.

(** A lock that two threads use is not forgotten. *)
Lemma release_used k l s t t' th th' :
  t ≠ t' → threads s !! t = Some th → threads s !! t' = Some th' → uses k l th → uses k l th' →
  lock_map s !! k = Some l → lock_release k s = s.
Proof.
  intros Hne Ht Ht' Hu Hu' Hk. unfold lock_release. rewrite Hk. rewrite decide_False; [done|]. unfold strong_count.
  pose proof (two_in_filter (λ p, arc p.2 = l) (threads s) t t' th th' Hne Ht Ht' (uses_arc _ _ _ Hu) (uses_arc _ _ _ Hu')).
  assert (size (filter (λ p : lock_key * nat, p.2 = l) (lock_map s)) ≠ 0); [|lia].
  apply map_size_ne_0_lookup. exists k, l. by apply map_lookup_filter_Some.
Qed.

Lemma release_other k k' s : k' ≠ k → lock_map (lock_release k s) !! k' = lock_map s !! k'.
Proof. intros Hk. unfold lock_release. repeat case_match; simpl; try done. by apply lookup_delete_ne. Qed.

Lemma get_map k s s' l : lock_get k s = (s', l) →
  threads s' = threads s ∧ lock_map s' !! k = Some l ∧
  (∀ k' l', lock_map s !! k' = Some l' → lock_map s' !! k' = Some l').
Proof.
  unfold lock_get. destruct (lock_map s !! k) as [l0|] eqn:E; intros [= <- <-]; [done|]. simpl.
  split_and!; [done|apply lookup_insert_eq|]. intros k' l' Hk. rewrite lookup_insert_ne; [done|congruence].
Qed.

(** A thread that releases the key changes nothing for the others that use it. *)
Lemma release_keeps k l s t th t1 k1 l1 th1 :
  locks_ok s → threads s !! t = Some th → uses k l th → t ≠ t1 → threads s !! t1 = Some th1 → uses k1 l1 th1 →
  lock_map (lock_release k s) !! k1 = Some l1.
Proof.
  intros [Hm _] Ht Hu Hne H1 Hu1. pose proof (Hm _ _ _ _ H1 Hu1) as Hk1.
  destruct (decide (k1 = k)) as [->|Hk]; [|by rewrite release_other].
  assert (l1 = l) as -> by (pose proof (Hm t k l _ Ht Hu); congruence).
  by rewrite (release_used k l s t t1 th th1 Hne Ht H1 Hu Hu1 Hk1).
Qed.

(** A thread that moves on without entering leaves the guards as they are. *)
Lemma guards_keep (ts : gmap nat Thread) t th th0 :
  ts !! t = Some th0 → (∀ l, guards l th = true → guards l th0 = true) →
  (∀ t1 t2 th1 th2 l, ts !! t1 = Some th1 → ts !! t2 = Some th2 → guards l th1 = true → guards l th2 = true → t1 = t2) →
  ∀ t1 t2 th1 th2 l, <[t := th]> ts !! t1 = Some th1 → <[t := th]> ts !! t2 = Some th2 →
    guards l th1 = true → guards l th2 = true → t1 = t2.
Proof.
  intros Ht Hg Hi t1 t2 th1 th2 l [[<- <-]|[? H1]]%lookup_insert_Some [[<- <-]|[? H2]]%lookup_insert_Some G1 G2; [done|..];
    eapply Hi; eauto.
Qed.

Lemma step_ok s s' : locks_ok s → lock_step lock_release s s' → locks_ok s'.
Proof.
  intros Hok Hs. pose proof Hok as [Hm Hi].
  destruct Hs as [t k s' l Ht Hg|t k l Ht Hn|t k l Ht|t k l Ht|t k l Ht|t k l Ht|t k l Ht]; unfold locks_ok; simpl.
  - destruct (get_map k s s' l Hg) as (Hth & Hk & Hold). rewrite Hth. split.
    + intros t1 k1 l1 th [[<- <-]|[Hne H1]]%lookup_insert_Some Hu; [|by eapply Hold, Hm].
      destruct Hu as [[= <- <-]|[?|?]]; done.
    + intros t1 t2 th1 th2 l1 [[<- <-]|[? H1]]%lookup_insert_Some [[<- <-]|[? H2]]%lookup_insert_Some; try done. by apply Hi.
  - split.
    + intros t1 k1 l1 th [[<- <-]|[Hne H1]]%lookup_insert_Some Hu; [|by eapply Hm].
      eapply Hm; [done|]. left. destruct Hu as [?|[?|?]]; by simplify_eq.
    + intros t1 t2 th1 th2 l1 [[<- <-]|[? H1]]%lookup_insert_Some [[<- <-]|[? H2]]%lookup_insert_Some; [done|..|by eapply Hi];
        simpl; intros G1 G2; bool_simp; subst; [specialize (Hn _ _ H2)|specialize (Hn _ _ H1)]; congruence.
  - split.
    + intros t1 k1 l1 th [[<- <-]|[Hne H1]]%lookup_insert_Some Hu; [by destruct Hu as [?|[?|?]]|].
      eapply (release_keeps k l s t); [done|exact Ht|by right; left|done..].
    + by eapply guards_keep.
  - split; [|by eapply guards_keep].
    intros t1 k1 l1 th [[<- <-]|[Hne H1]]%lookup_insert_Some Hu; [by destruct Hu as [?|[?|?]]|by eapply Hm].
  - split; [|by eapply guards_keep].
    intros t1 k1 l1 th [[<- <-]|[Hne H1]]%lookup_insert_Some Hu; [|by eapply Hm].
    eapply Hm; [done|]. right; left. destruct Hu as [?|[?|?]]; by simplify_eq.
  - split; [|by eapply guards_keep].
    intros t1 k1 l1 th [[<- <-]|[Hne H1]]%lookup_insert_Some Hu; [by destruct Hu as [?|[?|?]]|].
    eapply (release_keeps k l s t); [done|exact Ht|by right; right|done..].
  - split.
    + intros t1 k1 l1 th [Hne H1]%lookup_delete_Some Hu. by eapply Hm.
    + intros t1 t2 th1 th2 l1 [? H1]%lookup_delete_Some [? H2]%lookup_delete_Some. by eapply Hi.
Qed.

Lemma lock_run_ok s : lock_run lock_release s → locks_ok s.
Proof.
  unfold lock_run. intros Hr. assert (H0 : locks_ok no_locks) by (split; by intros; simplify_map_eq).
  induction Hr as [|s1 s2 s3 Hs _ IH]; [done|]. by apply IH, (step_ok s1).
Qed.

(** Different keys have different locks. *)
Definition map_ok (s : Locks) : Prop :=
  (∀ k l, lock_map s !! k = Some l → l < next_lock s) ∧
  (∀ k k' l, lock_map s !! k = Some l → lock_map s !! k' = Some l → k = k').

Lemma release_map_ok k s : map_ok s → map_ok (lock_release k s).
Proof.
  intros [Hn Hj]. unfold lock_release. repeat case_match; try done. unfold lock_remove, map_ok. simpl. split.
  - intros k' l' [_ Hk]%lookup_delete_Some. by eapply Hn.
  - intros k1 k2 l' [_ H1]%lookup_delete_Some [_ H2]%lookup_delete_Some. by eapply Hj.
Qed.

Lemma step_map_ok s s' : map_ok s → lock_step lock_release s s' → map_ok s'.
Proof.
  intros Hok Hs. destruct Hs as [t k s' l Ht Hg|t k l Ht Hn|t k l Ht|t k l Ht|t k l Ht|t k l Ht|t k l Ht]; try done;
    [|by apply release_map_ok..].
  unfold lock_get in Hg. destruct (lock_map s !! k) eqn:E; simplify_eq; [done|]. destruct Hok as [Hn Hj]. unfold map_ok. simpl. split.
  - intros k' l' [[_ <-]|[_ Hk]]%lookup_insert_Some; [lia|]. apply Hn in Hk. lia.
  - intros k1 k2 l' [[<- <-]|[? H1]]%lookup_insert_Some [[<- E2]|[? H2]]%lookup_insert_Some; try done.
    + apply Hn in H2. lia.
    + subst l'. apply Hn in H1. lia.
    + by eapply Hj.
Qed.

Lemma lock_run_map_ok s : lock_run lock_release s → map_ok s.
Proof.
  unfold lock_run. intros Hr. assert (H0 : map_ok no_locks) by (split; by intros; simplify_map_eq).
  induction Hr as [|s1 s2 s3 Hs _ IH]; [done|]. by apply IH, (step_map_ok s1).
Qed.

(** The reference of the map and the one of its last user. *)
Lemma release_last s t k l th0 :
  locks_ok s → map_ok s → threads s !! t = Some th0 → uses k l th0 →
  (∀ t' th, threads s !! t' = Some th → arc th = l → t' = t) → lock_map (lock_release k s) !! k = None.
Proof.
  intros [Hm _] [_ Hj] Ht Hu Halone. pose proof (Hm t k l _ Ht Hu) as Hk.
  unfold lock_release. rewrite Hk, decide_True; [apply lookup_delete_eq|]. unfold strong_count.
  assert (H1 : size (filter (λ p : lock_key * nat, p.2 = l) (lock_map s)) ≤ 1).
  { rewrite <-size_dom, <-(size_singleton (C := gset lock_key) k). apply subseteq_size. intros k' [l' Hl']%elem_of_dom.
    apply map_lookup_filter_Some in Hl' as [Hl' Heq]. simpl in Heq. subst l'. apply elem_of_singleton. by eapply Hj. }
  assert (H2 : size (filter (λ p : nat * Thread, arc p.2 = l) (threads s)) ≤ 1).
  { rewrite <-size_dom, <-(size_singleton (C := gset nat) t). apply subseteq_size. intros t' [th Hth]%elem_of_dom.
    apply map_lookup_filter_Some in Hth as [Hth Ha]. apply elem_of_singleton. by eapply Halone. }
  lia.
Qed.

(** ** Properties *)

(** C10: two threads are never at work for the same key. Whatever the order in
    which threads get the lock of a key, wait or give up, enter, release the key
    before or after they drop the guard, or leave without a release, at most one
    has the guard and has yet to release the key, which each operation does when
    its work is done; so a blob is admitted, and its quota charged, by one request
    at a time. And when the only thread that has a lock releases it, the map
    forgets it. *)
Theorem locks_exclude s :
  lock_run lock_release s →
  (∀ t t' k l l', threads s !! t = Some (Working k l) → threads s !! t' = Some (Working k l') → t = t') ∧
  (∀ t k l, threads s !! t = Some (Working k l) ∨ threads s !! t = Some (Leaving k l) →
     (∀ t' th, threads s !! t' = Some th → arc th = l → t' = t) → lock_map (lock_release k s) !! k = None).
Proof.
  intros Hr. pose proof (lock_run_ok s Hr) as Hok. pose proof (lock_run_map_ok s Hr) as Hmap. split.
  - intros t t' k l l' Ht Ht'. destruct Hok as [Hm Hi].
    pose proof (Hm t k l _ Ht ltac:(by right; left)). pose proof (Hm t' k l' _ Ht' ltac:(by right; left)).
    assert (l' = l) as -> by congruence. eapply (Hi t t' _ _ l); [done|done|simpl..]; by rewrite bool_decide_true.
  - intros t k l [Ht|Ht]; (eapply release_last; [done|done|exact Ht|]); [by right; left|by right; right].
Qed.

(** ** Witness *)

Module ToyLocks.
Definition the_key : lock_key := ("a", "d").
(** One thread is at work, a second one waits for the same lock. *)
Definition contended : Locks := mkLocks {[the_key := 0]} 1 {[0 := Working the_key 0; 1 := Waiting the_key 0]}.
End ToyLocks.

Import ToyLocks.

Lemma nobody_inside (ts : gmap nat Thread) l :
  bool_decide (map_Forall (λ _ th, guards l th = false) ts) = true → ∀ t th, ts !! t = Some th → guards l th = false.
Proof. intros Hts%bool_decide_eq_true t th Ht. exact (Hts t th Ht). Qed.

(** The next step of a run, of thread [t]. *)
Ltac enters t := eapply rtc_l; [eapply (step_enter _ _ t); [reflexivity|]; apply nobody_inside; vm_compute; reflexivity|].

Lemma contended_run forget : lock_run forget contended.
Proof.
  unfold lock_run. eapply rtc_l; [eapply (step_get _ _ 0 the_key); reflexivity|]. enters 0.
  eapply rtc_l; [eapply (step_get _ _ 1 the_key); reflexivity|]. vm_compute. apply rtc_refl.
Qed.

(** A key that is released while a thread waits keeps its lock, and that thread
    enters alone once the guard is dropped; then it releases the key while it has
    the guard, the lock is forgotten, and a third thread is at work with a new
    one. *)
Lemma locks_exclude_witness :
  lock_map (lock_release the_key contended) !! the_key = Some 0 ∧
  ∃ s, lock_run lock_release s ∧ threads s = {[1 := Held the_key 0; 2 := Working the_key 1]} ∧
    (∀ t l, threads s !! t = Some (Working the_key l) → t = 2).
Proof.
  split; [vm_compute; reflexivity|].
  assert (Hr : ∃ m n, lock_run lock_release (mkLocks m n {[1 := Held the_key 0; 2 := Working the_key 1]})).
  { do 2 eexists. unfold lock_run. etrans; [apply contended_run|].
    eapply rtc_l; [eapply (step_release _ _ 0); reflexivity|]. eapply rtc_l; [eapply (step_unlock _ _ 0); reflexivity|].
    eapply rtc_l; [eapply (step_drop _ _ 0); left; reflexivity|]. enters 1.
    eapply rtc_l; [eapply (step_release _ _ 1); reflexivity|].
    eapply rtc_l; [eapply (step_get _ _ 2 the_key); reflexivity|]. enters 2. vm_compute. apply rtc_refl. }
  destruct Hr as (m & n & Hr). eexists. split; [exact Hr|]. split; [reflexivity|]. intros t l Ht.
  exact (proj1 (locks_exclude _ Hr) t 2 the_key l 1 Ht eq_refl).
Defined.

(** [remove] gives no such guarantee: a thread that waits for the lock that was
    removed, and one that comes after, are both at work. It is for keys that are
    not used again. *)
Example remove_splits :
  ∃ s, lock_run lock_remove s ∧ threads s !! 1 = Some (Working the_key 0) ∧ threads s !! 2 = Some (Working the_key 1).
Proof.
  eexists. split; [|split]; [|..].
  - unfold lock_run. etrans; [apply contended_run|].
    eapply rtc_l; [eapply (step_leave _ _ 0); reflexivity|]. eapply rtc_l; [eapply (step_forget _ _ 0); reflexivity|].
    eapply rtc_l; [eapply (step_get _ _ 2 the_key); reflexivity|]. enters 1. enters 2. apply rtc_refl.
  - vm_compute. reflexivity.
  - vm_compute. reflexivity.
Qed.

(** A thread that leaves without a release leaves its lock in the map for good:
    put_blob of either backend does when a blob is not admitted. *)
Example abandoned_lock_stays : ∃ s, lock_run lock_release s ∧ threads s = ∅ ∧ lock_map s = {[the_key := 0]}.
Proof.
  eexists. split; [|split]; [|..].
  - unfold lock_run. eapply rtc_l; [eapply (step_get _ _ 0 the_key); reflexivity|]. enters 0.
    eapply rtc_l; [eapply (step_leave _ _ 0); reflexivity|]. eapply rtc_l; [eapply (step_drop _ _ 0); right; left; reflexivity|].
    apply rtc_refl.
  - vm_compute. reflexivity.
  - vm_compute. reflexivity.
Qed.
