(* ===== verification/BufPool.v ===== *)
(** The pools of buffers (roci-storage/src/bufpool.rs): buffers of one size that
    are used again. A buffer is its content and its capacity; what a [Bytes] that
    was made from one does when it is dropped is [drop_pooled]. *)

From S2P Require Import Prelude RustStr.

Record Buffer := mkBuffer { buf_data : bytes; buf_cap : Z }.

Record BufPool := mkPool { pool_capacity : Z; pool_max : nat; idle : list Buffer }.

Definition pool_new (capacity : Z) (max : nat) : BufPool := mkPool capacity max [].

Definition set_idle (l : list Buffer) (p : BufPool) : BufPool := mkPool (pool_capacity p) (pool_max p) l.

(** [Vec::pop] takes the last one; [with_capacity] is what the allocator gives for
    a capacity. *)
Definition pool_get (with_capacity : Z → Z) (p : BufPool) : BufPool * Buffer :=
  match list.last (idle p) with
  | Some b => (set_idle (removelast (idle p)) p, b)
  | None => (p, mkBuffer [] (with_capacity (pool_capacity p)))
  end.

Definition pool_put (p : BufPool) (b : Buffer) : BufPool :=
  if (buf_cap b <? pool_capacity p)%Z then p else
  if decide (length (idle p) < pool_max p) then set_idle (idle p ++ [mkBuffer [] (buf_cap b)]) p else p.

(** [Pooled]: a frozen buffer, which is there until it is dropped. *)
Definition pooled_as_ref (b : option Buffer) : bytes := match b with Some b => buf_data b | None => [] end.
Definition drop_pooled (p : BufPool) (b : option Buffer) : BufPool := match b with Some b => pool_put p b | None => p end.

(** A use of the pool: a buffer is taken and what it became is put back. *)
Inductive pool_op := PGet | PPut (b : Buffer) | PDrop (b : option Buffer).

Definition pool_step (with_capacity : Z → Z) (p : BufPool) (o : pool_op) : BufPool :=
  match o with
  | PGet => (pool_get with_capacity p).1
  | PPut b => pool_put p b
  | PDrop b => drop_pooled p b
  end.

Definition pool_run (with_capacity : Z → Z) (capacity : Z) (max : nat) (ops : list pool_op) : BufPool :=
  foldl (pool_step with_capacity) (pool_new capacity max) ops.

(** Idle buffers are few, empty, and large enough. *)
Definition pool_ok (capacity : Z) (max : nat) (p : BufPool) : Prop :=
  pool_capacity p = capacity ∧ pool_max p = max ∧ length (idle p) ≤ max ∧
  Forall (λ b, buf_data b = [] ∧ (capacity ≤ buf_cap b)%Z) (idle p).

Lemma last_split {A : Type} (l : list A) x : list.last l = Some x → l = removelast l ++ [x].
Proof. destruct l as [|y l] using rev_ind; [done|]. rewrite last_snoc, List.removelast_last. by intros [= <-]. Qed.

Lemma pool_put_ok capacity max p b : pool_ok capacity max p → pool_ok capacity max (pool_put p b).
Proof.
  intros (<- & <- & Hl & Hf). unfold pool_put. destruct (Z.ltb_spec (buf_cap b) (pool_capacity p)); [done|]. case_decide; [|done].
  split_and!; [done|done|simpl; rewrite length_app; simpl; lia|]. apply Forall_app. split; [done|]. by apply Forall_singleton.
Qed.

Lemma pool_step_ok with_capacity capacity max p o : pool_ok capacity max p → pool_ok capacity max (pool_step with_capacity p o).
Proof.
  intros Hp. destruct o as [|b|[b|]]; simpl; [|by apply pool_put_ok..|done]. unfold pool_get.
  destruct (list.last (idle p)) as [b|] eqn:E; [|done]. destruct Hp as (<- & <- & Hl & Hf). apply last_split in E.
  rewrite E in Hl, Hf. rewrite length_app in Hl. apply Forall_app in Hf as [Hf _]. split_and!; simpl in *; [done|done|lia|done].
Qed.

Lemma pool_run_ok with_capacity capacity max ops : pool_ok capacity max (pool_run with_capacity capacity max ops).
Proof.
  unfold pool_run. assert (H0 : pool_ok capacity max (pool_new capacity max)) by (split_and!; try done; simpl; lia).
  revert H0. generalize (pool_new capacity max). induction ops as [|o ops IH]; intros p Hp; [done|]. by apply IH, pool_step_ok.
Qed.

(** However a pool is used, it keeps no more buffers than it may, and a
    buffer that is taken from it is empty, so nothing of an earlier use is seen,
    and has room for what the pool is for. *)
Theorem pool_bounded with_capacity capacity max ops :
  (∀ n, n ≤ with_capacity n)%Z →
  let p := pool_run with_capacity capacity max ops in
  length (idle p) ≤ max ∧
  buf_data (pool_get with_capacity p).2 = [] ∧ (capacity ≤ buf_cap (pool_get with_capacity p).2)%Z.
Proof.
  intros Hw p. destruct (pool_run_ok with_capacity capacity max ops) as (Hc & _ & Hl & Hf). fold p in Hc, Hl, Hf.
  split; [done|]. unfold pool_get. destruct (list.last (idle p)) as [b|] eqn:E.
  - apply last_split in E. rewrite E, Forall_app, Forall_singleton in Hf. apply Hf.
  - simpl. by rewrite Hc.
Qed.

(** A buffer that was used comes back empty. *)
Lemma pool_bounded_witness :
  let p := pool_run (λ n, n) 4 1 [PGet; PPut (mkBuffer (as_bytes "ab") 8); PDrop (Some (mkBuffer (as_bytes "cd") 8))] in
  length (idle p) = 1 ∧ (pool_get (λ n, n) p).2 = mkBuffer [] 8 ∧ length (idle p) ≤ 1.
Proof.
  split; [reflexivity|]. split; [reflexivity|].
  exact (proj1 (pool_bounded (λ n, n) 4 1 [PGet; PPut (mkBuffer (as_bytes "ab") 8); PDrop (Some (mkBuffer (as_bytes "cd") 8))]
    (λ n, Z.le_refl n))).
Defined.
