(* ===== verification/Walk.v ===== *)
(** The walk over the repositories and blob files of a store root
    ([discover_repos] and [for_each_cas_blob] of roci-storage/src/layout.rs),
    which the start, the scrubber and the garbage collector use. *)

From S2P Require Import Prelude RustStr Json Errors Digest Paths Metadata Effect FileSys FileSysFacts.

(** ** Directories *)

(** The entries of a directory. *)
Definition add_child (dir : path) (p : path) (n : node) (acc : gmap string node) : gmap string node :=
  match reverse p with
  | c :: d => if decide (reverse d = dir) then <[c := n]> acc else acc
  | [] => acc
  end.
Definition dir_children (t : gmap path node) (dir : path) : gmap string node := map_fold (add_child dir) ∅ t.

(** [to_string_lossy] of a file name. *)
Definition lossy (name : string) : string := of_bytes (from_utf8_lossy (as_bytes name)).

(** Directories the walk does not enter. *)
Definition skipped (name : string) : bool :=
  bool_decide (name = "blobs") || bool_decide (name = "uploads") || starts_with name ".".

Section Walk.
Context `{World, HashIter}.

Abbreviation sys := (M Fs errno).

(** [std::fs::read_dir]: the entries in whatever order the system lists them. *)
Definition readdir (p : path) : sys (list (string * node)) := syscall $
  n ← gets (λ f, node_at f p);
  match n with
  | Some Dir => gets (λ f, iter (dir_children (files f) p))
  | Some _ => throw ENOTDIR
  | None => throw ENOENT
  end.

(** [symlink_metadata(p).map(|m| m.is_file()).unwrap_or(false)] *)
Definition has_regular (p : path) : sys bool :=
  r ← attempt (statat p);
  mret (match r with Ok n => is_file n | Err _ => false end).

(** The loop over the entries of a directory. *)
Fixpoint each_entry {A} (visit : string → node → sys (list A)) (es : list (string * node)) : sys (list A) :=
  match es with
  | [] => mret []
  | (name, n) :: es =>
      found ← visit name n;
      rest ← each_entry visit es;
      mret (found ++ rest)
  end.

(** [walk] of [discover_repos]: [dir] is the path walked, [rel] its name. *)
Fixpoint walk (depth : nat) (dir : path) (rel : list string) : sys (list string) :=
  match depth with
  | O => mret []
  | S depth =>
      entries ← attempt (readdir dir);
      match entries with
      | Err _ => mret []
      | Ok entries =>
          here ← (if bool_decide (rel = []) then mret []
                  else
                    has_index ← has_regular (dir ++ ["index.json"]);
                    has_layout ← has_regular (dir ++ ["oci-layout"]);
                    mret (if has_index || has_layout then [join "/" rel] else []));
          below ← each_entry (λ name n,
            match n with
            | Dir =>
                let nm := lossy name in
                if skipped nm then mret [] else walk depth (dir ++ [name]) (rel ++ [nm])
            | _ => mret []
            end) entries;
          mret (here ++ below)
      end
  end.

Definition discover_repos : sys (list string) := walk 16 [] [].

(** A blob file of the walk: its repository, digest and path. *)
Record cas_entry := { ce_repo : string; ce_digest : Digest; ce_path : path }.

(** The entries of one algorithm directory. *)
Definition hex_entries (repo alg_name : string) (dir : path) : sys (list cas_entry) :=
  hexes ← attempt (readdir dir);
  match hexes with
  | Err _ => mret []
  | Ok hexes => each_entry (λ name n,
      mret (if is_file n then
              match Digest_parse (alg_name +:+ ":" +:+ lossy name) with
              | Ok d => [{| ce_repo := repo; ce_digest := d; ce_path := dir ++ [name] |}]
              | Err _ => []
              end
            else [])) hexes
  end.

(** The blobs of one repository. *)
Definition repo_entries (repo : string) : sys (list cas_entry) :=
  let blobs_path := split "/" repo ++ ["blobs"] in
  m ← attempt (statat blobs_path);
  match m with
  | Ok Dir =>
      algs ← attempt (readdir blobs_path);
      match algs with
      | Err _ => mret []
      | Ok algs => each_entry (λ name n,
          match n with
          | Dir => hex_entries repo (lossy name) (blobs_path ++ [name])
          | _ => mret []
          end) algs
      end
  | _ => mret []
  end.

Fixpoint all_entries (repos : list string) : sys (list cas_entry) :=
  match repos with
  | [] => mret []
  | repo :: repos =>
      found ← repo_entries repo;
      rest ← all_entries repos;
      mret (found ++ rest)
  end.

(** [for_each_cas_blob]: what it visits, in order. *)
Definition for_each_cas_blob : sys (list cas_entry) :=
  repos ← discover_repos;
  all_entries repos.
End Walk.

(** ** Lemmas *)

Lemma children_lookup t dir c : dir_children t dir !! c = t !! (dir ++ [c]).
Proof.
  unfold dir_children. revert c. apply (map_fold_weak_ind (λ acc t, ∀ c, acc !! c = t !! (dir ++ [c]))).
  - intros c. by rewrite !lookup_empty.
  - intros p n m acc Hp IH c. unfold add_child. destruct (reverse p) as [|x d] eqn:E.
    + apply (f_equal reverse) in E. rewrite reverse_involutive in E. subst p. rewrite IH.
      rewrite lookup_insert_ne; [done|]. by destruct dir.
    + apply (f_equal reverse) in E. rewrite reverse_involutive, reverse_cons in E. subst p. case_decide as Hd.
      * subst dir. destruct (decide (x = c)) as [->|Hne]; [by rewrite !lookup_insert_eq|].
        rewrite !lookup_insert_ne; [by rewrite IH| |done]. intros Heq. apply app_inj_tail in Heq as [_ ?]. done.
      * rewrite IH. rewrite lookup_insert_ne; [done|]. intros Heq. apply app_inj_tail in Heq as [? _]. done.
Qed.

Lemma utf8_ascii l : Forall (λ b, (u8 b < 128)%Z) l → utf8_valid l = true.
Proof.
  induction 1 as [|b l Hb _ IH]; [done|]. simpl. unfold in_range. pose proof (u8_range b).
  rewrite (proj2 (Z.leb_le 0 (u8 b))), (proj2 (Z.leb_le (u8 b) 127)) by lia. done.
Qed.

Lemma digest_lossy d : digest_wf d → lossy (algorithm d) = algorithm d ∧ lossy (hex d) = hex d.
Proof.
  intros [Ha Hh]. split; [by apply algorithm_len_Some in Ha as [[-> _]|[-> _]]|].
  unfold lossy. rewrite from_utf8_lossy_valid; [apply of_as_bytes|]. apply utf8_ascii, Forall_forall. intros b Hb.
  rewrite string_forallb_bytes, forallb_Forall_bool, Forall_forall in Hh. specialize (Hh b Hb).
  unfold is_lower_hexdigit, is_ascii_hexdigit in Hh. destruct b as [[] [] [] [] [] [] [] []]; vm_compute in Hh |- *; done.
Qed.

Section WalkFacts.
Context `{World, HashIter}.

Lemma iter_children t dir name n : (name, n) ∈ iter (dir_children t dir) ↔ t !! (dir ++ [name]) = Some n.
Proof. rewrite iter_perm, elem_of_map_to_list. by rewrite children_lookup. Qed.

(** A program that leaves the files [t] alone, returns, and [P] holds of what
    it returns. *)
Definition sure {A : Type} (t : gmap path node) (m : M Fs errno A) (P : A → Prop) : Prop :=
  ∀ f, files f = t → files (m f).1 = t ∧ ∃ a, (m f).2 = Ok a ∧ P a.

Lemma sure_ret {A : Type} t (a : A) (P : A → Prop) : P a → sure t (mret a) P.
Proof. intros HP f Hf. simpl. eauto. Qed.

Lemma sure_bind {A B : Type} t (m : M Fs errno A) (k : A → M Fs errno B) P Q :
  sure t m P → (∀ a, P a → sure t (k a) Q) → sure t (m ≫= k) Q.
Proof.
  intros Hm Hk f Hf. destruct (Hm f Hf) as (Hf' & a & Ha & HP). unfold mbind, M_bind.
  destruct (m f) as [f' r]. simpl in *. subst r. by apply Hk.
Qed.

Lemma sure_weaken {A : Type} t (m : M Fs errno A) (P Q : A → Prop) : sure t m P → (∀ a, P a → Q a) → sure t m Q.
Proof. intros Hm HQ f Hf. destruct (Hm f Hf) as (? & a & ? & ?). eauto. Qed.

(** What a directory listing, and the status of a file, can be. *)
Definition listing (t : gmap path node) (p : path) (r : result errno (list (string * node))) : Prop :=
  match r with
  | Ok es => (p = [] ∨ t !! p = Some Dir) ∧ ∀ name n, (name, n) ∈ es ↔ t !! (p ++ [name]) = Some n
  | Err _ => (∀ n, fault n = None) → p ≠ [] ∧ t !! p ≠ Some Dir
  end.

Definition at_path (t : gmap path node) (p : path) : option node := match p with [] => Some Dir | _ => t !! p end.

Lemma readdir_same p : runs same_files (readdir p).
Proof. unfold readdir. apply syscall_same. runs_auto. Qed.
#[local] Hint Resolve readdir_same : runs.
Lemma each_entry_same {A : Type} (visit : string → node → M Fs errno (list A)) es :
  (∀ name n, runs same_files (visit name n)) → runs same_files (each_entry visit es).
Proof. intros Hv. induction es as [|[name n] es IH]; simpl; [runs_auto|]. apply runs_bind; [done|intros ?]. runs_auto. Qed.

Lemma readdir_sure t p : sure t (attempt (readdir p)) (listing t p).
Proof.
  intros f Hf. rewrite attempt_eq. simpl. unfold readdir, syscall, tick, mbind, M_bind, gets, throw, node_at. simpl.
  destruct (fault (ticks f)) eqn:E; simpl.
  { split; [done|]. eexists. split; [done|]. simpl. intros Hn. congruence. }
  subst t. destruct p as [|c p].
  { simpl. split; [done|]. eexists. split; [done|]. split; [by left|]. intros name n. apply iter_children. }
  destruct (files f !! (c :: p)) as [[]|] eqn:Ep; simpl; (split; [done|]); eexists; (split; [done|]); simpl;
    try (intros _; split; congruence).
  split; [by right|]. intros name n. apply iter_children.
Qed.

Lemma statat_sure t p : sure t (attempt (statat p)) (λ r,
  match r with Ok n => at_path t p = Some n | Err _ => (∀ n, fault n = None) → at_path t p = None end).
Proof.
  intros f Hf. rewrite attempt_eq. simpl. unfold statat, syscall, tick, mbind, M_bind, gets, throw, node_at, at_path. simpl.
  destruct (fault (ticks f)) eqn:E; simpl.
  { split; [done|]. eexists. split; [done|]. simpl. intros Hn. congruence. }
  subst t. destruct p as [|c p]; simpl; [split; [done|by eexists]|].
  destruct (files f !! (c :: p)) eqn:Ep; simpl; (split; [done|by eexists]).
Qed.

Lemma has_regular_sure t p : p ≠ [] → sure t (has_regular p) (λ b,
  (b = true → ∃ i c, t !! p = Some (Reg i c)) ∧
  ((∀ n, fault n = None) → (∃ i c, t !! p = Some (Reg i c)) → b = true)).
Proof.
  intros Hp. unfold has_regular. eapply sure_bind; [apply statat_sure|]. intros r Hr. apply sure_ret.
  destruct p; [done|]. simpl in Hr. destruct r as [[]|e]; simpl in *; split; intros; naive_solver.
Qed.

(** A loop over entries, one entry at a time. *)
Lemma each_entry_sure {A : Type} t (visit : string → node → M Fs errno (list A)) es (P : string → node → list A → Prop)
    (Q : list A → Prop) :
  (∀ name n, (name, n) ∈ es → sure t (visit name n) (P name n)) →
  Q [] → (∀ name n l k, (name, n) ∈ es → P name n l → Q k → Q (l ++ k)) →
  sure t (each_entry visit es) Q.
Proof.
  intros Hv Hnil Hs. induction es as [|[name n] es IH]; simpl; [by apply sure_ret|].
  eapply sure_bind; [apply Hv; set_solver|]. intros l Hl.
  eapply sure_bind; [apply IH; set_solver|]. intros k Hk. apply sure_ret. apply (Hs name n); [set_solver|done..].
Qed.

(** *** Soundness *)

Lemma walk_sound t depth dir rel :
  sure t (walk depth dir rel) (λ out, ∀ repo, repo ∈ out → ∃ more, repo = join "/" (rel ++ more)).
Proof.
  revert dir rel. induction depth as [|depth IH]; intros dir rel; simpl; [apply sure_ret; set_solver|].
  eapply sure_bind; [apply readdir_sure|]. intros [es|e] Hes; [|apply sure_ret; set_solver].
  eapply (sure_bind _ _ _ (λ here, ∀ repo, repo ∈ here → ∃ more, repo = join "/" (rel ++ more))).
  { case_bool_decide; [apply sure_ret; set_solver|].
    eapply sure_bind; [apply has_regular_sure; by destruct dir|]. intros b1 _.
    eapply sure_bind; [apply has_regular_sure; by destruct dir|]. intros b2 _.
    apply sure_ret. intros repo. case_match; [|set_solver]. intros ->%list_elem_of_singleton.
    exists []. by rewrite app_nil_r. }
  intros here Hhere. eapply (sure_bind _ _ _ (λ below, ∀ repo, repo ∈ below → ∃ more, repo = join "/" (rel ++ more))).
  { apply each_entry_sure with (P := λ _ _ l, ∀ repo, repo ∈ l → ∃ more, repo = join "/" (rel ++ more));
      [|set_solver|intros ????; set_solver].
    intros name n _. destruct n; try (apply sure_ret; set_solver). case_match; [apply sure_ret; set_solver|].
    eapply sure_weaken; [apply IH|]. intros out Hout repo [more ->]%Hout. exists ([lossy name] ++ more). by rewrite app_assoc. }
  intros below Hbelow. apply sure_ret. set_solver.
Qed.

(** What the walk visits is a blob file where its digest says, up to the
    letter case of its name. *)
Definition entry_ok (t : gmap path node) (e : cas_entry) : Prop :=
  digest_wf (ce_digest e) ∧
  ∃ alg name i c, ce_path e = split "/" (ce_repo e) ++ ["blobs"; alg; name] ∧
    t !! ce_path e = Some (Reg i c) ∧ Digest_parse (lossy alg +:+ ":" +:+ lossy name) = Ok (ce_digest e).

Lemma all_entries_sound t repos : sure t (all_entries repos) (Forall (entry_ok t)).
Proof.
  induction repos as [|repo repos IH]; simpl; [by apply sure_ret|].
  eapply (sure_bind _ _ _ (Forall (entry_ok t))).
  2:{ intros l Hl. eapply sure_bind; [apply IH|]. intros k Hk. apply sure_ret. by apply Forall_app. }
  unfold repo_entries. eapply sure_bind; [apply statat_sure|]. intros [[]|e] _; try by apply sure_ret.
  eapply sure_bind; [apply readdir_sure|]. intros [algs|e] _; [|by apply sure_ret].
  eapply (each_entry_sure _ _ _ (λ _ _, Forall (entry_ok t))); [|done|intros; by apply Forall_app].
  intros alg n _. destruct n; try by apply sure_ret.
  unfold hex_entries. eapply sure_bind; [apply readdir_sure|]. intros [hexes|e] Hh; [|by apply sure_ret].
  eapply (each_entry_sure _ _ _ (λ _ _, Forall (entry_ok t))); [|done|intros; by apply Forall_app].
  intros name n Hn. apply sure_ret. destruct n as [|i c|]; simpl; [done| |done].
  destruct (Digest_parse _) as [d|] eqn:Hd; [|done]. constructor; [|done].
  split; [by eapply Digest_parse_wf|]. exists alg, name, i, c. simpl. rewrite <-!app_assoc.
  split_and!; [done| |done]. destruct Hh as [_ Hh]. apply Hh in Hn. by rewrite <-!app_assoc in Hn.
Qed.

(** *** Completeness, when nothing fails *)

Hypothesis calm_world : ∀ n, fault n = None.

(** A directory the walk can reach: real directories with names it enters. *)
Definition reachable_dir (t : gmap path node) (cs : list string) : Prop :=
  Forall (λ c, lossy c = c ∧ skipped c = false) cs ∧ ∀ k, k ≠ [] → k `prefix_of` cs → t !! k = Some Dir.

Lemma walk_complete t depth done_ cs :
  reachable_dir t (done_ ++ cs) → length cs < depth →
  (∃ i c, t !! (done_ ++ cs ++ ["index.json"]) = Some (Reg i c)) ∨
  (∃ i c, t !! (done_ ++ cs ++ ["oci-layout"]) = Some (Reg i c)) →
  done_ ++ cs ≠ [] →
  sure t (walk depth done_ done_) (λ out, join "/" (done_ ++ cs) ∈ out).
Proof.
  intros Hr. revert depth done_ Hr. induction cs as [|c cs IH]; intros [|depth] done_ Hr Hd Hm Hne; simpl in Hd; try lia; simpl.
  - rewrite app_nil_r in *. eapply sure_bind; [apply readdir_sure|]. intros [es|e] Hes.
    2:{ destruct (Hes calm_world) as [_ []]. destruct Hr as [_ Hr]. by apply Hr. }
    rewrite bool_decide_eq_false_2 by done.
    eapply (sure_bind _ _ _ (λ here, join "/" done_ ∈ here)).
    { eapply sure_bind; [apply has_regular_sure; by destruct done_|]. intros b1 [_ H1].
      eapply sure_bind; [apply has_regular_sure; by destruct done_|]. intros b2 [_ H2]. apply sure_ret.
      assert (b1 || b2 = true) as -> by (destruct Hm as [Hm|Hm]; [rewrite H1 by done|rewrite H2, orb_true_r by done]; done).
      set_solver. }
    intros here Hh. eapply (sure_bind _ _ _ (λ _, True)); [|intros below _; apply sure_ret; set_solver].
    apply (each_entry_sure _ _ _ (λ _ _ _, True)); [|done|done]. intros name n _.
    destruct n; try by apply sure_ret. case_match; [by apply sure_ret|].
    eapply sure_weaken; [apply walk_sound|done].
  - eapply sure_bind; [apply readdir_sure|]. intros [es|e] Hes.
    2:{ destruct (Hes calm_world) as [Hn []]. destruct Hr as [_ Hr]. apply Hr; [done|by eexists]. }
    eapply (sure_bind _ _ _ (λ _, True)).
    { case_bool_decide; [by apply sure_ret|].
      eapply sure_bind; [apply has_regular_sure; by destruct done_|]. intros b1 _.
      eapply sure_bind; [apply has_regular_sure; by destruct done_|]. intros b2 _. by apply sure_ret. }
    intros here _. eapply (sure_bind _ _ _ (λ below, join "/" (done_ ++ c :: cs) ∈ below));
      [|intros below Hb; apply sure_ret; set_solver].
    pose proof Hr as [Hnames Hdirs]. apply Forall_app in Hnames as [_ [[Hl Hsk] _]%Forall_cons_1].
    assert (Hin : (c, Dir) ∈ es).
    { apply Hes, Hdirs; [by destruct done_|]. exists cs. by rewrite <-app_assoc. }
    clear Hes. induction es as [|[name n] es IHes]; [set_solver|]. simpl.
    apply elem_of_cons in Hin as [[= <- <-]|Hin].
    + eapply sure_bind.
      * rewrite Hl, Hsk. apply (IH depth (done_ ++ [c])); [by rewrite <-app_assoc|lia|by rewrite <-!app_assoc|by destruct done_].
      * intros l Hl'. rewrite <-app_assoc in Hl'. eapply (sure_bind _ _ _ (λ _, True)); [|intros k _; apply sure_ret; set_solver].
        apply (each_entry_sure _ _ _ (λ _ _ _, True)); [|done|done]. intros name n _.
        destruct n; try by apply sure_ret. case_match; [by apply sure_ret|].
        eapply sure_weaken; [apply walk_sound|done].
    + eapply (sure_bind _ _ _ (λ _, True)).
      * destruct n; try by apply sure_ret. case_match; [by apply sure_ret|].
        eapply sure_weaken; [apply walk_sound|done].
      * intros l _. eapply sure_bind; [by apply IHes|]. intros k Hk. apply sure_ret. set_solver.
Qed.

(** A loop that visits an entry which yields [x] yields [x]. *)
Lemma each_entry_in {A : Type} t (visit : string → node → M Fs errno (list A)) es name n x :
  (name, n) ∈ es → (∀ name n, sure t (visit name n) (λ _, True)) → sure t (visit name n) (λ l, x ∈ l) →
  sure t (each_entry visit es) (λ l, x ∈ l).
Proof.
  intros Hin Hall Hx. induction es as [|[name' n'] es IH]; [set_solver|]. simpl.
  apply elem_of_cons in Hin as [[= <- <-]|Hin].
  - eapply sure_bind; [exact Hx|]. intros l Hl. eapply (sure_bind _ _ _ (λ _, True)); [|intros; apply sure_ret; set_solver].
    by apply (each_entry_sure _ _ _ (λ _ _ _, True)).
  - eapply sure_bind; [apply Hall|]. intros l _. eapply sure_bind; [by apply IH|]. intros k Hk. apply sure_ret. set_solver.
Qed.

Lemma repo_entries_total t repo : sure t (repo_entries repo) (λ _, True).
Proof.
  pose proof (all_entries_sound t [repo]) as Hs. intros f Hf. destruct (Hs f Hf) as (Hf' & a & Ha & _).
  revert Hf' Ha. simpl. unfold mbind, M_bind.
  destruct (repo_entries repo f) as [f' [l|e]]; simpl; [eauto|done].
Qed.

Lemma all_entries_in t repos repo e :
  repo ∈ repos → sure t (repo_entries repo) (λ l, e ∈ l) → sure t (all_entries repos) (λ l, e ∈ l).
Proof.
  intros Hin He. induction repos as [|r repos IH]; [set_solver|]. simpl. apply elem_of_cons in Hin as [<-|Hin].
  - eapply sure_bind; [exact He|]. intros l Hl.
    eapply sure_bind; [apply all_entries_sound|]. intros k _. apply sure_ret. set_solver.
  - eapply sure_bind; [apply repo_entries_total|]. intros l _. eapply sure_bind; [by apply IH|]. intros k Hk.
    apply sure_ret. set_solver.
Qed.

Lemma repo_entries_in t repo d i c :
  digest_wf d → t !! (split "/" repo ++ ["blobs"]) = Some Dir →
  t !! (split "/" repo ++ ["blobs"; algorithm d]) = Some Dir →
  t !! (split "/" repo ++ ["blobs"; algorithm d; hex d]) = Some (Reg i c) →
  sure t (repo_entries repo) (λ l,
    {| ce_repo := repo; ce_digest := d; ce_path := split "/" repo ++ ["blobs"; algorithm d; hex d] |} ∈ l).
Proof.
  intros Hd Hb Ha Hf. unfold repo_entries. set (bp := split "/" repo ++ ["blobs"]).
  assert (at_path t bp = Some Dir) as Hbp by (unfold bp in *; by destruct (split "/" repo)).
  eapply sure_bind; [apply statat_sure|]. intros [n|e] Hn; [|by rewrite (Hn calm_world) in Hbp].
  rewrite Hbp in Hn. injection Hn as <-. eapply sure_bind; [apply readdir_sure|].
  intros [algs|e] Hal; [|by destruct (Hal calm_world) as [_ []]].
  assert (Hhex : ∀ name n, sure t (match n with Dir => hex_entries repo (lossy name) (bp ++ [name]) | _ => mret [] end) (λ _, True)).
  { intros name n. destruct n; try by apply sure_ret. unfold hex_entries. eapply sure_bind; [apply readdir_sure|].
    intros [hexes|e] _; [|by apply sure_ret]. apply (each_entry_sure _ _ _ (λ _ _ _, True)); [|done|done].
    intros; by apply sure_ret. }
  apply (each_entry_in _ _ _ (algorithm d) Dir); [|done|].
  { apply Hal. unfold bp. rewrite <-app_assoc. done. }
  unfold hex_entries. eapply sure_bind; [apply readdir_sure|]. intros [hexes|e] Hh.
  2:{ destruct (Hh calm_world) as [_ []]. unfold bp. rewrite <-app_assoc. done. }
  apply (each_entry_in _ _ _ (hex d) (Reg i c)).
  - apply Hh. unfold bp. rewrite <-!app_assoc. done.
  - intros; by apply sure_ret.
  - apply sure_ret. simpl. destruct (digest_lossy d Hd) as [-> ->].
    change (algorithm d +:+ ":" +:+ hex d) with (Digest_fmt d). rewrite (Digest_parse_fmt d Hd).
    unfold bp. rewrite <-!app_assoc. set_solver.
Qed.

(** When nothing fails, every blob file of a repository the walk can reach is
    visited. *)
Lemma for_each_cas_blob_complete t cs d i c :
  digest_wf d → cs ≠ [] → length cs ≤ 15 → Forall (λ c, contains_char "/" c = false) cs → reachable_dir t cs →
  (∃ i c, t !! (cs ++ ["index.json"]) = Some (Reg i c)) ∨ (∃ i c, t !! (cs ++ ["oci-layout"]) = Some (Reg i c)) →
  t !! (cs ++ ["blobs"]) = Some Dir → t !! (cs ++ ["blobs"; algorithm d]) = Some Dir →
  t !! (cs ++ ["blobs"; algorithm d; hex d]) = Some (Reg i c) →
  sure t for_each_cas_blob (λ l,
    {| ce_repo := join "/" cs; ce_digest := d; ce_path := cs ++ ["blobs"; algorithm d; hex d] |} ∈ l).
Proof.
  intros Hd Hne Hlen Hslash Hr Hm Hb Ha Hf. assert (Hcs : split "/" (join "/" cs) = cs) by by apply split_join.
  eapply (sure_bind _ _ _ (λ repos, join "/" cs ∈ repos)).
  { apply (walk_complete t 16 [] cs); [done|lia|done|done]. }
  intros repos Hin. eapply all_entries_in; [exact Hin|].
  pose proof (repo_entries_in t (join "/" cs) d i c Hd) as Hx. rewrite Hcs in Hx. by apply Hx.
Qed.

Lemma for_each_cas_blob_sound t : sure t for_each_cas_blob (Forall (entry_ok t)).
Proof. eapply sure_bind; [apply walk_sound|]. intros repos _. apply all_entries_sound. Qed.
End WalkFacts.

#[export] Hint Resolve readdir_same : runs.
