(* ===== verification/Layout.v ===== *)
(** OCI image-layout helpers (roci-storage/src/layout.rs): descriptor
    accessors, the references of a manifest, paging of in-memory lists, and the
    rebuilding of [index.json] from the metadata store. *)

From S2P Require Import Prelude RustStr Json Errors Digest Metadata.

Definition REF_NAME_ANNOTATION : string := "org.opencontainers.image.ref.name".
Definition MEDIA_TYPE_IMAGE_MANIFEST : string := "application/vnd.oci.image.manifest.v1+json".
Definition MEDIA_TYPE_IMAGE_INDEX : string := "application/vnd.oci.image.index.v1+json".

Definition empty_index : json :=
  jobject [("schemaVersion", JNumber (PosInt 2)); ("mediaType", JString MEDIA_TYPE_IMAGE_INDEX);
           ("manifests", JArray [])].

Definition descriptor_tag (d : json) : option string :=
  (jget "annotations" d ≫= jget REF_NAME_ANNOTATION) ≫= as_str.

Definition descriptor_digest (d : json) : option string := jget "digest" d ≫= as_str.

Definition index_manifests (index : json) : list json :=
  default [] (jget "manifests" index ≫= as_array).

Definition subject_digest (d : json) : option string :=
  (jget "subject" d ≫= jget "digest") ≫= as_str.

(** The digest of a descriptor that is an object with a valid one. *)
Definition reference_digest (d : json) : option Digest :=
  ((as_object d ≫= map_get "digest") ≫= as_str) ≫= λ s, ok (Digest_parse s).

Definition manifest_references (m : json) : list Digest :=
  let arrays := ["layers"; "manifests"] ≫= λ field, default [] (jget field m ≫= as_array) in
  omap reference_digest (option_list (jget "config" m) ++ arrays ++ option_list (jget "subject" m)).

(** [items.partition_point(|i| key(i) <= l)] on a sorted list. *)
Fixpoint partition_point {A} (p : A → bool) (l : list A) : nat :=
  match l with
  | x :: l => if p x then S (partition_point p l) else 0
  | [] => 0
  end.

Definition str_le (a b : string) : bool := bool_decide (String.le a b).

Definition page_sorted {A} (items : list A) (key : A → string) (last : option string) (limit : nat) : Page A :=
  let start := match last with Some l => partition_point (λ i, str_le (key i) l) items | None => 0 end in
  take_page (drop start items) limit.

(** A stable sort by a string key, and [dedup_by] of equal neighbours. *)
Fixpoint insert_by {A} (key : A → string) (x : A) (l : list A) : list A :=
  match l with
  | [] => [x]
  | y :: l => if str_le (key x) (key y) then x :: y :: l else y :: insert_by key x l
  end.

Definition sort_by {A} (key : A → string) (l : list A) : list A := foldr (insert_by key) [] l.

Fixpoint dedup_by {A} (key : A → string) (l : list A) : list A :=
  match l with
  | x :: l' =>
      match dedup_by key l' with
      | y :: r => if decide (key x = key y) then x :: r else x :: y :: r
      | [] => [x]
      end
  | [] => []
  end.

Section Layout.
Context `{SerdeJson}.

Definition type_matches (artifact_type : option string) (d : json) : bool :=
  match artifact_type with
  | None => true
  | Some t => bool_decide (jget "artifactType" d ≫= as_str = Some t)
  end.

Definition page_layout_referrers (refs : list (string * json)) (artifact_type last : option string)
    (limit : nat) : Page (string * bytes) :=
  let refs := filter (λ p, type_matches artifact_type p.2 = true) refs in
  let refs := dedup_by fst (sort_by fst refs) in
  let page := page_sorted refs fst last limit in
  mkPage ((λ '(d, v), (d, to_vec v)) <$> items page) (more page).

Definition referrer_descriptor (subject : Digest) (descriptor : bytes) : result StorageError bytes :=
  match from_slice descriptor ≫= as_object with
  | None => Err (Io (IoError KInvalidData "invalid referrer descriptor"))
  | Some merged =>
      Ok (to_vec (JObject (map_insert "subject" (jobject [("digest", JString (Digest_fmt subject))]) merged)))
  end.

Definition layout_tags_page (index : json) (last : option string) (limit : nat) : Page string :=
  let tags := omap descriptor_tag (index_manifests index) in
  page_sorted (dedup_by id (sort_by id tags)) id last limit.

Definition layout_subject_referrers (index : json) (subject : string) : list (string * json) :=
  omap (λ e, if decide (subject_digest e = Some subject) then (λ d, (d, e)) <$> descriptor_digest e else None)
    (index_manifests index).

Definition same_manifest_set (a b : json) : bool :=
  let set v := sort_by id ((λ e, of_bytes (to_vec e)) <$> index_manifests v) in
  bool_decide (set a = set b).

(** ** Rebuilding the index *)

(** The annotations without the reference name; none left, no member. *)
Definition strip_ref_name (o : jmap) : jmap :=
  match map_get "annotations" o with
  | Some (JObject ann) =>
      match map_remove REF_NAME_ANNOTATION ann with
      | [] => map_remove "annotations" o
      | ann' => map_insert "annotations" (JObject ann') o
      end
  | _ => o
  end.

Definition or_insert {A} (k : string) (v : A) (m : gmap string A) : gmap string A :=
  match m !! k with Some _ => m | None => <[k := v]> m end.

(** One descriptor of the existing index: kept as the base of a known
    manifest, kept as foreign, or dropped (a deleted manifest of ours). *)
Definition classify (known : list string) (acc : gmap string jmap * list json) (e : json)
    : gmap string jmap * list json :=
  let '(base, foreign) := acc in
  match e with
  | JObject obj =>
      match map_get "digest" obj ≫= as_str with
      | Some d =>
          if decide (d ∈ known) then (or_insert d (strip_ref_name obj) base, foreign)
          else if decide (descriptor_tag e = None ∧ jget "subject" e = None) then (base, foreign ++ [e])
          else (base, foreign)
      | None =>
          if decide (descriptor_tag e = None ∧ jget "subject" e = None) then (base, foreign ++ [e])
          else (base, foreign)
      end
  | _ => (base, foreign ++ [e])
  end.

Definition with_digest (d : string) : jmap := [("digest", JString d)].

(** [base.entry(d).or_insert_with(..)], then change the entry. *)
Definition upsert (d : string) (f : jmap → jmap) (base : gmap string jmap) : gmap string jmap :=
  <[d := f (default (with_digest d) (base !! d))]> base.

Definition known_entry (s : State) (repo : string) (size_lookup : string → option Z) (d : string)
    (o : jmap) : jmap :=
  let o := match manifest_media_type s repo d with
           | Some mt => map_insert "mediaType" (JString mt) o
           | None => o
           end in
  if map_contains "size" o then o
  else match size_lookup d with
       | Some n => map_insert "size" (JNumber (PosInt n)) o
       | None => o
       end.

Definition merge_annotations (new : jmap) (cur : jmap) : jmap :=
  foldl (λ cur '(k, v), if decide (k = REF_NAME_ANNOTATION) then cur else map_or_insert k v cur) cur new.

(** One member of a referrer's descriptor. *)
Definition merge_member (o : jmap) (kv : string * json) : jmap :=
  let '(k, v) := kv in
  if decide (k = "digest") then o
  else if decide (k = "mediaType" ∨ k = "size") then map_or_insert k v o
  else if decide (k = "annotations") then
    let o := map_or_insert "annotations" (JObject []) o in
    match v, map_get "annotations" o with
    | JObject new, Some (JObject cur) => map_insert "annotations" (JObject (merge_annotations new cur)) o
    | _, _ => o
    end
  else map_insert k v o.

Definition merge_referrer (subject : string) (base : gmap string jmap) (r : string * bytes) : gmap string jmap :=
  let '(ref_digest, ref_bytes) := r in
  upsert ref_digest (λ o,
    match from_slice ref_bytes with
    | Some (JObject r) =>
        map_insert "subject" (jobject [("digest", JString subject)]) (foldl merge_member o r)
    | _ => o
    end) base.

(** The descriptor of one tag. *)
Definition tag_entry (tag : string) (o : jmap) : json :=
  let o := map_or_insert "annotations" (JObject []) o in
  JObject (match map_get "annotations" o with
           | Some (JObject ann) =>
               map_insert "annotations" (JObject (map_insert REF_NAME_ANNOTATION (JString tag) ann)) o
           | _ => o
           end).

Context `{HashIter}.

Definition index_base (s : State) (repo : string) (existing : option json)
    (size_lookup : string → option Z) : gmap string jmap * list json :=
  let known := manifests s repo in
  let '(base, foreign) :=
    foldl (classify known) (∅, []) (default [] (index_manifests <$> existing)) in
  let base := foldl (λ b d, upsert d (known_entry s repo size_lookup d) b) base known in
  (foldl (λ b '(subject, refs), foldl (merge_referrer subject) b refs) base (referrers_snapshot s repo),
   foreign).

Definition tagged_entries (s : State) (repo : string) (base : gmap string jmap) : list json :=
  omap (λ '(tag, digest, _), tag_entry tag <$> base !! digest) (tags_snapshot s repo).

Definition tagged_digests (s : State) (repo : string) (base : gmap string jmap) : list string :=
  omap (λ '(_, digest, _), (λ _, digest) <$> base !! digest) (tags_snapshot s repo).

Definition index_manifests_of (s : State) (repo : string) (existing : option json)
    (size_lookup : string → option Z) : list json :=
  let '(base, foreign) := index_base s repo existing size_lookup in
  let untagged := filter (λ p, p.1 ∉ tagged_digests s repo base) (btree base) in
  tagged_entries s repo base ++ (JObject ∘ snd <$> untagged) ++ foreign.

Definition index_from_meta (s : State) (repo : string) (existing : option json)
    (size_lookup : string → option Z) : json :=
  let top := match existing with Some (JObject o) => o | _ => [] end in
  JObject (map_insert "manifests" (JArray (index_manifests_of s repo existing size_lookup))
    (map_insert "mediaType" (JString MEDIA_TYPE_IMAGE_INDEX)
      (map_insert "schemaVersion" (JNumber (PosInt 2)) top))).

End Layout.

(** ** Paging *)

Lemma filter_all {A} (P : A → Prop) `{!∀ x, Decision (P x)} (l : list A) :
  (∀ x, x ∈ l → P x) → filter P l = l.
Proof.
  induction l as [|x l IH]; intros Hl; [done|].
  rewrite filter_cons_True by (apply Hl; set_solver). f_equal. apply IH. intros y Hy. apply Hl. set_solver.
Qed.

#[local] Lemma str_le_total a b : str_le a b = false → str_le b a = true.
Proof.
  unfold str_le. intros E. apply bool_decide_eq_false in E. apply bool_decide_eq_true.
  by destruct (total String.le a b).
Qed.

Definition key_sorted {A} (key : A → string) : list A → Prop :=
  StronglySorted (λ x y, String.le (key x) (key y)).

Lemma insert_by_perm {A} (key : A → string) x l : insert_by key x l ≡ₚ x :: l.
Proof. induction l as [|y l IH]; simpl; [done|]. case_match; [done|]. rewrite IH. constructor. Qed.

Lemma insert_by_sorted {A} (key : A → string) x l : key_sorted key l → key_sorted key (insert_by key x l).
Proof.
  induction 1 as [|y l Hl IH Hy]; simpl; [repeat constructor|].
  destruct (str_le (key x) (key y)) eqn:E.
  - apply bool_decide_eq_true in E. constructor; [by constructor|]. constructor; [done|].
    eapply Forall_impl; [exact Hy|]. intros z Hz. by etrans.
  - constructor; [done|]. rewrite insert_by_perm. constructor; [|done].
    apply str_le_total, bool_decide_eq_true in E. done.
Qed.

Lemma sort_by_perm {A} (key : A → string) l : sort_by key l ≡ₚ l.
Proof. induction l; simpl; [done|]. rewrite insert_by_perm. by constructor. Qed.

Lemma sort_by_sorted {A} (key : A → string) l : key_sorted key (sort_by key l).
Proof. induction l; simpl; [constructor|]. by apply insert_by_sorted. Qed.

Lemma dedup_by_keys {A} (key : A → string) l k : k ∈ key <$> dedup_by key l ↔ k ∈ key <$> l.
Proof.
  induction l as [|x l IH]; cbn [dedup_by]; [done|]. rewrite (fmap_cons key x l), elem_of_cons, <-IH.
  destruct (dedup_by key l) as [|y r]; [set_solver|].
  case_decide; rewrite !fmap_cons, !elem_of_cons; [|done]. naive_solver.
Qed.

Lemma dedup_by_sub {A} (key : A → string) l x : x ∈ dedup_by key l → x ∈ l.
Proof.
  revert x. induction l as [|y l IH]; intros x; simpl; [done|].
  destruct (dedup_by key l) as [|z r]; simpl in *; [set_solver|].
  case_decide; set_solver.
Qed.

Lemma dedup_by_sorted {A} (key : A → string) l :
  key_sorted key l → key_sorted key (dedup_by key l) ∧ NoDup (key <$> dedup_by key l).
Proof.
  induction 1 as [|x l Hl [IH1 IH2] Hx]; cbn [dedup_by]; [split; constructor|].
  assert (Hx' : Forall (λ y, String.le (key x) (key y)) (dedup_by key l)).
  { apply Forall_forall. intros y Hy%dedup_by_sub. rewrite Forall_forall in Hx. auto. }
  destruct (dedup_by key l) as [|y r] eqn:E; [split; repeat constructor; set_solver|].
  case_decide as Hk.
  - inversion IH1; subst. apply Forall_cons in Hx' as [_ Hx']. split; [by constructor|].
    rewrite fmap_cons, Hk. exact IH2.
  - split; [by constructor|]. rewrite fmap_cons. apply NoDup_cons. split; [|done].
    intros [?|Hin]%elem_of_cons; [done|]. apply list_elem_of_fmap in Hin as (z & Hz & Hin).
    inversion IH1 as [|? ? _ Hyz]; subst. rewrite Forall_forall in Hyz. specialize (Hyz _ Hin).
    apply Forall_cons in Hx' as [Hxy _]. apply Hk. apply (anti_symm String.le); [done|]. by rewrite Hz.
Qed.

Lemma partition_point_filter {A} (key : A → string) l last :
  key_sorted key l →
  drop (partition_point (λ i, str_le (key i) last) l) l = filter (λ i, after_key (Some last) (key i) = true) l.
Proof.
  induction 1 as [|x l Hl IH Hx]; cbn [partition_point]; [done|].
  rewrite filter_cons. unfold str_le at 1. case_bool_decide as E; cbn [drop].
  - rewrite IH. rewrite decide_False; [done|]. unfold after_key. intros [E1 E2]%andb_true_iff.
    bool_simp. apply E2. by apply (anti_symm String.le).
  - rewrite filter_all; [|intros y Hy; rewrite Forall_forall in Hx].
    + rewrite decide_True; [done|]. unfold after_key. apply andb_true_iff.
      destruct (total String.le (key x) last); [done|]. split; [by apply bool_decide_eq_true|].
      apply negb_true_iff, bool_decide_eq_false. by intros ->.
    + specialize (Hx y Hy). unfold after_key. apply andb_true_iff.
      destruct (total String.le (key y) last) as [Hle|Hle]; [destruct E; by etrans|].
      split; [by apply bool_decide_eq_true|]. apply negb_true_iff, bool_decide_eq_false.
      intros ->. by destruct E.
Qed.

Lemma page_sorted_spec {A} (key : A → string) l last limit :
  key_sorted key l →
  page_sorted l key last limit = take_page (filter (λ i, after_key last (key i) = true) l) limit.
Proof.
  intros Hl. unfold page_sorted. destruct last as [last|]; [by rewrite partition_point_filter|].
  rewrite filter_all by done. by rewrite drop_0.
Qed.

(** ** The rebuilt index *)

(** The annotations member, if any, is an object. *)
Definition annotations_ok (o : jmap) : Prop :=
  ∀ v, map_get "annotations" o = Some v → ∃ ann, v = JObject ann.

Record base_entry (d : string) (o : jmap) : Prop := {
  be_digest : map_get "digest" o = Some (JString d);
  be_annotations : annotations_ok o;
  be_untagged : descriptor_tag (JObject o) = None;
}.

Definition base_ok (base : gmap string jmap) : Prop := map_Forall base_entry base.

Lemma base_ok_insert base d o : base_ok base → base_entry d o → base_ok (<[d := o]> base).
Proof. intros Hb Ho. by apply map_Forall_insert_2. Qed.

Lemma descriptor_tag_annotations o o' :
  map_get "annotations" o' = map_get "annotations" o → descriptor_tag (JObject o') = descriptor_tag (JObject o).
Proof. unfold descriptor_tag, jget. intros ->. done. Qed.

(** Members other than the digest and the annotations are free. *)
Lemma base_entry_ext d o o' :
  base_entry d o → map_get "digest" o' = map_get "digest" o →
  map_get "annotations" o' = map_get "annotations" o → base_entry d o'.
Proof.
  intros [H1 H2 H3] Ed Ea. split; [congruence| |by rewrite (descriptor_tag_annotations o)].
  intros v. rewrite Ea. apply H2.
Qed.

Lemma base_entry_member d o k v :
  k ≠ "digest" → k ≠ "annotations" → base_entry d o → base_entry d (map_insert k v o).
Proof. intros Hd Ha Ho. eapply base_entry_ext; [done|by rewrite map_get_insert_ne..]. Qed.

Lemma base_entry_with_digest d : base_entry d (with_digest d).
Proof. split; [|intros v|]; done. Qed.

Lemma strip_ref_name_entry d obj :
  map_get "digest" obj = Some (JString d) → annotations_ok obj → base_entry d (strip_ref_name obj).
Proof.
  intros Hd Ha. unfold strip_ref_name. destruct (map_get "annotations" obj) as [v|] eqn:E.
  - destruct (Ha v E) as [ann ->]. pose proof (map_get_remove REF_NAME_ANNOTATION ann) as Hr.
    destruct (map_remove REF_NAME_ANNOTATION ann) as [|kv ann'].
    + split; [by rewrite map_get_remove_ne|intros v; by rewrite map_get_remove|].
      unfold descriptor_tag, jget. by rewrite map_get_remove.
    + split; [by rewrite map_get_insert_ne|intros v; rewrite map_get_insert; naive_solver|].
      unfold descriptor_tag, jget. rewrite map_get_insert. simpl. simpl in Hr. by rewrite Hr.
  - split; [done|by intros v; rewrite E|]. unfold descriptor_tag, jget. by rewrite E.
Qed.

Lemma merge_annotations_ref new cur :
  map_get REF_NAME_ANNOTATION (merge_annotations new cur) = map_get REF_NAME_ANNOTATION cur.
Proof.
  unfold merge_annotations. revert cur. induction new as [|[k v] new IH]; intros cur; simpl; [done|].
  rewrite IH. case_decide; [done|]. by rewrite map_get_or_insert_ne.
Qed.

Lemma merge_member_entry d o kv : base_entry d o → base_entry d (merge_member o kv).
Proof.
  destruct kv as [k v]. intros Ho. unfold merge_member.
  case_decide as H1; [done|]. case_decide as H2.
  { eapply base_entry_ext; [done|rewrite map_get_or_insert_ne; [done|naive_solver]..]. }
  case_decide as H3; [|by apply base_entry_member]. subst k.
  assert (Ho' : base_entry d (map_or_insert "annotations" (JObject []) o)).
  { destruct Ho as [Hd Ha Ht]. split; [by rewrite map_get_or_insert_ne| |].
    - intros v'. rewrite map_get_or_insert. intros [= <-].
      destruct (map_get "annotations" o) eqn:E; simpl; [by apply Ha|by eexists].
    - unfold descriptor_tag, jget in *. rewrite map_get_or_insert.
      destruct (map_get "annotations" o); done. }
  destruct v as [| | | | |new]; try done.
  destruct (map_get "annotations" (map_or_insert "annotations" (JObject []) o)) as [[| | | | |cur]|] eqn:E; try done.
  destruct Ho' as [Hd Ha Ht]. split; [by rewrite map_get_insert_ne|intros v'; rewrite map_get_insert; naive_solver|].
  unfold descriptor_tag, jget in *. rewrite map_get_insert. simpl. rewrite E in Ht. simpl in Ht.
  by rewrite merge_annotations_ref.
Qed.

Lemma foldl_base_ok {A} (f : gmap string jmap → A → gmap string jmap) l base :
  (∀ b x, base_ok b → base_ok (f b x)) → base_ok base → base_ok (foldl f base l).
Proof. intros Hf. revert base. induction l; simpl; auto. Qed.

Lemma foldl_dom {A} (f : gmap string jmap → A → gmap string jmap) l base d :
  (∀ b x, is_Some (b !! d) → is_Some (f b x !! d)) → is_Some (base !! d) → is_Some (foldl f base l !! d).
Proof. intros Hf. revert base. induction l; simpl; auto. Qed.

Lemma upsert_entry base d f :
  base_ok base → (∀ o, base_entry d o → base_entry d (f o)) → base_ok (upsert d f base).
Proof.
  intros Hb Hf. apply base_ok_insert; [done|]. apply Hf.
  destruct (base !! d) eqn:E; simpl; [by apply Hb|apply base_entry_with_digest].
Qed.

Lemma upsert_dom base d d' f : is_Some (base !! d) ∨ d = d' → is_Some (upsert d' f base !! d).
Proof.
  unfold upsert. destruct (decide (d = d')) as [->|Hne]; [rewrite lookup_insert_eq; eauto|].
  rewrite lookup_insert_ne by done. naive_solver.
Qed.

(** What a foreign descriptor may be: anything without a tag. *)
Definition untagged_json (e : json) : Prop := descriptor_tag e = None.

Lemma classify_ok known base foreign e :
  (∀ o, e = JObject o → annotations_ok o) →
  base_ok base → Forall untagged_json foreign →
  base_ok (classify known (base, foreign) e).1 ∧ Forall untagged_json (classify known (base, foreign) e).2.
Proof.
  intros He Hb Hf. assert (Happ : untagged_json e → Forall untagged_json (foreign ++ [e])).
  { intros. apply Forall_app. split; [done|]. by constructor. }
  unfold classify. destruct e as [| | | | |obj]; try (split; [done|by apply Happ]).
  destruct (map_get "digest" obj) as [v|] eqn:Ed; simpl; [|case_decide; naive_solver].
  destruct (as_str v) as [d|] eqn:Es; simpl; [|case_decide; naive_solver].
  case_decide; simpl; [|case_decide; naive_solver]. split; [|done].
  unfold or_insert. case_match; [done|]. apply base_ok_insert; [done|].
  apply strip_ref_name_entry; [|by apply He]. destruct v; simplify_eq/=. done.
Qed.

Section IndexProofs.
Context `{SerdeJson, HashIter}.

Definition existing_ok (existing : option json) : Prop :=
  ∀ ix e o, existing = Some ix → e ∈ index_manifests ix → e = JObject o → annotations_ok o.

Lemma known_entry_ok s repo size_lookup d o :
  base_entry d o → base_entry d (known_entry s repo size_lookup d o).
Proof.
  intros Ho. unfold known_entry.
  assert (H1 : base_entry d match manifest_media_type s repo d with
    | Some mt => map_insert "mediaType" (JString mt) o | None => o end)
    by (case_match; [by apply base_entry_member|done]).
  repeat case_match; auto using base_entry_member.
Qed.

Lemma merge_referrer_ok subject base r : base_ok base → base_ok (merge_referrer subject base r).
Proof.
  destruct r as [d b]. intros Hb. unfold merge_referrer. apply upsert_entry; [done|].
  intros o Ho. destruct (from_slice b) as [[| | | | |r]|]; try done.
  apply base_entry_member; [done..|]. revert o Ho.
  induction r as [|kv r IH]; intros o Ho; simpl; auto using merge_member_entry.
Qed.

Lemma merge_referrer_dom subject base r d :
  is_Some (base !! d) → is_Some (merge_referrer subject base r !! d).
Proof. destruct r. intros Hd. apply upsert_dom. by left. Qed.

Lemma index_base_ok s repo existing size_lookup :
  existing_ok existing →
  let '(base, foreign) := index_base s repo existing size_lookup in
  base_ok base ∧ Forall untagged_json foreign ∧ ∀ d, d ∈ manifests s repo → is_Some (base !! d).
Proof.
  intros He. unfold index_base.
  assert (Hc : ∀ l acc, (∀ e o, e ∈ l → e = JObject o → annotations_ok o) →
    base_ok acc.1 → Forall untagged_json acc.2 →
    base_ok (foldl (classify (manifests s repo)) acc l).1 ∧
    Forall untagged_json (foldl (classify (manifests s repo)) acc l).2).
  { induction l as [|e l IH]; intros [b fo] Hl Hb Hf; [done|]. simpl.
    destruct (classify_ok (manifests s repo) b fo e) as [H1 H2]; [intros o; apply Hl; set_solver|done..|].
    apply IH; [|done..]. intros e' o Hin. apply Hl. set_solver. }
  destruct (Hc (default [] (index_manifests <$> existing)) (∅, [])) as [H1 H2];
    [|apply map_Forall_empty|constructor|].
  { intros e o Hin Heq. destruct existing as [ix|]; simpl in Hin; [|set_solver]. by eapply He. }
  destruct (foldl (classify _) _ _) as [b0 fo]. simpl in *. split_and!; [|done|].
  - apply foldl_base_ok.
    + intros b [subject refs] Hb. apply foldl_base_ok; [|done]. intros. by apply merge_referrer_ok.
    + apply foldl_base_ok; [|done]. intros. apply upsert_entry; [done|]. intros. by apply known_entry_ok.
  - intros d Hd. apply foldl_dom.
    + intros b [subject refs] Hb. apply foldl_dom; [|done]. intros. by apply merge_referrer_dom.
    + clear -Hd. generalize b0. induction (manifests s repo) as [|x l IH]; intros b; [set_solver|]. simpl.
      apply elem_of_cons in Hd as [->|Hd]; [|by apply IH].
      apply foldl_dom; [intros; apply upsert_dom; by left|]. apply upsert_dom. by right.
Qed.

Lemma tag_entry_tag t d o :
  base_entry d o → descriptor_tag (tag_entry t o) = Some t ∧ descriptor_digest (tag_entry t o) = Some d.
Proof.
  intros [Hd Ha _]. unfold tag_entry, descriptor_tag, descriptor_digest, jget.
  assert (Hann : ∃ ann, map_get "annotations" (map_or_insert "annotations" (JObject []) o) = Some (JObject ann)).
  { rewrite map_get_or_insert. destruct (map_get "annotations" o) eqn:E; simpl; [|by eexists].
    destruct (Ha _ E) as [ann ->]. by eexists. }
  destruct Hann as [ann ->]. rewrite map_get_insert, map_get_insert_ne, map_get_or_insert_ne by done.
  simpl. rewrite map_get_insert, Hd. done.
Qed.

Lemma tags_snapshot_elem s repo t d m :
  (t, d, m) ∈ tags_snapshot s repo ↔ resolve_tag s repo t = Some (d, m).
Proof.
  unfold tags_snapshot, resolve_tag. destruct (s !! repo) as [rs|]; simpl; [|set_solver].
  rewrite list_elem_of_fmap, <-btree_elem. split.
  - intros ([t' [d' m']] & [= -> -> ->] & Hin). done.
  - intros Hin. by exists (t, (d, m)).
Qed.

Lemma manifests_elem s repo d : d ∈ manifests s repo ↔ is_Some (manifest_media_type s repo d).
Proof.
  unfold manifests, manifest_media_type. destruct (s !! repo) as [rs|]; simpl; [|split; [set_solver|by intros [? ?]]].
  rewrite list_elem_of_fmap. split.
  - intros ([d' m] & -> & Hin). rewrite iter_perm, elem_of_map_to_list in Hin. by eexists.
  - intros [m Hm]. exists (d, m). by rewrite iter_perm, elem_of_map_to_list.
Qed.

Lemma index_manifests_from_meta s repo existing size_lookup :
  index_manifests (index_from_meta s repo existing size_lookup) = index_manifests_of s repo existing size_lookup.
Proof. unfold index_manifests, index_from_meta. cbn [jget]. by rewrite map_get_insert. Qed.

Lemma tagged_entries_elem s repo base e :
  e ∈ tagged_entries s repo base ↔
  ∃ t d m o, resolve_tag s repo t = Some (d, m) ∧ base !! d = Some o ∧ e = tag_entry t o.
Proof.
  unfold tagged_entries. rewrite list_elem_of_omap. split.
  - intros ([[t d] m] & Hin & (o & Ho & ->)%fmap_Some). rewrite tags_snapshot_elem in Hin. eauto 10.
  - intros (t & d & m & o & Ht & Ho & ->). exists (t, d, m). rewrite tags_snapshot_elem. split; [done|]. simpl. by rewrite Ho.
Qed.

Lemma tagged_digests_elem s repo base d :
  d ∈ tagged_digests s repo base → ∃ t m, resolve_tag s repo t = Some (d, m).
Proof.
  unfold tagged_digests. rewrite list_elem_of_omap.
  intros ([[t d'] m] & Hin & (o & Ho & ->)%fmap_Some). rewrite tags_snapshot_elem in Hin. eauto.
Qed.
(** ** Pages *)

Definition within {A : Type} (limit : nat) (p : Page A) : Prop := length (items p) ≤ limit.

Lemma take_page_within {A : Type} (l : list A) limit : within limit (take_page l limit).
Proof. unfold within, take_page. simpl. rewrite length_take. lia. Qed.

Lemma tags_page_within s repo last limit p : tags_page s repo last limit = Some p → within limit p.
Proof. unfold tags_page. repeat case_match; intros; simplify_eq. apply take_page_within. Qed.

Lemma referrers_page_within s repo subject at_ last limit p :
  referrers_page s repo subject at_ last limit = Some p → within limit p.
Proof.
  unfold referrers_page, sr_page. repeat case_match; intros; simplify_eq;
    first [apply take_page_within|unfold within; simpl; lia].
Qed.

Lemma page_layout_within refs at_ last limit : within limit (page_layout_referrers refs at_ last limit).
Proof. unfold page_layout_referrers, within. simpl. rewrite length_fmap. apply take_page_within. Qed.
End IndexProofs.

(** The [index.json] that is rebuilt from the metadata and the index found
    on disk tags exactly what the metadata tags: its tagged descriptors are
    the pairs of tag and digest that resolve, whatever the old index said, and
    every manifest of the repository is listed. *)
Theorem index_exposes_tags `{SerdeJson, HashIter} ops repo existing size_lookup :
  existing_ok existing →
  let s := foldl apply_in_ram ∅ ops in
  let listed := index_manifests (index_from_meta s repo existing size_lookup) in
  (∀ t d, (∃ e, e ∈ listed ∧ descriptor_tag e = Some t ∧ descriptor_digest e = Some d) ↔
     ∃ m, resolve_tag s repo t = Some (d, m)) ∧
  (∀ d, is_Some (manifest_media_type s repo d) → ∃ e, e ∈ listed ∧ descriptor_digest e = Some d).
Proof.
  intros He s listed. assert (Hs : state_ok s) by (apply replay_ok; by intros r rs; rewrite lookup_empty).
  subst listed. rewrite index_manifests_from_meta. unfold index_manifests_of.
  pose proof (index_base_ok s repo existing size_lookup He) as Hb.
  destruct (index_base s repo existing size_lookup) as [base foreign].
  destruct Hb as (Hbase & Hforeign & Hdom).
  assert (Hknown : ∀ t d m, resolve_tag s repo t = Some (d, m) → ∃ o, base !! d = Some o).
  { intros t d m Ht. apply Hdom, manifests_elem. unfold resolve_tag, manifest_media_type in *.
    destruct (s !! repo) as [rs|] eqn:E; [|done]. by eapply tags_known; [eapply Hs|]. }
  split.
  - intros t d. split.
    + intros (e & Hin & Ht & Hd). rewrite !elem_of_app in Hin. destruct Hin as [Hin|[Hin|Hin]].
      * apply tagged_entries_elem in Hin as (t' & d' & m & o & Hr & Ho & ->).
        destruct (tag_entry_tag t' d' o (Hbase _ _ Ho)) as [Ht' Hd']. exists m. congruence.
      * apply list_elem_of_fmap in Hin as ([d' o] & -> & Hin). apply list_elem_of_filter in Hin as [_ Hin].
        apply btree_elem in Hin. destruct (Hbase _ _ Hin) as [_ _ Hu]. simpl in *. congruence.
      * rewrite Forall_forall in Hforeign. specialize (Hforeign _ Hin). unfold untagged_json in Hforeign. congruence.
    + intros [m Hr]. destruct (Hknown _ _ _ Hr) as [o Ho]. exists (tag_entry t o).
      rewrite elem_of_app, tagged_entries_elem. destruct (tag_entry_tag t d o (Hbase _ _ Ho)). eauto 10.
  - intros d [o Ho]%manifests_elem%Hdom.
    destruct (decide (d ∈ tagged_digests s repo base)) as [(t & m & Hr)%tagged_digests_elem|Hn].
    + exists (tag_entry t o). rewrite elem_of_app, tagged_entries_elem.
      destruct (tag_entry_tag t d o (Hbase _ _ Ho)). eauto 10.
    + exists (JObject o). rewrite !elem_of_app. split.
      * right. left. apply list_elem_of_fmap. exists (d, o). split; [done|].
        apply list_elem_of_filter. by rewrite btree_elem.
      * unfold descriptor_digest, jget. by rewrite (be_digest _ _ (Hbase _ _ Ho)).
Qed.

(** A page of tags read from [index.json] is the page of the sorted list
    of its distinct tags that starts after the cursor. *)
Theorem layout_tags_page_spec index last limit :
  ∃ all, StronglySorted String.le all ∧ NoDup all ∧
    (∀ t, t ∈ all ↔ ∃ e, e ∈ index_manifests index ∧ descriptor_tag e = Some t) ∧
    layout_tags_page index last limit = take_page (filter (λ t, after_key last t = true) all) limit.
Proof.
  set (tags := omap descriptor_tag (index_manifests index)).
  exists (dedup_by id (sort_by id tags)).
  destruct (dedup_by_sorted id (sort_by id tags) (sort_by_sorted id tags)) as [H1 H2].
  rewrite list_fmap_id in H2. split_and!; [done|done| |by apply page_sorted_spec].
  intros t. rewrite <-(list_fmap_id (dedup_by id (sort_by id tags))), dedup_by_keys, list_fmap_id.
  rewrite sort_by_perm. unfold tags. by rewrite list_elem_of_omap.
Qed.

Definition index_ex : json :=
  jobject [("manifests", JArray [jobject [("digest", JString "d2"); ("annotations", jobject [(REF_NAME_ANNOTATION, JString "old")])]])].

Lemma index_exposes_tags_witness :
  ∃ e, e ∈ index_manifests (@index_from_meta no_json map_order
        (foldl (@apply_in_ram no_json) ∅ [PutManifest "a" "d1" "mt" (Some "v1") [] None]) "a" (Some index_ex) (λ _, None))
      ∧ descriptor_tag e = Some "v1" ∧ descriptor_digest e = Some "d1".
Proof.
  refine (proj2 (proj1 (@index_exposes_tags no_json map_order
    [PutManifest "a" "d1" "mt" (Some "v1") [] None] "a" (Some index_ex) (λ _, None) _) "v1" "d1") _).
  - intros ix e o [= <-] Hin ->. cbn in Hin. apply list_elem_of_singleton in Hin. injection Hin as ->.
    intros v [= <-]. by eexists.
  - exists "mt". reflexivity.
Defined.
