(* ===== verification/Manifests.v ===== *)
(** What a pushed manifest must satisfy ([roci-core/src/manifests.rs]): the
    nesting bound, the digest of a reference, the media type and the blobs it
    needs; and the descriptor of a referrer. *)

From S2P Require Import Prelude RustStr Json Errors Digest HttpUtil Layout.

Definition MAX_JSON_DEPTH : nat := 32.

(** The loop of [json_depth_exceeds]. *)
Fixpoint depth_loop (max depth : nat) (in_string escaped : bool) (l : bytes) : bool :=
  match l with
  | [] => false
  | b :: l =>
      if in_string then
        if escaped then depth_loop max depth true false l
        else if bool_decide (b = "\"%char) then depth_loop max depth true true l
        else if bool_decide (b = "034"%char) then depth_loop max depth false escaped l
        else depth_loop max depth true escaped l
      else if bool_decide (b = "034"%char) then depth_loop max depth true escaped l
      else if bool_decide (b = "{"%char) || bool_decide (b = "["%char) then
        let depth := S depth in
        if bool_decide (max < depth) then true else depth_loop max depth in_string escaped l
      else if bool_decide (b = "}"%char) || bool_decide (b = "]"%char) then
        depth_loop max (depth - 1) in_string escaped l
      else depth_loop max depth in_string escaped l
  end.

Definition json_depth_exceeds (l : bytes) (max : nat) : bool := depth_loop max 0 false false l.

Definition descriptor_digest_str (value : json) : option string :=
  m ← as_object value; d ← map_get "digest" m; as_str d.

Definition manifest_cache_control (by_digest : bool) : string :=
  if by_digest then CACHE_IMMUTABLE else "no-cache".

Definition is_digest_ref (reference : string) : bool := contains_char ":" reference.

Definition content_digest `{Crypto} (reference : string) (body : bytes)
    : result ApiError (Digest * option string) :=
  if is_digest_ref reference then
    let? ref_digest := map_err api_of_storage (Digest_parse reference) in
    let content := digest_of body (algorithm ref_digest) in
    if ct_eq content ref_digest then Ok (content, None)
    else Err (digest_invalid "manifest digest does not match reference")
  else Ok (sha256_of body, Some reference).

(** The closure [bare]: the type without its parameters. *)
Definition bare (s : string) : string := trim (default s (head (split ";" s))).

Definition check_media_type (content_type : string) (manifest : json) : result ApiError () :=
  match jget "mediaType" manifest with
  | None => Ok tt
  | Some mt =>
      match as_str mt with
      | None => Err (manifest_invalid "manifest mediaType is not a string")
      | Some body_mt =>
          if bool_decide (bare content_type ≠ bare body_mt)
          then Err (manifest_invalid "Content-Type does not match manifest mediaType")
          else Ok tt
      end
  end.

(** [descriptor_digest] *)
Definition required_digest (value : json) (kind : string) : result ApiError Digest :=
  let? s := ok_or (descriptor_digest_str value) (manifest_invalid (kind +:+ " descriptor is malformed")) in
  map_err (λ _, manifest_invalid (kind +:+ " digest is malformed")) (Digest_parse s).

(** [for layer in layers { referenced.push(descriptor_digest(layer, "layer")?) }] *)
Fixpoint push_layers (referenced : list Digest) (layers : list json) : result ApiError (list Digest) :=
  match layers with
  | [] => Ok referenced
  | layer :: layers =>
      let? d := required_digest layer "layer" in
      push_layers (referenced ++ [d]) layers
  end.

Definition required_blobs (manifest : json) : result ApiError (list Digest) :=
  let? referenced :=
    match jget "config" manifest with
    | Some cfg => let? d := required_digest cfg "config" in Ok [d]
    | None => Ok []
    end in
  match jget "layers" manifest with
  | None => Ok referenced
  | Some layers =>
      let? layers := ok_or (as_array layers) (manifest_invalid "manifest layers is not an array") in
      push_layers referenced layers
  end.

(** [referrer_descriptor] *)
Definition manifest_descriptor `{SerdeJson} (manifest : json) (media_type : string) (digest : Digest) (size : Z)
    : bytes :=
  let descriptor :=
    map_insert "size" (JNumber (PosInt size))
      (map_insert "digest" (JString (Digest_fmt digest))
        (map_insert "mediaType" (JString media_type) [])) in
  let artifact_type :=
    match jget "artifactType" manifest ≫= as_str with
    | Some t => Some t
    | None => c ← jget "config" manifest; m ← jget "mediaType" c; as_str m
    end in
  let descriptor :=
    match artifact_type with
    | Some t => map_insert "artifactType" (JString t) descriptor
    | None => descriptor
    end in
  let descriptor :=
    match jget "annotations" manifest with
    | Some ann => map_insert "annotations" ann descriptor
    | None => descriptor
    end in
  to_vec (JObject descriptor).

(** The [subject] of a manifest, when it names one. *)
Definition manifest_subject (manifest : json) : option Digest :=
  s ← jget "subject" manifest; v ← jget "digest" s; d ← as_str v; ok (Digest_parse d).

(** ** What the checks mean *)

(** The inside of a JSON string: no unescaped quote. *)
Inductive string_text : bytes → Prop :=
  | text_nil : string_text []
  | text_escape b w : string_text w → string_text ("\"%char :: b :: w)
  | text_plain b w : b ≠ "\"%char → b ≠ "034"%char → string_text w → string_text (b :: w).

Definition plain_byte (b : ascii) : Prop :=
  b ∉ ["034"; "{"; "["; "}"; "]"]%char.

(** A text whose brackets are balanced outside strings, and how deep they
    nest. Every JSON text is one: its strings are quoted and escaped and its
    arrays and objects are bracketed. *)
Inductive nested : nat → bytes → Prop :=
  | nested_nil : nested 0 []
  | nested_plain k b l : plain_byte b → nested k l → nested k (b :: l)
  | nested_string k w l : string_text w → nested k l → nested k ("034"%char :: w ++ "034"%char :: l)
  | nested_array k k' w l : nested k w → nested k' l → nested (S k `max` k') ("["%char :: w ++ "]"%char :: l)
  | nested_object k k' w l : nested k w → nested k' l → nested (S k `max` k') ("{"%char :: w ++ "}"%char :: l).

Lemma depth_loop_string max depth w l :
  string_text w → depth_loop max depth true false (w ++ "034"%char :: l) = depth_loop max depth false false l.
Proof.
  induction 1 as [|b w Hw IH|b w Hb Hq Hw IH]; [done|done|].
  simpl. by rewrite !bool_decide_eq_false_2 by done.
Qed.

Lemma depth_loop_plain max depth b l :
  plain_byte b → depth_loop max depth false false (b :: l) = depth_loop max depth false false l.
Proof.
  unfold plain_byte. intros Hb. simpl.
  rewrite !(bool_decide_eq_false_2 (b = _)) by (intros ->; apply Hb; set_solver). done.
Qed.

(** Running over a balanced text comes back to the depth it started at, unless
    it went too deep. *)
Lemma depth_loop_nested max depth k w l :
  nested k w → depth ≤ max →
  depth_loop max depth false false (w ++ l) =
    if bool_decide (max < depth + k) then true else depth_loop max depth false false l.
Proof.
  intros Hw. revert depth l.
  assert (bracket : ∀ o c k k' w l0 depth l,
    (o, c) ∈ [("[", "]"); ("{", "}")]%char →
    (∀ depth l, depth ≤ max → depth_loop max depth false false (w ++ l) =
       if bool_decide (max < depth + k) then true else depth_loop max depth false false l) →
    (∀ depth l, depth ≤ max → depth_loop max depth false false (l0 ++ l) =
       if bool_decide (max < depth + k') then true else depth_loop max depth false false l) →
    depth ≤ max →
    depth_loop max depth false false ((o :: w ++ c :: l0) ++ l) =
      if bool_decide (max < depth + S k `max` k') then true else depth_loop max depth false false l).
  { clear. intros o c k k' w l0 depth l Ho IH1 IH2 Hd.
    assert (E1 : ∀ r, depth_loop max depth false false (o :: r) =
      if bool_decide (max < S depth) then true else depth_loop max (S depth) false false r)
      by (intros r; apply elem_of_cons in Ho as [[= -> ->]|Ho]; [done|by apply list_elem_of_singleton in Ho as [= -> ->]]).
    assert (E2 : ∀ r, depth_loop max (S depth) false false (c :: r) = depth_loop max depth false false r)
      by (intros r; apply elem_of_cons in Ho as [[= -> ->]|Ho]; [|apply list_elem_of_singleton in Ho as [= -> ->]];
          simpl; by rewrite Nat.sub_0_r).
    cbn [app]. rewrite E1, <-app_assoc. cbn [app].
    case_bool_decide as H1; [by rewrite bool_decide_eq_true_2 by lia|].
    rewrite IH1 by lia. case_bool_decide as H2; [by rewrite bool_decide_eq_true_2 by lia|].
    rewrite E2, IH2 by lia. case_bool_decide; [rewrite bool_decide_eq_true_2 by lia|rewrite bool_decide_eq_false_2 by lia]; done. }
  induction Hw as [|k b w Hb Hw IH|k w l0 Hs Hl IH|k k' w l0 Hw IH1 Hl IH2|k k' w l0 Hw IH1 Hl IH2];
    intros depth l Hd.
  - simpl. by rewrite bool_decide_eq_false_2 by lia.
  - cbn [app]. by rewrite depth_loop_plain, IH.
  - cbn [app]. rewrite <-app_assoc. cbn [app]. change (depth_loop max depth false false ("034"%char :: ?r)) with
      (depth_loop max depth true false r). rewrite depth_loop_string by done. by apply IH.
  - apply bracket; [set_solver|done..].
  - apply bracket; [set_solver|done..].
Qed.

Lemma push_layers_spec referenced layers ds :
  push_layers referenced layers = Ok ds →
  ∃ more, ds = referenced ++ more ∧ Forall2 (λ layer d, required_digest layer "layer" = Ok d) layers more.
Proof.
  revert referenced. induction layers as [|x layers IH]; intros referenced; simpl.
  - intros [= <-]. exists []. by rewrite app_nil_r.
  - intros H. case_res. apply IH in H as (more & -> & Hmore). eexists (_ :: more). rewrite <-app_assoc. by split; [|constructor].
Qed.

Lemma required_digest_ok v kind d :
  required_digest v kind = Ok d → ∃ s, descriptor_digest_str v = Some s ∧ Digest_parse s = Ok d.
Proof. unfold required_digest. intros H. case_res. eauto. Qed.

(** The digests a manifest needs: its config and its layers. *)
Definition needs (manifest : json) (d : Digest) : Prop :=
  ∃ v s, descriptor_digest_str v = Some s ∧ Digest_parse s = Ok d ∧
  (jget "config" manifest = Some v ∨ ∃ l, jget "layers" manifest = Some (JArray l) ∧ v ∈ l).

Lemma required_blobs_spec manifest ds d :
  required_blobs manifest = Ok ds → (d ∈ ds ↔ needs manifest d).
Proof.
  unfold required_blobs, needs. intros H. case_res.
  assert (Hc : d ∈ x ↔ ∃ v s, descriptor_digest_str v = Some s ∧ Digest_parse s = Ok d ∧ jget "config" manifest = Some v).
  { match goal with H : match _ with _ => _ end = Ok x |- _ => revert H end.
    destruct (jget "config" manifest) as [cfg|]; intros H'; case_res; [|set_solver].
    match goal with H : required_digest _ _ = _ |- _ => apply required_digest_ok in H as (s & ? & ?) end.
    rewrite list_elem_of_singleton. split; [intros ->; eauto 6|intros (? & ? & ? & ? & [= <-]); congruence]. }
  destruct (jget "layers" manifest) as [layers|]; [case_res|case_res; rewrite Hc; naive_solver].
  match goal with H : as_array _ = Some _ |- _ => destruct layers; simplify_eq/= end.
  apply push_layers_spec in H as (more & -> & Hmore). rewrite elem_of_app, Hc.
  assert (Hm : d ∈ more ↔ ∃ v s, v ∈ x0 ∧ descriptor_digest_str v = Some s ∧ Digest_parse s = Ok d).
  { split.
    - intros [i Hi]%list_elem_of_lookup. destruct (Forall2_lookup_r _ _ _ _ _ Hmore Hi) as (v & Hv & Hd).
      apply required_digest_ok in Hd as (s & ? & ?). exists v, s. split_and!; [|done..]. by eapply list_elem_of_lookup_2.
    - intros (v & s & [i Hi]%list_elem_of_lookup & Hs & Hd).
      destruct (Forall2_lookup_l _ _ _ _ _ Hmore Hi) as (d' & Hd' & E).
      apply required_digest_ok in E as (s' & ? & ?). assert (d' = d) as <- by congruence. by eapply list_elem_of_lookup_2. }
  rewrite Hm. split; [|intros (v & s & ? & ? & [?|(l & [= <-] & ?)])]; naive_solver.
Qed.

(** ** Properties *)

(** The allocation-free scan of [json_depth_exceeds] computes the nesting
    depth of a JSON text: it rejects a text whose brackets, outside strings,
    nest deeper than the bound, and no other. *)
Theorem json_depth_exceeds_spec k text max :
  nested k text → json_depth_exceeds text max = bool_decide (max < k).
Proof.
  intros H. unfold json_depth_exceeds. pose proof (depth_loop_nested max 0 k text [] H ltac:(lia)) as E.
  rewrite app_nil_r in E. rewrite E. change (0 + k) with k. by destruct (bool_decide (max < k)).
Qed.

(** The text [{"a]":[1]}]: the bracket inside the string does not count. *)
Definition nested_ex : bytes :=
  "{"%char :: ("034"%char :: ["a"; "]"]%char ++ "034"%char :: ":"%char :: "["%char :: ["1"]%char ++ "]"%char :: []) ++ "}"%char :: [].

Lemma json_depth_exceeds_spec_witness :
  json_depth_exceeds nested_ex 1 = true ∧ json_depth_exceeds nested_ex 2 = false.
Proof.
  assert (H : nested 2 nested_ex).
  { apply (nested_object 1 0); [|constructor]. apply nested_string; [by repeat constructor|].
    apply nested_plain; [unfold plain_byte; set_solver|]. apply (nested_array 0 0); [|constructor].
    apply nested_plain; [unfold plain_byte; set_solver|constructor]. }
  split; [apply (json_depth_exceeds_spec 2 nested_ex 1 H)|apply (json_depth_exceeds_spec 2 nested_ex 2 H)].
Defined.
