(* ===== verification/Handlers.v ===== *)
(** The HTTP handlers ([blobs.rs], [uploads.rs], [manifests.rs], [listing.rs]
    of roci-core/src), their dispatch ([routes.rs]) and the health probes
    ([lib.rs]), as programs over any storage backend. *)

From S2P Require Import Prelude RustStr Json Errors Names Digest HttpUtil Policy Auth Routes.
From S2P Require Import Metadata Effect StorageApi Layout Manifests.

(** ** State and requests *)

(** The parts of [AppState] and its configuration the handlers read. *)
Record AppState := mkApp {
  max_body : Z;
  max_upload : Z;
  max_manifest : Z;
  max_page : Z;
  can_delete : bool;
  auth : option Auth;
}.

(** A request after the middleware: [principal] is what [principal_of] finds
    in its extensions. *)
Record Request := mkReq {
  req_method : Method;
  req_query : string;
  req_headers : HeaderMap;
  principal : Principal;
  req_body : UploadBody;
}.

(** How a handler ends without a response: an error of the interface, or the
    panic of an [unwrap] on a text that is no header value. *)
Inductive Failure := Api (e : ApiError) | Panic.

(** [HeaderValue::from_str(s).unwrap()] *)
Definition header_value (s : string) : result Failure string :=
  if header_ok s then Ok s else Err Panic.

(** The URL form encoding of the crate [serde_urlencoded]. *)
Class UrlEncoded := {
  url_pairs : string → list (string * string);
  url_encode : list (string * string) → string;
}.

(** A field of a derived [Deserialize]: absent, present, or given twice, which
    is an error. *)
Definition field (k : string) (pairs : list (string * string)) : option (option string) :=
  match filter (λ kv, kv.1 = k) pairs with
  | [] => Some None
  | [(_, v)] => Some (Some v)
  | _ => None
  end.

(** A field of type [Option<usize>]. *)
Definition field_usize (k : string) (pairs : list (string * string)) : option (option Z) :=
  match field k pairs with
  | Some (Some v) => Some <$> parse_u64 v
  | Some None => Some None
  | None => None
  end.

Record UploadQuery := mkUploadQuery { q_digest : option string; q_mount : option string; q_from : option string }.
Record TagsQuery := mkTagsQuery { t_n : option Z; t_last : option string }.
Record ReferrersQuery := mkReferrersQuery { r_artifact_type : option string; r_n : option Z; r_last : option string }.

Section Handlers.
Context `{Crypto, SerdeJson, UrlEncoded, Storage}.

Abbreviation handler := (M sto Failure).

(** [query]: what does not deserialize is the default. *)
Definition upload_query (req : Request) : UploadQuery :=
  let pairs := url_pairs (req_query req) in
  default (mkUploadQuery None None None)
    (d ← field "digest" pairs; m ← field "mount" pairs; f ← field "from" pairs; Some (mkUploadQuery d m f)).

Definition tags_query (req : Request) : TagsQuery :=
  let pairs := url_pairs (req_query req) in
  default (mkTagsQuery None None)
    (n ← field_usize "n" pairs; l ← field "last" pairs; Some (mkTagsQuery n l)).

Definition referrers_query (req : Request) : ReferrersQuery :=
  let pairs := url_pairs (req_query req) in
  default (mkReferrersQuery None None None)
    (a ← field "artifactType" pairs; n ← field_usize "n" pairs; l ← field "last" pairs;
     Some (mkReferrersQuery a n l)).

(** A storage call, with how its errors are reported. *)
Definition call {A} (f : StorageError → ApiError) (m : M sto StorageError A) : handler A :=
  mapping_err (λ e, Api (f e)) m.

Definition fail {A} (e : ApiError) : handler A := throw (Api e).

Definition api {A} (r : result ApiError A) : handler A := of_result (map_err Api r).

Definition empty_response (status : Z) (headers : gmap string string) : Response :=
  {| resp_status := status; resp_headers := headers; resp_body := BEmpty |}.

(** ** Blobs *)

Definition blob_unknown : ApiError := Spec BlobUnknown "blob unknown to registry".

Definition blob_headers (digest_str : string) : gmap string string :=
  <["cache-control" := CACHE_IMMUTABLE]> (<["etag" := etag_value digest_str]>
  (<["accept-ranges" := "bytes"]> (<["content-type" := "application/octet-stream"]>
  {[DOCKER_CONTENT_DIGEST := digest_str]}))).

Definition get_body (repo : string) (d : Digest) (digest_str : string) (headers : HeaderMap)
    : M sto StorageError Response :=
  blob ← s_open_blob repo d;
  let size := br_size blob in
  match redirect_url blob with
  | Some url =>
      if header_ok url
      then mret (empty_response 307 (<["location" := url]> {[DOCKER_CONTENT_DIGEST := digest_str]}))
      else throw (Io (IoError KOther "failed to parse header value"))
  | None =>
      match parse_byte_range headers size with
      | Full =>
          body ← of_result (map_err Io (into_stream blob 0 size));
          mret {| resp_status := 200;
                  resp_headers := <["content-length" := u64_to_string size]> (blob_headers digest_str);
                  resp_body := BStream body |}
      | Partial start end_ =>
          let len := (end_ - start + 1)%Z in
          body ← of_result (map_err Io (into_stream blob start len));
          mret {| resp_status := 206;
                  resp_headers :=
                    <["content-range" := "bytes " +:+ u64_to_string start +:+ "-" +:+ u64_to_string end_
                                         +:+ "/" +:+ u64_to_string size]>
                      (<["content-length" := u64_to_string len]> (blob_headers digest_str));
                  resp_body := BStream body |}
      | Unsatisfiable =>
          mret (empty_response 416
                  (<["content-range" := "bytes */" +:+ u64_to_string size]> {["accept-ranges" := "bytes"]}))
      end
  end.

Definition blobs_get (repo : string) (d : Digest) (head : bool) (headers : HeaderMap) : handler Response :=
  let digest_str := Digest_fmt d in
  if if_none_match_hit headers digest_str then mret (not_modified digest_str CACHE_IMMUTABLE)
  else if head then
    size ← call (not_found_as blob_unknown) (s_blob_size repo d);
    mret (empty_response 200 (<["content-length" := u64_to_string size]> (blob_headers digest_str)))
  else call (not_found_as blob_unknown) (get_body repo d digest_str headers).

Definition unsupported : ApiError := Spec Unsupported "the operation is unsupported".

Definition blobs_delete (st : AppState) (repo : string) (d : Digest) : handler Response :=
  if negb (can_delete st) then fail unsupported
  else
    call (not_found_as blob_unknown) (s_delete_blob repo d);;
    mret (empty_response 202 ∅).

(** ** Uploads *)

Definition upload_location (repo id : string) : string := "/v2/" +:+ repo +:+ "/blobs/uploads/" +:+ id.

Definition upload_headers (repo id : string) (received : Z) : result Failure (gmap string string) :=
  let? location := header_value (upload_location repo id) in
  let? range := header_value ("0-" +:+ u64_to_string (saturating_sub received 1)) in
  Ok (<["range" := range]> {["location" := location]}).

Definition upload_progress (status : Z) (repo id : string) (received : Z) : result Failure Response :=
  let? headers := upload_headers repo id received in
  let? uuid := header_value id in
  Ok (empty_response status (<["docker-upload-uuid" := uuid]> headers)).

(** The caller may read the source of a mount. *)
Definition source_readable (st : AppState) (req : Request) (from : string) : bool :=
  is_ok (RepositoryName_parse from)
  && match auth st with
     | None => true
     | Some a => allows a (principal req) from Pull
     end.

(** The cross-repository mount at the head of [start]; errors of the backend
    mean that nothing was mounted. *)
Definition try_mount (st : AppState) (repo : string) (q : UploadQuery) (req : Request)
    : handler (option Response) :=
  match q_mount q, q_from q with
  | Some mount, Some from =>
      match source_readable st req from, Digest_parse mount with
      | true, Ok d =>
          r ← attempt (s_mount_blob from repo d);
          mret (match r with Ok true => Some (created (blob_location repo d) d) | _ => None end)
      | _, _ => mret None
      end
  | _, _ => mret None
  end.

Definition uploads_start (st : AppState) (repo : string) (q : UploadQuery) (req : Request) : handler Response :=
  mounted ← try_mount st repo q req;
  match mounted with
  | Some resp => mret resp
  | None =>
      match q_digest q with
      | Some digest =>
          d ← api (map_err api_of_storage (Digest_parse digest));
          id ← call api_of_storage (s_begin_upload repo);
          let limit := (max_body st `min` max_upload st)%Z in
          stored ← attempt (s_append_upload repo id (req_body req) None limit;;
                            s_finish_upload repo id d (max_upload st) [] 0);
          match stored with
          | Err e => attempt (s_abort_upload repo id);; fail (api_of_storage e)
          | Ok _ => mret (created (blob_location repo d) d)
          end
      | None =>
          id ← call api_of_storage (s_begin_upload repo);
          of_result (upload_progress 202 repo id 0)
      end
  end.

(** The first offset of a [Content-Range]. *)
Definition range_start (headers : HeaderMap) : option Z :=
  v ← header_text "content-range" headers; s ← head (split "-" v); parse_u64 (trim s).

Definition uploads_patch (st : AppState) (repo id : string) (req : Request) : handler Response :=
  r ← attempt (s_append_upload repo id (req_body req) (range_start (req_headers req)) (max_body st));
  match r with
  | Ok total =>
      if (max_upload st <? total)%Z then
        attempt (s_abort_upload repo id);;
        fail (payload_too_large "upload exceeds maximum blob size")
      else of_result (upload_progress 202 repo id total)
  | Err (RangeNotSatisfiable expected _) =>
      headers ← of_result (upload_headers repo id expected);
      mret (empty_response 416 headers)
  | Err e => fail (api_of_storage e)
  end.

Definition uploads_finish (st : AppState) (repo id : string) (q : UploadQuery) (req : Request) : handler Response :=
  digest ← api (ok_or (q_digest q) (digest_invalid "missing digest on upload completion"));
  d ← api (map_err api_of_storage (Digest_parse digest));
  call api_of_storage (s_finish_upload repo id d (max_upload st) (req_body req) (max_body st));;
  mret (created (blob_location repo d) d).

Definition uploads_status (repo id : string) : handler Response :=
  total ← call api_of_storage (s_upload_size repo id);
  of_result (upload_progress 204 repo id total).

(** ** Manifests *)

Definition manifest_unknown : ApiError := Spec ManifestUnknown "manifest unknown to registry".

Definition manifests_get (repo reference : string) (head : bool) (headers : HeaderMap) : handler Response :=
  let by_digest := is_digest_ref reference in
  m ← call (not_found_as manifest_unknown) (s_get_manifest repo reference);
  let digest_str := Digest_fmt (mr_digest m) in
  if if_none_match_hit headers digest_str
  then mret (not_modified digest_str (manifest_cache_control by_digest))
  else
    content_type ← of_result (header_value (mr_media_type m));
    let resp :=
      <["cache-control" := manifest_cache_control by_digest]> (<["etag" := etag_value digest_str]>
      (<[DOCKER_CONTENT_DIGEST := digest_str]> (<["content-length" := u64_to_string (blen (mr_bytes m))]>
      {["content-type" := content_type]}))) in
    mret {| resp_status := 200; resp_headers := resp;
            resp_body := if head then BEmpty else BBytes (mr_bytes m) |}.

(** The loop over the blobs a manifest needs. *)
Fixpoint check_referenced (repo : string) (referenced : list Digest) : handler () :=
  match referenced with
  | [] => mret tt
  | d :: referenced =>
      r ← attempt (s_blob_exists repo d);
      match r with
      | Ok true => check_referenced repo referenced
      | Ok false => fail (manifest_blob_unknown ("referenced blob " +:+ Digest_fmt d +:+ " is not present"))
      | Err e => fail (api_of_storage e)
      end
  end.

(** [read_body_limited] within the bound of a manifest. *)
Definition manifest_body (st : AppState) (req : Request) : result ApiError bytes :=
  let body := ok_or (delivered (req_body req)) tt in
  match read_body_limited body (max_body st `min` max_manifest st)%Z with
  | Ok b => Ok b
  | Err e =>
      if (max_body st <=? max_manifest st)%Z then Err e
      else Err (manifest_invalid "manifest exceeds manifest size cap")
  end.

Definition manifest_location (repo : string) (d : Digest) : string :=
  "/v2/" +:+ repo +:+ "/manifests/" +:+ Digest_fmt d.

Definition manifests_put (st : AppState) (repo reference : string) (req : Request) : handler Response :=
  let media_type := default MEDIA_TYPE_IMAGE_MANIFEST (header_text "content-type" (req_headers req)) in
  body ← api (manifest_body st req);
  if json_depth_exceeds body MAX_JSON_DEPTH then fail (manifest_invalid "manifest JSON nesting too deep") else
  '(digest, tag) ← api (content_digest reference body);
  let parsed := default JNull (from_slice body) in
  let subject_digest := manifest_subject parsed in
  api (check_media_type media_type parsed);;
  referenced ← api (required_blobs parsed);
  check_referenced repo referenced;;
  let references := manifest_references parsed in
  let referrer := (λ s, (s, manifest_descriptor parsed media_type digest (blen body))) <$> subject_digest in
  call api_of_storage (s_put_manifest repo tag digest media_type body
    {| references := references; required := referenced; link_subject := referrer |});;
  let resp := created (manifest_location repo digest) digest in
  mret (match subject_digest with
        | Some subject =>
            {| resp_status := resp_status resp;
               resp_headers := <["oci-subject" := Digest_fmt subject]> (resp_headers resp);
               resp_body := resp_body resp |}
        | None => resp
        end).

Definition manifests_delete (st : AppState) (repo reference : string) : handler Response :=
  if negb (can_delete st) then fail unsupported else
  d ← (if is_digest_ref reference then api (map_err api_of_storage (Digest_parse reference))
       else m ← call (not_found_as manifest_unknown) (s_get_manifest repo reference); mret (mr_digest m));
  call (not_found_as manifest_unknown) (s_delete_manifest repo d);;
  mret (empty_response 202 ∅).

(** ** Listings *)

Definition page_limit (n : option Z) (max_page : Z) : Z :=
  match n with Some n => (n `min` max_page)%Z | None => max_page end.

(** The path of the next page is dropped when it is no header value. *)
Definition insert_next_link (headers : gmap string string) (p : string) (query : list (string * string))
    : gmap string string :=
  let v := "<" +:+ p +:+ "?" +:+ url_encode query +:+ ">; rel=" +:+ quote +:+ "next" +:+ quote in
  if header_ok v then <["link" := v]> headers else headers.

Definition listing_tags (st : AppState) (repo : string) (q : TagsQuery) : handler Response :=
  let limit := page_limit (t_n q) (max_page st) in
  page ← call api_of_storage (s_list_tags repo (t_last q) (Z.to_nat limit));
  let headers := {["content-type" := "application/json"]} in
  let headers :=
    if more page && (0 <? limit)%Z then
      let cursor := default "" (last (items page)) in
      insert_next_link headers ("/v2/" +:+ repo +:+ "/tags/list") [("n", u64_to_string limit); ("last", cursor)]
    else headers in
  mret {| resp_status := 200; resp_headers := headers;
          resp_body := BJson (jobject [("name", JString repo); ("tags", JArray (JString <$> items page))]) |}.

Definition listing_referrers (st : AppState) (repo : string) (subject : Digest) (q : ReferrersQuery)
    : handler Response :=
  let limit := page_limit (r_n q) (max_page st) in
  let filter := r_artifact_type q in
  r ← attempt (s_list_referrers repo subject filter (r_last q) (Z.to_nat limit));
  let page := match r with Ok p => p | Err _ => mkPage [] false end in
  let manifests := omap (λ i, from_slice i.2) (items page) in
  let headers := {["content-type" := MEDIA_TYPE_IMAGE_INDEX]} in
  let headers :=
    match filter with
    | Some _ => <["vary" := "Accept"]> (<["oci-filters-applied" := "artifactType"]> headers)
    | None => headers
    end in
  let headers :=
    if more page && (0 <? limit)%Z then
      let last_digest := default "" (fst <$> last (items page)) in
      let query := [("n", u64_to_string limit); ("last", last_digest)]
                   ++ match filter with Some f => [("artifactType", f)] | None => [] end in
      insert_next_link headers ("/v2/" +:+ repo +:+ "/referrers/" +:+ Digest_fmt subject) query
    else headers in
  mret {| resp_status := 200; resp_headers := headers;
          resp_body := BJson (jobject [("schemaVersion", JNumber (PosInt 2));
                                       ("mediaType", JString MEDIA_TYPE_IMAGE_INDEX);
                                       ("manifests", JArray manifests)]) |}.

(** ** Dispatch *)

Definition name_unknown : ApiError := Spec NameUnknown "repository name not known to registry".

(** The match of [dispatch] on the method and the parsed path. *)
Definition route (st : AppState) (parsed : Parsed) (req : Request) : handler Response :=
  match req_method req, parsed with
  | GET, PBlob repo digest => blobs_get repo digest false (req_headers req)
  | HEAD, PBlob repo digest => blobs_get repo digest true (req_headers req)
  | (GET | HEAD) as m, PManifestRef repo reference =>
      manifests_get repo reference (bool_decide (m = HEAD)) (req_headers req)
  | GET, PTagsList repo => listing_tags st repo (tags_query req)
  | GET, PReferrers repo digest => listing_referrers st repo digest (referrers_query req)
  | GET, PUploadSession repo id => uploads_status repo id
  | POST, PUploadStart repo => uploads_start st repo (upload_query req) req
  | PUT, PUploadSession repo id => uploads_finish st repo id (upload_query req) req
  | PUT, PManifestRef repo reference => manifests_put st repo reference req
  | PATCH, PUploadSession repo id => uploads_patch st repo id req
  | DELETE, PBlob repo digest => blobs_delete st repo digest
  | DELETE, PManifestRef repo reference => manifests_delete st repo reference
  | _, _ => fail name_unknown
  end.

(** The check ahead of every storage call. *)
Definition enforce (st : AppState) (parsed : Parsed) (req : Request) : result ApiError () :=
  match auth st, required_action (req_method req) parsed with
  | Some a, Some (repo, action) => authorize a (principal req) repo action
  | _, _ => Ok tt
  end.

Definition dispatch (st : AppState) (rest : string) (req : Request) : handler Response :=
  parsed ← api (parse_path rest);
  api (enforce st parsed req);;
  route st parsed req.

(** ** Health probes *)

Definition text_response (status : Z) (body : string) : Response :=
  {| resp_status := status; resp_headers := {["content-type" := "text/plain; charset=utf-8"]}; resp_body := BText body |}.

Definition livez : Response := empty_response 200 ∅.

(** [probe] is the backend's answer within the time limit, if it came. *)
Definition readyz (recovered : bool) (probe : option (result StorageError ())) : Response :=
  if negb recovered then text_response 503 "not ready: recovery in progress"
  else match probe with
  | Some (Ok _) => text_response 200 "ok"
  | Some (Err _) => text_response 503 "not ready: storage unavailable"
  | None => text_response 503 "not ready: storage unavailable"
  end.
End Handlers.
