(* ===== verification/HandlersFacts.v ===== *)
(** What the handlers guarantee over any storage backend that keeps its
    contract: who may do what, that what is served is authentic, what a pushed
    manifest satisfies, and that pages are bounded. *)

From S2P Require Import Prelude RustStr Json Errors Names Digest HttpUtil Policy Auth Routes.
From S2P Require Import Metadata Effect StorageApi Layout Manifests Handlers.

(** ** A logic of [ensures] *)

Section Ensures.
Context {S : Type} (I : S → Prop).

Lemma ensures_ret {E A : Type} (a : A) (Q : A → S → Prop) :
  (∀ s, I s → Q a s) → ensures (E := E) I (mret a) Q.
Proof. intros HQ s Hs. split; [done|]. intros a' [= <-]. by apply HQ. Qed.

Lemma ensures_throw {E A : Type} (e : E) (Q : A → S → Prop) : ensures I (throw e) Q.
Proof. intros s Hs. split; [done|]. by intros a [=]. Qed.

Lemma ensures_of_result {E A : Type} (r : result E A) : ensures I (of_result r) (λ a _, r = Ok a).
Proof. intros s Hs. split; [done|]. by intros a Hr. Qed.

Lemma ensures_from {E A : Type} (m : M S E A) (Q : A → S → Prop) s :
  ensures I m Q → I s → I (m s).1 ∧ ∀ a, (m s).2 = Ok a → Q a (m s).1.
Proof. intros Hm. apply Hm. Qed.

Lemma ensures_bind_at {E A B : Type} (m : M S E A) (k : A → M S E B) (Q1 : A → S → Prop) (Q : B → S → Prop) :
  ensures I m Q1 →
  (∀ a s, I s → Q1 a s → I (k a s).1 ∧ ∀ b, (k a s).2 = Ok b → Q b (k a s).1) → ensures I (m ≫= k) Q.
Proof.
  intros Hm Hk s Hs. destruct (Hm s Hs) as [I1 I2]. unfold mbind, M_bind.
  destruct (m s) as [s1 [a|e]]; simpl in *; [|done]. by apply Hk; [|apply I2].
Qed.

(** What is known of a result here holds of no state in particular. *)
Lemma ensures_bind {E A B : Type} (m : M S E A) (k : A → M S E B) (φ : A → Prop) Q :
  ensures I m (λ a _, φ a) → (∀ a, φ a → ensures I (k a) Q) → ensures I (m ≫= k) Q.
Proof. intros Hm Hk. eapply ensures_bind_at; [exact Hm|]. intros a s Hs Ha. by apply Hk. Qed.

Lemma ensures_weaken {E A : Type} (m : M S E A) (Q Q' : A → S → Prop) :
  ensures I m Q → (∀ a s, I s → Q a s → Q' a s) → ensures I m Q'.
Proof. intros Hm HQ s Hs. destruct (Hm s Hs) as [I1 I2]. split; [done|]. eauto. Qed.

Lemma ensures_attempt {E E' A : Type} (m : M S E A) (Q : A → S → Prop) :
  ensures I m Q → ensures (E := E') I (attempt m) (λ r s, ∀ a, r = Ok a → Q a s).
Proof.
  intros Hm s Hs. destruct (Hm s Hs) as [I1 I2]. rewrite attempt_eq. simpl. split; [done|].
  intros r [= <-]. auto.
Qed.

Lemma ensures_mapping_err {E E' A : Type} (f : E → E') (m : M S E A) (Q : A → S → Prop) :
  ensures I m Q → ensures I (mapping_err f m) Q.
Proof.
  intros Hm s Hs. destruct (Hm s Hs) as [I1 I2]. unfold mapping_err.
  destruct (m s) as [s' [a|e]]; simpl in *; (split; [done|]); [|done]. intros a' [= <-]. auto.
Qed.

Lemma ensures_of_attempt {E E' A : Type} (m : M S E A) (Q : result E A → S → Prop) :
  ensures (E := E') I (attempt m) Q → ensures I m (λ a s, Q (Ok a) s).
Proof.
  intros Hm s Hs. destruct (Hm s Hs) as [I1 I2]. rewrite attempt_eq in I1, I2. split; [done|].
  intros a Ha. apply I2. simpl. by rewrite Ha.
Qed.

Lemma ensures_attempted {E E1 E2 A : Type} (m : M S E A) (Q : result E A → S → Prop) :
  ensures (E := E1) I (attempt m) Q → ensures (E := E2) I (attempt m) Q.
Proof.
  intros Hm s Hs. destruct (Hm s Hs) as [I1 I2]. rewrite attempt_eq in I1. rewrite attempt_eq in I2. rewrite attempt_eq.
  split; [exact I1|]. intros r [= <-]. exact (I2 _ eq_refl).
Qed.

(** A last step whose result and state are known together. *)
Lemma ensures_then {E A B : Type} (m : M S E A) (b : B) (Q : A → S → Prop) (Q' : B → S → Prop) :
  ensures I m Q → (∀ a s, I s → Q a s → Q' b s) → ensures I (m ≫= λ _, mret b) Q'.
Proof.
  intros Hm HQ. eapply ensures_bind_at; [exact Hm|]. intros a s Hs Ha. split; [done|]. intros b' [= <-]. eauto.
Qed.
End Ensures.

(** ** Authorization *)

Section Authorization.
Context `{!Crypto, !SerdeJson, !UrlEncoded, !Storage}.

(** Every request that reaches a handler needed an action. *)
Lemma route_required st parsed req :
  required_action (req_method req) parsed = None → route st parsed req = fail name_unknown.
Proof. unfold route. by destruct (req_method req), parsed. Qed.

Lemma dispatch_cases st rest req s :
  (∃ e, parse_path rest = Err e ∧ dispatch st rest req s = (s, Err (Api e))) ∨
  ∃ parsed, parse_path rest = Ok parsed ∧
    ((∃ e, enforce st parsed req = Err e ∧ dispatch st rest req s = (s, Err (Api e))) ∨
     enforce st parsed req = Ok tt ∧ dispatch st rest req s = route st parsed req s).
Proof.
  unfold dispatch, api, of_result, mbind, M_bind.
  destruct (parse_path rest) as [parsed|e]; simpl; [right; exists parsed|left; eauto].
  destruct (enforce st parsed req) as [[]|e]; simpl; eauto.
Qed.

Lemma authorize_ok a p repo act : authorize a p repo act = Ok tt → allows a p repo act = true.
Proof. unfold authorize. by destruct (allows a p repo act), p; repeat case_match. Qed.

Lemma dispatch_needs_grant st a rest req s s' r :
  auth st = Some a → dispatch st rest req s = (s', r) → s' ≠ s ∨ is_ok r = true →
  ∃ parsed repo act, parse_path rest = Ok parsed ∧ required_action (req_method req) parsed = Some (repo, act) ∧
    path_repo parsed = Some repo ∧ allows a (principal req) repo act = true.
Proof.
  intros Ha Hd Hr.
  destruct (dispatch_cases st rest req s) as [(e & _ & E)|(parsed & Hp & [(e & _ & E)|[He E]])];
    [rewrite E in Hd; simplify_eq; by destruct Hr..|].
  destruct (required_action (req_method req) parsed) as [[repo act]|] eqn:Eq.
  - exists parsed, repo, act. unfold enforce in He. rewrite Ha, Eq in He.
    split_and!; [done|done| |by apply authorize_ok].
    by destruct (req_method req), parsed; simplify_eq/=.
  - rewrite E, (route_required _ _ _ Eq) in Hd. unfold fail, throw in Hd. simplify_eq. by destruct Hr.
Qed.

(** A mount from a source the caller may not read is as if none was asked
    for. *)
Definition without_mount (q : UploadQuery) : UploadQuery := mkUploadQuery (q_digest q) None (q_from q).

Lemma start_without_source st repo q req from s :
  q_from q = Some from → source_readable st req from = false →
  uploads_start st repo q req s = uploads_start st repo (without_mount q) req s.
Proof.
  intros Hf Hs. unfold uploads_start, mbind, M_bind, try_mount. rewrite Hf, Hs. simpl.
  by destruct (q_mount q).
Qed.
End Authorization.

(** ** Integrity *)

Section Integrity.
Context `{!Crypto, !CryptoLaws, !SerdeJson, !UrlEncoded, !Storage, !StorageLaws}.

(** The limits of the interface are among the sizes the backend takes. *)
Definition limits_ok (st : AppState) : Prop := size_ok (max_upload st) ∧ size_ok (max_manifest st).

(** The content of the blob [d], or the part of it the [Range] header asks for. *)
Definition content_response (d : Digest) (headers : HeaderMap) (content : bytes) (resp : Response) : Prop :=
  match parse_byte_range headers (blen content) with
  | Full => resp_status resp = 200%Z ∧ resp_header "content-length" resp = Some (u64_to_string (blen content)) ∧
      resp_header DOCKER_CONTENT_DIGEST resp = Some (Digest_fmt d) ∧
      ∃ st, resp_body resp = BStream st ∧ received st `prefix_of` content
  | Partial start end_ => resp_status resp = 206%Z ∧
      resp_header "content-range" resp = Some ("bytes " +:+ u64_to_string start +:+ "-" +:+ u64_to_string end_
                                               +:+ "/" +:+ u64_to_string (blen content)) ∧
      resp_header "content-length" resp = Some (u64_to_string (end_ - start + 1)) ∧
      resp_header DOCKER_CONTENT_DIGEST resp = Some (Digest_fmt d) ∧
      ∃ st, resp_body resp = BStream st ∧
      (is_u64 (blen content) → (0 ≤ start ≤ end_)%Z ∧ (end_ < blen content)%Z ∧
         received st `prefix_of` slice content start (end_ - start + 1))
  | Unsatisfiable =>
      resp = empty_response 416 (<["content-range" := "bytes */" +:+ u64_to_string (blen content)]> {["accept-ranges" := "bytes"]})
  end.

(** What a response to [GET] of the blob [d] may be: nothing new, a redirect, or
    content with that digest. *)
Definition blob_response (d : Digest) (headers : HeaderMap) (resp : Response) : Prop :=
  (resp = not_modified (Digest_fmt d) CACHE_IMMUTABLE ∧ if_none_match_hit headers (Digest_fmt d) = true) ∨
  if_none_match_hit headers (Digest_fmt d) = false ∧
  ((∃ url, resp = empty_response 307 (<["location" := url]> {[DOCKER_CONTENT_DIGEST := Digest_fmt d]})) ∨
   ∃ content, digest_of content (algorithm d) = d ∧ content_response d headers content resp).

Lemma get_body_spec repo d headers :
  digest_wf d → if_none_match_hit headers (Digest_fmt d) = false →
  ensures sto_ok (get_body repo d (Digest_fmt d) headers) (λ resp _, blob_response d headers resp).
Proof.
  intros Hd Hinm. unfold get_body. eapply ensures_bind; [by apply open_blob_law|].
  intros b (content & Hc & Hb). assert (br_size b = blen content) as Hsize by apply Hb.
  destruct (redirect_url b) as [url|].
  { case_match; [|apply ensures_throw]. apply ensures_ret. intros _ _. right. split; [done|]. left. by exists url. }
  apply (ensures_weaken _ _ (λ resp _, content_response d headers content resp));
    [|intros resp _ _ Hr; right; split; [done|right; by exists content]].
  unfold content_response. rewrite Hsize. destruct (parse_byte_range headers (blen content)) as [|start end_|] eqn:Er.
  - eapply ensures_bind; [apply ensures_of_result|]. intros st Hst. apply map_err_ok in Hst.
    apply ensures_ret. intros _ _.
    split_and!; [reflexivity..|]. exists st. split; [done|].
    eapply into_stream_prefix in Hst; [|done|lia|by apply blen_nonneg]. by rewrite slice_all in Hst by lia.
  - eapply ensures_bind; [apply ensures_of_result|]. intros st Hst. apply map_err_ok in Hst.
    apply ensures_ret. intros _ _.
    split_and!; [done|reflexivity..|]. exists st. split; [done|]. intros H64.
    apply parse_byte_range_within in Er; [|done]. split_and!; [lia..|].
    eapply into_stream_prefix; [done|lia|lia|done].
  - by apply ensures_ret.
Qed.

Lemma blobs_get_spec repo d headers :
  digest_wf d → ensures sto_ok (blobs_get repo d false headers) (λ resp _, blob_response d headers resp).
Proof.
  intros Hd. unfold blobs_get. case_match eqn:E; [apply ensures_ret; intros _ _; by left|].
  apply ensures_mapping_err. by apply get_body_spec.
Qed.

(** To [HEAD] of a blob: its headers, with the size the backend knows. *)
Definition head_response (view : State) (repo : string) (d : Digest) (headers : HeaderMap) (resp : Response) : Prop :=
  (resp = not_modified (Digest_fmt d) CACHE_IMMUTABLE ∧ if_none_match_hit headers (Digest_fmt d) = true) ∨
  if_none_match_hit headers (Digest_fmt d) = false ∧
  ∃ n, blob_sized view repo d n ∧
    resp = empty_response 200 (<["content-length" := u64_to_string n]> (blob_headers (Digest_fmt d))).

Lemma blobs_head_spec repo d headers :
  digest_wf d → ensures sto_ok (blobs_get repo d true headers) (λ resp s, head_response (sto_view s repo) repo d headers resp).
Proof.
  intros Hd. unfold blobs_get. case_match eqn:E; [apply ensures_ret; intros s _; by left|].
  eapply ensures_bind_at; [by apply ensures_mapping_err, blob_size_law|].
  intros n s Hs Hn. split; [done|]. intros resp [= <-]. right. split; [done|]. by exists n.
Qed.

(** What a response to [GET] or [HEAD] of a manifest may be. *)
Definition manifest_response (view : State) (repo reference : string) (head : bool) (headers : HeaderMap)
    (resp : Response) : Prop :=
  ∃ m, manifest_found view repo reference m ∧
  let digest_str := Digest_fmt (mr_digest m) in
  if if_none_match_hit headers digest_str
  then resp = not_modified digest_str (manifest_cache_control (is_digest_ref reference))
  else resp_status resp = 200%Z ∧ resp_header DOCKER_CONTENT_DIGEST resp = Some digest_str ∧
     resp_header "content-length" resp = Some (u64_to_string (blen (mr_bytes m))) ∧
     resp_header "content-type" resp = Some (mr_media_type m) ∧
     resp_body resp = if head then BEmpty else BBytes (mr_bytes m).

Lemma manifests_get_spec repo reference head headers :
  ensures sto_ok (manifests_get repo reference head headers)
    (λ resp s, manifest_response (sto_view s repo) repo reference head headers resp).
Proof.
  unfold manifests_get. eapply ensures_bind_at; [apply ensures_mapping_err, get_manifest_law|].
  intros m s Hs Hm. unfold manifest_response. case_match eqn:E.
  - split; [done|]. intros resp [= <-]. exists m. by rewrite E.
  - unfold of_result, header_value, mbind, M_bind. destruct (header_ok (mr_media_type m)); [|by split].
    split; [done|]. intros resp [= <-]. exists m. rewrite E. split; [done|]. by split_and!.
Qed.

(** *** Pushes *)

(** The media type a manifest is sent with. *)
Definition sent_type (req : Request) : string :=
  default MEDIA_TYPE_IMAGE_MANIFEST (header_text "content-type" (req_headers req)).

Record pushed_manifest (st : AppState) (repo reference : string) (req : Request) (resp : Response) (s : sto)
    (body : bytes) (d : Digest) : Prop := {
  pushed_body : delivered (req_body req) = Some body;
  pushed_size : (blen body ≤ max_body st ∧ blen body ≤ max_manifest st)%Z;
  pushed_depth : json_depth_exceeds body MAX_JSON_DEPTH = false;
  pushed_digest : digest_wf d ∧ digest_of body (algorithm d) = d;
  pushed_reference : if is_digest_ref reference then Digest_parse reference = Ok d else d = sha256_of body;
  pushed_type : check_media_type (sent_type req) (default JNull (from_slice body)) = Ok tt;
  pushed_stored : sto_has s repo d;
  pushed_recorded : manifest_media_type (sto_view s repo) repo (Digest_fmt d) = Some (sent_type req);
  pushed_tag : is_digest_ref reference = false →
    resolve_tag (sto_view s repo) repo reference = Some (Digest_fmt d, sent_type req);
  pushed_needs r : needs (default JNull (from_slice body)) r → sto_has s repo r;
  pushed_subject subject : manifest_subject (default JNull (from_slice body)) = Some subject →
    has_referrer (sto_view s repo) repo (Digest_fmt subject) (Digest_fmt d) = true ∧
    resp_header "oci-subject" resp = Some (Digest_fmt subject);
  pushed_created : resp_status resp = 201%Z;
  pushed_location : resp_header "location" resp = Some (manifest_location repo d);
  pushed_header : resp_header DOCKER_CONTENT_DIGEST resp = Some (Digest_fmt d);
}.

Lemma content_digest_ok reference body d tag :
  content_digest reference body = Ok (d, tag) →
  digest_wf d ∧ digest_of body (algorithm d) = d ∧ (is_digest_ref reference = false → tag = Some reference) ∧
  if is_digest_ref reference then Digest_parse reference = Ok d else d = sha256_of body.
Proof.
  unfold content_digest. destruct (is_digest_ref reference).
  - intros Hc. case_res.
    match goal with H : (if ct_eq _ _ then _ else _) = _ |- _ => destruct (ct_eq _ _) eqn:E in H end; [|done].
    apply ct_eq_true in E. simplify_eq. rewrite E. split_and!; [by eapply Digest_parse_wf|done..].
  - intros [= <- <-]. change (sha256_of body) with (digest_of body "sha256").
    split_and!; [apply digest_of_wf|done|done|done].
Qed.

Lemma manifest_body_ok st req body :
  manifest_body st req = Ok body →
  delivered (req_body req) = Some body ∧ (blen body ≤ max_body st ∧ blen body ≤ max_manifest st)%Z.
Proof.
  unfold manifest_body, read_body_limited. destruct (delivered (req_body req)) as [b|]; simpl; [|by case_match].
  destruct (Z.leb_spec (blen b) (max_body st `min` max_manifest st)); [|by case_match].
  intros [= <-]. split; [done|lia].
Qed.

Lemma check_referenced_keeps repo ds :
  Forall digest_wf ds → ensures sto_ok (check_referenced repo ds) (λ _ _, True).
Proof.
  induction 1 as [|d ds Hd _ IH]; simpl; [by apply ensures_ret|].
  eapply (ensures_bind _ _ _ (λ _, True)).
  - eapply ensures_weaken; [apply ensures_attempt; by apply blob_exists_law|done].
  - intros [[]|e] _; [done|apply ensures_throw..].
Qed.

Lemma needs_wf m d : needs m d → digest_wf d.
Proof. intros (v & s & _ & Hd & _). by eapply Digest_parse_wf. Qed.

Lemma manifests_put_spec st repo reference req :
  limits_ok st →
  ensures sto_ok (manifests_put st repo reference req)
    (λ resp s, ∃ body d, pushed_manifest st repo reference req resp s body d).
Proof.
  intros [_ Hman]. unfold manifests_put. eapply ensures_bind; [apply ensures_of_result|].
  intros body [Hb Hsize]%map_err_ok%manifest_body_ok. case_match eqn:Ed; [apply ensures_throw|].
  eapply ensures_bind; [apply ensures_of_result|]. intros [d tag] (Hwf & Hd & Htag & Href)%map_err_ok%content_digest_ok.
  eapply ensures_bind; [apply ensures_of_result|]. intros [] Hmt%map_err_ok.
  eapply ensures_bind; [apply ensures_of_result|]. intros referenced Hreq%map_err_ok.
  assert (Hneeds : ∀ r, r ∈ referenced ↔ needs (default JNull (from_slice body)) r)
    by (intros r; by apply required_blobs_spec).
  eapply ensures_bind.
  { apply check_referenced_keeps. apply Forall_forall. intros r ?%Hneeds. by eapply needs_wf. }
  assert (size_ok (blen body)) by (by eapply size_ok_le, Hman; apply Hsize).
  intros ? _. eapply ensures_then; [apply ensures_mapping_err; by apply put_manifest_law|].
  intros ? s _ (Hhas & Hall & Htype & Hres & Hsubj). exists body, d. split; try done.
  - intros Hr. by apply Hres, Htag.
  - intros r Hr. apply Hall; [by apply Hneeds|by eapply needs_wf].
  - intros subject Hs. rewrite Hs in Hsubj |- *. split; [by eapply Hsubj|].
    unfold resp_header. cbn [resp_headers created]. by rewrite lookup_insert_eq.
  - by destruct (manifest_subject _).
  - destruct (manifest_subject _); [|reflexivity]. unfold resp_header. cbn [resp_headers created]. by rewrite lookup_insert_ne.
  - destruct (manifest_subject _); [|reflexivity]. unfold resp_header. cbn [resp_headers created]. by rewrite lookup_insert_ne.
Qed.

(** *** Uploads *)

(** A response that reports that the blob a digest names landed. *)
Definition reports_blob (repo digest : string) (resp : Response) (s : sto) : Prop :=
  ∃ d, Digest_parse digest = Ok d ∧ resp = created (blob_location repo d) d ∧ sto_has s repo d.

(** A response with the progress of a session. *)
Definition session_response (status : Z) (repo id : string) (n : Z) (resp : Response) : Prop :=
  resp_status resp = status ∧ resp_body resp = BEmpty ∧
  resp_header "location" resp = Some (upload_location repo id) ∧
  resp_header "range" resp = Some ("0-" +:+ u64_to_string (saturating_sub n 1)) ∧
  resp_header "docker-upload-uuid" resp = Some id.

Lemma upload_progress_ok status repo id n resp :
  upload_progress status repo id n = Ok resp → session_response status repo id n resp.
Proof.
  unfold upload_progress, upload_headers, header_value. intros Hc. repeat case_match; try (by case_res); simplify_eq/=.
Qed.

Lemma progress_response status repo id n s resp :
  (of_result (upload_progress status repo id n) s : sto * _).2 = Ok resp → session_response status repo id n resp.
Proof. apply upload_progress_ok. Qed.

(** The blob came from another repository: which the caller may read. *)
Definition mounted_blob (st : AppState) (repo : string) (q : UploadQuery) (req : Request) (resp : Response) (s : sto) : Prop :=
  ∃ mount from d, q_mount q = Some mount ∧ q_from q = Some from ∧ source_readable st req from = true ∧
    Digest_parse mount = Ok d ∧ resp = created (blob_location repo d) d ∧ (from ≠ repo → sto_has s repo d).

Lemma try_mount_spec st repo q req :
  ensures sto_ok (try_mount st repo q req)
    (λ o s, match o with Some resp => mounted_blob st repo q req resp s | None => True end).
Proof.
  unfold try_mount, mounted_blob.
  destruct (q_mount q) as [mount|]; [|by apply ensures_ret]. destruct (q_from q) as [from|]; [|by apply ensures_ret].
  destruct (source_readable _ _ _) eqn:Es; [|by apply ensures_ret].
  destruct (Digest_parse mount) as [d|] eqn:Hd; [|by apply ensures_ret].
  eapply ensures_bind_at; [apply ensures_attempt, mount_blob_law; by eapply Digest_parse_wf|].
  intros [[]|e] s Hs HQ; (split; [done|]); intros o [= <-]; [|done..].
  exists mount, from, d. split_and!; [done..|]. by apply (HQ true).
Qed.

(** To the start of an upload: a blob was mounted, the blob of a digest given
    with its content landed, or a session was begun. *)
Definition started (st : AppState) (repo : string) (q : UploadQuery) (req : Request) (resp : Response) (s : sto) : Prop :=
  mounted_blob st repo q req resp s ∨
  match q_digest q with
  | Some digest => reports_blob repo digest resp s
  | None => ∃ id, id ≠ "" ∧ contains_char "/" id = false ∧ sto_upload s repo id 0 ∧ session_response 202 repo id 0 resp
  end.

Lemma append_keeps repo id body off limit :
  id_ok id → ensures sto_ok (s_append_upload repo id body off limit) (λ _ _, True).
Proof. intros Hid. eapply ensures_weaken; [by eapply ensures_of_attempt, append_upload_law|done]. Qed.

Lemma uploads_start_spec st repo q req :
  limits_ok st → ensures sto_ok (uploads_start st repo q req) (started st repo q req).
Proof.
  intros [Hup _]. unfold uploads_start. eapply ensures_bind_at; [by apply try_mount_spec|].
  intros [resp|] s Hs Hr; [split; [done|]; intros ? [= <-]; by left|].
  apply (ensures_from _ _ (started st repo q req)); [|done]. clear s Hs Hr. unfold started.
  destruct (q_digest q) as [digest|].
  - eapply ensures_bind; [apply ensures_of_result|]. intros d Hd%map_err_ok%map_err_ok.
    pose proof (Digest_parse_wf _ _ Hd).
    eapply (ensures_bind _ _ _ id_ok); [eapply ensures_weaken; [apply ensures_mapping_err, begin_upload_law|naive_solver]|].
    intros id Hid. eapply ensures_bind_at.
    + apply ensures_attempt. eapply (ensures_bind _ _ _ (λ _, True)); [by apply append_keeps|].
      intros ? _. by apply finish_upload_law.
    + intros [u|e] s Hs HQ.
      * split; [done|]. intros b [= <-]. right. exists d. split_and!; [done..|]. by apply (HQ u).
      * apply (ensures_from _ _ (λ resp s, mounted_blob st repo q req resp s ∨ reports_blob repo digest resp s)); [|done].
        eapply (ensures_bind _ _ _ (λ _, True)); [|intros; apply ensures_throw].
        eapply ensures_weaken; [apply ensures_attempt, abort_upload_law|done].
  - eapply ensures_bind_at; [apply ensures_mapping_err, begin_upload_law|].
    intros id s Hs (_ & (Hne & Hsl & _) & Hu). split; [done|]. intros resp Hr%progress_response. right. by exists id.
Qed.

Lemma uploads_finish_spec st repo id q req :
  limits_ok st → id_ok id →
  ensures sto_ok (uploads_finish st repo id q req) (λ resp s, ∃ digest, q_digest q = Some digest ∧ reports_blob repo digest resp s).
Proof.
  intros [Hup _] Hid. unfold uploads_finish. eapply ensures_bind; [apply ensures_of_result|]. intros digest Hq.
  eapply ensures_bind; [apply ensures_of_result|]. intros d Hd%map_err_ok%map_err_ok.
  eapply ensures_then; [apply ensures_mapping_err, finish_upload_law; [done|by eapply Digest_parse_wf|done]|].
  intros ? s _ Hs. exists digest. split; [|by exists d]. destruct (q_digest q); simpl in Hq; by simplify_eq.
Qed.

(** To a chunk: all of it was taken, within the limit and where the client said
    it goes, or the client was told where the session is. *)
Definition chunk_response (st : AppState) (repo id : string) (req : Request) (resp : Response) (s : sto) : Prop :=
  (∃ n b, sto_upload s repo id n ∧ (n ≤ max_upload st)%Z ∧ delivered (req_body req) = Some b ∧ (blen b ≤ n)%Z ∧
     (∀ o, range_start (req_headers req) = Some o → n = (o + blen b)%Z) ∧ session_response 202 repo id n resp) ∨
  (∃ expected given, sto_upload s repo id expected ∧ range_start (req_headers req) = Some given ∧ given ≠ expected ∧
     resp_status resp = 416%Z ∧ resp_body resp = BEmpty ∧
     resp_header "location" resp = Some (upload_location repo id) ∧
     resp_header "range" resp = Some ("0-" +:+ u64_to_string (saturating_sub expected 1))).

Lemma uploads_patch_spec st repo id req :
  id_ok id → ensures sto_ok (uploads_patch st repo id req) (chunk_response st repo id req).
Proof.
  intros Hid. unfold uploads_patch. eapply ensures_bind_at; [by eapply ensures_attempted, append_upload_law|].
  intros [total|e] s Hs Ha.
  - destruct Ha as (Hu & b & Hb & Hle & Ho). case_match eqn:Em.
    + apply (ensures_from _ _ (chunk_response st repo id req)); [|done].
      eapply (ensures_bind _ _ _ (λ _, True)); [|intros; apply ensures_throw].
      eapply ensures_weaken; [apply ensures_attempt, abort_upload_law|done].
    + split; [done|]. intros resp Hr%progress_response. left. exists total, b. bool_simp. split_and!; [done..|lia|done|lia|done|done].
  - destruct e; try (by split). destruct Ha as (Hu & Ho & Hne).
    unfold mbind, M_bind, of_result, upload_headers, header_value. repeat case_match; simplify_eq/=; try (by split).
    all: split; [done|]; intros resp [= <-]; right; do 2 eexists; by split_and!.
Qed.

Lemma uploads_status_spec repo id :
  ensures sto_ok (uploads_status repo id) (λ resp s, ∃ n, sto_upload s repo id n ∧ session_response 204 repo id n resp).
Proof.
  unfold uploads_status. eapply ensures_bind_at; [apply ensures_mapping_err, upload_size_law|].
  intros n s Hs Hn. split; [done|]. intros resp Hr%progress_response. by exists n.
Qed.

(** *** Listings *)

(** The [Link] to the next page, when there is one that can stand in a header. *)
Definition next_link {A} (page : Page A) (limit : Z) (p : string) (query : list (string * string)) : option string :=
  if more page && (0 <? limit)%Z then
    let v := "<" +:+ p +:+ "?" +:+ url_encode query +:+ ">; rel=" +:+ quote +:+ "next" +:+ quote in
    if header_ok v then Some v else None
  else None.

Lemma next_link_header {A} (page : Page A) limit p query (h : gmap string string) :
  h !! "link" = None →
  (if more page && (0 <? limit)%Z then insert_next_link h p query else h) !! "link" = next_link page limit p query.
Proof.
  intros Hh. unfold next_link, insert_next_link. destruct (more page && (0 <? limit)%Z); [|done].
  case_match; [by rewrite lookup_insert_eq|done].
Qed.

Lemma insert_next_link_ne h p query k : k ≠ "link" → insert_next_link h p query !! k = h !! k.
Proof. intros Hk. unfold insert_next_link. case_match; [by apply lookup_insert_ne|done]. Qed.

(** A page of at most as many tags as asked for, which is the page of the
    metadata when that knows tags of the repository. *)
Definition tags_response (view : State) (repo : string) (limit : Z) (q : TagsQuery) (resp : Response) : Prop :=
  ∃ page, length (items page) ≤ Z.to_nat limit ∧
    (∀ p, tags_page view repo (t_last q) (Z.to_nat limit) = Some p → page = p) ∧
    resp_status resp = 200%Z ∧
    resp_body resp = BJson (jobject [("name", JString repo); ("tags", JArray (JString <$> items page))]) ∧
    resp_header "link" resp = next_link page limit ("/v2/" +:+ repo +:+ "/tags/list")
      [("n", u64_to_string limit); ("last", default "" (last (items page)))].

(** A page of the referrers of a subject likewise; descriptors that are no JSON
    are left out. A failing backend has an empty page. *)
Definition referrers_response (view : State) (repo : string) (subject : Digest) (limit : Z) (q : ReferrersQuery)
    (resp : Response) : Prop :=
  ∃ page, length (items page) ≤ Z.to_nat limit ∧
    (∀ p, referrers_page view repo (Digest_fmt subject) (r_artifact_type q) (r_last q) (Z.to_nat limit) = Some p →
       page = p ∨ page = mkPage [] false) ∧
    resp_status resp = 200%Z ∧
    resp_body resp = BJson (jobject [("schemaVersion", JNumber (PosInt 2));
                                     ("mediaType", JString MEDIA_TYPE_IMAGE_INDEX);
                                     ("manifests", JArray (omap (λ i, from_slice i.2) (items page)))]) ∧
    resp_header "oci-filters-applied" resp = (λ _, "artifactType") <$> r_artifact_type q ∧
    resp_header "link" resp = next_link page limit ("/v2/" +:+ repo +:+ "/referrers/" +:+ Digest_fmt subject)
      ([("n", u64_to_string limit); ("last", default "" (fst <$> last (items page)))]
       ++ match r_artifact_type q with Some f => [("artifactType", f)] | None => [] end).

Lemma listing_tags_spec st repo q :
  ensures sto_ok (listing_tags st repo q)
    (λ resp s, tags_response (sto_view s repo) repo (page_limit (t_n q) (max_page st)) q resp).
Proof.
  unfold listing_tags. eapply ensures_bind_at; [apply ensures_mapping_err, list_tags_law|].
  intros page s Hs [Hle Hp]. split; [done|]. intros resp [= <-]. exists page. split_and!; [done..|].
  by apply next_link_header.
Qed.

Lemma listing_referrers_spec st repo d q :
  digest_wf d →
  ensures sto_ok (listing_referrers st repo d q)
    (λ resp s, referrers_response (sto_view s repo) repo d (page_limit (r_n q) (max_page st)) q resp).
Proof.
  intros Hd. unfold listing_referrers. eapply ensures_bind_at; [apply ensures_attempt, list_referrers_law, Hd|].
  intros r s Hs Hr. split; [done|]. intros resp [= <-].
  exists (match r with Ok p => p | Err _ => mkPage [] false end). split_and!.
  - destruct r as [p|e]; simpl; [by apply Hr|lia].
  - destruct r as [p|e]; [|by right]. intros q' Hq. left. by apply (Hr p).
  - done.
  - done.
  - unfold resp_header. simpl. destruct (r_artifact_type q); case_match; rewrite ?insert_next_link_ne by done; done.
  - unfold resp_header. simpl. apply next_link_header. by destruct (r_artifact_type q).
Qed.

(** *** Deletions *)

Lemma blobs_delete_spec st repo d :
  digest_wf d → ensures sto_ok (blobs_delete st repo d)
    (λ resp s, can_delete st = true ∧ resp = empty_response 202 ∅ ∧ ¬ sto_has s repo d).
Proof.
  intros Hd. unfold blobs_delete. destruct (can_delete st); [|apply ensures_throw].
  eapply ensures_then; [by apply ensures_mapping_err, delete_blob_law|done].
Qed.

(** The manifest of the digest, or the one the tag was served with before, is
    gone, and so are its tags. *)
Definition deleted_manifest (st : AppState) (repo reference : string) (resp : Response) (s s' : sto) : Prop :=
  can_delete st = true ∧ resp = empty_response 202 ∅ ∧
  ∃ d, (if is_digest_ref reference then Digest_parse reference = Ok d
        else ∃ m, (s_get_manifest repo reference s).2 = Ok m ∧ d = mr_digest m) ∧
    ¬ sto_has s' repo d ∧ manifest_media_type (sto_view s' repo) repo (Digest_fmt d) = None ∧
    ∀ t mt, resolve_tag (sto_view s' repo) repo t ≠ Some (Digest_fmt d, mt).

Lemma manifests_delete_spec st repo reference s :
  sto_ok s →
  sto_ok (manifests_delete st repo reference s).1 ∧
  ∀ resp, (manifests_delete st repo reference s).2 = Ok resp →
    deleted_manifest st repo reference resp s (manifests_delete st repo reference s).1.
Proof.
  intros Hs. unfold manifests_delete, deleted_manifest. destruct (can_delete st); simpl; [|by split].
  assert (Hdel : ∀ d s1, digest_wf d → sto_ok s1 →
    let m := (call (not_found_as manifest_unknown) (s_delete_manifest repo d);; mret (empty_response 202 ∅)) s1 in
    sto_ok m.1 ∧ ∀ resp, m.2 = Ok resp → resp = empty_response 202 ∅ ∧ ¬ sto_has m.1 repo d ∧
      manifest_media_type (sto_view m.1 repo) repo (Digest_fmt d) = None ∧
      ∀ t mt, resolve_tag (sto_view m.1 repo) repo t ≠ Some (Digest_fmt d, mt)).
  { intros d s1 Hd Hs1.
    refine (ensures_then sto_ok (call (not_found_as manifest_unknown) (s_delete_manifest repo d)) (empty_response 202 ∅)
      _ (λ resp s, resp = empty_response 202 ∅ ∧ ¬ sto_has s repo d ∧
      manifest_media_type (sto_view s repo) repo (Digest_fmt d) = None ∧
      ∀ t mt, resolve_tag (sto_view s repo) repo t ≠ Some (Digest_fmt d, mt)) _ _ s1 Hs1);
      [by apply ensures_mapping_err, delete_manifest_law|done]. }
  destruct (is_digest_ref reference) eqn:Er.
  - unfold mbind at 1 2 3 4 5, M_bind at 1 2 3 4 5. unfold api, of_result.
    destruct (Digest_parse reference) as [d|e] eqn:Hd; simpl; [|by split].
    destruct (Hdel d s (Digest_parse_wf _ _ Hd) Hs) as [I1 I2]. split; [done|]. intros resp Hr.
    destruct (I2 resp Hr) as (? & ? & ? & ?). split_and!; [done..|]. by exists d.
  - destruct (get_manifest_law repo reference s Hs) as [J1 J2]. unfold mbind, M_bind, call, mapping_err in *.
    destruct (s_get_manifest repo reference s) as [s1 [m|e]]; simpl in *; [|by split].
    destruct (J2 m eq_refl) as [Hwf _]. destruct (Hdel (mr_digest m) s1 Hwf J1) as [I1 I2]. split; [done|]. intros resp Hr.
    destruct (I2 resp Hr) as (? & ? & ? & ?). split_and!; [done..|]. exists (mr_digest m). split_and!; eauto.
Qed.

(** ** The contract of the interface

    What a response promises, by method and end-point: from the state before the
    request and the one after it. *)
Definition answers (st : AppState) (parsed : Parsed) (req : Request) (resp : Response) (s s' : sto) : Prop :=
  match req_method req, parsed with
  | GET, PBlob _ d => blob_response d (req_headers req) resp
  | HEAD, PBlob repo d => head_response (sto_view s' repo) repo d (req_headers req) resp
  | (GET | HEAD) as m, PManifestRef repo reference =>
      manifest_response (sto_view s' repo) repo reference (bool_decide (m = HEAD)) (req_headers req) resp
  | GET, PTagsList repo =>
      tags_response (sto_view s' repo) repo (page_limit (t_n (tags_query req)) (max_page st)) (tags_query req) resp
  | GET, PReferrers repo d =>
      referrers_response (sto_view s' repo) repo d (page_limit (r_n (referrers_query req)) (max_page st)) (referrers_query req) resp
  | GET, PUploadSession repo id => ∃ n, sto_upload s' repo id n ∧ session_response 204 repo id n resp
  | POST, PUploadStart repo => started st repo (upload_query req) req resp s'
  | PUT, PUploadSession repo _ => ∃ digest, q_digest (upload_query req) = Some digest ∧ reports_blob repo digest resp s'
  | PUT, PManifestRef repo reference => ∃ body d, pushed_manifest st repo reference req resp s' body d
  | PATCH, PUploadSession repo id => chunk_response st repo id req resp s'
  | DELETE, PBlob repo d => can_delete st = true ∧ resp = empty_response 202 ∅ ∧ ¬ sto_has s' repo d
  | DELETE, PManifestRef repo reference => deleted_manifest st repo reference resp s s'
  | _, _ => False
  end.

(** The session ids for which the backend gives its promise. *)
Definition session_ok (parsed : Parsed) : Prop :=
  match parsed with PUploadSession _ id => id_ok id | _ => True end.

(** A program keeps the backend's invariant, and its response is an answer. *)
Definition answering (st : AppState) (parsed : Parsed) (req : Request) (m : M sto Failure Response) : Prop :=
  ∀ s, sto_ok s → sto_ok (m s).1 ∧ ∀ resp, (m s).2 = Ok resp → answers st parsed req resp s (m s).1.

Lemma route_answers st parsed req :
  limits_ok st → parsed_ok parsed → session_ok parsed → answering st parsed req (route st parsed req).
Proof.
  intros Hst Hp Hid s. unfold route, answers.
  destruct (req_method req), parsed; simpl in Hp, Hid; destruct_and?; try (by split); revert s.
  - by apply blobs_get_spec.
  - by apply manifests_get_spec.
  - by apply uploads_status_spec.
  - by apply listing_tags_spec.
  - by apply listing_referrers_spec.
  - by apply blobs_head_spec.
  - by apply manifests_get_spec.
  - by apply uploads_start_spec.
  - by apply manifests_put_spec.
  - by apply uploads_finish_spec.
  - by apply uploads_patch_spec.
  - by apply blobs_delete_spec.
  - by apply manifests_delete_spec.
Qed.

Lemma dispatch_ensures st rest req parsed :
  limits_ok st → parse_path rest = Ok parsed → session_ok parsed →
  answering st parsed req (dispatch st rest req).
Proof.
  intros Hst Hp Hid s Hs.
  destruct (dispatch_cases st rest req s) as [(e & E & _)|(parsed' & Hp' & [(e & _ & E)|[He E]])]; [congruence|..].
  - rewrite E. by split.
  - rewrite E. assert (parsed' = parsed) as -> by congruence.
    apply route_answers; [done|by eapply parse_path_ok|done|done].
Qed.

(** ** Panics *)

Definition no_panic {A : Type} (m : M sto Failure A) : Prop := ∀ s, sto_ok s → (m s).2 ≠ Err Panic.

Lemma no_panic_bind {A B : Type} (m : M sto Failure A) (k : A → M sto Failure B) (φ : A → Prop) :
  no_panic m → ensures sto_ok m (λ a _, φ a) → (∀ a, φ a → no_panic (k a)) → no_panic (m ≫= k).
Proof.
  intros Hn He Hk s Hs. specialize (Hn s Hs). destruct (He s Hs) as [I1 I2]. unfold mbind, M_bind.
  destruct (m s) as [s1 [a|e]]; simpl in *; [|congruence]. by apply Hk; [apply I2|].
Qed.

Lemma no_panic_ret {A : Type} (a : A) : no_panic (mret a).
Proof. by intros s _. Qed.
Lemma no_panic_fail {A : Type} e : no_panic (fail (A := A) e).
Proof. by intros s _. Qed.
Lemma no_panic_api {A : Type} (r : result ApiError A) : no_panic (api r).
Proof. intros s _. unfold api, of_result. by destruct r. Qed.
Lemma no_panic_call {A : Type} f (m : M sto StorageError A) : no_panic (call f m).
Proof. intros s _. unfold call, mapping_err. destruct (m s) as [s' [a|e]]; by simpl. Qed.
Lemma no_panic_attempt {E A : Type} (m : M sto E A) : no_panic (attempt m).
Proof. intros s _. by rewrite attempt_eq. Qed.

Lemma header_ok_app a b : header_ok (a +:+ b) = header_ok a && header_ok b.
Proof. unfold header_ok. rewrite !string_forallb_bytes, as_bytes_app. apply forallb_app. Qed.

Lemma header_ok_digits n : header_ok (u64_to_string n) = true.
Proof.
  unfold header_ok. rewrite string_forallb_bytes. apply forallb_Forall_bool, Forall_forall. intros b Hb.
  apply u64_to_string_digit in Hb. unfold header_byte_ok, is_ascii_digit in *. bool_simp.
  rewrite (proj2 (Z.leb_le 32 (u8 b))) by lia. rewrite (proj2 (Z.eqb_neq (u8 b) 127)) by lia. done.
Qed.

Lemma header_ok_repo repo : repository_name repo → header_ok repo = true.
Proof.
  intros [_ Hc]. rewrite <-(join_split "/" repo). induction (split "/" repo) as [|c l IH]; [done|].
  apply Forall_cons_1 in Hc as [Hc Hl]. assert (Hh : header_ok c = true).
  { unfold header_ok. rewrite string_forallb_bytes. apply forallb_Forall_bool, Forall_forall. intros b Hb.
    apply (component_byte _ _ Hc) in Hb. destruct b as [[] [] [] [] [] [] [] []]; first [reflexivity|by destruct Hb]. }
  destruct l as [|c' l]; [done|]. rewrite join_cons_ne by done. rewrite !header_ok_app, Hh, IH by done. done.
Qed.

Lemma upload_headers_ok repo id n :
  repository_name repo → header_ok id = true → ∃ h, upload_headers repo id n = Ok h.
Proof.
  intros Hr Hid. unfold upload_headers, header_value, upload_location.
  rewrite !header_ok_app, header_ok_digits, Hid, (header_ok_repo _ Hr). simpl. eauto.
Qed.

Lemma no_panic_progress status repo id n :
  repository_name repo → header_ok id = true → no_panic (of_result (upload_progress status repo id n)).
Proof.
  intros Hr Hid s _. unfold of_result, upload_progress, header_value. simpl.
  destruct (upload_headers_ok repo id n Hr Hid) as [h ->]. simpl. by rewrite Hid.
Qed.

Lemma no_panic_start st repo q req :
  limits_ok st → repository_name repo → no_panic (uploads_start st repo q req).
Proof.
  intros [Hup _] Hr. unfold uploads_start. eapply (no_panic_bind _ _ (λ _, True)).
  - unfold try_mount. destruct (q_mount q) as [mount|], (q_from q); try apply no_panic_ret.
    destruct (source_readable _ _ _), (Digest_parse mount) as [d|] eqn:Hd; try apply no_panic_ret.
    eapply (no_panic_bind _ _ (λ _, True)); [apply no_panic_attempt| |intros; apply no_panic_ret].
    eapply ensures_weaken; [eapply ensures_attempt, mount_blob_law; by eapply Digest_parse_wf|done].
  - eapply ensures_weaken; [apply try_mount_spec|done].
  - intros [resp|] _; [apply no_panic_ret|]. destruct (q_digest q) as [digest|].
    + eapply no_panic_bind; [apply no_panic_api|apply ensures_of_result|].
      intros d Hd%map_err_ok%map_err_ok%Digest_parse_wf.
      eapply (no_panic_bind _ _ id_ok);
        [apply no_panic_call|eapply ensures_weaken; [apply ensures_mapping_err, begin_upload_law|naive_solver]|]. intros id Hid.
      eapply (no_panic_bind _ _ (λ _, True)); [apply no_panic_attempt| |].
      * eapply ensures_weaken; [eapply ensures_attempt, (ensures_bind _ _ _ (λ _, True)); [by apply append_keeps|]|done].
        intros ? _. by apply finish_upload_law.
      * intros [u|e] _; [apply no_panic_ret|].
        eapply (no_panic_bind _ _ (λ _, True)); [apply no_panic_attempt| |intros; apply no_panic_fail].
        eapply ensures_weaken; [apply ensures_attempt, abort_upload_law|done].
    + eapply (no_panic_bind _ _ (λ id, header_ok id = true));
        [apply no_panic_call|eapply ensures_weaken; [apply ensures_mapping_err, begin_upload_law|naive_solver]|].
      intros id Hid. by apply no_panic_progress.
Qed.

Lemma no_panic_patch st repo id req :
  repository_name repo → id_ok id → header_ok id = true → no_panic (uploads_patch st repo id req).
Proof.
  intros Hr Hid Hh. unfold uploads_patch.
  eapply (no_panic_bind _ _ (λ _, True)); [apply no_panic_attempt| |].
  { eapply ensures_weaken; [by eapply ensures_attempted, append_upload_law|done]. }
  intros [total|e] _.
  - case_match; [|by apply no_panic_progress].
    eapply (no_panic_bind _ _ (λ _, True)); [apply no_panic_attempt| |intros; apply no_panic_fail].
    eapply ensures_weaken; [apply ensures_attempt, abort_upload_law|done].
  - destruct e; try apply no_panic_fail.
    eapply (no_panic_bind _ _ (λ _, True)); [|eapply ensures_weaken; [apply ensures_of_result|done]|intros; apply no_panic_ret].
    intros s _. unfold of_result. simpl. by destruct (upload_headers_ok repo id expected) as [h ->].
Qed.

Lemma no_panic_put st repo reference req : limits_ok st → no_panic (manifests_put st repo reference req).
Proof.
  intros [_ Hman]. unfold manifests_put. eapply no_panic_bind; [apply no_panic_api|apply ensures_of_result|].
  intros body [_ Hsize]%map_err_ok%manifest_body_ok.
  assert (size_ok (blen body)) by (by eapply size_ok_le, Hman; apply Hsize).
  case_match; [apply no_panic_fail|].
  eapply no_panic_bind; [apply no_panic_api|apply ensures_of_result|].
  intros [d tag] (Hwf & _)%map_err_ok%content_digest_ok.
  eapply no_panic_bind; [apply no_panic_api|apply ensures_of_result|]. intros ? _.
  eapply no_panic_bind; [apply no_panic_api|apply ensures_of_result|]. intros ds Hds%map_err_ok.
  assert (Forall digest_wf ds) as Hwfs
    by (apply Forall_forall; intros r Hr; by eapply needs_wf, required_blobs_spec).
  eapply no_panic_bind; [|by apply check_referenced_keeps|].
  - clear Hds. induction Hwfs as [|x ds Hx _ IH]; simpl; [apply no_panic_ret|].
    eapply (no_panic_bind _ _ (λ _, True)); [apply no_panic_attempt| |].
    + eapply ensures_weaken; [by apply ensures_attempt, blob_exists_law|done].
    + intros [[]|e] _; [done|apply no_panic_fail..].
  - intros ? _. eapply (no_panic_bind _ _ (λ _, True)); [apply no_panic_call| |intros; apply no_panic_ret].
    apply ensures_mapping_err. eapply ensures_weaken; [by apply put_manifest_law|done].
Qed.

(** Reading a manifest panics only on a media type that is no header value. *)
Lemma panic_get repo reference head headers s :
  sto_ok s → (manifests_get repo reference head headers s).2 = Err Panic →
  ∃ m, (s_get_manifest repo reference s).2 = Ok m ∧ header_ok (mr_media_type m) = false.
Proof.
  intros _. unfold manifests_get, mbind, M_bind, call, mapping_err, of_result, header_value.
  destruct (s_get_manifest repo reference s) as [s' [m|e]]; [|done]. simpl.
  case_match; [done|]. destruct (header_ok (mr_media_type m)) eqn:E; [done|eauto].
Qed.

(** A session id that can stand in a header. *)
Definition session_header (parsed : Parsed) : Prop :=
  match parsed with PUploadSession _ id => header_ok id = true | _ => True end.

Lemma no_panic_route st parsed req :
  limits_ok st → parsed_ok parsed → session_ok parsed → session_header parsed →
  (∀ repo reference, parsed = PManifestRef repo reference → req_method req ≠ GET ∧ req_method req ≠ HEAD) →
  no_panic (route st parsed req).
Proof.
  intros Hst Hp Hid Hh Hm. unfold route.
  assert (Hblob : ∀ repo d head, digest_wf d → no_panic (blobs_get repo d head (req_headers req))).
  { intros repo d head Hd. unfold blobs_get. case_match; [apply no_panic_ret|]. case_match; [|apply no_panic_call].
    eapply (no_panic_bind _ _ (λ _, True)); [apply no_panic_call| |intros; apply no_panic_ret].
    eapply ensures_weaken; [by apply ensures_mapping_err, blob_size_law|done]. }
  destruct (req_method req), parsed; simpl in Hp, Hid, Hh; destruct_and?; try apply no_panic_fail;
    try (by destruct (Hm _ _ eq_refl)); try (by apply Hblob).
  - eapply (no_panic_bind _ _ (λ _, True));
      [apply no_panic_call|eapply ensures_weaken; [apply ensures_mapping_err, upload_size_law|done]|].
    intros n _. by apply no_panic_progress.
  - eapply (no_panic_bind _ _ (λ _, True)); [apply no_panic_call| |intros; apply no_panic_ret].
    eapply ensures_weaken; [apply ensures_mapping_err, list_tags_law|done].
  - eapply (no_panic_bind _ _ (λ _, True)); [apply no_panic_attempt| |intros; apply no_panic_ret].
    eapply ensures_weaken; [by apply ensures_attempt, list_referrers_law|done].
  - by apply no_panic_start.
  - by apply no_panic_put.
  - unfold uploads_finish. eapply no_panic_bind; [apply no_panic_api|apply ensures_of_result|]. intros t _.
    eapply no_panic_bind; [apply no_panic_api|apply ensures_of_result|]. intros d Hd%map_err_ok%map_err_ok%Digest_parse_wf.
    eapply (no_panic_bind _ _ (λ _, True)); [apply no_panic_call| |intros; apply no_panic_ret].
    eapply ensures_weaken; [apply ensures_mapping_err, finish_upload_law; [done..|apply Hst]|done].
  - by apply no_panic_patch.
  - unfold blobs_delete. case_match; [apply no_panic_fail|].
    eapply (no_panic_bind _ _ (λ _, True)); [apply no_panic_call| |intros; apply no_panic_ret].
    eapply ensures_weaken; [by apply ensures_mapping_err, delete_blob_law|done].
  - unfold manifests_delete. case_match; [apply no_panic_fail|].
    eapply (no_panic_bind _ _ digest_wf).
    + case_match; [apply no_panic_api|].
      eapply (no_panic_bind _ _ (λ _, True)); [apply no_panic_call| |intros; apply no_panic_ret].
      eapply ensures_weaken; [apply ensures_mapping_err, get_manifest_law|done].
    + case_match.
      * eapply ensures_weaken; [apply ensures_of_result|]. intros d s _ Hd%map_err_ok%map_err_ok. by eapply Digest_parse_wf.
      * eapply ensures_bind_at; [apply ensures_mapping_err, get_manifest_law|].
        intros m s Hs [Hd _]. split; [done|]. by intros ? [= <-].
    + intros d Hd. eapply (no_panic_bind _ _ (λ _, True)); [apply no_panic_call| |intros; apply no_panic_ret].
      eapply ensures_weaken; [by apply ensures_mapping_err, delete_manifest_law|done].
Qed.
End Integrity.
