(* ===== verification/Lifecycle.v ===== *)
(** The bookkeeping of blobs: the garbage collector's tracker and the rebuilding
    of back references at startup (roci-storage/src/gc.rs), the dedupe index
    (roci-storage/src/dedupe.rs) and what happens when a blob enters or leaves a
    repository (roci-storage/src/lifecycle.rs).

    The tracker's fence (a read-write lock that want-paths share and sweeps
    hold alone) makes the operations below atomic with respect to a sweep. *)

From S2P Require Import Prelude RustStr Json Errors Digest Metadata Quota MetaLog MetaStore Layout.

(** ** The tracker (gc.rs) *)

Abbreviation BlobKey := (string * string)%type.

Record GcTracker := mkGc {
  gc_enabled : bool;
  gc_delay : Z;
  candidates : gmap BlobKey Z;
  gc_ready : bool;
  roots : gset BlobKey;
  unsafe_repos : gset string;
}.

Definition gc_new (enabled : bool) (delay : Z) : GcTracker := mkGc enabled delay ∅ false ∅ ∅.
Definition gc_disabled : GcTracker := gc_new false 0.

Definition set_candidates (c : gmap BlobKey Z) (g : GcTracker) : GcTracker :=
  mkGc (gc_enabled g) (gc_delay g) c (gc_ready g) (roots g) (unsafe_repos g).

Definition mark_at (g : GcTracker) (repo digest : string) (at_ : Z) : GcTracker :=
  if gc_enabled g then set_candidates (<[(repo, digest) := at_]> (candidates g)) g else g.

(** [mark]: stamped with the present instant. *)
Definition mark (g : GcTracker) (repo digest : string) (now : Z) : GcTracker := mark_at g repo digest now.

Definition touch (g : GcTracker) (repo digest : string) (now : Z) : GcTracker :=
  if gc_enabled g then
    match candidates g !! (repo, digest) with
    | Some _ => set_candidates (<[(repo, digest) := now]> (candidates g)) g
    | None => g
    end
  else g.

Definition gc_clear (g : GcTracker) (repo digest : string) : GcTracker :=
  if gc_enabled g then set_candidates (delete (repo, digest) (candidates g)) g else g.

(** [now.saturating_duration_since(t) >= delay] *)
Definition elapsed (g : GcTracker) (now t : Z) : bool := (gc_delay g <=? saturating_sub now t)%Z.

Definition due (g : GcTracker) (now : Z) : list BlobKey :=
  (filter (λ p, elapsed g now p.2 = true) (map_to_list (candidates g))).*1.

Definition is_due (g : GcTracker) (repo digest : string) (now : Z) : bool :=
  match candidates g !! (repo, digest) with Some t => elapsed g now t | None => false end.

Definition set_ready (g : GcTracker) : GcTracker :=
  mkGc (gc_enabled g) (gc_delay g) (candidates g) true (roots g) (unsafe_repos g).

Definition is_ready (g : GcTracker) : bool := gc_enabled g && gc_ready g.

Definition add_root (g : GcTracker) (repo digest : string) : GcTracker :=
  if gc_enabled g
  then mkGc (gc_enabled g) (gc_delay g) (candidates g) (gc_ready g) ({[(repo, digest)]} ∪ roots g) (unsafe_repos g)
  else g.

Definition is_root (g : GcTracker) (repo digest : string) : bool := bool_decide ((repo, digest) ∈ roots g).

Definition mark_unsafe (g : GcTracker) (repo : string) : GcTracker :=
  if gc_enabled g
  then mkGc (gc_enabled g) (gc_delay g) (candidates g) (gc_ready g) (roots g) ({[repo]} ∪ unsafe_repos g)
  else g.

Definition is_unsafe (g : GcTracker) (repo : string) : bool := bool_decide (repo ∈ unsafe_repos g).

Definition candidate_keys (g : GcTracker) : list BlobKey := (map_to_list (candidates g)).*1.
Definition root_keys (g : GcTracker) : list BlobKey := elements (roots g).
Definition unsafe_repo_names (g : GcTracker) : list string := elements (unsafe_repos g).

(** ** The dedupe index (dedupe.rs) *)

Record DedupeIndex := mkDedupe { dd_enabled : bool; by_digest_repo : gmap string string }.

Definition dedupe_new (enabled : bool) : DedupeIndex := mkDedupe enabled ∅.

Definition dedupe_insert (x : DedupeIndex) (repo digest : string) : DedupeIndex :=
  if negb (dd_enabled x) then x else
  match by_digest_repo x !! digest with
  | Some _ => x
  | None => mkDedupe (dd_enabled x) (<[digest := repo]> (by_digest_repo x))
  end.

Definition dedupe_remove (x : DedupeIndex) (repo digest : string) : DedupeIndex :=
  if decide (by_digest_repo x !! digest = Some repo)
  then mkDedupe (dd_enabled x) (delete digest (by_digest_repo x))
  else x.

Definition locate (x : DedupeIndex) (digest repo : string) : option string :=
  if negb (dd_enabled x) then None else
  match by_digest_repo x !! digest with
  | Some r => if decide (r ≠ repo) then Some r else None
  | None => None
  end.

Definition dedupe_entries (x : DedupeIndex) : list (string * string) := map_to_list (by_digest_repo x).

Section Lifecycle.
Context `{SerdeJson, MetadataStore}.

(** ** Rebuilding back references (gc.rs) *)

Definition MAX_ROOT_MANIFEST_BYTES : Z := 4 * 1024 * 1024.

(** [if all_roots.insert(cd) { to_visit.push(cd) }] over the children. *)
Fixpoint push_children (children : list json) (all stack : list string) : list string * list string :=
  match children with
  | [] => (all, stack)
  | c :: children =>
      match descriptor_digest c with
      | Some cd =>
          if decide (cd ∈ all) then push_children children all stack
          else push_children children (cd :: all) (cd :: stack)
      | None => push_children children all stack
      end
  end.

(** The references of a manifest that lack the edge to it. *)
Definition missing_edges (m : mstore) (repo digest : string) (manifest : json) : list string :=
  filter (λ blob, digest ∉ get_backrefs (mview m) repo blob) (Digest_fmt <$> manifest_references manifest).

Definition record_edges (m : mstore) (repo digest : string) (missing : list string) : mstore :=
  if bool_decide (missing = []) then m else (mapply m (PutBackrefs repo digest missing)).1.

(** [stack] is [to_visit] from its end, where it is pushed and popped;
    [read_manifest] is what reading a manifest returns. *)
Fixpoint rebuild_loop (fuel : nat) (repo : string) (read_manifest : Digest → result io_error (option bytes))
    (all stack : list string) (m : mstore) (g : GcTracker) : option (list string * mstore * GcTracker) :=
  match stack with
  | [] => Some (all, m, g)
  | digest :: stack =>
      match fuel with
      | O => None
      | S fuel =>
          match Digest_parse digest with
          | Err _ => rebuild_loop fuel repo read_manifest all stack m g
          | Ok d =>
              match read_manifest d with
              | Ok (Some b) =>
                  match from_slice b with
                  | Some manifest =>
                      let '(all', stack') := push_children (index_manifests manifest) all stack in
                      let m' := record_edges m repo digest (missing_edges m repo digest manifest) in
                      rebuild_loop fuel repo read_manifest all' stack' m' g
                  | None => rebuild_loop fuel repo read_manifest all stack m (mark_unsafe g repo)
                  end
              | Ok None | Err _ => rebuild_loop fuel repo read_manifest all stack m (mark_unsafe g repo)
              end
          end
      end
  end.

Definition add_unrecorded_root (repo : string) (m : mstore) (g : GcTracker) (d : string) : GcTracker :=
  match manifest_media_type (mview m) repo d with
  | None => add_root g repo d
  | Some _ => g
  end.

Definition rebuild_backrefs (fuel : nat) (repo : string) (m : mstore) (g : GcTracker)
    (root_digests : list string) (read_manifest : Digest → result io_error (option bytes))
    : option (mstore * GcTracker) :=
  '(all, m, g) ← rebuild_loop fuel repo read_manifest root_digests root_digests m g;
  Some (m, foldl (add_unrecorded_root repo m) g all).

(** ** Tags of a foreign [index.json] (layout.rs) *)

Definition import_tag (repo : string) (e : json) (m : mstore) : mstore :=
  match descriptor_tag e, descriptor_digest e with
  | Some tag, Some digest =>
      if negb (is_ok (Digest_parse digest)) || bool_decide (is_Some (resolve_tag (mview m) repo tag)) then m
      else
        let media_type := default MEDIA_TYPE_IMAGE_MANIFEST (jget "mediaType" e ≫= as_str) in
        (mapply m (PutManifest repo digest media_type (Some tag) [] None)).1
  | _, _ => m
  end.

Definition import_foreign_tags (m : mstore) (repo : string) (existing : json) : mstore :=
  foldl (λ m e, import_tag repo e m) m (index_manifests existing).

(** ** A blob enters or leaves a repository (lifecycle.rs) *)

Definition note_blob_entered (m : mstore) (g : GcTracker) (x : DedupeIndex) (repo digest : string)
    (cs : option BlobChecksum) (now : Z) : mstore * GcTracker * DedupeIndex :=
  let x := dedupe_insert x repo digest in
  let m := match cs with
           | Some c =>
               if decide (checksum (mview m) repo digest = Some c) then m
               else (mapply_relaxed m (PutChecksum repo digest (ck_crc32c c) (ck_size c))).1
           | None => m
           end in
  let g := if bool_decide (get_backrefs (mview m) repo digest = []) &&
              bool_decide (manifest_media_type (mview m) repo digest = None)
           then mark g repo digest now else g in
  (m, g, x).

Definition note_blob_left (m : mstore) (g : GcTracker) (x : DedupeIndex) (q : Quota) (repo digest : string)
    (size : option Z) : mstore * GcTracker * DedupeIndex * Quota :=
  let x := dedupe_remove x repo digest in
  let g := gc_clear g repo digest in
  let q := match size with Some n => release q repo n | None => q end in
  let m := match checksum (mview m) repo digest with
           | Some _ => (mapply_relaxed m (DeleteBlob repo digest)).1
           | None => m
           end in
  (m, g, x, q).

End Lifecycle.

(** ** Lemmas *)

(** What a blob that leaves takes with it. *)
Lemma gc_clear_facts g repo digest r x now :
  (is_due (gc_clear g repo digest) r x now = true → is_due g r x now = true) ∧
  is_root (gc_clear g repo digest) r x = is_root g r x ∧ is_unsafe (gc_clear g repo digest) r = is_unsafe g r.
Proof.
  unfold gc_clear. destruct (gc_enabled g); [|done]. split_and!; [|done..]. unfold is_due, elapsed. simpl.
  destruct (decide ((r, x) = (repo, digest))) as [->|Hne].
  - by rewrite lookup_delete_eq.
  - by rewrite lookup_delete_ne.
Qed.

Section Left.
Context `{SerdeJson, !MetadataStore, !MetadataStoreLaws}.

Lemma delete_blob_op_facts s repo digest r x :
  get_backrefs (apply_in_ram s (DeleteBlob repo digest)) r x = get_backrefs s r x ∧
  manifest_media_type (apply_in_ram s (DeleteBlob repo digest)) r x = manifest_media_type s r x.
Proof.
  rewrite !backrefs_repo, !media_type_repo, !repo_of_apply. by case_decide.
Qed.

(** A blob that left makes nothing else collectable. *)
Lemma note_blob_left_facts m g x q repo digest size r y now :
  let '(m', g', x', q') := note_blob_left m g x q repo digest size in
  (is_due g' r y now = true → is_due g r y now = true) ∧ is_root g' r y = is_root g r y ∧
  is_unsafe g' r = is_unsafe g r ∧ get_backrefs (mview m') r y = get_backrefs (mview m) r y ∧
  manifest_media_type (mview m') r y = manifest_media_type (mview m) r y.
Proof.
  unfold note_blob_left. destruct (gc_clear_facts g repo digest r y now) as (J1 & J2 & J3).
  destruct (delete_blob_op_facts (mview m) repo digest r y) as [K1 K2].
  destruct (checksum _ _ _); [|by split_and!].
  destruct (mapply_relaxed_view m (DeleteBlob repo digest)) as [E|E]; rewrite E; by split_and!.
Qed.
End Left.

Section Rebuild.
Context `{SerdeJson, !MetadataStore, !MetadataStoreLaws}.
Variable repo : string.
Variable read_manifest : Digest → result io_error (option bytes).

Lemma put_backrefs_elem s digest blobs b x :
  x ∈ get_backrefs (apply_in_ram s (PutBackrefs repo digest blobs)) repo b ↔
  x ∈ get_backrefs s repo b ∨ (x = digest ∧ b ∈ blobs).
Proof.
  rewrite !backrefs_repo, repo_of_apply, decide_True by done. simpl. apply push_backrefs_lookup.
Qed.

Lemma put_backrefs_media s digest blobs d :
  manifest_media_type (apply_in_ram s (PutBackrefs repo digest blobs)) repo d = manifest_media_type s repo d.
Proof. by rewrite !media_type_repo, repo_of_apply, decide_True. Qed.

(** The children a manifest lists. *)
Definition children (manifest : json) : list string := omap descriptor_digest (index_manifests manifest).

Lemma push_children_spec cs all stack :
  let '(all', stack') := push_children cs all stack in
  ∃ new, all' = new ++ all ∧ stack' = new ++ stack ∧ NoDup new ∧ (∀ d, d ∈ new → d ∉ all) ∧
    (∀ d, d ∈ new → d ∈ omap descriptor_digest cs) ∧ ∀ d, d ∈ omap descriptor_digest cs → d ∈ all'.
Proof.
  revert all stack. induction cs as [|c cs IH]; intros all stack; simpl.
  { exists []. split_and!; [done|done|constructor|set_solver..]. }
  destruct (descriptor_digest c) as [cd|] eqn:E; [|apply IH]. case_decide as Hd.
  - specialize (IH all stack). destruct (push_children cs all stack) as [all' stack'].
    destruct IH as (new & -> & -> & Hn & P1 & P2 & P3). exists new. split_and!; [done..|set_solver|].
    intros d [->|Hin]%elem_of_cons; [set_solver|auto].
  - specialize (IH (cd :: all) (cd :: stack)). destruct (push_children cs _ _) as [all' stack'].
    destruct IH as (new & -> & -> & Hn & P1 & P2 & P3). exists (new ++ [cd]).
    split_and!; [by rewrite <-app_assoc..| | |set_solver|].
    + apply NoDup_app. split_and!; [done| |apply NoDup_singleton]. intros d Hd' ->%list_elem_of_singleton.
      apply (P1 cd Hd'). set_solver.
    + intros d [Hd'| ->%list_elem_of_singleton]%elem_of_app; [|done]. intros Hall. apply (P1 d Hd'). set_solver.
    + intros d [->|Hin]%elem_of_cons; [set_solver|auto].
Qed.

(** What is settled about a visited digest: the collector leaves the
    repository alone, or the manifest was read, its children will be visited
    and every object it references has the edge to it. *)
Definition settled (all : list string) (m : mstore) (g : GcTracker) (digest : string) : Prop :=
  (∀ d, Digest_parse digest ≠ Ok d) ∨ is_unsafe g repo = true ∨
  ∃ d b manifest, Digest_parse digest = Ok d ∧ read_manifest d = Ok (Some b) ∧ from_slice b = Some manifest ∧
    (∀ c, c ∈ children manifest → c ∈ all) ∧
    ∀ r, r ∈ manifest_references manifest → digest ∈ get_backrefs (mview m) repo (Digest_fmt r).

Definition grown (all all' : list string) (m m' : mstore) (g g' : GcTracker) : Prop :=
  (∀ d, d ∈ all → d ∈ all') ∧ (is_unsafe g repo = true → is_unsafe g' repo = true) ∧
  (∀ b x, x ∈ get_backrefs (mview m) repo b → x ∈ get_backrefs (mview m') repo b).

Lemma settled_grown all all' m m' g g' digest :
  grown all all' m m' g g' → settled all m g digest → settled all' m' g' digest.
Proof.
  intros (Ha & Hu & Hb) [Hp|[Hs|(d & b & mf & P1 & P2 & P3 & P4 & P5)]]; [by left|right; left; auto|].
  right. right. exists d, b, mf. split_and!; auto.
Qed.

Lemma record_edges_view m digest missing :
  (∀ m op, (mapply m op).2 = Ok tt) →
  (∀ b x, x ∈ get_backrefs (mview (record_edges m repo digest missing)) repo b ↔
     x ∈ get_backrefs (mview m) repo b ∨ (x = digest ∧ b ∈ missing)) ∧
  (∀ d, manifest_media_type (mview (record_edges m repo digest missing)) repo d = manifest_media_type (mview m) repo d).
Proof.
  intros Hok. unfold record_edges. case_bool_decide as E; [subst; split; [set_solver|done]|].
  rewrite mapply_ok by apply Hok. split; intros; [apply put_backrefs_elem|apply put_backrefs_media].
Qed.

Lemma mark_unsafe_unsafe g r : gc_enabled g = true → is_unsafe (mark_unsafe g r) r = true.
Proof. unfold mark_unsafe, is_unsafe. intros ->. simpl. apply bool_decide_eq_true. set_solver. Qed.

Lemma mark_unsafe_enabled g r : gc_enabled (mark_unsafe g r) = gc_enabled g.
Proof. unfold mark_unsafe. by destruct (gc_enabled g) eqn:E; simpl. Qed.

Lemma mark_unsafe_mono g r r' : is_unsafe g r = true → is_unsafe (mark_unsafe g r') r = true.
Proof.
  unfold is_unsafe, mark_unsafe. rewrite !bool_decide_eq_true. destruct (gc_enabled g); simpl; set_solver.
Qed.

(** Every digest of [all] is still to be visited or settled. *)
Definition visiting (all stack : list string) (m : mstore) (g : GcTracker) : Prop :=
  gc_enabled g = true ∧ NoDup all ∧ ∀ d, d ∈ all → d ∈ stack ∨ settled all m g d.

Lemma visiting_step all digest stack m g all' stack' m' g' :
  visiting all (digest :: stack) m g → grown all all' m m' g g' → gc_enabled g' = true → NoDup all' →
  settled all' m' g' digest →
  (∀ d, d ∈ stack → d ∈ stack') → (∀ d, d ∈ all' → d ∈ all ∨ d ∈ stack') →
  visiting all' stack' m' g'.
Proof.
  intros (He & Hn & Hv) Hg He' Hn' Hs Hst Hall. split_and!; [done..|]. intros d [Hd|Hd]%Hall; [|by left].
  destruct (Hv d Hd) as [[->|Hin]%elem_of_cons|Hset]; [by right|auto|right]. by eapply settled_grown.
Qed.

Lemma grown_refl all m g : grown all all m m g g.
Proof. split_and!; auto. Qed.

Lemma rebuild_loop_spec fuel all stack m g res :
  (∀ m op, (mapply m op).2 = Ok tt) →
  visiting all stack m g →
  rebuild_loop fuel repo read_manifest all stack m g = Some res →
  let '(all', m', g') := res in
  visiting all' [] m' g' ∧ (∀ d, d ∈ all → d ∈ all') ∧
  ∀ d, manifest_media_type (mview m') repo d = manifest_media_type (mview m) repo d.
Proof.
  intros Hok. revert all stack m g. induction fuel as [|fuel IH]; intros all stack m g Hv; simpl.
  { destruct stack; [|done]. by intros [= <-]. }
  destruct stack as [|digest stack]; [by intros [= <-]|].
  pose proof Hv as (He & Hn & _).
  assert (Hunsafe : visiting all stack m (mark_unsafe g repo)).
  { eapply visiting_step; [exact Hv|split_and!; auto using mark_unsafe_mono|by rewrite mark_unsafe_enabled|done| |auto..].
    right. left. by apply mark_unsafe_unsafe. }
  destruct (Digest_parse digest) as [d|e] eqn:Ep.
  2:{ apply IH. eapply visiting_step; [exact Hv|apply grown_refl|done|done| |auto..].
      left. intros d. by rewrite Ep. }
  destruct (read_manifest d) as [[b|]|] eqn:Er; [|by apply IH..].
  destruct (from_slice b) as [mf|] eqn:Ef; [|by apply IH].
  pose proof (push_children_spec (index_manifests mf) all stack) as Hp.
  destruct (push_children _ all stack) as [all' stack'].
  destruct Hp as (new & -> & -> & Hnd & Hfresh & _ & Hch).
  destruct (record_edges_view m digest (missing_edges m repo digest mf) Hok) as [Hb Hm].
  set (m' := record_edges m repo digest (missing_edges m repo digest mf)) in *.
  intros Hres. apply IH in Hres as Hr.
  - destruct res as [[all' m''] g']. destruct Hr as (Hv' & Hsub & Hmt). split_and!; [done| |].
    + intros x Hx. apply Hsub. set_solver.
    + intros x. by rewrite Hmt.
  - eapply visiting_step; [exact Hv| |done| | |set_solver..].
    + split_and!; [set_solver|done|]. intros b' x Hx. apply Hb. by left.
    + apply NoDup_app. split_and!; [done..|]. done.
    + right. right. exists d, b, mf. split_and!; [done..|]. intros r Hr. apply Hb.
      destruct (decide (digest ∈ get_backrefs (mview m) repo (Digest_fmt r))) as [Hin|Hin]; [by left|right].
      split; [done|]. apply list_elem_of_filter. split; [done|]. apply list_elem_of_fmap. by exists r.
Qed.

(** Enough fuel: every digest that can be reached is visited once. *)
Lemma rebuild_loop_terminates fuel (universe all stack : list string) m g :
  NoDup all → (∀ d, d ∈ all → d ∈ universe) →
  (∀ d d' b mf c, Digest_parse d = Ok d' → read_manifest d' = Ok (Some b) → from_slice b = Some mf →
     c ∈ children mf → c ∈ universe) →
  length universe - length all + length stack < fuel →
  is_Some (rebuild_loop fuel repo read_manifest all stack m g).
Proof.
  intros Hn Hu Hc. revert all stack m g Hn Hu.
  induction fuel as [|fuel IH]; intros all stack m g Hn Hu Hf; [lia|]. simpl.
  destruct stack as [|digest stack]; [by eexists|]. simpl in Hf.
  destruct (Digest_parse digest) as [d|e] eqn:Ep; [|apply IH; [done..|lia]].
  destruct (read_manifest d) as [[b|]|] eqn:Er; [|apply IH; [done..|lia]..].
  destruct (from_slice b) as [mf|] eqn:Ef; [|apply IH; [done..|lia]].
  pose proof (push_children_spec (index_manifests mf) all stack) as Hp.
  destruct (push_children _ all stack) as [all' stack'].
  destruct Hp as (new & -> & -> & Hnd & Hfresh & Hsub & _).
  assert (Hall : NoDup (new ++ all)) by (apply NoDup_app; split_and!; done).
  assert (Hin : ∀ d, d ∈ new ++ all → d ∈ universe).
  { intros x [Hx|Hx]%elem_of_app; [|auto]. eapply Hc; [exact Ep|done..|]. by apply Hsub. }
  apply IH; [done..|]. rewrite !length_app.
  assert (length (new ++ all) ≤ length universe) by (by apply submseteq_length, NoDup_submseteq).
  rewrite length_app in *. lia.
Qed.
End Rebuild.

(** The manifests reachable from the roots through image indexes. *)
Inductive reaches `{SerdeJson} (read_manifest : Digest → result io_error (option bytes)) (rs : list string)
    : string → Prop :=
  | reaches_root d : d ∈ rs → reaches read_manifest rs d
  | reaches_child d d' b mf c :
      reaches read_manifest rs d → Digest_parse d = Ok d' → read_manifest d' = Ok (Some b) →
      from_slice b = Some mf → c ∈ children mf → reaches read_manifest rs c.

Section RebuildComplete.
Context `{SerdeJson, !MetadataStore, !MetadataStoreLaws}.

Lemma add_roots_spec repo m g all :
  gc_enabled g = true →
  let g' := foldl (add_unrecorded_root repo m) g all in
  is_unsafe g' repo = is_unsafe g repo ∧ (∀ d, is_root g repo d = true → is_root g' repo d = true) ∧
  ∀ d, d ∈ all → is_Some (manifest_media_type (mview m) repo d) ∨ is_root g' repo d = true.
Proof.
  revert g. induction all as [|d all IH]; intros g He; simpl; [split_and!; [done..|set_solver]|].
  assert (Hstep : gc_enabled (add_unrecorded_root repo m g d) = true ∧
    is_unsafe (add_unrecorded_root repo m g d) repo = is_unsafe g repo ∧
    (∀ d', is_root g repo d' = true → is_root (add_unrecorded_root repo m g d) repo d' = true) ∧
    (is_Some (manifest_media_type (mview m) repo d) ∨ is_root (add_unrecorded_root repo m g d) repo d = true)).
  { unfold add_unrecorded_root, is_root. destruct (manifest_media_type _ _ _); [naive_solver|].
    unfold add_root. rewrite He. split_and!; [done..| |right; apply bool_decide_eq_true; simpl; set_solver].
    intros d'. rewrite !bool_decide_eq_true. simpl. set_solver. }
  destruct Hstep as (He' & Hu & Hmono & Hd). destruct (IH _ He') as (Hu' & Hmono' & Hall).
  split_and!; [congruence|auto|]. intros d' [->|Hin]%elem_of_cons; [|auto].
  destruct Hd; [by left|right; auto].
Qed.

Lemma reaches_visited repo read rs all m g d :
  visiting repo read all [] m g → (∀ d, d ∈ rs → d ∈ all) → is_unsafe g repo = false →
  reaches read rs d → d ∈ all.
Proof.
  intros (_ & _ & Hv) Hrs Hu. induction 1 as [d Hd|d d' b mf c _ IH Hp Hr Hf Hc]; [auto|].
  destruct (Hv d IH) as [?|[Hn|[Hun|(d1 & b1 & mf1 & P1 & P2 & P3 & P4 & _)]]];
    [set_solver|by destruct (Hn d')|congruence|].
  assert (mf1 = mf) as -> by congruence. by apply P4.
Qed.
End RebuildComplete.


(** A repository with one manifest that references one blob. *)
Module ToyRebuild.
Definition hex64 : string := "aaaaaaaaaaaaaaaaaaaaaaaaaaaaaaaaaaaaaaaaaaaaaaaaaaaaaaaaaaaaaaaa".
Definition manifest : json :=
  jobject [("config", jobject [("digest", JString ("sha256:" +:+ hex64))])].
#[export] Instance one_manifest : SerdeJson := {| from_slice _ := Some manifest; to_vec _ := [] |}.
Definition read (_ : Digest) : result io_error (option bytes) := Ok (Some []).
Definition root : string := "sha256:bbbbbbbbbbbbbbbbbbbbbbbbbbbbbbbbbbbbbbbbbbbbbbbbbbbbbbbbbbbbbbbb".
End ToyRebuild.

#[local] Existing Instances ToyRebuild.one_manifest ToyStore.state_store ToyStore.state_store_laws.

