(* ===== verification/ObjectStore.v ===== *)
(** The object store the S3 backend talks to: the trait [ObjectStore] of the
    object_store crate with its multipart writer, the normalization of object
    paths, and the URL crate, as parameters with the laws their documentation
    gives. A call may fail at any time; a write that fails may still have taken
    effect, but never in part. *)

From S2P Require Import Prelude RustStr Json Errors Effect StorageApi.

(** [object_store::Error], as far as the code tells errors apart. *)
Inductive obj_error := ObjNotFound (text : string) | ObjOther (text : string).

(** [to_string] *)
Definition obj_text (e : obj_error) : string := match e with ObjNotFound t | ObjOther t => t end.

Class ObjectStore := {
  bucket : Type;
  (** An upload of several parts, and [WriteMultipart] over it. *)
  upload : Type;
  writer : Type;
  o_head : string → M bucket obj_error Z;
  (** [get], and what [bytes] of its result gives. *)
  o_get : string → M bucket obj_error (result obj_error bytes);
  o_get_range : string → Z → Z → M bucket obj_error bytes;
  (** [get_opts] with a range, and the stream of its result. *)
  o_get_stream : string → Z → Z → M bucket obj_error (list (result obj_error bytes));
  o_put : string → bytes → M bucket obj_error ();
  o_delete : string → M bucket obj_error ();
  o_copy : string → string → M bucket obj_error ();
  o_put_multipart : string → M bucket obj_error upload;
  o_writer : upload → Z → writer;
  o_wait : writer → Z → M bucket obj_error writer;
  o_write : bytes → writer → writer;
  o_abort : writer → M bucket obj_error ();
  o_finish : writer → M bucket obj_error ();
  (** The objects below a prefix, with their sizes, and errors in between. *)
  o_list : option string → bucket → bucket * list (result obj_error (string * Z));
}.

(** [m] leaves what [v] sees of the state as it is. *)
Definition views {B V E A} (v : B → V) (m : M B E A) : Prop := ∀ b, v (m b).1 = v b.

(** [m] changes what [v] sees by [f], or fails and changes it so or not at all. *)
Definition writes {B V E A} (v : B → V) (m : M B E A) (f : V → V) : Prop :=
  ∀ b, (v (m b).1 = f (v b) ∨ ((∃ e, (m b).2 = Err e) ∧ v (m b).1 = v b)).

(** The keys below a prefix. *)
Definition below (prefix : option string) (k : string) : Prop :=
  match prefix with None => True | Some p => ∃ t, k = p +:+ "/" +:+ t end.

Class ObjectStoreLaws `{ObjectStore} := {
  contents : bucket → gmap string bytes;
  u_dest : upload → string;
  w_dest : writer → string;
  w_data : writer → bytes;
  head_views k : views contents (o_head k);
  head_ok k b n : (o_head k b).2 = Ok n → ∃ c, contents b !! k = Some c ∧ n = blen c;
  head_not_found k b t : (o_head k b).2 = Err (ObjNotFound t) → contents b !! k = None;
  get_views k : views contents (o_get k);
  get_ok k b c : (o_get k b).2 = Ok (Ok c) → contents b !! k = Some c;
  get_not_found k b t : (o_get k b).2 = Err (ObjNotFound t) → contents b !! k = None;
  range_views k i j : views contents (o_get_range k i j);
  range_ok k i j b x : (o_get_range k i j b).2 = Ok x →
    ∃ c, contents b !! k = Some c ∧ x = slice c i (j - i)%Z;
  stream_ok k i j b st : (o_get_stream k i j b).2 = Ok st →
    ∃ c, contents b !! k = Some c ∧ received (map_err (λ _, IoError KOther "") <$> st) `prefix_of` slice c i (j - i)%Z;
  put_writes k d : writes contents (o_put k d) <[k := d]>;
  delete_writes k : writes contents (o_delete k) (delete k);
  copy_writes k k' b :
    (∃ c, contents b !! k = Some c ∧ contents (o_copy k k' b).1 = <[k' := c]> (contents b)) ∨
    ((∃ e, (o_copy k k' b).2 = Err e) ∧ contents (o_copy k k' b).1 = contents b);
  multipart_views k : views contents (o_put_multipart k);
  multipart_ok k b u : (o_put_multipart k b).2 = Ok u → u_dest u = k;
  writer_new u n : w_dest (o_writer u n) = u_dest u ∧ w_data (o_writer u n) = [];
  write_data d w : w_dest (o_write d w) = w_dest w ∧ w_data (o_write d w) = w_data w ++ d;
  wait_views w n : views contents (o_wait w n);
  wait_ok w n b w' : (o_wait w n b).2 = Ok w' → w_dest w' = w_dest w ∧ w_data w' = w_data w;
  abort_views w : views contents (o_abort w);
  finish_writes w : writes contents (o_finish w) <[w_dest w := w_data w]>;
  list_views p b : contents (o_list p b).1 = contents b;
  list_sound p b k n : Ok (k, n) ∈ (o_list p b).2 → below p k ∧ ∃ c, contents b !! k = Some c ∧ n = blen c;
  list_complete p b k c : Forall (λ r, is_ok r = true) (o_list p b).2 → contents b !! k = Some c → below p k →
    Ok (k, blen c) ∈ (o_list p b).2;
}.

(** ** Object paths *)

(** A path segment that is kept as it is. *)
Definition clean_byte (b : ascii) : bool :=
  is_ascii_lowercase b || is_ascii_digit b || bool_decide (b ∈ ["."; "_"; "-"]%char).
Definition clean (s : string) : bool :=
  negb (bool_decide (s = "")) && negb (bool_decide (s = ".")) && negb (bool_decide (s = "..")) && string_forallb clean_byte s.

(** [Path::child] *)
Definition child (p c : string) : string := if decide (p = "") then c else p +:+ "/" +:+ c.

(** [Path::from]: the segments between slashes, each encoded on its own, the
    empty ones dropped. *)
Class ObjPaths := { obj_path : string → string }.
Class ObjPathLaws `{ObjPaths} : Prop := {
  obj_path_segment c : clean c = true → obj_path c = c;
  obj_path_child k c : clean c = true → obj_path (k +:+ "/" +:+ c) = child (obj_path k) c;
}.

(** ** URLs *)

Class UrlCrate := {
  url : Type;
  url_parse : string → option url;
  url_scheme : url → string;
  url_host_str : url → option string;
  url_text : url → string;
  (** [str::to_lowercase] *)
  to_lowercase : string → string;
}.

(** ** A store in memory *)

Module ToyObjects.
(** The objects, and for each coming call whether it fails. *)
Record Objects := mkObjects { objects : gmap string bytes; failures : list (option obj_error) }.
Record Writer := { dest : string; data : bytes }.

Definition next (o : Objects) : option obj_error * Objects :=
  match failures o with
  | [] => (None, o)
  | f :: fs => (f, mkObjects (objects o) fs)
  end.

(** A failing call fails with its own error, never with [NotFound]. *)
Definition call {A} (k : M Objects obj_error A) : M Objects obj_error A := λ o,
  let '(f, o) := next o in
  match f with Some e => (o, Err (ObjOther (obj_text e))) | None => k o end.

Definition find (k : string) : M Objects obj_error bytes := λ o,
  match objects o !! k with Some c => (o, Ok c) | None => (o, Err (ObjNotFound k)) end.
Definition change (f : gmap string bytes → gmap string bytes) : M Objects obj_error () := λ o,
  (mkObjects (f (objects o)) (failures o), Ok tt).

Definition in_prefix (p : option string) (k : string) : bool :=
  match p with None => true | Some p => starts_with k (p +:+ "/") end.

#[export] Instance toy_objects : ObjectStore := {|
  bucket := Objects;
  upload := string;
  writer := Writer;
  o_head k := call (c ← find k; mret (blen c));
  o_get k := call (c ← find k; mret (Ok c));
  o_get_range k i j := call (c ← find k; mret (slice c i (j - i)%Z));
  o_get_stream k i j := call (c ← find k; mret [Ok (slice c i (j - i)%Z)]);
  o_put k d := call (change <[k := d]>);
  o_delete k := call (change (delete k));
  o_copy k k' := call (c ← find k; change <[k' := c]>);
  o_put_multipart k := call (mret k);
  o_writer k _ := {| dest := k; data := [] |};
  o_wait w _ := call (mret w);
  o_write d w := {| dest := dest w; data := data w ++ d |};
  o_abort _ := call (mret tt);
  o_finish w := call (change <[dest w := data w]>);
  o_list p o := (o, (λ x, Ok (x.1, blen x.2)) <$> filter (λ x, in_prefix p x.1 = true) (map_to_list (objects o)));
|}.

Lemma next_objects o : objects (next o).2 = objects o.
Proof. unfold next. by destruct (failures o). Qed.

(** A call that fails changes nothing; otherwise it runs on the same objects. *)
Lemma call_cases {A} (k : M Objects obj_error A) o :
  ∃ o', objects o' = objects o ∧ ((∃ t, call k o = (o', Err (ObjOther t))) ∨ call k o = k o').
Proof.
  unfold call. pose proof (next_objects o). destruct (next o) as [[e|] o']; exists o'; simpl in *; eauto.
Qed.

Lemma call_views {A} (k : M Objects obj_error A) : views objects k → views objects (call k).
Proof. intros Hk o. destruct (call_cases k o) as (o' & <- & [[t ->]| ->]); [done|apply Hk]. Qed.

Lemma call_writes {A} (k : M Objects obj_error A) f : writes objects k f → writes objects (call k) f.
Proof.
  intros Hk o. destruct (call_cases k o) as (o' & <- & [[t ->]| ->]); [|apply Hk]. right. split; [by eexists|done].
Qed.

(** What is not a failure of the call itself is the answer of [k]. *)
Lemma call_answer {A} (k : M Objects obj_error A) o r :
  (call k o).2 = r → (∀ t, r ≠ Err (ObjOther t)) → ∃ o', objects o' = objects o ∧ (k o').2 = r.
Proof. intros <- Hr. destruct (call_cases k o) as (o' & Ho & [[t E]|E]); rewrite E in *; [by destruct (Hr t)|eauto]. Qed.

Lemma find_views {A} k (f : bytes → A) : views objects (c ← find k; mret (f c)).
Proof. intros o. unfold mbind, M_bind, find. by destruct (objects o !! k). Qed.

Lemma find_answer {A} k (f : bytes → A) o :
  (call (c ← find k; mret (f c)) o).2 =
    match objects o !! k with Some c => Ok (f c) | None => Err (ObjNotFound k) end ∨
  ∃ t, (call (c ← find k; mret (f c)) o).2 = Err (ObjOther t).
Proof.
  destruct (call_cases (c ← find k; mret (f c)) o) as (o' & Ho & [[t ->]| ->]); [by eauto|left].
  unfold mbind, M_bind, find. rewrite Ho. by destruct (objects o !! k).
Qed.

Lemma change_writes f : writes objects (change f) f.
Proof. intros o. by left. Qed.

Lemma below_prefix p k : below p k ↔ in_prefix p k = true.
Proof.
  destruct p as [p|]; simpl; [|done]. rewrite starts_with_true. split; intros [t ->]; exists t; by rewrite string_app_assoc.
Qed.

#[export] Program Instance toy_objects_laws : ObjectStoreLaws := {|
  contents := objects;
  u_dest k := k;
  w_dest := dest;
  w_data := data;
|}.
Next Obligation. intros. apply call_views, find_views. Qed.
Next Obligation.
  intros k b n. simpl. destruct (find_answer k blen b) as [->|[t ->]]; [|done]. destruct (_ !! _); naive_solver.
Qed.
Next Obligation.
  intros k b n. simpl. destruct (find_answer k blen b) as [->|[t ->]]; [|done]. by destruct (_ !! _).
Qed.
Next Obligation. intros. apply call_views, find_views. Qed.
Next Obligation.
  intros k b c. simpl. destruct (find_answer k (@Ok obj_error _) b) as [->|[t ->]]; [|done]. destruct (_ !! _); naive_solver.
Qed.
Next Obligation.
  intros k b t. simpl. destruct (find_answer k (@Ok obj_error _) b) as [->|[t' ->]]; [|done]. by destruct (_ !! _).
Qed.
Next Obligation. intros. apply call_views, find_views. Qed.
Next Obligation.
  intros k i j b x. simpl. destruct (find_answer k (λ c, slice c i (j - i)) b) as [->|[t ->]]; [|done].
  destruct (_ !! _); naive_solver.
Qed.
Next Obligation.
  intros k i j b x. simpl. destruct (find_answer k (λ c, [@Ok obj_error _ (slice c i (j - i))]) b) as [->|[t ->]]; [|done].
  destruct (_ !! _) as [c|]; [|done]. intros [= <-]. exists c. split; [done|]. simpl. by rewrite app_nil_r.
Qed.
Next Obligation. intros. apply call_writes, change_writes. Qed.
Next Obligation. intros. apply call_writes, change_writes. Qed.
Next Obligation.
  intros k k' b. simpl. destruct (call_cases (c ← find k; change <[k' := c]>) b) as (o' & Ho & [[t ->]| ->]).
  - right. split; [by eexists|done].
  - unfold mbind, M_bind, find. rewrite <-Ho. destruct (objects o' !! k) as [c|] eqn:E; [left; by exists c|right].
    split; [by eexists|done].
Qed.
Next Obligation. intros. by apply call_views. Qed.
Next Obligation. intros k b u H. simpl in *. apply call_answer in H as (o' & _ & H); [|done]. by simplify_eq/=. Qed.
Next Obligation. done. Qed.
Next Obligation. done. Qed.
Next Obligation. intros. by apply call_views. Qed.
Next Obligation. intros w n b w' H. simpl in *. apply call_answer in H as (o' & _ & H); [|done]. by simplify_eq/=. Qed.
Next Obligation. intros. by apply call_views. Qed.
Next Obligation. intros. apply call_writes, change_writes. Qed.
Next Obligation. done. Qed.
Next Obligation.
  intros p b k n. simpl. intros ([k' c] & [= -> ->] & [Hp Hin]%list_elem_of_filter)%list_elem_of_fmap.
  apply elem_of_map_to_list in Hin. split; [by apply below_prefix|eauto].
Qed.
Next Obligation.
  intros p b k c _ Hk Hp. simpl in *. apply list_elem_of_fmap. exists (k, c). split; [done|].
  apply list_elem_of_filter. split; [by apply below_prefix|by apply elem_of_map_to_list].
Qed.
End ToyObjects.
