(* ===== verification/S3Storage.v ===== *)
(** The S3 backend (roci-storage-s3/src): object keys (keys.rs), the client and
    the redirect guard (client.rs), local staging of uploads (uploads.rs) and the
    operations of [Storage] (storage_impl.rs).

    Blobs and [index.json] are objects of a bucket; metadata, upload sessions and
    the derived state are local. An operation is a program over [S3Store]; the
    per-session and per-digest locks and the collector's fence make it atomic
    with respect to the operations it could conflict with. *)

From S2P Require Import Config NetAddr.
From S2P Require Import StorageApi Prelude RustStr Json Errors Digest Paths Quota Metadata MetaLog.
From S2P Require Import MetaStore Effect FileSys FileSysFacts Walk Layout Lifecycle UploadBody ObjectStore.

(** ** Keys (keys.rs) *)

Definition validate_component (s : string) : result StorageError () :=
  if bool_decide (s = "") || bool_decide (s = ".") || bool_decide (s = "..")
     || existsb (λ b, bool_decide (b = "\") || bool_decide (b = "000"))%char (as_bytes s)
  then Err (BadPath s)
  else Ok tt.

Fixpoint validate_parts (cs : list string) : result StorageError () :=
  match cs with
  | [] => Ok tt
  | c :: cs => let? _ := validate_component c in validate_parts cs
  end.
Definition validate_repo (repo : string) : result StorageError () := validate_parts (split "/" repo).

Definition repo_prefix (prefix repo : string) : result StorageError string :=
  let? _ := validate_repo repo in
  Ok (if decide (prefix = "") then repo else prefix +:+ "/" +:+ repo).

Definition blob_key (prefix repo : string) (d : Digest) : result StorageError string :=
  let? rp := repo_prefix prefix repo in
  Ok (rp +:+ "/blobs/" +:+ algorithm d +:+ "/" +:+ hex d).

Definition index_key (prefix repo : string) : result StorageError string :=
  let? rp := repo_prefix prefix repo in Ok (rp +:+ "/index.json").

Definition layout_key (prefix repo : string) : result StorageError string :=
  let? rp := repo_prefix prefix repo in Ok (rp +:+ "/oci-layout").

(** [extract_repo_from_index_key] *)
Definition strip_suffix (suffix s : string) : option string :=
  if ends_with s suffix then Some (of_bytes (take (String.length s - String.length suffix) (as_bytes s))) else None.

Definition extract_repo_from_index_key (key prefix : string) : option string :=
  without_suffix ← strip_suffix "/index.json" key;
  repo ← (if decide (prefix = "") then Some without_suffix
          else rest ← strip_prefix prefix without_suffix; strip_prefix "/" rest);
  if decide (repo = "") then None else Some repo.

Definition extract_digest_from_blob_key (key repo_prefix : string) : option string :=
  rest ← strip_prefix repo_prefix key;
  rest ← strip_prefix "/blobs/" rest;
  '(alg, hex) ← split_once "/" rest;
  Some (alg +:+ ":" +:+ hex).

(** ** Session ids and staging paths (uploads.rs) *)

Definition validate_session_id (id : string) : result StorageError () :=
  if bool_decide (id = "") || bool_decide (id = ".") || bool_decide (id = "..") || (64 <? slen id)%Z
     || existsb (λ b, bool_decide (b = "/") || bool_decide (b = "\") || bool_decide (b = "000"))%char (as_bytes id)
     || negb (string_forallb is_ascii_hexdigit id)
  then Err (BadPath id)
  else Ok tt.

Definition repo_staging_rel (repo : string) : result StorageError path :=
  let? _ := validate_repo repo in Ok ("uploads" :: split "/" repo).

Definition staging_rel (repo id : string) : result StorageError path :=
  let? _ := validate_session_id id in
  let? dir := repo_staging_rel repo in
  Ok (dir ++ [id]).

(** ** The client (client.rs) *)

Section S3.
Context `{!Crypto, !World, !SerdeJson, !HashIter, !MetadataStore, !ObjectStore, !ObjPaths, !UrlCrate}.

Record RedirectGuard := { g_hosts : list string; g_allow_http : bool }.

Definition guard_from_config (c : S3Config) : RedirectGuard := {|
  g_hosts :=
    match s3_endpoint c with
    | Some ep => option_list (u ← url_parse ep; to_lowercase <$> url_host_str u)
    | None =>
        let region := to_lowercase (s3_region c) in
        let bucket := to_lowercase (s3_bucket c) in
        ["s3." +:+ region +:+ ".amazonaws.com"; bucket +:+ ".s3." +:+ region +:+ ".amazonaws.com"]
    end;
  g_allow_http := allow_http c;
|}.

Definition permits (g : RedirectGuard) (u : url) : bool :=
  let scheme_ok := bool_decide (url_scheme u = "https") || (g_allow_http g && bool_decide (url_scheme u = "http")) in
  scheme_ok &&
  match url_host_str u with
  | Some host => let host := to_lowercase host in negb (is_internal_host host) && bool_decide (host ∈ g_hosts g)
  | None => false
  end.

(** [signer] is [Signer::signed_url]: method, path and lifetime; [bucket_http]
    is the raw HTTP client: the building of a PUT request and its status. *)
Record BucketHttp := {
  http_put : url → result string ();
  http_execute : url → M bucket string Z;
}.
Record S3Client := {
  c_signer : option (string → string → Z → result string url);
  c_prefix : string;
  c_redirect_min_size : Z;
  c_redirect_ttl : Z;
  c_part_size : Z;
  c_concurrency : Z;
  c_copy_limit : Z;
  c_guard : RedirectGuard;
  c_bucket_http : option BucketHttp;
}.

Definition S3_COPY_LIMIT : Z := 5 * 1024 * 1024 * 1024.

(** [S3Client::from_config] with the store it built. *)
Definition client_from_config (c : S3Config) (signer : string → string → Z → result string url) (http : BucketHttp)
    : S3Client := {|
  c_signer := Some signer;
  c_prefix := s3_prefix c;
  c_redirect_min_size := redirect_min_size c;
  c_redirect_ttl := redirect_ttl_secs c;
  c_part_size := multipart_part_size c;
  c_concurrency := multipart_concurrency c;
  c_copy_limit := S3_COPY_LIMIT;
  c_guard := guard_from_config c;
  c_bucket_http := Some http;
|}.

(** ** State (lib.rs) *)

Record S3Store := mkS3 {
  x_fs : Fs;
  x_bucket : bucket;
  x_meta : mstore;
  x_gc : GcTracker;
  x_quota : Quota;
  x_dedupe : DedupeIndex;
  x_index_dirty : gmap string Z;
  x_layout_cache : gset string;
  x_manifest_sizes : gmap (string * string) Z;
  x_cached_index : gmap string json;
  x_readiness : option Z;
  x_bucket_ensured : bool;
}.

Definition put_fs (v : Fs) (s : S3Store) : S3Store :=
  mkS3 v (x_bucket s) (x_meta s) (x_gc s) (x_quota s) (x_dedupe s) (x_index_dirty s) (x_layout_cache s)
    (x_manifest_sizes s) (x_cached_index s) (x_readiness s) (x_bucket_ensured s).
Definition put_bucket (v : bucket) (s : S3Store) : S3Store :=
  mkS3 (x_fs s) v (x_meta s) (x_gc s) (x_quota s) (x_dedupe s) (x_index_dirty s) (x_layout_cache s)
    (x_manifest_sizes s) (x_cached_index s) (x_readiness s) (x_bucket_ensured s).
Definition put_meta (v : mstore) (s : S3Store) : S3Store :=
  mkS3 (x_fs s) (x_bucket s) v (x_gc s) (x_quota s) (x_dedupe s) (x_index_dirty s) (x_layout_cache s)
    (x_manifest_sizes s) (x_cached_index s) (x_readiness s) (x_bucket_ensured s).
Definition put_gc (v : GcTracker) (s : S3Store) : S3Store :=
  mkS3 (x_fs s) (x_bucket s) (x_meta s) v (x_quota s) (x_dedupe s) (x_index_dirty s) (x_layout_cache s)
    (x_manifest_sizes s) (x_cached_index s) (x_readiness s) (x_bucket_ensured s).
Definition put_quota (v : Quota) (s : S3Store) : S3Store :=
  mkS3 (x_fs s) (x_bucket s) (x_meta s) (x_gc s) v (x_dedupe s) (x_index_dirty s) (x_layout_cache s)
    (x_manifest_sizes s) (x_cached_index s) (x_readiness s) (x_bucket_ensured s).
Definition put_dedupe (v : DedupeIndex) (s : S3Store) : S3Store :=
  mkS3 (x_fs s) (x_bucket s) (x_meta s) (x_gc s) (x_quota s) v (x_index_dirty s) (x_layout_cache s)
    (x_manifest_sizes s) (x_cached_index s) (x_readiness s) (x_bucket_ensured s).
Definition put_index_dirty (v : gmap string Z) (s : S3Store) : S3Store :=
  mkS3 (x_fs s) (x_bucket s) (x_meta s) (x_gc s) (x_quota s) (x_dedupe s) v (x_layout_cache s)
    (x_manifest_sizes s) (x_cached_index s) (x_readiness s) (x_bucket_ensured s).
Definition put_layout_cache (v : gset string) (s : S3Store) : S3Store :=
  mkS3 (x_fs s) (x_bucket s) (x_meta s) (x_gc s) (x_quota s) (x_dedupe s) (x_index_dirty s) v
    (x_manifest_sizes s) (x_cached_index s) (x_readiness s) (x_bucket_ensured s).
Definition put_manifest_sizes (v : gmap (string * string) Z) (s : S3Store) : S3Store :=
  mkS3 (x_fs s) (x_bucket s) (x_meta s) (x_gc s) (x_quota s) (x_dedupe s) (x_index_dirty s) (x_layout_cache s)
    v (x_cached_index s) (x_readiness s) (x_bucket_ensured s).
Definition put_cached_index (v : gmap string json) (s : S3Store) : S3Store :=
  mkS3 (x_fs s) (x_bucket s) (x_meta s) (x_gc s) (x_quota s) (x_dedupe s) (x_index_dirty s) (x_layout_cache s)
    (x_manifest_sizes s) v (x_readiness s) (x_bucket_ensured s).
Definition put_readiness (v : option Z) (s : S3Store) : S3Store :=
  mkS3 (x_fs s) (x_bucket s) (x_meta s) (x_gc s) (x_quota s) (x_dedupe s) (x_index_dirty s) (x_layout_cache s)
    (x_manifest_sizes s) (x_cached_index s) v (x_bucket_ensured s).
Definition put_bucket_ensured (v : bool) (s : S3Store) : S3Store :=
  mkS3 (x_fs s) (x_bucket s) (x_meta s) (x_gc s) (x_quota s) (x_dedupe s) (x_index_dirty s) (x_layout_cache s)
    (x_manifest_sizes s) (x_cached_index s) (x_readiness s) v.

Abbreviation s3m := (M S3Store StorageError).

(** [Instant::now()] *)
Definition s3_now (s : S3Store) : Z := clock (ticks (x_fs s)).

Definition on_root {E A} (m : M Fs E A) : M S3Store E A := focus x_fs put_fs m.
Definition on_bucket {A} (m : M bucket obj_error A) : M S3Store obj_error A := focus x_bucket put_bucket m.
Definition s3_io {A} (m : M Fs io_error A) : s3m A := mapping_err Io (on_root m).
Definition s3_io_nf {A} (m : M Fs io_error A) : s3m A := mapping_err map_not_found (on_root m).

Definition obj_err (e : obj_error) : StorageError :=
  match e with
  | ObjNotFound _ => NotFound
  | ObjOther t => Io (IoError KOther t)
  end.
Definition obj_err_write (e : obj_error) : StorageError :=
  match e with
  | ObjNotFound _ => Unavailable "storage backend returned NotFound on a write (bucket may not exist yet)"
  | ObjOther t => Io (IoError KOther t)
  end.
Definition obj_io (e : obj_error) : StorageError := Io (IoError KOther (obj_text e)).

(** [self.client.store.…(…).await.map_err(…)?] *)
Definition store_read {A} (m : M bucket obj_error A) : s3m A := mapping_err obj_err (on_bucket m).
Definition store_write {A} (m : M bucket obj_error A) : s3m A := mapping_err obj_err_write (on_bucket m).

Definition s3_on_quota {A} (f : Quota → Quota * result StorageError A) : s3m A := λ s,
  let '(q, r) := f (x_quota s) in (put_quota q s, r).
Definition s3_release (repo : string) (n : Z) : s3m () := modify (λ s, put_quota (release (x_quota s) repo n) s).
Definition s3_end_session : s3m () := modify (λ s, put_quota (end_session (x_quota s)) s).

(** [mark_index_dirty], [apply_meta] *)
Definition s3_mark_dirty (repo : string) : s3m () :=
  modify (λ s, put_index_dirty (<[repo := (default 0 (x_index_dirty s !! repo) + 1)%Z]> (x_index_dirty s)) s).
Definition s3_meta_apply (op : MetaOp) : M S3Store io_error () := λ s,
  let '(m, r) := mapply (x_meta s) op in (put_meta m s, r).
Definition s3_apply_meta (repo : string) (op : MetaOp) : s3m () :=
  mapping_err Io (s3_meta_apply op);;
  s3_mark_dirty repo.

Definition s3_blob_entered (repo digest : string) (cs : option BlobChecksum) : s3m () :=
  modify (λ s,
    let '(m, g, x) := note_blob_entered (x_meta s) (x_gc s) (x_dedupe s) repo digest cs (s3_now s) in
    put_dedupe x (put_gc g (put_meta m s))).
Definition s3_blob_left (repo digest : string) (size : option Z) : s3m () :=
  modify (λ s,
    let '(m, g, x, q) := note_blob_left (x_meta s) (x_gc s) (x_dedupe s) (x_quota s) repo digest size in
    put_quota q (put_dedupe x (put_gc g (put_meta m s)))).

Definition record_manifest_size (repo digest : string) (size : Z) : s3m () :=
  modify (λ s, put_manifest_sizes (<[(repo, digest) := size]> (x_manifest_sizes s)) s).
Definition forget_manifest_size (repo digest : string) : s3m () :=
  modify (λ s, put_manifest_sizes (delete (repo, digest) (x_manifest_sizes s)) s).

(** ** Staging files *)

(** [openat(O_WRONLY | O_CREAT | O_TRUNC | O_NOFOLLOW)] *)
Definition create_truncate (p : path) : M Fs errno () := syscall $
  n ← gets (λ f, node_at f p);
  match n with
  | None => modify (λ f, mkFs (<[p := Reg (next_ino f) []]> (files f)) (next_ino f + 1)%Z (ticks f))
  | Some (Reg i _) => modify (on_files <[p := Reg i []]>)
  | Some Dir => throw EISDIR
  | Some Special => throw ENOTDIR
  end.

Definition create_empty_beneath (dir_rel : path) (leaf : string) : M Fs io_error () :=
  dir_beneath dir_rel true;;
  io_err (create_truncate (dir_rel ++ [leaf])).

(** One [read] of at most [max] bytes: at least one while there are some. *)
Definition read_some (max : Z) (rest : bytes) : M Fs io_error (bytes * bytes) :=
  n ← io_err tick;
  match fault n with
  | Some e => throw (io_of_errno e)
  | None =>
      let k := Z.to_nat (max `min` Z.of_nat (S (partial n))) in
      mret (take k rest, drop k rest)
  end.

(** [hash_file]: every read that is not the last consumes a byte, so one more
    turn than there are bytes is enough. *)
Definition hash_done (alg : string) (fed : bytes) (crc : Z) : result StorageError (Digest * Z) :=
  let? d := Digest_parse (alg +:+ ":" +:+ hex (finalize alg fed)) in Ok (d, crc).

Fixpoint hash_file (fuel : nat) (alg : string) (fed : bytes) (crc : Z) (rest : bytes)
    : M Fs StorageError (Digest * Z) :=
  match fuel with
  | O => of_result (hash_done alg fed crc)
  | S fuel =>
      '(chunk, rest) ← mapping_err Io (read_some (64 * 1024) rest);
      if bool_decide (chunk = []) then of_result (hash_done alg fed crc)
      else hash_file fuel alg (fed ++ chunk) (crc32c_append crc chunk) rest
  end.

Definition begin_upload_session (repo : string) : s3m string :=
  buf ← s3_io random_bytes;
  let id := hex_encode buf in
  of_result (validate_session_id id);;
  s3_on_quota begin_session;;
  dir_rel ← of_result (repo_staging_rel repo);
  r ← attempt (on_root (create_empty_beneath dir_rel id));
  match r with
  | Err e => s3_end_session;; throw (Io e)
  | Ok _ => mret id
  end.

Definition append_to_staging (repo id : string) (body : UploadBody) (expected_offset : option Z) (limit : Z) : s3m Z :=
  rel ← of_result (staging_rel repo id);
  '(_, content) ← s3_io_nf (resolve_beneath rel true);
  s3_io (io_err (syscall (mret tt)));;
  let current := blen content in
  match expected_offset with
  | Some offset => if negb (offset =? current)%Z then throw (RangeNotSatisfiable current offset) else mret tt
  | None => mret tt
  end;;
  '(total, _) ← on_root (append_body rel current body limit None);
  mret total.

Definition staging_size (repo id : string) : s3m Z :=
  rel ← of_result (staging_rel repo id);
  stat ← s3_io_nf (stat_beneath rel);
  match stat with Some (true, size) => mret size | _ => throw NotFound end.

Definition remove_staging (repo id : string) : s3m () :=
  match repo_staging_rel repo with
  | Ok dir_rel =>
      if is_ok (validate_session_id id)
      then _ ← attempt (on_root (unlink_beneath dir_rel id)); mret tt
      else mret tt
  | Err _ => mret tt
  end;;
  s3_end_session.

(** The hash of the staging file, its checksum and its size. *)
Definition hash_staging (repo id alg : string) : s3m (Digest * Z * Z) :=
  rel ← of_result (staging_rel repo id);
  '(_, content) ← s3_io_nf (open_beneath rel);
  s3_io (io_err (syscall (mret tt)));;
  let size := blen content in
  if bool_decide (alg ∈ ["sha256"; "sha512"]) then
    '(d, crc) ← on_root (hash_file (S (length content)) alg [] 0 content);
    mret (d, crc, size)
  else throw (BadDigest ("unsupported algorithm: " +:+ alg)).

Definition s3_discard_session (repo id : string) : s3m () := remove_staging repo id.

Variable client : S3Client.
Abbreviation prefix := (c_prefix client).

(** ** Blobs (storage_impl.rs) *)

Definition s3_blob_size (repo : string) (d : Digest) : s3m Z :=
  key ← of_result (blob_key prefix repo d);
  modify (λ s, if gc_enabled (x_gc s) then put_gc (touch (x_gc s) repo (Digest_fmt d) (s3_now s)) s else s);;
  store_read (o_head (obj_path key)).

Definition s3_blob_exists (repo : string) (d : Digest) : s3m bool :=
  r ← attempt (s3_blob_size repo d);
  match r with
  | Ok _ => mret true
  | Err NotFound => mret false
  | Err e => throw e
  end.

Definition s3_read_blob (repo : string) (d : Digest) : s3m bytes :=
  key ← of_result (blob_key prefix repo d);
  got ← store_read (o_get (obj_path key));
  of_result (map_err obj_io got).

(** The signed URL a client is sent to, when it may be. *)
Definition signed_redirect (path : string) (size : Z) : option string :=
  if (0 <? c_redirect_min_size client)%Z && (c_redirect_min_size client <=? size)%Z then
    sign ← c_signer client;
    u ← ok (sign "GET" path (c_redirect_ttl client));
    if permits (c_guard client) u then Some (url_text u) else None
  else None.

(** The opener asks the store when the stream is made. *)
Definition range_opener (b : bucket) (path : string) (start len : Z) : result io_error BlobStream :=
  let? st := map_err (λ e, IoError KOther (obj_text e)) (o_get_stream path start (start + len) b).2 in
  Ok (map_err (λ e, IoError KOther (obj_text e)) <$> st).

Definition s3_open_blob (repo : string) (d : Digest) : s3m BlobRead :=
  key ← of_result (blob_key prefix repo d);
  let path := obj_path key in
  size ← store_read (o_head path);
  match signed_redirect path size with
  | Some url => mret {| br_size := size; br_source := Redirect url |}
  | None =>
      b ← gets x_bucket;
      mret {| br_size := size; br_source := Ranged (range_opener b path) |}
  end.

(** ** Upload sessions *)

Definition s3_begin_upload (repo : string) : s3m string :=
  of_result (validate_repo repo);;
  begin_upload_session repo.

Definition s3_append_upload (repo id : string) (body : UploadBody) (expected_offset : option Z) (limit : Z) : s3m Z :=
  of_result (validate_repo repo);;
  append_to_staging repo id body expected_offset limit.

Definition s3_upload_size (repo id : string) : s3m Z :=
  of_result (validate_repo repo);;
  staging_size repo id.

Definition s3_abort_upload (repo id : string) : s3m bool :=
  of_result (validate_repo repo);;
  match repo_staging_rel repo with
  | Err _ => mret false
  | Ok dir_rel =>
      if negb (is_ok (staging_rel repo id)) then mret false else
      r ← attempt (on_root (unlink_beneath dir_rel id));
      removed ← match r with
                | Ok _ => mret true
                | Err e => if decide (io_kind e = KNotFound) then mret false else throw (Io e)
                end;
      (if removed : bool then s3_end_session else mret tt);;
      mret removed
  end.

(** ** Publishing *)

Definition s3_admit_blob (repo : string) (d : Digest) (size : Z) : s3m Z :=
  tracked ← gets (λ s, tracks_bytes (x_quota s));
  if negb tracked then mret 0%Z else
  present ← s3_blob_exists repo d;
  if present : bool then mret 0%Z else
  s3_on_quota (λ q, quota_admit q repo size);;
  mret size.

Definition cache_layout (repo : string) : s3m () := modify (λ s, put_layout_cache ({[repo]} ∪ x_layout_cache s) s).

Definition s3_ensure_layout (repo : string) : s3m () :=
  known ← gets (λ s, bool_decide (repo ∈ x_layout_cache s));
  if known : bool then mret tt else
  lk ← of_result (layout_key prefix repo);
  let lp := obj_path lk in
  there ← attempt (on_bucket (o_head lp));
  if is_ok there then cache_layout repo else
  store_write (o_put lp (as_bytes OCI_LAYOUT_MARKER));;
  ik ← of_result (index_key prefix repo);
  let ip := obj_path ik in
  indexed ← attempt (on_bucket (o_head ip));
  (if is_ok indexed then mret tt else store_write (o_put ip (to_vec empty_index)));;
  cache_layout repo.

(** The loop of [parallel_copy]: with parts of at least a byte, as many turns as
    there are bytes are enough. *)
Fixpoint copy_loop (fuel : nat) (from : string) (size offset : Z) (w : writer) : s3m writer :=
  match fuel with
  | O => mret w
  | S fuel =>
      if negb (offset <? size)%Z then mret w else
      r ← attempt (on_bucket (o_wait w (c_concurrency client)));
      match r with
      | Err e => store_write (o_abort w);; throw (obj_err_write e)
      | Ok w =>
          let len := ((size - offset) `min` c_part_size client)%Z in
          chunk ← mapping_err (λ e, Io (IoError KOther ("parallel copy range GET: " +:+ obj_text e)))
                    (on_bucket (o_get_range from offset (offset + len)));
          copy_loop fuel from size (offset + len) (o_write chunk w)
      end
  end.

Definition parallel_copy (from to : string) (size : Z) : s3m () :=
  u ← store_write (o_put_multipart to);
  w ← copy_loop (Z.to_nat size) from size 0 (o_writer u (c_part_size client));
  store_write (o_finish w).

Definition copy_object (from_repo to_repo : string) (d : Digest) (size : Z) : s3m () :=
  from_key ← of_result (blob_key prefix from_repo d);
  to_key ← of_result (blob_key prefix to_repo d);
  let from_path := obj_path from_key in
  let to_path := obj_path to_key in
  if (size <=? c_copy_limit client)%Z then store_write (o_copy from_path to_path)
  else parallel_copy from_path to_path size.

Definition try_server_side_copy (repo : string) (d : Digest) (digest : string) (size : Z) : s3m bool :=
  x ← gets x_dedupe;
  if negb (dd_enabled x) then mret false else
  match locate x digest repo with
  | None => mret false
  | Some source_repo =>
      r ← attempt (copy_object source_repo repo d size);
      mret (is_ok r)
  end.

(** The multipart loop of [upload_staged_blob]; one more turn than bytes. *)
Fixpoint upload_loop (fuel : nat) (rest : bytes) (w : writer) : s3m writer :=
  match fuel with
  | O => mret w
  | S fuel =>
      r ← attempt (on_bucket (o_wait w (c_concurrency client)));
      match r with
      | Err e => store_write (o_abort w);; throw (obj_err_write e)
      | Ok w =>
          '(chunk, rest) ← s3_io (read_some (c_part_size client) rest);
          if bool_decide (chunk = []) then mret w
          else upload_loop fuel rest (o_write chunk w)
      end
  end.

Definition upload_staged_blob (repo : string) (d : Digest) (id : string) : s3m () :=
  rel ← of_result (staging_rel repo id);
  key ← of_result (blob_key prefix repo d);
  let path := obj_path key in
  stat ← s3_io (stat_beneath rel);
  file_size ← match stat with Some (true, sz) => mret sz | _ => throw NotFound end;
  if (file_size <=? c_part_size client)%Z then
    f ← s3_io (open_beneath rel);
    data ← s3_io (read_to_end f);
    store_write (o_put path data)
  else
    u ← store_write (o_put_multipart path);
    '(_, content) ← s3_io (open_beneath rel);
    w ← upload_loop (S (length content)) content (o_writer u (c_part_size client));
    store_write (o_finish w).

Definition s3_put_blob (repo : string) (d : Digest) (data : bytes) : s3m () :=
  of_result (validate_repo repo);;
  let actual := digest_of data (algorithm d) in
  if negb (ct_eq actual d) then throw (DigestMismatch (Digest_fmt d) (Digest_fmt actual)) else
  let digest := Digest_fmt d in
  charged ← s3_admit_blob repo d (blen data);
  laid ← attempt (s3_ensure_layout repo);
  match laid with
  | Err e => s3_release repo charged;; throw e
  | Ok _ =>
      linked ← try_server_side_copy repo d digest (blen data);
      (if linked : bool then mret tt
       else
         key ← of_result (blob_key prefix repo d);
         r ← attempt (on_bucket (o_put (obj_path key) data));
         match r with
         | Err e => s3_release repo charged;; throw (obj_err_write e)
         | Ok _ => mret tt
         end);;
      s3_blob_entered repo digest (Some {| ck_crc32c := crc32c data; ck_size := blen data |})
  end.

Definition s3_finish_upload (repo id : string) (expected : Digest) (max_size : Z) (trailing : UploadBody) (limit : Z)
    : s3m () :=
  of_result (validate_repo repo);;
  _ ← append_to_staging repo id trailing None limit;
  staged_size ← staging_size repo id;
  if (max_size <? staged_size)%Z then s3_discard_session repo id;; throw (TooLarge max_size staged_size) else
  '(actual, crc, size) ← hash_staging repo id (algorithm expected);
  if negb (ct_eq actual expected) then
    s3_discard_session repo id;; throw (DigestMismatch (Digest_fmt expected) (Digest_fmt actual))
  else
  let digest := Digest_fmt expected in
  admitted ← attempt (s3_admit_blob repo expected size);
  match admitted with
  | Err e => s3_discard_session repo id;; throw e
  | Ok charged =>
      laid ← attempt (s3_ensure_layout repo);
      match laid with
      | Err e => s3_release repo charged;; s3_discard_session repo id;; throw e
      | Ok _ =>
          linked ← try_server_side_copy repo expected digest size;
          (if linked : bool then mret tt
           else
             r ← attempt (upload_staged_blob repo expected id);
             match r with
             | Err e => s3_release repo charged;; s3_discard_session repo id;; throw e
             | Ok _ => mret tt
             end);;
          remove_staging repo id;;
          s3_blob_entered repo digest (Some {| ck_crc32c := crc; ck_size := size |})
      end
  end.

Definition s3_delete_blob (repo : string) (d : Digest) : s3m () :=
  of_result (validate_repo repo);;
  key ← of_result (blob_key prefix repo d);
  let path := obj_path key in
  size ← store_read (o_head path);
  store_read (o_delete path);;
  s3_blob_left repo (Digest_fmt d) (Some size).

Definition s3_mount_blob (from_repo to_repo : string) (d : Digest) : s3m bool :=
  of_result (validate_repo from_repo);;
  of_result (validate_repo to_repo);;
  r ← attempt (s3_blob_size from_repo d);
  match r with
  | Err NotFound => mret false
  | Err e => throw e
  | Ok size =>
      let digest := Digest_fmt d in
      if decide (from_repo = to_repo) then mret true else
      charged ← s3_admit_blob to_repo d size;
      laid ← attempt (s3_ensure_layout to_repo);
      match laid with
      | Err e => s3_release to_repo charged;; throw e
      | Ok _ =>
          copied ← attempt (copy_object from_repo to_repo d size);
          match copied with
          | Err e => s3_release to_repo charged;; throw e
          | Ok _ =>
              cs ← gets (λ s, checksum (mview (x_meta s)) from_repo digest);
              s3_blob_entered to_repo digest cs;;
              mret true
          end
      end
  end.

(** ** index.json *)

Definition read_remote_index (repo : string) : s3m json :=
  key ← of_result (index_key prefix repo);
  got ← store_read (o_get (obj_path key));
  b ← of_result (map_err obj_io got);
  match from_slice b with
  | Some v => mret v
  | None => throw (Io (IoError KInvalidData "invalid index.json"))
  end.

(** The sizes of [index_over]: the existing entries, the later ones first, under
    the manifests this process stored. *)
Definition existing_size (existing : option json) (d : string) : option Z :=
  head (omap (λ e, digest ← descriptor_digest e; size ← jget "size" e ≫= as_u64;
                   if decide (digest = d) then Some size else None)
             (rev (from_option index_manifests [] existing))).

Definition index_over (repo : string) (existing : option json) (s : S3Store) : json :=
  index_from_meta (mview (x_meta s)) repo existing (λ d,
    match x_manifest_sizes s !! (repo, d) with
    | Some n => Some n
    | None => existing_size existing d
    end).

(** The remote index, [None] when there is none. *)
Definition existing_index (repo : string) : s3m (option json) :=
  r ← attempt (read_remote_index repo);
  match r with
  | Ok idx => mret (Some idx)
  | Err NotFound => mret None
  | Err e => throw e
  end.

Definition write_remote_index (repo : string) : s3m () :=
  existing ← existing_index repo;
  index ← gets (index_over repo existing);
  key ← of_result (index_key prefix repo);
  store_write (o_put (obj_path key) (to_vec index)).

Definition read_index_view (repo : string) : s3m json :=
  dirty ← gets (λ s, bool_decide (is_Some (x_index_dirty s !! repo)));
  if negb dirty then read_remote_index repo else
  existing ← existing_index repo;
  gets (index_over repo existing).

(** One repository of the background writer's turn. *)
Definition write_dirty (rg : string * Z) : s3m () :=
  let '(repo, generation) := rg in
  r ← attempt (write_remote_index repo);
  match r with
  | Err _ => mret tt
  | Ok _ =>
      modify (λ s, if decide (x_index_dirty s !! repo = Some generation)
                   then put_index_dirty (delete repo (x_index_dirty s)) s else s)
  end.

Fixpoint write_each (rgs : list (string * Z)) : s3m () :=
  match rgs with
  | [] => mret tt
  | rg :: rgs => write_dirty rg;; write_each rgs
  end.

Definition index_writer_turn : s3m () :=
  dirty ← gets (λ s, iter (x_index_dirty s));
  write_each dirty.

Definition s3_index_resolve_tag (repo tag : string) : s3m (Digest * string) :=
  index ← read_index_view repo;
  manifests ← of_result (ok_or (jget "manifests" index ≫= as_array) NotFound);
  entry ← of_result (ok_or (List.find (λ e, bool_decide (descriptor_tag e = Some tag)) manifests) NotFound);
  ds ← of_result (ok_or (descriptor_digest entry) NotFound);
  d ← of_result (Digest_parse ds);
  mret (d, default MEDIA_TYPE_IMAGE_MANIFEST (jget "mediaType" entry ≫= as_str)).

Definition s3_index_media_type (repo digest : string) (s : S3Store) : option string :=
  idx ← x_cached_index s !! repo;
  e ← List.find (λ e, bool_decide (descriptor_digest e = Some digest)) (index_manifests idx);
  jget "mediaType" e ≫= as_str.

(** ** Manifests *)

Definition tag_refused (tag : string) : bool :=
  bool_decide (tag = "") || bool_decide (tag = ".") || bool_decide (tag = "..")
  || existsb (λ b, bool_decide (b = "/") || bool_decide (b = "\") || bool_decide (b = "000"))%char (as_bytes tag).

Fixpoint require_all (repo : string) (ds : list Digest) : s3m () :=
  match ds with
  | [] => mret tt
  | d :: ds =>
      there ← s3_blob_exists repo d;
      if negb there then throw (MissingReference (Digest_fmt d)) else require_all repo ds
  end.

Definition s3_put_manifest (repo : string) (tag : option string) (d : Digest) (media_type : string) (data : bytes)
    (links : ManifestLinks) : s3m () :=
  of_result (validate_repo repo);;
  match tag with
  | Some t => if tag_refused t then throw (BadPath t) else mret tt
  | None => mret tt
  end;;
  referrer ← of_result (match link_subject links with
                        | Some (subject, descriptor) =>
                            let? b := referrer_descriptor subject descriptor in Ok (Some (Digest_fmt subject, b))
                        | None => Ok None
                        end);
  s3_put_blob repo d data;;
  require_all repo (required links);;
  let digest := Digest_fmt d in
  let refs := Digest_fmt <$> references links in
  s3_apply_meta repo (PutManifest repo digest media_type tag refs referrer);;
  record_manifest_size repo digest (blen data);;
  modify (λ s, put_gc (foldl (λ g r, gc_clear g repo r) (gc_clear (x_gc s) repo digest) refs) s).

Definition s3_get_manifest (repo reference : string) : s3m ManifestRef :=
  of_result (validate_repo repo);;
  '(d, media_type) ←
    (if contains_char ":" reference then
       d ← of_result (Digest_parse reference);
       known ← gets (λ s, manifest_media_type (mview (x_meta s)) repo reference);
       cached ← gets (s3_index_media_type repo reference);
       mret (d, match known with
                | Some mt => mt
                | None => default MEDIA_TYPE_IMAGE_MANIFEST cached
                end)
     else
       resolved ← gets (λ s, resolve_tag (mview (x_meta s)) repo reference);
       match resolved with
       | Some (ds, mt) => d ← of_result (Digest_parse ds); mret (d, mt)
       | None => s3_index_resolve_tag repo reference
       end);
  b ← s3_read_blob repo d;
  mret {| mr_digest := d; mr_media_type := media_type; mr_bytes := b |}.

Definition s3_delete_manifest (repo : string) (d : Digest) : s3m () :=
  of_result (validate_repo repo);;
  let digest := Digest_fmt d in
  r ← attempt (s3_read_blob repo d);
  let refs := match r with
              | Ok b => match from_slice b with Some v => manifest_references v | None => [] end
              | Err _ => []
              end in
  s3_delete_blob repo d;;
  forget_manifest_size repo digest;;
  s3_apply_meta repo (DeleteManifest repo digest);;
  modify (λ s, foldl (λ s r,
    if bool_decide (get_backrefs (mview (x_meta s)) repo r = [])
    then put_gc (mark (x_gc s) repo r (s3_now s)) s else s) s (Digest_fmt <$> refs)).

(** ** Listings *)

Definition s3_list_tags (repo : string) (last : option string) (limit : nat) : s3m (Page string) :=
  of_result (validate_repo repo);;
  page ← gets (λ s, tags_page (mview (x_meta s)) repo last limit);
  match page with
  | Some p => mret p
  | None => index ← read_index_view repo; mret (layout_tags_page index last limit)
  end.

Definition s3_list_referrers (repo : string) (subject : Digest) (artifact_type last : option string) (limit : nat)
    : s3m (Page (string * bytes)) :=
  of_result (validate_repo repo);;
  let target := Digest_fmt subject in
  page ← gets (λ s, referrers_page (mview (x_meta s)) repo target artifact_type last limit);
  match page with
  | Some p => mret p
  | None =>
      index ← read_index_view repo;
      let linked := layout_subject_referrers index target in
      if bool_decide (linked = []) then mret (mkPage [] false)
      else mret (page_layout_referrers linked artifact_type last limit)
  end.

#[export] Instance s3_storage : Storage := {|
  sto := S3Store;
  s_blob_size := s3_blob_size;
  s_blob_exists := s3_blob_exists;
  s_read_blob := s3_read_blob;
  s_open_blob := s3_open_blob;
  s_begin_upload := s3_begin_upload;
  s_append_upload := s3_append_upload;
  s_upload_size := s3_upload_size;
  s_abort_upload := s3_abort_upload;
  s_mount_blob := s3_mount_blob;
  s_finish_upload := s3_finish_upload;
  s_put_blob := s3_put_blob;
  s_delete_blob := s3_delete_blob;
  s_put_manifest := s3_put_manifest;
  s_get_manifest := s3_get_manifest;
  s_delete_manifest := s3_delete_manifest;
  s_list_tags := s3_list_tags;
  s_list_referrers := s3_list_referrers;
|}.
End S3.
