(* ===== verification/S3Keys.v ===== *)
(** The keys of the S3 backend: where the objects of a repository live, that keys
    of different kinds never meet, and that the repository and the digest can be
    read back from a key. *)

From S2P Require Import Config NetAddr.
From S2P Require Import StorageApi Prelude RustStr Json Errors Digest Names Paths Metadata Effect FileSys.
From S2P Require Import Layout ObjectStore S3Storage.

(** ** Strings *)

Lemma string_app_inj_l s t u : s +:+ t = s +:+ u → t = u.
Proof. induction s as [|c s IH]; simpl; [done|]. intros [= H]. by apply IH. Qed.

Lemma strip_prefix_app p s : strip_prefix p (p +:+ s) = Some s.
Proof. by apply strip_prefix_Some. Qed.

Lemma strip_suffix_app s t : strip_suffix t (s +:+ t) = Some s.
Proof.
  unfold strip_suffix, ends_with. rewrite as_bytes_app, rev_app_distr, bool_decide_eq_true_2 by (by eexists).
  rewrite string_app_length. replace (_ + _ - _) with (length (as_bytes s)) by (rewrite as_bytes_length; lia).
  by rewrite take_app_length, of_as_bytes.
Qed.

Lemma clean_ne c : clean c = true → c ≠ "".
Proof. unfold clean. rewrite !andb_true_iff, !negb_true_iff, !bool_decide_eq_false. tauto. Qed.

Lemma clean_no_slash c : clean c = true → contains_char "/" c = false.
Proof.
  unfold clean. rewrite !andb_true_iff. intros [_ Hc]. apply contains_char_false. intros Hin.
  rewrite string_forallb_bytes, forallb_Forall_bool, Forall_forall in Hc. by specialize (Hc _ Hin).
Qed.

Lemma split_child p c : contains_char "/" c = false → split "/" (child p c) = (if decide (p = "") then [] else split "/" p) ++ [c].
Proof.
  intros Hc. unfold child. case_decide; [by apply split_no_sep|].
  change (p +:+ "/" +:+ c) with (p +:+ String "/" c). rewrite split_app_gen. by rewrite (split_no_sep _ c).
Qed.

Lemma child_ne p c : c ≠ "" → child p c ≠ "".
Proof. unfold child. case_decide; [done|]. by destruct p. Qed.

Lemma lower_hex_clean h : string_forallb is_lower_hexdigit h = true → h ≠ "" → clean h = true.
Proof.
  intros Hh Hne. unfold clean. rewrite !andb_true_iff, !negb_true_iff, !bool_decide_eq_false. split_and!; [done|..].
  - intros ->. done.
  - intros ->. done.
  - eapply string_forallb_impl; [|exact Hh]. intros b. by destruct b as [[] [] [] [] [] [] [] []].
Qed.

Lemma wf_clean d : digest_wf d → clean (algorithm d) = true ∧ clean (hex d) = true.
Proof.
  intros [Ha Hh]. split; [by apply algorithm_len_Some in Ha as [[-> _]|[-> _]]|]. apply lower_hex_clean; [done|].
  intros E. rewrite E in Ha. by apply algorithm_len_Some in Ha as [[_ ?]|[_ ?]].
Qed.

(** ** Paths of blobs *)

(** The object at [k] is a blob with the digest [d]. *)
Definition blob_object (k : string) (d : Digest) : Prop :=
  digest_wf d ∧ ∃ r, split "/" k = r ++ ["blobs"; algorithm d; hex d].

Lemma blob_object_inj k d d' : blob_object k d → blob_object k d' → d = d'.
Proof.
  intros [_ [r Hr]] [_ [r' Hr']]. rewrite Hr in Hr'. apply app_inj_2 in Hr' as [_ E]; [|done].
  destruct d, d'. simpl in *. by simplify_eq.
Qed.

(** An object whose name cannot be the hexadecimal part of a digest. *)
Lemma not_blob_object k r c : split "/" k = r ++ [c] → string_forallb is_lower_hexdigit c = false → ∀ d, ¬ blob_object k d.
Proof.
  intros Hk Hc d [[_ Hh] [r' Hr]]. rewrite Hk in Hr.
  change (r' ++ ["blobs"; algorithm d; hex d]) with (r' ++ (["blobs"; algorithm d] ++ [hex d])) in Hr.
  rewrite app_assoc in Hr. apply app_inj_2 in Hr as [_ [= E]]; [|done]. congruence.
Qed.

Section Keys.
Context `{!ObjPaths, !ObjPathLaws}.

Lemma blob_path rp d :
  digest_wf d →
  obj_path (rp +:+ "/blobs/" +:+ algorithm d +:+ "/" +:+ hex d) =
  child (child (child (obj_path rp) "blobs") (algorithm d)) (hex d).
Proof.
  intros [Ha Hh]%wf_clean.
  replace (rp +:+ "/blobs/" +:+ algorithm d +:+ "/" +:+ hex d)
    with (((rp +:+ "/" +:+ "blobs") +:+ "/" +:+ algorithm d) +:+ "/" +:+ hex d) by (rewrite !string_app_assoc; done).
  by rewrite !obj_path_child.
Qed.

Lemma blob_key_object prefix repo d k : digest_wf d → blob_key prefix repo d = Ok k → blob_object (obj_path k) d.
Proof.
  intros Hd Hk. unfold blob_key in Hk. case_res. split; [done|]. rewrite blob_path by done.
  destruct (wf_clean d Hd) as [Ha Hh]. rewrite !split_child by (by apply clean_no_slash).
  rewrite !decide_False by (by apply child_ne; [apply clean_ne]). rewrite <-!app_assoc. by eexists.
Qed.

(** What is written beside the blobs is no blob. *)
Lemma side_key_no_blob k name d :
  clean name = true → string_forallb is_lower_hexdigit name = false → ¬ blob_object (obj_path (k +:+ "/" +:+ name)) d.
Proof.
  intros Hn Hx. rewrite obj_path_child by done. eapply not_blob_object; [|exact Hx]. by apply split_child, clean_no_slash.
Qed.

Lemma index_key_no_blob prefix repo k d : index_key prefix repo = Ok k → ¬ blob_object (obj_path k) d.
Proof. intros Hk. unfold index_key in Hk. case_res. by apply (side_key_no_blob _ "index.json"). Qed.

Lemma layout_key_no_blob prefix repo k d : layout_key prefix repo = Ok k → ¬ blob_object (obj_path k) d.
Proof. intros Hk. unfold layout_key in Hk. case_res. by apply (side_key_no_blob _ "oci-layout"). Qed.
End Keys.

(** ** Keys of repositories *)

(** A prefix of the configuration that object paths keep as it is. *)
Definition prefix_ok (prefix : string) : Prop := prefix = "" ∨ Forall (λ c, clean c = true) (split "/" prefix).

Lemma component_clean c : component (as_bytes c) → clean c = true.
Proof.
  intros Hc. unfold clean. destruct (component_head _ Hc) as (b & l & Hb & Hal).
  rewrite !andb_true_iff, !negb_true_iff, !bool_decide_eq_false. split_and!; [by intros ->..| | |].
  - intros ->. simpl in Hb. by simplify_eq.
  - intros ->. simpl in Hb. by simplify_eq.
  - rewrite string_forallb_bytes. apply forallb_Forall_bool, Forall_forall. intros x Hx.
    destruct (component_byte _ _ Hc Hx) as [H|H]; destruct x as [[] [] [] [] [] [] [] []]; by vm_compute in H.
Qed.

Lemma name_clean repo : repository_name repo → Forall (λ c, clean c = true) (split "/" repo).
Proof. intros [_ Hc]. eapply Forall_impl; [exact Hc|]. intros c. apply component_clean. Qed.

Lemma validate_component_clean c : clean c = true → validate_component c = Ok tt.
Proof.
  unfold clean, validate_component. rewrite !andb_true_iff, !negb_true_iff, !bool_decide_eq_false. intros [[[H1 H2] H3] H4].
  rewrite !bool_decide_eq_false_2 by done. simpl. destruct (existsb _ _) eqn:E; [|done].
  apply existsb_Exists_bool in E as (b & Hb & E). rewrite string_forallb_bytes, forallb_Forall_bool, Forall_forall in H4.
  specialize (H4 b Hb). apply orb_true_iff in E as [E|E]; apply bool_decide_eq_true in E as ->; by vm_compute in H4.
Qed.

Lemma validate_repo_name repo : repository_name repo → validate_repo repo = Ok tt.
Proof.
  intros Hr%name_clean. unfold validate_repo. induction Hr as [|c cs Hc _ IH]; simpl; [done|].
  by rewrite (validate_component_clean c Hc), IH.
Qed.

Lemma foldl_child_ne p cs : p ≠ "" → foldl child p cs ≠ "".
Proof. revert p. induction cs as [|c cs IH]; intros p Hp; simpl; [done|]. apply IH. unfold child. rewrite decide_False by done. by destruct p. Qed.

(** The components of a path after children were added. *)
Definition path_parts (p : string) : list string := if decide (p = "") then [] else split "/" p.

Lemma split_children p cs :
  Forall (λ c, clean c = true) cs → path_parts (foldl child p cs) = path_parts p ++ cs.
Proof.
  intros Hcs. revert p. induction Hcs as [|c cs Hc _ IH]; intros p; simpl; [by rewrite app_nil_r|].
  rewrite IH. unfold path_parts at 1. rewrite decide_False by (by apply child_ne, clean_ne).
  rewrite split_child by (by apply clean_no_slash). unfold path_parts. by rewrite <-app_assoc.
Qed.

Lemma path_parts_inj p q : path_parts p = path_parts q → p = q.
Proof.
  unfold path_parts. repeat case_decide; subst; [done|..].
  - intros E. by destruct (split_nonempty "/" q).
  - intros E. by destruct (split_nonempty "/" p).
  - intros E. by rewrite <-(join_split "/" p), E, join_split.
Qed.

Section Repositories.
Context `{!ObjPaths, !ObjPathLaws}.

Lemma obj_path_children k cs :
  Forall (λ c, clean c = true) cs → cs ≠ [] → obj_path (k +:+ "/" +:+ join "/" cs) = foldl child (obj_path k) cs.
Proof.
  intros Hcs. revert k. induction Hcs as [|c cs Hc Hcs IH]; intros k Hne; [done|]. destruct cs as [|c' cs].
  - simpl. by apply obj_path_child.
  - rewrite join_cons_ne by done.
    change (foldl child (obj_path k) (c :: c' :: cs)) with (foldl child (child (obj_path k) c) (c' :: cs)).
    transitivity (obj_path ((k +:+ "/" +:+ c) +:+ "/" +:+ join "/" (c' :: cs))); [by rewrite !string_app_assoc|].
    by rewrite IH, obj_path_child.
Qed.

Lemma obj_path_clean s : Forall (λ c, clean c = true) (split "/" s) → obj_path s = s.
Proof.
  intros Hs. destruct (split "/" s) as [|c cs] eqn:E; [by destruct (split_nonempty "/" s)|].
  apply Forall_cons in Hs as [Hc Hcs]. apply path_parts_inj.
  assert (Hp : path_parts s = c :: cs).
  { unfold path_parts. rewrite decide_False; [done|]. intros ->. simpl in E. simplify_eq. }
  rewrite Hp. rewrite <-(join_split "/" s), E. destruct cs as [|c' cs].
  - simpl. rewrite obj_path_segment by done. unfold path_parts. rewrite decide_False by (by apply clean_ne).
    by apply split_no_sep, clean_no_slash.
  - rewrite join_cons_ne by done. rewrite obj_path_children by done. rewrite split_children by done.
    rewrite obj_path_segment by done. unfold path_parts. rewrite decide_False by (by apply clean_ne).
    by rewrite (split_no_sep _ c) by (by apply clean_no_slash).
Qed.

(** Where the objects of a repository start. *)
Lemma repo_prefix_parts prefix repo :
  repository_name repo → ∃ rp, repo_prefix prefix repo = Ok rp ∧ rp ≠ "" ∧
  path_parts (obj_path rp) = (if decide (prefix = "") then [] else path_parts (obj_path prefix)) ++ split "/" repo.
Proof.
  intros Hr. pose proof (name_clean repo Hr) as Hc. unfold repo_prefix. rewrite validate_repo_name by done. simpl.
  eexists. split; [done|]. assert (repo ≠ "").
  { intros ->. destruct Hr as [[H' _] _]. unfold slen in H'. simpl in H'. lia. }
  case_decide; [split; [done|]|split; [by destruct prefix|]].
  - rewrite obj_path_clean by done. unfold path_parts. by rewrite decide_False.
  - rewrite <-(join_split "/" repo) at 1. rewrite obj_path_children by (done || apply split_nonempty).
    by apply split_children.
Qed.

Lemma blob_key_parts prefix repo d :
  repository_name repo → digest_wf d → ∃ k, blob_key prefix repo d = Ok k ∧
  path_parts (obj_path k) =
    (if decide (prefix = "") then [] else path_parts (obj_path prefix)) ++ split "/" repo ++ ["blobs"; algorithm d; hex d].
Proof.
  intros Hr Hd. destruct (repo_prefix_parts prefix repo Hr) as (rp & Hrp & _ & Hparts). unfold blob_key. rewrite Hrp.
  simpl. eexists. split; [done|]. rewrite blob_path by done. destruct (wf_clean d Hd) as [Ha Hh].
  change (child (child (child (obj_path rp) "blobs") (algorithm d)) (hex d))
    with (foldl child (obj_path rp) ["blobs"; algorithm d; hex d]).
  rewrite split_children by (by repeat constructor). by rewrite Hparts, <-app_assoc.
Qed.

(** Blobs of different repositories or digests are different objects. *)
Lemma blob_key_inj prefix repo d repo' d' k k' :
  repository_name repo → repository_name repo' → digest_wf d → digest_wf d' →
  blob_key prefix repo d = Ok k → blob_key prefix repo' d' = Ok k' → obj_path k = obj_path k' → repo = repo' ∧ d = d'.
Proof.
  intros Hr Hr' Hd Hd' Hk Hk' E.
  destruct (blob_key_parts prefix repo d Hr Hd) as (k1 & Hk1 & P1).
  destruct (blob_key_parts prefix repo' d' Hr' Hd') as (k2 & Hk2 & P2).
  assert (k1 = k) as -> by congruence. assert (k2 = k') as -> by congruence.
  rewrite E, P2 in P1. apply (inj (app _)) in P1. apply app_inj_2 in P1 as [P1 P3]; [|done]. split.
  - by rewrite <-(join_split "/" repo), <-P1, join_split.
  - destruct d, d'. simpl in *. by simplify_eq.
Qed.

Lemma repo_prefix_clean prefix repo rp :
  prefix_ok prefix → repository_name repo → repo_prefix prefix repo = Ok rp → obj_path rp = rp.
Proof.
  intros Hp Hr Hrp. pose proof (name_clean repo Hr) as Hc. unfold repo_prefix in Hrp. case_res. apply obj_path_clean.
  case_decide; [done|]. destruct Hp as [?|Hp]; [done|].
  change (prefix +:+ "/" +:+ repo) with (prefix +:+ String "/" repo). rewrite split_app_gen. by apply Forall_app.
Qed.

Lemma extract_repo_of prefix repo rp :
  repository_name repo → repo_prefix prefix repo = Ok rp →
  extract_repo_from_index_key (rp +:+ "/" +:+ "index.json") prefix = Some repo.
Proof.
  intros Hr Hrp. unfold extract_repo_from_index_key. change ("/" +:+ "index.json") with "/index.json".
  rewrite strip_suffix_app. simpl. unfold repo_prefix in Hrp. case_res.
  assert (repo ≠ ""). { intros ->. destruct Hr as [[H' _] _]. unfold slen in H'. simpl in H'. lia. }
  case_decide; simpl; [by rewrite decide_False|]. rewrite strip_prefix_app. simpl. by rewrite decide_False.
Qed.

Lemma strip_suffix_Some t s u : strip_suffix t s = Some u → s = u +:+ t.
Proof.
  unfold strip_suffix, ends_with. case_bool_decide as Hp; [|done]. intros [= <-]. destruct Hp as [r Hr].
  apply (f_equal (@rev ascii)) in Hr. rewrite rev_app_distr, !rev_involutive in Hr.
  rewrite <-(of_as_bytes s) at 1. rewrite Hr.
  replace (String.length s - String.length t) with (length (rev r)).
  - rewrite take_app_length. rewrite <-(of_as_bytes (of_bytes (rev r) +:+ t)). by rewrite as_bytes_app, as_of_bytes.
  - apply (f_equal length) in Hr. rewrite length_app, !as_bytes_length in Hr. lia.
Qed.

Lemma extract_repo_inv prefix repo rp k :
  repo_prefix prefix repo = Ok rp → extract_repo_from_index_key k prefix = Some repo → k = rp +:+ "/" +:+ "index.json".
Proof.
  intros Hrp Hk. unfold extract_repo_from_index_key in Hk.
  apply bind_Some in Hk as (w & Hw%strip_suffix_Some & Hk). apply bind_Some in Hk as (r & Hr & Hk).
  case_decide; [done|]. injection Hk as ->. subst k. unfold repo_prefix in Hrp. case_res.
  case_decide; [by simplify_eq|]. apply bind_Some in Hr as (rest & Hrest%strip_prefix_Some & Hr%strip_prefix_Some).
  subst. by rewrite !string_app_assoc.
Qed.

(** What the start reads from the keys of the bucket is what was written
    there: from the key of [index.json] it gets the repository back, from the key
    of a blob its digest; and a repository is read from no other key. *)
Theorem s3_keys_roundtrip prefix repo d :
  prefix_ok prefix → repository_name repo → digest_wf d →
  ∃ rp ik bk, repo_prefix prefix repo = Ok rp ∧ index_key prefix repo = Ok ik ∧ blob_key prefix repo d = Ok bk ∧
    extract_repo_from_index_key (obj_path ik) prefix = Some repo ∧
    extract_digest_from_blob_key (obj_path bk) rp = Some (Digest_fmt d) ∧
    ∀ k, extract_repo_from_index_key k prefix = Some repo → k = obj_path ik.
Proof.
  intros Hp Hr Hd. destruct (repo_prefix_parts prefix repo Hr) as (rp & Hrp & Hne & Hparts).
  assert (Hpath : obj_path rp = rp) by by eapply repo_prefix_clean.
  exists rp, (rp +:+ "/index.json"), (rp +:+ "/blobs/" +:+ algorithm d +:+ "/" +:+ hex d).
  unfold index_key, blob_key. rewrite Hrp. split_and!; [done..| | |].
  - change (rp +:+ "/index.json") with (rp +:+ "/" +:+ "index.json"). rewrite obj_path_child, Hpath by done.
    unfold child. rewrite decide_False by done. by apply extract_repo_of.
  - rewrite blob_path, Hpath by done. unfold child at 3. rewrite decide_False by done.
    unfold child. rewrite !decide_False by (by destruct rp). rewrite !string_app_assoc.
    unfold extract_digest_from_blob_key. rewrite strip_prefix_app. simpl.
    rewrite (proj2 (split_once_Some _ _ (algorithm d) (hex d))); [done|].
    split; [done|]. apply clean_no_slash. by apply wf_clean.
  - intros k Hk. change (rp +:+ "/index.json") with (rp +:+ "/" +:+ "index.json"). rewrite obj_path_child, Hpath by done.
    unfold child. rewrite decide_False by done. by eapply extract_repo_inv.
Qed.
End Repositories.

(** ** Paths that drop empty segments *)

Module ToyPaths.
#[export] Instance toy_paths : ObjPaths := {| obj_path s := join "/" (filter (λ c, c ≠ "") (split "/" s)) |}.

Lemma join_ne cs : Forall (λ c, c ≠ "") cs → cs ≠ [] → join "/" cs ≠ "".
Proof. intros Hcs Hne. destruct cs as [|c [|c' cs]]; [done|..]; apply Forall_cons in Hcs as [Hc _]; simpl; [done|by destruct c]. Qed.

#[export] Instance toy_path_laws : ObjPathLaws.
Proof.
  split.
  - intros c Hc. simpl. rewrite split_no_sep by by apply clean_no_slash. rewrite filter_cons_True by by apply clean_ne. done.
  - intros k c Hc. simpl. change (k +:+ "/" +:+ c) with (k +:+ String "/" c). rewrite split_app_gen.
    rewrite (split_no_sep _ c) by by apply clean_no_slash. rewrite filter_app, (filter_cons_True _ c) by by apply clean_ne.
    set (l := filter _ (split "/" k)). unfold child. destruct (decide (l = [])) as [->|Hl]; [done|].
    rewrite join_app by done. rewrite decide_False; [done|]. apply join_ne; [|done]. apply Forall_forall.
    by intros x [? _]%list_elem_of_filter.
Qed.
End ToyPaths.

#[local] Existing Instances ToyPaths.toy_paths ToyPaths.toy_path_laws.

Lemma s3_keys_roundtrip_witness :
  let d := mkDigest "sha256" "ba7816bf8f01cfea414140de5dae2223b00361a396177a9cb410ff61f20015ad" in
  ∃ ik, index_key "data" "team/app" = Ok ik ∧
  extract_repo_from_index_key (obj_path ik) "data" = Some "team/app" ∧
  extract_digest_from_blob_key "data/team/app/blobs/sha256/ba7816bf8f01cfea414140de5dae2223b00361a396177a9cb410ff61f20015ad"
    "data/team/app" = Some (Digest_fmt d).
Proof.
  set (d := mkDigest _ _). assert (Hd : digest_wf d) by by vm_compute.
  assert (Hr : repository_name "team/app").
  { apply (proj1 (is_repo_prefix_spec "team/app")). by vm_compute. }
  assert (Hp : prefix_ok "data") by (right; by repeat constructor).
  destruct (s3_keys_roundtrip "data" "team/app" d Hp Hr Hd) as (rp & ik & bk & H1 & H2 & H3 & H4 & H5 & _).
  exists ik. split_and!; [done|done|]. vm_compute in H1. injection H1 as <-. vm_compute in H3. injection H3 as <-. exact H5.
Defined.
