(* ===== verification/S3Facts.v ===== *)
(** The integrity of the S3 backend: whatever calls of the object store fail,
    and whether or not a failed write took effect, every blob object holds
    content with the digest in its key, a digest reported as stored is there,
    and the backend keeps the storage contract. *)

From S2P Require Import Config NetAddr Triple.
From S2P Require Import StorageApi Prelude RustStr Json Errors Digest Paths Quota Metadata MetaLog.
From S2P Require Import MetaStore Effect FileSys FileSysFacts Walk Layout Lifecycle UploadBody ObjectStore.
From S2P Require Import S3Storage S3Keys.

Section Facts.
Context `{!Crypto, !CryptoLaws, !World, !SerdeJson, !HashIter, !MetadataStore}.
Context `{!ObjectStore, !ObjectStoreLaws, !ObjPaths, !ObjPathLaws, !UrlCrate}.

(** ** The invariant *)

Abbreviation objs s := (contents (x_bucket s)).

(** Every blob object hashes to the digest its key names. *)
Definition authentic (m : gmap string bytes) : Prop :=
  ∀ k d c, blob_object k d → m !! k = Some c → digest_of c (algorithm d) = d.
Definition s3_inv (s : S3Store) : Prop := authentic (objs s).

Lemma authentic_insert m k d c :
  authentic m → blob_object k d → digest_of c (algorithm d) = d → authentic (<[k := c]> m).
Proof.
  intros Hm Hk Hc k' d' c' Hk' [[-> <-]|[_ H']]%lookup_insert_Some; [|by eapply Hm].
  by rewrite (blob_object_inj k' d' d).
Qed.

(** ** Steps that leave the blob objects alone *)

(** The blob objects are as before. *)
Definition same_blobs (s s' : S3Store) : Prop := ∀ k d, blob_object k d → objs s' !! k = objs s !! k.
(** The staging files too. *)
Definition quiet (s s' : S3Store) : Prop := same_blobs s s' ∧ same_files (x_fs s) (x_fs s').
(** No blob object is lost. *)
Definition grows (s s' : S3Store) : Prop := ∀ k d, blob_object k d → is_Some (objs s !! k) → is_Some (objs s' !! k).
(** Nor a staging file touched. *)
Definition adds (s s' : S3Store) : Prop := grows s s' ∧ same_files (x_fs s) (x_fs s').
(** The invariant is kept. *)
Definition s3_pres (s s' : S3Store) : Prop := s3_inv s → s3_inv s'.

#[export] Instance same_blobs_preorder : PreOrder same_blobs.
Proof.
  split; [by intros s k d _|]. intros s1 s2 s3 K1 K2 k d Hk. by rewrite (K2 k d Hk), (K1 k d Hk).
Qed.
#[export] Instance quiet_preorder : PreOrder quiet.
Proof. split; [by intros s; split|]. intros s1 s2 s3 [K1 K2] [K3 K4]. split; by etrans. Qed.
#[export] Instance grows_preorder : PreOrder grows.
Proof. split; [by intros s k d _|]. intros s1 s2 s3 K1 K2 k d Hk Hc. eauto. Qed.
#[export] Instance adds_preorder : PreOrder adds.
Proof. split; [by intros s; split|]. intros s1 s2 s3 [K1 K2] [K3 K4]. split; by etrans. Qed.
#[export] Instance s3_pres_preorder : PreOrder s3_pres.
Proof. split; [by intros s Hs|]. intros s1 s2 s3 K1 K2 Hs. auto. Qed.

Lemma same_blobs_inv s s' : same_blobs s s' → s3_inv s → s3_inv s'.
Proof. intros Hb Hs k d c Hk Hc. apply (Hs k d c Hk). by rewrite <-(Hb k d Hk). Qed.

Lemma quiet_same_blobs {E A : Type} (m : M S3Store E A) : runs quiet m → runs same_blobs m.
Proof. intros Hm s. apply Hm. Qed.
Lemma same_blobs_pres {E A : Type} (m : M S3Store E A) : runs same_blobs m → runs s3_pres m.
Proof. intros Hm s Hs. by eapply same_blobs_inv; [apply Hm|]. Qed.
Lemma same_blobs_grows {E A : Type} (m : M S3Store E A) : runs same_blobs m → runs grows m.
Proof. intros Hm s k d Hk. by rewrite (Hm s k d Hk). Qed.
Lemma quiet_adds {E A : Type} (m : M S3Store E A) : runs quiet m → runs adds m.
Proof. intros Hm s. destruct (Hm s) as [Hb Hf]. split; [|done]. intros k d Hk. by rewrite (Hb k d Hk). Qed.
Lemma adds_grows {E A : Type} (m : M S3Store E A) : runs adds m → runs grows m.
Proof. intros Hm s. apply Hm. Qed.

(** Programs over the staging root and over the bucket. *)
Lemma on_root_state {E A : Type} (m : M Fs E A) s : on_root m s = (put_fs (m (x_fs s)).1 s, (m (x_fs s)).2).
Proof. unfold on_root, focus. by destruct (m (x_fs s)). Qed.
Lemma on_bucket_state {A : Type} (m : M bucket obj_error A) s :
  on_bucket m s = (put_bucket (m (x_bucket s)).1 s, (m (x_bucket s)).2).
Proof. unfold on_bucket, focus. by destruct (m (x_bucket s)). Qed.

Lemma same_blobs_root {E A : Type} (m : M Fs E A) : runs same_blobs (on_root m).
Proof. intros s. rewrite on_root_state. by intros k d _. Qed.
Lemma quiet_root {E A : Type} (m : M Fs E A) : runs same_files m → runs quiet (on_root m).
Proof. intros Hm s. rewrite on_root_state. split; [by intros k d _|apply Hm]. Qed.
Lemma quiet_bucket {A : Type} (m : M bucket obj_error A) : views contents m → runs quiet (on_bucket m).
Proof. intros Hm s. rewrite on_bucket_state. split; [|done]. intros k d _. simpl. by rewrite Hm. Qed.

Lemma quiet_io {A : Type} (m : M Fs io_error A) : runs same_files m → runs quiet (s3_io m).
Proof. intros Hm. by apply runs_mapping_err, quiet_root. Qed.
Lemma quiet_io_nf {A : Type} (m : M Fs io_error A) : runs same_files m → runs quiet (s3_io_nf m).
Proof. intros Hm. by apply runs_mapping_err, quiet_root. Qed.
Lemma quiet_read {A : Type} (m : M bucket obj_error A) : views contents m → runs quiet (store_read m).
Proof. intros Hm. by apply runs_mapping_err, quiet_bucket. Qed.
Lemma quiet_write {A : Type} (m : M bucket obj_error A) : views contents m → runs quiet (store_write m).
Proof. intros Hm. by apply runs_mapping_err, quiet_bucket. Qed.

(** A write beside the blobs. *)
Lemma quiet_put k data : (∀ d, ¬ blob_object k d) → runs quiet (store_write (o_put k data)).
Proof.
  intros Hk. apply runs_mapping_err. intros s. rewrite on_bucket_state. split; [|done]. intros k' d Hk'. simpl.
  destruct (put_writes k data (x_bucket s)) as [->|[_ ->]]; [|done]. apply lookup_insert_ne. intros ->. by eapply Hk.
Qed.

(** A change of the derived state. *)
Definition derived (f : S3Store → S3Store) : Prop := ∀ s, x_fs (f s) = x_fs s ∧ x_bucket (f s) = x_bucket s.

Lemma derived_quiet f s : derived f → quiet s (f s).
Proof. intros Hf. destruct (Hf s) as [E1 E2]. split; [intros k d _; by rewrite E2|by apply (f_equal files)]. Qed.
Lemma quiet_derived {E : Type} f : derived f → runs quiet (modify f : M S3Store E ()).
Proof. intros Hf s. by apply derived_quiet. Qed.

Lemma on_quota_quiet {A : Type} (f : Quota → Quota * result StorageError A) : runs quiet (s3_on_quota f).
Proof. intros s. unfold s3_on_quota. destruct (f (x_quota s)). by split. Qed.
Lemma release_quiet repo n : runs quiet (s3_release repo n).
Proof. by apply quiet_derived. Qed.
Lemma end_session_quiet : runs quiet s3_end_session.
Proof. by apply quiet_derived. Qed.
Lemma mark_dirty_quiet repo : runs quiet (s3_mark_dirty repo).
Proof. by apply quiet_derived. Qed.
Lemma s3_meta_apply_quiet op : runs quiet (s3_meta_apply op).
Proof. intros s. unfold s3_meta_apply. destruct (mapply (x_meta s) op). by split. Qed.
Lemma entered_quiet repo digest cs : runs quiet (s3_blob_entered repo digest cs).
Proof. apply quiet_derived. intros s. by destruct (note_blob_entered _ _ _ _ _ _ _) as [[m g] x]. Qed.
Lemma left_quiet repo digest size : runs quiet (s3_blob_left repo digest size).
Proof. apply quiet_derived. intros s. by destruct (note_blob_left _ _ _ _ _ _ _) as [[[m g] x] q]. Qed.
Lemma record_size_quiet repo digest size : runs quiet (record_manifest_size repo digest size).
Proof. by apply quiet_derived. Qed.
Lemma forget_size_quiet repo digest : runs quiet (forget_manifest_size repo digest).
Proof. by apply quiet_derived. Qed.
Lemma cache_layout_quiet repo : runs quiet (cache_layout repo).
Proof. by apply quiet_derived. Qed.

Hint Resolve quiet_same_blobs same_blobs_pres same_blobs_grows quiet_adds adds_grows same_blobs_root quiet_root quiet_bucket quiet_io quiet_io_nf
  quiet_read quiet_write on_quota_quiet release_quiet end_session_quiet mark_dirty_quiet s3_meta_apply_quiet
  entered_quiet left_quiet record_size_quiet forget_size_quiet cache_layout_quiet
  head_views get_views range_views multipart_views wait_views abort_views : runs.

Lemma s3_apply_meta_quiet repo op : runs quiet (s3_apply_meta repo op).
Proof. unfold s3_apply_meta. runs_auto. Qed.

Variable client : S3Client.
Abbreviation prefix := (c_prefix client).

Lemma s3_blob_size_quiet repo d : runs quiet (s3_blob_size client repo d).
Proof.
  unfold s3_blob_size. runs_auto. apply quiet_derived. intros s. by destruct (gc_enabled (x_gc s)).
Qed.
Hint Resolve s3_apply_meta_quiet s3_blob_size_quiet : runs.
Lemma s3_blob_exists_quiet repo d : runs quiet (s3_blob_exists client repo d).
Proof. unfold s3_blob_exists. runs_auto. Qed.
Hint Resolve s3_blob_exists_quiet : runs.
Lemma s3_admit_quiet repo d size : runs quiet (s3_admit_blob client repo d size).
Proof. unfold s3_admit_blob. runs_auto. Qed.
Lemma s3_read_blob_quiet repo d : runs quiet (s3_read_blob client repo d).
Proof. unfold s3_read_blob. runs_auto. Qed.
Lemma s3_open_blob_quiet repo d : runs quiet (s3_open_blob client repo d).
Proof. unfold s3_open_blob. runs_auto. Qed.
Lemma require_all_quiet repo ds : runs quiet (require_all client repo ds).
Proof. induction ds; simpl; runs_auto. Qed.
Hint Resolve s3_admit_quiet s3_read_blob_quiet require_all_quiet : runs.

Lemma s3_ensure_layout_quiet repo : runs quiet (s3_ensure_layout client repo).
Proof.
  unfold s3_ensure_layout. apply runs_bind; [runs_auto|]. intros []; [runs_auto|]. apply runs_let. intros lk Hlk.
  apply runs_bind; [runs_auto|intros there]. destruct (is_ok there); [runs_auto|].
  apply runs_bind; [apply quiet_put; intros d; by eapply layout_key_no_blob|intros _].
  apply runs_let. intros ik Hik. apply runs_bind; [runs_auto|intros indexed].
  apply runs_bind; [|intros _; runs_auto]. destruct (is_ok indexed); [runs_auto|].
  apply quiet_put. intros d. by eapply index_key_no_blob.
Qed.
Hint Resolve s3_ensure_layout_quiet : runs.

(** ** Triples *)

(** The blob is there. *)
Definition held (s : S3Store) (repo : string) (d : Digest) : Prop :=
  ∃ k, blob_key prefix repo d = Ok k ∧ is_Some (objs s !! obj_path k).
(** The session's file holds [c]. *)
Definition staged (q : path) (c : bytes) (s : S3Store) : Prop := ∃ i, files (x_fs s) !! q = Some (Reg i c).

Lemma held_grows s s' repo d : digest_wf d → grows s s' → held s repo d → held s' repo d.
Proof.
  intros Hd Hg (k & Hk & Hc). exists k. split; [done|]. eapply Hg; [|done]. by eapply blob_key_object.
Qed.
Lemma staged_same s s' q c : same_files (x_fs s) (x_fs s') → staged q c s → staged q c s'.
Proof. intros E [i Hi]. exists i. by rewrite E. Qed.

Lemma sp_pres' {E A : Type} P (m : M S3Store E A) : runs s3_pres m → sp s3_inv P m (λ _ _, True).
Proof. intros Hm s Hs _. split; [by apply Hm|done]. Qed.
(** A step whose result does not matter. *)
Lemma s3_then {E A B : Type} (P : S3Store → Prop) (m : M S3Store E A) (k : A → M S3Store E B) Q :
  runs s3_pres m → (∀ a, sp s3_inv any (k a) Q) → sp s3_inv P (m ≫= k) Q.
Proof. intros Hm Hk. eapply sp_bind; [by apply sp_pres'|]. intros a. by apply sp_any. Qed.
(** A step that cannot change what is known. *)
Lemma s3_held {E A : Type} repo d (m : M S3Store E A) :
  digest_wf d → runs same_blobs m → sp s3_inv (λ s, held s repo d) m (λ _ s, held s repo d).
Proof.
  intros Hd Hm s Hs Hh. split; [by apply same_blobs_pres|]. intros _ _. eapply held_grows; [done| |done].
  by apply same_blobs_grows.
Qed.
Lemma s3_staged {E A : Type} q c (m : M S3Store E A) :
  runs quiet m → sp s3_inv (staged q c) m (λ _, staged q c).
Proof.
  intros Hm s Hs Hh. split; [eapply same_blobs_inv; [apply Hm|done]|]. intros _ _.
  eapply staged_same; [apply Hm|done].
Qed.

(** Reading the bucket and the staging root. *)
Lemma sp_bucket {A : Type} (F : gmap string bytes → Prop) (m : M bucket obj_error A) (φ : A → gmap string bytes → Prop) :
  views contents m → (∀ b a, (m b).2 = Ok a → φ a (contents b)) →
  sp s3_inv (λ s, F (objs s)) (on_bucket m) (λ a s, F (objs s) ∧ φ a (objs s)).
Proof.
  intros Hv Hm s Hs HF. rewrite on_bucket_state. unfold s3_inv. simpl. split; [by rewrite Hv|]. intros a Ha. split; [by rewrite Hv|]. rewrite Hv. by apply Hm.
Qed.
Lemma sp_root {E A : Type} (F : tree → Prop) (m : M Fs E A) (φ : A → tree → Prop) :
  runs same_files m → (∀ f f' a, m f = (f', Ok a) → φ a (files f')) →
  sp s3_inv (λ s, F (files (x_fs s))) (on_root m) (λ a s, F (files (x_fs s)) ∧ φ a (files (x_fs s))).
Proof.
  intros Hs' Hm s Hs HF. rewrite on_root_state. split; [done|]. intros a Ha. simpl in *.
  specialize (Hs' (x_fs s)). specialize (Hm (x_fs s)). destruct (m (x_fs s)) as [f' r]. simpl in *. subst r.
  split; [by rewrite Hs'|]. by apply Hm.
Qed.

(** Writing an authentic blob. *)
Lemma sp_publish P m k c d :
  writes contents m <[k := c]> → blob_object k d → digest_of c (algorithm d) = d →
  sp s3_inv P (on_bucket (A := ()) m) (λ _ s, is_Some (objs s !! k)).
Proof.
  intros Hm Hk Hc s Hs _. rewrite on_bucket_state. simpl. unfold s3_inv. simpl.
  destruct (Hm (x_bucket s)) as [->|[[e ->] ->]]; [|by split].
  split; [by eapply authentic_insert|]. intros _ _. rewrite lookup_insert_eq. by eexists.
Qed.

(** *** Reading blobs *)

(** What a successful look at the object of a blob gives. *)
Definition object_of (repo : string) (d : Digest) (c : bytes) (m : gmap string bytes) : Prop :=
  ∃ k, blob_key prefix repo d = Ok k ∧ m !! obj_path k = Some c.

Lemma object_of_held repo d c s : object_of repo d c (objs s) → held s repo d.
Proof. intros (k & Hk & Hc). exists k. by rewrite Hc. Qed.
Lemma object_of_authentic repo d c s :
  digest_wf d → s3_inv s → object_of repo d c (objs s) → digest_of c (algorithm d) = d.
Proof. intros Hd Hs (k & Hk & Hc). eapply Hs; [by eapply blob_key_object|done]. Qed.

Lemma s3_blob_size_spec repo d :
  sp s3_inv any (s3_blob_size client repo d) (λ n s, ∃ c, object_of repo d c (objs s) ∧ n = blen c).
Proof.
  unfold s3_blob_size. apply sp_let. intros k Hk. apply s3_then.
  { apply same_blobs_pres, quiet_same_blobs, quiet_derived. intros s. by destruct (gc_enabled (x_gc s)). }
  intros _. apply sp_mapping_err.
  eapply sp_weaken; [apply (sp_bucket (λ _, True) _ (λ n m, ∃ c, m !! obj_path k = Some c ∧ n = blen c))|done|].
  - apply head_views.
  - intros b n. apply head_ok.
  - intros n s _ [_ (c & Hc & ->)]. exists c. split; [by exists k|done].
Qed.

Lemma s3_blob_exists_spec repo d :
  sp s3_inv any (s3_blob_exists client repo d) (λ b s, b = true → held s repo d).
Proof.
  unfold s3_blob_exists. eapply sp_bind; [apply sp_attempt, s3_blob_size_spec|].
  intros [n|[]]; try apply sp_throw; apply sp_ret; [|done]. intros s _ Hn _.
  destruct (Hn n eq_refl) as (c & Hc & _). by eapply object_of_held.
Qed.

Lemma s3_read_blob_spec P repo d :
  digest_wf d → sp s3_inv P (s3_read_blob client repo d) (λ b _, digest_of b (algorithm d) = d).
Proof.
  intros Hd. unfold s3_read_blob. apply sp_let. intros k Hk. eapply sp_known.
  - apply sp_any, sp_mapping_err. eapply sp_weaken;
      [apply (sp_bucket (λ _, True) _ (λ r m, ∀ c, r = Ok c → m !! obj_path k = Some c))|done|].
    + apply get_views.
    + intros b r Hr c ->. by eapply get_ok.
    + intros r s Hs [_ Hc].
      exact ((λ c Hr, Hs _ _ _ (blob_key_object _ _ _ _ Hd Hk) (Hc c Hr)) : ∀ c, r = Ok c → digest_of c (algorithm d) = d).
  - intros r Hr. eapply sp_weaken; [apply sp_of_result|done|]. simpl. intros b s _ [_ Hb]. case_res. by apply Hr.
Qed.

Lemma received_map_err {E : Type} (f g : E → io_error) st : received (map_err f <$> st) = received (map_err g <$> st).
Proof. induction st as [|[b|e] st IH]; simpl; [done|f_equal; exact IH|done]. Qed.

Lemma s3_open_blob_spec repo d :
  digest_wf d →
  sp s3_inv any (s3_open_blob client repo d) (λ b _, ∃ content, digest_of content (algorithm d) = d ∧ serves content b).
Proof.
  intros Hd. unfold s3_open_blob. apply sp_let. intros k Hk. eapply sp_bind.
  { apply sp_mapping_err. apply (sp_bucket (λ _, True) _ (λ n m, ∃ c, m !! obj_path k = Some c ∧ n = blen c));
      [apply head_views|]. intros b n. apply head_ok. }
  intros size. simpl. destruct (signed_redirect client (obj_path k) size) as [u|].
  { apply sp_ret. intros s Hs [_ (c & Hc & ->)]. exists c. split; [|by split].
    eapply Hs; [by eapply blob_key_object|done]. }
  eapply sp_bind; [apply sp_gets|intros b]. apply sp_ret. intros s Hs [[_ (c & Hc & ->)] ->].
  exists c. split; [eapply Hs; [by eapply blob_key_object|done]|]. split; [done|]. simpl.
  intros start len st Hstart Hlen Hst. unfold range_opener in Hst. case_res. subst.
  match goal with H' : (o_get_stream _ _ _ _).2 = Ok _ |- _ => apply stream_ok in H' as (c' & Hc' & Hp) end.
  rewrite Hc in Hc'. injection Hc' as <-. rewrite (received_map_err _ (λ _, IoError KOther "")).
  by replace (start + len - start)%Z with len in Hp by lia.
Qed.

(** *** Copies *)

(** The client was configured with parts of at least a byte. *)
Hypothesis part_size_pos : (0 < c_part_size client)%Z.

(** The loop has written the first [offset] bytes of the source, and it ends
    with all of them. *)
Lemma copy_loop_spec fuel from to c size offset w :
  (0 ≤ offset ≤ size)%Z → (size - offset ≤ Z.of_nat fuel)%Z → w_dest w = to → w_data w = slice c 0 offset →
  sp s3_inv (λ s, objs s !! from = Some c) (copy_loop client fuel from size offset w)
    (λ w _, w_dest w = to ∧ w_data w = slice c 0 size).
Proof.
  revert offset w. induction fuel as [|fuel IH]; intros offset w Ho Hf Hto Hw; cbn [copy_loop].
  { apply sp_ret. intros _ _ _. split; [done|]. by replace size with offset by lia. }
  destruct (offset <? size)%Z eqn:El; cbn [negb]; bool_simp.
  2:{ apply sp_ret. intros _ _ _. split; [done|]. by replace size with offset by lia. }
  eapply sp_bind.
  { apply sp_attempt. apply (sp_bucket (λ m, m !! from = Some c) _ (λ w' _, w_dest w' = to ∧ w_data w' = slice c 0 offset));
      [apply wait_views|]. intros b w' [-> ->]%wait_ok. done. }
  intros [w'|e]; [|apply s3_then; [runs_auto|intros; apply sp_throw]].
  eapply (sp_pre _ (λ s, objs s !! from = Some c ∧ w_dest w' = to ∧ w_data w' = slice c 0 offset));
    [|intros s _ Hs; exact (Hs w' eq_refl)].
  apply sp_pure. intros [Hto' Hw']. set (len := ((size - offset) `min` c_part_size client)%Z).
  eapply sp_bind.
  { apply sp_mapping_err. apply (sp_bucket (λ m, m !! from = Some c) _ (λ x m, ∃ c', m !! from = Some c' ∧ x = slice c' offset len));
      [apply range_views|]. intros b x (c' & Hc' & ->)%range_ok. exists c'. split; [done|]. f_equal. lia. }
  intros chunk. apply (sp_pre _ (λ s, objs s !! from = Some c ∧ chunk = slice c offset len)); [|intros s _ (Hs & c' & Hc & ->); split; [done|congruence]].
  apply sp_pure. intros ->. destruct (write_data (slice c offset len) w') as [Hd Hx].
  apply IH; [unfold len; lia..|congruence|]. rewrite Hx, Hw'. unfold len. rewrite <-slice_app by lia. done.
Qed.

Lemma parallel_copy_spec from to d c size :
  blob_object from d → blob_object to d → size = blen c →
  sp s3_inv (λ s, objs s !! from = Some c) (parallel_copy client from to size) (λ _ s, is_Some (objs s !! to)).
Proof.
  intros Hfrom Hto ->. unfold parallel_copy. eapply sp_bind.
  { apply sp_mapping_err. apply (sp_bucket (λ m, m !! from = Some c) _ (λ u _, u_dest u = to)); [apply multipart_views|].
    intros b u Hu. by eapply multipart_ok. }
  intros u. apply sp_pure. intros Hu. destruct (writer_new u (c_part_size client)) as [Hd Hx].
  assert (Hn : (0 ≤ blen c)%Z) by (unfold blen; lia).
  apply (sp_bind _ _ _ (λ w _, (w_dest w = to ∧ w_data w = c) ∧ digest_of c (algorithm d) = d)).
  - intros s Hs Hc. destruct (copy_loop_spec (Z.to_nat (blen c)) from to c (blen c) 0 (o_writer u (c_part_size client)))
      with (s := s) as [I1 I2]; [lia..|congruence|by rewrite Hx|done|done|]. split; [done|]. intros w Hw.
    destruct (I2 w Hw) as [-> ->]. rewrite slice_all by lia. split; [done|]. by apply (Hs from).
  - intros w. eapply (sp_pre _ (λ s, any s ∧ _)); [|intros s _ Hs; split; [done|exact Hs]].
    apply sp_pure. intros [[Hw1 Hw2] Hc]. apply sp_mapping_err. rewrite <-Hw1. eapply sp_publish; [apply finish_writes| |].
    + by rewrite Hw1.
    + by rewrite Hw2.
Qed.

(** A server-side copy copies an authentic object. *)
Lemma sp_copy from to d :
  blob_object from d → blob_object to d →
  sp s3_inv any (store_write (o_copy from to)) (λ _ s, is_Some (objs s !! to)).
Proof.
  intros Hfrom Hto. apply sp_mapping_err. intros s Hs _. rewrite on_bucket_state. unfold s3_inv. simpl.
  destruct (copy_writes from to (x_bucket s)) as [(c & Hc & ->)|[[e ->] ->]]; [|by split].
  split; [eapply authentic_insert; [done..|by apply (Hs from)]|]. intros _ _. rewrite lookup_insert_eq. by eexists.
Qed.

(** The size at which the store copies on its own, or the source's. *)
Definition copyable (repo : string) (d : Digest) (size : Z) (s : S3Store) : Prop :=
  (size ≤ c_copy_limit client)%Z ∨ ∃ c, object_of repo d c (objs s) ∧ size = blen c.

Lemma copyable_same repo d size s s' : digest_wf d → same_blobs s s' → copyable repo d size s → copyable repo d size s'.
Proof.
  intros Hd Hb [Hs|(c & (k & Hk & Hc) & ->)]; [by left|right]. exists c. split; [|done]. exists k. split; [done|].
  rewrite (Hb _ d); [done|]. by eapply blob_key_object.
Qed.

Lemma copy_object_spec from to d size :
  digest_wf d → sp s3_inv (copyable from d size) (copy_object client from to d size) (λ _ s, held s to d).
Proof.
  intros Hd. unfold copy_object. apply sp_let. intros fk Hfk. apply sp_let. intros tk Htk.
  pose proof (blob_key_object _ _ _ _ Hd Hfk) as Hf. pose proof (blob_key_object _ _ _ _ Hd Htk) as Ht.
  apply (sp_weaken _ (copyable from d size) _ _ (λ _ s, is_Some (objs s !! obj_path tk))); [|done|by intros _ s _ Hs; exists tk].
  destruct (size <=? c_copy_limit client)%Z eqn:El; bool_simp; [by eapply sp_any, sp_copy|].
  intros s Hs [Hsize|(c & (k & Hk & Hc) & Hsize)]; [lia|]. assert (k = fk) as -> by congruence.
  by apply (parallel_copy_spec (obj_path fk) (obj_path tk) d c size).
Qed.

Lemma try_server_side_copy_spec P repo d digest size :
  digest_wf d → (size ≤ c_copy_limit client)%Z →
  sp s3_inv P (try_server_side_copy client repo d digest size) (λ b s, b = true → held s repo d).
Proof.
  intros Hd Hsize. apply sp_any. unfold try_server_side_copy. eapply sp_bind; [apply sp_gets|intros x].
  destruct (negb _); [by apply sp_ret|]. destruct (locate x digest repo) as [source|]; [|by apply sp_ret].
  eapply sp_bind; [apply sp_attempt; eapply sp_weaken; [by apply copy_object_spec|by left|done]|].
  intros [[]|e]; apply sp_ret; [|done]. intros s _ Hs _. by apply (Hs tt).
Qed.

(** No copy loses a blob or touches a staging file. *)
Lemma adds_insert s b k c :
  contents b = <[k := c]> (objs s) ∨ contents b = objs s → adds s (put_bucket b s).
Proof.
  intros Hb. split; [|done]. intros k' d _ Hk'. simpl. destruct Hb as [->| ->]; [|done].
  rewrite lookup_insert_is_Some. destruct (decide (k = k')); auto.
Qed.
Lemma adds_writes {A : Type} (m : M bucket obj_error A) k c : writes contents m <[k := c]> → runs adds (store_write m).
Proof.
  intros Hm. apply runs_mapping_err. intros s. rewrite on_bucket_state. apply (adds_insert s _ k c).
  destruct (Hm (x_bucket s)) as [->|[_ ->]]; auto.
Qed.
Lemma adds_copy from to : runs adds (store_write (o_copy from to)).
Proof.
  apply runs_mapping_err. intros s. rewrite on_bucket_state. destruct (copy_writes from to (x_bucket s)) as [(c & _ & E)|[_ E]].
  - apply (adds_insert s _ to c). by left.
  - apply (adds_insert s _ to []). by right.
Qed.
Hint Resolve adds_copy : runs.
Lemma adds_put k data : runs adds (store_write (o_put k data)).
Proof. eapply adds_writes, put_writes. Qed.
Lemma adds_finish w : runs adds (store_write (o_finish w)).
Proof. eapply adds_writes, finish_writes. Qed.
Hint Resolve adds_put adds_finish : runs.

Lemma copy_loop_quiet fuel from size offset w : runs quiet (copy_loop client fuel from size offset w).
Proof. revert offset w. induction fuel; intros offset w; cbn [copy_loop]; runs_auto. Qed.
Hint Resolve copy_loop_quiet : runs.
Lemma copy_object_adds from to d size : runs adds (copy_object client from to d size).
Proof. unfold copy_object, parallel_copy. runs_auto. Qed.
Hint Resolve copy_object_adds : runs.
Lemma try_server_side_copy_adds repo d digest size : runs adds (try_server_side_copy client repo d digest size).
Proof. unfold try_server_side_copy. runs_auto. Qed.
Hint Resolve try_server_side_copy_adds : runs.

(** *** Reading staging files *)

Lemma read_some_same max rest : runs same_files (read_some max rest).
Proof. unfold read_some. runs_auto. Qed.
Hint Resolve read_some_same : runs.

(** A read splits what is left, and gives nothing only at the end. *)
Lemma read_some_ok max rest f f' r :
  (0 < max)%Z → read_some max rest f = (f', Ok r) → r.1 ++ r.2 = rest ∧ (r.1 = [] → rest = []).
Proof.
  intros Hmax E. unfold read_some in E. apply bind_Ok in E as (f1 & n & _ & E). destruct (fault n); [done|].
  injection E as _ <-. simpl. rewrite take_drop. split; [done|]. intros Hk.
  destruct rest as [|b rest]; [done|]. apply (f_equal length) in Hk. rewrite length_take in Hk. simpl in Hk. lia.
Qed.

(** [hash_file] hashes the file, however the reads cut it. *)
Lemma hash_done_ok alg fed crc r :
  alg ∈ ["sha256"; "sha512"] → hash_done alg fed crc = Ok r → r = (digest_of fed alg, crc).
Proof.
  intros Ha Hd. unfold hash_done in Hd. rewrite finalize_digest_of in Hd.
  assert (E : alg +:+ ":" +:+ hex (digest_of fed alg) = Digest_fmt (digest_of fed alg)).
  { unfold Digest_fmt. f_equal. unfold digest_of, sha256_of. rewrite !elem_of_cons, elem_of_nil in Ha.
    case_decide; [done|]. by destruct Ha as [->|[->|[]]]. }
  rewrite E, Digest_parse_fmt in Hd by apply digest_of_wf. case_res. done.
Qed.

Lemma hash_file_ok fuel alg fed crc rest f f' r :
  alg ∈ ["sha256"; "sha512"] → length rest < fuel → hash_file fuel alg fed crc rest f = (f', Ok r) →
  r.1 = digest_of (fed ++ rest) alg.
Proof.
  intros Ha. revert fed crc rest f. induction fuel as [|fuel IH]; intros fed crc rest f Hl E; [lia|]. cbn [hash_file] in E.
  apply bind_Ok in E as (f1 & [chunk rest'] & E1 & E). apply mapping_err_Ok, read_some_ok in E1 as [Hc Hn]; [|lia].
  simpl in Hc, Hn. destruct (decide (chunk = [])) as [->|Hne].
  - rewrite bool_decide_eq_true_2 in E by done. injection E as _ E. apply hash_done_ok in E as ->; [|done].
    simpl. rewrite Hn by done. by rewrite app_nil_r.
  - rewrite bool_decide_eq_false_2 in E by done. apply IH in E as ->.
    + by rewrite <-app_assoc, Hc.
    + rewrite <-Hc, length_app in Hl. destruct chunk; [done|]. simpl in Hl. lia.
Qed.
Lemma hash_file_same fuel alg fed crc rest : runs same_files (hash_file fuel alg fed crc rest).
Proof. revert fed crc rest. induction fuel; intros fed crc rest; cbn [hash_file]; runs_auto. Qed.
Hint Resolve hash_file_same : runs.

Lemma staging_rel_ne repo id q : staging_rel repo id = Ok q → q ≠ [].
Proof. unfold staging_rel. intros Hq. case_res. apply snoc_nonempty. Qed.

(** Opening the session's file. *)
Lemma sp_open_staged q c w :
  q ≠ [] → sp s3_inv (staged q c) (on_root (resolve_beneath q w)) (λ h s, staged q c s ∧ h.2 = c).
Proof.
  intros Hq. eapply sp_weaken; [apply (sp_root (λ t, ∃ i, t !! q = Some (Reg i c)) _ (λ h t, opens q t h))| |].
  - apply resolve_beneath_same.
  - intros f f' h E. destruct (resolve_beneath_spec (λ _, True) q w Hq f I) as [_ Hr]. rewrite E in Hr. by apply Hr.
  - done.
  - intros [i' c'] s _ [[i Hi] Ho]. split; [by exists i|]. unfold opens in Ho. simpl in *. congruence.
Qed.

Lemma staging_size_spec repo id :
  sp s3_inv any (staging_size repo id) (λ n s, ∃ q c, staging_rel repo id = Ok q ∧ staged q c s ∧ n = blen c).
Proof.
  unfold staging_size. apply sp_let. intros q Hq. eapply sp_bind.
  { apply sp_mapping_err. apply (sp_root (λ _, True) _ (λ r t, ∀ n, r = Some (true, n) → ∃ i b, t !! q = Some (Reg i b) ∧ n = blen b)).
    - apply stat_beneath_same.
    - intros f f' r E n ->. pose proof (stat_beneath_size q f n) as Hn. rewrite E in Hn. by apply Hn. }
  intros [[[] n]|]; try apply sp_throw. apply sp_ret. intros s _ [_ Hn].
  destruct (Hn n eq_refl) as (i & b & Hb & ->). exists q, b. split_and!; [done|by exists i|done].
Qed.

Lemma hash_staging_spec repo id alg q c :
  staging_rel repo id = Ok q →
  sp s3_inv (staged q c) (hash_staging repo id alg)
    (λ r s, staged q c s ∧ r.1.1 = digest_of c alg ∧ r.2 = blen c).
Proof.
  intros Hq. pose proof (staging_rel_ne _ _ _ Hq) as Hne. unfold hash_staging. rewrite Hq. apply sp_let. intros q' [= <-].
  eapply sp_bind; [apply sp_mapping_err, (sp_open_staged q c false), Hne|]. intros [i c']. apply sp_pure. cbn [snd]. intros ->.
  eapply sp_bind; [apply s3_staged; runs_auto|intros ?]. case_bool_decide as Ha; [|apply sp_throw]. eapply sp_bind.
  { apply (sp_root (λ t, ∃ i, t !! q = Some (Reg i c)) _ (λ r _, r.1 = digest_of c alg)); [runs_auto|].
    intros f f' r E. apply hash_file_ok in E; [done|done|lia]. }
  intros [d crc]. apply sp_ret. intros s _ [Hs Hd]. done.
Qed.

(** *** Uploading staging files *)

Lemma upload_loop_spec fuel rest content to w :
  length rest < fuel → w_dest w = to → w_data w ++ rest = content →
  sp s3_inv any (upload_loop client fuel rest w) (λ w _, w_dest w = to ∧ w_data w = content).
Proof.
  revert rest w. induction fuel as [|fuel IH]; intros rest w Hl Hto Hw; [lia|]. cbn [upload_loop].
  eapply (sp_known _ (λ r, ∀ w', r = Ok w' → w_dest w' = to ∧ w_data w' ++ rest = content)).
  { eapply sp_weaken; [apply sp_attempt, (sp_bucket (λ _, True) _ (λ w' _, w_dest w' = to ∧ w_data w' ++ rest = content))|done|].
    - apply wait_views.
    - intros b w' [-> ->]%wait_ok. done.
    - intros r s _ Hr w' ->. by apply Hr. }
  intros [w'|e] Hr; [|apply s3_then; [runs_auto|intros; apply sp_throw]]. destruct (Hr w' eq_refl) as [Hto' Hw'].
  eapply (sp_known _ (λ r : bytes * bytes, r.1 ++ r.2 = rest ∧ (r.1 = [] → rest = []))).
  { apply sp_mapping_err. eapply sp_weaken; [apply (sp_root (λ _, True) _ (λ r _, r.1 ++ r.2 = rest ∧ (r.1 = [] → rest = [])))|done|].
    - runs_auto.
    - intros f f' r E. by eapply read_some_ok.
    - intros r s _ [_ Hr']. exact Hr'. }
  intros [chunk rest'] [Hc Hn]. cbn [fst snd] in Hc, Hn. case_bool_decide as Hne.
  - apply sp_ret. intros _ _ _. split; [done|]. by rewrite (Hn Hne), app_nil_r in Hw'.
  - destruct (write_data chunk w') as [Hd Hx]. apply IH; [|congruence|].
    + rewrite <-Hc, length_app in Hl. destruct chunk; [done|]. simpl in Hl. lia.
    + by rewrite Hx, <-app_assoc, Hc.
Qed.
Lemma upload_loop_quiet fuel rest w : runs quiet (upload_loop client fuel rest w).
Proof. revert rest w. induction fuel; intros rest w; cbn [upload_loop]; runs_auto. Qed.
Hint Resolve upload_loop_quiet : runs.
Lemma upload_staged_blob_adds repo d id : runs adds (upload_staged_blob client repo d id).
Proof. unfold upload_staged_blob. runs_auto. Qed.
Hint Resolve upload_staged_blob_adds : runs.

Lemma upload_staged_blob_spec repo d id q c :
  digest_wf d → staging_rel repo id = Ok q → digest_of c (algorithm d) = d →
  sp s3_inv (staged q c) (upload_staged_blob client repo d id) (λ _ s, held s repo d).
Proof.
  intros Hd Hq Hc. pose proof (staging_rel_ne _ _ _ Hq) as Hne. unfold upload_staged_blob. rewrite Hq. apply sp_let.
  intros q' [= <-]. apply sp_let. intros k Hk. pose proof (blob_key_object _ _ _ _ Hd Hk) as Hb.
  apply (sp_weaken _ (staged q c) _ _ (λ _ s, is_Some (objs s !! obj_path k))); [|done|by intros _ s _ Hs; exists k].
  eapply sp_bind; [apply s3_staged; runs_auto|intros stat].
  apply (sp_bind _ _ _ (λ _, staged q c)); [destruct stat as [[[] sz]|]; first [by apply sp_ret|apply sp_throw]|intros size].
  destruct (size <=? c_part_size client)%Z.
  - eapply sp_bind; [apply sp_mapping_err, (sp_open_staged q c false), Hne|]. intros h. apply sp_pure. intros Hh.
    eapply (sp_known _ (λ b, b = c)).
    { apply sp_mapping_err, sp_any. eapply sp_weaken; [apply (sp_root (λ _, True) _ (λ b _, b = c))|done|].
      - runs_auto.
      - intros f f' b E. by apply read_to_end_ok in E as ->.
      - intros b s _ [_ Hx]. exact Hx. }
    intros b ->. apply sp_mapping_err. by eapply sp_publish; [apply put_writes|..].
  - eapply (sp_bind _ _ _ (λ u s, staged q c s ∧ u_dest u = obj_path k)).
    { eapply sp_weaken; [apply (sp_frame quiet (staged q c) any _ (λ u _, u_dest u = obj_path k))|done|naive_solver].
      - runs_auto.
      - intros s s' [_ Hs]. by apply staged_same.
      - apply sp_mapping_err. eapply sp_weaken; [apply (sp_bucket (λ _, True) _ (λ u _, u_dest u = obj_path k))|done|naive_solver].
        + apply multipart_views.
        + intros b u Hu. by eapply multipart_ok. }
    intros u. apply sp_pure. intros Hu. eapply sp_bind; [apply sp_mapping_err, (sp_open_staged q c false), Hne|].
    intros [i c']. apply sp_pure. cbn [snd]. intros ->. destruct (writer_new u (c_part_size client)) as [Hw1 Hw2].
    eapply (sp_known _ (λ w, w_dest w = obj_path k ∧ w_data w = c)).
    { apply sp_any, upload_loop_spec; [lia|congruence|by rewrite Hw2]. }
    intros w [Hto Hdata]. apply sp_mapping_err. rewrite <-Hto, <-Hdata in *. by eapply sp_publish; [apply finish_writes|..].
Qed.

(** ** The operations *)

Lemma s3_put_blob_spec repo d data :
  digest_wf d → (blen data ≤ c_copy_limit client)%Z →
  sp s3_inv any (s3_put_blob client repo d data) (λ _ s, held s repo d).
Proof.
  intros Hd Hsize. unfold s3_put_blob. apply sp_let. intros _ _.
  destruct (ct_eq _ _) eqn:E; cbn [negb]; [|apply sp_throw]. apply ct_eq_true in E.
  apply s3_then; [runs_auto|intros charged]. apply s3_then; [runs_auto|]. intros [laid|e].
  2:{ apply s3_then; [runs_auto|intros; apply sp_throw]. }
  eapply sp_bind; [by apply try_server_side_copy_spec|intros linked].
  apply (sp_bind _ _ _ (λ _ s, held s repo d)); [|intros _; apply s3_held; [done|runs_auto]].
  destruct linked; [by apply sp_ret; auto|]. apply sp_let. intros k Hk. eapply sp_bind.
  { apply sp_attempt. eapply sp_publish; [apply put_writes|by eapply blob_key_object|done]. }
  intros [u|e]; [|apply s3_then; [runs_auto|intros; apply sp_throw]].
  apply sp_ret. intros s _ Hs. exists k. split; [done|]. by apply (Hs u).
Qed.

Lemma unlink_same_blobs dir leaf : runs same_blobs (on_root (unlink_beneath dir leaf)).
Proof. apply same_blobs_root. Qed.
Lemma remove_staging_same repo id : runs same_blobs (remove_staging repo id).
Proof. unfold remove_staging. runs_auto. Qed.
Hint Resolve remove_staging_same : runs.
Lemma discard_same repo id : runs same_blobs (s3_discard_session repo id).
Proof. apply remove_staging_same. Qed.
Hint Resolve discard_same : runs.
Lemma append_same repo id body off limit : runs same_blobs (append_to_staging repo id body off limit).
Proof. unfold append_to_staging. runs_auto. Qed.
Hint Resolve append_same : runs.

Lemma s3_finish_upload_spec repo id d max trailing limit :
  digest_wf d → (max ≤ c_copy_limit client)%Z →
  sp s3_inv any (s3_finish_upload client repo id d max trailing limit) (λ _ s, held s repo d).
Proof.
  intros Hd Hmax. unfold s3_finish_upload. apply sp_let. intros _ _. apply s3_then; [runs_auto|intros _].
  eapply sp_bind; [apply staging_size_spec|intros n]. destruct (max <? n)%Z eqn:El; bool_simp.
  { apply s3_then; [runs_auto|intros; apply sp_throw]. }
  apply sp_ex. intros q. apply sp_ex. intros c.
  apply (sp_pre _ (λ s, staged q c s ∧ (staging_rel repo id = Ok q ∧ n = blen c))); [|naive_solver].
  apply sp_pure. intros [Hq ->]. eapply sp_bind; [by apply hash_staging_spec|]. intros [[actual crc] size].
  cbn [fst snd]. apply sp_pure. intros [-> ->].
  destruct (ct_eq _ _) eqn:E; cbn [negb]; [|apply s3_then; [runs_auto|intros; apply sp_throw]]. apply ct_eq_true in E.
  eapply sp_bind; [apply s3_staged; runs_auto|]. intros [charged|e]; [|apply s3_then; [runs_auto|intros; apply sp_throw]].
  eapply sp_bind; [apply s3_staged; runs_auto|]. intros [laid|e].
  2:{ apply s3_then; [runs_auto|intros _]. apply s3_then; [runs_auto|intros; apply sp_throw]. }
  apply (sp_bind _ _ _ (λ linked s, (linked = true → held s repo d) ∧ staged q c s)).
  { eapply sp_pre; [apply (sp_frame adds (staged q c) any)|done].
    - runs_auto.
    - intros s s' [_ Hs]. by apply staged_same.
    - apply try_server_side_copy_spec; [done|lia]. }
  intros linked. apply (sp_bind _ _ _ (λ _ s, held s repo d)).
  - destruct linked; [apply sp_ret; naive_solver|]. eapply sp_bind.
    { apply sp_attempt. eapply sp_pre; [by apply (upload_staged_blob_spec repo d id q c)|naive_solver]. }
    intros [u|e]; [apply sp_ret; intros s _ Hs; by apply (Hs u)|].
    apply s3_then; [runs_auto|intros _]. apply s3_then; [runs_auto|intros; apply sp_throw].
  - intros ?. eapply sp_bind; [apply s3_held; [done|runs_auto]|intros ?]. apply s3_held; [done|runs_auto].
Qed.
End Facts.

#[export] Hint Resolve quiet_same_blobs same_blobs_pres same_blobs_grows quiet_adds adds_grows same_blobs_root quiet_root
  quiet_bucket quiet_io quiet_io_nf quiet_read quiet_write on_quota_quiet release_quiet end_session_quiet mark_dirty_quiet
  s3_meta_apply_quiet entered_quiet left_quiet record_size_quiet forget_size_quiet cache_layout_quiet
  head_views get_views range_views multipart_views wait_views abort_views s3_apply_meta_quiet s3_blob_size_quiet
  s3_blob_exists_quiet s3_admit_quiet s3_read_blob_quiet s3_open_blob_quiet require_all_quiet s3_ensure_layout_quiet
  adds_copy adds_put adds_finish copy_object_adds try_server_side_copy_adds upload_staged_blob_adds
  remove_staging_same discard_same append_same : runs.
