(* ===== verification/S3Backend.v ===== *)
(** The S3 backend as an implementation of the storage contract: the remaining
    operations, and the theorems over whole runs of them. *)

From S2P Require Import Config NetAddr Triple.
From S2P Require Import StorageApi Prelude RustStr Json Errors Digest Paths Quota Metadata MetaLog.
From S2P Require Import MetaStore Effect FileSys FileSysFacts Walk Layout Lifecycle UploadBody ObjectStore.
From S2P Require Import S3Storage S3Keys S3Facts.

Section Backend.
Context `{!Crypto, !CryptoLaws, !World, !SerdeJson, !HashIter, !MetadataStore, !MetadataStoreLaws}.
Context `{!ObjectStore, !ObjectStoreLaws, !ObjPaths, !ObjPathLaws, !UrlCrate}.
Variable client : S3Client.
Abbreviation prefix := (c_prefix client).
Hypothesis part_size_pos : (0 < c_part_size client)%Z.

(** ** What the metadata says *)

Definition same_meta (s s' : S3Store) : Prop := x_meta s' = x_meta s.
#[export] Instance same_meta_preorder : PreOrder same_meta.
Proof. split; [by intros s|]. intros s1 s2 s3 E1 E2. unfold same_meta in *. congruence. Qed.

Lemma on_bucket_meta {A : Type} (m : M bucket obj_error A) : runs same_meta (on_bucket m).
Proof. intros s. by rewrite on_bucket_state. Qed.
Lemma store_read_meta {A : Type} (m : M bucket obj_error A) : runs same_meta (store_read m).
Proof. by apply runs_mapping_err, on_bucket_meta. Qed.
Hint Resolve on_bucket_meta store_read_meta : runs.
Lemma s3_read_blob_meta repo d : runs same_meta (s3_read_blob client repo d).
Proof. unfold s3_read_blob. runs_auto. Qed.
Lemma read_index_view_meta repo : runs same_meta (read_index_view client repo).
Proof. unfold read_index_view, existing_index, read_remote_index. runs_auto. Qed.
Hint Resolve s3_read_blob_meta read_index_view_meta : runs.
Lemma s3_index_resolve_tag_meta repo tag : runs same_meta (s3_index_resolve_tag client repo tag).
Proof. unfold s3_index_resolve_tag. runs_auto. Qed.
Hint Resolve s3_index_resolve_tag_meta : runs.

(** A successful write of the metadata is in the view. *)
Lemma s3_apply_meta_view repo op s s' :
  s3_apply_meta repo op s = (s', Ok tt) → mview (x_meta s') = apply_in_ram (mview (x_meta s)) op.
Proof.
  unfold s3_apply_meta. intros E. apply bind_Ok in E as (s1 & [] & E & [= <-]). apply mapping_err_Ok in E.
  unfold s3_meta_apply in E. destruct (mapply (x_meta s) op) as [m r] eqn:Em. injection E as <- Hr. simpl.
  pose proof (mapply_ok (x_meta s) op) as Hok. rewrite Em in Hok. by apply Hok.
Qed.

(** ** Mounts and deletions *)

Lemma sp_copyable {E A : Type} repo d size (m : M S3Store E A) :
  digest_wf d → runs quiet m →
  sp s3_inv (copyable client repo d size) m (λ _, copyable client repo d size).
Proof.
  intros Hd Hm s Hs Hc. split; [eapply same_blobs_inv; [apply Hm|done]|]. intros _ _.
  eapply copyable_same; [done|apply Hm|done].
Qed.

Lemma s3_mount_blob_spec from to d :
  digest_wf d →
  sp s3_inv any (s3_mount_blob client from to d) (λ b s, b = true → from ≠ to → held client s to d).
Proof.
  intros Hd. unfold s3_mount_blob. apply sp_let. intros _ _. apply sp_let. intros _ _.
  eapply sp_bind; [apply sp_attempt, s3_blob_size_spec|]. intros [size|e]; [|destruct e; first [apply sp_throw|by apply sp_ret]].
  case_decide as Hft; [by apply sp_ret|].
  apply (sp_pre _ (copyable client from d size)); [|intros s _ Hs; right; by apply Hs].
  eapply sp_bind; [apply sp_copyable; [done|runs_auto]|intros charged].
  eapply sp_bind; [apply sp_copyable; [done|runs_auto]|]. intros [laid|e].
  2:{ apply s3_then; [runs_auto|intros; apply sp_throw]. }
  eapply sp_bind; [by apply sp_attempt, copy_object_spec|]. intros [u|e].
  2:{ apply s3_then; [runs_auto|intros; apply sp_throw]. }
  apply (sp_pre _ (λ s, held client s to d)); [|intros s _ Hs; by apply (Hs u)].
  eapply sp_bind; [apply s3_held; [done|runs_auto]|intros cs].
  eapply sp_bind; [apply s3_held; [done|runs_auto]|intros ?]. by apply sp_ret.
Qed.

(** Deleting leaves every other blob object. *)
Definition drops (k : string) (s s' : S3Store) : Prop :=
  ∀ k' d, blob_object k' d → k' ≠ k → contents (x_bucket s') !! k' = contents (x_bucket s) !! k'.

Lemma delete_pres k : runs s3_pres (store_read (o_delete k)).
Proof.
  apply runs_mapping_err. intros s Hs. rewrite on_bucket_state. unfold s3_inv. simpl.
  destruct (delete_writes k (x_bucket s)) as [->|[_ ->]]; [|done]. intros k' d c Hk Hc.
  apply lookup_delete_Some in Hc as [_ Hc]. by eapply Hs.
Qed.
Hint Resolve delete_pres : runs.
Lemma s3_delete_blob_pres repo d : runs s3_pres (s3_delete_blob client repo d).
Proof. unfold s3_delete_blob. runs_auto. Qed.
Hint Resolve s3_delete_blob_pres : runs.

Lemma s3_blob_left_bucket repo digest size s : x_bucket (s3_blob_left repo digest size s).1 = x_bucket s.
Proof. unfold s3_blob_left, modify. cbn [fst]. by destruct (note_blob_left (x_meta s) _ _ _ _ _ _) as [[[m g] x] q]. Qed.

(** What was deleted is gone. *)
Lemma s3_delete_blob_gone repo d s s' : s3_delete_blob client repo d s = (s', Ok tt) → ¬ held client s' repo d.
Proof.
  unfold s3_delete_blob. intros E (k & Hk & Hc). apply bind_Ok in E as (s1 & [] & _ & E).
  rewrite Hk in E. apply bind_Ok in E as (s2 & k' & [= <- <-] & E). apply bind_Ok in E as (s3 & n & _ & E).
  apply bind_Ok in E as (s4 & [] & E4 & E). apply mapping_err_Ok in E4. rewrite on_bucket_state in E4.
  pose proof (s3_blob_left_bucket repo (Digest_fmt d) (Some n) s4) as Hb. rewrite E in Hb. simpl in Hb.
  destruct (delete_writes (obj_path k) (x_bucket s3)) as [Hw|[[e Hw] _]]; [|rewrite Hw in E4; discriminate].
  injection E4 as <- _. rewrite Hb in Hc. simpl in Hc. rewrite Hw, lookup_delete_eq in Hc. by destruct Hc.
Qed.

Lemma s3_delete_blob_spec repo d : sp s3_inv any (s3_delete_blob client repo d) (λ _ s, ¬ held client s repo d).
Proof.
  intros s Hs _. split; [by apply s3_delete_blob_pres|]. intros [] Hr.
  destruct (s3_delete_blob client repo d s) as [s' r] eqn:E. simpl in *. subst r. by eapply s3_delete_blob_gone.
Qed.

(** ** Sessions *)

Lemma s3_begin_upload_same repo : runs same_blobs (s3_begin_upload repo).
Proof. unfold s3_begin_upload, begin_upload_session. runs_auto. Qed.
Lemma s3_append_upload_same repo id body off limit : runs same_blobs (s3_append_upload repo id body off limit).
Proof. unfold s3_append_upload. runs_auto. Qed.
Lemma s3_upload_size_same repo id : runs same_blobs (s3_upload_size repo id).
Proof. unfold s3_upload_size, staging_size. runs_auto. Qed.
Lemma s3_abort_upload_same repo id : runs same_blobs (s3_abort_upload repo id).
Proof. unfold s3_abort_upload. runs_auto. Qed.
Hint Resolve s3_begin_upload_same s3_append_upload_same s3_upload_size_same s3_abort_upload_same : runs.

Lemma validate_session_id_ne id : validate_session_id id = Ok tt → id ≠ "".
Proof. unfold validate_session_id. intros E ->. done. Qed.

(** The session holds [n] bytes. *)
Definition s3_upload (s : S3Store) (repo id : string) (n : Z) : Prop :=
  ∃ q c, staging_rel repo id = Ok q ∧ staged q c s ∧ n = blen c.

Lemma on_root_Ok {E A : Type} (m : M Fs E A) s s' a :
  on_root m s = (s', Ok a) → ∃ f', m (x_fs s) = (f', Ok a) ∧ s' = put_fs f' s.
Proof. rewrite on_root_state. destruct (m (x_fs s)) as [f' r]. simpl. intros [= <- ->]. eauto. Qed.

Lemma create_truncate_empty p f f' :
  p ≠ [] → create_truncate p f = (f', Ok tt) → ∃ i, files f' !! p = Some (Reg i []).
Proof.
  intros Hp. unfold create_truncate, syscall, tick, mbind, M_bind, gets, throw, mret, M_ret, modify, state. simpl.
  repeat case_match; intros; simplify_eq/=; eexists; by rewrite lookup_insert_eq.
Qed.

Lemma s3_begin_upload_spec repo :
  sp s3_inv any (s3_begin_upload repo) (λ id s, session_id id ∧ s3_upload s repo id 0).
Proof.
  intros s Hs _. split; [by apply (same_blobs_pres _ (s3_begin_upload_same repo))|]. intros id Hr.
  destruct (s3_begin_upload repo s) as [s' r] eqn:E. simpl in *. subst r.
  unfold s3_begin_upload, begin_upload_session in E. apply bind_Ok in E as (s1 & [] & _ & E).
  apply bind_Ok in E as (s2 & buf & _ & E). apply bind_Ok in E as (s3 & [] & Hid & E).
  apply bind_Ok in E as (s4 & ? & _ & E). apply bind_Ok in E as (s5 & dir & Hdir & E).
  apply bind_Ok in E as (s6 & r & Er & E). rewrite attempt_eq in Er. injection Er as <- <-.
  destruct (on_root (create_empty_beneath dir (hex_encode buf)) s5) as [s7 [[]|e]] eqn:Ec; simpl in E.
  2:{ apply bind_Ok in E as (? & ? & _ & [=]). }
  injection E as <- <-. injection Hid as _ Hid. injection Hdir as _ Hdir.
  split; [split; [apply hex_encode_lower|by apply validate_session_id_ne]|].
  exists (dir ++ [hex_encode buf]), []. split_and!; [by unfold staging_rel; rewrite Hid, Hdir| |done].
  apply on_root_Ok in Ec as (f' & Ec & ->). unfold create_empty_beneath in Ec.
  apply bind_Ok in Ec as (f1 & [] & _ & Ec). apply mapping_err_Ok in Ec.
  apply create_truncate_empty in Ec; [done|]. apply snoc_nonempty.
Qed.

(** Opening the staging file of a session. *)
Lemma open_staging q s s1 i c :
  q ≠ [] → s3_io_nf (resolve_beneath q true) s = (s1, Ok (i, c)) → files (x_fs s1) !! q = Some (Reg i c).
Proof.
  intros Hq E. apply mapping_err_Ok, on_root_Ok in E as (f' & E & ->).
  destruct (resolve_beneath_spec (λ _, True) q true Hq (x_fs s) I) as [_ Hr]. rewrite E in Hr. by destruct Hr as [_ Hr].
Qed.

Lemma repo_ok_range repo e : validate_repo repo = Err e → not_range e.
Proof.
  unfold validate_repo. induction (split "/" repo) as [|c cs IH]; simpl; [done|].
  destruct (validate_component c) as [[]|e'] eqn:Ec; simpl; [done|]. intros [= <-].
  unfold validate_component in Ec. case_match; by simplify_eq.
Qed.
Lemma staging_rel_range repo id e : staging_rel repo id = Err e → not_range e.
Proof.
  unfold staging_rel, repo_staging_rel, validate_session_id. case_match; [by intros [= <-]|]. simpl.
  destruct (validate_repo repo) eqn:E; [done|]. intros [= <-]. by eapply repo_ok_range.
Qed.
Lemma map_not_found_range e : not_range (map_not_found e).
Proof. unfold map_not_found. by case_match. Qed.

(** What a chunk did to its session. *)
Lemma s3_append_upload_spec repo id body off limit s :
  chunk_taken (s3_upload (s3_append_upload repo id body off limit s).1 repo id) body off (s3_append_upload repo id body off limit s).2.
Proof.
  destruct (s3_append_upload repo id body off limit s) as [s' r] eqn:E. simpl. unfold s3_append_upload, append_to_staging in E.
  destruct r as [n|e].
  - apply bind_Ok in E as (s1 & [] & _ & E). apply bind_Ok in E as (s2 & q & Hq & E). injection Hq as <- Hq.
    apply bind_Ok in E as (s3 & [i c] & E3 & E). pose proof (open_staging _ _ _ _ _ (staging_rel_ne _ _ _ Hq) E3) as Hf.
    apply bind_Ok in E as (s4 & [] & E4 & E). apply mapping_err_Ok, on_root_Ok in E4 as (f4 & E4 & ->).
    assert (Hf4 : files f4 !! q = Some (Reg i c)).
    { pose proof (io_err_same _ (syscall_same _ (runs_ret (R := same_files) tt)) (x_fs s3)) as Hs. rewrite E4 in Hs.
      simpl in Hs. by rewrite Hs. }
    apply bind_Ok in E as (s5 & [] & E5 & E).
    assert (Ho : s5 = put_fs f4 s3 ∧ ∀ o, off = Some o → o = blen c).
    { destruct off as [o|]; [|by injection E5]. destruct (o =? blen c)%Z eqn:Eo; [|done]. bool_simp.
      injection E5 as <-. split; [done|]. by intros ? [= <-]. }
    destruct Ho as [-> Ho]. apply bind_Ok in E as (s6 & [total h] & E6 & [= <- <-]).
    apply on_root_Ok in E6 as (f6 & E6 & ->). simpl in E6.
    apply (append_body_ok q i c) in E6 as (all & D & Hw & -> & _); [|done|by intros h'].
    split; [exists q, (c ++ all); split_and!; [done|by exists i|done]|]. exists all. rewrite blen_app.
    split_and!; [done|pose proof (blen_nonneg c); lia|]. intros o Hoff. rewrite (Ho o Hoff). lia.
  - assert (Hok : ∀ e', e = e' → not_range e' → chunk_taken (s3_upload s' repo id) body off (Err e)) by (intros ? -> He; by destruct e').
    apply bind_Err in E as [E|(s1 & [] & _ & E)]; [injection E as _ E; eapply Hok; [done|by eapply repo_ok_range]|].
    apply bind_Err in E as [E|(s2 & q & Hq & E)]; [injection E as _ E; eapply Hok; [done|by eapply staging_rel_range]|].
    injection Hq as <- Hq. apply bind_Err in E as [E|(s3 & [i c] & E3 & E)].
    { eapply Hok; [done|]. refine (fails_mapping_err (φ := not_range) map_not_found (on_root (resolve_beneath q true)) _ s1 e _);
        [apply map_not_found_range|]. unfold s3_io_nf in E. by rewrite E. }
    pose proof (open_staging _ _ _ _ _ (staging_rel_ne _ _ _ Hq) E3) as Hf.
    apply bind_Err in E as [E|(s4 & [] & E4 & E)].
    { eapply Hok; [done|]. refine (fails_mapping_err (φ := not_range) Io (on_root (io_err (syscall (mret tt)))) _ s3 e _); [done|].
      unfold s3_io in E. by rewrite E. }
    assert (Hf4 : files (x_fs s4) !! q = Some (Reg i c)).
    { apply mapping_err_Ok, on_root_Ok in E4 as (f4 & E4 & ->).
      pose proof (io_err_same _ (syscall_same _ (runs_ret (R := same_files) tt)) (x_fs s3)) as Hs. rewrite E4 in Hs.
      simpl in *. by rewrite Hs. }
    apply bind_Err in E as [E|(s5 & [] & E5 & E)].
    + destruct off as [o|]; [|done]. destruct (o =? blen c)%Z eqn:Eo; [done|]. bool_simp. injection E as <- <-.
      split_and!; [exists q, c; split_and!; [done|by exists i|done]|done|done].
    + apply bind_Err in E as [E|(s6 & [t h] & _ & [=])]. eapply Hok; [done|].
      refine (fails_focus x_fs put_fs (append_body q (blen c) body limit None) _ s5 e _); [apply append_body_range|].
      unfold on_root in E. by rewrite E.
Qed.

Lemma s3_upload_size_spec repo id : sp s3_inv any (s3_upload_size repo id) (λ n s, s3_upload s repo id n).
Proof.
  unfold s3_upload_size. apply sp_let. intros _ _. eapply sp_weaken; [apply staging_size_spec|done|].
  intros n s _ (q & c & H'). exists q, c. naive_solver.
Qed.

(** ** Manifests *)

(** The required blobs that are digests at all are there. *)
Definition all_held (repo : string) (ds : list Digest) (s : S3Store) : Prop :=
  ∀ d, d ∈ ds → digest_wf d → held client s repo d.

Lemma require_all_spec repo ds : sp s3_inv any (require_all client repo ds) (λ _, all_held repo ds).
Proof.
  induction ds as [|d ds IH]; simpl; [apply sp_ret; by intros ? _ _ d ?%elem_of_nil|].
  eapply sp_bind; [apply s3_blob_exists_spec|]. intros []; [|apply sp_throw].
  intros s Hs Hd. destruct (IH s Hs I) as [I1 I2]. split; [done|]. intros u Hu d' [->|Hin]%elem_of_cons Hwf.
  - eapply held_grows; [done| |by apply Hd]. apply (same_blobs_grows (require_all client repo ds)). runs_auto.
  - by apply (I2 u).
Qed.

Lemma all_held_same repo ds s s' : same_blobs s s' → all_held repo ds s → all_held repo ds s'.
Proof.
  intros Hb Ha d Hin Hd. eapply held_grows; [done| |by apply Ha]. intros k d' Hk. by rewrite (Hb k d' Hk).
Qed.

(** A step that keeps what a stored manifest needs. *)
Lemma s3_stored {E A : Type} repo d ds (m : M S3Store E A) :
  digest_wf d → runs quiet m →
  sp s3_inv (λ s, held client s repo d ∧ all_held repo ds s) m (λ _ s, held client s repo d ∧ all_held repo ds s).
Proof.
  intros Hd Hm s Hs [I1 I2]. destruct (Hm s) as [Hb _]. split; [by eapply same_blobs_inv|]. intros _ _. split.
  - eapply held_grows; [done| |done]. intros k d' Hk. by rewrite (Hb k d' Hk).
  - by eapply all_held_same.
Qed.

Lemma s3_put_manifest_spec repo tag d mt data links :
  digest_wf d → (blen data ≤ c_copy_limit client)%Z →
  sp s3_inv any (s3_put_manifest client repo tag d mt data links)
    (λ _ s, held client s repo d ∧ all_held repo (required links) s ∧
            manifest_recorded (mview (x_meta s)) repo tag d mt links).
Proof.
  intros Hd Hsize. unfold s3_put_manifest. apply sp_let. intros _ _. apply s3_then; [destruct tag; runs_auto|intros ?].
  apply sp_let. intros referrer Href. eapply sp_bind; [by apply s3_put_blob_spec|intros ?].
  eapply sp_bind.
  { eapply sp_weaken; [apply (sp_frame quiet (λ s, held client s repo d) any _ (λ _, all_held repo (required links)))| |].
    - runs_auto.
    - intros s s' [Hb _]. eapply held_grows; [done|]. intros k d' Hk. by rewrite (Hb k d' Hk).
    - apply require_all_spec.
    - done.
    - intros ? s _ [I1 I2]. exact (conj I2 I1 : held client s repo d ∧ all_held repo (required links) s). }
  intros ?. eapply (sp_bind _ _ _ (λ _ s, (held client s repo d ∧ all_held repo (required links) s) ∧
    manifest_recorded (mview (x_meta s)) repo tag d mt links)).
  { intros s Hs Hp. destruct (s3_stored repo d (required links) (s3_apply_meta repo (PutManifest repo (Digest_fmt d) mt tag
      (Digest_fmt <$> references links) referrer)) Hd ltac:(runs_auto) s Hs Hp) as [I1 I2].
    split; [done|]. intros [] Hr. split; [by apply (I2 tt)|].
    destruct (s3_apply_meta _ _ s) as [s' r] eqn:E. simpl in *. subst r.
    rewrite (s3_apply_meta_view _ _ _ _ E). apply put_manifest_recorded. intros subject desc Hl. rewrite Hl in Href.
    by case_res. }
  intros ? s Hs [Hp Hrec]. split; [exact Hs|]. intros _ _. exact (conj (proj1 Hp) (conj (proj2 Hp) Hrec)).
Qed.

Lemma read_index_quiet repo : runs quiet (read_remote_index client repo).
Proof. unfold read_remote_index. runs_auto. Qed.
Hint Resolve read_index_quiet : runs.
Lemma existing_index_quiet repo : runs quiet (existing_index client repo).
Proof. unfold existing_index. runs_auto. Qed.
Hint Resolve existing_index_quiet : runs.
Lemma read_index_view_quiet repo : runs quiet (read_index_view client repo).
Proof. unfold read_index_view. runs_auto. Qed.
Hint Resolve read_index_view_quiet : runs.
Lemma s3_index_resolve_tag_quiet repo tag : runs quiet (s3_index_resolve_tag client repo tag).
Proof. unfold s3_index_resolve_tag. runs_auto. Qed.
Hint Resolve s3_index_resolve_tag_quiet : runs.

Lemma s3_index_resolve_tag_spec repo tag :
  sp s3_inv any (s3_index_resolve_tag client repo tag) (λ r _, digest_wf r.1).
Proof.
  unfold s3_index_resolve_tag. apply s3_then; [runs_auto|intros index]. apply sp_let. intros ms _.
  apply sp_let. intros e _. apply sp_let. intros ds _. apply sp_let. intros d Hd%Digest_parse_wf. by apply sp_ret.
Qed.

Lemma s3_get_manifest_authentic repo reference :
  sp s3_inv any (s3_get_manifest client repo reference)
    (λ m _, digest_wf (mr_digest m) ∧ digest_of (mr_bytes m) (algorithm (mr_digest m)) = mr_digest m ∧
       (contains_char ":" reference = true → Digest_parse reference = Ok (mr_digest m))).
Proof.
  unfold s3_get_manifest. apply sp_let. intros _ _.
  eapply (sp_known _ (λ r, digest_wf r.1 ∧ (contains_char ":" reference = true → Digest_parse reference = Ok r.1))).
  - case_match.
    + apply sp_let. intros d Hd. pose proof (Digest_parse_wf _ _ Hd). apply s3_then; [runs_auto|intros known].
      apply s3_then; [runs_auto|intros cached]. by apply sp_ret.
    + apply s3_then; [runs_auto|]. intros [[ds mt]|].
      * apply sp_let. intros d Hd%Digest_parse_wf. by apply sp_ret.
      * eapply sp_weaken; [apply s3_index_resolve_tag_spec|done|done].
  - intros [d mt] [Hd Hr]. eapply sp_known; [by apply s3_read_blob_spec|]. intros b Hb. by apply sp_ret.
Qed.

Lemma s3_get_manifest_meta repo reference : runs same_meta (s3_get_manifest client repo reference).
Proof. unfold s3_get_manifest. runs_auto. Qed.

Lemma s3_get_manifest_known repo reference s s' m :
  s3_get_manifest client repo reference s = (s', Ok m) →
  if contains_char ":" reference then
    ∀ mt, manifest_media_type (mview (x_meta s)) repo reference = Some mt → mr_media_type m = mt
  else
    ∀ ds mt, resolve_tag (mview (x_meta s)) repo reference = Some (ds, mt) → Digest_parse ds = Ok (mr_digest m) ∧ mr_media_type m = mt.
Proof.
  unfold s3_get_manifest. intros E. apply bind_Ok in E as (s1 & [] & [= <- _] & E).
  apply bind_Ok in E as (s2 & [d mt] & E2 & E). apply bind_Ok in E as (s3 & b & _ & [= _ <-]). simpl.
  destruct (contains_char ":" reference).
  - apply bind_Ok in E2 as (s4 & d' & [= <- _] & E2). apply bind_Ok in E2 as (s5 & known & [= <- Hk] & E2).
    apply bind_Ok in E2 as (s6 & cached & _ & [= _ _ <-]). intros mt'. rewrite Hk. by intros ->.
  - apply bind_Ok in E2 as (s4 & known & [= <- Hk] & E2). intros ds mt'. rewrite Hk. intros ->.
    apply bind_Ok in E2 as (s5 & d' & [= _ Hd] & [= _ <- <-]). done.
Qed.

Lemma s3_get_manifest_spec repo reference :
  sp s3_inv any (s3_get_manifest client repo reference) (λ m s, manifest_found (mview (x_meta s)) repo reference m).
Proof.
  intros s Hs _. destruct (s3_get_manifest_authentic repo reference s Hs I) as [I1 I2]. split; [done|]. intros m Hr.
  destruct (I2 m Hr) as (Hd & Hb & Hp). split_and!; [done..|]. rewrite s3_get_manifest_meta.
  destruct (s3_get_manifest client repo reference s) as [s' r] eqn:E. simpl in Hr. subst r.
  apply s3_get_manifest_known in E. destruct (contains_char ":" reference); auto.
Qed.

Lemma foldl_marks_derived repo refs :
  derived (λ s, foldl (λ s r,
    if bool_decide (get_backrefs (mview (x_meta s)) repo r = [])
    then put_gc (mark (x_gc s) repo r (s3_now s)) s else s) s refs).
Proof.
  induction refs as [|r refs IH]; intros s; simpl; [done|]. case_match; [|apply IH].
  by destruct (IH (put_gc (mark (x_gc s) repo r (s3_now s)) s)) as [-> ->].
Qed.
Lemma foldl_marks_quiet repo refs :
  runs quiet (modify (E := StorageError) (λ s, foldl (λ s r,
    if bool_decide (get_backrefs (mview (x_meta s)) repo r = [])
    then put_gc (mark (x_gc s) repo r (s3_now s)) s else s) s refs)).
Proof. apply quiet_derived, foldl_marks_derived. Qed.
Hint Resolve foldl_marks_quiet : runs.
Lemma s3_delete_manifest_pres repo d : runs s3_pres (s3_delete_manifest client repo d).
Proof. unfold s3_delete_manifest. runs_auto. Qed.

Lemma foldl_marks_meta repo refs s :
  x_meta (foldl (λ s r,
    if bool_decide (get_backrefs (mview (x_meta s)) repo r = [])
    then put_gc (mark (x_gc s) repo r (s3_now s)) s else s) s refs) = x_meta s.
Proof.
  revert s. induction refs as [|r refs IH]; intros s; simpl; [done|]. case_match; [|apply IH]. by rewrite IH.
Qed.

(** What became of a deleted manifest: no object, no type, no tag. *)
Lemma s3_delete_manifest_spec repo d :
  digest_wf d → sp s3_inv any (s3_delete_manifest client repo d)
    (λ _ s, ¬ held client s repo d ∧ manifest_media_type (mview (x_meta s)) repo (Digest_fmt d) = None ∧
            ∀ t mt, resolve_tag (mview (x_meta s)) repo t ≠ Some (Digest_fmt d, mt)).
Proof.
  intros Hd s Hs _. split; [by apply s3_delete_manifest_pres|]. intros [] Hr.
  destruct (s3_delete_manifest client repo d s) as [s' r] eqn:E. simpl in *. subst r. unfold s3_delete_manifest in E.
  apply bind_Ok in E as (s1 & [] & _ & E). apply bind_Ok in E as (s2 & r & _ & E).
  apply bind_Ok in E as (s3 & [] & E3 & E). apply s3_delete_blob_gone in E3.
  apply bind_Ok in E as (s4 & [] & [= <-] & E). apply bind_Ok in E as (s5 & [] & E5 & [= <-]).
  rewrite foldl_marks_meta, (s3_apply_meta_view _ _ _ _ E5). simpl.
  destruct (delete_manifest_spec (mview (x_meta s3)) repo (Digest_fmt d)) as (Ht & Hm & _). split_and!.
  - intros Hh. apply E3. destruct Hh as (k & Hk & Hc). exists k. split; [done|]. revert Hc.
    match goal with |- context [foldl ?f ?a ?l] => destruct (foldl_marks_derived repo l a) as [_ Eb] end.
    rewrite Eb. destruct (s3_apply_meta_quiet repo (DeleteManifest repo (Digest_fmt d))
      (put_manifest_sizes (delete (repo, Digest_fmt d) (x_manifest_sizes s3)) s3)) as [Hq _].
    rewrite E5 in Hq. simpl in Hq. by rewrite (Hq _ d (blob_key_object _ _ _ _ Hd Hk)).
  - by rewrite Hm, decide_True.
  - intros t mt. rewrite Ht. destruct (resolve_tag _ repo t) as [[x y]|]; [|done]. case_decide; congruence.
Qed.

(** ** Listings *)

Lemma s3_list_tags_spec repo last limit :
  sp s3_inv any (s3_list_tags client repo last limit) (λ p _, within limit p).
Proof.
  unfold s3_list_tags. apply sp_let. intros _ _. eapply (sp_known _ (λ o, ∀ p, o = Some p → within limit p)).
  { eapply sp_weaken; [apply sp_gets|done|]. intros o s _ [_ ->] p. apply tags_page_within. }
  intros [p|] Hp; [apply sp_ret; by auto|]. apply s3_then; [runs_auto|intros index]. apply sp_ret.
  intros _ _ _. apply take_page_within.
Qed.

Lemma s3_list_referrers_spec repo subject at_ last limit :
  sp s3_inv any (s3_list_referrers client repo subject at_ last limit) (λ p _, within limit p).
Proof.
  unfold s3_list_referrers. apply sp_let. intros _ _. eapply (sp_known _ (λ o, ∀ p, o = Some p → within limit p)).
  { eapply sp_weaken; [apply sp_gets|done|]. intros o s _ [_ ->] p. apply referrers_page_within. }
  intros [page|] Hpage; [apply sp_ret; by auto|]. apply s3_then; [runs_auto|intros index].
  case_match; apply sp_ret; intros _ _ _; [unfold within; simpl; lia|apply page_layout_within].
Qed.

(** The page of the metadata, when it has one. *)
Lemma s3_list_tags_known repo last limit s p :
  (s3_list_tags client repo last limit s).2 = Ok p →
  ∀ q, tags_page (mview (x_meta (s3_list_tags client repo last limit s).1)) repo last limit = Some q → p = q.
Proof.
  assert (Hm : runs same_meta (s3_list_tags client repo last limit)) by (unfold s3_list_tags; runs_auto).
  rewrite (Hm s). unfold s3_list_tags, mbind, M_bind, of_result, gets. destruct (validate_repo repo); [|done]. simpl.
  destruct (tags_page _ _ _ _); [|done]. by intros [= <-] q [= <-].
Qed.

Lemma s3_list_referrers_known repo subject at_ last limit s p :
  (s3_list_referrers client repo subject at_ last limit s).2 = Ok p →
  ∀ q, referrers_page (mview (x_meta (s3_list_referrers client repo subject at_ last limit s).1)) repo (Digest_fmt subject)
         at_ last limit = Some q → p = q.
Proof.
  assert (Hm : runs same_meta (s3_list_referrers client repo subject at_ last limit)) by (unfold s3_list_referrers; runs_auto).
  rewrite (Hm s). unfold s3_list_referrers, mbind, M_bind, of_result, gets. destruct (validate_repo repo); [|done]. simpl.
  destruct (referrers_page _ _ _ _ _ _); [|done]. by intros [= <-] q [= <-].
Qed.

(** ** The contract *)

Lemma s3_ensures {E A : Type} (m : M S3Store E A) Q : sp s3_inv any m Q → ensures s3_inv m Q.
Proof. intros Hm s Hs. by apply Hm. Qed.
Lemma s3_ensures_pres {E A : Type} (m : M S3Store E A) : runs s3_pres m → ensures s3_inv m (λ _ _, True).
Proof. intros Hm s Hs. split; [by apply Hm|done]. Qed.

(** Facts about a result beside the triple of its operation. *)
Lemma s3_and {A : Type} (m : M S3Store StorageError A) (Q Q' : A → S3Store → Prop) :
  sp s3_inv any m Q → (∀ s a, (m s).2 = Ok a → Q' a (m s).1) → ensures s3_inv m (λ a s, Q a s ∧ Q' a s).
Proof. intros Hm HQ s Hs. destruct (Hm s Hs I) as [I1 I2]. split; [done|]. intros a Ha. split; [by apply I2|by apply HQ]. Qed.

#[export] Program Instance s3_storage_laws : StorageLaws (H0 := s3_storage client) := {|
  sto_ok := s3_inv;
  sto_has s repo d := held client s repo d;
  sto_view s _ := mview (x_meta s);
  sto_upload := s3_upload;
  id_ok _ := True;
  size_ok n := (n ≤ c_copy_limit client)%Z;
|}.
Next Obligation. intros n m Hnm Hm. simpl in *. lia. Qed.
Next Obligation.
  intros repo d Hd. apply s3_ensures. eapply sp_weaken; [apply s3_blob_size_spec|done|].
  intros n s Hs (c & Hc & ->). right. exists c. split; [by eapply object_of_authentic|done].
Qed.
Next Obligation. intros. apply s3_ensures_pres. simpl. runs_auto. Qed.
Next Obligation. intros. by apply s3_ensures, s3_open_blob_spec. Qed.
Next Obligation.
  intros. apply s3_ensures. eapply sp_weaken; [apply s3_begin_upload_spec|done|].
  intros id s _ [Hid Hu]. split_and!; [done|by apply session_id_text..|done].
Qed.
Next Obligation.
  intros repo id body off limit _ s Hs. rewrite attempt_eq. split; [|intros r [= <-]; apply s3_append_upload_spec].
  apply (same_blobs_pres _ (s3_append_upload_same repo id body off limit)), Hs.
Qed.
Next Obligation. intros. apply s3_ensures, s3_upload_size_spec. Qed.
Next Obligation. intros. apply s3_ensures_pres. simpl. runs_auto. Qed.
Next Obligation. intros. by apply s3_ensures, s3_mount_blob_spec. Qed.
Next Obligation. intros. by apply s3_ensures, s3_finish_upload_spec. Qed.
Next Obligation. intros. apply s3_ensures, s3_delete_blob_spec. Qed.
Next Obligation. intros. by apply s3_ensures, s3_put_manifest_spec. Qed.
Next Obligation. intros. apply s3_ensures, s3_get_manifest_spec. Qed.
Next Obligation. intros. by apply s3_ensures, s3_delete_manifest_spec. Qed.
Next Obligation. intros. apply s3_and; [apply s3_list_tags_spec|apply s3_list_tags_known]. Qed.
Next Obligation. intros. apply s3_and; [apply s3_list_referrers_spec|intros s p; apply s3_list_referrers_known]. Qed.
End Backend.
