(* ===== verification/S3Recover.v ===== *)
(** How the S3 backend starts and what it does in the background
    (storage_impl.rs, uploads.rs and lib.rs of roci-storage-s3/src): the readiness
    probe and the creation of the bucket, the recovery from the [index.json]
    objects, the collector's consistency check and its sweep. *)

From S2P Require Import Config NetAddr.
From S2P Require Import StorageApi Prelude RustStr Json Errors Digest Paths Quota Metadata MetaLog.
From S2P Require Import MetaStore Effect FileSys FileSysFacts Walk Layout Lifecycle UploadBody ObjectStore S3Storage.

Section Recover.
Context `{!Crypto, !World, !SerdeJson, !HashIter, !MetadataStore, !ObjectStore, !ObjPaths, !UrlCrate}.
Variable client : S3Client.
Abbreviation prefix := (c_prefix client).

(** These programs swallow every error; the error type is that of the calls. *)
Abbreviation s3bg := (M S3Store StorageError).

Fixpoint for_each {A} (f : A → s3bg ()) (l : list A) : s3bg () :=
  match l with
  | [] => mret tt
  | x :: l => f x;; for_each f l
  end.

(** ** Opening (lib.rs) *)

(** [open_with_client] with the metadata it opened and the files it found. *)
Definition s3_open (gc_on : bool) (gc_delay : Z) (dedupe_on : bool) (m : mstore) (f : Fs) (b : bucket) (q : Quota)
    : S3Store :=
  mkS3 f b m (gc_new gc_on gc_delay) q (dedupe_new dedupe_on) ∅ ∅ ∅ ∅ None false.

(** ** The bucket *)

(** Durations in nanoseconds. *)
Definition CREATE_BUCKET_DEADLINE : Z := 60 * 1000000000.
Definition PROBE_TTL : Z := 10 * 1000000000.
Definition FIRST_DELAY : Z := 250 * 1000000.
Definition MAX_DELAY : Z := 5 * 1000000000.

Definition next_delay (delay : Z) : Z := ((delay * 2) `min` MAX_DELAY)%Z.

(** The loop of [ensure_bucket_within]; [after i] is the instant after the
    [i]-th attempt. [None] when the fuel runs out. *)
Fixpoint create_loop (fuel : nat) (after : nat → Z) (sign : string → string → Z → result string url) (http : BucketHttp)
    (i : nat) (delay until_at : Z) : s3bg (option ()) :=
  match fuel with
  | O => mret None
  | S fuel =>
      u ← of_result (map_err (λ e, Io (IoError KOther ("signing CreateBucket: " +:+ e))) (sign "PUT" (obj_path "") 60%Z));
      of_result (map_err (λ e, Io (IoError KOther e)) (http_put http u));;
      r ← attempt (focus x_bucket put_bucket (http_execute http u));
      match (match r with
             | Ok status => if bool_decide (status = 200%Z) || bool_decide (status = 409%Z) then None
                            else Some ("HTTP " +:+ u64_to_string status)
             | Err e => Some e
             end) with
      | None => mret (Some tt)
      | Some failure =>
          if (until_at <? after i + delay)%Z then throw (Unavailable ("create_bucket failed: " +:+ failure))
          else create_loop fuel after sign http (S i) (next_delay delay) until_at
      end
  end.

Definition ensure_bucket_within (fuel : nat) (started : Z) (after : nat → Z) (deadline : Z) : s3bg (option ()) :=
  match c_signer client, c_bucket_http client with
  | Some sign, Some http => create_loop fuel after sign http 0 FIRST_DELAY (started + deadline)
  | _, _ => throw (Io (IoError KInvalidInput "create_bucket requires S3 credentials"))
  end.

Definition set_ensured : s3bg () := modify (put_bucket_ensured true).

(** [ready]: with no time left, one attempt. *)
Definition probe_key : string :=
  if decide (prefix = "") then ".roci-readyz-probe" else prefix +:+ "/.roci-readyz-probe".

Definition s3_ready (create_bucket : bool) (started : Z) (after : nat → Z) : s3bg () :=
  fresh ← gets (λ s, match x_readiness s with
                     | Some ts => (saturating_sub (s3_now s) ts <? PROBE_TTL)%Z
                     | None => false
                     end);
  if fresh : bool then mret tt else
  ensured ← gets x_bucket_ensured;
  (if create_bucket && negb ensured then _ ← ensure_bucket_within 1 started after 0; set_ensured else mret tt);;
  let path := obj_path probe_key in
  mapping_err (λ e, Unavailable ("readiness probe PUT failed: " +:+ obj_text e)) (on_bucket (o_put path (as_bytes "ok")));;
  _ ← attempt (on_bucket (o_delete path));
  modify (λ s, put_readiness (Some (s3_now s)) s).

(** ** Staging files (uploads.rs) *)

(** [depth] bounds the nesting of the directories. *)
Fixpoint count_staging_files (depth : nat) (dir : path) : M Fs errno Z :=
  match depth with
  | O => mret 0%Z
  | S depth =>
      entries ← attempt (readdir dir);
      match entries with
      | Err _ => mret 0%Z
      | Ok entries =>
          counts ← each_entry (λ name n,
            match n with
            | Dir => k ← count_staging_files depth (dir ++ [name]); mret [k]
            | Reg _ _ => mret [1%Z]
            | Special => mret []
            end) entries;
          mret (foldr Z.add 0%Z counts)
      end
  end.

(** The session a staging file belongs to; names that are no text are dropped. *)
Definition session_of (rel : path) : option (string * string) :=
  let components := filter (λ c, utf8_valid (as_bytes c) = true) rel in
  match reverse components with
  | id :: (_ :: _) as d => Some (join "/" (reverse (tail d)), id)
  | _ => None
  end.

Fixpoint walk_staging_files (depth : nat) (base dir : path) : M Fs errno (list (path * (string * string * Z))) :=
  match depth with
  | O => mret []
  | S depth =>
      entries ← attempt (readdir dir);
      match entries with
      | Err _ => mret []
      | Ok entries => each_entry (λ name n,
          match n with
          | Dir => walk_staging_files depth base (dir ++ [name])
          | Reg _ _ =>
              m ← attempt (statat (dir ++ [name]));
              mret (match m with
                    | Ok nd => match session_of (drop (length base) (dir ++ [name])) with
                               | Some (repo, id) => [(dir ++ [name], (repo, id, node_size nd))]
                               | None => []
                               end
                    | Err _ => []
                    end)
          | Special => mret []
          end) entries
      end
  end.

Definition seed_sessions_from_staging (depth : nat) : s3bg () :=
  r ← attempt (on_root (count_staging_files depth ["uploads"]));
  match r with
  | Ok n => if (0 <? n)%Z then modify (λ s, put_quota (seed_sessions (x_quota s) n) s) else mret tt
  | Err _ => mret tt
  end.

(** ** Recovery from the remote indexes *)

Definition list_prefix : option string := if decide (prefix = "") then None else Some (obj_path prefix).

(** [store.list(…)], the errors in between skipped. *)
Definition list_objects (p : option string) : s3bg (list (string * Z)) := λ s,
  let '(b, items) := o_list p (x_bucket s) in (put_bucket b s, Ok (omap ok items)).

(** The repositories with an [index.json]. *)
Definition indexed_repos : s3bg (list string) :=
  items ← list_objects list_prefix;
  mret (remove_dups (omap (λ x, extract_repo_from_index_key x.1 prefix) items)).

Definition cache_remote_index (repo : string) (index : json) : s3bg () :=
  modify (λ s, put_cached_index (<[repo := index]> (x_cached_index s)) s).

Definition recover_entry (repo : string) (entry : json) : s3bg () :=
  match descriptor_digest entry with
  | None => mret tt
  | Some digest =>
      match jget "size" entry ≫= as_u64 with
      | Some size => record_manifest_size repo digest size
      | None => mret tt
      end;;
      match subject_digest entry with
      | Some subject =>
          known ← gets (λ s, has_referrer (mview (x_meta s)) repo subject digest);
          if known : bool then mret tt
          else
            let media_type := default MEDIA_TYPE_IMAGE_MANIFEST (jget "mediaType" entry ≫= as_str) in
            modify (λ s, put_meta (mapply (x_meta s)
              (PutManifest repo digest media_type None [] (Some (subject, to_vec entry)))).1 s)
      | None => mret tt
      end;;
      modify (λ s, put_dedupe (dedupe_insert (x_dedupe s) repo digest) s)
  end.

Definition recover_repo (repo : string) : s3bg () :=
  index ← attempt (read_remote_index client repo);
  match index with
  | Err _ => mret tt
  | Ok index =>
      cache_remote_index repo index;;
      modify (λ s, put_meta (import_foreign_tags (x_meta s) repo index) s);;
      for_each (recover_entry repo) (index_manifests index)
  end.

(** The blob objects of a repository, under their keys. *)
Definition list_blobs (rp : string) : s3bg (list (string * Z)) := list_objects (Some (obj_path (rp +:+ "/blobs/"))).

Definition seed_quota_from_listing (repo : string) : s3bg () :=
  match repo_prefix prefix repo with
  | Err _ => mret tt
  | Ok rp =>
      items ← list_blobs rp;
      for_each (λ x, modify (λ s, put_quota (seed (x_quota s) repo x.2) s)) items
  end.

Definition seed_dedupe_from_listing (repo : string) : s3bg () :=
  match repo_prefix prefix repo with
  | Err _ => mret tt
  | Ok rp =>
      items ← list_blobs rp;
      for_each (λ x, match extract_digest_from_blob_key x.1 rp with
                     | Some digest => modify (λ s, put_dedupe (dedupe_insert (x_dedupe s) repo digest) s)
                     | None => mret tt
                     end) items
  end.

Definition recover_from_remote_indexes (depth : nat) : s3bg () :=
  seed_sessions_from_staging depth;;
  repos ← indexed_repos;
  for_each recover_repo repos;;
  tracked ← gets (λ s, tracks_bytes (x_quota s));
  (if tracked : bool then for_each seed_quota_from_listing repos else mret tt);;
  deduping ← gets (λ s, dd_enabled (x_dedupe s));
  if deduping : bool then for_each seed_dedupe_from_listing repos else mret tt.

(** [StorageBackend::recover] *)
Definition s3_recover (fuel depth : nat) (create_bucket : bool) (started : Z) (after : nat → Z) : s3bg () :=
  (if create_bucket then
     r ← attempt (ensure_bucket_within fuel started after CREATE_BUCKET_DEADLINE);
     match r with Ok _ => set_ensured | Err _ => mret tt end
   else mret tt);;
  recover_from_remote_indexes depth.

(** ** The collector *)

Definition s3_clear (repo digest : string) : s3bg () := modify (λ s, put_gc (gc_clear (x_gc s) repo digest) s).
Definition s3_mark_unsafe (repo : string) : s3bg () := modify (λ s, put_gc (mark_unsafe (x_gc s) repo) s).

(** The callback of [gc_rebuild_repo]. *)
Definition read_root_manifest (repo : string) (d : Digest) : M S3Store io_error (option bytes) :=
  r ← attempt (s3_blob_size client repo d);
  match r with
  | Err NotFound => mret None
  | Err e => throw (IoError KOther (StorageError_fmt e))
  | Ok size =>
      if (MAX_ROOT_MANIFEST_BYTES <? size)%Z then throw (IoError KInvalidData "oversized root manifest") else
      b ← attempt (s3_read_blob client repo d);
      match b with
      | Ok b => mret (Some b)
      | Err e => throw (IoError KOther (StorageError_fmt e))
      end
  end.

(** [rebuild_backrefs] with a callback that runs; [None] when the fuel runs out.
    [stack] is [to_visit] from its end. *)
Fixpoint rebuild_run (fuel : nat) (repo : string) (all stack : list string) : s3bg (option (list string)) :=
  match stack with
  | [] => mret (Some all)
  | digest :: stack =>
      match fuel with
      | O => mret None
      | S fuel =>
          match Digest_parse digest with
          | Err _ => rebuild_run fuel repo all stack
          | Ok d =>
              r ← attempt (read_root_manifest repo d);
              match (match r with Ok (Some b) => from_slice b | _ => None end) with
              | None => s3_mark_unsafe repo;; rebuild_run fuel repo all stack
              | Some manifest =>
                  let '(all', stack') := push_children (index_manifests manifest) all stack in
                  modify (λ s, put_meta (record_edges (x_meta s) repo digest (missing_edges (x_meta s) repo digest manifest)) s);;
                  rebuild_run fuel repo all' stack'
              end
          end
      end
  end.

Definition s3_rebuild_backrefs (fuel : nat) (repo : string) (roots : list string) : s3bg () :=
  all ← rebuild_run fuel repo roots roots;
  modify (λ s, put_gc (foldl (add_unrecorded_root repo (x_meta s)) (x_gc s) (default [] all)) s).

Definition s3_gc_rebuild_repo (fuel : nat) (repo : string) : s3bg () :=
  known ← gets (λ s, Metadata.manifests (mview (x_meta s)) repo);
  index ← attempt (read_remote_index client repo);
  match index with
  | Err NotFound => s3_rebuild_backrefs fuel repo (remove_dups known)
  | Err _ => s3_mark_unsafe repo
  | Ok index => s3_rebuild_backrefs fuel repo (remove_dups (known ++ omap descriptor_digest (index_manifests index)))
  end.

(** A blob of the listing becomes a candidate when nothing holds it. *)
Definition seed_listed (at_ : Z) (repo rp : string) (x : string * Z) : s3bg () :=
  match extract_digest_from_blob_key x.1 rp with
  | None => mret tt
  | Some ds => modify (λ s,
      if bool_decide (is_Some (manifest_media_type (mview (x_meta s)) repo ds)) || is_root (x_gc s) repo ds then s
      else if bool_decide (get_backrefs (mview (x_meta s)) repo ds = [])
      then put_gc (mark_at (x_gc s) repo ds at_) s
      else s)
  end.

Definition seed_candidates (at_ : Z) (repo : string) : s3bg () :=
  match repo_prefix prefix repo with
  | Err _ => mret tt
  | Ok rp => items ← list_blobs rp; for_each (seed_listed at_ repo rp) items
  end.

(** [age] is how long ago a file was modified, by the clocks of the moment; zero
    when that cannot be told. *)
Variable age : Fs → path → Z.

Definition sweep_staged (stale : string * string * Z) : s3bg () :=
  let '(repo, id, _) := stale in
  old ← gets (λ s, match staging_rel repo id with Ok p => (gc_delay (x_gc s) <=? age (x_fs s) p)%Z | Err _ => false end);
  match staging_rel repo id with
  | Err _ => mret tt
  | Ok p =>
      if old : bool then
        r ← attempt (on_root (unlinkat p));
        if is_ok r then s3_end_session else mret tt
      else mret tt
  end.

Definition s3_sweep_stale_uploads (depth : nat) : s3bg () :=
  files ← attempt (on_root (walk_staging_files depth ["uploads"] ["uploads"]));
  stale ← gets (λ s, filter (λ x, (gc_delay (x_gc s) <=? age (x_fs s) x.1)%Z = true)
                       (match files with Ok l => l | Err _ => [] end));
  for_each sweep_staged stale.*2.

Definition s3_gc_consistency_check (fuel depth : nat) : s3bg () :=
  listed ← indexed_repos;
  known ← gets (λ s, Metadata.repos (mview (x_meta s)));
  let repos := listed ++ filter (λ r, r ∉ listed) known in
  for_each (s3_gc_rebuild_repo fuel) repos;;
  at_ ← gets s3_now;
  for_each (seed_candidates at_) repos;;
  s3_sweep_stale_uploads depth.

(** One candidate of [gc_sweep]. *)
Definition s3_sweep_one (now : Z) (k : string * string) : s3bg () :=
  let '(repo, digest) := k in
  g ← gets x_gc;
  if negb (is_due g repo digest now) then mret tt
  else if is_root g repo digest then s3_clear repo digest
  else if is_unsafe g repo then mret tt
  else
  m ← gets x_meta;
  if bool_decide (get_backrefs (mview m) repo digest ≠ []) then s3_clear repo digest
  else if bool_decide (is_Some (manifest_media_type (mview m) repo digest)) then s3_clear repo digest
  else
  match Digest_parse digest with
  | Err _ => s3_clear repo digest
  | Ok d =>
      match blob_key prefix repo d with
      | Err _ => s3_clear repo digest
      | Ok key =>
          let path := obj_path key in
          h ← attempt (on_bucket (o_head path));
          match h with
          | Err (ObjNotFound _) => s3_clear repo digest
          | Err (ObjOther _) => mret tt
          | Ok size =>
              r ← attempt (on_bucket (o_delete path));
              match r with
              | Ok _ => s3_blob_left repo digest (Some size)
              | Err (ObjNotFound _) => s3_clear repo digest
              | Err (ObjOther _) => mret tt
              end
          end
      end
  end.

(** [start_maintenance] before the periodic sweep. *)
Definition s3_start_gc (fuel depth : nat) : s3bg () :=
  on ← gets (λ s, gc_enabled (x_gc s));
  (if on : bool then s3_gc_consistency_check fuel depth else mret tt);;
  modify (λ s, put_gc (set_ready (x_gc s)) s).

Definition s3_gc_sweep (depth : nat) : s3bg () :=
  g ← gets x_gc;
  if negb (is_ready g) then mret tt else
  now ← gets s3_now;
  if bool_decide (due g now = []) then mret tt else
  for_each (s3_sweep_one now) (due g now);;
  s3_sweep_stale_uploads depth.
End Recover.
