(* ===== verification/S3Run.v ===== *)
(** Runs of the S3 backend: its background work, what a sweep may remove, every
    operation as a step, and what holds in all states that steps and requests
    reach, whatever calls of the object store fail. *)

From S2P Require Import Config NetAddr Triple.
From S2P Require Import StorageApi Prelude RustStr Json Errors Names Digest HttpUtil Policy Auth Routes Paths Quota.
From S2P Require Import Metadata MetaLog MetaStore Effect FileSys FileSysFacts Walk Layout Lifecycle UploadBody.
From S2P Require Import Manifests Handlers HandlersFacts ObjectStore S3Storage S3Keys S3Facts S3Backend S3Recover.

(** ** Background work *)

Section Work.
Context `{!Crypto, !World, !SerdeJson, !HashIter, !MetadataStore}.
Context `{!ObjectStore, !ObjectStoreLaws, !ObjPaths, !ObjPathLaws, !UrlCrate}.
Variable client : S3Client.
Abbreviation prefix := (c_prefix client).

(** Creating the bucket changes no object of it. *)
Definition http_views : Prop :=
  ∀ http u, c_bucket_http client = Some http → views contents (http_execute http u).
Hypothesis http_ok : http_views.

Lemma for_each_runs {A : Type} (R : S3Store → S3Store → Prop) `{!PreOrder R} (f : A → M S3Store StorageError ()) l :
  (∀ x, runs R (f x)) → runs R (for_each f l).
Proof. intros Hf. induction l; simpl; [apply runs_ret|]. by apply runs_bind. Qed.

Lemma create_loop_quiet fuel after sign http i delay until_at :
  c_bucket_http client = Some http → runs quiet (create_loop fuel after sign http i delay until_at).
Proof.
  intros Hh. revert i delay. induction fuel as [|fuel IH]; intros i delay; cbn [create_loop]; [runs_auto|].
  apply runs_bind; [runs_auto|intros u]. apply runs_bind; [runs_auto|intros ?]. apply runs_bind.
  { apply runs_attempt. intros s. unfold focus. pose proof (http_ok http u Hh (x_bucket s)) as Hv.
    destruct (http_execute http u (x_bucket s)) as [b r]. simpl in *. split; [|done]. intros k d _. simpl. by rewrite Hv. }
  intros r. destruct (match r with Ok _ => _ | Err _ => _ end); runs_auto.
Qed.

Lemma ensure_bucket_quiet fuel started after deadline : runs quiet (ensure_bucket_within client fuel started after deadline).
Proof.
  unfold ensure_bucket_within. destruct (c_signer client) as [sign|]; [|runs_auto].
  destruct (c_bucket_http client) as [http|] eqn:E; [|runs_auto]. by apply create_loop_quiet.
Qed.
Lemma set_ensured_quiet : runs quiet set_ensured.
Proof. by apply quiet_derived. Qed.
Hint Resolve ensure_bucket_quiet set_ensured_quiet : runs.

(** The probe is no blob. *)
Lemma probe_no_blob d : ¬ blob_object (obj_path (probe_key client)) d.
Proof.
  unfold probe_key. case_decide; [|by apply (side_key_no_blob _ ".roci-readyz-probe")].
  rewrite obj_path_segment by done. by apply (not_blob_object _ [] ".roci-readyz-probe").
Qed.
Lemma quiet_delete k : (∀ d, ¬ blob_object k d) → runs quiet (on_bucket (o_delete k)).
Proof.
  intros Hk s. rewrite on_bucket_state. split; [|done]. intros k' d Hk'. simpl.
  destruct (delete_writes k (x_bucket s)) as [->|[_ ->]]; [|done]. apply lookup_delete_ne. intros ->. by eapply Hk.
Qed.
Lemma quiet_put_bucket k data : (∀ d, ¬ blob_object k d) → runs quiet (on_bucket (o_put k data)).
Proof.
  intros Hk s. pose proof (quiet_put k data Hk s) as Hq. unfold store_write, mapping_err in Hq.
  by destruct (on_bucket (o_put k data) s).
Qed.
Lemma s3_ready_quiet create started after : runs quiet (s3_ready client create started after).
Proof.
  unfold s3_ready. apply runs_bind; [runs_auto|]. intros []; [runs_auto|]. apply runs_bind; [runs_auto|intros ensured].
  apply runs_bind; [runs_auto|intros ?].
  apply runs_bind; [by apply runs_mapping_err, quiet_put_bucket, probe_no_blob|intros ?].
  apply runs_bind; [by apply runs_attempt, quiet_delete, probe_no_blob|intros ?]. by apply quiet_derived.
Qed.

(** *** Recovery *)

Lemma list_objects_quiet p : runs quiet (list_objects p).
Proof.
  intros s. unfold list_objects. pose proof (list_views p (x_bucket s)) as Hv.
  destruct (o_list p (x_bucket s)) as [b items]. simpl in *. split; [|done]. intros k d _. simpl. by rewrite Hv.
Qed.
Hint Resolve list_objects_quiet : runs.
Lemma count_staging_same depth dir : runs same_files (count_staging_files depth dir).
Proof.
  revert dir. induction depth as [|depth IH]; intros dir; cbn [count_staging_files]; [runs_auto|].
  apply runs_bind; [runs_auto|]. intros [entries|e]; [|runs_auto]. apply runs_bind; [|runs_auto].
  apply each_entry_same. intros name [| |]; runs_auto.
Qed.
Lemma walk_staging_same depth base dir : runs same_files (walk_staging_files depth base dir).
Proof.
  revert dir. induction depth as [|depth IH]; intros dir; cbn [walk_staging_files]; [runs_auto|].
  apply runs_bind; [runs_auto|]. intros [entries|e]; [|runs_auto].
  apply each_entry_same. intros name [| |]; runs_auto.
Qed.
Hint Resolve count_staging_same walk_staging_same : runs.

Lemma indexed_repos_quiet : runs quiet (indexed_repos client).
Proof. unfold indexed_repos. runs_auto. Qed.
Lemma list_blobs_quiet rp : runs quiet (list_blobs rp).
Proof. unfold list_blobs. runs_auto. Qed.
Hint Resolve indexed_repos_quiet list_blobs_quiet read_index_quiet : runs.
Hint Extern 3 (runs quiet (modify _)) => by apply quiet_derived : runs.

Lemma recover_entry_quiet repo entry : runs quiet (recover_entry repo entry).
Proof. unfold recover_entry. runs_auto. Qed.
Lemma recover_repo_quiet repo : runs quiet (recover_repo client repo).
Proof.
  unfold recover_repo, cache_remote_index. apply runs_bind; [runs_auto|]. intros [index|e]; [|runs_auto].
  do 2 (apply runs_bind; [runs_auto|intros ?]). apply for_each_runs; [apply _|]. apply recover_entry_quiet.
Qed.
Lemma seed_quota_quiet repo : runs quiet (seed_quota_from_listing client repo).
Proof.
  unfold seed_quota_from_listing. destruct (repo_prefix _ _); [|runs_auto]. apply runs_bind; [runs_auto|intros items].
  apply for_each_runs; [apply _|]. intros x. runs_auto.
Qed.
Lemma seed_dedupe_quiet repo : runs quiet (seed_dedupe_from_listing client repo).
Proof.
  unfold seed_dedupe_from_listing. destruct (repo_prefix _ _); [|runs_auto]. apply runs_bind; [runs_auto|intros items].
  apply for_each_runs; [apply _|]. intros x. runs_auto.
Qed.
Lemma s3_recover_quiet fuel depth create started after : runs quiet (s3_recover client fuel depth create started after).
Proof.
  pose proof (for_each_runs quiet (recover_repo client)) as K1. pose proof (for_each_runs quiet (seed_quota_from_listing client)) as K2.
  pose proof (for_each_runs quiet (seed_dedupe_from_listing client)) as K3.
  specialize (λ l, K1 l recover_repo_quiet) as L1. specialize (λ l, K2 l seed_quota_quiet) as L2.
  specialize (λ l, K3 l seed_dedupe_quiet) as L3.
  unfold s3_recover, recover_from_remote_indexes, seed_sessions_from_staging. runs_auto.
Qed.

(** *** The index writer *)

Lemma write_remote_index_quiet repo : runs quiet (write_remote_index client repo).
Proof.
  unfold write_remote_index. apply runs_bind; [apply existing_index_quiet|intros existing].
  apply runs_bind; [runs_auto|intros index]. apply runs_let. intros k Hk. apply quiet_put. intros d.
  by eapply index_key_no_blob.
Qed.
Lemma write_each_quiet rgs : runs quiet (write_each client rgs).
Proof.
  induction rgs as [|[repo gen] rgs IH]; simpl; [runs_auto|]. apply runs_bind; [|done].
  apply runs_bind; [apply runs_attempt, write_remote_index_quiet|]. intros [u|e]; [|runs_auto].
  apply quiet_derived. intros s. by case_decide.
Qed.
Lemma index_writer_turn_quiet : runs quiet (index_writer_turn client).
Proof. unfold index_writer_turn. apply runs_bind; [runs_auto|apply write_each_quiet]. Qed.

(** *** The consistency check *)

Lemma read_root_manifest_quiet repo d : runs quiet (read_root_manifest client repo d).
Proof. unfold read_root_manifest. runs_auto. Qed.
Hint Resolve read_root_manifest_quiet : runs.
Lemma rebuild_run_quiet fuel repo all stack : runs quiet (rebuild_run client fuel repo all stack).
Proof.
  revert all stack. induction fuel as [|fuel IH]; intros all [|digest stack]; cbn [rebuild_run]; [runs_auto..|].
  destruct (Digest_parse digest) as [d|]; [|apply IH]. apply runs_bind; [runs_auto|intros r].
  destruct (match r with Ok (Some b) => from_slice b | _ => None end) as [manifest|].
  - destruct (push_children _ _ _) as [all' stack']. apply runs_bind; [runs_auto|intros ?]. apply IH.
  - apply runs_bind; [unfold s3_mark_unsafe; runs_auto|intros ?]. apply IH.
Qed.
Lemma s3_rebuild_quiet fuel repo : runs quiet (s3_gc_rebuild_repo client fuel repo).
Proof.
  pose proof (rebuild_run_quiet fuel) as Hr. unfold s3_gc_rebuild_repo, s3_rebuild_backrefs, s3_mark_unsafe. runs_auto.
Qed.
Lemma seed_candidates_quiet at_ repo : runs quiet (seed_candidates client at_ repo).
Proof.
  unfold seed_candidates. destruct (repo_prefix _ _) as [rp|]; [|runs_auto]. apply runs_bind; [runs_auto|intros items].
  apply for_each_runs; [apply _|]. intros x. unfold seed_listed. destruct (extract_digest_from_blob_key _ _) as [ds|]; [|runs_auto].
  apply quiet_derived. intros s. by repeat case_match.
Qed.
Variable age : Fs → path → Z.

Lemma sweep_stale_same depth : runs same_blobs (s3_sweep_stale_uploads age depth).
Proof.
  unfold s3_sweep_stale_uploads. apply runs_bind; [runs_auto|intros found]. apply runs_bind; [runs_auto|intros stale].
  apply for_each_runs; [apply _|]. intros [[repo id] sz]. unfold sweep_staged. runs_auto.
Qed.
Hint Resolve sweep_stale_same : runs.

Lemma s3_start_gc_same fuel depth : runs same_blobs (s3_start_gc client age fuel depth).
Proof.
  unfold s3_start_gc, s3_gc_consistency_check. apply runs_bind; [runs_auto|intros on].
  apply runs_bind; [|intros ?; apply quiet_same_blobs; runs_auto]. destruct on; [|runs_auto].
  apply runs_bind; [runs_auto|intros listed]. apply runs_bind; [runs_auto|intros known].
  apply runs_bind; [apply quiet_same_blobs, for_each_runs, s3_rebuild_quiet; apply _|intros ?].
  apply runs_bind; [runs_auto|intros at_].
  apply runs_bind; [apply quiet_same_blobs, for_each_runs, seed_candidates_quiet; apply _|intros ?]. runs_auto.
Qed.
End Work.

(** ** The sweep *)

Section Sweep.
Context `{!Crypto, !World, !SerdeJson, !HashIter, !MetadataStore, !MetadataStoreLaws}.
Context `{!ObjectStore, !ObjectStoreLaws, !ObjPaths, !ObjPathLaws, !UrlCrate}.
Variable client : S3Client.
Abbreviation prefix := (c_prefix client).

(** What the sweep requires of a blob before it removes it. *)
Record s3_collectable (now : Z) (s : S3Store) (repo digest : string) : Prop := {
  sc_due : is_due (x_gc s) repo digest now = true;
  sc_root : is_root (x_gc s) repo digest = false;
  sc_safe : is_unsafe (x_gc s) repo = false;
  sc_refs : get_backrefs (mview (x_meta s)) repo digest = [];
  sc_manifest : manifest_media_type (mview (x_meta s)) repo digest = None;
}.

(** Along a sweep nothing becomes collectable, and only collectable blobs go. *)
Definition s3_swept (now : Z) (s s' : S3Store) : Prop :=
  (∀ repo digest, s3_collectable now s' repo digest → s3_collectable now s repo digest) ∧
  ∀ k d, blob_object k d → contents (x_bucket s') !! k = contents (x_bucket s) !! k ∨
    ∃ repo digest key, Digest_parse digest = Ok d ∧ blob_key prefix repo d = Ok key ∧ k = obj_path key ∧
      s3_collectable now s repo digest.

#[export] Instance s3_swept_preorder now : PreOrder (s3_swept now).
Proof.
  split; [intros s; split; [done|by left]|]. intros s1 s2 s3 [I1 I2] [J1 J2]. split; [auto|].
  intros k d Hk. destruct (I2 k d Hk) as [E|?]; [|by right].
  destruct (J2 k d Hk) as [E'|(repo & digest & key & ? & ? & ? & ?)]; [left; congruence|right].
  exists repo, digest, key. auto.
Qed.

(** Steps that keep the blobs and what the collector knows. *)
Lemma swept_same now s s' :
  same_blobs s s' → (∀ repo digest, s3_collectable now s' repo digest → s3_collectable now s repo digest) → s3_swept now s s'.
Proof. intros Hb Hc. split; [done|]. intros k d Hk. left. by apply (Hb k d). Qed.

Lemma swept_bucket {A : Type} now (m : M bucket obj_error A) : views contents m → runs (s3_swept now) (on_bucket m).
Proof.
  intros Hm s. apply swept_same; [by apply quiet_bucket|]. rewrite on_bucket_state. by intros r x []; split.
Qed.
Lemma s3_clear_swept now repo digest : runs (s3_swept now) (s3_clear repo digest).
Proof.
  intros s. apply swept_same; [by intros k d _|]. intros r x [I1 I2 I3 I4 I5]. simpl in *.
  destruct (gc_clear_facts (x_gc s) repo digest r x now) as (J1 & J2 & J3). rewrite J2 in I2. rewrite J3 in I3.
  split; auto.
Qed.
Lemma s3_blob_left_swept now repo digest size : runs (s3_swept now) (s3_blob_left repo digest size).
Proof.
  intros s. apply swept_same; [by apply left_quiet|]. unfold s3_blob_left, modify.
  pose proof (note_blob_left_facts (x_meta s) (x_gc s) (x_dedupe s) (x_quota s) repo digest size) as Hn.
  destruct (note_blob_left _ _ _ _ _ _ _) as [[[m g] x] q]. simpl. intros r y [I1 I2 I3 I4 I5]. simpl in *.
  destruct (Hn r y now) as (J1 & J2 & J3 & J4 & J5). split; simpl; rewrite <-?J2, <-?J3, <-?J4, <-?J5; auto.
Qed.

(** Removing the object of a collectable blob. *)
Lemma delete_swept now repo digest d key s :
  s3_collectable now s repo digest → Digest_parse digest = Ok d → blob_key prefix repo d = Ok key →
  s3_swept now s (on_bucket (o_delete (obj_path key)) s).1.
Proof.
  intros Hc Hd Hkey. rewrite on_bucket_state. split; [by intros r x []; split|]. simpl. intros k d' Hk.
  destruct (delete_writes (obj_path key) (x_bucket s)) as [->|[_ ->]]; [|by left].
  destruct (decide (k = obj_path key)) as [->|Hne]; [|left; by rewrite lookup_delete_ne]. right.
  assert (Hb : blob_object (obj_path key) d) by (by eapply blob_key_object; [eapply Digest_parse_wf|]).
  rewrite <-(blob_object_inj _ _ _ Hb Hk). by exists repo, digest, key.
Qed.

Lemma s3_sweep_one_swept now k : runs (s3_swept now) (s3_sweep_one client now k).
Proof.
  destruct k as [repo digest]. intros s. unfold s3_sweep_one, mbind, M_bind, gets.
  pose proof (s3_clear_swept now repo digest) as Hclear.
  destruct (is_due (x_gc s) repo digest now) eqn:E1; simpl; [|done].
  destruct (is_root (x_gc s) repo digest) eqn:E2; [apply Hclear|]. destruct (is_unsafe (x_gc s) repo) eqn:E3; [done|].
  case_bool_decide as E4; [apply Hclear|]. case_bool_decide as E5; [apply Hclear|].
  destruct (Digest_parse digest) as [d|] eqn:Ed; [|apply Hclear].
  destruct (blob_key prefix repo d) as [key|] eqn:Ek; [|apply Hclear].
  assert (Hc : s3_collectable now s repo digest) by (split; try done; by apply eq_None_not_Some).
  rewrite attempt_eq. pose proof (swept_bucket now _ (head_views (obj_path key)) s) as Hst.
  assert (Hc1 : s3_collectable now (on_bucket (o_head (obj_path key)) s).1 repo digest).
  { rewrite on_bucket_state. destruct Hc. by split. }
  pose proof (delete_swept now repo digest d key _ Hc1 Ed Ek) as Hdel. revert Hst Hdel.
  generalize (on_bucket (o_head (obj_path key)) s). intros [s1 r1] Hst Hdel. simpl in Hst, Hdel |- *.
  destruct r1 as [size|[t|t]]; [|by etrans; [|apply Hclear]|done].
  rewrite attempt_eq. assert (Hu : s3_swept now s (on_bucket (o_delete (obj_path key)) s1).1) by (by etrans).
  destruct (on_bucket (o_delete (obj_path key)) s1) as [s2 [[]|[t|t]]]; simpl in *; [|by etrans; [|apply Hclear]|done].
  etrans; [exact Hu|apply (s3_blob_left_swept now repo digest (Some size) s2)].
Qed.

Variable age : Fs → path → Z.

(** One sweep: stale uploads come last and touch no blob. *)
Lemma s3_sweep_survives depth s k d :
  blob_object k d → is_Some (contents (x_bucket s) !! k) →
  is_Some (contents (x_bucket (s3_gc_sweep client age depth s).1) !! k) ∨
  is_ready (x_gc s) = true ∧ ∃ repo digest key, Digest_parse digest = Ok d ∧ blob_key prefix repo d = Ok key ∧
    k = obj_path key ∧ s3_collectable (s3_now s) s repo digest.
Proof.
  intros Hk Hs. unfold s3_gc_sweep, mbind, M_bind, gets. destruct (is_ready (x_gc s)) eqn:Er; simpl; [|by left].
  case_bool_decide; [by left|].
  destruct (for_each_runs (s3_swept (s3_now s)) _ (due (x_gc s) (s3_now s)) (s3_sweep_one_swept (s3_now s)) s) as [_ Hw].
  specialize (Hw k d Hk).
  destruct (for_each _ _ s) as [s1 [[]|e]]; simpl in Hw |- *; (destruct Hw as [E|?]; [left|by right; split; [done|]]).
  - rewrite (sweep_stale_same age depth s1 k d Hk). by rewrite E.
  - by rewrite E.
Qed.
End Sweep.

(** ** Steps *)

Section Steps.
Context `{!Crypto, !World, !SerdeJson, !HashIter, !MetadataStore}.
Context `{!ObjectStore, !ObjPaths, !UrlCrate}.
Variable client : S3Client.
Variable age : Fs → path → Z.

Inductive s3_op :=
  | SBlobSize (repo : string) (d : Digest)
  | SBlobExists (repo : string) (d : Digest)
  | SReadBlob (repo : string) (d : Digest)
  | SOpenBlob (repo : string) (d : Digest)
  | SBeginUpload (repo : string)
  | SAppendUpload (repo id : string) (body : UploadBody) (offset : option Z) (limit : Z)
  | SUploadSize (repo id : string)
  | SFinishUpload (repo id : string) (d : Digest) (max : Z) (trailing : UploadBody) (limit : Z)
  | SAbortUpload (repo id : string)
  | SPutBlob (repo : string) (d : Digest) (data : bytes)
  | SDeleteBlob (repo : string) (d : Digest)
  | SMountBlob (from to : string) (d : Digest)
  | SPutManifest (repo : string) (tag : option string) (d : Digest) (media_type : string) (data : bytes) (links : ManifestLinks)
  | SGetManifest (repo reference : string)
  | SDeleteManifest (repo : string) (d : Digest)
  | SListTags (repo : string) (last : option string) (limit : nat)
  | SListReferrers (repo : string) (d : Digest) (artifact_type last : option string) (limit : nat)
  | SReady (create : bool) (started : Z) (after : nat → Z)
  | SRecover (fuel depth : nat) (create : bool) (started : Z) (after : nat → Z)
  | SStartGc (fuel depth : nat)
  | SIndexWriter
  | SSweep (depth : nat).

Definition s3_step (o : s3_op) (s : S3Store) : S3Store :=
  match o with
  | SBlobSize repo d => (s3_blob_size client repo d s).1
  | SBlobExists repo d => (s3_blob_exists client repo d s).1
  | SReadBlob repo d => (s3_read_blob client repo d s).1
  | SOpenBlob repo d => (s3_open_blob client repo d s).1
  | SBeginUpload repo => (s3_begin_upload repo s).1
  | SAppendUpload repo id body offset limit => (s3_append_upload repo id body offset limit s).1
  | SUploadSize repo id => (s3_upload_size repo id s).1
  | SFinishUpload repo id d max trailing limit => (s3_finish_upload client repo id d max trailing limit s).1
  | SAbortUpload repo id => (s3_abort_upload repo id s).1
  | SPutBlob repo d data => (s3_put_blob client repo d data s).1
  | SDeleteBlob repo d => (s3_delete_blob client repo d s).1
  | SMountBlob from to d => (s3_mount_blob client from to d s).1
  | SPutManifest repo tag d mt data links => (s3_put_manifest client repo tag d mt data links s).1
  | SGetManifest repo reference => (s3_get_manifest client repo reference s).1
  | SDeleteManifest repo d => (s3_delete_manifest client repo d s).1
  | SListTags repo last limit => (s3_list_tags client repo last limit s).1
  | SListReferrers repo d at_ last limit => (s3_list_referrers client repo d at_ last limit s).1
  | SReady create started after => (s3_ready client create started after s).1
  | SRecover fuel depth create started after => (s3_recover client fuel depth create started after s).1
  | SStartGc fuel depth => (s3_start_gc client age fuel depth s).1
  | SIndexWriter => (index_writer_turn client s).1
  | SSweep depth => (s3_gc_sweep client age depth s).1
  end.

(** Digests come from [Digest::parse]; content fits the limit of a server-side
    copy. *)
Definition s3_op_ok (o : s3_op) : Prop :=
  match o with
  | SFinishUpload _ _ d max _ _ => digest_wf d ∧ (max ≤ c_copy_limit client)%Z
  | SPutBlob _ d data | SPutManifest _ _ d _ data _ => digest_wf d ∧ (blen data ≤ c_copy_limit client)%Z
  | SReadBlob _ d | SOpenBlob _ d | SMountBlob _ _ d => digest_wf d
  | _ => True
  end.
End Steps.

Section Survive.
Context `{!Crypto, !World, !SerdeJson, !HashIter, !MetadataStore, !MetadataStoreLaws}.
Context `{!ObjectStore, !ObjectStoreLaws, !ObjPaths, !ObjPathLaws, !UrlCrate}.
Variable client : S3Client.
Variable age : Fs → path → Z.
Abbreviation prefix := (c_prefix client).
Hypothesis http_ok : http_views client.

Lemma adds_put_bucket k data : runs adds (on_bucket (o_put k data)).
Proof.
  intros s. pose proof (adds_put k data s) as Ha. unfold store_write, mapping_err in Ha.
  by destruct (on_bucket (o_put k data) s).
Qed.
Hint Resolve adds_put_bucket : runs.

Lemma s3_put_blob_grows repo d data : runs grows (s3_put_blob client repo d data).
Proof. apply adds_grows. unfold s3_put_blob. runs_auto. Qed.
Hint Resolve s3_put_blob_grows : runs.
Lemma hash_staging_quiet repo id alg : runs quiet (hash_staging repo id alg).
Proof. unfold hash_staging. pose proof hash_file_same. runs_auto. Qed.
Hint Resolve hash_staging_quiet : runs.
Lemma s3_finish_upload_grows repo id d max trailing limit : runs grows (s3_finish_upload client repo id d max trailing limit).
Proof. unfold s3_finish_upload, staging_size. runs_auto. Qed.
Lemma s3_mount_blob_grows from to d : runs grows (s3_mount_blob client from to d).
Proof. apply adds_grows. unfold s3_mount_blob. runs_auto. Qed.
Lemma s3_put_manifest_grows repo tag d mt data links : runs grows (s3_put_manifest client repo tag d mt data links).
Proof. unfold s3_put_manifest. runs_auto. Qed.

Hint Resolve read_index_quiet read_index_view_quiet s3_index_resolve_tag_quiet : runs.
Lemma s3_reads_quiet :
  (∀ repo reference, runs quiet (s3_get_manifest client repo reference)) ∧
  (∀ repo last limit, runs quiet (s3_list_tags client repo last limit)) ∧
  (∀ repo d at_ last limit, runs quiet (s3_list_referrers client repo d at_ last limit)).
Proof.
  split_and!; intros; [unfold s3_get_manifest|unfold s3_list_tags|unfold s3_list_referrers]; runs_auto.
Qed.

(** Deleting a blob leaves every other blob object. *)
Definition spares_but (K : string → Prop) (s s' : S3Store) : Prop :=
  ∀ k d, blob_object k d → ¬ K k → contents (x_bucket s') !! k = contents (x_bucket s) !! k.
#[local] Instance spares_but_preorder K : PreOrder (spares_but K).
Proof. split; [by intros s k d|]. intros s1 s2 s3 I1 I2 k d Hk Hn. by rewrite (I2 k d Hk Hn), (I1 k d Hk Hn). Qed.
Lemma quiet_spares {E A : Type} K (m : M S3Store E A) : runs quiet m → runs (spares_but K) m.
Proof. intros Hm s k d Hk _. by apply (proj1 (Hm s) k d). Qed.
Hint Resolve quiet_spares : runs.

Definition key_of (repo : string) (d : Digest) (k : string) : Prop := ∃ key, blob_key prefix repo d = Ok key ∧ k = obj_path key.

Lemma s3_delete_blob_spares repo d : runs (spares_but (key_of repo d)) (s3_delete_blob client repo d).
Proof.
  unfold s3_delete_blob. apply runs_bind; [runs_auto|intros ?]. apply runs_let. intros key Hkey.
  apply runs_bind; [runs_auto|intros size]. apply runs_bind; [|intros ?; runs_auto]. apply runs_mapping_err.
  intros s k d' Hk Hn. rewrite on_bucket_state. simpl.
  destruct (delete_writes (obj_path key) (x_bucket s)) as [->|[_ ->]]; [|done]. apply lookup_delete_ne. intros <-.
  apply Hn. by exists key.
Qed.
Hint Resolve s3_delete_blob_spares : runs.
Lemma s3_delete_manifest_spares repo d : runs (spares_but (key_of repo d)) (s3_delete_manifest client repo d).
Proof. pose proof (λ repo, foldl_marks_quiet repo) as Hm. unfold s3_delete_manifest. runs_auto. Qed.

(** Every operation but deletions and the sweep. *)
Lemma s3_step_grows o s :
  (∀ repo d, o ≠ SDeleteBlob repo d ∧ o ≠ SDeleteManifest repo d) → (∀ depth, o ≠ SSweep depth) →
  grows s (s3_step client age o s).
Proof.
  intros Hd Hs. destruct s3_reads_quiet as (R1 & R2 & R3). destruct o; simpl; try (by destruct (Hd repo d)).
  - apply same_blobs_grows, quiet_same_blobs, s3_blob_size_quiet.
  - apply same_blobs_grows, quiet_same_blobs, s3_blob_exists_quiet.
  - apply same_blobs_grows, quiet_same_blobs, s3_read_blob_quiet.
  - apply same_blobs_grows, quiet_same_blobs, s3_open_blob_quiet.
  - apply same_blobs_grows, s3_begin_upload_same.
  - apply same_blobs_grows, s3_append_upload_same.
  - apply same_blobs_grows, s3_upload_size_same.
  - apply s3_finish_upload_grows.
  - apply same_blobs_grows, s3_abort_upload_same.
  - apply s3_put_blob_grows.
  - apply s3_mount_blob_grows.
  - apply s3_put_manifest_grows.
  - apply same_blobs_grows, quiet_same_blobs, R1.
  - apply same_blobs_grows, quiet_same_blobs, R2.
  - apply same_blobs_grows, quiet_same_blobs, R3.
  - by apply same_blobs_grows, quiet_same_blobs, s3_ready_quiet.
  - by apply same_blobs_grows, quiet_same_blobs, s3_recover_quiet.
  - apply same_blobs_grows, s3_start_gc_same.
  - apply same_blobs_grows, quiet_same_blobs, index_writer_turn_quiet.
  - by destruct (Hs depth).
Qed.

Lemma spared_held s s' repo d repo' d' :
  repository_name repo → repository_name repo' → digest_wf d → digest_wf d' → (repo', d') ≠ (repo, d) →
  spares_but (key_of repo' d') s s' → held client s repo d → held client s' repo d.
Proof.
  intros Hr Hr' Hd Hd' Hne Hs (k & Hk & Hc). exists k. split; [done|].
  rewrite (Hs (obj_path k) d); [done|by eapply blob_key_object|]. intros (key & Hkey & E).
  destruct (blob_key_inj prefix repo d repo' d' k key) as [-> ->]; done.
Qed.
End Survive.

(** C12: a blob in the bucket survives every operation of the backend, whatever
    calls fail: it is still there afterwards, unless the operation deletes that
    very blob, or it is a sweep of an enabled and ready collector and the object
    belongs to a candidate that was due, in no protected repository or root set,
    no manifest, and referenced by no manifest. *)
Theorem s3_blob_survives
    `{!Crypto, !World, !SerdeJson, !HashIter, !MetadataStore, !MetadataStoreLaws,
      !ObjectStore, !ObjectStoreLaws, !ObjPaths, !ObjPathLaws, !UrlCrate} client age s o repo d :
  http_views client → repository_name repo → digest_wf d →
  (∀ repo' d', o = SDeleteBlob repo' d' ∨ o = SDeleteManifest repo' d' → repository_name repo' ∧ digest_wf d') →
  held client s repo d →
  held client (s3_step client age o s) repo d ∨ o = SDeleteBlob repo d ∨ o = SDeleteManifest repo d ∨
  ∃ depth repo' digest, o = SSweep depth ∧ is_ready (x_gc s) = true ∧ Digest_parse digest = Ok d ∧
    (repository_name repo' → repo' = repo) ∧ s3_collectable (s3_now s) s repo' digest.
Proof.
  intros Hh Hr Hd Hdel Hheld.
  destruct o; try (left; eapply held_grows; [done|apply s3_step_grows; done|done]).
  - destruct (Hdel repo0 d0) as [Hr0 Hd0]; [by left|].
    destruct (decide ((repo0, d0) = (repo, d))) as [[= -> ->]|Hne]; [by auto|].
    left. eapply spared_held; [exact Hr|exact Hr0|done|exact Hd0|done| |done]. apply s3_delete_blob_spares.
  - destruct (Hdel repo0 d0) as [Hr0 Hd0]; [by right|].
    destruct (decide ((repo0, d0) = (repo, d))) as [[= -> ->]|Hne]; [by auto|].
    left. eapply spared_held; [exact Hr|exact Hr0|done|exact Hd0|done| |done]. apply s3_delete_manifest_spares.
  - destruct Hheld as (k & Hk & Hc).
    destruct (s3_sweep_survives client age depth s (obj_path k) d) as [Hs|(Hr' & repo' & digest & key & E1 & E2 & E3 & E4)];
      [by eapply blob_key_object|done|left; by exists k|].
    do 3 right. exists depth, repo', digest. split_and!; try done. intros Hr2.
    destruct (blob_key_inj (c_prefix client) repo d repo' d k key) as [-> _]; done.
Qed.
