(* ===== verification/FsStorage.v ===== *)
(** The filesystem backend (roci-storage/src/fs_storage): its state, the
    [Storage] operations (storage_impl.rs), the blob lifecycle (lifecycle.rs),
    the reading and writing of [index.json] (index.rs) and the garbage
    collector's sweep (gc.rs).

    An operation is a program of the state and error monad over [Store]. The
    session lock, the admission lock and the collector's fence make each
    operation atomic with respect to the operations it could conflict with, so
    a run of the server is a sequence of operations; the state the session
    lock guards (the running hash of the upload) is [session_hash]. *)

From S2P Require Import StorageApi Prelude RustStr Json Errors Digest Paths Quota Metadata MetaLog.
From S2P Require Import MetaStore SmallCache Effect FileSys Layout Lifecycle UploadBody.

Section FsStorage.
Context `{Crypto, World, SerdeJson, HashIter, MetadataStore, Lru, Cuckoo}.

(** ** State *)

Record Store := mkStore {
  fs : Fs;
  meta : mstore;
  presence : option cuckoo;
  cache : SmallBlobCache;
  gc : GcTracker;
  quota : Quota;
  dedupe : DedupeIndex;
  pending_uploads : gmap (string * string) Z;
  session_hash : gmap (string * string) (option StagedHash);
  index_dirty : gmap string Z;
  commit : bool;
}.

Definition set_fs (x : Fs) (s : Store) : Store :=
  mkStore x (meta s) (presence s) (cache s) (gc s) (quota s) (dedupe s) (pending_uploads s)
    (session_hash s) (index_dirty s) (commit s).
Definition set_meta (x : mstore) (s : Store) : Store :=
  mkStore (fs s) x (presence s) (cache s) (gc s) (quota s) (dedupe s) (pending_uploads s)
    (session_hash s) (index_dirty s) (commit s).
Definition set_presence (x : option cuckoo) (s : Store) : Store :=
  mkStore (fs s) (meta s) x (cache s) (gc s) (quota s) (dedupe s) (pending_uploads s)
    (session_hash s) (index_dirty s) (commit s).
Definition set_cache (x : SmallBlobCache) (s : Store) : Store :=
  mkStore (fs s) (meta s) (presence s) x (gc s) (quota s) (dedupe s) (pending_uploads s)
    (session_hash s) (index_dirty s) (commit s).
Definition set_gc (x : GcTracker) (s : Store) : Store :=
  mkStore (fs s) (meta s) (presence s) (cache s) x (quota s) (dedupe s) (pending_uploads s)
    (session_hash s) (index_dirty s) (commit s).
Definition set_quota (x : Quota) (s : Store) : Store :=
  mkStore (fs s) (meta s) (presence s) (cache s) (gc s) x (dedupe s) (pending_uploads s)
    (session_hash s) (index_dirty s) (commit s).
Definition set_dedupe (x : DedupeIndex) (s : Store) : Store :=
  mkStore (fs s) (meta s) (presence s) (cache s) (gc s) (quota s) x (pending_uploads s)
    (session_hash s) (index_dirty s) (commit s).
Definition set_pending (x : gmap (string * string) Z) (s : Store) : Store :=
  mkStore (fs s) (meta s) (presence s) (cache s) (gc s) (quota s) (dedupe s) x
    (session_hash s) (index_dirty s) (commit s).
Definition set_session_hash (x : gmap (string * string) (option StagedHash)) (s : Store) : Store :=
  mkStore (fs s) (meta s) (presence s) (cache s) (gc s) (quota s) (dedupe s) (pending_uploads s)
    x (index_dirty s) (commit s).
Definition set_index_dirty (x : gmap string Z) (s : Store) : Store :=
  mkStore (fs s) (meta s) (presence s) (cache s) (gc s) (quota s) (dedupe s) (pending_uploads s)
    (session_hash s) x (commit s).

Abbreviation st := (M Store StorageError).

(** [Instant::now()] *)
Definition now (s : Store) : Z := clock (ticks (fs s)).

(** A file system call; [?] turns its error into [StorageError::Io]. *)
Definition on_fs {E A} (m : M Fs E A) : M Store E A := focus fs set_fs m.
Definition io {A} (m : M Fs io_error A) : st A := mapping_err Io (on_fs m).
Definition io_nf {A} (m : M Fs io_error A) : st A := mapping_err map_not_found (on_fs m).

(** ** Small helpers *)

(** [cache.put] and [cache.invalidate]; that they never panic is proved of the
    cache. *)
Definition cache_put (repo digest : string) (data : bytes) : st () :=
  modify (λ s, set_cache (default (cache s) (small_put (cache s) repo digest data)) s).
Definition cache_invalidate (repo digest : string) (s : Store) : Store :=
  set_cache (default (cache s) (small_invalidate (cache s) repo digest)) s.
Definition cache_read (repo digest : string) : st (option bytes) :=
  state (λ s, let '(c, v) := small_get (cache s) repo digest in (set_cache c s, v)).

Definition maybe (repo digest : string) : st bool := gets (λ s, maybe_present (presence s) repo digest).

(** [want_blob]: the pin exists only while collection is enabled. *)
Definition want_blob (repo digest : string) : st () :=
  modify (λ s, if gc_enabled (gc s) then set_gc (touch (gc s) repo digest (now s)) s else s).

Definition on_quota {A} (f : Quota → Quota * result StorageError A) : st A := λ s,
  let '(q, r) := f (quota s) in (set_quota q s, r).

Definition quota_release (repo : string) (n : Z) : st () :=
  modify (λ s, set_quota (release (quota s) repo n) s).
Definition quota_end_session : st () := modify (λ s, set_quota (end_session (quota s)) s).

Definition admit_blob (repo : string) (alg_rel : path) (leaf : string) (size : Z) : st Z :=
  tracked ← gets (λ s, tracks_bytes (quota s));
  if negb tracked then mret 0%Z else
  present ← io (stat_beneath (alg_rel ++ [leaf]));
  match present with
  | Some (true, _) => mret 0%Z
  | _ => on_quota (λ q, quota_admit q repo size);; mret size
  end.

Definition blob_entered (repo digest : string) (cs : option BlobChecksum) : st () :=
  modify (λ s, set_presence (filter_insert (presence s) repo digest) s);;
  modify (λ s,
    let '(m, g, x) := note_blob_entered (meta s) (gc s) (dedupe s) repo digest cs (now s) in
    set_dedupe x (set_gc g (set_meta m s))).

Definition blob_left (repo digest : string) (size : option Z) : st () :=
  modify (λ s, set_presence (filter_remove (presence s) repo digest) s);;
  modify (cache_invalidate repo digest);;
  modify (λ s,
    let '(m, g, x, q) := note_blob_left (meta s) (gc s) (dedupe s) (quota s) repo digest size in
    set_quota q (set_dedupe x (set_gc g (set_meta m s)))).

Definition size_for_release (rel : path) : st (option Z) :=
  tracked ← gets (λ s, tracks_bytes (quota s));
  if negb tracked then mret None else
  r ← attempt (io (stat_beneath rel));
  match r with Ok (Some (true, n)) => mret (Some n) | _ => mret None end.

(** [mark_index_dirty]: bump the repository's generation. *)
Definition mark_index_dirty (repo : string) : st () :=
  modify (λ s, set_index_dirty (<[repo := (default 0 (index_dirty s !! repo) + 1)%Z]> (index_dirty s)) s).

Definition meta_apply (op : MetaOp) : M Store io_error () := λ s,
  let '(m, r) := mapply (meta s) op in (set_meta m s, r).

Definition apply_meta (repo : string) (op : MetaOp) : st () :=
  mark_index_dirty repo;;
  applied ← attempt (mapping_err Io (meta_apply op));
  mark_index_dirty repo;;
  of_result applied.

Definition ensure_layout (repo : string) : st () :=
  rel ← of_result (repo_rel repo);
  fresh ← io (ensure_layout_beneath rel OCI_LAYOUT_MARKER);
  if fresh : bool then io (io_err fsync) else mret tt.

Definition layout_and_admit (repo_rel : path) (repo : string) (alg_rel : path) (leaf : string) (size : Z)
    : st Z :=
  fresh ← io (ensure_layout_beneath repo_rel OCI_LAYOUT_MARKER);
  (if fresh : bool then io (io_err fsync) else mret tt);;
  admit_blob repo alg_rel leaf size.

(** [dedupe_link] and [dedupe_link_at] *)
Definition dedupe_link_at (repo : string) (alg_rel : path) (leaf digest : string) : st bool :=
  x ← gets dedupe;
  sync ← gets commit;
  match locate x digest repo with
  | None => mret false
  | Some src_repo =>
      match Digest_parse digest with
      | Err _ => mret false
      | Ok d =>
          match blob_dir_rel src_repo d with
          | Err _ => mret false
          | Ok (src_alg_rel, _) =>
              r ← attempt (on_fs (mount_promote_beneath src_alg_rel alg_rel leaf false sync));
              match r with
              | Ok _ => mret true
              | Err e =>
                  (if decide (io_kind e = KNotFound)
                   then modify (λ s, set_dedupe (dedupe_remove (dedupe s) src_repo digest) s)
                   else mret tt);;
                  mret false
              end
          end
      end
  end.

(** ** Upload sessions *)

Definition set_hash (repo id : string) (h : option StagedHash) : st () :=
  modify (λ s, set_session_hash (<[(repo, id) := h]> (session_hash s)) s).
Definition drop_lock (repo id : string) : st () :=
  modify (λ s, set_session_hash (delete (repo, id) (session_hash s)) s).

(** [upload_locks.get]: a new lock guards no hash. *)
Definition session_lock (repo id : string) : st () :=
  _ ← of_result (SafeComponent id);
  modify (λ s, match session_hash s !! (repo, id) with
               | Some _ => s
               | None => set_session_hash (<[(repo, id) := None]> (session_hash s)) s
               end).

(** [guard.take()] *)
Definition take_hash (repo id : string) : st (option StagedHash) :=
  state (λ s, (set_session_hash (<[(repo, id) := None]> (session_hash s)) s,
               default None (session_hash s !! (repo, id)))).

Definition is_pending (repo id : string) (s : Store) : bool :=
  bool_decide (is_Some (pending_uploads s !! (repo, id))).

Definition take_pending (repo id : string) : st bool :=
  state (λ s, (set_pending (delete (repo, id) (pending_uploads s)) s, is_pending repo id s)).

Inductive Staging := Missing | NotRegular | Ready (len ino : Z).

Definition prepare_staging (rel : path) (create : bool) : M Fs io_error Staging :=
  if create then
    dir_beneath (removelast rel) true;;
    ino ← io_err (create_excl rel);
    io_err (syscall (mret tt));;
    mret (Ready 0 ino)
  else
    stat ← stat_beneath rel;
    match stat with
    | None => mret Missing
    | Some (false, _) => mret NotRegular
    | Some (true, _) =>
        '(ino, content) ← resolve_beneath rel true;
        io_err (syscall (mret tt));;
        mret (Ready (blen content) ino)
    end.

Definition prepare_session (repo id : string) : st Staging :=
  rel ← of_result (upload_rel repo id);
  create ← gets (is_pending repo id);
  staging ← io_nf (prepare_staging rel create);
  (if create : bool then _ ← take_pending repo id; mret tt else mret tt);;
  mret staging.

Definition discard_session (repo id : string) : st () :=
  '(up_dir, up_leaf) ← of_result (upload_dir_rel repo id);
  was_pending ← take_pending repo id;
  (if was_pending : bool then quota_end_session
   else
     r ← attempt (io (unlink_beneath up_dir up_leaf));
     if is_ok r then quota_end_session else mret tt);;
  drop_lock repo id.

Definition begin_upload (repo : string) : st string :=
  buf ← io random_bytes;
  let id := hex_encode buf in
  _ ← of_result (upload_dir_rel repo id);
  on_quota begin_session;;
  modify (λ s, set_pending (<[(repo, id) := now s]> (pending_uploads s)) s);;
  mret id.

Definition not_regular_upload (id : string) : string := "upload " +:+ id +:+ " is not a regular file".

Definition append_upload (repo id : string) (body : UploadBody) (expected_offset : option Z) (limit : Z)
    : st Z :=
  session_lock repo id;;
  staging ← prepare_session repo id;
  match staging with
  | Missing => drop_lock repo id;; throw NotFound
  | NotRegular => throw (Io (IoError KOther (not_regular_upload id)))
  | Ready current _ =>
      match expected_offset with
      | Some offset =>
          if negb (offset =? current)%Z then throw (RangeNotSatisfiable current offset) else mret tt
      | None => mret tt
      end;;
      taken ← take_hash repo id;
      let seed := match taken with
                  | Some h => Some h
                  | None => if (current =? 0)%Z then Some StagedHash_new else None
                  end in
      rel ← of_result (upload_rel repo id);
      '(total, extended) ← on_fs (append_body rel current body limit seed);
      set_hash repo id extended;;
      mret total
  end.

Definition upload_size (repo id : string) : st Z :=
  pending ← gets (is_pending repo id);
  if pending : bool then mret 0%Z else
  rel ← of_result (upload_rel repo id);
  stat ← io_nf (stat_beneath rel);
  match stat with Some (true, size) => mret size | _ => throw NotFound end.

Definition abort_upload (repo id : string) : st bool :=
  session_lock repo id;;
  '(up_dir, up_leaf) ← of_result (upload_dir_rel repo id);
  was_pending ← take_pending repo id;
  removed ←
    (if was_pending : bool then mret true
     else
       r ← attempt (on_fs (unlink_beneath up_dir up_leaf));
       match r with
       | Ok _ => mret true
       | Err e => if decide (io_kind e = KNotFound) then mret false else throw (Io e)
       end);
  (if removed : bool then quota_end_session else mret tt);;
  drop_lock repo id;;
  mret removed.

(** *** Landing a finished upload *)

Inductive Landed :=
  | Done (crc : option Z)
  | Mismatch (actual : Digest)
  | Rejected (e : StorageError)
  | Failed (charged : Z) (error : StorageError).

Record LandCtx := {
  l_repo : string;
  l_repo_rel : path;
  l_up_dir : path;
  l_up_leaf : string;
  l_alg_rel : path;
  l_hex : string;
  l_digest : string;
  l_size : Z;
  l_ino : Z;
  l_verify : option (Deferred * Digest);
}.

(** The rest of [land_blob] once the content is verified. *)
Definition land_verified (c : LandCtx) (crc : option Z) : st Landed :=
  admitted ← attempt (layout_and_admit (l_repo_rel c) (l_repo c) (l_alg_rel c) (l_hex c) (l_size c));
  match admitted with
  | Err e => mret (Rejected e)
  | Ok charged =>
      linked ← dedupe_link_at (l_repo c) (l_alg_rel c) (l_hex c) (l_digest c);
      sync ← gets commit;
      moved ← attempt (on_fs (
        if linked : bool then unlink_beneath (l_up_dir c) (l_up_leaf c)
        else rename_beneath (l_up_dir c) (l_up_leaf c) (l_alg_rel c) (l_hex c) (l_ino c) sync));
      match moved with
      | Err e => mret (Failed charged (map_not_found e))
      | Ok _ => mret (Done crc)
      end
  end.

Definition land_blob (c : LandCtx) : st Landed :=
  match l_verify c with
  | None => land_verified c None
  | Some (body, expected) =>
      r ← attempt (on_fs (write_tail (l_up_dir c ++ [l_up_leaf c]) body));
      match r with
      | Ok (Some h) =>
          let '(actual, crc) := finish h in
          if negb (ct_eq actual expected) then mret (Mismatch actual)
          else land_verified c (Some crc)
      | Ok None => mret (Mismatch expected)
      | Err e => mret (Failed 0 (map_not_found e))
      end
  end.

(** The separate verify hop of [finish_upload]: flush the tail, sync, and use
    the running hash when it covers the file, else hash the file. *)
Definition finish_verify (rel : path) (body : Deferred) (covers commit : bool) (alg : string)
    : M Fs io_error (Digest * Z * Z) :=
  written ← write_tail rel body;
  let hash := if covers then written else None in
  '(ino, content) ← resolve_beneath rel false;
  (if commit then io_err fsync else mret tt);;
  io_err (syscall (mret tt));;
  match hash with
  | Some h => let '(d, crc) := finish h in mret (d, crc, ino)
  | None =>
      read ← read_to_end (ino, content);
      '(d, crc) ← of_result (hash_std [Ok read] alg);
      mret (d, crc, ino)
  end.

Definition finish_upload (repo id : string) (expected : Digest) (max_size : Z) (trailing : UploadBody)
    (limit : Z) : st () :=
  session_lock repo id;;
  staging_rel ← of_result (upload_rel repo id);
  staging ← prepare_session repo id;
  match staging with
  | Missing => drop_lock repo id;; throw NotFound
  | NotRegular => discard_session repo id;; throw (BadPath (not_regular_upload id))
  | Ready current staging_ino =>
      taken ← take_hash repo id;
      let seed := match taken with
                  | Some h => Some h
                  | None => if (current =? 0)%Z then Some StagedHash_new else None
                  end in
      body ← on_fs (append_body_deferring_tail staging_rel current trailing limit seed);
      let staged_size := d_len body in
      if (max_size <? staged_size)%Z then
        discard_session repo id;; throw (TooLarge max_size staged_size)
      else
      let covers := match d_hash body with Some h => (hlen h =? d_tail_at body)%Z | None => false end
                    && bool_decide (algorithm expected = "sha256") in
      commit ← gets commit;
      '(verify, verified) ←
        (if covers && negb commit then mret (Some (body, expected), None)
         else
           checked ← io_nf (finish_verify staging_rel body covers commit (algorithm expected));
           mret (None, Some checked));
      match verified with
      | Some (actual, _, _) =>
          if negb (ct_eq actual expected) then
            discard_session repo id;;
            throw (DigestMismatch (Digest_fmt expected) (Digest_fmt actual))
          else mret tt
      | None => mret tt
      end;;
      let ino := match verified with Some (_, _, i) => i | None => staging_ino end in
      '(up_dir, up_leaf) ← of_result (upload_dir_rel repo id);
      '(alg_rel, hex) ← of_result (blob_dir_rel repo expected);
      rel ← of_result (repo_rel repo);
      let digest := Digest_fmt expected in
      landed ← land_blob {|
        l_repo := repo; l_repo_rel := rel; l_up_dir := up_dir; l_up_leaf := up_leaf;
        l_alg_rel := alg_rel; l_hex := hex; l_digest := digest; l_size := staged_size;
        l_ino := ino; l_verify := verify |};
      match landed with
      | Mismatch actual =>
          discard_session repo id;;
          throw (DigestMismatch (Digest_fmt expected) (Digest_fmt actual))
      | Rejected e => discard_session repo id;; throw e
      | Failed charged error => quota_release repo charged;; throw error
      | Done landed_crc =>
          let crc := match landed_crc, verified with
                     | Some c, _ => c
                     | None, Some (_, c, _) => c
                     | None, None => 0%Z
                     end in
          quota_end_session;;
          drop_lock repo id;;
          blob_entered repo digest (Some {| ck_crc32c := crc; ck_size := staged_size |})
      end
  end.

(** ** Blobs *)

Definition blob_size (repo : string) (d : Digest) : st Z :=
  rel ← of_result (blob_rel repo d);
  let digest := Digest_fmt d in
  present ← maybe repo digest;
  if negb present then throw NotFound else
  want_blob repo digest;;
  recorded ← gets (λ s, checksum (mview (meta s)) repo digest);
  match recorded with
  | Some c => mret (ck_size c)
  | None =>
      stat ← io (stat_beneath rel);
      match stat with Some (true, size) => mret size | _ => throw NotFound end
  end.

Definition blob_exists (repo : string) (d : Digest) : st bool :=
  rel ← of_result (blob_rel repo d);
  let digest := Digest_fmt d in
  present ← maybe repo digest;
  if negb present then mret false else
  want_blob repo digest;;
  recorded ← gets (λ s, checksum (mview (meta s)) repo digest);
  match recorded with
  | Some _ => mret true
  | None =>
      stat ← io (stat_beneath rel);
      match stat with Some (true, _) => mret true | _ => mret false end
  end.

Definition read_blob (repo : string) (d : Digest) : st bytes :=
  let digest := Digest_fmt d in
  cached ← cache_read repo digest;
  match cached with
  | Some b => mret b
  | None =>
      rel ← of_result (blob_rel repo d);
      present ← maybe repo digest;
      if negb present then throw NotFound else
      f ← io_nf (open_beneath rel);
      b ← io_nf (read_to_end f);
      cache_put repo digest b;;
      mret b
  end.

(** [open_blob]: the open file and its size. *)
Definition open_blob (repo : string) (d : Digest) : st (bytes * Z) :=
  present ← maybe repo (Digest_fmt d);
  if negb present then throw NotFound else
  rel ← of_result (blob_rel repo d);
  '(_, content) ← io_nf (open_beneath rel);
  io_nf (io_err (syscall (mret tt)));;
  mret (content, blen content).

Definition checksum_of (data : bytes) : BlobChecksum :=
  {| ck_crc32c := crc32c data; ck_size := blen data |}.

Definition verify_digest (d : Digest) (data : bytes) : st () :=
  let actual := digest_of data (algorithm d) in
  if negb (ct_eq actual d) then throw (DigestMismatch (Digest_fmt d) (Digest_fmt actual)) else mret tt.

Definition put_blob (repo : string) (d : Digest) (data : bytes) : st () :=
  verify_digest d data;;
  ensure_layout repo;;
  '(alg_rel, leaf) ← of_result (blob_dir_rel repo d);
  let digest := Digest_fmt d in
  charged ← admit_blob repo alg_rel leaf (blen data);
  linked ← dedupe_link_at repo alg_rel leaf digest;
  sync ← gets commit;
  (if linked : bool then mret tt
   else
     r ← attempt (on_fs (publish_bytes alg_rel leaf data sync));
     match r with
     | Ok _ => mret tt
     | Err e => quota_release repo charged;; throw (Io e)
     end);;
  blob_entered repo digest (Some (checksum_of data)).

Definition delete_blob (repo : string) (d : Digest) : st () :=
  '(alg_rel, leaf) ← of_result (blob_dir_rel repo d);
  size ← size_for_release (alg_rel ++ [leaf]);
  io_nf (unlink_beneath alg_rel leaf);;
  blob_left repo (Digest_fmt d) size.

Definition mount_blob (from_repo to_repo : string) (d : Digest) : st bool :=
  r ← attempt (blob_size from_repo d);
  match r with
  | Err NotFound => mret false
  | Err e => throw e
  | Ok size =>
      let digest := Digest_fmt d in
      '(from_alg_rel, leaf) ← of_result (blob_dir_rel from_repo d);
      '(to_alg_rel, _) ← of_result (blob_dir_rel to_repo d);
      if decide (from_alg_rel = to_alg_rel) then
        modify (λ s, set_presence (filter_insert (presence s) to_repo digest) s);; mret true
      else
      ensure_layout to_repo;;
      charged ← admit_blob to_repo to_alg_rel leaf size;
      sync ← gets commit;
      promoted ← attempt (on_fs (mount_promote_beneath from_alg_rel to_alg_rel leaf true sync));
      match promoted with
      | Err e =>
          quota_release to_repo charged;;
          throw (match io_kind e with
                 | KAlreadyExists => BadPath ("mount destination for " +:+ digest +:+ " is not a regular file")
                 | KNotFound => NotFound
                 | _ => Io e
                 end)
      | Ok _ =>
          cs ← gets (λ s, checksum (mview (meta s)) from_repo digest);
          blob_entered to_repo digest cs;;
          mret true
      end
  end.

(** ** index.json (index.rs) *)

(** [tokio::fs::read] and [std::fs::metadata] of a path beneath the root. *)
Definition read_path (p : path) : M Fs io_error bytes :=
  io_err (syscall (
    n ← gets (λ f, node_at f p);
    match n with
    | Some (Reg _ c) => mret c
    | Some Dir => throw EISDIR
    | Some Special => throw ENOTDIR
    | None => throw ENOENT
    end)).

Definition size_lookup (f : Fs) (repo : string) (d : string) : option Z :=
  '(alg, hex) ← split_once ":" d;
  rel ← ok (repo_rel repo);
  match node_at f (rel ++ ["blobs"; alg; hex]) with
  | Some n => Some (node_size n)
  | None => None
  end.

(** [read_index_beneath]: [None] when absent. *)
Definition read_index_beneath (repo : string) : M Fs io_error (option json) :=
  rel ← of_result (map_err (λ e, IoError KOther (StorageError_fmt e)) (index_path repo));
  r ← attempt (open_beneath rel);
  match r with
  | Err e => if decide (io_kind e = KNotFound) then mret None else throw e
  | Ok f =>
      b ← read_to_end f;
      match from_slice b with
      | Some v => mret (Some v)
      | None => throw (IoError KInvalidData "invalid index.json")
      end
  end.

Definition index_tmp (rnd : bytes) : string := ".index.json." +:+ hex_encode rnd +:+ ".tmp".

(** Replace [index.json] by the temporary file, which is removed on failure. *)
Definition install_index (dir : path) (tmp : string) : M Fs io_error () :=
  renamed ← attempt (rename_replace (dir ++ [tmp]) (dir ++ ["index.json"]));
  match renamed with
  | Ok _ => io_err fsync
  | Err e => _ ← attempt (E' := io_error) (unlinkat (dir ++ [tmp])); throw (io_of_errno e)
  end.

(** [write_index_at_root]: an anonymous inode that is linked and renamed where
    the kernel has [O_TMPFILE], else a named temporary file. *)
Definition write_index_at_root (repo : string) (index : json) : M Fs io_error () :=
  rel ← of_result (map_err (λ e, IoError KOther (StorageError_fmt e)) (repo_rel repo));
  ensure_layout_beneath rel OCI_LAYOUT_MARKER;;
  let data := to_vec index in
  dir_beneath rel false;;
  rnd ← random_bytes;
  let tmp := index_tmp rnd in
  n ← io_err tick;
  if supported n then
    io_err (syscall (mret tt));;
    io_err fsync;;
    io_err (link_anonymous data (rel ++ [tmp]));;
    install_index rel tmp
  else
    io_err (create_excl (rel ++ [tmp]));;
    written ← attempt (io_err (write_all (rel ++ [tmp]) data);; io_err fsync);
    match written with
    | Ok _ => install_index rel tmp
    | Err e => _ ← attempt (E' := io_error) (unlinkat (rel ++ [tmp])); throw e
    end.

(** One repository of [flush_dirty]: rewritten, and clean again unless it was
    marked meanwhile. *)
Definition flush_one (rg : string * Z) : st () :=
  let '(repo, generation) := rg in
  existing ← attempt (on_fs (read_index_beneath repo));
  match existing with
  | Err _ => mret tt
  | Ok existing =>
      index ← gets (λ s, index_from_meta (mview (meta s)) repo existing (size_lookup (fs s) repo));
      r ← attempt (on_fs (write_index_at_root repo index));
      match r with
      | Err _ => mret tt
      | Ok _ =>
          modify (λ s, if decide (index_dirty s !! repo = Some generation)
                       then set_index_dirty (delete repo (index_dirty s)) s else s)
      end
  end.

Fixpoint flush_all (rgs : list (string * Z)) : st () :=
  match rgs with
  | [] => mret tt
  | rg :: rgs => flush_one rg;; flush_all rgs
  end.

Definition flush_dirty : st () :=
  snapshot ← gets (λ s, map_to_list (index_dirty s));
  flush_all snapshot.

Definition index_view (repo : string) (existing : option json) : st json :=
  gets (λ s, index_from_meta (mview (meta s)) repo existing (size_lookup (fs s) repo)).

Definition read_index (repo : string) : st json :=
  dirty ← gets (λ s, bool_decide (is_Some (index_dirty s !! repo)));
  p ← of_result (index_path repo);
  r ← attempt (on_fs (read_path p));
  if dirty : bool then
    match r with
    | Ok b => index_view repo (from_slice b)
    | Err e => if decide (io_kind e = KNotFound) then index_view repo None else throw (Io e)
    end
  else
    match r with
    | Ok b =>
        match from_slice b with
        | Some v => mret v
        | None => throw (Io (IoError KInvalidData "invalid index.json"))
        end
    | Err e => if decide (io_kind e = KNotFound) then mret empty_index else throw (Io e)
    end.

Definition index_media_type_for_digest (repo digest : string) : st (option string) :=
  index ← read_index repo;
  mret (e ← List.find (λ e, bool_decide (descriptor_digest e = Some digest)) (index_manifests index);
        v ← jget "mediaType" e; as_str v).

Definition index_resolve_tag (repo tag : string) : st (Digest * string) :=
  index ← read_index repo;
  entry ← of_result (ok_or (List.find (λ e, bool_decide (descriptor_tag e = Some tag)) (index_manifests index)) NotFound);
  ds ← of_result (ok_or (descriptor_digest entry) NotFound);
  d ← of_result (Digest_parse ds);
  mret (d, default MEDIA_TYPE_IMAGE_MANIFEST (v ← jget "mediaType" entry; as_str v)).

(** ** Manifests *)

Inductive ManifestLanded :=
  | MRejected (e : StorageError)
  | MFailed (charged : Z) (error : StorageError)
  | MStored (missing : option nat) (error : option StorageError).

(** The re-check of the required blobs: the index of the first one that is not
    a regular file. *)
Fixpoint recheck (i : nat) (rels : list path) : st (option nat * option StorageError) :=
  match rels with
  | [] => mret (None, None)
  | rel :: rels =>
      r ← attempt (io (stat_beneath rel));
      match r with
      | Ok (Some (true, _)) => recheck (S i) rels
      | Ok _ => mret (Some i, None)
      | Err e => mret (None, Some e)
      end
  end.

Definition land_manifest (repo_rel : path) (repo : string) (alg_rel : path) (leaf digest : string)
    (data : bytes) (required : list path) : st ManifestLanded :=
  admitted ← attempt (layout_and_admit repo_rel repo alg_rel leaf (blen data));
  match admitted with
  | Err e => mret (MRejected e)
  | Ok charged =>
      linked ← dedupe_link_at repo alg_rel leaf digest;
      published ←
        (if linked : bool then mret (Ok tt)
         else attempt (on_fs (publish_bytes alg_rel leaf data true)));
      match published with
      | Err e => mret (MFailed charged (Io e))
      | Ok _ =>
          '(missing, error) ← recheck 0 required;
          mret (MStored missing error)
      end
  end.

Fixpoint collect_rels (repo : string) (ds : list Digest) : result StorageError (list path) :=
  match ds with
  | [] => Ok []
  | d :: ds => let? p := blob_rel repo d in let? ps := collect_rels repo ds in Ok (p :: ps)
  end.

Definition put_manifest (repo : string) (tag : option string) (d : Digest) (media_type : string)
    (data : bytes) (links : ManifestLinks) : st () :=
  match tag with Some t => _ ← of_result (SafeComponent t); mret tt | None => mret tt end;;
  referrer ← of_result (match link_subject links with
                        | Some (subject, descriptor) =>
                            let? b := referrer_descriptor subject descriptor in Ok (Some (Digest_fmt subject, b))
                        | None => Ok None
                        end);
  verify_digest d data;;
  '(alg_rel, leaf) ← of_result (blob_dir_rel repo d);
  let digest := Digest_fmt d in
  rels ← of_result (collect_rels repo (required links));
  rel ← of_result (repo_rel repo);
  landed ← land_manifest rel repo alg_rel leaf digest data rels;
  match landed with
  | MRejected e => throw e
  | MFailed charged error => quota_release repo charged;; throw error
  | MStored missing recheck_error =>
      blob_entered repo digest (Some (checksum_of data));;
      cache_put repo digest data;;
      match recheck_error with Some e => throw e | None => mret tt end;;
      match missing with
      | Some i => throw (MissingReference (from_option Digest_fmt "" (required links !! i)))
      | None => mret tt
      end;;
      let refs := Digest_fmt <$> references links in
      apply_meta repo (PutManifest repo digest media_type tag refs referrer);;
      modify (λ s, set_gc (foldl (λ g r, gc_clear g repo r) (gc_clear (gc s) repo digest) refs) s)
  end.

(** The content of a manifest, from the cache or from its file. *)
Definition manifest_bytes (repo : string) (d : Digest) (warm : bool) : st bytes :=
  cached ← cache_read repo (Digest_fmt d);
  match cached with
  | Some b => mret b
  | None =>
      rel ← of_result (blob_rel repo d);
      f ← io_nf (open_beneath rel);
      b ← io_nf (read_to_end f);
      (if warm then cache_put repo (Digest_fmt d) b else mret tt);;
      mret b
  end.

Definition get_manifest (repo reference : string) : st ManifestRef :=
  '(d, media_type) ←
    (if contains_char ":" reference then
       d ← of_result (Digest_parse reference);
       known ← gets (λ s, manifest_media_type (mview (meta s)) repo reference);
       match known with
       | Some mt => mret (d, mt)
       | None =>
           mt ← index_media_type_for_digest repo reference;
           mret (d, default MEDIA_TYPE_IMAGE_MANIFEST mt)
       end
     else
       resolved ← gets (λ s, resolve_tag (mview (meta s)) repo reference);
       match resolved with
       | Some (ds, mt) => d ← of_result (Digest_parse ds); mret (d, mt)
       | None => index_resolve_tag repo reference
       end);
  b ← manifest_bytes repo d true;
  mret {| mr_digest := d; mr_media_type := media_type; mr_bytes := b |}.

Definition delete_manifest (repo : string) (d : Digest) : st () :=
  let digest := Digest_fmt d in
  '(alg_rel, leaf) ← of_result (blob_dir_rel repo d);
  b ← manifest_bytes repo d false;
  let refs := match from_slice b with Some v => manifest_references v | None => [] end in
  io_nf (unlink_beneath alg_rel leaf);;
  blob_left repo digest (Some (blen b));;
  apply_meta repo (DeleteManifest repo digest);;
  modify (λ s, foldl (λ s r,
    if bool_decide (get_backrefs (mview (meta s)) repo r = []) && maybe_present (presence s) repo r
    then set_gc (mark (gc s) repo r (now s)) s else s) s (Digest_fmt <$> refs)).

(** ** Listings *)

Definition list_tags (repo : string) (last : option string) (limit : nat) : st (Page string) :=
  page ← gets (λ s, tags_page (mview (meta s)) repo last limit);
  match page with
  | Some p => mret p
  | None => index ← read_index repo; mret (layout_tags_page index last limit)
  end.

Definition empty_page {A} : Page A := mkPage [] false.

(** The tag of the referrers tag schema: the digest with a dash, its hash cut
    to 64 characters. *)
Definition tag_schema_tag (subject : Digest) : string :=
  algorithm subject +:+ "-" +:+ of_bytes (take 64 (as_bytes (hex subject))).

Definition list_referrers (repo : string) (subject : Digest) (artifact_type last : option string)
    (limit : nat) : st (Page (string * bytes)) :=
  let target := Digest_fmt subject in
  page ← gets (λ s, referrers_page (mview (meta s)) repo target artifact_type last limit);
  match page with
  | Some p => mret p
  | None =>
      index ← read_index repo;
      let linked := layout_subject_referrers index target in
      if bool_decide (linked ≠ []) then mret (page_layout_referrers linked artifact_type last limit) else
      let tag := tag_schema_tag subject in
      known ← gets (λ s, resolve_tag (mview (meta s)) repo tag);
      resolved ←
        match known with
        | Some (ds, _) => mret (ok (Digest_parse ds))
        | None =>
            r ← attempt (index_resolve_tag repo tag);
            mret (fst <$> ok r)
        end;
      match resolved with
      | None => mret empty_page
      | Some d =>
          r ← attempt (read_blob repo d);
          match r with
          | Err _ => mret empty_page
          | Ok b =>
              match from_slice b ≫= λ v, jget "manifests" v ≫= as_array with
              | None => mret empty_page
              | Some arr =>
                  let listed := omap (λ e,
                    ds ← descriptor_digest e; d ← ok (Digest_parse ds); Some (Digest_fmt d, e)) arr in
                  mret (page_layout_referrers listed artifact_type last limit)
              end
          end
      end
  end.

(** ** The sweep (fs_storage/gc.rs) *)

Definition set_clear (repo digest : string) : st () := modify (λ s, set_gc (gc_clear (gc s) repo digest) s).

Definition sweep_one (now : Z) (k : string * string) : st () :=
  let '(repo, digest) := k in
  g ← gets gc;
  if negb (is_due g repo digest now) then mret tt
  else if is_root g repo digest then set_clear repo digest
  else if is_unsafe g repo then mret tt
  else
  m ← gets meta;
  if bool_decide (get_backrefs (mview m) repo digest ≠ []) then set_clear repo digest
  else if bool_decide (is_Some (manifest_media_type (mview m) repo digest)) then set_clear repo digest
  else
  match Digest_parse digest with
  | Err _ => set_clear repo digest
  | Ok d =>
      match blob_dir_rel repo d with
      | Err _ => set_clear repo digest
      | Ok (alg_rel, leaf) =>
          stat ← attempt (on_fs (stat_beneath (alg_rel ++ [leaf])));
          match stat with
          | Ok (Some (true, size)) =>
              r ← attempt (on_fs (unlink_beneath alg_rel leaf));
              match r with
              | Ok _ => blob_left repo digest (Some size)
              | Err e => if decide (io_kind e = KNotFound) then set_clear repo digest else mret tt
              end
          | Ok _ => set_clear repo digest
          | Err e => if decide (io_kind e = KNotFound) then set_clear repo digest else mret tt
          end
      end
  end.

Fixpoint sweep_all (now : Z) (ks : list (string * string)) : st () :=
  match ks with
  | [] => mret tt
  | k :: ks => sweep_one now k;; sweep_all now ks
  end.

(** An expired session without a staging file. *)
Fixpoint expire_pending (ks : list (string * string)) : st () :=
  match ks with
  | [] => mret tt
  | (repo, id) :: ks =>
      (if is_ok (SafeComponent id) then
         session_lock repo id;;
         taken ← take_pending repo id;
         (if taken : bool then quota_end_session else mret tt);;
         drop_lock repo id
       else mret tt);;
      expire_pending ks
  end.

(** Stale staging files: which ones are old enough is what the modification
    times in the upload directories say, here the list [stale], with what a
    second look under the session's lock says. *)
Fixpoint expire_staged (stale : list (string * string * bool)) : st () :=
  match stale with
  | [] => mret tt
  | (repo, id, still_stale) :: stale =>
      (match upload_dir_rel repo id with
       | Err _ => mret tt
       | Ok (dir, leaf) =>
           session_lock repo id;;
           r ← attempt (on_fs (stat_beneath (dir ++ [leaf])));
           (match r with
            | Ok (Some (true, _)) =>
                if negb still_stale then mret tt else
                u ← attempt (on_fs (unlink_beneath dir leaf));
                if is_ok u then quota_end_session else mret tt
            | _ => mret tt
            end);;
           drop_lock repo id
       end);;
      expire_staged stale
  end.

Definition sweep_stale_uploads (stale : list (string * string * bool)) : st () :=
  expired ← gets (λ s, (filter (λ p, (gc_delay (gc s) <=? saturating_sub (now s) p.2)%Z = true)
                          (map_to_list (pending_uploads s))).*1);
  expire_pending expired;;
  expire_staged stale.

Definition sweep_at (now : Z) (stale : list (string * string * bool)) : st () :=
  g ← gets gc;
  if negb (is_ready g) then mret tt else
  sweep_all now (due g now);;
  sweep_stale_uploads stale.

End FsStorage.
