(* ===== verification/FsInvariant.v ===== *)
(** The integrity of the filesystem backend: in every state a run of storage
    operations reaches, whatever input and output fails, every blob file and
    every cached blob hashes to its digest and the running hash of an upload
    is the hash of its staging file. *)

From S2P Require Import StorageApi Prelude RustStr Json Errors Digest Paths Quota Metadata MetaLog.
From S2P Require Import Triple.
From S2P Require Import MetaStore SmallCache Effect FileSys FileSysFacts Layout Lifecycle.
From S2P Require Import UploadBody FsStorage.

Lemma Digest_fmt_no_nul d : digest_wf d → Forall (λ b, b ≠ "000"%char) (as_bytes (Digest_fmt d)).
Proof.
  intros [Ha Hh]. unfold Digest_fmt. rewrite !as_bytes_app, !Forall_app. split_and!.
  - apply algorithm_len_Some in Ha as [[-> _]|[-> _]]; repeat constructor; done.
  - repeat constructor; done.
  - apply Forall_forall. intros b Hb ->. eapply lower_hex_no_byte; [exact Hh| |exact Hb]. reflexivity.
Qed.

Section Invariant.
Context `{!Crypto, !CryptoLaws, !World, !SerdeJson, !HashIter, !MetadataStore, !Lru, !LruLaws, !Cuckoo}.

(** ** The invariant *)

(** What the cache holds for a digest hashes to it. *)
Definition cached_ok (c : SmallBlobCache) : Prop :=
  ∀ k b, (k, b) ∈ lru_entries (cmap_lru c) →
  ∀ repo d, digest_wf d → k = cache_key repo (Digest_fmt d) → digest_of b (algorithm d) = d.

(** The running hash of a session was fed what it counts; when it has the
    length of the staging file, it was fed the file. *)
Definition hash_ok (t : tree) (repo id : string) (h : StagedHash) : Prop :=
  hashed (sha h) h ∧
  ∀ p i c, upload_rel repo id = Ok p → t !! p = Some (Reg i c) → hlen h = blen c → sha h = c.

Definition hashes_ok (t : tree) (hs : gmap (string * string) (option StagedHash)) : Prop :=
  ∀ repo id h, upload_id id → hs !! (repo, id) = Some (Some h) → hash_ok t repo id h.

Record store_inv (s : Store) : Prop := {
  inv_cas : cas_ok (files (fs s));
  inv_cache : small_ok (cache s) ∧ (capacity (cache s) < 2 ^ 63)%Z;
  inv_cached : cached_ok (cache s);
  inv_hashes : hashes_ok (files (fs s)) (session_hash s);
}.

(** *** Changes that do not touch files, cache or hashes *)

Definition aside (f : Store → Store) : Prop :=
  ∀ s, fs (f s) = fs s ∧ cache (f s) = cache s ∧ session_hash (f s) = session_hash s.

Lemma aside_inv f s : aside f → store_inv s → store_inv (f s).
Proof. intros Hf [I1 I2 I3 I4]. destruct (Hf s) as (E1 & E2 & E3). split; rewrite ?E1, ?E2, ?E3; done. Qed.

Lemma sp_aside {E : Type} (P : Store → Prop) f :
  aside f → (∀ s, P s → P (f s)) → sp (E := E) store_inv P (modify f) (λ _, P).
Proof. intros Hf HP. apply sp_modify. intros s Hs Hp. split; [by apply aside_inv|auto]. Qed.

(** *** Programs over the files *)

Lemma hashes_ok_keeps f f' hs : keeps f f' → hashes_ok (files f) hs → hashes_ok (files f') hs.
Proof.
  intros Hk Hh repo id h I1 I2. destruct (Hh repo id h I1 I2) as [I3 I4]. split; [done|].
  intros p i c I5 I6. apply (I4 p i c I5). eapply keeps_staging; [|exact Hk|exact I6]. by exists repo, id.
Qed.

Lemma keeps_inv s f' : keeps (fs s) f' → store_inv s → store_inv (set_fs f' s).
Proof.
  intros Hk [I1 I2 I3 I4]. split; simpl; [by apply Hk|done..|]. by eapply hashes_ok_keeps.
Qed.

Lemma sp_on_fs {E A : Type} (m : M Fs E A) (Q : A → tree → Prop) :
  spec cas_ok m (on_ok Q) → sp store_inv any (on_fs m) (λ a s, Q a (files (fs s))).
Proof.
  intros Hm s Hs _. destruct (Hm (fs s) (inv_cas s Hs)) as [Hk HQ]. unfold on_fs, focus.
  destruct (m (fs s)) as [f' r]; simpl in *. split; [by apply keeps_inv|]. intros a ->. done.
Qed.

Lemma sp_fs_keeps {E A : Type} (m : M Fs E A) : runs keeps m → sp store_inv any (on_fs m) (λ _ _, True).
Proof.
  intros Hm. eapply sp_weaken; [apply (sp_on_fs m (λ _ _, True))|done|done].
  eapply spec_weaken; [by apply spec_keeps|done|]. by intros [|].
Qed.

Lemma sp_io_keeps {A : Type} (m : M Fs io_error A) : runs keeps m → sp store_inv any (io m) (λ _ _, True).
Proof. intros Hm. by apply sp_mapping_err, sp_fs_keeps. Qed.

Lemma sp_io_nf_keeps {A : Type} (m : M Fs io_error A) : runs keeps m → sp store_inv any (io_nf m) (λ _ _, True).
Proof. intros Hm. by apply sp_mapping_err, sp_fs_keeps. Qed.

Lemma on_fs_state {E A : Type} (m : M Fs E A) s : (on_fs m s).1 = set_fs (m (fs s)).1 s.
Proof. unfold on_fs, focus. by destruct (m (fs s)). Qed.

(** *** The cache *)

Lemma cache_put_ok repo d data :
  digest_wf d → digest_of data (algorithm d) = d →
  sp store_inv any (cache_put repo (Digest_fmt d) data) (λ _ _, True).
Proof.
  intros Hd Hdata. apply sp_modify. intros s [I1 [I2 I2'] I3 I4] _. split; [|done].
  destruct (small_put_ok (cache s) repo (Digest_fmt d) data I2 I2') as (c' & Hput & Hok & Hcap & _ & Hin).
  rewrite Hput. simpl. split; simpl; [done|by rewrite Hcap| |done].
  intros k b [Hk|Hk]%Hin repo' d' Hd' ->; [by eapply I3|]. injection Hk as Hk ->.
  apply cache_key_inj in Hk as [_ Hk]; [|by apply Digest_fmt_no_nul..].
  by rewrite (Digest_fmt_inj d' d).
Qed.

(** *** Programs that leave the files alone, and programs that leave the
    staging files and the sessions alone *)

Definition still (s s' : Store) : Prop :=
  (store_inv s → store_inv s') ∧ same_files (fs s) (fs s') ∧ session_hash s' = session_hash s.

Definition calm (s s' : Store) : Prop :=
  store_inv s → store_inv s' ∧ session_hash s' = session_hash s ∧ keeps (fs s) (fs s').

#[export] Instance still_preorder : PreOrder still.
Proof.
  split; [by intros s|]. intros s1 s2 s3 (I1 & I2 & I3) (J1 & J2 & J3). split_and!; [auto|by etrans|congruence].
Qed.

#[export] Instance calm_preorder : PreOrder calm.
Proof.
  split; [intros s Hs; by split_and!|]. intros s1 s2 s3 I1 J1 Hs.
  destruct (I1 Hs) as (I2 & I3 & I4), (J1 I2) as (J2 & J3 & J4). split_and!; [done|congruence|by etrans].
Qed.

Lemma still_calm {E A : Type} (m : M Store E A) : runs still m → runs calm m.
Proof. intros Hm s Hs. destruct (Hm s) as (I1 & I2 & I3). split_and!; [auto|done|]. by apply same_keeps. Qed.

Lemma still_aside {E : Type} f : aside f → runs still (modify f : M Store E ()).
Proof. intros Hf s. destruct (Hf s) as (I1 & I2 & I3). split_and!; [by apply aside_inv|by apply (f_equal files)|done]. Qed.

Lemma calm_on_fs {E A : Type} (m : M Fs E A) Q : spec cas_ok m Q → runs calm (on_fs m).
Proof.
  intros Hm s Hs. destruct (Hm (fs s) (inv_cas s Hs)) as [Hk _]. rewrite on_fs_state.
  split_and!; [by apply keeps_inv|done..].
Qed.

Lemma calm_keeps {E A : Type} (m : M Fs E A) : runs keeps m → runs calm (on_fs m).
Proof. intros Hm. eapply calm_on_fs, spec_keeps, Hm. Qed.
Lemma calm_io {A : Type} (m : M Fs io_error A) : runs keeps m → runs calm (io m).
Proof. intros Hm. by apply runs_mapping_err, calm_keeps. Qed.
Lemma calm_io_nf {A : Type} (m : M Fs io_error A) : runs keeps m → runs calm (io_nf m).
Proof. intros Hm. by apply runs_mapping_err, calm_keeps. Qed.

Lemma sp_calm {E A : Type} P (m : M Store E A) : runs calm m → sp store_inv P m (λ _ _, True).
Proof. intros Hm s Hs _. split; [by apply Hm|done]. Qed.

Lemma sp_still {E A : Type} (Φ : tree → gmap (string * string) (option StagedHash) → Prop) (m : M Store E A) :
  runs still m → sp store_inv (λ s, Φ (files (fs s)) (session_hash s)) m (λ _ s, Φ (files (fs s)) (session_hash s)).
Proof. intros Hm s Hs HΦ. destruct (Hm s) as (I1 & -> & ->). by split; [auto|]. Qed.

Lemma still_on_fs {E A : Type} (m : M Fs E A) : runs same_files m → runs still (on_fs m).
Proof.
  intros Hm s. rewrite on_fs_state. split_and!; [|apply Hm|done]. apply keeps_inv, same_keeps, Hm.
Qed.
Lemma still_io {A : Type} (m : M Fs io_error A) : runs same_files m → runs still (io m).
Proof. intros Hm. by apply runs_mapping_err, still_on_fs. Qed.

(** A step whose result does not matter, from and to any state. *)
Lemma sp_then {E A B : Type} (P : Store → Prop) (m : M Store E A) (k : A → M Store E B) Q :
  runs calm m → (∀ a, sp store_inv any (k a) Q) → sp store_inv P (m ≫= k) Q.
Proof. intros Hm Hk. eapply sp_bind; [by apply sp_calm|]. intros a. by apply sp_any. Qed.


Hint Resolve still_calm still_on_fs still_io calm_keeps calm_io calm_io_nf : runs.

Lemma cache_invalidate_inv repo digest s : store_inv s → store_inv (cache_invalidate repo digest s).
Proof.
  intros [I1 [I2 I2'] I3 I4]. unfold cache_invalidate.
  destruct (small_invalidate_ok (cache s) repo digest I2) as (c' & Hput & Hok & Hcap & _ & Hin).
  rewrite Hput. simpl. split; simpl; [done|by rewrite Hcap| |done].
  intros k b Hk. rewrite Hin in Hk. apply without_elem in Hk as [Hk _]. by apply I3.
Qed.

Lemma cache_read_spec P repo d :
  digest_wf d →
  sp store_inv P (cache_read repo (Digest_fmt d)) (λ r _, ∀ b, r = Some b → digest_of b (algorithm d) = d).
Proof.
  intros Hd s [I1 [I2 I2'] I3 I4] _. unfold cache_read, state.
  destruct (small_get_ok (cache s) repo (Digest_fmt d) I2) as (Hok & Hv & Hcap & _ & Hp).
  destruct (small_get (cache s) repo (Digest_fmt d)) as [c v]. simpl in *. split.
  - split; simpl; [done|by rewrite Hcap| |done]. intros k b Hk. apply I3. by rewrite <-Hp.
  - intros r [= <-] b ->. symmetry in Hv. apply assoc_elem in Hv. by eapply I3.
Qed.

Lemma want_blob_still repo digest : runs still (want_blob repo digest).
Proof. apply still_aside. intros s. by destruct (gc_enabled (gc s)). Qed.

Lemma on_quota_still {A : Type} (f : Quota → Quota * result StorageError A) : runs still (on_quota f).
Proof. intros s. unfold on_quota. destruct (f (quota s)) as [q r]. split_and!; [|done..]. by intros []; split. Qed.

Lemma quota_release_still repo n : runs still (quota_release repo n).
Proof. by apply still_aside. Qed.
Lemma quota_end_session_still : runs still quota_end_session.
Proof. by apply still_aside. Qed.
Hint Resolve want_blob_still on_quota_still quota_release_still quota_end_session_still : runs.

Lemma admit_blob_calm repo alg leaf size : runs calm (admit_blob repo alg leaf size).
Proof. unfold admit_blob. runs_auto. Qed.
Lemma size_for_release_calm rel : runs calm (size_for_release rel).
Proof. unfold size_for_release. runs_auto. Qed.

Lemma blob_entered_still repo digest cs : runs still (blob_entered repo digest cs).
Proof.
  unfold blob_entered. apply runs_bind; [by apply still_aside|intros _]. apply still_aside. intros s.
  by destruct (note_blob_entered _ _ _ _ _ _ _) as [[m g] x].
Qed.

Lemma blob_left_still repo digest size : runs still (blob_left repo digest size).
Proof.
  unfold blob_left. apply runs_bind; [by apply still_aside|intros _].
  apply runs_bind; [intros s; split_and!; [by apply cache_invalidate_inv|done..]|intros _]. apply still_aside. intros s.
  by destruct (note_blob_left _ _ _ _ _ _ _) as [[[m g] x] q].
Qed.

Lemma mark_index_dirty_still repo : runs still (mark_index_dirty repo).
Proof. by apply still_aside. Qed.
Lemma meta_apply_still op : runs still (meta_apply op).
Proof. intros s. unfold meta_apply. destruct (mapply (meta s) op). split_and!; [|done..]. by intros []; split. Qed.
Hint Resolve admit_blob_calm size_for_release_calm blob_entered_still blob_left_still
  mark_index_dirty_still meta_apply_still : runs.
Lemma apply_meta_still repo op : runs still (apply_meta repo op).
Proof. unfold apply_meta. runs_auto. Qed.
Lemma ensure_layout_calm repo : runs calm (ensure_layout repo).
Proof. unfold ensure_layout. runs_auto. Qed.
Lemma layout_and_admit_calm rel repo alg leaf size : runs calm (layout_and_admit rel repo alg leaf size).
Proof. unfold layout_and_admit. runs_auto. Qed.
Hint Resolve apply_meta_still ensure_layout_calm layout_and_admit_calm : runs.

(** *** Reading blobs *)

Lemma sp_open P repo d rel :
  digest_wf d → blob_rel repo d = Ok rel →
  sp store_inv P (io_nf (open_beneath rel)) (λ h _, digest_of h.2 (algorithm d) = d).
Proof.
  intros Hd Hrel. apply sp_any, sp_mapping_err.
  eapply sp_weaken; [apply (sp_on_fs _ (λ h t, cas_ok t ∧ opens rel t h))|done|].
  - apply resolve_beneath_spec. apply blob_rel_ok in Hrel as (r & _ & _ & ->). by destruct r.
  - intros h s _ [Hc Ho]. apply (Hc rel _ _ Ho). split; [done|]. by exists repo.
Qed.

Lemma sp_read_to_end P h : sp store_inv P (io_nf (read_to_end h)) (λ b _, b = h.2).
Proof.
  apply sp_any, sp_mapping_err. eapply sp_weaken; [apply (sp_on_fs _ (λ b _, b = h.2))|done|done].
  intros f _. split; [apply same_keeps, read_to_end_same|].
  destruct (read_to_end h f) as [f' [b|e]] eqn:E; [|done]. by apply read_to_end_ok in E.
Qed.

(** Open, read and perhaps cache a blob. *)
Lemma sp_load P repo d (warm : bool) rel :
  digest_wf d → blob_rel repo d = Ok rel →
  sp store_inv P (f ← io_nf (open_beneath rel);
        b ← io_nf (read_to_end f);
        (if warm then cache_put repo (Digest_fmt d) b else mret tt);;
        mret b) (λ b _, digest_of b (algorithm d) = d).
Proof.
  intros Hd Hrel. eapply sp_known; [by apply (sp_open _ repo d)|]. intros h Hh.
  eapply sp_known; [apply sp_read_to_end|]. intros b ->. simpl.
  eapply (sp_bind _ _ _ (λ _ _, True)); [destruct warm; [by apply cache_put_ok|by apply sp_ret]|].
  intros _. by apply sp_ret.
Qed.

Lemma read_blob_spec repo d :
  digest_wf d → sp store_inv any (read_blob repo d) (λ b _, digest_of b (algorithm d) = d).
Proof.
  intros Hd. unfold read_blob. eapply sp_known; [by apply cache_read_spec|]. intros [b|] Hb.
  { apply sp_ret. intros s _ _. by apply Hb. }
  apply sp_let. intros rel Hrel. eapply sp_bind; [apply sp_gets|]. intros present.
  case_match; [apply sp_throw|]. by apply (sp_load _ repo d true).
Qed.

Lemma manifest_bytes_spec P repo d warm :
  digest_wf d → sp store_inv P (manifest_bytes repo d warm) (λ b _, digest_of b (algorithm d) = d).
Proof.
  intros Hd. unfold manifest_bytes. eapply sp_known; [by apply cache_read_spec|]. intros [b|] Hb.
  { apply sp_ret. intros s _ _. by apply Hb. }
  apply sp_let. intros rel Hrel. by apply sp_load.
Qed.

Lemma open_blob_spec repo d :
  digest_wf d → sp store_inv any (open_blob repo d) (λ r _, digest_of r.1 (algorithm d) = d ∧ r.2 = blen r.1).
Proof.
  intros Hd. unfold open_blob. eapply sp_bind; [apply sp_gets|]. intros present.
  case_match; [apply sp_throw|]. apply sp_let. intros rel Hrel.
  eapply sp_known; [by apply (sp_open _ repo d)|]. intros [i c] Hc. apply sp_then.
  { apply calm_io_nf, runs_same_keeps, io_err_same, syscall_same. runs_auto. }
  intros _. by apply sp_ret.
Qed.

(** *** Publishing blobs *)

(** The blob of [d] is stored in [repo]. *)
Definition stored (repo : string) (d : Digest) (t : tree) : Prop :=
  ∃ p i b, blob_rel repo d = Ok p ∧ t !! p = Some (Reg i b) ∧ digest_of b (algorithm d) = d.

Lemma has_file_stored repo d dir leaf s :
  digest_wf d → blob_dir_rel repo d = Ok (dir, leaf) → store_inv s →
  has_file (dir ++ [leaf]) (files (fs s)) → stored repo d (files (fs s)).
Proof.
  intros Hd Hdir Hs (i & b & Hf). exists (dir ++ [leaf]), i, b. split_and!; [|done|].
  - unfold blob_rel. by rewrite Hdir.
  - apply (inv_cas s Hs _ _ _ Hf). by eapply blob_dir_rel_at.
Qed.

Lemma dir_leaf repo d dir leaf : blob_dir_rel repo d = Ok (dir, leaf) → leaf = hex d.
Proof. unfold blob_dir_rel. intros E. case_res. by select (SafeComponent _ = _) (fun E => apply SafeComponent_ok in E as [-> ?]). Qed.

Lemma mount_promote_blob d r r' dir dir' leaf leaf' copy sync :
  digest_wf d → blob_dir_rel r d = Ok (dir, leaf) → blob_dir_rel r' d = Ok (dir', leaf') →
  spec cas_ok (mount_promote_beneath dir dir' leaf copy sync) (on_ok (λ _, has_file (dir' ++ [leaf']))).
Proof.
  intros Hd E E'. assert (leaf' = leaf) as -> by (apply dir_leaf in E, E'; congruence).
  apply blob_dir_rel_at in E, E'; [|done..]. apply mount_promote_spec.
  - intros b Hb. eapply blob_ok_at; [done|]. by apply Hb.
  - by eapply blob_not_staging.
Qed.

Lemma dedupe_link_at_calm repo d dir leaf :
  digest_wf d → blob_dir_rel repo d = Ok (dir, leaf) →
  runs calm (dedupe_link_at repo dir leaf (Digest_fmt d)).
Proof.
  intros Hd Hdir. unfold dedupe_link_at. rewrite Digest_parse_fmt by done.
  do 2 (apply runs_bind; [runs_auto|intros ?]).
  destruct (locate _ _ _) as [from|]; [|runs_auto]. destruct (blob_dir_rel from d) as [[src leaf']|] eqn:Esrc; [|runs_auto].
  apply runs_bind.
  - apply runs_attempt. eapply calm_on_fs. pose proof (dir_leaf _ _ _ _ Esrc) as ->.
    pose proof (dir_leaf _ _ _ _ Hdir) as ->. by eapply mount_promote_blob.
  - intros r. runs_auto. by apply still_calm, still_aside.
Qed.

Lemma dedupe_link_at_spec P repo d dir leaf :
  digest_wf d → blob_dir_rel repo d = Ok (dir, leaf) →
  sp store_inv P (dedupe_link_at repo dir leaf (Digest_fmt d)) (λ b s, b = true → has_file (dir ++ [leaf]) (files (fs s))).
Proof.
  intros Hd Hdir. apply sp_any. unfold dedupe_link_at. rewrite Digest_parse_fmt by done.
  do 2 (apply sp_then; [runs_auto|intros ?]).
  destruct (locate _ _ _) as [from|]; [|by apply sp_ret]. destruct (blob_dir_rel from d) as [[src leaf']|] eqn:Esrc; [|by apply sp_ret].
  pose proof (dir_leaf _ _ _ _ Esrc) as ->. pose proof (dir_leaf _ _ _ _ Hdir) as ->.
  eapply sp_bind; [apply sp_attempt, sp_on_fs; by eapply mount_promote_blob|].
  intros [r|e].
  - apply sp_ret. eauto.
  - apply sp_then; [|intros; by apply sp_ret]. case_match; [by apply still_calm, still_aside|runs_auto].
Qed.

Lemma verify_digest_spec P d data : sp store_inv P (verify_digest d data) (λ _ _, digest_of data (algorithm d) = d).
Proof.
  unfold verify_digest. destruct (ct_eq _ _) eqn:E; simpl; [|apply sp_throw].
  apply sp_ret. intros s _ HP. by apply ct_eq_true in E.
Qed.

Lemma publish_spec P repo d dir leaf data sync :
  digest_wf d → blob_dir_rel repo d = Ok (dir, leaf) → digest_of data (algorithm d) = d →
  sp store_inv P (on_fs (publish_bytes dir leaf data sync)) (λ _ s, has_file (dir ++ [leaf]) (files (fs s))).
Proof.
  intros Hd Hdir Hdata. apply blob_dir_rel_at in Hdir; [|done].
  apply sp_any, (sp_on_fs _ (λ _, has_file (dir ++ [leaf]))), publish_bytes_spec.
  - by eapply blob_ok_at.
  - by eapply blob_not_staging.
Qed.

(** Entering a blob whose file is there. *)
Lemma entered_spec repo d dir leaf cs :
  digest_wf d → blob_dir_rel repo d = Ok (dir, leaf) →
  sp store_inv (λ s, has_file (dir ++ [leaf]) (files (fs s))) (blob_entered repo (Digest_fmt d) cs) (λ _ s, stored repo d (files (fs s))).
Proof.
  intros Hd Hdir. eapply sp_weaken; [apply (sp_still (λ t _, has_file (dir ++ [leaf]) t)), blob_entered_still|done|].
  intros ? s Hs Hf. by eapply has_file_stored.
Qed.

Lemma put_blob_spec repo d data :
  digest_wf d → sp store_inv any (put_blob repo d data) (λ _ s, stored repo d (files (fs s))).
Proof.
  intros Hd. unfold put_blob. eapply sp_known; [apply verify_digest_spec|]. intros ? Hdata.
  apply sp_then; [runs_auto|intros _]. apply sp_let. intros [dir leaf] Hdir.
  apply sp_then; [runs_auto|intros charged].
  eapply sp_bind; [by apply dedupe_link_at_spec|intros linked].
  eapply sp_bind; [apply sp_gets|intros sync].
  eapply (sp_bind _ _ _ (λ _ s, has_file (dir ++ [leaf]) (files (fs s)))); [|intros ?; by eapply entered_spec].
  destruct linked; [apply sp_ret; naive_solver|].
  eapply sp_bind; [apply sp_attempt; by eapply publish_spec|]. intros [[]|e].
  - apply sp_ret. eauto.
  - apply sp_then; [runs_auto|intros; apply sp_throw].
Qed.

Lemma delete_blob_calm repo d : digest_wf d → runs calm (delete_blob repo d).
Proof.
  intros Hd s. unfold delete_blob. unfold mbind, M_bind at 1, of_result.
  destruct (blob_dir_rel repo d) as [[dir leaf]|] eqn:Hdir; [|by intros].
  revert s. change (runs calm (size ← size_for_release (dir ++ [leaf]); io_nf (unlink_beneath dir leaf);;
    blob_left repo (Digest_fmt d) size)).
  runs_auto. apply calm_io_nf, unlink_beneath_keeps. eapply blob_not_staging. by eapply blob_dir_rel_at.
Qed.

Lemma blob_size_calm repo d : runs calm (blob_size repo d).
Proof. unfold blob_size, maybe. runs_auto. Qed.
Lemma blob_exists_calm repo d : runs calm (blob_exists repo d).
Proof. unfold blob_exists, maybe. runs_auto. Qed.

(** A mount either finds no source, or leaves the blob in both repositories'
    reach: when the directories differ, stored in the target. *)
Lemma mount_blob_spec r r' d :
  digest_wf d → sp store_inv any (mount_blob r r' d) (λ b s, b = true → r ≠ r' → stored r' d (files (fs s))).
Proof.
  intros Hd. unfold mount_blob. apply sp_then; [apply runs_attempt, blob_size_calm|].
  intros [size|[]]; try apply sp_throw; [|by apply sp_ret].
  apply sp_let. intros [dir leaf] Hdir. apply sp_let. intros [dir' leaf'] Hdir'.
  destruct (decide (dir = dir')) as [->|Hne].
  { apply sp_then; [by apply still_calm, still_aside|intros _]. apply sp_ret. intros s _ _ _ Hr. destruct Hr.
    apply (blob_rel_inj r d r' d (dir' ++ [leaf])); unfold blob_rel; rewrite ?Hdir, ?Hdir'; [done|].
    apply dir_leaf in Hdir, Hdir'. by subst. }
  apply sp_then; [runs_auto|intros _]. apply sp_then; [runs_auto|intros charged].
  eapply sp_bind; [apply sp_gets|intros sync].
  eapply sp_bind; [apply sp_attempt, sp_any, sp_on_fs; by eapply (mount_promote_blob d r r')|].
  intros [x|e].
  - eapply sp_bind; [apply sp_gets|intros cs].
    eapply sp_bind; [|intros ?; apply sp_ret; intros s _ Hs _ _; exact Hs].
    eapply sp_weaken; [by eapply (entered_spec r' d dir' leaf')|naive_solver|done].
  - apply sp_then; [runs_auto|intros; apply sp_throw].
Qed.

(** *** The index *)

Lemma read_path_same p : runs same_files (read_path p).
Proof. apply io_err_same, syscall_same. runs_auto. Qed.
Lemma read_index_beneath_same repo : runs same_files (read_index_beneath repo).
Proof. unfold read_index_beneath. runs_auto. Qed.
Hint Resolve read_path_same read_index_beneath_same : runs.

Lemma io_err_keeps {A : Type} (m : M Fs errno A) : runs keeps m → runs keeps (io_err m).
Proof. apply runs_mapping_err. Qed.

Lemma install_index_keeps dir rnd : runs keeps (install_index dir (index_tmp rnd)).
Proof.
  assert (Ht : harmless (dir ++ [index_tmp rnd])) by (by apply layout_harmless).
  unfold install_index. apply runs_bind; [apply runs_attempt, rename_replace_keeps; [apply Ht|by apply layout_harmless]|].
  intros [[]|e]; [runs_auto|]. apply runs_bind; [apply runs_attempt, unlinkat_keeps, Ht|runs_auto].
Qed.

Lemma write_index_keeps repo index : runs keeps (write_index_at_root repo index).
Proof.
  unfold write_index_at_root. apply runs_bind; [runs_auto|intros rel].
  do 2 (apply runs_bind; [runs_auto|intros _]). apply runs_bind; [runs_auto|intros rnd].
  assert (Ht : harmless (rel ++ [index_tmp rnd])) by (by apply layout_harmless).
  pose proof (install_index_keeps rel rnd) as Hi.
  apply runs_bind; [runs_auto|intros n]. destruct (supported n).
  - do 2 (apply runs_bind; [eauto with runs|intros _]).
    apply runs_bind; [by apply io_err_keeps, link_anonymous_keeps|intros _]. done.
  - apply runs_bind; [by apply io_err_keeps, create_excl_keeps|intros _].
    apply runs_bind.
    { apply runs_attempt, runs_bind; [by apply io_err_keeps, write_all_keeps|intros _]. runs_auto. }
    intros [[]|e]; [done|]. apply runs_bind; [apply runs_attempt, unlinkat_keeps, Ht|runs_auto].
Qed.
Hint Resolve write_index_keeps : runs.

Lemma flush_one_calm rg : runs calm (flush_one rg).
Proof.
  destruct rg as [repo gen]. unfold flush_one. runs_auto. apply still_calm, still_aside.
  intros s. by case_match.
Qed.
Hint Resolve flush_one_calm : runs.
Lemma flush_all_calm rgs : runs calm (flush_all rgs).
Proof. induction rgs; simpl; runs_auto. Qed.
Hint Resolve flush_all_calm : runs.
Lemma flush_dirty_calm : runs calm flush_dirty.
Proof. unfold flush_dirty. runs_auto. Qed.

Lemma read_index_calm repo : runs calm (read_index repo).
Proof. unfold read_index, index_view. runs_auto. Qed.
Hint Resolve read_index_calm : runs.
Lemma index_media_type_calm repo digest : runs calm (index_media_type_for_digest repo digest).
Proof. unfold index_media_type_for_digest. runs_auto. Qed.
Hint Resolve index_media_type_calm : runs.

Lemma index_resolve_tag_spec P repo tag : sp store_inv P (index_resolve_tag repo tag) (λ r _, digest_wf r.1).
Proof.
  unfold index_resolve_tag. apply sp_then; [runs_auto|intros index].
  apply sp_let. intros entry _. apply sp_let. intros ds _. apply sp_let. intros d Hd.
  apply sp_ret. intros _ _ _. by eapply Digest_parse_wf.
Qed.

(** *** Manifests *)

Lemma recheck_still i rels : runs still (recheck i rels).
Proof. revert i. induction rels; intros i; simpl; runs_auto. Qed.

Lemma sp_still_file {E A : Type} p (m : M Store E A) :
  runs still m → sp store_inv (λ s, has_file p (files (fs s))) m (λ _ s, has_file p (files (fs s))).
Proof. apply (sp_still (λ t _, has_file p t)). Qed.

(** A re-check that finds nothing missing found every file. *)
Lemma recheck_spec i rels :
  sp store_inv any (recheck i rels) (λ r s, r = (None, None) → Forall (λ p, has_file p (files (fs s))) rels).
Proof.
  revert i. induction rels as [|p rels IH]; intros i; simpl; [apply sp_ret; by constructor|].
  eapply (sp_bind _ _ _ (λ r s, ∀ n, r = Ok (Some (true, n)) → has_file p (files (fs s)))).
  { intros s Hs _. split; [apply (runs_attempt (R := calm)); [runs_auto|done]|].
    rewrite attempt_eq. simpl. intros r [= <-] n. unfold io, mapping_err, on_fs, focus.
    pose proof (stat_beneath_file p (fs s)) as Hf. destruct (stat_beneath p (fs s)) as [f' [[[[] m]|]|e]]; simpl in *;
      intros [= ]. by apply (Hf m). }
  intros [[[[] n]|]|e]; try (by apply sp_ret; intros; simplify_eq).
  intros s Hs Hp. specialize (Hp n eq_refl). destruct (IH (S i) s Hs I) as [I1 I2]. split; [done|].
  intros r Hr ->. constructor; [|by apply (I2 _ Hr)]. destruct (recheck_still (S i) rels s) as (_ & -> & _). done.
Qed.

Lemma land_manifest_spec rel repo d dir leaf data required :
  digest_wf d → blob_dir_rel repo d = Ok (dir, leaf) → digest_of data (algorithm d) = d →
  sp store_inv any (land_manifest rel repo dir leaf (Digest_fmt d) data required)
    (λ l s, match l with
            | MStored missing error => has_file (dir ++ [leaf]) (files (fs s)) ∧
                (missing = None → error = None → Forall (λ p, has_file p (files (fs s))) required)
            | _ => True end).
Proof.
  intros Hd Hdir Hdata. unfold land_manifest.
  apply sp_then; [runs_auto|]. intros [charged|e]; [|by apply sp_ret].
  eapply sp_bind; [by apply dedupe_link_at_spec|intros linked].
  eapply (sp_bind _ _ _ (λ r s, ∀ u, r = Ok u → has_file (dir ++ [leaf]) (files (fs s)))).
  { destruct linked; [apply sp_ret; naive_solver|]. apply sp_attempt. by eapply publish_spec. }
  intros [u|e]; [|by apply sp_ret].
  eapply (sp_bind _ _ _ (λ r s, has_file (dir ++ [leaf]) (files (fs s)) ∧
    (r = (None, None) → Forall (λ p, has_file p (files (fs s))) required))).
  - intros s Hs Hu. specialize (Hu u eq_refl). destruct (recheck_spec 0 required s Hs I) as [I1 I2]. split; [done|].
    intros r Hr. split; [|by apply I2]. by destruct (recheck_still 0 required s) as (_ & -> & _).
  - intros [missing error]. apply sp_ret. intros s _ [Hf Hr]. split; [done|]. intros -> ->. by apply Hr.
Qed.

Lemma cache_put_still repo d data :
  digest_wf d → digest_of data (algorithm d) = d → runs still (cache_put repo (Digest_fmt d) data).
Proof. intros Hd Hdata s. split_and!; [|done..]. intros Hs. by apply cache_put_ok. Qed.

(** The blobs [ds] that are digests at all are stored. *)
Definition all_stored (repo : string) (ds : list Digest) (t : tree) : Prop :=
  ∀ d, d ∈ ds → digest_wf d → stored repo d t.

Lemma collect_rels_stored repo ds rels s :
  collect_rels repo ds = Ok rels → store_inv s → Forall (λ p, has_file p (files (fs s))) rels →
  all_stored repo ds (files (fs s)).
Proof.
  revert rels. induction ds as [|d ds IH]; intros rels; simpl; [by intros _ _ _ d ?%elem_of_nil|].
  intros Hc Hs Hf. case_res. apply Forall_cons_1 in Hf as [Hp Hf]. intros d' [->|Hd']%elem_of_cons Hwf.
  - unfold blob_rel in *. case_res. match goal with H : blob_dir_rel _ _ = Ok ?y |- _ => destruct y end. simplify_eq/=. by eapply has_file_stored.
  - by eapply IH.
Qed.

Lemma put_manifest_sp repo tag d media_type data links :
  digest_wf d →
  sp store_inv any (put_manifest repo tag d media_type data links)
    (λ _ s, stored repo d (files (fs s)) ∧ all_stored repo (required links) (files (fs s))).
Proof.
  intros Hd. unfold put_manifest. apply sp_then; [destruct tag; runs_auto|intros _].
  apply sp_let. intros referrer _. eapply sp_known; [apply verify_digest_spec|]. intros ? Hdata.
  apply sp_let. intros [dir leaf] Hdir. apply sp_let. intros rels Hrels. apply sp_let. intros rel _.
  eapply sp_bind; [by apply land_manifest_spec|].
  intros [e|charged e|missing error]; [apply sp_throw|apply sp_then; [runs_auto|intros; apply sp_throw]|].
  eapply (sp_bind _ _ _ (λ _ s, stored repo d (files (fs s)) ∧
    (missing = None → error = None → all_stored repo (required links) (files (fs s))))).
  { eapply sp_weaken; [apply (sp_still (λ t _, has_file (dir ++ [leaf]) t ∧
      (missing = None → error = None → Forall (λ p, has_file p t) rels))), blob_entered_still|done|].
    intros ? s Hs [Hf Hr]. split; [by eapply has_file_stored|]. intros. eapply collect_rels_stored; eauto. }
  intros ?. eapply sp_bind; [apply (sp_still (λ t _, stored repo d t ∧
    (missing = None → error = None → all_stored repo (required links) t))); by apply cache_put_still|intros ?].
  destruct error; [apply sp_throw|]. destruct missing; [apply sp_throw|].
  eapply sp_weaken; [apply (sp_still (λ t _, stored repo d t ∧ all_stored repo (required links) t))|naive_solver|done].
  runs_auto. by apply still_aside.
Qed.

Lemma get_manifest_spec repo reference :
  sp store_inv any (get_manifest repo reference)
    (λ r _, digest_wf (mr_digest r) ∧ digest_of (mr_bytes r) (algorithm (mr_digest r)) = mr_digest r ∧
       (contains_char ":" reference = true → Digest_parse reference = Ok (mr_digest r))).
Proof.
  unfold get_manifest.
  eapply (sp_known _ (λ r, digest_wf r.1 ∧ (contains_char ":" reference = true → Digest_parse reference = Ok r.1))).
  - case_match.
    + apply sp_let. intros d Hd. pose proof (Digest_parse_wf _ _ Hd). apply sp_then; [runs_auto|].
      intros [mt|]; [by apply sp_ret|]. apply sp_then; [runs_auto|intros mt]. by apply sp_ret.
    + apply sp_then; [runs_auto|]. intros [[ds mt]|].
      * apply sp_let. intros d Hd%Digest_parse_wf. by apply sp_ret.
      * eapply sp_weaken; [apply index_resolve_tag_spec|done|done].
  - intros [d mt] [Hd Hr]. eapply sp_known; [by apply manifest_bytes_spec|]. intros b Hb. by apply sp_ret.
Qed.

Lemma sweep_marks_still refs repo :
  aside (λ s, foldl (λ s r,
    if bool_decide (get_backrefs (mview (meta s)) repo r = []) && maybe_present (presence s) repo r
    then set_gc (mark (gc s) repo r (now s)) s else s) s refs).
Proof.
  induction refs as [|r refs IH]; intros s; simpl; [done|].
  case_match; [|by apply IH]. by destruct (IH (set_gc (mark (gc s) repo r (now s)) s)) as (-> & -> & ->).
Qed.

Lemma delete_manifest_sp repo d : digest_wf d → sp store_inv any (delete_manifest repo d) (λ _ _, True).
Proof.
  intros Hd. unfold delete_manifest. apply sp_let. intros [dir leaf] Hdir.
  eapply sp_known; [by apply manifest_bytes_spec|]. intros b _. apply sp_then.
  { apply calm_io_nf, unlink_beneath_keeps. eapply blob_not_staging. by eapply blob_dir_rel_at. }
  intros _. apply sp_calm. runs_auto. apply still_calm, still_aside, sweep_marks_still.
Qed.

(** *** Listings *)

Lemma list_tags_calm repo last limit : runs calm (list_tags repo last limit).
Proof. unfold list_tags. runs_auto. Qed.

Lemma list_tags_spec repo last limit : sp store_inv any (list_tags repo last limit) (λ p _, within limit p).
Proof.
  unfold list_tags. eapply (sp_known _ (λ o, ∀ p, o = Some p → within limit p)).
  { eapply sp_weaken; [apply sp_gets|done|]. intros o s _ [_ ->] p. apply tags_page_within. }
  intros [p|] Hp; [apply sp_ret; by auto|]. apply sp_then; [runs_auto|intros index]. apply sp_ret.
  intros _ _ _. apply take_page_within.
Qed.

Lemma list_referrers_spec repo subject at_ last limit :
  sp store_inv any (list_referrers repo subject at_ last limit) (λ p _, within limit p).
Proof.
  assert (He : within (A := string * bytes) limit empty_page) by (unfold within; simpl; lia).
  unfold list_referrers. eapply (sp_known _ (λ o, ∀ p, o = Some p → within limit p)).
  { eapply sp_weaken; [apply sp_gets|done|]. intros o s _ [_ ->] p. apply referrers_page_within. }
  intros [page|] Hpage; [apply sp_ret; by auto|].
  apply sp_then; [runs_auto|intros index]. case_match; [apply sp_ret; intros; apply page_layout_within|].
  apply sp_then; [runs_auto|intros known].
  eapply (sp_known _ (λ r, ∀ d, r = Some d → digest_wf d)).
  - destruct known as [[ds mt]|].
    + apply sp_ret. intros _ _ _ d Hd. destruct (Digest_parse ds) eqn:E; simplify_eq/=. by eapply Digest_parse_wf.
    + eapply sp_bind; [apply sp_attempt, index_resolve_tag_spec|]. intros [[d mt]|e]; [|by apply sp_ret].
      apply sp_ret. intros s _ Hr d' [= <-]. by apply (Hr (d, mt)).
  - intros [d|] Hd; [|by apply sp_ret]. eapply sp_bind; [apply sp_attempt, read_blob_spec, Hd; done|].
    intros [b|e]; [|by apply sp_ret]. case_match; apply sp_ret; intros; [apply page_layout_within|done].
Qed.

(** *** The sweep and the end of sessions *)

Definition pres (s s' : Store) : Prop := store_inv s → store_inv s'.

#[export] Instance pres_preorder : PreOrder pres.
Proof. split; [by intros s Hs|]. intros s1 s2 s3 I1 I2 Hs. auto. Qed.

Lemma calm_pres {E A : Type} (m : M Store E A) : runs calm m → runs pres m.
Proof. intros Hm s Hs. by apply Hm. Qed.
Lemma sp_pres {E A : Type} (m : M Store E A) Q : sp store_inv any m Q → runs pres m.
Proof. intros Hm s Hs. by apply Hm. Qed.
Lemma pres_sp {E A : Type} P (m : M Store E A) : runs pres m → sp store_inv P m (λ _ _, True).
Proof. intros Hm s Hs _. split; [by apply Hm|done]. Qed.
Hint Resolve calm_pres : runs.

(** Files only disappear. *)
Definition shrinks (f f' : Fs) : Prop := ∀ p n, files f' !! p = Some n → files f !! p = Some n.

#[export] Instance shrinks_preorder : PreOrder shrinks.
Proof. split; [by intros f p n|]. intros f1 f2 f3 I1 I2 p n Hp. auto. Qed.

Lemma unlink_beneath_shrinks dir leaf : runs shrinks (unlink_beneath dir leaf).
Proof.
  unfold unlink_beneath. apply runs_bind; [intros f p n; by rewrite (dir_beneath_same dir f)|intros _].
  apply runs_mapping_err. intros f p n. destruct (decide (p = dir ++ [leaf])) as [->|Hne].
  - intros Hp. destruct (unlinkat_gone (dir ++ [leaf]) f) as [E|E]; congruence.
  - by rewrite unlinkat_other.
Qed.

(** Removing files keeps the invariant. *)
Lemma shrink_pres {E A : Type} (m : M Fs E A) : runs shrinks m → runs pres (on_fs m).
Proof.
  intros Hm s [I1 I2 I3 I4]. rewrite on_fs_state. pose proof (Hm (fs s)) as Hs.
  split; simpl; [|done..|].
  - intros p i b Hp. by eapply I1, Hs.
  - intros repo id h J1 J2. destruct (I4 repo id h J1 J2) as [J3 J4]. split; [done|].
    intros p i c J5 J6. by apply (J4 p i c J5), Hs.
Qed.

Lemma unlink_pres dir leaf : runs pres (on_fs (unlink_beneath dir leaf)).
Proof. apply shrink_pres, unlink_beneath_shrinks. Qed.

Lemma hashes_subseteq_pres {E A : Type} (f : Store → Store * A) :
  (∀ s, fs (f s).1 = fs s ∧ cache (f s).1 = cache s ∧
    ∀ k h, session_hash (f s).1 !! k = Some (Some h) → session_hash s !! k = Some (Some h)) →
  runs pres (state f : M Store E A).
Proof.
  intros Hf. apply runs_state. intros s [I1 I2 I3 I4]. destruct (Hf s) as (J1 & J2 & J3).
  split; rewrite ?J1, ?J2; try done. intros repo id h K1 K2. by apply I4; [|apply J3].
Qed.

Lemma modify_state {E : Type} (f : Store → Store) : (modify f : M Store E ()) = state (λ s, (f s, tt)).
Proof. done. Qed.

Lemma drop_lock_pres repo id : runs pres (drop_lock repo id).
Proof.
  unfold drop_lock. rewrite modify_state. apply hashes_subseteq_pres. intros s. split_and!; [done..|].
  simpl. intros k h [_ Hk]%lookup_delete_Some. done.
Qed.

Lemma session_lock_pres repo id : runs pres (session_lock repo id).
Proof.
  unfold session_lock. runs_auto. rewrite modify_state. apply hashes_subseteq_pres. intros s. simpl.
  destruct (session_hash s !! (repo, id)) eqn:E; [done|]. split_and!; [done..|].
  simpl. intros k h [[_ Hk]|[_ Hk]]%lookup_insert_Some; done.
Qed.

Lemma take_hash_pres repo id : runs pres (take_hash repo id).
Proof.
  apply hashes_subseteq_pres. intros s. split_and!; [done..|].
  simpl. intros k h [[_ Hk]|[_ Hk]]%lookup_insert_Some; done.
Qed.

Lemma take_pending_still repo id : runs still (take_pending repo id).
Proof. apply runs_state. intros s. split_and!; [|done..]. by intros []; split. Qed.
Hint Resolve unlink_pres drop_lock_pres session_lock_pres take_hash_pres take_pending_still : runs.

Lemma io_unlink_pres dir leaf : runs pres (io (unlink_beneath dir leaf)).
Proof. apply runs_mapping_err, unlink_pres. Qed.
Hint Resolve io_unlink_pres : runs.

Lemma discard_session_pres repo id : runs pres (discard_session repo id).
Proof. unfold discard_session. runs_auto. Qed.
Lemma abort_upload_pres repo id : runs pres (abort_upload repo id).
Proof. unfold abort_upload. runs_auto. Qed.
Lemma begin_upload_pres repo : runs pres (begin_upload repo).
Proof. unfold begin_upload. runs_auto. by apply calm_pres, still_calm, still_aside. Qed.
Lemma upload_size_pres repo id : runs pres (upload_size repo id).
Proof. unfold upload_size. runs_auto. Qed.

Lemma set_clear_still repo digest : runs still (set_clear repo digest).
Proof. by apply still_aside. Qed.
Hint Resolve discard_session_pres set_clear_still : runs.

Lemma sweep_one_pres now k : runs pres (sweep_one now k).
Proof. destruct k as [repo digest]. unfold sweep_one. runs_auto. Qed.
Hint Resolve sweep_one_pres : runs.
Lemma sweep_all_pres now ks : runs pres (sweep_all now ks).
Proof. induction ks; simpl; runs_auto. Qed.
Lemma expire_pending_pres ks : runs pres (expire_pending ks).
Proof. induction ks as [|[repo id] ks IH]; simpl; runs_auto. Qed.
Lemma expire_staged_pres ks : runs pres (expire_staged ks).
Proof. induction ks as [|[[repo id] old] ks IH]; simpl; runs_auto. Qed.
Hint Resolve sweep_all_pres expire_pending_pres expire_staged_pres : runs.
Lemma sweep_at_pres now stale : runs pres (sweep_at now stale).
Proof. unfold sweep_at, sweep_stale_uploads. runs_auto. Qed.
End Invariant.

#[export] Hint Resolve still_calm still_on_fs still_io calm_keeps calm_io calm_io_nf calm_pres
  want_blob_still on_quota_still quota_release_still quota_end_session_still admit_blob_calm
  blob_entered_still blob_left_still layout_and_admit_calm take_pending_still unlink_pres drop_lock_pres
  session_lock_pres take_hash_pres discard_session_pres set_clear_still : runs.
