(* ===== verification/Startup.v ===== *)
(** How a filesystem store starts: the walk that seeds the derived state
    ([with_config], [seed_from_cas] and [warm_referrers_from_layout] of
    fs_storage/mod.rs), the reconciliation of [index.json] (fs_storage/index.rs,
    layout.rs) and the consistency check of the collector (fs_storage/gc.rs). *)

From S2P Require Import StorageApi Prelude RustStr Json Errors Digest Paths Quota Metadata MetaLog.
From S2P Require Import MetaStore SmallCache Effect FileSys FileSysFacts Walk Layout Lifecycle.
From S2P Require Import UploadBody FsStorage FsInvariant.

Section Startup.
Context `{!Crypto, !World, !SerdeJson, !HashIter, !MetadataStore, !Lru, !Cuckoo}.

(** These programs swallow every error; the error type is that of the calls. *)
Abbreviation bg := (M Store errno).

Fixpoint each {A} (f : A → bg ()) (l : list A) : bg () :=
  match l with
  | [] => mret tt
  | x :: l => f x;; each f l
  end.

(** [let _ = meta.apply(op)], with a warning on failure. *)
Definition meta_record (op : MetaOp) : bg () := modify (λ s, set_meta (mapply (meta s) op).1 s).

(** ** Seeding *)

(** The visitor of [seed_from_cas]. *)
Definition seed_entry (track_bytes : bool) (e : cas_entry) : bg () :=
  let digest := Digest_fmt (ce_digest e) in
  modify (λ s, set_presence (filter_insert (presence s) (ce_repo e) digest) s);;
  modify (λ s, set_dedupe (dedupe_insert (dedupe s) (ce_repo e) digest) s);;
  if track_bytes then
    m ← attempt (on_fs (statat (ce_path e)));
    match m with
    | Ok (Reg _ c) => modify (λ s, set_quota (seed (quota s) (ce_repo e) (blen c)) s)
    | _ => mret tt
    end
  else mret tt.

(** The staging files of the repositories. *)
Fixpoint count_uploads (repos : list string) : M Fs errno Z :=
  match repos with
  | [] => mret 0%Z
  | repo :: repos =>
      ups ← attempt (readdir (split "/" repo ++ ["uploads"]));
      n ← count_uploads repos;
      mret (match ups with Ok es => Z.of_nat (length es) + n | Err _ => n end)%Z
  end.

Definition seed_from_cas : bg () :=
  track_bytes ← gets (λ s, tracks_bytes (quota s));
  entries ← on_fs for_each_cas_blob;
  each (seed_entry track_bytes) entries;;
  repos ← on_fs discover_repos;
  sessions ← on_fs (count_uploads repos);
  modify (λ s, set_quota (seed_sessions (quota s) sessions) s).

(** The parts of the configuration [with_config] reads. *)
Record FsConfig := {
  cfg_cache_max_bytes : Z;
  cfg_small_blob_threshold : Z;
  cfg_gc_enabled : bool;
  cfg_gc_delay : Z;
  cfg_dedupe : bool;
  cfg_commit : bool;
}.

(** The store before it is seeded: metadata and files as found, everything
    derived empty. *)
Definition bare_store (cfg : FsConfig) (m : mstore) (f : Fs) (q : Quota) : Store :=
  let cache := if (cfg_cache_max_bytes cfg =? 0)%Z then with_limits 0 0
               else with_limits (cfg_small_blob_threshold cfg) (cfg_cache_max_bytes cfg) in
  mkStore f m filter_new cache (gc_new (cfg_gc_enabled cfg) (cfg_gc_delay cfg)) q
    (dedupe_new (cfg_dedupe cfg)) ∅ ∅ ∅ (cfg_commit cfg).

(** [with_config] without a fast-restart stamp. *)
Definition open_walking (cfg : FsConfig) (m : mstore) (f : Fs) (q : Quota) : Store :=
  (seed_from_cas (bare_store cfg m f q)).1.

(** ** Recovery of referrers and of [index.json] *)

Definition warm_entry (repo : string) (entry : json) : bg () :=
  match subject_digest entry, descriptor_digest entry with
  | Some subject, Some referrer =>
      known ← gets (λ s, has_referrer (mview (meta s)) repo subject referrer);
      if known : bool then mret tt else meta_record (PutReferrer repo subject referrer (to_vec entry))
  | _, _ => mret tt
  end.

Definition warm_referrers_from_layout : bg () :=
  repos ← on_fs discover_repos;
  each (λ repo,
    index ← attempt (on_fs (read_index_beneath repo));
    match index with
    | Ok (Some index) => each (warm_entry repo) (index_manifests index)
    | _ => mret tt
    end) repos.

Definition ends_with (s tail : string) : bool :=
  bool_decide (suffix (as_bytes tail) (as_bytes s)).

Definition is_index_tmp (name : string) : bool :=
  starts_with (lossy name) ".index.json." && ends_with (lossy name) ".tmp".

Fixpoint remove_orphans (dir : path) (es : list (string * node)) : M Fs errno () :=
  match es with
  | [] => mret tt
  | (name, _) :: es =>
      (if is_index_tmp name then
         m ← attempt (statat (dir ++ [name]));
         match m with
         | Ok (Reg _ _) => _ ← attempt (E' := errno) (unlinkat (dir ++ [name])); mret tt
         | _ => mret tt
         end
       else mret tt);;
      remove_orphans dir es
  end.

Definition sweep_index_tmp_orphans (repo : string) : M Fs errno () :=
  match repo_rel repo with
  | Err _ => mret tt
  | Ok rel =>
      es ← attempt (readdir rel);
      match es with Ok es => remove_orphans rel es | Err _ => mret tt end
  end.

(** The size the rebuilt index records for a blob file. *)
Definition blob_file_size (f : Fs) (repo d : string) : option Z :=
  '(alg, hx) ← split_once ":" d;
  node_size <$> node_at f (split "/" repo ++ ["blobs"; alg; hx]).

Definition mark_dirty (repo : string) : bg () := _ ← attempt (E' := errno) (mark_index_dirty repo); mret tt.

Definition reconcile_one (repo : string) : bg () :=
  on_fs (sweep_index_tmp_orphans repo);;
  existing ← attempt (on_fs (read_index_beneath repo));
  match existing with
  | Ok (Some existing) =>
      modify (λ s, set_meta (import_foreign_tags (meta s) repo existing) s);;
      rebuilt ← gets (λ s, index_from_meta (mview (meta s)) repo (Some existing) (blob_file_size (fs s) repo));
      if same_manifest_set existing rebuilt then mret tt else mark_dirty repo
  | _ => mret tt
  end.

Definition reconcile_known (repo : string) : bg () :=
  on_fs (sweep_index_tmp_orphans repo);;
  existing ← attempt (on_fs (read_index_beneath repo));
  match existing with
  | Ok (Some _) => mret tt
  | _ => mark_dirty repo
  end.

Definition reconcile_index_json : bg () :=
  repos ← on_fs discover_repos;
  each reconcile_one repos;;
  known ← gets (λ s, Metadata.repos (mview (meta s)));
  each reconcile_known known;;
  _ ← attempt (E' := errno) flush_dirty;
  mret tt.

(** [StorageBackend::recover] *)
Definition recover : bg () := warm_referrers_from_layout;; reconcile_index_json.

(** ** The collector's consistency check *)

Definition read_cas_blob_bounded (rel : path) (max_bytes : Z) : M Fs io_error (option bytes) :=
  r ← attempt (open_beneath rel);
  match r with
  | Err e => if decide (io_kind e = KNotFound) then mret None else throw e
  | Ok f =>
      io_err (syscall (mret tt));;
      if (max_bytes <? blen f.2)%Z then
        throw (IoError KInvalidData ("root manifest " +:+ u64_to_string (blen f.2) +:+ " bytes exceeds "
                                     +:+ u64_to_string max_bytes +:+ " cap"))
      else b ← read_to_end f; mret (Some b)
  end.

(** What reading the manifest [d] of [repo] returns in the files of [s]. *)
Definition read_manifest_of (s : Store) (repo : string) (d : Digest) : result io_error (option bytes) :=
  match blob_dir_rel repo d with
  | Ok (dir, leaf) => (read_cas_blob_bounded (dir ++ [leaf]) MAX_ROOT_MANIFEST_BYTES (fs s)).2
  | Err _ => Ok None
  end.

(** [HashSet]: the digests of the metadata and of the layout, each once. *)
Definition root_digests (m : mstore) (repo : string) (index : option json) : list string :=
  remove_dups (Metadata.manifests (mview m) repo ++
               match index with Some v => omap descriptor_digest (index_manifests v) | None => [] end).

(** [gc_rebuild_repo]; [fuel] bounds the walk over the manifests. *)
Definition gc_rebuild_repo (fuel : nat) (repo : string) : bg () :=
  index ← attempt (on_fs (read_index_beneath repo));
  match index with
  | Err _ => modify (λ s, set_gc (mark_unsafe (gc s) repo) s)
  | Ok index =>
      modify (λ s,
        match rebuild_backrefs fuel repo (meta s) (gc s) (root_digests (meta s) repo index) (read_manifest_of s repo) with
        | Some (m, g) => set_gc g (set_meta m s)
        | None => s
        end)
  end.

(** The visitor of [gc_consistency_check]. *)
Definition seed_candidate (at_ : Z) (e : cas_entry) : bg () := modify (λ s,
  let ds := Digest_fmt (ce_digest e) in
  if bool_decide (is_Some (manifest_media_type (mview (meta s)) (ce_repo e) ds)) || is_root (gc s) (ce_repo e) ds then s
  else if bool_decide (get_backrefs (mview (meta s)) (ce_repo e) ds = [])
  then set_gc (mark_at (gc s) (ce_repo e) ds at_) s
  else s).

Definition gc_consistency_check (fuel : nat) : bg () :=
  layout ← on_fs discover_repos;
  known ← gets (λ s, Metadata.repos (mview (meta s)));
  each (gc_rebuild_repo fuel) (layout ++ filter (λ r, r ∉ layout) known);;
  at_ ← gets now;
  entries ← on_fs for_each_cas_blob;
  each (seed_candidate at_) entries.

(** [start_gc] before the periodic sweep. *)
Definition start_gc (fuel : nat) : bg () :=
  ready ← gets (λ s, is_ready (gc s));
  if ready : bool then mret tt
  else gc_consistency_check fuel;; modify (λ s, set_gc (set_ready (gc s)) s).
End Startup.
