(* ===== verification/FsSessions.v ===== *)
(** Upload sessions keep the integrity of the store: appending to a session
    and finishing it, and the theorems over whole runs of operations. *)

From S2P Require Import Triple.
From S2P Require Import StorageApi Prelude RustStr Json Errors Digest Paths Quota Metadata MetaLog.
From S2P Require Import MetaStore SmallCache Effect FileSys FileSysFacts Layout Lifecycle.
From S2P Require Import UploadBody FsStorage FsInvariant.

Section Sessions.
Context `{!Crypto, !CryptoLaws, !World, !SerdeJson, !HashIter, !MetadataStore, !Lru, !LruLaws, !Cuckoo}.

(** ** The staging file of a session *)

(** The session has no running hash: an operation that holds the session's
    lock has taken it. *)
Definition taken (repo id : string) (s : Store) : Prop := default None (session_hash s !! (repo, id)) = None.

Definition owns (repo id : string) (q : path) (i : Z) (c : bytes) (s : Store) : Prop :=
  taken repo id s ∧ files (fs s) !! q = Some (Reg i c).

Lemma upload_staging repo id q : upload_id id → upload_rel repo id = Ok q → staging q.
Proof. intros I1 I2. by exists repo, id. Qed.

Lemma but_inv repo id q f' s :
  upload_rel repo id = Ok q → taken repo id s → keeps_but q (fs s) f' → store_inv s → store_inv (set_fs f' s).
Proof.
  intros Hq Ht [Hk1 Hk2] [I1 I2 I3 I4]. split; simpl; [by apply Hk1|done..|].
  intros repo' id' h J1 J2. destruct (I4 repo' id' h J1 J2) as [J3 J4]. split; [done|].
  intros p i c J5 J6. destruct (decide (p = q)) as [->|Hne].
  - destruct (upload_rel_inj _ _ _ _ _ J5 Hq) as [-> ->]. unfold taken in Ht. by rewrite J2 in Ht.
  - apply (J4 p i c J5). destruct (Hk2 p) as [E|[_ E]]; [by exists repo', id'|done|congruence..].
Qed.

(** A file system program that writes the staging file of a taken session. *)
Lemma sp_but {E A : Type} repo id q (P : Fs → Prop) (m : M Fs E A) (Q : A → Fs → Prop) :
  upload_rel repo id = Ok q → runs (keeps_but q) m →
  (∀ f f' a, P f → m f = (f', Ok a) → Q a f') →
  sp store_inv (λ s, taken repo id s ∧ P (fs s)) (on_fs m) (λ a s, taken repo id s ∧ Q a (fs s)).
Proof.
  intros Hq Hm HQ s Hs [Ht HP]. rewrite on_fs_state. split; [by eapply but_inv|].
  intros a Ha. split; [done|]. simpl. unfold on_fs, focus in Ha.
  destruct (m (fs s)) as [f' r] eqn:E0. simpl in *. subst r. by eapply HQ.
Qed.

(** *** Preparing a session *)

(** The staging file is as it was, or new and empty. *)
Definition fresh (q : path) (f f' : Fs) : Prop :=
  keeps_but q f f' ∧ ∀ i c, files f' !! q = Some (Reg i c) → files f !! q = Some (Reg i c) ∨ c = [].

#[export] Instance fresh_preorder q : PreOrder (fresh q).
Proof.
  split; [intros f; split; [done|by left]|]. intros f1 f2 f3 [I1 I2] [J1 J2]. split; [by etrans|].
  intros i c Hc. destruct (J2 i c Hc) as [Hc2| ->]; [|by right]. auto.
Qed.

Lemma keeps_fresh {E A : Type} q (m : M Fs E A) : staging q → runs keeps m → runs (fresh q) m.
Proof.
  intros Hq Hm f. split; [apply keeps_keeps_but, Hm|]. intros i c Hc. left. eapply keeps_staging; [done|apply Hm|done].
Qed.

Lemma create_fresh q : staging q → runs (fresh q) (io_err (create_excl q)).
Proof.
  intros Hq f. unfold io_err, mapping_err. pose proof (create_excl_spec q f) as Hs.
  destruct (create_excl q f) as [f' [i|e]]; simpl.
  - destruct Hs as [_ E]. split; [by eapply keeps_but_insert|]. rewrite E. intros i' c.
    rewrite lookup_insert_eq. intros [= _ <-]. by right.
  - split; [by apply keeps_keeps_but, same_keeps|]. rewrite Hs. by left.
Qed.

Lemma fresh_inv repo id q s f' :
  upload_rel repo id = Ok q → fresh q (fs s) f' → store_inv s → store_inv (set_fs f' s).
Proof.
  intros Hq [[Hk1 Hk2] Hf] [I1 I2 I3 I4]. split; simpl; [by apply Hk1|done..|].
  intros repo' id' h J1 J2. destruct (I4 repo' id' h J1 J2) as [J3 J4]. split; [done|].
  intros p i c J5 J6. destruct (decide (p = q)) as [->|Hne].
  - destruct (Hf i c J6) as [Hc| ->]; [by apply (J4 q i c J5)|]. intros Hl.
    destruct J3 as (_ & _ & J3). rewrite J3 in Hl. destruct (sha h); [done|]. unfold blen in Hl. simpl in Hl. lia.
  - apply (J4 p i c J5). destruct (Hk2 p) as [E|[_ E]]; [by exists repo', id'|done|congruence..].
Qed.

Lemma prepare_staging_fresh q create : staging q → runs (fresh q) (prepare_staging q create).
Proof.
  intros Hq. unfold prepare_staging. destruct create.
  - apply runs_bind; [by apply keeps_fresh, dir_beneath_keeps|intros _].
    apply runs_bind; [by apply create_fresh|intros i]. apply keeps_fresh; [done|]. runs_auto.
  - apply keeps_fresh; [done|]. runs_auto.
Qed.

(** The descriptor [prepare_staging] opens is the staging file. *)
Definition ready (q : path) (r : Staging) (f : Fs) : Prop :=
  match r with Ready n i => ∃ c, files f !! q = Some (Reg i c) ∧ n = blen c | _ => True end.

Lemma prepare_staging_ready q create f f' r :
  q ≠ [] → prepare_staging q create f = (f', Ok r) → ready q r f'.
Proof.
  intros Hq0. unfold prepare_staging. destruct create; intros E.
  - apply bind_Ok in E as (f1 & [] & _ & E). apply bind_Ok in E as (f2 & i & E2 & E).
    apply bind_Ok in E as (f3 & [] & E3 & [= <- <-]). exists []. split; [|done].
    apply mapping_err_Ok in E2. pose proof (create_excl_spec q f1) as Hs. rewrite E2 in Hs. destruct Hs as [_ Hf2].
    pose proof (io_err_same _ (syscall_same _ (runs_ret (R := same_files) tt)) f2) as Hs. rewrite E3 in Hs.
    simpl in Hs. rewrite Hs, Hf2. by rewrite lookup_insert_eq.
  - apply bind_Ok in E as (f1 & [[[] n]|] & _ & E); [|by injection E as <- <-..].
    apply bind_Ok in E as (f2 & [i c] & E2 & E). apply bind_Ok in E as (f3 & [] & E3 & [= <- <-]).
    exists c. split; [|done].
    destruct (resolve_beneath_spec (λ _, True) q true Hq0 f1 I) as [_ Hr]. rewrite E2 in Hr. destruct Hr as [_ Hr].
    pose proof (io_err_same _ (syscall_same _ (runs_ret (R := same_files) tt)) f2) as Hs. rewrite E3 in Hs.
    simpl in Hs. by rewrite Hs.
Qed.

Lemma prepare_session_spec P repo id q :
  upload_id id → upload_rel repo id = Ok q →
  sp store_inv P (prepare_session repo id) (λ r s, ready q r (fs s)).
Proof.
  intros Hid Hq. apply sp_any. unfold prepare_session. rewrite Hq.
  apply sp_let. intros q' [= <-]. eapply sp_bind; [apply sp_gets|intros create].
  eapply (sp_bind _ _ _ (λ r s, ready q r (fs s))).
  { apply sp_mapping_err. intros s Hs _. rewrite on_fs_state. split.
    - eapply fresh_inv; [done|apply prepare_staging_fresh; by eapply upload_staging|done].
    - intros r Hr. simpl. unfold on_fs, focus in Hr. destruct (prepare_staging q create (fs s)) as [f' r'] eqn:E.
      simpl in *. subst r'. eapply prepare_staging_ready; [|done].
      apply upload_rel_ok in Hq as (x & _ & _ & ->). by destruct x. }
  intros r. eapply (sp_bind _ _ _ (λ _ s, ready q r (fs s))); [|intros _; apply sp_ret; intros s _ Hs; exact Hs].
  assert (Hst : ∀ f f', same_files f f' → ready q r f → ready q r f').
  { intros f f' E Hr. destruct r; try done. simpl. by rewrite E. }
  destruct create; [|by apply sp_ret]. intros s Hs Hr. split; [|done].
  by eapply (sp_calm any (take_pending repo id)); [eauto with runs| |].
Qed.

(** [guard.take()]: what the taken hash says about the staging file. *)
Definition seeds (c : bytes) (h : option StagedHash) : Prop :=
  ∀ h', h = Some h' → hlen h' = blen c → hashed c h'.

Lemma take_hash_spec repo id q i c :
  upload_id id → upload_rel repo id = Ok q →
  sp store_inv (λ s, files (fs s) !! q = Some (Reg i c)) (take_hash repo id) (λ h s, owns repo id q i c s ∧ seeds c h).
Proof.
  intros Hid Hq s Hs Hf. split; [by apply take_hash_pres|]. intros h [= <-]. split; [split|]; [|exact Hf|].
  - unfold taken. simpl. by rewrite lookup_insert_eq.
  - intros h Hh Hl. destruct (session_hash s !! (repo, id)) as [[h'|]|] eqn:E; simplify_eq/=.
    destruct (inv_hashes s Hs repo id h Hid E) as [I1 I2]. by rewrite <-(I2 q i c Hq Hf Hl).
Qed.

Lemma seeds_new c h :
  seeds c h → seeds c (match h with Some h => Some h | None => if (blen c =? 0)%Z then Some StagedHash_new else None end).
Proof.
  intros Hh h' E Hl. destruct h; [by apply Hh|]. case_match eqn:Ec; simplify_eq. bool_simp.
  destruct c; [apply hashed_new|unfold blen in Ec; simpl in Ec; lia].
Qed.

Lemma set_hash_spec repo id q i c h :
  upload_rel repo id = Ok q → covers c h →
  sp store_inv (owns repo id q i c) (set_hash repo id h) (λ _ s, files (fs s) !! q = Some (Reg i c)).
Proof.
  intros Hq Hh. apply sp_modify. intros s [I1 I2 I3 I4] [_ Hf]. split; [|done].
  split; simpl; try done. intros repo' id' h' J1 J2.
  apply lookup_insert_Some in J2 as [[[= <- <-] ->]|[_ J2]]; [|by apply I4].
  destruct (Hh h' eq_refl) as (E1 & E2 & E3). split; [by split_and!; rewrite ?E1|].
  intros p i' c' J3 J4 _. assert (p = q) as -> by congruence. congruence.
Qed.

(** ** Appending *)

Lemma append_body_sp repo id q i c body limit seed :
  upload_id id → upload_rel repo id = Ok q → seeds c seed →
  sp store_inv (owns repo id q i c) (on_fs (append_body q (blen c) body limit seed))
    (λ r s, ∃ all, owns repo id q i (c ++ all) s ∧
       (covers (c ++ all) r.2 ∧ delivered body = Some all ∧ r.1 = blen (c ++ all))).
Proof.
  intros Hid Hq Hseed. eapply sp_weaken.
  - apply (sp_but repo id q (λ f, files f !! q = Some (Reg i c)) _
      (λ r f, ∃ all, files f !! q = Some (Reg i (c ++ all)) ∧
         (covers (c ++ all) r.2 ∧ delivered body = Some all ∧ r.1 = blen (c ++ all)))); [done| |].
    + unfold append_body. apply runs_bind; [by eapply append_inner_but, upload_staging|intros d]. runs_auto.
    + intros f f' [n h] Hf E. apply (append_body_ok q i c) in E as (all & D & Hw & -> & Hc & _); [|done..]. by exists all.
  - done.
  - intros r s _ [Ht (all & Hf & Hc)]. by exists all.
Qed.

(** The session holds [n] bytes: none while it has no staging file yet. *)
Definition fs_upload (s : Store) (repo id : string) (n : Z) : Prop :=
  (is_pending repo id s = true ∧ n = 0%Z) ∨
  ∃ q i c, upload_rel repo id = Ok q ∧ files (fs s) !! q = Some (Reg i c) ∧ n = blen c.

Lemma append_upload_spec repo id body off limit :
  upload_id id → sp store_inv any (append_upload repo id body off limit)
    (λ n s, fs_upload s repo id n ∧ ∃ b, delivered body = Some b ∧ (blen b ≤ n)%Z ∧ ∀ o, off = Some o → n = (o + blen b)%Z).
Proof.
  intros Hid. unfold append_upload. destruct (upload_rel repo id) as [q|e] eqn:Hq.
  2:{ eapply sp_bind; [apply pres_sp; eauto with runs|intros ?]. unfold prepare_session. rewrite Hq.
      intros s Hs _. split; [done|]. by intros ? [=]. }
  eapply sp_bind; [apply pres_sp; eauto with runs|intros ?].
  eapply sp_bind; [by apply prepare_session_spec|]. intros [| |current i].
  - eapply sp_bind; [apply pres_sp; eauto with runs|intros; apply sp_throw].
  - apply sp_throw.
  - eapply (sp_bind _ _ _ (λ _ s, ready q (Ready current i) (fs s) ∧ ∀ o, off = Some o → o = current)).
    { destruct off as [o|]; [case_match eqn:Eo|]; try apply sp_throw; apply sp_ret; intros s _ Hs; (split; [exact Hs|]); [|done].
      intros o' [= <-]. by bool_simp. }
    intros ?. apply sp_pure. intros Ho. apply sp_ex. intros c. apply sp_pure. intros ->.
    eapply sp_bind; [by apply take_hash_spec|]. intros h. apply sp_pure. intros Hh%seeds_new.
    apply sp_let. intros q' [= <-]. set (seed := match h with Some _ => _ | None => _ end) in *.
    eapply sp_bind; [by apply (append_body_sp repo id q i c)|]. intros [total h'].
    apply sp_ex. intros all. apply sp_pure. cbn [fst snd]. intros (Hc' & D & ->).
    eapply sp_bind; [by eapply set_hash_spec|intros ?]. apply sp_ret. intros s _ Hf. simpl. split.
    + right. by exists q, i, (c ++ all).
    + exists all. rewrite blen_app. pose proof (blen_nonneg c). split_and!; [done|lia|]. intros o E. rewrite (Ho o E). lia.
Qed.

Lemma SafeComponent_range x e : SafeComponent x = Err e → not_range e.
Proof. unfold SafeComponent. case_match; by intros [= <-]. Qed.
Lemma repo_rel_range repo e : repo_rel repo = Err e → not_range e.
Proof.
  unfold repo_rel. induction (split "/" repo) as [|c cs IH]; simpl; [done|].
  destruct (SafeComponent c) eqn:Ec; simpl; [|intros [= <-]; by eapply SafeComponent_range].
  destruct (collect_components cs); [done|]. intros [= <-]. by apply IH.
Qed.
Lemma upload_rel_range repo id e : upload_rel repo id = Err e → not_range e.
Proof.
  unfold upload_rel, upload_dir_rel. destruct (repo_rel repo) eqn:Er; simpl; [|intros [= <-]; by eapply repo_rel_range].
  destruct (SafeComponent id) eqn:Ei; simpl; [done|]. intros [= <-]. by eapply SafeComponent_range.
Qed.
Lemma map_not_found_not_range e : not_range (map_not_found e).
Proof. unfold map_not_found. by case_match. Qed.
Lemma session_lock_range repo id : fails not_range (session_lock repo id).
Proof. unfold session_lock. fails_auto. by eapply SafeComponent_range. Qed.
Lemma prepare_session_range repo id : fails not_range (prepare_session repo id).
Proof.
  unfold prepare_session, take_pending, io_nf. fails_auto; [by eapply upload_rel_range|apply map_not_found_not_range].
Qed.

(** A chunk is refused for its offset only when the session is elsewhere. *)
Lemma append_upload_refused repo id body off limit s s' expected given :
  upload_id id → store_inv s → append_upload repo id body off limit s = (s', Err (RangeNotSatisfiable expected given)) →
  fs_upload s' repo id expected ∧ off = Some given ∧ given ≠ expected.
Proof.
  intros Hid Hs E. unfold append_upload in E.
  apply bind_Err in E as [E|(s1 & [] & E1 & E)].
  { pose proof (session_lock_range repo id s (RangeNotSatisfiable expected given)) as Hf. rewrite E in Hf. by destruct Hf. }
  assert (Hs1 : store_inv s1) by (pose proof (session_lock_pres repo id s Hs) as Hp; by rewrite E1 in Hp).
  destruct (upload_rel repo id) as [q|e] eqn:Hq.
  2:{ apply bind_Err in E as [E|(s2 & x & E2 & _)]; [|unfold prepare_session in E2; rewrite Hq in E2; done].
      unfold prepare_session in E. rewrite Hq in E. injection E as _ ->. by apply upload_rel_range in Hq. }
  destruct (prepare_session_spec any repo id q Hid Hq s1 Hs1 I) as [_ Hready].
  apply bind_Err in E as [E|(s2 & x & E2 & E)].
  { pose proof (prepare_session_range repo id s1 (RangeNotSatisfiable expected given)) as Hf. rewrite E in Hf. by destruct Hf. }
  rewrite E2 in Hready. specialize (Hready x eq_refl). destruct x as [| |current i].
  - apply bind_Err in E as [E|(? & ? & _ & E)]; done.
  - done.
  - destruct Hready as (c & Hf & ->). apply bind_Err in E as [E|(s3 & [] & _ & E)].
    + destruct off as [o|]; [|done]. destruct (o =? blen c)%Z eqn:Eo; [done|]. bool_simp. injection E as <- <- <-.
      split_and!; [right; by exists q, i, c|done|done].
    + apply bind_Err in E as [E|(s4 & h & _ & E)]; [done|].
      apply bind_Err in E as [E|(s5 & q' & E5 & E)]; [done|]. apply bind_Err in E as [E|(s6 & [t h'] & _ & E)].
      * match type of E with on_fs ?m _ = _ => pose proof (fails_focus (φ := not_range) fs set_fs m (append_body_range _ _ _ _ _) s5
          (RangeNotSatisfiable expected given)) as Hf' end. unfold on_fs in E. rewrite E in Hf'. by destruct Hf'.
      * apply bind_Err in E as [E|(? & ? & _ & E)]; done.
Qed.

(** ** Finishing *)

Lemma calm_owns {E A : Type} repo id q i c (m : M Store E A) :
  staging q → runs calm m → sp store_inv (owns repo id q i c) m (λ _, owns repo id q i c).
Proof.
  intros Hq Hm s Hs [Ht Hf]. destruct (Hm s Hs) as (I1 & I2 & [_ I3]). split; [done|]. intros a _. split.
  - unfold taken. by rewrite I2.
  - destruct (I3 q Hq) as [E1|[E1 _]]; congruence.
Qed.

Lemma hash_std_one b alg d x : hash_std [Ok b] alg = Ok (d, x) → d = digest_of b alg.
Proof.
  unfold hash_std. simpl. rewrite finalize_digest_of. case_bool_decide as Hb.
  - intros [= <- _]. subst b. rewrite ?finalize_digest_of. unfold digest_of. by repeat case_decide.
  - rewrite finalize_digest_of. intros [= <- _]. unfold digest_of. by repeat case_decide.
Qed.

Lemma deferring_sp repo id q i c body limit seed :
  upload_id id → upload_rel repo id = Ok q → seeds c seed →
  sp store_inv (owns repo id q i c) (on_fs (append_body_deferring_tail q (blen c) body limit seed))
    (λ d s, ∃ w, ∃ all, owns repo id q i (c ++ w) s ∧ deferred_ok c d w all).
Proof.
  intros Hid Hq Hseed. eapply sp_weaken.
  - apply (sp_but repo id q (λ f, files f !! q = Some (Reg i c)) _
      (λ d f, ∃ w, ∃ all, files f !! q = Some (Reg i (c ++ w)) ∧ deferred_ok c d w all)); [done| |].
    + by eapply append_inner_but, upload_staging.
    + intros f f' d Hf E.
      apply (append_inner_ok q i c) in E as (w & all & _ & Hw & Hd & _); [|done..]. by exists w, all.
  - done.
  - intros d s _ [Ht (w & all & Hf & Hd)]. by exists w, all.
Qed.

Lemma finish_verify_but q d covers commit alg : staging q → runs (keeps_but q) (finish_verify q d covers commit alg).
Proof.
  intros Hq. unfold finish_verify. apply runs_bind; [by apply write_tail_but|intros h].
  apply runs_keeps_but. runs_auto.
Qed.

Definition holds_tree (q : path) (i : Z) (c : bytes) (t : tree) : Prop := t !! q = Some (Reg i c).

Lemma finish_verify_ok q i c w all d (cov commit : bool) alg f f' dg x ino :
  q ≠ [] → holds q i (c ++ w) f → deferred_ok c d w all → (cov = true → alg = "sha256") →
  finish_verify q d cov commit alg f = (f', Ok (dg, x, ino)) →
  holds q i (c ++ all) f' ∧ digest_of (c ++ all) alg = dg.
Proof.
  intros Hq Hf Hd Hcov E. unfold finish_verify in E. apply bind_Ok in E as (f1 & h & E1 & E).
  pose proof (write_tail_spec q i c d w all f Hf Hd) as Hw. rewrite E1 in Hw. destruct Hw as (Hf1 & Hh & _).
  apply bind_Ok in E as (f2 & [ino' c2] & E2 & E).
  destruct (resolve_beneath_spec (holds_tree q i (c ++ all)) q false Hq f1 Hf1) as [_ Hr].
  rewrite E2 in Hr. destruct Hr as [Hf2 Ho]. unfold opens, holds_tree in *. simpl in Hf2, Ho.
  assert (c2 = c ++ all) as -> by congruence.
  assert (Hsame : same_files f2 f').
  { match type of E with ?k f2 = _ => assert (Hk : runs same_files k) by runs_auto end.
    specialize (Hk f2). by rewrite E in Hk. }
  split; [unfold holds; by rewrite Hsame|].
  apply bind_Ok in E as (f3 & [] & _ & E). apply bind_Ok in E as (f4 & [] & _ & E).
  destruct (if cov then h else None) as [h'|] eqn:Eh.
  - destruct cov; [|done]. subst h. rewrite (finish_hashed (c ++ all)) in E by (by apply Hh).
    injection E as _ <- _ _. by rewrite Hcov.
  - apply bind_Ok in E as (f5 & read & E5 & E). apply bind_Ok in E as (f6 & [dg' x'] & E6 & [= _ <- _ _]).
    injection E6 as _ E6. apply hash_std_one in E6 as ->.
    apply read_to_end_ok in E5. by subst read.
Qed.

(** The paths of a landing context are those of the session and the blob. *)
Record land_ok (repo id : string) (d : Digest) (q : path) (c : LandCtx) : Prop := {
  lo_wf : digest_wf d;
  lo_staging : staging q;
  lo_rel : upload_rel repo id = Ok q;
  lo_src : l_up_dir c ++ [l_up_leaf c] = q;
  lo_dst : blob_dir_rel (l_repo c) d = Ok (l_alg_rel c, l_hex c);
  lo_digest : l_digest c = Digest_fmt d;
}.

Definition landed (c : LandCtx) (l : Landed) (s : Store) : Prop :=
  match l with Done _ => has_file (l_alg_rel c ++ [l_hex c]) (files (fs s)) | _ => True end.

(** The staged file becomes the blob, or gives way to the blob that is there. *)
Lemma move_spec repo id d q c i content (linked sync : bool) :
  land_ok repo id d q c → digest_of content (algorithm d) = d →
  sp store_inv (λ s, owns repo id q i content s ∧ (linked = true → has_file (l_alg_rel c ++ [l_hex c]) (files (fs s))))
    (on_fs (if linked then unlink_beneath (l_up_dir c) (l_up_leaf c)
            else rename_beneath (l_up_dir c) (l_up_leaf c) (l_alg_rel c) (l_hex c) (l_ino c) sync))
    (λ _ s, has_file (l_alg_rel c ++ [l_hex c]) (files (fs s))).
Proof.
  intros [Hd Hst Hq Hsrc Hdst _] Hc s Hs [[Ht Hf] Hl]. apply blob_dir_rel_at in Hdst; [|done].
  pose proof (blob_not_staging _ _ Hdst) as Hns. rewrite on_fs_state. destruct linked.
  - destruct (Hl eq_refl) as (i' & b & Hb). split.
    + eapply but_inv; [done..| |done]. rewrite <-Hsrc. apply unlink_beneath_but. by rewrite Hsrc.
    + intros _ _. exists i', b. simpl. rewrite unlink_beneath_only; [done|]. rewrite Hsrc. by intros E; rewrite E in Hns.
  - pose proof (rename_beneath_spec (l_up_dir c) (l_up_leaf c) (l_alg_rel c) (l_hex c) (l_ino c) sync (fs s)) as Hr.
    rewrite Hsrc in Hr. specialize (Hr Hst Hns). ospecialize (Hr _).
    { intros i' b Hb. rewrite Hf in Hb. injection Hb as <- <-. by eapply blob_ok_at. }
    unfold on_fs, focus. destruct (rename_beneath _ _ _ _ _ _ (fs s)) as [f' r]. destruct Hr as [Hk Hfile].
    split; [by eapply but_inv|]. intros [] Hr. simpl in Hr. subst r. by apply Hfile.
Qed.

Lemma land_verified_spec repo id d q c crc i content :
  land_ok repo id d q c → digest_of content (algorithm d) = d →
  sp store_inv (owns repo id q i content) (land_verified c crc) (landed c).
Proof.
  intros Hok Hc. pose proof Hok as [Hd Hst Hq Hsrc Hdst Hdig]. unfold land_verified. rewrite Hdig.
  eapply sp_bind; [apply calm_owns; [done|]; apply runs_attempt; eauto with runs|].
  intros [charged|e]; [|by apply sp_ret].
  eapply (sp_bind _ _ _ (λ linked s, owns repo id q i content s ∧
    (linked = true → has_file (l_alg_rel c ++ [l_hex c]) (files (fs s))))).
  { intros s Hs Ho. destruct (calm_owns repo id q i content _ Hst (dedupe_link_at_calm _ _ _ _ Hd Hdst) s Hs Ho) as [I1 I2].
    destruct (dedupe_link_at_spec any _ _ _ _ Hd Hdst s Hs I) as [_ I3]. split; [done|]. eauto. }
  intros linked. eapply sp_bind; [apply sp_gets|intros sync].
  eapply sp_bind.
  { apply sp_attempt. eapply sp_weaken; [by apply (move_spec repo id d q c i content linked sync)|naive_solver|done]. }
  intros [u|e]; [|by apply sp_ret]. apply sp_ret. intros s _ Hs. by apply (Hs u).
Qed.

(** What must be known of the staged file before it lands. *)
Definition verified (repo id : string) (d : Digest) (q : path) (i : Z)
    (v : option (Deferred * Digest)) (s : Store) : Prop :=
  match v with
  | None => ∃ content, owns repo id q i content s ∧ digest_of content (algorithm d) = d
  | Some (body, expected) => ∃ c, ∃ w, ∃ all, owns repo id q i (c ++ w) s ∧
      (expected = d ∧ algorithm d = "sha256" ∧ deferred_ok c body w all)
  end.

Lemma land_blob_spec repo id d q c i :
  land_ok repo id d q c →
  sp store_inv (verified repo id d q i (l_verify c)) (land_blob c) (landed c).
Proof.
  intros Hok. pose proof Hok as [Hd Hst Hq Hsrc Hdst Hdig]. unfold land_blob, verified.
  destruct (l_verify c) as [[body expected]|].
  2:{ apply sp_ex. intros content. apply sp_pure. intros Hc. by apply (land_verified_spec repo id d q c None i content). }
  rewrite Hsrc. apply sp_ex. intros cc. apply sp_ex. intros w. apply sp_ex. intros all. apply sp_pure.
  intros (-> & Halg & Hdef). eapply sp_bind.
  { apply sp_attempt. eapply sp_weaken; [|done|].
    - apply (sp_but repo id q (λ f, holds q i (cc ++ w) f) _ (λ h f, holds q i (cc ++ all) f ∧ covers (cc ++ all) h)); [done| |].
      + by apply write_tail_but.
      + intros f f' h Hf E. pose proof (write_tail_spec q i cc body w all f Hf Hdef) as Hw. rewrite E in Hw. naive_solver.
    - intros h s _ [Ht [Hf Hh]]. exact (conj (conj Ht Hf) Hh : owns repo id q i (cc ++ all) s ∧ covers (cc ++ all) h). }
  intros [[h|]|e]; try by apply sp_ret.
  eapply sp_weaken; [|intros s _ Hall; exact (Hall _ eq_refl)|done]. apply sp_pure. intros Hh.
  rewrite (finish_hashed (cc ++ all)) by (by apply Hh).
  destruct (ct_eq _ _) eqn:E; simpl; [|by apply sp_ret]. apply ct_eq_true in E.
  apply (land_verified_spec repo id d q); [done|]. by rewrite Halg.
Qed.

Lemma drop_lock_file p repo id :
  sp store_inv (λ s, has_file p (files (fs s))) (drop_lock repo id) (λ _ s, has_file p (files (fs s))).
Proof. intros s Hs Hp. split; [by apply drop_lock_pres|]. by intros ? _. Qed.

Lemma upload_dir_of repo id q dir leaf :
  upload_rel repo id = Ok q → upload_dir_rel repo id = Ok (dir, leaf) → dir ++ [leaf] = q.
Proof. unfold upload_rel. intros Hq E. rewrite E in Hq. simpl in Hq. congruence. Qed.

(** The verification of [finish_upload]: either deferred to the landing, when
    the running hash covers the file, or done. *)
Lemma verify_sp repo id d q i c w all body (cov sync : bool) :
  staging q → upload_rel repo id = Ok q → deferred_ok c body w all → (cov = true → algorithm d = "sha256") →
  sp store_inv (owns repo id q i (c ++ w))
    (if cov && negb sync then mret (Some (body, d), None)
     else
       checked ← io_nf (finish_verify q body cov sync (algorithm d));
       mret (None, Some checked))
    (λ r s, match r.2 with
            | None => verified repo id d q i r.1 s
            | Some (actual, _, _) => r.1 = None ∧ (actual = d → verified repo id d q i None s)
            end).
Proof.
  intros Hst Hq Hdef Hcov. destruct (cov && negb sync) eqn:E.
  { apply andb_true_iff in E as [-> _]. apply sp_ret. intros s _ Ho. simpl. exists c, w, all. auto. }
  eapply sp_bind.
  { apply sp_mapping_err. eapply sp_weaken; [|done|].
    - apply (sp_but repo id q (λ f, holds q i (c ++ w) f) _
        (λ r f, ∃ content, holds q i content f ∧ digest_of content (algorithm d) = r.1.1)); [done|by apply finish_verify_but|].
      intros f f' [[dg x] ino] Hf E'. apply (finish_verify_ok q i c w all) in E'; [by exists (c ++ all)| |done..].
      apply upload_rel_ok in Hq as (r & _ & _ & ->). by destruct r.
    - intros r s _ [Ht (content & Hf & Hc)].
      exact (ex_intro (λ content, owns repo id q i content s ∧ digest_of content (algorithm d) = r.1.1) content (conj (conj Ht Hf) Hc)). }
  intros [[actual x] ino]. apply sp_ret. intros s _ (content & Ho & Hc). split; [done|]. intros ->.
  by exists content.
Qed.

Lemma finish_upload_spec repo id d max trailing limit :
  upload_id id → digest_wf d →
  sp store_inv any (finish_upload repo id d max trailing limit) (λ _ s, stored repo d (files (fs s))).
Proof.
  intros Hid Hd. unfold finish_upload.
  eapply sp_bind; [apply pres_sp; eauto with runs|intros ?]. apply sp_let. intros q Hq.
  pose proof (upload_staging _ _ _ Hid Hq) as Hst.
  eapply sp_bind; [by apply prepare_session_spec|]. intros [| |current i].
  { eapply sp_bind; [apply pres_sp; eauto with runs|intros; apply sp_throw]. }
  { eapply sp_bind; [apply pres_sp; eauto with runs|intros; apply sp_throw]. }
  apply sp_ex. intros c. apply sp_pure. intros ->.
  eapply sp_bind; [by apply take_hash_spec|]. intros h. apply sp_pure. intros Hh%seeds_new.
  eapply sp_bind; [by apply deferring_sp|]. intros body.
  destruct (max <? d_len body)%Z; [eapply sp_bind; [apply pres_sp; eauto with runs|intros; apply sp_throw]|].
  apply sp_ex. intros w. apply sp_ex. intros all. apply sp_pure. intros Hdef.
  eapply sp_bind; [apply sp_gets|intros sync]. eapply sp_bind.
  { eapply sp_weaken; [apply (verify_sp repo id d q i c w all); [done..|]|naive_solver|done].
    intros [_ ?%bool_decide_eq_true]%andb_true_iff. done. }
  intros [verify checked]. simpl.
  eapply (sp_bind _ _ _ (λ _ s, verified repo id d q i verify s)).
  { destruct checked as [[[actual x] ino]|]; [|by apply sp_ret].
    destruct (ct_eq actual d) eqn:E; simpl.
    - apply sp_ret. intros s _ [-> Hs]. by apply Hs, ct_eq_true.
    - eapply sp_bind; [apply pres_sp; eauto with runs|intros; apply sp_throw]. }
  intros ?. apply sp_let. intros [up_dir up_leaf] Hup. apply sp_let. intros [dir leaf] Hdir.
  apply sp_let. intros rel Hrel. set (ctx := Build_LandCtx _ _ _ _ _ _ _ _ _ _).
  eapply sp_bind.
  { apply (land_blob_spec repo id d q ctx i). split; try done. by eapply upload_dir_of. }
  intros [crc|actual|e|charged e]; simpl.
  2-4: eapply sp_bind; [apply pres_sp; eauto with runs|intros; apply sp_throw].
  - eapply sp_bind; [apply sp_still_file; eauto with runs|intros ?].
    eapply sp_bind; [apply drop_lock_file|intros ?]. by eapply entered_spec.
Qed.
End Sessions.
