(* ===== verification/FsBackend.v ===== *)
(** The filesystem backend as an implementation of the storage contract. *)

From S2P Require Import Triple.
From S2P Require Import StorageApi Prelude RustStr Json Errors Digest Paths Quota Metadata MetaLog.
From S2P Require Import MetaStore SmallCache Effect FileSys FileSysFacts Layout Lifecycle.
From S2P Require Import UploadBody FsStorage FsInvariant FsSessions.

Section Backend.
Context `{!Crypto, !World, !SerdeJson, !HashIter, !MetadataStore, !Lru, !Cuckoo}.

(** [open_blob] as the handlers see it: an open file keeps its content, and
    the reads that follow may fail. *)
Definition open_blob_read (repo : string) (d : Digest) : M Store StorageError BlobRead :=
  '(c, size) ← open_blob repo d;
  n ← gets (λ s, ticks (fs s));
  mret {| br_size := size; br_source := File c (λ k, io_of_errno <$> fault (n + k)) |}.

#[export] Instance fs_storage : Storage := {|
  sto := Store;
  s_blob_size := blob_size;
  s_blob_exists := blob_exists;
  s_read_blob := read_blob;
  s_open_blob := open_blob_read;
  s_begin_upload := begin_upload;
  s_append_upload := append_upload;
  s_upload_size := upload_size;
  s_abort_upload := abort_upload;
  s_mount_blob := mount_blob;
  s_finish_upload := finish_upload;
  s_put_blob := put_blob;
  s_delete_blob := delete_blob;
  s_put_manifest := put_manifest;
  s_get_manifest := get_manifest;
  s_delete_manifest := delete_manifest;
  s_list_tags := list_tags;
  s_list_referrers := list_referrers;
|}.
End Backend.

Section Laws.
Context `{!Crypto, !CryptoLaws, !World, !SerdeJson, !HashIter, !MetadataStore, !MetadataStoreLaws, !Lru, !LruLaws, !Cuckoo}.

Lemma ensures_sp {E A : Type} (m : M Store E A) Q : sp store_inv any m Q → ensures store_inv m Q.
Proof. intros Hm s Hs. by apply Hm. Qed.

Lemma ensures_pres {E A : Type} (m : M Store E A) : runs pres m → ensures store_inv m (λ _ _, True).
Proof. intros Hm s Hs. split; [by apply Hm|done]. Qed.

(** Facts about a result beside the triple of its operation. *)
Lemma ensures_and {E A : Type} (m : M Store E A) (Q Q' : A → Store → Prop) :
  sp store_inv any m Q → (∀ s s' a, store_inv s' → m s = (s', Ok a) → Q' a s') → ensures store_inv m (λ a s, Q a s ∧ Q' a s).
Proof.
  intros Hm HQ s Hs. destruct (Hm s Hs I) as [I1 I2]. split; [done|]. intros a Ha. split; [by apply I2|].
  apply (HQ s); [done|]. rewrite <-Ha. by destruct (m s).
Qed.

(** ** What the metadata says *)

Definition same_meta (s s' : Store) : Prop := meta s' = meta s.
#[export] Instance same_meta_preorder : PreOrder same_meta.
Proof. split; [by intros s|]. intros s1 s2 s3 E1 E2. unfold same_meta in *. congruence. Qed.

Lemma on_fs_meta {E A : Type} (m : M Fs E A) : runs same_meta (on_fs m).
Proof. intros s. by rewrite on_fs_state. Qed.
Lemma io_meta {A : Type} (m : M Fs io_error A) : runs same_meta (io m).
Proof. apply runs_mapping_err, on_fs_meta. Qed.
Lemma io_nf_meta {A : Type} (m : M Fs io_error A) : runs same_meta (io_nf m).
Proof. apply runs_mapping_err, on_fs_meta. Qed.
Lemma cache_put_meta repo digest b : runs same_meta (cache_put repo digest b).
Proof. by apply runs_modify. Qed.
Lemma cache_read_meta repo digest : runs same_meta (cache_read repo digest).
Proof. apply runs_state. intros s. by destruct (small_get (cache s) repo digest). Qed.
Lemma maybe_meta repo digest : runs same_meta (maybe repo digest).
Proof. apply runs_gets. Qed.
Hint Resolve on_fs_meta io_meta io_nf_meta cache_put_meta cache_read_meta maybe_meta : runs.
Lemma read_index_meta repo : runs same_meta (read_index repo).
Proof. unfold read_index, index_view. runs_auto. Qed.
Lemma manifest_bytes_meta repo d warm : runs same_meta (manifest_bytes repo d warm).
Proof. unfold manifest_bytes. runs_auto. Qed.
Lemma read_blob_meta repo d : runs same_meta (read_blob repo d).
Proof. unfold read_blob. runs_auto. Qed.
Hint Resolve read_index_meta manifest_bytes_meta read_blob_meta : runs.
Lemma index_resolve_tag_meta repo tag : runs same_meta (index_resolve_tag repo tag).
Proof. unfold index_resolve_tag. runs_auto. Qed.
Lemma index_media_type_meta repo digest : runs same_meta (index_media_type_for_digest repo digest).
Proof. unfold index_media_type_for_digest. runs_auto. Qed.
Hint Resolve index_resolve_tag_meta index_media_type_meta : runs.

Lemma get_manifest_meta repo reference : runs same_meta (get_manifest repo reference).
Proof. unfold get_manifest. runs_auto. Qed.
Lemma list_tags_meta repo last limit : runs same_meta (list_tags repo last limit).
Proof. unfold list_tags. runs_auto. Qed.
Lemma list_referrers_meta repo d at_ last limit : runs same_meta (list_referrers repo d at_ last limit).
Proof. unfold list_referrers. runs_auto. Qed.

(** A successful write of the metadata is in the view. *)
Lemma apply_meta_view repo op s s' :
  apply_meta repo op s = (s', Ok tt) → mview (meta s') = apply_in_ram (mview (meta s)) op ∧ fs s' = fs s.
Proof.
  unfold apply_meta, mark_index_dirty, modify, mbind, M_bind, attempt, mapping_err, meta_apply, of_result. simpl.
  pose proof (mapply_ok (meta s) op) as Hok. destruct (mapply (meta s) op) as [m [[]|e]]; simpl; [|done].
  intros [= <-]. simpl. split; [by apply Hok|done].
Qed.

(** ** Blobs *)

Lemma blob_size_sized repo d s s' n :
  digest_wf d → store_inv s' → blob_size repo d s = (s', Ok n) → blob_sized (mview (meta s')) repo d n.
Proof.
  intros Hd Hs E. unfold blob_size in E. apply bind_Ok in E as (s1 & rel & [= <- Hrel] & E).
  apply bind_Ok in E as (s2 & present & _ & E). destruct (negb present); [done|].
  apply bind_Ok in E as (s3 & [] & _ & E). apply bind_Ok in E as (s4 & recorded & [= <- Hc] & E).
  destruct recorded as [c|].
  - injection E as <- <-. left. by exists c.
  - apply bind_Ok in E as (s5 & stat & E5 & E). destruct stat as [[[] m]|]; [|done..]. injection E as <- <-.
    apply mapping_err_Ok in E5. unfold on_fs, focus in E5. pose proof (stat_beneath_size rel (fs s3) m) as Hst.
    destruct (stat_beneath rel (fs s3)) as [f' r]. injection E5 as <- ->. destruct (Hst eq_refl) as (i & b & Hb & ->).
    right. exists b. split; [|done]. apply (inv_cas _ Hs _ _ _ Hb). split; [done|]. by exists repo.
Qed.

Lemma unlink_beneath_gone dir leaf f f' :
  unlink_beneath dir leaf f = (f', Ok tt) → files f' !! (dir ++ [leaf]) = None.
Proof.
  unfold unlink_beneath. intros E. apply bind_Ok in E as (f1 & [] & _ & E). apply mapping_err_Ok in E.
  revert E. unfold unlinkat, syscall, tick, mbind, M_bind, gets, throw, mret, M_ret, modify, state. simpl.
  repeat case_match; intros; simplify_eq/=; by rewrite lookup_delete_eq.
Qed.

Lemma blob_left_fs repo digest size s : fs (blob_left repo digest size s).1 = fs s.
Proof.
  unfold blob_left, modify, mbind, M_bind. cbn [fst].
  match goal with |- context [note_blob_left ?m ?g ?x ?q ?r ?d ?n] => by destruct (note_blob_left m g x q r d n) as [[[? ?] ?] ?] end.
Qed.

Lemma io_nf_Ok {A : Type} (m : M Fs io_error A) s s' a :
  io_nf m s = (s', Ok a) → ∃ f', m (fs s) = (f', Ok a) ∧ s' = set_fs f' s.
Proof.
  intros E. apply mapping_err_Ok in E. unfold on_fs, focus in E. destruct (m (fs s)) as [f' r].
  injection E as <- ->. eauto.
Qed.

(** Unlinking the file of a blob, and noting that it left. *)
Lemma unlinked_gone repo d dir leaf size s s1 s' :
  blob_dir_rel repo d = Ok (dir, leaf) → io_nf (unlink_beneath dir leaf) s = (s1, Ok tt) →
  fs s' = fs (blob_left repo (Digest_fmt d) size s1).1 → ¬ stored repo d (files (fs s')).
Proof.
  intros Hdir E Hs' (p & i & b & Hp & Hb & _). rewrite blob_left_fs in Hs'. unfold blob_rel in Hp.
  rewrite Hdir in Hp. injection Hp as <-. rewrite Hs' in Hb. apply io_nf_Ok in E as (f' & E & ->). simpl in Hb.
  by rewrite (unlink_beneath_gone _ _ _ _ E) in Hb.
Qed.

Lemma delete_blob_gone repo d s s' :
  delete_blob repo d s = (s', Ok tt) → ¬ stored repo d (files (fs s')).
Proof.
  intros E. unfold delete_blob in E. apply bind_Ok in E as (s1 & [dir leaf] & [= <- Hdir] & E).
  apply bind_Ok in E as (s2 & size & _ & E). apply bind_Ok in E as (s3 & [] & E3 & E).
  eapply unlinked_gone; [done..|]. by rewrite E.
Qed.

(** ** Sessions *)

Lemma begin_upload_id repo :
  ensures store_inv (begin_upload repo) (λ id s, session_id id ∧ fs_upload s repo id 0).
Proof.
  intros s Hs. split; [by apply begin_upload_pres|]. intros id Hr.
  destruct (begin_upload repo s) as [s' r] eqn:E. simpl in *. subst r. unfold begin_upload in E.
  apply bind_Ok in E as (s1 & buf & _ & E). apply bind_Ok in E as (s2 & p & Hp & E).
  apply bind_Ok in E as (s3 & ? & _ & E). apply bind_Ok in E as (s4 & ? & E4 & E). injection E as <- <-.
  unfold of_result in Hp. injection Hp as _ Hp. split; [split; [apply hex_encode_lower|]|].
  - intros He. rewrite He in Hp. unfold upload_dir_rel in Hp. case_res.
  - left. split; [|done]. injection E4 as <- _. unfold is_pending. simpl. rewrite lookup_insert_eq.
    by apply bool_decide_eq_true_2.
Qed.

Lemma upload_size_upload repo id s s' n : upload_size repo id s = (s', Ok n) → fs_upload s' repo id n.
Proof.
  unfold upload_size. intros E. apply bind_Ok in E as (s1 & pending & [= <- Hp] & E). destruct pending.
  { injection E as <- <-. by left. }
  apply bind_Ok in E as (s2 & q & [= <- Hq] & E). apply bind_Ok in E as (s3 & stat & E3 & E).
  destruct stat as [[[] m]|]; [|done..]. injection E as <- <-. apply io_nf_Ok in E3 as (f' & E3 & ->).
  pose proof (stat_beneath_size q (fs s) m) as Hst. rewrite E3 in Hst.
  destruct (Hst eq_refl) as (i & b & Hb & ->). right. by exists q, i, b.
Qed.

Lemma append_upload_taken repo id body off limit :
  upload_id id → ensures (E := StorageError) store_inv (attempt (append_upload repo id body off limit))
    (λ r s, chunk_taken (fs_upload s repo id) body off r).
Proof.
  intros Hid s Hs. destruct (append_upload_spec repo id body off limit Hid s Hs I) as [I1 I2].
  rewrite attempt_eq. split; [done|]. intros r [= <-]. cbn [fst].
  destruct (append_upload repo id body off limit s) as [s' [n|e]] eqn:E; simpl in *; [by apply I2|].
  destruct e; try done. exact (append_upload_refused repo id body off limit s s' _ _ Hid Hs E).
Qed.

(** ** Manifests *)

Lemma put_manifest_meta repo tag d mt data links s s' u :
  put_manifest repo tag d mt data links s = (s', Ok u) → manifest_recorded (mview (meta s')) repo tag d mt links.
Proof.
  destruct u. intros E. unfold put_manifest in E. apply bind_Ok in E as (s1 & [] & _ & E).
  apply bind_Ok in E as (s2 & referrer & [= <- Href] & E). apply bind_Ok in E as (s3 & [] & _ & E).
  apply bind_Ok in E as (s4 & [dir leaf] & _ & E). apply bind_Ok in E as (s5 & rels & _ & E).
  apply bind_Ok in E as (s6 & rel & _ & E). apply bind_Ok in E as (s7 & landed & _ & E).
  destruct landed as [e|charged e|missing error]; [done|apply bind_Ok in E as (? & ? & _ & [=])|].
  apply bind_Ok in E as (s8 & [] & _ & E). apply bind_Ok in E as (s9 & [] & _ & E).
  apply bind_Ok in E as (s10 & [] & _ & E). apply bind_Ok in E as (s11 & [] & _ & E).
  apply bind_Ok in E as (s12 & [] & E12 & [= <-]). simpl. apply apply_meta_view in E12 as [-> _].
  apply put_manifest_recorded. intros subject desc Hl. rewrite Hl in Href. by case_res.
Qed.

Lemma get_manifest_known repo reference s s' m :
  get_manifest repo reference s = (s', Ok m) →
  if contains_char ":" reference then
    ∀ mt, manifest_media_type (mview (meta s')) repo reference = Some mt → mr_media_type m = mt
  else
    ∀ ds mt, resolve_tag (mview (meta s')) repo reference = Some (ds, mt) → Digest_parse ds = Ok (mr_digest m) ∧ mr_media_type m = mt.
Proof.
  intros E. assert (meta s' = meta s) as -> by (pose proof (get_manifest_meta repo reference s) as Hm; by rewrite E in Hm).
  unfold get_manifest in E. apply bind_Ok in E as (s1 & [d mt] & E1 & E).
  apply bind_Ok in E as (s2 & b & _ & [= _ <-]). simpl. destruct (contains_char ":" reference).
  - apply bind_Ok in E1 as (s3 & d' & [= <- _] & E1). apply bind_Ok in E1 as (s4 & known & [= <- Hk] & E1).
    intros mt'. rewrite Hk. intros ->. by injection E1.
  - apply bind_Ok in E1 as (s3 & known & [= <- Hk] & E1). intros ds mt'. rewrite Hk. intros ->.
    apply bind_Ok in E1 as (s4 & d' & [= _ Hd] & [= _ <- <-]). done.
Qed.

Lemma get_manifest_found repo reference :
  ensures store_inv (get_manifest repo reference) (λ m s, manifest_found (mview (meta s)) repo reference m).
Proof.
  intros s Hs. destruct (ensures_and _ _ (λ m s, if contains_char ":" reference then _ else _)
    (get_manifest_spec repo reference) (λ s s' m _, get_manifest_known repo reference s s' m) s Hs) as [I1 I2].
  split; [done|]. intros m Hr. destruct (I2 m Hr) as [(Hd & Hb & Hp) Hk]. split_and!; [done..|].
  destruct (contains_char ":" reference); auto.
Qed.

Lemma foldl_marks_fs repo refs s :
  let s' := foldl (λ s r,
    if bool_decide (get_backrefs (mview (meta s)) repo r = []) && maybe_present (presence s) repo r
    then set_gc (mark (gc s) repo r (now s)) s else s) s refs in meta s' = meta s ∧ fs s' = fs s.
Proof.
  revert s. induction refs as [|r refs IH]; intros s; simpl; [done|]. case_match; [|apply IH].
  by destruct (IH (set_gc (mark (gc s) repo r (now s)) s)) as [-> ->].
Qed.

Lemma delete_manifest_gone repo d s s' u :
  delete_manifest repo d s = (s', Ok u) →
  ¬ stored repo d (files (fs s')) ∧ manifest_media_type (mview (meta s')) repo (Digest_fmt d) = None ∧
  ∀ t mt, resolve_tag (mview (meta s')) repo t ≠ Some (Digest_fmt d, mt).
Proof.
  destruct u. intros E. unfold delete_manifest in E. apply bind_Ok in E as (s1 & [dir leaf] & [= <- Hdir] & E).
  apply bind_Ok in E as (s2 & b & _ & E). apply bind_Ok in E as (s3 & [] & E3 & E).
  apply bind_Ok in E as (s4 & [] & E4 & E). apply bind_Ok in E as (s5 & [] & E5 & [= <-]).
  apply apply_meta_view in E5 as [Em Ef].
  match goal with |- context [foldl ?f s5 ?l] => destruct (foldl_marks_fs repo l s5) as [-> Hfs] end.
  destruct (delete_manifest_spec (mview (meta s4)) repo (Digest_fmt d)) as (Ht & Hm & _). rewrite Em. split_and!.
  - eapply unlinked_gone; [done..|]. rewrite Hfs, Ef. by rewrite E4.
  - by rewrite Hm, decide_True.
  - intros t mt. rewrite Ht. destruct (resolve_tag _ repo t) as [[x y]|]; [|done]. case_decide; congruence.
Qed.

(** ** Listings *)

(** The page of the metadata, when it has one. *)
Lemma list_tags_known repo last limit s s' p :
  list_tags repo last limit s = (s', Ok p) → ∀ q, tags_page (mview (meta s')) repo last limit = Some q → p = q.
Proof.
  intros E. assert (meta s' = meta s) as -> by (pose proof (list_tags_meta repo last limit s) as Hm; by rewrite E in Hm).
  unfold list_tags in E. apply bind_Ok in E as (s1 & page & [= <- Hp] & E). rewrite Hp. intros q ->. by injection E.
Qed.
Lemma list_referrers_known repo d at_ last limit s s' p :
  list_referrers repo d at_ last limit s = (s', Ok p) →
  ∀ q, referrers_page (mview (meta s')) repo (Digest_fmt d) at_ last limit = Some q → p = q.
Proof.
  intros E. assert (meta s' = meta s) as -> by (pose proof (list_referrers_meta repo d at_ last limit s) as Hm; by rewrite E in Hm).
  unfold list_referrers in E. apply bind_Ok in E as (s1 & page & [= <- Hp] & E). rewrite Hp. intros q ->. by injection E.
Qed.

Lemma open_blob_read_spec repo d :
  digest_wf d → sp store_inv any (open_blob_read repo d) (λ b _, ∃ content, digest_of content (algorithm d) = d ∧ serves content b).
Proof.
  intros Hd. unfold open_blob_read. eapply sp_known; [by apply open_blob_spec|]. intros [c size] [Hc Hsize].
  apply sp_then; [runs_auto|intros n]. apply sp_ret. intros _ _ _. exists c. by split_and!.
Qed.

(** An operation whose result says something of the state it leaves. *)
Lemma ensures_left {E A : Type} (m : M Store E A) (Q : A → Store → Prop) :
  runs pres m → (∀ s s' a, store_inv s' → m s = (s', Ok a) → Q a s') → ensures store_inv m Q.
Proof.
  intros Hm HQ s Hs. split; [by apply Hm|]. intros a Ha. apply (HQ s); [by apply Hm|]. rewrite <-Ha. by destruct (m s).
Qed.

#[export] Program Instance fs_storage_laws : StorageLaws := {|
  sto_ok := store_inv;
  sto_has s repo d := stored repo d (files (fs s));
  sto_view s _ := mview (meta s);
  sto_upload := fs_upload;
  id_ok := upload_id;
  size_ok _ := True;
|}.
Next Obligation. done. Qed.
Next Obligation.
  intros repo d Hd. apply ensures_left; [by apply calm_pres, blob_size_calm|]. intros s s' n. by apply blob_size_sized.
Qed.
Next Obligation. intros. by apply ensures_pres, calm_pres, blob_exists_calm. Qed.
Next Obligation. intros. by apply ensures_sp, open_blob_read_spec. Qed.
Next Obligation.
  intros repo s Hs. destruct (begin_upload_id repo s Hs) as [I1 I2]. split; [done|]. intros id Hr.
  destruct (I2 id Hr) as [Hid Hu]. split_and!; [by apply session_upload_id|by apply session_id_text..|done].
Qed.
Next Obligation. intros. by apply append_upload_taken. Qed.
Next Obligation. intros. apply ensures_left; [apply upload_size_pres|]. intros s s' n _. apply upload_size_upload. Qed.
Next Obligation. intros. by apply ensures_pres, abort_upload_pres. Qed.
Next Obligation. intros. by apply ensures_sp, mount_blob_spec. Qed.
Next Obligation. intros ?????? Hid Hd _. by apply ensures_sp, finish_upload_spec. Qed.
Next Obligation.
  intros repo d Hd. apply ensures_left; [by apply calm_pres, delete_blob_calm|]. intros s s' [] _. apply delete_blob_gone.
Qed.
Next Obligation.
  intros repo tag d mt data links Hd _ s Hs.
  destruct (ensures_and _ _ _ (put_manifest_sp repo tag d mt data links Hd)
    (λ s s' u _ E, put_manifest_meta repo tag d mt data links s s' u E) s Hs) as [I1 I2].
  split; [done|]. intros [] Hr. destruct (I2 tt Hr) as [[J1 J2] J3]. by split_and!.
Qed.
Next Obligation. intros. apply get_manifest_found. Qed.
Next Obligation.
  intros repo d Hd s Hs. destruct (ensures_and _ _ _ (delete_manifest_sp repo d Hd)
    (λ s s' u _ E, delete_manifest_gone repo d s s' u E) s Hs) as [I1 I2].
  split; [done|]. intros [] Hr. by destruct (I2 tt Hr) as [_ ?].
Qed.
Next Obligation. intros. apply ensures_and; [apply list_tags_spec|]. intros s s' p _. apply list_tags_known. Qed.
Next Obligation. intros. apply ensures_and; [apply list_referrers_spec|]. intros s s' p _. apply list_referrers_known. Qed.
End Laws.
