(* ===== verification/FsRun.v ===== *)
(** Runs of the filesystem backend: every operation the server can issue as a
    step, the states steps reach from a freshly opened store, and what holds
    in all of them, whatever input and output fails on the way. *)

From S2P Require Import Triple.
From S2P Require Import StorageApi Prelude RustStr Json Errors Digest Paths Quota Metadata MetaLog.
From S2P Require Import MetaStore SmallCache Effect FileSys FileSysFacts Layout Lifecycle.
From S2P Require Import UploadBody FsStorage FsInvariant FsSessions.

Section Run.
Context `{!Crypto, !World, !SerdeJson, !HashIter, !MetadataStore, !Lru, !Cuckoo}.

(** ** Steps *)

Inductive op :=
  | OBlobSize (repo : string) (d : Digest)
  | OBlobExists (repo : string) (d : Digest)
  | OReadBlob (repo : string) (d : Digest)
  | OOpenBlob (repo : string) (d : Digest)
  | OBeginUpload (repo : string)
  | OAppendUpload (repo id : string) (body : UploadBody) (offset : option Z) (limit : Z)
  | OUploadSize (repo id : string)
  | OFinishUpload (repo id : string) (d : Digest) (max : Z) (trailing : UploadBody) (limit : Z)
  | OAbortUpload (repo id : string)
  | OPutBlob (repo : string) (d : Digest) (data : bytes)
  | ODeleteBlob (repo : string) (d : Digest)
  | OMountBlob (from to : string) (d : Digest)
  | OPutManifest (repo : string) (tag : option string) (d : Digest) (media_type : string) (data : bytes) (links : ManifestLinks)
  | OGetManifest (repo reference : string)
  | ODeleteManifest (repo : string) (d : Digest)
  | OListTags (repo : string) (last : option string) (limit : nat)
  | OListReferrers (repo : string) (d : Digest) (artifact_type last : option string) (limit : nat)
  | OFlushDirty
  | OSweep (now : Z) (stale : list (string * string * bool)).

Definition step (o : op) (s : Store) : Store :=
  match o with
  | OBlobSize repo d => (blob_size repo d s).1
  | OBlobExists repo d => (blob_exists repo d s).1
  | OReadBlob repo d => (read_blob repo d s).1
  | OOpenBlob repo d => (open_blob repo d s).1
  | OBeginUpload repo => (begin_upload repo s).1
  | OAppendUpload repo id body offset limit => (append_upload repo id body offset limit s).1
  | OUploadSize repo id => (upload_size repo id s).1
  | OFinishUpload repo id d max trailing limit => (finish_upload repo id d max trailing limit s).1
  | OAbortUpload repo id => (abort_upload repo id s).1
  | OPutBlob repo d data => (put_blob repo d data s).1
  | ODeleteBlob repo d => (delete_blob repo d s).1
  | OMountBlob from to d => (mount_blob from to d s).1
  | OPutManifest repo tag d mt data links => (put_manifest repo tag d mt data links s).1
  | OGetManifest repo reference => (get_manifest repo reference s).1
  | ODeleteManifest repo d => (delete_manifest repo d s).1
  | OListTags repo last limit => (list_tags repo last limit s).1
  | OListReferrers repo d at_ last limit => (list_referrers repo d at_ last limit s).1
  | OFlushDirty => (flush_dirty s).1
  | OSweep now stale => (sweep_at now stale s).1
  end.

(** Digests come from [Digest::parse]; an upload session has an id that
    [begin_upload] handed out. *)
Definition op_ok (o : op) : Prop :=
  match o with
  | OBlobSize _ d | OBlobExists _ d | OReadBlob _ d | OOpenBlob _ d | OPutBlob _ d _ | ODeleteBlob _ d
  | OMountBlob _ _ d | OPutManifest _ _ d _ _ _ | ODeleteManifest _ d | OListReferrers _ d _ _ _ => digest_wf d
  | OAppendUpload _ id _ _ _ => upload_id id
  | OFinishUpload _ id d _ _ _ => upload_id id ∧ digest_wf d
  | _ => True
  end.

(** A store as [open] leaves it: blob files that are what their names say, an
    empty cache, no session locks. *)
Record opened (s : Store) : Prop := {
  op_cas : cas_ok (files (fs s));
  op_cache : ∃ threshold capacity, cache s = with_limits threshold capacity ∧ (0 ≤ capacity < 2 ^ 63)%Z;
  op_hash : session_hash s = ∅;
}.

Inductive reachable : Store → Prop :=
  | reach_open s : opened s → reachable s
  | reach_step s o : reachable s → op_ok o → reachable (step o s).
End Run.

Section Integrity.
Context `{!Crypto, !CryptoLaws, !World, !SerdeJson, !HashIter, !MetadataStore, !Lru, !LruLaws, !Cuckoo}.

Lemma opened_inv s : opened s → store_inv s.
Proof.
  intros [I1 (th & cap & Hc & Hcap) I3]. split; [done| | |].
  - rewrite Hc. split; [apply with_limits_ok; lia|simpl; lia].
  - intros k b Hk. rewrite Hc in Hk. simpl in Hk. rewrite lru_entries_unbounded in Hk. by apply elem_of_nil in Hk.
  - intros repo id h _ Hh. rewrite I3, lookup_empty in Hh. done.
Qed.

(** Every operation preserves the invariant. *)
Lemma step_pres o : op_ok o → ∀ s, pres s (step o s).
Proof.
  intros Ho s. destruct o; simpl in *.
  - apply calm_pres, blob_size_calm.
  - apply calm_pres, blob_exists_calm.
  - by eapply sp_pres, read_blob_spec.
  - by eapply sp_pres, open_blob_spec.
  - apply begin_upload_pres.
  - by eapply sp_pres, append_upload_spec.
  - apply upload_size_pres.
  - destruct Ho. by eapply sp_pres, finish_upload_spec.
  - apply abort_upload_pres.
  - by eapply sp_pres, put_blob_spec.
  - by apply calm_pres, delete_blob_calm.
  - by eapply sp_pres, mount_blob_spec.
  - by eapply sp_pres, put_manifest_sp.
  - eapply sp_pres, get_manifest_spec.
  - by eapply sp_pres, delete_manifest_sp.
  - apply calm_pres, list_tags_calm.
  - eapply sp_pres, list_referrers_spec.
  - apply calm_pres, flush_dirty_calm.
  - apply sweep_at_pres.
Qed.

Lemma reachable_inv s : reachable s → store_inv s.
Proof. induction 1 as [s Hs|s o _ IH Ho]; [by apply opened_inv|]. by apply step_pres. Qed.

(** *** Appending to a session that has a staging file *)

Lemma session_lock_fs repo id s :
  fs (session_lock repo id s).1 = fs s ∧ pending_uploads (session_lock repo id s).1 = pending_uploads s.
Proof.
  unfold session_lock, mbind, M_bind, of_result. destruct (SafeComponent id); [|done].
  simpl. by case_match.
Qed.

Lemma prepare_existing repo id q s :
  upload_id id → upload_rel repo id = Ok q → is_pending repo id s = false → store_inv s →
  let '(s', r) := prepare_session repo id s in
  store_inv s' ∧ files (fs s') = files (fs s) ∧
  match r with Ok x => ready q x (fs s') | Err _ => True end.
Proof.
  intros Hid Hq Hp Hs. destruct (prepare_session_spec any repo id q Hid Hq s Hs I) as [I1 I2].
  assert (Hst : files (fs (prepare_session repo id s).1) = files (fs s)).
  { assert (Hsame : runs same_files (prepare_staging q false)) by (unfold prepare_staging; runs_auto).
    unfold prepare_session, mbind, M_bind, of_result, gets. rewrite Hq, Hp. revert Hsame.
    generalize (prepare_staging q false). intros m Hm. specialize (Hm (fs s)).
    unfold io_nf, mapping_err, on_fs, focus. by destruct (m (fs s)) as [f' [x|e]]. }
  destruct (prepare_session repo id s) as [s' [x|e]]; simpl in *; auto.
Qed.

Lemma append_at_session (φ : Prop) repo id q i c body limit s :
  φ → upload_id id → upload_rel repo id = Ok q → store_inv s → files (fs s) !! q = Some (Reg i c) →
  let '(s', r) :=
    (taken ← take_hash repo id;
     let seed := match taken with
                 | Some h => Some h
                 | None => if (blen c =? 0)%Z then Some StagedHash_new else None
                 end in
     rel ← of_result (upload_rel repo id);
     '(total, extended) ← on_fs (append_body rel (blen c) body limit seed);
     set_hash repo id extended;; mret total) s in
  match r with
  | Ok n => φ ∧ ∃ all, delivered body = Some all ∧ files (fs s') !! q = Some (Reg i (c ++ all)) ∧ n = blen (c ++ all)
  | Err _ => faulty ∨ files (fs s') !! q = Some (Reg i c)
  end.
Proof.
  intros Hφ Hid Hq Hs Hf. destruct (take_hash_spec repo id q i c Hid Hq s Hs Hf) as [I1 I2].
  unfold mbind at 1, M_bind at 1. destruct (take_hash repo id s) as [s1 [h|e]] eqn:Et; [|done]. simpl in I1, I2.
  destruct (I2 h eq_refl) as [[_ Hf1] Hh%seeds_new].
  unfold of_result, mbind, M_bind. rewrite Hq.
  set (seed := match h with Some _ => _ | None => _ end) in *.
  unfold on_fs, focus, append_body, mbind, M_bind.
  destruct (append_inner q (blen c) body limit seed false (fs s1)) as [f2 [d|e]] eqn:E; simpl.
  - apply (append_inner_ok q i c) in E as (w & all & D & Hw & (E1 & _ & E3 & E4) & Ht & _); [|done..].
    specialize (Ht eq_refl). rewrite Ht, app_nil_r in E1. subst w. split; [done|]. exists all. rewrite blen_app. split_and!; [done..|lia].
  - apply (append_inner_err q i c) in E as [_ [?|[? _]]]; [by left|by right|done..].
Qed.
End Integrity.

(** C1: content addressing holds in every state the server reaches, whatever
    system calls fail and however writes are cut short: a blob file, a blob or
    a manifest that is served, from the cache or from disk, hashes to its
    digest. *)
Theorem served_content_is_authentic
    `{!Crypto, !CryptoLaws, !World, !SerdeJson, !HashIter, !MetadataStore, !Lru, !LruLaws, !Cuckoo} s :
  reachable s →
  cas_ok (files (fs s)) ∧
  (∀ repo d b, digest_wf d → (read_blob repo d s).2 = Ok b → digest_of b (algorithm d) = d) ∧
  (∀ repo d b n, digest_wf d → (open_blob repo d s).2 = Ok (b, n) → digest_of b (algorithm d) = d ∧ n = blen b) ∧
  (∀ repo reference m, (get_manifest repo reference s).2 = Ok m →
     digest_of (mr_bytes m) (algorithm (mr_digest m)) = mr_digest m).
Proof.
  intros Hs%reachable_inv. split_and!; [apply Hs| | |].
  - intros repo d b Hd. by apply (read_blob_spec repo d Hd s Hs I).
  - intros repo d b n Hd. by apply (open_blob_spec repo d Hd s Hs I).
  - intros repo reference m Hm. by apply (get_manifest_spec repo reference s Hs I).
Qed.

(** C3: an operation that reports that a blob landed has stored it: after a
    successful [finish_upload], [put_blob], [put_manifest] or cross-repository
    mount, the repository has the blob's file and its content hashes to the
    digest, whatever failed on the way. *)
Theorem landed_blob_is_stored
    `{!Crypto, !CryptoLaws, !World, !SerdeJson, !HashIter, !MetadataStore, !Lru, !LruLaws, !Cuckoo} s d :
  reachable s → digest_wf d →
  (∀ repo id max trailing limit, upload_id id →
     let '(s', r) := finish_upload repo id d max trailing limit s in r = Ok tt → stored repo d (files (fs s'))) ∧
  (∀ repo data, let '(s', r) := put_blob repo d data s in r = Ok tt → stored repo d (files (fs s'))) ∧
  (∀ repo tag mt data links,
     let '(s', r) := put_manifest repo tag d mt data links s in r = Ok tt → stored repo d (files (fs s'))) ∧
  (∀ from to, from ≠ to →
     let '(s', r) := mount_blob from to d s in r = Ok true → stored to d (files (fs s'))).
Proof.
  intros Hs%reachable_inv Hd. split_and!.
  - intros repo id max trailing limit Hid.
    pose proof (finish_upload_spec repo id d max trailing limit Hid Hd s Hs I) as [_ HQ].
    destruct (finish_upload _ _ _ _ _ _ s). apply (HQ tt).
  - intros repo data. pose proof (put_blob_spec repo d data Hd s Hs I) as [_ HQ].
    destruct (put_blob _ _ _ s). apply (HQ tt).
  - intros repo tag mt data links. pose proof (put_manifest_sp repo tag d mt data links Hd s Hs I) as [_ HQ].
    destruct (put_manifest _ _ _ _ _ _ s). intros Hr. exact (proj1 (HQ tt Hr)).
  - intros from to Hne. pose proof (mount_blob_spec from to d Hd s Hs I) as [_ HQ].
    destruct (mount_blob _ _ _ s). intros Hr. by apply (HQ true).
Qed.


(** ** A concrete server *)

(** Every system call succeeds, the clock counts them, and random bytes are
    the number of the call. *)
Module ToyServer.
#[export] Instance toy_world : World := {|
  fault _ := None;
  partial _ := 0;
  supported _ := true;
  getrandom n := Ok (replicate 2 (ascii_of_nat (16 + n)));
  clock n := Z.of_nat n;
|}.

#[export] Existing Instances Toy.toy_crypto Toy.toy_laws ToyLog.toy_json ToyStore.state_store
  ToyStore.state_store_laws ToyCache.toy_lru ToyCache.toy_lru_laws ToyCache.toy_cuckoo map_order.

Definition empty_store : Store := mkStore (mkFs ∅ 1 0) (∅ : State) filter_new (with_limits 100 4096)
  (gc_new true 0) (quota_new {| max_repo_bytes := 0; max_total_bytes := 0; max_upload_sessions := 0 |})
  (dedupe_new true) ∅ ∅ ∅ false.

Definition content : bytes := as_bytes "hello, world".
Definition d : Digest := digest_of content "sha256".

(** A session with two chunks, and a copy in a second repository. *)
Definition id : string := match (begin_upload "a" empty_store).2 with Ok id => id | Err _ => "" end.
Definition session : list op :=
  [OBeginUpload "a"; OAppendUpload "a" id [Ok (take 5 content)] (Some 0%Z) 100].
Definition pushed : list op :=
  session ++ [OFinishUpload "a" id d 1000 [Ok (drop 5 content)] 100].
Definition run (ops : list op) : Store := foldl (λ s o, step o s) empty_store ops.

Lemma run_reachable ops : Forall op_ok ops → reachable (run ops).
Proof.
  unfold run. assert (Ho : reachable empty_store).
  { apply reach_open. split; [intros p i b Hp; simpl in Hp; by rewrite lookup_empty in Hp|by exists 100%Z, 4096%Z|done]. }
  revert Ho. generalize empty_store. induction ops as [|o ops IH]; intros s Hs Hok; simpl; [done|].
  apply Forall_cons in Hok as [Ho Hok]. by apply IH; [apply reach_step|].
Qed.

Lemma d_wf : digest_wf d.
Proof. apply digest_of_wf. Qed.
Lemma session_ok : Forall op_ok session.
Proof. by repeat constructor. Qed.
Lemma pushed_ok : Forall op_ok pushed.
Proof. repeat constructor; try done; apply d_wf. Qed.

Definition staging_path : path := ["a"; "uploads"; id].

(** The same content pushed a second time, and a third session begun. *)
Definition id2 : string := match (begin_upload "a" (run pushed)).2 with Ok id => id | Err _ => "" end.
Definition pushed_twice : list op :=
  pushed ++ [OBeginUpload "a"; OAppendUpload "a" id2 [Ok content] None 100; OFinishUpload "a" id2 d 1000 [] 100].
Definition id3 : string := match (begin_upload "a" (run pushed_twice)).2 with Ok id => id | Err _ => "" end.
End ToyServer.

Import ToyServer.

Lemma served_content_is_authentic_witness :
  (read_blob "a" d (run pushed)).2 = Ok content ∧ digest_of content (algorithm d) = d.
Proof.
  assert (Hr : (read_blob "a" d (run pushed)).2 = Ok content) by (vm_compute; reflexivity).
  split; [exact Hr|].
  destruct (served_content_is_authentic (run pushed) (run_reachable pushed pushed_ok)) as (_ & Hread & _).
  exact (Hread "a" d content d_wf Hr).
Defined.

Lemma landed_blob_is_stored_witness :
  stored "a" d (files (fs (finish_upload "a" id d 1000 [Ok (drop 5 content)] 100 (run session)).1)).
Proof.
  destruct (landed_blob_is_stored (run session) d (run_reachable session session_ok) d_wf) as (Hf & _).
  specialize (Hf "a" id 1000%Z [Ok (drop 5 content)] 100%Z eq_refl).
  assert (Hr : (finish_upload "a" id d 1000 [Ok (drop 5 content)] 100 (run session)).2 = Ok tt) by (vm_compute; reflexivity).
  destruct (finish_upload _ _ _ _ _ _ _) as [s' r]. exact (Hf Hr).
Defined.


(** A second upload of a blob that is already stored succeeds but leaves its
    staging file behind, although its session ended. Aborting it then ends a
    session again: the server counts none while another one is open. *)
Lemma duplicate_upload_leaves_staging_file :
  let s := run pushed_twice in
  let s' := run (pushed_twice ++ [OBeginUpload "a"; OAbortUpload "a" id2]) in
  (finish_upload "a" id2 d 1000 [] 100 (run (pushed ++ [OBeginUpload "a"; OAppendUpload "a" id2 [Ok content] None 100]))).2 = Ok tt ∧
  files (fs s) !! ["a"; "uploads"; id2] = Some (Reg 3 content) ∧ sessions (quota s) = 0%Z ∧
  sessions (quota s') = 0%Z ∧ is_pending "a" id3 s' = true.
Proof. vm_compute. auto. Qed.
