(* ===== verification/StartupFacts.v ===== *)
(** What a started store is: the walk finds the blobs, so they are served, the
    files are not changed, and the candidates the collector starts from are
    unreferenced. *)

From S2P Require Import StorageApi Prelude RustStr Json Errors Names Digest Paths Quota Metadata MetaLog.
From S2P Require Import MetaStore SmallCache Effect FileSys FileSysFacts Walk Layout Lifecycle.
From S2P Require Import UploadBody FsStorage FsInvariant FsSessions FsRun Startup.

Section Facts.
Context `{!Crypto, !CryptoLaws, !World, !SerdeJson, !HashIter, !MetadataStore, !Lru, !LruLaws, !Cuckoo}.

(** ** Recovery keeps the invariant *)

Lemma same_shrinks {E A : Type} (m : M Fs E A) : runs same_files m → runs shrinks m.
Proof. intros Hm f p n. by rewrite (Hm f). Qed.

Lemma walk_same depth : ∀ dir rel, runs same_files (walk depth dir rel).
Proof.
  induction depth as [|depth IH]; intros dir rel; cbn [walk]; [runs_auto|]. unfold has_regular.
  apply runs_bind; [runs_auto; apply readdir_same|]. intros [entries|e]; [|runs_auto].
  apply runs_bind; [runs_auto|intros here]. apply runs_bind; [|runs_auto].
  apply each_entry_same. intros name [| |]; [|runs_auto..]. case_match; [runs_auto|apply IH].
Qed.

Lemma unlinkat_shrinks p : runs shrinks (unlinkat p).
Proof.
  intros f q n. unfold unlinkat, syscall, tick, mbind, M_bind, gets, throw, modify. simpl.
  destruct (fault _); simpl; [done|]. destruct (node_at _ p) as [[]|]; simpl; try done; by intros [_ ?]%lookup_delete_Some.
Qed.

Lemma remove_orphans_shrinks dir es : runs shrinks (remove_orphans dir es).
Proof.
  induction es as [|[name n] es IH]; simpl; [runs_auto|]. apply runs_bind; [|intros _; done].
  case_match; [|runs_auto]. apply runs_bind; [apply runs_attempt, same_shrinks, statat_same|].
  intros [[]|]; try runs_auto. apply unlinkat_shrinks.
Qed.

Lemma sweep_orphans_pres repo : runs pres (on_fs (sweep_index_tmp_orphans repo)).
Proof.
  apply shrink_pres. unfold sweep_index_tmp_orphans. destruct (repo_rel repo); [|runs_auto].
  apply runs_bind; [apply runs_attempt, same_shrinks, readdir_same|]. intros [es|e]; [apply remove_orphans_shrinks|runs_auto].
Qed.

Lemma each_runs {A : Type} (R : Store → Store → Prop) `{!PreOrder R} (f : A → M Store errno ()) l : (∀ x, runs R (f x)) → runs R (each f l).
Proof. intros Hf. induction l; simpl; [apply runs_ret|]. by apply runs_bind. Qed.

Lemma aside_pres {E : Type} (g : Store → Store) : aside g → runs (E := E) pres (modify g).
Proof. intros Hg s Hs. by apply (aside_inv g). Qed.

Lemma same_pres {E A : Type} (m : M Fs E A) : runs same_files m → runs pres (on_fs m).
Proof. intros Hm. by apply shrink_pres, same_shrinks. Qed.

Lemma recover_pres : runs pres recover.
Proof.
  assert (Hd : runs pres (on_fs discover_repos)) by apply same_pres, walk_same.
  assert (Hi : ∀ repo, runs pres (on_fs (read_index_beneath repo))) by (intros; apply same_pres, read_index_beneath_same).
  pose proof sweep_orphans_pres as Hs.
  assert (Hm : ∀ repo, runs pres (mark_dirty repo)).
  { intros repo. unfold mark_dirty, mark_index_dirty. runs_auto; by apply aside_pres. }
  assert (Hw : ∀ repo e, runs pres (warm_entry repo e)).
  { intros repo e. unfold warm_entry, meta_record. runs_auto; by apply aside_pres. }
  unfold recover, warm_referrers_from_layout, reconcile_index_json. apply runs_bind; [|intros _].
  - apply runs_bind; [done|intros repos]. apply each_runs; [apply _|]. intros repo.
    apply runs_bind; [by apply runs_attempt|]. intros [[index|]|e]; [|runs_auto..]. by apply each_runs; [apply _|].
  - apply runs_bind; [done|intros repos]. apply runs_bind.
    { apply each_runs; [apply _|]. intros repo. unfold reconcile_one. apply runs_bind; [done|intros _].
      apply runs_bind; [by apply runs_attempt|]. intros [[index|]|e]; [|runs_auto..].
      apply runs_bind; [by apply aside_pres|intros _]. apply runs_bind; [runs_auto|intros rebuilt]. case_match; [runs_auto|done]. }
    intros _. apply runs_bind; [runs_auto|intros known]. apply runs_bind.
    { apply each_runs; [apply _|]. intros repo. unfold reconcile_known. apply runs_bind; [done|intros _].
      apply runs_bind; [by apply runs_attempt|]. intros [[index|]|e]; [runs_auto|done..]. }
    intros _. apply runs_bind; [apply runs_attempt, calm_pres, flush_dirty_calm|intros ?; runs_auto].
Qed.

(** ** Programs that only read the files *)

(** What seeding may change: the filter, the deduplication index and the
    quota. *)
Definition seeds_only (s s' : Store) : Prop :=
  files (fs s') = files (fs s) ∧ meta s' = meta s ∧ cache s' = cache s ∧ gc s' = gc s ∧
  session_hash s' = session_hash s ∧ pending_uploads s' = pending_uploads s ∧ commit s' = commit s.

#[local] Instance seeds_only_preorder : PreOrder seeds_only.
Proof.
  split; [by intros s|]. unfold seeds_only. intros s1 s2 s3. intros; destruct_and!. split_and!; congruence.
Qed.

Lemma on_fs_sure {A : Type} (m : M Fs errno A) P s :
  sure (files (fs s)) m P → seeds_only s (on_fs m s).1 ∧ ∃ a, (on_fs m s).2 = Ok a ∧ P a ∧
    presence (on_fs m s).1 = presence s.
Proof.
  intros Hm. destruct (Hm (fs s) eq_refl) as (Hf & a & Ha & HP). unfold on_fs, focus.
  destruct (m (fs s)) as [f r]. simpl in *. subst r. split; [by split_and!|]. eauto.
Qed.

Lemma attempt_on_fs {E E' A : Type} (m : M Fs E A) s : attempt (E' := E') (on_fs m) s = on_fs (attempt m) s.
Proof. unfold attempt, on_fs, focus. by destruct (m (fs s)). Qed.

Context `{!CuckooLaws}.

Definition entry_key (e : cas_entry) : string := cache_key (ce_repo e) (Digest_fmt (ce_digest e)).

Lemma seed_entry_spec track e s l :
  filter_ok (presence s) l →
  (seed_entry track e s).2 = Ok tt ∧ seeds_only s (seed_entry track e s).1 ∧
  filter_ok (presence (seed_entry track e s).1) (entry_key e :: l).
Proof.
  intros Hl. unfold seed_entry, mbind, M_bind, modify.
  set (s1 := set_dedupe _ (set_presence _ s)).
  assert (Hs1 : seeds_only s s1) by by split_and!.
  assert (Hp1 : filter_ok (presence s1) (entry_key e :: l)) by by apply filter_ok_insert.
  destruct track; [|done].
  destruct (on_fs_sure (attempt (statat (ce_path e))) _ s1 (statat_sure _ _)) as (Hs2 & r & Hr & _ & Hp2).
  rewrite attempt_on_fs. destruct (on_fs (attempt (statat (ce_path e))) s1) as [s2 r2]. simpl in *. subst r2.
  assert (seeds_only s s2) by (by etrans). rewrite <-Hp2 in Hp1.
  destruct r as [[]|e']; done.
Qed.

Lemma each_seed_spec track es s l :
  filter_ok (presence s) l →
  (each (seed_entry track) es s).2 = Ok tt ∧ seeds_only s (each (seed_entry track) es s).1 ∧
  filter_ok (presence (each (seed_entry track) es s).1) (reverse (entry_key <$> es) ++ l).
Proof.
  revert s l. induction es as [|e es IH]; intros s l Hl; simpl; [done|].
  destruct (seed_entry_spec track e s l Hl) as (Hr & Hs & Hp). unfold mbind, M_bind.
  destruct (seed_entry track e s) as [s1 r]. simpl in *. subst r.
  destruct (IH s1 _ Hp) as (Hr' & Hs' & Hp'). split_and!; [done|by etrans|].
  rewrite reverse_cons, <-app_assoc. done.
Qed.

Lemma count_uploads_sure t repos : sure t (count_uploads repos) (λ _, True).
Proof.
  induction repos as [|r repos IH]; simpl; [by apply sure_ret|].
  eapply sure_bind; [apply readdir_sure|]. intros es _. eapply sure_bind; [apply IH|]. intros n _. by apply sure_ret.
Qed.

Lemma seed_from_cas_spec s (P : list cas_entry → Prop) :
  filter_ok (presence s) [] → sure (files (fs s)) for_each_cas_blob P →
  seeds_only s (seed_from_cas s).1 ∧
  ∃ es, P es ∧ filter_ok (presence (seed_from_cas s).1) (reverse (entry_key <$> es)).
Proof.
  intros Hl HP. unfold seed_from_cas, gets, mbind, M_bind at 1.
  destruct (on_fs_sure for_each_cas_blob P s HP) as (Hs1 & es & Hes & HPes & Hp1).
  unfold M_bind. destruct (on_fs for_each_cas_blob s) as [s1 r1]. simpl in *. subst r1.
  rewrite <-Hp1 in Hl. destruct (each_seed_spec (tracks_bytes (quota s)) es s1 [] Hl) as (Hr2 & Hs2 & Hp2).
  destruct (each (seed_entry (tracks_bytes (quota s))) es s1) as [s2 r2]. simpl in *. subst r2.
  destruct (on_fs_sure discover_repos (λ _, True) s2) as (Hs3 & repos & Hr3 & _ & Hp3).
  { eapply sure_weaken; [apply walk_sound|done]. }
  destruct (on_fs discover_repos s2) as [s3 r3]. simpl in *. subst r3.
  destruct (on_fs_sure (count_uploads repos) (λ _, True) s3 (count_uploads_sure _ _)) as (Hs4 & n & Hr4 & _ & Hp4).
  destruct (on_fs (count_uploads repos) s3) as [s4 r4]. simpl in *. subst r4.
  split.
  - etrans; [exact Hs1|]. etrans; [exact Hs2|]. etrans; [exact Hs3|]. etrans; [exact Hs4|]. by split_and!.
  - exists es. split; [done|]. rewrite app_nil_r, <-Hp3, <-Hp4 in Hp2. exact Hp2.
Qed.

(** A started store is one from which the runs of the backend begin. *)
Lemma open_walking_opened cfg m f q :
  cas_ok (files f) → (0 ≤ cfg_cache_max_bytes cfg < 2 ^ 63)%Z → opened (open_walking cfg m f q).
Proof.
  intros Hf Hc. unfold open_walking.
  destruct (seed_from_cas_spec (bare_store cfg m f q) (λ _, True)) as [(E1 & _ & E3 & _ & E5 & _) _].
  { apply cuckoo_holds_new. }
  { eapply sure_weaken; [apply for_each_cas_blob_sound|done]. }
  split; [by rewrite E1| |by rewrite E5]. rewrite E3. simpl. case_match.
  - exists 0%Z, 0%Z. split; [done|lia].
  - eexists _, _. split; [done|lia].
Qed.

(** ** Serving after a restart *)

Hypothesis calm_world : ∀ n, fault n = None.

Lemma syscall_calm {A : Type} (k : M Fs errno A) f :
  syscall k f = k (mkFs (files f) (next_ino f) (S (ticks f))).
Proof. unfold syscall, tick, mbind, M_bind. simpl. by rewrite calm_world. Qed.

(** The directories above a path. *)
Definition parents_ok (t : gmap path node) (p : path) : Prop :=
  ∀ k, k < length p → k = 0 ∨ t !! take k p = Some Dir.

Lemma walk_parents_calm walked rel f :
  (∀ k, k ≠ [] → k `prefix_of` rel → files f !! (walked ++ k) = Some Dir) →
  ∃ f', walk_parents walked rel f = (f', Ok tt) ∧ files f' = files f.
Proof.
  revert walked f. induction rel as [|c rel IH]; intros walked f Hd; [by exists f|].
  cbn [walk_parents]. unfold mbind, M_bind. rewrite attempt_eq. unfold openat_dir. rewrite syscall_calm.
  unfold mbind, M_bind, gets. simpl.
  assert (Hc : node_at (mkFs (files f) (next_ino f) (S (ticks f))) (walked ++ [c]) = Some Dir).
  { unfold node_at. simpl. specialize (Hd [c] ltac:(done) ltac:(by exists rel)). by destruct walked. }
  rewrite Hc. simpl.
  destruct (IH (walked ++ [c]) (mkFs (files f) (next_ino f) (S (ticks f)))) as (f' & E & Hf'); [|by exists f'].
  simpl. intros k Hk Hp. rewrite <-app_assoc. apply Hd; [done|]. simpl. by apply prefix_cons.
Qed.

Lemma open_beneath_calm p f i c :
  p ≠ [] → parents_ok (files f) p → files f !! p = Some (Reg i c) →
  ∃ f', open_beneath p f = (f', Ok (i, c)) ∧ files f' = files f.
Proof.
  intros Hp Hd Hf. unfold open_beneath, resolve_beneath, io_err.
  assert (Hpre : ∀ k, k ≠ [] → k `prefix_of` removelast p → files f !! k = Some Dir).
  { intros k Hk [r Hr]. destruct (Hd (length k)) as [?|Ht]; [|by destruct k|].
    - pose proof (app_removelast_last "" Hp) as E. rewrite E, Hr, !length_app. simpl. lia.
    - replace (take (length k) p) with k in Ht; [done|].
      rewrite (app_removelast_last "" Hp), Hr, <-app_assoc. by rewrite take_app_length. }
  assert (Hall : ∀ f', files f' = files f → all_dirs f' p = true).
  { intros f' Hf'. unfold all_dirs. apply forallb_forall. intros k Hk%in_seq. apply bool_decide_eq_true.
    unfold node_at. destruct (Hd k ltac:(lia)) as [->|Ht]; [by rewrite take_0|]. rewrite Hf'. by case_match. }
  assert (Hnode : ∀ f', files f' = files f → node_at f' p = Some (Reg i c)).
  { intros f' Hf'. unfold node_at. rewrite Hf'. by destruct p. }
  unfold mbind, M_bind, mapping_err. rewrite syscall_calm. simpl.
  unfold openat2_beneath, mbind, M_bind, io_err, mapping_err, tick. simpl.
  rewrite (bool_decide_eq_false_2 (p = [])) by done.
  destruct (supported _); simpl.
  - rewrite attempt_eq, syscall_calm. unfold mbind, M_bind, gets. simpl.
    rewrite Hall, Hnode by done. simpl. unfold regular_file, mbind, M_bind, io_err, mapping_err.
    rewrite syscall_calm. simpl. by eexists.
  - destruct (walk_parents_calm [] (removelast p) (mkFs (files f) (next_ino f) (S (S (ticks f)))) Hpre) as (f1 & E & Hf1).
    rewrite E. unfold openat_leaf, mbind, M_bind. rewrite attempt_eq, syscall_calm. unfold mbind, M_bind, gets. simpl.
    rewrite Hnode by done. simpl. unfold regular_file, mbind, M_bind, io_err, mapping_err.
    rewrite syscall_calm. simpl. by eexists.
Qed.

Lemma open_blob_calm repo d p s i c :
  blob_rel repo d = Ok p → p ≠ [] → parents_ok (files (fs s)) p → files (fs s) !! p = Some (Reg i c) →
  maybe_present (presence s) repo (Digest_fmt d) = true →
  (open_blob repo d s).2 = Ok (c, blen c).
Proof.
  intros Hp Hne Hd Hf Hm. unfold open_blob, maybe, gets, mbind, M_bind. rewrite Hm. simpl. rewrite Hp. simpl.
  unfold io_nf, mapping_err, on_fs, focus. destruct (open_beneath_calm p (fs s) i c Hne Hd Hf) as (f' & -> & Hf').
  simpl. unfold io_err, mapping_err. rewrite syscall_calm. simpl. done.
Qed.

(** A name the walk enters: a component of a repository name, other than the
    two directories of a layout. *)
Definition walked_name (c : string) : Prop := component (as_bytes c) ∧ c ≠ "blobs" ∧ c ≠ "uploads".

Lemma walked_name_enters c : walked_name c → lossy c = c ∧ skipped c = false.
Proof.
  intros (Hc & Hb & Hu). split.
  - unfold lossy. rewrite from_utf8_lossy_valid; [apply of_as_bytes|]. apply utf8_ascii, Forall_forall.
    intros b Hin. destruct (component_byte _ _ Hc Hin) as [E|E];
      destruct b as [[] [] [] [] [] [] [] []]; vm_compute in E |- *; done.
  - unfold skipped. rewrite !bool_decide_eq_false_2 by done. simpl.
    destruct (component_head _ Hc) as (b & l & E & Hal). destruct c as [|a c]; [done|].
    simpl in E. injection E as -> _. by destruct b as [[] [] [] [] [] [] [] []]; vm_compute in Hal |- *.
Qed.

(** What a restart needs of a blob file: the directories above it and a layout
    marker. *)
Definition layout_blob (t : gmap path node) (repo : string) (d : Digest) (c : bytes) : Prop :=
  let cs := split "/" repo in
  (∃ i, t !! (cs ++ ["blobs"; algorithm d; hex d]) = Some (Reg i c)) ∧
  parents_ok t (cs ++ ["blobs"; algorithm d; hex d]) ∧
  ((∃ i m, t !! (cs ++ ["index.json"]) = Some (Reg i m)) ∨ (∃ i m, t !! (cs ++ ["oci-layout"]) = Some (Reg i m))).

Lemma parents_prefix t p k : parents_ok t p → k ≠ [] → k `prefix_of` p → length k < length p → t !! k = Some Dir.
Proof.
  intros Hp Hk [r ->] Hl. destruct (Hp (length k) Hl) as [E|E]; [by destruct k|].
  by rewrite take_app_length in E.
Qed.

Lemma layout_blob_visited t repo d c :
  digest_wf d → Forall walked_name (split "/" repo) → length (split "/" repo) ≤ 15 → layout_blob t repo d c →
  sure t for_each_cas_blob (λ l, cache_key repo (Digest_fmt d) ∈ entry_key <$> l).
Proof.
  intros Hd Hnames Hlen ([i Hf] & Hp & Hm). set (cs := split "/" repo) in *.
  assert (Hne : cs ≠ []) by apply split_nonempty.
  assert (Hdir : ∀ k, k ≠ [] → k `prefix_of` cs ++ ["blobs"; algorithm d] → t !! k = Some Dir).
  { intros k Hk Hpre. eapply parents_prefix; [exact Hp|done|..].
    - etrans; [exact Hpre|]. exists [hex d]. by rewrite <-app_assoc.
    - apply prefix_length in Hpre. rewrite length_app in *. simpl in *. lia. }
  eapply sure_weaken.
  - apply (for_each_cas_blob_complete calm_world t cs d i c); try done.
    + apply split_pieces.
    + split; [eapply Forall_impl; [exact Hnames|apply walked_name_enters]|].
      intros k Hk Hpre. apply Hdir; [done|]. by apply prefix_app_r.
    + apply Hdir; [by destruct cs|]. exists [algorithm d]. by rewrite <-app_assoc.
    + apply Hdir; [by destruct cs|done].
  - intros l Hl. apply list_elem_of_fmap. eexists. split; [|exact Hl]. unfold entry_key, cs. simpl. by rewrite join_split.
Qed.

End Facts.

(** ** On concrete stores *)

Import ToyServer.

Module ToyStart.
#[export] Existing Instance ToyCache.toy_cuckoo_laws.
Definition cfg : FsConfig := {| cfg_cache_max_bytes := 4096; cfg_small_blob_threshold := 100; cfg_gc_enabled := true;
  cfg_gc_delay := 0; cfg_dedupe := true; cfg_commit := false |}.
Definition restarted (s : Store) : Store := open_walking cfg (meta s) (fs s) (quota s).

(** One upload to a repository. *)
Definition push_to (repo : string) : list op :=
  let id := match (begin_upload repo empty_store).2 with Ok id => id | Err _ => "" end in
  [OBeginUpload repo; OFinishUpload repo id d 1000 [Ok content] 100].
Definition deep : string := join "/" (replicate 16 "a").
End ToyStart.
Import ToyStart.


