(* ===== verification/FsSurvive.v ===== *)
(** Stored blobs survive: no operation removes or changes a blob file, except
    the deletion of that very blob and a sweep of the garbage collector that
    found it due, unreferenced and unprotected. *)

From S2P Require Import StorageApi Prelude RustStr Json Errors Digest Paths Quota Metadata MetaLog.
From S2P Require Import MetaStore SmallCache Effect FileSys FileSysFacts Layout Lifecycle.
From S2P Require Import UploadBody FsStorage FsInvariant FsSessions FsRun.

(** ** Blob files *)

Definition blob_path (p : path) : Prop := ∃ d, blob_at p d.

Lemma harmless_not_blob p : harmless p → ¬ blob_path p.
Proof. intros [Hp _] [d Hd]. by apply (Hp d). Qed.

(** No upload path is a blob path, whatever the id. *)
Lemma upload_not_blob repo id p : upload_rel repo id = Ok p → ¬ blob_path p.
Proof.
  intros (r & _ & _ & ->)%upload_rel_ok [d Hd]. pose proof Hd as [[Ha _] _].
  apply blob_at_snoc in Hd as [r' E].
  change (r ++ ["uploads"; id]) with (r ++ ["uploads"] ++ [id]) in E. rewrite !app_assoc in E.
  apply last_snoc_inj in E as [E _].
  change (r' ++ ["blobs"; algorithm d]) with (r' ++ ["blobs"] ++ [algorithm d]) in E. rewrite app_assoc in E.
  apply last_snoc_inj in E as [_ E]. apply algorithm_len_Some in Ha as [[Ha _]|[Ha _]]; congruence.
Qed.

Lemma upload_dir_not_blob repo id dir leaf : upload_dir_rel repo id = Ok (dir, leaf) → ¬ blob_path (dir ++ [leaf]).
Proof. intros E. apply (upload_not_blob repo id). unfold upload_rel. by rewrite E. Qed.

(** Blob files stay, but for those at [K]. *)
Definition spares (K : path → Prop) (f f' : Fs) : Prop :=
  ∀ p n, blob_path p → ¬ K p → files f !! p = Some n → files f' !! p = Some n.

#[export] Instance spares_preorder K : PreOrder (spares K).
Proof. split; [by intros f p n|]. intros f1 f2 f3 I1 I2 p n Hp HK Hn. auto. Qed.

Section Spares.
Context `{!Crypto, !World} {K : path → Prop}.

Ltac sys_cases :=
  intros f; unfold syscall, tick, mbind, M_bind, gets, throw, mret, M_ret, modify, state; simpl;
  repeat case_match; simplify_eq/=.

Lemma spares_eq f f' : same_files f f' → spares K f f'.
Proof. intros E p n _ _. by rewrite E. Qed.

Lemma spares_same {E A : Type} (m : M Fs E A) : runs same_files m → runs (spares K) m.
Proof. intros Hm f p n _ _. by rewrite (Hm f). Qed.

(** A change of one path that is not a blob, or was not there. *)
Lemma spares_insert f f' p x :
  files f' = <[p := x]> (files f) → (¬ blob_path p ∨ files f !! p = None) → spares K f f'.
Proof.
  intros E Hp q n Hq _ Hn. rewrite E. rewrite lookup_insert_ne; [done|]. intros <-. destruct Hp; congruence.
Qed.
Lemma spares_delete f f' p : files f' = delete p (files f) → (¬ blob_path p ∨ K p) → spares K f f'.
Proof.
  intros E Hp q n Hq HK Hn. rewrite E. rewrite lookup_delete_ne; [done|]. intros <-. by destruct Hp.
Qed.

Lemma spares_io_err {A : Type} (m : M Fs errno A) : runs (spares K) m → runs (spares K) (io_err m).
Proof. apply runs_mapping_err. Qed.
Hint Resolve spares_same spares_io_err : runs.

Lemma mkdirat_spares p : runs (spares K) (mkdirat p).
Proof.
  unfold mkdirat. sys_cases; try (by apply spares_eq). eapply (spares_insert _ _ p); [done|]. right.
  select (node_at _ _ = None) (fun E => by apply node_at_None in E).
Qed.
Lemma unlinkat_spares p : (¬ blob_path p ∨ K p) → runs (spares K) (unlinkat p).
Proof. intros Hp. unfold unlinkat. sys_cases; try (by apply spares_eq); by apply (spares_delete _ _ p). Qed.
Lemma create_excl_spares p : runs (spares K) (create_excl p).
Proof.
  intros f. pose proof (create_excl_spec p f) as Hs. destruct (create_excl p f) as [f' [i|e]]; simpl.
  - destruct Hs as [Hn E]. eapply spares_insert; eauto.
  - intros q n _ _. by rewrite Hs.
Qed.
Lemma append_at_spares p data f : ¬ blob_path p → spares K f (append_at p data f).
Proof. intros Hp. unfold append_at. repeat case_match; try (by apply spares_eq). eapply spares_insert; eauto. Qed.
Lemma write_all_spares p data : ¬ blob_path p → runs (spares K) (write_all p data).
Proof.
  intros Hp. unfold write_all. runs_auto; apply runs_modify; intros f; by apply append_at_spares.
Qed.
Lemma set_len_spares p n : ¬ blob_path p → runs (spares K) (set_len p n).
Proof.
  intros Hp. unfold set_len, syscall. runs_auto. apply runs_modify. intros f. unfold set_len_at.
  repeat case_match; try (by apply spares_eq). eapply spares_insert; eauto.
Qed.
Lemma linkat_spares p q : runs (spares K) (linkat p q).
Proof.
  unfold linkat. sys_cases; try (by apply spares_eq); (eapply (spares_insert _ _ q); [done|]; right);
    select (node_at _ q = None) (fun E => by apply node_at_None in E).
Qed.
Lemma link_anonymous_spares data q : runs (spares K) (link_anonymous data q).
Proof.
  unfold link_anonymous. sys_cases; try (by apply spares_eq). eapply (spares_insert _ _ q); [done|]. right.
  select (node_at _ _ = None) (fun E => by apply node_at_None in E).
Qed.
Lemma rename_noreplace_spares p q : ¬ blob_path p → runs (spares K) (rename_noreplace p q).
Proof.
  intros Hp f. pose proof (rename_noreplace_spec p q f) as Hr. destruct (rename_noreplace p q f) as [f' r].
  destruct Hr as [(-> & n & Hn & _ & Hq & E)|[E _]]; simpl; [|intros x n _ _; by rewrite E].
  apply node_at_None in Hq. intros x y Hx HK Hy. rewrite E.
  rewrite lookup_insert_ne, lookup_delete_ne; [done|by intros <-|intros <-; congruence].
Qed.
Lemma rename_replace_spares p q : ¬ blob_path p → ¬ blob_path q → runs (spares K) (rename_replace p q).
Proof.
  intros Hp Hq. unfold rename_replace. sys_cases; try (by apply spares_eq); intros x y Hx HK Hy; simpl;
    (rewrite lookup_insert_ne, lookup_delete_ne; [done|by intros <-|by intros <-]).
Qed.

(** *** Programs *)

Lemma walk_dirs_spares walked rel create : runs (spares K) (walk_dirs walked rel create).
Proof.
  revert walked. induction rel; intros walked; simpl; [runs_auto|].
  pose proof (mkdirat_spares (walked ++ [a])). runs_auto.
Qed.
Hint Resolve walk_dirs_spares linkat_spares create_excl_spares : runs.
Lemma dir_beneath_spares rel create : runs (spares K) (dir_beneath rel create).
Proof. unfold dir_beneath. runs_auto. Qed.
Hint Resolve dir_beneath_spares : runs.

Lemma unlink_beneath_spares dir leaf :
  (¬ blob_path (dir ++ [leaf]) ∨ K (dir ++ [leaf])) → runs (spares K) (unlink_beneath dir leaf).
Proof. intros Hp. unfold unlink_beneath. pose proof (unlinkat_spares _ Hp). runs_auto. Qed.

Lemma rename_beneath_spares from from_leaf to to_leaf ino sync :
  ¬ blob_path (from ++ [from_leaf]) → runs (spares K) (rename_beneath from from_leaf to to_leaf ino sync).
Proof. intros Hp. unfold rename_beneath. runs_auto; by apply rename_noreplace_spares. Qed.

Lemma promote_temp_spares dir tmp leaf sync :
  harmless (dir ++ [tmp]) → runs (spares K) (promote_temp_noreplace dir tmp leaf sync).
Proof.
  intros Hp%harmless_not_blob. unfold promote_temp_noreplace.
  pose proof (rename_noreplace_spares (dir ++ [tmp]) (dir ++ [leaf]) Hp).
  pose proof (unlinkat_spares (dir ++ [tmp]) (or_introl Hp)). runs_auto.
Qed.

(** Filling and promoting a temporary file. *)
Lemma tmp_spares dir leaf rnd data sync :
  let p := dir ++ [tmp_name leaf rnd] in
  runs (spares K) (write_all p data) ∧ runs (spares K) (set_len p 0) ∧ runs (spares K) (unlinkat p) ∧
  runs (spares K) (try_reflink p data) ∧ runs (spares K) (promote_temp_noreplace dir (tmp_name leaf rnd) leaf sync).
Proof.
  pose proof (tmp_harmless dir leaf rnd) as Ht. pose proof (harmless_not_blob _ Ht) as Hp. split_and!.
  - by apply write_all_spares.
  - by apply set_len_spares.
  - apply unlinkat_spares. by left.
  - unfold try_reflink, syscall. runs_auto. apply runs_modify. intros f. by apply append_at_spares.
  - by apply promote_temp_spares.
Qed.

Lemma mount_promote_spares from to leaf copy sync :
  runs (spares K) (mount_promote_beneath from to leaf copy sync).
Proof.
  unfold mount_promote_beneath, stream_copy. do 2 (apply runs_bind; [runs_auto|intros ?]).
  apply runs_bind; [apply spares_same; change (mapping_err io_of_errno ?m) with (io_err m); apply io_err_same, syscall_same; runs_auto|].
  intros src. apply runs_bind; [runs_auto|intros ?]. destruct src as [|i content|]; [runs_auto| |runs_auto].
  apply runs_bind; [runs_auto|]. intros [n|[]]; try solve [runs_auto].
  apply runs_bind; [runs_auto|intros rnd].
  destruct (tmp_spares to leaf rnd content sync) as (I1 & I2 & I3 & I4 & I5). cbn zeta. runs_auto.
Qed.

Lemma ensure_layout_spares rel marker : runs (spares K) (ensure_layout_beneath rel marker).
Proof.
  unfold ensure_layout_beneath. apply runs_bind; [runs_auto|intros _]. apply runs_bind; [runs_auto|].
  intros [n|[]]; try solve [runs_auto]. apply runs_bind; [runs_auto|intros rnd].
  destruct (tmp_spares rel "oci-layout" rnd (as_bytes marker) true) as (I1 & _ & _ & _ & I5). cbn zeta. runs_auto.
Qed.

Lemma publish_bytes_spares dir leaf data sync : runs (spares K) (publish_bytes dir leaf data sync).
Proof.
  unfold publish_bytes, publish_bytes_rename. pose proof (link_anonymous_spares data (dir ++ [leaf])).
  apply runs_bind; [runs_auto|intros _]. apply runs_bind; [runs_auto|intros n]. destruct (negb _); [|runs_auto].
  apply runs_bind; [runs_auto|intros _]. apply runs_bind; [runs_auto|intros rnd].
  destruct (tmp_spares dir leaf rnd data sync) as (I1 & _ & _ & _ & I5). cbn zeta. runs_auto.
Qed.
Hint Resolve mount_promote_spares ensure_layout_spares publish_bytes_spares : runs.

(** *** Staging files *)

Lemma prepare_staging_spares rel create : runs (spares K) (prepare_staging rel create).
Proof. unfold prepare_staging. runs_auto. Qed.

Lemma write_batch_spares q batch hash : ¬ blob_path q → runs (spares K) (write_batch q batch hash).
Proof. intros Hq. pose proof (write_all_spares q batch Hq). unfold write_batch. runs_auto. Qed.

Lemma body_loop_spares q body limit defer batch hash written :
  ¬ blob_path q → runs (spares K) (body_loop q body limit defer batch hash written).
Proof.
  intros Hq. pose proof (λ b h, write_batch_spares q b h Hq) as Hb.
  assert (Hfill : ∀ fuel rest batch hash written, runs (spares K) (fill fuel q rest batch hash written)).
  { induction fuel; intros; cbn [fill]; runs_auto. }
  revert batch hash written. induction body as [|[] body IH]; intros; cbn [body_loop]; runs_auto.
Qed.

Lemma append_inner_spares q start body limit hash defer :
  ¬ blob_path q → runs (spares K) (append_inner q start body limit hash defer).
Proof.
  intros Hq. pose proof (set_len_spares q start Hq). unfold append_inner. runs_auto. by apply body_loop_spares.
Qed.

Lemma write_tail_spares q d : ¬ blob_path q → runs (spares K) (write_tail q d).
Proof.
  intros Hq. pose proof (set_len_spares q (d_tail_at d) Hq). pose proof (write_all_spares q (d_tail d) Hq).
  unfold write_tail. runs_auto.
Qed.

Context `{!SerdeJson}.

Lemma write_index_spares repo index : runs (spares K) (write_index_at_root repo index).
Proof.
  unfold write_index_at_root, install_index. apply runs_bind; [runs_auto|intros rel].
  do 2 (apply runs_bind; [runs_auto|intros ?]). apply runs_bind; [runs_auto|intros rnd].
  assert (Ht : ¬ blob_path (rel ++ [index_tmp rnd])) by (by apply harmless_not_blob, layout_harmless).
  pose proof (link_anonymous_spares (to_vec index) (rel ++ [index_tmp rnd])).
  pose proof (write_all_spares _ (to_vec index) Ht). pose proof (unlinkat_spares _ (or_introl Ht)).
  assert (Hi : ¬ blob_path (rel ++ ["index.json"])) by (by apply harmless_not_blob, layout_harmless).
  pose proof (rename_replace_spares _ _ Ht Hi). cbn zeta. runs_auto.
Qed.
End Spares.

#[export] Hint Resolve spares_same spares_io_err dir_beneath_spares mount_promote_spares ensure_layout_spares
  publish_bytes_spares prepare_staging_spares write_index_spares : runs.

(** ** Operations *)

Section Sparing.
Context `{!Crypto, !World, !SerdeJson, !HashIter, !MetadataStore, !Lru, !Cuckoo} {K : path → Prop}.

Definition sparing (s s' : Store) : Prop := spares K (fs s) (fs s').

#[export] Instance sparing_preorder : PreOrder sparing.
Proof. split; [by intros s p n|]. intros s1 s2 s3 I1 I2. unfold sparing in *. by etrans. Qed.

Lemma sparing_fs {E A : Type} (m : M Fs E A) : runs (spares K) m → runs sparing (on_fs m).
Proof. intros Hm s. rewrite on_fs_state. apply Hm. Qed.
Lemma sparing_io {A : Type} (m : M Fs io_error A) : runs (spares K) m → runs sparing (io m).
Proof. intros Hm. by apply runs_mapping_err, sparing_fs. Qed.
Lemma sparing_io_nf {A : Type} (m : M Fs io_error A) : runs (spares K) m → runs sparing (io_nf m).
Proof. intros Hm. by apply runs_mapping_err, sparing_fs. Qed.
Hint Resolve sparing_fs sparing_io sparing_io_nf : runs.

Lemma sparing_eq s s' : fs s' = fs s → sparing s s'.
Proof. intros E. apply spares_eq. unfold same_files. by rewrite E. Qed.
Lemma sparing_modify {E : Type} (f : Store → Store) : (∀ s, fs (f s) = fs s) → runs sparing (modify f : M Store E ()).
Proof. intros Hf s. by apply sparing_eq, Hf. Qed.
Lemma sparing_state {E A : Type} (f : Store → Store * A) : (∀ s, fs (f s).1 = fs s) → runs sparing (state f : M Store E A).
Proof. intros Hf. apply runs_state. intros s. by apply sparing_eq, Hf. Qed.

Lemma cache_put_sparing repo digest data : runs sparing (cache_put repo digest data).
Proof. by apply sparing_modify. Qed.
Lemma cache_read_sparing repo digest : runs sparing (cache_read repo digest).
Proof. apply sparing_state. intros s. by destruct (small_get _ _ _). Qed.
Lemma want_blob_sparing repo digest : runs sparing (want_blob repo digest).
Proof. apply sparing_modify. intros s. by destruct (gc_enabled _). Qed.
Lemma on_quota_sparing {A : Type} (f : Quota → Quota * result StorageError A) : runs sparing (on_quota f).
Proof. intros s. apply sparing_eq. unfold on_quota. by destruct (f _). Qed.
Lemma quota_release_sparing repo n : runs sparing (quota_release repo n).
Proof. by apply sparing_modify. Qed.
Lemma quota_end_session_sparing : runs sparing quota_end_session.
Proof. by apply sparing_modify. Qed.
Lemma blob_entered_sparing repo digest cs : runs sparing (blob_entered repo digest cs).
Proof.
  unfold blob_entered. apply runs_bind; [by apply sparing_modify|intros _]. apply sparing_modify. intros s.
  by destruct (note_blob_entered _ _ _ _ _ _ _) as [[m g] x].
Qed.
Lemma blob_left_sparing repo digest size : runs sparing (blob_left repo digest size).
Proof.
  unfold blob_left. do 2 (apply runs_bind; [by apply sparing_modify|intros _]). apply sparing_modify. intros s.
  by destruct (note_blob_left _ _ _ _ _ _ _) as [[[m g] x] q].
Qed.
Lemma mark_index_dirty_sparing repo : runs sparing (mark_index_dirty repo).
Proof. by apply sparing_modify. Qed.
Lemma meta_apply_sparing op : runs sparing (meta_apply op).
Proof. intros s. apply sparing_eq. unfold meta_apply. by destruct (mapply _ _). Qed.
Lemma set_hash_sparing repo id h : runs sparing (set_hash repo id h).
Proof. by apply sparing_modify. Qed.
Lemma drop_lock_sparing repo id : runs sparing (drop_lock repo id).
Proof. by apply sparing_modify. Qed.
Lemma session_lock_sparing repo id : runs sparing (session_lock repo id).
Proof. unfold session_lock. runs_auto. apply sparing_modify. intros s. by case_match. Qed.
Lemma take_hash_sparing repo id : runs sparing (take_hash repo id).
Proof. by apply sparing_state. Qed.
Lemma take_pending_sparing repo id : runs sparing (take_pending repo id).
Proof. by apply sparing_state. Qed.
Lemma set_clear_sparing repo digest : runs sparing (set_clear repo digest).
Proof. by apply sparing_modify. Qed.
Hint Resolve cache_put_sparing cache_read_sparing want_blob_sparing on_quota_sparing quota_release_sparing
  quota_end_session_sparing blob_entered_sparing blob_left_sparing mark_index_dirty_sparing meta_apply_sparing
  set_hash_sparing drop_lock_sparing session_lock_sparing take_hash_sparing take_pending_sparing set_clear_sparing : runs.

Lemma apply_meta_sparing repo op : runs sparing (apply_meta repo op).
Proof. unfold apply_meta. runs_auto. Qed.
Lemma ensure_layout_sparing repo : runs sparing (ensure_layout repo).
Proof. unfold ensure_layout. runs_auto. Qed.
Lemma admit_blob_sparing repo alg leaf size : runs sparing (admit_blob repo alg leaf size).
Proof. unfold admit_blob. runs_auto. Qed.
Lemma size_for_release_sparing rel : runs sparing (size_for_release rel).
Proof. unfold size_for_release. runs_auto. Qed.
Hint Resolve apply_meta_sparing ensure_layout_sparing admit_blob_sparing size_for_release_sparing : runs.
Lemma layout_and_admit_sparing rel repo alg leaf size : runs sparing (layout_and_admit rel repo alg leaf size).
Proof. unfold layout_and_admit. runs_auto. Qed.
Lemma dedupe_link_at_sparing repo dir leaf digest : runs sparing (dedupe_link_at repo dir leaf digest).
Proof. unfold dedupe_link_at. runs_auto; by apply sparing_modify. Qed.
Hint Resolve layout_and_admit_sparing dedupe_link_at_sparing : runs.

(** *** Blobs and manifests *)

Lemma blob_size_sparing repo d : runs sparing (blob_size repo d).
Proof. unfold blob_size, maybe. runs_auto. Qed.
Lemma blob_exists_sparing repo d : runs sparing (blob_exists repo d).
Proof. unfold blob_exists, maybe. runs_auto. Qed.
Lemma read_blob_sparing repo d : runs sparing (read_blob repo d).
Proof. unfold read_blob, maybe. runs_auto. Qed.
Lemma open_blob_sparing repo d : runs sparing (open_blob repo d).
Proof. unfold open_blob, maybe. runs_auto. Qed.
Hint Resolve blob_size_sparing read_blob_sparing : runs.
Lemma put_blob_sparing repo d data : runs sparing (put_blob repo d data).
Proof. unfold put_blob, verify_digest. runs_auto. Qed.
Lemma mount_blob_sparing from to d : runs sparing (mount_blob from to d).
Proof. unfold mount_blob. runs_auto; by apply sparing_modify. Qed.

Lemma recheck_sparing i rels : runs sparing (recheck i rels).
Proof. revert i. induction rels; intros i; simpl; runs_auto. Qed.
Hint Resolve recheck_sparing : runs.
Lemma put_manifest_sparing repo tag d mt data links : runs sparing (put_manifest repo tag d mt data links).
Proof. unfold put_manifest, land_manifest, verify_digest. runs_auto; by apply sparing_modify. Qed.

Lemma read_path_spares p : runs (spares K) (read_path p).
Proof. apply spares_same, read_path_same. Qed.
Lemma read_index_beneath_spares repo : runs (spares K) (read_index_beneath repo).
Proof. apply spares_same, read_index_beneath_same. Qed.
Hint Resolve read_path_spares read_index_beneath_spares : runs.

Lemma read_index_sparing repo : runs sparing (read_index repo).
Proof. unfold read_index, index_view. runs_auto. Qed.
Hint Resolve read_index_sparing : runs.
Lemma manifest_bytes_sparing repo d warm : runs sparing (manifest_bytes repo d warm).
Proof. unfold manifest_bytes. runs_auto. Qed.
Hint Resolve manifest_bytes_sparing : runs.
Lemma get_manifest_sparing repo reference : runs sparing (get_manifest repo reference).
Proof. unfold get_manifest, index_media_type_for_digest, index_resolve_tag. runs_auto. Qed.
Lemma list_tags_sparing repo last limit : runs sparing (list_tags repo last limit).
Proof. unfold list_tags. runs_auto. Qed.
Lemma list_referrers_sparing repo d at_ last limit : runs sparing (list_referrers repo d at_ last limit).
Proof. unfold list_referrers, index_resolve_tag. runs_auto. Qed.

Lemma flush_dirty_sparing : runs sparing flush_dirty.
Proof.
  assert (Hone : ∀ rg, runs sparing (flush_one rg)).
  { intros [repo g]. unfold flush_one. runs_auto. apply sparing_modify. intros s. by case_match. }
  unfold flush_dirty. apply runs_bind; [runs_auto|intros l]. induction l; simpl; runs_auto.
Qed.

(** *** Sessions *)

Lemma begin_upload_sparing repo : runs sparing (begin_upload repo).
Proof. unfold begin_upload. runs_auto; by apply sparing_modify. Qed.
Lemma upload_size_sparing repo id : runs sparing (upload_size repo id).
Proof. unfold upload_size. runs_auto. Qed.
Lemma prepare_session_sparing repo id : runs sparing (prepare_session repo id).
Proof. unfold prepare_session. runs_auto. Qed.
Hint Resolve prepare_session_sparing : runs.

Lemma unlink_upload_sparing repo id dir leaf :
  upload_dir_rel repo id = Ok (dir, leaf) → runs sparing (on_fs (unlink_beneath dir leaf)).
Proof. intros E. apply sparing_fs, unlink_beneath_spares. left. by eapply upload_dir_not_blob. Qed.

Lemma abort_upload_sparing repo id : runs sparing (abort_upload repo id).
Proof.
  unfold abort_upload. apply runs_bind; [runs_auto|intros _]. apply runs_let. intros [dir leaf] E.
  pose proof (unlink_upload_sparing repo id dir leaf E). runs_auto.
Qed.

Lemma discard_session_sparing repo id : runs sparing (discard_session repo id).
Proof.
  unfold discard_session, io. apply runs_let. intros [dir leaf] E.
  pose proof (unlink_upload_sparing repo id dir leaf E). runs_auto.
Qed.
Hint Resolve discard_session_sparing : runs.

Lemma append_upload_sparing repo id body off limit : runs sparing (append_upload repo id body off limit).
Proof.
  unfold append_upload. apply runs_bind; [runs_auto|intros _]. apply runs_bind; [runs_auto|].
  intros [| |current i]; [runs_auto..|]. apply runs_bind; [runs_auto|intros _].
  apply runs_bind; [runs_auto|intros h]. apply runs_let. intros rel E%upload_not_blob.
  apply runs_bind; [|intros [total h']; runs_auto]. apply sparing_fs. unfold append_body.
  apply runs_bind; [by apply append_inner_spares|intros d; runs_auto].
Qed.

Lemma land_blob_sparing c : ¬ blob_path (l_up_dir c ++ [l_up_leaf c]) → runs sparing (land_blob c).
Proof.
  intros Hp. assert (Hv : ∀ crc, runs sparing (land_verified c crc)).
  { intros crc. unfold land_verified. pose proof (λ K, unlink_beneath_spares (K := K) _ _ (or_introl Hp)) as Hu.
    pose proof (λ K t tl i sy, rename_beneath_spares (K := K) _ _ t tl i sy Hp) as Hr.
    runs_auto; apply sparing_fs; runs_auto. }
  unfold land_blob. pose proof (λ K b, write_tail_spares (K := K) _ b Hp) as Hw. runs_auto.
Qed.

Lemma finish_verify_spares q d cov commit alg : ¬ blob_path q → runs (spares K) (finish_verify q d cov commit alg).
Proof. intros Hq. pose proof (λ K, write_tail_spares (K := K) q d Hq). unfold finish_verify. runs_auto. Qed.

Lemma finish_upload_sparing repo id d max trailing limit : runs sparing (finish_upload repo id d max trailing limit).
Proof.
  unfold finish_upload. apply runs_bind; [runs_auto|intros _]. apply runs_let. intros rel Hq%upload_not_blob.
  apply runs_bind; [runs_auto|]. intros [| |current i]; [runs_auto..|].
  apply runs_bind; [runs_auto|intros h].
  apply runs_bind; [by apply sparing_fs, append_inner_spares|intros body].
  destruct (max <? d_len body)%Z; [runs_auto|]. apply runs_bind; [runs_auto|intros sync].
  pose proof (finish_verify_spares rel) as Hv. apply runs_bind; [runs_auto|intros [verify checked]].
  apply runs_bind; [runs_auto|intros _]. apply runs_let. intros [dir leaf] E%upload_dir_not_blob.
  apply runs_let. intros [alg hx] _. apply runs_let. intros r _.
  apply runs_bind; [by apply land_blob_sparing|intros l; runs_auto].
Qed.

Lemma sweep_stale_sparing stale : runs sparing (sweep_stale_uploads stale).
Proof.
  unfold sweep_stale_uploads. apply runs_bind; [runs_auto|intros ks]. apply runs_bind; [|intros _].
  - induction ks as [|[repo id] ks IH]; simpl; runs_auto.
  - induction stale as [|[[repo id] old] stale IH]; simpl; [runs_auto|]. apply runs_bind; [|intros _; exact IH].
    destruct (upload_dir_rel repo id) as [[dir leaf]|] eqn:E; [|runs_auto].
    pose proof (unlink_upload_sparing repo id dir leaf E). runs_auto.
Qed.

(** *** Deletion *)

Lemma delete_blob_sparing repo d :
  (∀ p, blob_rel repo d = Ok p → K p) → runs sparing (delete_blob repo d).
Proof.
  intros HK. unfold delete_blob. apply runs_let. intros [dir leaf] E. runs_auto.
  apply sparing_io_nf, unlink_beneath_spares. right. apply HK. unfold blob_rel. by rewrite E.
Qed.

Lemma delete_manifest_sparing repo d :
  (∀ p, blob_rel repo d = Ok p → K p) → runs sparing (delete_manifest repo d).
Proof.
  intros HK. unfold delete_manifest. apply runs_let. intros [dir leaf] E.
  apply runs_bind; [runs_auto|intros b]. apply runs_bind.
  { apply sparing_io_nf, unlink_beneath_spares. right. apply HK. unfold blob_rel. by rewrite E. }
  intros _. do 2 (apply runs_bind; [runs_auto|intros _]). apply sparing_modify. intros s. apply sweep_marks_still.
Qed.
End Sparing.

(** ** The sweep *)

Section Sweep.
Context `{!Crypto, !World, !SerdeJson, !HashIter, !MetadataStore, !MetadataStoreLaws, !Lru, !Cuckoo}.

(** What the sweep requires of a blob before it removes it. *)
Record collectable (now : Z) (s : Store) (repo digest : string) : Prop := {
  co_due : is_due (gc s) repo digest now = true;
  co_root : is_root (gc s) repo digest = false;
  co_safe : is_unsafe (gc s) repo = false;
  co_refs : get_backrefs (mview (meta s)) repo digest = [];
  co_manifest : manifest_media_type (mview (meta s)) repo digest = None;
}.

(** Along a sweep nothing becomes collectable, and only collectable blobs go. *)
Definition swept (now : Z) (s s' : Store) : Prop :=
  (∀ repo digest, collectable now s' repo digest → collectable now s repo digest) ∧
  ∀ repo d p n, digest_wf d → blob_rel repo d = Ok p → files (fs s) !! p = Some n →
    files (fs s') !! p = Some n ∨ ∃ digest, Digest_parse digest = Ok d ∧ collectable now s repo digest.

#[export] Instance swept_preorder now : PreOrder (swept now).
Proof.
  split; [intros s; split; [done|by left]|]. intros s1 s2 s3 [I1 I2] [J1 J2]. split; [auto|].
  intros repo d p n Hd Hp Hn. destruct (I2 repo d p n Hd Hp Hn) as [Hn2|?]; [|by right].
  destruct (J2 repo d p n Hd Hp Hn2) as [?|(digest & ? & ?)]; [by left|right]. eauto.
Qed.

(** Steps that keep the files and what the collector knows. *)
Lemma swept_files now s s' :
  same_files (fs s) (fs s') → (∀ repo digest, collectable now s' repo digest → collectable now s repo digest) →
  swept now s s'.
Proof. intros E Hc. split; [done|]. left. by rewrite E. Qed.

Lemma set_clear_swept now repo digest : runs (swept now) (set_clear repo digest).
Proof.
  intros s. apply swept_files; [done|]. intros r x [I1 I2 I3 I4 I5]. simpl in *.
  destruct (gc_clear_facts (gc s) repo digest r x now) as (J1 & J2 & J3). rewrite J2 in I2. rewrite J3 in I3.
  split; auto.
Qed.

Lemma blob_left_swept now repo digest size : runs (swept now) (blob_left repo digest size).
Proof.
  unfold blob_left. apply runs_bind; [|intros _]; [intros s; by apply swept_files; [|intros r x []; split]|].
  apply runs_bind; [|intros _]; [intros s; by apply swept_files; [|intros r x []; split]|].
  intros s. pose proof (note_blob_left_facts (meta s) (gc s) (dedupe s) (quota s) repo digest size) as Hn.
  unfold modify. destruct (note_blob_left _ _ _ _ _ _ _) as [[[m g] x] q]. apply swept_files; [done|]. simpl.
  intros r y [I1 I2 I3 I4 I5]. simpl in *. destruct (Hn r y now) as (J1 & J2 & J3 & J4 & J5).
  split; simpl; rewrite <-?J2, <-?J3, <-?J4, <-?J5; auto.
Qed.

Lemma on_fs_swept {E A : Type} now (m : M Fs E A) : runs same_files m → runs (swept now) (on_fs m).
Proof. intros Hm s. rewrite on_fs_state. by apply swept_files; [apply Hm|intros r x []; split]. Qed.

(** Removing the file of a collectable blob. *)
Lemma unlink_swept now repo digest d dir leaf s :
  collectable now s repo digest → Digest_parse digest = Ok d → blob_dir_rel repo d = Ok (dir, leaf) →
  swept now s (on_fs (unlink_beneath dir leaf) s).1.
Proof.
  intros Hc Hd Hdir. rewrite on_fs_state. split; [by intros r x []; split|].
  intros repo' d' p n Hd' Hp Hn. destruct (decide (p = dir ++ [leaf])) as [->|Hne].
  - right. assert (Hr : blob_rel repo d = Ok (dir ++ [leaf])) by (unfold blob_rel; by rewrite Hdir).
    destruct (blob_rel_inj _ _ _ _ _ Hp Hr) as [-> ->]. by exists digest.
  - left. simpl. by rewrite unlink_beneath_only.
Qed.

Lemma sweep_one_swept now k : runs (swept now) (sweep_one now k).
Proof.
  destruct k as [repo digest]. intros s. unfold sweep_one, mbind, M_bind, gets.
  pose proof (set_clear_swept now repo digest s) as Hclear.
  destruct (is_due (gc s) repo digest now) eqn:E1; simpl; [|done].
  destruct (is_root (gc s) repo digest) eqn:E2; [done|]. destruct (is_unsafe (gc s) repo) eqn:E3; [done|].
  case_bool_decide as E4; [done|]. case_bool_decide as E5; [done|].
  destruct (Digest_parse digest) as [d|] eqn:Ed; [|done].
  destruct (blob_dir_rel repo d) as [[dir leaf]|] eqn:Edir; [|done].
  assert (Hc : collectable now s repo digest).
  { split; try done. by apply eq_None_not_Some. }
  rewrite attempt_eq. pose proof (on_fs_swept now _ (stat_beneath_same (dir ++ [leaf])) s) as Hst.
  pose proof (on_fs_state (stat_beneath (dir ++ [leaf])) s) as Hfs.
  assert (Hc1 : collectable now (on_fs (stat_beneath (dir ++ [leaf])) s).1 repo digest).
  { rewrite Hfs. destruct Hc. by split. }
  pose proof (unlink_swept now repo digest d dir leaf _ Hc1 Ed Edir) as Hun. revert Hst Hc1 Hun.
  generalize (on_fs (stat_beneath (dir ++ [leaf])) s). clear Hfs. intros [s1 r1] Hst Hc1 Hun. simpl in Hst, Hc1, Hun.
  assert (Hcl : ∀ t, swept now s t → swept now s (set_clear repo digest t).1).
  { intros t Ht. etrans; [exact Ht|apply set_clear_swept]. }
  simpl. destruct r1 as [[[[] size]|]|e]; [|exact (Hcl _ Hst)..|].
  - rewrite attempt_eq. simpl. assert (Hu : swept now s (on_fs (unlink_beneath dir leaf) s1).1) by (by etrans).
    destruct (on_fs (unlink_beneath dir leaf) s1) as [s2 [[]|e]]; simpl in *.
    + etrans; [exact Hu|exact (blob_left_swept now repo digest (Some size) s2)].
    + case_decide; [exact (Hcl _ Hu)|exact Hu].
  - case_decide; [exact (Hcl _ Hst)|exact Hst].
Qed.

Lemma sweep_all_swept now ks : runs (swept now) (sweep_all now ks).
Proof. induction ks; simpl; [runs_auto|]. apply runs_bind; [apply sweep_one_swept|done]. Qed.

(** One sweep: stale uploads come last and touch no blob. *)
Lemma sweep_at_survives now stale s repo d p n :
  digest_wf d → blob_rel repo d = Ok p → files (fs s) !! p = Some n →
  files (fs (sweep_at now stale s).1) !! p = Some n ∨
  is_ready (gc s) = true ∧ ∃ digest, Digest_parse digest = Ok d ∧ collectable now s repo digest.
Proof.
  intros Hd Hp Hn. unfold sweep_at, mbind, M_bind, gets. destruct (is_ready (gc s)) eqn:Er; simpl; [|by left].
  destruct (sweep_all_swept now (due (gc s) now) s) as [_ Hs]. specialize (Hs repo d p n Hd Hp Hn).
  destruct (sweep_all now (due (gc s) now) s) as [s1 [[]|e]]; simpl in Hs |- *.
  - destruct Hs as [Hs|Hs]; [left|by right]. apply (sweep_stale_sparing (K := λ _, False) stale s1); [|auto..].
    exists d. split; [done|]. by exists repo.
  - destruct Hs; auto.
Qed.

(** Every other operation, up to the blob it deletes. *)
Lemma step_sparing o s :
  (∀ now stale, o ≠ OSweep now stale) →
  spares (λ p, ∃ repo d, (o = ODeleteBlob repo d ∨ o = ODeleteManifest repo d) ∧ blob_rel repo d = Ok p)
    (fs s) (fs (step o s)).
Proof.
  intros Ho. destruct o; simpl; try (by destruct (Ho now stale)).
  - apply blob_size_sparing.
  - apply blob_exists_sparing.
  - apply read_blob_sparing.
  - apply open_blob_sparing.
  - apply begin_upload_sparing.
  - apply append_upload_sparing.
  - apply upload_size_sparing.
  - apply finish_upload_sparing.
  - apply abort_upload_sparing.
  - apply put_blob_sparing.
  - apply delete_blob_sparing. eauto 10.
  - apply mount_blob_sparing.
  - apply put_manifest_sparing.
  - apply get_manifest_sparing.
  - apply delete_manifest_sparing. eauto 10.
  - apply list_tags_sparing.
  - apply list_referrers_sparing.
  - apply flush_dirty_sparing.
Qed.
End Sweep.

(** C2: a stored blob survives every operation of the store, whatever fails:
    its file is the same afterwards, unless the operation deletes that very
    blob, or it is a sweep of an enabled and ready collector, and before the
    sweep the blob was due, in no protected repository or root set, no
    manifest, and referenced by no manifest. *)
Theorem blob_survives
    `{!Crypto, !World, !SerdeJson, !HashIter, !MetadataStore, !MetadataStoreLaws, !Lru, !Cuckoo} s o repo d p n :
  digest_wf d → blob_rel repo d = Ok p → files (fs s) !! p = Some n →
  files (fs (step o s)) !! p = Some n ∨ o = ODeleteBlob repo d ∨ o = ODeleteManifest repo d ∨
  ∃ now stale digest, o = OSweep now stale ∧ is_ready (gc s) = true ∧ Digest_parse digest = Ok d ∧
    collectable now s repo digest.
Proof.
  intros Hd Hp Hn. assert (Hb : blob_path p) by (exists d; split; [done|by exists repo]).
  assert (Hcase : (∃ now stale, o = OSweep now stale) ∨ ∀ now stale, o ≠ OSweep now stale).
  { destruct o; try (by right; intros ? ? [=]). eauto. }
  destruct Hcase as [(now & stale & ->)|Ho].
  - destruct (sweep_at_survives now stale s repo d p n Hd Hp Hn) as [?|(Hr & digest & ? & ?)]; [by left|].
    right. right. right. eauto 10.
  - assert (Hdel : (o = ODeleteBlob repo d ∨ o = ODeleteManifest repo d) ∨
        ¬ (o = ODeleteBlob repo d ∨ o = ODeleteManifest repo d)).
    { destruct o; try (right; by intros [[=]|[=]]);
        destruct (decide (repo0 = repo)), (decide (d0 = d)); naive_solver. }
    destruct Hdel as [?|Hne]; [tauto|]. left. apply (step_sparing o s Ho); [done| |done]. intros (repo' & d' & Hdel & Hp').
    destruct (blob_rel_inj _ _ _ _ _ Hp Hp') as [<- <-]. by apply Hne.
Qed.

Import ToyServer.

(** The pushed blob survives a sweep of a collector that is not ready. *)
Lemma blob_survives_witness :
  ∃ p n, blob_rel "a" d = Ok p ∧ files (fs (run pushed)) !! p = Some n ∧
    files (fs (step (OSweep 1000 []) (run pushed))) !! p = Some n.
Proof.
  exists ["a"; "blobs"; "sha256"; hex d], (Reg 1 content).
  assert (Hp : blob_rel "a" d = Ok ["a"; "blobs"; "sha256"; hex d]) by (vm_compute; reflexivity).
  assert (Hn : files (fs (run pushed)) !! ["a"; "blobs"; "sha256"; hex d] = Some (Reg 1 content)) by (vm_compute; reflexivity).
  split; [exact Hp|]. split; [exact Hn|].
  destruct (blob_survives (run pushed) (OSweep 1000 []) "a" d _ _ d_wf Hp Hn) as [Hs|[[=]|[[=]|(now & stale & digest & [= <- <-] & Hr & _)]]].
  - exact Hs.
  - exfalso. revert Hr. vm_compute. discriminate.
Defined.
