(* ===== verification/Scrub.v ===== *)
(** The scrubber (fs_storage/scrub.rs): the order in which a pass visits the
    blobs, the check of one blob, and the quarantine of corrupt ones, with what
    the rest of the server does in between. The token bucket that paces a pass is
    in ScrubRate.v. *)

From S2P Require Import StorageApi Prelude RustStr Json Errors Digest Paths Quota Metadata MetaLog.
From S2P Require Import MetaStore SmallCache Effect FileSys FileSysFacts Walk Layout Lifecycle.
From S2P Require Import UploadBody FsStorage FsInvariant Startup FsSurvive.

(** ** The order of a pass *)

Record BlobEntry := mkEntry { be_repo : string; be_digest : string; be_size : Z }.
#[export] Instance BlobEntry_eq_dec : EqDecision BlobEntry.
Proof. solve_decision. Defined.

Record Segment := mkSegment { blobs : list BlobEntry }.

(** The derived [Ord]: repository, then digest, then size. *)
Definition entry_le (a b : BlobEntry) : bool :=
  if decide (be_repo a = be_repo b) then
    if decide (be_digest a = be_digest b) then (be_size a <=? be_size b)%Z
    else bool_decide (String.le (be_digest a) (be_digest b))
  else bool_decide (String.le (be_repo a) (be_repo b)).

Fixpoint insert_entry (x : BlobEntry) (l : list BlobEntry) : list BlobEntry :=
  match l with
  | [] => [x]
  | y :: l => if entry_le x y then x :: y :: l else y :: insert_entry x l
  end.
Definition sort_entries (l : list BlobEntry) : list BlobEntry := foldr insert_entry [] l.

(** [segments.last()], kept at the head while the loop runs. *)
Definition add_to_segments (segs : list Segment) (e : BlobEntry) : list Segment :=
  match segs with
  | s :: segs' =>
      if bool_decide (be_repo <$> last (blobs s) = Some (be_repo e))
      then mkSegment (blobs s ++ [e]) :: segs'
      else mkSegment [e] :: segs
  | [] => [mkSegment [e]]
  end.
Definition group_segments (entries : list BlobEntry) : list Segment :=
  reverse (foldl add_to_segments [] entries).

Fixpoint round_of (round seg_idx : nat) (segs : list Segment) : list (nat * nat) :=
  match segs with
  | [] => []
  | s :: segs =>
      (if decide (round < length (blobs s)) then [(seg_idx, round)] else []) ++ round_of round (S seg_idx) segs
  end.

Definition max_len (segs : list Segment) : nat := foldr (λ s n, length (blobs s) `max` n) 0 segs.

Definition staggered_order (segs : list Segment) : list (nat * nat) :=
  seq 0 (max_len segs) ≫= λ round, round_of round 0 segs.

Definition adaptive_reorder (order : list (nat * nat)) (already_done corrupt_seg : nat) : list (nat * nat) :=
  let remaining := drop already_done order in
  filter (λ p, p.1 = corrupt_seg) remaining ++ filter (λ p, p.1 ≠ corrupt_seg) remaining.

Inductive ScrubResult := SOk | SRepaired | SCorrupt | SSkipped.
#[export] Instance ScrubResult_eq_dec : EqDecision ScrubResult.
Proof. solve_decision. Defined.

Record ScrubCounts := mkCounts {
  c_ok : Z; c_repaired : Z; c_corrupt : Z; c_skipped : Z; c_bytes : Z;
}.

Definition counts_add (c : ScrubCounts) (r : ScrubResult) (bytes : Z) : ScrubCounts :=
  let b := (c_bytes c + bytes)%Z in
  match r with
  | SOk => mkCounts (c_ok c + 1) (c_repaired c) (c_corrupt c) (c_skipped c) b
  | SRepaired => mkCounts (c_ok c) (c_repaired c + 1) (c_corrupt c) (c_skipped c) b
  | SCorrupt => mkCounts (c_ok c) (c_repaired c) (c_corrupt c + 1) (c_skipped c) b
  | SSkipped => mkCounts (c_ok c) (c_repaired c) (c_corrupt c) (c_skipped c + 1) b
  end%Z.

(** The loop of [scrub_pass] over any check of one blob; an index out of range
    would be a panic, and running out of [fuel] is the loop not ending: both
    are [None]. *)
Section Loop.
Context {St : Type} {Er : Type} (one : BlobEntry → M St Er (ScrubResult * Z)).

Fixpoint scrub_loop (fuel : nat) (segs : list Segment) (pos : nat) (order : list (nat * nat)) (c : ScrubCounts)
    : M St Er (option ScrubCounts) :=
  match order !! pos with
  | None => mret (Some c)
  | Some (seg_idx, blob_idx) =>
      match fuel with
      | O => mret None
      | S fuel =>
          match segs !! seg_idx ≫= λ s, blobs s !! blob_idx with
          | None => mret None
          | Some entry =>
              '(result, bytes) ← one entry;
              let order :=
                match result with
                | SCorrupt => take (S pos) order ++ adaptive_reorder order (S pos) seg_idx
                | _ => order
                end in
              scrub_loop fuel segs (S pos) order (counts_add c result bytes)
          end
      end
  end.
End Loop.

Definition no_counts : ScrubCounts := mkCounts 0 0 0 0 0.

(** ** One blob *)

Definition QUARANTINE_DIR : string := ".roci-quarantine".

(** [s.replace(c, by)] *)
Fixpoint replace_char (c : ascii) (by_ : string) (s : string) : string :=
  match s with
  | "" => ""
  | String a s => (if decide (a = c) then by_ else String a "") +:+ replace_char c by_ s
  end.

Definition quarantine_leaf (repo digest : string) (ts : Z) : string :=
  replace_char "/" "__" repo +:+ "---" +:+ replace_char ":" "_" digest +:+ "---" +:+ u64_to_string ts.

(** The read loop of [crc32c_of_file]. *)
Fixpoint crc_loop `{Crypto} (crc total : Z) (reads : list (result io_error bytes)) : result io_error (Z * Z) :=
  match reads with
  | [] => Ok (crc, total)
  | r :: reads =>
      let? chunk := r in
      if bool_decide (chunk = []) then Ok (crc, total)
      else crc_loop (crc32c_append crc chunk) (total + blen chunk)%Z reads
  end.

Definition node_ino (n : node) : option Z := match n with Reg i _ => Some i | _ => None end.

Section Scrub.
Context `{!Crypto, !World, !SerdeJson, !HashIter, !MetadataStore, !Lru, !Cuckoo}.

Abbreviation bg := (M Store errno).

Definition enumerate_entry (e : cas_entry) : M Fs errno BlobEntry :=
  m ← attempt (statat (ce_path e));
  mret (mkEntry (ce_repo e) (Digest_fmt (ce_digest e)) (match m with Ok n => node_size n | Err _ => 0%Z end)).

Fixpoint enumerate_entries (es : list cas_entry) : M Fs errno (list BlobEntry) :=
  match es with
  | [] => mret []
  | e :: es => b ← enumerate_entry e; bs ← enumerate_entries es; mret (b :: bs)
  end.

Definition enumerate_segments : M Fs errno (list Segment) :=
  es ← for_each_cas_blob;
  entries ← enumerate_entries es;
  mret (group_segments (sort_entries entries)).

Definition crc32c_of_file (f : Z * bytes) : M Fs io_error (Z * Z) :=
  content ← read_to_end f;
  of_result (crc_loop 0 0 [Ok content]).

Definition quarantine_blob (repo : string) (d : Digest) (digest_str : string) : M Fs io_error () :=
  match blob_dir_rel repo d with
  | Err e => throw (IoError KInvalidInput (StorageError_fmt e))
  | Ok (from_dir, from_leaf) =>
      ts ← gets (λ f, clock (ticks f));
      let to_leaf := quarantine_leaf repo digest_str (Z.max 0 ts) in
      dir_beneath from_dir false;;
      dir_beneath [QUARANTINE_DIR] true;;
      io_err (rename_replace (from_dir ++ [from_leaf]) [QUARANTINE_DIR; to_leaf]);;
      io_err fsync
  end.

(** [blob_left], which cannot fail. *)
Definition blob_gone (repo digest_str : string) (size : Z) : bg () :=
  _ ← attempt (blob_left repo digest_str (Some size)); mret tt.

(** The visitor of [quarantine_hard_linked_copies]. *)
Definition linked_copy (digest_str repo : string) (ino : Z) (e : cas_entry) : M Fs errno (list (string * Z)) :=
  if negb (bool_decide (Digest_fmt (ce_digest e) = digest_str)) || bool_decide (ce_repo e = repo) then mret []
  else
    m ← attempt (statat (ce_path e));
    mret (match m with
          | Ok n => if bool_decide (node_ino n = Some ino) then [(ce_repo e, node_size n)] else []
          | Err _ => []
          end).

Fixpoint linked_copies (digest_str repo : string) (ino : Z) (es : list cas_entry) : M Fs errno (list (string * Z)) :=
  match es with
  | [] => mret []
  | e :: es =>
      hit ← linked_copy digest_str repo ino e;
      rest ← linked_copies digest_str repo ino es;
      mret (hit ++ rest)
  end.

Definition quarantine_copy (d : Digest) (digest_str : string) (hit : string * Z) : bg () :=
  q ← attempt (on_fs (quarantine_blob hit.1 d digest_str));
  match q with
  | Ok _ => blob_gone hit.1 digest_str hit.2
  | Err _ => mret tt
  end.

Definition quarantine_hard_linked_copies (digest_str : string) (d : Digest) (ino : Z) (repo : string) : bg () :=
  es ← on_fs for_each_cas_blob;
  linked ← on_fs (linked_copies (Digest_fmt d) repo ino es);
  each (quarantine_copy d digest_str) linked.

(** A pass holds the garbage-collection fence only while it quarantines: the rest
    of the server works before a blob is checked, before its file is opened
    again to be hashed, and between the hash and the fence. *)
Inductive gap := BeforeCheck | BeforeRehash | BeforeFence.

(** [scrub_one_blob] up to the garbage-collection fence: settled, or a content
    that does not hash to its digest, with the inode that was hashed. *)
Inductive verdict :=
  | Settled (r : ScrubResult) (bytes : Z)
  | Mismatched (d : Digest) (rel : path) (ino file_size : Z).

(** What follows the comparison with the recorded checksum. *)
Definition scrub_rehash (repo digest_str : string) (d : Digest) (rel : path) (file_size : Z)
    (recorded : option BlobChecksum) : bg verdict :=
  file2 ← attempt (on_fs (open_beneath rel));
  match file2 with
  | Err _ => mret (Settled SSkipped 0)
  | Ok file2 =>
      st ← attempt (on_fs (syscall (mret tt)));
      match st with
      | Err _ => mret (Settled SSkipped 0)
      | Ok _ =>
          hashed ← attempt (on_fs (content ← read_to_end file2;
                                   of_result (hash_reader [Ok content] (algorithm d))));
          match hashed with
          | Err _ => mret (Settled SSkipped 0)
          | Ok (computed, crc) =>
              if ct_eq computed d then
                modify (λ s, set_meta (mapply_relaxed (meta s) (PutChecksum repo digest_str crc file_size)).1 s);;
                mret (Settled (if recorded then SRepaired else SOk) file_size)
              else mret (Mismatched d rel file2.1 file_size)
          end
      end
  end.

Definition scrub_verify (others : gap → Store → Store) (repo digest_str : string) : bg verdict :=
  match Digest_parse digest_str with
  | Err _ => mret (Settled SSkipped 0)
  | Ok d =>
      match blob_rel repo d with
      | Err _ => mret (Settled SSkipped 0)
      | Ok rel =>
          file ← attempt (on_fs (open_beneath rel));
          match file with
          | Err _ => mret (Settled SSkipped 0)
          | Ok file =>
              st ← attempt (on_fs (syscall (mret tt)));
              match st with
              | Err _ => mret (Settled SSkipped 0)
              | Ok _ =>
                  let file_size := blen file.2 in
                  recorded ← gets (λ s, checksum (mview (meta s)) repo digest_str);
                  if match recorded with Some ck => (ck_size ck =? file_size)%Z | None => false end then
                    crc_result ← attempt (on_fs (crc32c_of_file file));
                    match crc_result with
                    | Err _ => mret (Settled SSkipped 0)
                    | Ok (crc, bytes_read) =>
                        if match recorded with Some ck => (crc =? ck_crc32c ck)%Z | None => false end
                        then mret (Settled SOk bytes_read)
                        else
                          modify (others BeforeRehash);;
                          scrub_rehash repo digest_str d rel file_size recorded
                    end
                  else
                    modify (others BeforeRehash);;
                    scrub_rehash repo digest_str d rel file_size recorded
              end
          end
      end
  end.

(** The rest of [scrub_one_blob], under the fence. *)
Definition scrub_fenced (repo digest_str : string) (d : Digest) (rel : path) (ino file_size : Z)
    : bg (ScrubResult * Z) :=
  m ← attempt (on_fs (statat rel));
  match m with
  | Err _ => mret (SCorrupt, file_size)
  | Ok n =>
      if negb (bool_decide (node_ino n = Some ino)) then mret (SCorrupt, file_size)
      else
        q ← attempt (on_fs (quarantine_blob repo d digest_str));
        match q with
        | Err _ => mret (SCorrupt, file_size)
        | Ok _ =>
            blob_gone repo digest_str file_size;;
            quarantine_hard_linked_copies digest_str d ino repo;;
            mret (SCorrupt, file_size)
        end
  end.

Definition scrub_one_blob (others : gap → Store → Store) (repo digest_str : string) : bg (ScrubResult * Z) :=
  modify (others BeforeCheck);;
  v ← scrub_verify others repo digest_str;
  match v with
  | Settled r bytes => mret (r, bytes)
  | Mismatched d rel ino file_size =>
      modify (others BeforeFence);;
      scrub_fenced repo digest_str d rel ino file_size
  end.

(** One pass; its loop takes as many turns as there are blobs. [others e g] is
    what the server does in the gap [g] of the turn for [e]. *)
Definition scrub_pass (others : BlobEntry → gap → Store → Store) : bg (option ScrubCounts) :=
  segs ← on_fs enumerate_segments;
  if bool_decide (segs = []) then mret (Some no_counts)
  else
    let order := staggered_order segs in
    scrub_loop (λ e, scrub_one_blob (others e) (be_repo e) (be_digest e)) (length order) segs 0 order no_counts.

(** Nobody else is at work. *)
Definition alone : BlobEntry → gap → Store → Store := λ _ _ s, s.
End Scrub.
#[global] Arguments blob_gone : simpl never.
