(* ===== verification/ScrubFacts.v ===== *)
(** A scrub pass visits every blob once and ends, it never takes a blob away
    whose content hashes to its digest, whatever the rest of the server does
    meanwhile, and it keeps the invariant of the store. *)

From S2P Require Import StorageApi Prelude RustStr Json Errors Names Digest Paths Quota Metadata MetaLog.
From S2P Require Import MetaStore SmallCache Effect FileSys FileSysFacts Walk Layout Lifecycle.
From S2P Require Import UploadBody FsStorage FsInvariant FsRun Startup StartupFacts FsSurvive Scrub.

(** ** The order of a pass *)

(** What is at a position of the order. *)
Definition entry_at (segs : list Segment) (ij : nat * nat) : option BlobEntry :=
  segs !! ij.1 ≫= λ s, blobs s !! ij.2.

Definition all_blobs (segs : list Segment) : list BlobEntry := segs ≫= blobs.

(** The positions segment by segment. *)
Fixpoint positions (k : nat) (segs : list Segment) : list (nat * nat) :=
  match segs with
  | [] => []
  | s :: segs => ((λ j, (k, j)) <$> seq 0 (length (blobs s))) ++ positions (S k) segs
  end.

Lemma elem_of_positions k segs i j :
  (i, j) ∈ positions k segs ↔ ∃ s, k ≤ i ∧ segs !! (i - k) = Some s ∧ j < length (blobs s).
Proof.
  revert k. induction segs as [|s segs IH]; intros k; simpl; [set_solver|].
  rewrite elem_of_app, list_elem_of_fmap, IH. split.
  - intros [(j' & [= -> ->] & Hj)|(s' & Hk & Hs & Hj)].
    + apply elem_of_seq in Hj. exists s. rewrite Nat.sub_diag. split_and!; [lia|done|lia].
    + exists s'. replace (i - k) with (S (i - S k)) by lia. split_and!; [lia|done|done].
  - intros (s' & Hk & Hs & Hj). destruct (decide (i = k)) as [->|].
    + rewrite Nat.sub_diag in Hs. injection Hs as ->. left. exists j. split; [done|]. apply elem_of_seq. lia.
    + right. exists s'. replace (i - k) with (S (i - S k)) in Hs by lia. split_and!; [lia|done|done].
Qed.

Lemma NoDup_positions k segs : NoDup (positions k segs).
Proof.
  revert k. induction segs as [|s segs IH]; intros k; simpl; [constructor|].
  apply NoDup_app. split_and!; [|intros [i j] (j' & [= -> ->] & _)%list_elem_of_fmap|apply IH].
  - apply NoDup_fmap; [intros ?? [=]; done|apply NoDup_seq].
  - intros (s' & Hk & _)%elem_of_positions. lia.
Qed.

Lemma elem_of_round r k segs i j :
  (i, j) ∈ round_of r k segs ↔ j = r ∧ ∃ s, k ≤ i ∧ segs !! (i - k) = Some s ∧ r < length (blobs s).
Proof.
  revert k. induction segs as [|s segs IH]; intros k; simpl; [set_solver|].
  rewrite elem_of_app, IH. split.
  - intros [Hin|(-> & s' & Hk & Hs & Hj)].
    + case_decide as Hr; [|set_solver]. apply list_elem_of_singleton in Hin as [= -> ->].
      split; [done|]. exists s. rewrite Nat.sub_diag. done.
    + split; [done|]. exists s'. replace (i - k) with (S (i - S k)) by lia. split_and!; [lia|done|done].
  - intros (-> & s' & Hk & Hs & Hj). destruct (decide (i = k)) as [->|].
    + rewrite Nat.sub_diag in Hs. injection Hs as ->. left. rewrite decide_True by done. set_solver.
    + right. split; [done|]. exists s'. replace (i - k) with (S (i - S k)) in Hs by lia. split_and!; [lia|done|done].
Qed.

Lemma NoDup_round r k segs : NoDup (round_of r k segs).
Proof.
  revert k. induction segs as [|s segs IH]; intros k; simpl; [constructor|].
  apply NoDup_app. split_and!; [case_decide; repeat constructor; set_solver| |apply IH].
  intros [i j] Hin (_ & s' & Hk & _)%elem_of_round. case_decide; [|set_solver].
  apply list_elem_of_singleton in Hin as [= -> ->]. lia.
Qed.

Lemma max_len_bound segs s : s ∈ segs → length (blobs s) ≤ max_len segs.
Proof.
  induction segs as [|s' segs IH]; [set_solver|]. intros [->|Hin]%elem_of_cons; simpl; [lia|].
  specialize (IH Hin). lia.
Qed.

Lemma staggered_positions segs : staggered_order segs ≡ₚ positions 0 segs.
Proof.
  apply NoDup_Permutation; [|apply NoDup_positions|].
  - unfold staggered_order. pose proof (NoDup_seq 0 (max_len segs)) as Hnd.
    induction Hnd as [|r l Hr Hnd IH]; simpl; [constructor|].
    apply NoDup_app. split_and!; [apply NoDup_round| |apply IH].
    intros [i j] [-> _]%elem_of_round (r' & Hin & Hr')%list_elem_of_bind.
    apply elem_of_round in Hin as [-> _]. done.
  - intros [i j]. rewrite elem_of_positions. unfold staggered_order. rewrite list_elem_of_bind. split.
    + intros (r & (-> & s & Hs)%elem_of_round & _). eauto.
    + intros (s & Hk & Hs & Hj). exists j. rewrite elem_of_round, elem_of_seq. split; [eauto|].
      rewrite Nat.sub_0_r in Hs. pose proof (max_len_bound segs s ltac:(by eapply list_elem_of_lookup_2)). lia.
Qed.

Lemma positions_entries segs : entry_at segs <$> positions 0 segs = Some <$> all_blobs segs.
Proof.
  assert (Hg : ∀ pre, entry_at (pre ++ segs) <$> positions (length pre) segs = Some <$> all_blobs segs); [|apply (Hg [])].
  induction segs as [|s segs IH]; intros pre; [done|]. cbn [positions all_blobs mbind list_bind].
  rewrite !fmap_app. f_equal.
  - rewrite <-list_fmap_compose. apply list_eq. intros j. rewrite !list_lookup_fmap.
    destruct (decide (j < length (blobs s))) as [Hj|Hj].
    + rewrite lookup_seq_lt by done. simpl. unfold entry_at. simpl.
      rewrite lookup_app_r, Nat.sub_diag by lia. simpl. destruct (lookup_lt_is_Some_2 _ _ Hj) as [e ->]. done.
    + rewrite lookup_seq_ge, lookup_ge_None_2 by lia. done.
  - specialize (IH (pre ++ [s])). rewrite <-app_assoc, length_app in IH. simpl in IH.
    replace (length pre + 1) with (S (length pre)) in IH by lia. exact IH.
Qed.

Lemma adaptive_perm order n seg : adaptive_reorder order n seg ≡ₚ drop n order.
Proof.
  unfold adaptive_reorder. induction (drop n order) as [|p l IH]; [done|].
  rewrite !filter_cons. destruct (decide (p.1 = seg)) as [E|E].
  - rewrite (decide_False (P := p.1 ≠ seg)) by auto. simpl. by constructor.
  - rewrite (decide_True (P := p.1 ≠ seg)) by done. rewrite <-Permutation_middle. by constructor.
Qed.

Lemma some_Permutation {A : Type} (l k : list A) : Some <$> l ≡ₚ Some <$> k → l ≡ₚ k.
Proof.
  intros Hp. apply (omap_Permutation id) in Hp.
  assert (E : ∀ l : list A, omap id (Some <$> l) = l); [|by rewrite !E in Hp].
  intros l'. induction l' as [|x l' IH]; [done|]. simpl. by f_equal.
Qed.

(** ** The loop *)

(** A check of one blob that also logs which blob it was given. *)
Definition traced {St Er : Type} (one : BlobEntry → M St Er (ScrubResult * Z))
    : BlobEntry → M (St * list BlobEntry) Er (ScrubResult * Z) := λ e '(s, log),
  let '(s', r) := one e s in ((s', log ++ [e]), r).

Definition counted (c : ScrubCounts) : Z := (c_ok c + c_repaired c + c_corrupt c + c_skipped c)%Z.

Lemma counted_add c r b : counted (counts_add c r b) = (counted c + 1)%Z.
Proof. unfold counted. destruct r; simpl; lia. Qed.

(** A program that never fails. *)
Definition total {St Er A : Type} (m : M St Er A) : Prop := ∀ s, ∃ a, (m s).2 = Ok a.

Section Loop.
Context {St Er : Type} (one : BlobEntry → M St Er (ScrubResult * Z)) (one_total : ∀ e, total (one e)).

Lemma scrub_loop_visits fuel segs pos order c s log :
  Forall (λ ij, is_Some (entry_at segs ij)) order → length order ≤ pos + fuel →
  ∃ s' c' visited,
    scrub_loop (traced one) fuel segs pos order c (s, log) = ((s', log ++ visited), Ok (Some c')) ∧
    scrub_loop one fuel segs pos order c s = (s', Ok (Some c')) ∧
    Some <$> visited ≡ₚ entry_at segs <$> drop pos order ∧
    counted c' = (counted c + Z.of_nat (length visited))%Z.
Proof.
  revert pos order c s log. induction fuel as [|fuel IH]; intros pos order c s log Hall Hlen; simpl.
  - rewrite lookup_ge_None_2 by lia. exists s, c, []. rewrite drop_ge by lia. simpl. rewrite app_nil_r.
    split_and!; [done..|lia].
  - destruct (order !! pos) as [[i j]|] eqn:Hpos.
    2:{ apply lookup_ge_None in Hpos. exists s, c, []. rewrite drop_ge by lia. simpl. rewrite app_nil_r.
        split_and!; [done..|lia]. }
    pose proof (lookup_lt_Some _ _ _ Hpos) as Hlt.
    rewrite Forall_forall in Hall.
    destruct (Hall (i, j) ltac:(by eapply list_elem_of_lookup_2)) as [e He]. unfold entry_at in He. simpl in He.
    rewrite He. unfold mbind, M_bind. simpl. destruct (one_total e s) as [[r b] Hr].
    destruct (one e s) as [s1 r1]. simpl in *. subst r1.
    set (order' := match r with SCorrupt => _ | _ => order end).
    assert (Hord : take (S pos) order' = take (S pos) order ∧ drop (S pos) order' ≡ₚ drop (S pos) order).
    { unfold order'. destruct r; try done.
      assert (Ht : length (take (S pos) order) = S pos) by (rewrite length_take; lia).
      change (drop (S pos) order) with (drop (S pos) order). split.
      - rewrite take_app_le, take_take by lia. by rewrite Nat.min_id.
      - rewrite drop_app_ge, Ht, Nat.sub_diag, drop_0 by lia. apply adaptive_perm. }
    destruct Hord as [Htake Hdrop].
    assert (Hperm : order' ≡ₚ order).
    { rewrite <-(take_drop (S pos) order'), Htake, Hdrop. by rewrite take_drop. }
    destruct (IH (S pos) order' (counts_add c r b) s1 (log ++ [e])) as (s' & c' & visited & E1 & E2 & Hv & Hc).
    { apply Forall_forall. intros x Hx. apply Hall. by rewrite <-Hperm. }
    { rewrite Hperm. lia. }
    exists s', c', (e :: visited). rewrite <-app_assoc in E1. split_and!; [exact E1|exact E2| |].
    + rewrite (drop_S _ _ _ Hpos). simpl. unfold entry_at at 1. simpl. rewrite He. constructor.
      rewrite Hv. by apply fmap_Permutation.
    + rewrite Hc, counted_add. simpl. lia.
Qed.

Lemma scrub_order_visits segs c s :
  ∃ s' c' visited,
    scrub_loop (traced one) (length (staggered_order segs)) segs 0 (staggered_order segs) c (s, []) =
      ((s', visited), Ok (Some c')) ∧
    scrub_loop one (length (staggered_order segs)) segs 0 (staggered_order segs) c s = (s', Ok (Some c')) ∧
    visited ≡ₚ all_blobs segs ∧ counted c' = (counted c + Z.of_nat (length visited))%Z.
Proof.
  destruct (scrub_loop_visits (length (staggered_order segs)) segs 0 (staggered_order segs) c s [])
    as (s' & c' & visited & E1 & E2 & Hv & Hc).
  - apply Forall_forall. intros [i j]. rewrite staggered_positions, elem_of_positions.
    intros (sg & _ & Hs & Hj). rewrite Nat.sub_0_r in Hs. unfold entry_at. simpl. rewrite Hs. simpl.
    by apply lookup_lt_is_Some.
  - lia.
  - exists s', c', visited. split_and!; [done|done| |done].
    rewrite drop_0, staggered_positions, positions_entries in Hv. by apply some_Permutation.
Qed.
End Loop.

(** ** Segments *)

Lemma insert_entry_perm x l : insert_entry x l ≡ₚ x :: l.
Proof. induction l as [|y l IH]; simpl; [done|]. case_match; [done|]. rewrite IH. apply Permutation_swap. Qed.

Lemma sort_entries_perm l : sort_entries l ≡ₚ l.
Proof. induction l as [|x l IH]; simpl; [done|]. by rewrite insert_entry_perm, IH. Qed.

Lemma all_blobs_cons s segs : all_blobs (s :: segs) = blobs s ++ all_blobs segs.
Proof. done. Qed.

Lemma add_to_segments_perm segs e : all_blobs (add_to_segments segs e) ≡ₚ e :: all_blobs segs.
Proof.
  destruct segs as [|s segs]; [done|]. simpl. case_bool_decide; [|done].
  rewrite !all_blobs_cons. simpl. rewrite <-app_assoc. simpl. by rewrite <-Permutation_middle.
Qed.

Lemma group_segments_perm l : all_blobs (group_segments l) ≡ₚ l.
Proof.
  unfold group_segments, all_blobs. rewrite reverse_Permutation.
  assert (Hg : ∀ segs, foldl add_to_segments segs l ≫= blobs ≡ₚ l ++ all_blobs segs).
  { induction l as [|x l IH]; intros segs; simpl; [done|]. rewrite IH, add_to_segments_perm. by rewrite <-Permutation_middle. }
  rewrite Hg. simpl. by rewrite app_nil_r.
Qed.

(** ** Programs that cannot fail *)

Section Total.
Context {St Er : Type}.

Lemma total_ret {A : Type} (a : A) : total (mret a : M St Er A).
Proof. intros s. by exists a. Qed.
Lemma total_bind {A B : Type} (m : M St Er A) (k : A → M St Er B) : total m → (∀ a, total (k a)) → total (m ≫= k).
Proof.
  intros Hm Hk s. unfold mbind, M_bind. destruct (Hm s) as [a Ha]. destruct (m s) as [s' r]. simpl in *. subst r. apply Hk.
Qed.
Lemma total_gets {A : Type} (f : St → A) : total (gets f : M St Er A).
Proof. intros s. by exists (f s). Qed.
Lemma total_modify (f : St → St) : total (modify f : M St Er ()).
Proof. intros s. by exists tt. Qed.
Lemma total_attempt {E' A : Type} (m : M St E' A) : total (attempt m : M St Er _).
Proof. intros s. unfold attempt. destruct (m s) as [s' r]. by exists r. Qed.
End Total.

#[local] Hint Resolve total_ret total_gets total_modify total_attempt : core.

Section ScrubFacts.
Context `{!Crypto, !CryptoLaws, !World, !SerdeJson, !HashIter, !MetadataStore, !Lru, !Cuckoo}.

Lemma total_on_fs {Er A : Type} (m : M Fs Er A) : total m → total (on_fs m).
Proof.
  intros Hm s. unfold on_fs, focus. destruct (Hm (fs s)) as [a Ha]. destruct (m (fs s)) as [f r]. simpl in *. eauto.
Qed.

Lemma total_sure {A : Type} (m : M Fs errno A) (P : gmap path node → A → Prop) : (∀ t, sure t m (P t)) → total m.
Proof. intros Hm f. destruct (Hm (files f) f eq_refl) as (_ & a & Ha & _). eauto. Qed.

Lemma total_each {A : Type} (f : A → M Store errno ()) l : (∀ x, total (f x)) → total (each f l).
Proof. intros Hf. induction l; simpl; [done|]. apply total_bind; [done|]. by intros []. Qed.

Lemma for_each_cas_blob_total : total for_each_cas_blob.
Proof. apply (total_sure _ _ for_each_cas_blob_sound). Qed.

Ltac totals := repeat first
  [ done | apply total_ret | apply total_gets | apply total_modify | apply total_attempt
  | apply total_on_fs | apply for_each_cas_blob_total | (apply total_bind; [|intros ?]) | case_match ].

Lemma linked_copies_total ds repo ino es : total (linked_copies ds repo ino es).
Proof.
  induction es as [|e es IH]; simpl; [done|]. apply total_bind; [unfold linked_copy; totals|]. intros hit.
  apply total_bind; [done|]. intros; totals.
Qed.

Lemma scrub_one_total others repo ds : total (scrub_one_blob others repo ds).
Proof.
  unfold scrub_one_blob. apply total_bind; [totals|intros _]. apply total_bind.
  - unfold scrub_verify, scrub_rehash. totals.
  - intros [r b|d rel ino sz]; [totals|]. unfold scrub_fenced, blob_gone, quarantine_hard_linked_copies. totals.
    + apply linked_copies_total.
    + apply total_each. intros hit. unfold quarantine_copy, blob_gone. totals.
Qed.

Lemma enumerate_entries_spec t es : sure t (enumerate_entries es) (λ bs,
  (λ b, (be_repo b, be_digest b)) <$> bs = (λ e, (ce_repo e, Digest_fmt (ce_digest e))) <$> es).
Proof.
  induction es as [|e es IH]; simpl; [by apply sure_ret|].
  eapply (sure_bind _ _ _ (λ b, (be_repo b, be_digest b) = (ce_repo e, Digest_fmt (ce_digest e)))).
  { unfold enumerate_entry. eapply sure_bind; [apply statat_sure|]. intros m _. by apply sure_ret. }
  intros b Hb. eapply sure_bind; [apply IH|]. intros bs Hbs. apply sure_ret. rewrite !fmap_cons. by f_equal.
Qed.

(** A scrub pass. From every state, whatever fails on the way and whatever the
    rest of the server does meanwhile, a pass ends, and it checks every blob the walk finds exactly once, also when
    corrupt blobs make it change its order; its counters add up to the number of
    blobs. *)
Theorem scrub_visits_all others s :
  let one e := scrub_one_blob (others e) (be_repo e) (be_digest e) in
  ∃ es segs s1 s2 c visited,
    (on_fs for_each_cas_blob s).2 = Ok es ∧ on_fs enumerate_segments s = (s1, Ok segs) ∧
    (λ b, (be_repo b, be_digest b)) <$> all_blobs segs ≡ₚ (λ e, (ce_repo e, Digest_fmt (ce_digest e))) <$> es ∧
    scrub_loop (traced one) (length (staggered_order segs)) segs 0 (staggered_order segs) no_counts (s1, []) =
      ((s2, visited), Ok (Some c)) ∧
    visited ≡ₚ all_blobs segs ∧ counted c = Z.of_nat (length es) ∧ scrub_pass others s = (s2, Ok (Some c)).
Proof.
  intros one.
  destruct (for_each_cas_blob_sound (files (fs s)) (fs s) eq_refl) as (Hf & es & Hes & _).
  destruct (on_fs enumerate_segments s) as [s1 rs] eqn:Eseg.
  assert (∃ segs, rs = Ok segs ∧ (λ b, (be_repo b, be_digest b)) <$> all_blobs segs ≡ₚ
            (λ e, (ce_repo e, Digest_fmt (ce_digest e))) <$> es) as (segs & -> & Hsegs).
  { revert Eseg. unfold on_fs, focus, enumerate_segments, mbind, M_bind.
    destruct (for_each_cas_blob (fs s)) as [f1 r1]. simpl in *. subst r1.
    destruct (enumerate_entries_spec (files f1) es f1 eq_refl) as (_ & bs & Hbs & Hmap).
    destruct (enumerate_entries es f1) as [f2 r2]. simpl in *. subst r2. simpl. intros [= <- <-].
    eexists. split; [done|]. rewrite <-Hmap. apply fmap_Permutation. by rewrite group_segments_perm, sort_entries_perm. }
  destruct (scrub_order_visits one (λ e, scrub_one_total (others e) (be_repo e) (be_digest e)) segs no_counts s1)
    as (s2 & c & visited & E1 & E2 & Hv & Hc).
  exists es, segs, s1, s2, c, visited. split_and!; try done.
  - unfold on_fs, focus. destruct (for_each_cas_blob (fs s)). exact Hes.
  - rewrite Hc. change (counted no_counts) with 0%Z. rewrite Z.add_0_l. f_equal. rewrite Hv.
    apply Permutation_length in Hsegs. by rewrite !length_fmap in Hsegs.
  - unfold scrub_pass, mbind, M_bind. rewrite Eseg. case_bool_decide as Hnil; [|exact E2].
    subst segs. simpl in E2. by injection E2 as -> <-.
Qed.

(** ** Healthy blobs stay *)

(** Links of one file have one content. *)
Definition inodes_ok (t : tree) : Prop :=
  ∀ p q i c c', t !! p = Some (Reg i c) → t !! q = Some (Reg i c') → c = c'.

(** Blob files have the names the store gives them. *)
Definition names_ok (t : tree) : Prop :=
  ∀ repo alg name i c d, t !! (split "/" repo ++ ["blobs"; alg; name]) = Some (Reg i c) →
    Digest_parse (lossy alg +:+ ":" +:+ lossy name) = Ok d → alg = algorithm d ∧ name = hex d.

(** What a scrub may do to the files: everything it keeps or moves was there,
    outside the quarantine only at the same path, and healthy blobs stay. *)
Record spare (t t' : tree) : Prop := {
  spare_from p i c : t' !! p = Some (Reg i c) → ∃ q, t !! q = Some (Reg i c);
  spare_place p i c : length p ≠ 2 → t' !! p = Some (Reg i c) → t !! p = Some (Reg i c);
  spare_healthy p i c d : blob_at p d → digest_of c (algorithm d) = d →
    t !! p = Some (Reg i c) → t' !! p = Some (Reg i c);
}.

#[local] Instance spare_preorder : PreOrder spare.
Proof.
  split; [intros t; split; eauto|]. intros t1 t2 t3 [A1 B1 C1] [A2 B2 C2]. split; [|eauto|eauto].
  intros p i c Hp. destruct (A2 _ _ _ Hp) as [q Hq]. eauto.
Qed.

Definition spare_fs (f f' : Fs) : Prop := spare (files f) (files f').
#[local] Instance spare_fs_preorder : PreOrder spare_fs.
Proof. split; [intros f; unfold spare_fs; reflexivity|]. intros f1 f2 f3. unfold spare_fs. by etrans. Qed.

Lemma spare_same {E A : Type} (m : M Fs E A) : runs same_files m → runs spare_fs m.
Proof. intros Hm f. unfold spare_fs. by rewrite (Hm f). Qed.

Lemma spare_inodes t t' : spare t t' → inodes_ok t → inodes_ok t'.
Proof.
  intros Hs Ht p q i c c' Hp Hq. destruct (spare_from _ _ Hs _ _ _ Hp) as [p' Hp'].
  destruct (spare_from _ _ Hs _ _ _ Hq) as [q' Hq']. eauto.
Qed.

Lemma length_split_blob repo (x y z : string) : length (split "/" repo ++ [x; y; z]) ≠ 2.
Proof. rewrite length_app. simpl. pose proof (split_nonempty "/" repo). destruct (split "/" repo); simpl; [done|lia]. Qed.

Lemma spare_names t t' : spare t t' → names_ok t → names_ok t'.
Proof. intros Hs Ht repo alg name i c d Hp. eapply Ht, spare_place; [done|apply length_split_blob|exact Hp]. Qed.

(** A path whose file may be taken away. *)
Definition bad (t : tree) (p : path) : Prop :=
  ∀ d i c, blob_at p d → t !! p = Some (Reg i c) → digest_of c (algorithm d) ≠ d.

Lemma blob_at_length p d : blob_at p d → length p ≠ 2.
Proof. intros (_ & repo & (r & [-> _]%repo_rel_ok & _ & ->)%blob_rel_ok). apply length_split_blob. Qed.

Lemma spare_bad t t' p : spare t t' → bad t p → bad t' p.
Proof. intros Hs Hb d i c Hd Hp. apply (Hb d i c Hd), (spare_place _ _ Hs); [by eapply blob_at_length|done]. Qed.

(** *** The quarantine *)

Ltac stay := solve [unfold spare_fs; simpl; reflexivity].

Lemma mkdirat_spare p : runs spare_fs (mkdirat p).
Proof.
  intros f. unfold mkdirat, syscall, tick, mbind, M_bind, gets, throw, modify. simpl.
  destruct (fault _); [stay|]. simpl. destruct (node_at _ p) eqn:E; [stay|]. simpl. unfold spare_fs. simpl.
  apply node_at_None in E. simpl in E.
  assert (Hne : ∀ q i c, <[p:=Dir]> (files f) !! q = Some (Reg i c) → files f !! q = Some (Reg i c)).
  { intros q i c. destruct (decide (p = q)) as [<-|]; [by rewrite lookup_insert_eq|by rewrite lookup_insert_ne]. }
  split; [eauto|eauto|]. intros q i c d _ _ Hq. rewrite lookup_insert_ne; [done|congruence].
Qed.

Lemma dir_beneath_spare rel create : runs spare_fs (dir_beneath rel create).
Proof.
  assert (Hw : ∀ walked rel, runs spare_fs (walk_dirs walked rel create)).
  { intros walked rel'. revert walked. induction rel' as [|c rel' IH]; intros walked; simpl; [runs_auto|].
    apply runs_bind; [apply spare_same; runs_auto|]. intros [[]|[]]; try solve [runs_auto].
    destruct create; [|runs_auto]. apply runs_bind; [apply runs_attempt, mkdirat_spare|].
    assert (Hk : runs spare_fs (r ← attempt (E' := io_error) (openat_dir (walked ++ [c]));
      match r with
      | Ok _ => walk_dirs (walked ++ [c]) rel' true
      | Err (ENOTDIR | ENOENT) => throw not_found
      | Err e => throw (io_of_errno e)
      end)).
    { apply runs_bind; [apply spare_same; runs_auto|]. intros [[]|[]]; runs_auto. }
    intros [[]|[]]; try exact Hk; runs_auto. }
  unfold dir_beneath. apply runs_bind; [apply spare_same; runs_auto|intros _].
  apply runs_bind; [apply spare_same; runs_auto|]. intros [[[]|e]|]; try solve [runs_auto]; try apply Hw.
Qed.

Lemma rename_spare p q f :
  bad (files f) p → p ≠ [] → length p ≠ 2 → length q = 2 → spare_fs f (rename_replace p q f).1.
Proof.
  intros Hb Hpn Hp Hq. unfold rename_replace, syscall, tick, mbind, M_bind, gets, throw, modify. simpl.
  destruct (fault _); [stay|]. simpl. destruct (node_at _ p) as [n|] eqn:E; [|stay].
  assert (En : files f !! p = Some n) by (unfold node_at in E; simpl in E; by destruct p).
  assert (Hmove : spare_fs f (on_files (λ fs, <[q:=n]> (delete p fs)) (mkFs (files f) (next_ino f) (S (ticks f))))).
  { unfold spare_fs. simpl. assert (Hpq : p ≠ q) by (intros ->; done). split.
    - intros x i c. destruct (decide (q = x)) as [<-|]; [rewrite lookup_insert_eq; intros [= ->]; eauto|].
      rewrite lookup_insert_ne, lookup_delete_Some by done. intros [_ ?]. eauto.
    - intros x i c Hx. rewrite lookup_insert_ne by (by intros <-). rewrite lookup_delete_Some. by intros [_ ?].
    - intros x i c d Hd Hc Hx. assert (length x ≠ 2) by by eapply blob_at_length.
      rewrite lookup_insert_ne by (by intros <-). rewrite lookup_delete_ne; [done|]. intros <-. by eapply Hb. }
  destruct n as [|i c|]; destruct (node_at _ q) as [[]|]; simpl; try stay; try exact Hmove;
    case_match; try exact Hmove; stay.
Qed.

Lemma quarantine_blob_spare repo d ds f :
  (∀ p, blob_rel repo d = Ok p → bad (files f) p) → spare_fs f (quarantine_blob repo d ds f).1.
Proof.
  intros Hb. unfold quarantine_blob. destruct (blob_dir_rel repo d) as [[dir leaf]|e] eqn:Ed; [|stay].
  assert (Hrel : blob_rel repo d = Ok (dir ++ [leaf])) by (unfold blob_rel; by rewrite Ed).
  specialize (Hb _ Hrel). pose proof Hrel as (r & [-> _]%repo_rel_ok & _ & Hp)%blob_rel_ok.
  assert (Hlen : length (dir ++ [leaf]) ≠ 2) by (rewrite Hp; apply length_split_blob).
  unfold mbind, M_bind, gets. generalize (quarantine_leaf repo ds (Z.max 0 (clock (ticks f)))) as leaf'. intros leaf'.
  pose proof (dir_beneath_spare dir false f) as I1. destruct (dir_beneath dir false f) as [f1 [[]|e]]; simpl in *; [|exact I1].
  pose proof (dir_beneath_spare [QUARANTINE_DIR] true f1) as I2.
  destruct (dir_beneath [QUARANTINE_DIR] true f1) as [f2 [[]|e]]; simpl in *; [|by transitivity f1].
  assert (I3 : spare_fs f2 (rename_replace (dir ++ [leaf]) [QUARANTINE_DIR; leaf'] f2).1).
  { apply rename_spare; [|by destruct dir|done|done]. eapply spare_bad, Hb. by transitivity (files f1). }
  unfold io_err at 1, mapping_err.
  destruct (rename_replace _ _ f2) as [f3 [[]|e]]; simpl in *; [|transitivity f1; [exact I1|by transitivity f2]].
  transitivity f1; [exact I1|]. transitivity f2; [exact I2|]. transitivity f3; [exact I3|].
  apply (spare_same (io_err fsync)). runs_auto.
Qed.

(** *** One blob *)

Definition spare_store (s s' : Store) : Prop := spare (files (fs s)) (files (fs s')).
#[local] Instance spare_store_preorder : PreOrder spare_store.
Proof. split; [intros s; unfold spare_store; reflexivity|]. intros s1 s2 s3. unfold spare_store. by etrans. Qed.

Lemma blob_gone_fs repo ds size s : fs (blob_gone repo ds size s).1 = fs s.
Proof.
  unfold blob_gone, blob_left, attempt, mbind, M_bind, modify. simpl.
  unfold note_blob_left, cache_invalidate. simpl. by repeat case_match.
Qed.

Lemma quarantine_copy_spare d ds hit s :
  (∀ p, blob_rel hit.1 d = Ok p → bad (files (fs s)) p) → spare_store s (quarantine_copy d ds hit s).1.
Proof.
  intros Hb. pose proof (quarantine_blob_spare _ d ds (fs s) Hb) as Hq. unfold quarantine_copy, mbind, M_bind.
  rewrite attempt_eq. unfold on_fs, focus. destruct (quarantine_blob hit.1 d ds (fs s)) as [f [[]|e]]; simpl in *; [|exact Hq].
  exact Hq.
Qed.

Lemma quarantine_copies_spare d ds hits s :
  Forall (λ hit, ∀ p, blob_rel hit.1 d = Ok p → bad (files (fs s)) p) hits →
  spare_store s (each (quarantine_copy d ds) hits s).1.
Proof.
  intros Hall. revert s Hall. induction hits as [|hit hits IH]; intros s Hall; [unfold spare_store; simpl; reflexivity|].
  apply Forall_cons in Hall as [Hb Hall]. pose proof (quarantine_copy_spare d ds hit s Hb) as Hq.
  simpl. unfold mbind, M_bind. destruct (quarantine_copy d ds hit s) as [s1 [[]|e]]; simpl in *; [|exact Hq].
  transitivity s1; [exact Hq|]. apply IH. eapply Forall_impl; [exact Hall|]. intros hit' Hb' p Hp.
  eapply spare_bad; [exact Hq|]. by apply Hb'.
Qed.

(** The copies found are links of the corrupt file. *)
Lemma linked_copies_spec t d repo ino es :
  names_ok t → Forall (entry_ok t) es →
  (∀ p c, t !! p = Some (Reg ino c) → digest_of c (algorithm d) ≠ d) → digest_wf d →
  sure t (linked_copies (Digest_fmt d) repo ino es)
    (Forall (λ hit, ∀ p, blob_rel hit.1 d = Ok p → bad t p)).
Proof.
  intros Hn Hes Hino Hd. induction Hes as [|e es (Hwf & alg & name & i & c & Hp & Hf & Hparse) Hes IH]; simpl;
    [by apply sure_ret|].
  eapply (sure_bind _ _ _ (Forall (λ hit, ∀ p, blob_rel hit.1 d = Ok p → bad t p))).
  2:{ intros hit Hhit. eapply sure_bind; [apply IH|]. intros rest Hrest. apply sure_ret. by apply Forall_app. }
  unfold linked_copy. case_bool_decide as Heq; simpl; [|by apply sure_ret].
  case_bool_decide; [by apply sure_ret|]. eapply sure_bind; [apply statat_sure|].
  intros [n|er] Hst; apply sure_ret; [|done]. case_bool_decide as Hi; [|done]. constructor; [|done]. simpl.
  intros p (r & [-> _]%repo_rel_ok & _ & ->)%blob_rel_ok d' i' c' Hd' Hp'.
  apply Digest_fmt_inj in Heq; [|done|done]. rewrite Hp in Hf.
  destruct (Hn _ _ _ _ _ _ Hf Hparse) as [-> ->]. rewrite Heq in *.
  assert (d' = d) as ->.
  { apply blob_at_snoc in Hd' as [r E].
    change ["blobs"; algorithm d; hex d] with (["blobs"; algorithm d] ++ [hex d]) in E. rewrite !app_assoc in E.
    apply last_snoc_inj in E as [E Eh].
    change ["blobs"; algorithm d] with (["blobs"] ++ [algorithm d]) in E.
    change ["blobs"; algorithm d'] with (["blobs"] ++ [algorithm d']) in E. rewrite !app_assoc in E.
    apply last_snoc_inj in E as [_ Ea]. destruct d, d'. simpl in *. congruence. }
  rewrite Hp in Hst. rewrite Hf in Hp'. injection Hp' as -> ->.
  assert (n = Reg i' c') as ->. { unfold at_path in Hst. destruct (split "/" (ce_repo e)); simpl in *; congruence. }
  simpl in Hi. injection Hi as ->. by eapply Hino.
Qed.

Definition same_store (s s' : Store) : Prop := files (fs s') = files (fs s).
#[local] Instance same_store_preorder : PreOrder same_store.
Proof. split; [by intros s|]. unfold same_store. intros s1 s2 s3. congruence. Qed.

Lemma on_fs_same {E A : Type} (m : M Fs E A) : runs same_files m → runs same_store (on_fs m).
Proof. intros Hm s. specialize (Hm (fs s)). unfold on_fs, focus. by destruct (m (fs s)). Qed.

Lemma on_fs_eq {E A : Type} (m : M Fs E A) s : on_fs m s = (set_fs (m (fs s)).1 s, (m (fs s)).2).
Proof. unfold on_fs, focus. by destruct (m (fs s)). Qed.

Lemma hash_reader_one content alg :
  alg = "sha256" ∨ alg = "sha512" →
  hash_reader [Ok content] alg = Ok (digest_of content alg, if decide (content = []) then 0%Z else crc32c_append 0 content).
Proof.
  intros Ha. unfold hash_reader. simpl.
  assert (Hf : ∀ x, finalize (if decide (alg = "sha512") then "sha512" else "sha256") x = digest_of x alg).
  { intros x. rewrite finalize_digest_of. by destruct Ha as [-> | ->]. }
  case_bool_decide as Hc; [subst; by rewrite Hf|]. rewrite Hf. by rewrite decide_False.
Qed.

Lemma scrub_rehash_spec repo ds d rel sz rec s :
  rel ≠ [] → digest_wf d → files (fs (scrub_rehash repo ds d rel sz rec s).1) = files (fs s) ∧
  ∀ d' rel' ino sz', (scrub_rehash repo ds d rel sz rec s).2 = Ok (Mismatched d' rel' ino sz') →
    d' = d ∧ rel' = rel ∧ ∃ c, files (fs s) !! rel = Some (Reg ino c) ∧ digest_of c (algorithm d) ≠ d.
Proof.
  intros Hrel [Ha _]. assert (Hals : algorithm d = "sha256" ∨ algorithm d = "sha512").
  { apply algorithm_len_Some in Ha as [[? _]|[? _]]; auto. }
  unfold scrub_rehash, mbind, M_bind. rewrite attempt_eq.
  destruct (resolve_beneath_spec (λ t, t = files (fs s)) rel false Hrel (fs s) eq_refl) as [_ Hopen].
  rewrite on_fs_eq. unfold open_beneath. pose proof (resolve_beneath_same rel false (fs s)) as Hs.
  destruct (resolve_beneath rel false (fs s)) as [f1 [file|e]]; simpl in *; [|by split].
  destruct Hopen as [_ Hopen]. rewrite Hs in Hopen.
  rewrite attempt_eq. pose proof (syscall_same (mret tt) (runs_ret (R := same_files) tt) f1) as Hs2. rewrite on_fs_eq.
  simpl in *. destruct (syscall (mret tt) f1) as [f2 [[]|e]]; simpl in *; [|split; [congruence|done]].
  rewrite attempt_eq, on_fs_eq. simpl. unfold read_to_end, io_err, mapping_err.
  pose proof (syscall_same (mret file.2) (runs_ret (R := same_files) file.2) f2) as Hs3.
  assert (Hval : ∀ f b, syscall (mret file.2) f2 = (f, Ok b) → b = file.2).
  { intros f b. unfold syscall, tick, mbind, M_bind. simpl. destruct (fault _); simpl; [done|]. by intros [= _ <-]. }
  destruct (syscall (mret file.2) f2) as [f3 [content|e]]; simpl in *; [|split; [congruence|done]].
  rewrite (Hval _ _ eq_refl), hash_reader_one by done. unfold modify. simpl.
  destruct (ct_eq _ d) eqn:Ect; simpl; (split; [congruence|]).
  - done.
  - intros d' rel' ino sz' [= <- <- <- <-]. split_and!; [done..|]. exists file.2. split; [by rewrite Hopen|].
    intros E%ct_eq_true. congruence.
Qed.

(** The verdict is about a file that is there when it is given. *)
Definition mismatch (repo : string) (v : verdict) (s : Store) : Prop :=
  match v with
  | Settled _ _ => True
  | Mismatched d rel ino _ => digest_wf d ∧ blob_rel repo d = Ok rel ∧
      ∃ c, files (fs s) !! rel = Some (Reg ino c) ∧ digest_of c (algorithm d) ≠ d
  end.

(** The files are as before, or as the others leave them in the gap. *)
Lemma scrub_verify_spec others repo ds s :
  let '(s', r) := scrub_verify others repo ds s in
  (files (fs s') = files (fs s) ∨
   ∃ s1, files (fs s1) = files (fs s) ∧ files (fs s') = files (fs (others BeforeRehash s1))) ∧
  match r with Ok v => mismatch repo v s' | Err _ => True end.
Proof.
  unfold scrub_verify. destruct (Digest_parse ds) as [d|] eqn:Hd; [|by split; [left|]]. apply Digest_parse_wf in Hd.
  destruct (blob_rel repo d) as [rel|] eqn:Hrel; [|by split; [left|]].
  assert (rel ≠ []) by (apply blob_rel_ok in Hrel as (r & _ & _ & ->); by destruct r).
  assert (Hre : ∀ s1 sz rec, files (fs s1) = files (fs s) →
    let '(s', r) := (modify (others BeforeRehash);; scrub_rehash repo ds d rel sz rec) s1 in
    (files (fs s') = files (fs s) ∨
     ∃ s1, files (fs s1) = files (fs s) ∧ files (fs s') = files (fs (others BeforeRehash s1))) ∧
    match r with Ok v => mismatch repo v s' | Err _ => True end).
  { intros s1 sz rec E. unfold mbind, M_bind, modify.
    destruct (scrub_rehash_spec repo ds d rel sz rec (others BeforeRehash s1)) as [H1' H2']; [done|done|].
    destruct (scrub_rehash repo ds d rel sz rec (others BeforeRehash s1)) as [s2 r]. simpl in *.
    split; [right; by exists s1|]. destruct r as [[|d' rel' ino sz']|]; [done| |done].
    destruct (H2' _ _ _ _ eq_refl) as (-> & -> & Hc). split_and!; [done..|]. by rewrite H1'. }
  unfold mbind at 1, M_bind at 1. rewrite attempt_eq.
  pose proof (on_fs_same (open_beneath rel) (open_beneath_same rel) s) as S1.
  destruct (on_fs (open_beneath rel) s) as [s1 [file|e]]; cbn [fst snd] in *; [|by split; [left|]].
  unfold mbind at 1, M_bind at 1. rewrite attempt_eq.
  pose proof (on_fs_same _ (syscall_same (mret tt) (runs_ret (R := same_files) tt)) s1) as S2.
  destruct (on_fs (syscall (mret tt)) s1) as [s2 [[]|e]]; cbn [fst snd] in *; unfold same_store in *;
    [|split; [left; simpl; congruence|done]].
  unfold mbind at 1, M_bind at 1, gets at 1.
  destruct (match checksum _ _ _ with Some ck => _ | None => false end).
  2:{ apply Hre. congruence. }
  unfold mbind at 1, M_bind at 1. rewrite attempt_eq.
  assert (S3 : runs same_store (on_fs (crc32c_of_file file))).
  { apply on_fs_same. unfold crc32c_of_file, read_to_end. runs_auto. }
  specialize (S3 s2). unfold same_store in S3.
  destruct (on_fs (crc32c_of_file file) s2) as [s3 [[crc n]|e]]; cbn [fst snd] in *; [|split; [left; simpl; congruence|done]].
  destruct (match checksum _ _ _ with Some ck => _ | None => false end); [split; [left; simpl; congruence|done]|].
  apply Hre. congruence.
Qed.

Section Fenced.
Context (repo ds : string) (d : Digest) (ino sz : Z) (d_wf : digest_wf d).

(** The hashed inode still has a content that does not match. *)
Definition mismatched (s : Store) : Prop :=
  ∀ p c, files (fs s) !! p = Some (Reg ino c) → digest_of c (algorithm d) ≠ d.

Lemma spare_mismatched s s' : spare_store s s' → mismatched s → mismatched s'.
Proof. intros Hs Hm p c Hp. destruct (spare_from _ _ Hs _ _ _ Hp) as [q Hq]. by eapply Hm. Qed.

Lemma copies_spare s :
  names_ok (files (fs s)) → mismatched s → spare_store s (quarantine_hard_linked_copies ds d ino repo s).1.
Proof.
  intros Hn Hino. unfold quarantine_hard_linked_copies, mbind, M_bind. rewrite on_fs_eq.
  destruct (for_each_cas_blob_sound (files (fs s)) (fs s) eq_refl) as (F1 & es & Ees & Hes).
  destruct (for_each_cas_blob (fs s)) as [f1 r1]. simpl in *. subst r1. rewrite on_fs_eq. simpl.
  destruct (linked_copies_spec (files (fs s)) d repo ino es Hn Hes Hino d_wf f1 F1) as (F2 & hits & Ehits & Hhits).
  destruct (linked_copies (Digest_fmt d) repo ino es f1) as [f2 r2]. simpl in *. subst r2.
  pose proof (quarantine_copies_spare d ds hits (set_fs f2 (set_fs f1 s))) as Hq.
  unfold spare_store in *. simpl in Hq. rewrite F2 in Hq. by apply Hq.
Qed.

Lemma gone_spare s :
  names_ok (files (fs s)) → mismatched s →
  spare_store s ((blob_gone repo ds sz;; quarantine_hard_linked_copies ds d ino repo;;
                  mret (SCorrupt, sz) : M Store errno _) s).1.
Proof.
  intros Hn Hino. pose proof (blob_gone_fs repo ds sz s) as E.
  assert (R : (blob_gone repo ds sz s).2 = Ok tt) by done.
  unfold mbind, M_bind. destruct (blob_gone repo ds sz s) as [s1 r1]. simpl in E, R. subst r1.
  assert (S1 : spare_store s s1) by (unfold spare_store; rewrite E; reflexivity).
  pose proof (copies_spare s1) as S2. rewrite E in S2. specialize (S2 Hn (spare_mismatched _ _ S1 Hino)).
  destruct (quarantine_hard_linked_copies ds d ino repo s1) as [s2 [[]|e]]; simpl in *; by transitivity s1.
Qed.

(** Under the fence, in any such state: whatever happened between the hash and
    the fence. *)
Lemma scrub_fenced_spare rel s :
  blob_rel repo d = Ok rel → names_ok (files (fs s)) → mismatched s →
  spare_store s (scrub_fenced repo ds d rel ino sz s).1.
Proof.
  intros Hrel Hn Hino. unfold scrub_fenced.
  assert (Hstay : ∀ s', files (fs s') = files (fs s) → spare_store s s').
  { intros s' E. unfold spare_store. rewrite E. reflexivity. }
  unfold mbind at 1, M_bind at 1. rewrite attempt_eq, on_fs_eq.
  destruct (statat_sure (files (fs s)) rel (fs s) eq_refl) as (S1 & r & Er & Hr).
  rewrite attempt_eq in S1, Er. injection Er as <-.
  destruct (statat rel (fs s)) as [f1 [n|e]]; cbn [fst snd] in *; [|by apply Hstay].
  case_bool_decide as Hi; cbn [negb]; [|by apply Hstay].
  assert (Hbad : ∀ p, blob_rel repo d = Ok p → bad (files f1) p).
  { rewrite S1. intros p Hp d' i c Hd' Hc. assert (p = rel) as -> by congruence.
    assert (d' = d) as -> by (eapply blob_at_inj; [exact Hd'|]; split; eauto).
    assert (n = Reg i c) as -> by (unfold at_path in Hr; destruct rel; [apply blob_rel_ok in Hrel as ([] & _ & _ & ?); done|congruence]).
    injection Hi as ->. by eapply Hino. }
  unfold mbind at 1, M_bind at 1. rewrite attempt_eq, on_fs_eq. change (fs (set_fs f1 s)) with f1.
  pose proof (quarantine_blob_spare repo d ds f1 Hbad) as S2. unfold spare_fs in S2. rewrite S1 in S2.
  destruct (quarantine_blob repo d ds f1) as [f2 [[]|e]]; cbn [fst snd] in *; [|exact S2].
  transitivity (set_fs f2 (set_fs f1 s)); [exact S2|].
  apply gone_spare; [by eapply spare_names|]. by eapply spare_mismatched.
Qed.
End Fenced.

(** *** With the rest of the server at work *)

(** What the scrubber relies on: links of one file keep one content, blob files
    get the names the store gives them, and a file that has been a blob is not
    written to, nor its inode given to other content. *)
Record considerate (f : Store → Store) : Prop := {
  con_inodes s : inodes_ok (files (fs s)) → inodes_ok (files (fs (f s)));
  con_names s : names_ok (files (fs s)) → names_ok (files (fs (f s)));
  con_blobs s p d i c q c' : inodes_ok (files (fs s)) → blob_at p d → files (fs s) !! p = Some (Reg i c) →
    files (fs (f s)) !! q = Some (Reg i c') → c' = c;
}.

Definition tidy (s : Store) : Prop := inodes_ok (files (fs s)) ∧ names_ok (files (fs s)).

(** The file at [p] has the content its digest says. *)
Definition healthy (p : path) (d : Digest) (s : Store) : Prop :=
  ∃ i c, files (fs s) !! p = Some (Reg i c) ∧ digest_of c (algorithm d) = d.

Lemma spare_store_healthy p d s s' : blob_at p d → spare_store s s' → healthy p d s → healthy p d s'.
Proof. intros Hp Hs (i & c & Hc & Hd). exists i, c. split; [by eapply spare_healthy|done]. Qed.

Lemma spare_store_tidy s s' : spare_store s s' → tidy s → tidy s'.
Proof. intros Hs [Hi Hn]. split; [by eapply spare_inodes|by eapply spare_names]. Qed.

Lemma tidy_files s s' : files (fs s') = files (fs s) → tidy s → tidy s'.
Proof. intros E. unfold tidy. by rewrite E. Qed.

Lemma healthy_files p d s s' : files (fs s') = files (fs s) → healthy p d s → healthy p d s'.
Proof. intros E. unfold healthy. by rewrite E. Qed.

Section Others.
Context (others : BlobEntry → gap → Store → Store) (others_ok : ∀ e g, considerate (others e g)).

Lemma others_tidy e g s : tidy s → tidy (others e g s).
Proof. intros [Hi Hn]. split; [by apply (con_inodes _ (others_ok e g))|by apply (con_names _ (others_ok e g))]. Qed.

(** From the fence on, a turn spares the blobs that are healthy there: also
    the one it was about, when it was pushed again after it was hashed. *)
Lemma fenced_turn_spare e repo ds d rel ino sz s :
  tidy s → mismatch repo (Mismatched d rel ino sz) s →
  spare_store (others e BeforeFence s) (scrub_fenced repo ds d rel ino sz (others e BeforeFence s)).1.
Proof.
  intros Hs (Hd & Hrel & c & Hc & Hbad). pose proof (others_tidy e BeforeFence s Hs) as [_ Hn].
  apply scrub_fenced_spare; [done|done|done|]. intros q c' Hq.
  rewrite (con_blobs _ (others_ok e BeforeFence) s rel d ino c q c'); [done|apply Hs| |done|done]. split; [done|by exists repo].
Qed.

Lemma scrub_one_state e repo ds s :
  (scrub_one_blob (others e) repo ds s).1 =
    let '(s1, r) := scrub_verify (others e) repo ds (others e BeforeCheck s) in
    match r with
    | Ok (Mismatched d rel ino sz) => (scrub_fenced repo ds d rel ino sz (others e BeforeFence s1)).1
    | _ => s1
    end.
Proof.
  unfold scrub_one_blob, mbind, M_bind, modify.
  by destruct (scrub_verify (others e) repo ds (others e BeforeCheck s)) as [s1 [[]|]].
Qed.

Lemma scrub_one_spare p d e repo ds s :
  blob_at p d → (∀ g s, healthy p d s → healthy p d (others e g s)) → tidy s →
  tidy (scrub_one_blob (others e) repo ds s).1 ∧ (healthy p d s → healthy p d (scrub_one_blob (others e) repo ds s).1).
Proof.
  intros Hp Hkeep Hs. rewrite scrub_one_state.
  pose proof (others_tidy e BeforeCheck s Hs) as Hs0. pose proof (Hkeep BeforeCheck s) as Hh0.
  pose proof (scrub_verify_spec (others e) repo ds (others e BeforeCheck s)) as Hv.
  destruct (scrub_verify (others e) repo ds (others e BeforeCheck s)) as [s1 r]. destruct Hv as [Hf Hv].
  assert (Hs1 : tidy s1 ∧ (healthy p d (others e BeforeCheck s) → healthy p d s1)).
  { destruct Hf as [E|(s2 & E1 & E2)]; [split; [by eapply tidy_files|by apply healthy_files]|]. split.
    - eapply tidy_files; [exact E2|]. by eapply others_tidy, tidy_files.
    - intros Hh. eapply healthy_files; [exact E2|]. by eapply Hkeep, healthy_files. }
  destruct Hs1 as [Hs1 Hh1]. destruct r as [[r b|d' rel ino sz]|er]; [by split; [|auto]| |by split; [|auto]].
  pose proof (fenced_turn_spare e repo ds d' rel ino sz s1 Hs1 Hv) as Hf'.
  split; [eapply spare_store_tidy; [exact Hf'|by apply others_tidy]|].
  intros Hh. eapply spare_store_healthy; [done|exact Hf'|]. auto.
Qed.

Lemma scrub_loop_spare p d fuel segs pos order c s :
  blob_at p d → (∀ e g s, healthy p d s → healthy p d (others e g s)) → tidy s → healthy p d s →
  healthy p d (scrub_loop (λ e, scrub_one_blob (others e) (be_repo e) (be_digest e)) fuel segs pos order c s).1.
Proof.
  intros Hp Hkeep. revert pos order c s. induction fuel as [|fuel IH]; intros pos order c s Hs Hh; simpl.
  - by destruct (order !! pos) as [[]|].
  - destruct (order !! pos) as [[i j]|]; [|done]. destruct (_ ≫= _) as [e|]; [|done]. unfold mbind, M_bind.
    destruct (scrub_one_spare p d e (be_repo e) (be_digest e) s Hp (Hkeep e) Hs) as [S1 S2].
    destruct (scrub_one_blob (others e) (be_repo e) (be_digest e) s) as [s1 [[r b]|er]]; simpl in *; [|by auto].
    apply IH; auto.
Qed.
End Others.

Lemma enumerate_segments_files f : files (enumerate_segments f).1 = files f.
Proof.
  unfold enumerate_segments, mbind, M_bind. destruct (for_each_cas_blob_sound (files f) f eq_refl) as (F1 & es & Ees & _).
  destruct (for_each_cas_blob f) as [f1 r1]. simpl in *. subst r1.
  destruct (enumerate_entries_spec (files f1) es f1 eq_refl) as (F2 & bs & Hbs & _).
  destruct (enumerate_entries es f1) as [f2 r2]. simpl in *. subst r2. simpl. congruence.
Qed.


(** ** A pass keeps the invariant of the store *)

Section Invariant.
Context `{!LruLaws}.

Lemma quarantine_harmless leaf : harmless [QUARANTINE_DIR; leaf].
Proof.
  split.
  - intros d Hd. by apply blob_at_length in Hd.
  - intros (repo & id & _ & (r & [-> _]%repo_rel_ok & _ & E)%upload_rel_ok). pose proof (split_nonempty "/" repo) as Hne.
    apply (f_equal length) in E. rewrite length_app in E. destruct (split "/" repo) as [|? [|]]; simpl in E; try done; lia.
Qed.

Lemma quarantine_blob_keeps repo d ds : digest_wf d → runs keeps (quarantine_blob repo d ds).
Proof.
  intros Hd. unfold quarantine_blob. destruct (blob_dir_rel repo d) as [[dir leaf]|e] eqn:Ed; [|runs_auto].
  apply runs_bind; [runs_auto|intros ts]. do 2 (apply runs_bind; [runs_auto|intros _]).
  apply runs_bind; [|intros _; runs_auto]. apply io_err_keeps, rename_replace_keeps; [|apply quarantine_harmless].
  eapply blob_not_staging. by eapply blob_dir_rel_at.
Qed.

Lemma blob_gone_pres repo ds size : runs pres (blob_gone repo ds size).
Proof. unfold blob_gone. apply runs_bind; [|intros _; runs_auto]. apply runs_attempt, calm_pres, still_calm, blob_left_still. Qed.

Lemma for_each_cas_blob_same : runs same_files for_each_cas_blob.
Proof. intros f. by destruct (for_each_cas_blob_sound (files f) f eq_refl) as (F & _). Qed.

Lemma linked_copies_same ds repo ino es : runs same_files (linked_copies ds repo ino es).
Proof. induction es as [|e es IH]; simpl; unfold linked_copy; runs_auto. Qed.

Lemma scrub_fenced_pres repo ds d rel ino sz : digest_wf d → runs pres (scrub_fenced repo ds d rel ino sz).
Proof.
  intros Hd. pose proof (λ repo, calm_keeps _ (quarantine_blob_keeps repo d ds Hd)) as Hq.
  pose proof blob_gone_pres as Hg. unfold scrub_fenced, quarantine_hard_linked_copies, quarantine_copy.
  apply runs_bind; [apply runs_attempt, same_pres, statat_same|]. intros [n|e]; [|runs_auto]. case_match; [runs_auto|].
  apply runs_bind; [by apply runs_attempt, calm_pres|]. intros [[]|e]; [|runs_auto].
  apply runs_bind; [done|intros _]. apply runs_bind; [|intros _; runs_auto].
  apply runs_bind; [apply same_pres, for_each_cas_blob_same|intros es].
  apply runs_bind; [apply same_pres, linked_copies_same|intros hits]. apply each_runs; [apply _|]. intros hit.
  apply runs_bind; [by apply runs_attempt, calm_pres|]. intros [[]|e]; [done|runs_auto].
Qed.

Lemma scrub_rehash_pres repo ds d rel sz rec : runs pres (scrub_rehash repo ds d rel sz rec).
Proof.
  unfold scrub_rehash. apply runs_bind; [apply runs_attempt, same_pres; runs_auto|]. intros [file|e]; [|runs_auto].
  apply runs_bind; [apply runs_attempt, same_pres; runs_auto|]. intros [[]|e]; [|runs_auto].
  apply runs_bind; [apply runs_attempt, same_pres; runs_auto|]. intros [[h crc]|e]; [|runs_auto].
  case_match; [|runs_auto]. apply runs_bind; [by apply aside_pres|intros _; runs_auto].
Qed.

Lemma scrub_one_pres others repo ds :
  (∀ g s, pres s (others g s)) → runs pres (scrub_one_blob others repo ds).
Proof.
  intros Ho. assert (Hg : ∀ g, runs (E := errno) pres (modify (others g))) by (intros g s; apply Ho).
  pose proof scrub_rehash_pres as Hr. unfold scrub_one_blob. apply runs_bind; [done|intros _].
  intros s Hs. unfold mbind, M_bind. pose proof (scrub_verify_spec others repo ds s) as Hv.
  assert (Hp : runs pres (scrub_verify others repo ds)).
  { unfold scrub_verify. destruct (Digest_parse ds) as [d|]; [|runs_auto]. destruct (blob_rel repo d) as [rel|]; [|runs_auto].
    apply runs_bind; [apply runs_attempt, same_pres; runs_auto|]. intros [file|e]; [|runs_auto].
    apply runs_bind; [apply runs_attempt, same_pres; runs_auto|]. intros [[]|e]; [|runs_auto].
    apply runs_bind; [runs_auto|intros recorded].
    match goal with |- runs _ (if ?b then _ else _) => destruct b end; [|by apply runs_bind].
    apply runs_bind; [apply runs_attempt, same_pres; unfold crc32c_of_file; runs_auto|]. intros [[crc n]|e]; [|runs_auto].
    match goal with |- runs _ (if ?b then _ else _) => destruct b end; [runs_auto|by apply runs_bind]. }
  specialize (Hp s Hs). destruct (scrub_verify others repo ds s) as [s1 [[r b|d rel ino sz]|e]]; try exact Hp.
  destruct Hv as [_ (Hd & _)]. unfold modify. apply scrub_fenced_pres; [done|]. by apply Ho.
Qed.

(** Whatever the others do that keeps the invariant of the store, the pass
    keeps it. *)
Lemma scrub_pass_pres others : (∀ e g s, pres s (others e g s)) → runs pres (scrub_pass others).
Proof.
  intros Ho. unfold scrub_pass. apply runs_bind.
  { apply same_pres. intros f. apply enumerate_segments_files. }
  intros segs. case_match; [runs_auto|]. generalize (length (staggered_order segs)) as fuel.
  intros fuel. generalize 0 as pos, (staggered_order segs) as order, no_counts as c.
  induction fuel as [|fuel IH]; intros pos order c; cbn [scrub_loop].
  - destruct (order !! pos) as [[]|]; runs_auto.
  - destruct (order !! pos) as [[i j]|]; [|runs_auto]. destruct (_ ≫= _) as [e|]; [|runs_auto].
    apply runs_bind; [by apply scrub_one_pres|intros [r b]]. apply IH.
Qed.
End Invariant.

(** ** What a scrub finds, when nothing fails *)

Section Calm.
Hypothesis calm_world : ∀ n, fault n = None.

Lemma crc_of_file_calm i c f :
  ∃ f', crc32c_of_file (i, c) f = (f', Ok (crc32c c, blen c)) ∧ files f' = files f.
Proof.
  unfold crc32c_of_file, read_to_end, io_err, mapping_err, mbind, M_bind. rewrite syscall_calm by done.
  simpl. exists (mkFs (files f) (next_ino f) (S (ticks f))). split; [|done]. unfold crc32c, of_result.
  case_bool_decide as Hc; [subst c; by rewrite crc32c_append_nil by lia|]. done.
Qed.

Lemma statat_calm p f n :
  node_at f p = Some n → statat p f = (mkFs (files f) (next_ino f) (S (ticks f)), Ok n).
Proof. intros Hn. unfold statat. rewrite syscall_calm by done. unfold mbind, M_bind, gets, node_at in *. simpl. by rewrite Hn. Qed.

Lemma walk_dirs_calm walked rel create f :
  (∀ k, k ≠ [] → k `prefix_of` rel → files f !! (walked ++ k) = Some Dir) →
  ∃ f', walk_dirs walked rel create f = (f', Ok tt) ∧ files f' = files f.
Proof.
  revert walked f. induction rel as [|c rel IH]; intros walked f Hd; [by exists f|].
  cbn [walk_dirs]. unfold mbind, M_bind. rewrite attempt_eq. unfold openat_dir. rewrite syscall_calm by done.
  unfold mbind, M_bind, gets. simpl.
  assert (Hc : node_at (mkFs (files f) (next_ino f) (S (ticks f))) (walked ++ [c]) = Some Dir).
  { unfold node_at. simpl. specialize (Hd [c] ltac:(done) ltac:(by exists rel)). by destruct walked. }
  rewrite Hc. simpl.
  destruct (IH (walked ++ [c]) (mkFs (files f) (next_ino f) (S (ticks f)))) as (f' & E & Hf'); [|by exists f'].
  simpl. intros k Hk Hp. rewrite <-app_assoc. apply Hd; [done|]. simpl. by apply prefix_cons.
Qed.

Lemma openat2_calm rel f :
  rel ≠ [] → ∃ f' r, openat2_beneath rel f = (f', Ok r) ∧ files f' = files f ∧
    (r = None ∨
     r = Some (match node_at f rel with
               | Some n => if all_dirs f rel then match n with Special => Err not_found | n => Ok n end
                           else Err (io_of_errno ENOENT)
               | None => Err (io_of_errno ENOENT)
               end)).
Proof.
  intros Hrel. unfold openat2_beneath, mbind, M_bind, io_err, mapping_err, tick. simpl.
  rewrite (bool_decide_eq_false_2 (rel = [])) by done. destruct (supported _); simpl; [|eexists _, _; split; [reflexivity|]; by auto].
  rewrite attempt_eq, syscall_calm by done. unfold mbind, M_bind, gets. simpl.
  assert (Ha : all_dirs (mkFs (files f) (next_ino f) (S (S (ticks f)))) rel = all_dirs f rel) by done. rewrite Ha.
  assert (Hn : node_at (mkFs (files f) (next_ino f) (S (S (ticks f)))) rel = node_at f rel) by done. rewrite Hn.
  destruct (all_dirs f rel), (node_at f rel) as [[]|]; simpl; (eexists _, _; split; [reflexivity|]; by auto).
Qed.

Lemma dir_beneath_calm rel f :
  rel ≠ [] → (∀ k, k ≠ [] → k `prefix_of` rel → files f !! k = Some Dir) →
  ∃ f', dir_beneath rel false f = (f', Ok tt) ∧ files f' = files f.
Proof.
  intros Hrel Hd. unfold dir_beneath, io_err, mapping_err. unfold mbind, M_bind. rewrite syscall_calm by done. simpl.
  destruct (openat2_calm rel (mkFs (files f) (next_ino f) (S (ticks f))) Hrel) as (f1 & r & -> & Hf1 & Hr).
  simpl in Hf1. assert (Hnode : files f !! rel = Some Dir) by by apply Hd.
  destruct Hr as [-> | ->]; [destruct (walk_dirs_calm [] rel false f1) as (f' & -> & Hf'); [by rewrite Hf1|]; exists f'; split; [done|congruence]|].
  assert (Hn : node_at (mkFs (files f) (next_ino f) (S (ticks f))) rel = Some Dir) by (unfold node_at; simpl; by destruct rel).
  assert (Ha : all_dirs (mkFs (files f) (next_ino f) (S (ticks f))) rel = true).
  { unfold all_dirs. apply forallb_forall. intros k Hk%in_seq. apply bool_decide_eq_true. unfold node_at. simpl.
    destruct (take k rel) eqn:E; [done|]. rewrite <-E. apply Hd; [by rewrite E|]. exists (drop k rel). by rewrite take_drop. }
  rewrite Hn, Ha. by exists f1.
Qed.

Lemma dir_create_calm c f :
  files f !! [c] = None ∨ files f !! [c] = Some Dir →
  ∃ f', dir_beneath [c] true f = (f', Ok tt) ∧ files f' = <[[c] := Dir]> (files f).
Proof.
  intros Hc. unfold dir_beneath, io_err, mapping_err. unfold mbind, M_bind. rewrite syscall_calm by done. simpl.
  set (f0 := mkFs (files f) (next_ino f) (S (ticks f))).
  destruct (openat2_calm [c] f0 ltac:(done)) as (f1 & r & -> & Hf1 & Hr). simpl in Hf1.
  assert (Hw : ∃ f', walk_dirs [] [c] true f1 = (f', Ok tt) ∧ files f' = <[[c] := Dir]> (files f)).
  { cbn [walk_dirs]. unfold mbind, M_bind. rewrite attempt_eq. unfold openat_dir. rewrite syscall_calm by done.
    unfold mbind, M_bind, gets, node_at. simpl. rewrite Hf1. destruct Hc as [Hc|Hc]; rewrite Hc; simpl.
    - rewrite attempt_eq. unfold mkdirat. rewrite syscall_calm by done. unfold mbind, M_bind, gets, node_at, modify. simpl.
      rewrite Hc. simpl. rewrite attempt_eq, syscall_calm by done. simpl. rewrite lookup_insert_eq. simpl.
      by eexists.
    - eexists. split; [done|]. simpl. by rewrite insert_id. }
  destruct Hr as [-> | ->]; [exact Hw|]. unfold node_at, all_dirs. simpl.
  destruct Hc as [Hc|Hc]; rewrite Hc; simpl; [exact Hw|].
  exists f1. split; [done|]. rewrite Hf1. by rewrite insert_id.
Qed.

(** The quarantine can take the file [i]. *)
Definition quarantine_free (t : tree) (i : Z) : Prop :=
  (t !! [QUARANTINE_DIR] = None ∨ t !! [QUARANTINE_DIR] = Some Dir) ∧
  ∀ leaf, t !! [QUARANTINE_DIR; leaf] = None ∨ ∃ j c, t !! [QUARANTINE_DIR; leaf] = Some (Reg j c) ∧ j ≠ i.

Lemma quarantine_blob_calm repo d ds f p i c :
  blob_rel repo d = Ok p → parents_ok (files f) p → files f !! p = Some (Reg i c) → quarantine_free (files f) i →
  ∃ f' leaf, quarantine_blob repo d ds f = (f', Ok tt) ∧
    files f' = <[[QUARANTINE_DIR; leaf] := Reg i c]> (delete p (<[[QUARANTINE_DIR] := Dir]> (files f))).
Proof.
  intros Hrel Hpar Hp [Hq Hleaf]. unfold quarantine_blob. unfold blob_rel in Hrel.
  destruct (blob_dir_rel repo d) as [[dir leaf]|] eqn:Ed; [|done]. injection Hrel as <-.
  assert (Hdir : dir ≠ []).
  { assert (Hb : blob_rel repo d = Ok (dir ++ [leaf])) by (unfold blob_rel; by rewrite Ed).
    apply blob_rel_ok in Hb as (r & _ & _ & E). intros ->. by destruct r as [|? [|? []]]. }
  unfold mbind, M_bind, gets. simpl. generalize (quarantine_leaf repo ds (Z.max 0 (clock (ticks f)))) as leaf'. intros leaf'.
  destruct (dir_beneath_calm dir f Hdir) as (f1 & -> & Hf1).
  { intros k Hk Hpre. eapply parents_prefix; [exact Hpar|done| |].
    - etrans; [exact Hpre|]. by exists [leaf].
    - apply prefix_length in Hpre. rewrite length_app. simpl. lia. }
  destruct (dir_create_calm QUARANTINE_DIR f1) as (f2 & -> & Hf2); [by rewrite Hf1|]. rewrite Hf1 in Hf2.
  assert (Hp2 : files f2 !! (dir ++ [leaf]) = Some (Reg i c)).
  { rewrite Hf2, lookup_insert_ne; [done|]. destruct dir as [|? []]; done. }
  assert (Hl2 : files f2 !! [QUARANTINE_DIR; leaf'] = files f !! [QUARANTINE_DIR; leaf']) by (by rewrite Hf2, lookup_insert_ne).
  unfold io_err, mapping_err, rename_replace. rewrite syscall_calm by done. unfold mbind, M_bind, gets, modify, node_at. simpl.
  rewrite Hl2. replace (match dir ++ [leaf] with [] => Some Dir | _ :: _ => files f2 !! (dir ++ [leaf]) end) with (Some (Reg i c)) by by destruct dir.
  assert (Hend : ∃ f' leaf0, (let (s', r) := fsync (mkFs (<[[QUARANTINE_DIR; leaf']:=Reg i c]> (delete (dir ++ [leaf]) (files f2)))
                               (next_ino f2) (S (ticks f2))) in (s', map_err io_of_errno r)) = (f', Ok tt) ∧
    files f' = <[[QUARANTINE_DIR; leaf0] := Reg i c]> (delete (dir ++ [leaf]) (<[[QUARANTINE_DIR] := Dir]> (files f)))).
  { unfold fsync. rewrite syscall_calm by done. simpl. eexists _, leaf'. split; [done|]. simpl. by rewrite Hf2. }
  destruct (Hleaf leaf') as [->|(j & c' & -> & Hj)]; simpl; [exact Hend|].
  rewrite (proj2 (Z.eqb_neq i j)) by congruence. exact Hend.
Qed.

(** The files once the corrupt one is in the quarantine. *)
Lemma moved_facts t p i c leaf d :
  inodes_ok t → names_ok t → t !! p = Some (Reg i c) → length p ≠ 2 → digest_of c (algorithm d) ≠ d →
  let t' := <[[QUARANTINE_DIR; leaf] := Reg i c]> (delete p (<[[QUARANTINE_DIR] := Dir]> t)) in
  names_ok t' ∧ (∀ q x, t' !! q = Some (Reg i x) → digest_of x (algorithm d) ≠ d) ∧ t' !! p = None.
Proof.
  intros Hi Hn Hp Hlen Hbad t'.
  assert (Hold : ∀ q j x, q ≠ [QUARANTINE_DIR; leaf] → t' !! q = Some (Reg j x) → t !! q = Some (Reg j x)).
  { intros q j x Hq. unfold t'. rewrite lookup_insert_ne, lookup_delete_Some by done. intros [_ Hx].
    destruct (decide (q = [QUARANTINE_DIR])) as [->|]; [by rewrite lookup_insert_eq in Hx|].
    by rewrite lookup_insert_ne in Hx. }
  split_and!.
  - intros rp alg name j x dd Hx. eapply Hn, Hold; [|exact Hx]. intros E.
    apply (length_split_blob rp "blobs" alg name). by rewrite E.
  - intros q x Hx. destruct (decide (q = [QUARANTINE_DIR; leaf])) as [->|].
    + unfold t' in Hx. rewrite lookup_insert_eq in Hx. by injection Hx as <-.
    + apply Hold in Hx; [|done]. by rewrite (Hi _ _ _ _ _ Hx Hp).
  - unfold t'. rewrite lookup_insert_ne by (by intros <-). apply lookup_delete_eq.
Qed.

Lemma gone_corrupt repo ds d ino sz s :
  ((blob_gone repo ds sz;; quarantine_hard_linked_copies ds d ino repo;; mret (SCorrupt, sz) : M Store errno _) s).2 =
    Ok (SCorrupt, sz).
Proof.
  assert (Ht : total (quarantine_hard_linked_copies ds d ino repo)).
  { unfold quarantine_hard_linked_copies. totals; [apply linked_copies_total|].
    apply total_each. intros hit. unfold quarantine_copy, blob_gone. totals. }
  unfold mbind, M_bind. assert (Rg : (blob_gone repo ds sz s).2 = Ok tt) by done.
  destruct (blob_gone repo ds sz s) as [s1 r1]. cbn [snd] in Rg. subst r1. destruct (Ht s1) as [[] E].
  destruct (quarantine_hard_linked_copies ds d ino repo s1) as [s2 r2]. cbn [snd] in E. by subst r2.
Qed.

Section Verdict.
Context (repo : string) (d : Digest) (p : path) (i : Z) (c : bytes) (s : Store).
Hypothesis (d_wf : digest_wf d) (p_rel : blob_rel repo d = Ok p) (p_parents : parents_ok (files (fs s)) p)
  (p_file : files (fs s) !! p = Some (Reg i c)).

#[local] Notation ds := (Digest_fmt d).

(** The recorded size and checksum agree with the file. *)
Definition checksum_agrees : bool :=
  match checksum (mview (meta s)) repo ds with
  | Some ck => (ck_size ck =? blen c)%Z && (crc32c c =? ck_crc32c ck)%Z
  | None => false
  end.

Lemma scrub_rehash_calm sz rec s1 :
  files (fs s1) = files (fs s) →
  (scrub_rehash repo ds d p sz rec s1).2 =
    Ok (if ct_eq (digest_of c (algorithm d)) d then Settled (if rec : option BlobChecksum then SRepaired else SOk) sz
        else Mismatched d p i sz).
Proof.
  intros Hf. assert (Hne : p ≠ []) by (apply blob_rel_ok in p_rel as (r & _ & _ & ->); by destruct r).
  unfold scrub_rehash, mbind, M_bind. rewrite attempt_eq, on_fs_eq.
  destruct (open_beneath_calm calm_world p (fs s1) i c Hne) as (f1 & -> & Hf1); [by rewrite Hf|by rewrite Hf|]. simpl.
  rewrite attempt_eq, on_fs_eq, syscall_calm by done. simpl. rewrite attempt_eq, on_fs_eq. simpl.
  unfold read_to_end, io_err, mapping_err. rewrite syscall_calm by done. simpl.
  rewrite hash_reader_one by (destruct d_wf as [[[? _]|[? _]]%algorithm_len_Some _]; auto). unfold modify. simpl.
  by destruct (ct_eq _ _).
Qed.

Lemma scrub_verify_calm :
  (scrub_verify (λ _ s, s) repo ds s).2 =
    Ok (if checksum_agrees then Settled SOk (blen c)
        else if ct_eq (digest_of c (algorithm d)) d
             then Settled (if checksum (mview (meta s)) repo ds then SRepaired else SOk) (blen c)
             else Mismatched d p i (blen c)).
Proof.
  assert (Hne : p ≠ []) by (apply blob_rel_ok in p_rel as (r & _ & _ & ->); by destruct r).
  unfold scrub_verify, checksum_agrees. rewrite (Digest_parse_fmt d d_wf), p_rel.
  unfold mbind, M_bind. rewrite attempt_eq, on_fs_eq.
  destruct (open_beneath_calm calm_world p (fs s) i c Hne p_parents p_file) as (f1 & -> & Hf1). simpl.
  rewrite attempt_eq, on_fs_eq, syscall_calm by done. simpl.
  destruct (checksum (mview (meta s)) repo (Digest_fmt d)) as [ck|] eqn:Eck; simpl.
  2:{ rewrite scrub_rehash_calm by done. by destruct (ct_eq _ _). }
  destruct (Z.eqb (ck_size ck) (blen c)) eqn:Esz; simpl.
  2:{ rewrite scrub_rehash_calm by done. by destruct (ct_eq _ _). }
  rewrite attempt_eq, on_fs_eq. simpl.
  match goal with |- context [crc32c_of_file (i, c) ?f] => destruct (crc_of_file_calm i c f) as (f2 & -> & Hf2) end.
  simpl. destruct (Z.eqb (crc32c c) (ck_crc32c ck)) eqn:Ecrc; simpl; [done|].
  rewrite scrub_rehash_calm by (simpl; simpl in Hf2; congruence). by destruct (ct_eq _ _).
Qed.

(** The verdict on a blob, when no call fails: a file that agrees with its
    recorded checksum is accepted; one whose content hashes to the digest is
    accepted and its checksum recorded; any other is reported corrupt and taken
    out of the store. *)
Theorem scrub_verdict :
  inodes_ok (files (fs s)) → names_ok (files (fs s)) → quarantine_free (files (fs s)) i →
  let '(s', r) := scrub_one_blob (λ _ s, s) repo ds s in
  if checksum_agrees then r = Ok (SOk, blen c)
  else if decide (digest_of c (algorithm d) = d)
  then r = Ok (if checksum (mview (meta s)) repo ds then SRepaired else SOk, blen c) ∧ files (fs s') !! p = Some (Reg i c)
  else r = Ok (SCorrupt, blen c) ∧ ∀ j x, files (fs s') !! p ≠ Some (Reg j x).
Proof.
  intros Hi Hn Hq. pose proof scrub_verify_calm as Hv. pose proof (scrub_verify_spec (λ _ s, s) repo ds s) as Hf.
  destruct (scrub_one_blob (λ _ s, s) repo ds s) as [s' r] eqn:E. revert E. unfold scrub_one_blob.
  unfold mbind at 1, M_bind at 1, modify at 1. unfold mbind at 1, M_bind at 1.
  destruct (scrub_verify (λ _ s, s) repo ds s) as [s1 r1]. destruct Hf as [Hf _].
  assert (Hf1 : files (fs s1) = files (fs s)) by (destruct Hf as [Hf|(s2 & E1 & E2)]; congruence). clear Hf. rename Hf1 into Hf.
  cbn [fst snd] in *. subst r1.
  destruct checksum_agrees; [by intros [= _ <-]|].
  destruct (ct_eq _ d) eqn:Ect.
  { apply ct_eq_true in Ect. rewrite decide_True by done. intros [= <- <-]. by rewrite Hf. }
  assert (Hbad : digest_of c (algorithm d) ≠ d) by (intros E%ct_eq_true; congruence). rewrite decide_False by done.
  assert (Hnode : node_at (fs s1) p = Some (Reg i c)).
  { unfold node_at. rewrite Hf. destruct p; [by apply blob_rel_ok in p_rel as ([] & _ & _ & ?)|done]. }
  unfold mbind at 1, M_bind at 1, modify at 1. unfold scrub_fenced.
  unfold mbind at 1, M_bind at 1. rewrite attempt_eq, on_fs_eq, (statat_calm _ _ _ Hnode).
  cbn [fst snd node_ino]. rewrite bool_decide_eq_true_2 by done. cbn [negb].
  unfold mbind at 1, M_bind at 1. rewrite attempt_eq, on_fs_eq.
  match goal with |- context [quarantine_blob repo d ds ?f] =>
    destruct (quarantine_blob_calm repo d ds f p i c) as (f2 & leaf & Eq & Hf2); [done|by simpl; rewrite Hf..|] end.
  rewrite Eq. cbn [fst snd]. simpl in Hf2. rewrite Hf in Hf2.
  assert (Hlen : length p ≠ 2) by (eapply blob_at_length; split; eauto).
  destruct (moved_facts _ p i c leaf d Hi Hn p_file Hlen Hbad) as (Hn2 & Hm2 & Hnone). rewrite <-Hf2 in Hn2, Hm2, Hnone.
  intros E. match type of E with _ ?s2 = _ =>
    pose proof (gone_spare repo ds d i (blen c) d_wf s2 Hn2 Hm2) as Hg; pose proof (gone_corrupt repo ds d i (blen c) s2) as Hr end.
  rewrite E in Hg, Hr. split; [exact Hr|]. intros j x Hx.
  apply (spare_place _ _ Hg) in Hx; [|done]. simpl in Hx. congruence.
Qed.
End Verdict.
End Calm.
End ScrubFacts.

(** ** On concrete stores *)

Definition inodes_okb (t : tree) : bool :=
  forallb (λ x, forallb (λ y,
    match x.2, y.2 with
    | Reg i c, Reg j c' => negb (i =? j)%Z || bool_decide (c = c')
    | _, _ => true
    end) (map_to_list t)) (map_to_list t).

Lemma inodes_okb_sound t : inodes_okb t = true → inodes_ok t.
Proof.
  unfold inodes_okb. rewrite forallb_forall. intros Hb p q i c c' Hp Hq.
  apply elem_of_map_to_list in Hp, Hq. specialize (Hb _ (proj1 (list_elem_of_In _ _) Hp)). rewrite forallb_forall in Hb.
  specialize (Hb _ (proj1 (list_elem_of_In _ _) Hq)). simpl in Hb. rewrite Z.eqb_refl in Hb. simpl in Hb.
  by apply bool_decide_eq_true in Hb.
Qed.

Definition names_okb (t : tree) : bool :=
  forallb (λ x,
    match reverse x.1 with
    | name :: alg :: _ =>
        match Digest_parse (lossy alg +:+ ":" +:+ lossy name) with
        | Ok d => bool_decide (alg = algorithm d ∧ name = hex d)
        | Err _ => true
        end
    | _ => true
    end) (map_to_list t).

Lemma names_okb_sound t : names_okb t = true → names_ok t.
Proof.
  unfold names_okb. rewrite forallb_forall. intros Hb repo alg name i c d Hp Hd.
  apply elem_of_map_to_list in Hp. specialize (Hb _ (proj1 (list_elem_of_In _ _) Hp)). cbn [fst] in Hb.
  rewrite reverse_app in Hb. cbn in Hb. rewrite Hd in Hb. by apply bool_decide_eq_true in Hb.
Qed.

Definition no_quarantineb (t : tree) : bool :=
  forallb (λ x, negb (bool_decide (head x.1 = Some QUARANTINE_DIR))) (map_to_list t).

Lemma no_quarantineb_sound t i : no_quarantineb t = true → quarantine_free t i.
Proof.
  unfold no_quarantineb. rewrite forallb_forall. intros Hb.
  assert (Hnone : ∀ rest, t !! (QUARANTINE_DIR :: rest) = None).
  { intros rest. apply eq_None_not_Some. intros [n Hn]. apply elem_of_map_to_list in Hn.
    specialize (Hb _ (proj1 (list_elem_of_In _ _) Hn)). apply negb_true_iff, bool_decide_eq_false in Hb. by apply Hb. }
  split; [left; apply Hnone|]. intros leaf. left. apply Hnone.
Qed.

Import ToyServer.

Module ToyScrub.
Definition blob_file (repo : string) : path := split "/" repo ++ ["blobs"; algorithm d; hex d].
Definition junk : bytes := as_bytes "hello, w0rld".
(** A pushed blob whose file was damaged. *)
Definition damaged : Store := set_fs (on_files <[blob_file "a" := Reg 1 junk]> (fs (run pushed))) (run pushed).

(** Two links of a damaged file, in repositories whose quarantine names agree. *)
Definition linked_tree : tree := list_to_map (
  (λ p, (p, Dir)) <$> [["a"]; ["a"; "b"]; ["a"; "b"; "blobs"]; ["a"; "b"; "blobs"; "sha256"];
                       ["a__b"]; ["a__b"; "blobs"]; ["a__b"; "blobs"; "sha256"]])
  ∪ list_to_map [(["a"; "b"; "oci-layout"], Reg 2 []); (["a__b"; "oci-layout"], Reg 3 []);
                 (blob_file "a/b", Reg 1 junk); (blob_file "a__b", Reg 1 junk)].
Definition still_world : World := {|
  fault _ := None; partial _ := 0; supported _ := true; getrandom _ := Ok []; clock _ := 1000%Z |}.
Definition linked_store : Store := set_fs (mkFs linked_tree 10 0) empty_store.
End ToyScrub.
Import ToyScrub.

(** Work of the others that respects what the scrubber relies on. *)
Definition respectsb (t t' : tree) : bool :=
  inodes_okb t' && names_okb t' &&
  forallb (λ x, forallb (λ y,
    match x.2, y.2 with
    | Reg i c, Reg j c' => negb (i =? j)%Z || bool_decide (c = c')
    | _, _ => true
    end) (map_to_list t')) (map_to_list t).

Definition respectful (f : Store → Store) (s : Store) : Store :=
  if respectsb (files (fs s)) (files (fs (f s))) then f s else s.

Lemma respectful_considerate f : considerate (respectful f).
Proof.
  assert (Hr : ∀ s, respectful f s = f s ∧ respectsb (files (fs s)) (files (fs (f s))) = true ∨
    respectful f s = s ∧ respectsb (files (fs s)) (files (fs (f s))) = false).
  { intros s. unfold respectful. destruct (respectsb _ _); auto. }
  split; intros s; destruct (Hr s) as [[-> Hb]|[-> Hb]]; try done; unfold respectsb in Hb;
    try (rewrite !andb_true_iff in Hb; destruct Hb as [[Hi Hn] Hc]).
  - intros _. by apply inodes_okb_sound.
  - intros _. by apply names_okb_sound.
  - intros p d i c q c' _ _ Hp Hq. rewrite forallb_forall in Hc. apply elem_of_map_to_list in Hp, Hq.
    specialize (Hc _ (proj1 (list_elem_of_In _ _) Hp)). rewrite forallb_forall in Hc.
    specialize (Hc _ (proj1 (list_elem_of_In _ _) Hq)). cbn in Hc. rewrite Z.eqb_refl in Hc.
    by apply bool_decide_eq_true in Hc.
  - intros p d i c q c' Hi _ Hp Hq. by eapply Hi.
Qed.

(** The blob of the repository "a" is pushed again, as a new file. *)
Definition push_again (s : Store) : Store := set_fs (on_files <[blob_file "a" := Reg 9 content]> (fs s)) s.
Definition pushing (when : gap) (_ : BlobEntry) (g : gap) : Store → Store :=
  match g, when with
  | BeforeFence, BeforeFence | BeforeRehash, BeforeRehash => respectful push_again
  | _, _ => respectful (λ s, s)
  end.

Lemma pushing_considerate w e g : considerate (pushing w e g).
Proof. destruct g, w; apply respectful_considerate. Qed.

Lemma blob_file_at : blob_at (blob_file "a") d.
Proof. split; [apply d_wf|]. exists "a". reflexivity. Qed.


(** A damaged blob of another length that is pushed again after its file was
    opened the first time: the pass hashes the new file and records its
    checksum with the length of the old one, which a [HEAD] then serves. *)
Definition cut_short : Store := set_fs (on_files <[blob_file "a" := Reg 1 (take 5 content)]> (fs (run pushed))) (run pushed).
Lemma scrub_records_stale_size :
  let s := (scrub_pass (pushing BeforeRehash) cut_short).1 in
  files (fs s) !! blob_file "a" = Some (Reg 9 content) ∧ blen content = 12%Z ∧
  checksum (mview (meta s)) "a" (Digest_fmt d) = Some {| ck_crc32c := crc32c content; ck_size := 5 |} ∧
  (blob_size "a" d s).2 = Ok 5%Z.
Proof. vm_compute. split_and!; reflexivity. Qed.

Lemma scrub_verdict_witness :
  (scrub_one_blob (λ _ s, s) "a" (Digest_fmt d) damaged).2 = Ok (SCorrupt, blen junk) ∧
  ∀ j x, files (fs (scrub_one_blob (λ _ s, s) "a" (Digest_fmt d) damaged).1) !! blob_file "a" ≠ Some (Reg j x).
Proof.
  assert (Hcalm : ∀ n, @fault toy_world n = None) by done.
  pose proof (scrub_verdict Hcalm "a" d (blob_file "a") 1 junk damaged) as Hv.
  destruct (scrub_one_blob (λ _ s, s) "a" (Digest_fmt d) damaged) as [s' r] eqn:E.
  assert (Hc : checksum_agrees "a" d junk damaged = false) by (vm_compute; reflexivity).
  assert (Hd : digest_of junk (algorithm d) ≠ d) by (intros Hd; vm_compute in Hd; discriminate Hd).
  rewrite Hc, decide_False in Hv by exact Hd. apply Hv.
  - apply d_wf.
  - reflexivity.
  - intros k Hk. change (k < 4) in Hk. destruct k as [|[|[|[|k]]]]; [by left|right; vm_compute; reflexivity..|lia].
  - vm_compute. reflexivity.
  - apply inodes_okb_sound. vm_compute. reflexivity.
  - apply names_okb_sound. vm_compute. reflexivity.
  - apply no_quarantineb_sound. vm_compute. reflexivity.
Defined.

(** Quarantine names are not injective: the slashes of a repository name
    become double underscores, which names may contain. When two links of one
    corrupt file get the same quarantine name in the same millisecond, the second
    rename does nothing, since both paths are links of one file, and succeeds:
    the corrupt file stays in the second repository although the code goes on as
    if it were gone. *)
Theorem quarantine_name_collision :
  RepositoryName_parse "a/b" = Ok "a/b" ∧ RepositoryName_parse "a__b" = Ok "a__b" ∧
  (∀ digest ts, quarantine_leaf "a/b" digest ts = quarantine_leaf "a__b" digest ts) ∧
  let '(s', r) := @scrub_one_blob _ still_world _ _ _ _ (λ _ s, s) "a/b" (Digest_fmt d) linked_store in
  r = Ok (SCorrupt, blen junk) ∧ files (fs s') !! blob_file "a/b" = None ∧
  files (fs s') !! blob_file "a__b" = Some (Reg 1 junk) ∧
  (@quarantine_blob still_world "a__b" d (Digest_fmt d) (fs s')).2 = Ok tt.
Proof. split_and!; [reflexivity|reflexivity|reflexivity|]. vm_compute. split_and!; reflexivity. Qed.
