(* ===== verification/ScrubRate.v ===== *)
(** The pace of a scrub pass (fs_storage/scrub.rs): the token bucket for the
    read bandwidth, the pass with its sleeps, and whether a pass runs at all.

    Instants are nanoseconds of the monotonic clock. How late a sleep ends and
    how long the check of a blob takes are parameters: [late k] and [busy k]
    for the [k]th blob of a pass. *)

From Stdlib Require Import SpecFloat.
From S2P Require Import Prelude Float64 FloatSigned.

#[local] Open Scope Z_scope.

(** ** The bucket *)

(** [TokenBucket] of scrub.rs; the tokens go below zero. *)
Record ScrubBucket := mkScrubBucket { sb_tokens : f64; sb_rate : f64; sb_capacity : f64; sb_last : Z }.

Definition scrub_bucket_new (bytes_per_sec now : Z) : ScrubBucket :=
  let cap := f64_of_Z bytes_per_sec in mkScrubBucket cap cap cap now.

(** [duration_since] is zero when the clock went back. *)
Definition refill (b : ScrubBucket) (now : Z) : ScrubBucket :=
  let elapsed := as_secs_f64 ((now - sb_last b) `max` 0) in
  mkScrubBucket (f64_min (f64_add (sb_tokens b) (f64_mul elapsed (sb_rate b))) (sb_capacity b))
    (sb_rate b) (sb_capacity b) now.

(** The duration to sleep; [None] is the panic of [Duration::from_secs_f64]. *)
Definition consume (b : ScrubBucket) (n now : Z) : ScrubBucket * option Z :=
  let b := refill b now in
  let needed := f64_of_Z n in
  let spent := mkScrubBucket (f64_sub (sb_tokens b) needed) (sb_rate b) (sb_capacity b) (sb_last b) in
  if f64_ge (sb_tokens b) needed then (spent, Some 0)
  else
    let deficit := f64_sub needed (sb_tokens b) in
    let wait_secs := f64_div deficit (sb_rate b) in
    (spent, from_secs_f64 wait_secs).

(** ** Turns of a pass *)

(** What a pass keeps beside the store: its bucket, the time, and, for the
    statements below, when each blob began to be read and its size. *)
Record Pace := mkPace { p_bucket : ScrubBucket; p_now : Z; p_reads : list (Z * Z) }.

Definition pace_start (bytes_per_sec now : Z) : Pace := mkPace (scrub_bucket_new bytes_per_sec now) now [].

Section Turns.
Variables late busy : nat → Z.

Definition pace_turn (p : Pace) (n : Z) : option Pace :=
  let '(b, delay) := consume (p_bucket p) n (p_now p) in
  let k := length (p_reads p) in
  d ← delay;
  let read_at := p_now p + d + late k in
  Some (mkPace b (read_at + busy k) (p_reads p ++ [(read_at, n)])).

Fixpoint pace_run (p : Pace) (sizes : list Z) : option Pace :=
  match sizes with
  | [] => Some p
  | n :: sizes => p ← pace_turn p n; pace_run p sizes
  end.
End Turns.

(** ** The ceiling *)

Definition sum_Z (l : list Z) : Z := foldr Z.add 0 l.

(** What had been read, or begun to be, when a blob began to be read: at most
    the capacity and what the rate gives until a nanosecond later, with one
    part in [2 ^ 49] and two bytes for every blob for the rounding. *)
Definition within_rate (R t0 : Z) (reads : list (Z * Z)) : Prop :=
  ∀ k r, reads !! k = Some r →
    2 ^ 49 * (NANOS_PER_SEC * (sum_Z (take (S k) reads.*2) - R)) ≤
      (2 ^ 49 + 1) * (R * (r.1 - t0 + 1)) + 2 ^ 50 * (NANOS_PER_SEC * Z.of_nat (S k)).

Lemma sum_Z_app l k : sum_Z (l ++ k) = sum_Z l + sum_Z k.
Proof. induction l as [|x l IH]; simpl; [done|]. rewrite IH. lia. Qed.
Lemma sum_Z_nonneg l : Forall (λ n, 0 ≤ n) l → 0 ≤ sum_Z l.
Proof. induction 1; simpl; lia. Qed.
Lemma sum_Z_perm l k : l ≡ₚ k → sum_Z l = sum_Z k.
Proof. induction 1; simpl; lia. Qed.

Lemma within_rate_snoc R t0 reads r :
  within_rate R t0 reads →
  2 ^ 49 * (NANOS_PER_SEC * (sum_Z reads.*2 + r.2 - R)) ≤
    (2 ^ 49 + 1) * (R * (r.1 - t0 + 1)) + 2 ^ 50 * (NANOS_PER_SEC * Z.of_nat (S (length reads))) →
  within_rate R t0 (reads ++ [r]).
Proof.
  intros Hw Hr k r' [Hk|[Hge Hk]]%lookup_app_Some; rewrite fmap_app.
  - rewrite take_app_le by (apply lookup_lt_Some in Hk; rewrite length_fmap; lia). by apply Hw.
  - apply list_lookup_singleton_Some in Hk as [Hk <-]. replace k with (length reads) by lia.
    rewrite take_ge by (rewrite length_app, length_fmap; simpl; lia). rewrite sum_Z_app. simpl. by rewrite Z.add_0_r.
Qed.

(** The tokens of a bucket after [S] bytes and [k] blobs: at least what is
    owed for all of them, and at most what the capacity and the time leave. *)
Definition bucket_inv (R t0 S : Z) (k : nat) (b : ScrubBucket) : Prop :=
  num (sb_tokens b) ∧ sb_rate b = f64_of_Z R ∧ sb_capacity b = f64_of_Z R ∧ - S * W 0 ≤ Vs (sb_tokens b) ∧
  ∃ T, Vs (sb_tokens b) ≤ T * W 0 ∧ T ≤ R ∧
    2 ^ 49 * (NANOS_PER_SEC * (T + S - R)) ≤ (2 ^ 49 + 1) * (R * (sb_last b - t0)) + 2 ^ 50 * (NANOS_PER_SEC * Z.of_nat k).

Definition RATE_MAX : Z := 2 ^ 49.
Definition BYTES_MAX : Z := 2 ^ 49.

Lemma scrub_bucket_inv R t0 : 1 ≤ R ≤ RATE_MAX → bucket_inv R t0 0 0 (scrub_bucket_new R t0).
Proof.
  unfold RATE_MAX. intros HR. destruct (of_Z_exact R ltac:(lia)) as [Hv HV]. destruct (valid_num _ Hv) as [Hn Hs].
  pose proof (W_pos 0 ltac:(done)). split_and!; [done..|simpl; nia|]. exists R. simpl sb_tokens. simpl sb_last.
  rewrite Hs, HV. split_and!; [done|done|lia].
Qed.

(** Time fills the bucket. *)
Lemma refill_inv R t0 S k b now :
  1 ≤ R ≤ RATE_MAX → 0 ≤ S ≤ BYTES_MAX → bucket_inv R t0 S k b → 0 ≤ now - sb_last b ≤ 2 ^ 80 →
  bucket_inv R t0 S (Datatypes.S k) (refill b now).
Proof.
  unfold RATE_MAX, BYTES_MAX. intros HR HS (Tn & Er & Ec & Tlo & T & Tup & TR & Tb) Hdt.
  pose proof (W_pos 0 ltac:(done)) as HW0. destruct (of_Z_exact R ltac:(lia)) as [Rv RV]. destruct (valid_num _ Rv) as [Rn Rs].
  unfold refill. rewrite Z.max_l, Er, Ec, f64_mul_comm by lia. unfold bucket_inv. cbn [sb_tokens sb_rate sb_capacity sb_last].
  destruct (inflow_spec R (now - sb_last b) ltac:(lia) ltac:(lia)) as (Pv & PV & _ & Pup).
  set (p := f64_mul _ _) in *. destruct (valid_num p Pv) as [Pn Ps]. pose proof (V_nonneg p Pv) as P0.
  set (t := sb_tokens b) in *.
  assert (HW900 : W 890 * 2 ^ 10 = W 900) by by apply W_scale.
  assert (HW0' : W 0 * 2 ^ 60 ≤ W 890) by (rewrite <-W_add by done; by apply W_mono).
  assert (- S ≤ T) by (apply (Z.mul_le_mono_pos_r _ _ (W 0)); lia).
  assert (Z.abs (Vs t) ≤ 2 ^ 49 * W 0) by (apply Z.abs_le; nia).
  pose proof (add_srounds t p Tn Pn ltac:(lia)) as Hu. set (u := f64_add t p) in *.
  destruct (min_num u (f64_of_Z R) (proj1 Hu) Rn) as [Mn ->]. rewrite Rs, RV, Ps in *.
  assert (Ulo : - S * W 0 ≤ Vs u) by (apply (srounds_ge _ _ _ Hu); lia).
  split_and!; [done|done|done|nia|].
  set (P := V p / W 0 + 1). pose proof (Z.div_mod (V p) (W 0) ltac:(lia)). pose proof (Z.mod_pos_bound (V p) (W 0) HW0).
  assert (HP : V p ≤ P * W 0 ≤ V p + W 0) by (unfold P; lia).
  exists ((T + P) `min` R). split_and!; [|lia|].
  - destruct (Z.le_gt_cases R (T + P)); [rewrite (Z.min_r (T + P)) by lia; lia|].
    assert (0 ≤ P) by nia. rewrite (Z.min_l (T + P)) by lia. transitivity (Vs u); [lia|].
    apply (srounds_le _ _ _ Hu); lia.
  - assert (HPb : 2 ^ 49 * (NANOS_PER_SEC * P) ≤ (2 ^ 49 + 1) * (R * (now - sb_last b)) + 1 + 2 ^ 49 * NANOS_PER_SEC).
    { apply (Z.mul_le_mono_pos_r _ _ (W 0)); [done|]. unfold NANOS_PER_SEC in *. lia. }
    unfold NANOS_PER_SEC in *. change (10 ^ 9) with 1000000000 in *. lia.
Qed.

Lemma abs_tokens S R T t n :
  1 ≤ R ≤ RATE_MAX → 0 ≤ n → 0 ≤ S → S + n ≤ BYTES_MAX → T ≤ R → - S * W 0 ≤ Vs t ≤ T * W 0 →
  - S ≤ T ∧ Z.abs (Vs t) + n * W 0 ≤ W 900.
Proof.
  unfold RATE_MAX, BYTES_MAX. intros. pose proof (W_pos 0 ltac:(done)) as HW0.
  assert (W 0 * 2 ^ 60 ≤ W 900) by (rewrite <-W_add by done; by apply W_mono).
  split; [apply (Z.mul_le_mono_pos_r _ _ (W 0)); lia|nia].
Qed.

(** The sleep lasts until the bucket would be even. *)
Lemma deficit_sleep R S T t n :
  1 ≤ R ≤ RATE_MAX → 0 ≤ n → 0 ≤ S → S + n ≤ BYTES_MAX → num t → - S * W 0 ≤ Vs t ≤ T * W 0 → T ≤ R → Vs t < n * W 0 →
  ∃ d, from_secs_f64 (f64_div (f64_sub (f64_of_Z n) t) (f64_of_Z R)) = Some d ∧ 0 ≤ d ≤ 2 ^ 79 ∧
    2 ^ 49 * (NANOS_PER_SEC * (n - T)) ≤ (2 ^ 49 + 1) * (R * (d + 1)).
Proof.
  intros HR Hn HS HSn Tn Ht TR Hlt. destruct (abs_tokens S R T t n) as [HT Hab]; [done..|].
  unfold RATE_MAX, BYTES_MAX in *. pose proof (W_pos 0 ltac:(done)) as HW0.
  destruct (of_Z_exact n ltac:(lia)) as [Nv NV]. destruct (valid_num _ Nv) as [Nn Ns]. rewrite NV in Ns.
  pose proof (sub_srounds _ t Nn Tn ltac:(lia)) as Hd. rewrite Ns in Hd. set (df := f64_sub (f64_of_Z n) t) in *.
  assert (D0 : 0 * W 0 ≤ Vs df) by (apply (srounds_ge _ _ _ Hd); lia).
  pose proof (num_valid df (proj1 Hd) ltac:(lia)) as Dv. destruct (valid_num df Dv) as [_ DV].
  assert (DU : V df ≤ (n + S) * W 0) by (rewrite <-DV; apply (srounds_le _ _ _ Hd); lia).
  assert (DL : (n - T) * W 0 ≤ V df) by (rewrite <-DV; apply (srounds_ge _ _ _ Hd); lia).
  destruct (of_Z_exact R ltac:(lia)) as [Rv RV].
  destruct (div_by_rate df (f64_of_Z R) (n + S)) as (Qv & QU & QL); [done|done|rewrite RV; nia|rewrite RV; nia|done|lia|].
  set (q := f64_div df (f64_of_Z R)) in *. pose proof (V_nonneg q Qv) as Q0. rewrite RV in QL.
  destruct (from_secs_spec q ((n + S) `max` 1)) as (d & -> & Hd0 & HdL & HdU); [done|done|lia|].
  unfold NANOS_PER_SEC in *. change (10 ^ 9) with 1000000000 in *. exists d. split_and!; [done|done| |].
  - assert ((n + S) `max` 1 * W 0 ≤ 2 ^ 49 * W 0) by (apply Z.mul_le_mono_nonneg_r; lia).
    apply (Z.mul_le_mono_pos_r _ _ (W 0)); [done|]. lia.
  - assert (HdR : 0 ≤ R * (d + 1)) by nia. destruct (Z.le_gt_cases n T) as [|HD]; [lia|]. specialize (QL ltac:(nia)).
    assert (HDq : 2 ^ 52 * (n - T) * W 0 ≤ (2 ^ 52 + 1) * (V q * R)) by (apply (Z.mul_le_mono_pos_r _ _ (W 0)); [done|nia]).
    pose proof (Z.mul_le_mono_nonneg_l _ _ R ltac:(lia) HdL).
    assert (2 ^ 53 * (1000000000 * (n - T)) ≤ (2 ^ 52 + 1) * ((2 * d + 1) * R)) by (apply (Z.mul_le_mono_pos_r _ _ (W 0)); [done|lia]).
    assert (0 ≤ d * R) by nia. lia.
Qed.

(** A turn takes the blob's size out, and gives a time to sleep. *)
Lemma consume_inv R t0 S k b n now :
  1 ≤ R ≤ RATE_MAX → 0 ≤ n → 0 ≤ S → S + n ≤ BYTES_MAX → bucket_inv R t0 S k b → 0 ≤ now - sb_last b ≤ 2 ^ 80 →
  ∃ b' d, consume b n now = (b', Some d) ∧ bucket_inv R t0 (S + n) (Datatypes.S k) b' ∧ sb_last b' = now ∧ 0 ≤ d ≤ 2 ^ 79 ∧
    2 ^ 49 * (NANOS_PER_SEC * (S + n - R)) ≤
      (2 ^ 49 + 1) * (R * (now + d - t0 + 1)) + 2 ^ 50 * (NANOS_PER_SEC * Z.of_nat (Datatypes.S k)).
Proof.
  intros HR Hn HS HSn Hb Hdt. pose proof (W_pos 0 ltac:(done)) as HW0.
  pose proof (refill_inv R t0 S k b now HR ltac:(lia) Hb Hdt) as (Tn & Er & Ec & Tlo & T & Tup & TR & Tb).
  unfold consume. change (sb_last (refill b now)) with now in *. set (b1 := refill b now) in *. set (t := sb_tokens b1) in *.
  destruct (abs_tokens S R T t n) as [HT Hab]; [done..|]. unfold RATE_MAX, BYTES_MAX in *.
  destruct (of_Z_exact n ltac:(lia)) as [Nv NV]. destruct (valid_num _ Nv) as [Nn Ns]. rewrite NV in Ns.
  pose proof (sub_srounds t _ Tn Nn ltac:(lia)) as Hs. rewrite Ns in Hs.
  assert (Hinv : bucket_inv R t0 (S + n) (Datatypes.S k) (mkScrubBucket (f64_sub t (f64_of_Z n)) (sb_rate b1) (sb_capacity b1) now)).
  { split_and!; [apply Hs|done|done|apply (srounds_ge _ _ _ Hs); lia|]. exists (T - n).
    split_and!; [apply (srounds_le _ _ _ Hs); lia|lia|]. simpl sb_last. lia. }
  unfold f64_ge. pose proof (SFleb_num _ t Nn Tn) as Hcmp. rewrite Ns in Hcmp. destruct (SFleb (f64_of_Z n) t).
  - assert (n ≤ T) by (apply (Z.mul_le_mono_pos_r _ _ (W 0)); [done|]; pose proof (proj1 Hcmp eq_refl); lia).
    eexists _, 0. split_and!; [done|exact Hinv|done|lia|lia|]. unfold NANOS_PER_SEC in *. lia.
  - assert (Hlt : Vs t < n * W 0) by (apply Z.nle_gt; intros ?; by discriminate (proj2 Hcmp)).
    rewrite Er in *. destruct (deficit_sleep R S T t n) as (d & -> & Hd & HD); [done..|].
    eexists _, d. split_and!; [done|exact Hinv|done|lia|lia|]. unfold NANOS_PER_SEC in *. lia.
Qed.

Section Turns.
Variables late busy : nat → Z.

(** No delay is longer than some four million years. *)
Definition delays_ok : Prop := ∀ k, 0 ≤ late k ≤ 2 ^ 77 ∧ 0 ≤ busy k ≤ 2 ^ 77.
Hypothesis delays : delays_ok.

Definition pace_inv (R t0 : Z) (p : Pace) : Prop :=
  within_rate R t0 (p_reads p) ∧ 0 ≤ sum_Z (p_reads p).*2 ∧
  bucket_inv R t0 (sum_Z (p_reads p).*2) (length (p_reads p)) (p_bucket p) ∧ 0 ≤ p_now p - sb_last (p_bucket p) ≤ 2 ^ 80.

Lemma pace_start_inv R t0 : 1 ≤ R ≤ RATE_MAX → pace_inv R t0 (pace_start R t0).
Proof.
  intros HR. split_and!; [done|done|by apply scrub_bucket_inv|simpl; lia|simpl; lia].
Qed.

Lemma pace_turn_inv R t0 p n :
  1 ≤ R ≤ RATE_MAX → pace_inv R t0 p → 0 ≤ n → sum_Z (p_reads p).*2 + n ≤ BYTES_MAX →
  ∃ p' r, pace_turn late busy p n = Some p' ∧ pace_inv R t0 p' ∧ p_reads p' = p_reads p ++ [(r, n)].
Proof.
  intros HR (Hw & HS & Hb & Hdt) Hn HSn. unfold pace_turn.
  destruct (consume_inv R t0 _ _ _ n (p_now p) HR Hn HS HSn Hb Hdt) as (b' & d & -> & Hb' & Hl & Hd & Hc).
  destruct (delays (length (p_reads p))) as [Hla Hbu]. simpl. eexists _, _. split_and!; [done| |done].
  split_and!; cbn [p_reads p_now p_bucket]; rewrite ?fmap_app, ?sum_Z_app; simpl; rewrite ?Z.add_0_r; [|lia| |lia|lia].
  - apply within_rate_snoc; [done|]. simpl. assert (0 ≤ R * late (length (p_reads p))) by (apply Z.mul_nonneg_nonneg; lia).
    unfold NANOS_PER_SEC in *. lia.
  - rewrite length_app, Nat.add_comm. done.
Qed.

(** A pass over blobs that are not larger than [BYTES_MAX] together sleeps
    between them as it should and never panics. *)
Lemma pace_run_inv R t0 sizes p :
  1 ≤ R ≤ RATE_MAX → pace_inv R t0 p → Forall (λ n, 0 ≤ n) sizes → sum_Z (p_reads p).*2 + sum_Z sizes ≤ BYTES_MAX →
  ∃ p', pace_run late busy p sizes = Some p' ∧ within_rate R t0 (p_reads p') ∧ (p_reads p').*2 = (p_reads p).*2 ++ sizes.
Proof.
  intros HR Hp Hs. revert p Hp. induction Hs as [|n sizes Hn Hs IH]; intros p Hp Hle; simpl in *.
  { exists p. rewrite app_nil_r. split_and!; [done|apply Hp|done]. }
  pose proof (sum_Z_nonneg sizes Hs).
  destruct (pace_turn_inv R t0 p n HR Hp Hn ltac:(lia)) as (p1 & r & -> & Hp1 & Er). simpl.
  destruct (IH p1 Hp1) as (p' & -> & Hw & Ep); rewrite ?Er, ?fmap_app, ?sum_Z_app in *; simpl in *; [lia|].
  exists p'. split_and!; [done|done|]. by rewrite Ep, <-app_assoc.
Qed.
End Turns.
