(* ===== verification/Telemetry.v ===== *)
(** Metrics (roci-telemetry/src/metrics.rs): what is recorded, and the Prometheus
    text of a scrape. The OpenTelemetry SDK aggregates what is recorded; a scrape
    encodes what it hands over. The printing of a float is the class
    [DisplayF64]; text is the list of its bytes. *)

From S2P Require Import Prelude RustStr Float64 NetAddr Config.

Abbreviation text := bytes.

Class DisplayF64 := { display_f64 : f64 → text }.

Definition display_u64 (n : Z) : text := as_bytes (u64_to_string n).
Definition display_i64 (n : Z) : text := if (n <? 0)%Z then "-"%char :: display_u64 (- n) else display_u64 n.

Definition LF : ascii := "010".
Definition QUOTE : ascii := "034".
Definition BACKSLASH : ascii := "092".

(** ** What the SDK hands over *)

Abbreviation KeyValue := (text * text)%type.

Record HistogramPoint T := mkHistogram {
  h_attrs : list KeyValue;
  h_bounds : list f64;
  h_counts : list Z;
  h_sum : T;
  h_count : Z;
}.
Arguments mkHistogram {T}. Arguments h_attrs {T}. Arguments h_bounds {T}. Arguments h_counts {T}.
Arguments h_sum {T}. Arguments h_count {T}.

Inductive AggregatedMetrics :=
  | F64Histogram (points : list (HistogramPoint f64))
  | U64Histogram (points : list (HistogramPoint Z))
  | U64Sum (points : list (list KeyValue * Z))
  | I64Sum (points : list (list KeyValue * Z))
  | OtherMetrics.

Record Metric := mkMetric { m_name : text; m_unit : text; m_description : text; m_data : AggregatedMetrics }.

(** The metrics of each scope. *)
Abbreviation ResourceMetrics := (list (list Metric)).

(** ** The text *)

(** [str::replace] of a character *)
Definition replace_with (c : ascii) (r : text) (s : text) : text := s ≫= λ b, if decide (b = c) then r else [b].

Definition escape_label_value (s : text) : text :=
  replace_with LF [BACKSLASH; "n"%char]
    (replace_with QUOTE [BACKSLASH; QUOTE] (replace_with BACKSLASH [BACKSLASH; BACKSLASH] s)).

Definition format_pair (kv : KeyValue) : text := kv.1 ++ ["="%char; QUOTE] ++ escape_label_value kv.2 ++ [QUOTE].

(** [pairs.join(",")] *)
Fixpoint join_comma (pairs : list text) : text :=
  match pairs with
  | [] => []
  | [p] => p
  | p :: pairs => p ++ ","%char :: join_comma pairs
  end.

Definition format_labels (attrs : list KeyValue) : text := "{"%char :: join_comma (format_pair <$> attrs) ++ ["}"%char].

Definition format_labels_with (base : list KeyValue) (extra_key extra_val : text) : text :=
  format_labels (base ++ [(extra_key, extra_val)]).

Definition writeln (out line : text) : text := out ++ line ++ [LF].

Definition write_help_type (out name desc typ : text) : text :=
  let out := if decide (desc = []) then out else writeln out (as_bytes "# HELP " ++ name ++ " "%char :: desc) in
  writeln out (as_bytes "# TYPE " ++ name ++ " "%char :: typ).

Definition prom_metric_name (name unit_ : text) : text :=
  let base := replace_with "." ["_"%char] name in
  if decide (unit_ = as_bytes "s") then base ++ as_bytes "_seconds" else base.

(** [writeln!(out, "{name}{labels} {value}")] *)
Definition write_sample (out name : text) (labels : text) (value : text) : text := writeln out (name ++ labels ++ " "%char :: value).

Section Encode.
Context `{!DisplayF64}.

(** The loop over the buckets, from the cumulative count. *)
Fixpoint write_buckets (out prom_name : text) (base : list KeyValue) (bounds : list f64) (counts : list Z) (cumulative : Z) : text :=
  match counts with
  | [] => out
  | count :: counts =>
      let cumulative := (cumulative + count)%Z in
      let le := match bounds with b :: _ => display_f64 b | [] => as_bytes "+Inf" end in
      let out := write_sample out (prom_name ++ as_bytes "_bucket") (format_labels_with base (as_bytes "le") le) (display_u64 cumulative) in
      write_buckets out prom_name base (tail bounds) counts cumulative
  end.

Definition write_point {T} (display : T → text) (prom_name : text) (out : text) (dp : HistogramPoint T) : text :=
  let out := write_buckets out prom_name (h_attrs dp) (h_bounds dp) (h_counts dp) 0 in
  let labels := format_labels (h_attrs dp) in
  let out := write_sample out (prom_name ++ as_bytes "_sum") labels (display (h_sum dp)) in
  write_sample out (prom_name ++ as_bytes "_count") labels (display_u64 (h_count dp)).

Definition write_histogram {T} (display : T → text) (out prom_name desc : text) (points : list (HistogramPoint T)) : text :=
  foldl (write_point display prom_name) (write_help_type out prom_name desc (as_bytes "histogram")) points.

Definition encode_u64_sum (out prom_name desc : text) (points : list (list KeyValue * Z)) : text :=
  let full := prom_name ++ as_bytes "_total" in
  foldl (λ out dp, write_sample out full (format_labels dp.1) (display_u64 dp.2))
    (write_help_type out full desc (as_bytes "counter")) points.

Definition encode_metric (out prom_name desc : text) (data : AggregatedMetrics) : text :=
  match data with
  | F64Histogram points => write_histogram display_f64 out prom_name desc points
  | U64Sum points => encode_u64_sum out prom_name desc points
  | I64Sum points =>
      foldl (λ out dp, write_sample out prom_name (format_labels dp.1) (display_i64 dp.2))
        (write_help_type out prom_name desc (as_bytes "gauge")) points
  | U64Histogram points => write_histogram display_u64 out prom_name desc points
  | OtherMetrics => out
  end.

Definition encode_prometheus (rm : ResourceMetrics) : text :=
  foldl (λ out sm, foldl (λ out m,
    encode_metric out (prom_metric_name (m_name m) (m_unit m)) (m_description m) (m_data m)) out sm) [] rm.
End Encode.

(** ** What is recorded *)

Inductive InstrumentKind := Counter | UpDownCounter | HistogramF64 | HistogramU64.
Record Instrument := mkInstrument { i_name : string; i_kind : InstrumentKind; i_unit : string; i_description : string }.

Definition counter (name desc : string) : Instrument := mkInstrument name Counter "" desc.

(** [install] *)
Definition instruments : list Instrument := [
  mkInstrument "http.server.request.duration" HistogramF64 "s" "Duration of HTTP server requests";
  counter "registry.request.errors" "Count of registry request errors by error code";
  counter "registry.gc.collected" "Objects reclaimed by garbage collection by kind";
  counter "registry.gc.collected.bytes" "Bytes reclaimed by garbage collection by kind";
  counter "registry.scrub.checked" "Blobs scrubbed by result";
  counter "registry.scrub.bytes" "Bytes read by the scrub";
  counter "registry.dedupe.links" "Cross-repo blob promotions by operation and mechanism";
  counter "registry.quota.rejections" "Writes rejected by a storage quota by scope";
  counter "registry.auth.decisions" "Authentication/authorization decisions by method and result";
  counter "registry.blocking.hops" "Filesystem work handed to the blocking thread pool, by operation";
  counter "registry.meta.wal.appends" "WAL records appended to the metadata log";
  mkInstrument "registry.meta.wal.batch_size" HistogramU64 "" "Group-commit batch size (records coalesced per fsync)";
  counter "registry.meta.compaction" "Metadata log compactions by result";
  mkInstrument "registry.upload.active" UpDownCounter "" "Currently active upload sessions";
  counter "registry.upload.bytes" "Total bytes received across all upload sessions";
  counter "registry.upload.finalize" "Upload finalization outcomes by result"
].

(** A value given to an instrument, with its attributes; the float is a duration
    in nanoseconds. *)
Inductive RecordedValue := VSeconds (nanos : Z) | VU64 (n : Z) | VI64 (n : Z).
Record Recording := mkRecording { rec_instrument : string; rec_value : RecordedValue; rec_attrs : list (string * string) }.

Section Recorders.
(** Whether [install] ran. *)
Variable installed : bool.

Definition when_installed (l : list Recording) : list Recording := if installed then l else [].

Definition status_class (status : Z) : string :=
  if (200 <=? status)%Z && (status <=? 299)%Z then "2xx"
  else if (300 <=? status)%Z && (status <=? 399)%Z then "3xx"
  else if (400 <=? status)%Z && (status <=? 499)%Z then "4xx"
  else "5xx".

Definition record_request (endpoint method : string) (status duration : Z) : list Recording :=
  when_installed [mkRecording "http.server.request.duration" (VSeconds duration)
                    [("endpoint", endpoint); ("method", method); ("status_class", status_class status)]].
Definition record_error (error_code : string) : list Recording :=
  when_installed [mkRecording "registry.request.errors" (VU64 1) [("error_code", error_code)]].
Definition record_gc_collected (kind : string) (n : Z) : list Recording :=
  when_installed [mkRecording "registry.gc.collected" (VU64 1) [("kind", kind)];
                  mkRecording "registry.gc.collected.bytes" (VU64 n) [("kind", kind)]].
Definition record_scrub (res : string) (n : Z) : list Recording :=
  when_installed [mkRecording "registry.scrub.checked" (VU64 1) [("result", res)];
                  mkRecording "registry.scrub.bytes" (VU64 n) []].
Definition record_dedupe_link (op mechanism : string) : list Recording :=
  when_installed [mkRecording "registry.dedupe.links" (VU64 1) [("op", op); ("mechanism", mechanism)]].
Definition record_quota_rejection (scope : string) : list Recording :=
  when_installed [mkRecording "registry.quota.rejections" (VU64 1) [("scope", scope)]].
Definition record_blocking_hop (op : string) : list Recording :=
  when_installed [mkRecording "registry.blocking.hops" (VU64 1) [("op", op)]].
Definition record_auth_decision (method res : string) : list Recording :=
  when_installed [mkRecording "registry.auth.decisions" (VU64 1) [("method", method); ("result", res)]].
Definition record_meta_wal_append : list Recording := when_installed [mkRecording "registry.meta.wal.appends" (VU64 1) []].
Definition record_meta_wal_batch_size (batch : Z) : list Recording :=
  when_installed [mkRecording "registry.meta.wal.batch_size" (VU64 batch) []].
Definition record_meta_compaction (res : string) : list Recording :=
  when_installed [mkRecording "registry.meta.compaction" (VU64 1) [("result", res)]].
Definition record_upload_active (delta : Z) : list Recording := when_installed [mkRecording "registry.upload.active" (VI64 delta) []].
Definition record_upload_bytes (n : Z) : list Recording := when_installed [mkRecording "registry.upload.bytes" (VU64 n) []].
Definition record_upload_finalize (res : string) : list Recording :=
  when_installed [mkRecording "registry.upload.finalize" (VU64 1) [("result", res)]].
End Recorders.

(** ** The endpoint *)

(** [metrics_router]: the routes it adds; [otel] is the build feature. *)
Definition metrics_router (otel : bool) (config : Config) : list string :=
  if otel && metrics_enabled (metrics (telemetry config)) then [metrics_path (metrics (telemetry config))] else [].

(** [http_signal_url] *)
Definition http_signal_url (base signal : string) : string := trim_end_matches "/" base +:+ "/v1/" +:+ signal.

(** ** The reference: a reader of the text format

    A line that does not start with a hash is a sample: a name, labels in
    braces with quoted values, a space and the value. *)

Record Sample := mkSample { s_name : text; s_labels : list KeyValue; s_value : text }.

(** A quoted value after its opening quote, and what follows it. *)
Fixpoint read_quoted (l : text) : option (text * text) :=
  match l with
  | [] => None
  | c :: l1 =>
      if decide (c = QUOTE) then Some ([], l1)
      else if decide (c = BACKSLASH) then
        match l1 with
        | [] => None
        | e :: l2 =>
            '(v, rest) ← read_quoted l2;
            Some ((if decide (e = "n"%char) then LF else e) :: v, rest)
        end
      else '(v, rest) ← read_quoted l1; Some (c :: v, rest)
  end.

(** The text before a character, and what follows it. *)
Fixpoint read_until (c : ascii) (l : text) : option (text * text) :=
  match l with
  | [] => None
  | b :: l => if decide (b = c) then Some ([], l) else '(v, rest) ← read_until c l; Some (b :: v, rest)
  end.

(** Labels after the opening brace; at most [fuel] of them. *)
Fixpoint read_labels (fuel : nat) (l : text) : option (list KeyValue * text) :=
  match fuel, l with
  | _, [] => None
  | O, _ => None
  | S fuel, c :: l1 =>
      if decide (c = "}"%char) then Some ([], l1) else
      '(key, l2) ← read_until "=" l;
      match l2 with
      | q :: l3 =>
          if decide (q = QUOTE) then
            '(value, l4) ← read_quoted l3;
            match l4 with
            | d :: l5 =>
                if decide (d = ","%char) then '(kvs, rest) ← read_labels fuel l5; Some ((key, value) :: kvs, rest)
                else if decide (d = "}"%char) then Some ([(key, value)], l5)
                else None
            | [] => None
            end
          else None
      | [] => None
      end
  end.

Definition read_sample (line : text) : option Sample :=
  '(name, l) ← read_until "{" line;
  '(labels, l) ← read_labels (length l) l;
  match l with
  | c :: value => if decide (c = " "%char) then Some (mkSample name labels value) else None
  | [] => None
  end.

(** The lines of a text, each ended by a line feed. *)
Fixpoint text_lines (l : text) : list text :=
  match l with
  | [] => []
  | b :: l =>
      if decide (b = LF) then [] :: text_lines l
      else match text_lines l with [] => [[b]] | x :: xs => (b :: x) :: xs end
  end.

Definition is_comment (line : text) : bool := match line with c :: _ => bool_decide (c = "#"%char) | [] => false end.

Fixpoint read_lines (ls : list text) : option (list Sample) :=
  match ls with
  | [] => Some []
  | l :: ls =>
      if is_comment l then read_lines ls else
      s ← read_sample l; ss ← read_lines ls; Some (s :: ss)
  end.

Definition read_exposition (l : text) : option (list Sample) := read_lines (text_lines l).

(** ** What a scrape says *)

Section Samples.
Context `{!DisplayF64}.

Fixpoint bucket_samples (name : text) (base : list KeyValue) (bounds : list f64) (counts : list Z) (cumulative : Z) : list Sample :=
  match counts with
  | [] => []
  | count :: counts =>
      let cumulative := (cumulative + count)%Z in
      mkSample (name ++ as_bytes "_bucket")
        (base ++ [(as_bytes "le", match bounds with b :: _ => display_f64 b | [] => as_bytes "+Inf" end)]) (display_u64 cumulative)
      :: bucket_samples name base (tail bounds) counts cumulative
  end.

Definition point_samples {T} (display : T → text) (name : text) (dp : HistogramPoint T) : list Sample :=
  bucket_samples name (h_attrs dp) (h_bounds dp) (h_counts dp) 0 ++
  [mkSample (name ++ as_bytes "_sum") (h_attrs dp) (display (h_sum dp));
   mkSample (name ++ as_bytes "_count") (h_attrs dp) (display_u64 (h_count dp))].

Definition metric_samples (m : Metric) : list Sample :=
  let name := prom_metric_name (m_name m) (m_unit m) in
  match m_data m with
  | F64Histogram points => points ≫= point_samples display_f64 name
  | U64Histogram points => points ≫= point_samples display_u64 name
  | U64Sum points => (λ dp, mkSample (name ++ as_bytes "_total") dp.1 (display_u64 dp.2)) <$> points
  | I64Sum points => (λ dp, mkSample name dp.1 (display_i64 dp.2)) <$> points
  | OtherMetrics => []
  end.
End Samples.

(** ** Lemmas *)

Definition plain_char (c : ascii) : bool := is_ascii_alphanumeric c || bool_decide (c = "_"%char) || bool_decide (c = "."%char).
Definition plain (s : text) : Prop := Forall (λ c, plain_char c = true) s.

Lemma plain_not c s : plain s → plain_char c = false → c ∉ s.
Proof. intros Hs Hc Hin. unfold plain in Hs. rewrite Forall_forall in Hs. specialize (Hs c Hin). simpl in Hs. congruence. Qed.

Lemma plain_app a b : plain (a ++ b) ↔ plain a ∧ plain b.
Proof. apply Forall_app. Qed.

Definition escape_char (b : ascii) : text :=
  if decide (b = BACKSLASH) then [BACKSLASH; BACKSLASH]
  else if decide (b = QUOTE) then [BACKSLASH; QUOTE]
  else if decide (b = LF) then [BACKSLASH; "n"%char] else [b].

Lemma replace_app c r a b : replace_with c r (a ++ b) = replace_with c r a ++ replace_with c r b.
Proof. apply bind_app. Qed.

Lemma escape_app a b : escape_label_value (a ++ b) = escape_label_value a ++ escape_label_value b.
Proof. unfold escape_label_value. by rewrite !replace_app. Qed.

Lemma escape_single b : escape_label_value [b] = escape_char b.
Proof.
  unfold escape_label_value, escape_char, replace_with. simpl.
  destruct (decide (b = BACKSLASH)) as [->|]; [done|]. simpl. destruct (decide (b = QUOTE)) as [->|]; [done|]. simpl.
  by destruct (decide (b = LF)).
Qed.

Lemma escape_cons b s : escape_label_value (b :: s) = escape_char b ++ escape_label_value s.
Proof. by rewrite <-escape_single, <-escape_app. Qed.

Lemma escape_no_lf s : LF ∉ escape_label_value s.
Proof.
  induction s as [|b s IH]; [apply not_elem_of_nil|]. rewrite escape_cons, elem_of_app. intros [Hb|Hb]; [|done].
  revert Hb. unfold escape_char. repeat case_decide; rewrite ?elem_of_cons; intros Hb;
    destruct_or?; try discriminate; try (by apply not_elem_of_nil in Hb); congruence.
Qed.

Lemma read_quoted_escape v rest : read_quoted (escape_label_value v ++ QUOTE :: rest) = Some (v, rest).
Proof.
  induction v as [|b v IH]; [done|]. rewrite escape_cons, <-app_assoc. unfold escape_char.
  destruct (decide (b = BACKSLASH)) as [->|Hb]; [simpl; by rewrite IH|].
  destruct (decide (b = QUOTE)) as [->|Hq]; [simpl; by rewrite IH|].
  destruct (decide (b = LF)) as [->|Hl]; simpl; [by rewrite IH|]. by rewrite !decide_False, IH.
Qed.

Lemma read_until_app c k rest : c ∉ k → read_until c (k ++ c :: rest) = Some (k, rest).
Proof.
  induction k as [|b k IH]; intros Hk; simpl; [by rewrite decide_True|].
  apply not_elem_of_cons in Hk as [Hb Hk]. rewrite decide_False, IH by done. done.
Qed.

(** The next character ends the labels or starts another one. *)
Lemma read_pair fuel kv tail : plain kv.1 →
  read_labels (S fuel) (format_pair kv ++ tail) =
    match tail with
    | d :: l =>
        if decide (d = ","%char) then '(kvs, rest) ← read_labels fuel l; Some (kv :: kvs, rest)
        else if decide (d = "}"%char) then Some ([kv], l) else None
    | [] => None
    end.
Proof.
  destruct kv as [k v]. intros Hk. unfold format_pair. cbn [fst snd] in *. rewrite <-!app_assoc.
  assert (Hu : read_until "=" (k ++ ["="%char; QUOTE] ++ escape_label_value v ++ [QUOTE] ++ tail) =
    Some (k, QUOTE :: escape_label_value v ++ [QUOTE] ++ tail)) by (apply read_until_app; by eapply plain_not).
  assert (Hc : ∃ c l, k ++ ["="%char; QUOTE] ++ escape_label_value v ++ [QUOTE] ++ tail = c :: l ∧ c ≠ "}"%char).
  { destruct k as [|c k]; simpl; [by do 2 eexists|]. do 2 eexists. split; [done|]. intros ->.
    apply Forall_cons in Hk as [Hk _]. done. }
  destruct Hc as (c & l & El & Hc). rewrite El in *. cbn [read_labels]. rewrite decide_False by done. rewrite Hu.
  cbn. rewrite read_quoted_escape. done.
Qed.

Lemma read_labels_format kvs : ∀ fuel rest, Forall (λ kv, plain kv.1) kvs → length kvs < fuel →
  read_labels fuel (join_comma (format_pair <$> kvs) ++ "}"%char :: rest) = Some (kvs, rest).
Proof.
  induction kvs as [|kv kvs IH]; intros fuel rest Hk Hf; destruct fuel as [|fuel]; simpl in Hf; try lia; [done|].
  apply Forall_cons in Hk as [Hkv Hk]. destruct kvs as [|kv' kvs].
  - change (join_comma (format_pair <$> [kv])) with (format_pair kv). by rewrite read_pair.
  - change (join_comma (format_pair <$> kv :: kv' :: kvs)) with (format_pair kv ++ ","%char :: join_comma (format_pair <$> kv' :: kvs)).
    rewrite <-app_assoc, read_pair by done. cbn [app]. rewrite decide_True by done. rewrite IH; [done|done|simpl in *; lia].
Qed.

(** *** Lines *)

Definition lines_text (ls : list text) : text := ls ≫= λ l, l ++ [LF].

Lemma lines_text_app a b : lines_text (a ++ b) = lines_text a ++ lines_text b.
Proof. apply bind_app. Qed.

Lemma text_lines_line l rest : LF ∉ l → text_lines (l ++ LF :: rest) = l :: text_lines rest.
Proof.
  induction l as [|b l IH]; intros Hl; cbn [app text_lines]; [by rewrite decide_True|].
  apply not_elem_of_cons in Hl as [Hb Hl]. rewrite decide_False by congruence. by rewrite IH.
Qed.

Lemma text_lines_text ls : Forall (λ l, LF ∉ l) ls → text_lines (lines_text ls) = ls.
Proof.
  induction 1 as [|l ls Hl _ IH]; [done|]. unfold lines_text. cbn. rewrite <-app_assoc. cbn [app].
  rewrite text_lines_line by done. by f_equal.
Qed.

Definition sample_line (s : Sample) : text := s_name s ++ format_labels (s_labels s) ++ " "%char :: s_value s.

Definition comment_lines (name desc typ : text) : list text :=
  (if decide (desc = []) then [] else [as_bytes "# HELP " ++ name ++ " "%char :: desc]) ++
  [as_bytes "# TYPE " ++ name ++ " "%char :: typ].

Lemma writeln_line out l : writeln out l = out ++ lines_text [l].
Proof. unfold writeln, lines_text. cbn. by rewrite app_nil_r. Qed.

Lemma write_sample_line out name labels value :
  write_sample out name (format_labels labels) value = out ++ lines_text [sample_line (mkSample name labels value)].
Proof. apply writeln_line. Qed.

Lemma write_help_lines out name desc typ : write_help_type out name desc typ = out ++ lines_text (comment_lines name desc typ).
Proof.
  unfold write_help_type, comment_lines. rewrite lines_text_app. case_decide; rewrite !writeln_line; [done|].
  by rewrite <-app_assoc.
Qed.

(** A loop that writes lines for each element. *)
Lemma foldl_lines {A : Type} (f : text → A → text) (g : A → list text) xs :
  (∀ out x, f out x = out ++ lines_text (g x)) → ∀ out, foldl f out xs = out ++ lines_text (xs ≫= g).
Proof.
  intros Hf. induction xs as [|x xs IH]; intros out; cbn; [by rewrite app_nil_r|].
  rewrite IH, Hf, lines_text_app. by rewrite app_assoc.
Qed.

Section Lines.
Context `{!DisplayF64}.

Lemma write_buckets_lines name base counts : ∀ out bounds c,
  write_buckets out name base bounds counts c = out ++ lines_text (sample_line <$> bucket_samples name base bounds counts c).
Proof.
  induction counts as [|n counts IH]; intros out bounds c; cbn; [by rewrite app_nil_r|].
  rewrite IH. unfold format_labels_with. rewrite write_sample_line, <-app_assoc, <-lines_text_app. done.
Qed.

Lemma write_point_lines {T} (display : T → text) name out dp :
  write_point display name out dp = out ++ lines_text (sample_line <$> point_samples display name dp).
Proof.
  unfold write_point, point_samples. rewrite !write_sample_line, write_buckets_lines, fmap_app, <-!app_assoc, <-!lines_text_app.
  done.
Qed.

(** The kind of a metric in its comment, and the name that is written. *)
Definition metric_lines (m : Metric) : list text :=
  let name := prom_metric_name (m_name m) (m_unit m) in
  match m_data m with
  | F64Histogram _ | U64Histogram _ => comment_lines name (m_description m) (as_bytes "histogram")
  | U64Sum _ => comment_lines (name ++ as_bytes "_total") (m_description m) (as_bytes "counter")
  | I64Sum _ => comment_lines name (m_description m) (as_bytes "gauge")
  | OtherMetrics => []
  end ++ (sample_line <$> metric_samples m).

Lemma bind_map {A B C : Type} (f : A → list B) (g : B → C) l : l ≫= (λ x, g <$> f x) = g <$> (l ≫= f).
Proof. induction l as [|x l IH]; [done|]. cbn. by rewrite fmap_app, IH. Qed.

Lemma map_bind {A B : Type} (f : A → B) l : l ≫= (λ x, [f x]) = f <$> l.
Proof. induction l as [|x l IH]; [done|]. cbn. by rewrite IH. Qed.

Lemma encode_metric_lines out m :
  encode_metric out (prom_metric_name (m_name m) (m_unit m)) (m_description m) (m_data m) = out ++ lines_text (metric_lines m).
Proof.
  unfold encode_metric, metric_lines, metric_samples, write_histogram, encode_u64_sum.
  destruct (m_data m) as [ps|ps|ps|ps|]; rewrite ?app_nil_r; [| | | |done].
  1,2: erewrite (foldl_lines _ _ ps) by (intros; apply write_point_lines);
    rewrite write_help_lines, lines_text_app, bind_map; by rewrite <-app_assoc.
  all: erewrite (foldl_lines _ _ ps) by (intros; apply write_sample_line);
    rewrite write_help_lines, lines_text_app, map_bind, <-app_assoc, <-list_fmap_compose; done.
Qed.

Lemma encode_lines rm : encode_prometheus rm = lines_text (mjoin rm ≫= metric_lines).
Proof.
  unfold encode_prometheus. erewrite (foldl_lines _ (λ sm, sm ≫= metric_lines)).
  2: { intros out sm. apply foldl_lines. intros out' m. apply encode_metric_lines. }
  cbn. f_equal. induction rm as [|sm rm IH]; [done|]. cbn. by rewrite IH, bind_app.
Qed.
End Lines.

(** *** Reading it back *)

Definition sample_ok (s : Sample) : Prop := plain (s_name s) ∧ Forall (λ kv, plain kv.1) (s_labels s) ∧ LF ∉ s_value s.

Lemma join_length (ps : list text) : Forall (λ p, p ≠ []) ps → length ps ≤ length (join_comma ps).
Proof.
  induction 1 as [|p ps Hp _ IH]; [done|]. destruct p as [|c p]; [done|]. destruct ps as [|p' ps]; simpl in *; [lia|].
  rewrite length_app. simpl in *. lia.
Qed.

Lemma read_sample_line s : sample_ok s → read_sample (sample_line s) = Some s.
Proof.
  destruct s as [name labels value]. intros (Hn & Hk & _). simpl in *. unfold read_sample, sample_line, format_labels. cbn [s_name s_labels s_value].
  cbn [app]. rewrite <-app_assoc. cbn [app]. rewrite read_until_app by (by eapply plain_not). cbn -[read_labels].
  rewrite read_labels_format; [done|done|]. rewrite length_app. simpl.
  pose proof (join_length (format_pair <$> labels)) as Hl. rewrite length_fmap in Hl.
  assert (length labels ≤ length (join_comma (format_pair <$> labels))); [|lia]. apply Hl, Forall_fmap, Forall_true.
  intros [k v]. unfold format_pair. simpl. by destruct k.
Qed.

Lemma join_no_lf ps : Forall (λ p, LF ∉ p) ps → LF ∉ join_comma ps.
Proof.
  induction 1 as [|p ps Hp Hps IH]; [apply not_elem_of_nil|]. destruct ps as [|p' ps]; [done|].
  change (LF ∉ p ++ ","%char :: join_comma (p' :: ps)). rewrite elem_of_app, elem_of_cons. intros [?|[?|?]]; done.
Qed.

Lemma plain_no_lf s : plain s → LF ∉ s.
Proof. intros Hs. by eapply plain_not. Qed.

Lemma pair_no_lf kv : plain kv.1 → LF ∉ format_pair kv.
Proof.
  intros Hk%plain_no_lf. unfold format_pair. rewrite !elem_of_app, !elem_of_cons, elem_of_nil. pose proof (escape_no_lf kv.2).
  by intros [?|[[?|[?|?]]|[?|[?|?]]]].
Qed.

Lemma sample_line_ok s : sample_ok s → LF ∉ sample_line s ∧ is_comment (sample_line s) = false.
Proof.
  destruct s as [name labels value]. intros (Hn & Hk & Hv). simpl in *. split.
  - unfold sample_line, format_labels. cbn [s_name s_labels s_value]. pose proof (plain_no_lf _ Hn).
    assert (LF ∉ join_comma (format_pair <$> labels)).
    { apply join_no_lf, Forall_fmap. eapply Forall_impl; [done|]. intros kv. apply pair_no_lf. }
    rewrite !elem_of_app, !elem_of_cons, elem_of_app, elem_of_cons, elem_of_nil.
    by intros [?|[[?|[?|[?|?]]]|[?|?]]].
  - unfold sample_line. cbn [s_name]. destruct name as [|c name]; [done|]. apply Forall_cons in Hn as [Hc _].
    simpl. apply bool_decide_eq_false. intros ->. done.
Qed.

Lemma comment_lines_ok name desc typ :
  plain name → LF ∉ desc → LF ∉ typ → Forall (λ l, LF ∉ l ∧ is_comment l = true) (comment_lines name desc typ).
Proof.
  intros Hn%plain_no_lf Hd Ht. unfold comment_lines. apply Forall_app. split.
  - case_decide; [done|]. apply Forall_singleton. split; [|done]. rewrite !elem_of_app, elem_of_cons. intros [Hh|[?|[?|?]]]; try done.
    simpl in Hh. set_solver.
  - apply Forall_singleton. split; [|done]. rewrite !elem_of_app, elem_of_cons. intros [Hh|[?|[?|?]]]; try done. simpl in Hh. set_solver.
Qed.

Lemma prom_name_plain name u : plain name → plain (prom_metric_name name u).
Proof.
  intros Hn. assert (Hb : plain (replace_with "." ["_"%char] name)).
  { unfold replace_with. induction Hn as [|c s Hc _ IH]; [constructor|]. cbn. apply plain_app. split; [|done].
    case_decide; by repeat constructor. }
  unfold prom_metric_name. case_decide; [|done]. apply plain_app. split; [done|]. repeat constructor.
Qed.

Lemma display_u64_no_lf n : LF ∉ display_u64 n.
Proof. unfold display_u64. intros Hin%u64_to_string_digit. done. Qed.

Definition attrs_of (d : AggregatedMetrics) : list (list KeyValue) :=
  match d with
  | F64Histogram ps => h_attrs <$> ps
  | U64Histogram ps => h_attrs <$> ps
  | U64Sum ps | I64Sum ps => ps.*1
  | OtherMetrics => []
  end.

(** A metric with a plain name and plain label names. *)
Definition metric_ok (m : Metric) : Prop :=
  plain (m_name m) ∧ LF ∉ m_description m ∧ Forall (Forall (λ kv : KeyValue, plain kv.1)) (attrs_of (m_data m)).

Lemma read_lines_comments cs ls : Forall (λ l, LF ∉ l ∧ is_comment l = true) cs → read_lines (cs ++ ls) = read_lines ls.
Proof. induction 1 as [|c cs [_ Hc] _ IH]; [done|]. cbn. by rewrite Hc. Qed.

Lemma read_lines_app a b : read_lines (a ++ b) = (x ← read_lines a; y ← read_lines b; Some (x ++ y)).
Proof.
  induction a as [|l a IH]; cbn; [by destruct (read_lines b)|]. destruct (is_comment l); [done|].
  destruct (read_sample l); cbn; [|done]. rewrite IH. destruct (read_lines a); cbn; [|done]. by destruct (read_lines b).
Qed.

Section ReadBack.
Context `{!DisplayF64}.
Hypothesis f64_no_lf : ∀ x, LF ∉ display_f64 x.

Lemma bucket_samples_ok name base counts : plain name → Forall (λ kv, plain kv.1) base →
  ∀ bounds c, Forall sample_ok (bucket_samples name base bounds counts c).
Proof.
  intros Hn Hb. induction counts as [|n counts IH]; intros bounds c; cbn; [constructor|]. constructor; [|apply IH].
  split_and!; cbn.
  - apply plain_app. split; [done|]. by repeat constructor.
  - apply Forall_app. split; [done|]. apply Forall_singleton. by repeat constructor.
  - apply display_u64_no_lf.
Qed.

Lemma point_samples_ok {T} (display : T → text) name dp : (∀ x, LF ∉ display x) → plain name →
  Forall (λ kv, plain kv.1) (h_attrs dp) → Forall sample_ok (point_samples display name dp).
Proof.
  intros Hd Hn Ha. apply Forall_app. split; [by apply bucket_samples_ok|].
  repeat constructor; cbn; try done; try (apply plain_app; split; [done|by repeat constructor]). apply display_u64_no_lf.
Qed.

Lemma metric_samples_ok m : metric_ok m → Forall sample_ok (metric_samples m).
Proof.
  intros (Hn & _ & Ha). apply (prom_name_plain _ (m_unit m)) in Hn. unfold metric_samples.
  destruct (m_data m) as [ps|ps|ps|ps|]; cbn in Ha; [| | | |constructor].
  1,2: apply Forall_bind; rewrite Forall_fmap in Ha; eapply Forall_impl; [done|]; intros dp Hdp; apply point_samples_ok; try done.
  - apply display_u64_no_lf.
  - rewrite Forall_fmap in Ha. apply Forall_fmap. eapply Forall_impl; [exact Ha|]. intros dp Hdp. split_and!; cbn; [|done|apply display_u64_no_lf].
    apply plain_app. split; [done|]. by repeat constructor.
  - rewrite Forall_fmap in Ha. apply Forall_fmap. eapply Forall_impl; [exact Ha|]. intros dp Hdp. split_and!; cbn; [done..|].
    unfold display_i64. case_match; [|apply display_u64_no_lf]. rewrite elem_of_cons. intros [?|Hin]; [done|].
    by apply display_u64_no_lf in Hin.
Qed.

Lemma metric_lines_ok m : metric_ok m →
  Forall (λ l, LF ∉ l) (metric_lines m) ∧
  read_lines (metric_lines m) = Some (metric_samples m).
Proof.
  intros Hm. pose proof (metric_samples_ok m Hm) as Hs. destruct Hm as (Hn & Hd & _). apply (prom_name_plain _ (m_unit m)) in Hn.
  assert (Hc : ∃ cs, metric_lines m = cs ++ (sample_line <$> metric_samples m) ∧ Forall (λ l, LF ∉ l ∧ is_comment l = true) cs).
  { unfold metric_lines. destruct (m_data m); eexists; (split; [done|]); try constructor; apply comment_lines_ok; try done;
      try (apply plain_app; split; [done|by repeat constructor]); cbn; set_solver. }
  destruct Hc as (cs & -> & Hc). split.
  - apply Forall_app. split; [eapply Forall_impl; [done|]; naive_solver|]. apply Forall_fmap. eapply Forall_impl; [done|].
    intros s Hok. by apply sample_line_ok.
  - rewrite read_lines_comments by done. clear -Hs. induction Hs as [|s ss Hs _ IH]; [done|]. cbn [fmap list_fmap read_lines].
    rewrite (proj2 (sample_line_ok s Hs)), read_sample_line by done. cbn. by rewrite IH.
Qed.
End ReadBack.

(** C35: a scrape says what was collected. Whatever the values of the labels are,
    a reader of the text format that takes the text of a scrape gets exactly the
    samples of the metrics, in order: for a counter and a gauge a sample for each
    set of labels, for a histogram the buckets with their cumulative counts, the
    sum and the count. *)
Theorem scrape_reads_back `{!DisplayF64} rm :
  (∀ x, LF ∉ display_f64 x) → Forall metric_ok (mjoin rm) →
  read_exposition (encode_prometheus rm) = Some (mjoin rm ≫= metric_samples).
Proof.
  intros Hf Hok. rewrite encode_lines. unfold read_exposition. revert Hok. generalize (mjoin rm). intros ms Hok.
  rewrite text_lines_text.
  - induction Hok as [|m ms Hm _ IH]; [done|]. cbn. rewrite read_lines_app.
    destruct (metric_lines_ok Hf m Hm) as [_ ->]. cbn. by rewrite IH.
  - apply Forall_bind. eapply Forall_impl; [done|]. intros m Hm. by apply metric_lines_ok.
Qed.

(** The names of the instruments and of the labels are plain, and the
    descriptions are one line. *)
Lemma instruments_plain :
  Forall (λ i, plain (as_bytes (i_name i)) ∧ LF ∉ as_bytes (i_description i)) instruments.
Proof.
  assert (Hb : forallb (λ i, forallb plain_char (as_bytes (i_name i)) && forallb (λ c, negb (bool_decide (c = LF))) (as_bytes (i_description i)))
    instruments = true) by (vm_compute; reflexivity).
  apply Forall_forall. intros i Hi. rewrite List.forallb_forall in Hb. specialize (Hb i). rewrite <-list_elem_of_In in Hb.
  apply andb_true_iff in Hb as [I1 I2]; [|done]. split.
  - apply Forall_forall. intros c Hc. rewrite List.forallb_forall in I1. by apply I1, list_elem_of_In.
  - intros Hc%list_elem_of_In. rewrite List.forallb_forall in I2. by specialize (I2 _ Hc).
Qed.

(** A path of the metrics that validation accepts can be the one of a health
    probe, which the router already has. *)
Example metrics_path_taken :
  let t := {| otlp := None; sample_ratio := f64_one; metrics := {| metrics_enabled := true; metrics_path := "/livez" |} |} in
  telemetry_validate t = Ok tt.
Proof. vm_compute. reflexivity. Qed.

(** ** Witness *)

Module ToyMetrics.
#[export] Instance toy_display : DisplayF64 := {| display_f64 _ := as_bytes "0.5" |}.
(** A label whose value has all characters that are escaped. *)
Definition odd : text := [QUOTE; "}"%char; BACKSLASH; LF; ","%char].
Definition scraped : ResourceMetrics := [[
  mkMetric (as_bytes "registry.request.errors") [] (as_bytes "Errors") (U64Sum [([(as_bytes "error_code", odd)], 3%Z); ([], 1%Z)]);
  mkMetric (as_bytes "http.server.request.duration") (as_bytes "s") [] (F64Histogram [mkHistogram [] [f64_one] [2; 1]%Z f64_one 3])]].
Definition bucket (le n : string) : Sample :=
  mkSample (as_bytes "http_server_request_duration_seconds_bucket") [(as_bytes "le", as_bytes le)] (as_bytes n).
Definition read_samples : list Sample :=
  [mkSample (as_bytes "registry_request_errors_total") [(as_bytes "error_code", odd)] (as_bytes "3");
   mkSample (as_bytes "registry_request_errors_total") [] (as_bytes "1");
   bucket "0.5" "2"; bucket "+Inf" "3";
   mkSample (as_bytes "http_server_request_duration_seconds_sum") [] (as_bytes "0.5");
   mkSample (as_bytes "http_server_request_duration_seconds_count") [] (as_bytes "3")].
End ToyMetrics.

Import ToyMetrics.

Lemma scrape_reads_back_witness : read_exposition (encode_prometheus scraped) = Some read_samples.
Proof.
  rewrite (scrape_reads_back scraped).
  - vm_compute. reflexivity.
  - intros x Hin. vm_compute in Hin. set_solver.
  - repeat constructor; vm_compute; try done; set_solver.
Defined.
