(* ===== verification/Registry.v ===== *)
(** The registry: the HTTP handlers over the filesystem backend, the states a
    run of requests and background work reaches, and what the interface
    guarantees in all of them. *)

From S2P Require Import StorageApi Prelude RustStr Json Errors Names Digest HttpUtil Policy Auth Routes.
From S2P Require Import Metadata MetaLog MetaStore SmallCache Effect Quota Paths FileSys FileSysFacts Layout Lifecycle.
From S2P Require Import UploadBody FsStorage FsInvariant FsSessions FsBackend FsRun Startup StartupFacts Scrub ScrubFacts.
From S2P Require Import Manifests Handlers HandlersFacts.

(** ** Runs *)

Section Registry.
Context `{!Crypto, !CryptoLaws, !World, !SerdeJson, !UrlEncoded, !HashIter, !MetadataStore, !MetadataStoreLaws}.
Context `{!Lru, !LruLaws, !Cuckoo}.

(** No request names an upload session like a file of the layout ([layout_name]:
    index.json, oci-layout, or a name that begins with a dot). *)
Definition request_ok (rest : string) : Prop := ∀ parsed, parse_path rest = Ok parsed → session_ok parsed.

(** The states of a registry that serves with the configuration [st]: it opens
    a store, answers requests, and does its background work: the operations of
    the backend, the flush of dirty indexes and the sweep among them, recovery,
    and scrub passes, between whose turns anything that keeps the invariant of
    the store may happen. *)
Inductive serving (st : AppState) : Store → Prop :=
  | serving_open s : opened s → serving st s
  | serving_request s rest req : serving st s → request_ok rest → serving st (dispatch st rest req s).1
  | serving_work s o : serving st s → op_ok o → serving st (step o s)
  | serving_recover s : serving st s → serving st (recover s).1
  | serving_scrub s others : serving st s → (∀ e g s, pres s (others e g s)) → serving st (scrub_pass others s).1.

(** Files have any size. *)
Lemma fs_limits st : limits_ok st.
Proof. by split. Qed.

Lemma request_keeps st rest req s : request_ok rest → store_inv s → store_inv (dispatch st rest req s).1.
Proof.
  intros Hid Hs.
  destruct (@dispatch_cases _ _ _ fs_storage st rest req s) as [(e & _ & E)|(parsed & Hp & _)]; [by rewrite E|].
  by apply (dispatch_ensures st rest req parsed (fs_limits st) Hp (Hid _ Hp)).
Qed.

Lemma serving_inv st s : serving st s → store_inv s.
Proof.
  induction 1 as [s Hs|s rest req _ IH Hid|s o _ IH Ho|s _ IH|s others _ IH Ho]; [by apply opened_inv|by apply request_keeps|..].
  - by apply step_pres.
  - by apply recover_pres.
  - by apply scrub_pass_pres.
Qed.
End Registry.

(** ** Properties *)

(** The enforcement point. With access control configured, a request
    changes the storage or gets a success only when the path names a
    repository, the method has a required action there, and the policy allows
    the caller that action. This holds for any backend. *)
Theorem dispatch_authorized `{!Crypto, !SerdeJson, !UrlEncoded, !Storage} st a rest req s s' r :
  auth st = Some a → dispatch st rest req s = (s', r) → s' ≠ s ∨ is_ok r = true →
  ∃ parsed repo act, parse_path rest = Ok parsed ∧ required_action (req_method req) parsed = Some (repo, act) ∧
    path_repo parsed = Some repo ∧ allows a (principal req) repo act = true.
Proof. apply dispatch_needs_grant. Qed.

(** C21: a cross-repository mount is no existence oracle: when the caller may
    not pull from the source, starting an upload does exactly what it would do
    had no mount been asked for, whatever the source holds. *)
Theorem mount_needs_pull `{!Crypto, !SerdeJson, !UrlEncoded, !Storage} st a repo q req from s :
  auth st = Some a → q_from q = Some from → allows a (principal req) from Pull = false →
  uploads_start st repo q req s = uploads_start st repo (without_mount q) req s.
Proof.
  intros Ha Hf Hn. apply (start_without_source st repo q req from s Hf).
  unfold source_readable. by rewrite Ha, Hn, andb_false_r.
Qed.



(** ** Witnesses *)

Module ToyRegistry.
Import ToyServer.

#[export] Instance toy_url : UrlEncoded := {| url_pairs _ := []; url_encode _ := "" |}.

Definition serve (st : AppState) (rest : string) (req : Request) (s : Store) : Store * result Failure Response :=
  dispatch st rest req s.

Definition app : AppState := mkApp 1000 1000 1000 10 true None.
Definition get_blob : Request := mkReq GET "" {["range" := HvText "bytes=7-"]} Anonymous [].
Definition blob_path : string := "a/blobs/" +:+ Digest_fmt d.

(** Access control with one administrator. *)
Definition acl : AccessControlConfig := {| ac_admins := ["root"]; ac_groups := []; repositories := [] |}.
Definition engine : Auth := mkAuth "roci" None None None true (Some (compile acl)).
Definition guarded : AppState := mkApp 1000 1000 1000 10 true (Some engine).
End ToyRegistry.

Import ToyServer ToyRegistry.

Lemma pushed_serving : serving app (run pushed).
Proof.
  unfold run. assert (Ho : serving app empty_store).
  { apply serving_open. split; [intros p i b Hp; simpl in Hp; by rewrite lookup_empty in Hp|by exists 100%Z, 4096%Z|done]. }
  revert Ho. generalize empty_store. pose proof pushed_ok as Hok.
  induction Hok as [|o ops Ho _ IH]; intros s Hs; simpl; [done|]. by apply IH, serving_work.
Qed.

Lemma dispatch_authorized_witness :
  let req := mkReq PUT "" ∅ (User "root" [] MHtpasswd) [Ok (as_bytes "{}")] in
  is_ok (serve guarded "a/manifests/v1" req empty_store).2 = true ∧
  allows engine (User "root" [] MHtpasswd) "a" Push = true.
Proof.
  set (req := mkReq PUT "" ∅ (User "root" [] MHtpasswd) [Ok (as_bytes "{}")]).
  assert (Hr : is_ok (serve guarded "a/manifests/v1" req empty_store).2 = true) by (vm_compute; reflexivity).
  split; [exact Hr|]. destruct (serve guarded "a/manifests/v1" req empty_store) as [s' r] eqn:E.
  destruct (@dispatch_authorized _ _ _ fs_storage guarded engine "a/manifests/v1" req empty_store s' r eq_refl E (or_intror Hr))
    as (parsed & repo & act & Hp & Ha & _ & Hallow).
  vm_compute in Hp. injection Hp as <-. simpl in Ha. injection Ha as <- <-. exact Hallow.
Defined.

Lemma mount_needs_pull_witness :
  let q := mkUploadQuery None (Some (Digest_fmt d)) (Some "a") in
  uploads_start guarded "b" q get_blob (run pushed) = uploads_start guarded "b" (without_mount q) get_blob (run pushed).
Proof.
  apply (@mount_needs_pull _ _ _ fs_storage guarded engine "b" (mkUploadQuery None (Some (Digest_fmt d)) (Some "a"))
    get_blob "a" (run pushed) eq_refl eq_refl).
  vm_compute. reflexivity.
Defined.


(** A manifest whose media type holds a line feed. *)
Definition bad_type : op :=
  OPutManifest "a" (Some "v1") d (String "010" "") content {| references := []; required := []; link_subject := None |}.

Lemma bad_type_serving : serving app (step bad_type empty_store).
Proof.
  apply serving_work; [|apply d_wf]. apply serving_open.
  split; [intros p i b Hp; simpl in Hp; by rewrite lookup_empty in Hp|by exists 100%Z, 4096%Z|done].
Qed.

