(* ===== verification/Server.v ===== *)
(** The request path of the server: the middleware around the handlers
    ([build_router] of roci-core/src/lib.rs), and the closing of connections whose
    request body was left unread (roci-core/src/conn_close.rs).

    Which route a path takes, and the answer for a method a route does not have,
    are axum's (the class [Axum]); the spans and metrics of a request change
    nothing of it and are left out. *)

From S2P Require Import Prelude RustStr Json Errors Names Digest NetAddr Config HttpUtil Policy Auth Routes RateLimit.
From S2P Require Import Metadata Effect StorageApi Layout Manifests FsStorage FsBackend FsRun Registry Handlers HandlersFacts.

(** ** Unread bodies *)

Module ConnClose.

(** [Poll<Option<Result<Frame, Error>>>] *)
Inductive poll := Pending | Frame (f : result io_error bytes) | End.

Class HttpBody := {
  body : Type;
  poll_frame : body → body * poll;
  is_end_stream : body → bool;
}.

(** A handler, as far as it uses its request body. *)
Inductive reader (A : Type) :=
  | Done (a : A)
  | PollFrame (k : poll → reader A)
  | IsEndStream (k : bool → reader A).
Arguments Done {A} a.
Arguments PollFrame {A} k.
Arguments IsEndStream {A} k.

Definition is_end (p : poll) : bool := match p with End => true | _ => false end.

Section Tracked.
Context `{HttpBody}.

Record TrackedBody := mkTracked { tr_inner : body; tr_done : bool }.

Definition tracked_poll_frame (t : TrackedBody) : TrackedBody * poll :=
  let '(b, p) := poll_frame (tr_inner t) in
  (mkTracked b (if is_end p then true else tr_done t), p).

Definition tracked_is_end_stream (t : TrackedBody) : TrackedBody * bool :=
  let e := is_end_stream (tr_inner t) in
  (mkTracked (tr_inner t) (if e then true else tr_done t), e).

Fixpoint run_reader {A} (h : reader A) (b : body) : body * A :=
  match h with
  | Done a => (b, a)
  | PollFrame k => let '(b, p) := poll_frame b in run_reader (k p) b
  | IsEndStream k => run_reader (k (is_end_stream b)) b
  end.

Fixpoint run_tracked {A} (h : reader A) (t : TrackedBody) : TrackedBody * A :=
  match h with
  | Done a => (t, a)
  | PollFrame k => let '(t, p) := tracked_poll_frame t in run_tracked (k p) t
  | IsEndStream k => let '(t, e) := tracked_is_end_stream t in run_tracked (k e) t
  end.

Definition set_header (k v : string) (r : Response) : Response :=
  {| resp_status := resp_status r; resp_headers := <[k := v]> (resp_headers r); resp_body := resp_body r |}.

Definition close_on_unread_body (http1 : bool) (b : body) (next : reader Response) : Response :=
  if negb http1 || is_end_stream b then (run_reader next b).2 else
  let '(t, resp) := run_tracked next (mkTracked b false) in
  if negb (tr_done t) then set_header "connection" "close" resp else resp.

(** The handler saw the end of the body. *)
Fixpoint sees_end {A} (h : reader A) (b : body) : bool :=
  match h with
  | Done _ => false
  | PollFrame k => let '(b, p) := poll_frame b in is_end p || sees_end (k p) b
  | IsEndStream k => is_end_stream b || sees_end (k (is_end_stream b)) b
  end.

Lemma run_tracked_spec {A} (h : reader A) t :
  let '(t', a) := run_tracked h t in
  (tr_inner t', a) = run_reader h (tr_inner t) ∧ tr_done t' = tr_done t || sees_end h (tr_inner t).
Proof.
  revert t. induction h as [a|k IH|k IH]; intros t; simpl.
  - by rewrite orb_false_r.
  - unfold tracked_poll_frame. destruct (poll_frame (tr_inner t)) as [b p].
    specialize (IH p (mkTracked b (if is_end p then true else tr_done t))). destruct (run_tracked _ _) as [t' a].
    destruct IH as [-> ->]. split; [done|]. simpl. by destruct (is_end p), (tr_done t).
  - unfold tracked_is_end_stream.
    specialize (IH (is_end_stream (tr_inner t)) (mkTracked (tr_inner t) (if is_end_stream (tr_inner t) then true else tr_done t))).
    destruct (run_tracked _ _) as [t' a]. destruct IH as [-> ->]. split; [done|]. simpl.
    by destruct (is_end_stream (tr_inner t)), (tr_done t).
Qed.
End Tracked.
End ConnClose.

Import ConnClose.

(** ** The layers *)

(** A request as the connection hands it over: [hq_cert] is the identity of the
    client certificate and [hq_peer] the address of the peer. *)
Record HttpRequest := mkHttp {
  hq_method : string;
  hq_path : string;
  hq_query : string;
  hq_headers : HeaderMap;
  hq_cert : option string;
  hq_peer : option IpAddr;
  hq_body : UploadBody;
}.

(** The routes: the health probes, [/v2/] and [/v2/{*rest}] with the decoded
    rest. *)
Inductive Matched := MLivez | MReadyz | MBase | MRest (rest : string).
#[export] Instance Matched_eq_dec : EqDecision Matched.
Proof. solve_decision. Defined.

Class Axum := { method_not_allowed : Response }.

Definition method_of (name : string) : option Method :=
  if decide (name = "GET") then Some GET else if decide (name = "HEAD") then Some HEAD
  else if decide (name = "POST") then Some POST else if decide (name = "PUT") then Some PUT
  else if decide (name = "PATCH") then Some PATCH else if decide (name = "DELETE") then Some DELETE else None.

Section Server.
Context `{!Crypto, !SerdeJson, !UrlEncoded, !Storage, !AuthEnv, !ClientMap, !Axum}.

(** What requests share. *)
Record Server := mkServer {
  sv_limiter : option RateLimiter;
  sv_clients : option PerClientLimiter;
  sv_cache : CredentialCache;
  sv_store : sto;
}.

Definition put_limiter (l : RateLimiter) (s : Server) : Server := mkServer (Some l) (sv_clients s) (sv_cache s) (sv_store s).
Definition put_clients (l : PerClientLimiter) (s : Server) : Server := mkServer (sv_limiter s) (Some l) (sv_cache s) (sv_store s).
Definition put_cache (c : CredentialCache) (s : Server) : Server := mkServer (sv_limiter s) (sv_clients s) c (sv_store s).
Definition put_store (x : sto) (s : Server) : Server := mkServer (sv_limiter s) (sv_clients s) (sv_cache s) x.

(** The answer to a request; [None] when the handler panicked. *)
Abbreviation service := (Server → Server * option Response).

Variable st : AppState.
(** The monotonic clock, the wall clock in seconds, whether recovery is done,
    and the answer of the readiness probe if it came in time. *)
Variable now now_unix : Z.
Variable recovered : bool.
Variable probe : option (result StorageError ()).

Definition rate_limit_middleware (req : HttpRequest) (next : service) : service := λ s,
  match sv_limiter s with
  | None => next s
  | Some l =>
      let '(l, r) := limiter_check l (hq_method req) now in
      let s := put_limiter l s in
      match r with
      | Ok _ => next s
      | Err retry_after => (s, Some (too_many_requests retry_after))
      end
  end.

(** Without an engine no principal is attached, which reads as anonymous. *)
Definition authn_layer (req : HttpRequest) (next : Principal → service) : service := λ s,
  match auth st with
  | None => next Anonymous s
  | Some a =>
      let '(c, r) := authn_middleware a (sv_cache s) (hq_headers req) (hq_cert req) (hq_path req) now now_unix in
      let s := put_cache c s in
      match r with
      | Ok p => next p s
      | Err resp => (s, Some resp)
      end
  end.

Definition per_client_rate_limit_middleware (req : HttpRequest) (p : Principal) (next : service) : service := λ s,
  match sv_clients s with
  | None => next s
  | Some l =>
      let '(l, r) := per_client_check l (client_key_from p (hq_peer req)) now in
      let s := put_clients l s in
      match r with
      | Ok _ => next s
      | Err retry_after => (s, Some (too_many_requests retry_after))
      end
  end.

Definition handler_request (m : Method) (p : Principal) (req : HttpRequest) : Request :=
  mkReq m (hq_query req) (hq_headers req) p (hq_body req).

(** The routes under [/v2/]. *)
Definition v2_route (rest : option string) (req : HttpRequest) (p : Principal) : service := λ s,
  match method_of (hq_method req), rest with
  | Some (GET | HEAD), None => (s, Some get_base)
  | Some m, Some rest =>
      let '(x, r) := dispatch st rest (handler_request m p req) (sv_store s) in
      (put_store x s, match r with
                      | Ok resp => Some resp
                      | Err (Api e) => Some (error_response e)
                      | Err Panic => None
                      end)
  | _, _ => (s, Some method_not_allowed)
  end.

Definition v2_stack (rest : option string) (req : HttpRequest) : service :=
  rate_limit_middleware req (authn_layer req (λ p, per_client_rate_limit_middleware req p (v2_route rest req p))).

(** The health probes are merged after the layers of [/v2/]. *)
Definition health_route (resp : Response) (req : HttpRequest) : service := λ s,
  match method_of (hq_method req) with
  | Some (GET | HEAD) => (s, Some resp)
  | _ => (s, Some method_not_allowed)
  end.

Definition build_router (m : Matched) (req : HttpRequest) : service := λ s,
  match early_data_middleware (hq_headers req) (hq_method req) with
  | Some resp => (s, Some resp)
  | None =>
      match m with
      | MLivez => health_route livez req s
      | MReadyz => health_route (readyz recovered probe) req s
      | MBase => v2_stack None req s
      | MRest rest => v2_stack (Some rest) req s
      end
  end.
End Server.
Arguments Server {_ _}.

(** The limiters of a configuration; the caches start empty. *)
Definition server_new `{!Storage, !ClientMap} (is_method : string → bool) (cfg : RateLimitConfig) (cache_ttl now : Z) (x : sto) : Server :=
  mkServer (limiter_from_config is_method cfg now) (per_client_from_config cfg)
    {| ttl := cache_ttl; Auth.cmap := ∅ |} x.

(** Tracking the request body does not change how a request is answered,
    and the connection is closed exactly when the request came by HTTP/1 with a
    body of which the handler did not see the end. *)
Theorem unread_body_closes `{HttpBody} http1 b next :
  let resp := (run_reader next b).2 in
  close_on_unread_body http1 b next =
    if http1 && negb (is_end_stream b) && negb (sees_end next b) then set_header "connection" "close" resp else resp.
Proof.
  intros resp. unfold close_on_unread_body. pose proof (run_tracked_spec next (mkTracked b false)) as Hs.
  destruct http1, (is_end_stream b); simpl; try done.
  destruct (run_tracked next (mkTracked b false)) as [t r]. destruct Hs as [Hr ->]. simpl in *.
  unfold resp. rewrite <-Hr. done.
Qed.

(** The layers of [/v2/] refuse a request and leave the storage alone, or they
    pass it on for a principal. *)
Section Stack.
Context `{!Crypto, !SerdeJson, !UrlEncoded, !Storage, !AuthEnv, !ClientMap, !Axum}.

Lemma error_refuses e : (400 ≤ resp_status (error_response e) < 600)%Z.
Proof. apply status_range. Qed.

Lemma authn_refuses a c headers cert path now now_unix c' r :
  authn_middleware a c headers cert path now now_unix = (c', Err r) → (400 ≤ resp_status r < 600)%Z.
Proof.
  unfold authn_middleware. destruct (authenticate _ _ _ _ _ _) as [c1 [p|e]]; [case_match|]; intros; simplify_eq; apply error_refuses.
Qed.

Lemma authn_passes a c headers cert path now now_unix c' p :
  authn_middleware a c headers cert path now now_unix = (c', Ok p) → (authenticate a c headers cert now now_unix).2 = Ok p.
Proof. unfold authn_middleware. destruct (authenticate _ _ _ _ _ _) as [c1 [p'|e]]; [case_match|]; intros; by simplify_eq. Qed.

Definition admitted_as (st : AppState) (now now_unix : Z) (req : HttpRequest) (s : Server) (p : Principal) : Prop :=
  match auth st with
  | Some a => (authenticate a (sv_cache s) (hq_headers req) (hq_cert req) now now_unix).2 = Ok p
  | None => p = Anonymous
  end ∧
  (∀ l, sv_limiter s = Some l → (limiter_check l (hq_method req) now).2 = Ok tt) ∧
  (∀ l, sv_clients s = Some l → (per_client_check l (client_key_from p (hq_peer req)) now).2 = Ok tt).

Lemma v2_stack_cases st now now_unix rest req s :
  (∃ s' r, v2_stack st now now_unix rest req s = (s', Some r) ∧ sv_store s' = sv_store s ∧ (400 ≤ resp_status r < 600)%Z) ∨
  (∃ p s2, v2_stack st now now_unix rest req s = v2_route st rest req p s2 ∧ sv_store s2 = sv_store s ∧
     admitted_as st now now_unix req s p).
Proof.
  assert (Hcl : ∀ p s1, sv_clients s1 = sv_clients s → sv_store s1 = sv_store s →
    let out := per_client_rate_limit_middleware now req p (v2_route st rest req p) s1 in
    (∃ s' r, out = (s', Some r) ∧ sv_store s' = sv_store s ∧ (400 ≤ resp_status r < 600)%Z) ∨
    (∃ s2, out = v2_route st rest req p s2 ∧ sv_store s2 = sv_store s ∧
       ∀ l, sv_clients s = Some l → (per_client_check l (client_key_from p (hq_peer req)) now).2 = Ok tt)).
  { intros p s1 Ec Es. unfold per_client_rate_limit_middleware. rewrite Ec. destruct (sv_clients s) as [l|]; [|right; by exists s1].
    destruct (per_client_check l _ now) as [l' [[]|n]] eqn:El; [right|left; by do 2 eexists].
    eexists. split_and!; [done..|]. intros ? [= <-]. by rewrite El. }
  assert (Hau : ∀ s1, sv_clients s1 = sv_clients s → sv_store s1 = sv_store s → sv_cache s1 = sv_cache s →
    (∀ l, sv_limiter s = Some l → (limiter_check l (hq_method req) now).2 = Ok tt) →
    let out := authn_layer st now now_unix req (λ p, per_client_rate_limit_middleware now req p (v2_route st rest req p)) s1 in
    (∃ s' r, out = (s', Some r) ∧ sv_store s' = sv_store s ∧ (400 ≤ resp_status r < 600)%Z) ∨
    (∃ p s2, out = v2_route st rest req p s2 ∧ sv_store s2 = sv_store s ∧ admitted_as st now now_unix req s p)).
  { intros s1 Ec Es Ek Hl. unfold authn_layer, admitted_as. rewrite Ek. destruct (auth st) as [a|].
    - destruct (authn_middleware a _ _ _ _ _ _) as [c [p|r]] eqn:Em; [|left; do 2 eexists; split_and!; [done|done|by eapply authn_refuses..]].
      destruct (Hcl p (put_cache c s1) Ec Es) as [(s' & r & ? & ? & ?)|(s2 & ? & ? & ?)]; [left; by exists s', r|right].
      exists p, s2. split_and!; try done. by eapply authn_passes.
    - destruct (Hcl Anonymous s1 Ec Es) as [(s' & r & ? & ? & ?)|(s2 & ? & ? & ?)]; [left; by exists s', r|right]. by exists Anonymous, s2. }
  unfold v2_stack, rate_limit_middleware. destruct (sv_limiter s) as [l|] eqn:E; [|by apply Hau].
  destruct (limiter_check l _ now) as [l' [[]|n]] eqn:El; [|left; by do 2 eexists].
  apply Hau; [done..|]. intros ? [= <-]. by rewrite El.
Qed.

(** What the routes of [/v2/] do to the storage is what [dispatch] does. *)
Lemma v2_route_cases st rest req p s :
  (∃ r, v2_route st rest req p s = (s, Some r) ∧ (rest = None ∧ r = get_base ∨ r = method_not_allowed)) ∨
  (∃ rest' m x r, rest = Some rest' ∧ method_of (hq_method req) = Some m ∧
     dispatch st rest' (handler_request m p req) (sv_store s) = (x, r) ∧
     v2_route st rest req p s = (put_store x s, match r with
                                                | Ok resp => Some resp
                                                | Err (Api e) => Some (error_response e)
                                                | Err Panic => None
                                                end)).
Proof.
  unfold v2_route. destruct (method_of (hq_method req)) as [m|]; [|left; eexists; by split; [|right]].
  destruct rest as [rest|]; [|left; destruct m; eexists; (split; [reflexivity|]); first [by left|by right]].
  right. destruct m; (destruct (dispatch st rest (handler_request _ p req) (sv_store s)) as [x r] eqn:Ed;
    eexists rest, _, x, r; by split_and!).
Qed.
End Stack.

(** C6: the way to the storage. With access control configured, a request
    changes the storage only when it is not refused as early data, the limiter of
    its method admits it, its credentials authenticate it as some principal, the
    limiter of that client admits it, and the policy allows the principal the
    action the request needs on the repository it names. *)
Theorem storage_guarded `{!Crypto, !SerdeJson, !UrlEncoded, !Storage, !AuthEnv, !ClientMap, !Axum}
    st now now_unix recovered probe m req s s' resp a :
  auth st = Some a → build_router st now now_unix recovered probe m req s = (s', resp) → sv_store s' ≠ sv_store s →
  early_data_middleware (hq_headers req) (hq_method req) = None ∧
  (∀ l, sv_limiter s = Some l → (limiter_check l (hq_method req) now).2 = Ok tt) ∧
  ∃ p, (authenticate a (sv_cache s) (hq_headers req) (hq_cert req) now now_unix).2 = Ok p ∧
    (∀ l, sv_clients s = Some l → (per_client_check l (client_key_from p (hq_peer req)) now).2 = Ok tt) ∧
    ∃ rest method parsed repo act, m = MRest rest ∧ method_of (hq_method req) = Some method ∧
      parse_path rest = Ok parsed ∧ required_action method parsed = Some (repo, act) ∧ path_repo parsed = Some repo ∧
      allows a p repo act = true.
Proof.
  intros Ha Hb Hne. unfold build_router in Hb. destruct (early_data_middleware _ _); [by simplify_eq|]. split; [done|].
  assert (Hh : ∀ r, health_route r req s = (s', resp) → False).
  { intros r. unfold health_route. repeat case_match; intros; by simplify_eq. }
  assert (∃ rest, v2_stack st now now_unix rest req s = (s', resp) ∧ m = match rest with Some r => MRest r | None => MBase end)
    as (rest & Hv & ->).
  { destruct m as [| | |r]; [by edestruct Hh|by edestruct Hh|by exists None|by exists (Some r)]. }
  destruct (v2_stack_cases st now now_unix rest req s) as [(s1 & r & E & ? & _)|(p & s2 & E & Es & Hau & Hl & Hc)];
    [congruence|]. rewrite Ha in Hau. split; [done|]. exists p. split_and!; [done..|].
  destruct (v2_route_cases st rest req p s2) as [(r & E' & _)|(rest' & method & x & r & -> & Hm & Ed & E')]; [congruence|].
  assert (Hx : x ≠ sv_store s2). { intros ->. apply Hne. rewrite <-Es. rewrite E, E' in Hv. by simplify_eq. }
  destruct (dispatch_needs_grant st a rest' (handler_request method p req) _ _ _ Ha Ed (or_introl Hx))
    as (parsed & repo & act & Hp & Hact & Hrepo & Hallow).
  by exists rest', method, parsed, repo, act.
Qed.

Lemma early_data_refuses headers method r : early_data_middleware headers method = Some r → resp_status r = 425%Z.
Proof. unfold early_data_middleware. case_match; [|done]. by intros [= <-]. Qed.

Section Refusals.
Context `{!Crypto, !SerdeJson, !UrlEncoded, !Storage, !AuthEnv, !ClientMap, !Axum}.

Lemma health_route_spec resp req (s : Server) :
  ∃ r, health_route resp req s = (s, Some r) ∧ (hq_method req = "GET" → r = resp).
Proof.
  unfold health_route, method_of. destruct (decide (hq_method req = "GET")); [by eexists|].
  repeat case_match; eexists; (split; [done|congruence]).
Qed.

Lemma limited st now now_unix rest req (s : Server) l l' n :
  sv_limiter s = Some l → limiter_check l (hq_method req) now = (l', Err n) →
  v2_stack st now now_unix rest req s = (put_limiter l' s, Some (too_many_requests n)).
Proof. intros Hl Hc. unfold v2_stack, rate_limit_middleware. by rewrite Hl, Hc. Qed.

Lemma unauthenticated st now now_unix rest req (s : Server) a e :
  auth st = Some a → (authenticate a (sv_cache s) (hq_headers req) (hq_cert req) now now_unix).2 = Err e →
  let s' := (v2_stack st now now_unix rest req s).1 in sv_clients s' = sv_clients s ∧ sv_store s' = sv_store s.
Proof.
  intros Ha He. unfold v2_stack, rate_limit_middleware.
  assert (Hn : ∀ s1, sv_cache s1 = sv_cache s → ∀ next,
    (authn_layer st now now_unix req next s1).1 = put_cache (authenticate a (sv_cache s) (hq_headers req) (hq_cert req) now now_unix).1 s1).
  { intros s1 Hc next. unfold authn_layer, authn_middleware. rewrite Ha, Hc.
    destruct (authenticate a _ _ _ _ _) as [c r]. simpl in *. by rewrite He. }
  destruct (sv_limiter s) as [l|]; [|by rewrite Hn].
  destruct (limiter_check l _ now) as [l' [[]|n]]; [by rewrite Hn|done].
Qed.
End Refusals.

(** A refusal leaves what is behind it alone. A request refused as early
    data changes nothing; a health probe is answered whatever the limiters and
    the credentials say, and changes nothing; a request over the limit of its
    method is answered 429 with the seconds to wait and costs a look at that
    bucket only; and one with invalid credentials reaches neither the limiter of
    the clients nor the storage. *)
Theorem refusals_contained `{!Crypto, !SerdeJson, !UrlEncoded, !Storage, !AuthEnv, !ClientMap, !Axum}
    st now now_unix recovered probe m req s :
  let '(s', resp) := build_router st now now_unix recovered probe m req s in
  let early := early_data_middleware (hq_headers req) (hq_method req) in
  (∀ r, early = Some r → s' = s ∧ resp = Some r ∧ resp_status r = 425%Z) ∧
  (m = MLivez ∨ m = MReadyz → s' = s ∧ (early = None → hq_method req = "GET" →
     resp = Some (if decide (m = MLivez) then livez else readyz recovered probe))) ∧
  (∀ l l' n, early = None → m = MBase ∨ (∃ rest, m = MRest rest) → sv_limiter s = Some l →
     limiter_check l (hq_method req) now = (l', Err n) →
     s' = put_limiter l' s ∧ ∃ r, resp = Some r ∧ resp_status r = 429%Z ∧ resp_header "retry-after" r = Some (u64_to_string n)) ∧
  (∀ a e, auth st = Some a → (authenticate a (sv_cache s) (hq_headers req) (hq_cert req) now now_unix).2 = Err e →
     sv_clients s' = sv_clients s ∧ sv_store s' = sv_store s).
Proof.
  unfold build_router. destruct (early_data_middleware _ _) as [r|] eqn:Ee.
  { split_and!; try done. intros ? [= <-]. split_and!; [done..|]. by eapply early_data_refuses. }
  assert (Hv2 : ∀ rest, let '(s', resp) := v2_stack st now now_unix rest req s in
    (∀ l l' n, sv_limiter s = Some l → limiter_check l (hq_method req) now = (l', Err n) →
       s' = put_limiter l' s ∧ ∃ r, resp = Some r ∧ resp_status r = 429%Z ∧ resp_header "retry-after" r = Some (u64_to_string n)) ∧
    (∀ a e, auth st = Some a → (authenticate a (sv_cache s) (hq_headers req) (hq_cert req) now now_unix).2 = Err e →
       sv_clients s' = sv_clients s ∧ sv_store s' = sv_store s)).
  { intros rest. pose proof (unauthenticated st now now_unix rest req s) as Hu.
    pose proof (limited st now now_unix rest req s) as Hl. destruct (v2_stack st now now_unix rest req s) as [s' resp].
    split; [|done]. intros l l' n I1 I2. specialize (Hl l l' n I1 I2). simplify_eq. split; [done|].
    eexists. split_and!; [done|done|]. apply lookup_insert_eq. }
  destruct m as [| | |rest].
  - destruct (health_route_spec livez req s) as (r & -> & Hr). split_and!; try done; [|naive_solver]. intros _. split; [done|].
    intros _ Hg. by rewrite Hr, decide_True.
  - destruct (health_route_spec (readyz recovered probe) req s) as (r & -> & Hr). split_and!; try done; [|naive_solver].
    intros _. split; [done|]. intros _ Hg. by rewrite Hr, decide_False.
  - specialize (Hv2 None). destruct (v2_stack _ _ _ _ _ _) as [s' resp]. destruct Hv2. split_and!; naive_solver.
  - specialize (Hv2 (Some rest)). destruct (v2_stack _ _ _ _ _ _) as [s' resp]. destruct Hv2. split_and!; naive_solver.
Qed.

(** ** Witnesses *)

Import ToyServer ToyRegistry ToyLimiter.

Module ToyStack.
#[export] Existing Instance ToyAuth.toy_auth.
#[export] Instance toy_axum : Axum := {| method_not_allowed := {| resp_status := 405; resp_headers := ∅; resp_body := BEmpty |} |}.

(** Two requests a method and a client at once. *)
Definition limits : RateLimitConfig :=
  {| rl_enabled := true; rl_default := Some {| rate := 1; burst := 2 |}; per_method := [];
     per_client := Some {| pc_rate := 1; pc_burst := 2; max_clients := 4 |} |}.
Definition server : Server := server_new (λ _, true) limits 0 0 empty_store.
Definition push : HttpRequest :=
  mkHttp "PUT" "/v2/a/manifests/v1" "" ∅ (Some "root") None [Ok (as_bytes "{}")].
Definition rest : string := "a/manifests/v1".
Definition answer (s : Server) : Server * option Response := build_router guarded 0 0 true None (MRest rest) push s.
Definition stored (s : Store) : bool := is_ok (get_manifest "a" "v1" s).2.
End ToyStack.

Import ToyStack.

(** The administrator, by client certificate, pushes a manifest. *)
Lemma storage_guarded_witness :
  (stored (sv_store server), stored (sv_store (answer server).1)) = (false, true) ∧
  (authenticate engine (sv_cache server) (hq_headers push) (hq_cert push) 0 0).2 = Ok (User "root" [] MMtls) ∧
  allows engine (User "root" [] MMtls) "a" Push = true.
Proof.
  assert (Hs : (stored (sv_store server), stored (sv_store (answer server).1)) = (false, true)) by (vm_compute; reflexivity).
  assert (Hau : (authenticate engine (sv_cache server) (hq_headers push) (hq_cert push) 0 0).2 = Ok (User "root" [] MMtls))
    by (vm_compute; reflexivity).
  split; [exact Hs|]. split; [exact Hau|]. destruct (answer server) as [s' resp] eqn:E.
  assert (Hne : sv_store s' ≠ sv_store server).
  { intros Heq. simpl fst in Hs. rewrite Heq in Hs. revert Hs. generalize (stored (sv_store server)). intros []; discriminate. }
  destruct (storage_guarded guarded 0 0 true None (MRest rest) push server s' resp engine eq_refl E Hne)
    as (_ & _ & p & Hp & _ & rest' & method & parsed & repo & act & Er & Em & Epp & Eact & _ & Hallow).
  rewrite Hau in Hp. injection Hp as <-. injection Er as <-. vm_compute in Em. injection Em as <-.
  vm_compute in Epp. injection Epp as <-. simpl in Eact. injection Eact as <- <-. exact Hallow.
Defined.

(** The third request of an instant is refused. *)
Example third_request :
  let s := (answer (answer server).1).1 in
  (resp_status <$> (answer s).2) = Some 429%Z ∧ ((answer s).2 ≫= resp_header "retry-after") = Some "1".
Proof. split; vm_compute; reflexivity. Qed.
