(* ===== verification/S3Registry.v ===== *)
(** The registry over the S3 backend: the states a run of requests and
    background work reaches, and what the interface guarantees in all of them;
    where a client may be redirected; the writing of [index.json]; and how long
    the creation of the bucket is retried. *)

From S2P Require Import Config NetAddr Triple FsRun Registry.
From S2P Require Import StorageApi Prelude RustStr Json Errors Names Digest HttpUtil Policy Auth Routes Paths Quota.
From S2P Require Import Metadata MetaLog MetaStore Effect FileSys FileSysFacts Walk Layout Lifecycle UploadBody.
From S2P Require Import Manifests Handlers HandlersFacts ObjectStore S3Storage S3Keys S3Facts S3Backend S3Recover S3Run.

(** ** Runs *)

Section Serving.
Context `{!Crypto, !CryptoLaws, !World, !SerdeJson, !UrlEncoded, !HashIter, !MetadataStore, !MetadataStoreLaws}.
Context `{!ObjectStore, !ObjectStoreLaws, !ObjPaths, !ObjPathLaws, !UrlCrate}.
Variable client : S3Client.
Variable age : Fs → path → Z.

Definition s3_dispatch (st : AppState) (rest : string) (req : Request) (s : S3Store) : S3Store * result Failure Response :=
  @dispatch _ _ _ (s3_storage client) st rest req s.

(** The states of a registry over a bucket whose blobs are what their keys say:
    it answers requests and does its background work. *)
Inductive s3_serving (st : AppState) : S3Store → Prop :=
  | s3_serving_open s : s3_inv s → s3_serving st s
  | s3_serving_request s rest req : s3_serving st s → s3_serving st (s3_dispatch st rest req s).1
  | s3_serving_work s o : s3_serving st s → s3_op_ok client o → s3_serving st (s3_step client age o s).

Hypothesis part_size_pos : (0 < c_part_size client)%Z.
Hypothesis http_ok : http_views client.

Lemma sweep_pres depth : runs s3_pres (s3_gc_sweep client age depth).
Proof.
  unfold s3_gc_sweep. apply runs_bind; [runs_auto|intros g]. destruct (negb _); [runs_auto|].
  apply runs_bind; [runs_auto|intros now]. destruct (bool_decide _); [runs_auto|].
  apply runs_bind; [|intros ?; apply same_blobs_pres, sweep_stale_same]. apply for_each_runs; [apply _|].
  intros [repo digest]. unfold s3_sweep_one, s3_clear.
  assert (Hd : ∀ k, runs s3_pres (on_bucket (o_delete k))).
  { intros k s. pose proof (delete_pres k s) as Hp. unfold store_read, mapping_err in Hp. by destruct (on_bucket _ s). }
  assert (Hm : ∀ g : S3Store → GcTracker, runs s3_pres (modify (E := StorageError) (λ s, put_gc (g s) s))).
  { intros h. apply same_blobs_pres, quiet_same_blobs. by apply quiet_derived. }
  runs_auto.
Qed.

Lemma s3_step_pres o s : s3_op_ok client o → s3_inv s → s3_inv (s3_step client age o s).
Proof.
  intros Ho Hs. destruct (s3_reads_quiet client) as (R1 & R2 & R3).
  assert (Hg : ∀ A (m : M S3Store StorageError A), runs s3_pres m → s3_inv (m s).1) by (intros A m Hm; by apply Hm).
  assert (Hq : ∀ A (m : M S3Store StorageError A), runs quiet m → s3_inv (m s).1)
    by (intros A m Hm; by apply Hg, same_blobs_pres, quiet_same_blobs).
  assert (Hp : ∀ A (m : M S3Store StorageError A) Q, sp s3_inv any m Q → s3_inv (m s).1) by (intros A m Q Hm; by apply Hm).
  destruct o; simpl in *.
  - apply Hq, s3_blob_size_quiet.
  - apply Hq, s3_blob_exists_quiet.
  - apply Hq, s3_read_blob_quiet.
  - apply Hq, s3_open_blob_quiet.
  - apply Hg, same_blobs_pres, s3_begin_upload_same.
  - apply Hg, same_blobs_pres, s3_append_upload_same.
  - apply Hg, same_blobs_pres, s3_upload_size_same.
  - destruct Ho. by eapply Hp, s3_finish_upload_spec.
  - apply Hg, same_blobs_pres, s3_abort_upload_same.
  - destruct Ho. by eapply Hp, s3_put_blob_spec.
  - apply Hg, s3_delete_blob_pres.
  - by eapply Hp, s3_mount_blob_spec.
  - destruct Ho. by eapply Hp, s3_put_manifest_spec.
  - apply Hq, R1.
  - apply Hg, s3_delete_manifest_pres.
  - apply Hq, R2.
  - apply Hq, R3.
  - by apply Hq, s3_ready_quiet.
  - by apply Hq, s3_recover_quiet.
  - apply Hg, same_blobs_pres, s3_start_gc_same.
  - apply Hq, index_writer_turn_quiet.
  - apply Hg, sweep_pres.
Qed.

(** The limits of the interface are within what a server-side copy takes. *)
Definition s3_limits (st : AppState) : Prop :=
  (max_upload st ≤ c_copy_limit client)%Z ∧ (max_manifest st ≤ c_copy_limit client)%Z.

Lemma s3_dispatch_ensures st rest req parsed s :
  s3_limits st → parse_path rest = Ok parsed → s3_inv s →
  s3_inv (s3_dispatch st rest req s).1 ∧
  ∀ resp, (s3_dispatch st rest req s).2 = Ok resp →
    answers (H4 := s3_storage_laws client part_size_pos) st parsed req resp s (s3_dispatch st rest req s).1.
Proof.
  intros Hst Hp Hs.
  apply (dispatch_ensures (H4 := s3_storage_laws client part_size_pos) st rest req parsed Hst Hp); [|done].
  by destruct parsed.
Qed.

Lemma s3_request_keeps st rest req s :
  s3_limits st → s3_inv s → s3_inv (s3_dispatch st rest req s).1.
Proof.
  intros Hst Hs.
  destruct (@dispatch_cases _ _ _ (s3_storage client) st rest req s) as [(e & _ & E)|(parsed & Hp & _)].
  - unfold s3_dispatch. by rewrite E.
  - by eapply s3_dispatch_ensures.
Qed.

Lemma s3_serving_inv st s : s3_limits st → s3_serving st s → s3_inv s.
Proof. intros Hst. induction 1; [done|by apply s3_request_keeps|by apply s3_step_pres]. Qed.
End Serving.

(** ** Writing index.json *)

Section IndexWriter.
Context `{!Crypto, !World, !SerdeJson, !HashIter, !MetadataStore}.
Context `{!ObjectStore, !ObjectStoreLaws, !ObjPaths, !ObjPathLaws, !UrlCrate}.
Variable client : S3Client.
Abbreviation prefix := (c_prefix client).
Abbreviation objs s := (contents (x_bucket s)).

(** A step of the bucket that changes at most the object at [k]. *)
Definition writes_at (k : string) (s s' : S3Store) : Prop :=
  s' = put_bucket (x_bucket s') s ∧ ∀ k', k' ≠ k → objs s' !! k' = objs s !! k'.

Lemma put_bucket_eta s : put_bucket (x_bucket s) s = s.
Proof. by destruct s. Qed.
#[export] Instance writes_at_preorder k : PreOrder (writes_at k).
Proof.
  split; [intros s; split; [by rewrite put_bucket_eta|done]|]. intros s1 s2 s3 [E1 I1] [E2 I2]. split.
  - rewrite E2. by rewrite E1.
  - intros k' Hk. by rewrite I2, I1.
Qed.
Lemma writes_at_view {A : Type} k (m : M bucket obj_error A) : views contents m → runs (writes_at k) (on_bucket m).
Proof. intros Hm s. rewrite on_bucket_state. split; [done|]. intros k' _. simpl. by rewrite Hm. Qed.

(** The index that is in the bucket. *)
Definition remote_index (m : gmap string bytes) (k : string) : option json := m !! k ≫= from_slice.

Lemma existing_index_spec repo ik s :
  index_key prefix repo = Ok ik →
  writes_at (obj_path ik) s (existing_index client repo s).1 ∧ objs (existing_index client repo s).1 = objs s ∧
  ∀ e, (existing_index client repo s).2 = Ok e → e = remote_index (objs s) (obj_path ik).
Proof.
  intros Hk. unfold existing_index, read_remote_index, store_read, mbind, M_bind. rewrite attempt_eq, Hk. simpl.
  unfold mapping_err. rewrite on_bucket_state. pose proof (get_views (obj_path ik) (x_bucket s)) as Hv.
  pose proof (get_ok (obj_path ik) (x_bucket s)) as Hok. pose proof (get_not_found (obj_path ik) (x_bucket s)) as Hnf.
  assert (Hw : writes_at (obj_path ik) s (put_bucket (o_get (obj_path ik) (x_bucket s)).1 s)).
  { split; [done|]. intros k' _. simpl. by rewrite Hv. }
  unfold remote_index. destruct (o_get (obj_path ik) (x_bucket s)) as [b [[c|e]|[t|t]]]; simpl in *.
  - rewrite (Hok c eq_refl). simpl. destruct (from_slice c); simpl; (split_and!; [done|done|]); naive_solver.
  - done.
  - rewrite (Hnf t eq_refl). simpl. split_and!; naive_solver.
  - done.
Qed.

(** What a write of the index leaves. *)
Lemma write_remote_index_spec repo ik s :
  index_key prefix repo = Ok ik →
  writes_at (obj_path ik) s (write_remote_index client repo s).1 ∧
  ((write_remote_index client repo s).2 = Ok tt →
   objs (write_remote_index client repo s).1 !! obj_path ik =
     Some (to_vec (index_over repo (remote_index (objs s) (obj_path ik)) s))).
Proof.
  intros Hk. destruct (existing_index_spec repo ik s Hk) as (Hw & Ho & He). unfold write_remote_index, mbind, M_bind.
  destruct (existing_index client repo s) as [s1 [e|e]]; simpl in *; [|by split].
  destruct Hw as [E Hw]. rewrite (He e eq_refl), Hk. simpl. unfold store_write, mapping_err. rewrite on_bucket_state. simpl.
  assert (Hidx : index_over repo (remote_index (objs s) (obj_path ik)) s1 = index_over repo (remote_index (objs s) (obj_path ik)) s)
    by (by rewrite E).
  rewrite Hidx. set (v := to_vec _). pose proof (put_writes (obj_path ik) v (x_bucket s1)) as Hp. split.
  - split; [simpl; by rewrite E|]. intros k' Hne. simpl. rewrite <-Ho.
    destruct Hp as [->|[_ ->]]; [by rewrite lookup_insert_ne|done].
  - intros Hr. simpl. destruct (o_put (obj_path ik) v (x_bucket s1)) as [b [u|x]]; simpl in *; [|done].
    destruct Hp as [->|[[? ?] _]]; [|done]. by rewrite lookup_insert_eq.
Qed.

Lemma index_key_name repo : repository_name repo → ∃ ik, index_key prefix repo = Ok ik ∧
  path_parts (obj_path ik) = (if decide (prefix = "") then [] else path_parts (obj_path prefix)) ++ split "/" repo ++ ["index.json"].
Proof.
  intros Hr. destruct (repo_prefix_parts prefix repo Hr) as (rp & Hrp & _ & Hparts). unfold index_key. rewrite Hrp.
  simpl. eexists. split; [done|]. change (rp +:+ "/index.json") with (rp +:+ "/" +:+ "index.json").
  rewrite obj_path_child by done. change (child (obj_path rp) "index.json") with (foldl child (obj_path rp) ["index.json"]).
  rewrite split_children by (by repeat constructor). by rewrite Hparts, <-app_assoc.
Qed.

Lemma index_key_inj repo repo' ik ik' :
  repository_name repo → repository_name repo' → index_key prefix repo = Ok ik → index_key prefix repo' = Ok ik' →
  obj_path ik = obj_path ik' → repo = repo'.
Proof.
  intros Hr Hr' Hk Hk' E. destruct (index_key_name repo Hr) as (k1 & Hk1 & P1).
  destruct (index_key_name repo' Hr') as (k2 & Hk2 & P2). assert (k1 = ik) as -> by congruence.
  assert (k2 = ik') as -> by congruence. rewrite E, P2 in P1. apply (inj (app _)) in P1.
  apply app_inj_2 in P1 as [P1 _]; [|done]. by rewrite <-(join_split "/" repo), <-P1, join_split.
Qed.

(** The parts of the state an index is made from. *)
Definition same_source (s s' : S3Store) : Prop := x_meta s' = x_meta s ∧ x_manifest_sizes s' = x_manifest_sizes s.

Lemma index_over_source repo e s s' : same_source s s' → index_over repo e s' = index_over repo e s.
Proof. intros [E1 E2]. unfold index_over. by rewrite E1, E2. Qed.

(** The mark of [repo] is as before, or it is gone and the index is what the
    metadata say. *)
Definition settled (repo ik : string) (s s' : S3Store) : Prop :=
  x_index_dirty s' !! repo = x_index_dirty s !! repo ∨
  (x_index_dirty s' !! repo = None ∧
   objs s' !! obj_path ik = Some (to_vec (index_over repo (remote_index (objs s) (obj_path ik)) s))).

Lemma write_dirty_spec repo g ik s :
  index_key prefix repo = Ok ik →
  let s' := (write_dirty client (repo, g) s).1 in
  (write_dirty client (repo, g) s).2 = Ok tt ∧ same_source s s' ∧ settled repo ik s s' ∧
  (∀ k, k ≠ obj_path ik → objs s' !! k = objs s !! k) ∧ ∀ r, r ≠ repo → x_index_dirty s' !! r = x_index_dirty s !! r.
Proof.
  intros Hk. unfold write_dirty, mbind, M_bind. rewrite attempt_eq.
  destruct (write_remote_index_spec repo ik s Hk) as [[E Hw] Hok].
  destruct (write_remote_index client repo s) as [s1 [[]|e]]; simpl in *; rewrite E; simpl.
  - case_decide; simpl; (split_and!; try done).
    + right. split; [apply lookup_delete_eq|]. by apply Hok.
    + intros r Hr. by rewrite lookup_delete_ne.
    + by left.
  - split_and!; try done. by left.
Qed.

(** A turn leaves the indexes of the repositories it does not write. *)
Lemma write_each_spec rgs s :
  NoDup rgs.*1 → Forall repository_name rgs.*1 →
  let s' := (write_each client rgs s).1 in
  same_source s s' ∧
  (∀ repo ik, repository_name repo → index_key prefix repo = Ok ik → repo ∈ rgs.*1 → settled repo ik s s') ∧
  (∀ repo ik, repository_name repo → index_key prefix repo = Ok ik → repo ∉ rgs.*1 →
     x_index_dirty s' !! repo = x_index_dirty s !! repo ∧ objs s' !! obj_path ik = objs s !! obj_path ik).
Proof.
  revert s. induction rgs as [|[r g] rgs IH]; intros s Hnd Hn; cbn [write_each].
  { split_and!; [done|by intros repo ik _ _ ?%elem_of_nil|done]. }
  rewrite fmap_cons in Hnd, Hn |- *. cbn [fst] in Hnd, Hn |- *.
  apply NoDup_cons in Hnd as [Hr Hnd]. apply Forall_cons in Hn as [Hrn Hn].
  destruct (index_key_name r Hrn) as (rk & Hrk & _).
  destruct (write_dirty_spec r g rk s Hrk) as (Hok & W1 & W2 & W3 & W4). cbn zeta in *.
  unfold mbind, M_bind. destruct (write_dirty client (r, g) s) as [s1 r1]. simpl in *. subst r1.
  destruct (IH s1 Hnd Hn) as (V1 & V2 & V3). cbn zeta in *. destruct (write_each client rgs s1) as [s2 r2]. simpl in *.
  assert (Hkey : ∀ repo ik, repository_name repo → index_key prefix repo = Ok ik → repo ≠ r → obj_path ik ≠ obj_path rk).
  { intros repo ik H1' H2' Hne E. apply Hne. by eapply index_key_inj. }
  assert (Hsrc : same_source s s2) by (destruct W1, V1; split; congruence).
  split; [exact Hsrc|split].
  - intros repo ik Hname Hik [->|Hin]%elem_of_cons.
    + assert (ik = rk) as -> by congruence. destruct (V3 r rk Hrn Hrk Hr) as [D1 D2]. unfold settled in *. by rewrite D1, D2.
    + assert (Hne : repo ≠ r) by (by intros ->). specialize (V2 repo ik Hname Hik Hin). unfold settled in *.
      unfold remote_index in V2 at 1. rewrite (W4 repo Hne), (W3 (obj_path ik)) in V2 by (by eapply Hkey).
      by rewrite (index_over_source _ _ s s1) in V2.
  - intros repo ik Hname Hik [Hne Hin]%not_elem_of_cons. destruct (V3 repo ik Hname Hik Hin) as [-> ->].
    rewrite (W4 repo Hne). split; [done|]. apply W3. by eapply Hkey.
Qed.
End IndexWriter.

(** ** Creating the bucket *)

(** The delay before the [i]-th retry. *)
Definition delay_at (i : nat) : Z := Nat.iter i next_delay FIRST_DELAY.

Lemma create_loop_waits `{!Crypto, !World, !SerdeJson, !HashIter, !MetadataStore, !ObjectStore, !ObjPaths, !UrlCrate}
    fuel after sign http i until_at s s' :
  create_loop fuel after sign http i (delay_at i) until_at s = (s', Ok None) →
  ∀ j, i ≤ j < i + fuel → (after j + delay_at j ≤ until_at)%Z.
Proof.
  revert i s. induction fuel as [|fuel IH]; intros i s E j Hj; [lia|]. cbn [create_loop] in E.
  apply bind_Ok in E as (s1 & u & _ & E). apply bind_Ok in E as (s2 & ? & _ & E). apply bind_Ok in E as (s3 & r & _ & E).
  destruct (match r with Ok _ => _ | Err _ => _ end); [|done]. destruct (_ <? _)%Z eqn:El; bool_simp; [done|].
  destruct (decide (j = i)) as [->|Hne]; [done|]. by apply (IH (S i) s3 E j); lia.
Qed.

(** Creating the bucket is retried a bounded number of times: when time does
    not run backwards and a sleep takes at least as long as asked for, at most 16
    requests are sent before the start goes on, whatever the service answers. *)
Theorem create_bucket_bounded
    `{!Crypto, !World, !SerdeJson, !HashIter, !MetadataStore, !ObjectStore, !ObjPaths, !UrlCrate}
    client started (after : nat → Z) s :
  (started ≤ after 0%nat)%Z → (∀ i : nat, (after i + delay_at i ≤ after (S i))%Z) →
  (ensure_bucket_within client 16 started after CREATE_BUCKET_DEADLINE s).2 ≠ Ok None.
Proof.
  intros H0' Hs Hn. unfold ensure_bucket_within in Hn. destruct (c_signer client) as [sign|]; [|done].
  destruct (c_bucket_http client) as [http|]; [|done]. destruct (create_loop _ _ _ _ _ _ _ _) as [s' r] eqn:E.
  simpl in Hn. subst r. pose proof (create_loop_waits 16 after sign http 0 _ s s' E 15 ltac:(lia)) as Hw.
  assert (Hsum : ∀ i, i ≤ 15 → (started + foldr Z.add 0 (delay_at <$> seq 0 i) ≤ after i)%Z).
  { induction i as [|i IH]; intros Hi; [simpl; lia|]. specialize (IH ltac:(lia)). specialize (Hs i).
    rewrite seq_S, fmap_app, foldr_app. simpl.
    assert (Hf : ∀ l x, foldr Z.add x l = (foldr Z.add 0 l + x)%Z) by (induction l as [|y l IHl]; intros x; simpl; [lia|rewrite (IHl x); lia]).
    rewrite Hf. lia. }
  specialize (Hsum 15 ltac:(lia)).
  assert (E1 : foldr Z.add 0%Z (delay_at <$> seq 0 15) = 57750000000%Z) by reflexivity.
  assert (E2 : delay_at 15 = 5000000000%Z) by reflexivity. rewrite E1 in Hsum. rewrite E2 in Hw.
  unfold CREATE_BUCKET_DEADLINE in Hw. lia.
Qed.

(** ** Properties *)

(** The registry keeps its contract over the S3 backend. In every state a run
    of requests and background work reaches from a bucket whose blobs are what
    their keys say, whatever calls of the object store fail and whether or not a
    failed write took effect, a successful response is what its end-point
    promises ([answers]): a blob is a prefix of content that hashes to the digest
    asked for, a manifest hashes to the digest it is served under, a created blob
    or manifest is in the bucket with the blobs the manifest needs, and a page is
    within the limit. *)
Theorem s3_registry_answers
    `{!Crypto, !CryptoLaws, !World, !SerdeJson, !UrlEncoded, !HashIter, !MetadataStore, !MetadataStoreLaws,
      !ObjectStore, !ObjectStoreLaws, !ObjPaths, !ObjPathLaws, !UrlCrate}
    client (Hpart : (0 < c_part_size client)%Z) age st s rest req parsed s' resp :
  http_views client → s3_limits client st → s3_serving client age st s →
  parse_path rest = Ok parsed →
  s3_dispatch client st rest req s = (s', Ok resp) →
  answers (H4 := s3_storage_laws client Hpart) st parsed req resp s s'.
Proof.
  intros Hh Hst Hs Hp Hd. apply s3_serving_inv in Hs; [|done..].
  destruct (s3_dispatch_ensures client Hpart st rest req parsed s Hst Hp Hs) as [_ HQ].
  rewrite Hd in HQ. by apply HQ.
Qed.

(** C23: a client is sent away only to the store it is configured for. The URL of
    a redirect was signed for the blob's object, its host is one the guard was
    built from and none of the internal ones, its scheme is https unless plain
    http is allowed, and the blob has at least the size from which redirects are
    made, which is not zero. *)
Theorem s3_redirect_confined
    `{!Crypto, !World, !SerdeJson, !HashIter, !MetadataStore, !ObjectStore, !ObjPaths, !UrlCrate}
    c signer http repo d s b text :
  let client := client_from_config c signer http in
  (s3_open_blob client repo d s).2 = Ok b → redirect_url b = Some text →
  ∃ key u host, blob_key (s3_prefix c) repo d = Ok key ∧ signer "GET" (obj_path key) (redirect_ttl_secs c) = Ok u ∧
    text = url_text u ∧ url_host_str u = Some host ∧
    to_lowercase host ∈ g_hosts (guard_from_config c) ∧ is_internal_host (to_lowercase host) = false ∧
    (url_scheme u = "https" ∨ allow_http c = true ∧ url_scheme u = "http") ∧
    (0 < redirect_min_size c ≤ br_size b)%Z.
Proof.
  intros client Hb Ht. destruct (s3_open_blob client repo d s) as [s' r] eqn:E. simpl in Hb. subst r.
  unfold s3_open_blob in E. apply bind_Ok in E as (s1 & key & Ek & E). injection Ek as _ Ek.
  apply bind_Ok in E as (s2 & size & _ & E). cbn zeta in E.
  destruct (signed_redirect client (obj_path key) size) as [url|] eqn:Es.
  2:{ apply bind_Ok in E as (s3 & bk & _ & E). injection E as _ <-. done. }
  injection E as _ <-. cbn in Ht. injection Ht as ->. unfold signed_redirect in Es. simpl in Es.
  destruct (_ && _) eqn:Emin; [|done]. apply andb_true_iff in Emin as [E1 E2]. bool_simp.
  destruct (signer "GET" (obj_path key) (redirect_ttl_secs c)) as [u|] eqn:Esign; [|done]. simpl in Es.
  destruct (permits _ u) eqn:Ep; [|done]. injection Es as <-. unfold permits in Ep.
  apply andb_true_iff in Ep as [Escheme Ehost]. destruct (url_host_str u) as [host|] eqn:Eh; [|done].
  apply andb_true_iff in Ehost as [Eint Ein]. bool_simp. exists key, u, host. split_and!; try done.
  apply orb_true_iff in Escheme as [Hs|Hs]; bool_simp; auto.
Qed.

(** No change of an index is lost: after a turn of the background writer,
    whatever calls failed, a repository that is no longer marked has an
    [index.json] object that says what the metadata say; otherwise its mark is
    still there for the next turn. *)
Theorem index_writer_honest
    `{!Crypto, !World, !SerdeJson, !HashIter, !MetadataStore,
      !ObjectStore, !ObjectStoreLaws, !ObjPaths, !ObjPathLaws, !UrlCrate} client s repo g ik :
  (∀ r, is_Some (x_index_dirty s !! r) → repository_name r) →
  x_index_dirty s !! repo = Some g → index_key (c_prefix client) repo = Ok ik →
  let s' := (index_writer_turn client s).1 in
  x_index_dirty s' !! repo = Some g ∨
  (x_index_dirty s' !! repo = None ∧
   contents (x_bucket s') !! obj_path ik =
     Some (to_vec (index_over repo (contents (x_bucket s) !! obj_path ik ≫= from_slice) s))).
Proof.
  intros Hn Hd Hk. unfold index_writer_turn, mbind, M_bind, gets. simpl.
  pose proof (iter_perm (x_index_dirty s)) as Hp.
  assert (Hin : ∀ r, r ∈ (iter (x_index_dirty s)).*1 ↔ is_Some (x_index_dirty s !! r)).
  { intros r. rewrite Hp, list_elem_of_fmap. split.
    - intros ([r' v] & -> & Hv%elem_of_map_to_list). by exists v.
    - intros [v Hv]. exists (r, v). split; [done|]. by apply elem_of_map_to_list. }
  destruct (write_each_spec client (iter (x_index_dirty s)) s) as (_ & Hs & _).
  - rewrite Hp. apply NoDup_fst_map_to_list.
  - apply Forall_forall. intros r Hr. by apply Hn, Hin.
  - specialize (Hs repo ik). rewrite <-Hd. apply Hs; [apply Hn|done|apply Hin]; by eexists.
Qed.

(** ** Witnesses *)

(** A store in memory behind a client for an endpoint of its own. *)
Module ToyS3.
Import ToyServer ToyRegistry.
#[export] Existing Instances toy_world Toy.toy_crypto Toy.toy_laws ToyLog.toy_json ToyStore.state_store
  ToyStore.state_store_laws map_order toy_url ToyObjects.toy_objects ToyObjects.toy_objects_laws
  ToyPaths.toy_paths ToyPaths.toy_path_laws.

(** A URL is what follows the scheme. *)
#[export] Instance toy_urls : UrlCrate := {|
  url := string;
  url_parse s := strip_prefix "https://" s;
  url_scheme _ := "https";
  url_host_str u := match split_once "/" u with Some (h, _) => Some h | None => Some u end;
  url_text u := "https://" +:+ u;
  to_lowercase := to_ascii_lowercase;
|}.

Definition config (min_size : Z) : S3Config := {|
  s3_bucket := "b"; s3_region := "r"; s3_endpoint := Some "https://store.example.com"; s3_prefix := "data";
  access_key_id := None; secret_access_key_file := None; allow_http := false; redirect_min_size := min_size;
  redirect_ttl_secs := 60; multipart_part_size := 4; multipart_concurrency := 1; create_bucket := true; s3_ca_file := None |}.
Definition sign (method path : string) (ttl : Z) : result string url := Ok ("store.example.com/b/" +:+ path).
(** The service never comes up. *)
Definition http : BucketHttp := {| http_put _ := Ok tt; http_execute _ b := (b, Ok 503%Z) |}.
Definition client (min_size : Z) : S3Client := client_from_config (config min_size) sign http.
Definition age (_ : Fs) (_ : path) : Z := 0.

Definition empty_s3 : S3Store :=
  mkS3 (mkFs ∅ 1 0) (ToyObjects.mkObjects ∅ []) (∅ : State) (gc_new true 0)
    (quota_new {| max_repo_bytes := 0; max_total_bytes := 0; max_upload_sessions := 0 |}) (dedupe_new true) ∅ ∅ ∅ ∅ None false.

Definition content : bytes := as_bytes "hello, world".
Definition d : Digest := digest_of content "sha256".
Definition stored : S3Store := s3_step (client 0) age (SPutBlob "a" d content) empty_s3.
Definition get_blob : Request := mkReq GET "" {["range" := HvText "bytes=7-"]} Anonymous [].
Definition blob_path : string := "a/blobs/" +:+ Digest_fmt d.
Definition serve (rest : string) (req : Request) (s : S3Store) : S3Store * result Failure Response :=
  s3_dispatch (client 0) app rest req s.

Lemma toy_http n : http_views (client n).
Proof. intros h u [= <-] b. done. Qed.
Lemma toy_d_wf : digest_wf d.
Proof. apply digest_of_wf. Qed.
Lemma a_name : repository_name "a".
Proof. apply (proj1 (is_repo_prefix_spec "a")). by vm_compute. Qed.
Lemma empty_inv : s3_inv empty_s3.
Proof. intros k x c _ Hc. simpl in Hc. by rewrite lookup_empty in Hc. Qed.
End ToyS3.

Import ToyS3.

Lemma s3_registry_answers_witness :
  ∃ s' resp, serve blob_path get_blob stored = (s', Ok resp) ∧ resp_status resp = 206%Z ∧
    resp_body resp = BStream [Ok (as_bytes "world")] ∧ blob_response d (req_headers get_blob) resp.
Proof.
  destruct (serve blob_path get_blob stored) as [s' r] eqn:E.
  assert (Hs : (serve blob_path get_blob stored).2 = r) by by rewrite E.
  vm_compute in Hs. subst r. do 2 eexists. split; [reflexivity|]. split; [reflexivity|]. split; [reflexivity|].
  refine (s3_registry_answers (client 0) eq_refl age ToyRegistry.app stored blob_path get_blob (PBlob "a" d) s' _
    (toy_http 0) _ _ _ E).
  - by split.
  - apply s3_serving_work; [apply s3_serving_open, empty_inv|]. split; [apply toy_d_wf|by vm_compute].
  - vm_compute. reflexivity.
Defined.

Lemma s3_redirect_confined_witness :
  ∃ b, (s3_open_blob (client 8) "a" d stored).2 = Ok b ∧ redirect_url b ≠ None ∧
    is_internal_host "store.example.com" = false.
Proof.
  destruct (s3_open_blob (client 8) "a" d stored).2 as [b|e] eqn:E; [|vm_compute in E; discriminate].
  exists b. split; [done|]. assert (Hu : is_Some (redirect_url b)) by (vm_compute in E; injection E as <-; by eexists).
  destruct Hu as [t Ht]. split; [by rewrite Ht|].
  destruct (s3_redirect_confined (config 8) sign http "a" d stored b t E Ht) as (key & u & host & Hk & Hs & _ & Hh & _ & Hi & _).
  injection Hs as <-. vm_compute in Hh. injection Hh as <-. exact Hi.
Defined.

Lemma s3_blob_survives_witness :
  held (client 0) stored "a" d ∧ held (client 0) (s3_step (client 0) age (SSweep 4) stored) "a" d.
Proof.
  assert (Hh : held (client 0) stored "a" d).
  { eexists. split; [vm_compute; reflexivity|]. eexists. vm_compute. reflexivity. }
  split; [exact Hh|].
  destruct (s3_blob_survives (client 0) age stored (SSweep 4) "a" d (toy_http 0) a_name toy_d_wf) as [Hs|[[=]|[[=]|(depth & r & g & _ & Hr & _)]]].
  - intros r x [[=]|[=]].
  - exact Hh.
  - exact Hs.
  - exfalso. revert Hr. vm_compute. discriminate.
Defined.

Lemma create_bucket_bounded_witness :
  (ensure_bucket_within (client 0) 16 0 (λ i, Z.of_nat i * 5000000000)%Z CREATE_BUCKET_DEADLINE empty_s3).2 =
    Err (Unavailable "create_bucket failed: HTTP 503") ∧
  (ensure_bucket_within (client 0) 16 0 (λ i, Z.of_nat i * 5000000000)%Z CREATE_BUCKET_DEADLINE empty_s3).2 ≠ Ok None.
Proof.
  split; [by vm_compute|]. apply create_bucket_bounded; [lia|]. intros i.
  assert (Hd : (delay_at i ≤ 5000000000)%Z).
  { destruct i; unfold delay_at; simpl; unfold FIRST_DELAY, next_delay, MAX_DELAY; lia. }
  lia.
Defined.

(** A pushed manifest marks its index; the turn writes it. *)
Definition tagged : S3Store := s3_step (client 0) age
  (SPutManifest "a" (Some "v1") d "application/json" content {| references := []; required := []; link_subject := None |}) empty_s3.

Lemma index_writer_honest_witness :
  x_index_dirty tagged !! "a" = Some 1%Z ∧ x_index_dirty (index_writer_turn (client 0) tagged).1 !! "a" = None ∧
  is_Some (contents (x_bucket (index_writer_turn (client 0) tagged).1) !! "data/a/index.json").
Proof.
  assert (Hd : x_index_dirty tagged !! "a" = Some 1%Z) by (by vm_compute).
  assert (Hn : x_index_dirty (index_writer_turn (client 0) tagged).1 !! "a" = None) by (by vm_compute).
  split; [exact Hd|]. split; [exact Hn|].
  destruct (index_writer_honest (client 0) tagged "a" 1 "data/a/index.json") as [Hs|[_ Hs]].
  - intros r Hr. assert (Hi : r ∈ (map_to_list (x_index_dirty tagged)).*1).
    { destruct Hr as [v Hv]. apply list_elem_of_fmap. exists (r, v). split; [done|]. by apply elem_of_map_to_list. }
    vm_compute in Hi. apply list_elem_of_singleton in Hi as ->. apply a_name.
  - exact Hd.
  - by vm_compute.
  - congruence.
  - assert (Hp : obj_path "data/a/index.json" = "data/a/index.json") by (by vm_compute). rewrite Hp in Hs. by eexists.
Defined.
