(* ===== verification/FastRestart.v ===== *)
(** The fast-restart stamp (fs_storage/fast_restart.rs): the derived state is
    written at a graceful shutdown and read, once, at the next start instead of
    walking the store; with [with_config] of fs_storage/mod.rs, which decides
    between the two, and [on_shutdown] of fs_storage/maintenance.rs. *)

From S2P Require Import StorageApi Prelude RustStr Json Errors Digest Paths Quota Metadata MetaLog.
From S2P Require Import MetaStore SmallCache Effect FileSys FileSysFacts Walk Layout Lifecycle.
From S2P Require Import UploadBody FsStorage FsInvariant Startup.

Definition STAMP_FILE : string := ".roci-fast-restart".
Definition FORMAT_VERSION : Z := 1.

Record Stamp := mkStamp {
  format_version : Z;
  binary_version : string;
  stamp_config_hash : string;
  metadata_generation : Z;
  metadata_log_len : Z;
  st_presence : list (string * string);
  st_dedupe : list (string * string);
  quota_per_repo : list (string * Z);
  quota_sessions : Z;
  gc_candidates : list (string * string);
  gc_roots : list (string * string);
  gc_unsafe_repos : list string;
}.

(** What serde derives for [Stamp], on serde_json. *)
Class StampSerde := {
  stamp_to_vec : Stamp → bytes;
  stamp_from_slice : bytes → result string Stamp;
}.

Class StampSerdeLaws `{StampSerde} : Prop := {
  stamp_from_to s : stamp_from_slice (stamp_to_vec s) = Ok s;
}.

Inductive StampReject :=
  | RAbsent
  | RIo (e : io_error)
  | RIntegrity (reason : string)
  | RFormatVersion (got expected : Z)
  | RBinaryVersion (got expected : string)
  | RConfigMismatch
  | RParse (e : string)
  | RConsumed (e : io_error).

Section Wire.
Context `{Crypto, Hmac}.

(** The 32 bytes after the body: a tag, or the checksum padded with zeros. *)
Definition integrity (body : bytes) (key : option bytes) : bytes :=
  match key with
  | Some k => hmac_tag k body
  | None => to_le_bytes 4 (crc32c body) ++ replicate 28 "000"%char
  end.

Definition wrap (body : bytes) (key : option bytes) : bytes :=
  to_le_bytes 4 (blen body `mod` 2 ^ 32) ++ body ++ integrity body key.

Definition unwrap (data : bytes) (key : option bytes) : result string bytes :=
  if decide (length data < 4 + 32) then Err "stamp too small" else
  let body_len := Z.to_nat (from_le_bytes (take 4 data)) in
  if negb (bool_decide (length data = 4 + body_len + 32)) then Err "stamp length mismatch" else
  let body := take body_len (drop 4 data) in
  let stored := drop (4 + body_len) data in
  match key with
  | Some k => if hmac_verify k body stored then Ok body else Err "HMAC verification failed"
  | None =>
      if bool_decide (stored = to_le_bytes 4 (crc32c body) ++ replicate 28 "000"%char) then Ok body
      else Err "CRC32C verification failed"
  end.

(** [text] is the configuration as TOML with [fast_restart] off. *)
Definition config_hash (text : string) : string := hex_encode (sha256 (as_bytes text)).
End Wire.

Section FastRestart.
Context `{!Crypto, !Hmac, !World, !SerdeJson, !HashIter, !MetadataStore, !Lru, !Cuckoo, !StampSerde}.

Abbreviation io := (M Fs io_error).

(** The version of the program, the configuration text, the key, and the
    generation and length of the metadata log. *)
Record Instance_ := mkInstance {
  BINARY_VERSION : string;
  config_text : string;
  stamp_key : option bytes;
  generation : Z;
  log_len : Z;
}.

Definition stamp_path : path := [STAMP_FILE].
Definition stamp_tmp : path := [STAMP_FILE +:+ ".tmp"].

(** [std::fs::read]; what is not a regular file is not read. *)
Definition read_file (p : path) : M Fs errno bytes :=
  n ← statat p;
  match n with
  | Reg _ c => syscall (mret c)
  | Dir => throw EISDIR
  | Special => throw ENOTDIR
  end.

(** [File::create]: empty, new or truncated. *)
Definition create_trunc (p : path) : M Fs errno () := syscall $
  n ← gets (λ f, node_at f p);
  match n with
  | Some (Reg i _) => modify (on_files <[p := Reg i []]>)
  | Some Dir => throw EISDIR
  | Some Special => throw ENOTDIR
  | None => modify (λ f, mkFs (<[p := Reg (next_ino f) []]> (files f)) (next_ino f + 1)%Z (ticks f))
  end.

(** The synchronisation of the parent directory. *)
Definition sync_parent : M Fs errno () := syscall (mret tt);; fsync.

Definition write_atomic (data : bytes) : io () := io_err (
  create_trunc stamp_tmp;;
  write_all stamp_tmp data;;
  fsync;;
  rename_replace stamp_tmp stamp_path;;
  sync_parent).

Definition consume_stamp : M Fs errno () := unlinkat stamp_path;; sync_parent.

Definition check_stamp (x : Instance_) (stamp : Stamp) : result StampReject Stamp :=
  if negb (format_version stamp =? FORMAT_VERSION)%Z then Err (RFormatVersion (format_version stamp) FORMAT_VERSION)
  else if negb (bool_decide (binary_version stamp = BINARY_VERSION x)) 
  then Err (RBinaryVersion (binary_version stamp) (BINARY_VERSION x))
  else if negb (bool_decide (stamp_config_hash stamp = config_hash (config_text x))) then Err RConfigMismatch
  else if negb (metadata_generation stamp =? generation x)%Z || negb (metadata_log_len stamp =? log_len x)%Z
  then Err RConfigMismatch
  else Ok stamp.

Definition try_consume_stamp (x : Instance_) : M Fs StampReject Stamp :=
  r ← attempt (read_file stamp_path);
  match r with
  | Err ENOENT => throw RAbsent
  | Err e => throw (RIo (io_of_errno e))
  | Ok data =>
      c ← attempt consume_stamp;
      match c with
      | Err e => throw (RConsumed (io_of_errno e))
      | Ok _ =>
          match unwrap data (stamp_key x) with
          | Err reason => throw (RIntegrity reason)
          | Ok body =>
              match stamp_from_slice body with
              | Err e => throw (RParse e)
              | Ok stamp => of_result (check_stamp x stamp)
              end
          end
      end
  end.

(** The stamp of a store; [entries] is what the walk finds. *)
Definition stamp_of (x : Instance_) (s : Store) (entries : list cas_entry) : Stamp := {|
  format_version := FORMAT_VERSION;
  binary_version := BINARY_VERSION x;
  stamp_config_hash := config_hash (config_text x);
  metadata_generation := generation x;
  metadata_log_len := log_len x;
  st_presence := (λ e, (ce_repo e, Digest_fmt (ce_digest e))) <$> entries;
  st_dedupe := dedupe_entries (dedupe s);
  quota_per_repo := per_repo_bytes (quota s);
  quota_sessions := sessions (quota s);
  gc_candidates := candidate_keys (gc s);
  gc_roots := root_keys (gc s);
  gc_unsafe_repos := unsafe_repo_names (gc s);
|}.

(** [on_shutdown] when [fast_restart] is on. *)
Definition write_fast_restart_stamp (x : Instance_) : M Store io_error () :=
  entries ← mapping_err io_of_errno (on_fs for_each_cas_blob);
  s ← gets id;
  on_fs (write_atomic (wrap (stamp_to_vec (stamp_of x s entries)) (stamp_key x))).

Definition apply_stamp (stamp : Stamp) (s : Store) : Store :=
  let p := foldl (λ p k, filter_insert p k.1 k.2) (presence s) (st_presence stamp) in
  let x := foldl (λ x k, dedupe_insert x k.2 k.1) (dedupe s) (st_dedupe stamp) in
  let q := foldl (λ q k, seed q k.1 k.2) (quota s) (quota_per_repo stamp) in
  let q := seed_sessions q (quota_sessions stamp) in
  let g := foldl (λ g k, mark_at g k.1 k.2 (now s)) (gc s) (gc_candidates stamp) in
  let g := foldl (λ g k, add_root g k.1 k.2) g (gc_roots stamp) in
  let g := foldl mark_unsafe g (gc_unsafe_repos stamp) in
  let g := if gc_enabled g then set_ready g else g in
  set_gc g (set_quota q (set_dedupe x (set_presence p s))).

(** [with_config] once the metadata engine is open. *)
Definition with_config (fast_restart : bool) (x : Instance_) (cfg : FsConfig) (m : mstore) (f : Fs) (q : Quota) : Store :=
  let s := bare_store cfg m f q in
  if fast_restart then
    match try_consume_stamp x f with
    | (f', Ok stamp) => apply_stamp stamp (set_fs f' s)
    | (f', Err _) => (seed_from_cas (set_fs f' s)).1
    end
  else (seed_from_cas s).1.
End FastRestart.
