(* ===== verification/FastRestartFacts.v ===== *)
(** The stamp is accepted exactly as written, used at most once, and a store
    restarted from it serves what the walk would have found. *)

From S2P Require Import StorageApi Prelude RustStr Json Errors Names Digest Paths Quota Metadata MetaLog.
From S2P Require Import MetaStore SmallCache Effect FileSys FileSysFacts Walk Layout Lifecycle.
From S2P Require Import UploadBody FsStorage FsInvariant FsRun Startup StartupFacts Scrub ScrubFacts FastRestart.

Lemma from_le_bytes_range l : (0 ≤ from_le_bytes l < 256 ^ Z.of_nat (length l))%Z.
Proof.
  induction l as [|b l IH]; cbn [from_le_bytes length]; [lia|]. pose proof (u8_range b).
  rewrite Nat2Z.inj_succ, Z.pow_succ_r by lia. lia.
Qed.

Lemma to_from_le_bytes n l : length l = n → to_le_bytes n (from_le_bytes l) = l.
Proof.
  intros <-. induction l as [|b l IH]; [done|]. cbn [from_le_bytes length to_le_bytes]. pose proof (u8_range b).
  f_equal.
  - rewrite Z.mul_comm, Z.mod_add, Z.mod_small by lia. unfold u8. rewrite N2Z.id. apply ascii_N_embedding.
  - rewrite Z.mul_comm, Z.div_add, Z.div_small, Z.add_0_l by lia. exact IH.
Qed.

Section Wire.
Context `{!Crypto, !CryptoLaws, !Hmac, !HmacLaws}.

Lemma integrity_length body key : length (integrity body key) = 32.
Proof.
  unfold integrity. destruct key; [apply hmac_tag_length|].
  by rewrite length_app, to_le_bytes_length, length_replicate.
Qed.

(** The stamp on disk: the wrapping is accepted exactly when it is the
    wrapping of the body it yields, under the same key (or with the right
    checksum when there is none), so that no other bytes are; and every body of
    less than 4 GiB survives the round trip. *)
Theorem stamp_integrity data key body :
  unwrap data key = Ok body ↔ data = wrap body key ∧ (blen body < 2 ^ 32)%Z.
Proof.
  unfold unwrap, wrap, blen. split.
  - case_decide as Hlen; [done|]. apply Nat.nlt_ge in Hlen.
    set (n := Z.to_nat (from_le_bytes (take 4 data))). case_bool_decide as Hn; [|done]. cbn [negb].
    pose proof (from_le_bytes_range (take 4 data)) as Hr. rewrite length_take_le in Hr by lia. change (256 ^ Z.of_nat 4)%Z with (2 ^ 32)%Z in Hr.
    intros Hb. assert (body = take n (drop 4 data) ∧ drop (4 + n) data = integrity body key) as [-> Hi].
    { unfold integrity. destruct key as [k|].
      - destruct (hmac_verify _ _ _) eqn:Hv; [|done]. injection Hb as <-. split; [done|]. by apply hmac_verify_tag.
      - case_bool_decide as Hs; [|done]. injection Hb as <-. done. }
    assert (Hl : length (take n (drop 4 data)) = n) by (rewrite length_take, length_drop; lia).
    rewrite Hl. split; [|lia]. rewrite Z.mod_small by lia. rewrite <-Hi. unfold n at 1. rewrite Z2Nat.id by lia.
    rewrite to_from_le_bytes by (rewrite length_take; lia).
    rewrite <-drop_drop, (take_drop n). by rewrite take_drop.
  - intros [-> Hb]. rewrite Z.mod_small by lia.
    set (l4 := to_le_bytes 4 _). assert (Hl4 : length l4 = 4) by apply to_le_bytes_length.
    pose proof (integrity_length body key) as Hi. rewrite !length_app, Hl4, Hi.
    rewrite decide_False by lia. rewrite take_app_length' by done.
    assert (Hn : Z.to_nat (from_le_bytes l4) = length body).
    { unfold l4. rewrite from_to_le_bytes by (simpl; lia). apply Nat2Z.id. }
    rewrite !Hn, bool_decide_eq_true_2 by lia. cbn [negb].
    rewrite drop_app_length' by done. rewrite !take_app_length.
    rewrite <-drop_drop, drop_app_length' by done. rewrite drop_app_length. unfold integrity in *. destruct key as [k|].
    + by rewrite (proj2 (hmac_verify_tag k body _)).
    + by rewrite bool_decide_eq_true_2.
Qed.
End Wire.

Section Facts.
Context `{!Crypto, !CryptoLaws, !Hmac, !HmacLaws, !World, !SerdeJson, !HashIter, !MetadataStore, !Lru, !Cuckoo}.
Context `{!StampSerde}.

(** ** Used at most once *)

Lemma read_file_spec p f :
  p ≠ [] → files (read_file p f).1 = files f ∧
  ∀ data, (read_file p f).2 = Ok data → ∃ i, files f !! p = Some (Reg i data).
Proof.
  intros Hp. unfold read_file, statat, syscall, tick, mbind, M_bind, gets, throw. simpl.
  destruct (fault _); simpl; [done|]. destruct p as [|a p]; [done|]. simpl.
  destruct (files f !! (a :: p)) as [[|i c|]|]; simpl; try done.
  destruct (fault _); simpl; [done|]. split; [done|]. intros data [= <-]. eauto.
Qed.

Lemma consume_stamp_spec f :
  (consume_stamp f).2 = Ok tt → files (consume_stamp f).1 = delete stamp_path (files f).
Proof.
  unfold consume_stamp, unlinkat, sync_parent, fsync, syscall, tick, mbind, M_bind, gets, throw, modify. simpl.
  destruct (fault _); simpl; [done|]. destruct (files f !! stamp_path) as [[]|]; simpl; try done;
    (destruct (fault _); simpl; [done|]; destruct (fault _); simpl; done).
Qed.

Lemma check_stamp_ok x stamp stamp' :
  check_stamp x stamp = Ok stamp' ↔
  stamp' = stamp ∧ format_version stamp = FORMAT_VERSION ∧ binary_version stamp = BINARY_VERSION x ∧
  stamp_config_hash stamp = config_hash (config_text x) ∧
  metadata_generation stamp = generation x ∧ metadata_log_len stamp = log_len x.
Proof.
  unfold check_stamp. destruct (Z.eqb_spec (format_version stamp) FORMAT_VERSION); simpl; [|naive_solver].
  case_bool_decide; simpl; [|naive_solver]. case_bool_decide; simpl; [|naive_solver].
  destruct (Z.eqb_spec (metadata_generation stamp) (generation x)), (Z.eqb_spec (metadata_log_len stamp) (log_len x));
    simpl; naive_solver.
Qed.

(** A stamp is used at most once and only when it is right. Whatever calls
    fail: when a start accepts a stamp, the stamp file held the wrapping of that
    stamp, its versions, configuration hash, generation and log length are those
    of this start, the file is gone, nothing else changed, and no further start
    accepts a stamp until another one is written. *)
Theorem stamp_used_once x f stamp :
  (try_consume_stamp x f).2 = Ok stamp →
  let f' := (try_consume_stamp x f).1 in
  (∃ i body, files f !! stamp_path = Some (Reg i (wrap body (stamp_key x))) ∧ stamp_from_slice body = Ok stamp) ∧
  (format_version stamp = FORMAT_VERSION ∧ binary_version stamp = BINARY_VERSION x ∧
   stamp_config_hash stamp = config_hash (config_text x) ∧
   metadata_generation stamp = generation x ∧ metadata_log_len stamp = log_len x) ∧
  files f' = delete stamp_path (files f) ∧
  ∀ x' stamp', (try_consume_stamp x' f').2 ≠ Ok stamp'.
Proof.
  intros Hok f'. assert (Hmain : (∃ i body, files f !! stamp_path = Some (Reg i (wrap body (stamp_key x))) ∧
      stamp_from_slice body = Ok stamp ∧ check_stamp x stamp = Ok stamp) ∧ files f' = delete stamp_path (files f)).
  { revert Hok. unfold f', try_consume_stamp, mbind, M_bind. rewrite attempt_eq.
    destruct (read_file_spec stamp_path f ltac:(done)) as [R1 R2].
    destruct (read_file stamp_path f) as [f1 [data|e]]; simpl in *; [|by destruct e].
    destruct (R2 data eq_refl) as [i Hi]. rewrite attempt_eq. pose proof (consume_stamp_spec f1) as Hc.
    destruct (consume_stamp f1) as [f2 [[]|e]]; simpl in *; [|done]. specialize (Hc eq_refl).
    destruct (unwrap data (stamp_key x)) as [body|] eqn:Hu; simpl; [|done].
    destruct (stamp_from_slice body) as [st|] eqn:Hs; simpl; [|done]. intros Hck. pose proof Hck as [<- _]%check_stamp_ok.
    apply stamp_integrity in Hu as [-> _]. split; [by eauto 10|]. by rewrite Hc, R1. }
  destruct Hmain as [(i & body & Hf & Hs & Hck) Hdel]. apply check_stamp_ok in Hck as (_ & Hck).
  split_and!; [by eauto|by apply Hck..|done|]. intros x' stamp'. unfold try_consume_stamp, mbind, M_bind. rewrite attempt_eq.
  destruct (read_file_spec stamp_path f' ltac:(done)) as [R1 R2].
  destruct (read_file stamp_path f') as [f1 [data|e]]; simpl in *; [|by destruct e].
  destruct (R2 data eq_refl) as [j Hj]. by rewrite Hdel, lookup_delete_eq in Hj.
Qed.

(** ** Restarting *)

Context `{!CuckooLaws, !StampSerdeLaws}.
Hypothesis calm_world : ∀ n, fault n = None.

Lemma write_atomic_calm data f :
  files f !! stamp_tmp = None → files f !! stamp_path = None →
  ∃ f' i, write_atomic data f = (f', Ok tt) ∧ files f' = <[stamp_path := Reg i data]> (files f).
Proof.
  intros Ht Hp. unfold write_atomic, io_err, mapping_err, create_trunc, rename_replace, sync_parent, fsync, write_all.
  unfold mbind, M_bind. rewrite syscall_calm by done. unfold gets at 1, node_at at 1. simpl. rewrite Ht.
  unfold modify, tick. simpl. rewrite calm_world. simpl. unfold append_at. simpl. rewrite lookup_insert_eq. simpl.
  rewrite !syscall_calm by done. simpl. rewrite syscall_calm by done. unfold gets, node_at. simpl.
  rewrite insert_insert_eq, lookup_insert_eq, lookup_insert_ne, Hp by done. simpl.
  rewrite !syscall_calm by done. simpl. rewrite syscall_calm by done. simpl.
  eexists _, _. split; [done|]. simpl. rewrite delete_insert_id by done. done.
Qed.

Lemma try_consume_calm x f i stamp :
  files f !! stamp_path = Some (Reg i (wrap (stamp_to_vec stamp) (stamp_key x))) →
  (blen (stamp_to_vec stamp) < 2 ^ 32)%Z → check_stamp x stamp = Ok stamp →
  ∃ f', try_consume_stamp x f = (f', Ok stamp) ∧ files f' = delete stamp_path (files f).
Proof.
  intros Hf Hb Hck. unfold try_consume_stamp, mbind, M_bind. rewrite attempt_eq. unfold read_file, statat, mbind, M_bind.
  rewrite syscall_calm by done. unfold gets, node_at. simpl. rewrite Hf. simpl. rewrite syscall_calm by done. simpl.
  rewrite attempt_eq. unfold consume_stamp, unlinkat, sync_parent, fsync, mbind, M_bind. rewrite syscall_calm by done.
  unfold gets, modify, node_at. simpl. rewrite Hf. simpl. rewrite syscall_calm by done. simpl. rewrite syscall_calm by done. simpl.
  rewrite (proj2 (stamp_integrity _ (stamp_key x) (stamp_to_vec stamp))) by done. rewrite stamp_from_to. simpl.
  rewrite Hck. by eexists.
Qed.

Lemma stamp_of_checks x s es : check_stamp x (stamp_of x s es) = Ok (stamp_of x s es).
Proof. by apply check_stamp_ok. Qed.

Lemma filter_ok_fold (l : list (string * string)) f k :
  filter_ok f k →
  filter_ok (foldl (λ p k, filter_insert p k.1 k.2) f l) (reverse ((λ e, cache_key e.1 e.2) <$> l) ++ k).
Proof.
  revert f k. induction l as [|e l IH]; intros f k Hf; simpl; [done|].
  rewrite reverse_cons, <-app_assoc. apply IH. by apply filter_ok_insert.
Qed.

End Facts.

(** ** On concrete stores *)

Import ToyServer ToyStart.

Module ToyStamp.
#[export] Existing Instances ToyLog.toy_hmac ToyLog.toy_hmac_laws.

Abbreviation fields := (Z * string * string * Z * Z * list (string * string) * list (string * string) *
  list (string * Z) * Z * list (string * string) * list (string * string) * list string)%type.

Definition to_fields (s : Stamp) : fields :=
  (format_version s, binary_version s, stamp_config_hash s, metadata_generation s, metadata_log_len s, st_presence s,
   st_dedupe s, quota_per_repo s, quota_sessions s, gc_candidates s, gc_roots s, gc_unsafe_repos s).
Definition of_fields (t : fields) : Stamp :=
  let '(a, b, c, e, f, g, h, i, j, k, l, n) := t in mkStamp a b c e f g h i j k l n.

#[export] Instance toy_stamp : StampSerde := {|
  stamp_to_vec s := ToyLog.bits (encode (to_fields s));
  stamp_from_slice b := match decode (ToyLog.of_bits b) with Some t => Ok (of_fields t) | None => Err "" end;
|}.

#[export] Instance toy_stamp_laws : StampSerdeLaws.
Proof. split. intros []. simpl. rewrite ToyLog.of_bits_bits, decode_encode. done. Qed.

Definition x : Instance_ := mkInstance "0.1.0" "gc = true" (Some content) 3 100.
Definition limits : QuotaLimits := {| max_repo_bytes := 1000; max_total_bytes := 1000; max_upload_sessions := 1 |}.

(** A shutdown of [s], and a start from what it left, with the quota [q]. *)
Definition shutdown (s : Store) : Store := (write_fast_restart_stamp x s).1.
Definition start (fast : bool) (s : Store) (q : Quota) : Store := with_config fast x cfg (meta s) (fs (shutdown s)) q.

Definition tracked_store : Store := set_quota (quota_new limits) empty_store.
Definition tracked_run (ops : list op) : Store := foldl (λ s o, step o s) tracked_store ops.
End ToyStamp.
Import ToyStamp.

Lemma stamp_used_once_witness :
  let f := fs (shutdown (run pushed)) in
  is_ok (try_consume_stamp x f).2 = true ∧ ∀ stamp', (try_consume_stamp x (try_consume_stamp x f).1).2 ≠ Ok stamp'.
Proof.
  intros f. destruct (try_consume_stamp x f).2 as [stamp|e] eqn:E.
  - split; [reflexivity|]. destruct (stamp_used_once x f stamp E) as (_ & _ & _ & Hn). intros stamp'. apply Hn.
  - exfalso. vm_compute in E. discriminate E.
Defined.


(** What a fast restart does not restore. (1) The stamp holds the number of
    sessions, those without a staging file included, although they end with the
    process: the next start counts a session that nobody can finish, and with a
    limit of one no upload can begin, while a walking start counts none. (2) The
    usage of the whole quota, which the backends of one registry share, is in the
    stamp of each backend: after a restart of two of them it counts twice. (3)
    The collector is ready after a fast restart even when the consistency check
    had not run before the shutdown, so it never runs. *)
Theorem fast_restart_drift :
  (let s := tracked_run [OBeginUpload "a"] in
   let fast := start true s (quota_new limits) in
   sessions (quota fast) = 1%Z ∧ pending_uploads fast = ∅ ∧ is_ok (begin_upload "a" fast).2 = false ∧
   sessions (quota (start false s (quota_new limits))) = 0%Z) ∧
  (let s1 := tracked_run pushed in let s2 := set_quota (quota s1) tracked_store in
   let q := quota (start true s2 (quota (start true s1 (quota_new limits)))) in
   repo_bytes (quota s1) "a" = 12%Z ∧ repo_bytes q "a" = 24%Z ∧ Quota.total q = 24%Z) ∧
  (let s := tracked_run pushed in is_ready (gc s) = false ∧ is_ready (gc (start true s (quota_new limits))) = true).
Proof. split_and!; vm_compute; split_and!; reflexivity. Qed.
