(* ===== verification/Backends.v ===== *)
(** The storage of a running registry (roci-cli/src/lib.rs): the backends it can
    be built from ([AnyBackend]), the routing table over them, which share one
    quota, and how a configuration becomes such a table ([build_storage]). *)

From S2P Require Import Config NetAddr Triple Registry Routing FastRestart Startup.
From S2P Require Import StorageApi Prelude RustStr Json Errors Names Digest HttpUtil Policy Auth Routes Paths Quota.
From S2P Require Import Metadata MetaLog MetaStore SmallCache Effect FileSys FileSysFacts Walk Layout Lifecycle UploadBody.
From S2P Require Import FsStorage FsInvariant FsSessions FsBackend FsRun StartupFacts Scrub ScrubFacts FastRestartFacts.
From S2P Require Import Manifests Handlers HandlersFacts ObjectStore S3Storage S3Keys S3Facts S3Backend S3Recover S3Run S3Registry.

Section Backends.
Context `{!Crypto, !World, !SerdeJson, !HashIter, !MetadataStore, !Lru, !Cuckoo}.
Context `{!ObjectStore, !ObjPaths, !UrlCrate}.

(** ** One backend *)

Inductive AnyBackend := AFs (s : Store) | AS3 (client : S3Client) (s : S3Store).

(** [delegate_storage!] *)
Definition delegate {A} (on_fs : M Store StorageError A) (on_s3 : S3Client → M S3Store StorageError A)
    : M AnyBackend StorageError A := λ b,
  match b with
  | AFs s => let '(s, r) := on_fs s in (AFs s, r)
  | AS3 c s => let '(s, r) := on_s3 c s in (AS3 c s, r)
  end.

Definition any_storage : Storage := {|
  sto := AnyBackend;
  s_blob_size repo d := delegate (blob_size repo d) (λ c, s3_blob_size c repo d);
  s_blob_exists repo d := delegate (blob_exists repo d) (λ c, s3_blob_exists c repo d);
  s_read_blob repo d := delegate (read_blob repo d) (λ c, s3_read_blob c repo d);
  s_open_blob repo d := delegate (open_blob_read repo d) (λ c, s3_open_blob c repo d);
  s_begin_upload repo := delegate (begin_upload repo) (λ c, s3_begin_upload repo);
  s_append_upload repo id body off limit :=
    delegate (append_upload repo id body off limit) (λ c, s3_append_upload repo id body off limit);
  s_upload_size repo id := delegate (upload_size repo id) (λ c, s3_upload_size repo id);
  s_abort_upload repo id := delegate (abort_upload repo id) (λ c, s3_abort_upload repo id);
  s_mount_blob from to d := delegate (mount_blob from to d) (λ c, s3_mount_blob c from to d);
  s_finish_upload repo id d max body limit :=
    delegate (finish_upload repo id d max body limit) (λ c, s3_finish_upload c repo id d max body limit);
  s_put_blob repo d data := delegate (put_blob repo d data) (λ c, s3_put_blob c repo d data);
  s_delete_blob repo d := delegate (delete_blob repo d) (λ c, s3_delete_blob c repo d);
  s_put_manifest repo tag d mt data links :=
    delegate (put_manifest repo tag d mt data links) (λ c, s3_put_manifest c repo tag d mt data links);
  s_get_manifest repo reference := delegate (get_manifest repo reference) (λ c, s3_get_manifest c repo reference);
  s_delete_manifest repo d := delegate (delete_manifest repo d) (λ c, s3_delete_manifest c repo d);
  s_list_tags repo last limit := delegate (list_tags repo last limit) (λ c, s3_list_tags c repo last limit);
  s_list_referrers repo d at_ last limit :=
    delegate (list_referrers repo d at_ last limit) (λ c, s3_list_referrers c repo d at_ last limit);
|}.

(** ** The table, with the quota its backends share *)

Definition quota_of (b : AnyBackend) : Quota := match b with AFs s => FsStorage.quota s | AS3 _ s => x_quota s end.
Definition with_quota (q : Quota) (b : AnyBackend) : AnyBackend :=
  match b with AFs s => AFs (set_quota q s) | AS3 c s => AS3 c (put_quota q s) end.

Record Deployment := mkDeployment { dep_quota : Quota; dep_table : Routed AnyBackend }.

(** A backend works on the shared quota: it finds what the others left, and
    leaves what the next one finds. *)
Definition shared {A} (repo : string) (m : M AnyBackend StorageError A) : M Deployment StorageError A := λ d,
  let '(b, a) := m (with_quota (dep_quota d) (backend_for (dep_table d) repo)) in
  (mkDeployment (quota_of b) (set_backend repo b (dep_table d)), a).

Definition shared_mount (from_repo to_repo : string) (digest : Digest) : M Deployment StorageError bool := λ d,
  if negb (same_backend (dep_table d) from_repo to_repo) then (d, Ok false)
  else shared to_repo (s_mount_blob (Storage := any_storage) from_repo to_repo digest) d.

Definition deployment_storage : Storage := {|
  sto := Deployment;
  s_blob_size repo d := shared repo (s_blob_size (Storage := any_storage) repo d);
  s_blob_exists repo d := shared repo (s_blob_exists (Storage := any_storage) repo d);
  s_read_blob repo d := shared repo (s_read_blob (Storage := any_storage) repo d);
  s_open_blob repo d := shared repo (s_open_blob (Storage := any_storage) repo d);
  s_begin_upload repo := shared repo (s_begin_upload (Storage := any_storage) repo);
  s_append_upload repo id body off limit := shared repo (s_append_upload (Storage := any_storage) repo id body off limit);
  s_upload_size repo id := shared repo (s_upload_size (Storage := any_storage) repo id);
  s_abort_upload repo id := shared repo (s_abort_upload (Storage := any_storage) repo id);
  s_mount_blob := shared_mount;
  s_finish_upload repo id d max body limit := shared repo (s_finish_upload (Storage := any_storage) repo id d max body limit);
  s_put_blob repo d data := shared repo (s_put_blob (Storage := any_storage) repo d data);
  s_delete_blob repo d := shared repo (s_delete_blob (Storage := any_storage) repo d);
  s_put_manifest repo tag d mt data links := shared repo (s_put_manifest (Storage := any_storage) repo tag d mt data links);
  s_get_manifest repo reference := shared repo (s_get_manifest (Storage := any_storage) repo reference);
  s_delete_manifest repo d := shared repo (s_delete_manifest (Storage := any_storage) repo d);
  s_list_tags repo last limit := shared repo (s_list_tags (Storage := any_storage) repo last limit);
  s_list_referrers repo d at_ last limit := shared repo (s_list_referrers (Storage := any_storage) repo d at_ last limit);
|}.

End Backends.

Section Building.
Context `{!Crypto, !Hmac, !World, !SerdeJson, !HashIter, !MetadataStore, !Lru, !Cuckoo, !StampSerde}.
Context `{!ObjectStore, !ObjPaths, !UrlCrate}.

(** ** The life of the backends *)

(** The environment of a remote recovery: bounds of the walks, whether the
    bucket is created, and the clock. *)
Record RemoteEnv := { re_fuel : nat; re_depth : nat; re_create_bucket : bool; re_started : Z; re_after : nat → Z }.

Definition any_recover (e : RemoteEnv) (b : AnyBackend) : AnyBackend :=
  match b with
  | AFs s => AFs (recover s).1
  | AS3 c s => AS3 c (s3_recover c (re_fuel e) (re_depth e) (re_create_bucket e) (re_started e) (re_after e) s).1
  end.

(** Only the filesystem backend keeps something for the next start. *)
Definition any_on_shutdown (fast_restart : bool) (x : Instance_) (b : AnyBackend) : AnyBackend :=
  match b with
  | AFs s => if fast_restart then AFs (write_fast_restart_stamp x s).1 else b
  | AS3 _ _ => b
  end.

(** The default of the trait is always ready. *)
Definition any_ready (e : RemoteEnv) (b : AnyBackend) : AnyBackend * result StorageError () :=
  match b with
  | AFs _ => (b, Ok tt)
  | AS3 c s => let '(s, r) := s3_ready c (re_create_bucket e) (re_started e) (re_after e) s in (AS3 c s, r)
  end.

(** The loops over the backends, the default first. *)
Fixpoint each_route (f : AnyBackend → AnyBackend) (q : Quota) (l : list (string * AnyBackend))
    : Quota * list (string * AnyBackend) :=
  match l with
  | [] => (q, [])
  | (prefix, b) :: l =>
      let b := f (with_quota q b) in
      let '(q, l) := each_route f (quota_of b) l in (q, (prefix, b) :: l)
  end.

Definition each_backend (f : AnyBackend → AnyBackend) (d : Deployment) : Deployment :=
  let b := f (with_quota (dep_quota d) (rt_default (dep_table d))) in
  let '(q, l) := each_route f (quota_of b) (rt_routes (dep_table d)) in
  mkDeployment q (mkRouted b l).

(** ** From a configuration *)

(** What is found at a root: files, the metadata that was opened, what a
    fast-restart stamp is checked against, and the bucket of an S3 backend. *)
Record Site := { site_fs : Fs; site_meta : mstore; site_instance : Instance_; site_bucket : bucket }.

Variable site : string → result io_error Site.
(** The object store of a section: how it signs and how its bucket is reached. *)
Variable connect : S3Config → result io_error ((string → string → Z → result string url) * BucketHttp).
Variable s3_feature : bool.

Definition fs_config_of (c : StorageConfig) : FsConfig := {|
  cfg_cache_max_bytes := cache_max_bytes c;
  cfg_small_blob_threshold := small_blob_threshold c;
  cfg_gc_enabled := gcc_enabled (Config.gc c);
  cfg_gc_delay := (delay_secs (Config.gc c) * 1000000000)%Z;
  cfg_dedupe := Config.dedupe c;
  cfg_commit := Config.commit c;
|}.

Definition build_one_backend (root : string) (s3 : option S3Config) (c : StorageConfig) (q : Quota) (field_name : string)
    : result string AnyBackend :=
  match s3 with
  | Some s3_cfg =>
      if negb s3_feature then Err (field_name +:+ ": S3 backend requires a build with the `s3` feature") else
      let? ' (signer, http) := map_err io_msg (connect s3_cfg) in
      let client := client_from_config s3_cfg signer http in
      let? x := map_err io_msg (site root) in
      Ok (AS3 client (s3_open (gcc_enabled (Config.gc c)) (delay_secs (Config.gc c) * 1000000000)%Z (Config.dedupe c)
                        (site_meta x) (site_fs x) (site_bucket x) q))
  | None =>
      let? x := map_err io_msg (site root) in
      Ok (AFs (with_config (Config.fast_restart c) (site_instance x) (fs_config_of c) (site_meta x) (site_fs x) q))
  end.

Fixpoint build_routes (c : StorageConfig) (q : Quota) (l : list (string * SubpathConfig))
    : result string (Quota * list (string * AnyBackend)) :=
  match l with
  | [] => Ok (q, [])
  | (prefix, sub) :: l =>
      let? b := build_one_backend (sub_root sub) (sub_s3 sub) c q ("storage.subpaths." +:+ prefix +:+ ".s3") in
      let? ' (q, routes) := build_routes c (quota_of b) l in
      Ok (q, (prefix, b) :: routes)
  end.

(** One quota for all; opening a backend counts what it holds. *)
Definition build_storage (c : Config) : result string Deployment :=
  let sc := storage c in
  let q := quota_new (Config.quota sc) in
  let? default := build_one_backend (root sc) (Config.s3 sc) sc q "storage.s3" in
  let? ' (q, routes) := build_routes sc (quota_of default) (subpaths sc) in
  Ok (mkDeployment q (Routed_new default routes)).

End Building.

(** ** The contract *)

Section Laws.
Context `{!Crypto, !CryptoLaws, !World, !SerdeJson, !HashIter, !MetadataStore, !MetadataStoreLaws, !Lru, !LruLaws, !Cuckoo}.
Context `{!ObjectStore, !ObjectStoreLaws, !ObjPaths, !ObjPathLaws, !UrlCrate}.

(** The largest content the deployment takes. *)
Variable largest : Z.

Definition any_ok (b : AnyBackend) : Prop :=
  match b with
  | AFs s => store_inv s
  | AS3 c s => (0 < c_part_size c)%Z ∧ (largest ≤ c_copy_limit c)%Z ∧ http_views c ∧ s3_inv s
  end.

Definition any_has (b : AnyBackend) (repo : string) (d : Digest) : Prop :=
  match b with
  | AFs s => stored repo d (files (fs s))
  | AS3 c s => held c s repo d
  end.

Definition any_view (b : AnyBackend) : State := match b with AFs s => mview (meta s) | AS3 _ s => mview (x_meta s) end.

Definition any_upload (b : AnyBackend) (repo id : string) (n : Z) : Prop :=
  match b with AFs s => fs_upload s repo id n | AS3 _ s => s3_upload s repo id n end.

Lemma delegate_ensures {A : Type} (on_fs : M Store StorageError A) (on_s3 : S3Client → M S3Store StorageError A) Q :
  ensures store_inv on_fs (λ a s, Q a (AFs s)) →
  (∀ c, (0 < c_part_size c)%Z → (largest ≤ c_copy_limit c)%Z → ensures s3_inv (on_s3 c) (λ a s, Q a (AS3 c s))) →
  ensures any_ok (delegate on_fs on_s3) Q.
Proof.
  intros Hf Hs [s|c s]; simpl.
  - intros Hok. destruct (Hf s Hok) as [? ?]. by destruct (on_fs s) as [s' r].
  - intros (Hp & Hl & Hv & Hok). destruct (Hs c Hp Hl s Hok) as [? ?]. by destruct (on_s3 c s) as [s' r].
Qed.

Lemma delegate_attempt {A : Type} (on_fs : M Store StorageError A) (on_s3 : S3Client → M S3Store StorageError A) b :
  delegate (attempt on_fs) (λ c, attempt (on_s3 c)) b = attempt (delegate on_fs on_s3) b.
Proof. unfold delegate, attempt. destruct b as [s|c s]; [by destruct (on_fs s)|by destruct (on_s3 c s)]. Qed.

(** A law of both backends is one of either. *)
Ltac either law :=
  intros; apply delegate_ensures;
  [apply (law _ _ fs_storage_laws) | intros c Hp Hl; apply (law _ _ (s3_storage_laws c Hp))]; simpl in *; try done; try lia.

Program Definition any_laws : StorageLaws (H0 := any_storage) := {|
  sto_ok := any_ok : @sto any_storage → Prop;
  sto_has := any_has : @sto any_storage → string → Digest → Prop;
  sto_view b _ := any_view b;
  sto_upload := any_upload;
  id_ok := upload_id;
  size_ok n := (n ≤ largest)%Z;
|}.
Next Obligation. simpl. lia. Qed.
Next Obligation. either @blob_size_law. Qed.
Next Obligation. either @blob_exists_law. Qed.
Next Obligation. either @open_blob_law. Qed.
Next Obligation.
  intros. apply delegate_ensures; [apply (@begin_upload_law _ _ fs_storage_laws)|]. intros c Hp Hl.
  apply s3_ensures. eapply sp_weaken; [apply s3_begin_upload_spec|done|]. intros id s _ [Hid Hu].
  split_and!; [by apply session_upload_id|by apply session_id_text..|done].
Qed.
Next Obligation. intros. eapply ensures_ext; [apply delegate_attempt|]. either @append_upload_law. Qed.
Next Obligation. either @upload_size_law. Qed.
Next Obligation. either @abort_upload_law. Qed.
Next Obligation. either @mount_blob_law. Qed.
Next Obligation. either @finish_upload_law. Qed.
Next Obligation. either @delete_blob_law. Qed.
Next Obligation. either @put_manifest_law. Qed.
Next Obligation. either @get_manifest_law. Qed.
Next Obligation. either @delete_manifest_law. Qed.
Next Obligation. either @list_tags_law. Qed.
Next Obligation. either @list_referrers_law. Qed.

(** The quota is no part of what a backend promises. *)
Lemma with_quota_ok q b : any_ok b → any_ok (with_quota q b).
Proof. destruct b as [s|c s]; simpl; [|done]. apply (aside_inv (set_quota q)). by intros []. Qed.

Definition deployment_ok (d : Deployment) : Prop := ∀ i b, backend_at (dep_table d) i = Some b → any_ok b.

Lemma shared_ensures {A : Type} repo (m : M AnyBackend StorageError A) (Q : A → AnyBackend → Prop) (Q' : A → Deployment → Prop) :
  ensures any_ok m Q → (∀ a d, Q a (backend_for (dep_table d) repo) → Q' a d) → ensures deployment_ok (shared repo m) Q'.
Proof.
  intros Hm HQ d Hd. unfold shared. set (b0 := with_quota (dep_quota d) (backend_for (dep_table d) repo)).
  destruct (Hm b0) as [I1 I2]; [by apply with_quota_ok, (Hd (route_index (dep_table d) repo)), backend_for_at|].
  destruct (m b0) as [b a]. simpl in *. split.
  - intros i b'. simpl. rewrite backend_at_set. case_decide; [by intros [= <-]|apply Hd].
  - intros a' ->. apply HQ. simpl. rewrite backend_for_set, decide_True by done. auto.
Qed.

Lemma shared_attempt {A : Type} repo (m : M AnyBackend StorageError A) d :
  shared repo (attempt m) d = attempt (shared repo m) d.
Proof. unfold shared, attempt. by destruct (m _). Qed.

(** A law of a backend is one of the table. *)
Ltac table law := intros; eapply shared_ensures; [by apply (law _ _ any_laws)|done].

Program Definition deployment_laws : StorageLaws (H0 := deployment_storage) := {|
  sto_ok := deployment_ok : @sto deployment_storage → Prop;
  sto_has (d : @sto deployment_storage) repo dg := any_has (backend_for (dep_table d) repo) repo dg;
  sto_view (d : @sto deployment_storage) repo := any_view (backend_for (dep_table d) repo);
  sto_upload (d : @sto deployment_storage) repo id n := any_upload (backend_for (dep_table d) repo) repo id n;
  id_ok := upload_id;
  size_ok n := (n ≤ largest)%Z;
|}.
Next Obligation. simpl. lia. Qed.
Next Obligation. table @blob_size_law. Qed.
Next Obligation. table @blob_exists_law. Qed.
Next Obligation. table @open_blob_law. Qed.
Next Obligation. table @begin_upload_law. Qed.
Next Obligation. intros. eapply ensures_ext; [apply shared_attempt|]. table @append_upload_law. Qed.
Next Obligation. table @upload_size_law. Qed.
Next Obligation. table @abort_upload_law. Qed.
Next Obligation.
  intros from to dg Hd d Hok. simpl. unfold shared_mount.
  destruct (negb (same_backend (dep_table d) from to)); [split; [done|]; intros b Hb; simpl in Hb; by simplify_eq|].
  eapply (shared_ensures to _ _ (λ b d, b = true → from ≠ to → any_has (backend_for (dep_table d) to) to dg));
    [by apply (@mount_blob_law _ _ any_laws)|done|done].
Qed.
Next Obligation. table @finish_upload_law. Qed.
Next Obligation. table @delete_blob_law. Qed.
Next Obligation. table @put_manifest_law. Qed.
Next Obligation. table @get_manifest_law. Qed.
Next Obligation. table @delete_manifest_law. Qed.
Next Obligation. table @list_tags_law. Qed.
Next Obligation. table @list_referrers_law. Qed.
End Laws.

(** ** Starting and stopping keep the contract *)

Section Starting.
Context `{!Crypto, !CryptoLaws, !Hmac, !World, !SerdeJson, !HashIter, !MetadataStore, !Lru, !LruLaws, !Cuckoo, !CuckooLaws, !StampSerde}.

(** *** Opening *)

Lemma consume_stamp_shrinks x : runs shrinks (try_consume_stamp x).
Proof.
  unfold try_consume_stamp. apply runs_bind.
  { apply runs_attempt, same_shrinks. intros f. by apply (proj1 (read_file_spec stamp_path f ltac:(done))). }
  intros [data|e]; [|destruct e; runs_auto]. apply runs_bind.
  { apply runs_attempt. unfold consume_stamp. apply runs_bind; [apply unlinkat_shrinks|intros _].
    apply same_shrinks. unfold sync_parent. runs_auto. }
  intros [[]|e]; [|runs_auto]. destruct (unwrap _ _); [|runs_auto]. destruct (stamp_from_slice _); runs_auto.
Qed.

Lemma with_config_opened fast x cfg m f q :
  cas_ok (files f) → (0 ≤ cfg_cache_max_bytes cfg < 2 ^ 63)%Z → opened (with_config fast x cfg m f q).
Proof.
  intros Hf Hc. unfold with_config. destruct fast; [|by apply open_walking_opened].
  pose proof (consume_stamp_shrinks x f) as Hs. destruct (try_consume_stamp x f) as [f' [stamp|e]]; simpl in Hs.
  - split; simpl.
    + intros p i b Hp. by eapply Hf, Hs.
    + case_match; eexists _, _; (split; [done|lia]).
    + done.
  - change (set_fs f' (bare_store cfg m f q)) with (bare_store cfg m f' q). apply open_walking_opened; [|done].
    intros p i b Hp. by eapply Hf, Hs.
Qed.
End Starting.

(** ** A deployment that was built serves *)

Section Serving.
Context `{!Crypto, !CryptoLaws, !Hmac, !World, !SerdeJson, !HashIter, !MetadataStore, !MetadataStoreLaws, !Lru, !LruLaws, !Cuckoo, !CuckooLaws, !StampSerde}.
Context `{!ObjectStore, !ObjectStoreLaws, !ObjPaths, !ObjPathLaws, !UrlCrate}.
Variable site : string → result io_error Site.
Variable connect : S3Config → result io_error ((string → string → Z → result string url) * BucketHttp).
Variable s3_feature : bool.

Variable largest : Z.

Abbreviation backend_ok := (any_ok largest).
Abbreviation dep_ok := (deployment_ok largest).

(** What is found at the roots: blob files and blob objects that are what their
    names say; and creating a bucket changes no object of it. *)
Definition honest_sites : Prop :=
  (∀ r x, site r = Ok x → cas_ok (files (site_fs x)) ∧ authentic (contents (site_bucket x))) ∧
  (∀ c signer http u, connect c = Ok (signer, http) → views contents (http_execute http u)).
Hypothesis honest : honest_sites.

Lemma build_one_ok r s3 c q field b :
  (0 ≤ cache_max_bytes c < 2 ^ 63)%Z → (∀ x, s3 = Some x → s3_valid x ∧ (largest ≤ S3_COPY_LIMIT)%Z) →
  build_one_backend site connect s3_feature r s3 c q field = Ok b → backend_ok b.
Proof.
  intros Hc Hs3. destruct honest as [Hsite Hconn]. unfold build_one_backend. destruct s3 as [x|].
  - destruct s3_feature; [|done]. simpl. intros Hb. case_res. match goal with p : _ * _ |- _ => destruct p as [signer http] end.
    case_res. destruct (Hs3 x eq_refl) as [(_ & Hp & _) Hl]. simpl. split_and!.
    + unfold S3_MIN_PART_SIZE in Hp. lia.
    + done.
    + intros h u [= <-]. by eapply Hconn.
    + by eapply Hsite.
  - intros Hb. case_res. simpl. apply opened_inv, with_config_opened; [by eapply Hsite|done].
Qed.

Lemma build_routes_ok c l : ∀ q q' routes,
  (0 ≤ cache_max_bytes c < 2 ^ 63)%Z → (∀ p sub x, (p, sub) ∈ l → sub_s3 sub = Some x → s3_valid x ∧ (largest ≤ S3_COPY_LIMIT)%Z) →
  build_routes site connect s3_feature c q l = Ok (q', routes) →
  Forall (λ r, backend_ok r.2) routes ∧ routes.*1 = l.*1.
Proof.
  induction l as [|[p sub] l IH]; intros q q' routes Hc Hs3 Hb; simpl in Hb; case_res; [done|].
  match goal with p : _ * _ |- _ => destruct p as [q1 rs] end. case_res.
  select (build_routes _ _ _ _ _ _ = Ok _) (fun K => apply IH in K as [I1 I2]; [|done|]).
  - split; [|simpl; by f_equal]. constructor; [|done]. eapply build_one_ok; [done| |done].
    intros y Hy. eapply Hs3; [|done]. apply elem_of_cons. by left.
  - intros p' sub' y Hin. apply (Hs3 p' sub' y), elem_of_cons. by right.
Qed.

Lemma table_ok (default : AnyBackend) routes q :
  backend_ok default → Forall (λ r, backend_ok r.2) routes → dep_ok (mkDeployment q (Routed_new default routes)).
Proof.
  intros Hd Hr [i|] b; simpl; [|by intros [= <-]]. destruct (sort_routes routes !! i) as [x|] eqn:Ei; [|done]. intros [= <-].
  rewrite Forall_forall in Hr. apply Hr. rewrite <-(sort_routes_perm routes). by eapply list_elem_of_lookup_2.
Qed.

Lemma build_storage_ok is_file c d :
  Config_validate is_file c = Ok tt → (0 ≤ cache_max_bytes (storage c) < 2 ^ 63)%Z →
  (s3_sections (storage c) ≠ [] → (largest ≤ S3_COPY_LIMIT)%Z) →
  build_storage site connect s3_feature c = Ok d → dep_ok d.
Proof.
  intros (_ & _ & Hv)%validated_facts Hc Hl Hb.
  assert (Hs3 : ∀ x, x ∈ s3_sections (storage c) → s3_valid x ∧ (largest ≤ S3_COPY_LIMIT)%Z).
  { intros x Hx. rewrite Forall_forall in Hv. split; [by apply Hv|]. apply Hl. intros Hn. by rewrite Hn in Hx; apply not_elem_of_nil in Hx. }
  clear Hv Hl. unfold s3_sections in Hs3.
  unfold build_storage in Hb. case_res. match goal with p : _ * _ |- _ => destruct p as [q1 rs] end. case_res.
  apply table_ok.
  - eapply build_one_ok; [done| |done]. intros y Hy. apply Hs3. rewrite Hy. set_solver.
  - eapply build_routes_ok; [done| |done]. intros p sub y Hin Hy. apply Hs3, elem_of_app. right.
    apply list_elem_of_omap. by exists (p, sub).
Qed.

(** *** Work on all backends, and on one *)

Lemma each_route_ok f q l : (∀ b, backend_ok b → backend_ok (f b)) →
  Forall (λ r, backend_ok r.2) l → Forall (λ r, backend_ok r.2) (each_route f q l).2.
Proof.
  intros Hf. revert q. induction l as [|[p b] l IH]; intros q Hl; simpl; [done|]. apply Forall_cons in Hl as [Hb Hl].
  specialize (IH (quota_of (f (with_quota q b))) Hl). destruct (each_route f _ l) as [q' l']. constructor; [|done].
  by apply Hf, with_quota_ok.
Qed.

Lemma each_backend_ok f d : (∀ b, backend_ok b → backend_ok (f b)) → dep_ok d → dep_ok (each_backend f d).
Proof.
  intros Hf Hd. assert (Hr : Forall (λ r, backend_ok r.2) (rt_routes (dep_table d))).
  { apply Forall_forall. intros [p b] [i Hi]%list_elem_of_lookup. apply (Hd (Some i)). simpl. by rewrite Hi. }
  unfold each_backend. set (b := f (with_quota (dep_quota d) (rt_default (dep_table d)))).
  assert (Hb : backend_ok b) by by apply Hf, with_quota_ok, (Hd None).
  pose proof (each_route_ok f (quota_of b) _ Hf Hr) as Hl. destruct (each_route f (quota_of b) _) as [q l].
  intros [i|] b'; simpl; [|by intros [= <-]]. destruct (l !! i) as [x|] eqn:Ei; [|done]. intros [= <-].
  rewrite Forall_forall in Hl. apply Hl. by eapply list_elem_of_lookup_2.
Qed.

Lemma any_recover_ok e b : backend_ok b → backend_ok (any_recover e b).
Proof.
  destruct b as [s|c s]; simpl; [apply recover_pres|]. intros (? & ? & Hv & Hs). split_and!; [done..|].
  assert (Hr : runs s3_pres (s3_recover c (re_fuel e) (re_depth e) (re_create_bucket e) (re_started e) (re_after e)))
    by (apply same_blobs_pres, quiet_same_blobs; by apply s3_recover_quiet).
  by apply Hr.
Qed.

(** An operation of a backend outside a request: the flush of [index.json], a
    sweep, a probe, and so on; recovery, and a scrub pass, between whose turns
    others are at work. *)
Inductive any_op :=
  | FsOp (o : op) | FsRecover | FsScrub (others : BlobEntry → gap → Store → Store)
  | S3Op (o : s3_op).

Definition any_step (age : Fs → path → Z) (o : any_op) (b : AnyBackend) : AnyBackend :=
  match o, b with
  | FsOp o, AFs s => AFs (step o s)
  | FsRecover, AFs s => AFs (recover s).1
  | FsScrub others, AFs s => AFs (scrub_pass others s).1
  | S3Op o, AS3 c s => AS3 c (s3_step c age o s)
  | _, _ => b
  end.

Definition any_op_ok (o : any_op) (b : AnyBackend) : Prop :=
  match o, b with
  | FsOp o, _ => op_ok o
  | FsScrub others, _ => ∀ e g s, pres s (others e g s)
  | S3Op o, AS3 c _ => s3_op_ok c o
  | _, _ => True
  end.

Definition work_at (age : Fs → path → Z) (repo : string) (o : any_op) (d : Deployment) : Deployment :=
  let b := any_step age o (with_quota (dep_quota d) (backend_for (dep_table d) repo)) in
  mkDeployment (quota_of b) (set_backend repo b (dep_table d)).

Lemma work_at_ok age repo o d :
  any_op_ok o (backend_for (dep_table d) repo) → dep_ok d → dep_ok (work_at age repo o d).
Proof.
  intros Ho Hd i b. unfold work_at. simpl. rewrite backend_at_set. case_decide; [|apply Hd]. intros [= <-].
  assert (Hb : backend_ok (with_quota (dep_quota d) (backend_for (dep_table d) repo))).
  { by apply with_quota_ok, (Hd (route_index (dep_table d) repo)), backend_for_at. }
  destruct o as [o| |others|o], (backend_for (dep_table d) repo) as [s|c s]; simpl in *; try done.
  - by apply step_pres.
  - by apply recover_pres.
  - by apply scrub_pass_pres.
  - destruct Hb as (? & ? & ? & ?). split_and!; [done..|]. by apply s3_step_pres.
Qed.
End Serving.
