(* ===== verification/Reload.v ===== *)
(** The live reload of [access_control] (roci-cli/src/lib.rs,
    [spawn_access_control_reload] and [apply_config_reload]).

    A turn of the task looks at the file twice: it reads the bytes to see whether
    they changed, and [Config::load] reads them again. Both looks are inputs of
    the turn, as another process writes the file. *)

From S2P Require Import Prelude RustStr Json Errors Names Digest Policy Auth NetAddr Config.

#[export] Instance IdentityPolicy_eq_dec : EqDecision IdentityPolicy.
Proof. solve_decision. Defined.
#[export] Instance RepositoryPolicy_eq_dec : EqDecision RepositoryPolicy.
Proof. solve_decision. Defined.
#[export] Instance AccessControlConfig_eq_dec : EqDecision AccessControlConfig.
Proof. solve_decision. Defined.

Section Reload.
Context `{!TomlCrate}.
Variable is_file : string → bool.
Variable path : string.

(** What a look at the file sees. *)
Abbreviation look := (result io_error bytes).

(** [std::fs::read_to_string] on what it sees. *)
Definition text_of (l : look) : result io_error string :=
  let? b := l in
  ok_or (from_utf8 b) (IoError KInvalidData "stream did not contain valid UTF-8").

(** [Config::load] when it sees [l]. *)
Definition load (l : look) : result ConfigError Config := Config_load is_file (λ _, text_of l) path.

Record Reload := mkReload { last_bytes : bytes; last : Config }.

(** The start of the task; [initial] is loaded before it, and without a readable
    and valid file it is the configuration in force. *)
Definition reload_start (config : Config) (at_load at_read : look) : Reload :=
  mkReload (match at_read with Ok b => b | Err _ => [] end)
           (match load at_load with Ok c => c | Err _ => config end).

Definition apply_config_reload (auth : Auth.Auth) (last new : Config) : Auth.Auth :=
  if decide (access_control new ≠ access_control last) then reload_access_control auth (access_control new) else auth.

(** A turn of the loop, after the sleep. *)
Definition reload_turn (at_read at_load : look) (t : Reload) (auth : Auth.Auth) : Reload * Auth.Auth :=
  match at_read with
  | Err _ => (t, auth)
  | Ok b =>
      if decide (b = last_bytes t) then (t, auth) else
      match load at_load with
      | Ok new => (mkReload b new, apply_config_reload auth (last t) new)
      | Err _ => (mkReload b (last t), auth)
      end
  end.

Definition reload_turns (ls : list (look * look)) (t : Reload) (auth : Auth.Auth) : Reload * Auth.Auth :=
  foldl (λ '(t, a) '(l1, l2), reload_turn l1 l2 t a) (t, auth) ls.

(** ** The reference: the last valid content that was seen *)

Definition latest (c0 : Config) (ls : list look) : Config :=
  foldl (λ c l, match load l with Ok c' => c' | Err _ => c end) c0 ls.

(** [l] says the same about access as [c0], or nothing that is valid. *)
Definition same_access (c0 : Config) (l : look) : Prop :=
  match load l with Ok c => access_control c = access_control c0 | Err _ => True end.
#[local] Instance same_access_dec c0 l : Decision (same_access c0 l).
Proof. unfold same_access. destruct (load l); apply _. Defined.

(** The policy after looks [ls]: the first one until the file says something new
    about access, then what it last said. *)
Definition in_force (a : Auth.Auth) (c0 : Config) (ls : list look) : Auth.Auth :=
  if decide (Forall (same_access c0) ls) then a else reload_access_control a (access_control (latest c0 ls)).

Lemma latest_snoc c0 ls l : latest c0 (ls ++ [l]) = match load l with Ok c => c | Err _ => latest c0 ls end.
Proof. unfold latest. by rewrite foldl_app. Qed.

Lemma latest_same c0 ls : Forall (same_access c0) ls → access_control (latest c0 ls) = access_control c0.
Proof.
  induction ls as [|l ls IH] using rev_ind; intros Hs; [done|]. rewrite Forall_app, Forall_singleton in Hs.
  destruct Hs as [I1 I2]. rewrite latest_snoc. revert I2. unfold same_access. destruct (load l); [done|auto].
Qed.

Lemma in_force_snoc a c0 ls l :
  in_force a c0 (ls ++ [l]) =
    match load l with Ok new => apply_config_reload (in_force a c0 ls) (latest c0 ls) new | Err _ => in_force a c0 ls end.
Proof.
  unfold in_force, apply_config_reload. rewrite latest_snoc.
  pose proof (latest_same c0 ls) as Hl.
  destruct (decide (Forall (same_access c0) (ls ++ [l]))) as [Hs|Hs], (decide (Forall (same_access c0) ls)) as [Hp|Hp];
    rewrite Forall_app, Forall_singleton in Hs; unfold same_access in Hs; destruct (load l) as [new|e]; try case_decide as Hd;
    try done; try tauto; naive_solver congruence.
Qed.

(** The task knows the last valid content. *)
Definition task_ok (c : Config) (t : Reload) : Prop := last t = c ∧ ∀ c', load (Ok (last_bytes t)) = Ok c' → c' = c.

Lemma turns_spec config l0 c0 a ls : load l0 = Ok c0 →
  let '(t, a') := reload_turns ((λ l, (l, l)) <$> ls) (reload_start config l0 l0) a in
  task_ok (latest c0 ls) t ∧ a' = in_force a c0 ls.
Proof.
  intros Hl0. induction ls as [|l ls IH] using rev_ind.
  { simpl. unfold task_ok, reload_start. rewrite Hl0. simpl. split_and!; try done.
    destruct l0 as [b|e]; [congruence|]. unfold load, Config_load in Hl0. simpl in Hl0. done. }
  unfold reload_turns. rewrite fmap_app, foldl_app. fold (reload_turns ((λ l, (l, l)) <$> ls) (reload_start config l0 l0) a).
  destruct (reload_turns _ _ a) as [t a']. destruct IH as [[I1 I2] ->]. rewrite latest_snoc, in_force_snoc. simpl.
  unfold reload_turn. destruct l as [b|e]; [|by unfold load, Config_load]. case_decide as Hb.
  - subst b. destruct (load (Ok (last_bytes t))) as [c|e] eqn:El; [|split; [split; [done|congruence]|done]].
    pose proof (I2 c eq_refl) as ->.
    unfold apply_config_reload. rewrite decide_False by naive_solver. split; [|done]. split; [done|congruence].
  - destruct (load (Ok b)) as [c|e] eqn:El; rewrite <-?I1; split; try done; (split; [done|]); simpl; congruence.
Qed.

Lemma turns_app ls ls' t a :
  reload_turns (ls ++ ls') t a = let '(t, a) := reload_turns ls t a in reload_turns ls' t a.
Proof. unfold reload_turns. rewrite foldl_app. by destruct (foldl _ _ ls). Qed.

Lemma turns_cons l1 l2 ls t a :
  reload_turns ((l1, l2) :: ls) t a = let '(t, a) := reload_turn l1 l2 t a in reload_turns ls t a.
Proof. unfold reload_turns. simpl. by destruct (reload_turn l1 l2 t a). Qed.

Lemma apply_reload a c new :
  apply_config_reload (reload_access_control a (access_control c)) c new = reload_access_control a (access_control new).
Proof.
  unfold apply_config_reload. case_decide as Hd; [by destruct a|].
  destruct (decide (access_control new = access_control c)) as [->|]; [done|tauto].
Qed.

(** Whatever the looks, the policy is the one of the content that was loaded last. *)
Lemma turns_loaded ls a t :
  policy a = compile <$> access_control (last t) →
  let '(t', a') := reload_turns ls t a in
  a' = reload_access_control a (access_control (last t')) ∧
  (last t' = last t ∨ ∃ l1 l2, (l1, l2) ∈ ls ∧ load l2 = Ok (last t')).
Proof.
  intros Ha. induction ls as [|[l1 l2] ls IH] using rev_ind; [simpl; split; [|by left]; destruct a; simpl in *; by rewrite Ha|].
  rewrite turns_app. destruct (reload_turns ls t a) as [t1 a1]. destruct IH as [-> Hl].
  assert (Hold : last t1 = last t ∨ ∃ m1 m2, (m1, m2) ∈ ls ++ [(l1, l2)] ∧ load m2 = Ok (last t1)) by set_solver.
  unfold reload_turns. simpl. unfold reload_turn. destruct l1 as [b|e]; [|by split]. case_decide; [by split|].
  destruct (load l2) as [new|e] eqn:El; [|by split]. simpl. split.
  - apply apply_reload.
  - right. exists (Ok b), l2. split; [set_solver|done].
Qed.

(** Turns that read the bytes of the last read, or nothing, do nothing. *)
Lemma turns_idle ls t a :
  Forall (λ l, l.1 = Ok (last_bytes t) ∨ is_ok l.1 = false) ls → reload_turns ls t a = (t, a).
Proof.
  induction 1 as [|[l1 l2] ls Hl _ IH]; [done|]. rewrite turns_cons.
  assert (E : reload_turn l1 l2 t a = (t, a)); [|by rewrite E]. unfold reload_turn. simpl in Hl.
  destruct Hl as [->|Hl]; [by rewrite decide_True|by destruct l1].
Qed.

(** A file that is replaced between the two looks of a turn and then put back:
    what was loaded stays in force while the bytes stay as they were read. *)
Lemma stale_after_race b l2 c2 n t a :
  b ≠ last_bytes t → load l2 = Ok c2 →
  (reload_turns ((Ok b, l2) :: replicate n (Ok b, Ok b)) t a).2 = apply_config_reload a (last t) c2.
Proof.
  intros Hb Hl. unfold reload_turns. simpl. rewrite decide_False by done. rewrite Hl.
  generalize (apply_config_reload a (last t) c2). intros a'.
  induction n as [|n IH]; simpl; [done|]. by rewrite decide_True.
Qed.
End Reload.

Lemma reload_same a ac : policy a = compile <$> ac → reload_access_control a ac = a.
Proof. destruct a. unfold reload_access_control. simpl. by intros ->. Qed.

(** An edit of the access control that is in the file when the task starts, but
    not in the running configuration, which was resolved before, is not applied
    while the file says of access what it said then. *)
Lemma reload_start_edit `{!TomlCrate} is_file path config a l0 c0 ls :
  load is_file path l0 = Ok c0 → Forall (same_access is_file path c0) ls →
  (reload_turns is_file path ((λ l, (l, l)) <$> ls) (reload_start is_file path config l0 l0) a).2 = a.
Proof.
  intros Hl0 Hs. pose proof (turns_spec is_file path config l0 c0 a ls Hl0) as Ht.
  destruct (reload_turns _ _ _ _ a) as [t a']. destruct Ht as [_ ->]. simpl. unfold in_force. by rewrite decide_True.
Qed.


(** ** Witness *)

(** A file that holds the name of the administrator. *)
Module ToyReload.
#[export] Instance toy_toml : TomlCrate := {|
  toml_from_str s := if decide (s = "broken") then Err "?" else
    Ok {| http := default_http; storage := default_storage; limits := default_limits; delete_ := default_delete;
          log := default_log; telemetry := default_telemetry; auth := default_auth;
          access_control := Some {| ac_admins := [s]; ac_groups := []; repositories := [] |} |}
|}.
Definition file (s : string) : result io_error bytes := Ok (as_bytes s).
Definition loaded (l : result io_error bytes) : Config := match load (λ _, true) "f" l with Ok c => c | Err _ => default_config end.
Definition engine : Auth.Auth := mkAuth "roci" None None None true (compile <$> access_control (loaded (file "alice"))).
Definition task (l0 : result io_error bytes) (ls : list (result io_error bytes * result io_error bytes)) : Auth.Auth :=
  (reload_turns (λ _, true) "f" ls (reload_start (λ _, true) "f" (loaded (file "alice")) l0 l0) engine).2.
Definition steady (ls : list (result io_error bytes)) : list (result io_error bytes * result io_error bytes) := (λ l, (l, l)) <$> ls.
Definition admin (a : Auth.Auth) (user : string) : bool := allows a (User user [] MMtls) "a" Push.
End ToyReload.

Import ToyReload.


(** A change that is there when the task starts is not applied. *)
Example start_edit_lost :
  let a := task (file "bob") (steady [file "bob"; file "bob"]) in (admin a "alice", admin a "bob") = (true, false).
Proof.
  assert (Hb : load (λ _, true) "f" (file "bob") = Ok (loaded (file "bob"))) by (vm_compute; reflexivity).
  unfold task, steady. rewrite (reload_start_edit _ _ _ _ _ _ _ Hb); [vm_compute; reflexivity|].
  assert (Hsame : same_access (λ _, true) "f" (loaded (file "bob")) (file "bob")) by (unfold same_access; rewrite Hb; reflexivity).
  by repeat constructor.
Qed.
