(* ===== verification/Connection.v ===== *)
(** A connection (roci-cli/src/lib.rs): the TLS acceptor and the verification of
    client certificates ([build_tls_acceptor], [build_client_verifier],
    [PinnedClientVerifier]), what a request learns from its connection
    ([handle_conn], [TowerToHyperService]), and when a connection is idle
    ([Activity]).

    The TLS library is the class [Rustls]; what it promises is [RustlsLaws]. *)

From S2P Require Import Prelude RustStr Json Errors Names Digest HttpUtil Policy Auth NetAddr Config AuthLoad.
From S2P Require Import Effect StorageApi UploadBody RateLimit Server.

(** ** Client certificates *)

(** [ClientCertVerifier]; the leaf, the other certificates, the time. *)
Record ClientCertVerifier := mkVerifier {
  offer_client_auth : bool;
  client_auth_mandatory : bool;
  root_hint_subjects : list bytes;
  verify_client_cert : bytes → list bytes → Z → result string ();
  verify_tls12_signature : bytes → bytes → bytes → result string ();
  verify_tls13_signature : bytes → bytes → bytes → result string ();
  supported_verify_schemes : list Z;
}.

(** [ServerConfig], as far as it is set. *)
Record TlsAcceptor := mkAcceptor {
  acc_certs : list bytes;
  acc_key : bytes;
  acc_verifier : option ClientCertVerifier;
  acc_alpn : list string;
  acc_sessions : Z;
  acc_early_data : Z;
}.

Class Rustls := {
  pem_certs : bytes → list (result string bytes);
  pem_key : bytes → result string bytes;
  root_ok : bytes → result string ();
  (** [WebPkiClientVerifier] over roots; without a certificate or not *)
  webpki_verifier : list bytes → bool → result string ClientCertVerifier;
  safe_versions : result string ();
  single_cert : list bytes → bytes → result string ();
  ticketer : result string ();
  tcp : Type;
  (** the handshake: the certificates of the peer, if it showed any *)
  tls_accept : TlsAcceptor → tcp → result string (option (list bytes));
}.

Section Tls.
Context `{!Crypto, !Rustls}.
Variable read : string → result io_error bytes.

(** [PinnedClientVerifier] *)
Definition pinned (inner : ClientCertVerifier) (pins : list string) : ClientCertVerifier :=
  mkVerifier (offer_client_auth inner) (client_auth_mandatory inner) (root_hint_subjects inner)
    (λ end_entity intermediates now,
       let? verified := verify_client_cert inner end_entity intermediates now in
       let fingerprint := hex_encode (sha256 end_entity) in
       if bool_decide (fingerprint ∈ pins) then Ok verified
       else Err "invalid peer certificate: ApplicationVerificationFailure")
    (verify_tls12_signature inner) (verify_tls13_signature inner) (supported_verify_schemes inner).

Fixpoint add_roots (ca_path : string) (certs : list (result string bytes)) : result string (list bytes) :=
  match certs with
  | [] => Ok []
  | cert :: certs =>
      let? cert := map_err (λ e, "parsing TLS client_ca: " +:+ e) cert in
      let? _ := map_err (λ e, "TLS client_ca " +:+ ca_path +:+ ": " +:+ e) (root_ok cert) in
      let? roots := add_roots ca_path certs in
      Ok (cert :: roots)
  end.

(** The verifier for the authority of the configuration. *)
Definition inner_verifier (t : TlsConfig) : result string ClientCertVerifier :=
  let? ca_path := ok_or (client_ca t) "http.tls.client_ca: required when client_auth is optional or required" in
  let? ca_pem := map_err (λ e, "reading TLS client_ca " +:+ ca_path +:+ ": " +:+ io_msg e) (read ca_path) in
  let? roots := add_roots ca_path (pem_certs ca_pem) in
  if bool_decide (roots = []) then Err ("TLS client_ca " +:+ ca_path +:+ " contains no certificates") else
  map_err (λ e, "building TLS client verifier: " +:+ e) (webpki_verifier roots (bool_decide (client_auth t = Optional))).

Definition build_client_verifier (t : TlsConfig) : result string ClientCertVerifier :=
  let? verifier := inner_verifier t in
  if bool_decide (client_cert_sha256 t = []) then Ok verifier
  else Ok (pinned verifier (to_ascii_lowercase <$> client_cert_sha256 t)).

Fixpoint collect (l : list (result string bytes)) : result string (list bytes) :=
  match l with
  | [] => Ok []
  | c :: l => let? c := c in let? cs := collect l in Ok (c :: cs)
  end.

Definition build_tls_acceptor (t : TlsConfig) : result string TlsAcceptor :=
  let? cert_pem := map_err (λ e, "reading TLS cert " +:+ tls_cert t +:+ ": " +:+ io_msg e) (read (tls_cert t)) in
  let? key_pem := map_err (λ e, "reading TLS key " +:+ tls_key t +:+ ": " +:+ io_msg e) (read (tls_key t)) in
  let? certs := map_err (λ e, "parsing TLS cert chain: " +:+ e) (collect (pem_certs cert_pem)) in
  if bool_decide (certs = []) then Err ("TLS cert file " +:+ tls_cert t +:+ " contains no certificates") else
  let? key := map_err (λ e, "parsing TLS key " +:+ tls_key t +:+ ": " +:+ e) (pem_key key_pem) in
  let? _ := map_err (λ e, "building TLS config: " +:+ e) safe_versions in
  let? verifier := match client_auth t with
                   | NoClientAuth => Ok None
                   | Optional | Required => let? v := build_client_verifier t in Ok (Some v)
                   end in
  let? _ := map_err (λ e, "building TLS config: " +:+ e) (single_cert certs key) in
  let? _ := map_err (λ e, "creating TLS ticketer: " +:+ e) ticketer in
  Ok (mkAcceptor certs key verifier ["h2"; "http/1.1"] 1024 0).
End Tls.

(** ** What a request learns from its connection *)

(** [TowerToHyperService]: the identity and the address of the peer. *)
Record TowerToHyperService := mkTower { client_identity : option string; peer_addr : IpAddr }.

Definition handle_conn `{!Rustls, !PkiCrates} (c : tcp) (peer : IpAddr) (acceptor : option TlsAcceptor)
    : result string TowerToHyperService :=
  match acceptor with
  | Some acceptor =>
      let? certs := map_err (λ e, "TLS handshake failed: " +:+ e) (tls_accept acceptor c) in
      let identity := (leaf ← certs ≫= head; client_cert_identity leaf) in
      Ok (mkTower identity peer)
  | None => Ok (mkTower None peer)
  end.

(** The extensions of a request; [hyper] sets none of them. *)
Definition tower_call (t : TowerToHyperService) (req : HttpRequest) : HttpRequest :=
  mkHttp (hq_method req) (hq_path req) (hq_query req) (hq_headers req)
    (match client_identity t with Some id => Some id | None => hq_cert req end) (Some (peer_addr t)) (hq_body req).

(** ** Idle connections *)

(** Times are nanoseconds since the connection was accepted. *)
Definition NANOS_PER_MILLI : Z := 1000000.

(** [touch]: what is stored as the last activity. *)
Definition activity_touch (elapsed : Z) : Z := u64_wrap (elapsed / NANOS_PER_MILLI).

(** [last_ms] at a time, after the bytes that moved until then. *)
Definition last_ms (touches : list Z) (now : Z) : Z :=
  foldl (λ m u, if (u <=? now)%Z then activity_touch u else m) 0%Z touches.

Definition quiet (touches : list Z) (now : Z) : Z := Z.max 0 (now - last_ms touches now * NANOS_PER_MILLI).

(** The loop of [idle_for]: the time at which it returns. [wake] is when a sleep
    until a time ends. *)
Fixpoint idle_for (wake : Z → Z) (touches : list Z) (idle : Z) (fuel : nat) (now : Z) : option Z :=
  match fuel with
  | O => None
  | S fuel =>
      let q := quiet touches now in
      if (idle <=? q)%Z then Some now
      else idle_for wake touches idle fuel (wake (now + (idle - q))%Z)
  end.

(** ** Lemmas *)

(** What the TLS library documents: a handshake ends only after the certificates
    the peer showed were verified, and with one when it is mandatory. *)
Class RustlsLaws `{!Rustls} : Prop := {
  accept_verified acc c certs : tls_accept acc c = Ok certs →
    match acc_verifier acc with
    | None => certs = None
    | Some v =>
        (∀ leaf inter, certs = Some (leaf :: inter) → ∃ now, verify_client_cert v leaf inter now = Ok tt) ∧
        (client_auth_mandatory v = true → ∃ leaf inter, certs = Some (leaf :: inter))
    end;
  webpki_mandatory roots v : webpki_verifier roots false = Ok v → client_auth_mandatory v = true;
}.

Section Trust.
Context `{!Crypto, !Rustls, !RustlsLaws, !PkiCrates}.
Variable read : string → result io_error bytes.

(** The authority of the configuration vouches for the certificate, and it is one
    of the pinned ones if there are any. *)
Definition trusted_leaf (t : TlsConfig) (leaf : bytes) : Prop :=
  (∃ v inter now, inner_verifier read t = Ok v ∧ verify_client_cert v leaf inter now = Ok tt) ∧
  (client_cert_sha256 t ≠ [] → ∃ pin, pin ∈ client_cert_sha256 t ∧ to_ascii_lowercase pin = hex_encode (sha256 leaf)).

Lemma client_verifier_trusts t v leaf inter now :
  build_client_verifier read t = Ok v → verify_client_cert v leaf inter now = Ok tt → trusted_leaf t leaf.
Proof.
  unfold build_client_verifier. intros Hv Hleaf. case_res. case_bool_decide as Hp; case_res; [by split; [eauto|]|].
  simpl in Hleaf. case_res. case_bool_decide as Hin; [|done]. case_res. split; [eauto|]. intros _.
  apply list_elem_of_fmap in Hin as (pin & -> & Hin). by exists pin.
Qed.

Lemma client_verifier_mandatory t v :
  build_client_verifier read t = Ok v → client_auth t ≠ Optional → client_auth_mandatory v = true.
Proof.
  unfold build_client_verifier, inner_verifier. intros Hv Ho. case_res.
  match goal with H : webpki_verifier _ _ = Ok _ |- _ => rewrite bool_decide_false in H by done; apply webpki_mandatory in H end.
  case_bool_decide; by case_res.
Qed.

(** The certificates an accepted connection came with. *)
Lemma accepted_certs t acc c certs :
  build_tls_acceptor read t = Ok acc → tls_accept acc c = Ok certs →
  (∀ leaf inter, certs = Some (leaf :: inter) → trusted_leaf t leaf) ∧
  (client_auth t = Required → ∃ leaf inter, certs = Some (leaf :: inter)).
Proof.
  intros Hb Ha. apply accept_verified in Ha. unfold build_tls_acceptor in Hb. case_res. simpl in Ha.
  destruct (client_auth t) eqn:Ec; case_res; [done|..]; destruct Ha as [I1 I2]; (split; [|]); try done;
    try (intros leaf inter Hl; destruct (I1 leaf inter Hl) as [now Hn]; by eapply client_verifier_trusts).
  intros _. apply I2. eapply client_verifier_mandatory; [done|congruence].
Qed.
End Trust.

Section Idle.
#[local] Open Scope Z_scope.
Implicit Types touches : list Z.

(** Times that fit the milliseconds of a [u64]. *)
Definition timely (u : Z) : Prop := 0 ≤ u < 2 ^ 64 * NANOS_PER_MILLI.

Lemma touch_floor u : timely u → activity_touch u = u / NANOS_PER_MILLI.
Proof.
  unfold timely, activity_touch, u64_wrap, NANOS_PER_MILLI. intros Hu. rewrite Z.mod_small; [done|].
  split; [apply Z.div_pos; lia|]. apply Z.div_lt_upper_bound; lia.
Qed.

Lemma touch_bounds u : timely u → 0 ≤ activity_touch u * NANOS_PER_MILLI ≤ u ∧ u < activity_touch u * NANOS_PER_MILLI + NANOS_PER_MILLI.
Proof.
  intros Hu. rewrite (touch_floor u Hu). destruct Hu as [Hu _].
  pose proof (Z.div_pos u NANOS_PER_MILLI Hu eq_refl). pose proof (Z.div_mod u NANOS_PER_MILLI ltac:(done)).
  pose proof (Z.mod_pos_bound u NANOS_PER_MILLI eq_refl). unfold NANOS_PER_MILLI in *. lia.
Qed.

Lemma last_ms_snoc touches u now : last_ms (touches ++ [u]) now = if u <=? now then activity_touch u else last_ms touches now.
Proof. unfold last_ms. by rewrite foldl_app. Qed.

(** Only the touches until now count. *)
Lemma last_ms_quiet touches now now' :
  now ≤ now' → Forall (λ u, u ≤ now ∨ now' < u) touches → last_ms touches now' = last_ms touches now.
Proof.
  intros Hn. induction touches as [|u l IH] using rev_ind; [done|]. rewrite Forall_app, Forall_singleton.
  intros [Hl Hu]. rewrite !last_ms_snoc, IH by done. destruct (Z.leb_spec u now), (Z.leb_spec u now'); lia || done.
Qed.

Lemma last_ms_past touches now : 0 ≤ now → Forall timely touches → 0 ≤ last_ms touches now * NANOS_PER_MILLI ≤ now.
Proof.
  intros Hn. induction touches as [|u l IH] using rev_ind; [intros _; unfold last_ms; simpl; lia|].
  rewrite Forall_app, Forall_singleton. intros [Hl Hu]. rewrite last_ms_snoc.
  destruct (Z.leb_spec u now); [|by apply IH]. pose proof (touch_bounds u Hu). lia.
Qed.

Lemma last_ms_latest touches now u :
  Forall timely touches → StronglySorted Z.le touches → u ∈ touches → u ≤ now → activity_touch u ≤ last_ms touches now.
Proof.
  induction touches as [|x l IH] using rev_ind; [by intros _ _ ?%not_elem_of_nil|].
  rewrite Forall_app, Forall_singleton, StronglySorted_app, elem_of_app, list_elem_of_singleton.
  intros [Hl Hx] (Hs & Hsl & _) Hu Hn. rewrite last_ms_snoc. destruct (Z.leb_spec x now).
  - destruct Hu as [Hu| ->]; [|done]. assert (u ≤ x) by (apply Hs; [done|set_solver]).
    rewrite Forall_forall in Hl. rewrite (touch_floor u), (touch_floor x) by auto. apply Z.div_le_mono; [done|done].
  - destruct Hu as [Hu| ->]; [by apply IH|lia].
Qed.

(** The touches that are still to come. *)
Definition pending touches (now : Z) : list Z := filter (λ u, now < u) touches.

Lemma pending_le touches now now' : now ≤ now' → (length (pending touches now') ≤ length (pending touches now))%nat.
Proof. intros Hn. induction touches as [|u l IH]; [done|]. unfold pending in *. rewrite !filter_cons. repeat case_decide; simpl; lia. Qed.

Lemma pending_quiet touches now now' :
  now ≤ now' → length (pending touches now') = length (pending touches now) → Forall (λ u, u ≤ now ∨ now' < u) touches.
Proof.
  intros Hn. induction touches as [|u l IH]; [constructor|]. pose proof (pending_le l now now' Hn).
  unfold pending in *. rewrite !filter_cons. repeat case_decide; simpl; intros Hl; constructor; try lia; apply IH; lia.
Qed.


Lemma last_ms_some touches now :
  0 ≤ now → Forall timely touches → ∃ u, (u = 0 ∨ u ∈ touches) ∧ u ≤ now ∧ last_ms touches now * NANOS_PER_MILLI ≤ u.
Proof.
  intros Hn. induction touches as [|x l IH] using rev_ind; [intros _; exists 0; unfold last_ms; simpl; auto with lia|].
  rewrite Forall_app, Forall_singleton. intros [Hl Hx]. rewrite last_ms_snoc. destruct (Z.leb_spec x now).
  - exists x. pose proof (touch_bounds x Hx). split_and!; [right; set_solver|lia|lia].
  - destruct (IH Hl) as (u & [->|Hu] & ? & ?); [exists 0; auto|exists u; split_and!; [right; set_solver|done..]].
Qed.

Section Waiting.
Variable wake : Z → Z.
Variable late : Z.
Hypothesis wakes : ∀ t, t ≤ wake t ≤ t + late.
Variable touches : list Z.
Variable idle : Z.
Hypothesis idle_pos : 0 < idle.
Hypothesis times : Forall timely touches.

(** A turn that does not return sleeps until the last activity is long enough ago. *)
Lemma next_turn now : 0 ≤ now → quiet touches now < idle →
  let now' := wake (now + (idle - quiet touches now)) in
  now < now' ∧ last_ms touches now * NANOS_PER_MILLI + idle ≤ now' ≤ last_ms touches now * NANOS_PER_MILLI + idle + late.
Proof.
  intros Hn Hq now'. pose proof (last_ms_past touches now Hn times) as Hl.
  pose proof (wakes (now + (idle - quiet touches now))) as Hw. fold now' in Hw. unfold quiet in *. lia.
Qed.

Lemma idle_returns fuel : ∀ now, 0 ≤ now → (length (pending touches now) + 2 ≤ fuel)%nat →
  ∃ t, idle_for wake touches idle fuel now = Some t.
Proof.
  induction fuel as [|fuel IH]; intros now Hn Hf; [lia|]. simpl. destruct (Z.leb_spec idle (quiet touches now)); [eauto|].
  destruct (next_turn now Hn) as [I1 I2]; [done|]. set (now' := wake _) in *.
  pose proof (pending_le touches now now' ltac:(lia)) as Hp.
  destruct (decide (length (pending touches now') = length (pending touches now))) as [He|He]; [|apply IH; lia].
  destruct fuel as [|fuel]; [lia|]. simpl. pose proof (last_ms_quiet touches now now' ltac:(lia) (pending_quiet touches now now' ltac:(lia) He)) as Hl.
  destruct (Z.leb_spec idle (quiet touches now')) as [|Hlt]; [eauto|]. unfold quiet in Hlt. rewrite Hl in Hlt. lia.
Qed.

Lemma idle_returned fuel : ∀ now t, 0 ≤ now → idle_for wake touches idle fuel now = Some t →
  idle ≤ quiet touches t ∧ now ≤ t ∧ (t = now ∨ ∃ u, (u = 0 ∨ u ∈ touches) ∧ u ≤ t ≤ u + idle + late).
Proof.
  induction fuel as [|fuel IH]; intros now t Hn Ht; [done|]. simpl in Ht.
  destruct (Z.leb_spec idle (quiet touches now)); [simplify_eq; auto with lia|].
  destruct (next_turn now Hn) as [I1 I2]; [done|]. set (now' := wake _) in *.
  destruct (IH now' t ltac:(lia) Ht) as (Hq & Hle & Hu). split_and!; [done|lia|]. right. destruct Hu as [->|Hu]; [|done].
  destruct (last_ms_some touches now Hn times) as (u & Hin & ? & ?). exists u. split; [done|]. lia.
Qed.
End Waiting.
End Idle.

(** ** Properties *)

(** C8: who a connection speaks for. A request over an accepted TLS connection is
    authenticated by client certificate only when the handshake of that very
    connection ended with a leaf certificate that the authority of the
    configuration vouched for, whose SHA-256 fingerprint is one of the pins when
    pins are configured, in either case of letters, and whose identity is the
    user; the user has no groups then. When client certificates are required, no
    connection is accepted without such a certificate. [hq_cert req = None]: hyper
    sets no identity of its own; [cache_ok]: the cache of credentials holds
    accepted ones. *)
Theorem pinned_clients `{!Crypto, !Rustls, !RustlsLaws, !PkiCrates, !AuthEnv} read t acc c peer tower :
  build_tls_acceptor read t = Ok acc → handle_conn c peer (Some acc) = Ok tower →
  (∀ req a cache now now_unix user gs, hq_cert req = None → cache_ok a cache →
    (authenticate a cache (hq_headers req) (hq_cert (tower_call tower req)) now now_unix).2 = Ok (User user gs MMtls) →
    gs = [] ∧ ∃ leaf inter, tls_accept acc c = Ok (Some (leaf :: inter)) ∧ trusted_leaf read t leaf ∧
      client_cert_identity leaf = Some user) ∧
  (client_auth t = Required → ∃ leaf inter, tls_accept acc c = Ok (Some (leaf :: inter)) ∧ trusted_leaf read t leaf).
Proof.
  intros Hb Hc. unfold handle_conn in Hc. case_res.
  match goal with H : tls_accept _ _ = Ok ?x |- _ => rename x into certs; rename H into Ha end.
  destruct (accepted_certs read t acc c certs Hb Ha) as [Ht Hr]. split.
  - intros req a cache now now_unix user gs Hq Hok Hau. destruct (authenticate _ _ _ _ _ _) as [c' r] eqn:E. simpl in Hau. subst r.
    destruct (authenticate_user _ _ _ _ _ _ _ _ Hok E) as [_ Hu].
    destruct (Hu _ _ _ eq_refl) as [(_ & Hid & Hgs)|(pw & [(? & _)|(? & _)] & _)]; [|done..].
    simpl in Hid. rewrite Hq in Hid. destruct certs as [[|leaf inter]|]; simpl in Hid; [done| |done].
    split; [done|]. exists leaf, inter. split_and!; [done|by eapply Ht|]. by destruct (client_cert_identity leaf).
  - intros Hreq. destruct (Hr Hreq) as (leaf & inter & ->). exists leaf, inter. split; [done|]. by eapply Ht.
Qed.

(** C34: idle connections are closed, and no others. Whatever bytes move and when,
    the wait for idleness ends, after at most two turns more than bytes moved. At
    its end nothing has moved for the idle time, up to the millisecond that is
    recorded; and it ends no later than the idle time, and the lateness of the
    timer, after the connection was accepted or something moved. *)
Theorem idle_close wake late touches idle :
  (∀ t, t ≤ wake t ≤ t + late)%Z → (0 < idle)%Z → Forall timely touches → StronglySorted Z.le touches →
  ∃ t, idle_for wake touches idle (length touches + 2) 0 = Some t ∧
    (∀ u, u ∈ touches → u ≤ t → u + idle < t + NANOS_PER_MILLI)%Z ∧
    (∃ u, (u = 0 ∨ u ∈ touches) ∧ u ≤ t ≤ u + idle + late)%Z.
Proof.
  intros Hw Hi Ht Hs. destruct (idle_returns wake late Hw touches idle Hi Ht (length touches + 2) 0) as [t E]; [done| |].
  { unfold pending. pose proof (length_filter (λ u, (0 < u)%Z) touches). lia. }
  exists t. split; [done|]. destruct (idle_returned wake late Hw touches idle Hi Ht _ 0 t ltac:(done) E) as (Hq & H0 & Hu).
  unfold quiet in Hq. split.
  - intros u Hin Hut. pose proof (last_ms_latest touches t u Ht Hs Hin Hut). rewrite Forall_forall in Ht.
    pose proof (touch_bounds u (Ht u Hin)). unfold NANOS_PER_MILLI in *. lia.
  - destruct Hu as [->|Hu]; [|done]. exists 0%Z. pose proof (Hw 0%Z). auto with lia.
Qed.

(** ** Witnesses *)

Module ToyTls.
#[export] Existing Instances ToyDirectory.toy_pki Toy.toy_crypto ToyAuth.toy_auth.

(** An authority that vouches for one certificate; a connection is what the peer
    shows. *)
Definition vouch (leaf : bytes) : result string () := if decide (leaf = as_bytes "svc") then Ok tt else Err "unknown issuer".
Definition check (v : option ClientCertVerifier) (certs : option (list bytes)) : result string (option (list bytes)) :=
  match v, certs with
  | None, _ => Ok None
  | Some v, Some (leaf :: inter) => let? _ := verify_client_cert v leaf inter 0 in Ok certs
  | Some v, _ => if client_auth_mandatory v then Err "certificate required" else Ok None
  end.
#[export] Instance toy_rustls : Rustls := {|
  pem_certs b := [Ok b];
  pem_key b := Ok b;
  root_ok _ := Ok tt;
  webpki_verifier roots optional :=
    Ok (mkVerifier true (negb optional) [] (λ leaf _ _, vouch leaf) (λ _ _ _, Ok tt) (λ _ _ _, Ok tt) []);
  safe_versions := Ok tt;
  single_cert _ _ := Ok tt;
  ticketer := Ok tt;
  tcp := option (list bytes);
  tls_accept acc c := check (acc_verifier acc) c;
|}.
#[export] Instance toy_rustls_laws : RustlsLaws.
Proof.
  split; [|by intros roots v [= <-]]. intros acc c certs. simpl. unfold check. destruct (acc_verifier acc) as [v|]; [|by intros [= <-]].
  destruct c as [[|leaf inter]|]; intros Hc.
  - destruct (client_auth_mandatory v); by simplify_eq.
  - case_res. destruct x. split; [|eauto]. intros ? ? [= <- <-]. eauto.
  - destruct (client_auth_mandatory v); by simplify_eq.
Qed.

Definition fingerprint : string := hex_encode (sha256 (as_bytes "svc")).
Definition tls_config : TlsConfig :=
  {| tls_cert := "c"; tls_key := "k"; client_auth := Required; client_ca := Some "ca"; client_cert_sha256 := [fingerprint] |}.
Definition read (p : string) : result io_error bytes := Ok (as_bytes p).
Definition acceptor : TlsAcceptor :=
  match build_tls_acceptor read tls_config with Ok a => a | Err _ => mkAcceptor [] [] None [] 0 0 end.
Definition shows (certs : option (list bytes)) : tcp := certs.
Definition peer : IpAddr := V4 [127; 0; 0; 1]%Z.
Definition request : HttpRequest := mkHttp "GET" "/v2/" "" ∅ None None [].
End ToyTls.

Import ToyTls.

(** A peer with the pinned certificate is accepted and its request is one of the
    user the certificate names; one with another certificate, or with none, is
    not accepted. *)
Lemma pinned_clients_witness :
  handle_conn (shows (Some [as_bytes "svc"])) peer (Some acceptor) = Ok (mkTower (Some "svc.example") peer) ∧
  is_ok (handle_conn (shows (Some [as_bytes "other"])) peer (Some acceptor)) = false ∧
  is_ok (handle_conn (shows None) peer (Some acceptor)) = false ∧
  (authenticate ToyAuth.auth ToyAuth.cache ∅ (hq_cert (tower_call (mkTower (Some "svc.example") peer) request)) 0 0).2 =
    Ok (User "svc.example" [] MMtls) ∧
  ∃ leaf inter, tls_accept acceptor (shows (Some [as_bytes "svc"])) = Ok (Some (leaf :: inter)) ∧
    trusted_leaf read tls_config leaf ∧ client_cert_identity leaf = Some "svc.example".
Proof.
  assert (Hc : handle_conn (shows (Some [as_bytes "svc"])) peer (Some acceptor) = Ok (mkTower (Some "svc.example") peer))
    by (vm_compute; reflexivity).
  split; [exact Hc|]. split; [vm_compute; reflexivity|]. split; [vm_compute; reflexivity|]. split; [reflexivity|].
  destruct (pinned_clients read tls_config acceptor (shows (Some [as_bytes "svc"])) peer _ ltac:(reflexivity) Hc) as [Hu _].
  apply (Hu request ToyAuth.auth ToyAuth.cache 0%Z 0%Z "svc.example" []); [reflexivity| |reflexivity].
  split; [done|]. intros k e He. cbn [cmap ToyAuth.cache] in He. by apply lookup_empty_Some in He.
Defined.

(** Bytes move after 5 ms and after 2.001 s; the idle time is 2 s. *)
Lemma idle_close_witness :
  idle_for (λ t, t) [5000000; 2001000000]%Z 2000000000 4 0 = Some 4001000000%Z ∧
  (2001000000 + 2000000000 < 4001000000 + NANOS_PER_MILLI)%Z.
Proof.
  assert (E : idle_for (λ t, t) [5000000; 2001000000]%Z 2000000000 4 0 = Some 4001000000%Z) by (vm_compute; reflexivity).
  split; [exact E|].
  destruct (idle_close (λ t, t) 0 [5000000; 2001000000]%Z 2000000000) as (t & Et & Hu & _).
  - intros t. lia.
  - lia.
  - repeat constructor; unfold timely, NANOS_PER_MILLI; lia.
  - repeat constructor; lia.
  - change (length [5000000; 2001000000]%Z + 2) with 4 in Et. rewrite E in Et. injection Et as <-. apply Hu; [|lia]. right. left.
Defined.
