(* ===== verification/Cli.v ===== *)
(** The process (roci-cli/src/lib.rs): the command line ([resolve_config]), the
    start of the server ([serve]) and its run: connections, requests through all
    layers, the work of the backends and the reload of the access control.

    This is where the components meet: a configuration becomes an engine, a
    deployment and limiters, and every state the process can get into answers
    requests the way the interface promises. *)

From S2P Require Import Config NetAddr Triple Registry Routing FastRestart Startup AuthLoad RateLimit.
From S2P Require Import StorageApi Prelude RustStr Json Errors Names Digest HttpUtil Policy Auth Routes Paths Quota.
From S2P Require Import Metadata MetaLog MetaStore SmallCache Effect FileSys FileSysFacts Walk Layout Lifecycle UploadBody.
From S2P Require Import FsStorage FsInvariant FsSessions FsBackend FsRun StartupFacts FastRestartFacts.
From S2P Require Import ObjectStore S3Storage S3Keys S3Facts S3Backend S3Recover S3Run S3Registry.
From S2P Require Import Reload Manifests Handlers HandlersFacts Server Connection Backends.

(** ** The command line *)

Record Args := mkArgs { arg_config : option string; arg_listen : option string; arg_storage_root : option string }.

Definition set_listen (l : string) (c : Config) : Config :=
  {| http := {| listen := l; tls := tls (http c); timeouts := timeouts (http c); rate_limit := rate_limit (http c) |};
     storage := storage c; Config.limits := Config.limits c; delete_ := delete_ c; log := log c; telemetry := telemetry c;
     Config.auth := Config.auth c; access_control := access_control c |}.

Definition set_root (r : string) (c : Config) : Config :=
  let s := storage c in
  with_storage
    {| root := r; cache_max_bytes := cache_max_bytes s; small_blob_threshold := small_blob_threshold s;
       Config.dedupe := Config.dedupe s; Config.commit := Config.commit s; Config.fast_restart := Config.fast_restart s;
       Config.s3 := Config.s3 s; subpaths := subpaths s; Config.gc := Config.gc s; Config.scrub := Config.scrub s;
       Config.quota := Config.quota s; Config.metadata := Config.metadata s |} c.

Definition resolve_config `{!TomlCrate} (is_file : string → bool) (read_to_string : string → result io_error string) (args : Args)
    : result ConfigError Config :=
  let? config := match arg_config args with
                 | Some path => Config_load is_file read_to_string path
                 | None => Ok default_config
                 end in
  let config := match arg_listen args with Some l => set_listen l config | None => config end in
  let config := match arg_storage_root args with Some r => set_root r config | None => config end in
  let? _ := Config_validate is_file config in
  Ok config.

(** ** The process *)

(** [AppState::new_with] and [with_auth] *)
Definition app_state (config : Config) (a : option Auth.Auth) : AppState :=
  let l := Config.limits config in
  mkApp (Config.max_body l) (Config.max_upload l) (Config.max_manifest l) (Config.max_page l) (delete_enabled (delete_ config)) a.

Definition with_auth (a : option Auth.Auth) (st : AppState) : AppState :=
  mkApp (max_body st) (max_upload st) (max_manifest st) (max_page st) (can_delete st) a.

Section Process.
Context `{!Crypto, !Hmac, !World, !SerdeJson, !UrlEncoded, !HashIter, !MetadataStore, !Lru, !Cuckoo, !StampSerde}.
Context `{!ObjectStore, !ObjPaths, !UrlCrate, !AuthEnv, !LdapCrate, !PkiCrates, !ClientMap, !Axum, !TomlCrate, !Rustls}.

(** The world of the process: its files, the roots of its storage, how a bucket
    is reached and recovered, the methods HTTP knows, the ages of files, and the
    features of the build. *)
Record ProcessEnv := mkEnv {
  env_is_file : string → bool;
  env_read : string → result io_error bytes;
  env_read_to_string : string → result io_error string;
  env_site : string → result io_error Site;
  env_connect : S3Config → result io_error ((string → string → Z → result string url) * BucketHttp);
  env_remote : RemoteEnv;
  env_is_method : string → bool;
  env_age : Fs → path → Z;
  env_s3 : bool;
  env_ldap : bool;
}.
Variable env : ProcessEnv.

Record Process := mkProcess {
  pr_app : AppState;
  pr_server : @Server deployment_storage _;
  pr_reload : option (string * Reload);
  pr_tls : option TlsAcceptor;
}.

(** [serve] until the first connection. [at_load] and [at_read] are what the
    reload task finds of the configuration file when it starts, after recovery. *)
Definition serve_start (config : Config) (config_path : option string) (at_load at_read : result io_error bytes) (now : Z)
    : result string Process :=
  let? auth := map_err (λ e, "invalid auth config: " +:+ e)
                 (Auth_from_config (env_read env) (env_read_to_string env) (env_ldap env) config) in
  let? storage := build_storage (env_site env) (env_connect env) (env_s3 env) config in
  let storage := each_backend (any_recover (env_remote env)) storage in
  let reload := match auth, config_path with
                | Some _, Some path => Some (path, reload_start (env_is_file env) path config at_load at_read)
                | _, _ => None
                end in
  let? tls := match tls (http config) with
              | Some t => let? acc := build_tls_acceptor (env_read env) t in Ok (Some acc)
              | None => Ok None
              end in
  let cache_ttl := match auth with Some (_, c) => ttl c | None => 0%Z end in
  Ok (mkProcess (app_state config (fst <$> auth))
        (server_new (H := deployment_storage) (env_is_method env) (rate_limit (http config)) cache_ttl now storage) reload tls).

(** A request over an accepted connection. *)
Definition respond (p : Process) (t : TowerToHyperService) (m : Matched) (req : HttpRequest) (now now_unix : Z)
    (probe : option (result StorageError ())) : @Server deployment_storage _ * option Response :=
  build_router (H2 := deployment_storage) (pr_app p) now now_unix true probe m (tower_call t req) (pr_server p).

(** What happens to a process. *)
Inductive event :=
  | ERequest (c : tcp) (peer : IpAddr) (m : Matched) (req : HttpRequest) (now now_unix : Z) (probe : option (result StorageError ()))
  | EWork (repo : string) (o : any_op)
  | EReload (at_read at_load : result io_error bytes).

Definition process_step (ev : event) (p : Process) : Process :=
  match ev with
  | ERequest c peer m req now now_unix probe =>
      match handle_conn c peer (pr_tls p) with
      | Ok t => mkProcess (pr_app p) (respond p t m req now now_unix probe).1 (pr_reload p) (pr_tls p)
      | Err _ => p
      end
  | EWork repo o =>
      let s := pr_server p in
      mkProcess (pr_app p) (put_store (H2 := deployment_storage) (work_at (env_age env) repo o (sv_store s)) s)
        (pr_reload p) (pr_tls p)
  | EReload at_read at_load =>
      match pr_reload p, auth (pr_app p) with
      | Some (path, t), Some a =>
          let '(t, a) := reload_turn (env_is_file env) path at_read at_load t a in
          mkProcess (with_auth (Some a) (pr_app p)) (pr_server p) (Some (path, t)) (pr_tls p)
      | _, _ => p
      end
  end.
End Process.

(** ** Every state of the process keeps the contract *)

Section Running.
Context `{!Crypto, !CryptoLaws, !Hmac, !World, !SerdeJson, !UrlEncoded, !HashIter, !MetadataStore, !MetadataStoreLaws,
  !Lru, !LruLaws, !Cuckoo, !CuckooLaws, !StampSerde}.
Context `{!ObjectStore, !ObjectStoreLaws, !ObjPaths, !ObjPathLaws, !UrlCrate}.
Context `{!AuthEnv, !LdapCrate, !PkiCrates, !ClientMap, !Axum, !TomlCrate, !Rustls}.
Variable env : ProcessEnv.

(** The largest content the interface takes. *)
Variable largest : Z.

Abbreviation laws := (deployment_laws largest).
Abbreviation dep_ok := (deployment_ok largest).

(** No request names an upload session like a file of the layout
    ([request_ok]); work is on well-formed digests and such sessions, and what
    goes on beside a scrub pass keeps the invariant of the store ([any_op_ok]). *)
Definition event_ok (ev : event) (p : Process) : Prop :=
  match ev with
  | ERequest _ _ (MRest rest) _ _ _ _ => request_ok rest
  | EWork repo o => any_op_ok o (backend_for (dep_table (sv_store (pr_server p))) repo)
  | _ => True
  end.

Inductive reaches (p0 : Process) : Process → Prop :=
  | reaches_start : reaches p0 p0
  | reaches_step p ev : reaches p0 p → event_ok ev p → reaches p0 (process_step env ev p).

Definition proc_ok (p : Process) : Prop :=
  dep_ok (sv_store (pr_server p)) ∧ (max_upload (pr_app p) ≤ largest)%Z ∧ (max_manifest (pr_app p) ≤ largest)%Z.

Lemma dispatch_keeps st rest req (d : Deployment) :
  (max_upload st ≤ largest)%Z → (max_manifest st ≤ largest)%Z → request_ok rest → dep_ok d →
  dep_ok (dispatch (H2 := deployment_storage) st rest req d).1.
Proof.
  intros Hu Hm Hr Hd.
  destruct (@dispatch_cases _ _ _ deployment_storage st rest req d) as [(e & _ & E)|(parsed & Hp & _)]; [by rewrite E|].
  by apply (dispatch_ensures (H4 := laws) st rest req parsed (conj Hu Hm) Hp (Hr parsed Hp)).
Qed.

Abbreviation server := (@Server deployment_storage _).

Lemma stack_keeps st now now_unix rest req (s : server) :
  (max_upload st ≤ largest)%Z → (max_manifest st ≤ largest)%Z → (∀ r, rest = Some r → request_ok r) →
  dep_ok (sv_store s) → dep_ok (sv_store (v2_stack (H2 := deployment_storage) st now now_unix rest req s).1).
Proof.
  intros Hu Hm Hr Hd. destruct (v2_stack_cases (H2 := deployment_storage) st now now_unix rest req s)
    as [(s' & r & -> & Es & _)|(p & s2 & -> & Es & _)]; [simpl; by rewrite Es|].
  destruct (v2_route_cases (H2 := deployment_storage) st rest req p s2) as [(r & -> & _)|(rest' & m & x & r & -> & _ & Ed & ->)];
    simpl; [by rewrite Es|].
  rewrite Es in Ed. pose proof (dispatch_keeps st rest' (handler_request m p req) (sv_store s) Hu Hm (Hr _ eq_refl) Hd) as Hk.
  by rewrite Ed in Hk.
Qed.

Lemma health_keeps r req (s : server) : (health_route (H2 := deployment_storage) r req s).1 = s.
Proof. unfold health_route. by repeat case_match. Qed.

Lemma router_keeps st now now_unix recovered probe m req (s : server) :
  (max_upload st ≤ largest)%Z → (max_manifest st ≤ largest)%Z → (∀ r, m = MRest r → request_ok r) →
  dep_ok (sv_store s) → dep_ok (sv_store (build_router (H2 := deployment_storage) st now now_unix recovered probe m req s).1).
Proof.
  intros Hu Hm Hr Hd. unfold build_router. destruct (early_data_middleware _ _); [done|].
  destruct m; rewrite ?health_keeps; try done; apply stack_keeps; naive_solver.
Qed.

Lemma step_keeps ev p : event_ok ev p → proc_ok p → proc_ok (process_step env ev p).
Proof.
  intros Hev (Hd & Hu & Hm). destruct ev as [c peer m req now now_unix probe|repo o|at_read at_load]; simpl.
  - destruct (handle_conn c peer (pr_tls p)) as [t|e]; [|done]. split_and!; [|done..]. simpl. unfold respond.
    apply router_keeps; try done. intros r ->. done.
  - split_and!; [|done..]. by apply work_at_ok.
  - destruct (pr_reload p) as [[path t]|]; [|done]. destruct (auth (pr_app p)); [|done].
    by destruct (reload_turn _ _ _ _ _ _).
Qed.

Lemma reaches_ok p0 p : proc_ok p0 → reaches p0 p → proc_ok p.
Proof. intros Hp0. induction 1; [done|]. by apply step_keeps. Qed.

(** A start from a configuration that was accepted. *)
Lemma start_ok config path at_load at_read now p0 :
  honest_sites (env_site env) (env_connect env) → Config_validate (env_is_file env) config = Ok tt →
  (0 ≤ cache_max_bytes (storage config) < 2 ^ 63)%Z →
  (Config.max_upload (Config.limits config) ≤ largest)%Z → (Config.max_manifest (Config.limits config) ≤ largest)%Z →
  (s3_sections (storage config) ≠ [] → (largest ≤ S3_COPY_LIMIT)%Z) →
  serve_start env config path at_load at_read now = Ok p0 → proc_ok p0.
Proof.
  intros Hh Hv Hc Hu Hm Hl Hs. unfold serve_start in Hs. case_res. split_and!; [|done..]. simpl.
  apply each_backend_ok; [apply any_recover_ok|]. by eapply build_storage_ok.
Qed.

Lemma resolved_valid read_to_string args config :
  resolve_config (env_is_file env) read_to_string args = Ok config → Config_validate (env_is_file env) config = Ok tt.
Proof. unfold resolve_config. intros Hr. case_res. by destruct x0. Qed.
End Running.

(** ** Users *)

Section Users.
Context `{!Crypto, !Hmac, !World, !SerdeJson, !UrlEncoded, !HashIter, !MetadataStore, !Lru, !Cuckoo, !StampSerde}.
Context `{!ObjectStore, !ObjPaths, !UrlCrate, !AuthEnv, !LdapCrate, !PkiCrates, !ClientMap, !Axum, !TomlCrate, !Rustls, !RustlsLaws}.
Variable env : ProcessEnv.

(** What a request does to the cache of credentials. *)
Lemma router_cache st now now_unix recovered probe m req (s : @Server deployment_storage _) a :
  auth st = Some a →
  let c := sv_cache (build_router (H2 := deployment_storage) st now now_unix recovered probe m req s).1 in
  c = sv_cache s ∨ c = (authenticate a (sv_cache s) (hq_headers req) (hq_cert req) now now_unix).1.
Proof.
  intros Ha. assert (Hr : ∀ rest p s1, sv_cache (v2_route (H2 := deployment_storage) st rest req p s1).1 = sv_cache s1).
  { intros rest p s1. destruct (v2_route_cases (H2 := deployment_storage) st rest req p s1) as [(r & -> & _)|(? & ? & ? & ? & _ & _ & _ & ->)]; done. }
  assert (Hp : ∀ rest p s1, sv_cache (per_client_rate_limit_middleware (H2 := deployment_storage) now req p
    (v2_route (H2 := deployment_storage) st rest req p) s1).1 = sv_cache s1).
  { intros rest p s1. unfold per_client_rate_limit_middleware. destruct (sv_clients s1) as [l|]; [|apply Hr].
    destruct (per_client_check l _ now) as [l' [[]|n]]; [|done]. by rewrite Hr. }
  assert (Hv : ∀ rest, let c := sv_cache (v2_stack (H2 := deployment_storage) st now now_unix rest req s).1 in
    c = sv_cache s ∨ c = (authenticate a (sv_cache s) (hq_headers req) (hq_cert req) now now_unix).1).
  { intros rest. assert (Hn : ∀ s1, sv_cache s1 = sv_cache s → sv_cache (authn_layer (H2 := deployment_storage) st now now_unix req
      (λ p, per_client_rate_limit_middleware (H2 := deployment_storage) now req p (v2_route (H2 := deployment_storage) st rest req p)) s1).1 =
      (authenticate a (sv_cache s) (hq_headers req) (hq_cert req) now now_unix).1).
    { intros s1 Ec. unfold authn_layer, authn_middleware. rewrite Ha, Ec. destruct (authenticate a _ _ _ _ _) as [c [p|e]]; [|done].
      case_match; [apply Hp|done]. }
    unfold v2_stack, rate_limit_middleware. destruct (sv_limiter s) as [l|]; [|right; by apply Hn].
    destruct (limiter_check l _ now) as [l' [[]|n]]; [right; by apply Hn|by left]. }
  unfold build_router. destruct (early_data_middleware _ _); [by left|].
  destruct m; try apply Hv; left; unfold health_route; by repeat case_match.
Qed.

(** The engine is the one of the configuration, but for its policy; the cache holds
    credentials it accepted; and the acceptor is the one of the configuration. *)
Definition users_ok (config : Config) (p : Process) : Prop :=
  (∀ a, auth (pr_app p) = Some a → cache_ok a (sv_cache (pr_server p)) ∧ ∃ a0 c0 ac,
     Auth_from_config (env_read env) (env_read_to_string env) (env_ldap env) config = Ok (Some (a0, c0)) ∧
     a = mkAuth (realm a0) (Auth.htpasswd a0) (Auth.ldap a0) (Auth.bearer a0) (mtls a0) ac) ∧
  match tls (http config), pr_tls p with
  | Some t, Some acc => build_tls_acceptor (env_read env) t = Ok acc
  | None, None => True
  | _, _ => False
  end.

Lemma start_users config path at_load at_read now p0 :
  serve_start env config path at_load at_read now = Ok p0 → users_ok config p0.
Proof.
  unfold serve_start. intros Hs. case_res. split.
  - simpl. destruct x as [[a0 c0]|]; [|done]. intros a [= <-]. split.
    + split; [done|]. intros k e He. simpl in He. by rewrite lookup_empty in He.
    + exists a0, c0, (policy a0). split; [done|]. by destruct a0.
  - simpl. destruct (tls (http config)) as [t|]; case_res; done.
Qed.

Lemma reload_keeps_engine is_file path l1 l2 t a t' a' :
  reload_turn is_file path l1 l2 t a = (t', a') →
  ∃ ac, a' = mkAuth (realm a) (Auth.htpasswd a) (Auth.ldap a) (Auth.bearer a) (mtls a) ac.
Proof.
  unfold reload_turn, apply_config_reload, reload_access_control. intros Hr. exists (policy a').
  repeat case_match; simplify_eq; by try destruct a'; try destruct a.
Qed.

Lemma step_users config ev p : users_ok config p → users_ok config (process_step env ev p).
Proof.
  intros [Hu Ht]. destruct ev as [c peer m req now now_unix probe|repo o|at_read at_load]; simpl; [| |].
  - destruct (handle_conn c peer (pr_tls p)) as [t|e]; [|done]. split; [|done]. simpl. intros a Ha.
    destruct (Hu a Ha) as [Hc Hx]. split; [|done]. unfold respond.
    destruct (router_cache (pr_app p) now now_unix true probe m (tower_call t req) (pr_server p) a Ha) as [->| ->]; [done|].
    destruct (authenticate a _ _ _ _ _) as [c' r] eqn:E. by destruct (authenticate_user _ _ _ _ _ _ _ _ Hc E).
  - by split.
  - destruct (pr_reload p) as [[path t]|]; [|done]. destruct (auth (pr_app p)) as [a|] eqn:Ea; [|by split; [rewrite Ea|]].
    destruct (reload_turn _ path at_read at_load t a) as [t' a'] eqn:Er. apply reload_keeps_engine in Er as [ac ->].
    destruct (Hu a eq_refl) as [Hc (a0 & c0 & ac0 & Hf & ->)]. split; [|done]. simpl. intros a1 [= <-]. split; [exact Hc|].
    by exists a0, c0, ac.
Qed.

(** What becomes of a process: any events, whatever they are. *)
Definition process_run (evs : list event) (p : Process) : Process := foldl (λ p ev, process_step env ev p) p evs.

Lemma run_users config evs : ∀ p, users_ok config p → users_ok config (process_run evs p).
Proof. induction evs as [|ev evs IH]; intros p Hp; [done|]. by apply IH, step_users. Qed.
End Users.


(** C7: who is served. At any time of a process, after any events, a request
    that the layers admit for a named user either came over a connection whose
    own handshake ended with a client certificate that names the user, is vouched
    for by the configured authority and is pinned if pins are configured; or it
    carries a Basic Authorization header with the name and a password (or with a
    pair that has the same SHA-256 key of the cache, [sent_credentials]) such that
    the configured password file holds a hash for the name that the password
    verifies against, or the configured directory has exactly one entry for the
    name and let it bind with the password, which is not empty, and the groups are
    those of the entry. Reloads of the access control, and what earlier requests
    left in the cache, change nothing about this. *)
Theorem served_users
    `{!Crypto, !Hmac, !World, !SerdeJson, !UrlEncoded, !HashIter, !MetadataStore, !Lru, !Cuckoo,
      !StampSerde, !ObjectStore, !ObjPaths, !UrlCrate,
      !AuthEnv, !LdapCrate, !PkiCrates, !ClientMap, !Axum, !TomlCrate, !Rustls, !RustlsLaws}
    env config path at_load at_read started p0 evs c peer t req now now_unix user gs m :
  let p := process_run env evs p0 in
  serve_start env config path at_load at_read started = Ok p0 →
  handle_conn c peer (pr_tls p) = Ok t → hq_cert req = None →
  admitted_as (H2 := deployment_storage) (pr_app p) now now_unix (tower_call t req) (pr_server p) (User user gs m) →
  (m = MMtls ∧ gs = [] ∧ ∃ tc acc leaf inter, tls (http config) = Some tc ∧ pr_tls p = Some acc ∧
     tls_accept acc c = Ok (Some (leaf :: inter)) ∧ trusted_leaf (env_read env) tc leaf ∧
     client_cert_identity leaf = Some user) ∨
  ∃ pw, sent_credentials (hq_headers req) user pw ∧
   ((m = MHtpasswd ∧ gs = [] ∧ ∃ h text ht hash, Config.htpasswd (Config.auth config) = Some h ∧
       env_read_to_string env (htpasswd_path h) = Ok text ∧ htpasswd_parse text = Ok ht ∧
       users ht !! user = Some hash ∧ bcrypt_verify pw hash = Some true) ∨
    (m = MLdap ∧ ∃ lc l, Config.ldap (Config.auth config) = Some lc ∧ LdapAuthenticator_new (env_read_to_string env) lc = Ok l ∧
       pw ≠ "" ∧ ldap_bound l user pw gs)).
Proof.
  intros p Hs Hc Hq (Hau & _ & _). apply start_users in Hs. destruct (run_users env config evs p0 Hs) as [Hu Ht]. fold p in Hu, Ht.
  destruct (auth (pr_app p)) as [a|]; [|done]. destruct (Hu a eq_refl) as (Hok & a0 & c0 & ac & Hf & ->).
  apply from_config_spec in Hf as (_ & _ & _ & Hht & Hld & _).
  destruct (authenticate _ _ _ _ _ _) as [c' r] eqn:E. simpl in Hau. subst r.
  destruct (authenticate_user _ _ _ _ _ _ _ _ Hok E) as [_ Hx].
  destruct (Hx _ _ _ eq_refl) as [(-> & Hid & ->)|[pw [[(-> & -> & ht & hash & Eh & Eu & Hv)|(-> & f & Ef & Hpw & Hfl)] Hsent]]].
  - left. split_and!; [done..|]. simpl in Hid. rewrite Hq in Hid. unfold handle_conn in Hc.
    destruct (pr_tls p) as [acc|]; case_res. destruct (tls (http config)) as [tc|]; [|done].
    match goal with H : tls_accept _ _ = Ok ?x |- _ => destruct x as [[|leaf inter]|] eqn:Ex; simpl in Hid; try done; rename H into Hacc end.
    exists tc, acc, leaf, inter. destruct (client_cert_identity leaf) as [id|] eqn:Eid; simplify_eq. split_and!; [done..| |done].
    destruct (accepted_certs (env_read env) tc acc c _ Ht Hacc) as [Hl _]. by eapply Hl.
  - right. exists pw. split; [done|]. left. split_and!; [done..|]. simpl in Eh. rewrite Eh in Hht.
    destruct (Config.htpasswd (Config.auth config)) as [h|]; [|done]. destruct Hht as (text & Er & Ep). by exists h, text, ht, hash.
  - right. exists pw. split; [done|]. right. split; [done|]. simpl in Ef. rewrite Ef in Hld.
    destruct (Config.ldap (Config.auth config)) as [lc|]; [|done].
    destruct Hld as (l & El & ->). exists lc, l. split_and!; [done..|]. by apply ldap_lookup_bound.
Qed.

(** ** Witnesses *)

(** A registry with a bucket for one prefix, for clients with certificates, the
    first of whom is the administrator; one user has a password. *)
Module ToyProcess.
#[export] Existing Instances ToyServer.toy_world Toy.toy_crypto Toy.toy_laws ToyLog.toy_json ToyStore.state_store
  ToyStore.state_store_laws ToyCache.toy_lru ToyCache.toy_lru_laws ToyCache.toy_cuckoo ToyCache.toy_cuckoo_laws map_order
  ToyRegistry.toy_url ToyObjects.toy_objects ToyObjects.toy_objects_laws ToyPaths.toy_paths ToyPaths.toy_path_laws ToyS3.toy_urls
  ToyLog.toy_hmac ToyStamp.toy_stamp ToyAuth.toy_auth ToyDirectory.toy_ldap ToyDirectory.toy_pki ToyLimiter.toy_clients
  ToyStack.toy_axum ToyTls.toy_rustls ToyTls.toy_rustls_laws.

Definition config : Config := {|
  http := {| listen := listen default_http; tls := Some ToyTls.tls_config; timeouts := timeouts default_http;
             rate_limit := ToyStack.limits |};
  storage := with_subpaths [("b", {| sub_root := "/srv/b"; sub_s3 := Some example_s3 |})] default_storage;
  Config.limits := default_limits; delete_ := default_delete; log := default_log; telemetry := default_telemetry;
  Config.auth := {| auth_realm := "roci"; Config.htpasswd := Some {| htpasswd_path := "alice:$2a$10secret" |}; Config.ldap := None;
                    Config.bearer := None; cache_ttl_secs := 60 |};
  access_control := Some {| ac_admins := ["svc.example"]; ac_groups := []; repositories := [] |} |}.
#[export] Instance toy_toml : TomlCrate := {| toml_from_str _ := Ok config |}.

Definition empty_site : Site :=
  {| site_fs := mkFs ∅ 1 0; site_meta := (∅ : State); site_instance := ToyStamp.x; site_bucket := ToyObjects.mkObjects ∅ [] |}.
Definition env : ProcessEnv := {|
  env_is_file _ := true;
  env_read := ToyTls.read;
  env_read_to_string p := Ok p;
  env_site _ := Ok empty_site;
  env_connect _ := Ok (ToyS3.sign, ToyS3.http);
  env_remote := {| re_fuel := 100; re_depth := 20; re_create_bucket := false; re_started := 0; re_after n := Z.of_nat n |};
  env_is_method _ := true;
  env_age _ _ := 0%Z;
  env_s3 := true;
  env_ldap := false;
|}.
Definition args : Args := mkArgs (Some "roci.toml") (Some "0.0.0.0:443") None.
Definition resolved : Config :=
  match resolve_config (env_is_file env) (env_read_to_string env) args with Ok c => c | Err _ => default_config end.
Definition file : result io_error bytes := Ok (as_bytes "roci.toml").
Definition started : result string Process := serve_start env resolved (arg_config args) file file 0.
(** The administrator pushes a manifest to the bucket, then reads it. *)
Definition tower : TowerToHyperService := mkTower (Some "svc.example") ToyTls.peer.
Definition rest : string := "b/x/manifests/v1".
Definition http_request (method : string) : HttpRequest := mkHttp method ("/v2/" +:+ rest) "" ∅ None None [Ok (as_bytes "{}")].
Definition push : event :=
  ERequest (ToyTls.shows (Some [as_bytes "svc"])) ToyTls.peer (MRest rest) (http_request "PUT") 0 0 None.
Definition with_cert : tcp := ToyTls.shows (Some [as_bytes "svc"]).
(** Alice reads with her password. *)
Definition login : HeaderMap := {["authorization" := HvText "Basic alice:secret"]}.
Definition alice : HttpRequest := mkHttp "GET" ("/v2/" +:+ rest) "" login None None [].
Definition get_alice : event := ERequest with_cert ToyTls.peer (MRest rest) alice 0 0 None.
End ToyProcess.

Import ToyProcess.

Lemma toy_honest : honest_sites (env_site env) (env_connect env).
Proof.
  split; [|by intros c signer h u [= <- <-] b]. intros r x [= <-]. split.
  - intros p i b Hp. simpl in Hp. by rewrite lookup_empty in Hp.
  - intros k d c _ Hc. simpl in Hc. by rewrite lookup_empty in Hc.
Qed.

(** The status and the body of an answer. *)
Definition shown (r : option Response) : Z * Body :=
  match r with Some resp => (resp_status resp, resp_body resp) | None => (0%Z, BEmpty) end.


(** What the layers say to a request, and how its connection was accepted. *)
Definition verdicts (p : Process) (c : tcp) (req : HttpRequest) (who : Principal)
    : option (result ApiError Principal) * option (result Z ()) * option (result Z ()) * result string TowerToHyperService :=
  let s := pr_server p in
  ((λ a, (authenticate a (sv_cache s) (hq_headers req) (hq_cert req) 0 0).2) <$> auth (pr_app p),
   (λ l, (limiter_check l (hq_method req) 0).2) <$> sv_limiter s,
   (λ l, (per_client_check l (client_key_from who (hq_peer req)) 0).2) <$> sv_clients s,
   handle_conn c ToyTls.peer (pr_tls p)).

Lemma verdicts_admit p c req who t :
  verdicts p c req who = (Some (Ok who), Some (Ok tt), Some (Ok tt), Ok t) →
  admitted_as (H2 := deployment_storage) (pr_app p) 0 0 req (pr_server p) who ∧ handle_conn c ToyTls.peer (pr_tls p) = Ok t.
Proof.
  unfold verdicts, admitted_as. intros Hv. injection Hv as Ha Hl Hc Ht. split; [|exact Ht].
  destruct (auth (pr_app p)) as [a|]; [|discriminate Ha]. injection Ha as Ha. split; [exact Ha|]. split.
  - intros l El. rewrite El in Hl. by injection Hl.
  - intros l El. rewrite El in Hc. by injection Hc.
Qed.

(** The administrator is who the certificate says; and Alice, after she was
    admitted once and her credentials are in the cache, who her password says. *)
Lemma served_users_witness :
  match started with
  | Ok p0 =>
      (∃ tc acc leaf inter, tls (http resolved) = Some tc ∧ pr_tls p0 = Some acc ∧
         tls_accept acc with_cert = Ok (Some (leaf :: inter)) ∧ trusted_leaf (env_read env) tc leaf ∧
         client_cert_identity leaf = Some "svc.example") ∧
      ∃ pw text ht hash, sent_credentials login "alice" pw ∧ htpasswd_parse text = Ok ht ∧
        users ht !! "alice" = Some hash ∧ bcrypt_verify pw hash = Some true
  | Err _ => False
  end.
Proof.
  assert (Hs : match started with
               | Ok p0 => (verdicts p0 with_cert (tower_call tower (http_request "PUT")) (User "svc.example" [] MMtls),
                           verdicts (process_run env [get_alice] p0) with_cert (tower_call tower alice) (User "alice" [] MHtpasswd))
               | Err _ => ((None, None, None, Err ""), (None, None, None, Err ""))
               end = ((Some (Ok (User "svc.example" [] MMtls)), Some (Ok tt), Some (Ok tt), Ok tower),
                      (Some (Ok (User "alice" [] MHtpasswd)), Some (Ok tt), Some (Ok tt), Ok tower))) by (vm_compute; reflexivity).
  destruct started as [p0|e] eqn:E0; [|discriminate Hs]. apply pair_equal_spec in Hs as [Hs1 Hs2].
  destruct (verdicts_admit _ _ _ _ _ Hs1) as [Ha Hc]. destruct (verdicts_admit _ _ _ _ _ Hs2) as [Ha' Hc'].
  split.
  - destruct (served_users env resolved (arg_config args) file file 0 p0 [] with_cert ToyTls.peer tower
      (http_request "PUT") 0 0 "svc.example" [] MMtls E0 Hc eq_refl Ha) as [(_ & _ & Hx)|(pw & _ & [(? & _)|(? & _)])];
      [exact Hx|discriminate..].
  - destruct (served_users env resolved (arg_config args) file file 0 p0 [get_alice] with_cert ToyTls.peer tower
      alice 0 0 "alice" [] MHtpasswd E0 Hc' eq_refl Ha') as [(? & _)|(pw & Hsent & [(_ & _ & Hx)|(? & _)])];
      [discriminate| |discriminate].
    destruct Hx as (h & text & ht & hash & _ & _ & Ep & Eu & Ev). by exists pw, text, ht, hash.
Defined.
